(* ===== verification/_CoqProject ===== *)
-Q . S2P
Prelude.v
Report.v
ModuleDiff.v
Breaking.v
ClosureDiff.v
Timestamp.v
Strings.v
Policy.v
PolicyLoad.v
Evaluator.v
AuditTrail.v
Requests.v
Preflight.v
Archive.v
Admit.v
RequestHandlers.v
EventBus.v
ResponseCache.v
Cascade.v
Ingest.v
Digest.v
FileSystem.v
Mirror.v
Verify.v
Drift.v
ScipClosure.v
Forgewatch.v
IdentityAuth.v
Egress.v
Index.v
Catalog.v
GraphClosure.v
Compat.v
Resolve.v
Bump.v
Health.v
Sync.v
Publish.v
Codenav.v
Search.v
References.v
Surface.v
Airgap.v
Watch.v
Startup.v
HeadTags.v
Pages.v
Ledger.v
