(* ===== verification/Prelude.v ===== *)
(** * bzlhub: a verification library

    bzlhub is a self-hosted hub for Bazel modules: a mirror of the Bazel Central Registry on
    disk, an index of what the modules' sources declare, a workflow by which users ask for
    modules that are not there yet, and the services around them.  This library models its
    core, [internal/] under src/, and proves what makes it correct.

    ** The program and the files

    _Text, time, digests._  Strings.v (Go's [strings], as far as it is used), Timestamp.v
    (instants as fixed-width text, compared as text by SQL), Digest.v (SHA-256, hexadecimal,
    base64 and integrity strings: internal/fetch/sri.go).

    _The disk._  Archive.v (extraction of archives, and Go's [filepath]: internal/archive),
    FileSystem.v (the calls of [os] as a state monad under a plan of faults, crashes and power
    loss, with a Hoare logic [spec]), Mirror.v (atomic writes and the mirror's layout:
    internal/mirror, the mirroring step of internal/ingest/recursive.go), Verify.v (the
    checks of a mirror: internal/verify), Publish.v (the three publishers, on git:
    internal/publish), Resolve.v (download, check and unpack a source: internal/resolve).

    _The index._  Report.v (the analyser's report: the vendored assay/report), Index.v (the
    tables of internal/store and their cascades), Catalog.v (listing, cards, usage counts:
    internal/bzlhub), GraphClosure.v (the walk of stored dependencies and the ingest of what
    is missing), ScipClosure.v (the walk that names repositories: internal/scip), Compat.v
    (the analysis of a MODULE.bazel, its plan and script: internal/compat), Codenav.v (unpacked
    sources and their cache: internal/codenav), Search.v (the three searches: internal/bzlhub/
    search.go), References.v (symbols, their consumers, unresolved loads: internal/scip,
    internal/bzlhub/consumers.go), Surface.v (what a module fetches besides its dependencies:
    internal/external, internal/bzlhub/service_external.go), Airgap.v (the configuration
    rendered from it).

    _The pages._  HeadTags.v (the tags of a page's head and the page they are injected into:
    internal/server/headtags, internal/embed), Pages.v (preview cards and their cache, the
    versions table, the sitemap: internal/server/og_handlers.go, version_entries.go, sitemap),
    Ledger.v (maintainers and the grants they hold, module sources: internal/store).

    _What changed._  ModuleDiff.v and Breaking.v (internal/modulediff), ClosureDiff.v (the pool
    of internal/closurediff).

    _From an upstream to the hub._  Ingest.v (the concurrent closure walk of
    internal/ingest), Bump.v (one module's ingest: internal/bzlhub/service_ingest.go), Drift.v
    (internal/drift and its stored verdicts), Sync.v (the runs that follow upstream),
    Health.v (internal/bzlhub/health), Forgewatch.v (internal/forgewatch, and the four
    forge clients of the vendored bigorna), Watch.v (the handler
    the watcher calls: cmd/bzlhub/watch), Startup.v (profile, flags, boot gates and reload:
    internal/config, internal/featureflags, internal/runtime), Egress.v
    (internal/egress and internal/fetch), ResponseCache.v and Cascade.v (the federation of
    internal/backend).

    _People and requests._  Policy.v, PolicyLoad.v, Evaluator.v (internal/policy and
    internal/auth/auth.go), IdentityAuth.v (identity file and request identity), Requests.v
    (internal/store/requests.go), Preflight.v (internal/preflight), Admit.v (internal/admit),
    RequestHandlers.v (internal/server/request_handlers.go), AuditTrail.v (internal/store/
    audit.go and internal/audit), EventBus.v (internal/eventbus).

    They interact as the code does: an approved request (RequestHandlers, Requests) is
    fetched and published by Admit; a bump (Bump) calls Resolve, Mirror, Index, ScipClosure and
    writes AuditTrail; Sync drives Drift, whose lookups are Mirror's files; Verify reads what
    Mirror writes, and Verify's theorem [mirror_survives_verify] says that the one finds
    nothing against the other; Watch brings what Forgewatch saw into Index and Surface; Airgap
    renders the surface that Surface gathers over GraphClosure's walk; Startup hands Egress its
    posture and IdentityAuth and Policy their files; Cascade asks ResponseCache through the class [Cache], Compat
    asks the index through [ReportSource], Publish asks git through [GitCommands].

    ** How code becomes a definition

    A struct is a [Record] with its fields in order, an enumeration of string constants is a
    [string] where the code can meet other values and an [Inductive] where it cannot.  A
    Go map is a [gmap], or an association list in its iteration order where the order
    may show.  [(value, error)] is [result]; an error that is looked into has a type of its
    own.  A method is a function of its receiver's state; a call that changes a file is a
    computation in [os], one that runs git in [gm]; an SQL statement is one atomic function
    of the tables, with a parameter for the error the database may report.  Goroutines are
    step relations over their atomic pieces (Ingest, EventBus, ClosureDiff, Cascade,
    Forgewatch, Codenav, Startup, Pages), so that a theorem is about every schedule.  Durations and counts are [Z]
    with their width written out where it can overflow (Health, AuditTrail, Archive).  What
    is not under src/ (JSON and YAML codecs, decompressors, the Starlark parser, net/http,
    SQLite, git, clocks, random text) is a parameter, and what is known of it a
    hypothesis or the law of a class; the witnesses, at the end of each file, apply the
    theorems to concrete instances.

    ** What is shown

    Safety of the mirror: every file it serves is complete and every archive meets its
    declared integrity, under any faults, crash and power loss ([mirror_sound],
    [atomicWrite_atomic], [unverified_unpublished]; a bump has one way out, a write that
    fails at a part of the archive that the decompressors have no need of:
    [bump_mirror_sound]); extraction never leaves its directory ([extraction_confined]); an
    unpacked source is the archive, where the machine keeps its power, no [os.Stat] fails, no
    archive has an entry by the marker's name and calls for it do not overlap
    ([sources_exact]); a publish loses nobody's commit ([direct_published], where a success
    with another branch checked out has pushed nothing of the request's; [pr_published]).
    Access: [egress_confined], [posture_enforced] (of the HTTP clients built on the process's
    posture: git and the CDN purge are outside it), [group_access], [live_guarded],
    [transition_winners].  Exactness of what is computed: [report_indexed], [store_refines]
    (a report reads back as its encoding decodes), [no_errors_iff_healthy],
    [backfill_exact], [classify_refines], [cascade_answer], [card_agrees], [search_exact],
    [consumers_exact], [corpus_exact], [airgap_exact], [config_directives] (but for line
    breaks that nothing checks for), [grants_exact], [script_commands], [derive_worst].  Pages:
    [page_block], [versions_table], [sitemap_locations], [card_address], and [card_answer]: a
    card is never another's, and is whole where requests for it do not overlap.
    Termination and completeness of the walks: [ingest_terminates], [ingest_complete],
    [closure_fixpoint], [closure_exact], [closure_pool_correct], [resolver_builds_once].  Histories:
    [request_history], [history_latest], [loop_keeps_current], [watcher_at_least_once] (where
    no poll finds more than the page of a hundred commits that the clients ask for),
    [watch_synced] (but for the versions whose last ingest failed or was cut off, which it
    counts as owed), [bump_recorded], [bus_delivery], [webhook_delivery].  Error behaviour: [submit_correct], [review_correct],
    [processOwned_outcome], [panics_exactly], [retry_refused], [flags_not_guessed].

    ** Bounds and fuel

    Fuel is a bound on turns of a loop, and each theorem about such a loop says how much is
    enough: the walks of the index visit each coordinate once (GraphClosure, ScipClosure), the
    closure walk of Ingest is measured by the modules reachable, redirects and closure
    depth have the code's own constants (ten), retries of admission the length of the
    backoff list; a bump's dependency walk needs no more turns than a number that the
    modules of the index and the mirror give; the reload of a running server is measured by the reloaders still due.  Loops that run for ever (Sync, Forgewatch, Preflight, retention) are one
    turn, and runs are sequences of turns.

    ** What is not modelled

    The command line beyond its boot, the HTTP routes and the other handlers, the MCP tools,
    rendering of diffs and the drawing of images, HTTP clients of third parties, the token
    buckets (floating point), protobuf of the source index, GitHub metadata, and the web
    interface: they decode, call what is modelled, and print.  Locks are modelled as the atomicity of what they guard. *)

From stdpp Require Export prelude.
From stdpp Require Export gmap strings sorting.
From Stdlib Require Export Ascii.

(** ** Results of fallible Go calls: [(value, nil)] is [Ok], [(_, err)] is [Err]. *)

Inductive result (E A : Type) : Type :=
| Ok (a : A)
| Err (e : E).
Arguments Ok {E A} a.
Arguments Err {E A} e.

#[export] Instance result_ret E : MRet (result E) := λ A a, Ok a.
#[export] Instance result_bind E : MBind (result E) := λ A B f r,
  match r with
  | Ok a => f a
  | Err e => Err e
  end.
#[export] Instance result_fmap E : FMap (result E) := λ A B f r,
  match r with
  | Ok a => Ok (f a)
  | Err e => Err e
  end.
#[export] Instance result_eq_dec {E A} `{EqDecision E} `{EqDecision A} :
  EqDecision (result E A).
Proof. solve_decision. Defined.

(** [is_ok r]: the Go caller sees [err == nil]. *)
Definition is_ok {E A} (r : result E A) : bool :=
  match r with Ok _ => true | Err _ => false end.

(** Wrapping an error, as [fmt.Errorf] does with the percent-w verb. *)
Definition map_err {E E' A} (f : E → E') (r : result E A) : result E' A :=
  match r with
  | Ok a => Ok a
  | Err e => Err (f e)
  end.

Lemma bind_ok {E A B} (r : result E A) (f : A → result E B) b :
  r ≫= f = Ok b ↔ ∃ a, r = Ok a ∧ f a = Ok b.
Proof. destruct r; naive_solver. Qed.

(** ** Machine integers: Go's [int] and [int64] are 64-bit two's complement. *)

Definition wrap64 (z : Z) : Z := ((z + 2 ^ 63) `mod` 2 ^ 64 - 2 ^ 63)%Z.

Lemma wrap64_range z : (- 2 ^ 63 ≤ wrap64 z < 2 ^ 63)%Z.
Proof. unfold wrap64. pose proof (Z.mod_pos_bound (z + 2 ^ 63) (2 ^ 64)). lia. Qed.

Lemma wrap64_small z : (- 2 ^ 63 ≤ z < 2 ^ 63)%Z → wrap64 z = z.
Proof. intros. unfold wrap64. rewrite Z.mod_small; lia. Qed.

(** ** Sorting

    [sort.SliceStable] with the comparator [less] is insertion sort: the result
    of any stable sort.  [sort.Slice] is not stable; the code uses it with keys
    that are pairwise distinct, where [sort_slice_unique] shows that every
    sorted permutation is the same list. *)

Class StrictWeak {A} (less : A → A → bool) : Prop := {
  sw_asym x y : less x y = true → less y x = false;
  sw_neg_trans x y z : less x z = true → less x y = true ∨ less y z = true;
}.

Section sort.
Context {A : Type} (less : A → A → bool).

Fixpoint insert_sorted (x : A) (l : list A) : list A :=
  match l with
  | [] => [x]
  | y :: l' => if less y x then y :: insert_sorted x l' else x :: y :: l'
  end.

Fixpoint sort_slice (l : list A) : list A :=
  match l with
  | [] => []
  | x :: l' => insert_sorted x (sort_slice l')
  end.

(** The order a sorted slice has: no later element is less than an earlier one. *)
Definition not_after (x y : A) : Prop := less y x = false.

Lemma insert_sorted_perm x l : insert_sorted x l ≡ₚ x :: l.
Proof.
  induction l as [|y l IH]; simpl; [done|].
  destruct (less y x); [|done]. rewrite IH. apply Permutation_swap.
Qed.

Lemma sort_slice_perm l : sort_slice l ≡ₚ l.
Proof. induction l as [|x l IH]; simpl; [done|]. by rewrite insert_sorted_perm, IH. Qed.

Lemma elem_of_sort_slice x l : x ∈ sort_slice l ↔ x ∈ l.
Proof. by rewrite sort_slice_perm. Qed.

Lemma length_sort_slice l : length (sort_slice l) = length l.
Proof. by rewrite sort_slice_perm. Qed.

Lemma NoDup_sort_slice l : NoDup (sort_slice l) ↔ NoDup l.
Proof. by rewrite sort_slice_perm. Qed.

Lemma sort_slice_nil l : sort_slice l = [] ↔ l = [].
Proof. rewrite <-!length_zero_iff_nil. by rewrite length_sort_slice. Qed.

Context `{!StrictWeak less}.

#[local] Instance not_after_trans : Transitive not_after.
Proof.
  intros x y z Hxy Hyz. unfold not_after in *.
  destruct (less z x) eqn:E; [|done].
  destruct (sw_neg_trans _ y _ E); congruence.
Qed.

Lemma insert_sorted_sorted x l :
  StronglySorted not_after l → StronglySorted not_after (insert_sorted x l).
Proof.
  induction 1 as [|y l Hl IH Hy]; simpl; [repeat constructor|].
  destruct (less y x) eqn:E.
  - constructor; [done|]. rewrite Forall_forall in Hy |- *.
    intros z. rewrite insert_sorted_perm, elem_of_cons.
    intros [->|?]; [by apply sw_asym | by apply Hy].
  - constructor; [by constructor|]. constructor; [done|].
    eapply Forall_impl; [done|]. intros z ?. by trans y.
Qed.

Lemma sort_slice_sorted l : StronglySorted not_after (sort_slice l).
Proof. induction l; simpl; [constructor | by apply insert_sorted_sorted]. Qed.

(** Sorting is determined by the elements as soon as the comparator tells
    them apart. *)
Lemma sort_slice_unique l k :
  l ≡ₚ k →
  (∀ x y, x ∈ l → y ∈ l → less x y = false → less y x = false → x = y) →
  StronglySorted not_after k → sort_slice l = k.
Proof.
  intros Hlk Hanti Hk. eapply (StronglySorted_unique_strong not_after).
  - intros x y Hx Hy ??. apply Hanti; try done.
    + by rewrite <-elem_of_sort_slice.
    + by rewrite Hlk.
  - apply sort_slice_sorted.
  - done.
  - by rewrite sort_slice_perm.
Qed.

Lemma sort_slice_perm_eq l k :
  l ≡ₚ k →
  (∀ x y, x ∈ l → y ∈ l → less x y = false → less y x = false → x = y) →
  sort_slice l = sort_slice k.
Proof.
  intros Hlk Hanti. apply sort_slice_unique; [|done|apply sort_slice_sorted].
  by rewrite sort_slice_perm.
Qed.
End sort.

(** *** Comparators *)

Lemma sw_on {A B} (f : A → B) (less : B → B → bool) `{!StrictWeak less} :
  StrictWeak (λ x y, less (f x) (f y)).
Proof. split; intros; [by apply sw_asym | by apply sw_neg_trans]. Qed.

Lemma sw_flip {A} (less : A → A → bool) `{!StrictWeak less} :
  StrictWeak (λ x y, less y x).
Proof.
  split; intros *; [apply sw_asym|].
  intros H. destruct (sw_neg_trans _ y _ H); auto.
Qed.

#[export] Instance sw_Z : StrictWeak Z.ltb.
Proof. split; intros *; rewrite ?Z.ltb_lt, ?Z.ltb_ge; lia. Qed.

Lemma str_ltb_leb s t : String.ltb s t = negb (String.leb t s).
Proof.
  unfold String.ltb, String.leb. rewrite String.compare_antisym.
  by destruct (String.compare t s).
Qed.

#[export] Instance sw_string : StrictWeak String.ltb.
Proof.
  split; intros *; rewrite !str_ltb_leb.
  - destruct (String.leb_total x y) as [->| ->]; [done|]. by destruct (String.leb x y).
  - destruct (String.leb y x) eqn:E1, (String.leb z y) eqn:E2; simpl; auto.
    intros Hzx%negb_true_iff. exfalso.
    assert (String.le z x) as H; [|unfold String.le in H; by rewrite Hzx in H].
    trans y; by apply Is_true_eq_left.
Qed.

#[export] Instance sw_key {A} (key : A → string) :
  StrictWeak (λ x y, String.ltb (key x) (key y)).
Proof. apply (sw_on key String.ltb). Qed.

Lemma str_ltb_tricho s t : String.ltb s t = false → String.ltb t s = false → s = t.
Proof.
  rewrite !str_ltb_leb, !negb_false_iff. intros. by apply String.leb_antisym.
Qed.

Lemma str_ltb_irrefl s : String.ltb s s = false.
Proof. destruct (String.ltb s s) eqn:E; [|done]. by rewrite (sw_asym _ _ E) in E. Qed.

(** The comparator [if x.k != y.k then x.k < y.k else less2 x y]. *)
Section lex.
Context {A K : Type} `{EqDecision K} (key : A → K) (ltK : K → K → bool) (less2 : A → A → bool).
Context `{!StrictWeak ltK, !StrictWeak less2}.
Hypothesis tricho : ∀ a b, ltK a b = false → ltK b a = false → a = b.

Definition lex_less (x y : A) : bool :=
  if decide (key x = key y) then less2 x y else ltK (key x) (key y).

Lemma sw_lex : StrictWeak lex_less.
Proof.
  unfold lex_less. split; intros x y.
  - repeat case_decide; try congruence; apply sw_asym.
  - intros z.
    destruct (decide (key x = key z)) as [Exz|Nxz], (decide (key x = key y)) as [Exy|Nxy],
      (decide (key y = key z)) as [Eyz|Nyz]; try congruence; intros H.
    + by apply sw_neg_trans.
    + rewrite <-Exz. destruct (ltK (key x) (key y)) eqn:E1; [by left|right].
      destruct (ltK (key y) (key x)) eqn:E2; [done|]. by destruct Nxy; apply tricho.
    + right. congruence.
    + left. congruence.
    + by apply sw_neg_trans.
Qed.
End lex.

(** ** Go maps and sets

    A [map[string]V] is a [gmap string V].  [range m] visits the entries in an
    unspecified order, so the definitions that loop over a map take the sequence
    of visited entries as an argument and their order independence is proved. *)

Section maps.
Context {A V : Type}.
Implicit Types (key : A → string) (val : A → V) (l : list A).

(** [for _, x := range l { m[key(x)] = val(x) }]: a later entry overwrites. *)
Definition map_of key val l : gmap string V :=
  foldl (λ m x, <[key x := val x]> m) ∅ l.

Lemma map_of_snoc key val l x :
  map_of key val (l ++ [x]) = <[key x := val x]> (map_of key val l).
Proof. unfold map_of. by rewrite foldl_app. Qed.

Lemma lookup_map_of_Some key val l k v :
  map_of key val l !! k = Some v → ∃ x, x ∈ l ∧ key x = k ∧ val x = v.
Proof.
  induction l as [|x l IH] using rev_ind; [done|].
  rewrite map_of_snoc, lookup_insert. case_decide; [set_solver|].
  intros (y & ? & ? & ?)%IH. exists y. set_solver.
Qed.

Lemma lookup_map_of_None key val l k :
  map_of key val l !! k = None ↔ k ∉ key <$> l.
Proof.
  induction l as [|x l IH] using rev_ind; [set_solver|].
  rewrite map_of_snoc, lookup_insert_None, IH, fmap_app. set_solver.
Qed.

Lemma lookup_map_of_NoDup key val l x :
  NoDup (key <$> l) → x ∈ l → map_of key val l !! key x = Some (val x).
Proof.
  induction l as [|y l IH] using rev_ind; [set_solver|].
  rewrite fmap_app, NoDup_app, map_of_snoc, lookup_insert. csimpl.
  intros (Hl & Hd & _) Hx. case_decide as E.
  - rewrite elem_of_app, list_elem_of_singleton in Hx. destruct Hx as [Hx| ->]; [|done].
    exfalso. eapply Hd; [by apply list_elem_of_fmap_2|]. rewrite <-E. set_solver.
  - apply IH; [done|]. set_solver.
Qed.

Lemma lookup_map_of_iff key val l k v :
  NoDup (key <$> l) →
  map_of key val l !! k = Some v ↔ ∃ x, x ∈ l ∧ key x = k ∧ val x = v.
Proof.
  intros Hnd. split; [apply lookup_map_of_Some|].
  intros (x & Hx & <- & <-). by apply lookup_map_of_NoDup.
Qed.

Lemma lookup_map_of_is_Some key val l k :
  is_Some (map_of key val l !! k) ↔ k ∈ key <$> l.
Proof.
  rewrite <-not_eq_None_Some, lookup_map_of_None.
  destruct (decide (k ∈ key <$> l)); naive_solver.
Qed.
End maps.

(** [for _, x := range l { m[x] = true }], read back with [m[x]]. *)
Definition set_of (l : list string) : gset string := foldl (λ s x, {[x]} ∪ s) ∅ l.

Lemma elem_of_set_of l x : x ∈ set_of l ↔ x ∈ l.
Proof.
  unfold set_of. induction l as [|y l IH] using rev_ind; [set_solver|].
  rewrite foldl_app. set_solver.
Qed.

(** [sort.Slice(s, func(i, j int) bool { return s[i].key < s[j].key })]. *)
Definition sort_by_key {A} (key : A → string) (l : list A) : list A :=
  sort_slice (λ x y, String.ltb (key x) (key y)) l.

(** [sort.Strings]. *)
Definition sort_strings (l : list string) : list string := sort_slice String.ltb l.

(** A list with pairwise distinct keys in strictly increasing key order. *)
Definition key_sorted {A} (key : A → string) (l : list A) : Prop :=
  StronglySorted (λ x y, String.ltb (key x) (key y) = true) l.

Lemma fmap_nil_iff {A B} (f : A → B) (l : list A) : f <$> l = [] ↔ l = [].
Proof. split; [apply fmap_nil_inv|by intros ->]. Qed.

Lemma Permutation_nil_iff {A} (l k : list A) : l ≡ₚ k → l = [] ↔ k = [].
Proof. intros H. rewrite <-!Permutation_nil_r. by rewrite H. Qed.

Lemma NoDup_fmap_eq {A B} (f : A → B) l x y :
  NoDup (f <$> l) → x ∈ l → y ∈ l → f x = f y → x = y.
Proof.
  intros Hnd Hx Hy Hxy.
  apply list_elem_of_lookup in Hx as [i Hi], Hy as [j Hj].
  assert (i = j) as ->; [|congruence].
  apply (NoDup_lookup _ i j (f x) Hnd); rewrite list_lookup_fmap.
  - by rewrite Hi.
  - by rewrite Hj, Hxy.
Qed.

Section sort_by_key.
Context {A : Type} (key : A → string).
Implicit Types l k : list A.

Lemma sort_by_key_perm l : sort_by_key key l ≡ₚ l.
Proof. apply sort_slice_perm. Qed.

Lemma elem_of_sort_by_key x l : x ∈ sort_by_key key l ↔ x ∈ l.
Proof. apply elem_of_sort_slice. Qed.

(** Two visiting orders of the same entries sort to the same slice: the
    result does not depend on the iteration order of the Go map. *)
Lemma sort_by_key_perm_eq l k :
  l ≡ₚ k → NoDup (key <$> l) → sort_by_key key l = sort_by_key key k.
Proof.
  intros Hlk Hnd. apply sort_slice_perm_eq; [apply _|done|].
  intros x y ???? . eapply NoDup_fmap_eq; [done..|]. by apply str_ltb_tricho.
Qed.

Lemma sort_by_key_sorted l : NoDup (key <$> l) → key_sorted key (sort_by_key key l).
Proof.
  intros Hnd. assert (NoDup (key <$> sort_by_key key l)) as Hnd'
    by (by rewrite sort_by_key_perm).
  assert (StronglySorted (not_after (λ x y, String.ltb (key x) (key y))) (sort_by_key key l))
    as Hs by (apply sort_slice_sorted; apply _).
  unfold key_sorted. revert Hnd'. induction Hs as [|x s Hs IH Hx]; [constructor|]. csimpl.
  intros [Hni Hnd']%NoDup_cons. constructor; [by apply IH|].
  rewrite Forall_forall in Hx |- *. intros y Hy. specialize (Hx y Hy).
  destruct (String.ltb (key x) (key y)) eqn:E; [done|].
  destruct Hni. rewrite (str_ltb_tricho _ _ E Hx). by apply list_elem_of_fmap_2.
Qed.
End sort_by_key.

Lemma elem_of_sort_strings x l : x ∈ sort_strings l ↔ x ∈ l.
Proof. apply elem_of_sort_slice. Qed.

Lemma sort_strings_perm_eq l k : l ≡ₚ k → sort_strings l = sort_strings k.
Proof.
  intros. apply sort_slice_perm_eq; [apply _|done|]. intros. by apply str_ltb_tricho.
Qed.

Lemma sort_strings_sorted l : NoDup l → key_sorted id (sort_strings l).
Proof. intros. apply (sort_by_key_sorted id). by rewrite list_fmap_id. Qed.

Lemma NoDup_omap_key {A B} (f : A → option B) (ka : A → string) (kb : B → string) l :
  (∀ x y, f x = Some y → kb y = ka x) → NoDup (ka <$> l) → NoDup (kb <$> omap f l).
Proof.
  intros Hf. induction l as [|x l IH]; [done|]. csimpl. intros [Hx Hl]%NoDup_cons.
  destruct (f x) as [y|] eqn:E; csimpl; [|by apply IH]. constructor; [|by apply IH].
  rewrite (Hf _ _ E). intros (z & Hz & Hzl)%list_elem_of_fmap.
  apply list_elem_of_omap in Hzl as (w & Hw & Hwz).
  apply Hx. rewrite Hz, (Hf _ _ Hwz). by apply list_elem_of_fmap_2.
Qed.

(** ** Small conveniences *)

(** The double quote character. *)
Definition dq : string := String "034"%char EmptyString.
(** A line feed. *)
Definition nl : string := String "010"%char EmptyString.

Lemma NoDup_fmap_filter {A B} (f : A → B) (P : A → Prop) `{∀ x, Decision (P x)} l :
  NoDup (f <$> l) → NoDup (f <$> filter P l).
Proof.
  induction l as [|x l IH]; [done|]. rewrite filter_cons. csimpl. rewrite NoDup_cons.
  intros [Hx Hl]. case_decide; [|auto]. csimpl. apply NoDup_cons. split; [|auto].
  intros (y & ? & [_ ?]%list_elem_of_filter)%list_elem_of_fmap. apply Hx.
  apply list_elem_of_fmap. eauto.
Qed.

Lemma NoDup_fmap_take {A B} (f : A → B) n l : NoDup (f <$> l) → NoDup (f <$> take n l).
Proof.
  rewrite <-(take_drop n l) at 1. rewrite fmap_app, NoDup_app. by intros (? & _ & _).
Qed.

(** A prefix of a sorted list is sorted, and nothing after it belongs before it. *)
Lemma StronglySorted_take {A} (R : A → A → Prop) n l :
  StronglySorted R l →
  StronglySorted R (take n l) ∧ ∀ x y, x ∈ take n l → y ∈ l → y ∉ take n l → R x y.
Proof.
  intros H. rewrite <-(take_drop n l) in H. apply StronglySorted_app in H as (Hc & H1 & H2).
  split; [done|]. intros x y Hx Hy Hn. apply Hc; [done|].
  rewrite <-(take_drop n l), elem_of_app in Hy. naive_solver.
Qed.

Lemma StronglySorted_weaken {A} (R S : A → A → Prop) l :
  (∀ x y, x ∈ l → y ∈ l → R x y → S x y) → StronglySorted R l → StronglySorted S l.
Proof.
  intros HRS H. induction H as [|x l Hl IH Hx]; constructor.
  - apply IH. intros; apply HRS; [by right..|done].
  - rewrite Forall_forall in Hx |- *. intros y Hy. apply HRS; [by left|by right|by apply Hx].
Qed.

Lemma StronglySorted_fmap {A B} (f : A → B) (R : A → A → Prop) (S : B → B → Prop) l :
  (∀ x y, R x y → S (f x) (f y)) → StronglySorted R l → StronglySorted S (f <$> l).
Proof.
  intros Hf. induction 1 as [|x l Hl IH Hx]; [constructor|]. constructor; [done|]. apply Forall_fmap.
  eapply Forall_impl; [exact Hx|]. intros y. apply Hf.
Qed.

Lemma StronglySorted_filter {A} (R : A → A → Prop) (P : A → Prop) `{∀ x, Decision (P x)} l :
  StronglySorted R l → StronglySorted R (filter P l).
Proof.
  induction 1 as [|x l Hl IH Hx]; [constructor|]. rewrite filter_cons. case_decide; [|done]. constructor; [done|].
  apply Forall_forall. rewrite Forall_forall in Hx. intros y [_ Hy]%list_elem_of_filter. by apply Hx.
Qed.

(** A sorted slice is left as it is. *)
Lemma sort_slice_id {A} (less : A → A → bool) l : StronglySorted (not_after less) l → sort_slice less l = l.
Proof.
  induction 1 as [|x l Hl IH Hx]; [done|]. cbn [sort_slice]. rewrite IH. destruct l as [|y l]; [done|].
  apply Forall_cons in Hx as [Hy _]. simpl. unfold not_after in Hy. by rewrite Hy.
Qed.

Lemma list_filter_iff' {A} (P Q : A → Prop) `{∀ x, Decision (P x), ∀ x, Decision (Q x)} (l : list A) :
  (∀ x, x ∈ l → P x ↔ Q x) → filter P l = filter Q l.
Proof.
  induction l as [|x l IH]; intros HPQ; [done|]. rewrite !filter_cons.
  rewrite IH by (intros; apply HPQ; by right).
  destruct (decide (P x)) as [HP|HP].
  - rewrite decide_True; [done|]. apply HPQ; [by left|done].
  - rewrite decide_False; [done|]. intros HQ. apply HP, HPQ; [by left|done].
Qed.

(** ** One page of a query: [SELECT ... WHERE p ORDER BY less LIMIT n] *)

Section page.
Context {A : Type} (less : A → A → bool) `{!StrictWeak less} (P : A → bool) (n : nat).

Definition page (scan : list A) : list A :=
  take n (sort_slice less (filter (λ x, P x = true) scan)).

Lemma elem_of_page_all x scan :
  x ∈ sort_slice less (filter (λ x, P x = true) scan) ↔ x ∈ scan ∧ P x = true.
Proof. rewrite elem_of_sort_slice, list_elem_of_filter. naive_solver. Qed.

Lemma page_sound x scan : x ∈ page scan → x ∈ scan ∧ P x = true.
Proof. intros H%subseteq_take. by apply elem_of_page_all. Qed.

Lemma page_sorted scan : StronglySorted (not_after less) (page scan).
Proof. apply StronglySorted_take, sort_slice_sorted. done. Qed.

(** What matches and is left out does not belong before what is returned. *)
Lemma page_rest x y scan :
  x ∈ page scan → y ∈ scan → P y = true → y ∉ page scan → not_after less x y.
Proof.
  intros Hx Hy HP Hn.
  pose proof (StronglySorted_take _ n _
    (sort_slice_sorted less (filter (λ x, P x = true) scan))) as [_ H].
  apply H; [done| |done]. by apply elem_of_page_all.
Qed.

Lemma length_page scan : length (page scan) = min n (length (filter (λ x, P x = true) scan)).
Proof. unfold page. by rewrite length_take, length_sort_slice. Qed.

Lemma page_NoDup {B} (f : A → B) scan : NoDup (f <$> scan) → NoDup (f <$> page scan).
Proof.
  intros H. apply NoDup_fmap_take. rewrite sort_slice_perm. by apply NoDup_fmap_filter.
Qed.
End page.

(** ** Filtering *)

Lemma filter_none {A} (P : A → Prop) `{∀ x, Decision (P x)} (l : list A) :
  Forall (λ x, ¬ P x) l → filter P l = [].
Proof. induction 1 as [|x l Hx _ IH]; [done|]. by rewrite filter_cons, decide_False. Qed.

Lemma filter_all {A} (P : A → Prop) `{∀ x, Decision (P x)} (l : list A) :
  Forall P l → filter P l = l.
Proof. induction 1 as [|x l Hx _ IH]; [done|]. by rewrite filter_cons, decide_True, IH. Qed.

Lemma forallb_Forall_true {A} (f : A → bool) (l : list A) : forallb f l = true ↔ Forall (λ x, f x = true) l.
Proof.
  induction l as [|x l IH]; simpl; [by split|]. by rewrite andb_true_iff, IH, Forall_cons.
Qed.

(** ** Stability *)

Section stable.
Context {A : Type} (less : A → A → bool) (P : A → Prop) `{∀ x, Decision (P x)}.

Lemma insert_sorted_filter x l :
  (∀ y, y ∈ l → P x → P y → less y x = false) → filter P (insert_sorted less x l) = filter P (x :: l).
Proof.
  induction l as [|y l IH]; intros Hl; simpl; [done|]. destruct (less y x) eqn:E; [|done].
  rewrite (filter_cons P y), IH, !filter_cons by (intros z Hz; apply Hl; by right).
  destruct (decide (P x)) as [Hx|Hx], (decide (P y)) as [Hy|Hy]; try done.
  rewrite (Hl y (list_elem_of_here _ _) Hx Hy) in E. done.
Qed.

(** Elements that the comparator does not tell apart keep their order. *)
Lemma sort_slice_filter l :
  (∀ x y, x ∈ l → y ∈ l → P x → P y → less x y = false) → filter P (sort_slice less l) = filter P l.
Proof.
  induction l as [|x l IH]; intros Hl; simpl; [done|].
  rewrite insert_sorted_filter, !filter_cons, IH; [done| |].
  - intros y z Hy Hz. apply Hl; by right.
  - intros y Hy%elem_of_sort_slice Hx HPy. apply Hl; [by right|by left|done|done].
Qed.
End stable.
