(* ===== verification/Report.v ===== *)
(** * The module report of the static analyser

    The value types of [assay/report] (vendored): what the analyser extracts
    from one (module, version) and what the diff, compatibility and closure
    components read.  Each record has the fields of the Go struct in order;
    the field names carry a short prefix because Rocq projections are global. *)

From S2P Require Import Prelude.

(** [report.HermeticityClass] and [report.AttrsExtractionMethod] are strings. *)
Abbreviation HermeticityClass := string.
Abbreviation AttrsExtractionMethod := string.

Record Provenance := mkProvenance {
  prov_File : string;
  prov_StartCol : Z;
  prov_StartRow : Z;
  prov_EndCol : Z;
  prov_EndRow : Z;
}.

Record HermeticityFinding := mkHermeticityFinding {
  hf_Class : HermeticityClass;
  hf_Symbol : string;
  hf_Reason : string;
  hf_Confidence : string;
  hf_Provenance : Provenance;
}.

Record HermeticityProfile := mkHermeticityProfile {
  herm_Classes : list HermeticityClass;
  herm_Findings : list HermeticityFinding;
}.

Record ModuleKey := mkModuleKey {
  mk_Name : string;
  mk_Version : string;
  mk_DevDependency : bool;
  mk_RepoName : string;
}.

Record AttrSpec := mkAttrSpec {
  attr_Name : string;
  attr_Type : string;
  attr_Doc : string;
  attr_Default : string;
  attr_Mandatory : bool;
  attr_ProviderGroups : list (list string);
}.

Record RuleSpec := mkRuleSpec {
  rule_Name : string;
  rule_Doc : string;
  rule_Attrs : list AttrSpec;
  rule_AttrsExtractionMethod : AttrsExtractionMethod;
  rule_Executable : bool;
  rule_Test : bool;
  rule_Private : bool;
  rule_Provenance : Provenance;
}.

Record ProviderSpec := mkProviderSpec {
  provider_Name : string;
  provider_Fields : list string;
  provider_Doc : string;
  provider_Private : bool;
  provider_Provenance : Provenance;
}.

Record MacroSpec := mkMacroSpec {
  macro_Name : string;
  macro_Doc : string;
  macro_Params : list string;
  macro_Provenance : Provenance;
}.

Record AspectSpec := mkAspectSpec {
  aspect_Name : string;
  aspect_Doc : string;
  aspect_AttrAspects : list string;
  aspect_RequiredProviders : list string;
  aspect_Attrs : list AttrSpec;
  aspect_AttrsExtractionMethod : AttrsExtractionMethod;
  aspect_Provides : list string;
  aspect_Fragments : list string;
  aspect_HostFragments : list string;
  aspect_Toolchains : list string;
  aspect_ApplyToGeneratingRules : bool;
  aspect_Private : bool;
  aspect_Provenance : Provenance;
}.

Record ToolchainSpec := mkToolchainSpec {
  tc_Name : string;
  tc_Provenance : Provenance;
}.

Record RepoRuleSpec := mkRepoRuleSpec {
  rr_Name : string;
  rr_Doc : string;
  rr_Attrs : list AttrSpec;
  rr_AttrsExtractionMethod : AttrsExtractionMethod;
  rr_Local : bool;
  rr_Private : bool;
  rr_Provenance : Provenance;
}.

Record TagClassSpec := mkTagClassSpec {
  tag_Name : string;
  tag_Doc : string;
  tag_Attrs : list AttrSpec;
  tag_AttrsExtractionMethod : AttrsExtractionMethod;
  tag_Provenance : Provenance;
}.

Record ModuleExtSpec := mkModuleExtSpec {
  ext_Name : string;
  ext_Doc : string;
  ext_TagClasses : list TagClassSpec;
  ext_Private : bool;
  ext_Provenance : Provenance;
}.

Record ModuleOverride := mkModuleOverride {
  ov_Kind : string;
  ov_ModuleName : string;
  ov_URLs : list string;
  ov_Integrity : string;
  ov_Commit : string;
  ov_Path : string;
  ov_Version : string;
  ov_Versions : list string;
  ov_Patches : list string;
  ov_PatchStrip : Z;
  ov_PatchCmds : list string;
  ov_Provenance : Provenance;
}.

Record ExtensionTagInvocation := mkExtensionTagInvocation {
  ti_TagName : string;
  ti_Kwargs : gmap string string;
  ti_KwargLists : gmap string (list string);
  ti_KwargBools : gmap string bool;
  ti_KwargInts : gmap string Z;
  ti_Provenance : Provenance;
}.

Record ExtensionUse := mkExtensionUse {
  eu_LocalName : string;
  eu_BzlFile : string;
  eu_ExtensionName : string;
  eu_DevDependency : bool;
  eu_ImportedRepos : list string;
  eu_RenamedRepos : gmap string string;
  eu_TagInvocations : list ExtensionTagInvocation;
  eu_Provenance : Provenance;
}.

Record ToolchainImpl := mkToolchainImpl {
  timpl_Name : string;
  timpl_ToolchainType : string;
  timpl_ToolchainImpl : string;
  timpl_ExecCompatibleWith : list string;
  timpl_TargetCompatibleWith : list string;
  timpl_TargetSettings : list string;
  timpl_Provenance : Provenance;
}.

Record FileEntry := mkFileEntry {
  fe_Path : string;
  fe_Size : Z;
  fe_Kind : string;
}.

Record ModuleAssets := mkModuleAssets {
  as_Readme : string;
  as_ReadmePath : string;
  as_License : string;
  as_LicensePath : string;
  as_LicenseName : string;
  as_ExampleDirs : list string;
  as_Changelog : string;
  as_ChangelogPath : string;
  as_HasCI : bool;
  as_CIProviders : list string;
}.

Record ModuleReport := mkModuleReport {
  rep_Name : string;
  rep_Version : string;
  rep_CompatibilityLevel : Z;
  rep_BazelCompatibility : list string;
  rep_BazelDeps : list ModuleKey;
  rep_Rules : list RuleSpec;
  rep_Providers : list ProviderSpec;
  rep_Macros : list MacroSpec;
  rep_Aspects : list AspectSpec;
  rep_Toolchains : list ToolchainSpec;
  rep_ToolchainImpls : list ToolchainImpl;
  rep_RepositoryRules : list RepoRuleSpec;
  rep_ModuleExtensions : list ModuleExtSpec;
  rep_Overrides : list ModuleOverride;
  rep_UsedExtensions : list ExtensionUse;
  rep_RegisteredToolchains : list string;
  rep_RegisteredExecutionPlatforms : list string;
  rep_Includes : list string;
  rep_Hermeticity : HermeticityProfile;
  rep_FileInventory : list FileEntry;
  rep_Assets : ModuleAssets;
}.

(** The zero values of the Go structs. *)
Definition zeroProvenance : Provenance := mkProvenance "" 0 0 0 0.
Definition zeroAssets : ModuleAssets := mkModuleAssets "" "" "" "" "" [] "" "" false [].

(** A report with the given name and version and nothing else. *)
Definition emptyReport (name version : string) : ModuleReport :=
  mkModuleReport name version 0 [] [] [] [] [] [] [] [] [] [] [] [] [] [] []
    (mkHermeticityProfile [] []) [] zeroAssets.

#[export] Instance AttrSpec_eq_dec : EqDecision AttrSpec.
Proof. solve_decision. Defined.
#[export] Instance ModuleKey_eq_dec : EqDecision ModuleKey.
Proof. solve_decision. Defined.
