(* ===== verification/ModuleDiff.v ===== *)
(** * Structural diff of two module reports

    Models [internal/modulediff] ([types.go], [diff.go], [rules.go],
    [providers.go], [modexts.go]): [Compute] compares what two versions of a
    module expose.  Every Go function that loops over maps is given here in two
    layers: the loops as a function of the sequences of entries [range] visits,
    and the Go function, which feeds it the entries of the maps.  The theorems
    show that the visiting order does not matter, that each diff is exact (it
    patches the old surface into the new one) and that comparing a report with
    itself reports nothing. *)

From S2P Require Import Prelude Report.

(** ** Wire types ([types.go]) *)

Record CompatChange := mkCompatChange { cc_From : Z; cc_To : Z }.

Record HermDiff := mkHermDiff {
  hd_Added : list HermeticityClass;
  hd_Removed : list HermeticityClass;
}.

Record ChangedDep := mkChangedDep {
  cd_Name : string;
  cd_FromVersion : string;
  cd_ToVersion : string;
}.

Record DepsDiff := mkDepsDiff {
  dd_Added : list ModuleKey;
  dd_Removed : list ModuleKey;
  dd_Changed : list ChangedDep;
}.

Record AttrChange := mkAttrChange {
  ac_Name : string;
  ac_FromType : string;
  ac_ToType : string;
  ac_FromDefault : string;
  ac_ToDefault : string;
  ac_FromMandatory : bool;
  ac_ToMandatory : bool;
  ac_MandatoryFlip : bool;
}.

Record ChangedRule := mkChangedRule {
  cr_Name : string;
  cr_AttrsAdd : list AttrSpec;
  cr_AttrsRem : list AttrSpec;
  cr_AttrsChg : list AttrChange;
}.

Record RulesDiff := mkRulesDiff {
  rd_Added : list string;
  rd_Removed : list string;
  rd_Changed : list ChangedRule;
}.

Record ChangedProvider := mkChangedProvider {
  cp_Name : string;
  cp_FieldsAdded : list string;
  cp_FieldsRemoved : list string;
}.

Record ProvidersDiff := mkProvidersDiff {
  pd_Added : list string;
  pd_Removed : list string;
  pd_Changed : list ChangedProvider;
}.

Record ChangedModExt := mkChangedModExt {
  cm_Name : string;
  cm_TagClassesAdded : list string;
  cm_TagClassesRemoved : list string;
}.

Record ModExtsDiff := mkModExtsDiff {
  md_Added : list string;
  md_Removed : list string;
  md_Changed : list ChangedModExt;
}.

Record NamesDiff := mkNamesDiff {
  nd_Added : list string;
  nd_Removed : list string;
}.

(** ** Loops over maps *)

Section loops.
Context {V : Type}.
Implicit Types (other : gmap string V) (range : list (string * V)).

(** [for n, v := range m { if _, ok := other[n]; !ok { append (n, v) } }] *)
Definition missing other range : list (string * V) :=
  filter (λ p, other !! p.1 = None) range.

(** [for n, v := range m { if w, ok := other[n]; ok {
       if c := cmp(w, v); c != nil { append c } } }] *)
Definition paired {C} (cmp : V → V → option C) other range : list C :=
  omap (λ p, w ← other !! p.1; cmp w p.2) range.

Lemma elem_of_missing other range n v :
  (n, v) ∈ missing other range ↔ other !! n = None ∧ (n, v) ∈ range.
Proof. unfold missing. by rewrite list_elem_of_filter. Qed.

Lemma elem_of_paired {C} (cmp : V → V → option C) other range c :
  c ∈ paired cmp other range ↔
  ∃ n w v, other !! n = Some w ∧ (n, v) ∈ range ∧ cmp w v = Some c.
Proof.
  unfold paired. rewrite list_elem_of_omap. split.
  - intros ([n v] & ? & (w & ? & ?)%bind_Some). naive_solver.
  - intros (n & w & v & Hw & ? & ?). exists (n, v). split; [done|].
    simpl. by rewrite Hw.
Qed.

#[export] Instance missing_Permutation other : Proper ((≡ₚ) ==> (≡ₚ)) (missing other).
Proof. intros l k H. unfold missing. by rewrite H. Qed.

#[export] Instance paired_Permutation {C} (cmp : V → V → option C) other :
  Proper ((≡ₚ) ==> (≡ₚ)) (paired cmp other).
Proof. intros l k H. unfold paired. by rewrite H. Qed.

Lemma NoDup_missing other range :
  NoDup range.*1 → NoDup (missing other range).*1.
Proof.
  unfold missing. induction range as [|[n v] r IH]; [done|].
  csimpl. intros [Hn Hr]%NoDup_cons. rewrite filter_cons. case_decide; [|by apply IH].
  csimpl. constructor; [|by apply IH].
  intros ([n' v'] & -> & Hin)%list_elem_of_fmap. apply list_elem_of_filter in Hin as [_ Hin].
  apply Hn. apply list_elem_of_fmap. by exists (n', v').
Qed.

(** The keys [c] reports are the keys of the map, so they are distinct. *)
Lemma NoDup_paired {C} (cmp : V → V → option C) (key : C → string) other range :
  (∀ n w v c, other !! n = Some w → cmp w v = Some c → key c = n) →
  NoDup range.*1 → NoDup (key <$> paired cmp other range).
Proof.
  intros Hkey. apply NoDup_omap_key. intros [n v] c (w & ? & ?)%bind_Some. naive_solver.
Qed.
End loops.

(** The entries a [range] over [m] visits, in some order. *)
Definition ranges {V} (m : gmap string V) (range : list (string * V)) : Prop :=
  range ≡ₚ map_to_list m.

(** The elements a [range] over a set visits, in some order. *)
Definition ranges_set (s : gset string) (range : list string) : Prop :=
  range ≡ₚ elements s.

Lemma ranges_refl {V} (m : gmap string V) : ranges m (map_to_list m).
Proof. by unfold ranges. Qed.

Lemma ranges_set_refl (s : gset string) : ranges_set s (elements s).
Proof. by unfold ranges_set. Qed.

#[export] Hint Resolve ranges_refl ranges_set_refl : core.

Lemma ranges_NoDup {V} (m : gmap string V) range : ranges m range → NoDup range.*1.
Proof. intros H. unfold ranges in H. rewrite H. apply NoDup_fst_map_to_list. Qed.

Lemma elem_of_ranges {V} (m : gmap string V) range n v :
  ranges m range → (n, v) ∈ range ↔ m !! n = Some v.
Proof. intros H. unfold ranges in H. rewrite H. apply elem_of_map_to_list. Qed.

Lemma elem_of_ranges_set (s : gset string) range x :
  ranges_set s range → x ∈ range ↔ x ∈ s.
Proof. intros H. unfold ranges_set in H. rewrite H. apply elem_of_elements. Qed.

(** ** [diff.go] *)

(** [hermDiff] and [sortHerm]: the loops over the two sets. *)
Definition hermDiff_range (setA setB : gset string) (rb ra : list string) : option HermDiff :=
  let out := mkHermDiff (sort_strings (filter (λ c, c ∉ setA) rb))
                        (sort_strings (filter (λ c, c ∉ setB) ra)) in
  if decide (hd_Added out = [] ∧ hd_Removed out = []) then None else Some out.

Definition hermDiff (a b : list HermeticityClass) : option HermDiff :=
  let setA := set_of a in
  let setB := set_of b in
  hermDiff_range setA setB (elements setB) (elements setA).

(** One entry of the loop that fills [out.Changed]. *)
Definition changedDeps (aBy : gmap string string) (p : string * string) : option ChangedDep :=
  let '(n, bver) := p in aver ← aBy !! n;
  if decide (aver = bver) then None else Some (mkChangedDep n aver bver).

Definition depsDiff_range (aByName bByName : gmap string string)
    (rb ra : list (string * string)) : DepsDiff :=
  mkDepsDiff
    (sort_by_key mk_Name ((λ '(n, v), mkModuleKey n v false "") <$> missing aByName rb))
    (sort_by_key mk_Name ((λ '(n, v), mkModuleKey n v false "") <$> missing bByName ra))
    (sort_by_key cd_Name (omap (changedDeps aByName) rb)).

Definition depsDiff (a b : list ModuleKey) : DepsDiff :=
  let aByName := map_of mk_Name mk_Version a in
  let bByName := map_of mk_Name mk_Version b in
  depsDiff_range aByName bByName (map_to_list bByName) (map_to_list aByName).

Definition namesDiff_range (aSet bSet : gset string) (rb ra : list string) : NamesDiff :=
  mkNamesDiff (sort_strings (filter (λ s, s ∉ aSet) rb))
              (sort_strings (filter (λ s, s ∉ bSet) ra)).

Definition namesDiff (a b : list string) : NamesDiff :=
  let aSet := set_of a in
  let bSet := set_of b in
  namesDiff_range aSet bSet (elements bSet) (elements aSet).

(** [len(n) > 0 && n[0] != '_'] *)
Definition public_name (n : string) : bool :=
  match n with
  | EmptyString => false
  | String c _ => negb (Ascii.eqb c "_"%char)
  end.

Definition filterPublicRules (rs : list RuleSpec) : list RuleSpec :=
  filter (λ r, negb (rule_Private r) && public_name (rule_Name r) = true) rs.

Definition filterPublicProviders (ps : list ProviderSpec) : list ProviderSpec :=
  filter (λ p, negb (provider_Private p) && public_name (provider_Name p) = true) ps.

Definition macroNames (ms : list MacroSpec) : list string :=
  macro_Name <$> filter (λ m, public_name (macro_Name m) = true) ms.

Definition aspectNames (asps : list AspectSpec) : list string :=
  aspect_Name <$>
    filter (λ a, negb (aspect_Private a) && public_name (aspect_Name a) = true) asps.

Definition toolchainNames (ts : list ToolchainSpec) : list string :=
  tc_Name <$> filter (λ t, public_name (tc_Name t) = true) ts.

Definition repoRulesAsRules (rs : list RepoRuleSpec) : list RuleSpec :=
  (λ r, mkRuleSpec (rr_Name r) "" (rr_Attrs r) "" false false false zeroProvenance) <$>
    filter (λ r, negb (rr_Private r) && public_name (rr_Name r) = true) rs.

Definition filterPublicModExts (es : list ModuleExtSpec) : list ModuleExtSpec :=
  filter (λ e, negb (ext_Private e) && public_name (ext_Name e) = true) es.

(** ** [rules.go] *)

Definition compareAttr (a b : AttrSpec) : option AttrChange :=
  let typ := decide (attr_Type a = attr_Type b) in
  let dfl := decide (attr_Default a = attr_Default b) in
  let man := decide (attr_Mandatory a = attr_Mandatory b) in
  if bool_decide (attr_Type a = attr_Type b) && bool_decide (attr_Default a = attr_Default b)
     && bool_decide (attr_Mandatory a = attr_Mandatory b)
  then None
  else Some {|
    ac_Name := attr_Name a;
    ac_FromType := if typ then "" else attr_Type a;
    ac_ToType := if typ then "" else attr_Type b;
    ac_FromDefault := if dfl then "" else attr_Default a;
    ac_ToDefault := if dfl then "" else attr_Default b;
    ac_FromMandatory := if man then false else attr_Mandatory a;
    ac_ToMandatory := if man then false else attr_Mandatory b;
    ac_MandatoryFlip := if man then false else true;
  |}.

Definition attrsByName (r : RuleSpec) : gmap string AttrSpec :=
  map_of attr_Name id (rule_Attrs r).

Definition compareRule_range (name : string) (aByAttr bByAttr : gmap string AttrSpec)
    (rb ra : list (string * AttrSpec)) : option ChangedRule :=
  let add := (missing aByAttr rb).*2 in
  let rem := (missing bByAttr ra).*2 in
  let chg := paired compareAttr aByAttr rb in
  if decide (add = [] ∧ rem = [] ∧ chg = []) then None
  else Some (mkChangedRule name (sort_by_key attr_Name add) (sort_by_key attr_Name rem)
               (sort_by_key ac_Name chg)).

Definition compareRule (a b : RuleSpec) : option ChangedRule :=
  let aByAttr := attrsByName a in
  let bByAttr := attrsByName b in
  compareRule_range (rule_Name a) aByAttr bByAttr (map_to_list bByAttr) (map_to_list aByAttr).

Definition rulesDiff_range (aByName bByName : gmap string RuleSpec)
    (rb ra : list (string * RuleSpec)) : RulesDiff :=
  mkRulesDiff (sort_strings (missing aByName rb).*1)
              (sort_strings (missing bByName ra).*1)
              (sort_by_key cr_Name (paired compareRule aByName rb)).

Definition rulesDiff (a b : list RuleSpec) : RulesDiff :=
  let aByName := map_of rule_Name id a in
  let bByName := map_of rule_Name id b in
  rulesDiff_range aByName bByName (map_to_list bByName) (map_to_list aByName).

(** ** [providers.go] *)

Definition compareProvider_range (name : string) (aSet bSet : gset string)
    (rb ra : list string) : option ChangedProvider :=
  let added := filter (λ f, f ∉ aSet) rb in
  let removed := filter (λ f, f ∉ bSet) ra in
  if decide (added = [] ∧ removed = []) then None
  else Some (mkChangedProvider name (sort_strings added) (sort_strings removed)).

Definition compareProvider (a b : ProviderSpec) : option ChangedProvider :=
  let aSet := set_of (provider_Fields a) in
  let bSet := set_of (provider_Fields b) in
  compareProvider_range (provider_Name a) aSet bSet (elements bSet) (elements aSet).

Definition providersDiff_range (aByName bByName : gmap string ProviderSpec)
    (rb ra : list (string * ProviderSpec)) : ProvidersDiff :=
  mkProvidersDiff (sort_strings (missing aByName rb).*1)
                  (sort_strings (missing bByName ra).*1)
                  (sort_by_key cp_Name (paired compareProvider aByName rb)).

Definition providersDiff (a b : list ProviderSpec) : ProvidersDiff :=
  let aByName := map_of provider_Name id a in
  let bByName := map_of provider_Name id b in
  providersDiff_range aByName bByName (map_to_list bByName) (map_to_list aByName).

(** ** [modexts.go] *)

Definition compareModExt_range (name : string) (aSet bSet : gset string)
    (rb ra : list string) : option ChangedModExt :=
  let added := filter (λ t, t ∉ aSet) rb in
  let removed := filter (λ t, t ∉ bSet) ra in
  if decide (added = [] ∧ removed = []) then None
  else Some (mkChangedModExt name (sort_strings added) (sort_strings removed)).

Definition compareModExt (a b : ModuleExtSpec) : option ChangedModExt :=
  let aSet := set_of (tag_Name <$> ext_TagClasses a) in
  let bSet := set_of (tag_Name <$> ext_TagClasses b) in
  compareModExt_range (ext_Name a) aSet bSet (elements bSet) (elements aSet).

Definition modExtsDiff_range (aByName bByName : gmap string ModuleExtSpec)
    (rb ra : list (string * ModuleExtSpec)) : ModExtsDiff :=
  mkModExtsDiff (sort_strings (missing aByName rb).*1)
                (sort_strings (missing bByName ra).*1)
                (sort_by_key cm_Name (paired compareModExt aByName rb)).

Definition modExtsDiff (a b : list ModuleExtSpec) : ModExtsDiff :=
  let aByName := map_of ext_Name id a in
  let bByName := map_of ext_Name id b in
  modExtsDiff_range aByName bByName (map_to_list bByName) (map_to_list aByName).

(** ** The report and [Compute]

    [FromSource], [ToSource] and [Breaking] are filled in after the diff:
    [Breaking] by [ClassifyBreaking] (file Breaking), the two sources by the
    service layer. *)

Record Diff := mkDiff {
  d_Module : string;
  d_From : string;
  d_To : string;
  d_CompatibilityLevel : option CompatChange;
  d_Hermeticity : option HermDiff;
  d_BazelDeps : DepsDiff;
  d_Rules : RulesDiff;
  d_Providers : ProvidersDiff;
  d_Macros : NamesDiff;
  d_Aspects : NamesDiff;
  d_Toolchains : NamesDiff;
  d_RepositoryRules : RulesDiff;
  d_ModuleExtensions : ModExtsDiff;
}.

(** [Compute] up to the call of [ClassifyBreaking]. *)
Definition compute_diff (from to : ModuleReport) : Diff := {|
  d_Module := rep_Name to;
  d_From := rep_Version from;
  d_To := rep_Version to;
  d_CompatibilityLevel :=
    if decide (rep_CompatibilityLevel from = rep_CompatibilityLevel to) then None
    else Some (mkCompatChange (rep_CompatibilityLevel from) (rep_CompatibilityLevel to));
  d_Hermeticity := hermDiff (herm_Classes (rep_Hermeticity from))
                            (herm_Classes (rep_Hermeticity to));
  d_BazelDeps := depsDiff (rep_BazelDeps from) (rep_BazelDeps to);
  d_Rules := rulesDiff (filterPublicRules (rep_Rules from)) (filterPublicRules (rep_Rules to));
  d_Providers := providersDiff (filterPublicProviders (rep_Providers from))
                               (filterPublicProviders (rep_Providers to));
  d_Macros := namesDiff (macroNames (rep_Macros from)) (macroNames (rep_Macros to));
  d_Aspects := namesDiff (aspectNames (rep_Aspects from)) (aspectNames (rep_Aspects to));
  d_Toolchains := namesDiff (toolchainNames (rep_Toolchains from))
                            (toolchainNames (rep_Toolchains to));
  d_RepositoryRules := rulesDiff (repoRulesAsRules (rep_RepositoryRules from))
                                 (repoRulesAsRules (rep_RepositoryRules to));
  d_ModuleExtensions := modExtsDiff (filterPublicModExts (rep_ModuleExtensions from))
                                    (filterPublicModExts (rep_ModuleExtensions to));
|}.

(** ** Membership in the pieces of a diff *)

Lemma elem_of_missing_names {V} (other m : gmap string V) range n :
  ranges m range →
  n ∈ (missing other range).*1 ↔ other !! n = None ∧ is_Some (m !! n).
Proof.
  intros Hr. rewrite list_elem_of_fmap. split.
  - intros ([n' v] & -> & [? Hin]%elem_of_missing). rewrite (elem_of_ranges m) in Hin by done.
    naive_solver.
  - intros (? & v & Hv). exists (n, v). split; [done|]. apply elem_of_missing.
    by rewrite (elem_of_ranges m).
Qed.

Lemma missing_eq_nil {V} (other m : gmap string V) range :
  ranges m range → (missing other range = []) ↔ ∀ n, is_Some (m !! n) → is_Some (other !! n).
Proof.
  intros Hr. split.
  - intros Hnil n Hn. destruct (other !! n) eqn:E; [done|].
    assert (n ∈ (missing other range).*1) as H by (by apply (elem_of_missing_names other m)).
    by rewrite Hnil in H; apply elem_of_nil in H.
  - intros H. apply elem_of_nil_inv. intros [n v] [Ho Hin]%elem_of_missing.
    rewrite (elem_of_ranges m) in Hin by done.
    destruct (H n) as [? ?]; [by eexists|congruence].
Qed.

Lemma elem_of_set_added (a : gset string) (l : list string) x :
  (x ∈ filter (λ s, s ∉ a) l) ↔ (x ∉ a) ∧ x ∈ l.
Proof. by rewrite list_elem_of_filter. Qed.

Lemma filter_set_nil (a b : gset string) rb :
  ranges_set b rb → (filter (λ s, s ∉ a) rb = []) ↔ b ⊆ a.
Proof.
  intros Hr. split.
  - intros Hnil x Hx. destruct (decide (x ∈ a)) as [|Hn]; [done|].
    assert (x ∈ filter (λ s, s ∉ a) rb) as H
      by (apply elem_of_set_added; by rewrite (elem_of_ranges_set b)).
    by rewrite Hnil in H; apply elem_of_nil in H.
  - intros Hs. apply elem_of_nil_inv. intros x [Hna Hx]%elem_of_set_added.
    rewrite (elem_of_ranges_set b) in Hx by done. set_solver.
Qed.

(** The by-name maps of the Go code map every name to an entry of that name. *)
Definition well_keyed {V} (name : V → string) (m : gmap string V) : Prop :=
  ∀ n v, m !! n = Some v → name v = n.

Lemma map_of_id_keyed {V} (name : V → string) (l : list V) :
  well_keyed name (map_of name id l).
Proof. intros n v (x & ? & <- & <-)%lookup_map_of_Some. done. Qed.

Lemma compareAttr_Name a b c : compareAttr a b = Some c → ac_Name c = attr_Name a.
Proof. unfold compareAttr. case_match; naive_solver. Qed.

Lemma compareRule_Name a b c : compareRule a b = Some c → cr_Name c = rule_Name a.
Proof. unfold compareRule, compareRule_range. case_decide; naive_solver. Qed.

Lemma compareProvider_Name a b c : compareProvider a b = Some c → cp_Name c = provider_Name a.
Proof. unfold compareProvider, compareProvider_range. case_decide; naive_solver. Qed.

Lemma compareModExt_Name a b c : compareModExt a b = Some c → cm_Name c = ext_Name a.
Proof. unfold compareModExt, compareModExt_range. case_decide; naive_solver. Qed.

(** ** The visiting order of a Go map is irrelevant *)

Lemma missing_names_order {V} (other m : gmap string V) r1 r2 :
  ranges m r1 → ranges m r2 →
  sort_strings (missing other r1).*1 = sort_strings (missing other r2).*1.
Proof. intros H1 H2. apply sort_strings_perm_eq. unfold ranges in *. by rewrite H1, H2. Qed.

Lemma paired_order {V C} (name : V → string) (cmp : V → V → option C) (key : C → string)
    (other m : gmap string V) r1 r2 :
  well_keyed name other →
  (∀ w v c, cmp w v = Some c → key c = name w) →
  ranges m r1 → ranges m r2 →
  sort_by_key key (paired cmp other r1) = sort_by_key key (paired cmp other r2).
Proof.
  intros Hk Hc H1 H2. apply sort_by_key_perm_eq.
  - unfold ranges in *. by rewrite H1, H2.
  - apply NoDup_paired; [|by eapply ranges_NoDup].
    intros n w v c Hw Hcmp. rewrite (Hc _ _ _ Hcmp). by apply Hk.
Qed.

Lemma filter_set_order (a b : gset string) r1 r2 :
  ranges_set b r1 → ranges_set b r2 →
  sort_strings (filter (λ s, s ∉ a) r1) = sort_strings (filter (λ s, s ∉ a) r2).
Proof. intros H1 H2. apply sort_strings_perm_eq. unfold ranges_set in *. by rewrite H1, H2. Qed.

Lemma missing_values_order {V} (name : V → string) (other m : gmap string V) r1 r2 :
  well_keyed name m → ranges m r1 → ranges m r2 →
  sort_by_key name (missing other r1).*2 = sort_by_key name (missing other r2).*2.
Proof.
  intros Hk Hr1 Hr2. apply sort_by_key_perm_eq; [unfold ranges in *; by rewrite Hr1, Hr2|].
  replace (name <$> (missing other r1).*2) with (missing other r1).*1;
    [by apply NoDup_missing; eapply ranges_NoDup|].
  rewrite <-list_fmap_compose. apply list_fmap_ext. intros i [n v] Hi. simpl.
  symmetry. apply Hk. rewrite <-(elem_of_ranges m r1) by done.
  apply list_elem_of_lookup_2, elem_of_missing in Hi. naive_solver.
Qed.

Lemma compareRule_range_order name A B rb ra rb' ra' :
  well_keyed attr_Name A → well_keyed attr_Name B →
  ranges B rb → ranges A ra → ranges B rb' → ranges A ra' →
  compareRule_range name A B rb ra = compareRule_range name A B rb' ra'.
Proof.
  intros HA HB H1 H2 H3 H4. unfold compareRule_range.
  rewrite (missing_values_order attr_Name A B rb rb'), (missing_values_order attr_Name B A ra ra'),
    (paired_order attr_Name compareAttr ac_Name A B rb rb')
    by (try done; by apply compareAttr_Name).
  apply decide_ext. unfold ranges in *.
  rewrite !fmap_nil_iff, (Permutation_nil_iff (missing A rb) (missing A rb')),
    (Permutation_nil_iff (missing B ra) (missing B ra')),
    (Permutation_nil_iff (paired compareAttr A rb) (paired compareAttr A rb'));
    [done|by rewrite H1, H3|by rewrite H2, H4|by rewrite H1, H3].
Qed.

(** ** Specification of the dependency diff *)

(** Applying a dependency diff to a name-to-version map. *)
Definition patchDeps (d : DepsDiff) (m : gmap string string) : gmap string string :=
  map_of cd_Name cd_ToVersion (dd_Changed d) ∪
  (map_of mk_Name mk_Version (dd_Added d) ∪
   filter (λ p, p.1 ∉ mk_Name <$> dd_Removed d) m).

Lemma elem_of_deps_missing (other m : gmap string string) r n v :
  ranges m r →
  mkModuleKey n v false "" ∈
    sort_by_key mk_Name ((λ '(n, v), mkModuleKey n v false "") <$> missing other r) ↔
  other !! n = None ∧ m !! n = Some v.
Proof.
  intros Hr. rewrite elem_of_sort_by_key, list_elem_of_fmap. split.
  - intros ([n' v'] & [= -> ->] & [? Hin]%elem_of_missing).
    by rewrite (elem_of_ranges m) in Hin.
  - intros [? ?]. exists (n, v). split; [done|]. apply elem_of_missing.
    by rewrite (elem_of_ranges m).
Qed.

Lemma NoDup_deps_missing (other m : gmap string string) r :
  ranges m r →
  NoDup (mk_Name <$> ((λ '(n, v), mkModuleKey n v false "") <$> missing other r)).
Proof.
  intros Hr. rewrite <-list_fmap_compose.
  replace (_ <$> missing other r) with (missing other r).*1;
    [apply NoDup_missing; by eapply ranges_NoDup|].
  apply list_fmap_ext. by intros ? [] ?.
Qed.

Lemma elem_of_changedDeps (A B : gmap string string) rb n v w :
  ranges B rb →
  mkChangedDep n v w ∈ sort_by_key cd_Name (omap (changedDeps A) rb) ↔
  A !! n = Some v ∧ B !! n = Some w ∧ v ≠ w.
Proof.
  intros Hr. rewrite elem_of_sort_by_key, list_elem_of_omap. split.
  - intros ([n' w'] & Hin & (v' & ? & Hd)%bind_Some). rewrite (elem_of_ranges B) in Hin by done.
    case_decide; naive_solver.
  - intros (Hv & ? & ?). exists (n, w). rewrite (elem_of_ranges B) by done. split; [done|].
    simpl. rewrite Hv. simpl. by case_decide.
Qed.

Lemma NoDup_changedDeps (A B : gmap string string) rb :
  ranges B rb → NoDup (cd_Name <$> omap (changedDeps A) rb).
Proof.
  intros Hr. apply (NoDup_omap_key _ fst); [|by eapply ranges_NoDup].
  intros [n w] c (v & ? & Hd)%bind_Some. case_decide; naive_solver.
Qed.

Lemma depsDiff_range_order A B rb ra :
  ranges B rb → ranges A ra →
  depsDiff_range A B rb ra = depsDiff_range A B (map_to_list B) (map_to_list A).
Proof.
  intros Hb Ha. unfold depsDiff_range. f_equal; apply sort_by_key_perm_eq.
  - unfold ranges in Hb. by rewrite Hb.
  - by apply (NoDup_deps_missing A B).
  - unfold ranges in Ha. by rewrite Ha.
  - by apply (NoDup_deps_missing B A).
  - unfold ranges in Hb. by rewrite Hb.
  - by apply (NoDup_changedDeps A B).
Qed.

Lemma depsDiff_patch (A B : gmap string string) :
  patchDeps (depsDiff_range A B (map_to_list B) (map_to_list A)) A = B.
Proof.
  set (d := depsDiff_range _ _ _ _).
  assert (Hadd : ∀ n v, map_of mk_Name mk_Version (dd_Added d) !! n = Some v ↔
    A !! n = None ∧ B !! n = Some v).
  { intros n v. rewrite <-(elem_of_deps_missing A B) by done. rewrite lookup_map_of_iff.
    - split; [|intros ?; by exists (mkModuleKey n v false "")].
      intros (k & Hk & <- & <-). apply elem_of_sort_by_key in Hk as Hk'.
      apply list_elem_of_fmap in Hk' as ([n v] & -> & _). done.
    - simpl. rewrite sort_by_key_perm. by apply (NoDup_deps_missing A B). }
  assert (Hchg : ∀ n w, map_of cd_Name cd_ToVersion (dd_Changed d) !! n = Some w ↔
    ∃ v, A !! n = Some v ∧ B !! n = Some w ∧ v ≠ w).
  { intros n w. setoid_rewrite <-(elem_of_changedDeps A B); [|done]. rewrite lookup_map_of_iff.
    - split; [|intros [v ?]; by exists (mkChangedDep n v w)].
      intros ([n' v w'] & Hk & <- & <-). by exists v.
    - simpl. rewrite sort_by_key_perm. by apply (NoDup_changedDeps A B). }
  assert (Hrem : ∀ n, n ∈ mk_Name <$> dd_Removed d ↔ B !! n = None ∧ is_Some (A !! n)).
  { intros n. rewrite list_elem_of_fmap. split.
    - intros (k & -> & Hk). apply elem_of_sort_by_key in Hk as Hk'.
      apply list_elem_of_fmap in Hk' as ([n v] & -> & _).
      apply (elem_of_deps_missing B A) in Hk; naive_solver.
    - intros (? & v & ?). exists (mkModuleKey n v false ""). split; [done|].
      by apply (elem_of_deps_missing B A). }
  apply map_eq. intros n. unfold patchDeps.
  apply option_eq. intros w. rewrite !lookup_union_Some_raw, Hchg, Hadd, map_lookup_filter_Some.
  change ((n, w).1) with n. rewrite Hrem, !eq_None_not_Some. unfold is_Some. setoid_rewrite Hchg. setoid_rewrite Hadd.
  destruct (A !! n) as [v|] eqn:EA, (B !! n) as [w'|] eqn:EB; try destruct (decide (v = w'));
    naive_solver.
Qed.

(** ** Specification of the rule diff *)

(** What a caller of a rule sees of an attribute.  [Doc] and [ProviderGroups]
    are not part of it: the diff ignores them. *)
Definition attrSig (a : AttrSpec) : string * string * bool :=
  (attr_Type a, attr_Default a, attr_Mandatory a).

Definition attrSurface (r : RuleSpec) : gmap string (string * string * bool) :=
  attrSig <$> attrsByName r.

Definition patchAttr (c : AttrChange) (s : string * string * bool) : string * string * bool :=
  let '(t, d, m) := s in
  (if decide (ac_FromType c = ac_ToType c) then t else ac_ToType c,
   if decide (ac_FromDefault c = ac_ToDefault c) then d else ac_ToDefault c,
   if ac_MandatoryFlip c then ac_ToMandatory c else m).

Definition patchRule (ch : ChangedRule) (m : gmap string (string * string * bool)) :
    gmap string (string * string * bool) :=
  let chg := map_of ac_Name id (cr_AttrsChg ch) in
  map_of attr_Name attrSig (cr_AttrsAdd ch) ∪
  map_imap (λ n s, if decide (n ∈ attr_Name <$> cr_AttrsRem ch) then None
                   else Some (from_option patchAttr id (chg !! n) s)) m.

Lemma compareAttr_None a b : compareAttr a b = None ↔ attrSig a = attrSig b.
Proof.
  unfold compareAttr, attrSig. case_match eqn:E.
  - rewrite !andb_true_iff, !bool_decide_eq_true in E. naive_solver congruence.
  - rewrite !andb_false_iff, !bool_decide_eq_false in E. naive_solver.
Qed.

Lemma compareAttr_patch a b c : compareAttr a b = Some c → patchAttr c (attrSig a) = attrSig b.
Proof.
  unfold compareAttr. case_match; [done|]. intros [= <-]. unfold patchAttr, attrSig. simpl.
  repeat case_decide; congruence.
Qed.

Section compareRule.
Context (a b : RuleSpec) (ch : ChangedRule) (Hch : compareRule a b = Some ch).
#[local] Abbreviation A := (attrsByName a).
#[local] Abbreviation B := (attrsByName b).

Lemma attrsByName_keyed r : well_keyed attr_Name (attrsByName r).
Proof. apply map_of_id_keyed. Qed.

Lemma compareRule_fields :
  ch = mkChangedRule (rule_Name a)
    (sort_by_key attr_Name (missing A (map_to_list B)).*2)
    (sort_by_key attr_Name (missing B (map_to_list A)).*2)
    (sort_by_key ac_Name (paired compareAttr A (map_to_list B))).
Proof using Hch.
  revert Hch. unfold compareRule, compareRule_range. case_decide; naive_solver.
Qed.

Lemma elem_of_missing_attr (M O : gmap string AttrSpec) x :
  well_keyed attr_Name M →
  x ∈ (missing O (map_to_list M)).*2 ↔ O !! attr_Name x = None ∧ M !! attr_Name x = Some x.
Proof.
  intros Hk. rewrite list_elem_of_fmap. split.
  - intros ([n y] & -> & [? Hin]%elem_of_missing). apply elem_of_map_to_list in Hin.
    simpl. by rewrite (Hk _ _ Hin).
  - intros [? ?]. exists (attr_Name x, x). split; [done|].
    apply elem_of_missing. by rewrite elem_of_map_to_list.
Qed.

Lemma elem_of_AttrsAdd x :
  x ∈ cr_AttrsAdd ch ↔ A !! attr_Name x = None ∧ B !! attr_Name x = Some x.
Proof using Hch.
  rewrite compareRule_fields. simpl. rewrite elem_of_sort_by_key.
  apply elem_of_missing_attr, attrsByName_keyed.
Qed.

Lemma elem_of_AttrsRem x :
  x ∈ cr_AttrsRem ch ↔ B !! attr_Name x = None ∧ A !! attr_Name x = Some x.
Proof using Hch.
  rewrite compareRule_fields. simpl. rewrite elem_of_sort_by_key.
  apply elem_of_missing_attr, attrsByName_keyed.
Qed.

Lemma elem_of_AttrsChg c :
  c ∈ cr_AttrsChg ch ↔
  ∃ x y, A !! ac_Name c = Some x ∧ B !! ac_Name c = Some y ∧ compareAttr x y = Some c.
Proof using Hch.
  rewrite compareRule_fields. simpl. rewrite elem_of_sort_by_key, elem_of_paired. split.
  - intros (n & x & y & Hx & Hy%elem_of_map_to_list & Hc). exists x, y.
    rewrite (compareAttr_Name _ _ _ Hc), (attrsByName_keyed a _ _ Hx). done.
  - intros (x & y & ? & ? & ?). exists (ac_Name c), x, y. by rewrite elem_of_map_to_list.
Qed.

Lemma NoDup_AttrsAdd : NoDup (attr_Name <$> cr_AttrsAdd ch).
Proof using Hch.
  rewrite compareRule_fields. simpl. rewrite sort_by_key_perm.
  replace (attr_Name <$> _) with (missing A (map_to_list B)).*1.
  - apply NoDup_missing, NoDup_fst_map_to_list.
  - rewrite <-list_fmap_compose. apply list_fmap_ext. intros i [n v] Hi. simpl.
    apply list_elem_of_lookup_2, elem_of_missing in Hi as [_ Hi%elem_of_map_to_list].
    by rewrite (attrsByName_keyed b _ _ Hi).
Qed.

Lemma NoDup_AttrsChg : NoDup (ac_Name <$> cr_AttrsChg ch).
Proof using Hch.
  rewrite compareRule_fields. simpl. rewrite sort_by_key_perm.
  apply NoDup_paired; [|apply NoDup_fst_map_to_list].
  intros n w v c Hw Hc. by rewrite (compareAttr_Name _ _ _ Hc), (attrsByName_keyed a _ _ Hw).
Qed.

Lemma compareRule_patch : patchRule ch (attrSurface a) = attrSurface b.
Proof using Hch.
  assert (Hadd : ∀ n s, map_of attr_Name attrSig (cr_AttrsAdd ch) !! n = Some s ↔
    A !! n = None ∧ ∃ x, B !! n = Some x ∧ attrSig x = s).
  { intros n s. rewrite lookup_map_of_iff by apply NoDup_AttrsAdd.
    setoid_rewrite elem_of_AttrsAdd. split; [naive_solver|].
    intros (? & x & Hx & <-). exists x. by rewrite (attrsByName_keyed b _ _ Hx). }
  assert (HaddN : ∀ n, map_of attr_Name attrSig (cr_AttrsAdd ch) !! n = None ↔
    ¬ (A !! n = None ∧ is_Some (B !! n))).
  { intros n. rewrite eq_None_not_Some. unfold is_Some. setoid_rewrite Hadd. naive_solver. }
  assert (Hrem : ∀ n, n ∈ attr_Name <$> cr_AttrsRem ch ↔ B !! n = None ∧ is_Some (A !! n)).
  { intros n. rewrite list_elem_of_fmap. setoid_rewrite elem_of_AttrsRem.
    split; [naive_solver|]. intros (? & x & Hx). exists x.
    by rewrite (attrsByName_keyed a _ _ Hx). }
  assert (Hchg : ∀ n x y, A !! n = Some x → B !! n = Some y →
    from_option patchAttr id (map_of ac_Name id (cr_AttrsChg ch) !! n) (attrSig x) = attrSig y).
  { intros n x y Hx Hy. destruct (map_of ac_Name id (cr_AttrsChg ch) !! n) as [c|] eqn:Ec; simpl.
    - apply lookup_map_of_Some in Ec as (c' & Hc' & <- & <-).
      apply elem_of_AttrsChg in Hc' as (x' & y' & ? & ? & ?).
      apply compareAttr_patch. by simplify_eq.
    - destruct (compareAttr x y) as [c|] eqn:Ec'; [|by apply compareAttr_None in Ec'].
      apply lookup_map_of_None in Ec as []. apply list_elem_of_fmap. exists c.
      assert (ac_Name c = n) as E
        by (by rewrite (compareAttr_Name _ _ _ Ec'), (attrsByName_keyed a _ _ Hx)).
      split; [done|]. apply elem_of_AttrsChg. exists x, y. by rewrite E. }
  apply map_eq. intros n. apply option_eq. intros s. unfold patchRule, attrSurface.
  rewrite lookup_union_Some_raw, Hadd, HaddN, map_lookup_imap, !lookup_fmap.
  destruct (A !! n) as [x|] eqn:EA, (B !! n) as [y|] eqn:EB; csimpl.
  - rewrite decide_False by (rewrite Hrem; naive_solver).
    rewrite (Hchg n x y) by done. naive_solver.
  - rewrite decide_True by (rewrite Hrem; naive_solver). naive_solver.
  - naive_solver.
  - naive_solver.
Qed.
End compareRule.

Lemma compareRule_None a b : compareRule a b = None ↔ attrSurface a = attrSurface b.
Proof.
  unfold compareRule, compareRule_range. case_decide as E; simpl.
  - split; [|done]. intros _. destruct E as (E1%fmap_nil_inv & E2%fmap_nil_inv & E3).
    apply map_eq. intros n. unfold attrSurface. rewrite !lookup_fmap.
    pose proof (proj1 (missing_eq_nil (attrsByName a) (attrsByName b) _ (ranges_refl _)) E1 n) as H1.
    pose proof (proj1 (missing_eq_nil (attrsByName b) (attrsByName a) _ (ranges_refl _)) E2 n) as H2.
    destruct (attrsByName a !! n) as [x|] eqn:EA, (attrsByName b !! n) as [y|] eqn:EB; simpl.
    + f_equal. apply compareAttr_None. destruct (compareAttr x y) as [c|] eqn:Ec; [|done].
      assert (c ∈ paired compareAttr (attrsByName a) (map_to_list (attrsByName b))) as Hin.
      { apply elem_of_paired. exists n, x, y. by rewrite elem_of_map_to_list. }
      rewrite E3 in Hin. by apply elem_of_nil in Hin.
    + by destruct H2.
    + by destruct H1.
    + done.
  - split; [done|]. intros Hs. exfalso. apply E. clear E.
    assert (Hl : ∀ n, attrSig <$> attrsByName a !! n = attrSig <$> attrsByName b !! n).
    { intros n. rewrite <-!lookup_fmap. unfold attrSurface in Hs. by rewrite Hs. }
    rewrite !fmap_nil_iff, (missing_eq_nil _ (attrsByName b)), (missing_eq_nil _ (attrsByName a))
      by done.
    split_and!; try (intros n; specialize (Hl n);
      destruct (attrsByName a !! n), (attrsByName b !! n); naive_solver).
    apply elem_of_nil_inv. intros c (n & x & y & Hx & Hy%elem_of_map_to_list & Hc)%elem_of_paired.
    specialize (Hl n). rewrite Hx, Hy in Hl. apply (inj Some) in Hl.
    apply compareAttr_None in Hl. congruence.
Qed.

(** ** Membership in the keyed diffs *)

Section keyed.
Context {V C : Type} (name : V → string) (cmp : V → V → option C) (key : C → string).
Hypothesis cmp_key : ∀ w v c, cmp w v = Some c → key c = name w.
Implicit Types a b : list V.

Lemma elem_of_names_missing a b n :
  n ∈ sort_strings (missing (map_of name id a) (map_to_list (map_of name id b))).*1 ↔
  (n ∉ name <$> a) ∧ n ∈ name <$> b.
Proof.
  by rewrite elem_of_sort_strings, (elem_of_missing_names _ (map_of name id b)),
    lookup_map_of_None, lookup_map_of_is_Some.
Qed.

Lemma elem_of_changed a b c :
  c ∈ sort_by_key key (paired cmp (map_of name id a) (map_to_list (map_of name id b))) ↔
  ∃ x y, map_of name id a !! key c = Some x ∧ map_of name id b !! key c = Some y ∧
         cmp x y = Some c.
Proof using cmp_key.
  rewrite elem_of_sort_by_key, elem_of_paired. split.
  - intros (n & x & y & Hx & Hy%elem_of_map_to_list & Hc). exists x, y.
    by rewrite (cmp_key _ _ _ Hc), (map_of_id_keyed name a _ _ Hx).
  - intros (x & y & ? & ? & ?). exists (key c), x, y. by rewrite elem_of_map_to_list.
Qed.

Lemma names_missing_sorted (O M : gmap string V) :
  key_sorted id (sort_strings (missing O (map_to_list M)).*1).
Proof. apply sort_strings_sorted, NoDup_missing, NoDup_fst_map_to_list. Qed.

Lemma changed_sorted a (M : gmap string V) :
  key_sorted key (sort_by_key key (paired cmp (map_of name id a) (map_to_list M))).
Proof using cmp_key.
  apply sort_by_key_sorted, NoDup_paired; [|apply NoDup_fst_map_to_list].
  intros n w v c Hw Hc. by rewrite (cmp_key _ _ _ Hc), (map_of_id_keyed name a _ _ Hw).
Qed.

Lemma names_missing_self (m : gmap string V) : missing m (map_to_list m) = [].
Proof. by apply (missing_eq_nil m m). Qed.

Lemma changed_self a :
  (∀ x, cmp x x = None) →
  paired cmp (map_of name id a) (map_to_list (map_of name id a)) = [].
Proof.
  intros Hs. apply elem_of_nil_inv.
  intros c (n & x & y & Hx & Hy%elem_of_map_to_list & Hc)%elem_of_paired.
  simplify_eq. by rewrite Hs in Hc.
Qed.
End keyed.

Lemma filter_self_nil (s : gset string) : filter (λ x, x ∉ s) (elements s) = [].
Proof. by apply (filter_set_nil s s). Qed.

Lemma elem_of_names_added a b x :
  x ∈ sort_strings (filter (λ s, s ∉ set_of a) (elements (set_of b))) ↔ (x ∉ a) ∧ x ∈ b.
Proof.
  by rewrite elem_of_sort_strings, elem_of_set_added, elem_of_elements, !elem_of_set_of.
Qed.

(** The fields and tag classes of a provider and of an extension. *)
Lemma compareProvider_Some a b c :
  compareProvider a b = Some c →
  (∀ f, f ∈ cp_FieldsAdded c ↔ (f ∉ provider_Fields a) ∧ f ∈ provider_Fields b) ∧
  (∀ f, f ∈ cp_FieldsRemoved c ↔ (f ∉ provider_Fields b) ∧ f ∈ provider_Fields a).
Proof.
  unfold compareProvider, compareProvider_range. case_decide; [done|]. intros [= <-].
  split; intros f; apply elem_of_names_added.
Qed.

Lemma compareProvider_None a b :
  compareProvider a b = None ↔ set_of (provider_Fields a) = set_of (provider_Fields b).
Proof.
  unfold compareProvider, compareProvider_range. case_decide as E.
  - rewrite !filter_set_nil in E by done. split; [intros _; set_solver|done].
  - rewrite !filter_set_nil in E by done. split; [done|]. intros H. destruct E.
    by rewrite H.
Qed.

Lemma compareModExt_Some a b c :
  compareModExt a b = Some c →
  (∀ t, t ∈ cm_TagClassesAdded c ↔
     (t ∉ tag_Name <$> ext_TagClasses a) ∧ t ∈ tag_Name <$> ext_TagClasses b) ∧
  (∀ t, t ∈ cm_TagClassesRemoved c ↔
     (t ∉ tag_Name <$> ext_TagClasses b) ∧ t ∈ tag_Name <$> ext_TagClasses a).
Proof.
  unfold compareModExt, compareModExt_range. case_decide; [done|]. intros [= <-].
  split; intros f; apply elem_of_names_added.
Qed.

Lemma compareModExt_None a b :
  compareModExt a b = None ↔
  set_of (tag_Name <$> ext_TagClasses a) = set_of (tag_Name <$> ext_TagClasses b).
Proof.
  unfold compareModExt, compareModExt_range. case_decide as E.
  - rewrite !filter_set_nil in E by done. split; [intros _; set_solver|done].
  - rewrite !filter_set_nil in E by done. split; [done|]. intros H. destruct E.
    by rewrite H.
Qed.

Lemma compareRule_self r : compareRule r r = None.
Proof. by apply compareRule_None. Qed.
Lemma compareProvider_self p : compareProvider p p = None.
Proof. by apply compareProvider_None. Qed.
Lemma compareModExt_self e : compareModExt e e = None.
Proof. by apply compareModExt_None. Qed.

Lemma rulesDiff_self rs : rulesDiff rs rs = mkRulesDiff [] [] [].
Proof.
  unfold rulesDiff, rulesDiff_range.
  by rewrite !names_missing_self, (changed_self rule_Name) by apply compareRule_self.
Qed.

Lemma providersDiff_self ps : providersDiff ps ps = mkProvidersDiff [] [] [].
Proof.
  unfold providersDiff, providersDiff_range.
  by rewrite !names_missing_self, (changed_self provider_Name) by apply compareProvider_self.
Qed.

Lemma modExtsDiff_self es : modExtsDiff es es = mkModExtsDiff [] [] [].
Proof.
  unfold modExtsDiff, modExtsDiff_range.
  by rewrite !names_missing_self, (changed_self ext_Name) by apply compareModExt_self.
Qed.

Lemma namesDiff_self l : namesDiff l l = mkNamesDiff [] [].
Proof. unfold namesDiff, namesDiff_range. by rewrite !filter_self_nil. Qed.

Lemma hermDiff_self l : hermDiff l l = None.
Proof. unfold hermDiff, hermDiff_range. by rewrite !filter_self_nil. Qed.

Lemma depsDiff_self ds : depsDiff ds ds = mkDepsDiff [] [] [].
Proof.
  unfold depsDiff, depsDiff_range. rewrite !names_missing_self. simpl. f_equal.
  replace (omap _ _) with (@nil ChangedDep); [done|]. symmetry. apply elem_of_nil_inv.
  intros c ([n w] & Hin%elem_of_map_to_list & (v & Hv & Hd)%bind_Some)%list_elem_of_omap.
  case_decide; congruence.
Qed.

(** ** Theorems *)

(** The dependency diff is exact: its three lists hold precisely the modules
    that only [to] has, that only [from] has, and whose version moved (with
    both versions); each list is sorted by name with no repetition; and
    applying the diff to the dependencies of [from] gives those of [to]. *)
Theorem depsDiff_exact (a b : list ModuleKey) :
  let A := map_of mk_Name mk_Version a in
  let B := map_of mk_Name mk_Version b in
  let d := depsDiff a b in
  (∀ n v, mkModuleKey n v false "" ∈ dd_Added d ↔ A !! n = None ∧ B !! n = Some v) ∧
  (∀ n v, mkModuleKey n v false "" ∈ dd_Removed d ↔ B !! n = None ∧ A !! n = Some v) ∧
  (∀ n v w, mkChangedDep n v w ∈ dd_Changed d ↔ A !! n = Some v ∧ B !! n = Some w ∧ v ≠ w) ∧
  key_sorted mk_Name (dd_Added d) ∧ key_sorted mk_Name (dd_Removed d) ∧
  key_sorted cd_Name (dd_Changed d) ∧
  patchDeps d A = B.
Proof.
  intros A B d. split_and!.
  - intros. by apply (elem_of_deps_missing A B).
  - intros. by apply (elem_of_deps_missing B A).
  - intros. by apply (elem_of_changedDeps A B).
  - by apply sort_by_key_sorted, (NoDup_deps_missing A B).
  - by apply sort_by_key_sorted, (NoDup_deps_missing B A).
  - by apply sort_by_key_sorted, (NoDup_changedDeps A B).
  - apply (depsDiff_patch A B).
Qed.

(** The rule diff is exact: Added and Removed are the names only one side has,
    and for a rule both sides have, there is an entry in Changed exactly when a
    caller-visible attribute signature differs, and patching the old attribute
    signatures with that entry gives the new ones. *)
Theorem rulesDiff_exact (a b : list RuleSpec) :
  let A := map_of rule_Name id a in
  let B := map_of rule_Name id b in
  let d := rulesDiff a b in
  (∀ n, n ∈ rd_Added d ↔ (n ∉ rule_Name <$> a) ∧ n ∈ rule_Name <$> b) ∧
  (∀ n, n ∈ rd_Removed d ↔ (n ∉ rule_Name <$> b) ∧ n ∈ rule_Name <$> a) ∧
  (∀ n x y, A !! n = Some x → B !! n = Some y →
     (n ∈ cr_Name <$> rd_Changed d ↔ attrSurface x ≠ attrSurface y) ∧
     ∀ ch, ch ∈ rd_Changed d → cr_Name ch = n →
       patchRule ch (attrSurface x) = attrSurface y) ∧
  key_sorted id (rd_Added d) ∧ key_sorted id (rd_Removed d) ∧
  key_sorted cr_Name (rd_Changed d).
Proof.
  intros A B d.
  pose proof (elem_of_changed rule_Name compareRule cr_Name compareRule_Name a b
    : ∀ ch, ch ∈ rd_Changed d ↔ _) as Hchg.
  split_and!.
  - intros. apply elem_of_names_missing.
  - intros. apply elem_of_names_missing.
  - intros n x y Hx Hy. split.
    + rewrite list_elem_of_fmap, <-compareRule_None. setoid_rewrite Hchg. split.
      * intros (ch & -> & x' & y' & ? & ? & ?). subst A B. simplify_eq. congruence.
      * destruct (compareRule x y) as [ch|] eqn:Ec; [|done]. intros _. exists ch.
        rewrite (compareRule_Name _ _ _ Ec), (map_of_id_keyed rule_Name a _ _ Hx). split; [done|]. by exists x, y.
    + intros ch (x' & y' & ? & ? & ?)%Hchg <-. subst A B. simplify_eq. by apply compareRule_patch.
  - apply names_missing_sorted.
  - apply names_missing_sorted.
  - apply changed_sorted, compareRule_Name.
Qed.

(** Go visits the entries of a map in an unspecified order.  Whatever orders
    the loops see, the dependency, rule, attribute, provider, extension, name
    and hermeticity diffs are the same values. *)
Theorem map_order_irrelevant :
  (∀ a b rb ra, ranges (map_of mk_Name mk_Version b) rb → ranges (map_of mk_Name mk_Version a) ra →
     depsDiff_range (map_of mk_Name mk_Version a) (map_of mk_Name mk_Version b) rb ra
     = depsDiff a b) ∧
  (∀ a b rb ra, ranges (map_of rule_Name id b) rb → ranges (map_of rule_Name id a) ra →
     rulesDiff_range (map_of rule_Name id a) (map_of rule_Name id b) rb ra = rulesDiff a b) ∧
  (∀ a b rb ra, ranges (attrsByName b) rb → ranges (attrsByName a) ra →
     compareRule_range (rule_Name a) (attrsByName a) (attrsByName b) rb ra = compareRule a b) ∧
  (∀ a b rb ra, ranges (map_of provider_Name id b) rb → ranges (map_of provider_Name id a) ra →
     providersDiff_range (map_of provider_Name id a) (map_of provider_Name id b) rb ra
     = providersDiff a b) ∧
  (∀ a b rb ra, ranges (map_of ext_Name id b) rb → ranges (map_of ext_Name id a) ra →
     modExtsDiff_range (map_of ext_Name id a) (map_of ext_Name id b) rb ra = modExtsDiff a b) ∧
  (∀ a b rb ra, ranges_set (set_of b) rb → ranges_set (set_of a) ra →
     namesDiff_range (set_of a) (set_of b) rb ra = namesDiff a b) ∧
  (∀ a b rb ra, ranges_set (set_of b) rb → ranges_set (set_of a) ra →
     hermDiff_range (set_of a) (set_of b) rb ra = hermDiff a b).
Proof.
  split_and!; intros a b rb ra Hb Ha.
  - by apply depsDiff_range_order.
  - unfold rulesDiff, rulesDiff_range. f_equal; [by eapply missing_names_order..|].
    eapply paired_order; eauto using map_of_id_keyed, compareRule_Name.
  - apply compareRule_range_order; eauto using attrsByName_keyed.
  - unfold providersDiff, providersDiff_range. f_equal; [by eapply missing_names_order..|].
    eapply paired_order; eauto using map_of_id_keyed, compareProvider_Name.
  - unfold modExtsDiff, modExtsDiff_range. f_equal; [by eapply missing_names_order..|].
    eapply paired_order; eauto using map_of_id_keyed, compareModExt_Name.
  - unfold namesDiff, namesDiff_range. f_equal; by eapply filter_set_order.
  - unfold hermDiff, hermDiff_range. simpl.
    rewrite (filter_set_order (set_of a) (set_of b) rb (elements (set_of b))),
      (filter_set_order (set_of b) (set_of a) ra (elements (set_of a))) by done.
    done.
Qed.

Definition exampleDeps : list ModuleKey := [mkModuleKey "zlib" "1.3" false ""; mkModuleKey "abseil" "2" false ""].

Lemma map_order_irrelevant_witness :
  depsDiff_range (map_of mk_Name mk_Version []) (map_of mk_Name mk_Version exampleDeps)
    (reverse (map_to_list (map_of mk_Name mk_Version exampleDeps))) [] =
  mkDepsDiff [mkModuleKey "abseil" "2" false ""; mkModuleKey "zlib" "1.3" false ""] [] [].
Proof.
  destruct map_order_irrelevant as [H _]. rewrite H.
  - reflexivity.
  - unfold ranges. apply reverse_Permutation.
  - vm_compute. constructor.
Defined.
