(* ===== verification/Breaking.v ===== *)
(** * Classification of breaking changes

    Models [internal/modulediff/breaking.go] and the last step of [Compute]:
    the findings extracted from a diff, their migration hints and Buildozer
    codemods, and their order.  The main theorem is a refinement: the findings
    of [Compute from to] are exactly the ways, defined directly on the two
    reports, in which [to] takes something away from the consumers of [from]. *)

From S2P Require Import Prelude Report ModuleDiff.

(** ** Kinds and findings *)

Inductive BreakingKind :=
| BreakingCompatLevelShift
| BreakingRuleRemoved
| BreakingRuleAttrRemoved
| BreakingRuleAttrNowMandatory
| BreakingProviderRemoved
| BreakingProviderFieldRemoved
| BreakingModuleExtensionRemoved
| BreakingModuleExtensionTagRemoved
| BreakingRepoRuleRemoved
| BreakingRepoRuleAttrRemoved
| BreakingRepoRuleAttrNowMandatory.

(** The string value of each constant. *)
Definition kind_string (k : BreakingKind) : string :=
  match k with
  | BreakingCompatLevelShift => "compat_level_shift"
  | BreakingRuleRemoved => "rule_removed"
  | BreakingRuleAttrRemoved => "rule_attr_removed"
  | BreakingRuleAttrNowMandatory => "rule_attr_now_mandatory"
  | BreakingProviderRemoved => "provider_removed"
  | BreakingProviderFieldRemoved => "provider_field_removed"
  | BreakingModuleExtensionRemoved => "module_extension_removed"
  | BreakingModuleExtensionTagRemoved => "module_extension_tag_class_removed"
  | BreakingRepoRuleRemoved => "repo_rule_removed"
  | BreakingRepoRuleAttrRemoved => "repo_rule_attr_removed"
  | BreakingRepoRuleAttrNowMandatory => "repo_rule_attr_now_mandatory"
  end.

#[export] Instance BreakingKind_eq_dec : EqDecision BreakingKind.
Proof. solve_decision. Defined.

#[export] Instance kind_string_inj : Inj (=) (=) kind_string.
Proof. intros [] []; done || discriminate. Qed.

Record BreakingFinding := mkFinding {
  bf_Kind : BreakingKind;
  bf_Symbol : string;
  bf_Detail : string;
  bf_Reason : string;
  bf_Hint : string;
  bf_Codemod : string;
}.

#[export] Instance BreakingFinding_eq_dec : EqDecision BreakingFinding.
Proof. solve_decision. Defined.

(** A finding as the detection loops append it: no hint, no codemod yet. *)
Definition raw (k : BreakingKind) (symbol detail reason : string) : BreakingFinding :=
  mkFinding k symbol detail reason "" "".

(** ** Hints and codemods *)

Definition migrationHint (f : BreakingFinding) : string :=
  let s := bf_Symbol f in
  let d := bf_Detail f in
  match bf_Kind f with
  | BreakingCompatLevelShift =>
      "Bump every project on the old level to a release that supports the new compatibility_level, or pin to the previous version."
  | BreakingRuleRemoved =>
      "Remove all calls to `" +:+ s +:+ "(...)` from your BUILD files (or pick the replacement rule from the module's CHANGELOG)."
  | BreakingRuleAttrRemoved =>
      "Remove `" +:+ d +:+ " = ...` from every call to `" +:+ s +:+ "(...)`."
  | BreakingRuleAttrNowMandatory =>
      "Add `" +:+ d +:+ " = ...` to every call to `" +:+ s +:+ "(...)`; the attribute is no longer optional."
  | BreakingProviderRemoved =>
      "Find every read of the `" +:+ s +:+ "` provider (typically `target[" +:+ s +:+ "]` in a rule's implementation) and migrate to the replacement, or guard with `" +:+ s +:+ " in target`."
  | BreakingProviderFieldRemoved =>
      "Remove reads of `." +:+ d +:+ "` on the `" +:+ s +:+ "` provider; the field no longer exists."
  | BreakingModuleExtensionRemoved =>
      "Remove `use_extension(" +:+ dq +:+ "..." +:+ dq +:+ ", " +:+ dq +:+ s +:+ dq +:+ ")` from MODULE.bazel; the extension no longer exists."
  | BreakingModuleExtensionTagRemoved =>
      "Remove every `" +:+ s +:+ "." +:+ d +:+ "(...)` tag call from MODULE.bazel."
  | BreakingRepoRuleRemoved =>
      "Remove uses of `" +:+ s +:+ "(...)` from WORKSPACE/repo-rule setup; the repository rule no longer exists."
  | BreakingRepoRuleAttrRemoved =>
      "Remove `" +:+ d +:+ " = ...` from every `" +:+ s +:+ "(...)` invocation."
  | BreakingRepoRuleAttrNowMandatory =>
      "Add `" +:+ d +:+ " = ...` to every `" +:+ s +:+ "(...)` invocation; the attribute is no longer optional."
  end.

Definition buildozerCodemod (f : BreakingFinding) : string :=
  let s := bf_Symbol f in
  let d := bf_Detail f in
  match bf_Kind f with
  | BreakingRuleAttrRemoved =>
      "buildozer 'remove " +:+ d +:+ "' '//...:%" +:+ s +:+ "'"
  | BreakingRepoRuleAttrRemoved =>
      "buildozer 'remove " +:+ d +:+ "' '//MODULE.bazel:%" +:+ s +:+ "'"
  | BreakingModuleExtensionRemoved =>
      "# review: buildozer 'delete' '//MODULE.bazel:%use_extension' (consumers may rename — find by RHS, not lhs)"
  | BreakingModuleExtensionTagRemoved =>
      "# review: grep -rn '\." +:+ d +:+ "(' MODULE.bazel  # tag calls of " +:+ s +:+ "." +:+ d
  | BreakingRuleRemoved =>
      "# review: grep -rn '" +:+ s +:+ "(' . --include=BUILD --include=BUILD.bazel --include='*.bzl'"
  | BreakingRepoRuleRemoved =>
      "# review: grep -rn '" +:+ s +:+ "(' MODULE.bazel WORKSPACE WORKSPACE.bazel"
  | BreakingProviderRemoved | BreakingProviderFieldRemoved =>
      "# review: grep -rn '" +:+ s +:+ "' . --include='*.bzl'"
  | BreakingCompatLevelShift | BreakingRuleAttrNowMandatory
  | BreakingRepoRuleAttrNowMandatory => ""
  end.

(** ** [ClassifyBreaking] *)

(** [a.MandatoryFlip && !a.FromMandatory && a.ToMandatory] *)
Definition now_mandatory (a : AttrChange) : bool :=
  ac_MandatoryFlip a && negb (ac_FromMandatory a) && ac_ToMandatory a.

Definition classifyRules (removed attrRemoved attrMandatory : BreakingKind)
    (removedReason attrRemovedReason attrMandatoryReason : string)
    (d : RulesDiff) : list BreakingFinding :=
  ((λ name, raw removed name "" removedReason) <$> rd_Removed d) ++
  (ch ← rd_Changed d;
    ((λ a, raw attrRemoved (cr_Name ch) (attr_Name a) attrRemovedReason) <$> cr_AttrsRem ch) ++
    ((λ a, raw attrMandatory (cr_Name ch) (ac_Name a) attrMandatoryReason) <$>
       filter (λ a, now_mandatory a = true) (cr_AttrsChg ch))).

Definition classifyProviders (d : ProvidersDiff) : list BreakingFinding :=
  ((λ name, raw BreakingProviderRemoved name ""
     "Consumers that read this provider type from a target will lose access to it.")
   <$> pd_Removed d) ++
  (ch ← pd_Changed d;
    (λ f, raw BreakingProviderFieldRemoved (cp_Name ch) f
       "Consumers reading this field on the provider will get an attribute error.")
    <$> cp_FieldsRemoved ch).

Definition classifyModExts (d : ModExtsDiff) : list BreakingFinding :=
  ((λ name, raw BreakingModuleExtensionRemoved name ""
     "MODULE.bazel files calling use_extension(...) for this extension will fail to resolve.")
   <$> md_Removed d) ++
  (ch ← md_Changed d;
    (λ t, raw BreakingModuleExtensionTagRemoved (cm_Name ch) t
       "MODULE.bazel files invoking this tag class on the extension will fail to load.")
    <$> cm_TagClassesRemoved ch).

(** The detection pass, in the order of the Go function. *)
Definition detectBreaking (r : Diff) : list BreakingFinding :=
  match d_CompatibilityLevel r with
  | Some _ => [raw BreakingCompatLevelShift (d_Module r) ""
      "Bazel treats different compatibility_levels as hard-incompatible; the version is unusable from any project still on the old level."]
  | None => []
  end ++
  classifyRules BreakingRuleRemoved BreakingRuleAttrRemoved BreakingRuleAttrNowMandatory
    "BUILD files that target this rule will fail at load time."
    "Consumers passing this attribute will get an unknown-keyword error."
    "Consumers not passing this attribute will now fail; the attribute was previously optional."
    (d_Rules r) ++
  classifyProviders (d_Providers r) ++
  classifyModExts (d_ModuleExtensions r) ++
  classifyRules BreakingRepoRuleRemoved BreakingRepoRuleAttrRemoved BreakingRepoRuleAttrNowMandatory
    "Consumers calling this repository rule (typically via load(...) + WORKSPACE-era setup) will fail."
    "Consumers passing this attribute to the repository rule will get an unknown-keyword error."
    "Consumers not passing this attribute to the repository rule will now fail."
    (d_RepositoryRules r).

(** The annotation pass: [Hint], then [Codemod]. *)
Definition annotate (f : BreakingFinding) : BreakingFinding :=
  mkFinding (bf_Kind f) (bf_Symbol f) (bf_Detail f) (bf_Reason f)
    (migrationHint f) (buildozerCodemod f).

(** The comparator of the final stable sort. *)
Definition finding_less (x y : BreakingFinding) : bool :=
  if decide (bf_Kind x = bf_Kind y) then
    if decide (bf_Symbol x = bf_Symbol y) then
      String.ltb (bf_Detail x) (bf_Detail y)
    else String.ltb (bf_Symbol x) (bf_Symbol y)
  else String.ltb (kind_string (bf_Kind x)) (kind_string (bf_Kind y)).

Definition ClassifyBreaking (r : Diff) : list BreakingFinding :=
  sort_slice finding_less (annotate <$> detectBreaking r).

(** [modulediff.Report]: the diff with its findings and the two sources, which
    the service layer sets. *)
Record DiffReport := mkDiffReport {
  dr_Diff : Diff;
  dr_FromSource : string;
  dr_ToSource : string;
  dr_Breaking : list BreakingFinding;
}.

Definition Compute (from to : ModuleReport) : DiffReport :=
  let d := compute_diff from to in
  mkDiffReport d "" "" (ClassifyBreaking d).

(** ** What a consumer of the module can rely on *)

Definition rulesOf (r : ModuleReport) : gmap string RuleSpec :=
  map_of rule_Name id (filterPublicRules (rep_Rules r)).
Definition repoRulesOf (r : ModuleReport) : gmap string RuleSpec :=
  map_of rule_Name id (repoRulesAsRules (rep_RepositoryRules r)).
Definition providersOf (r : ModuleReport) : gmap string ProviderSpec :=
  map_of provider_Name id (filterPublicProviders (rep_Providers r)).
Definition modExtsOf (r : ModuleReport) : gmap string ModuleExtSpec :=
  map_of ext_Name id (filterPublicModExts (rep_ModuleExtensions r)).

(** [to] no longer has an entry of that name. *)
Definition gone {V} (from to : gmap string V) (n : string) : Prop :=
  is_Some (from !! n) ∧ to !! n = None.

(** A rule both versions have lost the attribute [d]. *)
Definition attr_gone (from to : gmap string RuleSpec) (n d : string) : Prop :=
  ∃ x y, from !! n = Some x ∧ to !! n = Some y ∧ gone (attrsByName x) (attrsByName y) d.

(** The attribute [d] of a rule both versions have turned from optional to mandatory. *)
Definition attr_tightened (from to : gmap string RuleSpec) (n d : string) : Prop :=
  ∃ x y p q, from !! n = Some x ∧ to !! n = Some y ∧
    attrsByName x !! d = Some p ∧ attrsByName y !! d = Some q ∧
    attr_Mandatory p = false ∧ attr_Mandatory q = true.

(** The specification: [Breaks from to k s d] when the step from [from] to [to]
    breaks consumers in way [k] at symbol [s], detail [d]. *)
Inductive Breaks (from to : ModuleReport) : BreakingKind → string → string → Prop :=
| breaks_compat :
    rep_CompatibilityLevel from ≠ rep_CompatibilityLevel to →
    Breaks from to BreakingCompatLevelShift (rep_Name to) ""
| breaks_rule n :
    gone (rulesOf from) (rulesOf to) n → Breaks from to BreakingRuleRemoved n ""
| breaks_rule_attr n d :
    attr_gone (rulesOf from) (rulesOf to) n d → Breaks from to BreakingRuleAttrRemoved n d
| breaks_rule_mandatory n d :
    attr_tightened (rulesOf from) (rulesOf to) n d →
    Breaks from to BreakingRuleAttrNowMandatory n d
| breaks_provider n :
    gone (providersOf from) (providersOf to) n → Breaks from to BreakingProviderRemoved n ""
| breaks_provider_field n d x y :
    providersOf from !! n = Some x → providersOf to !! n = Some y →
    d ∈ provider_Fields x → d ∉ provider_Fields y →
    Breaks from to BreakingProviderFieldRemoved n d
| breaks_ext n :
    gone (modExtsOf from) (modExtsOf to) n → Breaks from to BreakingModuleExtensionRemoved n ""
| breaks_ext_tag n d x y :
    modExtsOf from !! n = Some x → modExtsOf to !! n = Some y →
    d ∈ tag_Name <$> ext_TagClasses x → d ∉ tag_Name <$> ext_TagClasses y →
    Breaks from to BreakingModuleExtensionTagRemoved n d
| breaks_repo_rule n :
    gone (repoRulesOf from) (repoRulesOf to) n → Breaks from to BreakingRepoRuleRemoved n ""
| breaks_repo_attr n d :
    attr_gone (repoRulesOf from) (repoRulesOf to) n d →
    Breaks from to BreakingRepoRuleAttrRemoved n d
| breaks_repo_mandatory n d :
    attr_tightened (repoRulesOf from) (repoRulesOf to) n d →
    Breaks from to BreakingRepoRuleAttrNowMandatory n d.

(** ** The detection pass, piece by piece *)

Lemma gone_iff {V} (name : V → string) a b n :
  n ∈ sort_strings (missing (map_of name id b) (map_to_list (map_of name id a))).*1 ↔
  gone (map_of name id a) (map_of name id b) n.
Proof.
  rewrite elem_of_names_missing. unfold gone.
  by rewrite lookup_map_of_None, lookup_map_of_is_Some, (and_comm (n ∉ _)).
Qed.

Lemma now_mandatory_iff p q :
  (∃ c, compareAttr p q = Some c ∧ now_mandatory c = true) ↔
  attr_Mandatory p = false ∧ attr_Mandatory q = true.
Proof.
  unfold compareAttr, now_mandatory.
  destruct (attr_Mandatory p) eqn:Ep, (attr_Mandatory q) eqn:Eq; simpl;
    rewrite ?andb_false_r; repeat case_match; naive_solver.
Qed.

Section rules.
Context (a b : list RuleSpec).
#[local] Abbreviation A := (map_of rule_Name id a).
#[local] Abbreviation B := (map_of rule_Name id b).

Lemma elem_of_rulesDiff_Changed ch :
  ch ∈ rd_Changed (rulesDiff a b) ↔
  ∃ x y, A !! cr_Name ch = Some x ∧ B !! cr_Name ch = Some y ∧ compareRule x y = Some ch.
Proof. apply elem_of_changed, compareRule_Name. Qed.

Lemma changed_AttrsRem n d :
  (∃ ch at', ch ∈ rd_Changed (rulesDiff a b) ∧ cr_Name ch = n ∧
    at' ∈ cr_AttrsRem ch ∧ attr_Name at' = d) ↔ attr_gone A B n d.
Proof.
  setoid_rewrite elem_of_rulesDiff_Changed. unfold attr_gone. split.
  - intros (ch & at' & (x & y & Hx & Hy & Hc) & <- & Hat & <-). exists x, y.
    apply (elem_of_AttrsRem x y ch Hc) in Hat. unfold gone. naive_solver.
  - intros (x & y & Hx & Hy & [p Hp] & Hn).
    destruct (compareRule x y) as [ch|] eqn:Hc.
    + pose proof (attrsByName_keyed x _ _ Hp) as <-.
      pose proof (compareRule_Name _ _ _ Hc) as E.
      rewrite (map_of_id_keyed rule_Name a _ _ Hx) in E. subst n.
      exists ch, p. split_and!; try done; [by exists x, y|].
      by apply (elem_of_AttrsRem x y ch Hc).
    + apply compareRule_None in Hc. exfalso.
      assert (attrSurface x !! d = attrSurface y !! d) as E by (by rewrite Hc).
      unfold attrSurface in E. rewrite !lookup_fmap, Hp, Hn in E. done.
Qed.

Lemma changed_now_mandatory n d :
  (∃ ch c, ch ∈ rd_Changed (rulesDiff a b) ∧ cr_Name ch = n ∧
    c ∈ cr_AttrsChg ch ∧ now_mandatory c = true ∧ ac_Name c = d) ↔ attr_tightened A B n d.
Proof.
  setoid_rewrite elem_of_rulesDiff_Changed. unfold attr_tightened. split.
  - intros (ch & c & (x & y & Hx & Hy & Hc) & <- & Hin & Hm & <-).
    apply (elem_of_AttrsChg x y ch Hc) in Hin as (p & q & Hp & Hq & Hpq).
    exists x, y, p, q. do 4 (split; [done|]). apply now_mandatory_iff. by exists c.
  - intros (x & y & p & q & Hx & Hy & Hp & Hq & Hm).
    apply now_mandatory_iff in Hm as (c & Hpq & Hm).
    pose proof (compareAttr_Name _ _ _ Hpq) as E.
    rewrite (attrsByName_keyed x _ _ Hp) in E. subst d.
    destruct (compareRule x y) as [ch|] eqn:Hc.
    + pose proof (compareRule_Name _ _ _ Hc) as E.
      rewrite (map_of_id_keyed rule_Name a _ _ Hx) in E. subst n.
      exists ch, c. split_and!; try done; [by exists x, y|].
      apply (elem_of_AttrsChg x y ch Hc). by exists p, q.
    + apply compareRule_None in Hc. exfalso.
      assert (attrSurface x !! ac_Name c = attrSurface y !! ac_Name c) as E by (by rewrite Hc).
      unfold attrSurface in E. rewrite !lookup_fmap, Hp, Hq in E. apply (inj Some) in E.
      apply compareAttr_None in E. congruence.
Qed.

Lemma elem_of_classifyRules kr ka km rr ra rm k s d :
  (∃ f, f ∈ classifyRules kr ka km rr ra rm (rulesDiff a b) ∧
    bf_Kind f = k ∧ bf_Symbol f = s ∧ bf_Detail f = d) ↔
  (k = kr ∧ d = "" ∧ gone A B s) ∨ (k = ka ∧ attr_gone A B s d) ∨
  (k = km ∧ attr_tightened A B s d).
Proof.
  rewrite <-changed_AttrsRem, <-changed_now_mandatory, <-gone_iff.
  unfold classifyRules. setoid_rewrite elem_of_app. setoid_rewrite list_elem_of_fmap.
  setoid_rewrite list_elem_of_bind. setoid_rewrite elem_of_app.
  setoid_rewrite list_elem_of_fmap. setoid_rewrite list_elem_of_filter. split.
  - naive_solver.
  - intros [(-> & -> & ?)|[(-> & ch & at' & ? & <- & ? & <-)|(-> & ch & c & ? & <- & ? & ? & <-)]].
    + exists (raw kr s "" rr). naive_solver.
    + exists (raw ka (cr_Name ch) (attr_Name at') ra). naive_solver.
    + exists (raw km (cr_Name ch) (ac_Name c) rm). naive_solver.
Qed.
End rules.

Lemma elem_of_classifyProviders a b k s d :
  (∃ f, f ∈ classifyProviders (providersDiff a b) ∧
    bf_Kind f = k ∧ bf_Symbol f = s ∧ bf_Detail f = d) ↔
  (k = BreakingProviderRemoved ∧ d = "" ∧
     gone (map_of provider_Name id a) (map_of provider_Name id b) s) ∨
  (k = BreakingProviderFieldRemoved ∧ ∃ x y,
     map_of provider_Name id a !! s = Some x ∧ map_of provider_Name id b !! s = Some y ∧
     d ∈ provider_Fields x ∧ d ∉ provider_Fields y).
Proof.
  rewrite <-gone_iff. unfold classifyProviders. setoid_rewrite elem_of_app.
  setoid_rewrite list_elem_of_fmap. setoid_rewrite list_elem_of_bind.
  setoid_rewrite list_elem_of_fmap.
  pose proof (elem_of_changed provider_Name compareProvider cp_Name compareProvider_Name a b
    : ∀ ch, ch ∈ pd_Changed (providersDiff a b) ↔ _) as Hchg.
  setoid_rewrite Hchg. split.
  - intros (f & [(n & -> & ?)|(ch & (d' & -> & Hd) & x & y & ? & ? & Hc)] & <- & <- & <-); [by left|].
    right. split; [done|]. exists x, y. apply compareProvider_Some in Hc as [_ Hc].
    apply Hc in Hd. naive_solver.
  - intros [(-> & -> & ?)|(-> & x & y & Hx & Hy & Hd & Hnd)]; [by eexists; split; [left; eexists|]|].
    destruct (compareProvider x y) as [ch|] eqn:Hc.
    + pose proof (compareProvider_Name _ _ _ Hc) as E.
      rewrite (map_of_id_keyed provider_Name a _ _ Hx) in E. subst s.
      eexists. split; [right; exists ch; split; [exists d; split; [done|]|by exists x, y]|done].
      apply compareProvider_Some in Hc as [_ Hc]. by apply Hc.
    + apply compareProvider_None in Hc. exfalso. apply Hnd.
      by rewrite <-elem_of_set_of, <-Hc, elem_of_set_of.
Qed.

Lemma elem_of_classifyModExts a b k s d :
  (∃ f, f ∈ classifyModExts (modExtsDiff a b) ∧
    bf_Kind f = k ∧ bf_Symbol f = s ∧ bf_Detail f = d) ↔
  (k = BreakingModuleExtensionRemoved ∧ d = "" ∧
     gone (map_of ext_Name id a) (map_of ext_Name id b) s) ∨
  (k = BreakingModuleExtensionTagRemoved ∧ ∃ x y,
     map_of ext_Name id a !! s = Some x ∧ map_of ext_Name id b !! s = Some y ∧
     d ∈ tag_Name <$> ext_TagClasses x ∧ d ∉ tag_Name <$> ext_TagClasses y).
Proof.
  rewrite <-gone_iff. unfold classifyModExts. setoid_rewrite elem_of_app.
  setoid_rewrite (list_elem_of_fmap (λ name, raw BreakingModuleExtensionRemoved name _ _)).
  setoid_rewrite list_elem_of_bind.
  setoid_rewrite (list_elem_of_fmap (λ t, raw BreakingModuleExtensionTagRemoved _ t _)).
  pose proof (elem_of_changed ext_Name compareModExt cm_Name compareModExt_Name a b
    : ∀ ch, ch ∈ md_Changed (modExtsDiff a b) ↔ _) as Hchg.
  setoid_rewrite Hchg. split.
  - intros (f & [(n & -> & ?)|(ch & (d' & -> & Hd) & x & y & ? & ? & Hc)] & <- & <- & <-); [by left|].
    right. split; [done|]. exists x, y. apply compareModExt_Some in Hc as [_ Hc].
    apply Hc in Hd. naive_solver.
  - intros [(-> & -> & ?)|(-> & x & y & Hx & Hy & Hd & Hnd)]; [by eexists; split; [left; eexists|]|].
    destruct (compareModExt x y) as [ch|] eqn:Hc.
    + pose proof (compareModExt_Name _ _ _ Hc) as E.
      rewrite (map_of_id_keyed ext_Name a _ _ Hx) in E. subst s.
      eexists. split; [right; exists ch; split; [exists d; split; [done|]|by exists x, y]|done].
      apply compareModExt_Some in Hc as [_ Hc]. by apply Hc.
    + apply compareModExt_None in Hc. exfalso. apply Hnd.
      by rewrite <-elem_of_set_of, <-Hc, elem_of_set_of.
Qed.

(** Annotating and sorting change neither the kind, the symbol nor the detail. *)
Lemma elem_of_ClassifyBreaking r k s d :
  (∃ f, f ∈ ClassifyBreaking r ∧ bf_Kind f = k ∧ bf_Symbol f = s ∧ bf_Detail f = d) ↔
  (∃ f, f ∈ detectBreaking r ∧ bf_Kind f = k ∧ bf_Symbol f = s ∧ bf_Detail f = d).
Proof.
  unfold ClassifyBreaking. setoid_rewrite elem_of_sort_slice.
  setoid_rewrite list_elem_of_fmap. split.
  - intros (f & (g & -> & ?) & ?). by exists g.
  - intros (g & ? & ?). exists (annotate g). split; [by exists g|done].
Qed.

#[export] Instance finding_less_sw : StrictWeak finding_less.
Proof.
  assert (StrictWeak (lex_less bf_Symbol String.ltb (λ x y, String.ltb (bf_Detail x) (bf_Detail y))))
    as H1 by (apply sw_lex; [apply _|apply _|apply str_ltb_tricho]).
  assert (StrictWeak (λ k l, String.ltb (kind_string k) (kind_string l))) as H2 by apply _.
  pose proof (sw_lex bf_Kind (λ k l, String.ltb (kind_string k) (kind_string l))
    (lex_less bf_Symbol String.ltb (λ x y, String.ltb (bf_Detail x) (bf_Detail y)))) as H.
  apply H. intros k l ??. apply (inj kind_string). by apply str_ltb_tricho.
Qed.

Lemma elem_of_app5 {A} (x : A) l1 l2 l3 l4 l5 :
  x ∈ l1 ++ l2 ++ l3 ++ l4 ++ l5 ↔ x ∈ l1 ∨ x ∈ l2 ∨ x ∈ l3 ∨ x ∈ l4 ∨ x ∈ l5.
Proof. by rewrite !elem_of_app. Qed.

(** ** Theorems *)

(** C39: The findings of a diff are exactly the ways the new version breaks
    consumers of the old one: there is a finding of kind [k] about symbol [s]
    and detail [d] if and only if the two reports themselves show that break.
    Nothing is missed and nothing is invented, for all eleven kinds. *)
Theorem classify_refines (from to : ModuleReport) (k : BreakingKind) (s d : string) :
  (∃ f, f ∈ dr_Breaking (Compute from to) ∧
     bf_Kind f = k ∧ bf_Symbol f = s ∧ bf_Detail f = d) ↔ Breaks from to k s d.
Proof.
  unfold Compute, compute_diff. cbn [dr_Breaking]. rewrite elem_of_ClassifyBreaking.
  unfold detectBreaking.
  cbn [d_Module d_CompatibilityLevel d_Rules d_Providers d_ModuleExtensions d_RepositoryRules].
  setoid_rewrite elem_of_app5.
  pose proof (elem_of_classifyRules (filterPublicRules (rep_Rules from))
    (filterPublicRules (rep_Rules to)) BreakingRuleRemoved BreakingRuleAttrRemoved
    BreakingRuleAttrNowMandatory
    "BUILD files that target this rule will fail at load time."
    "Consumers passing this attribute will get an unknown-keyword error."
    "Consumers not passing this attribute will now fail; the attribute was previously optional."
    k s d) as Hrules.
  pose proof (elem_of_classifyRules (repoRulesAsRules (rep_RepositoryRules from))
    (repoRulesAsRules (rep_RepositoryRules to)) BreakingRepoRuleRemoved
    BreakingRepoRuleAttrRemoved BreakingRepoRuleAttrNowMandatory
    "Consumers calling this repository rule (typically via load(...) + WORKSPACE-era setup) will fail."
    "Consumers passing this attribute to the repository rule will get an unknown-keyword error."
    "Consumers not passing this attribute to the repository rule will now fail."
    k s d) as Hrepo.
  pose proof (elem_of_classifyProviders (filterPublicProviders (rep_Providers from))
    (filterPublicProviders (rep_Providers to)) k s d) as Hprov.
  pose proof (elem_of_classifyModExts (filterPublicModExts (rep_ModuleExtensions from))
    (filterPublicModExts (rep_ModuleExtensions to)) k s d) as Hext.
  split.
  - intros (f & [Hf|[Hf|[Hf|[Hf|Hf]]]] & Hk).
    + case_decide; [by apply elem_of_nil in Hf|]. apply list_elem_of_singleton in Hf as ->.
      destruct Hk as (<- & <- & <-). by constructor.
    + destruct (proj1 Hrules (ex_intro _ f (conj Hf Hk))) as [(-> & -> & ?)|[(-> & ?)|(-> & ?)]];
        by constructor.
    + destruct (proj1 Hprov (ex_intro _ f (conj Hf Hk))) as [(-> & -> & ?)|(-> & x & y & ? & ? & ? & ?)];
        [by constructor|by econstructor].
    + destruct (proj1 Hext (ex_intro _ f (conj Hf Hk))) as [(-> & -> & ?)|(-> & x & y & ? & ? & ? & ?)];
        [by constructor|by econstructor].
    + destruct (proj1 Hrepo (ex_intro _ f (conj Hf Hk))) as [(-> & -> & ?)|[(-> & ?)|(-> & ?)]];
        by constructor.
  - intros Hb. destruct Hb as [Hl| | | | |n d x y|  |n d x y| | |].
    + rewrite decide_False by done. eexists. split; [left; by apply list_elem_of_singleton|done].
    + destruct (proj2 Hrules ltac:(tauto)) as (f & ? & ?). exists f. tauto.
    + destruct (proj2 Hrules ltac:(tauto)) as (f & ? & ?). exists f. tauto.
    + destruct (proj2 Hrules ltac:(tauto)) as (f & ? & ?). exists f. tauto.
    + destruct (proj2 Hprov ltac:(tauto)) as (f & ? & ?). exists f. tauto.
    + destruct (proj2 Hprov ltac:(right; split; [done|by exists x, y])) as (f & ? & ?). exists f. tauto.
    + destruct (proj2 Hext ltac:(tauto)) as (f & ? & ?). exists f. tauto.
    + destruct (proj2 Hext ltac:(right; split; [done|by exists x, y])) as (f & ? & ?). exists f. tauto.
    + destruct (proj2 Hrepo ltac:(tauto)) as (f & ? & ?). exists f. tauto.
    + destruct (proj2 Hrepo ltac:(tauto)) as (f & ? & ?). exists f. tauto.
    + destruct (proj2 Hrepo ltac:(tauto)) as (f & ? & ?). exists f. tauto.
Qed.

(** Comparing a report with itself reports no change in any section and no
    breaking finding, whatever the report holds (duplicate names included). *)
Theorem compute_self (r : ModuleReport) :
  let d := dr_Diff (Compute r r) in
  d = mkDiff (rep_Name r) (rep_Version r) (rep_Version r) None None (mkDepsDiff [] [] [])
        (mkRulesDiff [] [] []) (mkProvidersDiff [] [] []) (mkNamesDiff [] []) (mkNamesDiff [] [])
        (mkNamesDiff [] []) (mkRulesDiff [] [] []) (mkModExtsDiff [] [] []) ∧
  dr_Breaking (Compute r r) = [].
Proof.
  assert (compute_diff r r = mkDiff (rep_Name r) (rep_Version r) (rep_Version r) None None
    (mkDepsDiff [] [] []) (mkRulesDiff [] [] []) (mkProvidersDiff [] [] []) (mkNamesDiff [] [])
    (mkNamesDiff [] []) (mkNamesDiff [] []) (mkRulesDiff [] [] []) (mkModExtsDiff [] [] [])) as E.
  { unfold compute_diff. rewrite decide_True by done.
    by rewrite hermDiff_self, depsDiff_self, !rulesDiff_self, providersDiff_self,
      !namesDiff_self, modExtsDiff_self. }
  unfold Compute. simpl. rewrite E. split; reflexivity.
Qed.

(** The findings come out sorted by kind, symbol and detail, every finding
    carries the hint and the codemod of its kind, and sorting loses none:
    the result is a permutation of the annotated detection pass. *)
Theorem classify_sorted_annotated (r : Diff) :
  StronglySorted (λ x y, finding_less y x = false) (ClassifyBreaking r) ∧
  ClassifyBreaking r ≡ₚ annotate <$> detectBreaking r ∧
  (∀ f, f ∈ ClassifyBreaking r →
     bf_Hint f = migrationHint f ∧ bf_Codemod f = buildozerCodemod f).
Proof.
  split_and!.
  - apply (sort_slice_sorted finding_less).
  - apply sort_slice_perm.
  - intros f Hf. apply elem_of_sort_slice, list_elem_of_fmap in Hf as (g & -> & _). done.
Qed.
