(* ===== verification/ClosureDiff.v ===== *)
(** * Closure-wide diff

    Models [internal/closurediff/closurediff.go]: resolving the dependency
    closure of both versions, the shape diff of the two closures, the worker
    pool that diffs every module whose version moved, and the roll-up of
    breaking findings.  The pool is a step relation over jobs waiting, running
    and done; every schedule ends, and ends in the same report. *)

From S2P Require Import Prelude Report ModuleDiff Breaking.

(** ** Wire types *)

Record ClosureDepsDiff := mkClosureDepsDiff {
  cdd_Added : list ModuleKey;
  cdd_Removed : list ModuleKey;
  cdd_Changed : list ChangedDep;   (* [ChangedClosureDep] has the fields of [ChangedDep] *)
}.

(** [closurediff.Report].  A Go map that is [nil] when it has no entry is the
    empty [gmap]. *)
Record ClosureReport := mkClosureReport {
  clr_Module : string;
  clr_From : string;
  clr_To : string;
  clr_FromClosureSize : nat;
  clr_ToClosureSize : nat;
  clr_ClosureDeps : ClosureDepsDiff;
  clr_ModuleDiffs : gmap string DiffReport;
  clr_ErrorByModule : gmap string string;
  clr_ClosureBreakingTotal : nat;
  clr_ClosureBreakingByModule : gmap string nat;
}.

Inductive ClosureError :=
| ErrVersionsRequired     (* "module, from, and to are required" *)
| ErrUpstreamRequired     (* "upstream registry URL is required" *)
| ErrAnalyzeFuncRequired  (* "AnalyzeFunc is required" *)
| ErrWalkFrom (e : string)
| ErrWalkTo (e : string)
| ErrContext (e : string).

(** ** Resolving one closure *)

(** One iteration of the loop of [walkClosure]: keep the greater version when
    a name comes twice. *)
Definition collapse (out : gmap string string) (m : string * string) : gmap string string :=
  match out !! m.1 with
  | Some existing =>
      if decide (existing = m.2) then <[m.1 := m.2]> out
      else if String.ltb existing m.2 then <[m.1 := m.2]> out else out
  | None => <[m.1 := m.2]> out
  end.

(** ** Shape of the closures *)

Definition shapeClosureDeps_range (from to : gmap string string)
    (rto rfrom : list (string * string)) : ClosureDepsDiff :=
  mkClosureDepsDiff
    (sort_by_key mk_Name ((λ '(n, v), mkModuleKey n v false "") <$> missing from rto))
    (sort_by_key mk_Name ((λ '(n, v), mkModuleKey n v false "") <$> missing to rfrom))
    (sort_by_key cd_Name (omap (changedDeps from) rto)).

Definition shapeClosureDeps (from to : gmap string string) : ClosureDepsDiff :=
  shapeClosureDeps_range from to (map_to_list to) (map_to_list from).

(** ** The jobs *)

Record job := mkJob { j_name : string; j_from : string; j_to : string }.

Definition jobs_of (d : ClosureDepsDiff) : list job :=
  (λ c, mkJob (cd_Name c) (cd_FromVersion c) (cd_ToVersion c)) <$> cdd_Changed d.

Section closure.
(** [gobzlmod.Resolve] against a registry: the selected (name, version)
    pairs, or the text of the error. *)
Context (resolve : string → string → string → result string (list (string * string))).
(** [opts.AnalyzeFunc]. *)
Context (analyze : string → string → result string ModuleReport).

Definition walkClosure (module version upstream : string) :
    result string (gmap string string) :=
  foldl collapse ∅ <$> resolve module version upstream.

Definition perModuleDiff (name from to : string) : result string DiffReport :=
  fr ← map_err (λ e, "analyze " +:+ name +:+ "@" +:+ from +:+ ": " +:+ e) (analyze name from);
  tr ← map_err (λ e, "analyze " +:+ name +:+ "@" +:+ to +:+ ": " +:+ e) (analyze name to);
  Ok (Compute fr tr).

(** What a worker does under the mutex with the outcome of a job. *)
Definition record_job (j : job) (r : ClosureReport) : ClosureReport :=
  match perModuleDiff (j_name j) (j_from j) (j_to j) with
  | Err e =>
      mkClosureReport (clr_Module r) (clr_From r) (clr_To r) (clr_FromClosureSize r)
        (clr_ToClosureSize r) (clr_ClosureDeps r) (clr_ModuleDiffs r)
        (<[j_name j := e]> (clr_ErrorByModule r)) (clr_ClosureBreakingTotal r)
        (clr_ClosureBreakingByModule r)
  | Ok diff =>
      let n := length (dr_Breaking diff) in
      mkClosureReport (clr_Module r) (clr_From r) (clr_To r) (clr_FromClosureSize r)
        (clr_ToClosureSize r) (clr_ClosureDeps r)
        (<[j_name j := diff]> (clr_ModuleDiffs r)) (clr_ErrorByModule r)
        (if decide (0 < n) then clr_ClosureBreakingTotal r + n else clr_ClosureBreakingTotal r)
        (if decide (0 < n) then <[j_name j := n]> (clr_ClosureBreakingByModule r)
         else clr_ClosureBreakingByModule r)
  end.

(** *** The worker pool

    [jobsCh] is unbuffered: the sender hands the next job to an idle worker;
    a busy worker analyses without the lock and then records its outcome
    under it.  Cancelling the context while jobs wait makes the sender close
    the channel and, once the workers are done, return the context error. *)

Record pool := mkPool {
  p_waiting : list job;
  p_running : list job;
  p_cancelled : bool;
  p_report : ClosureReport;
}.

Inductive pool_step (workers : nat) : pool → pool → Prop :=
| step_send j js run r :
    length run < workers →
    pool_step workers (mkPool (j :: js) run false r) (mkPool js (j :: run) false r)
| step_finish js run1 j run2 c r :
    pool_step workers (mkPool js (run1 ++ j :: run2) c r)
                      (mkPool js (run1 ++ run2) c (record_job j r))
| step_cancel j js run r :
    pool_step workers (mkPool (j :: js) run false r) (mkPool (j :: js) run true r).

(** [wg.Wait()] has returned: no job is running and either none waits or the
    context was cancelled. *)
Definition pool_done (p : pool) : Prop :=
  p_running p = [] ∧ (p_waiting p = [] ∨ p_cancelled p = true).

(** What the function returns then. *)
Definition pool_result (ctx_err : string) (p : pool) : result ClosureError ClosureReport :=
  if p_cancelled p then Err (ErrContext ctx_err) else Ok (p_report p).

(** The report before any job ran. *)
Definition initialReport (module from to : string) (fc tc : gmap string string) : ClosureReport :=
  mkClosureReport module from to (size fc) (size tc) (shapeClosureDeps fc tc) ∅ ∅ 0 ∅.

(** [Compute] up to the pool: the pool's first state and its size. *)
Definition closure_start (module from to upstream : string) (has_analyze : bool) (workers : Z) :
    result ClosureError (nat * pool) :=
  if bool_decide (module = "") || bool_decide (from = "") || bool_decide (to = "")
  then Err ErrVersionsRequired
  else if bool_decide (upstream = "") then Err ErrUpstreamRequired
  else if negb has_analyze then Err ErrAnalyzeFuncRequired
  else
    let w := if decide (workers ≤ 0)%Z then 4 else Z.to_nat workers in
    fc ← map_err ErrWalkFrom (walkClosure module from upstream);
    tc ← map_err ErrWalkTo (walkClosure module to upstream);
    let r := initialReport module from to fc tc in
    Ok (w, mkPool (jobs_of (clr_ClosureDeps r)) [] false r).

(** A run of [Compute] that is not cancelled, one job after the other: the
    reference the concurrent runs are compared with. *)
Definition compute_seq (module from to upstream : string) (has_analyze : bool) (workers : Z) :
    result ClosureError ClosureReport :=
  '(_, p) ← closure_start module from to upstream has_analyze workers;
  Ok (foldr record_job (p_report p) (p_waiting p)).
End closure.

(** ** The jobs do not interfere *)

Lemma jobs_of_NoDup fc tc : NoDup (j_name <$> jobs_of (shapeClosureDeps fc tc)).
Proof.
  unfold jobs_of, shapeClosureDeps, shapeClosureDeps_range. simpl.
  rewrite <-list_fmap_compose. change (j_name ∘ _) with cd_Name. rewrite sort_by_key_perm.
  by apply (NoDup_changedDeps fc tc).
Qed.

Section pool_proofs.
Context (analyze : string → string → result string ModuleReport) (workers : nat).
#[local] Abbreviation record := (record_job analyze).
#[local] Abbreviation step := (pool_step analyze workers).

Lemma record_job_comm j1 j2 r :
  j_name j1 ≠ j_name j2 → record j1 (record j2 r) = record j2 (record j1 r).
Proof.
  intros Hne. unfold record_job.
  destruct (perModuleDiff analyze (j_name j1) _ _) as [d1|e1],
    (perModuleDiff analyze (j_name j2) _ _) as [d2|e2]; simpl; f_equal;
    repeat case_decide; try (by apply insert_insert_ne); try lia; done.
Qed.

Lemma foldr_record_perm l1 l2 r :
  NoDup (j_name <$> l1) → l1 ≡ₚ l2 → foldr record r l1 = foldr record r l2.
Proof.
  intros Hnd Hp. apply (foldr_permutation (=) record r); [|done].
  intros i1 j1 i2 j2 b Hi H1 H2. apply record_job_comm. intros E. apply Hi.
  apply (NoDup_lookup _ i1 i2 (j_name j1) Hnd); rewrite list_lookup_fmap.
  - by rewrite H1.
  - by rewrite H2, E.
Qed.

(** Invariant: the report holds the outcomes of some finished jobs; those
    and the jobs running and waiting are the jobs the pool started with. *)
Definition pool_inv (jobs : list job) (r0 : ClosureReport) (p : pool) : Prop :=
  ∃ finished, p_report p = foldr record r0 finished ∧
    finished ++ p_running p ++ p_waiting p ≡ₚ jobs.

Lemma pool_inv_step jobs r0 p p' :
  NoDup (j_name <$> jobs) → pool_inv jobs r0 p → step p p' → pool_inv jobs r0 p'.
Proof.
  intros Hnd (fin & Hr & Hp) Hs. destruct Hs as [j js run r|js run1 j run2 c r|j js run r];
    simpl in *.
  - exists fin. split; [done|]. rewrite <-Hp. simpl. solve_Permutation.
  - exists (j :: fin). simpl. subst r. split; [done|]. rewrite <-Hp.
    solve_Permutation.
  - by exists fin.
Qed.

Lemma pool_inv_reachable jobs r0 p :
  NoDup (j_name <$> jobs) → rtc step (mkPool jobs [] false r0) p → pool_inv jobs r0 p.
Proof.
  intros Hnd Hs. assert (pool_inv jobs r0 (mkPool jobs [] false r0)) as Hinv.
  { exists []. by rewrite !app_nil_l. }
  induction Hs as [|p p' p'' Hst _ IH]; [done|]. apply IH. by eapply pool_inv_step.
Qed.

Definition pool_measure (p : pool) : nat :=
  2 * length (p_waiting p) + length (p_running p) + (if p_cancelled p then 0 else 1).

Lemma pool_step_decreases p p' : step p p' → pool_measure p' < pool_measure p.
Proof.
  destruct 1; unfold pool_measure; simpl; rewrite ?length_app; simpl; lia.
Qed.

Lemma pool_step_wf : well_founded (flip step).
Proof.
  apply (well_founded_lt_compat _ pool_measure). intros p p' Hs.
  by apply pool_step_decreases.
Qed.

Lemma pool_progress p : 0 < workers → pool_done p ∨ ∃ p', step p p'.
Proof.
  intros Hw. destruct p as [js run c r]. unfold pool_done. simpl.
  destruct run as [|j run]; [|right; eexists; apply (step_finish _ _ js [] j run c r)].
  destruct c; [by left; auto|]. destruct js as [|j js]; [by left; auto|].
  right. eexists. by apply step_send.
Qed.
End pool_proofs.

(** ** The roll-up *)

(** Sum of the values of a map of counts. *)
Definition map_sum (m : gmap string nat) : nat := map_fold (λ _ n acc, n + acc) 0 m.

Lemma map_sum_insert m i n : m !! i = None → map_sum (<[i := n]> m) = n + map_sum m.
Proof.
  intros. unfold map_sum. apply (map_fold_insert_L (λ _ n acc, n + acc)); [|done]. intros. lia.
Qed.

(** What the roll-up fields of a report say about the modules [names]. *)
Record rollup_ok (names : list string) (r : ClosureReport) : Prop := {
  ru_total : clr_ClosureBreakingTotal r = map_sum (clr_ClosureBreakingByModule r);
  ru_by_module m n :
    clr_ClosureBreakingByModule r !! m = Some n ↔
    ∃ d, clr_ModuleDiffs r !! m = Some d ∧ n = length (dr_Breaking d) ∧ 0 < n;
  ru_covered m :
    m ∈ names ↔ is_Some (clr_ModuleDiffs r !! m) ∨ is_Some (clr_ErrorByModule r !! m);
  ru_exclusive m :
    clr_ModuleDiffs r !! m = None ∨ clr_ErrorByModule r !! m = None;
}.

Lemma record_job_rollup analyze j names r :
  j_name j ∉ names → rollup_ok names r → rollup_ok (j_name j :: names) (record_job analyze j r).
Proof.
  intros Hni [Ht Hb Hc Hx].
  assert (clr_ModuleDiffs r !! j_name j = None ∧ clr_ErrorByModule r !! j_name j = None)
    as [HD HE] by (rewrite !eq_None_not_Some; naive_solver).
  assert (clr_ClosureBreakingByModule r !! j_name j = None) as HB.
  { apply eq_None_not_Some. intros [n (d & ? & _)%Hb]. congruence. }
  unfold record_job. destruct (perModuleDiff analyze _ _ _) as [d|e]; split; simpl.
  - case_decide; [|done]. rewrite map_sum_insert by done. lia.
  - intros m n. case_decide; rewrite ?lookup_insert; repeat case_decide; subst; [|by apply Hb| |by apply Hb].
    + naive_solver.
    + rewrite HB. naive_solver lia.
  - intros m. rewrite elem_of_cons, Hc, lookup_insert. case_decide; naive_solver.
  - intros m. rewrite lookup_insert. case_decide; [subst; by right|apply Hx].
  - done.
  - intros m n. by apply Hb.
  - intros m. rewrite elem_of_cons, Hc, lookup_insert. case_decide; naive_solver.
  - intros m. rewrite lookup_insert. case_decide; [subst; by left|apply Hx].
Qed.

Lemma foldr_record_rollup analyze js m f t fc tc :
  NoDup (j_name <$> js) →
  rollup_ok (j_name <$> js) (foldr (record_job analyze) (initialReport m f t fc tc) js).
Proof.
  induction js as [|j js IH]; csimpl.
  - intros _. split; simpl; try done.
    + intros. rewrite lookup_empty. naive_solver.
    + intros. rewrite !lookup_empty, elem_of_nil. split; [done|]. by intros [[]|[]].
    + by left.
  - intros [? ?]%NoDup_cons. apply record_job_rollup; auto.
Qed.

(** ** The greatest version of each name *)

Lemma collapse_lookup out m n :
  collapse out m !! n =
    if decide (m.1 = n) then
      match out !! n with
      | Some v => if String.ltb v m.2 then Some m.2 else Some v
      | None => Some m.2
      end
    else out !! n.
Proof.
  destruct m as [k w]. unfold collapse. simpl. destruct (decide (k = n)) as [->|Hne].
  - destruct (out !! n) as [v|] eqn:E; [|by rewrite lookup_insert_eq].
    destruct (decide (v = w)) as [->|]; [by rewrite lookup_insert_eq, str_ltb_irrefl|].
    destruct (String.ltb v w); [by rewrite lookup_insert_eq|done].
  - destruct (out !! k); repeat case_match; by rewrite ?lookup_insert_ne.
Qed.

Lemma collapse_max ms n v :
  foldl collapse ∅ ms !! n = Some v ↔
  (n, v) ∈ ms ∧ ∀ w, (n, w) ∈ ms → String.ltb v w = false.
Proof.
  revert v. induction ms as [|[k u] ms IH] using rev_ind; intros v.
  { simpl. rewrite lookup_empty. set_solver. }
  rewrite foldl_app. simpl. rewrite collapse_lookup. simpl.
  setoid_rewrite elem_of_app. setoid_rewrite list_elem_of_singleton.
  destruct (decide (k = n)) as [->|Hne]; [|rewrite IH; naive_solver].
  destruct (foldl collapse ∅ ms !! n) as [v'|] eqn:E.
  - destruct (proj1 (IH v') eq_refl) as [Hin Hmax]. destruct (String.ltb v' u) eqn:Hlt; split.
    + intros [= <-]. split; [by right|]. intros w [Hw|[= ->]]; [|apply str_ltb_irrefl].
      destruct (String.ltb u w) eqn:Huw; [|done].
      destruct (sw_neg_trans _ w _ Hlt) as [H|H]; [by rewrite Hmax in H|].
      by rewrite (sw_asym _ _ Huw) in H.
    + intros [[Hv|[= ->]] Hw]; [|done]. specialize (Hw u (or_intror eq_refl)).
      destruct (sw_neg_trans _ v _ Hlt) as [H|H]; [by rewrite Hmax in H|congruence].
    + intros [= <-]. split; [by left|]. intros w [Hw|[= ->]]; [by apply Hmax|done].
    + intros [Hv Hw]. f_equal. specialize (Hw v' (or_introl Hin)).
      apply str_ltb_tricho; [|done]. destruct Hv as [Hv|[= ->]]; [by apply Hmax|done].
  - assert (∀ w, (n, w) ∉ ms) as Hno.
    { intros w Hw. assert (∃ v, foldl collapse ∅ ms !! n = Some v) as [? ?]; [|congruence].
      clear -Hw. induction ms as [|[k u] ms IH] using rev_ind; [set_solver|].
      rewrite foldl_app. simpl. rewrite collapse_lookup. simpl. case_decide.
      - repeat case_match; eauto.
      - apply IH. set_solver. }
    split.
    + intros [= <-]. split; [by right|]. intros w [Hw|[= ->]]; [by destruct (Hno w)|].
      apply str_ltb_irrefl.
    + intros [[Hv|[= ->]] _]; [by destruct (Hno v)|done].
Qed.

(** ** Theorems *)

(** The worker pool of [Compute] is correct under every schedule: it never
    blocks, it cannot run forever, and when all workers are done and nothing
    was cancelled the report is the one of running the jobs one by one, so it
    depends neither on the number of workers nor on how they interleave. *)
Theorem closure_pool_correct resolve analyze module from to upstream has_analyze workers w p0 :
  closure_start resolve module from to upstream has_analyze workers = Ok (w, p0) →
  (∀ p, rtc (pool_step analyze w) p0 p → pool_done p ∨ ∃ p', pool_step analyze w p p') ∧
  Acc (flip (pool_step analyze w)) p0 ∧
  (∀ p e, rtc (pool_step analyze w) p0 p → pool_done p → p_cancelled p = false →
     pool_result e p = compute_seq resolve analyze module from to upstream has_analyze workers).
Proof.
  intros Hstart. split_and!.
  - intros p _. apply pool_progress. revert Hstart. unfold closure_start.
    do 3 (case_match; [done|]). rewrite bind_ok. intros (fc & _ & Htc).
    rewrite bind_ok in Htc. destruct Htc as (tc & _ & [= <- _]).
    destruct (decide (workers ≤ 0)%Z); lia.
  - apply pool_step_wf.
  - intros p e Hs [Hrun Hw] Hc. unfold pool_result, compute_seq. rewrite Hc, Hstart. simpl. f_equal.
    assert (NoDup (j_name <$> p_waiting p0) ∧
      p0 = mkPool (p_waiting p0) [] false (p_report p0)) as [Hnd Hp0].
    { revert Hstart. unfold closure_start. do 3 (case_match; [done|]).
      rewrite bind_ok. intros (fc & _ & Htc). rewrite bind_ok in Htc.
      destruct Htc as (tc & _ & [= _ <-]). split; [|done]. apply jobs_of_NoDup. }
    rewrite Hp0 in Hs. apply pool_inv_reachable in Hs as (fin & Hr & Hperm); [|done].
    rewrite Hrun in Hperm. destruct Hw as [Hw|Hw]; [|congruence].
    rewrite Hw, !app_nil_r in Hperm. rewrite Hr. symmetry. by apply foldr_record_perm.
Qed.

(** The roll-up of a completed [Compute]: the total is the sum of the counts
    per module; a module has a count exactly when its diff has findings, and
    the count is their number; every module whose version moved has a diff or
    an error, never both, and no other module has either. *)
Theorem closure_rollup resolve analyze module from to upstream has_analyze workers r :
  compute_seq resolve analyze module from to upstream has_analyze workers = Ok r →
  rollup_ok (cd_Name <$> cdd_Changed (clr_ClosureDeps r)) r.
Proof.
  unfold compute_seq, closure_start. do 3 (case_match; [done|]).
  destruct (walkClosure resolve module from upstream) as [fc|]; [|done]. simpl.
  destruct (walkClosure resolve module to upstream) as [tc|]; [|done]. simpl.
  intros [= <-].
  replace (clr_ClosureDeps _) with (shapeClosureDeps fc tc).
  - replace (cd_Name <$> _) with (j_name <$> jobs_of (shapeClosureDeps fc tc))
      by (unfold jobs_of; by rewrite <-list_fmap_compose).
    apply foldr_record_rollup, jobs_of_NoDup.
  - generalize (jobs_of (shapeClosureDeps fc tc)). intros js.
    induction js as [|j js IH]; [done|]. simpl. rewrite IH.
    unfold record_job at 2. by case_match.
Qed.

(** The shape diff of two closures is exact, patches one closure into the
    other, and does not depend on the iteration order of the two Go maps. *)
Theorem closure_shape_exact (from to : gmap string string) :
  let d := shapeClosureDeps from to in
  patchDeps (mkDepsDiff (cdd_Added d) (cdd_Removed d) (cdd_Changed d)) from = to ∧
  (∀ n v w, mkChangedDep n v w ∈ cdd_Changed d ↔
     from !! n = Some v ∧ to !! n = Some w ∧ v ≠ w) ∧
  (∀ rto rfrom, ranges to rto → ranges from rfrom →
     shapeClosureDeps_range from to rto rfrom = d).
Proof.
  intros d. split_and!.
  - apply (depsDiff_patch from to).
  - intros. by apply (elem_of_changedDeps from to).
  - intros rto rfrom Ht Hf. pose proof (depsDiff_range_order from to rto rfrom Ht Hf) as H.
    unfold depsDiff_range in H. unfold d, shapeClosureDeps, shapeClosureDeps_range.
    by injection H as -> -> ->.
Qed.

(** When the resolver lists a module twice, the closure keeps the version that
    is greatest in string order, in whatever order the entries come. *)
Theorem walkClosure_greatest resolve module version upstream ms out :
  resolve module version upstream = Ok ms →
  walkClosure resolve module version upstream = Ok out →
  ∀ n v, out !! n = Some v ↔
    (n, v) ∈ ms ∧ ∀ w, (n, w) ∈ ms → String.ltb v w = false.
Proof.
  intros Hr. unfold walkClosure. rewrite Hr. intros [= <-] n v. apply collapse_max.
Qed.

(** *** Witnesses: a registry with two modules, the root moving from 1 to 2. *)

Definition exResolve (module version _ : string) : result string (list (string * string)) :=
  Ok [(module, version); ("dep", "1.0"); ("dep", "1.1")].
Definition exAnalyze (module version : string) : result string ModuleReport :=
  Ok (emptyReport module version).
Definition exReport : ClosureReport :=
  mkClosureReport "root" "1" "2" 2 2 (mkClosureDepsDiff [] [] [mkChangedDep "root" "1" "2"])
    {[ "root" := Compute (emptyReport "root" "1") (emptyReport "root" "2") ]} ∅ 0 ∅.

Lemma closure_pool_correct_witness :
  ∃ w p0,
    closure_start exResolve "root" "1" "2" "https://bcr" true 0 = Ok (w, p0) ∧ w = 4 ∧
    (∃ p, rtc (pool_step exAnalyze w) p0 p ∧ pool_done p ∧ pool_result "" p = Ok exReport).
Proof.
  eexists _, _. split; [reflexivity|]. split; [reflexivity|].
  eexists. split; [|split].
  - eapply rtc_l; [apply step_send; vm_compute; lia|].
    eapply rtc_l; [apply (step_finish _ _ [] [] _ [])|]. apply rtc_refl.
  - split; [reflexivity|by left].
  - destruct (closure_pool_correct exResolve exAnalyze "root" "1" "2" "https://bcr" true 0 _ _
      eq_refl) as (_ & _ & H).
    rewrite H; [vm_compute; reflexivity| |split; [reflexivity|by left]|reflexivity].
    eapply rtc_l; [apply step_send; vm_compute; lia|].
    eapply rtc_l; [apply (step_finish _ _ [] [] _ [])|]. apply rtc_refl.
Defined.

Lemma closure_rollup_witness : rollup_ok ["root"] exReport.
Proof.
  exact (closure_rollup exResolve exAnalyze "root" "1" "2" "https://bcr" true 3 exReport
    ltac:(vm_compute; reflexivity)).
Defined.

Lemma walkClosure_greatest_witness :
  ∃ out, walkClosure exResolve "root" "1" "https://bcr" = Ok out ∧ out !! "dep" = Some "1.1".
Proof.
  eexists. split; [reflexivity|].
  apply (walkClosure_greatest exResolve "root" "1" "https://bcr" _ _ eq_refl eq_refl).
  split; [set_solver|]. intros w Hw. rewrite !elem_of_cons, elem_of_nil in Hw.
  destruct Hw as [?|[?|[?|[]]]]; simplify_eq; reflexivity.
Defined.
