(* ===== verification/Timestamp.v ===== *)
(** * Timestamps stored as text

    [internal/store] writes instants with [auditTimestampLayout], a fixed-width
    RFC 3339 layout with nine fractional digits, always in UTC, and compares
    them in SQL as text ([ORDER BY created_at], [state_changed_at < ?]).  This
    file models [time.Time.Format] for that layout on the years 0 to 9999 and
    shows that text order is time order.  Instants are nanoseconds since the
    Unix epoch. *)

From S2P Require Import Prelude.
#[local] Open Scope Z_scope.

Ltac euclid := Z.to_euclidean_division_equations; lia.

(** ** Decimal fields of fixed width *)

Definition digit (n : Z) : ascii := ascii_of_nat (48 + Z.to_nat n).

(** The [w] low decimal digits of [n], most significant first, before [k]. *)
Fixpoint pad (w : nat) (n : Z) (k : string) : string :=
  match w with
  | O => k
  | S w' => pad w' (n / 10) (String (digit (n mod 10)) k)
  end.

(** ** The civil calendar *)

(** Days from 0000-01-01 to the first of January of year [y]. *)
Definition days_before_year (y : Z) : Z :=
  365 * y + (y + 3) / 4 - (y + 99) / 100 + (y + 399) / 400.

Definition leap (y : Z) : bool :=
  ((y mod 4 =? 0) && negb (y mod 100 =? 0)) || (y mod 400 =? 0).

(** The year of the [d]-th day since 0000-01-01. *)
Definition year_of (d : Z) : Z :=
  let y := 400 * d / 146097 in
  if d <? days_before_year y then y - 1
  else if days_before_year (y + 1) <=? d then y + 1 else y.

(** Days of the year before month [m] (1 to 12; 13 is the length of the year). *)
Definition days_before_month (lp : bool) (m : Z) : Z :=
  let extra := if lp && (2 <? m) then 1 else 0 in
  extra +
  (if m =? 1 then 0 else if m =? 2 then 31 else if m =? 3 then 59 else if m =? 4 then 90
   else if m =? 5 then 120 else if m =? 6 then 151 else if m =? 7 then 181
   else if m =? 8 then 212 else if m =? 9 then 243 else if m =? 10 then 273
   else if m =? 11 then 304 else if m =? 12 then 334 else 365).

Definition month_of (lp : bool) (yd : Z) : Z :=
  let b m := days_before_month lp m <=? yd in
  if b 12 then 12 else if b 11 then 11 else if b 10 then 10 else if b 9 then 9
  else if b 8 then 8 else if b 7 then 7 else if b 6 then 6 else if b 5 then 5
  else if b 4 then 4 else if b 3 then 3 else if b 2 then 2 else 1.

Definition ns_per_day : Z := 86400 * 1000000000.

(** 1970-01-01 is day 719528. *)
Definition unix_day : Z := 719528.

(** ** The fields of an instant *)

Record civil : Type := mkCivil {
  c_year : Z; c_month : Z; c_day : Z; c_hour : Z; c_min : Z; c_sec : Z; c_nsec : Z;
}.

Definition civil_of (t : Z) : civil :=
  let d := t / ns_per_day + unix_day in
  let r := t mod ns_per_day in
  let y := year_of d in
  let yd := d - days_before_year y in
  let m := month_of (leap y) yd in
  let s := r / 1000000000 in
  mkCivil y m (yd - days_before_month (leap y) m + 1)
    (s / 3600) (s / 60 mod 60) (s mod 60) (r mod 1000000000).

Definition render (c : civil) : string :=
  pad 4 (c_year c) (String "-"%char (pad 2 (c_month c) (String "-"%char
    (pad 2 (c_day c) (String "T"%char (pad 2 (c_hour c) (String ":"%char
      (pad 2 (c_min c) (String ":"%char (pad 2 (c_sec c) (String "."%char
        (pad 9 (c_nsec c) (String "Z"%char EmptyString))))))))))))).

(** [time.Date(y, m, d, h, mi, s, ns, time.UTC)] on fields in range. *)
Definition instant (c : civil) : Z :=
  (days_before_year (c_year c) + days_before_month (leap (c_year c)) (c_month c)
   + (c_day c - 1) - unix_day) * ns_per_day
  + (c_hour c * 3600 + c_min c * 60 + c_sec c) * 1000000000 + c_nsec c.

Definition civil_ok (c : civil) : bool :=
  let lp := leap (c_year c) in
  (0 <=? c_year c) && (c_year c <? 10000) && (1 <=? c_month c) && (c_month c <=? 12) &&
  (1 <=? c_day c) &&
  (c_day c <=? days_before_month lp (c_month c + 1) - days_before_month lp (c_month c)) &&
  (0 <=? c_hour c) && (c_hour c <? 24) && (0 <=? c_min c) && (c_min c <? 60) &&
  (0 <=? c_sec c) && (c_sec c <? 60) && (0 <=? c_nsec c) && (c_nsec c <? 1000000000).

(** [t.UTC().Format(auditTimestampLayout)]. *)
Definition fmt_time (t : Z) : string := render (civil_of t).

(** *** Reading

    [time.Parse(time.RFC3339Nano, s)] on texts in UTC: fixed-width fields in
    range, then an optional fraction of any length of which nine digits count. *)
Definition digit_val (c : ascii) : option Z :=
  let n := Z.of_N (N_of_ascii c) - 48 in
  if (0 <=? n) && (n <? 10) then Some n else None.

Fixpoint read (w : nat) (acc : Z) (s : string) : option (Z * string) :=
  match w, s with
  | O, _ => Some (acc, s)
  | S w', String c s' => digit_val c ≫= λ n, read w' (10 * acc + n) s'
  | S _, EmptyString => None
  end.

Definition expect (c : ascii) (s : string) : option string :=
  match s with
  | String c' s' => if decide (c = c') then Some s' else None
  | EmptyString => None
  end.

(** Up to [w] digits, scaled as if there were [w]; further digits are dropped. *)
Fixpoint read_frac (w : nat) (acc : Z) (s : string) : Z * string :=
  match s with
  | String c s' =>
      match digit_val c, w with
      | Some n, S w' => read_frac w' (10 * acc + n) s'
      | Some _, O => read_frac O acc s'
      | None, _ => (acc * 10 ^ Z.of_nat w, s)
      end
  | EmptyString => (acc * 10 ^ Z.of_nat w, s)
  end.

Definition read_nsec (s : string) : Z * string :=
  match s with
  | String "." (String c s') =>
      match digit_val c with
      | Some n => read_frac 8 n s'
      | None => (0, s)
      end
  | _ => (0, s)
  end.

Definition parse_civil (s : string) : option (civil * string) :=
  '(y, s) ← read 4 0 s; s ← expect "-" s;
  '(m, s) ← read 2 0 s; s ← expect "-" s;
  '(d, s) ← read 2 0 s; s ← expect "T" s;
  '(h, s) ← read 2 0 s; s ← expect ":" s;
  '(mi, s) ← read 2 0 s; s ← expect ":" s;
  '(sec, s) ← read 2 0 s;
  let (ns, s) := read_nsec s in
  Some (mkCivil y m d h mi sec ns, s).

Definition parse_time (s : string) : option Z :=
  match parse_civil s with
  | Some (c, "Z"%string) => if civil_ok c then Some (instant c) else None
  | _ => None
  end.

(** The instants of the years 0 to 9999. *)
Definition time_ok (t : Z) : Prop :=
  - unix_day * ns_per_day ≤ t < (days_before_year 10000 - unix_day) * ns_per_day.

Lemma time_ok_small t : (0 ≤ t < 1000000000)%Z → time_ok t.
Proof.
  intros [H0 H1]. split; [trans 0%Z; [by vm_compute|exact H0]|].
  eapply Z.lt_trans; [exact H1|by vm_compute].
Qed.

(** ** Order of fixed-width text *)

Lemma digit_inj a b : 0 ≤ a < 10 → 0 ≤ b < 10 → digit a = digit b → a = b.
Proof.
  intros Ha Hb H. unfold digit in H. apply (f_equal nat_of_ascii) in H.
  rewrite !nat_ascii_embedding in H by lia. lia.
Qed.

Lemma digit_N a : 0 ≤ a < 10 → N_of_ascii (digit a) = Z.to_N (48 + a).
Proof.
  intros Ha. unfold digit, ascii_of_nat. rewrite N_ascii_embedding; lia.
Qed.

Lemma digit_compare a b :
  0 ≤ a < 10 → 0 ≤ b < 10 → Ascii.compare (digit a) (digit b) = (a ?= b).
Proof.
  intros Ha Hb. unfold Ascii.compare. rewrite !digit_N by done.
  rewrite Z2N.inj_compare by lia. apply Z.add_compare_mono_l.
Qed.

Lemma pad_compare w a b s t :
  0 ≤ a < 10 ^ Z.of_nat w → 0 ≤ b < 10 ^ Z.of_nat w →
  String.compare (pad w a s) (pad w b t) =
    match a ?= b with Eq => String.compare s t | c => c end.
Proof.
  revert a b s t. induction w as [|w IH]; intros a b s t Ha Hb; simpl.
  { replace (a ?= b) with Eq; [done|]. symmetry. apply Z.compare_eq_iff. simpl in *. lia. }
  rewrite Nat2Z.inj_succ, Z.pow_succ_r in Ha, Hb by lia.
  rewrite IH by (split; [apply Z.div_pos; lia|apply Z.div_lt_upper_bound; lia]).
  assert (0 ≤ a mod 10 < 10) as Hma by (apply Z.mod_pos_bound; lia).
  assert (0 ≤ b mod 10 < 10) as Hmb by (apply Z.mod_pos_bound; lia).
  assert (a = 10 * (a / 10) + a mod 10 ∧ b = 10 * (b / 10) + b mod 10) as [Ea Eb]
    by (split; apply Z.div_mod; lia).
  revert Ea Eb Hma Hmb. generalize (a / 10), (a mod 10), (b / 10), (b mod 10).
  intros qa ra qb rb Ea Eb Hma Hmb. clear -Ea Eb Hma Hmb.
  cbn [String.compare]. rewrite digit_compare by done.
  destruct (Z.compare_spec qa qb), (Z.compare_spec ra rb), (Z.compare_spec a b);
    try lia; done.
Qed.

Lemma cons_compare c s t : String.compare (String c s) (String c t) = String.compare s t.
Proof. simpl. unfold Ascii.compare. by rewrite N.compare_refl. Qed.

(** ** Correctness of the calendar *)

Lemma ceil_step y n :
  0 < n → (y + n) / n = (y + n - 1) / n + (if y mod n =? 0 then 1 else 0).
Proof.
  intros Hn. pose proof (Z.div_mod y n). pose proof (Z.mod_pos_bound y n).
  destruct (Z.eqb_spec (y mod n) 0) as [E|E].
  - rewrite <-(Z.div_unique (y + n) n (y / n + 1) 0) by lia.
    rewrite <-(Z.div_unique (y + n - 1) n (y / n) (n - 1)) by lia. lia.
  - rewrite <-(Z.div_unique (y + n) n (y / n + 1) (y mod n)) by lia.
    rewrite <-(Z.div_unique (y + n - 1) n (y / n + 1) (y mod n - 1)) by lia. lia.
Qed.

Lemma days_before_year_succ y :
  days_before_year (y + 1) = days_before_year y + (if leap y then 366 else 365).
Proof.
  pose proof (ceil_step y 4 ltac:(lia)). pose proof (ceil_step y 100 ltac:(lia)).
  pose proof (ceil_step y 400 ltac:(lia)).
  assert (y mod 400 = 0 → y mod 100 = 0) by (clear; euclid).
  assert (y mod 100 = 0 → y mod 4 = 0) by (clear; euclid).
  unfold days_before_year, leap.
  replace (y + 1 + 3) with (y + 4) by lia. replace (y + 1 + 99) with (y + 100) by lia.
  replace (y + 1 + 399) with (y + 400) by lia.
  replace (y + 3) with (y + 4 - 1) by lia. replace (y + 99) with (y + 100 - 1) by lia.
  replace (y + 399) with (y + 400 - 1) by lia.
  revert H H0 H1 H2 H3. generalize (y mod 4), (y mod 100), (y mod 400). intros r4 r100 r400.
  destruct (Z.eqb_spec r4 0), (Z.eqb_spec r100 0), (Z.eqb_spec r400 0);
    simpl; intros; lia.
Qed.

Lemma days_before_year_bounds y :
  146097 * y - 396 ≤ 400 * days_before_year y ≤ 146097 * y + 699.
Proof. unfold days_before_year. euclid. Qed.

Lemma year_of_spec d :
  days_before_year (year_of d) ≤ d < days_before_year (year_of d + 1).
Proof.
  unfold year_of.
  assert (146097 * (400 * d / 146097) ≤ 400 * d < 146097 * (400 * d / 146097 + 1))
    as Hy by (clear; euclid).
  revert Hy. generalize (400 * d / 146097). intros y Hy.
  pose proof (days_before_year_bounds (y - 1)).
  pose proof (days_before_year_bounds (y + 1 + 1)).
  destruct (Z.ltb_spec d (days_before_year y)).
  { replace (y - 1 + 1) with y by lia. lia. }
  destruct (Z.leb_spec (days_before_year (y + 1)) d); lia.
Qed.

Lemma days_before_year_mono y z : y ≤ z → days_before_year y ≤ days_before_year z.
Proof.
  intros H. revert z H. apply (Zlt_lower_bound_ind _ y). intros z IH Hz.
  destruct (decide (y = z)) as [->|]; [done|].
  trans (days_before_year (z - 1)); [apply IH; lia|].
  replace z with (z - 1 + 1) at 2 by lia. rewrite days_before_year_succ.
  destruct (leap (z - 1)); lia.
Qed.

Lemma month_of_spec (lp : bool) yd :
  0 ≤ yd < (if lp then 366 else 365) →
  1 ≤ month_of lp yd ≤ 12 ∧
  days_before_month lp (month_of lp yd) ≤ yd < days_before_month lp (month_of lp yd + 1).
Proof.
  unfold month_of, days_before_month.
  destruct lp; simpl; intros H;
    repeat (match goal with |- context [?a <=? yd] => destruct (Z.leb_spec a yd) end;
            [simpl; lia|]); simpl; lia.
Qed.

Lemma month_length lp k :
  1 ≤ k ≤ 12 → 28 ≤ days_before_month lp (k + 1) - days_before_month lp k ≤ 31.
Proof.
  intros Hk. assert (k = 1 ∨ k = 2 ∨ k = 3 ∨ k = 4 ∨ k = 5 ∨ k = 6 ∨ k = 7 ∨ k = 8 ∨
    k = 9 ∨ k = 10 ∨ k = 11 ∨ k = 12) as Hc by lia.
  destruct lp; destruct_or! Hc; subst k; vm_compute; split; congruence.
Qed.

Lemma days_before_month_mono lp m n :
  1 ≤ m → m ≤ n → n ≤ 13 → days_before_month lp m ≤ days_before_month lp n.
Proof.
  intros Hm Hmn Hn.
  revert n Hmn Hn. refine (Zlt_lower_bound_ind (λ n, n ≤ 13 →
    days_before_month lp m ≤ days_before_month lp n) m _).
  intros n IH Hmn Hn. destruct (decide (m = n)) as [->|]; [done|].
  trans (days_before_month lp (n - 1)); [apply IH; lia|].
  replace n with (n - 1 + 1) at 2 by lia.
  pose proof (month_length lp (n - 1)). lia.
Qed.

Lemma days_before_month_ends (lp : bool) :
  days_before_month lp 1 = 0 ∧ days_before_month lp 13 = if lp then 366 else 365.
Proof. by destruct lp. Qed.

Lemma instant_civil t : instant (civil_of t) = t.
Proof.
  unfold instant, civil_of, ns_per_day. simpl. generalize unix_day. intros u.
  set (d := t / 86400000000000 + u). set (y := days_before_year (year_of d)).
  set (m := days_before_month _ _). clearbody y m. subst d. euclid.
Qed.

Lemma civil_of_ok t : time_ok t → civil_ok (civil_of t) = true.
Proof.
  intros [Hlo Hhi]. unfold civil_ok, civil_of. cbn -[days_before_month unix_day].
  set (d := t / ns_per_day + unix_day).
  assert (0 ≤ d < days_before_year 10000) as Hd.
  { subst d. unfold ns_per_day in *. revert Hlo Hhi.
    generalize unix_day, (days_before_year 10000). intros. euclid. }
  clearbody d. pose proof (year_of_spec d) as [Hy1 Hy2].
  assert (0 ≤ year_of d) as Hy0.
  { destruct (decide (0 ≤ year_of d)); [done|].
    pose proof (days_before_year_mono (year_of d + 1) 0 ltac:(lia)). change (days_before_year 0) with 0 in *. lia. }
  assert (year_of d < 10000) as Hy3.
  { destruct (decide (year_of d < 10000)); [done|].
    pose proof (days_before_year_mono 10000 (year_of d) ltac:(lia)). lia. }
  rewrite days_before_year_succ in Hy2. revert Hy0 Hy1 Hy2 Hy3.
  generalize (year_of d). intros y Hy0 Hy1 Hy2 Hy3.
  pose proof (month_of_spec (leap y) (d - days_before_year y)) as [Hm Hm']; [lia|].
  revert Hm Hm'. generalize (month_of (leap y) (d - days_before_year y)). intros m Hm Hm'.
  assert (0 ≤ t mod ns_per_day < ns_per_day) as Hr by (apply Z.mod_pos_bound; done).
  revert Hr. generalize (t mod ns_per_day). unfold ns_per_day. intros r Hr.
  rewrite !andb_true_iff, ?Z.leb_le, ?Z.ltb_lt. split_and!; try lia; clear -Hr; euclid.
Qed.

(** ** Text order is time order *)

Lemma compare_lex a b (c : comparison) t u :
  (a < b → t < u) → (b < a → u < t) → (a = b → c = (t ?= u)) →
  match a ?= b with Eq => c | c' => c' end = (t ?= u).
Proof.
  intros H1 H2 H3. destruct (Z.compare_spec a b); [by apply H3| |]; symmetry.
  - by apply Z.compare_lt_iff, H1.
  - by apply Z.compare_gt_iff, H2.
Qed.

Lemma civil_ok_spec c :
  civil_ok c = true →
  0 ≤ c_year c < 10000 ∧ 1 ≤ c_month c ≤ 12 ∧
  1 ≤ c_day c ≤ days_before_month (leap (c_year c)) (c_month c + 1)
                - days_before_month (leap (c_year c)) (c_month c) ∧
  0 ≤ c_hour c < 24 ∧ 0 ≤ c_min c < 60 ∧ 0 ≤ c_sec c < 60 ∧
  0 ≤ c_nsec c < 1000000000.
Proof. unfold civil_ok. rewrite !andb_true_iff, ?Z.leb_le, ?Z.ltb_lt. lia. Qed.

(** The day of the year, counted from zero, stays inside the year. *)
Lemma civil_yday c :
  civil_ok c = true →
  let yd := days_before_month (leap (c_year c)) (c_month c) + (c_day c - 1) in
  0 ≤ yd ∧ days_before_year (c_year c) + yd < days_before_year (c_year c + 1).
Proof.
  intros (Hy & Hm & Hd & _)%civil_ok_spec. cbv zeta.
  rewrite days_before_year_succ.
  pose proof (days_before_month_ends (leap (c_year c))) as [E1 E13].
  pose proof (days_before_month_mono (leap (c_year c)) 1 (c_month c)).
  pose proof (days_before_month_mono (leap (c_year c)) (c_month c + 1) 13).
  destruct (leap (c_year c)); lia.
Qed.

Lemma instant_compare c c' :
  civil_ok c = true → civil_ok c' = true →
  String.compare (render c) (render c') = (instant c ?= instant c').
Proof.
  intros H H'.
  pose proof (civil_yday _ H) as [Hyd1 Hyd2]. pose proof (civil_yday _ H') as [Hyd1' Hyd2'].
  apply civil_ok_spec in H as (Hy & Hm & Hd & Hh & Hmi & Hs & Hn),
    H' as (Hy' & Hm' & Hd' & Hh' & Hmi' & Hs' & Hn').
  unfold instant, render, ns_per_day. destruct c as [y m d h mi s n], c' as [y' m' d' h' mi' s' n'].
  simpl c_year in *; simpl c_month in *; simpl c_day in *; simpl c_hour in *;
    simpl c_min in *; simpl c_sec in *; simpl c_nsec in *.
  pose proof (month_length (leap y) m ltac:(lia)).
  pose proof (month_length (leap y') m' ltac:(lia)).
  repeat (rewrite pad_compare by (simpl; lia); rewrite ?cons_compare).
  apply compare_lex.
  { intros. pose proof (days_before_year_mono (y + 1) y' ltac:(lia)). lia. }
  { intros. pose proof (days_before_year_mono (y' + 1) y ltac:(lia)). lia. }
  intros <-. apply compare_lex.
  { intros. pose proof (days_before_month_mono (leap y) (m + 1) m' ltac:(lia) ltac:(lia)). lia. }
  { intros. pose proof (days_before_month_mono (leap y) (m' + 1) m ltac:(lia) ltac:(lia)). lia. }
  intros <-. repeat (apply compare_lex; [lia|lia|intros <-]).
  by rewrite Z.compare_refl.
Qed.

Lemma fmt_time_compare' t u :
  time_ok t → time_ok u → String.compare (fmt_time t) (fmt_time u) = (t ?= u).
Proof.
  intros Ht%civil_of_ok Hu%civil_of_ok. unfold fmt_time.
  rewrite instant_compare by done. by rewrite !instant_civil.
Qed.

Lemma fmt_time_ltb t u : time_ok t → time_ok u → String.ltb (fmt_time t) (fmt_time u) = (t <? u).
Proof. intros Ht Hu. unfold String.ltb. rewrite fmt_time_compare' by done. done. Qed.

(** Text order of stored timestamps is time order: for instants of the years 0
    to 9999 the comparison of the two texts is the comparison of the instants,
    so [ORDER BY created_at] sorts by time and [state_changed_at < ?] selects
    exactly the earlier rows. *)
Theorem fmt_time_compare t u :
  time_ok t → time_ok u → String.compare (fmt_time t) (fmt_time u) = (t ?= u).
Proof. apply fmt_time_compare'. Qed.

Lemma fmt_time_compare_witness :
  time_ok 100 ∧ time_ok 101 ∧ String.compare (fmt_time 100) (fmt_time 101) = Lt.
Proof.
  split; [apply time_ok_small; lia|]. split; [apply time_ok_small; lia|].
  rewrite (fmt_time_compare 100 101) by (apply time_ok_small; lia). reflexivity.
Defined.

(** *** Round trip *)

Lemma digit_val_digit n : 0 ≤ n < 10 → digit_val (digit n) = Some n.
Proof.
  intros Hn. unfold digit_val. rewrite digit_N, Z2N.id by lia.
  replace (48 + n - 48) with n by lia.
  by rewrite (proj2 (Z.leb_le _ _)), (proj2 (Z.ltb_lt _ _)) by lia.
Qed.

Lemma read_app (w v : nat) acc s : read (w + v)%nat acc s = read w acc s ≫= λ p, read v p.1 p.2.
Proof.
  revert acc s. induction w as [|w IH]; intros acc s; simpl; [done|].
  destruct s as [|c s]; simpl; [done|]. destruct (digit_val c); simpl; [apply IH|done].
Qed.

Lemma read_pad w n acc s :
  0 ≤ n < 10 ^ Z.of_nat w → read w acc (pad w n s) = Some (acc * 10 ^ Z.of_nat w + n, s).
Proof.
  revert n s. induction w as [|w IH]; intros n s Hn; simpl.
  { simpl in Hn. do 2 f_equal. lia. }
  rewrite Nat2Z.inj_succ, Z.pow_succ_r in Hn |- * by lia.
  change (read (S w) acc (pad w (n / 10) (String (digit (n mod 10)) s)) =
    Some (acc * (10 * 10 ^ Z.of_nat w) + n, s)).
  replace (S w) with (w + 1)%nat by lia.
  rewrite read_app, IH by (split; [apply Z.div_pos; lia|apply Z.div_lt_upper_bound; lia]).
  cbn [mbind option_bind fst snd read].
  rewrite digit_val_digit by (apply Z.mod_pos_bound; lia).
  cbn [mbind option_bind]. do 2 f_equal.
  pose proof (Z.div_mod n 10 ltac:(lia)) as En. clear -En. revert En.
  generalize (10 ^ Z.of_nat w), (n / 10), (n mod 10). intros. subst. ring.
Qed.

Lemma read_frac_pad w n acc s :
  0 ≤ n < 10 ^ Z.of_nat w →
  (∀ c s', s = String c s' → digit_val c = None) →
  read_frac w acc (pad w n s) = (acc * 10 ^ Z.of_nat w + n, s).
Proof.
  intros Hn Hs.
  assert (∀ v s0 a r, read v a s0 = Some (r, s) → read_frac v a s0 = (r, s)) as Hr.
  { induction v as [|v IH]; intros s0 a r; simpl.
    - intros [= <- ->]. destruct s as [|c s']; simpl; [by rewrite Z.mul_1_r|].
      rewrite (Hs c s') by done. by rewrite Z.mul_1_r.
    - destruct s0 as [|c s0]; simpl; [done|].
      destruct (digit_val c) eqn:E; simpl; [|done]. apply IH. }
  apply Hr. by apply read_pad.
Qed.

Lemma expect_cons c s : expect c (String c s) = Some s.
Proof. simpl. by rewrite decide_True. Qed.

Lemma read_nsec_pad n :
  0 ≤ n < 1000000000 →
  read_nsec (String "." (pad 9 n "Z"%string)) = (n, "Z"%string).
Proof.
  intros Hn. pose proof (read_frac_pad 9 n 0 "Z"%string) as H.
  assert (0 ≤ n < 10 ^ Z.of_nat 9) as Hn' by (simpl; lia).
  specialize (H Hn' ltac:(by intros c s' [= <- <-])).
  pose proof (read_pad 9 n 0 "Z"%string Hn') as Hr.
  destruct (pad 9 n "Z"%string) as [|c s] eqn:E; [done|].
  simpl in Hr. unfold read_nsec. destruct (digit_val c) as [k|] eqn:Ek; [|done].
  change (read_frac 9 0 (String c s)) with
    (match digit_val c with Some n0 => read_frac 8 (10 * 0 + n0) s
     | None => (0 * 10 ^ 9, String c s) end) in H.
  rewrite Ek in H. exact H.
Qed.

Lemma parse_render c : civil_ok c = true → parse_civil (render c) = Some (c, "Z"%string).
Proof.
  intros (Hy & Hm & Hd & Hh & Hmi & Hs & Hn)%civil_ok_spec.
  pose proof (month_length (leap (c_year c)) (c_month c) Hm).
  unfold parse_civil, render.
  rewrite (read_pad 4) by (simpl; lia). cbn [mbind option_bind]. rewrite expect_cons.
  do 4 (cbn [mbind option_bind]; rewrite (read_pad 2) by (simpl; lia);
    cbn [mbind option_bind]; rewrite expect_cons).
  cbn [mbind option_bind]. rewrite (read_pad 2) by (simpl; lia). cbn [mbind option_bind].
  rewrite read_nsec_pad by lia. by destruct c.
Qed.

Lemma parse_fmt_time t : time_ok t → parse_time (fmt_time t) = Some t.
Proof.
  intros H. unfold parse_time, fmt_time.
  rewrite parse_render by by apply civil_of_ok.
  by rewrite civil_of_ok, instant_civil.
Qed.

(** Reading back a stored timestamp gives the instant that was written, to the
    nanosecond, for every instant of the years 0 to 9999. *)
Theorem timestamp_roundtrip t : time_ok t → parse_time (fmt_time t) = Some t.
Proof. apply parse_fmt_time. Qed.

Lemma timestamp_roundtrip_witness :
  time_ok 100000001 ∧ parse_time "1970-01-01T00:00:00.100000001Z" = Some 100000001.
Proof. split; [apply time_ok_small; lia|]. apply (timestamp_roundtrip 100000001), time_ok_small. lia. Defined.

#[global] Arguments fmt_time : simpl never.
#[global] Arguments parse_time : simpl never.
#[global] Arguments civil_of : simpl never.
