(* ===== verification/Strings.v ===== *)
(** * Go's [strings] package, as far as the modelled code uses it

    Go strings are byte strings; [unicode.IsSpace] is given by the UTF-8
    encodings of the white-space code points. *)

From S2P Require Import Prelude.

Abbreviation bytes := (list ascii).

Definition to_bytes (s : string) : bytes := String.list_ascii_of_string s.
Definition of_bytes (l : bytes) : string := String.string_of_list_ascii l.

Lemma to_of_bytes l : to_bytes (of_bytes l) = l.
Proof. apply String.list_ascii_of_string_of_list_ascii. Qed.

Lemma of_to_bytes s : of_bytes (to_bytes s) = s.
Proof. apply String.string_of_list_ascii_of_string. Qed.

Lemma to_bytes_app s t : to_bytes (s +:+ t) = to_bytes s ++ to_bytes t.
Proof. unfold to_bytes. induction s as [|c s IH]; simpl; [done|]. by rewrite IH. Qed.

Lemma to_bytes_nil s : to_bytes s = [] ↔ s = "".
Proof. destruct s; unfold to_bytes; simpl; split; intros H; congruence. Qed.

(** ** White space *)

Definition chr (n : nat) : ascii := ascii_of_nat n.

(** The UTF-8 encodings of [unicode.White_Space]. *)
Definition white_space : list bytes :=
  ((λ n, [chr n]) <$> [9; 10; 11; 12; 13; 32]) ++
  [[chr 194; chr 133]; [chr 194; chr 160]; [chr 225; chr 154; chr 128]] ++
  ((λ n, [chr 226; chr 128; chr n]) <$> [128; 129; 130; 131; 132; 133; 134; 135; 136; 137; 138; 168; 169; 175]) ++
  [[chr 226; chr 129; chr 159]; [chr 227; chr 128; chr 128]].

Fixpoint strip_prefix (p l : bytes) : option bytes :=
  match p, l with
  | [], _ => Some l
  | c :: p', d :: l' => if decide (c = d) then strip_prefix p' l' else None
  | _ :: _, [] => None
  end.

(** The rest of [l] after the first of [ps] that is a prefix of it. *)
Fixpoint strip_any (ps : list bytes) (l : bytes) : option bytes :=
  match ps with
  | [] => None
  | p :: ps' => match strip_prefix p l with Some l' => Some l' | None => strip_any ps' l end
  end.

Fixpoint trim_left (fuel : nat) (ps : list bytes) (l : bytes) : bytes :=
  match fuel with
  | O => l
  | S f => match strip_any ps l with Some l' => trim_left f ps l' | None => l end
  end.

Definition trim_left_space (l : bytes) : bytes := trim_left (length l) white_space l.
Definition trim_right_space (l : bytes) : bytes :=
  rev (trim_left (length l) ((λ p, rev p) <$> white_space) (rev l)).

(** [strings.TrimSpace]. *)
Definition TrimSpace (s : string) : string :=
  of_bytes (trim_right_space (trim_left_space (to_bytes s))).

(** [strings.HasPrefix], [strings.HasSuffix]. *)
Definition HasPrefix (s p : string) : bool := bool_decide (to_bytes p `prefix_of` to_bytes s).
Definition HasSuffix (s p : string) : bool := bool_decide (to_bytes p `suffix_of` to_bytes s).

(** [strings.ToLower] on ASCII letters; other bytes are left alone. *)
Definition lower (c : ascii) : ascii :=
  let n := nat_of_ascii c in
  if (Nat.leb 65 n && Nat.leb n 90)%bool then chr (n + 32) else c.
Definition ToLower (s : string) : string := of_bytes (lower <$> to_bytes s).

(** [strings.TrimLeft], [strings.TrimRight] with a cutset of ASCII characters. *)
Fixpoint drop_while (f : ascii → bool) (l : bytes) : bytes :=
  match l with
  | c :: l' => if f c then drop_while f l' else l
  | [] => []
  end.

Definition in_cutset (cutset : string) (c : ascii) : bool := bool_decide (c ∈ to_bytes cutset).
Definition TrimLeft (s cutset : string) : string :=
  of_bytes (drop_while (in_cutset cutset) (to_bytes s)).
Definition TrimRight (s cutset : string) : string :=
  of_bytes (rev (drop_while (in_cutset cutset) (rev (to_bytes s)))).
Definition TrimPrefix (s p : string) : string :=
  match strip_prefix (to_bytes p) (to_bytes s) with Some l => of_bytes l | None => s end.
Definition TrimSuffix (s p : string) : string :=
  match strip_prefix (rev (to_bytes p)) (rev (to_bytes s)) with
  | Some l => of_bytes (rev l)
  | None => s
  end.

(** [strings.Join]. *)
Fixpoint Join (l : list string) (sep : string) : string :=
  match l with
  | [] => ""
  | [s] => s
  | s :: l' => s +:+ sep +:+ Join l' sep
  end.

(** The first occurrence of the byte [c]: what precedes it and what follows it. *)
Fixpoint cut_at (c : ascii) (l : bytes) : option (bytes * bytes) :=
  match l with
  | [] => None
  | d :: l' => if decide (c = d) then Some ([], l')
               else match cut_at c l' with Some (a, b) => Some (d :: a, b) | None => None end
  end.

(** [strings.Split] with a separator of one byte. *)
Fixpoint split_bytes (c : ascii) (l : bytes) : bytes * list bytes :=
  match l with
  | [] => ([], [])
  | d :: l' =>
      let (h, t) := split_bytes c l' in
      if decide (c = d) then ([], h :: t) else (d :: h, t)
  end.
Definition Split (s : string) (c : ascii) : list string :=
  let (h, t) := split_bytes c (to_bytes s) in of_bytes h :: (of_bytes <$> t).

(** [strconv.ParseInt(s, 10, 64)] and [strconv.Atoi]: an optional sign and
    decimal digits, within 64 bits; [None] is an error. *)
Fixpoint parse_digits (acc : Z) (l : bytes) : option Z :=
  match l with
  | [] => Some acc
  | c :: l' =>
      let n := (Z.of_N (N_of_ascii c) - 48)%Z in
      if (0 <=? n)%Z && (n <=? 9)%Z then parse_digits (10 * acc + n) l' else None
  end.

Definition ParseInt (s : string) : option Z :=
  let (neg, digits) :=
    match to_bytes s with
    | "+"%char :: l => (false, l)
    | "-"%char :: l => (true, l)
    | l => (false, l)
    end in
  match digits with
  | [] => None
  | _ =>
      match parse_digits 0 digits with
      | None => None
      | Some n =>
          let v := if neg : bool then (- n)%Z else n in
          if (- 2 ^ 63 <=? v)%Z && (v <? 2 ^ 63)%Z then Some v else None
      end
  end.

(** The first occurrence of the byte string [p], as [strings.Index] finds it: what
    precedes it and what follows it. *)
Fixpoint cut_str (p l : bytes) : option (bytes * bytes) :=
  match strip_prefix p l with
  | Some rest => Some ([], rest)
  | None => match l with
            | [] => None
            | c :: l' => match cut_str p l' with Some (a, b) => Some (c :: a, b) | None => None end
            end
  end.

(** [strings.Contains] and the tail after [strings.LastIndex]. *)
Definition ContainsStr (s p : string) : bool := bool_decide (is_Some (cut_str (to_bytes p) (to_bytes s))).
Definition after_last (p : string) (s : string) : option string :=
  match cut_str (rev (to_bytes p)) (rev (to_bytes s)) with
  | Some (a, _) => Some (of_bytes (rev a))
  | None => None
  end.

(** [strings.SplitN(s, "c", 2)] *)
Definition SplitN2 (s : string) (c : ascii) : list string :=
  match cut_at c (to_bytes s) with
  | Some (a, b) => [of_bytes a; of_bytes b]
  | None => [s]
  end.

(** ** Lemmas *)

Lemma strip_prefix_Some p l l' : strip_prefix p l = Some l' ↔ l = p ++ l'.
Proof.
  revert l. induction p as [|c p IH]; intros l; simpl; [naive_solver|].
  destruct l as [|d l]; simpl; [naive_solver|]. case_decide; naive_solver.
Qed.

Lemma strip_any_Some ps l l' :
  strip_any ps l = Some l' → ∃ p, p ∈ ps ∧ l = p ++ l'.
Proof.
  induction ps as [|p ps IH]; simpl; [done|].
  destruct (strip_prefix p l) eqn:E.
  - intros [= ->]. apply strip_prefix_Some in E. exists p. set_solver.
  - intros (q & ? & ?)%IH. exists q. set_solver.
Qed.

Lemma strip_any_None ps l p l' : strip_any ps l = None → p ∈ ps → l ≠ p ++ l'.
Proof.
  induction ps as [|q ps IH]; simpl; [set_solver|].
  destruct (strip_prefix q l) eqn:E; [done|]. intros H [->|Hp]%elem_of_cons; [|by apply IH].
  intros ->. by rewrite (proj2 (strip_prefix_Some q _ l') eq_refl) in E.
Qed.

Lemma trim_left_suffix fuel ps l : ∃ k, l = k ++ trim_left fuel ps l.
Proof.
  revert l. induction fuel as [|f IH]; intros l; simpl; [by exists []|].
  destruct (strip_any ps l) as [l'|] eqn:E; [|by exists []].
  apply strip_any_Some in E as (p & _ & ->). destruct (IH l') as [k Hk].
  exists (p ++ k). by rewrite <-app_assoc, <-Hk.
Qed.

Lemma trim_left_done fuel ps l :
  Forall (λ p, p ≠ []) ps → length l ≤ fuel → strip_any ps (trim_left fuel ps l) = None.
Proof.
  intros Hps. revert l. induction fuel as [|f IH]; intros l Hl; simpl.
  - destruct l; [|simpl in Hl; lia]. destruct (strip_any ps []) as [l'|] eqn:E; [|done].
    apply strip_any_Some in E as (p & Hp & E). rewrite Forall_forall in Hps.
    destruct p; [by destruct (Hps _ Hp)|done].
  - destruct (strip_any ps l) as [l'|] eqn:E; [|done]. apply IH.
    apply strip_any_Some in E as (p & Hp & ->). rewrite Forall_forall in Hps.
    destruct p; [by destruct (Hps _ Hp)|]. rewrite length_app in Hl. simpl in Hl. lia.
Qed.

Lemma trim_left_fix fuel ps l : strip_any ps l = None → trim_left fuel ps l = l.
Proof. intros H. destruct fuel; simpl; [done|]. by rewrite H. Qed.

(** A byte that no white-space encoding has survives trimming. *)
Lemma trim_left_keeps fuel ps c l : Forall (λ p, c ∉ p) ps → c ∈ l → c ∈ trim_left fuel ps l.
Proof.
  intros Hps. rewrite Forall_forall in Hps. revert l. induction fuel as [|f IH]; intros l Hc; simpl; [done|].
  destruct (strip_any ps l) as [l'|] eqn:E; [|done]. apply strip_any_Some in E as (p & Hp & ->).
  apply IH. apply elem_of_app in Hc as [Hc|Hc]; [by destruct (Hps p Hp)|done].
Qed.

Lemma TrimSpace_keeps c s : Forall (λ p, c ∉ p) white_space → c ∈ to_bytes s → TrimSpace s ≠ "".
Proof.
  intros Hw Hc E. unfold TrimSpace in E. apply (f_equal to_bytes) in E. rewrite to_of_bytes in E.
  assert (c ∈ trim_right_space (trim_left_space (to_bytes s))) as H; [|by rewrite E in H; apply elem_of_nil in H].
  assert (∀ l, c ∈ rev l ↔ c ∈ l) as Hrev by (intros l; rewrite !list_elem_of_In; symmetry; apply in_rev).
  unfold trim_right_space. apply Hrev, trim_left_keeps.
  - apply Forall_fmap. eapply Forall_impl; [exact Hw|]. intros p Hp. simpl. by rewrite Hrev.
  - by apply Hrev, trim_left_keeps.
Qed.

(** A list that does not start with one of [ps] has no prefix that does. *)
Lemma strip_any_prefix ps l k : strip_any ps (l ++ k) = None → strip_any ps l = None.
Proof.
  intros H. destruct (strip_any ps l) as [l'|] eqn:E; [|done].
  apply strip_any_Some in E as (p & Hp & ->).
  exfalso. eapply strip_any_None; [done..|]. by rewrite <-app_assoc.
Qed.

Lemma white_space_ne : Forall (λ p, p ≠ []) white_space.
Proof. repeat constructor; done. Qed.

Lemma white_space_rev_ne : Forall (λ p, p ≠ []) ((λ p, rev p) <$> white_space).
Proof. repeat constructor; done. Qed.

(** Trimming twice is trimming once. *)
Lemma TrimSpace_idemp s : TrimSpace (TrimSpace s) = TrimSpace s.
Proof.
  unfold TrimSpace. rewrite to_of_bytes. f_equal.
  set (l := trim_left_space (to_bytes s)).
  assert (strip_any white_space l = None) as Hl
    by (apply trim_left_done; [apply white_space_ne|done]).
  set (ps := (λ p, rev p) <$> white_space).
  assert (strip_any ps (trim_left (length l) ps (rev l)) = None) as Hr.
  { apply trim_left_done; [apply white_space_rev_ne|]. by rewrite length_rev. }
  assert (strip_any white_space (trim_right_space l) = None) as Hlr.
  { destruct (trim_left_suffix (length l) ps (rev l)) as [k Hk].
    apply (strip_any_prefix _ _ (rev k)). unfold trim_right_space.
    fold ps. rewrite <-rev_app_distr, <-Hk, rev_involutive. done. }
  unfold trim_left_space at 1. rewrite trim_left_fix by done.
  unfold trim_right_space at 1. fold ps. unfold trim_right_space at 1 2. fold ps.
  rewrite rev_involutive, trim_left_fix; done.
Qed.

Lemma string_app_assoc s t u : (s +:+ t) +:+ u = s +:+ t +:+ u.
Proof. induction s as [|c s IH]; [done|].
  change (String c ((s +:+ t) +:+ u) = String c (s +:+ t +:+ u)). by rewrite IH.
Qed.

Lemma Join_app_nonempty l k sep :
  l ≠ [] → k ≠ [] → Join (l ++ k) sep = Join l sep +:+ sep +:+ Join k sep.
Proof.
  intros Hl Hk. induction l as [|s l IH]; [done|].
  destruct l as [|t l]; simpl.
  - by destruct k.
  - simpl in IH. rewrite IH by done. by rewrite !string_app_assoc.
Qed.

Lemma cut_at_iff c l a b : cut_at c l = Some (a, b) ↔ l = a ++ c :: b ∧ c ∉ a.
Proof.
  revert a. induction l as [|d l IH]; intros a; simpl.
  - split; [done|]. intros [H _]. by destruct a.
  - case_decide as Hd.
    + subst d. split; [intros [= <- ->]; split; [done|apply not_elem_of_nil]|].
      intros [H Ha]. destruct a as [|x a]; [by injection H as ->|]. injection H as -> _.
      destruct Ha. by left.
    + destruct (cut_at c l) as [[a' b']|].
      * split.
        -- intros [= <- ->]. destruct (proj1 (IH a') eq_refl) as [-> Ha]. split; [done|].
           by apply not_elem_of_cons.
        -- intros [H Ha]. destruct a as [|x a]; [by injection H as -> _|]. injection H as -> H.
           apply not_elem_of_cons in Ha as [_ Ha].
           assert (Some (a', b') = Some (a, b)) as [= -> ->]; [|done]. by apply IH.
      * split; [done|]. intros [H Ha]. destruct a as [|x a]; [by injection H as -> _|].
        injection H as -> H. apply not_elem_of_cons in Ha as [_ Ha].
        assert (None = Some (a, b)) as [=]. by apply IH.
Qed.

Lemma to_bytes_inj s t : to_bytes s = to_bytes t → s = t.
Proof. intros H. by rewrite <-(of_to_bytes s), H, of_to_bytes. Qed.

Example trim1 : TrimSpace ("  a b" +:+ nl) = "a b".
Proof. reflexivity. Qed.

(** [cut_str] finds an occurrence, and none begins earlier. *)
Lemma cut_str_Some p l a b : cut_str p l = Some (a, b) → l = a ++ p ++ b.
Proof.
  revert a. induction l as [|c l IH]; intros a; simpl.
  - destruct (strip_prefix p []) as [r|] eqn:E; [|done]. intros [= <- <-]. by apply strip_prefix_Some in E.
  - destruct (strip_prefix p (c :: l)) as [r|] eqn:E.
    + intros [= <- <-]. by apply strip_prefix_Some in E.
    + destruct (cut_str p l) as [[a' b']|]; [|done]. intros [= <- <-]. simpl. f_equal. by apply IH.
Qed.

Lemma cut_str_first p l a b : cut_str p l = Some (a, b) →
  ∀ a' b', l = a' ++ p ++ b' → length a ≤ length a'.
Proof.
  revert a. induction l as [|c l IH]; intros a; simpl.
  - destruct (strip_prefix p []); [|done]. intros [= <- <-]. simpl. lia.
  - destruct (strip_prefix p (c :: l)) as [r|] eqn:E; [intros [= <- <-]; simpl; lia|].
    destruct (cut_str p l) as [[a0 b0]|] eqn:E'; [|done]. intros [= <- <-] a' b'.
    destruct a' as [|c' a']; simpl; intros H.
    + assert (strip_prefix p (c :: l) = Some b') by by apply strip_prefix_Some. congruence.
    + injection H as <- H. specialize (IH a0 eq_refl a' b' H). lia.
Qed.

Lemma cut_str_None p l : cut_str p l = None → ∀ a b, l ≠ a ++ p ++ b.
Proof.
  induction l as [|c l IH]; simpl.
  - destruct (strip_prefix p []) eqn:E; [done|]. intros _ a b H.
    symmetry in H. apply app_nil in H as [-> [-> ->]%app_nil]. done.
  - destruct (strip_prefix p (c :: l)) as [r|] eqn:E; [done|].
    destruct (cut_str p l) as [[a0 b0]|]; [done|]. intros _ a b H.
    destruct a as [|c' a]; simpl in H.
    + assert (strip_prefix p (c :: l) = Some b) by by apply strip_prefix_Some. congruence.
    + injection H as <- H. by apply (IH eq_refl a b).
Qed.

(** A byte that is in neither prefix separates a text in one way only. *)
Lemma sep_inj {A} (c : A) (a b a' b' : list A) : c ∉ a → c ∉ a' → a ++ c :: b = a' ++ c :: b' → a = a' ∧ b = b'.
Proof.
  revert a'. induction a as [|x a IH]; intros [|y a'] Ha Ha' Heq; simpl in Heq.
  - by injection Heq as ->.
  - injection Heq as -> _. destruct Ha'. by left.
  - injection Heq as -> _. destruct Ha. by left.
  - injection Heq as -> Heq. apply not_elem_of_cons in Ha as [_ Ha], Ha' as [_ Ha'].
    by destruct (IH a' Ha Ha' Heq) as [-> ->].
Qed.

(** A text without the byte [c]. *)
Definition plain (c : ascii) (s : string) : Prop := c ∉ to_bytes s.

Lemma plain_sep_inj (c : ascii) (a b a' b' : string) : plain c a → plain c a' →
  a +:+ String c b = a' +:+ String c b' → a = a' ∧ b = b'.
Proof.
  intros Ha Ha' E%(f_equal to_bytes). rewrite !to_bytes_app in E.
  apply (sep_inj c) in E as [->%to_bytes_inj ->%to_bytes_inj]; done.
Qed.
