(* ===== verification/Policy.v ===== *)
(** * Identities and the access policy

    [internal/auth/auth.go] (identities), [internal/policy/policy.go] (the
    policy document and its gates), [allow.go] (the gate decision) and
    [load.go] (merging operator overrides onto a profile).  The cached
    per-target evaluation is in [Evaluator.v]. *)

From S2P Require Import Prelude Strings.

(** ** Identities *)

Abbreviation Source := string.
Definition SourceAnonymous : Source := "anonymous".
Definition SourceHeader : Source := "header".
Definition SourceBearer : Source := "bearer".
Definition SourceOIDC : Source := "oidc".

Record Identity := mkIdentity {
  id_User : string;
  id_Email : string;
  id_Groups : list string;
  id_Source : Source;
}.

Definition Anonymous : Identity := mkIdentity "" "" [] SourceAnonymous.

Definition IsAuthenticated (i : Identity) : bool :=
  bool_decide (id_Source i ≠ "") && bool_decide (id_Source i ≠ SourceAnonymous).

Definition DisplayName (i : Identity) : string :=
  if decide (id_Email i ≠ "") then id_Email i else id_User i.

(** A request's context either carries an identity or it does not. *)
Definition FromContext (ctx : option Identity) : Identity * bool :=
  match ctx with
  | Some i => (i, true)
  | None => (Anonymous, false)
  end.

(** ** The policy document *)

Abbreviation Gate := string.
Definition GateAny : Gate := "any".
Definition GateAuthenticated : Gate := "authenticated".
Definition GateMaintainer : Gate := "maintainer".
Definition GateDeny : Gate := "deny".
Definition groupGatePrefix : string := "group:".

Record AnonymousAbuse := mkAnonymousAbuse {
  aa_Turnstile : string;
  aa_PerIPRateLimit : string;
  aa_FirstTimeHoldback : bool;
}.

Record Auth := mkAuth {
  auth_Actions : gmap string Gate;
  auth_AnonymousAbuse : AnonymousAbuse;
  auth_PerUserRateLimit : string;
  auth_MaxPendingPerUser : Z;
  auth_PublicIDField : string;
}.

Record License := mkLicense {
  lic_RequireLicense : bool;
  lic_Allowlist : list string;
  lic_Denylist : list string;
  lic_UnknownVerdict : string;
}.

Record SourcePolicy := mkSourcePolicy {
  src_RequireHTTPS : bool;
  src_AllowedHosts : list string;
  src_DenylistedHosts : list string;
}.

Record Cost := mkCost {
  cost_MaxArchiveSizeBytes : Z;
  cost_MaxClosureModules : Z;
  cost_MaxTotalAdmissionBytes : Z;
  cost_MaxPatchBytesPerVersion : Z;
}.

Record Attestations := mkAttestations {
  att_Require : bool;
  att_TrustRoots : list string;
  att_EnforceFor : list string;
}.

Record SmokeTest := mkSmokeTest {
  smoke_Enabled : bool;
  smoke_Matrix : gmap string (list string);
  smoke_Timeout : string;
  smoke_OnFailure : string;
}.

Record BazelSupport := mkBazelSupport {
  bzl_SupportedVersions : list string;
  bzl_IncludeToolsInClosure : bool;
}.

Record Review := mkReview {
  rev_TimeoutDays : Z;
  rev_AutoPassOnAlreadyInUpstream : bool;
}.

Record Admission := mkAdmission {
  adm_License : License;
  adm_Hermeticity : gmap string string;
  adm_Source : SourcePolicy;
  adm_Cost : Cost;
  adm_Attestations : Attestations;
  adm_SmokeTest : SmokeTest;
  adm_Bazel : BazelSupport;
  adm_Review : Review;
}.

Record Naming := mkNaming {
  nam_Mode : string;
  nam_Suffix : string;
  nam_PerModule : gmap string string;
}.

Record Maintainers := mkMaintainers {
  mnt_AutoGrantOnAdmission : bool;
  mnt_MinPerModule : Z;
}.

Record AuditSection := mkAuditSection {
  aud_RetainDays : Z;
  aud_IdentityTaggedActions : list string;
  aud_RedactInLogs : list string;
  aud_WebhookURL : string;
}.

Record MCP := mkMCP {
  mcp_HTTPEnabled : bool;
  mcp_WriteToolsEnabled : bool;
}.

Record Git := mkGit {
  git_Remote : string;
  git_BaseBranch : string;
  git_Adapter : string;
  git_PRWorkflow : bool;
  git_AutoMergeOnAutoPass : bool;
}.

Record Content := mkContent {
  cnt_AboutMDPath : string;
  cnt_Wordmark : string;
}.

Record Seed := mkSeed {
  seed_Modules : list string;
  seed_SampleRequests : Z;
}.

Record Policy := mkPolicy {
  pol_Version : Z;
  pol_Profile : string;
  pol_Auth : Auth;
  pol_Admission : Admission;
  pol_Naming : Naming;
  pol_Maintainers : Maintainers;
  pol_Audit : AuditSection;
  pol_MCP : MCP;
  pol_Git : Git;
  pol_Content : Content;
  pol_Seed : Seed;
}.

Record Diagnostic := mkDiagnostic {
  diag_Path : string;
  diag_Message : string;
}.

(** The zero value of the document: every field absent. *)
Definition zeroPolicy : Policy :=
  mkPolicy 0 ""
    (mkAuth ∅ (mkAnonymousAbuse "" "" false) "" 0 "")
    (mkAdmission (mkLicense false [] [] "") ∅ (mkSourcePolicy false [] []) (mkCost 0 0 0 0)
       (mkAttestations false [] []) (mkSmokeTest false ∅ "" "") (mkBazelSupport [] false)
       (mkReview 0 false))
    (mkNaming "" "" ∅) (mkMaintainers false 0) (mkAuditSection 0 [] [] "") (mkMCP false false)
    (mkGit "" "" "" false false) (mkContent "" "") (mkSeed [] 0).

(** ** Gates *)

(** [len(g) > len(groupGatePrefix) && string(g)[:len(groupGatePrefix)] == groupGatePrefix]. *)
Definition IsGroup (g : Gate) : bool :=
  let n := length (to_bytes groupGatePrefix) in
  bool_decide (n < length (to_bytes g)) &&
  bool_decide (of_bytes (take n (to_bytes g)) = groupGatePrefix).

Definition GroupName (g : Gate) : string :=
  if IsGroup g then of_bytes (drop (length (to_bytes groupGatePrefix)) (to_bytes g)) else "".

(** [Policy.Allow]; the receiver may be nil. *)
Definition Allow (p : option Policy) (id : Identity) (action : string) : bool :=
  match p with
  | None => false
  | Some p =>
      match auth_Actions (pol_Auth p) !! action with
      | None => false
      | Some gate =>
          if decide (gate = GateAny) then true
          else if decide (gate = GateAuthenticated) then IsAuthenticated id
          else if decide (gate = GateMaintainer) then false
          else if decide (gate = GateDeny) then false
          else if IsGroup gate then
            if negb (IsAuthenticated id) then false
            else bool_decide (GroupName gate ∈ id_Groups id)
          else false
      end
  end.

Lemma group_gate g : g ≠ "" → IsGroup ("group:" +:+ g) = true ∧ GroupName ("group:" +:+ g) = g.
Proof.
  intros Hg. unfold GroupName.
  assert (IsGroup ("group:" +:+ g) = true) as ->; [|split; [done|]].
  - destruct g as [|c g]; [done|]. reflexivity.
  - change (of_bytes (to_bytes g) = g). apply of_to_bytes.
Qed.

Lemma IsGroup_spec gate : IsGroup gate = true ↔ ∃ g, g ≠ "" ∧ gate = "group:" +:+ g.
Proof.
  split; [|intros (g & Hg & ->); by apply group_gate].
  unfold IsGroup. rewrite andb_true_iff, !bool_decide_eq_true. intros [Hn E].
  exists (of_bytes (drop 6 (to_bytes gate))). split.
  - intros H. apply (f_equal to_bytes) in H. rewrite to_of_bytes in H.
    apply (f_equal length) in H. rewrite length_drop in H. simpl in Hn, H. lia.
  - rewrite <-(of_to_bytes gate) at 1. rewrite <-(take_drop 6 (to_bytes gate)) at 1.
    apply (f_equal to_bytes) in E. rewrite to_of_bytes in E.
    change (length (to_bytes groupGatePrefix)) with 6 in E. rewrite E. reflexivity.
Qed.

(** What a gate promises, read off its text. *)
Inductive gate_grants (id : Identity) : Gate → Prop :=
| grants_any : gate_grants id GateAny
| grants_authenticated : IsAuthenticated id = true → gate_grants id GateAuthenticated
| grants_group g :
    g ≠ "" → IsAuthenticated id = true → g ∈ id_Groups id → gate_grants id ("group:" +:+ g).

Lemma gate_grants_inv id gate :
  gate_grants id gate ↔
  gate = GateAny ∨ (gate = GateAuthenticated ∧ IsAuthenticated id = true) ∨
  ∃ g, g ≠ "" ∧ gate = "group:" +:+ g ∧ IsAuthenticated id = true ∧ g ∈ id_Groups id.
Proof.
  split; [destruct 1; naive_solver|].
  intros [->|[[-> ?]|(g & ? & -> & ? & ?)]]; by constructor.
Qed.

Lemma Allow_iff' p id action :
  Allow p id action = true ↔
  ∃ pol gate, p = Some pol ∧ auth_Actions (pol_Auth pol) !! action = Some gate ∧
              gate_grants id gate.
Proof.
  unfold Allow. destruct p as [pol|]; [|naive_solver].
  destruct (auth_Actions (pol_Auth pol) !! action) as [gate|] eqn:E; [|naive_solver].
  trans (gate_grants id gate); [|naive_solver].
  rewrite gate_grants_inv.
  destruct (decide (gate = GateAny)) as [->|]; [naive_solver|].
  destruct (decide (gate = GateAuthenticated)) as [->|]; [naive_solver|].
  destruct (decide (gate = GateMaintainer)) as [->|];
    [|destruct (decide (gate = GateDeny)) as [->|]].
  - split; [done|]. intros [?|[[??]|(g & ? & ? & ? & ?)]]; discriminate.
  - split; [done|]. intros [?|[[??]|(g & ? & ? & ? & ?)]]; discriminate.
  - destruct (IsGroup gate) eqn:Hg.
    + apply IsGroup_spec in Hg as (g & Hg & ->). rewrite (proj2 (group_gate g Hg)).
      destruct (IsAuthenticated id) eqn:Ha; simpl; [|naive_solver].
      rewrite bool_decide_eq_true. split; [naive_solver|].
      intros [?|[[??]|(g' & ? & E' & ? & ?)]]; [done..|]. by apply (inj _) in E' as ->.
    + split; [done|]. intros [?|[[??]|(g & Hn & -> & ? & ?)]]; [done..|].
      by rewrite (proj1 (group_gate g Hn)) in Hg.
Qed.

(** A request is allowed exactly when the document has a gate for the action
    and that gate is [any], or [authenticated] and the caller is, or
    [group:NAME] with the authenticated caller in the group NAME.  A missing
    policy, a missing action, the per-target [maintainer] gate, [deny] and
    every other text refuse. *)
Theorem Allow_iff p id action :
  Allow p id action = true ↔
  ∃ pol gate, p = Some pol ∧ auth_Actions (pol_Auth pol) !! action = Some gate ∧
              gate_grants id gate.
Proof. apply Allow_iff'. Qed.
