(* ===== verification/PolicyLoad.v ===== *)
(** * Loading the policy document

    [internal/policy/load.go]: the operator's file is deep-merged onto the
    embedded profile it names.  The YAML codec (a library) and the file system
    are parameters of [LoadFile]; the merge itself works on decoded documents.
    A Go map is an association list in its iteration order. *)

From S2P Require Import Prelude Strings Policy.

(** ** Decoded YAML documents *)

Inductive yaml : Type :=
| YNull
| YBool (b : bool)
| YNum (n : Z)
| YStr (s : string)
| YSeq (l : list yaml)
| YMap (m : list (string * yaml)).

Definition is_map (v : yaml) : bool := match v with YMap _ => true | _ => false end.

Fixpoint lookup_key (k : string) (m : list (string * yaml)) : option yaml :=
  match m with
  | [] => None
  | (k', v) :: m' => if decide (k = k') then Some v else lookup_key k m'
  end.

(** [m[k] = v]. *)
Fixpoint set_key (k : string) (v : yaml) (m : list (string * yaml)) : list (string * yaml) :=
  match m with
  | [] => [(k, v)]
  | (k', v') :: m' => if decide (k = k') then (k, v) :: m' else (k', v') :: set_key k v m'
  end.

(** The value stored for a key of the overlay: maps recurse, anything else wins. *)
Fixpoint merge_value (bv v : yaml) {struct v} : yaml :=
  match v with
  | YMap om =>
      match bv with
      | YMap bm =>
          YMap (foldl (λ out kv,
            set_key kv.1 (match lookup_key kv.1 out with
                          | Some b' => merge_value b' kv.2
                          | None => kv.2
                          end) out) bm om)
      | _ => v
      end
  | _ => v
  end.

Definition deepMergeMaps (base overlay : list (string * yaml)) : list (string * yaml) :=
  foldl (λ out kv,
    set_key kv.1 (match lookup_key kv.1 out with
                  | Some b' => merge_value b' kv.2
                  | None => kv.2
                  end) out) base overlay.

(** The value at a path of keys. *)
Fixpoint get (p : list string) (v : yaml) : option yaml :=
  match p with
  | [] => Some v
  | k :: p' => match v with YMap m => lookup_key k m ≫= get p' | _ => None end
  end.

(** A Go map has each key once. *)
Fixpoint unique_keys (v : yaml) : bool :=
  match v with
  | YMap m => bool_decide (NoDup (fst <$> m)) && forallb (λ kv, unique_keys kv.2) m
  | _ => true
  end.

(** ** LoadProfile and LoadFile *)

Inductive LoadError : Type :=
| ErrPolicyFileMissing
| ErrUnknownProfile (name : string)
| ErrOpen (msg : string)
| ErrRead (msg : string)
| ErrTooLarge
| ErrParse (msg : string)
| ErrUnsupportedVersion (v : Z)
| ErrProfileUnreadable (name msg : string)
| ErrProfileDecode (name msg : string)
| ErrMerge (step msg : string).

Definition known_profile (name : string) : bool :=
  bool_decide (name = "strict") || bool_decide (name = "open") || bool_decide (name = "closed").

Definition maxPolicyFileBytes : Z := 10 * 1024 * 1024.
Definition supportedVersion : Z := 1.

(** What opening and reading the file yields. *)
Inductive file_content : Type :=
| FileMissing
| FileOpenError (msg : string)
| FileReadError (msg : string)
| FileBody (body : string).

Section load.
(** The embedded profiles and the YAML codec. *)
Context (read_profile : string → result string string).
Context (yaml_head : string → result string (Z * string)).
Context (yaml_policy : string → result string Policy).
Context (yaml_map : string → result string (list (string * yaml))).
Context (marshal_policy : Policy → result string string).
Context (marshal_map : list (string * yaml) → result string string).

Definition LoadProfile (name : string) : result LoadError Policy :=
  if negb (known_profile name) then Err (ErrUnknownProfile name)
  else
    match read_profile ("profiles/" +:+ name +:+ ".yml") with
    | Err e => Err (ErrProfileUnreadable name e)
    | Ok body => map_err (ErrProfileDecode name) (yaml_policy body)
    end.

Definition mergeYAML (baseline : Policy) (userYAML : string) : result LoadError Policy :=
  baselineYAML ← map_err (ErrMerge "marshal baseline") (marshal_policy baseline);
  baselineMap ← map_err (ErrMerge "decode baseline") (yaml_map baselineYAML);
  userMap ← map_err (ErrMerge "decode user") (yaml_map userYAML);
  mergedYAML ← map_err (ErrMerge "marshal merged")
                 (marshal_map (deepMergeMaps baselineMap userMap));
  map_err (ErrMerge "decode merged") (yaml_policy mergedYAML).

Definition unknown_profile_diag (name : string) : Diagnostic :=
  mkDiagnostic "profile"
    ("unknown profile " +:+ dq +:+ name +:+ dq +:+
     "; falling back to strict (known profiles: strict, open, closed)").

Definition effective_profile (name : string) : string :=
  if decide (name = "") then "strict" else name.

Definition LoadFile (f : file_content) : result LoadError (Policy * list Diagnostic) :=
  match f with
  | FileMissing => Err ErrPolicyFileMissing
  | FileOpenError e => Err (ErrOpen e)
  | FileReadError e => Err (ErrRead e)
  | FileBody body =>
      if (maxPolicyFileBytes <? Z.of_nat (String.length body))%Z then Err ErrTooLarge
      else
        head ← map_err ErrParse (yaml_head body);
        if decide (head.1 ≠ supportedVersion) then Err (ErrUnsupportedVersion head.1)
        else
          let profileName := effective_profile head.2 in
          bd ← match LoadProfile profileName with
               | Ok baseline => Ok (baseline, [])
               | Err (ErrUnknownProfile _) =>
                   baseline ← LoadProfile "strict";
                   Ok (baseline, [unknown_profile_diag profileName])
               | Err e => Err e
               end;
          merged ← mergeYAML bd.1 body;
          Ok (merged, bd.2)
  end.

Lemma map_err_ok {E E' A} (f : E → E') (r : result E A) a : map_err f r = Ok a ↔ r = Ok a.
Proof. destruct r; naive_solver. Qed.

Lemma LoadProfile_unknown name n :
  LoadProfile name = Err (ErrUnknownProfile n) ↔ known_profile name = false ∧ n = name.
Proof.
  unfold LoadProfile. destruct (known_profile name); simpl.
  - destruct (read_profile _) as [body|]; [|naive_solver].
    destruct (yaml_policy body); naive_solver.
  - naive_solver.
Qed.

Lemma LoadProfile_known name p :
  LoadProfile name = Ok p ↔
  known_profile name = true ∧
  ∃ body, read_profile ("profiles/" +:+ name +:+ ".yml") = Ok body ∧ yaml_policy body = Ok p.
Proof.
  unfold LoadProfile. destruct (known_profile name); simpl; [|naive_solver].
  destruct (read_profile _) as [body|]; [|naive_solver].
  rewrite map_err_ok. split; [by eauto|]. by intros (_ & ? & [= <-] & ?).
Qed.

Lemma mergeYAML_ok b user p :
  mergeYAML b user = Ok p ↔
  ∃ by_ bm um my, marshal_policy b = Ok by_ ∧ yaml_map by_ = Ok bm ∧ yaml_map user = Ok um ∧
    marshal_map (deepMergeMaps bm um) = Ok my ∧ yaml_policy my = Ok p.
Proof.
  unfold mergeYAML. rewrite bind_ok. setoid_rewrite bind_ok. setoid_rewrite bind_ok.
  setoid_rewrite bind_ok. setoid_rewrite map_err_ok. naive_solver.
Qed.

(** Loading succeeds with a policy and diagnostics exactly when the file is
    present, at most 10 MiB, of version 1, and the policy is the decoded deep
    merge of the file onto its baseline; the baseline is the named profile
    without a diagnostic, or [strict] with one diagnostic when the name is not
    a profile (and [strict] without one when no name is given). *)
Theorem LoadFile_ok f p diags :
  LoadFile f = Ok (p, diags) ↔
  ∃ body name baseline,
    f = FileBody body ∧ (Z.of_nat (String.length body) ≤ maxPolicyFileBytes)%Z ∧
    yaml_head body = Ok (supportedVersion, name) ∧
    (if known_profile (effective_profile name)
     then LoadProfile (effective_profile name) = Ok baseline ∧ diags = []
     else LoadProfile "strict" = Ok baseline ∧
          diags = [unknown_profile_diag (effective_profile name)]) ∧
    mergeYAML baseline body = Ok p.
Proof.
  destruct f as [|e|e|body]; simpl; try naive_solver.
  destruct (Z.ltb_spec maxPolicyFileBytes (Z.of_nat (String.length body))) as [Hl|Hl].
  { split; [done|]. intros (? & ? & ? & [= <-] & ? & _). lia. }
  rewrite bind_ok. setoid_rewrite map_err_ok.
  destruct (yaml_head body) as [[v name]|] eqn:Hh.
  2: { split; [by intros (? & ? & _)|]. intros (? & ? & ? & [= <-] & ? & ? & _). congruence. }
  trans (v = supportedVersion ∧ ∃ bd,
    (if known_profile (effective_profile name)
     then LoadProfile (effective_profile name) = Ok bd.1 ∧ bd.2 = []
     else LoadProfile "strict" = Ok bd.1 ∧
          bd.2 = [unknown_profile_diag (effective_profile name)]) ∧
    mergeYAML bd.1 body = Ok p ∧ bd.2 = diags).
  - split.
    + intros (h & [= <-] & H). simpl in H. case_decide as Hv; [done|].
      split; [done|].
      rewrite bind_ok in H. destruct H as ([b d] & Hb & Hm).
      rewrite bind_ok in Hm. destruct Hm as (m & Hm & [= <- <-]). simpl in *.
      exists (b, d). simpl. split_and!; [|done..]. clear Hm.
      destruct (LoadProfile (effective_profile name)) as [b'|e] eqn:E.
      * apply LoadProfile_known in E as E'. destruct E' as [-> _]. by injection Hb as <- <-.
      * destruct e; try done. apply LoadProfile_unknown in E as [-> ->].
        rewrite bind_ok in Hb. by destruct Hb as (b' & ? & [= <- <-]).
    + intros (-> & [b d] & Hb & Hm & <-). exists (supportedVersion, name). split; [done|].
      rewrite decide_False by (by intros []). cbn [fst snd] in *.
      destruct (known_profile (effective_profile name)) eqn:Hk.
      * destruct Hb as [-> ->]. simpl. by rewrite Hm.
      * rewrite (proj2 (LoadProfile_unknown (effective_profile name) _) (conj Hk eq_refl)).
        destruct Hb as [-> ->]. simpl. by rewrite Hm.
  - split; [intros (-> & [b d] & ?)|intros (? & ? & b & [= <-] & ? & E & ? & ?)].
    + exists body, name, b. simpl in *. destruct_and!. subst. by destruct (known_profile _).
    + rewrite Hh in E. injection E as -> ->. split; [done|]. by exists (b, diags).
Qed.
End load.

(** ** The merge *)

Lemma lookup_set_key k k' v m :
  lookup_key k (set_key k' v m) = if decide (k = k') then Some v else lookup_key k m.
Proof.
  induction m as [|[k0 v0] m IH]; simpl; repeat (case_decide; simpl); try done; congruence.
Qed.

Lemma lookup_key_None k m : lookup_key k m = None ↔ k ∉ fst <$> m.
Proof.
  induction m as [|[k0 v0] m IH]; simpl; [set_solver|]. case_decide; set_solver.
Qed.

Lemma lookup_key_Some k m v : lookup_key k m = Some v → (k, v) ∈ m.
Proof.
  induction m as [|[k0 v0] m IH]; simpl; [done|]. case_decide; [|set_solver].
  intros [= ->]. subst. set_solver.
Qed.

Lemma lookup_deepMerge k base overlay :
  NoDup (fst <$> overlay) →
  lookup_key k (deepMergeMaps base overlay) =
    match lookup_key k overlay with
    | None => lookup_key k base
    | Some v => Some (match lookup_key k base with Some b => merge_value b v | None => v end)
    end.
Proof.
  unfold deepMergeMaps. revert base.
  induction overlay as [|[k0 v0] overlay IH]; intros base; csimpl; [done|].
  rewrite NoDup_cons. intros [Hk0 Hnd]. rewrite IH, lookup_set_key by done.
  case_decide as E; [subst|done].
  by rewrite (proj2 (lookup_key_None k0 overlay)).
Qed.

Lemma merge_value_maps bm om : merge_value (YMap bm) (YMap om) = YMap (deepMergeMaps bm om).
Proof. done. Qed.

Lemma merge_value_overlay b v :
  is_map v = false ∨ is_map b = false → merge_value b v = v.
Proof. destruct v, b; naive_solver. Qed.

Lemma unique_keys_map m :
  unique_keys (YMap m) = true ↔
  NoDup (fst <$> m) ∧ ∀ k v, lookup_key k m = Some v → unique_keys v = true.
Proof.
  simpl. rewrite andb_true_iff, bool_decide_eq_true, forallb_forall.
  setoid_rewrite <-list_elem_of_In. split.
  - intros [Hnd Hf]. split; [done|]. intros k v Hv%lookup_key_Some. by apply (Hf (k, v)).
  - intros [Hnd Hf]. split; [done|]. intros [k v] Hkv. simpl. apply (Hf k).
    revert Hnd Hkv. clear. induction m as [|[k0 v0] m IH]; csimpl; [set_solver|].
    rewrite NoDup_cons, elem_of_cons. intros [Hk0 Hnd] [[= <- <-]|Hin].
    + by rewrite decide_True.
    + rewrite decide_False; [by apply IH|]. intros ->. apply Hk0.
      apply list_elem_of_fmap. by exists (k0, v).
Qed.

(** The overlay only has maps along the path [p]. *)
Definition open_along (o : yaml) (p : list string) : Prop :=
  ∀ q v, q `prefix_of` p → get q o = Some v → is_map v = true.

Lemma open_along_cons k p om v :
  open_along (YMap om) (k :: p) → lookup_key k om = Some v → open_along v p.
Proof.
  intros H Hk q w Hq Hw. apply (H (k :: q)); [by apply prefix_cons|]. simpl. by rewrite Hk.
Qed.

Lemma get_cons_Some k p v w :
  get (k :: p) v = Some w →
  ∃ m u, v = YMap m ∧ lookup_key k m = Some u ∧ get p u = Some w.
Proof.
  simpl. destruct v as [| | | | |m]; try done.
  destruct (lookup_key k m) as [u|] eqn:E; simpl; [|done]. by eauto 10.
Qed.

(** The value at a path of the merged document, one key at a time. *)
Lemma get_merge_cons k p b o :
  unique_keys o = true →
  get (k :: p) (merge_value b o) =
    match b, o with
    | YMap bm, YMap om =>
        match lookup_key k om with
        | None => get (k :: p) b
        | Some v => match lookup_key k bm with
                    | Some b' => get p (merge_value b' v)
                    | None => get p v
                    end
        end
    | _, _ => get (k :: p) o
    end.
Proof.
  intros Ho. destruct o as [| | | | |om]; [by destruct b..|].
  destruct b as [| | | | |bm]; [done..|].
  apply unique_keys_map in Ho as [Hnd _]. rewrite merge_value_maps. simpl.
  rewrite lookup_deepMerge by done.
  destruct (lookup_key k om); simpl; [|done]. by destruct (lookup_key k bm).
Qed.

Lemma merge_overlay_wins p b o v :
  unique_keys o = true → get p o = Some v → is_map v = false →
  get p (merge_value b o) = Some v.
Proof.
  intros Ho. revert b o Ho. induction p as [|k p IH]; intros b o Ho Hv Hm.
  - injection Hv as ->. simpl. f_equal. apply merge_value_overlay. by left.
  - rewrite get_merge_cons by done.
    apply get_cons_Some in Hv as Hv'. destruct Hv' as (om & u & -> & Hk & Hu).
    destruct b as [| | | | |bm]; try done. rewrite Hk.
    apply unique_keys_map in Ho as [_ Ho]. specialize (Ho _ _ Hk).
    destruct (lookup_key k bm); [by apply IH|done].
Qed.

Lemma merge_base_kept p b o v :
  unique_keys o = true → get p b = Some v → get p o = None → open_along o p →
  get p (merge_value b o) = Some v.
Proof.
  intros Ho. revert b o Ho. induction p as [|k p IH]; intros b o Ho Hv Hn Hop; [done|].
  rewrite get_merge_cons by done.
  apply get_cons_Some in Hv as Hv'. destruct Hv' as (bm & u & -> & Hk & Hu).
  assert (is_map o = true) as Hom by (apply (Hop []); [apply prefix_nil|done]).
  destruct o as [| | | | |om]; try done.
  destruct (lookup_key k om) as [w|] eqn:Hw; [|done].
  apply unique_keys_map in Ho as [_ Ho]. specialize (Ho _ _ Hw). rewrite Hk.
  apply IH; [done|done| |by eapply open_along_cons]. simpl in Hn. by rewrite Hw in Hn.
Qed.

Lemma merge_no_invention p b o v :
  unique_keys o = true → get p (merge_value b o) = Some v → is_map v = false →
  get p o = Some v ∨ (get p b = Some v ∧ get p o = None ∧ open_along o p).
Proof.
  intros Ho. revert b o Ho. induction p as [|k p IH]; intros b o Ho Hv Hm.
  - left. simpl in *. injection Hv as Hv. destruct o as [| | | | |om]; [by f_equal..|].
    destruct b as [| | | | |bm]; [by f_equal..|]. rewrite merge_value_maps in Hv. by subst v.
  - rewrite get_merge_cons in Hv by done.
    destruct o as [| | | | |om]; [by destruct b..|].
    destruct b as [| | | | |bm]; [by left..|].
    apply unique_keys_map in Ho as [_ Ho].
    destruct (lookup_key k om) as [w|] eqn:Hw.
    + simpl. rewrite Hw. simpl. destruct (lookup_key k bm) as [b'|] eqn:Hb; [|by left].
      destruct (IH b' w (Ho _ _ Hw) Hv Hm) as [?|(? & ? & Hop)]; [by left|].
      right. simpl. split_and!; [done..|].
      intros q x Hq Hx. destruct q as [|k' q]; [by injection Hx as <-|].
      apply prefix_cons_inv_1 in Hq as Hk'. subst k'. apply prefix_cons_inv_2 in Hq.
      simpl in Hx. rewrite Hw in Hx. by apply (Hop q).
    + right. split_and!; [done|simpl; by rewrite Hw|].
      intros q x Hq Hx. destruct q as [|k' q]; [by injection Hx as <-|].
      apply prefix_cons_inv_1 in Hq as Hk'. subst k'. simpl in Hx. by rewrite Hw in Hx.
Qed.

(** Deep merge, setting by setting: for every path and every value that is not
    a mapping, the merged document has that value at that path exactly when the
    operator's file has it there, or the baseline has it there and the
    operator's file says nothing at that path and puts no scalar or list on the
    way to it.  So an explicit false or null in the file takes effect, absent
    settings keep the baseline's value, and no value comes from elsewhere. *)
Theorem deepMerge_settings bm om p v :
  unique_keys (YMap om) = true → is_map v = false →
  get p (YMap (deepMergeMaps bm om)) = Some v ↔
  get p (YMap om) = Some v ∨
  (get p (YMap bm) = Some v ∧ get p (YMap om) = None ∧ open_along (YMap om) p).
Proof.
  intros Ho Hm. rewrite <-merge_value_maps. split.
  - intros Hv. by apply merge_no_invention.
  - intros [?|(? & ? & ?)]; [by apply merge_overlay_wins|by apply merge_base_kept].
Qed.

(** A profile with one default-true flag and a list; the operator turns the
    flag off and says nothing about the list. *)
Definition demo_base : list (string * yaml) :=
  [("version", YNum 1);
   ("admission", YMap [("source", YMap [("require_https", YBool true);
                                        ("allowed_hosts", YSeq [YStr "github.com"])])])].
Definition demo_user : list (string * yaml) :=
  [("admission", YMap [("source", YMap [("require_https", YBool false)])])].

Lemma deepMerge_settings_witness :
  unique_keys (YMap demo_user) = true ∧
  get ["admission"; "source"; "require_https"] (YMap (deepMergeMaps demo_base demo_user))
    = Some (YBool false) ∧
  get ["version"] (YMap (deepMergeMaps demo_base demo_user)) = Some (YNum 1).
Proof.
  split_and!; [reflexivity|..].
  - apply (deepMerge_settings demo_base demo_user
      ["admission"; "source"; "require_https"] (YBool false)); [reflexivity..|].
    left. reflexivity.
  - apply (deepMerge_settings demo_base demo_user ["version"] (YNum 1)); [reflexivity..|].
    right. split_and!; [reflexivity..|].
    intros q w Hq Hw. destruct q as [|k q]; [by injection Hw as <-|].
    apply prefix_cons_inv_1 in Hq. subst k. discriminate.
Defined.
