(* ===== verification/Evaluator.v ===== *)
(** * The per-target policy evaluator

    [internal/policy/evaluator.go]: [AllowFor] with its bounded, expiring LRU
    cache of maintainer verdicts.  The cache is a doubly linked list of entry
    pointers (front first) and a map from keys to the same pointers; entries
    live in a heap that both share.  [abs] reads it as a list of
    (key, verdict, expiry) and the three critical sections refine the list
    operations [lru_lookup], [lru_store] and [lru_invalidate]. *)

From S2P Require Import Prelude Strings Policy.
#[local] Open Scope Z_scope.

(** [cacheKey{email, module}] *)
Abbreviation cacheKey := (string * string)%type.

Record cacheEntry := mkCacheEntry {
  ce_key : cacheKey;
  ce_verdict : bool;
  ce_expires : Z;
}.

(** A [*list.Element] is a pointer into the heap. *)
Abbreviation element := nat.

Record Cache := mkCache {
  c_list : list element;
  c_index : gmap cacheKey element;
  c_heap : gmap element cacheEntry;
  c_next : element;
}.

Definition emptyCache : Cache := mkCache [] ∅ ∅ 0%nat.

(** [container/list]: Remove, MoveToFront, PushFront and Back on pointers. *)
Definition list_remove (el : element) (l : list element) : list element :=
  filter (λ x, x ≠ el) l.
Definition move_to_front (el : element) (l : list element) : list element :=
  el :: list_remove el l.

(** ** The three critical sections *)

(** [e.list.Remove(el); delete(e.index, key)] *)
Definition drop_element (el : element) (key : cacheKey) (c : Cache) : Cache :=
  mkCache (list_remove el (c_list c)) (delete key (c_index c)) (c_heap c) (c_next c).

Definition lookupCache (now : Z) (key : cacheKey) (c : Cache) : option bool * Cache :=
  match c_index c !! key with
  | None => (None, c)
  | Some el =>
      match c_heap c !! el with
      | None => (None, c)
      | Some entry =>
          if ce_expires entry <? now then (None, drop_element el key c)
          else (Some (ce_verdict entry),
                mkCache (move_to_front el (c_list c)) (c_index c) (c_heap c) (c_next c))
      end
  end.

(** [for e.list.Len() > e.cacheMax { remove the back element }] *)
Fixpoint evict (fuel : nat) (cacheMax : nat) (c : Cache) : Cache :=
  match fuel with
  | O => c
  | S f =>
      if decide (cacheMax < length (c_list c))%nat then
        match last (c_list c) with
        | None => c
        | Some oldest =>
            match c_heap c !! oldest with
            | None => c
            | Some entry => evict f cacheMax (drop_element oldest (ce_key entry) c)
            end
        end
      else c
  end.

Definition storeCache (cacheTTL : Z) (cacheMax : nat) (now : Z)
    (key : cacheKey) (verdict : bool) (c : Cache) : Cache :=
  let entry := mkCacheEntry key verdict (now + cacheTTL) in
  match c_index c !! key with
  | Some el =>
      mkCache (move_to_front el (c_list c)) (c_index c) (<[el := entry]> (c_heap c)) (c_next c)
  | None =>
      let el := c_next c in
      let c' := mkCache (el :: c_list c) (<[key := el]> (c_index c))
                  (<[el := entry]> (c_heap c)) (S el) in
      evict (length (c_list c')) cacheMax c'
  end.

Definition InvalidateMaintainer (email module : string) (c : Cache) : Cache :=
  match c_index c !! (email, module) with
  | None => c
  | Some el =>
      match c_heap c !! el with
      | None => c
      | Some entry => drop_element el (ce_key entry) c
      end
  end.

(** ** AllowFor *)

Definition defaultEvaluatorCacheTTL : Z := 60 * 1000000000.
Definition defaultEvaluatorCacheMax : Z := 256.

Record EvaluatorConfig := mkEvaluatorConfig {
  ev_policy : Policy;
  ev_has_source : bool;
  ev_cacheTTL : Z;
  ev_cacheMax : nat;
}.

Definition NewEvaluator (p : Policy) (has_source : bool) (cacheTTL cacheMax : Z) : EvaluatorConfig :=
  mkEvaluatorConfig p has_source
    (if cacheTTL <=? 0 then defaultEvaluatorCacheTTL else cacheTTL)
    (Z.to_nat (if cacheMax <=? 0 then defaultEvaluatorCacheMax else cacheMax)).

(** What [AllowFor] does before it looks at the cache. *)
Inductive gate_check : Type :=
| Decided (verdict : bool)
| NeedsMaintainer (key : cacheKey).

Definition check_gate (cfg : EvaluatorConfig) (id : Identity) (action target : string) : gate_check :=
  match auth_Actions (pol_Auth (ev_policy cfg)) !! action with
  | None => Decided false
  | Some gate =>
      if decide (gate ≠ GateMaintainer) then Decided (Allow (Some (ev_policy cfg)) id action)
      else if negb (IsAuthenticated id) || bool_decide (id_Email id = "")
              || bool_decide (target = "") then Decided false
      else if negb (ev_has_source cfg) then Decided false
      else NeedsMaintainer (id_Email id, target)
  end.

(** One call that nothing interleaves with.  [now] is the clock at the lookup,
    [answer] what the maintainer source says, [now'] the clock at the store. *)
Definition AllowFor (cfg : EvaluatorConfig) (id : Identity) (action target : string)
    (now : Z) (answer : result string bool) (now' : Z) (c : Cache) : bool * Cache :=
  match check_gate cfg id action target with
  | Decided b => (b, c)
  | NeedsMaintainer key =>
      match lookupCache now key c with
      | (Some v, c') => (v, c')
      | (None, c') =>
          match answer with
          | Err _ => (false, c')
          | Ok got => (got, storeCache (ev_cacheTTL cfg) (ev_cacheMax cfg) now' key got c')
          end
      end
  end.

(** ** The abstract cache *)

Abbreviation lru := (list (cacheKey * (bool * Z))).

Definition without (k : cacheKey) (l : lru) : lru := filter (λ e, e.1 ≠ k) l.

Fixpoint find_key (k : cacheKey) (l : lru) : option (bool * Z) :=
  match l with
  | [] => None
  | (k', v) :: l' => if decide (k' = k) then Some v else find_key k l'
  end.

Definition lru_lookup (now : Z) (k : cacheKey) (l : lru) : option bool * lru :=
  match find_key k l with
  | None => (None, l)
  | Some (v, exp) => if exp <? now then (None, without k l)
                     else (Some v, (k, (v, exp)) :: without k l)
  end.

Definition lru_store (ttl : Z) (max : nat) (now : Z) (k : cacheKey) (v : bool) (l : lru) : lru :=
  take max ((k, (v, now + ttl)) :: without k l).

Definition lru_invalidate (k : cacheKey) (l : lru) : lru := without k l.

Definition entry_of (c : Cache) (el : element) : option (cacheKey * (bool * Z)) :=
  (λ e, (ce_key e, (ce_verdict e, ce_expires e))) <$> c_heap c !! el.

Definition abs (c : Cache) : lru := omap (entry_of c) (c_list c).

(** The list and the index hold the same entries, each under its own key. *)
Record cache_ok (max : nat) (c : Cache) : Prop := {
  ok_nodup : NoDup (c_list c);
  ok_index k el : c_index c !! k = Some el ↔
    el ∈ c_list c ∧ ∃ e, c_heap c !! el = Some e ∧ ce_key e = k;
  ok_heap el : el ∈ c_list c → is_Some (c_heap c !! el);
  ok_next el : el ∈ c_list c → (el < c_next c)%nat;
  ok_max : (length (c_list c) ≤ max)%nat;
}.

(** ** Refinement *)

Lemma list_remove_spec el l x : x ∈ list_remove el l ↔ x ∈ l ∧ x ≠ el.
Proof. unfold list_remove. rewrite list_elem_of_filter. naive_solver. Qed.

Lemma list_remove_notin el l : el ∉ l → list_remove el l = l.
Proof.
  unfold list_remove. induction l as [|x l IH]; [done|].
  rewrite filter_cons, not_elem_of_cons. intros [??].
  rewrite decide_True by done. by rewrite IH.
Qed.

Lemma length_list_remove el l :
  NoDup l → el ∈ l → length l = S (length (list_remove el l)).
Proof.
  intros Hnd [l1 [l2 ->]]%list_elem_of_split.
  apply NoDup_app in Hnd as (_ & Hd & Hnd2). apply NoDup_cons in Hnd2 as [Hel _].
  assert (el ∉ l1) by (intros H; apply (Hd el H); set_solver).
  unfold list_remove. rewrite filter_app, filter_cons, decide_False by naive_solver.
  fold (list_remove el l1) (list_remove el l2). rewrite !list_remove_notin by done.
  rewrite !length_app. simpl. lia.
Qed.

Lemma NoDup_list_remove el l : NoDup l → NoDup (list_remove el l).
Proof. apply NoDup_filter. Qed.

Lemma without_nothing k l : k ∉ fst <$> l → without k l = l.
Proof.
  unfold without. induction l as [|[k' v] l IH]; csimpl; [done|].
  rewrite not_elem_of_cons, filter_cons. intros [??].
  rewrite decide_True by (simpl; congruence). by rewrite IH.
Qed.

Lemma find_key_None k l : find_key k l = None ↔ k ∉ fst <$> l.
Proof.
  induction l as [|[k' v] l IH]; csimpl; [set_solver|]. case_decide; set_solver.
Qed.

Lemma without_subset k l e : e ∈ without k l ↔ e ∈ l ∧ e.1 ≠ k.
Proof. unfold without. rewrite list_elem_of_filter. naive_solver. Qed.

Lemma omap_entry_ext c c' (l : list element) :
  (∀ x, x ∈ l → c_heap c !! x = c_heap c' !! x) →
  omap (entry_of c) l = omap (entry_of c') l.
Proof.
  intros H. induction l as [|x l IH]; [done|].
  assert (entry_of c x = entry_of c' x) as Ex
    by (unfold entry_of; rewrite H; [done|by left]).
  assert (omap (entry_of c) l = omap (entry_of c') l) as IH'
    by (apply IH; intros; apply H; by right).
  simpl. rewrite Ex. destruct (entry_of c' x); [f_equal|]; exact IH'.
Qed.

Lemma length_omap_entry c (l : list element) : (length (omap (entry_of c) l) ≤ length l)%nat.
Proof.
  induction l as [|x l IH]; [done|]. simpl. destruct (entry_of c x); simpl; [by apply le_n_S|].
  by apply Nat.le_le_succ_r.
Qed.

Section cache_ok.
Context (max : nat) (c : Cache) (Hok : cache_ok max c).

Lemma index_None k : c_index c !! k = None ↔ k ∉ fst <$> abs c.
Proof.
  rewrite list_elem_of_fmap. split.
  - intros Hn ([k' [v x]] & -> & He). unfold abs in He.
    apply list_elem_of_omap in He as (el & Hel & He). unfold entry_of in He.
    destruct (c_heap c !! el) as [e|] eqn:E; [|done]. injection He as <- <- <-.
    assert (c_index c !! ce_key e = Some el) as H by (apply (ok_index _ _ Hok); eauto).
    simpl in Hn. congruence.
  - intros Hn. destruct (c_index c !! k) as [el|] eqn:E; [|done].
    apply (ok_index _ _ Hok) in E as (Hel & e & He & <-).
    destruct Hn. exists (ce_key e, (ce_verdict e, ce_expires e)). split; [done|].
    apply list_elem_of_omap. exists el. unfold entry_of. by rewrite He.
Qed.

(** The element a key points to is the only one with that key. *)
Lemma index_unique k el x e :
  c_index c !! k = Some el → x ∈ c_list c → c_heap c !! x = Some e →
  ce_key e = k ↔ x = el.
Proof.
  intros Hi Hx He. split.
  - intros <-. assert (c_index c !! ce_key e = Some x) by (apply (ok_index _ _ Hok); eauto).
    congruence.
  - intros ->. apply (ok_index _ _ Hok) in Hi as (_ & e' & He' & <-). congruence.
Qed.

Lemma find_key_abs k el e :
  c_index c !! k = Some el → c_heap c !! el = Some e →
  find_key k (abs c) = Some (ce_verdict e, ce_expires e).
Proof.
  intros Hi He. pose proof (λ x e' Hx, index_unique k el x e' Hi Hx) as Hu.
  apply (ok_index _ _ Hok) in Hi as (Hel & _).
  unfold abs. revert Hu Hel. generalize (c_list c). intros l Hu Hel.
  induction l as [|x l IH]; [set_solver|]. simpl. unfold entry_of at 1.
  destruct (c_heap c !! x) as [e'|] eqn:E; simpl.
  - case_decide as Hk.
    + assert (x = el) as -> by (apply (Hu x e'); [by left|done|done]). congruence.
    + apply IH; [intros; apply Hu; [by right|done]|]. apply elem_of_cons in Hel as [<-|?]; [|done].
      exfalso. apply Hk. apply (Hu el); [by left|done|done].
  - apply IH; [intros; apply Hu; [by right|done]|]. apply elem_of_cons in Hel as [<-|?]; [|done]. congruence.
Qed.

Lemma without_abs k el :
  c_index c !! k = Some el →
  without k (abs c) = omap (entry_of c) (list_remove el (c_list c)).
Proof.
  intros Hi. pose proof (λ x e' Hx, index_unique k el x e' Hi Hx) as Hu.
  unfold abs. revert Hu. generalize (c_list c). intros l Hu.
  induction l as [|x l IH]; [done|]. unfold list_remove. rewrite filter_cons.
  assert (IH' : without k (omap (entry_of c) l) = omap (entry_of c) (list_remove el l)).
  { apply IH. intros y e' Hy. apply Hu. by right. }
  destruct (c_heap c !! x) as [e'|] eqn:E.
  - assert (entry_of c x = Some (ce_key e', (ce_verdict e', ce_expires e'))) as Ex
      by (unfold entry_of; by rewrite E).
    simpl. rewrite Ex. unfold without. rewrite filter_cons. simpl.
    destruct (decide (ce_key e' ≠ k)) as [Hk|Hk].
    + rewrite decide_True; [|intros ->; apply Hk; apply (Hu el e'); [by left|done|done]].
      simpl. rewrite Ex. f_equal. exact IH'.
    + rewrite decide_False; [exact IH'|]. intros Hx. apply Hx.
      apply (Hu x e'); [by left|done|]. by apply dec_stable.
  - assert (entry_of c x = None) as Ex by (unfold entry_of; by rewrite E).
    simpl. rewrite Ex. destruct (decide (x ≠ el)); [|exact IH']. simpl. rewrite Ex.
    exact IH'.
Qed.

Lemma drop_element_ok k el :
  c_index c !! k = Some el →
  cache_ok max (drop_element el k c) ∧ abs (drop_element el k c) = without k (abs c).
Proof.
  intros Hi. split; [|by rewrite (without_abs _ _ Hi)].
  destruct Hok as [H1 H2 H3 H4 H5].
  assert (el ∈ c_list c) as Hel by (by apply H2 in Hi as [? _]).
  split; simpl.
  - by apply NoDup_list_remove.
  - intros k' x. rewrite lookup_delete_Some, H2, list_remove_spec. split.
    + intros (Hk & Hx & e & He & <-). split; [|by eauto]. split; [done|].
      intros ->. apply Hk. symmetry. by apply (index_unique k el el e).
    + intros ((Hx & Hne) & e & He & <-). split; [|by eauto].
      intros ->. apply Hne. by apply (index_unique (ce_key e) el x e).
  - intros x [??]%list_remove_spec. by apply H3.
  - intros x [??]%list_remove_spec. by apply H4.
  - rewrite (length_list_remove el) in H5 by done. lia.
Qed.

Lemma to_front_ok k el e e' :
  c_index c !! k = Some el → c_heap c !! el = Some e → ce_key e' = k →
  let c' := mkCache (move_to_front el (c_list c)) (c_index c) (<[el:=e']> (c_heap c)) (c_next c) in
  cache_ok max c' ∧ abs c' = (k, (ce_verdict e', ce_expires e')) :: without k (abs c).
Proof.
  intros Hi He <-. simpl.
  destruct Hok as [H1 H2 H3 H4 H5].
  assert (el ∈ c_list c) as Hel by (by apply H2 in Hi as [? _]).
  assert (∀ x, x ∈ move_to_front el (c_list c) ↔ x ∈ c_list c) as Hmv.
  { intros x. unfold move_to_front. rewrite elem_of_cons, list_remove_spec.
    destruct (decide (x = el)); naive_solver. }
  split.
  - split; simpl.
    + unfold move_to_front. constructor; [|by apply NoDup_list_remove].
      rewrite list_remove_spec. naive_solver.
    + intros k' x. rewrite Hmv, H2. apply and_iff_compat_l.
      destruct (decide (x = el)) as [->|].
      * rewrite lookup_insert_eq, He.
        assert (ce_key e = ce_key e') by (by apply (index_unique (ce_key e') el el e)).
        naive_solver.
      * by rewrite lookup_insert_ne.
    + intros x Hx%Hmv. destruct (decide (x = el)) as [->|].
      * rewrite lookup_insert_eq. by eauto.
      * rewrite lookup_insert_ne by done. by apply H3.
    + intros x Hx%Hmv. by apply H4.
    + unfold move_to_front. simpl. by rewrite <-length_list_remove.
  - unfold abs at 1. simpl. unfold entry_of at 1. simpl. rewrite lookup_insert_eq. simpl.
    f_equal. rewrite (without_abs _ _ Hi).
    assert (el ∉ list_remove el (c_list c)) as Hne by (rewrite list_remove_spec; naive_solver).
    apply omap_entry_ext. intros x Hx. simpl.
    rewrite lookup_insert_ne by (by intros ->). done.
Qed.
End cache_ok.

Lemma length_abs max c : cache_ok max c → length (abs c) = length (c_list c).
Proof.
  intros Hok. pose proof (ok_heap _ _ Hok) as Hh. unfold abs. revert Hh.
  generalize (c_list c). induction l as [|x l IH]; intros Hh; [done|]. simpl.
  destruct (Hh x) as [e He]; [by left|]. unfold entry_of at 1. rewrite He. simpl.
  f_equal. apply IH. intros. apply Hh. by right.
Qed.

Lemma cache_ok_le max max' c :
  cache_ok max c → (length (c_list c) ≤ max')%nat → cache_ok max' c.
Proof. intros []. by split. Qed.

Lemma evict_fits fuel max c : (length (c_list c) ≤ max)%nat → evict fuel max c = c.
Proof. intros H. destruct fuel; simpl; [done|]. by rewrite decide_False by lia. Qed.

Lemma evict_ok fuel max c :
  cache_ok (S max) c → (0 < fuel)%nat →
  cache_ok max (evict fuel max c) ∧ abs (evict fuel max c) = take max (abs c).
Proof.
  intros Hok Hf. pose proof (length_abs _ _ Hok) as Hlen.
  destruct (decide (length (c_list c) ≤ max)%nat) as [Hl|Hl].
  { rewrite evict_fits, take_ge by lia. split; [by eapply cache_ok_le|done]. }
  pose proof (ok_max _ _ Hok). destruct fuel as [|fuel]; [lia|]. simpl.
  rewrite decide_True by lia.
  destruct (last (c_list c)) as [old|] eqn:E.
  2: { apply last_None in E. rewrite E in Hl. simpl in Hl. lia. }
  apply last_Some in E as [l El].
  destruct (ok_heap _ _ Hok old) as [e He]; [rewrite El; set_solver|]. rewrite He.
  assert (c_index c !! ce_key e = Some old) as Hi.
  { apply (ok_index _ _ Hok). split; [rewrite El; set_solver|eauto]. }
  destruct (drop_element_ok _ _ Hok _ _ Hi) as [Hok' Habs].
  pose proof (ok_nodup _ _ Hok) as Hnd. rewrite El in Hnd.
  apply NoDup_app in Hnd as (_ & Hd & _).
  assert (list_remove old (c_list c) = l) as Hrm.
  { rewrite El. unfold list_remove. rewrite filter_app. cbn.
    rewrite decide_False by naive_solver. rewrite app_nil_r.
    apply list_remove_notin. intros Hin. apply (Hd old Hin). set_solver. }
  assert (length (c_list c) = S (length l)) as Hll by (rewrite El, length_app; simpl; lia).
  assert (length (c_list (drop_element old (ce_key e) c)) = length l) as Hl'
    by (cbn [drop_element c_list]; by rewrite Hrm).
  rewrite evict_fits by lia. split; [apply (cache_ok_le _ _ _ Hok'); lia|].
  rewrite Habs, (without_abs _ _ Hok _ _ Hi), Hrm. rewrite Hll in Hlen.
  unfold abs in Hlen |- *. rewrite El in Hlen |- *. rewrite omap_app in Hlen |- *.
  assert (omap (entry_of c) [old] = [(ce_key e, (ce_verdict e, ce_expires e))]) as Eo
    by (simpl; unfold entry_of; by rewrite He).
  rewrite Eo in Hlen |- *. rewrite length_app in Hlen. simpl in Hlen.
  rewrite take_app_length'; [done|lia].
Qed.

Lemma push_ok max c k v exp :
  cache_ok max c → c_index c !! k = None →
  let c' := mkCache (c_next c :: c_list c) (<[k := c_next c]> (c_index c))
              (<[c_next c := mkCacheEntry k v exp]> (c_heap c)) (S (c_next c)) in
  cache_ok (S max) c' ∧ abs c' = (k, (v, exp)) :: abs c.
Proof.
  intros Hok Hi. simpl. destruct Hok as [H1 H2 H3 H4 H5].
  assert (c_next c ∉ c_list c) as Hn by (intros H; apply H4 in H; lia).
  assert (∀ x, x ∈ c_list c → x ≠ c_next c) as Hne by (intros x Hx ->; done).
  split.
  - split; simpl.
    + by constructor.
    + intros k' x. rewrite elem_of_cons, lookup_insert_Some.
      destruct (decide (x = c_next c)) as [->|Hx].
      * rewrite lookup_insert_eq. split.
        -- intros [[-> _]|[? Hk']]; [eauto|]. apply H2 in Hk' as [Hk' _]. done.
        -- intros [_ (e & [= <-] & <-)]. by left.
      * rewrite lookup_insert_ne, H2 by done. split; [naive_solver|].
        intros [[?|Hl] (e & He & <-)]; [done|]. right. split; [|eauto].
        intros ->. assert (c_index c !! ce_key e = Some x) by (apply H2; eauto). congruence.
    + intros x [->|Hx]%elem_of_cons; [rewrite lookup_insert_eq; eauto|].
      rewrite lookup_insert_ne by (symmetry; auto). auto.
    + intros x [->|Hx]%elem_of_cons; [lia|]. apply H4 in Hx. lia.
    + lia.
  - unfold abs at 1. simpl. unfold entry_of at 1. simpl. rewrite lookup_insert_eq. simpl.
    f_equal. apply omap_entry_ext. intros x Hx. simpl.
    rewrite lookup_insert_ne by (symmetry; by apply Hne). done.
Qed.

Lemma lookupCache_refines max c now k :
  cache_ok max c →
  cache_ok max (lookupCache now k c).2 ∧
  (lookupCache now k c).1 = (lru_lookup now k (abs c)).1 ∧
  abs (lookupCache now k c).2 = (lru_lookup now k (abs c)).2.
Proof.
  intros Hok. unfold lookupCache, lru_lookup.
  destruct (c_index c !! k) as [el|] eqn:Hi.
  - pose proof (proj1 (ok_index _ _ Hok k el) Hi) as (Hel & e & He & Hk). rewrite He.
    rewrite (find_key_abs _ _ Hok _ _ _ Hi He). destruct (ce_expires e <? now); simpl.
    + by destruct (drop_element_ok _ _ Hok _ _ Hi).
    + pose proof (to_front_ok _ _ Hok k el e e Hi He Hk) as [Hok' Ha].
      rewrite insert_id in Hok', Ha by done. done.
  - rewrite (proj2 (find_key_None k (abs c))); [done|]. by eapply index_None.
Qed.

Lemma storeCache_refines ttl max c now k v :
  cache_ok max c →
  cache_ok max (storeCache ttl max now k v c) ∧
  abs (storeCache ttl max now k v c) = lru_store ttl max now k v (abs c).
Proof.
  intros Hok. unfold storeCache, lru_store.
  destruct (c_index c !! k) as [el|] eqn:Hi.
  - pose proof (proj1 (ok_index _ _ Hok k el) Hi) as (Hel & e & He & Hk).
    destruct (to_front_ok _ _ Hok k el e (mkCacheEntry k v (now + ttl)) Hi He eq_refl)
      as [Hok' Ha]. split; [done|]. rewrite Ha. simpl.
    rewrite take_ge; [done|]. simpl. rewrite (without_abs _ _ Hok _ _ Hi).
    pose proof (ok_max _ _ Hok) as Hm. rewrite (length_list_remove el) in Hm; [|by destruct Hok|done].
    etrans; [|exact Hm]. apply le_n_S, length_omap_entry.
  - destruct (push_ok _ _ k v (now + ttl) Hok Hi) as [Hok' Ha].
    destruct (evict_ok (length (c_next c :: c_list c)) max _ Hok') as [Hok'' Ha''];
      [simpl; lia|]. split; [exact Hok''|]. etrans; [exact Ha''|]. rewrite Ha.
    rewrite without_nothing; [done|]. by eapply index_None.
Qed.

Lemma InvalidateMaintainer_refines max c email module :
  cache_ok max c →
  cache_ok max (InvalidateMaintainer email module c) ∧
  abs (InvalidateMaintainer email module c) = lru_invalidate (email, module) (abs c).
Proof.
  intros Hok. unfold InvalidateMaintainer, lru_invalidate.
  destruct (c_index c !! (email, module)) as [el|] eqn:Hi.
  - pose proof (proj1 (ok_index _ _ Hok _ el) Hi) as (Hel & e & He & Hk). rewrite He, Hk.
    by apply drop_element_ok.
  - split; [done|]. rewrite without_nothing; [done|]. by eapply index_None.
Qed.

Lemma emptyCache_ok max : cache_ok max emptyCache.
Proof.
  split; simpl; [constructor| | | |lia]; [|set_solver..].
  intros k el. rewrite lookup_empty. set_solver.
Qed.

(** The pointer cache implements the list cache: in every well-formed state
    the lookup, the store and the invalidation return what the list operations
    return, leave the state they leave (an expired entry is dropped, a hit and
    a refreshed entry move to the front, a new entry evicts from the back) and
    keep the state well formed: list and index agree, no two entries share a
    key, and there are at most [cacheMax] of them. *)
Theorem cache_refines ttl max c now k v :
  cache_ok max c →
  (cache_ok max (lookupCache now k c).2 ∧
   (lookupCache now k c).1 = (lru_lookup now k (abs c)).1 ∧
   abs (lookupCache now k c).2 = (lru_lookup now k (abs c)).2) ∧
  (cache_ok max (storeCache ttl max now k v c) ∧
   abs (storeCache ttl max now k v c) = lru_store ttl max now k v (abs c)) ∧
  (cache_ok max (InvalidateMaintainer k.1 k.2 c) ∧
   abs (InvalidateMaintainer k.1 k.2 c) = lru_invalidate k (abs c)).
Proof.
  intros Hok. split; [by apply lookupCache_refines|].
  split; [by apply storeCache_refines|].
  destruct k as [email module]. by apply InvalidateMaintainer_refines.
Qed.

Lemma cache_refines_witness :
  cache_ok 2 emptyCache ∧
  abs (storeCache 60 2 5 ("a@x", "m") true emptyCache) = [(("a@x", "m"), (true, 65))].
Proof.
  split; [apply emptyCache_ok|].
  apply (cache_refines 60 2 emptyCache 5 ("a@x", "m") true (emptyCache_ok 2)).
Defined.

(** ** Concurrent callers

    The mutex makes the three cache operations atomic, and nothing else: between
    its lookup and its store a call waits for the maintainer source.  A state
    carries, besides the cache, what each call in flight waits for and the
    history of events, newest first. *)

Inductive event : Type :=
| EvAnswer (t : Z) (k : cacheKey) (v : bool)
| EvStore (t : Z) (k : cacheKey) (v : bool)
| EvInvalidate (t : Z) (k : cacheKey)
| EvHit (t : Z) (k : cacheKey) (v : bool).

Inductive pending : Type :=
| Querying (k : cacheKey)
| Storing (k : cacheKey) (v : bool).

Record sys := mkSys {
  sy_cache : Cache;
  sy_pending : gmap nat pending;
  sy_hist : list event;
  sy_clock : Z;
}.

Definition sys_init (now : Z) : sys := mkSys emptyCache ∅ [] now.

Section steps.
Context (ttl : Z) (max : nat).

Inductive step (s : sys) : sys → Prop :=
| step_hit now k v c' :
    sy_clock s ≤ now → lookupCache now k (sy_cache s) = (Some v, c') →
    step s (mkSys c' (sy_pending s) (EvHit now k v :: sy_hist s) now)
| step_miss i now k c' :
    sy_clock s ≤ now → sy_pending s !! i = None → lookupCache now k (sy_cache s) = (None, c') →
    step s (mkSys c' (<[i := Querying k]> (sy_pending s)) (sy_hist s) now)
| step_answer i now k got :
    sy_clock s ≤ now → sy_pending s !! i = Some (Querying k) →
    step s (mkSys (sy_cache s) (<[i := Storing k got]> (sy_pending s))
              (EvAnswer now k got :: sy_hist s) now)
| step_answer_error i now k :
    sy_clock s ≤ now → sy_pending s !! i = Some (Querying k) →
    step s (mkSys (sy_cache s) (delete i (sy_pending s)) (sy_hist s) now)
| step_store i now k v :
    sy_clock s ≤ now → sy_pending s !! i = Some (Storing k v) →
    step s (mkSys (storeCache ttl max now k v (sy_cache s)) (delete i (sy_pending s))
              (EvStore now k v :: sy_hist s) now)
| step_invalidate now k :
    sy_clock s ≤ now →
    step s (mkSys (InvalidateMaintainer k.1 k.2 (sy_cache s)) (sy_pending s)
              (EvInvalidate now k :: sy_hist s) now).

Definition reachable (now : Z) : sys → Prop := rtc step (sys_init now).

(** The verdict [v] for [k] was stored at [ts] from an earlier answer of the
    source, and [k] has not been invalidated since. *)
Definition justified (h : list event) (k : cacheKey) (v : bool) (ts : Z) : Prop :=
  ∃ h1 h2 ta, h = h1 ++ EvStore ts k v :: h2 ∧ (∀ t, EvInvalidate t k ∉ h1) ∧
              EvAnswer ta k v ∈ h2 ∧ ta ≤ ts.

Record inv (s : sys) : Prop := {
  inv_cache : cache_ok max (sy_cache s);
  inv_entries k v exp :
    (k, (v, exp)) ∈ abs (sy_cache s) →
    justified (sy_hist s) k v (exp - ttl) ∧ exp - ttl ≤ sy_clock s;
  inv_pending i k v :
    sy_pending s !! i = Some (Storing k v) →
    ∃ ta, EvAnswer ta k v ∈ sy_hist s ∧ ta ≤ sy_clock s;
}.

Lemma justified_cons e h k v ts :
  (∀ t, e ≠ EvInvalidate t k) → justified h k v ts → justified (e :: h) k v ts.
Proof.
  intros He (h1 & h2 & ta & -> & Hn & Ha & Hle).
  exists (e :: h1), h2, ta. split_and!; [done| |done..].
  intros t [E|Hin]%elem_of_cons; [by apply (He t)|by apply (Hn t)].
Qed.

Lemma lru_lookup_subset now k l e : e ∈ (lru_lookup now k l).2 → e ∈ l.
Proof.
  unfold lru_lookup. destruct (find_key k l) as [[v x]|] eqn:E; [|done].
  assert ((k, (v, x)) ∈ l) as Hin.
  { revert E. induction l as [|[k' y] l IH]; simpl; [done|].
    case_decide; [|intros; right; auto]. intros [= ->]. subst. by left. }
  destruct (x <? now); simpl; [by intros [? _]%without_subset|].
  intros [->|[? _]%without_subset]%elem_of_cons; done.
Qed.

Lemma lru_lookup_hit now k l v :
  (lru_lookup now k l).1 = Some v → ∃ exp, (k, (v, exp)) ∈ l ∧ now ≤ exp.
Proof.
  unfold lru_lookup. destruct (find_key k l) as [[v' x]|] eqn:E; [|done].
  destruct (Z.ltb_spec x now); simpl; [done|]. intros [= ->]. exists x. split; [|done].
  revert E. induction l as [|[k' y] l IH]; simpl; [done|].
  case_decide; [|intros; right; auto]. intros [= ->]. subst. by left.
Qed.

Lemma inv_step s s' : inv s → step s s' → inv s'.
Proof.
  intros [Hc He Hp] Hstep.
  assert (Hlook : ∀ now k, sy_clock s ≤ now → ∀ k' v' x,
    (k', (v', x)) ∈ abs (lookupCache now k (sy_cache s)).2 →
    justified (sy_hist s) k' v' (x - ttl) ∧ x - ttl ≤ now).
  { intros now k Hn k' v' x Hin.
    rewrite (proj2 (proj2 (lookupCache_refines _ _ now k Hc))) in Hin.
    apply lru_lookup_subset, He in Hin as [??]. split; [done|lia]. }
  destruct Hstep as [now k v c' Hn Hl|i now k c' Hn Hi Hl|i now k got Hn Hi|i now k Hn Hi
    |i now k v Hn Hi|now k Hn].
  - pose proof (lookupCache_refines _ _ now k Hc) as (Hok & _). specialize (Hlook now k Hn).
    rewrite Hl in Hok, Hlook. split; simpl.
    + done.
    + intros k' v' x [Hj ?]%Hlook. split; [by apply justified_cons|done].
    + intros i k' v' (ta & ? & ?)%Hp. exists ta. split; [by right|lia].
  - pose proof (lookupCache_refines _ _ now k Hc) as (Hok & _). specialize (Hlook now k Hn).
    rewrite Hl in Hok, Hlook. split; simpl; [done|done|].
    intros j k' v' [[_ ?]|[_ (ta & ? & ?)%Hp]]%lookup_insert_Some; [done|].
    exists ta. split; [done|lia].
  - split; simpl; [done| |].
    + intros k' v' x [Hj ?]%He. split; [by apply justified_cons|lia].
    + intros j k' v' [[_ [= <- <-]]|[_ (ta & ? & ?)%Hp]]%lookup_insert_Some.
      * exists now. split; [by left|lia].
      * exists ta. split; [by right|lia].
  - split; simpl; [done| |].
    + intros k' v' x [Hj ?]%He. split; [done|lia].
    + intros j k' v' [_ (ta & ? & ?)%Hp]%lookup_delete_Some. exists ta. split; [done|lia].
  - pose proof (storeCache_refines ttl _ _ now k v Hc) as [Hok Ha]. split; simpl; [done| |].
    + intros k' v' x Hin. rewrite Ha in Hin. unfold lru_store in Hin.
      apply elem_of_take in Hin as (n & Hin & _). apply list_elem_of_lookup_2 in Hin.
      apply elem_of_cons in Hin as [[= -> -> ->]|[Hin _]%without_subset].
      * replace (now + ttl - ttl) with now by lia. split; [|lia].
        apply Hp in Hi as (ta & ? & ?). exists [], (sy_hist s), ta.
        split_and!; [done| |done|lia]. intros t Ht. by apply elem_of_nil in Ht.
      * apply He in Hin as [??]. split; [by apply justified_cons|lia].
    + intros j k' v' [_ (ta & ? & ?)%Hp]%lookup_delete_Some.
      exists ta. split; [by right|lia].
  - pose proof (InvalidateMaintainer_refines _ _ k.1 k.2 Hc) as [Hok Ha].
    rewrite <-surjective_pairing in Ha. split; simpl; [done| |].
    + intros k' v' x Hin. rewrite Ha in Hin. apply without_subset in Hin as [Hin Hne].
      apply He in Hin as [??]. split; [|lia]. apply justified_cons; [|done].
      intros t [= _ <-]. done.
    + intros i k' v' (ta & ? & ?)%Hp. exists ta. split; [by right|lia].
Qed.

Lemma inv_reachable now s : reachable now s → inv s.
Proof.
  intros Hr. cut (inv (sys_init now)).
  - revert Hr. unfold reachable. induction 1; eauto using inv_step.
  - split; simpl; [apply emptyCache_ok| |by intros].
    intros k v x H. by apply elem_of_nil in H.
Qed.

(** Every verdict served from the cache, under any interleaving of callers and
    invalidations, is an answer the source gave: it was stored at most the time
    to live before the hit, after that answer, and its key was not invalidated
    between the store and the hit. *)
Theorem hit_justified now0 s s' now k v :
  reachable now0 s → step s s' → sy_hist s' = EvHit now k v :: sy_hist s →
  ∃ ts, justified (sy_hist s) k v ts ∧ ts ≤ now ≤ ts + ttl.
Proof.
  intros Hr%inv_reachable Hstep Hh. destruct Hr as [Hc He Hp].
  destruct Hstep as [now' k' v' c' Hn Hl|i now' k' c' Hn Hi Hl|i now' k' got Hn Hi|i now' k' Hn Hi
    |i now' k' v' Hn Hi|now' k' Hn]; simpl in Hh; try discriminate.
  - injection Hh as -> -> ->.
    pose proof (lookupCache_refines _ _ now k Hc) as (_ & Heq & _). rewrite Hl in Heq.
    symmetry in Heq. apply lru_lookup_hit in Heq as (x & Hin & Hx).
    apply He in Hin as [??]. exists (x - ttl). split; [done|lia].
  - apply (f_equal length) in Hh. simpl in Hh. lia.
  - apply (f_equal length) in Hh. simpl in Hh. lia.
Qed.
End steps.

(** A call that misses at 1, gets its answer at 2 and stores it at 4; the next
    call hits at 5. *)
Definition demo_key : cacheKey := ("a@x", "m").

Definition demo_stored : sys :=
  mkSys (storeCache 60 2 4 demo_key true emptyCache) ∅
    [EvStore 4 demo_key true; EvAnswer 2 demo_key true] 4.

Lemma demo_stored_reachable : reachable 60 2 0 demo_stored.
Proof.
  eapply rtc_l. { apply (step_miss _ _ _ 0%nat 1 demo_key emptyCache); [done..|reflexivity]. }
  eapply rtc_l. { apply (step_answer _ _ _ 0%nat 2 demo_key true); [done|reflexivity]. }
  eapply rtc_l. { apply (step_store _ _ _ 0%nat 4 demo_key true); [done|reflexivity]. }
  apply rtc_refl.
Qed.

Lemma hit_justified_witness :
  reachable 60 2 0 demo_stored ∧
  ∃ ts, justified [EvStore 4 demo_key true; EvAnswer 2 demo_key true] demo_key true ts ∧
        ts ≤ 5 ≤ ts + 60.
Proof.
  split; [exact demo_stored_reachable|].
  refine (hit_justified 60 2 0 demo_stored
    (mkSys (lookupCache 5 demo_key (sy_cache demo_stored)).2 ∅
       (EvHit 5 demo_key true :: sy_hist demo_stored) 5)
    5 demo_key true demo_stored_reachable _ eq_refl).
  refine (step_hit 60 2 demo_stored 5 demo_key true _ _ _); [done|reflexivity].
Defined.

(** An invalidation does not reach a call in flight: a verdict the source gave
    at 2 is stored at 4 and served at 5 although its key was invalidated at 3,
    and nothing removes it before its expiry. *)
Theorem stale_after_invalidate :
  ∃ s, reachable 60 2 0 s ∧
    sy_hist s = [EvHit 5 demo_key true; EvStore 4 demo_key true;
                 EvInvalidate 3 demo_key; EvAnswer 2 demo_key true] ∧
    (lookupCache 64 demo_key (sy_cache s)).1 = Some true.
Proof.
  eexists. split; [|split].
  - eapply rtc_l. { apply (step_miss _ _ _ 0%nat 1 demo_key emptyCache); [done..|reflexivity]. }
    eapply rtc_l. { apply (step_answer _ _ _ 0%nat 2 demo_key true); [done|reflexivity]. }
    eapply rtc_l. { apply (step_invalidate _ _ _ 3 demo_key); done. }
    eapply rtc_l. { apply (step_store _ _ _ 0%nat 4 demo_key true); [done|reflexivity]. }
    eapply rtc_l. { apply (step_hit _ _ _ 5 demo_key true); [done|reflexivity]. }
    apply rtc_refl.
  - reflexivity.
  - reflexivity.
Qed.

(** ** Decisions *)

(** The verdict the cache serves at [now]. *)
Definition fresh (now : Z) (k : cacheKey) (l : lru) : option bool :=
  match find_key k l with
  | Some (v, exp) => if exp <? now then None else Some v
  | None => None
  end.

Lemma lru_lookup_fresh now k l : (lru_lookup now k l).1 = fresh now k l.
Proof.
  unfold lru_lookup, fresh. destruct (find_key k l) as [[v x]|]; [|done].
  by destruct (x <? now).
Qed.

Lemma check_gate_spec cfg id action target :
  match check_gate cfg id action target with
  | Decided true => ∃ gate, auth_Actions (pol_Auth (ev_policy cfg)) !! action = Some gate ∧
      gate_grants id gate
  | Decided false =>
      (∀ gate, auth_Actions (pol_Auth (ev_policy cfg)) !! action = Some gate →
        gate ≠ GateMaintainer → ¬ gate_grants id gate) ∧
      (auth_Actions (pol_Auth (ev_policy cfg)) !! action = Some GateMaintainer →
        IsAuthenticated id = false ∨ id_Email id = "" ∨ target = "" ∨ ev_has_source cfg = false)
  | NeedsMaintainer key =>
      auth_Actions (pol_Auth (ev_policy cfg)) !! action = Some GateMaintainer ∧
      IsAuthenticated id = true ∧ id_Email id ≠ "" ∧ target ≠ "" ∧ ev_has_source cfg = true ∧
      key = (id_Email id, target)
  end.
Proof.
  unfold check_gate.
  destruct (auth_Actions (pol_Auth (ev_policy cfg)) !! action) as [gate|] eqn:E; [|done].
  case_decide as Hg.
  - assert (Allow (Some (ev_policy cfg)) id action = true ↔ gate_grants id gate) as Ha.
    { rewrite Allow_iff'. split; [|by eauto 10].
      intros (pol & g & [= <-] & Hl & ?). rewrite E in Hl. by injection Hl as <-. }
    destruct (Allow _ _ _).
    + exists gate. split; [done|]. by apply Ha.
    + split; [|congruence]. intros g [= <-] _ H%Ha. done.
  - subst gate.
    destruct (IsAuthenticated id) eqn:Hi; simpl; [|split; [congruence|by left]].
    case_bool_decide; simpl; [split; [congruence|auto]|].
    case_bool_decide; simpl; [split; [congruence|auto]|].
    destruct (ev_has_source cfg) eqn:Hs; simpl; [done|]. split; [congruence|auto].
Qed.

(** An uninterrupted [AllowFor] grants exactly when a global gate grants, or
    the gate is [maintainer], the caller is authenticated with an e-mail
    address, the target is named, a source is wired, and the cache holds a
    fresh positive verdict or, having no fresh verdict, the source confirms.
    A source error refuses and adds nothing to the cache. *)
Theorem AllowFor_decides cfg id action target now answer now' c :
  cache_ok (ev_cacheMax cfg) c →
  let key := (id_Email id, target) in
  let actions := auth_Actions (pol_Auth (ev_policy cfg)) in
  ((AllowFor cfg id action target now answer now' c).1 = true ↔
   (∃ gate, actions !! action = Some gate ∧ gate_grants id gate) ∨
   (actions !! action = Some GateMaintainer ∧ IsAuthenticated id = true ∧
    id_Email id ≠ "" ∧ target ≠ "" ∧ ev_has_source cfg = true ∧
    (fresh now key (abs c) = Some true ∨
     (fresh now key (abs c) = None ∧ answer = Ok true)))) ∧
  (is_ok answer = false →
   ∀ e, e ∈ abs (AllowFor cfg id action target now answer now' c).2 → e ∈ abs c).
Proof.
  intros Hc. cbv zeta. unfold AllowFor.
  pose proof (check_gate_spec cfg id action target) as Hg.
  destruct (check_gate cfg id action target) as [[|]|key].
  - split; [|done]. simpl. naive_solver.
  - split; [|done]. simpl. split; [done|]. destruct Hg as [H1 H2].
    intros [(g & Hg & Hgr)|(Hg & ? & ? & ? & ? & _)].
    + destruct (decide (g = GateMaintainer)) as [->|]; [|exfalso; by eapply H1].
      apply gate_grants_inv in Hgr as [?|[[??]|(? & ? & ? & ?)]]; done.
    + destruct (H2 Hg) as [?|[?|[?|?]]]; congruence.
  - destruct Hg as (Hg & Hi & He & Ht & Hs & ->).
    pose proof (lookupCache_refines _ _ now (id_Email id, target) Hc) as (_ & Hl & Ha).
    rewrite lru_lookup_fresh in Hl.
    destruct (lookupCache now (id_Email id, target) c) as [[v|] c']; simpl in Hl, Ha;
      rewrite <-Hl.
    + split; simpl; [|intros _ e; rewrite Ha; apply lru_lookup_subset].
      split; [intros ->; right; auto 10|].
      intros [(g & Hg' & Hgr)|(_ & _ & _ & _ & _ & [[= ->]|[[=] _]])]; [|done].
      rewrite Hg in Hg'. injection Hg' as <-.
      apply gate_grants_inv in Hgr as [?|[[??]|(? & ? & ? & ?)]]; done.
    + assert (∀ b, (b = true ↔ answer = Ok true) → (b = true ↔
        (∃ gate, auth_Actions (pol_Auth (ev_policy cfg)) !! action = Some gate ∧ gate_grants id gate) ∨
        auth_Actions (pol_Auth (ev_policy cfg)) !! action = Some GateMaintainer ∧
        IsAuthenticated id = true ∧ id_Email id ≠ "" ∧ target ≠ "" ∧ ev_has_source cfg = true ∧
        (None = Some true ∨ (@None bool = None ∧ answer = Ok true)))) as Hb.
      { intros b Hb. rewrite Hb. split; [auto 12|].
        intros [(g & Hg' & Hgr)|(_ & _ & _ & _ & _ & [[=]|[_ ?]])]; [|done].
        rewrite Hg in Hg'. injection Hg' as <-.
        apply gate_grants_inv in Hgr as [?|[[??]|(? & ? & ? & ?)]]; done. }
      destruct answer as [got|e]; simpl.
      * split; [|done]. apply Hb. naive_solver.
      * split; [apply Hb; naive_solver|]. intros _ x. rewrite Ha. apply lru_lookup_subset.
Qed.

Definition demo_policy : Policy :=
  mkPolicy 1 "strict"
    (mkAuth {["maintain_module" := GateMaintainer]} (mkAnonymousAbuse "" "" false) "" 0 "")
    (pol_Admission zeroPolicy) (pol_Naming zeroPolicy) (pol_Maintainers zeroPolicy)
    (pol_Audit zeroPolicy) (pol_MCP zeroPolicy) (pol_Git zeroPolicy) (pol_Content zeroPolicy)
    (pol_Seed zeroPolicy).

Lemma AllowFor_decides_witness :
  cache_ok 256 emptyCache ∧
  (AllowFor (NewEvaluator demo_policy true 0 0) (mkIdentity "a" "a@x" [] SourceHeader)
     "maintain_module" "m" 5 (Ok true) 6 emptyCache).1 = true.
Proof.
  split; [apply emptyCache_ok|].
  apply (AllowFor_decides (NewEvaluator demo_policy true 0 0) (mkIdentity "a" "a@x" [] SourceHeader)
     "maintain_module" "m" 5 (Ok true) 6 emptyCache); [apply emptyCache_ok|].
  right. split; [reflexivity|]. split; [reflexivity|]. split; [done|]. split; [done|].
  split; [reflexivity|]. right. split; reflexivity.
Defined.
