(* ===== verification/AuditTrail.v ===== *)
(** * The audit trail

    [internal/store/audit.go] over the [audit_events] table, and the two daemons
    of [internal/audit]: retention ([retention.go]) and webhook delivery
    ([webhook.go]).  A SQL statement is one atomic function on the table;
    [fault] is the error the database reports for it, if any. *)

From S2P Require Import Prelude Strings Timestamp.

Record AuditEvent := mkAuditEvent {
  ev_ID : Z;
  ev_Timestamp : option Z;
  ev_Kind : string;
  ev_Source : string;
  ev_Module : string;
  ev_Version : string;
  ev_OK : bool;
  ev_DurationMs : Z;
  ev_Error : string;
  ev_Payload : string;
  ev_UserID : string;
}.

Record AuditRow := mkAuditRow {
  au_ts : string;
  au_kind : string;
  au_source : string;
  au_module : option string;
  au_version : option string;
  au_ok : Z;
  au_duration_ms : option Z;
  au_error : option string;
  au_payload : option string;
  au_user_id : option string;
}.

Record AuditDb := mkAuditDb {
  au_rows : gmap Z AuditRow;
  au_last_id : Z;
}.

Definition emptyAudit : AuditDb := mkAuditDb ∅ 0%Z.

(** ** Writing *)

Definition null_if_empty (s : string) : option string :=
  if decide (s = "") then None else Some s.

Definition auditRow (now : Z) (ev : AuditEvent) : AuditRow :=
  mkAuditRow (fmt_time (default now (ev_Timestamp ev))) (ev_Kind ev)
    (if decide (ev_Source ev = "") then "unknown" else ev_Source ev)
    (null_if_empty (ev_Module ev)) (null_if_empty (ev_Version ev))
    (if ev_OK ev then 1 else 0)%Z
    (if decide (0 < ev_DurationMs ev)%Z then Some (ev_DurationMs ev) else None)
    (null_if_empty (ev_Error ev))
    (if decide (ev_Payload ev = "" ∨ ev_Payload ev = "null") then None else Some (ev_Payload ev))
    (null_if_empty (ev_UserID ev)).

Definition RecordAudit (fault : option string) (now : Z) (ev : AuditEvent) (db : AuditDb)
    : result string unit * AuditDb :=
  match fault with
  | Some e => (Err ("insert audit_events: " +:+ e), db)
  | None =>
      let id := (au_last_id db + 1)%Z in
      (Ok tt, mkAuditDb (<[id := auditRow now ev]> (au_rows db)) id)
  end.

(** ** Reading *)

Definition scanAuditRow (x : Z * AuditRow) : AuditEvent :=
  mkAuditEvent x.1 (parse_time (au_ts x.2)) (au_kind x.2) (au_source x.2)
    (default "" (au_module x.2)) (default "" (au_version x.2)) (bool_decide (au_ok x.2 ≠ 0%Z))
    (default 0%Z (au_duration_ms x.2)) (default "" (au_error x.2)) (default "" (au_payload x.2))
    (default "" (au_user_id x.2)).

(** [ORDER BY id ASC] *)
Definition smaller_id (x y : Z * AuditRow) : bool := (x.1 <? y.1)%Z.

(** [ORDER BY ts DESC, id DESC] *)
Definition later (x y : Z * AuditRow) : bool :=
  lex_less (λ x : Z * AuditRow, au_ts x.2) (λ a b, String.ltb b a)
    (λ x y : Z * AuditRow, (y.1 <? x.1)%Z) x y.

Definition after_limit (limit : Z) : nat :=
  Z.to_nat (if (limit <=? 0)%Z then 100 else if (1000 <? limit)%Z then 1000 else limit)%Z.

Definition select_after (afterID limit : Z) (db : AuditDb) : list (Z * AuditRow) :=
  page smaller_id (λ x, (afterID <? x.1)%Z) (after_limit limit) (map_to_list (au_rows db)).

Definition ListAuditAfterID (fault : option string) (afterID limit : Z) (db : AuditDb)
    : result string (list AuditEvent) :=
  match fault with
  | Some e => Err ("list audit_events after id: " +:+ e)
  | None => Ok (scanAuditRow <$> select_after afterID limit db)
  end.

(** [SELECT MAX(id)], 0 on the empty table. *)
Definition MaxAuditID (fault : option string) (db : AuditDb) : result string Z :=
  match fault with
  | Some e => Err ("max audit_events.id: " +:+ e)
  | None =>
      match (map_to_list (au_rows db)).*1 with
      | [] => Ok 0%Z
      | id :: ids => Ok (foldr Z.max id ids)
      end
  end.

Record AuditQuery := mkAuditQuery {
  aq_Kinds : list string;
  aq_Source : string;
  aq_Module : string;
  aq_Since : option Z;
  aq_Limit : Z;
}.

Definition audit_limit (limit : Z) : nat :=
  Z.to_nat (if (limit <=? 0)%Z then 100 else if (10000 <? limit)%Z then 10000 else limit)%Z.

Definition audit_matches (q : AuditQuery) (x : Z * AuditRow) : bool :=
  (bool_decide (aq_Kinds q = []) || bool_decide (au_kind x.2 ∈ aq_Kinds q)) &&
  (bool_decide (aq_Source q = "") || bool_decide (au_source x.2 = aq_Source q)) &&
  (bool_decide (aq_Module q = "") || bool_decide (au_module x.2 = Some (aq_Module q))) &&
  match aq_Since q with
  | None => true
  | Some t => negb (String.ltb (au_ts x.2) (fmt_time t))
  end.

Definition ListAudit (fault : option string) (q : AuditQuery) (db : AuditDb)
    : result string (list AuditEvent) :=
  match fault with
  | Some e => Err ("list audit_events: " +:+ e)
  | None => Ok (scanAuditRow <$>
      page later (audit_matches q) (audit_limit (aq_Limit q)) (map_to_list (au_rows db)))
  end.

(** ** Retention *)

(** [DELETE FROM audit_events WHERE ts < ?] with the cutoff [now - olderThan]. *)
Definition PruneAudit (fault : option string) (now olderThan : Z) (db : AuditDb)
    : result string Z * AuditDb :=
  if (olderThan <=? 0)%Z then (Ok 0%Z, db)
  else
    match fault with
    | Some e => (Err ("prune audit_events: " +:+ e), db)
    | None =>
        let old x := String.ltb (au_ts x) (fmt_time (now - olderThan)) in
        (Ok (Z.of_nat (length (filter (λ x, old x.2 = true) (map_to_list (au_rows db))))),
         mkAuditDb (filter (λ x, old x.2 = false) (au_rows db)) (au_last_id db))
    end.

(** [time.Duration(d.retainDays) * 24 * time.Hour] in 64-bit arithmetic. *)
Definition retain_duration (retainDays : Z) : Z := wrap64 (wrap64 (retainDays * 24) * 3600000000000).

(** One sweep of the retention daemon; [Run] does nothing for [retain_days <= 0]. *)
Definition retention_sweep (fault : option string) (now retainDays : Z) (db : AuditDb) : AuditDb :=
  if (retainDays <=? 0)%Z then db
  else (PruneAudit fault now (retain_duration retainDays) db).2.

(** ** Webhook delivery *)

Record Webhook := mkWebhook {
  wh_url : string;
  wh_batchSize : Z;
  wh_watermark : Z;
  wh_posted : list AuditEvent;
}.

Definition defaultWebhookBatchSize : Z := 100.

Definition NewWebhookDaemon (url : string) (batchSize : Z) (max : result string Z) : Webhook :=
  mkWebhook url (if (batchSize <=? 0)%Z then defaultWebhookBatchSize else batchSize)
    (if decide (url ≠ "") then match max with Ok m => m | Err _ => 0%Z end else 0%Z) [].

(** The loop of [sweep]: POST, then advance the watermark, whatever the POST
    did.  [polls] says before which events the context is still live. *)
Fixpoint deliver_all (events : list AuditEvent) (polls : list bool) (d : Webhook) : Webhook :=
  match events, polls with
  | ev :: events', true :: polls' =>
      deliver_all events' polls'
        (mkWebhook (wh_url d) (wh_batchSize d)
           (if (wh_watermark d <? ev_ID ev)%Z then ev_ID ev else wh_watermark d)
           (wh_posted d ++ [ev]))
  | _, _ => d
  end.

Definition webhook_sweep (fault : option string) (polls : list bool) (db : AuditDb) (d : Webhook)
    : Webhook :=
  match ListAuditAfterID fault (wh_watermark d) (wh_batchSize d) db with
  | Err _ => d
  | Ok events => deliver_all events polls d
  end.

(** ** Well-formed tables *)

Definition audit_row_ok (r : AuditRow) : Prop :=
  ∃ t, time_ok t ∧ au_ts r = fmt_time t.

Definition audit_ok (db : AuditDb) : Prop :=
  (0 ≤ au_last_id db)%Z ∧
  (∀ id r, au_rows db !! id = Some r → (0 < id ≤ au_last_id db)%Z) ∧
  map_Forall (λ _ r, audit_row_ok r) (au_rows db).

Definition event_ok (now : Z) (ev : AuditEvent) : Prop := time_ok (default now (ev_Timestamp ev)).

Lemma emptyAudit_ok : audit_ok emptyAudit.
Proof.
  split_and!; [done| |apply map_Forall_empty]. intros id r. simpl. by rewrite lookup_empty.
Qed.

Lemma RecordAudit_ok fault now ev db :
  event_ok now ev → audit_ok db → audit_ok (RecordAudit fault now ev db).2.
Proof.
  intros Ht (H0 & Hids & Hrows). destruct fault; [done|]. split_and!; simpl; [lia| |].
  - intros id r [[<- _]|[_ Hr%Hids]]%lookup_insert_Some; lia.
  - apply map_Forall_insert_2; [|done]. eexists. split; [exact Ht|done].
Qed.

Lemma PruneAudit_rows fault now olderThan db :
  (PruneAudit fault now olderThan db).2 = db ∨
  ∃ P : AuditRow → bool, (PruneAudit fault now olderThan db).2 =
    mkAuditDb (filter (λ x, P x.2 = false) (au_rows db)) (au_last_id db).
Proof.
  unfold PruneAudit. destruct (olderThan <=? 0)%Z; [by left|]. destruct fault; [by left|].
  right. by eexists (λ r, String.ltb (au_ts r) _).
Qed.

Lemma PruneAudit_subset fault now olderThan db id r :
  au_rows (PruneAudit fault now olderThan db).2 !! id = Some r → au_rows db !! id = Some r.
Proof.
  destruct (PruneAudit_rows fault now olderThan db) as [->|[P ->]]; [done|].
  simpl. by intros [? _]%map_lookup_filter_Some.
Qed.

Lemma PruneAudit_last_id fault now olderThan db :
  au_last_id (PruneAudit fault now olderThan db).2 = au_last_id db.
Proof. by destruct (PruneAudit_rows fault now olderThan db) as [->|[P ->]]. Qed.

Lemma PruneAudit_ok fault now olderThan db :
  audit_ok db → audit_ok (PruneAudit fault now olderThan db).2.
Proof.
  intros (H0 & Hids & Hrows). split_and!; rewrite ?PruneAudit_last_id; [done| |].
  - intros id r Hr%PruneAudit_subset. by eapply Hids.
  - intros id r Hr%PruneAudit_subset. by eapply Hrows.
Qed.

(** ** Round trip and retention *)

(** An event read back is the event that was recorded: with the next id, the
    given timestamp or the clock's, an unnamed source called unknown, the JSON
    text null dropped and a duration kept only when positive. *)
Theorem record_list_roundtrip now ev db :
  event_ok now ev →
  let id := (au_last_id db + 1)%Z in
  let db' := (RecordAudit None now ev db).2 in
  ∃ row, au_rows db' !! id = Some row ∧
    scanAuditRow (id, row) =
      mkAuditEvent id (Some (default now (ev_Timestamp ev))) (ev_Kind ev)
        (if decide (ev_Source ev = "") then "unknown" else ev_Source ev) (ev_Module ev)
        (ev_Version ev) (ev_OK ev) (Z.max 0 (ev_DurationMs ev)) (ev_Error ev)
        (if decide (ev_Payload ev = "null") then "" else ev_Payload ev) (ev_UserID ev).
Proof.
  intros Ht. simpl. eexists. rewrite lookup_insert_eq. split; [done|].
  unfold scanAuditRow, auditRow. simpl. rewrite parse_fmt_time by exact Ht.
  assert (∀ s, default "" (null_if_empty s) = s) as Hn
    by (intros s; unfold null_if_empty; by case_decide).
  rewrite !Hn. f_equal.
  - by destruct (ev_OK ev).
  - case_decide; simpl; lia.
  - repeat case_decide; simpl; naive_solver.
Qed.

Lemma record_list_roundtrip_witness :
  event_ok 7 (mkAuditEvent 0 None "bump" "" "m" "1" true (-3) "" "null" "") ∧
  ∃ row, au_rows (RecordAudit None 7 (mkAuditEvent 0 None "bump" "" "m" "1" true (-3) "" "null" "")
                    emptyAudit).2 !! 1%Z = Some row ∧
    scanAuditRow (1%Z, row) = mkAuditEvent 1 (Some 7%Z) "bump" "unknown" "m" "1" true 0 "" "" "".
Proof.
  assert (event_ok 7 (mkAuditEvent 0 None "bump" "" "m" "1" true (-3) "" "null" "")) as H
    by (apply (time_ok_small 7); lia).
  split; [exact H|]. exact (record_list_roundtrip 7 _ emptyAudit H).
Defined.

Definition event_time (r : AuditRow) : Z := default 0%Z (parse_time (au_ts r)).

(** Retention: for a positive age the sweep deletes exactly the events older
    than the cutoff instant, reports how many, and keeps every other row and
    the id counter; for an age of zero or less it does nothing. *)
Theorem PruneAudit_exact now olderThan db :
  audit_ok db → time_ok (now - olderThan) →
  let victims := filter (λ x, (event_time x.2 < now - olderThan)%Z) (map_to_list (au_rows db)) in
  if (olderThan <=? 0)%Z then PruneAudit None now olderThan db = (Ok 0%Z, db)
  else
    (PruneAudit None now olderThan db).1 = Ok (Z.of_nat (length victims)) ∧
    au_last_id (PruneAudit None now olderThan db).2 = au_last_id db ∧
    ∀ id r, au_rows (PruneAudit None now olderThan db).2 !! id = Some r ↔
      au_rows db !! id = Some r ∧ (now - olderThan ≤ event_time r)%Z.
Proof.
  intros (_ & _ & Hrows) Ht. cbv zeta. unfold PruneAudit.
  destruct (olderThan <=? 0)%Z; [done|].
  assert (Hold : ∀ id r, au_rows db !! id = Some r →
    String.ltb (au_ts r) (fmt_time (now - olderThan)) = (event_time r <? now - olderThan)%Z).
  { intros id r Hr. destruct (Hrows _ _ Hr) as (t & Hok & E). unfold event_time. rewrite E.
    rewrite parse_fmt_time by done. by rewrite fmt_time_ltb. }
  split; [|split; [done|]].
  - simpl. do 3 f_equal. apply list_filter_iff'. intros [id r] Hin%elem_of_map_to_list.
    simpl. rewrite (Hold id r Hin). by rewrite Z.ltb_lt.
  - intros id r. simpl. rewrite map_lookup_filter_Some. simpl. split.
    + intros [Hr E]. split; [done|]. rewrite (Hold _ _ Hr), Z.ltb_ge in E. done.
    + intros [Hr E]. split; [done|]. by rewrite (Hold _ _ Hr), Z.ltb_ge.
Qed.

Definition demo_audit : AuditDb :=
  (RecordAudit None 900 (mkAuditEvent 0 None "b" "cli" "" "" true 0 "" "" "")
    (RecordAudit None 100 (mkAuditEvent 0 None "a" "cli" "" "" true 0 "" "" "") emptyAudit).2).2.

Lemma demo_audit_ok : audit_ok demo_audit.
Proof.
  apply RecordAudit_ok; [apply (time_ok_small 900); lia|].
  apply RecordAudit_ok; [apply (time_ok_small 100); lia|apply emptyAudit_ok].
Qed.

Lemma PruneAudit_exact_witness :
  audit_ok demo_audit ∧ time_ok (1000 - 500) ∧
  (PruneAudit None 1000 500 demo_audit).1 = Ok 1%Z.
Proof.
  split; [exact demo_audit_ok|]. split; [apply (time_ok_small 500); lia|].
  refine (eq_trans (proj1 (PruneAudit_exact 1000 500 demo_audit demo_audit_ok
    (time_ok_small 500 ltac:(lia)))) _).
  vm_compute. reflexivity.
Defined.

(** The duration the daemon asks for is the configured number of days while that
    fits in 64-bit nanoseconds, 292 years; past that it wraps around. *)
Theorem retain_duration_bounds retainDays :
  ((0 ≤ retainDays ≤ 106751)%Z → retain_duration retainDays = (retainDays * 86400000000000)%Z) ∧
  retain_duration 106752 = (-9223371273709551616)%Z ∧
  retain_duration 213504 = 1526290448384%Z.
Proof.
  split; [|split; reflexivity]. intros H. unfold retain_duration.
  rewrite (wrap64_small (retainDays * 24)), wrap64_small; lia.
Qed.

Lemma retain_duration_bounds_witness :
  (0 ≤ 90 ≤ 106751)%Z ∧ retain_duration 90 = (90 * 86400000000000)%Z.
Proof. split; [lia|]. apply (proj1 (retain_duration_bounds 90)). lia. Defined.

(** ** Listing *)

#[export] Instance sw_smaller_id : StrictWeak smaller_id.
Proof. apply (sw_on (fst : Z * AuditRow → Z) Z.ltb). Qed.

#[export] Instance sw_later : StrictWeak later.
Proof.
  apply (sw_lex (λ x : Z * AuditRow, au_ts x.2) (λ a b, String.ltb b a)).
  - apply (sw_flip String.ltb).
  - pose proof (sw_on (fst : Z * AuditRow → Z) Z.ltb) as H.
    apply (sw_flip (λ x y : Z * AuditRow, (x.1 <? y.1)%Z)).
  - intros a b H1 H2. by apply str_ltb_tricho.
Qed.

(** Listing the trail: the answer holds only events that match every filter of
    the query (a since filter by instant), each once, at most the clamped limit
    of them, newest first with the larger id first within one instant; an event
    left out by the limit is no newer than any event returned. *)
Theorem ListAudit_spec q db :
  audit_ok db → (∀ t, aq_Since q = Some t → time_ok t) →
  let matches := λ r, (aq_Kinds q = [] ∨ au_kind r ∈ aq_Kinds q) ∧
    (aq_Source q = "" ∨ au_source r = aq_Source q) ∧
    (aq_Module q = "" ∨ au_module r = Some (aq_Module q)) ∧
    (∀ t, aq_Since q = Some t → (t ≤ event_time r)%Z) in
  ∃ sel,
    ListAudit None q db = Ok (scanAuditRow <$> sel) ∧
    (Z.of_nat (length sel) ≤ 10000)%Z ∧ NoDup sel.*1 ∧
    (∀ id r, (id, r) ∈ sel → au_rows db !! id = Some r ∧ matches r) ∧
    StronglySorted (λ x y, (event_time y.2 < event_time x.2)%Z ∨
      (event_time y.2 = event_time x.2 ∧ (y.1 ≤ x.1)%Z)) sel ∧
    (∀ id r x, au_rows db !! id = Some r → matches r → (id, r) ∉ sel → x ∈ sel →
      (event_time r ≤ event_time x.2)%Z).
Proof.
  intros (_ & _ & Hrows) Hsince. cbv zeta.
  set (sel := page later (audit_matches q) (audit_limit (aq_Limit q)) (map_to_list (au_rows db))).
  assert (Hm : ∀ id r, au_rows db !! id = Some r → audit_matches q (id, r) = true ↔
    (aq_Kinds q = [] ∨ au_kind r ∈ aq_Kinds q) ∧
    (aq_Source q = "" ∨ au_source r = aq_Source q) ∧
    (aq_Module q = "" ∨ au_module r = Some (aq_Module q)) ∧
    (∀ t, aq_Since q = Some t → (t ≤ event_time r)%Z)).
  { intros id r Hr. destruct (Hrows _ _ Hr) as (t & Hok & E). unfold audit_matches, event_time.
    cbn [snd]. rewrite E, parse_fmt_time by done. cbn [from_option Datatypes.id].
    assert (match aq_Since q with
            | Some s => negb (String.ltb (fmt_time t) (fmt_time s))
            | None => true
            end = true ↔ ∀ s, aq_Since q = Some s → (s ≤ t)%Z) as Hs.
    { destruct (aq_Since q) as [s|]; [|naive_solver].
      rewrite fmt_time_ltb, negb_true_iff, Z.ltb_ge by auto. naive_solver. }
    rewrite !andb_true_iff, !orb_true_iff, !bool_decide_eq_true, Hs. tauto. }
  assert (Hin : ∀ id r, (id, r) ∈ sel → au_rows db !! id = Some r ∧ audit_matches q (id, r) = true).
  { intros id r [H1 H2]%page_sound. split; [by apply elem_of_map_to_list|done]. }
  assert (Hafter : ∀ x y, au_rows db !! x.1 = Some x.2 → au_rows db !! y.1 = Some y.2 →
    not_after later x y → (event_time y.2 < event_time x.2)%Z ∨
      (event_time y.2 = event_time x.2 ∧ (y.1 ≤ x.1)%Z)).
  { intros [i x] [j y] Hx Hy. simpl in *.
    destruct (Hrows _ _ Hx) as (t & Ht & Ex), (Hrows _ _ Hy) as (u & Hu & Ey).
    unfold not_after, later, lex_less, event_time. cbn [fst snd].
    rewrite Ex, Ey, !parse_fmt_time by done. cbn [from_option Datatypes.id]. case_decide as E.
    - intros Hij. right. apply Z.ltb_ge in Hij. split; [|done].
      apply (f_equal parse_time) in E. rewrite !parse_fmt_time in E by done. by simplify_eq.
    - rewrite fmt_time_ltb, Z.ltb_ge by done. intros Hc. left.
      destruct (decide (t = u)) as [->|]; [done|lia]. }
  exists sel. split; [done|]. split_and!.
  - assert (length sel ≤ audit_limit (aq_Limit q)) as Hl
      by (unfold sel; rewrite length_page; apply Nat.le_min_l).
    apply Nat2Z.inj_le in Hl. etrans; [exact Hl|]. unfold audit_limit.
    destruct (Z.leb_spec (aq_Limit q) 0), (Z.ltb_spec 10000 (aq_Limit q));
      rewrite Z2Nat.id by lia; lia.
  - apply page_NoDup. apply NoDup_fst_map_to_list.
  - intros id r Hir. destruct (Hin _ _ Hir) as [Hr Hma]. split; [done|]. by apply (Hm id).
  - eapply StronglySorted_weaken; [|apply page_sorted; apply _].
    intros [i x] [j y] Hx Hy. apply Hafter; simpl; by apply Hin.
  - intros id r [i x] Hr Hma Hn Hx. simpl.
    assert (not_after later (i, x) (id, r)) as Hna.
    { refine (page_rest later (audit_matches q) (audit_limit (aq_Limit q)) (i, x) (id, r) _ Hx _ _ Hn);
        [by apply elem_of_map_to_list|by apply (Hm id)]. }
    apply Hafter in Hna; simpl in *; [lia|by apply Hin|done].
Qed.

Lemma ListAudit_spec_witness :
  audit_ok demo_audit ∧
  ∃ sel, ListAudit None (mkAuditQuery [] "cli" "" (Some 500%Z) 0) demo_audit = Ok (scanAuditRow <$> sel) ∧
         NoDup sel.*1.
Proof.
  split; [exact demo_audit_ok|].
  destruct (ListAudit_spec (mkAuditQuery [] "cli" "" (Some 500%Z) 0) demo_audit demo_audit_ok)
    as (sel & H1 & _ & H2 & _).
  - simpl. intros t [= <-]. apply (time_ok_small 500). lia.
  - exists sel. by split.
Defined.

(** ** Webhook delivery, interleaved with everything else *)

Definition batch (wm : Z) (n : nat) (db : AuditDb) : list (Z * AuditRow) :=
  page smaller_id (λ x, (wm <? x.1)%Z) n (map_to_list (au_rows db)).

Definition advance (wm : Z) (b : list (Z * AuditRow)) : Z := foldl (λ w x, Z.max w x.1) wm b.

Lemma deliver_all_prefix events polls d :
  ∃ k, deliver_all (scanAuditRow <$> events) polls d =
    mkWebhook (wh_url d) (wh_batchSize d) (advance (wh_watermark d) (take k events))
      (wh_posted d ++ (scanAuditRow <$> take k events)) ∧
    (polls = replicate (length events) true → k = length events).
Proof.
  revert polls d. induction events as [|x events IH]; intros polls d; csimpl.
  - exists 0. rewrite app_nil_r. by destruct d.
  - destruct polls as [|[] polls].
    1,3: exists 0; simpl; rewrite app_nil_r; by destruct d.
    destruct (IH polls (mkWebhook (wh_url d) (wh_batchSize d)
      (if (wh_watermark d <? x.1)%Z then x.1 else wh_watermark d)
      (wh_posted d ++ [scanAuditRow x]))) as (k & Hk & Hall).
    exists (S k). split; [|intros [= ?]; f_equal; auto].
    etrans; [exact Hk|]. simpl. rewrite <-app_assoc. simpl. f_equal. unfold advance. simpl.
    f_equal. destruct (Z.ltb_spec (wh_watermark d) x.1); lia.
Qed.

(** A sweep posts one batch past the watermark, in order of id. *)
Lemma webhook_sweep_batch fault polls db d :
  ∃ n, webhook_sweep fault polls db d =
    mkWebhook (wh_url d) (wh_batchSize d)
      (advance (wh_watermark d) (batch (wh_watermark d) n db))
      (wh_posted d ++ (scanAuditRow <$> batch (wh_watermark d) n db)) ∧
    n ≤ after_limit (wh_batchSize d) ∧
    (fault = None → polls = replicate (length (select_after (wh_watermark d) (wh_batchSize d) db)) true →
     batch (wh_watermark d) n db = select_after (wh_watermark d) (wh_batchSize d) db).
Proof.
  unfold webhook_sweep, ListAuditAfterID. destruct fault as [e|].
  - exists 0. unfold batch, page. rewrite take_0. split; [|split; [lia|done]]. simpl.
    rewrite app_nil_r. by destruct d.
  - destruct (deliver_all_prefix (select_after (wh_watermark d) (wh_batchSize d) db) polls d)
      as (k & Hk & Hall). exists (min k (after_limit (wh_batchSize d))).
    assert (take k (select_after (wh_watermark d) (wh_batchSize d) db) =
      batch (wh_watermark d) (min k (after_limit (wh_batchSize d))) db) as E.
    { unfold select_after, batch, page. by rewrite take_take. }
    rewrite E in Hk. split; [exact Hk|]. split; [lia|]. intros _ Hp. rewrite <-E.
    rewrite Hall by done. by rewrite firstn_all.
Qed.

Lemma elem_of_batch wm n db id r :
  (id, r) ∈ batch wm n db → au_rows db !! id = Some r ∧ (wm < id)%Z.
Proof.
  intros [H1 H2]%page_sound. apply elem_of_map_to_list in H1. simpl in H2.
  apply Z.ltb_lt in H2. done.
Qed.

Lemma advance_ge wm b : (wm ≤ advance wm b)%Z ∧ ∀ x, x ∈ b → (x.1 ≤ advance wm b)%Z.
Proof.
  unfold advance. revert wm. induction b as [|y b IH]; intros wm; simpl.
  - split; [done|]. intros x Hx. by apply elem_of_nil in Hx.
  - destruct (IH (Z.max wm y.1)) as [H1 H2]. split; [lia|].
    intros x [->|Hx]%elem_of_cons; [lia|by apply H2].
Qed.

Lemma advance_in wm b : advance wm b = wm ∨ ∃ x, x ∈ b ∧ advance wm b = x.1.
Proof.
  unfold advance. revert wm. induction b as [|y b IH]; intros wm; simpl; [by left|].
  destruct (IH (Z.max wm y.1)) as [->|(x & Hx & ->)].
  - destruct (Z.max_spec wm y.1) as [[_ ->]|[_ ->]]; [|by left].
    right. exists y. split; [by left|done].
  - right. exists x. split; [by right|done].
Qed.

(** What a batch does not hold is past the advanced watermark. *)
Lemma batch_complete wm n db id r :
  au_rows db !! id = Some r → (wm < id ≤ advance wm (batch wm n db))%Z →
  (id, r) ∈ batch wm n db.
Proof.
  intros Hr [Hlt Hle].
  destruct (advance_in wm (batch wm n db)) as [E|([i x] & Hx & E)]; [lia|].
  rewrite E in Hle. simpl in Hle.
  destruct (decide (id = i)) as [->|Hne].
  { apply elem_of_batch in Hx as Hx'. destruct Hx' as [Hx' _]. by simplify_eq. }
  set (l := map_to_list (au_rows db)) in *.
  assert (Hin : (id, r) ∈ l) by by apply elem_of_map_to_list.
  assert (Hd : ((id, r) ∈ batch wm n db) ∨ ¬ ((id, r) ∈ batch wm n db)).
  { destruct (decide (id ∈ (batch wm n db).*1)) as [Hd|Hd].
    - left. apply list_elem_of_fmap in Hd as ([id' r'] & -> & Hd). simpl in *.
      apply elem_of_batch in Hd as Hd'. destruct Hd' as [Hd' _]. by simplify_eq.
    - right. intros H. apply Hd. apply list_elem_of_fmap. by exists (id, r). }
  destruct Hd as [?|Hn]; [done|]. exfalso.
  assert (not_after smaller_id (i, x) (id, r)) as Hna.
  { refine (page_rest smaller_id (λ x, (wm <? x.1)%Z) n (i, x) (id, r) _ Hx Hin _ Hn).
    simpl. by apply Z.ltb_lt. }
  unfold not_after, smaller_id in Hna. simpl in Hna. apply Z.ltb_ge in Hna. lia.
Qed.

Lemma batch_sorted wm n db : StronglySorted Z.lt (batch wm n db).*1.
Proof.
  pose proof (page_sorted smaller_id (λ x, (wm <? x.1)%Z) n (map_to_list (au_rows db))) as Hs.
  pose proof (page_NoDup smaller_id (λ x, (wm <? x.1)%Z) n fst (map_to_list (au_rows db))
    (NoDup_fst_map_to_list _)) as Hn.
  fold (batch wm n db) in Hs, Hn. revert Hs Hn. generalize (batch wm n db).
  intros b Hs Hn. induction Hs as [|x l Hl IH Hx]; csimpl; [constructor|].
  csimpl in Hn. apply NoDup_cons in Hn as [Hnx Hn]. constructor; [by apply IH|].
  pose proof (proj1 (Forall_forall _ _) Hx) as Hx'. apply Forall_forall.
  intros i (y & -> & Hy)%list_elem_of_fmap.
  specialize (Hx' y Hy). unfold not_after, smaller_id in Hx'. apply Z.ltb_ge in Hx'.
  assert (x.1 ≠ y.1) by (intros E; apply Hnx; rewrite E; by apply list_elem_of_fmap_2). lia.
Qed.

(** The database and the daemon: events are recorded, old ones are pruned and
    the daemon sweeps, in any order and with any failures. *)
Inductive audit_step : AuditDb * Webhook → AuditDb * Webhook → Prop :=
| astep_record fault now ev db d :
    event_ok now ev → audit_step (db, d) ((RecordAudit fault now ev db).2, d)
| astep_prune fault now olderThan db d :
    audit_step (db, d) ((PruneAudit fault now olderThan db).2, d)
| astep_sweep fault polls db d :
    audit_step (db, d) (db, webhook_sweep fault polls db d).

Record delivered (boot : Z) (s : AuditDb * Webhook) : Prop := {
  del_db : audit_ok s.1;
  del_boot : (boot ≤ wh_watermark s.2 ≤ au_last_id s.1)%Z;
  del_sorted : StronglySorted Z.lt (ev_ID <$> wh_posted s.2);
  del_range ev : ev ∈ wh_posted s.2 → (boot < ev_ID ev ≤ wh_watermark s.2)%Z;
  del_complete id r : au_rows s.1 !! id = Some r → (boot < id ≤ wh_watermark s.2)%Z →
    scanAuditRow (id, r) ∈ wh_posted s.2;
}.

Lemma StronglySorted_app_lt (l k : list Z) b :
  StronglySorted Z.lt l → StronglySorted Z.lt k → Forall (λ x, (x ≤ b)%Z) l →
  Forall (λ x, (b < x)%Z) k → StronglySorted Z.lt (l ++ k).
Proof.
  intros Hl Hk Hlb Hkb. apply StronglySorted_app. split_and!; [|done|done].
  rewrite Forall_forall in Hlb, Hkb. intros x y Hx%Hlb Hy%Hkb. lia.
Qed.

Lemma fmap_ev_ID l : ev_ID <$> (scanAuditRow <$> l) = l.*1.
Proof. rewrite <-list_fmap_compose. apply list_fmap_ext. by intros ? []. Qed.

Lemma delivered_step boot s s' : delivered boot s → audit_step s s' → delivered boot s'.
Proof.
  intros [Hdb Hb Hs Hr Hc] Hstep.
  destruct Hstep as [fault now ev db d Ht|fault now olderThan db d|fault polls db d];
    cbn [fst snd] in *.
  - split; cbn [fst snd]; [by apply RecordAudit_ok| |done|done|].
    + destruct fault; simpl; lia.
    + destruct fault; [done|]. intros id r. simpl.
      intros [[<- _]|[_ Hl]]%lookup_insert_Some; [lia|by apply Hc].
  - split; cbn [fst snd]; [by apply PruneAudit_ok| |done|done|].
    + by rewrite PruneAudit_last_id.
    + intros id r Hl%PruneAudit_subset. by apply Hc.
  - destruct (webhook_sweep_batch fault polls db d) as (n & -> & _ & _).
    pose proof (advance_ge (wh_watermark d) (batch (wh_watermark d) n db)) as [Hge Hall].
    split; cbn [fst snd wh_watermark wh_posted]; [done| | | |].
    + split; [lia|]. destruct (advance_in (wh_watermark d) (batch (wh_watermark d) n db))
        as [->|([i x] & Hx & ->)]; [lia|].
      apply elem_of_batch in Hx as [Hx _]. destruct Hdb as (_ & Hids & _).
      specialize (Hids _ _ Hx). simpl. lia.
    + rewrite fmap_app, fmap_ev_ID.
      apply (StronglySorted_app_lt _ _ (wh_watermark d)); [done|apply batch_sorted| |].
      * apply Forall_forall. intros i (ev & -> & Hev)%list_elem_of_fmap. by apply Hr in Hev as [_ ?].
      * apply Forall_forall. intros i ([j x] & -> & Hx)%list_elem_of_fmap.
        by apply elem_of_batch in Hx as [_ ?].
    + intros ev [Hev|Hev]%elem_of_app; [apply Hr in Hev; lia|].
      apply list_elem_of_fmap in Hev as ([i x] & -> & Hx). cbn [scanAuditRow ev_ID fst].
      apply elem_of_batch in Hx as Hx'. specialize (Hall _ Hx). simpl in Hall. lia.
    + intros id r Hl Hid. apply elem_of_app.
      destruct (decide (id ≤ wh_watermark d)%Z); [left; apply Hc; [done|lia]|].
      right. apply list_elem_of_fmap_2. apply batch_complete; [done|lia].
Qed.

Lemma MaxAuditID_spec db :
  audit_ok db →
  ∃ m, MaxAuditID None db = Ok m ∧ (0 ≤ m ≤ au_last_id db)%Z ∧
    ∀ id r, au_rows db !! id = Some r → (id ≤ m)%Z.
Proof.
  intros (H0 & Hids & _). unfold MaxAuditID.
  assert (Hin : ∀ id, id ∈ (map_to_list (au_rows db)).*1 ↔ is_Some (au_rows db !! id)).
  { intros id. rewrite list_elem_of_fmap. split.
    - intros ([i r] & -> & Hi%elem_of_map_to_list). by eexists.
    - intros [r Hr]. exists (id, r). split; [done|]. by apply elem_of_map_to_list. }
  destruct ((map_to_list (au_rows db)).*1) as [|i l].
  - exists 0%Z. split_and!; [done|done|done|]. intros id r Hr.
    exfalso. apply (not_elem_of_nil id), Hin. by eexists.
  - exists (foldr Z.max i l).
    assert (∀ b, (foldr Z.max i l ≤ b)%Z ↔ ∀ id, id ∈ i :: l → (id ≤ b)%Z) as Hmax.
    { intros b. clear. induction l as [|j l IH]; simpl.
      - split; [by intros ? id ->%list_elem_of_singleton|]. intros H. apply H. by left.
      - rewrite Z.max_lub_iff, IH. set_solver. }
    split; [done|]. split.
    + split; [|apply Hmax; intros id [r Hr]%Hin; by eapply Hids].
      destruct (proj1 (Hin i)) as [r Hr]; [by left|]. apply Hids in Hr.
      pose proof (proj1 (Hmax (foldr Z.max i l)) (Z.le_refl _) i ltac:(by left)). lia.
    + intros id r Hr. apply (proj1 (Hmax _) (Z.le_refl _)). apply Hin. by eexists.
Qed.

(** Webhook delivery is in order and at most once, and skips nothing: from a
    daemon started on a well-formed trail, under any interleaving of records,
    prunes and sweeps with any database errors and cancellations, the posted
    events have strictly increasing ids larger than every id at boot, and every
    event recorded since boot that the watermark has passed and no prune has
    deleted has been posted, as it is stored. *)
Theorem webhook_delivery url batchSize db0 m db d :
  audit_ok db0 → url ≠ "" → MaxAuditID None db0 = Ok m →
  rtc audit_step (db0, NewWebhookDaemon url batchSize (Ok m)) (db, d) →
  StronglySorted Z.lt (ev_ID <$> wh_posted d) ∧
  (∀ ev, ev ∈ wh_posted d → (m < ev_ID ev ≤ wh_watermark d)%Z) ∧
  (∀ id r, au_rows db !! id = Some r → (m < id ≤ wh_watermark d)%Z →
    scanAuditRow (id, r) ∈ wh_posted d).
Proof.
  intros Hok Hurl Hm Hrun.
  assert (delivered m (db0, NewWebhookDaemon url batchSize (Ok m))) as Hinit.
  { destruct (MaxAuditID_spec db0 Hok) as (m' & Hm' & Hle & Hmax). assert (m' = m) as -> by congruence.
    unfold NewWebhookDaemon. rewrite decide_True by done.
    split; cbn [fst snd wh_watermark wh_posted]; [done|lia|constructor| |lia].
    intros ev H. by apply elem_of_nil in H. }
  assert (delivered m (db, d)) as [_ _ H1 H2 H3].
  { revert Hinit. clear -Hrun. induction Hrun; eauto using delivered_step. }
  done.
Qed.

Definition demo_daemon : Webhook := NewWebhookDaemon "https://hook" 0 (Ok 1%Z).
Definition demo_boot : AuditDb :=
  (RecordAudit None 100 (mkAuditEvent 0 None "a" "cli" "" "" true 0 "" "" "") emptyAudit).2.

Lemma webhook_delivery_witness :
  audit_ok demo_boot ∧ MaxAuditID None demo_boot = Ok 1%Z ∧
  ∀ id r, au_rows demo_audit !! id = Some r → (1 < id ≤ 2)%Z →
    scanAuditRow (id, r) ∈ wh_posted (webhook_sweep None [true] demo_audit demo_daemon).
Proof.
  assert (audit_ok demo_boot) as Hok
    by (apply RecordAudit_ok; [apply (time_ok_small 100); lia|apply emptyAudit_ok]).
  split; [exact Hok|]. split; [reflexivity|].
  refine (proj2 (proj2 (webhook_delivery "https://hook" 0 demo_boot 1 demo_audit
    (webhook_sweep None [true] demo_audit demo_daemon) Hok _ _ _))); [done|reflexivity|].
  eapply rtc_l; [apply (astep_record None 900 (mkAuditEvent 0 None "b" "cli" "" "" true 0 "" "" ""));
    apply (time_ok_small 900); lia|].
  eapply rtc_l; [apply (astep_sweep None [true])|]. apply rtc_refl.
Defined.
