(* ===== verification/Requests.v ===== *)
(** * The procurement request table

    [internal/store/requests.go] over the [requests] table of [schema.sql].  A
    table is a finite map from row ids to rows plus the AUTOINCREMENT counter;
    each SQL statement of the file is one function on it, executed atomically by
    the database.  [fault] is the error the database reports for the statement,
    if it reports one, in which case the statement has no effect. *)

From S2P Require Import Prelude Strings Timestamp.

(** ** The state graph *)

Abbreviation RequestState := string.
Definition RequestStatePending : RequestState := "pending".
Definition RequestStatePreflighting : RequestState := "preflighting".
Definition RequestStateAutoPass : RequestState := "auto_pass".
Definition RequestStateNeedsReview : RequestState := "needs_review".
Definition RequestStateApproved : RequestState := "approved".
Definition RequestStateFetching : RequestState := "fetching".
Definition RequestStateIndexed : RequestState := "indexed".
Definition RequestStateDenied : RequestState := "denied".

(** The eight constants: what the [state] column may hold. *)
Definition known_states : list RequestState :=
  [RequestStatePending; RequestStatePreflighting; RequestStateAutoPass; RequestStateNeedsReview;
   RequestStateApproved; RequestStateFetching; RequestStateIndexed; RequestStateDenied].

Definition legalTransitions : gmap RequestState (gmap RequestState bool) :=
  list_to_map
    [(RequestStatePending,
       list_to_map [(RequestStatePreflighting, true); (RequestStateDenied, true)]);
     (RequestStatePreflighting,
       list_to_map [(RequestStateAutoPass, true); (RequestStateNeedsReview, true);
                    (RequestStateDenied, true)]);
     (RequestStateNeedsReview,
       list_to_map [(RequestStateApproved, true); (RequestStateDenied, true)]);
     (RequestStateAutoPass, list_to_map [(RequestStateFetching, true)]);
     (RequestStateApproved, list_to_map [(RequestStateFetching, true)]);
     (RequestStateFetching,
       list_to_map [(RequestStateIndexed, true); (RequestStateDenied, true)])].

Definition CanTransitionTo (s to : RequestState) : bool :=
  match legalTransitions !! s with
  | None => false
  | Some allowed => default false (allowed !! to)
  end.

Definition IsTerminal (s : RequestState) : bool :=
  match legalTransitions !! s with Some _ => false | None => true end.

(** ** Rows and requests *)

(** One row of the table; nullable columns are options. *)
Record Row := mkRow {
  row_submitter_sub : string;
  row_submitter_email : option string;
  row_auth_method : string;
  row_module : string;
  row_version : string;
  row_source_url : option string;
  row_submitter_notes : option string;
  row_state : RequestState;
  row_state_changed_at : string;
  row_created_at : string;
  row_preflight_json : option string;
  row_denial_reason : option string;
  row_fetched_sha : option string;
  row_committed_sha : option string;
  row_retry_count : Z;
}.

#[export] Instance Row_eq_dec : EqDecision Row.
Proof. solve_decision. Defined.

Record Db := mkDb {
  db_rows : gmap Z Row;
  db_last_id : Z;
}.

Definition emptyDb : Db := mkDb ∅ 0%Z.

(** [store.Request]; the zero [time.Time] is [None]. *)
Record Request := mkRequest {
  req_ID : Z;
  req_SubmitterSub : string;
  req_SubmitterEmail : string;
  req_AuthMethod : string;
  req_Module : string;
  req_Version : string;
  req_SourceURL : string;
  req_SubmitterNotes : string;
  req_State : RequestState;
  req_StateChangedAt : option Z;
  req_CreatedAt : option Z;
  req_PreflightJSON : string;
  req_DenialReason : string;
  req_FetchedSHA : string;
  req_CommittedSHA : string;
  req_RetryCount : Z;
}.

Record RequestQuery := mkRequestQuery {
  q_States : list RequestState;
  q_Submitter : string;
  q_Limit : Z;
}.

Record RequestFields := mkRequestFields {
  rf_PreflightJSON : string;
  rf_DenialReason : string;
  rf_FetchedSHA : string;
  rf_CommittedSHA : string;
  rf_RetryCount : option Z;
}.

Definition noFields : RequestFields := mkRequestFields "" "" "" "" None.

Inductive StoreError : Type :=
| ErrRequired (field : string)
| ErrRequestNotFound
| ErrIllegalTransition (from to : RequestState)
| ErrStateMismatch (id : Z) (expected : RequestState)
| ErrDB (context msg : string).

#[export] Instance StoreError_eq_dec : EqDecision StoreError.
Proof. solve_decision. Defined.

Definition nullableString (s : string) : option string :=
  if decide (s = "") then None else Some s.

Definition scanRequest (id : Z) (r : Row) : Request :=
  mkRequest id (row_submitter_sub r) (default "" (row_submitter_email r)) (row_auth_method r)
    (row_module r) (row_version r) (default "" (row_source_url r))
    (default "" (row_submitter_notes r)) (row_state r)
    (parse_time (row_state_changed_at r)) (parse_time (row_created_at r))
    (default "" (row_preflight_json r)) (default "" (row_denial_reason r))
    (default "" (row_fetched_sha r)) (default "" (row_committed_sha r)) (row_retry_count r).

(** ** Operations *)

Definition pendingRow (now : Z) (r : Request) : Row :=
  mkRow (TrimSpace (req_SubmitterSub r)) (nullableString (req_SubmitterEmail r))
    (TrimSpace (req_AuthMethod r)) (TrimSpace (req_Module r)) (TrimSpace (req_Version r))
    (nullableString (req_SourceURL r)) (nullableString (req_SubmitterNotes r))
    RequestStatePending (fmt_time now) (fmt_time now) None None None None 0.

Definition CreateRequest (fault : option string) (now : Z) (r : Request) (db : Db)
    : result StoreError Z * Db :=
  if decide (TrimSpace (req_SubmitterSub r) = "") then (Err (ErrRequired "submitter_sub"), db)
  else if decide (TrimSpace (req_AuthMethod r) = "") then (Err (ErrRequired "auth_method"), db)
  else if decide (TrimSpace (req_Module r) = "") then (Err (ErrRequired "module"), db)
  else if decide (TrimSpace (req_Version r) = "") then (Err (ErrRequired "version"), db)
  else
    match fault with
    | Some e => (Err (ErrDB "insert request" e), db)
    | None =>
        let id := (db_last_id db + 1)%Z in
        (Ok id, mkDb (<[id := pendingRow now r]> (db_rows db)) id)
    end.

Definition GetRequest (fault : option string) (id : Z) (db : Db) : result StoreError Request :=
  match fault with
  | Some e => Err (ErrDB "" e)
  | None =>
      match db_rows db !! id with
      | None => Err ErrRequestNotFound
      | Some r => Ok (scanRequest id r)
      end
  end.

(** The WHERE clause of [ListRequests]. *)
Definition list_matches (q : RequestQuery) (r : Row) : bool :=
  (bool_decide (q_States q = []) || bool_decide (row_state r ∈ q_States q)) &&
  (bool_decide (q_Submitter q = "") || bool_decide (row_submitter_sub r = q_Submitter q)).

Definition list_limit (q : RequestQuery) : nat :=
  Z.to_nat (if (q_Limit q <=? 0)%Z || (500 <? q_Limit q)%Z then 500 else q_Limit q)%Z.

(** [ORDER BY created_at DESC] on the text of the column. *)
Definition newer (x y : Z * Row) : bool :=
  String.ltb (row_created_at y.2) (row_created_at x.2).

(** The rows are visited in some order [scan]; rows of one instant stay in it. *)
Definition select_requests (q : RequestQuery) (scan : list (Z * Row)) : list (Z * Row) :=
  take (list_limit q) (sort_slice newer (filter (λ x, list_matches q x.2 = true) scan)).

Definition ListRequests_scan (fault : option string) (q : RequestQuery) (scan : list (Z * Row))
    : result StoreError (list Request) :=
  match fault with
  | Some e => Err (ErrDB "list requests" e)
  | None => Ok ((λ x, scanRequest x.1 x.2) <$> select_requests q scan)
  end.

Definition ListRequests (fault : option string) (q : RequestQuery) (db : Db)
    : result StoreError (list Request) :=
  ListRequests_scan fault q (map_to_list (db_rows db)).

(** [state NOT IN ('indexed', 'denied')] *)
Definition open_row (r : Row) : bool :=
  bool_decide (row_state r ∉ [RequestStateIndexed; RequestStateDenied]).

Definition open_for (module version : string) (x : Z * Row) : bool :=
  bool_decide (row_module x.2 = module) && bool_decide (row_version x.2 = version) &&
  open_row x.2.

Definition larger_id (x y : Z * Row) : bool := (y.1 <? x.1)%Z.

Definition FindOpenRequest (fault : option string) (module version : string) (db : Db)
    : result StoreError Request :=
  match fault with
  | Some e => Err (ErrDB "" e)
  | None =>
      match sort_slice larger_id
              (filter (λ x, open_for module version x = true) (map_to_list (db_rows db))) with
      | [] => Err ErrRequestNotFound
      | (id, r) :: _ => Ok (scanRequest id r)
      end
  end.

Definition AnyRequestFor (fault : option string) (module version : string) (db : Db)
    : result StoreError bool :=
  if decide (module = "" ∨ version = "") then Ok false
  else
    match fault with
    | Some e => Err (ErrDB "probe AnyRequestFor" e)
    | None =>
        Ok (existsb (λ x, bool_decide (row_module x.2 = module) && bool_decide (row_version x.2 = version))
              (map_to_list (db_rows db)))
    end.

(** The SET clause of [TransitionRequest]: only non-empty fields are written. *)
Definition set_text (v : string) (old : option string) : option string :=
  if decide (v = "") then old else Some v.

Definition updateRow (now : Z) (to : RequestState) (f : RequestFields) (r : Row) : Row :=
  mkRow (row_submitter_sub r) (row_submitter_email r) (row_auth_method r) (row_module r)
    (row_version r) (row_source_url r) (row_submitter_notes r) to (fmt_time now)
    (row_created_at r) (set_text (rf_PreflightJSON f) (row_preflight_json r))
    (set_text (rf_DenialReason f) (row_denial_reason r))
    (set_text (rf_FetchedSHA f) (row_fetched_sha r))
    (set_text (rf_CommittedSHA f) (row_committed_sha r))
    (default (row_retry_count r) (rf_RetryCount f)).

(** [UPDATE ... WHERE id = ? AND state = ?] changes at most the row [id]; no
    row changed means another writer was faster. *)
Definition TransitionRequest (fault : option string) (now : Z) (id : Z)
    (from to : RequestState) (fields : option RequestFields) (db : Db)
    : result StoreError unit * Db :=
  if negb (CanTransitionTo from to) then (Err (ErrIllegalTransition from to), db)
  else
    match fault with
    | Some e => (Err (ErrDB "transition request" e), db)
    | None =>
        match db_rows db !! id with
        | Some r =>
            if decide (row_state r = from) then
              (Ok tt, mkDb (<[id := updateRow now to (default noFields fields) r]> (db_rows db))
                        (db_last_id db))
            else (Err (ErrStateMismatch id from), db)
        | None => (Err (ErrStateMismatch id from), db)
        end
    end.

Definition CountOpenRequestsForUser (fault : option string) (submitterSub : string) (db : Db)
    : result StoreError Z :=
  match fault with
  | Some e => Err (ErrDB "count open requests for user" e)
  | None =>
      Ok (Z.of_nat (length (filter
        (λ x, bool_decide (row_submitter_sub x.2 = submitterSub) && open_row x.2 = true)
        (map_to_list (db_rows db)))))
  end.

(** [WHERE state = 'fetching' AND state_changed_at < ?], compared as text. *)
Definition stuck (before : Z) (r : Row) : bool :=
  bool_decide (row_state r = RequestStateFetching) &&
  String.ltb (row_state_changed_at r) (fmt_time before).

Definition reclaimRow (now before : Z) (r : Row) : Row :=
  if stuck before r then
    mkRow (row_submitter_sub r) (row_submitter_email r) (row_auth_method r) (row_module r)
      (row_version r) (row_source_url r) (row_submitter_notes r) RequestStateApproved
      (fmt_time now) (row_created_at r) (row_preflight_json r) (row_denial_reason r)
      (row_fetched_sha r) (row_committed_sha r) (row_retry_count r)
  else r.

Definition ReclaimStuckFetching (fault : option string) (now before : Z) (db : Db)
    : result StoreError Z * Db :=
  match fault with
  | Some e => (Err (ErrDB "reclaim stuck fetching" e), db)
  | None =>
      (Ok (Z.of_nat (length (filter (λ x, stuck before x.2 = true) (map_to_list (db_rows db))))),
       mkDb (reclaimRow now before <$> db_rows db) (db_last_id db))
  end.

(** ** The state graph, as a relation *)

Definition edges : list (RequestState * RequestState) :=
  [(RequestStatePending, RequestStatePreflighting); (RequestStatePending, RequestStateDenied);
   (RequestStatePreflighting, RequestStateAutoPass);
   (RequestStatePreflighting, RequestStateNeedsReview);
   (RequestStatePreflighting, RequestStateDenied);
   (RequestStateNeedsReview, RequestStateApproved); (RequestStateNeedsReview, RequestStateDenied);
   (RequestStateAutoPass, RequestStateFetching); (RequestStateApproved, RequestStateFetching);
   (RequestStateFetching, RequestStateIndexed); (RequestStateFetching, RequestStateDenied)].

Definition rank (s : RequestState) : nat :=
  if decide (s = RequestStatePending) then 0
  else if decide (s = RequestStatePreflighting) then 1
  else if decide (s = RequestStateNeedsReview) then 2
  else if decide (s = RequestStateAutoPass) then 3
  else if decide (s = RequestStateApproved) then 4
  else if decide (s = RequestStateFetching) then 5
  else 6.

Lemma CanTransitionTo_edges s t : CanTransitionTo s t = true ↔ (s, t) ∈ edges.
Proof.
  unfold CanTransitionTo, legalTransitions, edges. cbn [list_to_map foldr uncurry].
  rewrite !lookup_insert. repeat case_decide; subst; rewrite ?lookup_empty; cbn;
    rewrite ?lookup_insert, ?lookup_empty; repeat case_decide; subst; cbn; set_solver.
Qed.

Lemma edge_rank s t : CanTransitionTo s t = true → rank s < rank t.
Proof.
  rewrite CanTransitionTo_edges. unfold edges. rewrite !elem_of_cons, elem_of_nil.
  intros H. destruct_or! H; try done; injection H as -> ->; vm_compute; lia.
Qed.

Lemma edge_known s t : CanTransitionTo s t = true → s ∈ known_states ∧ t ∈ known_states.
Proof.
  rewrite CanTransitionTo_edges. unfold edges, known_states. rewrite !elem_of_cons, elem_of_nil.
  intros H. destruct_or! H; try done; injection H as -> ->; auto 20.
Qed.

Definition terminal (s : RequestState) : bool :=
  bool_decide (s ∈ [RequestStateIndexed; RequestStateDenied]).

Lemma terminal_spec s : s ∈ known_states → IsTerminal s = terminal s.
Proof.
  unfold known_states. rewrite !elem_of_cons, elem_of_nil.
  intros H. destruct_or! H; try done; subst; reflexivity.
Qed.

Lemma terminal_no_edge s t : terminal s = true → CanTransitionTo s t = false.
Proof.
  unfold terminal. rewrite bool_decide_eq_true, !elem_of_cons, elem_of_nil.
  by intros [->|[->|[]]].
Qed.

(** ** Sequences of operations *)

Inductive op : Type :=
| OpCreate (fault : option string) (now : Z) (r : Request)
| OpTransition (fault : option string) (now : Z) (id : Z) (from to : RequestState)
    (fields : option RequestFields)
| OpReclaim (fault : option string) (now before : Z).

Definition exec (o : op) (db : Db) : Db :=
  match o with
  | OpCreate fault now r => (CreateRequest fault now r db).2
  | OpTransition fault now id from to fields =>
      (TransitionRequest fault now id from to fields db).2
  | OpReclaim fault now before => (ReclaimStuckFetching fault now before db).2
  end.

Definition run (ops : list op) (db : Db) : Db := foldl (λ db o, exec o db) db ops.

(** The operation is a transition of the request [id] out of [from], and it succeeds. *)
Definition wins_at (id : Z) (from : RequestState) (o : op) (db : Db) : bool :=
  match o with
  | OpTransition fault now id' from' to fields =>
      bool_decide (id' = id) && bool_decide (from' = from) &&
      is_ok (TransitionRequest fault now id' from' to fields db).1
  | _ => false
  end.

Fixpoint wins (id : Z) (from : RequestState) (ops : list op) (db : Db) : nat :=
  match ops with
  | [] => 0
  | o :: ops' => (if wins_at id from o db then 1 else 0) + wins id from ops' (exec o db)
  end.

(** The operation is a sweep that takes the request [id] back. *)
Definition reclaims_at (id : Z) (o : op) (db : Db) : bool :=
  match o with
  | OpReclaim None now before =>
      match db_rows db !! id with Some r => stuck before r | None => false end
  | _ => false
  end.

Fixpoint reclaims (id : Z) (ops : list op) (db : Db) : nat :=
  match ops with
  | [] => 0
  | o :: ops' => (if reclaims_at id o db then 1 else 0) + reclaims id ops' (exec o db)
  end.

(** Every id in use has been handed out. *)
Definition ids_ok (db : Db) : Prop :=
  (0 ≤ db_last_id db)%Z ∧ ∀ id r, db_rows db !! id = Some r → (0 < id ≤ db_last_id db)%Z.

Lemma CreateRequest_rows fault now r db :
  (CreateRequest fault now r db).2 = db ∨
  (CreateRequest fault now r db = (Ok (db_last_id db + 1)%Z,
     mkDb (<[(db_last_id db + 1)%Z := pendingRow now r]> (db_rows db)) (db_last_id db + 1))
   ∧ TrimSpace (req_SubmitterSub r) ≠ "" ∧ TrimSpace (req_AuthMethod r) ≠ ""
   ∧ TrimSpace (req_Module r) ≠ "" ∧ TrimSpace (req_Version r) ≠ "").
Proof. unfold CreateRequest. repeat case_decide; auto. destruct fault; auto 10. Qed.

Lemma TransitionRequest_ok fault now id from to fields db db' :
  TransitionRequest fault now id from to fields db = (Ok tt, db') ↔
  fault = None ∧ CanTransitionTo from to = true ∧
  ∃ r, db_rows db !! id = Some r ∧ row_state r = from ∧
    db' = mkDb (<[id := updateRow now to (default noFields fields) r]> (db_rows db)) (db_last_id db).
Proof.
  unfold TransitionRequest. destruct (CanTransitionTo from to); simpl; [|naive_solver].
  destruct fault; [naive_solver|]. destruct (db_rows db !! id) as [r|]; [|naive_solver].
  case_decide; naive_solver.
Qed.

Lemma TransitionRequest_err fault now id from to fields db :
  is_ok (TransitionRequest fault now id from to fields db).1 = false →
  (TransitionRequest fault now id from to fields db).2 = db.
Proof.
  unfold TransitionRequest. destruct (CanTransitionTo from to); simpl; [|done].
  destruct fault; [done|]. destruct (db_rows db !! id) as [r|]; [|done]. by case_decide.
Qed.

(** What one operation does to a row that exists. *)
Inductive row_step : Row → Row → Prop :=
| row_same r : row_step r r
| row_transition now to fields r :
    CanTransitionTo (row_state r) to = true → row_step r (updateRow now to fields r)
| row_reclaimed now before r :
    stuck before r = true → row_step r (reclaimRow now before r).

Lemma exec_row o db id r :
  ids_ok db → db_rows db !! id = Some r →
  ∃ r', db_rows (exec o db) !! id = Some r' ∧ row_step r r'.
Proof.
  intros Hids Hr. destruct o as [fault now q|fault now id' from to fields|fault now before]; simpl.
  - exists r. split; [|constructor].
    destruct (CreateRequest_rows fault now q db) as [->|[-> _]]; [done|]. simpl.
    rewrite lookup_insert_ne; [done|]. apply Hids in Hr. lia.
  - destruct (TransitionRequest fault now id' from to fields db) as [[[]|e] db'] eqn:E; simpl.
    + apply TransitionRequest_ok in E as (_ & Hc & r0 & Hr0 & <- & ->). simpl.
      destruct (decide (id = id')) as [<-|].
      * rewrite lookup_insert_eq. eexists. split; [done|].
        assert (r0 = r) as -> by congruence. by constructor.
      * rewrite lookup_insert_ne by done. exists r. split; [done|constructor].
    + pose proof (TransitionRequest_err fault now id' from to fields db) as He.
      rewrite E in He. simpl in He. rewrite He by done. exists r. split; [done|constructor].
  - destruct fault; simpl; [exists r; split; [done|constructor]|].
    rewrite lookup_fmap, Hr. simpl. eexists. split; [done|].
    destruct (stuck before r) eqn:E; [by constructor|]. unfold reclaimRow. rewrite E. constructor.
Qed.

Lemma exec_ids_ok o db : ids_ok db → ids_ok (exec o db).
Proof.
  intros [H0 Hids]. destruct o as [fault now q|fault now id' from to fields|fault now before]; simpl.
  - destruct (CreateRequest_rows fault now q db) as [->|[-> _]]; [done|]. split; simpl; [lia|].
    intros id r. simpl. intros [[<- _]|[_ Hr%Hids]]%lookup_insert_Some; lia.
  - destruct (TransitionRequest fault now id' from to fields db) as [[[]|e] db'] eqn:E; simpl.
    + apply TransitionRequest_ok in E as (_ & _ & r0 & Hr0 & _ & ->). split; [done|].
      intros id r. simpl. intros [[<- _]|[_ Hr]]%lookup_insert_Some; by eapply Hids.
    + pose proof (TransitionRequest_err fault now id' from to fields db) as He.
      rewrite E in He. simpl in He. by rewrite He.
  - destruct fault; simpl; [done|]. split; [done|].
    intros id r. simpl. rewrite lookup_fmap.
    destruct (db_rows db !! id) as [r0|] eqn:E; [|done]. intros _. by eapply Hids.
Qed.

Lemma run_ids_ok ops db : ids_ok db → ids_ok (run ops db).
Proof.
  unfold run. revert db. induction ops as [|o ops IH]; intros db H; [done|].
  simpl. by apply IH, exec_ids_ok.
Qed.

Lemma emptyDb_ids_ok : ids_ok emptyDb.
Proof. split; [done|]. intros id r. simpl. by rewrite lookup_empty. Qed.

Lemma run_row ops db id r :
  ids_ok db → db_rows db !! id = Some r →
  ∃ r', db_rows (run ops db) !! id = Some r' ∧ rtc row_step r r'.
Proof.
  unfold run. revert db r. induction ops as [|o ops IH]; intros db r Hids Hr; simpl.
  - exists r. split; [done|constructor].
  - destruct (exec_row o db id r Hids Hr) as (r1 & Hr1 & Hs).
    destruct (IH (exec o db) r1) as (r' & Hr' & Hs'); [by apply exec_ids_ok|done|].
    exists r'. split; [done|]. by eapply rtc_l.
Qed.

(** ** What never changes, and how the state moves *)

(** The columns no operation writes after the insert. *)
Definition identity (r : Row) : string * option string * string * string * string
    * option string * option string * string :=
  (row_submitter_sub r, row_submitter_email r, row_auth_method r, row_module r, row_version r,
   row_source_url r, row_submitter_notes r, row_created_at r).

(** One move of the state: an edge of the graph, or the sweep's recovery edge. *)
Definition state_move (s t : RequestState) : Prop :=
  CanTransitionTo s t = true ∨ (s = RequestStateFetching ∧ t = RequestStateApproved).

Lemma stuck_state before r : stuck before r = true → row_state r = RequestStateFetching.
Proof. unfold stuck. rewrite andb_true_iff, bool_decide_eq_true. by intros [? _]. Qed.

Lemma row_step_spec r r' :
  row_step r r' →
  identity r' = identity r ∧ rtc state_move (row_state r) (row_state r') ∧
  (terminal (row_state r) = true → r' = r).
Proof.
  destruct 1 as [r|now to fields r Hc|now before r Hs].
  - split_and!; [done|constructor|done].
  - split_and!; [done| |].
    + apply rtc_once. by left.
    + intros Ht. by rewrite (terminal_no_edge _ to Ht) in Hc.
  - unfold reclaimRow. rewrite Hs. apply stuck_state in Hs. split_and!; [done| |].
    + apply rtc_once. right. by rewrite Hs.
    + by rewrite Hs.
Qed.

Lemma row_steps_spec r r' :
  rtc row_step r r' →
  identity r' = identity r ∧ rtc state_move (row_state r) (row_state r') ∧
  (terminal (row_state r) = true → r' = r).
Proof.
  induction 1 as [|r r1 r' H1 H2 IH]; [split_and!; [done|constructor|done]|].
  apply row_step_spec in H1 as (Hi & Hm & Ht). destruct IH as (Hi' & Hm' & Ht').
  split_and!; [congruence|by etrans|]. intros H. rewrite (Ht H) in *. auto.
Qed.

(** C17: The life of a request: once a row exists, every later sequence of
    operations keeps it, keeps the columns of the submission and the creation
    time, moves its state only along the transition graph or from fetching back
    to approved, and leaves a row in a terminal state exactly as it is. *)
Theorem request_history ops ops' id r :
  db_rows (run ops emptyDb) !! id = Some r →
  ∃ r', db_rows (run (ops ++ ops') emptyDb) !! id = Some r' ∧
    identity r' = identity r ∧ rtc state_move (row_state r) (row_state r') ∧
    (terminal (row_state r) = true → r' = r).
Proof.
  intros Hr. unfold run. rewrite foldl_app. fold (run ops emptyDb).
  fold (run ops' (run ops emptyDb)).
  destruct (run_row ops' _ _ _ (run_ids_ok ops _ emptyDb_ids_ok) Hr) as (r' & ? & ?).
  exists r'. split; [done|]. by apply row_steps_spec.
Qed.

(** ** One winner per state *)

Definition recoverable (s : RequestState) : bool := 4 <=? rank s.

Lemma wins_at_spec id from o db :
  wins_at id from o db = true →
  ∃ r r', db_rows db !! id = Some r ∧ row_state r = from ∧
    db_rows (exec o db) !! id = Some r' ∧ rank from < rank (row_state r') ∧
    reclaims_at id o db = false.
Proof.
  destruct o as [fault now q|fault now id' from' to fields|fault now before]; simpl; try done.
  rewrite !andb_true_iff, !bool_decide_eq_true. intros [[-> ->] Hok].
  destruct (TransitionRequest fault now id from to fields db) as [[[]|e] db'] eqn:E; [|done].
  apply TransitionRequest_ok in E as (_ & Hc & r & Hr & Hs & ->).
  exists r. eexists. split; [done|]. split; [done|]. simpl. rewrite lookup_insert_eq.
  split; [done|]. split; [|done]. simpl. by apply edge_rank.
Qed.

(** The state of a row only goes up, unless the sweep takes the row back. *)
Lemma exec_rank o db id r :
  ids_ok db → db_rows db !! id = Some r →
  ∃ r', db_rows (exec o db) !! id = Some r' ∧
    (rank (row_state r) ≤ rank (row_state r') ∨
     (reclaims_at id o db = true ∧ row_state r = RequestStateFetching ∧ rank (row_state r') = 4)).
Proof.
  intros Hids Hr. destruct (exec_row o db id r Hids Hr) as (r' & Hr' & Hs).
  exists r'. split; [done|]. destruct Hs as [r|now to fields r Hc|now before r Hst].
  - by left.
  - left. by apply Nat.lt_le_incl, edge_rank.
  - pose proof (stuck_state _ _ Hst) as Hf.
    assert (row_state (reclaimRow now before r) = RequestStateApproved) as Ha
      by (unfold reclaimRow; by rewrite Hst).
    assert (RequestStateFetching ≠ RequestStateApproved) as Hne by done.
    destruct o as [fault now' q|fault now' id' from to fields|fault now' before']; simpl in Hr'.
    + destruct (CreateRequest_rows fault now' q db) as [E|[E _]]; rewrite E in Hr';
        simpl in Hr'; [congruence|].
      destruct Hids as [_ Hids]. specialize (Hids _ _ Hr).
      rewrite lookup_insert_ne in Hr' by lia. congruence.
    + destruct (TransitionRequest fault now' id' from to fields db) as [[[]|e] db'] eqn:E;
        simpl in Hr'.
      * apply TransitionRequest_ok in E as (_ & Hc & r0 & Hr0 & <- & ->). simpl in Hr'.
        apply lookup_insert_Some in Hr' as [[-> E]|[_ E]]; [|congruence].
        assert (r0 = r) as -> by congruence. left. rewrite <-E. by apply Nat.lt_le_incl, edge_rank.
      * pose proof (TransitionRequest_err fault now' id' from to fields db) as He.
        rewrite E in He. simpl in He. rewrite He in Hr' by done. congruence.
    + right. simpl. destruct fault; simpl in *; [congruence|].
      rewrite lookup_fmap, Hr in Hr'. injection Hr' as Hr'. rewrite Hr.
      assert (stuck before' r = true) as ->; [|split_and!; [done|done|by rewrite Ha]].
      destruct (stuck before' r) eqn:E; [done|]. unfold reclaimRow at 1 in Hr'. rewrite E in Hr'.
      congruence.
Qed.

Lemma wins_existing id from ops db r :
  ids_ok db → db_rows db !! id = Some r →
  wins id from ops db ≤
    (if rank from <? rank (row_state r) then 0 else 1) +
    (if recoverable from then reclaims id ops db else 0).
Proof.
  revert db r. induction ops as [|o ops IH]; intros db r Hids Hr; simpl; [lia|].
  destruct (exec_rank o db id r Hids Hr) as (r' & Hr' & Hrank).
  specialize (IH _ _ (exec_ids_ok o db Hids) Hr').
  destruct (wins_at id from o db) eqn:Hw.
  - apply wins_at_spec in Hw as (r0 & r1 & H0 & Hs0 & H1 & Hlt & Hrec).
    assert (r0 = r) as -> by congruence. assert (r1 = r') as -> by congruence.
    rewrite Hrec. destruct (Nat.ltb_spec (rank from) (rank (row_state r'))); [|lia].
    rewrite Hs0, Nat.ltb_irrefl. destruct (recoverable from); lia.
  - destruct Hrank as [Hle|(Hrec & Hf & Hr4)].
    + destruct (Nat.ltb_spec (rank from) (rank (row_state r))),
        (Nat.ltb_spec (rank from) (rank (row_state r'))), (recoverable from); lia.
    + rewrite Hrec. unfold recoverable in *. rewrite Hr4 in IH.
      destruct (Nat.ltb_spec (rank from) (rank (row_state r))),
        (Nat.ltb_spec (rank from) 4), (Nat.leb_spec 4 (rank from)); lia.
Qed.

Lemma wins_absent id from ops db :
  ids_ok db → db_rows db !! id = None →
  wins id from ops db ≤ 1 + (if recoverable from then reclaims id ops db else 0).
Proof.
  revert db. induction ops as [|o ops IH]; intros db Hids Hr; simpl; [lia|].
  assert (wins_at id from o db = false) as ->.
  { apply not_true_iff_false. intros (r0 & ? & ? & _)%wins_at_spec. congruence. }
  specialize (exec_ids_ok o db Hids) as Hids'.
  destruct (db_rows (exec o db) !! id) as [r'|] eqn:Hr'.
  - pose proof (wins_existing id from ops _ _ Hids' Hr') as H.
    destruct (rank from <? _), (recoverable from); lia.
  - specialize (IH _ Hids' Hr'). destruct (recoverable from); lia.
Qed.

(** C10: Compare-and-swap: in every sequence of operations from the empty table, at
    most one transition of a request out of a state succeeds.  Only for approved
    and fetching can there be more, one for each sweep that took the request
    back. *)
Theorem transition_winners id from ops :
  wins id from ops emptyDb ≤ 1 + (if recoverable from then reclaims id ops emptyDb else 0).
Proof. apply wins_absent; [apply emptyDb_ids_ok|apply lookup_empty]. Qed.

(** ** What every reachable table satisfies *)

Definition row_ok (r : Row) : Prop :=
  row_state r ∈ known_states ∧
  Forall (λ s, s ≠ "" ∧ TrimSpace s = s)
    [row_submitter_sub r; row_auth_method r; row_module r; row_version r] ∧
  (∃ t, time_ok t ∧ row_created_at r = fmt_time t) ∧
  (∃ t, time_ok t ∧ row_state_changed_at r = fmt_time t).

Definition db_ok (db : Db) : Prop := ids_ok db ∧ map_Forall (λ _ r, row_ok r) (db_rows db).

(** The clock is within the years the timestamp layout can write. *)
Definition op_ok (o : op) : Prop :=
  match o with
  | OpCreate _ now _ | OpTransition _ now _ _ _ _ | OpReclaim _ now _ => time_ok now
  end.

Lemma updateRow_ok now to fields r :
  time_ok now → CanTransitionTo (row_state r) to = true → row_ok r → row_ok (updateRow now to fields r).
Proof.
  intros Ht Hc (Hs & Hf & Hcr & Hch). apply edge_known in Hc as [_ Hto].
  split_and!; simpl; eauto.
Qed.

Lemma reclaimRow_ok now before r : time_ok now → row_ok r → row_ok (reclaimRow now before r).
Proof.
  intros Ht (Hs & Hf & Hcr & Hch). unfold reclaimRow. destruct (stuck before r); [|done].
  split_and!; simpl; eauto. unfold known_states. set_solver.
Qed.

Lemma exec_ok o db : op_ok o → db_ok db → db_ok (exec o db).
Proof.
  intros Ho [Hids Hrows]. split; [by apply exec_ids_ok|].
  destruct o as [fault now q|fault now id' from to fields|fault now before]; simpl in *.
  - destruct (CreateRequest_rows fault now q db) as [->|[-> (H1 & H2 & H3 & H4)]]; [done|]. simpl.
    apply map_Forall_insert_2; [|done]. split_and!; simpl; eauto.
    + unfold known_states. set_solver.
    + repeat constructor; auto using TrimSpace_idemp.
  - destruct (TransitionRequest fault now id' from to fields db) as [[[]|e] db'] eqn:E; simpl.
    + apply TransitionRequest_ok in E as (_ & Hc & r0 & Hr0 & <- & ->). simpl.
      apply map_Forall_insert_2; [|done]. apply updateRow_ok; [done|done|]. by eapply Hrows.
    + pose proof (TransitionRequest_err fault now id' from to fields db) as He.
      rewrite E in He. simpl in He. by rewrite He.
  - destruct fault; simpl; [done|]. intros id r. rewrite lookup_fmap.
    destruct (db_rows db !! id) as [r0|] eqn:E; [|done]. intros [= <-].
    apply reclaimRow_ok; [done|]. by eapply Hrows.
Qed.

Lemma run_ok ops db : Forall op_ok ops → db_ok db → db_ok (run ops db).
Proof.
  unfold run. intros Ho. revert db. induction Ho as [|o ops Ho _ IH]; intros db H; [done|].
  simpl. by apply IH, exec_ok.
Qed.

Lemma emptyDb_ok : db_ok emptyDb.
Proof. split; [apply emptyDb_ids_ok|]. apply map_Forall_empty. Qed.

Definition time_of (s : string) : Z := default 0%Z (parse_time s).

Lemma time_of_fmt t : time_ok t → time_of (fmt_time t) = t.
Proof. intros H. unfold time_of. by rewrite parse_fmt_time. Qed.

(** ** Reading the table *)

#[export] Instance sw_newer : StrictWeak newer.
Proof.
  apply (sw_flip (λ x y : Z * Row, String.ltb (row_created_at x.2) (row_created_at y.2))).
Qed.

#[export] Instance sw_larger_id : StrictWeak larger_id.
Proof.
  pose proof (sw_on (fst : Z * Row → Z) Z.ltb) as H.
  apply (sw_flip (λ x y : Z * Row, (x.1 <? y.1)%Z)).
Qed.

Lemma not_newer x y :
  row_ok x.2 → row_ok y.2 → not_after newer x y →
  (time_of (row_created_at y.2) ≤ time_of (row_created_at x.2))%Z.
Proof.
  intros (_ & _ & (t & Ht & Ex) & _) (_ & _ & (u & Hu & Ey) & _). unfold not_after, newer.
  rewrite Ex, Ey, fmt_time_ltb, !time_of_fmt by done. rewrite Z.ltb_ge. done.
Qed.

Lemma ListRequests_facts db q scan :
  db_ok db → scan ≡ₚ map_to_list (db_rows db) →
  ∃ sel,
    ListRequests_scan None q scan = Ok ((λ x, scanRequest x.1 x.2) <$> sel) ∧
    length sel = min (list_limit q) (length (filter (λ x, list_matches q x.2 = true) scan)) ∧
    list_limit q ≤ 500 ∧ NoDup sel.*1 ∧
    (∀ id r, (id, r) ∈ sel → db_rows db !! id = Some r ∧ list_matches q r = true) ∧
    StronglySorted (λ x y, time_of (row_created_at y.2) ≤ time_of (row_created_at x.2))%Z sel ∧
    (∀ id r x, db_rows db !! id = Some r → list_matches q r = true → (id, r) ∉ sel → x ∈ sel →
      (time_of (row_created_at r) ≤ time_of (row_created_at x.2))%Z).
Proof.
  intros [_ Hrows] Hscan. exists (select_requests q scan). split; [done|].
  unfold select_requests. set (l := sort_slice newer _).
  assert (Hl : ∀ id r, (id, r) ∈ l ↔ db_rows db !! id = Some r ∧ list_matches q r = true).
  { intros id r. subst l. rewrite elem_of_sort_slice, list_elem_of_filter, Hscan, elem_of_map_to_list.
    naive_solver. }
  assert (Hnd : NoDup l.*1).
  { subst l. rewrite sort_slice_perm. apply NoDup_fmap_filter. rewrite Hscan.
    apply NoDup_fst_map_to_list. }
  destruct (StronglySorted_take _ (list_limit q) l (sort_slice_sorted newer _)) as [Hs Hrest].
  assert (Hok : ∀ x, x ∈ l → row_ok x.2) by (intros [id r] [? _]%Hl; by eapply Hrows).
  split_and!.
  - rewrite length_take. subst l. by rewrite length_sort_slice.
  - unfold list_limit. destruct (Z.leb_spec (q_Limit q) 0), (Z.ltb_spec 500 (q_Limit q)); simpl; lia.
  - by apply NoDup_fmap_take.
  - intros id r Hin. apply Hl. by eapply subseteq_take.
  - eapply StronglySorted_weaken; [|exact Hs]. intros x y Hx Hy.
    apply not_newer; apply Hok; by eapply subseteq_take.
  - intros id r x Hr Hm Hn Hx. assert ((id, r) ∈ l) as Hin by by apply Hl.
    apply (not_newer x (id, r)); [apply Hok; by eapply subseteq_take|by apply Hok|].
    by apply Hrest.
Qed.

(** Listing: on a reachable table and whatever order the rows are visited in,
    the answer holds matching rows only, each once, as many as match up to the
    limit (never more than 500), in order of creation time with the newest
    first; a matching row left out is no newer than any row returned. *)
Theorem ListRequests_spec db q scan :
  db_ok db → scan ≡ₚ map_to_list (db_rows db) →
  ∃ sel,
    ListRequests_scan None q scan = Ok ((λ x, scanRequest x.1 x.2) <$> sel) ∧
    length sel = min (list_limit q) (length (filter (λ x, list_matches q x.2 = true) scan)) ∧
    list_limit q ≤ 500 ∧ NoDup sel.*1 ∧
    (∀ id r, (id, r) ∈ sel → db_rows db !! id = Some r ∧ list_matches q r = true) ∧
    StronglySorted (λ x y, time_of (row_created_at y.2) ≤ time_of (row_created_at x.2))%Z sel ∧
    (∀ id r x, db_rows db !! id = Some r → list_matches q r = true → (id, r) ∉ sel → x ∈ sel →
      (time_of (row_created_at r) ≤ time_of (row_created_at x.2))%Z).
Proof. apply ListRequests_facts. Qed.

(** A table with one request approved and one pending. *)
Definition demo_request : Request :=
  mkRequest 0 " ann " "" "header" "rules_go" "0.50.0" "" "" "" None None "" "" "" "" 0.

Definition demo_ops : list op :=
  [OpCreate None 1000 demo_request;
   OpTransition None 2000 1 RequestStatePending RequestStatePreflighting None;
   OpTransition None 3000 1 RequestStatePreflighting RequestStateDenied
     (Some (mkRequestFields "{}" "no" "" "" None));
   OpCreate None 4000 demo_request].

Definition demo_db : Db := run demo_ops emptyDb.

Lemma demo_db_ok : db_ok demo_db.
Proof.
  apply run_ok; [|apply emptyDb_ok].
  repeat (apply Forall_cons; split; [apply time_ok_small; lia|]). by apply Forall_nil.
Qed.

Lemma request_history_witness :
  ∃ r r', db_rows (run demo_ops emptyDb) !! 1%Z = Some r ∧
    db_rows (run (demo_ops ++ [OpReclaim None 9000 8000]) emptyDb) !! 1%Z = Some r' ∧ r' = r.
Proof.
  assert (is_Some (db_rows (run demo_ops emptyDb) !! 1%Z)) as [r Hr]
    by (vm_compute; by eexists).
  destruct (request_history demo_ops [OpReclaim None 9000 8000] 1 r Hr) as (r' & Hr' & _ & _ & Ht).
  exists r, r'. split; [exact Hr|]. split; [exact Hr'|]. apply Ht.
  vm_compute in Hr. injection Hr as <-. reflexivity.
Defined.

Lemma ListRequests_spec_witness :
  db_ok demo_db ∧
  ∃ sel, ListRequests_scan None (mkRequestQuery [RequestStatePending] "" 0)
           (map_to_list (db_rows demo_db)) = Ok ((λ x, scanRequest x.1 x.2) <$> sel) ∧
         length sel = 1.
Proof.
  split; [exact demo_db_ok|].
  destruct (ListRequests_spec demo_db (mkRequestQuery [RequestStatePending] "" 0)
    (map_to_list (db_rows demo_db)) demo_db_ok (Permutation_refl _)) as (sel & H1 & H2 & _).
  exists sel. split; [exact H1|]. rewrite H2. vm_compute. reflexivity.
Defined.

(** A submission read back: the request gets the next id, in state pending with
    both timestamps the instant of the call, the four required fields trimmed
    and every other field as submitted; without a database error it fails
    exactly when a required field is blank, and then changes nothing. *)
Theorem create_get_roundtrip now r db :
  time_ok now →
  match CreateRequest None now r db with
  | (Ok id, db') =>
      id = (db_last_id db + 1)%Z ∧
      GetRequest None id db' = Ok (mkRequest id (TrimSpace (req_SubmitterSub r))
        (req_SubmitterEmail r) (TrimSpace (req_AuthMethod r)) (TrimSpace (req_Module r))
        (TrimSpace (req_Version r)) (req_SourceURL r) (req_SubmitterNotes r) RequestStatePending
        (Some now) (Some now) "" "" "" "" 0) ∧
      (∀ id', id' ≠ id → db_rows db' !! id' = db_rows db !! id')
  | (Err e, db') =>
      db' = db ∧ ∃ f s, e = ErrRequired f ∧ TrimSpace s = "" ∧
        (f, s) ∈ [("submitter_sub", req_SubmitterSub r); ("auth_method", req_AuthMethod r);
                  ("module", req_Module r); ("version", req_Version r)]
  end.
Proof.
  intros Ht. unfold CreateRequest.
  repeat case_decide; [split; [done|]; eexists _, _; split_and!; [done|eassumption|set_solver]..|].
  simpl. split; [done|]. split; [|intros id' ?; by rewrite lookup_insert_ne].
  rewrite lookup_insert_eq. unfold scanRequest. simpl. rewrite !parse_fmt_time by done.
  assert (∀ s, default "" (nullableString s) = s) as Hn
    by (intros s; unfold nullableString; by case_decide).
  by rewrite !Hn.
Qed.

Lemma create_get_roundtrip_witness :
  time_ok 1000 ∧ GetRequest None 1 (CreateRequest None 1000 demo_request emptyDb).2 =
    Ok (mkRequest 1 "ann" "" "header" "rules_go" "0.50.0" "" "" RequestStatePending
          (Some 1000%Z) (Some 1000%Z) "" "" "" "" 0).
Proof.
  split; [apply time_ok_small; lia|].
  exact (proj1 (proj2 (create_get_roundtrip 1000 demo_request emptyDb (time_ok_small 1000 ltac:(lia))))).
Defined.

Lemma FindOpenRequest_facts module version db :
  match FindOpenRequest None module version db with
  | Ok req => ∃ r, db_rows db !! req_ID req = Some r ∧ req = scanRequest (req_ID req) r ∧
      row_module r = module ∧ row_version r = version ∧ terminal (row_state r) = false ∧
      ∀ id' r', db_rows db !! id' = Some r' → row_module r' = module → row_version r' = version →
        terminal (row_state r') = false → (id' ≤ req_ID req)%Z
  | Err e => e = ErrRequestNotFound ∧
      ∀ id' r', db_rows db !! id' = Some r' → row_module r' = module → row_version r' = version →
        terminal (row_state r') = true
  end.
Proof.
  unfold FindOpenRequest.
  set (l := filter _ _).
  assert (Hl : ∀ id r, (id, r) ∈ sort_slice larger_id l ↔ db_rows db !! id = Some r ∧
    row_module r = module ∧ row_version r = version ∧ terminal (row_state r) = false).
  { intros id r. subst l. rewrite elem_of_sort_slice, list_elem_of_filter, elem_of_map_to_list.
    unfold open_for, open_row, terminal. rewrite !andb_true_iff, !bool_decide_eq_true,
      bool_decide_eq_false. naive_solver. }
  pose proof (sort_slice_sorted larger_id l) as Hs.
  destruct (sort_slice larger_id l) as [|[id r] k].
  - split; [done|]. intros id' r' Hr Hm Hv. apply not_false_iff_true. intros Ht.
    apply (not_elem_of_nil (id', r')). apply Hl. done.
  - destruct (proj1 (Hl id r)) as (Hr & Hm & Hv & Ht); [by left|].
    exists r. cbn [req_ID scanRequest]. split_and!; try done.
    intros id' r' Hr' Hm' Hv' Ht'.
    assert ((id', r') ∈ (id, r) :: k) as [[= -> ->]|Hin]%elem_of_cons by by apply Hl.
    { done. }
    apply StronglySorted_inv in Hs as [_ Hs]. rewrite Forall_forall in Hs.
    specialize (Hs _ Hin). unfold not_after, larger_id in Hs. simpl in Hs.
    apply Z.ltb_ge in Hs. done.
Qed.

(** The dedup lookup finds the open request of the coordinates with the largest
    id, and reports not-found exactly when there is none; it agrees with
    [AnyRequestFor] that an open request is a request. *)
Theorem FindOpenRequest_spec module version db :
  match FindOpenRequest None module version db with
  | Ok req => ∃ r, db_rows db !! req_ID req = Some r ∧ req = scanRequest (req_ID req) r ∧
      row_module r = module ∧ row_version r = version ∧ terminal (row_state r) = false ∧
      ∀ id' r', db_rows db !! id' = Some r' → row_module r' = module → row_version r' = version →
        terminal (row_state r') = false → (id' ≤ req_ID req)%Z
  | Err e => e = ErrRequestNotFound ∧
      ∀ id' r', db_rows db !! id' = Some r' → row_module r' = module → row_version r' = version →
        terminal (row_state r') = true
  end.
Proof. apply FindOpenRequest_facts. Qed.

(** The boot sweep: exactly the requests that have been fetching since before
    the cutoff go back to approved, stamped with the time of the sweep and
    otherwise untouched, and the reported count is their number; every other
    row and the id counter stay as they are. *)
Theorem Reclaim_exact now before db :
  db_ok db → time_ok before →
  let stuck_rows := filter (λ x, row_state x.2 = RequestStateFetching ∧
      (time_of (row_state_changed_at x.2) < before)%Z) (map_to_list (db_rows db)) in
  (ReclaimStuckFetching None now before db).1 = Ok (Z.of_nat (length stuck_rows)) ∧
  db_last_id (ReclaimStuckFetching None now before db).2 = db_last_id db ∧
  ∀ id, db_rows (ReclaimStuckFetching None now before db).2 !! id =
    (λ r, if decide ((id, r) ∈ stuck_rows) then updateRow now RequestStateApproved noFields r else r)
      <$> db_rows db !! id.
Proof.
  intros [_ Hrows] Hb. cbv zeta.
  assert (Hst : ∀ id r, db_rows db !! id = Some r →
    stuck before r = true ↔ row_state r = RequestStateFetching ∧
      (time_of (row_state_changed_at r) < before)%Z).
  { intros id r Hr. destruct (Hrows _ _ Hr) as (_ & _ & _ & t & Ht & E).
    unfold stuck. rewrite andb_true_iff, bool_decide_eq_true, E, fmt_time_ltb, Z.ltb_lt by done.
    by rewrite time_of_fmt. }
  split; [|split; [done|]].
  - simpl. do 3 f_equal. apply list_filter_iff'. intros [id r] Hin%elem_of_map_to_list.
    by apply (Hst id).
  - intros id. simpl. rewrite lookup_fmap. destruct (db_rows db !! id) as [r|] eqn:Hr; [|done].
    simpl. f_equal. unfold reclaimRow.
    destruct (stuck before r) eqn:E.
    + rewrite decide_True; [done|]. apply list_elem_of_filter. split; [by apply (Hst id)|].
      by apply elem_of_map_to_list.
    + rewrite decide_False; [done|]. intros [H _]%list_elem_of_filter.
      apply (proj2 (Hst id r Hr)) in H. congruence.
Qed.

Definition demo_stuck : Db :=
  run (demo_ops ++ [OpTransition None 5000 2 RequestStatePending RequestStatePreflighting None;
        OpTransition None 6000 2 RequestStatePreflighting RequestStateAutoPass None;
        OpTransition None 7000 2 RequestStateAutoPass RequestStateFetching None]) emptyDb.

Lemma demo_stuck_ok : db_ok demo_stuck.
Proof.
  apply run_ok; [|apply emptyDb_ok].
  repeat (apply Forall_cons; split; [apply time_ok_small; lia|]). by apply Forall_nil.
Qed.

Lemma Reclaim_exact_witness :
  db_ok demo_stuck ∧ time_ok 8000 ∧ (ReclaimStuckFetching None 9000 8000 demo_stuck).1 = Ok 1%Z.
Proof.
  split; [exact demo_stuck_ok|]. split; [apply time_ok_small; lia|].
  destruct (Reclaim_exact 9000 8000 demo_stuck demo_stuck_ok (time_ok_small 8000 ltac:(lia))) as [H _].
  etrans; [exact H|]. vm_compute. reflexivity.
Defined.
