(* ===== verification/Preflight.v ===== *)
(** * Automated preflight of procurement requests

    [internal/preflight]: the upstream probe ([cascade.go]), the checker
    ([checker.go]), the verdict ([verdict.go]) and the worker's step
    ([runner.go]).  The URL parser's host, the HTTP client and the JSON codec
    are parameters. *)

From S2P Require Import Prelude Strings Timestamp Policy AuditTrail Requests.

(** ** Upstream probe *)

Record CascadeHit := mkCascadeHit {
  hit_URL : string;
  hit_Integrity : string;
  hit_StripPrefix : string;
}.

(** What the HTTP client returns for a GET: an error, or a status and a body
    that may fail to read. *)
Record HttpResponse := mkHttpResponse {
  resp_StatusCode : Z;
  resp_Body : result string string;
}.

Inductive ProbeError : Type :=
| ProbeTransport (msg : string)
| ProbeStatus (url : string) (code : Z)
| ProbeRead (url msg : string)
| ProbeParse (url msg : string)
| ProbeIncomplete (url : string).

Section probe.
Context (http_get : string → result string HttpResponse).
Context (unmarshal_hit : string → result string CascadeHit).

Definition NewBCRProbe (baseURL : string) : string := TrimRight baseURL "/".

(** [io.LimitReader(body, 64*1024)] *)
Definition limit_read (n : Z) (body : string) : string := of_bytes (take (Z.to_nat n) (to_bytes body)).

Definition probe_url (baseURL module version : string) : string :=
  baseURL +:+ "/modules/" +:+ module +:+ "/" +:+ version +:+ "/source.json".

Definition BCRProbe_Has (baseURL module version : string)
    : result ProbeError (option CascadeHit) :=
  let url := probe_url baseURL module version in
  match http_get url with
  | Err e => Err (ProbeTransport e)
  | Ok resp =>
      if decide (resp_StatusCode resp = 404%Z) then Ok None
      else if (resp_StatusCode resp <? 200)%Z || (300 <=? resp_StatusCode resp)%Z
      then Err (ProbeStatus url (resp_StatusCode resp))
      else
        match resp_Body resp with
        | Err e => Err (ProbeRead url e)
        | Ok body =>
            match unmarshal_hit (limit_read (64 * 1024) body) with
            | Err e => Err (ProbeParse url e)
            | Ok hit =>
                if decide (hit_URL hit = "" ∨ hit_Integrity hit = "")
                then Err (ProbeIncomplete url)
                else Ok (Some hit)
            end
        end
  end.

(** The probe fails closed: it reports a hit only for a 2xx answer whose first
    64 KiB decode to a source with a URL and an integrity hash, reports not
    found only for status 404, and everything else is an error. *)
Theorem BCRProbe_Has_spec baseURL module version :
  let url := probe_url baseURL module version in
  (BCRProbe_Has baseURL module version = Ok None ↔
    ∃ resp, http_get url = Ok resp ∧ resp_StatusCode resp = 404%Z) ∧
  (∀ hit, BCRProbe_Has baseURL module version = Ok (Some hit) ↔
    ∃ resp body, http_get url = Ok resp ∧ (200 ≤ resp_StatusCode resp < 300)%Z ∧
      resp_Body resp = Ok body ∧ unmarshal_hit (limit_read (64 * 1024) body) = Ok hit ∧
      hit_URL hit ≠ "" ∧ hit_Integrity hit ≠ "").
Proof.
  cbv zeta. unfold BCRProbe_Has. destruct (http_get _) as [resp|e] eqn:Hg.
  2: { split; [|intros hit]; (split; [done|]); [by intros (? & ? & _)|by intros (? & ? & ? & _)]. }
  destruct (decide (resp_StatusCode resp = 404%Z)) as [E404|N404].
  { split; [split; eauto|]. intros hit. split; [done|].
    intros (r & body & [= <-] & ? & _). lia. }
  destruct (Z.ltb_spec (resp_StatusCode resp) 200) as [H2|H2]; simpl.
  { split; [split; [done|]; by intros (r & [= <-] & ?)|]. intros hit. split; [done|].
    intros (r & body & [= <-] & ? & _). lia. }
  destruct (Z.leb_spec 300 (resp_StatusCode resp)) as [H3|H3].
  { split; [split; [done|]; by intros (r & [= <-] & ?)|]. intros hit. split; [done|].
    intros (r & body & [= <-] & ? & _). lia. }
  destruct (resp_Body resp) as [body|e] eqn:Hb.
  2: { split; [split; [done|]; by intros (r & [= <-] & ?)|]. intros hit. split; [done|].
    intros (r & b & [= <-] & ? & ? & _). congruence. }
  destruct (unmarshal_hit _) as [h|e] eqn:Hu.
  2: { split; [split; [done|]; by intros (r & [= <-] & ?)|]. intros hit. split; [done|].
    intros (r & b & [= <-] & ? & Hb' & Hu' & _). rewrite Hb in Hb'. injection Hb' as <-. congruence. }
  case_decide as Hc.
  - split; [split; [done|]; by intros (r & [= <-] & ?)|]. intros hit. split; [done|].
    intros (r & b & [= <-] & ? & Hb' & Hu' & ? & ?). rewrite Hb in Hb'. injection Hb' as <-.
    assert (hit = h) as -> by congruence. by destruct Hc.
  - split; [split; [done|]; by intros (r & [= <-] & ?)|]. intros hit. split.
    + intros [= <-]. exists resp, body. split_and!; try done; lia || (intros ?; apply Hc; auto).
    + intros (r & b & [= <-] & ? & Hb' & Hu' & ? & ?). rewrite Hb in Hb'. injection Hb' as <-.
      congruence.
Qed.
End probe.

(** ** Verdicts *)

Record Verdict := mkVerdict {
  vd_NextState : RequestState;
  vd_Reason : string;
  vd_License : string;
  vd_Hermeticity : string;
  vd_ArchiveSize : Z;
  vd_SourceSHA : string;
  vd_Notes : string;
  vd_CascadeSource : option CascadeHit;
}.

Definition validNextStates : gmap RequestState bool :=
  list_to_map [(RequestStateAutoPass, true); (RequestStateNeedsReview, true);
               (RequestStateDenied, true)].

Definition valid_next (s : RequestState) : bool := default false (validNextStates !! s).

Definition denyVerdict (reason : string) : Verdict :=
  mkVerdict RequestStateDenied reason "" "" 0 "" "" None.
Definition reviewVerdict : Verdict :=
  mkVerdict RequestStateNeedsReview "" "" "" 0 "" "submitted for human review" None.

(** ** The checker *)

Abbreviation Probe := (string → string → result ProbeError (option CascadeHit)).

Section check.
(** [url.Parse(u)] and its [Hostname()]; [None] when it does not parse. *)
Context (url_hostname : string → option string).

Definition hostOf (u : string) : string :=
  if decide (u = "") then ""
  else match url_hostname u with None => "" | Some h => ToLower h end.

Definition denyByURLShape (pol : Policy) (req : Request) : option Verdict :=
  let src := adm_Source (pol_Admission pol) in
  if negb (src_RequireHTTPS src) then None
  else if decide (req_SourceURL req = "") then None
  else if HasPrefix (req_SourceURL req) "https://" then None
  else Some (denyVerdict
    "source_url must be https:// (policy admission.source.require_https=true)").

Definition denyByHostPolicy (pol : Policy) (req : Request) : option Verdict :=
  let src := adm_Source (pol_Admission pol) in
  let host := hostOf (req_SourceURL req) in
  if decide (host = "") then None
  else if decide (host ∈ src_DenylistedHosts src) then
    Some (denyVerdict ("source host " +:+ host +:+
      " is denylisted (policy admission.source.denylisted_hosts)"))
  else if decide (src_AllowedHosts src ≠ [] ∧ host ∉ src_AllowedHosts src) then
    Some (denyVerdict ("source host " +:+ host +:+
      " is not in the allowlist (policy admission.source.allowed_hosts)"))
  else None.

Definition autoPassByCascade (cascade : option Probe) (pol : Policy) (req : Request)
    : option Verdict :=
  match cascade with
  | None => None
  | Some has =>
      if negb (rev_AutoPassOnAlreadyInUpstream (adm_Review (pol_Admission pol))) then None
      else
        match has (req_Module req) (req_Version req) with
        | Err _ | Ok None => None
        | Ok (Some hit) =>
            Some (mkVerdict RequestStateAutoPass "" "" "" 0 ""
              "already published in upstream BCR — skipping human review" (Some hit))
        end
  end.

(** [DefaultChecker.Check]; [snap] is the policy snapshot, [None] when no
    source is wired or it yields nil. *)
Definition Check_request (snap : option Policy) (cascade : option Probe) (req : Request) : Verdict :=
  match snap with
  | None => reviewVerdict
  | Some pol =>
      match denyByURLShape pol req with
      | Some v => v
      | None =>
          match denyByHostPolicy pol req with
          | Some v => v
          | None =>
              match autoPassByCascade cascade pol req with
              | Some v => v
              | None => reviewVerdict
              end
          end
      end
  end.

(** What the operator's policy forbids about a source URL. *)
Inductive forbidden (pol : Policy) (u : string) : Prop :=
| forbidden_scheme :
    src_RequireHTTPS (adm_Source (pol_Admission pol)) = true → u ≠ "" →
    HasPrefix u "https://" = false → forbidden pol u
| forbidden_denylisted :
    hostOf u ≠ "" → hostOf u ∈ src_DenylistedHosts (adm_Source (pol_Admission pol)) →
    forbidden pol u
| forbidden_not_allowed :
    hostOf u ≠ "" → src_AllowedHosts (adm_Source (pol_Admission pol)) ≠ [] →
    hostOf u ∉ src_AllowedHosts (adm_Source (pol_Admission pol)) → forbidden pol u.

(** What lets a request skip the human: the policy enables it, a probe is wired
    and the probe found the version upstream. *)
Definition passes (pol : Policy) (cascade : option Probe) (req : Request) (hit : CascadeHit) : Prop :=
  rev_AutoPassOnAlreadyInUpstream (adm_Review (pol_Admission pol)) = true ∧
  ∃ has, cascade = Some has ∧ has (req_Module req) (req_Version req) = Ok (Some hit).

Lemma deny_spec pol req :
  match denyByURLShape pol req with
  | Some v => forbidden pol (req_SourceURL req) ∧ vd_NextState v = RequestStateDenied ∧ vd_Reason v ≠ ""
  | None =>
      match denyByHostPolicy pol req with
      | Some v => forbidden pol (req_SourceURL req) ∧ vd_NextState v = RequestStateDenied ∧ vd_Reason v ≠ ""
      | None => ¬ forbidden pol (req_SourceURL req)
      end
  end.
Proof.
  unfold denyByURLShape.
  assert (match denyByHostPolicy pol req with
      | Some v => forbidden pol (req_SourceURL req) ∧ vd_NextState v = RequestStateDenied ∧ vd_Reason v ≠ ""
      | None => forbidden pol (req_SourceURL req) →
          src_RequireHTTPS (adm_Source (pol_Admission pol)) = true ∧ req_SourceURL req ≠ "" ∧
          HasPrefix (req_SourceURL req) "https://" = false
      end) as Hhost.
  { unfold denyByHostPolicy.
    destruct (decide (hostOf (req_SourceURL req) = "")) as [Hh|Hh]; [intros []; auto; done|].
    destruct (decide (hostOf (req_SourceURL req) ∈ _)) as [Hd|Hd].
    { split; [by apply forbidden_denylisted|done]. }
    destruct (decide (src_AllowedHosts (adm_Source (pol_Admission pol)) ≠ [] ∧ _)) as [[Ha Hn]|Ha].
    { split; [by apply forbidden_not_allowed|done]. }
    intros []; auto; naive_solver. }
  destruct (src_RequireHTTPS (adm_Source (pol_Admission pol))) eqn:Hr; simpl.
  - destruct (decide (req_SourceURL req = "")) as [Hu|Hu].
    { destruct (denyByHostPolicy pol req); [done|]. intros (_ & ? & _)%Hhost. done. }
    destruct (HasPrefix (req_SourceURL req) "https://") eqn:Hp.
    { destruct (denyByHostPolicy pol req); [done|]. intros (_ & _ & ?)%Hhost. done. }
    split; [by apply forbidden_scheme|done].
  - destruct (denyByHostPolicy pol req); [done|]. intros (? & _)%Hhost. done.
Qed.

(** The verdict is one of three: denied, with a reason, exactly when the policy
    forbids the source URL (scheme, denylist, allowlist); otherwise auto_pass,
    carrying the upstream's source location, exactly when the policy enables the
    shortcut and the probe found the version; otherwise a human reviews.  A
    failing probe, a missing probe and a missing policy mean review, never a
    pass. *)
Theorem Check_decides snap cascade req :
  let v := Check_request snap cascade req in
  (∃ pol, snap = Some pol ∧ forbidden pol (req_SourceURL req) ∧
    vd_NextState v = RequestStateDenied ∧ vd_Reason v ≠ "") ∨
  (∃ pol hit, snap = Some pol ∧ ¬ forbidden pol (req_SourceURL req) ∧ passes pol cascade req hit ∧
    vd_NextState v = RequestStateAutoPass ∧ vd_CascadeSource v = Some hit) ∨
  ((∀ pol, snap = Some pol → ¬ forbidden pol (req_SourceURL req) ∧
      ∀ hit, ¬ passes pol cascade req hit) ∧
    vd_NextState v = RequestStateNeedsReview ∧ vd_CascadeSource v = None).
Proof.
  unfold Check_request. destruct snap as [pol|]; [|right; right; naive_solver].
  pose proof (deny_spec pol req) as Hd. cbv zeta.
  destruct (denyByURLShape pol req) as [v|]; [left; naive_solver|].
  destruct (denyByHostPolicy pol req) as [v|]; [left; naive_solver|]. right.
  destruct (autoPassByCascade cascade pol req) as [v|] eqn:Ha; unfold autoPassByCascade in Ha.
  - left. destruct cascade as [has|]; [|done].
    destruct (rev_AutoPassOnAlreadyInUpstream _) eqn:Hr; [|done]. simpl in Ha.
    destruct (has _ _) as [[hit|]|] eqn:Hh; try done. injection Ha as <-.
    exists pol, hit. split_and!; try done. split; [done|]. eauto.
  - right. split; [|done]. intros pol' [= <-]. split; [done|].
    intros hit (Hr & has & -> & Hh). rewrite Hr, Hh in Ha. done.
Qed.
End check.

(** ** The worker *)

Section worker.
Context (marshal_verdict : Verdict → string).

(** One iteration of the loop over the listed candidates: the compare-and-swap
    that makes the worker the owner. *)
Definition claim (fault : option string) (now : Z) (req : Request) (db : Db) : bool * Db :=
  let (r, db') := TransitionRequest fault now (req_ID req) RequestStatePending
                    RequestStatePreflighting None db in
  (is_ok r, db').

Definition verdictFields (v : Verdict) : RequestFields :=
  mkRequestFields (marshal_verdict v)
    (if decide (vd_NextState v = RequestStateDenied) then vd_Reason v else "") "" "" None.

Definition preflightEvent (req : Request) (v : Verdict) : AuditEvent :=
  mkAuditEvent 0 None ("preflight_" +:+ vd_NextState v) "preflight" (req_Module req)
    (req_Version req) (bool_decide (vd_NextState v ≠ RequestStateDenied)) 0 (vd_Reason v)
    (marshal_verdict v) "".

(** [processOwned] after the checker answered [v]: at most one transition, and
    one audit record when it succeeded. *)
Definition processOwned (tfault afault : option string) (now now' : Z) (req : Request) (v : Verdict)
    (s : Db * AuditDb) : Db * AuditDb :=
  if negb (valid_next (vd_NextState v)) then s
  else
    match TransitionRequest tfault now (req_ID req) RequestStatePreflighting (vd_NextState v)
            (Some (verdictFields v)) s.1 with
    | (Err _, db') => (db', s.2)
    | (Ok _, db') => (db', (RecordAudit afault now' (preflightEvent req v) s.2).2)
    end.

(** The loop of [tryProcessOne] over the candidates, when the context stays
    live: the first claim that wins is processed, and the loop ends. *)
Fixpoint try_candidates (check : Request → Verdict) (now : Z) (candidates : list Request)
    (s : Db * AuditDb) : Db * AuditDb :=
  match candidates with
  | [] => s
  | req :: rest =>
      match claim None now req s.1 with
      | (true, db') => processOwned None None now now req (check req) (db', s.2)
      | (false, db') => try_candidates check now rest (db', s.2)
      end
  end.

Definition tryProcessOne (check : Request → Verdict) (now : Z) (workers : Z) (s : Db * AuditDb)
    : Db * AuditDb :=
  match ListRequests None (mkRequestQuery [RequestStatePending] "" (workers * 2)) s.1 with
  | Err _ => s
  | Ok pending => try_candidates check now pending s
  end.

Lemma valid_next_spec s :
  valid_next s = true ↔ s ∈ [RequestStateAutoPass; RequestStateNeedsReview; RequestStateDenied].
Proof.
  unfold valid_next, validNextStates. cbn [list_to_map foldr uncurry].
  rewrite !lookup_insert. repeat case_decide; subst; rewrite ?lookup_empty; cbn; set_solver.
Qed.

Lemma valid_next_legal s :
  valid_next s = true → CanTransitionTo RequestStatePreflighting s = true.
Proof.
  rewrite valid_next_spec, !elem_of_cons, elem_of_nil. by intros [->|[->|[->|[]]]].
Qed.

(** One tick of a worker that no other writer interleaves with, with the
    default checker: when something is pending, the newest pending request
    leaves the pending state for the state of its verdict, its row keeps the
    verdict (and the reason when denied), exactly one audit event is appended,
    and no other request changes. *)
Theorem tick_processes check now workers db au :
  db_ok db → (∀ req, valid_next (vd_NextState (check req)) = true) →
  (0 < workers)%Z →
  (∃ id r, db_rows db !! id = Some r ∧ row_state r = RequestStatePending) →
  ∃ id r, db_rows db !! id = Some r ∧ row_state r = RequestStatePending ∧
    let v := check (scanRequest id r) in
    tryProcessOne check now workers (db, au) =
      (mkDb (<[id := updateRow now (vd_NextState v) (verdictFields v)
                       (updateRow now RequestStatePreflighting noFields r)]> (db_rows db))
         (db_last_id db),
       (RecordAudit None now (preflightEvent (scanRequest id r) v) au).2) ∧
    (∀ id' r', db_rows db !! id' = Some r' → row_state r' = RequestStatePending →
      (time_of (row_created_at r') ≤ time_of (row_created_at r))%Z).
Proof.
  intros Hok Hval Hw (id0 & r0 & Hr0 & Hs0).
  set (q := mkRequestQuery [RequestStatePending] "" (workers * 2)).
  destruct (ListRequests_facts db q (map_to_list (db_rows db)) Hok (Permutation_refl _))
    as (sel & Hsel & Hlen & _ & _ & Hin & Hsorted & Hrest).
  assert (Hm : ∀ r, list_matches q r = true ↔ row_state r = RequestStatePending).
  { intros r. unfold list_matches, q. simpl.
    rewrite andb_true_r, bool_decide_eq_true, list_elem_of_singleton. done. }
  unfold tryProcessOne, ListRequests. cbn [fst]. unfold q in Hsel. rewrite Hsel.
  destruct sel as [|[id r] rest].
  - exfalso. simpl in Hlen.
    assert ((id0, r0) ∈ filter (λ x, list_matches q x.2 = true) (map_to_list (db_rows db))) as Hin0.
    { apply list_elem_of_filter. split; [by apply Hm|by apply elem_of_map_to_list]. }
    apply list_elem_of_split in Hin0 as (l1 & l2 & E). rewrite E in Hlen.
    rewrite length_app in Hlen. simpl in Hlen.
    assert (0 < list_limit q) by (unfold list_limit, q; simpl;
      destruct (Z.leb_spec (workers * 2) 0), (Z.ltb_spec 500 (workers * 2)); simpl; lia).
    lia.
  - destruct (Hin id r) as [Hr Hst%Hm]; [by left|]. exists id, r. split_and!; [done|done| |].
    + set (v := check (scanRequest id r)).
      set (db1 := mkDb (<[id := updateRow now RequestStatePreflighting noFields r]> (db_rows db))
                    (db_last_id db)).
      assert (TransitionRequest None now id RequestStatePending RequestStatePreflighting None db
        = (Ok tt, db1)) as E1 
        by (apply TransitionRequest_ok; split; [done|]; split; [reflexivity|]; exists r; done).
      assert (TransitionRequest None now id RequestStatePreflighting (vd_NextState v)
        (Some (verdictFields v)) db1 = (Ok tt, mkDb (<[id := updateRow now (vd_NextState v)
          (verdictFields v) (updateRow now RequestStatePreflighting noFields r)]> (db_rows db))
          (db_last_id db))) as E2.
      { apply TransitionRequest_ok. split; [done|]. split; [apply valid_next_legal, Hval|].
        eexists. split; [apply lookup_insert_eq|]. split; [done|]. simpl.
        by rewrite insert_insert_eq. }
      cbn [fmap list_fmap try_candidates fst snd]. unfold claim. cbn [req_ID scanRequest].
      rewrite E1. cbn [is_ok]. unfold processOwned. fold v. assert (valid_next (vd_NextState v) = true) as -> by apply Hval. cbn [negb fst snd].
      cbn [req_ID scanRequest]. by rewrite E2.
    + intros id' r' Hr' Hs'. destruct (decide (id' = id)) as [->|Hne].
      { assert (r' = r) as -> by congruence. done. }
      destruct (decide ((id', r') ∈ (id, r) :: rest)) as [Hi|Hi].
      * apply StronglySorted_inv in Hsorted as [_ Hf]. rewrite Forall_forall in Hf.
        apply elem_of_cons in Hi as [[= ? ?]|Hi]; [done|]. by apply (Hf _ Hi).
      * apply (Hrest id' r' (id, r)); [done|by apply Hm|done|by left].
Qed.
End worker.

Lemma tick_processes_witness :
  db_ok demo_db ∧
  ∃ id r, db_rows demo_db !! id = Some r ∧ row_state r = RequestStatePending ∧
    (tryProcessOne (λ _, "{}") (λ _, reviewVerdict) 5000 2 (demo_db, emptyAudit)).1 =
      mkDb (<[id := updateRow 5000 RequestStateNeedsReview (mkRequestFields "{}" "" "" "" None)
                      (updateRow 5000 RequestStatePreflighting noFields r)]> (db_rows demo_db)) 2.
Proof.
  split; [exact demo_db_ok|].
  destruct (tick_processes (λ _, "{}") (λ _, reviewVerdict) 5000 2 demo_db emptyAudit demo_db_ok)
    as (id & r & Hr & Hs & Ht & _).
  - intros _. reflexivity.
  - lia.
  - assert (is_Some (db_rows demo_db !! 2%Z)) as [r Hr] by (vm_compute; by eexists).
    exists 2%Z, r. split; [exact Hr|]. vm_compute in Hr. injection Hr as <-. reflexivity.
  - exists id, r. split; [exact Hr|]. split; [exact Hs|]. rewrite Ht. reflexivity.
Defined.
