(* ===== verification/Archive.v ===== *)
(** * Extracting source archives

    [internal/archive]: [ExtractTarGz] and [ExtractZip].  The decompressors are
    libraries: an archive is the list of entries they produce, each with its
    content stream and the error that ends the stream, if any; a list may end in
    a header error.  The file system is the list of calls made to it, which fail
    where [mkdir_err] and [open_err] say so.  Paths are Unix paths. *)

From S2P Require Import Prelude Strings.

(** ** filepath *)

Definition slash : ascii := "/"%char.

(** The segments of a path that [filepath.Clean] looks at. *)
Definition segs (s : string) : list string :=
  filter (λ x, x ≠ "" ∧ x ≠ ".") (Split s slash).

(** The stack of segments of a rooted path: [..] pops, at the root it stays. *)
Definition resolve_step (stack : list string) (x : string) : list string :=
  if decide (x = "..") then take (length stack - 1) stack else stack ++ [x].

(** [filepath.Clean] of a path that starts with a slash. *)
Definition clean_rooted (s : string) : string :=
  "/" +:+ Join (foldl resolve_step [] (segs s)) "/".

(** [filepath.Join(destAbs, name)] for a rooted [destAbs] and a non-empty name. *)
Definition join_path (destAbs name : string) : string := clean_rooted (destAbs +:+ "/" +:+ name).

(** [filepath.Dir] of a clean rooted path. *)
Definition dir_path (p : string) : string :=
  let l := foldl resolve_step [] (segs p) in "/" +:+ Join (take (length l - 1) l) "/".

(** ** Entries and errors *)

Inductive entry_type : Type := TypeDir | TypeReg | TypeSymlink | TypeOther.

Record entry := mkEntry {
  e_name : string;
  e_type : entry_type;
  e_mode : Z;
  e_data : bytes;
  e_read_err : option string;
}.

Inductive ExtractError : Type :=
| ErrGzip (msg : string)
| ErrHeader (msg : string)
| ErrAbsolute (name : string)
| ErrParentDir (name : string)
| ErrEscapes (name : string)
| ErrMkdir (path msg : string)
| ErrOpenFile (path msg : string)
| ErrWrite (path msg : string)
| ErrExtractTooLarge (name : string)
| ErrBuffer (msg : string).

(** Calls on the file system. *)
Inductive fs_call : Type :=
| MkdirAll (path : string)
| WriteFile (path : string) (mode : Z) (data : bytes).

Definition call_path (c : fs_call) : string :=
  match c with MkdirAll p => p | WriteFile p _ _ => p end.

(** ** Shared pieces *)

Definition stripped (name prefix : string) : string :=
  if decide (prefix = "") then name
  else
    let prefix := TrimSuffix prefix "/" in
    if decide (name = prefix ∨ name = prefix +:+ "/") then ""
    else if HasPrefix name (prefix +:+ "/") then TrimPrefix name (prefix +:+ "/")
    else name.

(** [os.FileMode(m).Perm()], 0o644 when empty. *)
Definition modeOf (m : Z) : Z :=
  let p := Z.land m 511 in if (p =? 0)%Z then 420%Z else p.

(** What [io.Copy] moves out of [io.LimitReader(src, n)]: the stream's error only
    shows when the limit does not stop the copy first. *)
Definition copy_limited (n : Z) (data : bytes) (err : option string) : bytes * option string :=
  if (n <=? Z.of_nat (length data))%Z then (take (Z.to_nat n) data, None) else (data, err).

(** The checks on an entry's name, and the path it goes to. *)
Definition check_path (destAbs orig name : string) : result ExtractError string :=
  if HasPrefix name "/" then Err (ErrAbsolute orig)
  else if bool_decide (".." ∈ Split name slash) then Err (ErrParentDir orig)
  else
    let outPath := join_path destAbs name in
    if negb (HasPrefix outPath (destAbs +:+ "/")) && bool_decide (outPath ≠ destAbs)
    then Err (ErrEscapes orig)
    else Ok outPath.

Section extract.
Context (mkdir_err open_err : string → option string).
Context (destAbs stripPrefix : string) (maxBytes : Z).

(** The state of the loop: bytes written and calls made so far. *)
Definition st : Type := (Z * list fs_call)%type.

(** One iteration's outcome: go on, or stop with an error. *)
Definition outcome : Type := (st * option ExtractError)%type.

Definition do_mkdir (path : string) (s : st) (k : st → outcome) : outcome :=
  let s' := (s.1, s.2 ++ [MkdirAll path]) in
  match mkdir_err path with
  | Some e => (s', Some (ErrMkdir path e))
  | None => k s'
  end.

(** [writeFile]: open, copy; the bytes copied before an error count. *)
Definition write_file (path : string) (mode : Z) (src : bytes * option string) (s : st)
    (k : st → outcome) : outcome :=
  match open_err path with
  | Some e => (s, Some (ErrOpenFile path e))
  | None =>
      let s' := ((s.1 + Z.of_nat (length src.1))%Z, s.2 ++ [WriteFile path mode src.1]) in
      match src.2 with
      | Some e => (s', Some (ErrWrite path e))
      | None => k s'
      end
  end.

(** A regular file, with the byte budget. *)
Definition extract_file (e : entry) (outPath : string) (s : st) : outcome :=
  if (0 <? maxBytes)%Z then
    let remaining := (maxBytes - s.1)%Z in
    if (remaining <=? 0)%Z then (s, Some (ErrExtractTooLarge (e_name e)))
    else
      write_file outPath (modeOf (e_mode e))
        (copy_limited (wrap64 (remaining + 1)) (e_data e) (e_read_err e)) s
        (λ s', if (maxBytes <? s'.1)%Z then (s', Some (ErrExtractTooLarge (e_name e))) else (s', None))
  else
    write_file outPath (modeOf (e_mode e)) (e_data e, e_read_err e) s (λ s', (s', None)).

Definition tar_entry (e : entry) (s : st) : outcome :=
  let name := stripped (e_name e) stripPrefix in
  if decide (name = "") then (s, None)
  else
    match check_path destAbs (e_name e) name with
    | Err err => (s, Some err)
    | Ok outPath =>
        match e_type e with
        | TypeDir => do_mkdir outPath s (λ s', (s', None))
        | TypeReg => do_mkdir (dir_path outPath) s (extract_file e outPath)
        | TypeSymlink | TypeOther => (s, None)
        end
    end.

Fixpoint extract_loop (step : entry → st → outcome) (entries : list (result string entry)) (s : st)
    : outcome :=
  match entries with
  | [] => (s, None)
  | Err e :: _ => (s, Some (ErrHeader e))
  | Ok e :: rest =>
      match step e s with
      | (s', Some err) => (s', Some err)
      | (s', None) => extract_loop step rest s'
      end
  end.

(** [ExtractTarGz] on what the gzip and tar readers make of the input. *)
Definition ExtractTarGz (stream : result string (list (result string entry))) : outcome :=
  match stream with
  | Err e => ((0%Z, []), Some (ErrGzip e))
  | Ok entries =>
      do_mkdir destAbs (0%Z, []) (extract_loop tar_entry entries)
  end.

(** A zip entry is a directory by its mode or by a trailing slash; opening it
    may fail. *)
Definition zip_entry (open_entry : entry → option string) (e : entry) (s : st) : outcome :=
  let name := stripped (e_name e) stripPrefix in
  if decide (name = "") then (s, None)
  else
    match check_path destAbs (e_name e) name with
    | Err err => (s, Some err)
    | Ok outPath =>
        if (match e_type e with TypeDir => true | _ => false end) || HasSuffix (e_name e) "/"
        then do_mkdir outPath s (λ s', (s', None))
        else
          match e_type e with
          | TypeSymlink => (s, None)
          | _ =>
              do_mkdir (dir_path outPath) s (λ s',
                match open_entry e with
                | Some err => (s', Some (ErrOpenFile (e_name e) err))
                | None => extract_file e outPath s'
                end)
          end
    end.

(** [ExtractZip]: the whole input is buffered first, within the same budget. *)
Definition ExtractZip (open_entry : entry → option string) (input : bytes * option string)
    (read_zip : bytes → result string (list entry)) : outcome :=
  let (buf, err) := if (0 <? maxBytes)%Z then copy_limited (wrap64 (maxBytes + 1)) input.1 input.2
                    else input in
  match err with
  | Some e => ((0%Z, []), Some (ErrBuffer e))
  | None =>
      if (0 <? maxBytes)%Z && (maxBytes <? Z.of_nat (length buf))%Z
      then ((0%Z, []), Some (ErrExtractTooLarge ""))
      else
        match read_zip buf with
        | Err e => ((0%Z, []), Some (ErrHeader e))
        | Ok entries =>
            do_mkdir destAbs (0%Z, [])
              (extract_loop (zip_entry open_entry) (Ok <$> entries))
        end
  end.
End extract.

(** ** Lemmas on paths *)

Definition splitl (c : ascii) (l : bytes) : list bytes :=
  let (h, t) := split_bytes c l in h :: t.

Lemma Split_splitl s c : Split s c = of_bytes <$> splitl c (to_bytes s).
Proof. unfold Split, splitl. by destruct (split_bytes c (to_bytes s)). Qed.

Lemma splitl_cons c l : splitl c (c :: l) = [] :: splitl c l.
Proof.
  unfold splitl. simpl. destruct (split_bytes c l) as [h t]. by rewrite decide_True.
Qed.

Lemma splitl_app c l k : splitl c (l ++ c :: k) = splitl c l ++ splitl c k.
Proof.
  induction l as [|d l IH]; [apply splitl_cons|].
  unfold splitl in *. simpl. destruct (split_bytes c (l ++ c :: k)) as [h t].
  destruct (split_bytes c l) as [h' t'], (split_bytes c k) as [h2 t2].
  simpl in IH. injection IH as -> ->. by case_decide.
Qed.

Lemma splitl_noc c l : c ∉ l → splitl c l = [l].
Proof.
  induction l as [|d l IH]; [done|]. intros [Hd Hl]%not_elem_of_cons.
  unfold splitl in *. simpl. destruct (split_bytes c l) as [h t].
  rewrite decide_False by done. specialize (IH Hl). by injection IH as -> ->.
Qed.

Lemma splitl_elem c l x : x ∈ splitl c l → c ∉ x.
Proof.
  revert x. unfold splitl. induction l as [|d l IH]; intros x; simpl.
  - intros ->%list_elem_of_singleton. apply not_elem_of_nil.
  - destruct (split_bytes c l) as [h t]. case_decide as Hd.
    + intros [->|H]%elem_of_cons; [apply not_elem_of_nil|by apply IH].
    + intros [->|H]%elem_of_cons; [|apply IH; by right].
      apply not_elem_of_cons. split; [done|]. apply IH. by left.
Qed.

Definition plain (x : string) : Prop :=
  x ≠ "" ∧ x ≠ "." ∧ x ≠ ".." ∧ slash ∉ to_bytes x.

Lemma plain_lit s : bool_decide (s ≠ "" ∧ s ≠ "." ∧ s ≠ "..") && negb (bool_decide (slash ∈ to_bytes s)) = true → plain s.
Proof.
  rewrite andb_true_iff, negb_true_iff, bool_decide_eq_true, bool_decide_eq_false. unfold plain. tauto.
Qed.

Lemma Split_app_slash s t : Split (s +:+ "/" +:+ t) slash = Split s slash ++ Split t slash.
Proof.
  rewrite !Split_splitl, !to_bytes_app.
  change (to_bytes "/") with [slash]. rewrite <-fmap_app, <-splitl_app. done.
Qed.

Lemma Split_noslash s : slash ∉ to_bytes s → Split s slash = [s].
Proof. intros H. rewrite Split_splitl, splitl_noc by done. simpl. by rewrite of_to_bytes. Qed.

Lemma Split_elem s x : x ∈ Split s slash → slash ∉ to_bytes x.
Proof.
  rewrite Split_splitl. intros (l & -> & Hl)%list_elem_of_fmap. rewrite to_of_bytes.
  by eapply splitl_elem.
Qed.

Lemma Split_Join l :
  l ≠ [] → Forall (λ x, slash ∉ to_bytes x) l → Split (Join l "/") slash = l.
Proof.
  intros Hl Hf. induction Hf as [|x l Hx Hf IH]; [done|].
  destruct l as [|y l]; [by apply Split_noslash|].
  change (Join (x :: y :: l) "/") with (x +:+ "/" +:+ Join (y :: l) "/").
  rewrite Split_app_slash, Split_noslash, IH by done. done.
Qed.

Lemma segs_app s t : segs (s +:+ "/" +:+ t) = segs s ++ segs t.
Proof. unfold segs. by rewrite Split_app_slash, filter_app. Qed.

Lemma filter_plain l : Forall plain l → filter (λ x, x ≠ "" ∧ x ≠ ".") l = l.
Proof.
  induction 1 as [|x l (H1 & H2 & _) _ IH]; [done|]. rewrite filter_cons, decide_True by done.
  by rewrite IH.
Qed.

Lemma segs_rooted ds : Forall plain ds → segs ("/" +:+ Join ds "/") = ds.
Proof.
  intros Hds. change ("/" +:+ Join ds "/") with ("" +:+ "/" +:+ Join ds "/").
  rewrite segs_app. change (segs "") with (@nil string). simpl.
  destruct ds as [|d ds]; [reflexivity|]. unfold segs.
  rewrite Split_Join; [by apply filter_plain|done|].
  eapply Forall_impl; [exact Hds|]. by intros x (_ & _ & _ & ?).
Qed.

Lemma resolve_plain l k : Forall (λ x, x ≠ "..") k → foldl resolve_step l k = l ++ k.
Proof.
  intros Hk. revert l. induction Hk as [|x k Hx Hk IH]; intros l; simpl; [by rewrite app_nil_r|].
  unfold resolve_step at 2. rewrite decide_False by done. rewrite IH. by rewrite <-app_assoc.
Qed.

Lemma segs_plain s : ".." ∉ Split s slash → Forall plain (segs s).
Proof.
  intros H. apply Forall_forall. intros x [[Hx1 Hx2] Hin]%list_elem_of_filter.
  repeat split; try done; [|by eapply Split_elem]. by intros ->.
Qed.

Lemma plain_nodd l : Forall plain l → Forall (λ x, x ≠ "..") l.
Proof. intros H. eapply Forall_impl; [exact H|]. by intros x (_ & _ & ? & _). Qed.

(** A rooted clean directory other than the root. *)
Definition dest_ok (dest : string) : Prop :=
  ∃ ds, ds ≠ [] ∧ Forall plain ds ∧ dest = "/" +:+ Join ds "/".

(** The path of the plain segments [ns] under [dest]. *)
Definition under (dest : string) (ns : list string) : string :=
  if decide (ns = []) then dest else dest +:+ "/" +:+ Join ns "/".

Lemma Join_app_seg ds ns :
  ds ≠ [] → "/" +:+ Join (ds ++ ns) "/" = under ("/" +:+ Join ds "/") ns.
Proof.
  intros Hds. unfold under. case_decide as Hns; [subst; by rewrite app_nil_r|].
  rewrite Join_app_nonempty by done. by rewrite !string_app_assoc.
Qed.

Lemma join_path_under dest name :
  dest_ok dest → ".." ∉ Split name slash → join_path dest name = under dest (segs name).
Proof.
  intros (ds & Hne & Hds & ->) Hn. unfold join_path, clean_rooted.
  rewrite segs_app, segs_rooted by done.
  rewrite resolve_plain; [by rewrite app_nil_l, Join_app_seg|].
  apply plain_nodd, Forall_app. split; [done|by apply segs_plain].
Qed.

Lemma HasPrefix_app s t : HasPrefix (s +:+ t) s = true.
Proof.
  unfold HasPrefix. apply bool_decide_eq_true. rewrite to_bytes_app. by apply prefix_app_r.
Qed.

Lemma HasPrefix_under dest ns : ns ≠ [] → HasPrefix (under dest ns) (dest +:+ "/") = true.
Proof.
  intros H. unfold under. rewrite decide_False by done.
  rewrite <-string_app_assoc. apply HasPrefix_app.
Qed.

(** The checks accept exactly the relative names without a parent segment, and
    send them under the destination; the final prefix check never fires. *)
Lemma check_path_spec dest orig name :
  dest_ok dest →
  check_path dest orig name =
    if HasPrefix name "/" then Err (ErrAbsolute orig)
    else if bool_decide (".." ∈ Split name slash) then Err (ErrParentDir orig)
    else Ok (under dest (segs name)).
Proof.
  intros Hd. unfold check_path. destruct (HasPrefix name "/"); [done|].
  case_bool_decide as Hdd; [done|]. rewrite join_path_under by done.
  destruct (decide (segs name = [])) as [E|E].
  - assert (under dest (segs name) = dest) as -> by (unfold under; by rewrite decide_True).
    rewrite (bool_decide_eq_false_2 (dest ≠ dest)) by (by intros []). by rewrite andb_false_r.
  - by rewrite HasPrefix_under.
Qed.

Lemma dir_path_under dest ns :
  dest_ok dest → Forall plain ns →
  dir_path (under dest ns) = if decide (ns = []) then dir_path dest
                             else under dest (take (length ns - 1) ns).
Proof.
  intros (ds & Hne & Hds & ->) Hns. rewrite <-Join_app_seg by done. case_decide as E.
  { subst ns. by rewrite app_nil_r. }
  unfold dir_path. rewrite segs_rooted by (by apply Forall_app).
  rewrite resolve_plain by (apply plain_nodd; by apply Forall_app). rewrite app_nil_l.
  rewrite length_app. rewrite take_app_ge by (destruct ns; [done|simpl; lia]).
  rewrite Join_app_seg by done. do 2 f_equal. destruct ns; [done|simpl; lia].
Qed.

(** ** What an extraction does to the file system *)

Definition confined (dest : string) (calls : list fs_call) : Prop :=
  Forall (λ c, (∃ ns, Forall plain ns ∧ call_path c = under dest ns) ∨
               c = MkdirAll (dir_path dest)) calls.

(** The bytes the calls put on disk. *)
Definition written (calls : list fs_call) : Z :=
  foldr Z.add 0%Z ((λ c, match c with MkdirAll _ => 0 | WriteFile _ _ d => Z.of_nat (length d) end)%Z
                     <$> calls).

Lemma written_snoc calls c :
  written (calls ++ [c]) = (written calls +
    match c with MkdirAll _ => 0 | WriteFile _ _ d => Z.of_nat (length d) end)%Z.
Proof.
  unfold written. induction calls as [|c' calls IH]; csimpl; [lia|]. rewrite IH. lia.
Qed.

Section safety.
Context (mkdir_err open_err : string → option string).
Context (destAbs stripPrefix : string) (maxBytes : Z).
Context (Hdest : dest_ok destAbs) (Hmax : (maxBytes < 2 ^ 63 - 1)%Z).

Definition good (s : st) : Prop :=
  confined destAbs s.2 ∧ s.1 = written s.2 ∧ (0 ≤ s.1)%Z ∧ ((0 < maxBytes)%Z → (s.1 ≤ maxBytes)%Z).

Definition good_outcome (o : outcome) : Prop :=
  confined destAbs o.1.2 ∧ o.1.1 = written o.1.2 ∧ (0 ≤ o.1.1)%Z ∧
  ((0 < maxBytes)%Z → (o.1.1 ≤ maxBytes + 1)%Z) ∧ (o.2 = None → good o.1).

Lemma good_stop s err : good s → good_outcome (s, err).
Proof. intros (? & ? & ? & ?). split_and!; simpl; try done. lia. Qed.

Lemma do_mkdir_good path s k :
  good s → (∃ ns, Forall plain ns ∧ path = under destAbs ns) ∨ path = dir_path destAbs →
  (∀ s', good s' → s'.1 = s.1 → good_outcome (k s')) → good_outcome (do_mkdir mkdir_err path s k).
Proof.
  intros (H1 & H2 & H3 & H4) Hp Hk. unfold do_mkdir.
  assert (good (s.1, s.2 ++ [MkdirAll path])) as Hs'.
  { split_and!; simpl; try done; [|by rewrite written_snoc, Z.add_0_r].
    apply Forall_app. split; [done|]. constructor; [|constructor].
    destruct Hp as [?| ->]; [by left|by right]. }
  destruct (mkdir_err path); [by apply good_stop|by apply Hk].
Qed.

Lemma copy_limited_length n data err :
  (0 ≤ n)%Z → (Z.of_nat (length (copy_limited n data err).1) ≤ n)%Z.
Proof.
  intros Hn. unfold copy_limited. destruct (Z.leb_spec n (Z.of_nat (length data))); simpl; [|lia].
  rewrite length_take. lia.
Qed.

Lemma extract_file_good e ns s :
  good s → Forall plain ns →
  good_outcome (extract_file open_err maxBytes e (under destAbs ns) s).
Proof.
  intros Hgood Hns. pose proof Hgood as (H1 & H2 & H3 & H4). unfold extract_file, write_file.
  assert (∀ mode data, confined destAbs (s.2 ++ [WriteFile (under destAbs ns) mode data])) as Hc.
  { intros mode data. apply Forall_app. split; [done|]. constructor; [|constructor]. left. eauto. }
  destruct (Z.ltb_spec 0 maxBytes) as [Hpos|Hneg].
  - destruct (Z.leb_spec (maxBytes - s.1) 0); [by apply good_stop|].
    destruct (open_err _); [by apply good_stop|].
    rewrite wrap64_small by lia.
    pose proof (copy_limited_length (maxBytes - s.1 + 1) (e_data e) (e_read_err e) ltac:(lia)) as Hl.
    destruct (copy_limited _ _ _) as [data err]. cbn [fst snd] in *.
    destruct err; [|destruct (Z.ltb_spec maxBytes (s.1 + Z.of_nat (length data)))];
      split_and!; cbn [fst snd]; rewrite ?written_snoc; try done; try lia; try (intros; lia).
    intros _. split_and!; cbn [fst snd]; rewrite ?written_snoc; try done; lia.
  - destruct (open_err _); [by apply good_stop|]. cbn [fst snd].
    destruct (e_read_err e);
      split_and!; cbn [fst snd]; rewrite ?written_snoc; try done; try lia.
    intros _. split_and!; cbn [fst snd]; rewrite ?written_snoc; try done; lia.
Qed.

Lemma dir_good ns :
  Forall plain ns →
  (∃ ns', Forall plain ns' ∧ dir_path (under destAbs ns) = under destAbs ns') ∨
  dir_path (under destAbs ns) = dir_path destAbs.
Proof.
  intros Hns. rewrite dir_path_under by done. case_decide; [by right|]. left.
  eexists. split; [|done]. by apply Forall_take.
Qed.

Lemma check_path_good orig name outPath :
  check_path destAbs orig name = Ok outPath →
  ∃ ns, Forall plain ns ∧ outPath = under destAbs ns.
Proof.
  rewrite check_path_spec by done. destruct (HasPrefix name "/"); [done|].
  case_bool_decide; [done|]. intros [= <-]. exists (segs name). split; [by apply segs_plain|done].
Qed.

Lemma tar_entry_good e s :
  good s → good_outcome (tar_entry mkdir_err open_err destAbs stripPrefix maxBytes e s).
Proof.
  intros Hs. unfold tar_entry. case_decide; [by apply good_stop|].
  destruct (check_path _ _ _) as [p|err] eqn:E; [|by apply good_stop].
  apply check_path_good in E as (ns & Hns & ->).
  destruct (e_type e); try by apply good_stop.
  - apply do_mkdir_good; [done|eauto|]. intros s' Hs' _. by apply good_stop.
  - apply do_mkdir_good; [done|by apply dir_good|]. intros s' Hs' _. by apply extract_file_good.
Qed.

Lemma zip_entry_good open_entry e s :
  good s → good_outcome (zip_entry mkdir_err open_err destAbs stripPrefix maxBytes open_entry e s).
Proof.
  intros Hs. unfold zip_entry. case_decide; [by apply good_stop|].
  destruct (check_path _ _ _) as [p|err] eqn:E; [|by apply good_stop].
  apply check_path_good in E as (ns & Hns & ->).
  destruct (_ || _).
  - apply do_mkdir_good; [done|eauto|]. intros s' Hs' _. by apply good_stop.
  - destruct (e_type e); try by apply good_stop.
    all: apply do_mkdir_good; [done|by apply dir_good|]; intros s' Hs' _.
    all: destruct (open_entry e); [by apply good_stop|by apply extract_file_good].
Qed.

Lemma extract_loop_good step entries s :
  (∀ e s, good s → good_outcome (step e s)) → good s → good_outcome (extract_loop step entries s).
Proof.
  intros Hstep. revert s. induction entries as [|[e|err] entries IH]; intros s Hs; simpl.
  - by apply good_stop.
  - pose proof (Hstep e s Hs) as Ho. destruct (step e s) as [s' [err|]]; [done|].
    destruct Ho as (_ & _ & _ & _ & Hg). by apply IH, Hg.
  - by apply good_stop.
Qed.

Lemma good_init : good (0%Z, []).
Proof. split_and!; simpl; try done; [constructor|lia]. Qed.

Lemma ExtractTarGz_good stream : good_outcome (ExtractTarGz mkdir_err open_err destAbs stripPrefix maxBytes stream).
Proof.
  pose proof good_init as Hi. unfold ExtractTarGz. destruct stream as [entries|e]; [|by apply good_stop].
  apply do_mkdir_good; [done| |].
  { left. exists []. split; [constructor|]. unfold under. by rewrite decide_True. }
  intros s' Hs' _. apply extract_loop_good; [|done]. intros. by apply tar_entry_good.
Qed.

Lemma ExtractZip_good open_entry input read_zip :
  good_outcome (ExtractZip mkdir_err open_err destAbs stripPrefix maxBytes open_entry input read_zip).
Proof.
  pose proof good_init as Hi. unfold ExtractZip. destruct (if (0 <? maxBytes)%Z then _ else _) as [buf [e|]]; [by apply good_stop|].
  destruct (_ && _); [by apply good_stop|]. destruct (read_zip buf) as [entries|e]; [|by apply good_stop].
  apply do_mkdir_good; [done| |].
  { left. exists []. split; [constructor|]. unfold under. by rewrite decide_True. }
  intros s' Hs' _. apply extract_loop_good; [|done]. intros. by apply zip_entry_good.
Qed.

(** C30: Confinement and budget: whatever the archive holds and whichever calls
    fail, every file written and every directory made lies under the
    destination, at the destination plus plain segments (not empty, no dot,
    no dot-dot, no slash); the only other path is the destination's own parent,
    for an entry that names the destination itself.  The reported total is what
    was written, never more than one byte over a positive budget, and within
    the budget when there is no error. *)
Theorem extraction_confined open_entry stream input read_zip :
  let tar := ExtractTarGz mkdir_err open_err destAbs stripPrefix maxBytes stream in
  let zip := ExtractZip mkdir_err open_err destAbs stripPrefix maxBytes open_entry input read_zip in
  Forall (λ o : outcome,
    confined destAbs o.1.2 ∧ o.1.1 = written o.1.2 ∧
    ((0 < maxBytes)%Z → (o.1.1 ≤ maxBytes + 1)%Z ∧ (o.2 = None → (o.1.1 ≤ maxBytes)%Z)))
    [tar; zip].
Proof.
  cbv zeta.
  assert (∀ o, good_outcome o → confined destAbs o.1.2 ∧ o.1.1 = written o.1.2 ∧
    ((0 < maxBytes)%Z → (o.1.1 ≤ maxBytes + 1)%Z ∧ (o.2 = None → (o.1.1 ≤ maxBytes)%Z))) as Ho.
  { intros o (H1 & H2 & H3 & H4 & H5). split_and!; [done|done|]. intros Hp. split; [auto|].
    intros Hn. by apply H5. }
  constructor; [|constructor; [|constructor]]; apply Ho; [apply ExtractTarGz_good|apply ExtractZip_good].
Qed.
End safety.

(** ** What a well-behaved archive becomes *)

Section complete.
Context (destAbs stripPrefix : string) (maxBytes : Z).
Context (Hdest : dest_ok destAbs) (Hmax : (0 < maxBytes < 2 ^ 63 - 1)%Z).

(** The entry is read to its end and its name, stripped, is relative and has no
    parent segment. *)
Definition safe_entry (e : entry) : Prop :=
  e_read_err e = None ∧ HasPrefix (stripped (e_name e) stripPrefix) "/" = false ∧
  ".." ∉ Split (stripped (e_name e) stripPrefix) slash.

Definition entry_calls (e : entry) : list fs_call :=
  let name := stripped (e_name e) stripPrefix in
  let p := under destAbs (segs name) in
  if decide (name = "") then []
  else
    match e_type e with
    | TypeDir => [MkdirAll p]
    | TypeReg => [MkdirAll (dir_path p); WriteFile p (modeOf (e_mode e)) (e_data e)]
    | _ => []
    end.

Definition tar_step := tar_entry (λ _, None) (λ _, None) destAbs stripPrefix maxBytes.

Lemma tar_entry_complete e s :
  safe_entry e → s.1 = written s.2 → (written (s.2 ++ entry_calls e) < maxBytes)%Z →
  (0 ≤ s.1)%Z →
  tar_step e s = ((written (s.2 ++ entry_calls e), s.2 ++ entry_calls e), None).
Proof.
  intros (Hr & Ha & Hd) Hs Hw H0. unfold tar_step, tar_entry, entry_calls in *.
  destruct s as [t calls]. cbn [fst snd] in *. subst t.
  case_decide; [by rewrite app_nil_r|].
  rewrite check_path_spec by done. rewrite Ha, bool_decide_eq_false_2 by done.
  destruct (e_type e); [..|by rewrite app_nil_r|by rewrite app_nil_r].
  - unfold do_mkdir. cbn [fst snd]. by rewrite written_snoc, Z.add_0_r.
  - change [?x; ?y] with ([x] ++ [y]) in Hw |- *. rewrite app_assoc in Hw |- *.
    rewrite !written_snoc in Hw |- *. rewrite Z.add_0_r in Hw |- *.
    unfold do_mkdir, extract_file, write_file. cbn [fst snd].
    destruct (Z.ltb_spec 0 maxBytes); [|lia].
    destruct (Z.leb_spec (maxBytes - written calls) 0); [lia|].
    unfold copy_limited. rewrite wrap64_small by lia.
    destruct (Z.leb_spec (maxBytes - written calls + 1) (Z.of_nat (length (e_data e)))); [lia|].
    cbn [fst snd]. rewrite Hr.
    destruct (Z.ltb_spec maxBytes (written calls + Z.of_nat (length (e_data e)))); [lia|done].
Qed.

Lemma written_app a b : written (a ++ b) = (written a + written b)%Z.
Proof.
  induction b as [|c b IH] using rev_ind; [rewrite app_nil_r; change (written []) with 0%Z; lia|].
  rewrite app_assoc, !written_snoc, IH. lia.
Qed.

Lemma written_nonneg a : (0 ≤ written a)%Z.
Proof.
  induction a as [|c a IH] using rev_ind; [done|]. rewrite written_snoc. destruct c; lia.
Qed.

Lemma extract_loop_complete entries calls :
  Forall safe_entry entries →
  (written (calls ++ (entries ≫= entry_calls)) < maxBytes)%Z →
  extract_loop tar_step (Ok <$> entries) (written calls, calls) =
    ((written (calls ++ (entries ≫= entry_calls)), calls ++ (entries ≫= entry_calls)), None).
Proof.
  intros Hs. revert calls. induction Hs as [|e entries He _ IH]; intros calls Hw; csimpl.
  - by rewrite app_nil_r.
  - csimpl in Hw. rewrite app_assoc in Hw |- *.
    rewrite tar_entry_complete; [by apply IH|done|done| |apply written_nonneg]. cbn [snd].
    rewrite written_app in Hw. pose proof (written_nonneg (entries ≫= entry_calls)). lia.
Qed.

(** Completeness: when no call fails, every entry is safe and the contents stay
    below the budget, the extraction succeeds and makes exactly the calls of the
    entries in order: each directory, and each regular file after its parent,
    at its stripped name under the destination, with its content and its
    permission bits; symlinks and other entries are skipped. *)
Theorem ExtractTarGz_complete entries :
  Forall safe_entry entries →
  (written (entries ≫= entry_calls) < maxBytes)%Z →
  ExtractTarGz (λ _, None) (λ _, None) destAbs stripPrefix maxBytes (Ok (Ok <$> entries)) =
    ((written (entries ≫= entry_calls), MkdirAll destAbs :: (entries ≫= entry_calls)), None).
Proof.
  intros Hs Hw. unfold ExtractTarGz, do_mkdir. cbn [fst snd].
  exact (extract_loop_complete entries [MkdirAll destAbs] Hs Hw).
Qed.
End complete.

Lemma dest_ok_demo : dest_ok "/out".
Proof.
  exists ["out"]. split; [done|]. split; [|reflexivity].
  constructor; [|constructor]. repeat split; try done. vm_compute. set_solver.
Qed.

Definition demo_tar : list entry :=
  [mkEntry "r-1/" TypeDir 493 [] None; mkEntry "r-1/a/b" TypeReg 0 (to_bytes "abc") None;
   mkEntry "r-1/link" TypeSymlink 0 [] None].

Lemma demo_tar_safe : Forall (safe_entry "r-1") demo_tar.
Proof.
  repeat (constructor; [split_and!; [reflexivity|reflexivity|]; vm_compute; set_solver|]).
  constructor.
Qed.

Lemma ExtractTarGz_complete_witness :
  dest_ok "/out" ∧
  ExtractTarGz (λ _, None) (λ _, None) "/out" "r-1" 10 (Ok (Ok <$> demo_tar)) =
    ((3%Z, [MkdirAll "/out"; MkdirAll "/out/a"; WriteFile "/out/a/b" 420 (to_bytes "abc")]), None).
Proof.
  split; [exact dest_ok_demo|].
  etrans; [apply (ExtractTarGz_complete "/out" "r-1" 10 dest_ok_demo ltac:(lia) demo_tar
    demo_tar_safe); vm_compute; reflexivity|]. vm_compute. reflexivity.
Defined.

Lemma extraction_confined_witness :
  dest_ok "/out" ∧ (10 < 2 ^ 63 - 1)%Z ∧
  confined "/out" (ExtractTarGz (λ _, None) (λ _, None) "/out" "" 10
    (Ok [Ok (mkEntry "./x/./y" TypeReg 0 (to_bytes "abc") None);
         Ok (mkEntry "../etc" TypeReg 0 [] None)])).1.2.
Proof.
  split; [exact dest_ok_demo|]. split; [done|].
  pose proof (extraction_confined (λ _, None) (λ _, None) "/out" "" 10 dest_ok_demo ltac:(lia)
    (λ _, None) (Ok [Ok (mkEntry "./x/./y" TypeReg 0 (to_bytes "abc") None);
         Ok (mkEntry "../etc" TypeReg 0 [] None)]) ([], None) (λ _, Err "")) as H.
  exact (proj1 (proj1 (proj1 (Forall_cons _ _ _) H))).
Defined.

(** A budget used up exactly leaves no room for an empty file: the extraction of
    three bytes and an empty file within a budget of three fails as too large. *)
Theorem exact_budget_rejects_empty_file :
  ExtractTarGz (λ _, None) (λ _, None) "/out" "" 3
    (Ok [Ok (mkEntry "a" TypeReg 0 (to_bytes "abc") None); Ok (mkEntry "b" TypeReg 0 [] None)]) =
  ((3%Z, [MkdirAll "/out"; MkdirAll "/out"; WriteFile "/out/a" 420 (to_bytes "abc");
          MkdirAll "/out"]), Some (ErrExtractTooLarge "b")).
Proof. vm_compute. reflexivity. Qed.
