(* ===== verification/Admit.v ===== *)
(** * Admission: fetch, publish, index

    [internal/admit]: the HTTP fetcher ([fetcher.go]), source.json and strip
    prefix detection ([sourcejson.go]), the pipeline for one request
    ([pipeline.go]) and the runner with its retries ([runner.go]); with
    [internal/publish/publish.go] (the publisher's contract) and
    [internal/purge/urls.go].  The HTTP client, the publisher's storage, the
    decompressor and the JSON codec are parameters; the publisher is observed as
    the list of calls made to it. *)

From S2P Require Import Prelude Strings Timestamp Policy AuditTrail Requests Preflight Archive.

(** ** Errors *)

(** An error as the runner looks at it: its text, and whether it wraps
    [ErrTransient]. *)
Record AdmitError := mkAdmitError {
  ae_msg : string;
  ae_transient : bool;
}.

Definition IsTransient (e : AdmitError) : bool := ae_transient e.

(** [fmt.Errorf] with a prefix and the percent-w verb. *)
Definition wrap_err (prefix : string) (e : AdmitError) : AdmitError :=
  mkAdmitError (prefix +:+ ae_msg e) (ae_transient e).

(** ** Fetching *)

(** A response body: the bytes it delivers, then the error that cuts it off. *)
Record FetchResponse := mkFetchResponse {
  fr_StatusCode : Z;
  fr_Body : bytes;
  fr_BodyErr : option string;
}.

Definition isTransientStatus (code : Z) : bool :=
  if decide (code = 408%Z ∨ code = 425%Z ∨ code = 429%Z) then true
  else (500 <=? code)%Z && (code <=? 599)%Z.

(** What reaches the sink, and the result. *)
Definition Fetch (http_get : string → result AdmitError FetchResponse) (maxBytes : Z) (url : string)
    : bytes * result AdmitError Z :=
  match http_get url with
  | Err e => ([], Err e)
  | Ok resp =>
      if (fr_StatusCode resp <? 200)%Z || (300 <=? fr_StatusCode resp)%Z then
        ([], Err (mkAdmitError ("HTTP status from " +:+ url) (isTransientStatus (fr_StatusCode resp))))
      else
        let (data, err) :=
          if (0 <? maxBytes)%Z
          then copy_limited (wrap64 (maxBytes + 1)) (fr_Body resp) (fr_BodyErr resp)
          else (fr_Body resp, fr_BodyErr resp) in
        let n := Z.of_nat (length data) in
        match err with
        | Some e => (data, Err (mkAdmitError ("admit: transient failure: read body: " +:+ e) true))
        | None =>
            if (0 <? maxBytes)%Z && (maxBytes <? n)%Z
            then (data, Err (mkAdmitError ("response too large from " +:+ url) false))
            else (data, Ok n)
        end
  end.

(** ** source.json and the strip prefix *)

Record SourceJSON := mkSourceJSON {
  sj_url : string;
  sj_integrity : string;
  sj_strip_prefix : option string;
}.

Definition BuildSourceJSON (url integrity stripPrefix : string) : result string SourceJSON :=
  if decide (url = "") then Err "source.json: url required"
  else if decide (integrity = "") then Err "source.json: integrity required"
  else if negb (bool_decide ("-"%char ∈ to_bytes integrity)) then
    Err "source.json: integrity must be SRI-formatted"
  else Ok (mkSourceJSON url integrity (if decide (stripPrefix = "") then None else Some stripPrefix)).

(** [strings.IndexByte(path, '/')], and the directory before it. *)
Definition topLevelDir (path : string) : string :=
  match cut_at slash (to_bytes path) with
  | Some (d, _) => of_bytes d
  | None => ""
  end.

Definition DetectStripPrefix (entries : list string) : string :=
  match entries with
  | [] => ""
  | e :: rest =>
      let first := topLevelDir e in
      if decide (first = "") then ""
      else if forallb (λ e', bool_decide (topLevelDir e' = first)) rest then first else ""
  end.

(** ** The publisher's contract *)

Record GitIdentity := mkGitIdentity { gi_Name : string; gi_Email : string }.
Definition IsZero (i : GitIdentity) : bool :=
  bool_decide (gi_Name i = "") && bool_decide (gi_Email i = "").

Record BlobRef := mkBlobRef { br_Key : string; br_Integrity : string; br_Bytes : Z }.

Record PublishRequest := mkPublishRequest {
  pr_Module : string;
  pr_Version : string;
  pr_SourceJSON : SourceJSON;
  pr_ModuleBazel : option bytes;
  pr_Blob : BlobRef;
  pr_Requester : GitIdentity;
  pr_SourceURL : string;
}.

Definition ValidateRequest (req : PublishRequest) (json : SourceJSON → string) : option string :=
  if decide (pr_Module req = "") then Some "module"
  else if decide (pr_Version req = "") then Some "version"
  else if decide (json (pr_SourceJSON req) = "") then Some "source.json"
  else if decide (br_Integrity (pr_Blob req) = "") then Some "blob.integrity"
  else None.

(** The calls the pipeline makes on the publisher and its sink. *)
Inductive pub_call : Type :=
| BeginBlob (url : string)
| SinkWrite (data : bytes)
| SinkAbort
| SinkClose
| Publish (req : PublishRequest).

(** ** The pipeline *)

Record admitResult := mkAdmitResult {
  ar_CommitSHA : string;
  ar_Integrity : string;
  ar_Bytes : Z;
}.

Section pipeline.
Context (http_get : string → result AdmitError FetchResponse) (fetchMax : Z).
Context (begin_blob : string → result AdmitError unit).
Context (close_blob : bytes → result AdmitError BlobRef).
Context (publish : PublishRequest → result AdmitError string).
Context (mkdir_err open_err read_err : string → option string).
(** Opening the blob file and decompressing it, and the scratch directory. *)
Context (open_blob : string → result string (result string (list (result string entry)))).
Context (scratch : string).
Context (unmarshal_verdict : string → option Verdict).
Context (bot : GitIdentity) (extractMaxBytes : Z).

Definition cascadeFromPreflight (req : Request) : option CascadeHit :=
  if decide (req_PreflightJSON req = "") then None
  else match unmarshal_verdict (req_PreflightJSON req) with
       | None => None
       | Some v => vd_CascadeSource v
       end.

(** The paths of the files an extraction wrote, relative to the scratch directory. *)
Definition topLevelEntries (calls : list fs_call) : list string :=
  omap (λ c, match c with
             | WriteFile p _ _ => Some (TrimPrefix p (scratch +:+ "/"))
             | MkdirAll _ => None
             end) calls.

(** What [os.ReadFile] finds after the extraction: the last write to the path. *)
Definition read_file (path : string) (calls : list fs_call) : option bytes :=
  last (omap (λ c, match c with
                   | WriteFile p _ d => if decide (p = path) then Some d else None
                   | MkdirAll _ => None
                   end) calls).

Definition extractFromBlob (key : string) (maxBytes : Z)
    : result AdmitError (option bytes * string) :=
  let maxBytes := if (maxBytes <=? 0)%Z then (2 ^ 30)%Z else maxBytes in
  match open_blob key with
  | Err e => Err (mkAdmitError ("open blob: " +:+ e) false)
  | Ok stream =>
      match ExtractTarGz mkdir_err open_err scratch "" maxBytes stream with
      | (_, Some e) => Err (mkAdmitError "extract tar.gz" false)
      | ((_, calls), None) =>
          let stripPrefix := DetectStripPrefix (topLevelEntries calls) in
          let modulePath :=
            if decide (stripPrefix = "") then scratch +:+ "/MODULE.bazel"
            else scratch +:+ "/" +:+ stripPrefix +:+ "/MODULE.bazel" in
          match read_err modulePath with
          | Some e => Err (mkAdmitError ("read MODULE.bazel: " +:+ e) false)
          | None => Ok (read_file modulePath calls, stripPrefix)
          end
      end
  end.

(** The source location: the request's own URL first, then the upstream's. *)
Definition source_of (req : Request) : string * string :=
  if decide (req_SourceURL req = "") then
    match cascadeFromPreflight req with
    | Some hit => (hit_URL hit, hit_StripPrefix hit)
    | None => ("", "")
    end
  else (req_SourceURL req, "").

Definition requester_of (req : Request) : GitIdentity :=
  let r := mkGitIdentity (req_SubmitterSub req) (req_SubmitterEmail req) in
  if IsZero r then bot else r.

(** [admitOne], with the calls made on the publisher. *)
Definition admitOne (req : Request) : result AdmitError admitResult * list pub_call :=
  let (url, cascadeStrip) := source_of req in
  if decide (url = "") then
    (Err (mkAdmitError "no source_url on request and preflight found no cascade source" false), [])
  else
    match begin_blob url with
    | Err e => (Err (wrap_err "begin blob: " e), [BeginBlob url])
    | Ok _ =>
        match Fetch http_get fetchMax url with
        | (data, Err e) => (Err (wrap_err ("fetch " +:+ url +:+ ": ") e),
                            [BeginBlob url; SinkWrite data; SinkAbort])
        | (data, Ok bytesFetched) =>
            let log := [BeginBlob url; SinkWrite data; SinkClose] in
            match close_blob data with
            | Err e => (Err (wrap_err "close blob: " e), log)
            | Ok blobRef =>
                match extractFromBlob (br_Key blobRef) extractMaxBytes with
                | Err e => (Err (wrap_err ("extract " +:+ req_Module req +:+ "@" +:+ req_Version req +:+ ": ") e), log)
                | Ok (moduleBazel, detected) =>
                    let stripPrefix := if decide (cascadeStrip = "") then detected else cascadeStrip in
                    match BuildSourceJSON url (br_Integrity blobRef) stripPrefix with
                    | Err e => (Err (mkAdmitError ("build source.json: " +:+ e) false), log)
                    | Ok sourceJSON =>
                        let preq := mkPublishRequest (req_Module req) (req_Version req) sourceJSON
                                      moduleBazel blobRef (requester_of req) url in
                        match publish preq with
                        | Err e => (Err (wrap_err "publish: " e), log ++ [Publish preq])
                        | Ok commit => (Ok (mkAdmitResult commit (br_Integrity blobRef) bytesFetched),
                                        log ++ [Publish preq])
                        end
                    end
                end
            end
        end
    end.

(** The publisher's protocol: a sink that was opened is written once; it is
    aborted exactly when the fetch failed and closed exactly when it did not,
    and only what a closed sink holds is published. *)
Inductive protocol : list pub_call → Prop :=
| proto_none : protocol []
| proto_begin u e : begin_blob u = Err e → protocol [BeginBlob u]
| proto_abort u d e :
    Fetch http_get fetchMax u = (d, Err e) → protocol [BeginBlob u; SinkWrite d; SinkAbort]
| proto_close u d n :
    Fetch http_get fetchMax u = (d, Ok n) → protocol [BeginBlob u; SinkWrite d; SinkClose]
| proto_publish u d n p :
    Fetch http_get fetchMax u = (d, Ok n) → close_blob d = Ok (pr_Blob p) → pr_SourceURL p = u →
    protocol [BeginBlob u; SinkWrite d; SinkClose; Publish p].

(** The underlying call whose failure the worker may retry. *)
Inductive transient_cause : Prop :=
| cause_begin u e : begin_blob u = Err e → IsTransient e = true → transient_cause
| cause_fetch u d e : Fetch http_get fetchMax u = (d, Err e) → IsTransient e = true → transient_cause
| cause_close d e : close_blob d = Err e → IsTransient e = true → transient_cause
| cause_publish p e : publish p = Err e → IsTransient e = true → transient_cause.

Lemma extractFromBlob_terminal key e :
  extractFromBlob key extractMaxBytes = Err e → IsTransient e = false.
Proof.
  unfold extractFromBlob. destruct (open_blob key); [|by intros [= <-]].
  destruct (ExtractTarGz _ _ _ _ _ _) as [[? ?] [?|]]; [by intros [= <-]|].
  cbv zeta. destruct (read_err _); [by intros [= <-]|done].
Qed.

(** The pipeline keeps the publisher's protocol on every path, and a failure is
    retried only when a call on the network or the publisher failed
    transiently.  It succeeds only by publishing: the URL is the request's, or
    the upstream's when the request has none; MODULE.bazel and the detected
    prefix come from the closed blob; the blob's hash is the one recorded in
    source.json, published and reported; the strip prefix is the upstream's when
    it gave one and otherwise the detected one; the author is the submitter, or
    the bot for an anonymous request; and the size reported is the fetched one. *)
Theorem admitOne_protocol req :
  protocol (admitOne req).2 ∧
  match (admitOne req).1 with
  | Err e => IsTransient e = true → transient_cause
  | Ok res =>
      ∃ p data detected, (admitOne req).2 =
        [BeginBlob (pr_SourceURL p); SinkWrite data; SinkClose; Publish p] ∧
      publish p = Ok (ar_CommitSHA res) ∧
      pr_SourceURL p = (source_of req).1 ∧ pr_SourceURL p ≠ "" ∧
      pr_Module p = req_Module req ∧ pr_Version p = req_Version req ∧
      close_blob data = Ok (pr_Blob p) ∧
      extractFromBlob (br_Key (pr_Blob p)) extractMaxBytes = Ok (pr_ModuleBazel p, detected) ∧
      Fetch http_get fetchMax (pr_SourceURL p) = (data, Ok (ar_Bytes res)) ∧
      ar_Integrity res = br_Integrity (pr_Blob p) ∧
      sj_integrity (pr_SourceJSON p) = br_Integrity (pr_Blob p) ∧
      sj_url (pr_SourceJSON p) = pr_SourceURL p ∧
      default "" (sj_strip_prefix (pr_SourceJSON p)) =
        (if decide ((source_of req).2 = "") then detected else (source_of req).2) ∧
      pr_Requester p = requester_of req
  end.
Proof.
  unfold admitOne. destruct (source_of req) as [url strip]. cbn [fst snd].
  destruct (decide (url = "")) as [|Hu]; [split; [constructor|done]|].
  destruct (begin_blob url) as [[]|e] eqn:Hb; [|split; [by econstructor|exact (cause_begin _ _ Hb)]].
  destruct (Fetch http_get fetchMax url) as [data [n|e]] eqn:Hf; [|split; [by econstructor|]].
  2: { cbn [fst]. intros Ht. exact (cause_fetch _ _ _ Hf Ht). }
  destruct (close_blob data) as [ref|e] eqn:Hc; [|split; [by econstructor|exact (cause_close _ _ Hc)]].
  destruct (extractFromBlob _ _) as [[mb det]|e] eqn:Hx; [|split; [by econstructor|]].
  2: { apply extractFromBlob_terminal in Hx. cbn. intros Ht. unfold IsTransient in *. congruence. }
  destruct (BuildSourceJSON _ _ _) as [sj|e] eqn:Hsj; [|split; [by econstructor|done]].
  unfold BuildSourceJSON in Hsj.
  destruct (decide (url = "")); [done|].
  destruct (decide (br_Integrity ref = "")); [done|].
  destruct (negb _); [done|]. injection Hsj as <-.
  destruct (publish _) as [commit|e] eqn:Hp; [|split; [by econstructor|exact (cause_publish _ _ Hp)]].
  split; [by econstructor|].
  match type of Hp with publish ?p = _ => exists p, data, det end. split; [reflexivity|].
  split_and!; try done. cbn [sj_strip_prefix pr_SourceJSON].
  match goal with |- default "" (if decide (?x = "") then _ else _) = _ => by destruct (decide (x = "")) end.
Qed.
End pipeline.

(** ** Fetch and strip prefix *)

(** The fetcher: success means a 2xx status and the whole body, within the size
    cap; the sink never holds more than one byte over a positive cap.  A failure
    is transient, hence retried, exactly for transport errors the client calls
    transient, for the statuses 408, 425, 429 and 5xx, and for a body that
    breaks off. *)
Theorem Fetch_spec http_get maxBytes url :
  (maxBytes < 2 ^ 63 - 1)%Z →
  ((0 < maxBytes)%Z → (Z.of_nat (length (Fetch http_get maxBytes url).1) ≤ maxBytes + 1)%Z) ∧
  match (Fetch http_get maxBytes url).2 with
  | Ok n => ∃ resp, http_get url = Ok resp ∧ (200 ≤ fr_StatusCode resp < 300)%Z ∧
      fr_BodyErr resp = None ∧ (Fetch http_get maxBytes url).1 = fr_Body resp ∧
      n = Z.of_nat (length (fr_Body resp)) ∧ ((0 < maxBytes)%Z → (n ≤ maxBytes)%Z)
  | Err e => IsTransient e = true ↔
      (∃ e', http_get url = Err e' ∧ IsTransient e' = true) ∨
      (∃ resp, http_get url = Ok resp ∧ isTransientStatus (fr_StatusCode resp) = true) ∨
      (∃ resp, http_get url = Ok resp ∧ (200 ≤ fr_StatusCode resp < 300)%Z ∧
        fr_BodyErr resp ≠ None ∧
        ((0 < maxBytes)%Z → (Z.of_nat (length (fr_Body resp)) ≤ maxBytes)%Z))
  end.
Proof.
  intros Hmax. unfold Fetch. destruct (http_get url) as [resp|e] eqn:Hg.
  2: { simpl. split; [lia|]. split; [eauto 10|].
       intros [(e' & [= <-] & ?)|[(? & [=] & _)|(? & [=] & _)]]. done. }
  assert (isTransientStatus (fr_StatusCode resp) = true → (400 ≤ fr_StatusCode resp)%Z) as Hts.
  { unfold isTransientStatus. case_decide; [lia|].
    destruct (Z.leb_spec 500 (fr_StatusCode resp)); [lia|done]. }
  destruct (Z.ltb_spec (fr_StatusCode resp) 200) as [H1|H1]; simpl.
  { split; [lia|]. split; [eauto 10|].
    intros [(? & [=] & _)|[(? & [= <-] & ?)|(? & [= <-] & ? & _)]]; [done|lia]. }
  destruct (Z.leb_spec 300 (fr_StatusCode resp)) as [H2|H2].
  { simpl. split; [lia|]. split; [eauto 10|].
    intros [(? & [=] & _)|[(? & [= <-] & ?)|(? & [= <-] & ? & _)]]; [done|lia]. }
  destruct (Z.ltb_spec 0 maxBytes) as [Hp|Hp].
  - unfold copy_limited. rewrite wrap64_small by lia.
    destruct (Z.leb_spec (maxBytes + 1) (Z.of_nat (length (fr_Body resp)))) as [Hl|Hl].
    + destruct (Z.ltb_spec maxBytes (Z.of_nat (length (take (Z.to_nat (maxBytes + 1)) (fr_Body resp)))))
        as [Hb|Hb]; rewrite length_take in Hb; [|lia]. simpl. rewrite length_take.
      split; [lia|]. split; [done|].
      intros [(? & [=] & _)|[(? & [= <-] & Ht%Hts)|(? & [= <-] & ? & _ & ?)]]; lia.
    + destruct (fr_BodyErr resp) as [e|] eqn:He; simpl.
      { split; [lia|]. split; [|done]. intros _. right. right. exists resp. rewrite He.
        split_and!; done || lia. }
      destruct (Z.ltb_spec maxBytes (Z.of_nat (length (fr_Body resp)))); [lia|]. simpl.
      split; [lia|]. exists resp. split_and!; done || lia.
  - destruct (fr_BodyErr resp) as [e|] eqn:He; simpl.
    { split; [lia|]. split; [|done]. intros _. right. right. exists resp. rewrite He.
      split_and!; done || lia. }
    split; [lia|]. exists resp. split_and!; done || lia.
Qed.

Definition demo_get (_ : string) : result AdmitError FetchResponse :=
  Ok (mkFetchResponse 200 (to_bytes "too long") None).

Lemma Fetch_spec_witness :
  (5 < 2 ^ 63 - 1)%Z ∧ (0 < 5)%Z ∧
  (Z.of_nat (length (Fetch demo_get 5 "u").1) ≤ 5 + 1)%Z.
Proof.
  assert (5 < 2 ^ 63 - 1)%Z as H by done. assert (0 < 5)%Z as H0 by done.
  split; [exact H|]. split; [exact H0|]. exact (proj1 (Fetch_spec demo_get 5 "u" H) H0).
Defined.

(** The strip prefix is [d] exactly when there are entries and every one lies
    under the non-empty top-level directory [d]; so it does not depend on the
    order of the entries. *)
Theorem DetectStripPrefix_spec entries d :
  d ≠ "" →
  DetectStripPrefix entries = d ↔
  entries ≠ [] ∧ ∀ e, e ∈ entries → topLevelDir e = d.
Proof.
  intros Hd. destruct entries as [|e rest]; simpl; [naive_solver|].
  case_decide as E.
  - split; [congruence|]. intros [_ H]. specialize (H e ltac:(by left)). congruence.
  - destruct (forallb _ rest) eqn:Hf.
    + rewrite forallb_forall in Hf. split.
      * intros <-. split; [done|]. intros e' [->|He]%elem_of_cons; [done|].
        apply list_elem_of_In, Hf in He. by apply bool_decide_eq_true in He.
      * intros [_ H]. apply H. by left.
    + split; [congruence|]. intros [_ H]. exfalso. apply not_true_iff_false in Hf. apply Hf.
      apply forallb_forall. intros e' He%list_elem_of_In. apply bool_decide_eq_true.
      rewrite !H; [done|by left|by right].
Qed.

Lemma DetectStripPrefix_spec_witness :
  "r-1" ≠ "" ∧ DetectStripPrefix ["r-1/a"; "r-1/b/c"] = "r-1".
Proof.
  split; [done|]. apply (DetectStripPrefix_spec ["r-1/a"; "r-1/b/c"] "r-1"); [done|].
  split; [done|]. intros e He. rewrite !elem_of_cons, elem_of_nil in He.
  destruct_or! He; subst; reflexivity || done.
Defined.

(** ** The runner *)

Definition second : Z := 1000000000.

(** The loop of [defaultRetryBackoff]: multiply, stop at the cap. *)
Fixpoint backoff_loop (n : nat) (d : Z) : Z :=
  match n with
  | O => d
  | S n' => let d' := wrap64 (d * 5) in
            if (300 * second <=? d')%Z then (300 * second)%Z else backoff_loop n' d'
  end.

Definition defaultRetryBackoff (attempt : Z) : Z :=
  if (attempt <=? 0)%Z then 0%Z
  else backoff_loop (Z.to_nat (attempt - 1)) (5 * second)%Z.

Definition defaultMaxRetries : Z := 2.

Definition effective_retries (opt : Z) : Z :=
  let r := if decide (opt = 0%Z) then defaultMaxRetries else opt in
  if (r <? 0)%Z then 0%Z else r.

(** [processOwned]: what the attempts lead to. *)
Inductive outcome : Type :=
| Succeeded (res : admitResult) (retries : nat)
| Failed (cause : AdmitError) (retries : nat)
| Cancelled
| LoopEnd.

(** [pipeline n] is the result of attempt [n]; [cancelled n] says whether the
    context ends during the back-off before attempt [n]. *)
Fixpoint retry_loop (fuel : nat) (maxRetries : nat) (pipeline : nat → result AdmitError admitResult)
    (cancelled : nat → bool) (attempt : nat) : outcome :=
  match fuel with
  | O => LoopEnd
  | S f =>
      if (0 <? attempt) && cancelled attempt then Cancelled
      else
        match pipeline attempt with
        | Ok res => Succeeded res attempt
        | Err e =>
            if negb (IsTransient e) || (maxRetries <=? attempt) then Failed e attempt
            else retry_loop f maxRetries pipeline cancelled (S attempt)
        end
  end.

(** [for attempt := 0; attempt <= r.maxRetries; attempt++] *)
Definition attempts (maxRetries : nat) pipeline cancelled : outcome :=
  retry_loop (S maxRetries) maxRetries pipeline cancelled 0.

Lemma retry_loop_spec fuel maxRetries pipeline cancelled k :
  fuel + k = S maxRetries →
  ∃ n, k ≤ n ≤ maxRetries + (if decide (fuel = 0) then 1 else 0) ∧
    (∀ i, k ≤ i < n → ∃ e, pipeline i = Err e ∧ IsTransient e = true) ∧
    (∀ i, k ≤ i < n → 0 < i → cancelled i = false) ∧
    match retry_loop fuel maxRetries pipeline cancelled k with
    | Succeeded res r => r = n ∧ pipeline n = Ok res ∧ (0 < n → cancelled n = false)
    | Failed e r => r = n ∧ pipeline n = Err e ∧ (0 < n → cancelled n = false) ∧
        (IsTransient e = false ∨ n = maxRetries)
    | Cancelled => 0 < n ∧ cancelled n = true
    | LoopEnd => fuel = 0
    end.
Proof.
  revert k. induction fuel as [|f IH]; intros k Hk; simpl.
  - exists k. split_and!; try lia; intros; lia.
  - destruct ((0 <? k) && cancelled k) eqn:Hc.
    { apply andb_true_iff in Hc as [Hk0%Nat.ltb_lt Hc].
      exists k. split_and!; try lia; try done; intros; lia. }
    assert (0 < k → cancelled k = false) as Hck.
    { intros Hk0. apply Nat.ltb_lt in Hk0. by rewrite Hk0 in Hc. }
    destruct (pipeline k) as [res|e] eqn:Ha.
    { exists k. split_and!; try lia; try done; intros; lia. }
    destruct (negb (IsTransient e)) eqn:Ht; simpl.
    { exists k. apply negb_true_iff in Ht. split_and!; try lia; try done; try (intros; lia); by left. }
    apply negb_false_iff in Ht.
    destruct (Nat.leb_spec maxRetries k) as [Hm|Hm].
    { exists k. split_and!; try lia; try done; try (intros; lia); right; lia. }
    destruct (IH (S k)) as (n & Hn & H1 & H2 & H3); [lia|].
    exists n. split_and!.
    + lia.
    + revert Hn. case_decide; lia.
    + intros i Hi. destruct (decide (i = k)) as [->|]; [eauto|]. apply H1. lia.
    + intros i Hi Hi0. destruct (decide (i = k)) as [->|]; [auto|]. apply H2; lia.
    + destruct (retry_loop f maxRetries pipeline cancelled (S k)); try done. lia.
Qed.

Lemma attempts_facts maxRetries pipeline cancelled :
  ∃ n, n ≤ maxRetries ∧
    (∀ i, i < n → ∃ e, pipeline i = Err e ∧ IsTransient e = true) ∧
    (∀ i, 0 < i < n → cancelled i = false) ∧
    match attempts maxRetries pipeline cancelled with
    | Succeeded res r => r = n ∧ pipeline n = Ok res
    | Failed e r => r = n ∧ pipeline n = Err e ∧ (IsTransient e = false ∨ n = maxRetries)
    | Cancelled => 0 < n ∧ cancelled n = true
    | LoopEnd => False
    end.
Proof.
  destruct (retry_loop_spec (S maxRetries) maxRetries pipeline cancelled 0) as (n & Hn & H1 & H2 & H3);
    [lia|]. exists n. rewrite decide_False in Hn by lia. unfold attempts.
  split_and!; [lia|intros; apply H1; lia|intros; apply H2; lia|].
  destruct (retry_loop _ _ _ _ _); naive_solver.
Qed.

(** Retries: the loop always ends with a verdict after at most [maxRetries + 1]
    attempts.  All attempts before the last one failed transiently; the request
    succeeds with the first success, fails with the first terminal error or with
    the transient error of the last allowed attempt, and is left alone only when
    the context ends during a back-off. *)
Theorem attempts_outcome maxRetries pipeline cancelled :
  ∃ n, n ≤ maxRetries ∧
    (∀ i, i < n → ∃ e, pipeline i = Err e ∧ IsTransient e = true) ∧
    (∀ i, 0 < i < n → cancelled i = false) ∧
    match attempts maxRetries pipeline cancelled with
    | Succeeded res r => r = n ∧ pipeline n = Ok res
    | Failed e r => r = n ∧ pipeline n = Err e ∧ (IsTransient e = false ∨ n = maxRetries)
    | Cancelled => 0 < n ∧ cancelled n = true
    | LoopEnd => False
    end.
Proof. apply attempts_facts. Qed.

(** The default back-off: nothing before the first retry, then 5 s, 25 s, 125 s
    and 5 minutes from the fourth retry on, whatever the attempt number. *)
Theorem defaultRetryBackoff_spec attempt :
  defaultRetryBackoff attempt =
    if (attempt <=? 0)%Z then 0%Z else Z.min (5 ^ attempt * second) (300 * second).
Proof.
  unfold defaultRetryBackoff. destruct (Z.leb_spec attempt 0); [done|].
  destruct (decide (attempt = 1%Z)) as [->|]; [reflexivity|].
  destruct (decide (attempt = 2%Z)) as [->|]; [reflexivity|].
  destruct (decide (attempt = 3%Z)) as [->|]; [reflexivity|].
  destruct (Z.to_nat (attempt - 1)) as [|[|[|m]]] eqn:En; try lia.
  rewrite Z.min_r; [reflexivity|].
  assert (5 ^ 4 ≤ 5 ^ attempt)%Z as Hp by (apply Z.pow_le_mono_r; lia). unfold second. lia.
Qed.

(** ** Applying the outcome *)

(** [URLsForModule] *)
Definition URLsForModule (baseURL module : string) : list string :=
  let base := TrimRight (TrimSpace baseURL) "/" in
  let module := TrimSpace module in
  if decide (base = "" ∨ module = "") then []
  else [base +:+ "/modules/" +:+ module +:+ "/metadata.json"; base +:+ "/bazel_registry.json"].

Section runner.
(** The JSON payloads of the audit events, and the CDN. *)
Context (success_payload : Request → admitResult → nat → string).
Context (failure_payload : Request → AdmitError → nat → string).
Context (purge_payload : Request → list string → result string unit → string).
Context (purger_name cdnBaseURL : string) (purge : list string → result string unit).

Definition admitEvent (kind : string) (req : Request) (ok : bool) (error payload : string) : AuditEvent :=
  mkAuditEvent 0 None kind "admit" (req_Module req) (req_Version req) ok 0 error payload "".

Definition retriesField (retries : nat) : option Z :=
  if decide (0 < retries) then Some (Z.of_nat retries) else None.

(** [purgeAfterIndex]: no effect on the request, at most one audit event. *)
Definition purgeAfterIndex (afault : option string) (now : Z) (req : Request) (au : AuditDb) : AuditDb :=
  if decide (purger_name = "noop" ∨ cdnBaseURL = "") then au
  else
    let urls := URLsForModule cdnBaseURL (req_Module req) in
    if decide (urls = []) then au
    else
      let r := purge urls in
      (RecordAudit afault now
        (admitEvent "cdn_purge" req (is_ok r) (match r with Ok _ => "" | Err e => e end)
           (purge_payload req urls r)) au).2.

Definition succeed (tfault afault : option string) (now : Z) (req : Request) (res : admitResult)
    (retries : nat) (s : Db * AuditDb) : Db * AuditDb :=
  let fields := mkRequestFields "" "" (ar_Integrity res) (ar_CommitSHA res) (retriesField retries) in
  match TransitionRequest tfault now (req_ID req) RequestStateFetching RequestStateIndexed
          (Some fields) s.1 with
  | (Err _, db') => (db', s.2)
  | (Ok _, db') =>
      let au := (RecordAudit afault now
        (admitEvent "admit_success" req true "" (success_payload req res retries)) s.2).2 in
      (db', purgeAfterIndex afault now req au)
  end.

Definition fail (tfault afault : option string) (now : Z) (req : Request) (cause : AdmitError)
    (retries : nat) (s : Db * AuditDb) : Db * AuditDb :=
  let fields := mkRequestFields "" (ae_msg cause) "" "" (retriesField retries) in
  match TransitionRequest tfault now (req_ID req) RequestStateFetching RequestStateDenied
          (Some fields) s.1 with
  | (Err _, db') => (db', s.2)
  | (Ok _, db') =>
      (db', (RecordAudit afault now
        (admitEvent "admit_failure" req false (ae_msg cause) (failure_payload req cause retries)) s.2).2)
  end.

Definition processOwned (tfault afault : option string) (now : Z) (maxRetries : nat)
    (pipeline : nat → result AdmitError admitResult) (cancelled : nat → bool) (req : Request)
    (s : Db * AuditDb) : Db * AuditDb :=
  match attempts maxRetries pipeline cancelled with
  | Succeeded res retries => succeed tfault afault now req res retries s
  | Failed cause retries => fail tfault afault now req cause retries s
  | Cancelled | LoopEnd => s
  end.

(** The loop of [tryProcessOne]: claim the first candidate that is still in the
    state it was listed in, process it, and stop. *)
Fixpoint try_candidates (now : Z) (maxRetries : nat)
    (pipeline : Request → nat → result AdmitError admitResult) (cancelled : nat → bool)
    (candidates : list Request) (s : Db * AuditDb) : Db * AuditDb :=
  match candidates with
  | [] => s
  | req :: rest =>
      match TransitionRequest None now (req_ID req) (req_State req) RequestStateFetching None s.1 with
      | (Ok _, db') => processOwned None None now maxRetries (pipeline req) cancelled req (db', s.2)
      | (Err _, db') => try_candidates now maxRetries pipeline cancelled rest (db', s.2)
      end
  end.

Definition tryProcessOne (now : Z) (maxRetries : nat) (workers : Z)
    (pipeline : Request → nat → result AdmitError admitResult) (cancelled : nat → bool)
    (s : Db * AuditDb) : Db * AuditDb :=
  match ListRequests None
          (mkRequestQuery [RequestStateAutoPass; RequestStateApproved] "" (workers * 2)) s.1 with
  | Err _ => s
  | Ok candidates => try_candidates now maxRetries pipeline cancelled candidates s
  end.

(** The boot sweep of [Run]: anything fetching for longer than the staleness
    bound goes back to approved; a failure is only logged. *)
Definition sweepStuckFetching (fault : option string) (now now' sweepStaleness : Z) (db : Db) : Db :=
  (ReclaimStuckFetching fault now' (now - sweepStaleness) db).2.

Lemma transition_fetching now req to fields db r :
  db_rows db !! req_ID req = Some r → row_state r = RequestStateFetching →
  to = RequestStateIndexed ∨ to = RequestStateDenied →
  TransitionRequest None now (req_ID req) RequestStateFetching to (Some fields) db =
    (Ok tt, mkDb (<[req_ID req := updateRow now to fields r]> (db_rows db)) (db_last_id db)).
Proof.
  intros Hr Hs Hto. apply TransitionRequest_ok. split; [done|].
  split; [destruct Hto as [->| ->]; reflexivity|]. by exists r.
Qed.

(** C33: What an owned request becomes: with the attempts it got, the row goes to
    indexed with the hash and commit of the first success, or to denied with the
    error of the last attempt as the reason; the number of retries is kept when
    there were any; and one audit event records the outcome.  When the context
    ended during a back-off nothing is written and the row stays in fetching,
    for the boot sweep. *)
Theorem processOwned_outcome now maxRetries pipeline cancelled req db au r :
  db_rows db !! req_ID req = Some r → row_state r = RequestStateFetching →
  purger_name = "noop" →
  let out := processOwned None None now maxRetries pipeline cancelled req (db, au) in
  let becomes to fields ev :=
    out = (mkDb (<[req_ID req := updateRow now to fields r]> (db_rows db)) (db_last_id db),
           (RecordAudit None now ev au).2) in
  ∃ n, n ≤ maxRetries ∧ (∀ i, i < n → ∃ e, pipeline i = Err e ∧ IsTransient e = true) ∧
    ((∃ res, pipeline n = Ok res ∧
       becomes RequestStateIndexed
         (mkRequestFields "" "" (ar_Integrity res) (ar_CommitSHA res) (retriesField n))
         (admitEvent "admit_success" req true "" (success_payload req res n))) ∨
     (∃ e, pipeline n = Err e ∧ (IsTransient e = false ∨ n = maxRetries) ∧
       becomes RequestStateDenied
         (mkRequestFields "" (ae_msg e) "" "" (retriesField n))
         (admitEvent "admit_failure" req false (ae_msg e) (failure_payload req e n))) ∨
     (0 < n ∧ cancelled n = true ∧ out = (db, au))).
Proof.
  intros Hr Hs Hpurge. cbv zeta.
  destruct (attempts_facts maxRetries pipeline cancelled) as (n & Hn & H1 & _ & H3).
  exists n. split; [done|]. split; [done|]. unfold processOwned.
  destruct (attempts maxRetries pipeline cancelled) as [res k|e k| |]; [..|done].
  - destruct H3 as [-> Ha]. left. exists res. split; [done|]. unfold succeed.
    rewrite (transition_fetching _ _ _ _ _ r) by auto. unfold purgeAfterIndex.
    by rewrite decide_True by auto.
  - destruct H3 as (-> & Ha & Hw). right. left. exists e. split_and!; [done|done|].
    unfold fail. by rewrite (transition_fetching _ _ _ _ _ r) by auto.
  - right. right. naive_solver.
Qed.
End runner.

(** ** At most one admission per request *)

(** The operation is a claim: a transition of the request into fetching. *)
Definition claims_at (id : Z) (o : op) (db : Db) : bool :=
  match o with
  | OpTransition fault now id' from to fields =>
      bool_decide (id' = id) && bool_decide (to = RequestStateFetching) &&
      is_ok (TransitionRequest fault now id' from to fields db).1
  | _ => false
  end.

Fixpoint claims (id : Z) (ops : list op) (db : Db) : nat :=
  match ops with
  | [] => 0
  | o :: ops' => (if claims_at id o db then 1 else 0) + claims id ops' (exec o db)
  end.

Lemma claims_at_spec id o db :
  claims_at id o db = true →
  ∃ r r', db_rows db !! id = Some r ∧ rank (row_state r) < 5 ∧
    db_rows (exec o db) !! id = Some r' ∧ rank (row_state r') = 5 ∧ reclaims_at id o db = false.
Proof.
  destruct o as [fault now q|fault now id' from' to fields|fault now before]; simpl; try done.
  rewrite !andb_true_iff, !bool_decide_eq_true. intros [[-> ->] Hok].
  destruct (TransitionRequest fault now id from' RequestStateFetching fields db) as [[[]|e] db'] eqn:E;
    [|done].
  apply TransitionRequest_ok in E as (_ & Hc & r & Hr & <- & ->).
  exists r. eexists. split; [done|]. split; [exact (edge_rank _ _ Hc)|]. simpl.
  rewrite lookup_insert_eq. done.
Qed.

Lemma claims_existing id ops db r :
  ids_ok db → db_rows db !! id = Some r →
  claims id ops db ≤ (if rank (row_state r) <? 5 then 1 else 0) + reclaims id ops db.
Proof.
  revert db r. induction ops as [|o ops IH]; intros db r Hids Hr; simpl; [lia|].
  destruct (exec_rank o db id r Hids Hr) as (r' & Hr' & Hrank).
  specialize (IH _ _ (exec_ids_ok o db Hids) Hr').
  destruct (claims_at id o db) eqn:Hw.
  - apply claims_at_spec in Hw as (r0 & r1 & H0 & Hlt & H1 & H5 & Hrec).
    assert (r0 = r) as -> by congruence. assert (r1 = r') as -> by congruence.
    rewrite Hrec, H5 in *. destruct (Nat.ltb_spec (rank (row_state r)) 5); simpl in *; lia.
  - destruct Hrank as [Hle|(Hrec & Hf & Hr4)].
    + destruct (Nat.ltb_spec (rank (row_state r)) 5), (Nat.ltb_spec (rank (row_state r')) 5); lia.
    + rewrite Hrec. rewrite Hr4 in IH. simpl in IH. destruct (rank (row_state r) <? 5); lia.
Qed.

Lemma claims_absent id ops db :
  ids_ok db → db_rows db !! id = None → claims id ops db ≤ 1 + reclaims id ops db.
Proof.
  revert db. induction ops as [|o ops IH]; intros db Hids Hr; simpl; [lia|].
  assert (claims_at id o db = false) as ->.
  { apply not_true_iff_false. intros (r0 & ? & ? & _)%claims_at_spec. congruence. }
  specialize (exec_ids_ok o db Hids) as Hids'.
  destruct (db_rows (exec o db) !! id) as [r'|] eqn:Hr'.
  - pose proof (claims_existing id ops _ _ Hids' Hr') as H.
    destruct (rank (row_state r') <? 5), (reclaims_at id o db); lia.
  - specialize (IH _ Hids' Hr'). destruct (reclaims_at id o db); lia.
Qed.

(** A worker runs the pipeline for a request only after its claim succeeded, and
    in every sequence of store operations, by whatever workers and reviewers, at
    most one claim of a request succeeds, plus one for each boot sweep that took
    the request back: without sweeps a request is fetched and published by at
    most one worker. *)
Theorem claims_bounded id ops :
  claims id ops emptyDb ≤ 1 + reclaims id ops emptyDb.
Proof. apply claims_absent; [apply emptyDb_ids_ok|apply lookup_empty]. Qed.

(** The compare-and-swap is on the state, not on the owner: when a sweep takes a
    request back from a live worker and a second worker claims it, the first
    worker's outcome is accepted and the second worker's is refused. *)
Theorem sweep_lets_first_owner_finish :
  let claim now := OpTransition None now 1 RequestStateApproved RequestStateFetching None in
  let db := run [OpCreate None 1 demo_request;
                 OpTransition None 2 1 RequestStatePending RequestStatePreflighting None;
                 OpTransition None 3 1 RequestStatePreflighting RequestStateNeedsReview None;
                 OpTransition None 4 1 RequestStateNeedsReview RequestStateApproved None;
                 claim 5%Z; OpReclaim None 10 6; claim 11%Z] emptyDb in
  let (first, db') := TransitionRequest None 12 1 RequestStateFetching RequestStateDenied None db in
  first = Ok tt ∧
  (TransitionRequest None 13 1 RequestStateFetching RequestStateIndexed None db').1 =
    Err (ErrStateMismatch 1 RequestStateFetching).
Proof. vm_compute. split; reflexivity. Qed.

Lemma processOwned_outcome_witness :
  ∃ r, db_rows demo_stuck !! 2%Z = Some r ∧ row_state r = RequestStateFetching ∧
    db_rows (processOwned (λ _ _ _, "{}") (λ _ _ _, "{}") (λ _ _ _, "") "noop" ""
       (λ _, Ok tt) None None 9000 2
       (λ i, if decide (i = 0) then Err (mkAdmitError "HTTP 503" true)
             else Ok (mkAdmitResult "c0ffee" "sha256-x" 10))
       (λ _, false) (scanRequest 2 r) (demo_stuck, emptyAudit)).1 !! 2%Z =
      Some (updateRow 9000 RequestStateIndexed
              (mkRequestFields "" "" "sha256-x" "c0ffee" (Some 1%Z)) r).
Proof.
  assert (is_Some (db_rows demo_stuck !! 2%Z)) as [r Hr] by (vm_compute; by eexists).
  assert (row_state r = RequestStateFetching) as Hs
    by (vm_compute in Hr; injection Hr as <-; reflexivity).
  exists r. split; [exact Hr|]. split; [exact Hs|].
  destruct (processOwned_outcome (λ _ _ _, "{}") (λ _ _ _, "{}") (λ _ _ _, "") "noop" ""
       (λ _, Ok tt) 9000 2
       (λ i, if decide (i = 0) then Err (mkAdmitError "HTTP 503" true)
             else Ok (mkAdmitResult "c0ffee" "sha256-x" 10))
       (λ _, false) (scanRequest 2 r) demo_stuck emptyAudit r Hr Hs eq_refl)
    as (n & Hn & Hbefore & [(res & Hres & Hout)|[(e & He & Hw & _)|(_ & Hc & _)]]).
  - destruct n as [|[|n]]; [discriminate Hres| |].
    + injection Hres as <-. rewrite Hout. cbn [fst db_rows]. apply lookup_insert_eq.
    + exfalso. destruct (Hbefore 1 ltac:(lia)) as (e & He & _). discriminate He.
  - exfalso. destruct n as [|n]; [injection He as <-; destruct Hw as [Hw|Hw]; discriminate Hw|discriminate He].
  - discriminate Hc.
Defined.
