(* ===== verification/RequestHandlers.v ===== *)
(** * The procurement HTTP surface

    [internal/server/request_handlers.go]: submit, list, get, approve, deny and
    the effective policy, with [decodeJSONBody] ([jsonbody.go]) and the rate
    syntax ([ratelimit.ParseRate]).  A handler returns the responses it wrote,
    in order (the client sees the first status), and the new state; the body
    reader, the JSON decoder and the per-user limiter are parameters, and each
    store call has its own possible fault. *)

From stdpp Require Import pretty.
From S2P Require Import Prelude Strings Timestamp Policy AuditTrail Requests.

(** ** Responses *)

Inductive json : Type :=
| JStr (s : string)
| JNum (n : Z)
| JBool (b : bool)
| JStrs (l : list string)
| JBools (m : gmap string bool)
| JReq (r : Request)
| JReqs (l : list Request)
| JObj (fields : list (string * json)).

Inductive write : Type :=
| HttpError (status : Z) (msg : string)
| WriteJSON (status : Z) (body : json)
| RetryAfter (seconds : Z).

Definition status_of (w : write) : option Z :=
  match w with HttpError s _ | WriteJSON s _ => Some s | RetryAfter _ => None end.

(** The status line the client gets: the first one written. *)
Definition client_status (ws : list write) : option Z := head (omap status_of ws).

(** ** Request bodies *)

Inductive JSONError : Type := MaxBytesError | SyntaxError (msg : string).
Inductive trailing : Type := AtEOF | AnotherValue | TrailingError (e : JSONError).

(** What the two [Decode] calls return. *)
Record body_stream (A : Type) := mkBodyStream {
  bs_first : result JSONError A;
  bs_second : trailing;
}.
Arguments mkBodyStream {A}.
Arguments bs_first {A}.
Arguments bs_second {A}.

Definition writeJSONDecodeError (e : JSONError) : write :=
  match e with
  | MaxBytesError => HttpError 413 "request body too large"
  | SyntaxError msg => HttpError 400 ("bad request: " +:+ msg)
  end.

Definition decodeJSONBody {A} (b : body_stream A) : result write A :=
  match bs_first b with
  | Err e => Err (writeJSONDecodeError e)
  | Ok v =>
      match bs_second b with
      | AtEOF => Ok v
      | AnotherValue => Err (HttpError 400 "bad request: body must contain exactly one JSON value")
      | TrailingError e => Err (writeJSONDecodeError e)
      end
  end.

(** ** Rates *)

Inductive RateError : Type := ErrRateUnset | ErrRateMalformed (msg : string).

Definition ParseRate (s : string) : result RateError (Z * Z) :=
  if decide (TrimSpace s = "") then Err ErrRateUnset
  else
    match SplitN2 (TrimSpace s) "/" with
    | [a; b] =>
        match ParseInt (TrimSpace a) with
        | None => Err (ErrRateMalformed "count not an integer")
        | Some n =>
            if (n <=? 0)%Z then Err (ErrRateMalformed "count must be positive")
            else
              let unit := ToLower (TrimSpace b) in
              if decide (unit = "second") then Ok (n, 1000000000%Z)
              else if decide (unit = "minute") then Ok (n, 60000000000%Z)
              else if decide (unit = "hour") then Ok (n, 3600000000000%Z)
              else Err (ErrRateMalformed "unit must be second|minute|hour")
        end
    | _ => Err (ErrRateMalformed "want N/unit form")
    end.

(** ** Shared pieces *)

Definition denyByPolicy (action : string) : write :=
  WriteJSON 403 (JObj [("error", JStr (action +:+ " denied by policy"))]).

Definition submitterSub (id : Identity) : string :=
  if decide (id_Email id ≠ "") then id_Email id
  else if decide (id_User id ≠ "") then id_User id
  else "anonymous".

Definition internal_error : write := HttpError 500 "internal error".

(** The faults the database reports for the calls of one request. *)
Record faults := mkFaults {
  f_find : option string;
  f_count : option string;
  f_create : option string;
  f_get : option string;
  f_list : option string;
  f_transition : option string;
  f_audit : option string;
}.

Definition noFaults : faults := mkFaults None None None None None None None.

Abbreviation world := (Db * AuditDb)%type.

(** ** Submit *)

Record submitBody := mkSubmitBody {
  sb_Module : string;
  sb_Version : string;
  sb_SourceURL : string;
  sb_Notes : string;
}.

Definition parseSubmitBody (b : body_stream submitBody) : result write submitBody :=
  body ← decodeJSONBody b;
  let body := mkSubmitBody (TrimSpace (sb_Module body)) (TrimSpace (sb_Version body))
                (sb_SourceURL body) (sb_Notes body) in
  if decide (sb_Module body = "" ∨ sb_Version body = "")
  then Err (HttpError 400 "bad request: module and version are required")
  else Ok body.

(** The existing request to answer with, and the response written on a store
    failure. *)
Definition findDedupTarget (fault : option string) (module version : string) (db : Db)
    : option Request * list write :=
  match FindOpenRequest fault module version db with
  | Ok existing => (Some existing, [])
  | Err ErrRequestNotFound => (None, [])
  | Err _ => (None, [internal_error])
  end.

Definition newRequestFromBody (id : Identity) (body : submitBody) : Request :=
  mkRequest 0 (submitterSub id) (id_Email id)
    (if IsAuthenticated id then id_Source id else "anonymous")
    (sb_Module body) (sb_Version body) (sb_SourceURL body) (sb_Notes body)
    "" None None "" "" "" "" 0.

Definition submitEvent (payload : Z → string → string) (id : Identity) (newID : Z) (body : submitBody)
    : AuditEvent :=
  mkAuditEvent 0 None "request_submitted" "rest" (sb_Module body) (sb_Version body) true 0 ""
    (payload newID (sb_SourceURL body)) (DisplayName id).

Section handlers.
(** The policy snapshot; the per-user limiter, [None] when not wired, answering
    with the time to wait in nanoseconds; the audit payloads. *)
Context (pol : Policy).
Context (userRate : option (string → Z → Z → bool * Z)).
Context (submit_payload : Z → string → string).
Context (review_payload : Z → RequestState → string → string).

(** [int(math.Ceil(retryAfter.Seconds()))], at least 1. *)
Definition retry_seconds (ns : Z) : Z := Z.max 1 ((ns + 999999999) / 1000000000).

Definition checkUserRate (id : Identity) : result (list write) unit :=
  match userRate with
  | None => Ok tt
  | Some limiter =>
      match ParseRate (auth_PerUserRateLimit (pol_Auth pol)) with
      | Err _ => Ok tt
      | Ok (count, per) =>
          let (ok, retryAfter) := limiter (submitterSub id) count per in
          if ok : bool then Ok tt
          else Err [RetryAfter (retry_seconds retryAfter);
                    HttpError 429 ("rate limit exceeded; try again in " +:+
                                     pretty (retry_seconds retryAfter) +:+ "s")]
      end
  end.

(** Failing to count fails open. *)
Definition checkPendingCap (fault : option string) (id : Identity) (db : Db)
    : result (list write) unit :=
  let cap := auth_MaxPendingPerUser (pol_Auth pol) in
  if (cap <=? 0)%Z then Ok tt
  else
    match CountOpenRequestsForUser fault (submitterSub id) db with
    | Err _ => Ok tt
    | Ok count =>
        if (count <? cap)%Z then Ok tt
        else Err [RetryAfter 60; HttpError 429 ("max pending requests exceeded (" +:+ pretty count +:+ "/" +:+
                                        pretty cap +:+ " open); wait for some to resolve before submitting more")]
    end.

(** POST /api/v1/requests *)
Definition apiSubmitRequest (f : faults) (now : Z) (ctx : option Identity)
    (b : body_stream submitBody) (s : world) : list write * world :=
  let id := (FromContext ctx).1 in
  if negb (Allow (Some pol) id "submit_request") then ([denyByPolicy "submit_request"], s)
  else
    match checkUserRate id with
    | Err ws => (ws, s)
    | Ok _ =>
        match parseSubmitBody b with
        | Err w => ([w], s)
        | Ok body =>
            match findDedupTarget (f_find f) (sb_Module body) (sb_Version body) s.1 with
            | (Some existing, ws) =>
                (ws ++ [WriteJSON 200 (JObj [("id", JNum (req_ID existing));
                   ("state", JStr (req_State existing)); ("dedup", JBool true)])], s)
            | (None, ws) =>
                match checkPendingCap (f_count f) id s.1 with
                | Err ws' => (ws ++ ws', s)
                | Ok _ =>
                    match CreateRequest (f_create f) now (newRequestFromBody id body) s.1 with
                    | (Err _, db') => (ws ++ [internal_error], (db', s.2))
                    | (Ok newID, db') =>
                        (ws ++ [WriteJSON 201 (JObj [("id", JNum newID);
                           ("state", JStr RequestStatePending)])],
                         (db', (RecordAudit (f_audit f) now
                            (submitEvent submit_payload id newID body) s.2).2))
                    end
                end
            end
        end
    end.

(** ** Read *)

(** GET /api/v1/requests; the query parameters as they arrive. *)
Definition apiListRequests (f : faults) (ctx : option Identity) (states : list string)
    (submitter limit : string) (s : world) : list write :=
  let id := (FromContext ctx).1 in
  if negb (Allow (Some pol) id "view_requests") then [denyByPolicy "view_requests"]
  else
    let states := filter (λ st, st ≠ "") (TrimSpace <$> states) in
    let l := TrimSpace limit in
    let n := if decide (l = "") then 0%Z else default 0%Z (ParseInt l) in
    match ListRequests (f_list f) (mkRequestQuery states (TrimSpace submitter) n) s.1 with
    | Err _ => [internal_error]
    | Ok rows => [WriteJSON 200 (JObj [("requests", JReqs rows)])]
    end.

Definition parse_id (idStr : string) : option Z :=
  match ParseInt idStr with
  | Some n => if (n <=? 0)%Z then None else Some n
  | None => None
  end.

(** GET /api/v1/requests/{id} *)
Definition apiGetRequest (f : faults) (ctx : option Identity) (idStr : string) (s : world) : list write :=
  let id := (FromContext ctx).1 in
  if negb (Allow (Some pol) id "view_requests") then [denyByPolicy "view_requests"]
  else
    match parse_id idStr with
    | None => [HttpError 400 "bad request: id must be a positive integer"]
    | Some reqID =>
        match GetRequest (f_get f) reqID s.1 with
        | Err ErrRequestNotFound => [HttpError 404 "request not found"]
        | Err _ => [internal_error]
        | Ok got => [WriteJSON 200 (JReq got)]
        end
    end.

(** ** Review *)

Record transitionConfig := mkTransitionConfig {
  tc_action : string;
  tc_auditKind : string;
  tc_toState : RequestState;
  tc_allowedFroms : list RequestState;
  tc_requireReason : bool;
}.

Definition approveConfig : transitionConfig :=
  mkTransitionConfig "approve_request" "request_approved" RequestStateApproved
    [RequestStateNeedsReview] false.
Definition denyConfig : transitionConfig :=
  mkTransitionConfig "deny_request" "request_denied" RequestStateDenied
    [RequestStatePending; RequestStatePreflighting; RequestStateNeedsReview] true.

(** The reason of the body; an endpoint that needs none does not read it. *)
Definition readReason (cfg : transitionConfig) (b : body_stream string) : result write string :=
  if tc_requireReason cfg then
    reason ← decodeJSONBody b;
    if decide (TrimSpace reason = "") then Err (HttpError 400 "bad request: reason is required")
    else Ok (TrimSpace reason)
  else Ok "".

Definition reviewEvent (cfg : transitionConfig) (id : Identity) (current : Request) (reqID : Z)
    (reason : string) : AuditEvent :=
  mkAuditEvent 0 None (tc_auditKind cfg) "rest" (req_Module current) (req_Version current) true 0 ""
    (review_payload reqID (req_State current) reason) (DisplayName id).

(** [transitionByReviewer].  [between] is what other writers do to the state
    after the row was read and before it is transitioned. *)
Definition transitionByReviewer (cfg : transitionConfig) (f : faults) (now : Z)
    (ctx : option Identity) (idStr : string) (b : body_stream string) (between : world → world)
    (s : world) : list write * world :=
  let id := (FromContext ctx).1 in
  if negb (Allow (Some pol) id (tc_action cfg)) then ([denyByPolicy (tc_action cfg)], s)
  else
    match parse_id idStr with
    | None => ([HttpError 400 "bad request: id must be a positive integer"], s)
    | Some reqID =>
        match readReason cfg b with
        | Err w => ([w], s)
        | Ok reason =>
            match GetRequest (f_get f) reqID s.1 with
            | Err ErrRequestNotFound => ([HttpError 404 "request not found"], s)
            | Err _ => ([internal_error], s)
            | Ok current =>
                if negb (bool_decide (req_State current ∈ tc_allowedFroms cfg)) then
                  ([WriteJSON 409 (JObj
                     [("error", JStr ("request is in state " +:+ req_State current +:+ "; " +:+
                                       tc_action cfg +:+ " not allowed"));
                      ("current_state", JStr (req_State current));
                      ("allowed_from", JStrs (tc_allowedFroms cfg))])], s)
                else
                  let s := between s in
                  let fields := mkRequestFields "" reason "" "" None in
                  match TransitionRequest (f_transition f) now reqID (req_State current)
                          (tc_toState cfg) (Some fields) s.1 with
                  | (Err (ErrStateMismatch _ _), db') =>
                      ([WriteJSON 409 (JObj [("error", JStr "concurrent modification; re-fetch and retry")])],
                       (db', s.2))
                  | (Err (ErrIllegalTransition _ _), db') =>
                      ([WriteJSON 409 (JObj [("error", JStr "illegal transition")])], (db', s.2))
                  | (Err _, db') => ([internal_error], (db', s.2))
                  | (Ok _, db') =>
                      ([WriteJSON 200 (JObj [("id", JNum reqID); ("state", JStr (tc_toState cfg))])],
                       (db', (RecordAudit (f_audit f) now
                          (reviewEvent cfg id current reqID reason) s.2).2))
                  end
            end
        end
    end.

Definition apiApproveRequest := transitionByReviewer approveConfig.
Definition apiDenyRequest := transitionByReviewer denyConfig.

(** GET /api/v1/policy/effective *)
Definition apiPolicyEffective (ctx : option Identity) : list write :=
  let id := (FromContext ctx).1 in
  let actions := map_imap (λ name _, Some (Allow (Some pol) id name)) (auth_Actions (pol_Auth pol)) in
  [WriteJSON 200 (JObj
    [("profile", JStr (pol_Profile pol));
     ("actions", JBools actions);
     ("identity", JObj [("email", JStr (id_Email id)); ("user", JStr (id_User id));
                        ("groups", JStrs (id_Groups id));
                        ("source", JStr (if decide (id_Source id = "") then SourceAnonymous
                                         else id_Source id))])])].

(** ** Submitting *)

Definition open_coords (module version : string) (db : Db) : Prop :=
  ∃ id r, db_rows db !! id = Some r ∧ row_module r = module ∧ row_version r = version ∧
    terminal (row_state r) = false.

(** The open requests of a submitter. *)
Definition open_count (sub : string) (db : Db) : Z :=
  Z.of_nat (length (filter (λ x, row_submitter_sub x.2 = sub ∧ terminal (row_state x.2) = false)
    (map_to_list (db_rows db)))).

Lemma CountOpen_spec sub db : CountOpenRequestsForUser None sub db = Ok (open_count sub db).
Proof.
  simpl. unfold open_count. do 3 f_equal. apply list_filter_iff'. intros [id r] _. simpl.
  unfold open_row, terminal.
  rewrite andb_true_iff, !bool_decide_eq_true, bool_decide_eq_false. done.
Qed.

Lemma findDedupTarget_spec module version db :
  match findDedupTarget None module version db with
  | (Some req, ws) => ws = [] ∧ open_coords module version db ∧
      FindOpenRequest None module version db = Ok req
  | (None, ws) => ws = [] ∧ ¬ open_coords module version db
  end.
Proof.
  unfold findDedupTarget. pose proof (FindOpenRequest_facts module version db) as H.
  destruct (FindOpenRequest None module version db) as [req|e].
  - destruct H as (r & Hr & _ & Hm & Hv & Ht & _). split_and!; [done| |done].
    by exists (req_ID req), r.
  - destruct H as [-> H]. split; [done|]. intros (id & r & Hr & Hm & Hv & Ht).
    by rewrite (H id r Hr Hm Hv) in Ht.
Qed.

Lemma checkPendingCap_spec id db :
  let cap := auth_MaxPendingPerUser (pol_Auth pol) in
  match checkPendingCap None id db with
  | Ok _ => (cap ≤ 0 ∨ open_count (submitterSub id) db < cap)%Z
  | Err ws => (0 < cap ≤ open_count (submitterSub id) db)%Z ∧ omap status_of ws = [429%Z]
  end.
Proof.
  cbv zeta. unfold checkPendingCap. destruct (Z.leb_spec (auth_MaxPendingPerUser (pol_Auth pol)) 0);
    [by left|].
  rewrite CountOpen_spec. destruct (Z.ltb_spec (open_count (submitterSub id) db)
    (auth_MaxPendingPerUser (pol_Auth pol))); [by right|]. split; [lia|done].
Qed.

(** What the submission of [body] by [id] needs besides the policy gate. *)
Definition acceptable (id : Identity) (body : submitBody) (db : Db) : Prop :=
  checkUserRate id = Ok tt ∧ ¬ open_coords (sb_Module body) (sb_Version body) db ∧
  (auth_MaxPendingPerUser (pol_Auth pol) ≤ 0 ∨
   open_count (submitterSub id) db < auth_MaxPendingPerUser (pol_Auth pol))%Z ∧
  TrimSpace (submitterSub id) ≠ "" ∧
  TrimSpace (if IsAuthenticated id then id_Source id else "anonymous") ≠ "".

Lemma parseSubmitBody_trimmed b body :
  parseSubmitBody b = Ok body →
  TrimSpace (sb_Module body) = sb_Module body ∧ TrimSpace (sb_Version body) = sb_Version body ∧
  sb_Module body ≠ "" ∧ sb_Version body ≠ "".
Proof.
  unfold parseSubmitBody. rewrite bind_ok. intros (body0 & _ & H). cbv zeta in H.
  case_decide as Hc; [done|]. injection H as <-. cbn [sb_Module sb_Version] in *.
  rewrite !TrimSpace_idemp. naive_solver.
Qed.

Lemma parseSubmitBody_status b w :
  parseSubmitBody b = Err w → status_of w = Some 400%Z ∨ status_of w = Some 413%Z.
Proof.
  unfold parseSubmitBody, decodeJSONBody, writeJSONDecodeError.
  destruct b as [[body|[]] []]; simpl; try (intros [= <-]; auto; fail).
  - case_decide; [intros [= <-]; auto|done].
  - destruct e; intros [= <-]; auto.
Qed.

Lemma checkUserRate_status id ws : checkUserRate id = Err ws → omap status_of ws = [429%Z].
Proof.
  unfold checkUserRate. destruct userRate as [limiter|]; [|done].
  destruct (ParseRate _) as [[count per]|]; [|done].
  destruct (limiter _ _ _) as [[] ra]; [done|]. by intros [= <-].
Qed.

(** C26: Submitting, when the database works: exactly one status is written.  It is
    201, with a new pending row (the trimmed coordinates, the caller's identity)
    under the next id and one audit event, exactly when the policy allows the
    caller to submit, the rate limiter admits them, the body is well formed with
    both coordinates, no request for the coordinates is open, the caller is
    below the cap of open requests and has a name; otherwise the status is
    another one and nothing changes. *)
Theorem submit_correct now ctx b db au :
  let id := (FromContext ctx).1 in
  let out := apiSubmitRequest noFaults now ctx b (db, au) in
  (∃ body, Allow (Some pol) id "submit_request" = true ∧ parseSubmitBody b = Ok body ∧
    acceptable id body db ∧
    let new := (db_last_id db + 1)%Z in
    out = ([WriteJSON 201 (JObj [("id", JNum new); ("state", JStr RequestStatePending)])],
           (mkDb (<[new := pendingRow now (newRequestFromBody id body)]> (db_rows db)) new,
            (RecordAudit None now (submitEvent submit_payload id new body) au).2))) ∨
  ((∀ body, parseSubmitBody b = Ok body → Allow (Some pol) id "submit_request" = true →
      ¬ acceptable id body db) ∧
    out.2 = (db, au) ∧ ∃ st, omap status_of out.1 = [st] ∧ st ≠ 201%Z).
Proof.
  cbv zeta. unfold apiSubmitRequest. set (id := (FromContext ctx).1).
  destruct (Allow (Some pol) id "submit_request") eqn:Ha; simpl negb; cbv iota;
    [|right; split; [done|]; split; [done|]; by exists 403%Z].
  destruct (checkUserRate id) as [[]|ws] eqn:Hrate.
  2: { right. split; [unfold acceptable; rewrite Hrate; naive_solver|]. split; [done|].
       apply checkUserRate_status in Hrate. exists 429%Z. done. }
  destruct (parseSubmitBody b) as [body|w] eqn:Hb.
  2: { right. split; [done|]. split; [done|]. apply parseSubmitBody_status in Hb.
       cbn [fst]; destruct Hb as [Hw|Hw];
         [exists 400%Z|exists 413%Z]; (split; [cbn; by rewrite Hw|done]). }
  pose proof (findDedupTarget_spec (sb_Module body) (sb_Version body) db) as Hd.
  cbn [fst f_find noFaults].
  destruct (findDedupTarget None (sb_Module body) (sb_Version body) db) as [[existing|] ws].
  { destruct Hd as (-> & Ho & _). right. split; [|split; [done|]; by exists 200%Z].
    intros body' [= <-] _ (_ & Hn & _). done. }
  destruct Hd as [-> Hn]. pose proof (checkPendingCap_spec id db) as Hcap. cbv zeta in Hcap.
  cbn [fst f_count noFaults]. destruct (checkPendingCap None id db) as [[]|ws].
  2: { destruct Hcap as [Hcap Hst]. right. split; [|split; [done|]; by exists 429%Z].
       intros body' [= <-] _ (_ & _ & Hc & _). lia. }
  apply parseSubmitBody_trimmed in Hb as Hb'. destruct Hb' as (Hm & Hv & Hm0 & Hv0).
  unfold CreateRequest. cbn [newRequestFromBody req_SubmitterSub req_AuthMethod req_Module
    req_Version f_create noFaults].
  destruct (decide (TrimSpace (submitterSub id) = "")) as [E1|E1].
  { right. split; [|split; [done|]; by exists 500%Z].
    intros body' [= <-] _ (_ & _ & _ & ? & _). done. }
  destruct (decide (TrimSpace (if IsAuthenticated id then _ else _) = "")) as [E2|E2].
  { right. split; [|split; [done|]; by exists 500%Z].
    intros body' [= <-] _ (_ & _ & _ & _ & ?). done. }
  rewrite Hm, Hv, !decide_False by done. left. exists body. split_and!; try done.
Qed.

(** *** A failing dedup lookup *)

(** The handler writes 500 for a failing dedup lookup and goes on as if nothing
    were open: the client sees 500 while a second open request for the same
    coordinates is created and audited. *)
Theorem dedup_failure_creates now ctx b db au body newID msg :
  let id := (FromContext ctx).1 in
  Allow (Some pol) id "submit_request" = true → checkUserRate id = Ok tt →
  parseSubmitBody b = Ok body → checkPendingCap None id db = Ok tt →
  (CreateRequest None now (newRequestFromBody id body) db).1 = Ok newID →
  let out := apiSubmitRequest (mkFaults (Some msg) None None None None None None) now ctx b (db, au) in
  client_status out.1 = Some 500%Z ∧
  out.2.1 = (CreateRequest None now (newRequestFromBody id body) db).2.
Proof.
  cbv zeta. intros Ha Hr Hb Hc Hn. unfold apiSubmitRequest. rewrite Ha. simpl negb. cbv iota.
  rewrite Hr, Hb. cbn [fst f_find findDedupTarget FindOpenRequest f_count]. rewrite Hc.
  cbn [f_create]. destruct (CreateRequest None now _ db) as [[n|e] db']; [done|discriminate Hn].
Qed.

(** ** Reviewing *)

Lemma readReason_status cfg b w :
  readReason cfg b = Err w → status_of w = Some 400%Z ∨ status_of w = Some 413%Z.
Proof.
  unfold readReason. destruct (tc_requireReason cfg); [|done].
  unfold decodeJSONBody, writeJSONDecodeError.
  destruct b as [[r|[]] []]; simpl; try (intros [= <-]; auto; fail).
  - case_decide; [intros [= <-]; auto|done].
  - destruct e; intros [= <-]; auto.
Qed.

Lemma approve_deny_legal cfg from :
  cfg = approveConfig ∨ cfg = denyConfig → from ∈ tc_allowedFroms cfg →
  CanTransitionTo from (tc_toState cfg) = true.
Proof.
  intros [->| ->]; cbn [tc_allowedFroms tc_toState approveConfig denyConfig];
    rewrite !elem_of_cons, elem_of_nil; intros H; destruct_or! H; subst; done.
Qed.

(** C27: Approving and denying, whatever other writers do between the handler's read
    and its write: exactly one status is written.  It is 200 exactly when the
    policy allows the action, the id is a positive number, the reason is given
    where one is required, the row was read in a state the endpoint accepts and
    is still in that state at the write; then that row alone moves to the
    endpoint's state, with the reason, and one audit event is written.
    Otherwise the status is another one and the handler changes nothing. *)
Theorem review_correct cfg now ctx idStr b between db au :
  cfg = approveConfig ∨ cfg = denyConfig →
  let id := (FromContext ctx).1 in
  let out := transitionByReviewer cfg noFaults now ctx idStr b between (db, au) in
  let s' := between (db, au) in
  (∃ reqID reason r r',
    Allow (Some pol) id (tc_action cfg) = true ∧ parse_id idStr = Some reqID ∧
    readReason cfg b = Ok reason ∧
    db_rows db !! reqID = Some r ∧ row_state r ∈ tc_allowedFroms cfg ∧
    db_rows s'.1 !! reqID = Some r' ∧ row_state r' = row_state r ∧
    out = ([WriteJSON 200 (JObj [("id", JNum reqID); ("state", JStr (tc_toState cfg))])],
      (mkDb (<[reqID := updateRow now (tc_toState cfg) (mkRequestFields "" reason "" "" None) r']>
               (db_rows s'.1)) (db_last_id s'.1),
       (RecordAudit None now (reviewEvent cfg id (scanRequest reqID r) reqID reason) s'.2).2))) ∨
  ((out.2 = (db, au) ∨ out.2 = s') ∧ ∃ st, omap status_of out.1 = [st] ∧ st ≠ 200%Z).
Proof.
  intros Hcfg. cbv zeta. unfold transitionByReviewer. set (id := (FromContext ctx).1).
  destruct (Allow (Some pol) id (tc_action cfg)) eqn:Ha; simpl negb; cbv iota;
    [|right; split; [by left|]; by exists 403%Z].
  destruct (parse_id idStr) as [reqID|] eqn:Hid; [|right; split; [by left|]; by exists 400%Z].
  destruct (readReason cfg b) as [reason|w] eqn:Hre.
  2: { right. split; [by left|]. apply readReason_status in Hre.
       destruct Hre as [Hw|Hw]; cbn [omap list_omap fst]; rewrite Hw; eexists; split; done. }
  cbn [GetRequest f_get noFaults fst].
  destruct (db_rows db !! reqID) as [r|] eqn:Hr; [|right; split; [by left|]; by exists 404%Z].
  cbn [req_State scanRequest].
  case_bool_decide as Hin; simpl negb; cbv iota; [|right; split; [by left|]; by exists 409%Z].
  set (s' := between (db, au)). destruct s' as [db' au'] eqn:Es.
  cbn [fst snd f_transition noFaults].
  destruct (TransitionRequest None now reqID (row_state r) (tc_toState cfg)
    (Some (mkRequestFields "" reason "" "" None)) db') as [[[]|e] db2] eqn:Et.
  - apply TransitionRequest_ok in Et as (_ & Hc & r' & Hr' & Hs & ->).
    left. exists reqID, reason, r, r'. split_and!; try done.
  - pose proof (TransitionRequest_err None now reqID (row_state r) (tc_toState cfg)
      (Some (mkRequestFields "" reason "" "" None)) db') as He. rewrite Et in He.
    specialize (He eq_refl). simpl in He. subst db2.
    right. split; [right; by destruct e|].
    destruct e; first [by exists 409%Z | by exists 404%Z | by exists 500%Z | by exists 400%Z].
Qed.
End handlers.

(** ** A concrete server

    Anyone may submit and review, one open request per submitter. *)
Definition demo_policy : Policy :=
  mkPolicy 1 "open"
    (mkAuth {["submit_request" := GateAny; "view_requests" := GateAny;
              "approve_request" := GateAny; "deny_request" := GateAuthenticated]}
       (mkAnonymousAbuse "" "" false) "2/minute" 1 "")
    (pol_Admission zeroPolicy) (pol_Naming zeroPolicy) (pol_Maintainers zeroPolicy)
    (pol_Audit zeroPolicy) (pol_MCP zeroPolicy) (pol_Git zeroPolicy) (pol_Content zeroPolicy)
    (pol_Seed zeroPolicy).

Definition demo_user : Identity := mkIdentity "dev@corp" "dev" [] SourceBearer.
Definition demo_body : body_stream submitBody :=
  mkBodyStream (Ok (mkSubmitBody " rules_go " "0.50.1" "https://corp/rules_go.tgz" "")) AtEOF.
Definition demo_limiter : string → Z → Z → bool * Z := λ _ n _, ((0 <? n)%Z, 0%Z).

Lemma dedup_failure_creates_witness :
  Allow (Some demo_policy) demo_user "submit_request" = true ∧
  let out := apiSubmitRequest demo_policy (Some demo_limiter) (λ _ _, "{}")
    (mkFaults (Some "disk I/O error") None None None None None None) 1000 (Some demo_user) demo_body
    (emptyDb, emptyAudit) in
  client_status out.1 = Some 500%Z ∧ db_last_id out.2.1 = 1%Z.
Proof.
  split; [vm_compute; reflexivity|]. cbv zeta.
  destruct (dedup_failure_creates demo_policy (Some demo_limiter) (λ _ _, "{}") 1000 (Some demo_user)
    demo_body emptyDb emptyAudit (mkSubmitBody "rules_go" "0.50.1" "https://corp/rules_go.tgz" "") 1
    "disk I/O error") as [H1 H2];
    [vm_compute; reflexivity..|].
  split; [exact H1|]. rewrite H2. vm_compute. reflexivity.
Defined.

Lemma review_correct_witness :
  (denyConfig = approveConfig ∨ denyConfig = denyConfig) ∧
  let out := apiDenyRequest demo_policy (λ _ _ _, "{}") noFaults 5000 (Some demo_user) "2"
    (mkBodyStream (Ok " not maintained ") AtEOF) (λ s, s) (demo_db, emptyAudit) in
  ∃ r, db_rows demo_db !! 2%Z = Some r ∧ row_state r = RequestStatePending ∧
    out.2.1 = mkDb (<[2%Z := updateRow 5000 RequestStateDenied
                       (mkRequestFields "" "not maintained" "" "" None) r]> (db_rows demo_db)) 2.
Proof.
  split; [by right|]. cbv zeta.
  destruct (review_correct demo_policy (λ _ _ _, "{}") denyConfig 5000 (Some demo_user) "2"
    (mkBodyStream (Ok " not maintained ") AtEOF) (λ s, s) demo_db emptyAudit (or_intror eq_refl))
    as [(n & reason & r & r' & _ & Hn & Hre & Hr & _ & Hr' & _ & Hout)|[_ (st & Hst & Hne)]].
  - vm_compute in Hn. injection Hn as <-. vm_compute in Hre. injection Hre as <-.
    change (db_rows demo_db !! 2%Z = Some r') in Hr'. rewrite Hr in Hr'. injection Hr' as <-.
    exists r. split; [exact Hr|]. split; [|unfold apiDenyRequest; rewrite Hout; reflexivity].
    vm_compute in Hr. injection Hr as <-. reflexivity.
  - exfalso. vm_compute in Hst. injection Hst as <-. by apply Hne.
Defined.
