(* ===== verification/EventBus.v ===== *)
(** * The in-process event bus

    [internal/eventbus/bus.go].  A [Bus] is shared by publishers, subscribers and
    whoever closes it; each method is split where it releases the mutex, so that
    a publication is a snapshot of the subscribers followed by one non-blocking
    send per target, and anything may happen in between.  [step] is one such
    atomic piece by one goroutine; an outcome [Err] is a Go panic. *)

From S2P Require Import Prelude.

Inductive panic : Type :=
| SendOnClosedChannel
| CloseOfClosedChannel
| AssignmentToNilMap.

Section bus.
Context {Data : Type}.

Record Event := mkEvent {
  evt_Kind : string;
  evt_Data : Data;
}.

(** A [subscriber]: its buffered channel and its drop counter, a uint64. *)
Record subscriber := mkSubscriber {
  ch_cap : nat;
  ch_buf : list Event;
  ch_closed : bool;
  dropped : Z;
}.

(** [b.subs] is nil once the bus is closed.  Subscribers are named by their
    position in [heap]; [calls] are the publications under way, each with the
    targets of its snapshot still to serve. *)
Record Bus := mkBus {
  subs : option (gset nat);
  closed : bool;
  heap : list subscriber;
  calls : list (Event * list nat);
}.

Definition New : Bus := mkBus (Some ∅) false [] [].

(** The subscribers of the map, nil or not. *)
Definition members (b : Bus) : gset nat := default ∅ (subs b).

(** [atomicUint64.add] *)
Definition add (n delta : Z) : Z := ((n + delta) `mod` 2 ^ 64)%Z.

(** [Subscribe]: a fresh subscriber; writing to a nil map panics. *)
Definition Subscribe (bufferSize : Z) (b : Bus) : result panic Bus :=
  let bufferSize := if (bufferSize <=? 0)%Z then 64%Z else bufferSize in
  match subs b with
  | None => Err AssignmentToNilMap
  | Some m =>
      Ok (mkBus (Some ({[length (heap b)]} ∪ m)) (closed b)
            (heap b ++ [mkSubscriber (Z.to_nat bufferSize) [] false 0]) (calls b))
  end.

(** The locked half of [Publish]; [targets] lists the map in some order. *)
Definition Publish_snapshot (e : Event) (targets : list nat) (b : Bus) : Bus :=
  if closed b then b
  else mkBus (subs b) (closed b) (heap b) (calls b ++ [(e, targets)]).

(** One iteration of the unlocked half: [select { case s.ch <- e: default: ... }].
    A send on a closed channel panics even with a default case. *)
Definition send (e : Event) (s : subscriber) : result panic subscriber :=
  if ch_closed s then Err SendOnClosedChannel
  else if length (ch_buf s) <? ch_cap s then
    Ok (mkSubscriber (ch_cap s) (ch_buf s ++ [e]) (ch_closed s) (dropped s))
  else Ok (mkSubscriber (ch_cap s) (ch_buf s) (ch_closed s) (add (dropped s) 1)).

Definition Publish_send (p : nat) (e : Event) (i : nat) (rest : list nat) (b : Bus)
    : result panic Bus :=
  match heap b !! i with
  | None => Ok b
  | Some s =>
      s' ← send e s;
      Ok (mkBus (subs b) (closed b) (<[i := s']> (heap b)) (<[p := (e, rest)]> (calls b)))
  end.

(** [close(s.ch)] *)
Definition close_chan (s : subscriber) : result panic subscriber :=
  if ch_closed s then Err CloseOfClosedChannel
  else Ok (mkSubscriber (ch_cap s) (ch_buf s) true (dropped s)).

Definition close_at (i : nat) (h : list subscriber) : result panic (list subscriber) :=
  match h !! i with
  | None => Ok h
  | Some s => s' ← close_chan s; Ok (<[i := s']> h)
  end.

(** The function [Subscribe] returned for subscriber [i]. *)
Definition unsubscribe (i : nat) (b : Bus) : result panic Bus :=
  if decide (i ∈ members b) then
    h ← close_at i (heap b);
    Ok (mkBus ((λ m, m ∖ {[i]}) <$> subs b) (closed b) h (calls b))
  else Ok b.

Fixpoint close_all (l : list nat) (h : list subscriber) : result panic (list subscriber) :=
  match l with
  | [] => Ok h
  | i :: l' => h' ← close_at i h; close_all l' h'
  end.

Definition Close (b : Bus) : result panic Bus :=
  if closed b then Ok b
  else
    h ← close_all (elements (members b)) (heap b);
    Ok (mkBus None true h (calls b)).

(** A receive by subscriber [i] from a channel that holds something. *)
Definition receive (i : nat) (b : Bus) : Bus :=
  mkBus (subs b) (closed b)
    (alter (λ s, mkSubscriber (ch_cap s) (drop 1 (ch_buf s)) (ch_closed s) (dropped s)) i (heap b))
    (calls b).

(** ** Interleavings *)

Inductive action : Type :=
| ASubscribe (bufferSize : Z)
| APublish (e : Event) (targets : list nat)
| ASend (p : nat) (e : Event) (i : nat)
| AReceive (i : nat) (e : Event)
| AUnsubscribe (i : nat)
| AClose.

Inductive step (b : Bus) : action → result panic Bus → Prop :=
| step_subscribe n : step b (ASubscribe n) (Subscribe n b)
| step_publish e targets :
    targets ≡ₚ elements (members b) →
    step b (APublish e targets) (Ok (Publish_snapshot e targets b))
| step_send p e i rest :
    calls b !! p = Some (e, i :: rest) →
    step b (ASend p e i) (Publish_send p e i rest b)
| step_receive i s e buf :
    heap b !! i = Some s → ch_buf s = e :: buf →
    step b (AReceive i e) (Ok (receive i b))
| step_unsubscribe i : i < length (heap b) → step b (AUnsubscribe i) (unsubscribe i b)
| step_close : step b AClose (Close b).

(** The states reachable by an interleaving, with the actions taken. *)
Inductive reach : list action → Bus → Prop :=
| reach_new : reach [] New
| reach_step acts b a b' : reach acts b → step b a (Ok b') → reach (acts ++ [a]) b'.

(** What an interleaving did for subscriber [i]: the events whose snapshot had
    it, those offered to its channel, and those it received. *)
Definition published_to (i : nat) (acts : list action) : list Event :=
  omap (λ a, match a with
             | APublish e targets => if decide (i ∈ targets) then Some e else None
             | _ => None
             end) acts.

Definition offered (i : nat) (acts : list action) : list Event :=
  omap (λ a, match a with
             | ASend _ e j => if decide (j = i) then Some e else None
             | _ => None
             end) acts.

Definition received (i : nat) (acts : list action) : list Event :=
  omap (λ a, match a with
             | AReceive j e => if decide (j = i) then Some e else None
             | _ => None
             end) acts.

(** The events still to be offered to [i]. *)
Definition pending (i : nat) (cs : list (Event * list nat)) : list Event :=
  omap (λ c, if decide (i ∈ c.2) then Some c.1 else None) cs.

(** ** Invariant *)

(** What the history [acts] means for subscriber [i] of [b]. *)
Definition history_ok (acts : list action) (b : Bus) (i : nat) : Prop :=
  offered i acts ++ pending i (calls b) ≡ₚ published_to i acts ∧
  match heap b !! i with
  | None => published_to i acts = [] ∧ received i acts = []
  | Some s =>
      let kept := received i acts ++ ch_buf s in
      length (ch_buf s) ≤ ch_cap s ∧ kept `sublist_of` offered i acts ∧
      dropped s = (Z.of_nat (length (offered i acts) - length kept) `mod` 2 ^ 64)%Z ∧
      (length (offered i acts) ≤ ch_cap s → kept = offered i acts)
  end.

Record inv (acts : list action) (b : Bus) : Prop := {
  inv_closed : closed b = true ↔ subs b = None;
  inv_open : ∀ i, i ∈ members b ↔ ∃ s, heap b !! i = Some s ∧ ch_closed s = false;
  inv_calls : Forall (λ c, NoDup c.2 ∧ Forall (λ i, i < length (heap b)) c.2) (calls b);
  inv_history : ∀ i, history_ok acts b i;
}.

Lemma inv_members acts b i : inv acts b → i ∈ members b → i < length (heap b).
Proof.
  intros Hinv Hi. apply (inv_open _ _ Hinv) in Hi as (s & Hs & _). by eapply lookup_lt_Some.
Qed.

Lemma inv_New : inv [] New.
Proof.
  split; [done| |constructor|].
  - intros i. unfold members. simpl. rewrite elem_of_empty. split; [done|]. by intros (s & ? & _).
  - intros i. by split.
Qed.

(** An action that offers nothing to [i], delivers nothing to it and is no
    publication leaves its history as it was. *)
Lemma history_quiet acts a b b' i :
  published_to i [a] = [] → offered i [a] = [] → received i [a] = [] →
  pending i (calls b') = pending i (calls b) →
  match heap b !! i, heap b' !! i with
  | Some s, Some s' => ch_buf s' = ch_buf s ∧ ch_cap s' = ch_cap s ∧ dropped s' = dropped s
  | None, None => True
  | None, Some s' => ch_buf s' = [] ∧ dropped s' = 0%Z
  | Some _, None => False
  end →
  history_ok acts b i → history_ok (acts ++ [a]) b' i.
Proof.
  unfold history_ok, published_to, offered, received. intros Hp Ho Hr Hq Hh [H1 H2].
  rewrite !omap_app, Hp, Ho, Hr, !app_nil_r, Hq. split; [done|].
  destruct (heap b !! i) as [s|], (heap b' !! i) as [s'|]; try done.
  - destruct Hh as (-> & -> & ->). done.
  - destruct Hh as [-> ->]. destruct H2 as [H2 ->]. rewrite H2 in H1.
    apply symmetry, Permutation_nil, app_eq_nil in H1 as [-> _]. simpl. split_and!; [lia|done|done|done].
Qed.

Lemma pending_snapshot i cs e targets :
  pending i (cs ++ [(e, targets)]) = pending i cs ++ (if decide (i ∈ targets) then [e] else []).
Proof. unfold pending. rewrite omap_app. simpl. by destruct (decide (i ∈ targets)). Qed.

Lemma pending_send i cs p e j rest :
  cs !! p = Some (e, j :: rest) → NoDup (j :: rest) →
  pending i cs ≡ₚ (if decide (j = i) then [e] else []) ++ pending i (<[p := (e, rest)]> cs).
Proof.
  intros Hp [Hj _]%NoDup_cons. apply list_elem_of_split_length in Hp as (l1 & l2 & -> & ->).
  rewrite insert_app_r_alt, Nat.sub_diag by lia. simpl. unfold pending. rewrite !omap_app. simpl.
  destruct (decide (j = i)) as [->|Hne].
  - rewrite decide_True by by left. rewrite decide_False by done. simpl. by rewrite Permutation_middle.
  - simpl. destruct (decide (i ∈ rest)).
    + by rewrite decide_True by by right.
    + rewrite decide_False; [done|]. by intros [->|?]%elem_of_cons.
Qed.

(** ** Each step keeps the invariant *)

Lemma inv_subscribe acts b b' n :
  inv acts b → Subscribe n b = Ok b' → inv (acts ++ [ASubscribe n]) b'.
Proof.
  intros Hinv. unfold Subscribe. destruct (subs b) as [m|] eqn:Em; [|done]. intros [= <-].
  pose proof (inv_open _ _ Hinv) as Ho. unfold members in Ho. rewrite Em in Ho. simpl in Ho.
  split; simpl.
  - rewrite (inv_closed _ _ Hinv), Em. naive_solver.
  - intros i. unfold members. simpl. rewrite elem_of_union, elem_of_singleton, Ho. split.
    + intros [->|(s & Hs & Hc)].
      * eexists. split; [by apply list_lookup_middle|done].
      * exists s. split; [by apply lookup_app_l_Some|done].
    + intros (s & Hs & Hc). apply lookup_app_Some in Hs as [Hs|[Hle Hs]]; [eauto|].
      apply lookup_lt_Some in Hs. simpl in Hs. left. lia.
  - eapply Forall_impl; [apply (inv_calls _ _ Hinv)|]. intros c [? H]. split; [done|].
    eapply Forall_impl; [exact H|]. intros i. simpl. rewrite length_app. simpl. lia.
  - intros i. apply (history_quiet acts _ b); try done; [|apply (inv_history _ _ Hinv)].
    simpl. destruct (heap b !! i) as [s|] eqn:Hi; [by erewrite lookup_app_l_Some|].
    apply lookup_ge_None in Hi. rewrite lookup_app_r by done.
    destruct (i - length (heap b)) as [|k] eqn:Ek; [done|done].
Qed.

Lemma inv_publish acts b e targets :
  inv acts b → targets ≡ₚ elements (members b) →
  inv (acts ++ [APublish e targets]) (Publish_snapshot e targets b).
Proof.
  intros Hinv Ht. unfold Publish_snapshot. destruct (closed b) eqn:Ec.
  - assert (targets = []) as ->.
    { apply (inv_closed _ _ Hinv) in Ec. unfold members in Ht. rewrite Ec in Ht. simpl in Ht.
      rewrite elements_empty in Ht. by apply Permutation_nil_r in Ht. }
    destruct Hinv as [H1 H2 H3 H4]. split; try done. intros i.
    apply (history_quiet acts _ b); try done. by destruct (heap b !! i).
  - assert (∀ i, i ∈ targets → i < length (heap b)) as Hlt.
    { intros i Hi. apply (inv_members acts); [done|]. by rewrite Ht, elem_of_elements in Hi. }
    destruct Hinv as [H1 H2 H3 H4]. split; simpl; try done.
    + by rewrite <-Ec.
    + rewrite Forall_app. split; [done|]. constructor; [|done]. simpl. split.
      * rewrite Ht. apply NoDup_elements.
      * rewrite Forall_forall. done.
    + intros i. destruct (H4 i) as [H5 H6]. unfold history_ok. simpl.
      rewrite pending_snapshot. unfold published_to, offered, received in *. rewrite !omap_app. simpl.
      rewrite !app_nil_r. split.
      { rewrite app_assoc, H5. by destruct (decide (i ∈ targets)). }
      destruct (heap b !! i) as [s|] eqn:Hi; [done|]. rewrite decide_False; [by rewrite app_nil_r|].
      intros Hi'. apply Hlt in Hi'. apply lookup_ge_None in Hi. lia.
Qed.
Lemma inv_send acts b b' p e i rest :
  inv acts b → calls b !! p = Some (e, i :: rest) → Publish_send p e i rest b = Ok b' →
  inv (acts ++ [ASend p e i]) b'.
Proof.
  intros [H1 H2 H3 H4] Hp. pose proof H3 as H3'. rewrite Forall_lookup in H3.
  destruct (H3 _ _ Hp) as [Hnd Hlt]. simpl in Hnd, Hlt. apply Forall_cons in Hlt as [Hi Hrest].
  apply lookup_lt_is_Some_2 in Hi as [s Hs]. unfold Publish_send. rewrite Hs, bind_ok.
  intros (s' & Hsend & [= <-]).
  assert (ch_closed s = false ∧ ch_closed s' = false ∧ ch_cap s' = ch_cap s) as (Hc & Hc' & Hcap).
  { unfold send in Hsend. destruct (ch_closed s); [done|].
    destruct (_ <? _); injection Hsend as <-; done. }
  split; simpl; [done| | |].
  - intros j. unfold members. simpl. fold (members b). rewrite H2.
    destruct (decide (j = i)) as [->|Hne].
    + rewrite list_lookup_insert_eq by by eapply lookup_lt_Some. rewrite Hs. naive_solver.
    + by rewrite list_lookup_insert_ne by done.
  - rewrite length_insert. apply Forall_insert; [done|]. simpl. apply NoDup_cons in Hnd. naive_solver.
  - intros j. destruct (H4 j) as [H5 H6]. unfold history_ok. simpl.
    pose proof (pending_send j _ _ _ _ _ Hp Hnd) as Hpend.
    assert (offered j (acts ++ [ASend p e i]) = offered j acts ++ (if decide (i = j) then [e] else []))
      as Hoff. { unfold offered. rewrite omap_app. simpl. by destruct (decide (i = j)). }
    assert (received j (acts ++ [ASend p e i]) = received j acts ∧
            published_to j (acts ++ [ASend p e i]) = published_to j acts) as [-> ->].
    { unfold received, published_to. rewrite !omap_app. simpl. by rewrite !app_nil_r. }
    rewrite Hoff. split.
    { rewrite <-H5, Hpend, <-app_assoc. done. }
    destruct (decide (i = j)) as [<-|Hne].
    2: { rewrite list_lookup_insert_ne by done. by rewrite app_nil_r. }
    rewrite list_lookup_insert_eq by by eapply lookup_lt_Some. rewrite Hs in H6. cbv zeta in H6 |- *.
    destruct H6 as (Hb & Hsub & Hd & Hk). unfold send in Hsend. rewrite Hc in Hsend.
    rewrite !length_app in *. simpl.
    pose proof (sublist_length _ _ Hsub) as Hlen. rewrite length_app in Hlen.
    destruct (Nat.ltb_spec (length (ch_buf s)) (ch_cap s)) as [Hroom|Hfull]; injection Hsend as <-; simpl.
    + rewrite !length_app. simpl. split_and!; [lia| | |].
      * rewrite app_assoc. by apply sublist_app.
      * rewrite Hd. apply (f_equal (λ k, (Z.of_nat k `mod` 2 ^ 64)%Z)). lia.
      * intros Hle. rewrite app_assoc, Hk by lia. done.
    + split_and!; [done| | |].
      * by apply sublist_inserts_r.
      * unfold add. rewrite Hd, Zplus_mod_idemp_l. apply (f_equal (λ k, (k `mod` 2 ^ 64)%Z)). lia.
      * intros Hle. lia.
Qed.

Lemma inv_receive acts b i s e buf :
  inv acts b → heap b !! i = Some s → ch_buf s = e :: buf → inv (acts ++ [AReceive i e]) (receive i b).
Proof.
  intros [H1 H2 H3 H4] Hs Hbuf. split; simpl; [done| |by rewrite length_alter|].
  - intros j. unfold members. simpl. fold (members b). rewrite H2.
    destruct (decide (j = i)) as [->|Hne].
    + rewrite list_lookup_alter_eq, Hs. simpl.
      split; intros (s0 & [= <-] & Hc); [by eexists|by exists s].
    + by rewrite list_lookup_alter_ne by done.
  - intros j. destruct (H4 j) as [H5 H6]. unfold history_ok. simpl.
    unfold published_to, offered, received in *. rewrite !omap_app. simpl. rewrite !app_nil_r.
    split; [done|]. destruct (decide (i = j)) as [<-|Hne].
    + rewrite list_lookup_alter_eq, Hs. rewrite Hs in H6. simpl. cbv zeta in H6. rewrite Hbuf in *.
      rewrite <-app_assoc. simpl in *. destruct H6 as (? & ? & ? & ?). split_and!; try done; rewrite drop_0; lia.
    + rewrite list_lookup_alter_ne by done. by rewrite app_nil_r.
Qed.

Lemma close_all_spec l h :
  NoDup l → (∀ i, i ∈ l → ∃ s, h !! i = Some s ∧ ch_closed s = false) →
  ∃ h', close_all l h = Ok h' ∧ length h' = length h ∧
    ∀ i, h' !! i = (if decide (i ∈ l)
                    then (λ s, mkSubscriber (ch_cap s) (ch_buf s) true (dropped s)) <$> h !! i
                    else h !! i).
Proof.
  revert h. induction l as [|j l IH]; intros h Hnd Ho; [by exists h|].
  apply NoDup_cons in Hnd as [Hj Hnd]. destruct (Ho j) as (s & Hs & Hc); [by left|].
  simpl. unfold close_at at 1. rewrite Hs. unfold close_chan. rewrite Hc. simpl.
  destruct (IH (<[j := mkSubscriber (ch_cap s) (ch_buf s) true (dropped s)]> h)) as (h' & -> & Hl & Hh); [done| |].
  { intros i Hi. rewrite list_lookup_insert_ne by (by intros ->). apply Ho. by right. }
  exists h'. split; [done|]. split; [by rewrite length_insert in Hl|].
  intros i. rewrite Hh. destruct (decide (i = j)) as [->|Hne].
  - rewrite decide_False by done. rewrite decide_True by by left.
    rewrite list_lookup_insert_eq by by eapply lookup_lt_Some. by rewrite Hs.
  - rewrite list_lookup_insert_ne by done.
    destruct (decide (i ∈ l)); [rewrite decide_True by by right|rewrite decide_False]; try done.
    by intros [?|?]%elem_of_cons.
Qed.

(** Closing the channels in [l], one member or all of them, never closes a closed
    one. *)
Lemma inv_close acts a b sub cl h l :
  inv acts b → a = AClose ∨ (∃ i, a = AUnsubscribe i) →
  NoDup l → (∀ i, i ∈ l → i ∈ members b) →
  default ∅ sub = members b ∖ list_to_set l → (cl = true ↔ sub = None) →
  close_all l (heap b) = Ok h →
  inv (acts ++ [a]) (mkBus sub cl h (calls b)).
Proof.
  intros [H1 H2 H3 H4] Ha Hnd Hl Hsub Hcl Hh.
  destruct (close_all_spec l (heap b) Hnd) as (h' & Hh' & Hlen & Hlook).
  { intros i Hi. apply H2. auto. }
  rewrite Hh' in Hh. injection Hh as ->. split; simpl; [done| |by rewrite Hlen|].
  - intros i. unfold members. simpl. rewrite Hsub, elem_of_difference, elem_of_list_to_set, H2, Hlook.
    destruct (decide (i ∈ l)); [|naive_solver]. split; [naive_solver|].
    intros (s & Hs & Hc). apply fmap_Some in Hs as (s0 & _ & ->). done.
  - intros i. assert (published_to i [a] = [] ∧ offered i [a] = [] ∧ received i [a] = []) as (? & ? & ?)
      by (destruct Ha as [->|[? ->]]; done).
    apply (history_quiet acts _ b); try done. simpl. rewrite Hlook.
    destruct (decide (i ∈ l)), (heap b !! i); simpl; done.
Qed.

Lemma inv_idle acts a b :
  inv acts b → a = AClose ∨ (∃ i, a = AUnsubscribe i) → inv (acts ++ [a]) b.
Proof.
  intros [H1 H2 H3 H4] Ha. split; try done. intros j.
  assert (published_to j [a] = [] ∧ offered j [a] = [] ∧ received j [a] = []) as (? & ? & ?)
    by (destruct Ha as [->|[? ->]]; done).
  apply (history_quiet acts _ b); try done. by destruct (heap b !! j).
Qed.

Lemma unsubscribe_close i b :
  i ∈ members b →
  unsubscribe i b = (h ← close_all [i] (heap b);
                     Ok (mkBus ((λ m, m ∖ {[i]}) <$> subs b) (closed b) h (calls b))).
Proof.
  intros Hi. unfold unsubscribe. rewrite decide_True by done. simpl.
  by destruct (close_at i (heap b)).
Qed.

Lemma bus_inv_step acts a b b' : inv acts b → step b a (Ok b') → inv (acts ++ [a]) b'.
Proof.
  intros Hinv Hstep. remember (Ok b') as o eqn:Ho.
  destruct Hstep as [n|e targets Ht|p e i rest Hp|i s e buf Hs Hbuf|i Hi|].
  - by eapply inv_subscribe.
  - injection Ho as <-. by apply inv_publish.
  - by eapply inv_send.
  - injection Ho as <-. by eapply inv_receive.
  - destruct (decide (i ∈ members b)) as [Hm|Hm].
    + rewrite unsubscribe_close, bind_ok in Ho by done. destruct Ho as (h & Hh & [= <-]).
      apply (inv_close _ _ _ _ _ _ [i]); try done; [by eauto|apply NoDup_singleton| | |].
      * by intros j ->%list_elem_of_singleton.
      * unfold members. destruct (subs b); simpl; set_solver.
      * rewrite (inv_closed _ _ Hinv). by destruct (subs b).
    + unfold unsubscribe in Ho. rewrite decide_False in Ho by done. injection Ho as <-.
      by apply inv_idle; eauto.
  - unfold Close in Ho. destruct (closed b) eqn:Ec; [injection Ho as <-; apply inv_idle; eauto|].
    rewrite bind_ok in Ho. destruct Ho as (h & Hh & [= <-]).
    eapply inv_close; [done|by left| | | | |exact Hh]; [apply NoDup_elements| | |done].
    + intros i. by rewrite elem_of_elements.
    + simpl. set_solver.
Qed.

Lemma reach_inv acts b : reach acts b → inv acts b.
Proof. induction 1; [apply inv_New|by eapply bus_inv_step]. Qed.
(** ** What subscribers get *)

(** C29: In every interleaving of publishers, subscribers, receivers and the closer:
    each event a publication's snapshot addressed to a subscriber is offered to
    its channel once, or is still to be; what the subscriber received, followed
    by what its buffer holds, is the offered events in order less the dropped
    ones, whose number (a uint64) the counter shows; the buffer never exceeds
    its size, and nothing is dropped while no more events were offered than it
    holds.  The channels of current members are open, all others closed. *)
Theorem bus_delivery acts b i s :
  reach acts b → heap b !! i = Some s →
  let kept := received i acts ++ ch_buf s in
  offered i acts ++ pending i (calls b) ≡ₚ published_to i acts ∧
  kept `sublist_of` offered i acts ∧
  dropped s = (Z.of_nat (length (offered i acts) - length kept) `mod` 2 ^ 64)%Z ∧
  length (ch_buf s) ≤ ch_cap s ∧
  (length (offered i acts) ≤ ch_cap s → kept = offered i acts) ∧
  (ch_closed s = false ↔ i ∈ members b).
Proof.
  intros Hr Hs. apply reach_inv in Hr as [_ Ho _ Hh]. destruct (Hh i) as [H1 H2].
  rewrite Hs in H2. cbv zeta in H2 |- *. destruct H2 as (? & ? & ? & ?).
  do 5 (split; [done|]). rewrite Ho. split; [by exists s|].
  intros (s' & Hs' & Hc). congruence.
Qed.

(** ** When the bus panics *)

Lemma close_all_ok b acts l :
  inv acts b → NoDup l → (∀ i, i ∈ l → i ∈ members b) → ∃ h, close_all l (heap b) = Ok h.
Proof.
  intros Hinv Hnd Hl. destruct (close_all_spec l (heap b) Hnd) as (h & Hh & _); [|by exists h].
  intros i Hi. apply (inv_open _ _ Hinv). auto.
Qed.

(** A step of a reachable bus panics exactly in two cases: a publication sends to
    a subscriber of its snapshot that has left, or that [Close] closed, since;
    or someone subscribes after [Close].  No channel is closed twice. *)
Theorem panics_exactly acts b a p :
  reach acts b →
  step b a (Err p) ↔
  (p = SendOnClosedChannel ∧ ∃ n e i rest, a = ASend n e i ∧ calls b !! n = Some (e, i :: rest) ∧
     i ∉ members b) ∨
  (p = AssignmentToNilMap ∧ (∃ n, a = ASubscribe n) ∧ closed b = true).
Proof.
  intros Hr. apply reach_inv in Hr as Hinv. split.
  - intros Hstep. remember (Err p) as o eqn:Ho.
    destruct Hstep as [n|e targets Ht|q e i rest Hp|i s e buf Hs Hbuf|i Hi|]; try done.
    + right. unfold Subscribe in Ho. destruct (subs b) eqn:Es; [done|]. injection Ho as <-.
      split; [done|]. split; [by eexists|]. by apply (inv_closed _ _ Hinv).
    + left. unfold Publish_send in Ho. destruct (heap b !! i) as [s|] eqn:Hs; [|done].
      assert (ch_closed s = true ∧ p = SendOnClosedChannel) as [Hc ->].
      { unfold send in Ho. destruct (ch_closed s); [by injection Ho as <-|].
        by destruct (_ <? _). }
      split; [done|]. exists q, e, i, rest. split_and!; [done|done|].
      rewrite (inv_open _ _ Hinv). intros (s' & Hs' & Hc'). congruence.
    + destruct (decide (i ∈ members b)) as [Hm|Hm].
      * rewrite unsubscribe_close in Ho by done.
        destruct (close_all_ok b acts [i]) as [h Hh]; [done|apply NoDup_singleton| |by rewrite Hh in Ho].
        by intros j ->%list_elem_of_singleton.
      * unfold unsubscribe in Ho. by rewrite decide_False in Ho.
    + unfold Close in Ho. destruct (closed b); [done|].
      destruct (close_all_ok b acts (elements (members b))) as [h Hh]; [done|apply NoDup_elements| |].
      * intros j. by rewrite elem_of_elements.
      * by rewrite Hh in Ho.
  - intros [[-> (n & e & i & rest & -> & Hc & Hi)]|[-> [[n ->] Hcl]]].
    + pose proof (inv_calls _ _ Hinv) as Hcs. rewrite Forall_lookup in Hcs.
      apply Hcs in Hc as Hlt. destruct Hlt as [_ Hlt]. simpl in Hlt. apply Forall_cons in Hlt as [Hlt _].
      apply lookup_lt_is_Some_2 in Hlt as [s Hs].
      assert (Publish_send n e i rest b = Err SendOnClosedChannel) as <-; [|by apply step_send].
      unfold Publish_send. rewrite Hs. unfold send. destruct (ch_closed s) eqn:Ec; [done|].
      exfalso. apply Hi, (inv_open _ _ Hinv). by exists s.
    + apply (inv_closed _ _ Hinv) in Hcl.
      assert (Subscribe n b = Err AssignmentToNilMap) as <-; [|constructor].
      unfold Subscribe. by rewrite Hcl.
Qed.

(** Both panics happen: a subscriber leaves between a publication's snapshot and
    its send, and a subscription arrives after [Close]. *)
Theorem bus_panics (e : Event) :
  (∃ b, reach [ASubscribe 0; APublish e [0]; AUnsubscribe 0] b ∧
        step b (ASend 0 e 0) (Err SendOnClosedChannel)) ∧
  (∃ b, reach [AClose] b ∧ step b (ASubscribe 0) (Err AssignmentToNilMap)).
Proof.
  assert (members (mkBus (Some {[0]}) false [mkSubscriber 64 [] false 0] []) = {[0]}) as Hm by done.
  split.
  - exists (mkBus (Some ∅) false [mkSubscriber 64 [] true 0] [(e, [0])]). split.
    + apply (reach_step [ASubscribe 0; APublish e [0]]
        (mkBus (Some {[0]}) false [mkSubscriber 64 [] false 0] [(e, [0])])).
      2: { eassert (Ok _ = unsubscribe 0 _) as ->; [|apply step_unsubscribe; simpl; lia].
           reflexivity. }
      apply (reach_step [ASubscribe 0] (mkBus (Some {[0]}) false [mkSubscriber 64 [] false 0] [])).
      2: { refine (step_publish _ e [0] _). by rewrite Hm, elements_singleton. }
      apply (reach_step [] New); [constructor|].
      eassert (Ok _ = Subscribe 0 New) as ->; [|apply step_subscribe]. reflexivity.
    + by refine (step_send _ 0 e 0 [] _).
  - exists (mkBus None true [] []). split.
    + apply (reach_step [] New); [constructor|].
      eassert (Ok _ = Close New) as ->; [|apply step_close]. reflexivity.
    + exact (step_subscribe (mkBus None true [] []) 0).
Qed.
End bus.

(** ** A concrete bus

    One subscriber with a buffer of one event, and two publications of which the
    second finds it full. *)
Definition demo_event : Event := mkEvent "module_indexed" 7.

Definition demo_bus : Bus :=
  mkBus (Some {[0]}) false [mkSubscriber 1 [demo_event] false 1] [(demo_event, []); (demo_event, [])].

Definition demo_acts : list action :=
  [ASubscribe 1; APublish demo_event [0]; APublish demo_event [0];
   ASend 1 demo_event 0; ASend 0 demo_event 0].

Lemma demo_reach : reach demo_acts demo_bus.
Proof.
  set (s := @mkSubscriber nat 1 [] false 0).
  set (b1 := mkBus (Some {[0]}) false [s] []).
  set (b2 := mkBus (Some {[0]}) false [s] [(demo_event, [0])]).
  set (b3 := mkBus (Some {[0]}) false [s] [(demo_event, [0]); (demo_event, [0])]).
  set (b4 := mkBus (Some {[0]}) false [mkSubscriber 1 [demo_event] false 0]
               [(demo_event, [0]); (demo_event, [])]).
  assert ([0] ≡ₚ elements ({[0]} : gset nat)) as Hm by by rewrite elements_singleton.
  apply (reach_step [ASubscribe 1; APublish demo_event [0]; APublish demo_event [0];
                     ASend 1 demo_event 0] b4); [|by refine (step_send b4 0 demo_event 0 [] _)].
  apply (reach_step [ASubscribe 1; APublish demo_event [0]; APublish demo_event [0]] b3);
    [|by refine (step_send b3 1 demo_event 0 [] _)].
  apply (reach_step [ASubscribe 1; APublish demo_event [0]] b2);
    [|exact (step_publish b2 demo_event [0] Hm)].
  apply (reach_step [ASubscribe 1] b1); [|exact (step_publish b1 demo_event [0] Hm)].
  apply (reach_step [] New); [constructor|]. exact (step_subscribe New 1).
Qed.

Lemma bus_delivery_witness :
  reach demo_acts demo_bus ∧ received 0 demo_acts ++ [demo_event] `sublist_of` offered 0 demo_acts.
Proof.
  split; [exact demo_reach|].
  exact (proj1 (proj2 (bus_delivery demo_acts demo_bus 0 (mkSubscriber 1 [demo_event] false 1)
    demo_reach eq_refl))).
Defined.

Lemma panics_exactly_witness :
  reach demo_acts demo_bus ∧ ∀ n, ¬ step demo_bus (ASubscribe n) (Err AssignmentToNilMap).
Proof.
  split; [exact demo_reach|]. intros n H.
  apply (panics_exactly demo_acts demo_bus (ASubscribe n) AssignmentToNilMap demo_reach) in H
    as [[H _]|[_ [_ H]]]; discriminate H.
Defined.
