(* ===== verification/ResponseCache.v ===== *)
(** * The federation's response cache

    [internal/backend/cache.go]: an LRU cache with strict expiry.  The Go code
    keeps a map from keys to list elements and a doubly linked list of entries;
    here an element is named by its key, [rc_order] is the list front to back and
    [rc_entries] holds what the elements point to.  [Cache] is what the cascade
    needs of it. *)

From S2P Require Import Prelude Strings.

(** ** The contract

    [holds c k b t]: [c] may answer [k] with [b] until the instant [t]. *)
Class Cache (C : Type) := {
  cache_get : Z → string → C → option bytes * C;
  cache_put : Z → string → bytes → Z → C → C;
  holds : C → string → bytes → Z → Prop;
  cache_get_justified now k c b c' :
    cache_get now k c = (Some b, c') → ∃ t, holds c k b t ∧ (now ≤ t)%Z;
  cache_get_keeps now k c k' b t : holds (cache_get now k c).2 k' b t → holds c k' b t;
  cache_put_keeps now k b ttl c k' b' t :
    holds (cache_put now k b ttl c) k' b' t →
    (k' = k ∧ b' = b ∧ t = (now + ttl)%Z) ∨ (holds c k' b' t);
}.

(** ** The implementation *)

Record cacheEntry := mkCacheEntry {
  ce_key : string;
  ce_body : bytes;
  ce_expires : Z;
}.

Record responseCache := mkResponseCache {
  rc_capacity : Z;
  rc_entries : gmap string cacheEntry;
  rc_order : list string;
  rc_hits : Z;
  rc_misses : Z;
}.

Definition newResponseCache (capacity : Z) : responseCache := mkResponseCache capacity ∅ [] 0 0.

Definition Enabled (c : responseCache) : bool := (0 <? rc_capacity c)%Z.

(** [order.Remove], [order.MoveToFront]. *)
Definition remove_key (k : string) (l : list string) : list string := filter (λ k', k' ≠ k) l.
Definition move_to_front (k : string) (l : list string) : list string := k :: remove_key k l.

(** [now.After(ent.expires)] is [expires < now]. *)
Definition Get (now : Z) (key : string) (c : responseCache) : option bytes * responseCache :=
  if (rc_capacity c <=? 0)%Z then (None, c)
  else
    match rc_entries c !! key with
    | None =>
        (None, mkResponseCache (rc_capacity c) (rc_entries c) (rc_order c) (rc_hits c)
                 (wrap64 (rc_misses c + 1)))
    | Some ent =>
        if (ce_expires ent <? now)%Z then
          (None, mkResponseCache (rc_capacity c) (delete key (rc_entries c))
                   (remove_key key (rc_order c)) (rc_hits c) (wrap64 (rc_misses c + 1)))
        else
          (Some (ce_body ent), mkResponseCache (rc_capacity c) (rc_entries c)
                   (move_to_front key (rc_order c)) (wrap64 (rc_hits c + 1)) (rc_misses c))
    end.

(** [for c.order.Len() >= c.capacity { ... }]: drop from the back. *)
Fixpoint evict_loop (fuel : nat) (capacity : Z) (entries : gmap string cacheEntry) (order : list string)
    : gmap string cacheEntry * list string :=
  match fuel with
  | O => (entries, order)
  | S f =>
      if (capacity <=? Z.of_nat (length order))%Z then
        match last order with
        | None => (entries, order)
        | Some k => evict_loop f capacity (delete k entries) (take (length order - 1) order)
        end
      else (entries, order)
  end.

Definition Put (now : Z) (key : string) (body : bytes) (ttl : Z) (c : responseCache) : responseCache :=
  if (rc_capacity c <=? 0)%Z || (ttl <=? 0)%Z then c
  else
    let ent := mkCacheEntry key body (now + ttl) in
    match rc_entries c !! key with
    | Some _ =>
        mkResponseCache (rc_capacity c) (<[key := ent]> (rc_entries c))
          (move_to_front key (rc_order c)) (rc_hits c) (rc_misses c)
    | None =>
        let (entries, order) :=
          evict_loop (length (rc_order c)) (rc_capacity c) (rc_entries c) (rc_order c) in
        mkResponseCache (rc_capacity c) (<[key := ent]> entries) (key :: order)
          (rc_hits c) (rc_misses c)
    end.

Definition Len (c : responseCache) : nat := length (rc_order c).

Record CacheStats := mkCacheStats { st_Entries : nat; st_Hits : Z; st_Misses : Z }.
Definition Stats (c : responseCache) : CacheStats :=
  mkCacheStats (length (rc_order c)) (rc_hits c) (rc_misses c).

(** ** Abstract specification

    A cache is the list of its entries, most recently used first, cut at its
    capacity. *)
Abbreviation lru := (list cacheEntry).

Definition lru_find (k : string) (l : lru) : option cacheEntry :=
  head (filter (λ e, ce_key e = k) l).
Definition lru_remove (k : string) (l : lru) : lru := filter (λ e, ce_key e ≠ k) l.

Definition lru_get (now : Z) (k : string) (l : lru) : option bytes * lru :=
  match lru_find k l with
  | None => (None, l)
  | Some e => if (ce_expires e <? now)%Z then (None, lru_remove k l)
              else (Some (ce_body e), e :: lru_remove k l)
  end.

Definition lru_put (capacity : nat) (now : Z) (k : string) (b : bytes) (ttl : Z) (l : lru) : lru :=
  if (ttl <=? 0)%Z then l else take capacity (mkCacheEntry k b (now + ttl) :: lru_remove k l).

(** ** Operations as data *)

Inductive cache_op : Type :=
| CGet (now : Z) (key : string)
| CPut (now : Z) (key : string) (body : bytes) (ttl : Z).

Definition cache_exec (o : cache_op) (c : responseCache) : option bytes * responseCache :=
  match o with
  | CGet now k => Get now k c
  | CPut now k b ttl => (None, Put now k b ttl c)
  end.

Definition lru_exec (capacity : nat) (o : cache_op) (l : lru) : option bytes * lru :=
  match o with
  | CGet now k => lru_get now k l
  | CPut now k b ttl => (None, lru_put capacity now k b ttl l)
  end.

Fixpoint answers {S} (exec : cache_op → S → option bytes * S) (ops : list cache_op) (s : S)
    : list (option bytes) * S :=
  match ops with
  | [] => ([], s)
  | o :: ops' =>
      let (a, s') := exec o s in
      let (rest, s'') := answers exec ops' s' in (a :: rest, s'')
  end.

(** ** Refinement *)

Lemma lru_find_Some k l e : lru_find k l = Some e → e ∈ l ∧ ce_key e = k.
Proof.
  unfold lru_find. intros H. apply head_Some_elem_of, list_elem_of_filter in H. naive_solver.
Qed.

Lemma lru_find_app k l x :
  lru_find k (l ++ [x]) =
    match lru_find k l with Some e => Some e | None => if decide (ce_key x = k) then Some x else None end.
Proof.
  unfold lru_find. rewrite filter_app, filter_cons, filter_nil.
  destruct (filter _ l); [|done]. simpl. by destruct (decide (ce_key x = k)).
Qed.

Lemma lru_find_None k l : lru_find k l = None ↔ k ∉ ce_key <$> l.
Proof.
  unfold lru_find. rewrite list_elem_of_fmap. destruct (filter _ l) as [|e f] eqn:E; simpl.
  - split; [|done]. intros _ (e & -> & He).
    assert (e ∈ filter (λ e', ce_key e' = ce_key e) l) as H by by apply list_elem_of_filter.
    rewrite E in H. by apply elem_of_nil in H.
  - split; [done|]. intros []. assert (e ∈ e :: f) as H by by left.
    rewrite <-E in H. apply list_elem_of_filter in H. naive_solver.
Qed.

Lemma keys_lru_remove k l : ce_key <$> lru_remove k l = remove_key k (ce_key <$> l).
Proof.
  unfold lru_remove, remove_key. induction l as [|e l IH]; [done|]. csimpl.
  rewrite !filter_cons. destruct (decide (ce_key e ≠ k)); csimpl; by rewrite IH.
Qed.

Lemma lru_remove_notin k l : k ∉ ce_key <$> l → lru_remove k l = l.
Proof.
  unfold lru_remove. induction l as [|e l IH]; [done|]. csimpl. rewrite not_elem_of_cons.
  intros [Hne Hn]. rewrite filter_cons, decide_True by done. by rewrite IH.
Qed.

Lemma lru_remove_shorter k l : k ∈ ce_key <$> l → length (lru_remove k l) < length l.
Proof.
  unfold lru_remove. rewrite list_elem_of_fmap. intros (e & -> & He).
  apply length_filter_lt with e; [done|]. auto.
Qed.

Lemma lru_find_cons k e l :
  lru_find k (e :: l) = if decide (ce_key e = k) then Some e else lru_find k l.
Proof. unfold lru_find. rewrite filter_cons. by destruct (decide (ce_key e = k)). Qed.

Lemma lru_find_remove k k' l :
  lru_find k' (lru_remove k l) = if decide (k' = k) then None else lru_find k' l.
Proof.
  unfold lru_remove. induction l as [|e l IH]; [by destruct (decide (k' = k))|].
  rewrite filter_cons, lru_find_cons. destruct (decide (ce_key e ≠ k)) as [Hk|Hk].
  - rewrite lru_find_cons, IH. destruct (decide (ce_key e = k')) as [<-|]; [|done].
    by rewrite decide_False.
  - rewrite IH. destruct (decide (k' = k)) as [->|]; [done|].
    rewrite decide_False; [done|]. intros <-. by apply Hk.
Qed.

(** The map and the list hold the entries of [l]. *)
Definition stored (entries : gmap string cacheEntry) (order : list string) (l : lru) : Prop :=
  order = ce_key <$> l ∧ NoDup order ∧ ∀ k, entries !! k = lru_find k l.

Lemma evict_loop_stored fuel cap entries order l :
  (0 < cap)%nat → length order ≤ fuel → stored entries order l →
  let (entries', order') := evict_loop fuel (Z.of_nat cap) entries order in
  stored entries' order' (take (cap - 1) l).
Proof.
  intros Hcap. revert entries order l. induction fuel as [|f IH]; intros entries order l Hf (-> & Hnd & He).
  - rewrite length_fmap in Hf. destruct l; [|simpl in Hf; lia]. rewrite take_nil. done.
  - cbn [evict_loop]. rewrite length_fmap in *. destruct (Z.leb_spec (Z.of_nat cap) (Z.of_nat (length l))).
    2: { rewrite take_ge by lia. done. }
    destruct l as [|x l _] using rev_ind; [simpl in *; lia|].
    rewrite length_app in *. rewrite fmap_app in *. simpl in *. rewrite last_snoc.
    replace (length l + 1 - 1)%nat with (length (ce_key <$> l)) by (rewrite length_fmap; lia).
    rewrite take_app_length. rewrite take_app_le by lia. rewrite NoDup_app in Hnd.
    apply IH; [rewrite length_fmap; lia|]. split; [done|]. split; [by destruct Hnd|].
    intros k. destruct (decide (k = ce_key x)) as [->|Hne].
    + rewrite lookup_delete_eq. symmetry. apply lru_find_None. intros Hi.
      destruct Hnd as (_ & Hnd & _). apply (Hnd (ce_key x)); [done|]. simpl. by left.
    + rewrite lookup_delete_ne by done. rewrite He, lru_find_app.
      rewrite decide_False by done. by destruct (lru_find k l).
Qed.

(** [c] implements [l]. *)
Definition refines (cap : nat) (c : responseCache) (l : lru) : Prop :=
  rc_capacity c = Z.of_nat cap ∧ 0 < cap ∧ length l ≤ cap ∧ stored (rc_entries c) (rc_order c) l.

Lemma NoDup_remove_key k l : NoDup l → NoDup (remove_key k l).
Proof. apply NoDup_filter. Qed.

Lemma stored_remove k entries order l :
  stored entries order l → stored (delete k entries) (remove_key k order) (lru_remove k l).
Proof.
  intros (-> & Hnd & He). split; [by rewrite keys_lru_remove|]. split; [by apply NoDup_remove_key|].
  intros k'. rewrite lru_find_remove. case_decide as Hk; [by rewrite Hk, lookup_delete_eq|].
  by rewrite lookup_delete_ne by done.
Qed.

Lemma stored_front e entries order l :
  stored entries order l →
  stored (<[ce_key e := e]> entries) (move_to_front (ce_key e) order) (e :: lru_remove (ce_key e) l).
Proof.
  intros (-> & Hnd & He). split; [csimpl; by rewrite keys_lru_remove|]. split.
  - constructor; [|by apply NoDup_remove_key]. unfold remove_key. rewrite list_elem_of_filter. naive_solver.
  - intros k. rewrite lru_find_cons, lru_find_remove. case_decide as Hk.
    + rewrite <-Hk. apply lookup_insert_eq.
    + rewrite lookup_insert_ne, decide_False by congruence. done.
Qed.

Lemma Get_refines cap now k c l :
  refines cap c l → (Get now k c).1 = (lru_get now k l).1 ∧ refines cap (Get now k c).2 (lru_get now k l).2.
Proof.
  intros (Hc & Hp & Hl & Hs). unfold Get, lru_get. rewrite Hc.
  destruct (Z.leb_spec (Z.of_nat cap) 0); [lia|].
  destruct (proj2 Hs) as [_ He]. rewrite He. destruct (lru_find k l) as [e|] eqn:Hk; [|done].
  apply lru_find_Some in Hk as Hk'. destruct Hk' as [Hin <-].
  assert (ce_key e ∈ ce_key <$> l) as Hkey by by apply list_elem_of_fmap_2.
  pose proof (lru_remove_shorter _ _ Hkey).
  destruct (ce_expires e <? now)%Z; (split; [done|]); unfold refines; simpl.
  - split_and!; [done|done|lia|by apply stored_remove].
  - split_and!; [done|done|lia|]. rewrite <-(insert_id (rc_entries c) (ce_key e) e) by by rewrite He.
    by apply stored_front.
Qed.

Lemma Put_refines cap now k b ttl c l :
  refines cap c l → refines cap (Put now k b ttl c) (lru_put cap now k b ttl l).
Proof.
  intros (Hc & Hp & Hl & Hs). unfold Put, lru_put. rewrite Hc.
  destruct (Z.leb_spec (Z.of_nat cap) 0); [lia|]. simpl.
  destruct (ttl <=? 0)%Z; [done|]. set (e := mkCacheEntry k b (now + ttl)).
  assert (rc_entries c !! k = lru_find k l) as -> by apply Hs.
  assert (k ∈ ce_key <$> l ↔ lru_find k l ≠ None) as Hk by (rewrite lru_find_None; destruct (decide (k ∈ ce_key <$> l)); tauto).
  destruct (lru_find k l) as [e0|] eqn:Ek; unfold refines.
  - pose proof (lru_remove_shorter k l (proj2 Hk ltac:(done))).
    rewrite take_ge by (simpl; lia). simpl. split_and!; [done|done|lia|]. by apply (stored_front e).
  - apply lru_find_None in Ek. rewrite lru_remove_notin by done.
    destruct cap as [|cap]; [lia|]. simpl take.
    pose proof (evict_loop_stored (length (rc_order c)) (S cap) _ _ _ Hp ltac:(done) Hs) as He.
    destruct (evict_loop _ _ _ _) as [entries' order']. replace (S cap - 1) with cap in He by lia. simpl.
    assert (k ∉ ce_key <$> take cap l) as Hn.
    { rewrite fmap_take. intros H'. by apply Ek, (subseteq_take cap). }
    split_and!; [done|done|rewrite length_take; lia|].
    pose proof (proj1 He) as Ho. apply (stored_front e) in He. unfold move_to_front in He. simpl in He.
    rewrite lru_remove_notin in He by done. destruct He as (E1 & E2 & E3).
    injection E1 as E1. change (remove_key k order' = ce_key <$> take cap l) in E1.
    rewrite E1, <-Ho in E2. split; [by rewrite Ho|]. split; [done|done].
Qed.

Lemma exec_refines cap o c l :
  refines cap c l →
  (cache_exec o c).1 = (lru_exec cap o l).1 ∧ refines cap (cache_exec o c).2 (lru_exec cap o l).2.
Proof.
  intros H. destruct o; simpl; [by apply Get_refines|]. split; [done|by apply Put_refines].
Qed.

Lemma refines_new cap : 0 < cap → refines cap (newResponseCache (Z.of_nat cap)) [].
Proof.
  intros H. split_and!; [done|done|simpl; lia|]. split; [done|]. split; [constructor|].
  intros k. apply lookup_empty.
Qed.

Lemma answers_refines cap ops c l :
  refines cap c l →
  (answers cache_exec ops c).1 = (answers (lru_exec cap) ops l).1 ∧
  refines cap (answers cache_exec ops c).2 (answers (lru_exec cap) ops l).2.
Proof.
  revert c l. induction ops as [|o ops IH]; intros c l H; [done|]. simpl.
  destruct (exec_refines cap o c l H) as [H1 H2].
  destruct (cache_exec o c) as [a c'], (lru_exec cap o l) as [a' l']. simpl in H1, H2. subst a'.
  destruct (IH _ _ H2) as [H3 H4].
  destruct (answers cache_exec ops c'), (answers (lru_exec cap) ops l'). simpl in *. by subst.
Qed.

(** The map and the linked list implement an LRU list: over every sequence of
    operations, with whatever clock, the cache answers as the list of its
    entries does that is kept most recently used first and cut at the capacity,
    an expired entry being removed by the lookup that finds it; the number of
    entries is the list's, never above the capacity. *)
Theorem lru_refines cap ops :
  0 < cap →
  let impl := answers cache_exec ops (newResponseCache (Z.of_nat cap)) in
  let spec := answers (lru_exec cap) ops [] in
  impl.1 = spec.1 ∧ Len impl.2 = length spec.2 ∧ Len impl.2 ≤ cap.
Proof.
  intros Hcap. cbv zeta. destruct (answers_refines cap ops _ _ (refines_new cap Hcap)) as [H1 H2].
  destruct H2 as (_ & _ & Hl & (Ho & _ & _)). unfold Len. rewrite Ho, length_fmap. done.
Qed.

(** ** Hits are justified *)

(** The last effective store of [k] among [ops] was [b], until [t]. *)
Definition last_put (ops : list cache_op) (k : string) (b : bytes) (t : Z) : Prop :=
  ∃ pre now ttl post, ops = pre ++ CPut now k b ttl :: post ∧ (0 < ttl)%Z ∧ t = (now + ttl)%Z ∧
    ∀ now' b' ttl', CPut now' k b' ttl' ∈ post → (ttl' ≤ 0)%Z.

Lemma last_put_snoc ops o k b t :
  (∀ now b' ttl, o = CPut now k b' ttl → (ttl ≤ 0)%Z) → last_put ops k b t → last_put (ops ++ [o]) k b t.
Proof.
  intros Ho (pre & now & ttl & post & -> & Ht & -> & Hp). exists pre, now, ttl, (post ++ [o]).
  split_and!; [by rewrite <-app_assoc|done|done|].
  intros now' b' ttl' [Hi|Hi]%elem_of_app; [eauto|].
  apply list_elem_of_singleton in Hi. by eapply Ho.
Qed.

Lemma elem_of_lru_remove e k l : e ∈ lru_remove k l ↔ e ∈ l ∧ ce_key e ≠ k.
Proof. unfold lru_remove. rewrite list_elem_of_filter. tauto. Qed.

Lemma lru_exec_last_put cap ops o l :
  (∀ e, e ∈ l → last_put ops (ce_key e) (ce_body e) (ce_expires e)) →
  ∀ e, e ∈ (lru_exec cap o l).2 → last_put (ops ++ [o]) (ce_key e) (ce_body e) (ce_expires e).
Proof.
  intros Hl e. destruct o as [now k|now k b ttl]; simpl.
  - intros He. apply last_put_snoc; [done|]. apply Hl. unfold lru_get in He.
    destruct (lru_find k l) as [e0|] eqn:E; [|done]. apply lru_find_Some in E as [E _].
    destruct (_ <? _)%Z; simpl in He.
    + by apply elem_of_lru_remove in He as [? _].
    + apply elem_of_cons in He as [->|He]; [done|]. by apply elem_of_lru_remove in He as [? _].
  - unfold lru_put. destruct (Z.leb_spec ttl 0).
    + intros He. apply last_put_snoc; [|auto]. intros ? ? ? E. injection E. lia.
    + intros He%subseteq_take. apply elem_of_cons in He as [->|He].
      * exists ops, now, ttl, []. split_and!; try done. by intros ??? ?%elem_of_nil.
      * apply elem_of_lru_remove in He as [He Hne]. apply last_put_snoc; [|by apply Hl].
        intros ? ? ? E. injection E. congruence.
Qed.

Lemma lru_run_last_put cap ops e :
  e ∈ (answers (lru_exec cap) ops []).2 → last_put ops (ce_key e) (ce_body e) (ce_expires e).
Proof.
  assert (∀ ops0 l, (∀ e, e ∈ l → last_put ops0 (ce_key e) (ce_body e) (ce_expires e)) →
    ∀ e, e ∈ (answers (lru_exec cap) ops l).2 →
      last_put (ops0 ++ ops) (ce_key e) (ce_body e) (ce_expires e)) as H.
  { induction ops as [|o ops IH]; intros ops0 l Hl e' He; simpl in *; [rewrite app_nil_r; auto|].
    pose proof (lru_exec_last_put cap ops0 o l Hl) as Hl'.
    destruct (lru_exec cap o l) as [a l']. simpl in Hl'. specialize (IH _ _ Hl').
    specialize (IH e'). rewrite <-app_assoc in IH. apply IH.
    by destruct (answers (lru_exec cap) ops l'). }
  apply (H [] []). by intros ? ?%elem_of_nil.
Qed.

Lemma answers_capacity ops c : rc_capacity (answers cache_exec ops c).2 = rc_capacity c.
Proof.
  revert c. induction ops as [|o ops IH]; intros c; [done|]. simpl.
  assert (rc_capacity (cache_exec o c).2 = rc_capacity c) as H.
  { destruct o as [now k|now k b ttl]; simpl; unfold Get, Put.
    - destruct (_ <=? _)%Z; [done|]. destruct (rc_entries c !! k); [|done]. by destruct (_ <? _)%Z.
    - destruct (_ || _); [done|]. destruct (rc_entries c !! k); [done|].
      by destruct (evict_loop _ _ _ _). }
  destruct (cache_exec o c) as [a c']. specialize (IH c').
  destruct (answers cache_exec ops c'). simpl in *. congruence.
Qed.

(** A cached answer was stored: when a lookup at [now] answers [b] after any
    operations, the last effective store of the key was [b] and its time to live
    has not run out; a lookup never extends it. *)
Theorem cache_hit_fresh capacity ops now k b :
  (Get now k (answers cache_exec ops (newResponseCache capacity)).2).1 = Some b →
  ∃ t, last_put ops k b t ∧ (now ≤ t)%Z.
Proof.
  destruct (Z.leb_spec capacity 0) as [Hc|Hc].
  - unfold Get. rewrite answers_capacity. simpl.
    destruct (Z.leb_spec capacity 0); [done|lia].
  - rewrite <-(Z2Nat.id capacity) by lia. set (cap := Z.to_nat capacity).
    destruct (answers_refines cap ops _ _ (refines_new cap ltac:(lia))) as [_ H2].
    destruct (Get_refines cap now k _ _ H2) as [-> _]. unfold lru_get.
    destruct (lru_find k _) as [e|] eqn:E; [|done]. apply lru_find_Some in E as [E <-].
    destruct (Z.ltb_spec (ce_expires e) now); [done|]. intros [= <-].
    exists (ce_expires e). split; [by apply (lru_run_last_put cap)|done].
Qed.

(** ** The contract is met *)

Definition rc_holds (c : responseCache) (k : string) (b : bytes) (t : Z) : Prop :=
  ∃ e, rc_entries c !! k = Some e ∧ ce_body e = b ∧ ce_expires e = t.

Lemma evict_loop_sub fuel cap entries order k e :
  (evict_loop fuel cap entries order).1 !! k = Some e → entries !! k = Some e.
Proof.
  revert entries order. induction fuel as [|f IH]; intros entries order; [done|]. simpl.
  destruct (_ <=? _)%Z; [|done]. destruct (last order); [|done].
  intros H%IH. by apply lookup_delete_Some in H as [_ ?].
Qed.

#[export] Program Instance responseCache_Cache : Cache responseCache := {
  cache_get := Get;
  cache_put := Put;
  holds := rc_holds;
}.
Next Obligation.
  intros now k c b c'. unfold Get. destruct (_ <=? _)%Z; [done|].
  destruct (rc_entries c !! k) as [e|] eqn:He; [|done].
  destruct (Z.ltb_spec (ce_expires e) now); [done|]. intros [= <- _].
  exists (ce_expires e). split; [by exists e|done].
Qed.
Next Obligation.
  intros now k c k' b t. unfold Get. destruct (_ <=? _)%Z; [done|].
  destruct (rc_entries c !! k) as [e|]; [|done]. destruct (_ <? _)%Z; [|done].
  intros (e' & He & H). exists e'. simpl in He. by apply lookup_delete_Some in He as [_ ?].
Qed.
Next Obligation.
  intros now k b ttl c k' b' t. unfold Put. destruct (_ || _); [by right|].
  intros (e & He & <- & <-).
  assert (rc_entries c !! k' = Some e ∨ (k' = k ∧ e = mkCacheEntry k b (now + ttl))) as [H|[-> ->]];
    [|right; by exists e|by left].
  destruct (rc_entries c !! k) as [e0|].
  - simpl in He. apply lookup_insert_Some in He as [[<- <-]|[_ He]]; [by right|by left].
  - pose proof (evict_loop_sub (length (rc_order c)) (rc_capacity c) (rc_entries c) (rc_order c) k' e) as Hs.
    destruct (evict_loop _ _ _ _). simpl in *.
    apply lookup_insert_Some in He as [[<- <-]|[_ He]]; [by right|left; by apply Hs].
Qed.

Lemma lru_refines_witness :
  0 < 1 ∧
  (answers cache_exec [CPut 0 "a" [] 60; CGet 10 "a"; CPut 20 "b" [] 60; CGet 30 "a"; CGet 90 "b"]
     (newResponseCache 1)).1 = [None; Some []; None; None; None].
Proof.
  split; [lia|].
  destruct (lru_refines 1 [CPut 0 "a" [] 60; CGet 10 "a"; CPut 20 "b" [] 60; CGet 30 "a"; CGet 90 "b"]
    ltac:(lia)) as [H _].
  change (Z.of_nat 1) with 1%Z in H. rewrite H. vm_compute. reflexivity.
Defined.

Lemma cache_hit_fresh_witness :
  (Get 40 "a" (answers cache_exec [CPut 0 "a" [] 60] (newResponseCache 2)).2).1 = Some [] ∧
  ∃ t, last_put [CPut 0 "a" [] 60] "a" [] t ∧ (40 ≤ t)%Z.
Proof.
  split; [vm_compute; reflexivity|].
  apply (cache_hit_fresh 2 [CPut 0 "a" [] 60] 40 "a" []). vm_compute. reflexivity.
Defined.
