(* ===== verification/Cascade.v ===== *)
(** * The federation cascade

    [internal/backend/cascade.go], [probe.go] and [probe_boot.go]: the primary
    backend first, then every HTTP upstream in parallel, the first 200 wins.  A
    probe is two atomic pieces, the cache lookup and what follows the HTTP
    exchange; a schedule interleaves the probes' pieces, and the order in which
    they end is the order of the results channel.  The HTTP exchange is a
    parameter, cancellation included; the cache is any [Cache].  URLs are
    given in the form [NewCascade] left them. *)

From stdpp Require Import pretty.
From S2P Require Import Prelude Strings Archive ResponseCache.

(** ** path *)

(** [path.Clean]: a [..] that nothing precedes stays in a relative path. *)
Definition rel_step (stack : list string) (x : string) : list string :=
  if decide (x = "..") then
    match last stack with
    | None => stack ++ [x]
    | Some y => if decide (y = "..") then stack ++ [x] else take (length stack - 1) stack
    end
  else stack ++ [x].

Definition path_clean (s : string) : string :=
  if HasPrefix s "/" then clean_rooted s
  else match foldl rel_step [] (segs s) with [] => "." | l => Join l "/" end.

(** [path.Join]: empty elements are skipped. *)
Definition path_join (l : list string) : string :=
  match filter (λ x, x ≠ "") l with [] => "" | l' => path_clean (Join l' "/") end.

(** [strings.ContainsAny]. *)
Definition ContainsAny (s chars : string) : bool :=
  existsb (λ c, bool_decide (c ∈ to_bytes chars)) (to_bytes s).

(** ** Data *)

Inductive BackendError : Type :=
| ErrNotFound
| ErrUpstreamUnavailable (errors : nat)
| ErrOther (msg : string).

Record Upstream := mkUpstream {
  up_URL : string;
  up_authHeader : string;
}.

Definition CollisionKindLocal : string := "local".
Definition CollisionKindUpstream : string := "http-upstream".
Definition CollisionKindShadowed : string := "collision-shadowed".

Definition collisionCoalesceWindow : Z := 300000000000.
Definition MaxCascadeBodyBytes : Z := 16 * 1024 * 1024.

(** [cacheTTLFor] *)
Definition cacheTTLFor (relPath : string) : Z :=
  if HasSuffix relPath "/metadata.json" then 30000000000%Z else 60000000000%Z.

(** The module and version of a path [modules/<m>/<v>/...]. *)
Definition extractModuleVersion (relPath : string) : option (string * string) :=
  if negb (HasPrefix relPath "modules/") then None
  else
    match cut_at slash (drop 8 (to_bytes relPath)) with
    | None => None
    | Some (m, rest) =>
        if decide (m = []) then None
        else
          match cut_at slash rest with
          | None => None
          | Some (v, _) => if decide (v = []) then None else Some (of_bytes m, of_bytes v)
          end
    end.

(** ** The collision log *)

Record collision := mkCollision {
  col_module : string;
  col_version : string;
  col_source : string;
  col_kind : string;
}.
#[export] Instance collision_eq_dec : EqDecision collision.
Proof. solve_decision. Defined.

(** The coalescing map, and the calls made to the hook with their times. *)
Record collisionLog := mkCollisionLog {
  cl_coalesce : gmap string Z;
  cl_hooked : list (Z * collision);
}.

Definition collision_key (x : collision) : string :=
  col_module x +:+ "@" +:+ col_version x +:+ ":" +:+ col_source x +:+ ":" +:+ col_kind x.

Definition logCollision (hook : bool) (now : Z) (x : collision) (l : collisionLog) : collisionLog :=
  if negb hook then l
  else
    let record := mkCollisionLog (<[collision_key x := now]> (cl_coalesce l))
                    (cl_hooked l ++ [(now, x)]) in
    match cl_coalesce l !! collision_key x with
    | Some last => if (now - last <? collisionCoalesceWindow)%Z then l else record
    | None => record
    end.

(** ** One probe *)

Inductive httpOutcome : Type :=
| HttpErr (msg : string)
| HttpResp (status : Z) (body : bytes) (read_err : option string).

(** [ur_body] is empty where the Go body is nil. *)
Record upstreamResult := mkUpstreamResult {
  ur_upstream : nat;
  ur_body : bytes;
  ur_status : Z;
  ur_err : option string;
}.

Definition is_200 (r : upstreamResult) : bool :=
  bool_decide (ur_err r = None) && (ur_status r =? 200)%Z.
Definition is_404 (r : upstreamResult) : bool :=
  bool_decide (ur_err r = None) && (ur_status r =? 404)%Z.

(** The switch on the response: the result sent, and the body to cache. *)
Definition respond (i : nat) (up : Upstream) (h : httpOutcome) : upstreamResult * option bytes :=
  match h with
  | HttpErr e => (mkUpstreamResult i [] 0 (Some e), None)
  | HttpResp status data read_err =>
      if (status =? 200)%Z then
        match copy_limited (MaxCascadeBodyBytes + 1) data read_err with
        | (_, Some e) => (mkUpstreamResult i [] 0 (Some e), None)
        | (body, None) =>
            if (MaxCascadeBodyBytes <? Z.of_nat (length body))%Z then
              (mkUpstreamResult i [] 0 (Some ("cascade: upstream body exceeded cap from " +:+ up_URL up)),
               None)
            else (mkUpstreamResult i body 200 None, Some body)
        end
      else if (status =? 404)%Z then (mkUpstreamResult i [] status None, None)
      else (mkUpstreamResult i [] status
              (Some ("upstream " +:+ up_URL up +:+ ": HTTP " +:+ pretty status)), None)
  end.

(** A body is cached exactly when the response is a complete 200 within the cap. *)
Lemma respond_fill i up h b :
  (respond i up h).2 = Some b ↔
  h = HttpResp 200 b None ∧ (Z.of_nat (length b) ≤ MaxCascadeBodyBytes)%Z.
Proof.
  unfold respond. destruct h as [e|st data re]; [by split; [|intros [? _]]|].
  destruct (Z.eqb_spec st 200) as [->|Hst].
  - unfold copy_limited. destruct (Z.leb_spec (MaxCascadeBodyBytes + 1) (Z.of_nat (length data))) as [Hl|Hl].
    + rewrite length_take, Nat.min_l by lia. rewrite Z2Nat.id by done.
      destruct (Z.ltb_spec MaxCascadeBodyBytes (MaxCascadeBodyBytes + 1)); [|lia].
      split; [done|]. intros [[= -> _] ?]. lia.
    + destruct re as [e|]; [split; [done|by intros [[= ] _]]|].
      destruct (Z.ltb_spec MaxCascadeBodyBytes (Z.of_nat (length data))); [lia|]. simpl. split.
      * intros [= ->]. split; [done|lia].
      * by intros [[= ->] _].
  - assert ((if (st =? 404)%Z then (mkUpstreamResult i [] st None, None)
             else (mkUpstreamResult i [] st (Some ("upstream " +:+ up_URL up +:+ ": HTTP " +:+ pretty st)),
                   None : option bytes)).2 = None) as -> by by destruct (st =? 404)%Z.
    split; [done|]. by intros [[= ? _ _] _].
Qed.

(** What the result says of the response. *)
Lemma respond_class i up h :
  let r := (respond i up h).1 in
  if is_200 r then (respond i up h).2 = Some (ur_body r)
  else (respond i up h).2 = None ∧ is_404 r = match h with HttpResp st _ _ => (st =? 404)%Z | _ => false end.
Proof.
  unfold respond, is_200, is_404. destruct h as [e|st data re]; [done|].
  destruct (Z.eqb_spec st 200) as [->|Hst].
  - destruct (copy_limited _ _ _) as [b [e|]]; [done|]. by destruct (_ <? _)%Z.
  - destruct (Z.eqb_spec st 404) as [->|H404]; [done|]. done.
Qed.

Section cascade.
Context `{Cache C}.
Context (upstreams : list Upstream) (disableShadowDetection promote_hook logger : bool).
Context (http_do : nat → string → string → httpOutcome).

Definition cacheKey (up : Upstream) (relPath : string) : string := up_URL up +:+ ":" +:+ relPath.

Definition exchange (i : nat) (up : Upstream) (relPath : string) : httpOutcome :=
  http_do i (up_URL up +:+ "/" +:+ TrimLeft relPath "/") (up_authHeader up).

(** The cache, the probes waiting for their response, the results channel and the
    calls of the promotion hook. *)
Record probing := mkProbing {
  p_cache : C;
  p_pending : list nat;
  p_results : list upstreamResult;
  p_promoted : list (string * string);
}.

Inductive probe_ev : Type :=
| EvLook (i : nat) (now : Z)
| EvFinish (i : nat) (now : Z).

(** [probeOne], piece by piece. *)
Definition exec_ev (relPath : string) (s : probing) (e : probe_ev) : probing :=
  match e with
  | EvLook i now =>
      match upstreams !! i with
      | None => s
      | Some up =>
          match cache_get now (cacheKey up relPath) (p_cache s) with
          | (Some body, c') =>
              mkProbing c' (p_pending s) (p_results s ++ [mkUpstreamResult i body 200 None])
                (p_promoted s)
          | (None, c') => mkProbing c' (p_pending s ++ [i]) (p_results s) (p_promoted s)
          end
      end
  | EvFinish i now =>
      match upstreams !! i with
      | None => s
      | Some up =>
          if decide (i ∈ p_pending s) then
            let (r, fill) := respond i up (exchange i up relPath) in
            let pending := filter (λ j, j ≠ i) (p_pending s) in
            match fill with
            | None => mkProbing (p_cache s) pending (p_results s ++ [r]) (p_promoted s)
            | Some body =>
                mkProbing (cache_put now (cacheKey up relPath) body (cacheTTLFor relPath) (p_cache s))
                  pending (p_results s ++ [r])
                  (p_promoted s ++
                     match extractModuleVersion relPath with
                     | Some mv => if promote_hook then [mv] else []
                     | None => []
                     end)
            end
          else s
      end
  end.

Definition run_probes (relPath : string) (sched : list probe_ev) (c : C) : probing :=
  foldl (exec_ev relPath) (mkProbing c [] [] []) sched.

(** ** The tally *)

(** The first pass over the results: the winner and what is left in the channel,
    or the two counts. *)
Fixpoint first_pass (results : list (Z * upstreamResult)) (sawNotFound sawError : nat)
    : (Z * upstreamResult * list (Z * upstreamResult)) + (nat * nat) :=
  match results with
  | [] => inr (sawNotFound, sawError)
  | (t, r) :: rest =>
      if is_200 r then inl (t, r, rest)
      else if is_404 r then first_pass rest (S sawNotFound) sawError
      else first_pass rest sawNotFound (S sawError)
  end.

Definition source_url (r : upstreamResult) : string :=
  match upstreams !! ur_upstream r with Some up => up_URL up | None => "" end.

Definition log_result (relPath kind : string) (l : collisionLog) (x : Z * upstreamResult)
    : collisionLog :=
  match extractModuleVersion relPath with
  | Some (m, v) => logCollision logger x.1 (mkCollision m v (source_url x.2) kind) l
  | None => l
  end.

(** [drainShadowed]; [drainSilent] logs nothing. *)
Definition drainShadowed (relPath : string) (l : collisionLog) (rest : list (Z * upstreamResult))
    : collisionLog :=
  foldl (λ l x, if is_200 x.2 then log_result relPath CollisionKindShadowed l x else l) l rest.

Definition probeUpstreams (relPath : string) (results : list (Z * upstreamResult)) (l : collisionLog)
    : result BackendError bytes * collisionLog :=
  match first_pass results 0 0 with
  | inl (t, r, rest) =>
      let l := log_result relPath CollisionKindUpstream l (t, r) in
      (Ok (ur_body r), if disableShadowDetection then l else drainShadowed relPath l rest)
  | inr (sawNotFound, sawError) =>
      (Err (if decide (0 < sawNotFound) then ErrNotFound else ErrUpstreamUnavailable sawError), l)
  end.

(** [cascadeGet]; [clock] times the reads of the results channel. *)
Definition cascadeGet (primary : result BackendError bytes) (relPath : string) (now : Z)
    (sched : list probe_ev) (clock : nat → Z) (c : C) (l : collisionLog)
    : result BackendError bytes * (C * collisionLog) :=
  match primary with
  | Ok body =>
      (Ok body, (c, match extractModuleVersion relPath with
                    | Some (m, v) => logCollision logger now (mkCollision m v "local" CollisionKindLocal) l
                    | None => l
                    end))
  | Err ErrNotFound =>
      if decide (upstreams = []) then (Err ErrNotFound, (c, l))
      else
        let s := run_probes relPath sched c in
        let (out, l') := probeUpstreams relPath (imap (λ n r, (clock n, r)) (p_results s)) l in
        (out, (p_cache s, l'))
  | Err e => (Err e, (c, l))
  end.

(** ** The endpoints' paths *)

Definition bazelRegistryPath : string := "bazel_registry.json".
Definition metadataPath (module : string) : string := path_join ["modules"; module; "metadata.json"].
Definition moduleBazelPath (module version : string) : string :=
  path_join ["modules"; module; version; "MODULE.bazel"].
Definition sourceJSONPath (module version : string) : string :=
  path_join ["modules"; module; version; "source.json"].

(** [None]: the request is refused before any backend sees it. *)
Definition patchPath (module version filename : string) : option string :=
  if ContainsAny filename "/\" then None
  else Some (path_join ["modules"; module; version; "patches"; filename]).
Definition overlayPath (module version overlay : string) : option string :=
  let clean := path_clean overlay in
  if HasPrefix clean ".." || HasPrefix clean "/" then None
  else Some (path_join ["modules"; module; version; "overlay"; clean]).

(** ** What a round of probes does *)

(** Upstream [i] answers 200 with the complete [body], within the cap. *)
Definition fetched (relPath : string) (i : nat) (body : bytes) : Prop :=
  ∃ up, upstreams !! i = Some up ∧ exchange i up relPath = HttpResp 200 body None ∧
    (Z.of_nat (length body) ≤ MaxCascadeBodyBytes)%Z.

(** Upstream [i] answers 404. *)
Definition denied (relPath : string) (i : nat) : Prop :=
  ∃ up data e, upstreams !! i = Some up ∧ exchange i up relPath = HttpResp 404 data e.

(** The round may have put [body] in the cache under [k] until [t]. *)
Definition filled (relPath : string) (sched : list probe_ev) (k : string) (body : bytes) (t : Z) : Prop :=
  ∃ j up now, upstreams !! j = Some up ∧ k = cacheKey up relPath ∧ fetched relPath j body ∧
    EvFinish j now ∈ sched ∧ t = (now + cacheTTLFor relPath)%Z.

(** Upstream [i]'s probe found [body] in the cache. *)
Definition cached (relPath : string) (c : C) (sched : list probe_ev) (i : nat) (body : bytes) : Prop :=
  ∃ up now t, upstreams !! i = Some up ∧ EvLook i now ∈ sched ∧ (now ≤ t)%Z ∧
    (holds c (cacheKey up relPath) body t ∨ filled relPath sched (cacheKey up relPath) body t).

Definition result_ok (relPath : string) (c : C) (sched : list probe_ev) (r : upstreamResult) : Prop :=
  ∃ up, upstreams !! ur_upstream r = Some up ∧
    (r = (respond (ur_upstream r) up (exchange (ur_upstream r) up relPath)).1 ∨
     (r = mkUpstreamResult (ur_upstream r) (ur_body r) 200 None ∧
      cached relPath c sched (ur_upstream r) (ur_body r))).

Definition looks (sched : list probe_ev) : list nat :=
  omap (λ e, match e with
             | EvLook i _ => if decide (i < length upstreams) then Some i else None
             | EvFinish _ _ => None
             end) sched.

Lemma filled_mono relPath sched e k b t :
  filled relPath sched k b t → filled relPath (sched ++ [e]) k b t.
Proof.
  intros (j & up & now & ? & ? & ? & Hin & ?). exists j, up, now. split_and!; try done.
  apply elem_of_app. by left.
Qed.

Lemma cached_mono relPath c sched e i b :
  cached relPath c sched i b → cached relPath c (sched ++ [e]) i b.
Proof.
  intros (up & now & t & ? & Hin & ? & Hh). exists up, now, t. split_and!; [done| |done|].
  - apply elem_of_app. by left.
  - destruct Hh; [by left|right; by apply filled_mono].
Qed.

Lemma result_ok_mono relPath c sched e r :
  result_ok relPath c sched r → result_ok relPath c (sched ++ [e]) r.
Proof.
  intros (up & Hup & Hr). exists up. split; [done|]. destruct Hr as [Hr|[Hr Hc]]; [by left|].
  right. split; [done|by apply cached_mono].
Qed.

Record round_ok (relPath : string) (c : C) (sched : list probe_ev) (s : probing) : Prop := {
  round_cache k b t :
    holds (p_cache s) k b t → holds c k b t ∨ filled relPath sched k b t;
  round_results : Forall (result_ok relPath c sched) (p_results s);
  round_count : (ur_upstream <$> p_results s) ++ p_pending s ≡ₚ looks sched;
}.

Lemma looks_snoc sched e :
  looks (sched ++ [e]) = looks sched ++ looks [e].
Proof. unfold looks. by rewrite omap_app. Qed.

Lemma respond_upstream i up h : ur_upstream (respond i up h).1 = i.
Proof.
  destruct h as [e|st d re]; [done|]. simpl. destruct (st =? 200)%Z.
  - destruct (copy_limited _ _ _) as [b [e|]]; [done|]. by destruct (_ <? _)%Z.
  - by destruct (st =? 404)%Z.
Qed.

Lemma NoDup_filter_ne (l : list nat) i :
  NoDup l → i ∈ l → l ≡ₚ i :: filter (λ j, j ≠ i) l.
Proof.
  intros Hnd Hi. apply NoDup_Permutation; [done| |].
  - constructor; [|by apply NoDup_filter]. rewrite list_elem_of_filter. naive_solver.
  - intros j. rewrite elem_of_cons, list_elem_of_filter. destruct (decide (j = i)); naive_solver.
Qed.

Lemma round_look relPath c sched s i now :
  round_ok relPath c sched s →
  round_ok relPath c (sched ++ [EvLook i now]) (exec_ev relPath s (EvLook i now)).
Proof.
  intros [H1 H2 H3]. assert (Forall (result_ok relPath c (sched ++ [EvLook i now])) (p_results s)) as H2'.
  { eapply Forall_impl; [exact H2|]. intros r. apply result_ok_mono. }
  simpl. destruct (upstreams !! i) as [up|] eqn:Hup.
  2: { split; [|done|].
       - intros k b t Hh. destruct (H1 k b t Hh); [by left|right; by apply filled_mono].
       - rewrite looks_snoc. unfold looks at 2. simpl. apply lookup_ge_None in Hup.
         rewrite decide_False by lia. by rewrite app_nil_r. }
  assert (looks (sched ++ [EvLook i now]) = looks sched ++ [i]) as Hl.
  { rewrite looks_snoc. unfold looks at 2. simpl. apply lookup_lt_Some in Hup. by rewrite decide_True. }
  pose proof (cache_get_keeps now (cacheKey up relPath) (p_cache s)) as Hk.
  destruct (cache_get now (cacheKey up relPath) (p_cache s)) as [[body|] c'] eqn:Hg; simpl in Hk.
  - apply cache_get_justified in Hg as (t & Ht & Hnow). split; simpl.
    + intros k b t' Hh%Hk. destruct (H1 k b t' Hh); [by left|right; by apply filled_mono].
    + apply Forall_app. split; [done|]. constructor; [|constructor]. exists up. simpl. split; [done|].
      right. split; [done|]. exists up, now, t. split_and!; [done| |done|].
      * apply elem_of_app. right. by left.
      * destruct (H1 _ _ _ Ht); [by left|right; by apply filled_mono].
    + rewrite Hl, <-H3, fmap_app. simpl. solve_Permutation.
  - split; simpl; [|done|].
    + intros k b t' Hh%Hk. destruct (H1 k b t' Hh); [by left|right; by apply filled_mono].
    + by rewrite Hl, <-H3, app_assoc.
Qed.

Lemma round_finish relPath c sched s i now :
  NoDup (looks sched) → round_ok relPath c sched s →
  round_ok relPath c (sched ++ [EvFinish i now]) (exec_ev relPath s (EvFinish i now)).
Proof.
  intros Hnd [H1 H2 H3].
  assert (Forall (result_ok relPath c (sched ++ [EvFinish i now])) (p_results s)) as H2'.
  { eapply Forall_impl; [exact H2|]. intros r. apply result_ok_mono. }
  assert (∀ k b t, holds (p_cache s) k b t →
    holds c k b t ∨ filled relPath (sched ++ [EvFinish i now]) k b t) as H1'.
  { intros k b t Hh. destruct (H1 k b t Hh); [by left|right; by apply filled_mono]. }
  assert (looks (sched ++ [EvFinish i now]) = looks sched) as Hl.
  { rewrite looks_snoc. unfold looks at 2. simpl. by rewrite app_nil_r. }
  simpl. destruct (upstreams !! i) as [up|] eqn:Hup; [|split; [done|done|by rewrite Hl]].
  case_decide as Hi; [|split; [done|done|by rewrite Hl]].
  pose proof (respond_upstream i up (exchange i up relPath)) as Hu.
  assert (∀ b, (respond i up (exchange i up relPath)).2 = Some b → fetched relPath i b) as Hf
    by (intros b [Hx Hb]%respond_fill; by exists up).
  destruct (respond i up (exchange i up relPath)) as [r fill] eqn:Hr. simpl in Hu, Hf.
  assert (result_ok relPath c (sched ++ [EvFinish i now]) r) as Hrok.
  { exists up. rewrite Hu. split; [done|]. left. by rewrite Hr. }
  assert (NoDup (p_pending s)) as Hp.
  { rewrite <-H3 in Hnd. by apply NoDup_app in Hnd as (_ & _ & ?). }
  assert ((ur_upstream <$> p_results s ++ [r]) ++ filter (λ j, j ≠ i) (p_pending s) ≡ₚ
    looks (sched ++ [EvFinish i now])) as Hcount.
  { rewrite Hl, <-H3, fmap_app, <-app_assoc. simpl. rewrite Hu.
    apply Permutation_app_head. symmetry. by apply NoDup_filter_ne. }
  destruct fill as [body|]; split; simpl; try done; try (by apply Forall_app; split; [done|constructor]).
  intros k b t Hh. apply cache_put_keeps in Hh as [(-> & -> & ->)|Hh]; [|by apply H1'].
  right. exists i, up, now. split_and!; [done|done|by apply Hf| |done]. apply elem_of_app. right. by left.
Qed.

Lemma looks_NoDup_prefix sched e : NoDup (looks (sched ++ [e])) → NoDup (looks sched).
Proof. rewrite looks_snoc. by intros (? & _ & _)%NoDup_app. Qed.

Lemma run_probes_ok relPath sched c :
  NoDup (looks sched) → round_ok relPath c sched (run_probes relPath sched c).
Proof.
  induction sched as [|e sched IH] using rev_ind; intros Hnd.
  - split; simpl; [by left|constructor|done].
  - unfold run_probes. rewrite foldl_app. simpl. apply looks_NoDup_prefix in Hnd.
    specialize (IH Hnd). destruct e; [by apply round_look|by apply round_finish].
Qed.

(** ** The answer *)

Lemma first_pass_spec results nf er :
  match first_pass results nf er with
  | inl (t, r, rest) => ∃ pre, results = pre ++ (t, r) :: rest ∧ is_200 r = true ∧
      Forall (λ x, is_200 x.2 = false) pre
  | inr (a, b) => Forall (λ x, is_200 x.2 = false) results ∧
      a = nf + length (filter (λ x, is_404 x.2 = true) results) ∧ a + b = nf + er + length results
  end.
Proof.
  revert nf er. induction results as [|[t r] results IH]; intros nf er; simpl.
  - split; [constructor|]. lia.
  - destruct (is_200 r) eqn:E2; [by exists []|]. rewrite (filter_cons _ (t, r)).
    destruct (is_404 r) eqn:E4; [rewrite decide_True by done|rewrite decide_False by (simpl; congruence)].
    + specialize (IH (S nf) er). destruct (first_pass results (S nf) er) as [[[t' r'] rest]|[a b]].
      * destruct IH as (pre & -> & ? & ?). exists ((t, r) :: pre). split_and!; [done|done|by constructor].
      * destruct IH as (? & ? & ?). split; [by constructor|]. simpl. lia.
    + specialize (IH nf (S er)). destruct (first_pass results nf (S er)) as [[[t' r'] rest]|[a b]].
      * destruct IH as (pre & -> & ? & ?). exists ((t, r) :: pre). split_and!; [done|done|by constructor].
      * destruct IH as (? & ? & ?). split; [by constructor|]. lia.
Qed.

(** Every upstream is probed once and every probe ends. *)
Definition complete (relPath : string) (sched : list probe_ev) (c : C) : Prop :=
  looks sched ≡ₚ seq 0 (length upstreams) ∧ p_pending (run_probes relPath sched c) = [].

Lemma complete_round relPath sched c :
  complete relPath sched c →
  let s := run_probes relPath sched c in
  round_ok relPath c sched s ∧ (ur_upstream <$> p_results s) ≡ₚ seq 0 (length upstreams).
Proof.
  intros [Hl Hp]. cbv zeta. assert (NoDup (looks sched)) as Hnd by (rewrite Hl; apply NoDup_seq).
  pose proof (run_probes_ok relPath sched c Hnd) as Hr. split; [done|].
  rewrite <-Hl, <-(round_count _ _ _ _ Hr), Hp. by rewrite app_nil_r.
Qed.

(** The class of a result against what the upstream answers. *)
Lemma result_class relPath c sched r :
  result_ok relPath c sched r →
  if is_200 r then fetched relPath (ur_upstream r) (ur_body r) ∨ cached relPath c sched (ur_upstream r) (ur_body r)
  else (∀ b, ¬ fetched relPath (ur_upstream r) b) ∧ (is_404 r = true ↔ denied relPath (ur_upstream r)).
Proof.
  intros (up & Hup & Hr). destruct Hr as [Hr|[-> Hc]]; [|by right].
  pose proof (respond_class (ur_upstream r) up (exchange (ur_upstream r) up relPath)) as Hc.
  cbv zeta in Hc. rewrite <-Hr in Hc. destruct (is_200 r).
  - left. apply respond_fill in Hc as [? ?]. by exists up.
  - destruct Hc as [Hn H4]. split.
    + intros b (up' & Hup' & Hx & Hl). assert (up' = up) as -> by congruence.
      assert ((respond (ur_upstream r) up (exchange (ur_upstream r) up relPath)).2 = Some b) as E
        by by apply respond_fill. congruence.
    + rewrite H4. unfold denied. split.
      * destruct (exchange _ _ _) as [e|st data re] eqn:Hx; [done|]. intros ->%Z.eqb_eq. eauto.
      * intros (up' & data & re & Hup' & Hx). assert (up' = up) as -> by congruence. by rewrite Hx.
Qed.

Lemma results_lookup relPath sched c i :
  complete relPath sched c → i < length upstreams →
  ∃ r, r ∈ p_results (run_probes relPath sched c) ∧ ur_upstream r = i.
Proof.
  intros Hc Hi. apply complete_round in Hc as [_ Hp].
  assert (i ∈ ur_upstream <$> p_results (run_probes relPath sched c)) as Hin.
  { rewrite Hp. apply elem_of_seq. lia. }
  apply list_elem_of_fmap in Hin as (r & -> & Hr). by exists r.
Qed.

Lemma denied_lt relPath i : denied relPath i → i < length upstreams.
Proof. intros (up & ? & ? & Hup & _). by eapply lookup_lt_Some. Qed.

Lemma fetched_lt relPath i b : fetched relPath i b → i < length upstreams.
Proof. intros (up & Hup & _). by eapply lookup_lt_Some. Qed.

Lemma elem_of_clocked (clock : nat → Z) (rs : list upstreamResult) x :
  x ∈ imap (λ n r, (clock n, r)) rs → x.2 ∈ rs.
Proof.
  intros (n & r & -> & Hr)%elem_of_lookup_imap_1. simpl. by eapply list_elem_of_lookup_2.
Qed.

Lemma elem_of_clocked_2 (clock : nat → Z) (rs : list upstreamResult) r :
  r ∈ rs → ∃ t, (t, r) ∈ imap (λ n r, (clock n, r)) rs.
Proof.
  intros (n & Hn)%list_elem_of_lookup_1. exists (clock n).
  apply list_elem_of_lookup. exists n. by rewrite list_lookup_imap, Hn.
Qed.

(** C28: The answer of the cascade, for every interleaving of the probes and every
    order in which they end.  The primary's body and its faults are final.
    After its not-found: some upstream's complete 200 body, or one that the
    cache justifies; otherwise no upstream answered 200, and the answer is
    not-found when any of them answered 404 (or there is none), and unavailable,
    counting them all, when none did.  Only complete 200 bodies enter the cache. *)
Theorem cascade_answer primary relPath now sched clock c l :
  complete relPath sched c →
  let out := cascadeGet primary relPath now sched clock c l in
  (∀ k b t, holds out.2.1 k b t → holds c k b t ∨ filled relPath sched k b t) ∧
  match primary with
  | Ok body => out.1 = Ok body ∧ out.2.1 = c
  | Err ErrNotFound =>
      (∃ i body, (fetched relPath i body ∨ cached relPath c sched i body) ∧ out.1 = Ok body) ∨
      ((∀ i b, ¬ fetched relPath i b) ∧
        ((out.1 = Err ErrNotFound ∧ (upstreams = [] ∨ ∃ i, denied relPath i)) ∨
         (out.1 = Err (ErrUpstreamUnavailable (length upstreams)) ∧ upstreams ≠ [] ∧
            ∀ i, ¬ denied relPath i)))
  | Err e => out = (Err e, (c, l))
  end.
Proof.
  intros Hcomp. cbv zeta. destruct primary as [body|[|n|e]]; simpl;
    [by (split; [intros; by left|])| |by (split; [intros; by left|])..].
  case_decide as Hups.
  { split; [intros; by left|]. right. split; [|left; eauto]. intros i b Hf%fetched_lt.
    rewrite Hups in Hf. simpl in Hf. lia. }
  apply complete_round in Hcomp as Hr. destruct Hr as [[H1 H2 H3] Hp].
  pose proof (results_lookup relPath sched c) as Hall.
  set (s := run_probes relPath sched c) in *. unfold probeUpstreams.
  rewrite Forall_forall in H2.
  set (rs := imap (λ n r, (clock n, r)) (p_results s)).
  assert (length rs = length upstreams) as Hlen.
  { unfold rs. rewrite length_imap. apply Permutation_length in Hp. by rewrite length_fmap, length_seq in Hp. }
  pose proof (first_pass_spec rs 0 0) as Hfp.
  destruct (first_pass rs 0 0) as [[[t r] rest]|[a b]]; simpl.
  { split; [done|]. left. destruct Hfp as (pre & Hrs & H200 & _).
    assert (r ∈ p_results s) as Hin.
    { apply (elem_of_clocked clock (p_results s) (t, r)). fold rs. rewrite Hrs. apply elem_of_app. right. by left. }
    apply H2, result_class in Hin. rewrite H200 in Hin. eauto. }
  destruct Hfp as (Hno & Ha & Hab). split; [done|]. right. rewrite Forall_forall in Hno.
  assert (∀ r, r ∈ p_results s → is_200 r = false) as Hno'.
  { intros r (t & Ht)%(elem_of_clocked_2 clock). exact (Hno _ Ht). }
  split.
  { intros i b' Hf. destruct (Hall i Hcomp (fetched_lt _ _ _ Hf)) as (r & Hin & <-).
    pose proof (result_class _ _ _ _ (H2 r Hin)) as Hcl. rewrite (Hno' r Hin) in Hcl.
    by apply (proj1 Hcl b'). }
  simpl in Ha. case_decide as Hpos.
  - left. split; [done|]. right.
    destruct (filter (λ x, is_404 x.2 = true) rs) as [|x f] eqn:Ef; [simpl in Ha; lia|].
    assert (x ∈ filter (λ x, is_404 x.2 = true) rs) as Hx by (rewrite Ef; by left).
    apply list_elem_of_filter in Hx as [Hx Hin]. apply elem_of_clocked in Hin.
    exists (ur_upstream x.2). pose proof (result_class _ _ _ _ (H2 _ Hin)) as Hcl.
    rewrite (Hno' _ Hin) in Hcl. by apply (proj2 Hcl).
  - right. split; [do 2 f_equal; lia|]. split; [done|].
    intros i Hd. destruct (Hall i Hcomp (denied_lt _ _ Hd)) as (r & Hin & <-).
    pose proof (result_class _ _ _ _ (H2 r Hin)) as Hcl. rewrite (Hno' r Hin) in Hcl.
    apply (proj2 Hcl) in Hd. apply (elem_of_clocked_2 clock) in Hin as (t & Hin).
    assert ((t, r) ∈ filter (λ x, is_404 x.2 = true) rs) as Hx by by apply list_elem_of_filter.
    destruct (filter _ rs); [by apply elem_of_nil in Hx|]. simpl in Ha. lia.
Qed.

(** ** Collision rows *)

Definition run_log (xs : list (Z * collision)) (l : collisionLog) : collisionLog :=
  foldl (λ l x, logCollision logger x.1 x.2 l) l xs.

(** The rows of a round: the first 200 in the order of arrival won, every later
    one was shadowed. *)
Definition rows (m v : string) (results : list (Z * upstreamResult)) : list (Z * collision) :=
  match filter (λ x, is_200 x.2 = true) results with
  | [] => []
  | w :: ss =>
      (w.1, mkCollision m v (source_url w.2) CollisionKindUpstream) ::
      (if disableShadowDetection then []
       else (λ x, (x.1, mkCollision m v (source_url x.2) CollisionKindShadowed)) <$> ss)
  end.

Lemma drainShadowed_rows relPath m v l rest :
  extractModuleVersion relPath = Some (m, v) →
  drainShadowed relPath l rest =
    run_log ((λ x, (x.1, mkCollision m v (source_url x.2) CollisionKindShadowed)) <$>
               filter (λ x, is_200 x.2 = true) rest) l.
Proof.
  intros Hmv. unfold drainShadowed. revert l. induction rest as [|[t r] rest IH]; intros l; [done|].
  rewrite (filter_cons _ (t, r)). cbn [foldl snd]. destruct (is_200 r) eqn:E.
  - rewrite decide_True by done. rewrite IH. unfold log_result. by rewrite Hmv.
  - rewrite decide_False by (simpl; congruence). by rewrite IH.
Qed.

Lemma drainShadowed_none relPath l rest :
  extractModuleVersion relPath = None → drainShadowed relPath l rest = l.
Proof.
  intros Hmv. unfold drainShadowed. induction rest as [|x rest IH]; [done|]. simpl.
  replace (log_result relPath CollisionKindShadowed l x) with l; [by destruct (is_200 x.2)|].
  unfold log_result. by rewrite Hmv.
Qed.

(** Every 200 of the round is logged, once: the first to arrive as the served
    source, the others as shadowed by it unless shadow detection is off; nothing
    is logged for a path without a module and a version. *)
Theorem shadow_rows relPath results l :
  (probeUpstreams relPath results l).2 =
    match extractModuleVersion relPath with
    | Some (m, v) => run_log (rows m v results) l
    | None => l
    end.
Proof.
  unfold probeUpstreams. pose proof (first_pass_spec results 0 0) as Hfp.
  destruct (first_pass results 0 0) as [[[t r] rest]|[a b]]; simpl.
  - destruct Hfp as (pre & -> & H200 & Hpre).
    destruct (extractModuleVersion relPath) as [[m v]|] eqn:Hmv.
    + rewrite (drainShadowed_rows _ m v) by done. unfold rows, log_result. rewrite Hmv.
      rewrite filter_app, (filter_none _ pre), (filter_cons _ (t, r)).
      2: { eapply Forall_impl; [exact Hpre|]. intros x. simpl. congruence. }
      rewrite decide_True by done. simpl. by destruct disableShadowDetection.
    + rewrite drainShadowed_none by done. unfold log_result. rewrite Hmv.
      by destruct disableShadowDetection.
  - destruct Hfp as (Hno & _). destruct (extractModuleVersion relPath) as [[m v]|]; [|done].
    unfold rows. rewrite filter_none; [done|].
    eapply Forall_impl; [exact Hno|]. intros x. simpl. congruence.
Qed.
End cascade.

(** ** Coalescing *)

Definition emptyLog : collisionLog := mkCollisionLog ∅ [].

(** The map holds the time of each key's last call of the hook. *)
Definition log_ok (l : collisionLog) : Prop :=
  ∀ k t, cl_coalesce l !! k = Some t ↔
    ∃ pre x post, cl_hooked l = pre ++ (t, x) :: post ∧ collision_key x = k ∧
      Forall (λ y, collision_key y.2 ≠ k) post.

Definition spaced (h : list (Z * collision)) : Prop :=
  ∀ i j t x t' x', i < j → h !! i = Some (t, x) → h !! j = Some (t', x') →
    collision_key x = collision_key x' → (collisionCoalesceWindow ≤ t' - t)%Z.

Definition covers (h xs : list (Z * collision)) : Prop :=
  ∀ t x, (t, x) ∈ xs → ∃ t0 x0, (t0, x0) ∈ h ∧ collision_key x0 = collision_key x ∧
    (t0 ≤ t < t0 + collisionCoalesceWindow)%Z.

Lemma run_log_snoc xs x l :
  run_log true (xs ++ [x]) l = logCollision true x.1 x.2 (run_log true xs l).
Proof. unfold run_log. by rewrite foldl_app. Qed.

Lemma log_ok_record l now x :
  log_ok l →
  log_ok (mkCollisionLog (<[collision_key x := now]> (cl_coalesce l)) (cl_hooked l ++ [(now, x)])).
Proof.
  intros Hl k t. simpl. destruct (decide (k = collision_key x)) as [->|Hne].
  - rewrite lookup_insert_eq. split.
    + intros [= ->]. by exists (cl_hooked l), x, [].
    + intros (pre & x' & post & E & Hk & Hpost).
      destruct post as [|y post _] using rev_ind; [by apply app_inj_tail in E as [_ [= -> _]]|].
      rewrite app_comm_cons, app_assoc in E. apply app_inj_tail in E as [_ <-].
      apply Forall_app in Hpost as [_ Hy]. apply Forall_cons in Hy as [Hy _]. by destruct Hy.
  - rewrite lookup_insert_ne by done. rewrite (Hl k t). split.
    + intros (pre & x' & post & -> & Hk & Hpost). exists pre, x', (post ++ [(now, x)]).
      split_and!; [by rewrite <-app_assoc|done|]. apply Forall_app. split; [done|].
      constructor; [|constructor]. simpl. congruence.
    + intros (pre & x' & post & E & Hk & Hpost).
      destruct post as [|y post _] using rev_ind.
      { apply app_inj_tail in E as [_ [= _ <-]]. congruence. }
      rewrite app_comm_cons, app_assoc in E. apply app_inj_tail in E as [E _].
      apply Forall_app in Hpost as [Hpost _]. exists pre, x', post. by split_and!.
Qed.

Record log_inv (xs : list (Z * collision)) (l : collisionLog) : Prop := {
  li_ok : log_ok l;
  li_sub : cl_hooked l `sublist_of` xs;
  li_spaced : spaced (cl_hooked l);
  li_covers : covers (cl_hooked l) xs;
}.

Lemma covers_snoc h h' xs now x :
  (∀ y, y ∈ h → y ∈ h') → covers h xs →
  (∃ t0 x0, (t0, x0) ∈ h' ∧ collision_key x0 = collision_key x ∧
    (t0 ≤ now < t0 + collisionCoalesceWindow)%Z) →
  covers h' (xs ++ [(now, x)]).
Proof.
  intros Hsub Hc Hx t y [Hy|Hy]%elem_of_app.
  - destruct (Hc t y Hy) as (t0 & x0 & Hin & ? & ?). exists t0, x0. auto.
  - apply list_elem_of_singleton in Hy as [= -> ->]. done.
Qed.

Lemma StronglySorted_sublist {A} (R : A → A → Prop) (l k : list A) :
  l `sublist_of` k → StronglySorted R k → StronglySorted R l.
Proof.
  induction 1 as [|x l k Hlk IH|x l k Hlk IH]; intros Hk; [done| |].
  - apply StronglySorted_inv in Hk as [Hk Hx]. constructor; [by apply IH|].
    rewrite Forall_forall in Hx |- *. intros y Hy. apply Hx. by eapply elem_of_sublist.
  - apply IH. by apply StronglySorted_inv in Hk as [? _].
Qed.

(** The last call for a key is the latest one. *)
Lemma last_is_latest l k t i t' x' :
  log_ok l → StronglySorted (λ a b, a.1 ≤ b.1)%Z (cl_hooked l) → cl_coalesce l !! k = Some t →
  cl_hooked l !! i = Some (t', x') → collision_key x' = k → (t' ≤ t)%Z.
Proof.
  intros Hl Hs Hk Hi Hx. apply Hl in Hk as (pre & x & post & E & _ & Hpost). rewrite E in Hs, Hi.
  rewrite Forall_forall in Hpost.
  apply lookup_app_Some in Hi as [Hi|[Hlt Hi]].
  - apply list_elem_of_lookup_2 in Hi. apply StronglySorted_app in Hs as (Hs & _ & _).
    exact (Hs _ (t, x) Hi ltac:(by left)).
  - destruct (i - length pre) as [|n]; simpl in Hi; [by injection Hi as <- _|].
    apply list_elem_of_lookup_2 in Hi. exfalso. by apply (Hpost _ Hi).
Qed.

Lemma spaced_snoc_gen l now x :
  spaced (cl_hooked l) →
  (∀ i t' x', cl_hooked l !! i = Some (t', x') → collision_key x' = collision_key x →
    (collisionCoalesceWindow ≤ now - t')%Z) →
  spaced (cl_hooked l ++ [(now, x)]).
Proof.
  intros H3 Hnew i j t1 x1 t2 x2 Hij Hi Hj Hk.
  apply lookup_app_Some in Hj as [Hj|[Hlen Hj]].
  - apply (H3 i j t1 x1 t2 x2); try done. apply lookup_lt_Some in Hj.
    by rewrite lookup_app_l in Hi by lia.
  - destruct (j - length (cl_hooked l)) as [|n] eqn:En; [|done]. injection Hj as <- <-.
    rewrite lookup_app_l in Hi by lia. by apply (Hnew i t1 x1).
Qed.

Lemma spaced_snoc l now x t :
  log_ok l → StronglySorted (λ a b, a.1 ≤ b.1)%Z (cl_hooked l) → spaced (cl_hooked l) →
  cl_coalesce l !! collision_key x = Some t → ¬ (now - t < collisionCoalesceWindow)%Z →
  spaced (cl_hooked l ++ [(now, x)]).
Proof.
  intros H1 Hs H3 Ht Hw. apply spaced_snoc_gen; [done|]. intros i t' x' Hi Hk.
  pose proof (last_is_latest l _ t i t' x' H1 Hs Ht Hi Hk). lia.
Qed.

Lemma spaced_snoc_new l now x :
  log_ok l → spaced (cl_hooked l) → cl_coalesce l !! collision_key x = None →
  spaced (cl_hooked l ++ [(now, x)]).
Proof.
  intros H1 H3 Hn. apply spaced_snoc_gen; [done|]. intros i t' x' Hi Hk. exfalso.
  apply list_elem_of_lookup_2 in Hi. assert (∃ t, cl_coalesce l !! collision_key x = Some t) as [t Ht];
    [|congruence].
  assert (∀ h, (t', x') ∈ h → ∃ pre t0 x0 post, h = pre ++ (t0, x0) :: post ∧
    collision_key x0 = collision_key x ∧ Forall (λ y, collision_key y.2 ≠ collision_key x) post) as Hlast.
  { intros h. induction h as [|[t0 x0] h IH] using rev_ind; [by intros ?%elem_of_nil|]. intros Hin.
    destruct (decide (collision_key x0 = collision_key x)) as [E|E].
    - exists h, t0, x0, []. split_and!; [done|done|constructor].
    - apply elem_of_app in Hin as [Hin|Hin%list_elem_of_singleton]; [|congruence].
      destruct (IH Hin) as (pre & t1 & x1 & post & -> & ? & ?). exists pre, t1, x1, (post ++ [(t0, x0)]).
      split_and!; [by rewrite <-app_assoc|done|]. apply Forall_app. split; [done|by constructor]. }
  destruct (Hlast _ Hi) as (pre & t0 & x0 & post & ? & ? & ?). exists t0. apply H1. by exists pre, x0, post.
Qed.

Lemma log_inv_snoc xs l now x :
  StronglySorted (λ a b, a.1 ≤ b.1)%Z (xs ++ [(now, x)]) → log_inv xs l →
  log_inv (xs ++ [(now, x)]) (logCollision true now x l).
Proof.
  intros Hsorted [H1 H2 H3 H4]. apply StronglySorted_app in Hsorted as (Hle & Hs & _).
  assert (∀ a, a ∈ cl_hooked l → (a.1 ≤ now)%Z) as Hnow.
  { intros a Ha. apply (Hle a (now, x)); [|by left]. by eapply elem_of_sublist. }
  assert (StronglySorted (λ a b, a.1 ≤ b.1)%Z (cl_hooked l)) as Hsh.
  { eapply StronglySorted_sublist; [exact H2|done]. }
  assert (log_inv (xs ++ [(now, x)])
    (mkCollisionLog (<[collision_key x := now]> (cl_coalesce l)) (cl_hooked l ++ [(now, x)])) ∨
    ∃ t, cl_coalesce l !! collision_key x = Some t ∧ (now - t < collisionCoalesceWindow)%Z) as Hrec.
  { destruct (cl_coalesce l !! collision_key x) as [t|] eqn:Et.
    - destruct (Z.lt_decidable (now - t) collisionCoalesceWindow); [right; eauto|left].
      split; simpl; [by apply log_ok_record|by apply sublist_app| |].
      + by apply (spaced_snoc l now x t).
      + eapply covers_snoc; [|done|]; [intros y Hy; apply elem_of_app; by left|].
        exists now, x. split_and!; [apply elem_of_app; right; by left|done|unfold collisionCoalesceWindow; lia..].
    - left. split; simpl; [by apply log_ok_record|by apply sublist_app| |].
      + by apply spaced_snoc_new.
      + eapply covers_snoc; [|done|]; [intros y Hy; apply elem_of_app; by left|].
        exists now, x. split_and!; [apply elem_of_app; right; by left|done|unfold collisionCoalesceWindow; lia..]. }
  unfold logCollision. simpl. destruct (cl_coalesce l !! collision_key x) as [t|] eqn:Et.
  2: { destruct Hrec as [?|(t & [=] & _)]. done. }
  destruct (Z.ltb_spec (now - t) collisionCoalesceWindow).
  2: { destruct Hrec as [?|(t' & [= <-] & ?)]; [done|lia]. }
  split; [done|by apply sublist_inserts_r|done|].
  apply H1 in Et as (pre & x0 & post & E & Hk & _).
  assert ((t, x0) ∈ cl_hooked l) as Hin by (rewrite E; apply elem_of_app; right; by left).
  eapply covers_snoc; [|done|]; [done|]. exists t, x0. split_and!; [done|done|by apply (Hnow _ Hin)|lia].
Qed.

(** Coalescing: over calls in the order of time, the hook is called for some of
    them, never twice within five minutes for the same module, version, source
    and kind, and every call it is spared was preceded within five minutes by
    one with the same key. *)
Theorem collision_coalesced xs :
  StronglySorted (λ a b, a.1 ≤ b.1)%Z xs →
  let h := cl_hooked (run_log true xs emptyLog) in
  h `sublist_of` xs ∧ spaced h ∧ covers h xs.
Proof.
  intros Hs. cbv zeta. assert (log_inv xs (run_log true xs emptyLog)) as [_ H2 H3 H4]; [|done].
  induction xs as [|[now x] xs IH] using rev_ind.
  - split; simpl; [|done|by intros ??????|by intros ?? ?%elem_of_nil].
    intros k t. split.
    { intros Hk. change ((∅ : gmap string Z) !! k = Some t) in Hk. by rewrite lookup_empty in Hk. }
    intros (pre & ? & ? & E & _). by destruct pre.
  - rewrite run_log_snoc. apply log_inv_snoc; [done|]. apply IH. by apply StronglySorted_app in Hs as (_ & ? & _).
Qed.

(** ** Paths *)

(** A path has a module and a version exactly when it is [modules/m/v/...] with
    both segments non-empty. *)
Theorem extractModuleVersion_spec relPath m v :
  extractModuleVersion relPath = Some (m, v) ↔
  ∃ rest, relPath = "modules/" +:+ m +:+ "/" +:+ v +:+ "/" +:+ rest ∧
    m ≠ "" ∧ v ≠ "" ∧ (slash ∉ to_bytes m) ∧ (slash ∉ to_bytes v).
Proof.
  unfold extractModuleVersion, HasPrefix. split.
  - case_bool_decide as Hp; [|done]. simpl negb. cbv iota. destruct Hp as [rest0 Hp]. rewrite Hp.
    change 8 with (length (to_bytes "modules/")). rewrite drop_app_length.
    destruct (cut_at slash rest0) as [[a r]|] eqn:Ea; [|done]. apply cut_at_iff in Ea as [-> Ha].
    case_decide as Han; [done|]. destruct (cut_at slash r) as [[b r']|] eqn:Eb; [|done].
    apply cut_at_iff in Eb as [-> Hb]. case_decide as Hbn; [done|]. intros [= <- <-].
    exists (of_bytes r'). rewrite !to_of_bytes. split_and!; try done.
    + apply to_bytes_inj. rewrite Hp, !to_bytes_app, !to_of_bytes. done.
    + intros E. apply Han. apply (f_equal to_bytes) in E. by rewrite to_of_bytes in E.
    + intros E. apply Hbn. apply (f_equal to_bytes) in E. by rewrite to_of_bytes in E.
  - intros (rest & -> & Hm & Hv & Hms & Hvs). rewrite to_bytes_app, bool_decide_true by by eexists.
    simpl negb. cbv iota. change 8 with (length (to_bytes "modules/")). rewrite drop_app_length.
    assert (cut_at slash (to_bytes (m +:+ "/" +:+ v +:+ "/" +:+ rest)) =
      Some (to_bytes m, to_bytes (v +:+ "/" +:+ rest))) as ->.
    { apply cut_at_iff. rewrite to_bytes_app. done. }
    assert (cut_at slash (to_bytes (v +:+ "/" +:+ rest)) = Some (to_bytes v, to_bytes rest)) as ->.
    { apply cut_at_iff. rewrite to_bytes_app. done. }
    rewrite !decide_False by by rewrite to_bytes_nil. by rewrite !of_to_bytes.
Qed.

(** A relative stack is some [..], then plain segments. *)
Lemma rel_step_shape l ds n :
  Forall (λ x, x ≠ "" ∧ x ≠ "." ∧ slash ∉ to_bytes x) l → Forall plain ds →
  ∃ n' ds', foldl rel_step (replicate n ".." ++ ds) l = replicate n' ".." ++ ds' ∧ Forall plain ds'.
Proof.
  intros Hl. revert ds n. induction Hl as [|x l (Hx1 & Hx2 & Hx3) Hl IH]; intros ds n Hds; simpl;
    [by exists n, ds|].
  unfold rel_step at 2. destruct (decide (x = "..")) as [->|Hdd].
  - destruct ds as [|d ds _] using rev_ind.
    + rewrite app_nil_r. assert (Forall plain []) as Hnil by constructor.
      destruct (IH [] (S n) Hnil) as (n' & ds' & E & ?). rewrite app_nil_r in E. exists n', ds'.
      split; [|done]. rewrite <-E, replicate_S_end. f_equal.
      destruct n as [|n]; [done|]. rewrite replicate_S_end at 1. by rewrite last_snoc, decide_True.
    + apply Forall_app in Hds as [Hds Hd]. apply Forall_cons in Hd as [(_ & _ & Hd & _) _].
      rewrite app_assoc, last_snoc, decide_False by done.
      rewrite length_app. simpl. rewrite Nat.add_sub, take_app_length. by apply IH.
  - rewrite <-app_assoc. apply IH. apply Forall_app. split; [done|]. by repeat constructor.
Qed.

Lemma segs_ok s : Forall (λ x, x ≠ "" ∧ x ≠ "." ∧ slash ∉ to_bytes x) (segs s).
Proof.
  apply Forall_forall. intros x [[??] Hin]%list_elem_of_filter. split_and!; try done.
  by eapply Split_elem.
Qed.

Lemma rel_step_plain l ds : Forall plain ds → foldl rel_step l ds = l ++ ds.
Proof.
  intros H. revert l. induction H as [|d ds (_ & _ & Hd & _) H IH]; intros l; simpl; [by rewrite app_nil_r|].
  unfold rel_step at 2. rewrite decide_False by done. rewrite IH. by rewrite <-app_assoc.
Qed.

Lemma plain_head_prefix d ds s :
  plain d → HasPrefix (Join (d :: ds) s) "/" = false.
Proof.
  intros (Hd1 & _ & _ & Hd2). unfold HasPrefix. apply bool_decide_eq_false. intros [k Hk].
  change (to_bytes "/") with [slash] in Hk. destruct d as [|a d]; [done|].
  assert (to_bytes (Join (String a d :: ds) s) = a :: to_bytes (match ds with [] => d | _ => d +:+ s +:+ Join ds s end)) as E
    by by destruct ds.
  rewrite E in Hk. injection Hk as -> _. apply Hd2. simpl. by left.
Qed.

Lemma segs_Join ds : ds ≠ [] → Forall plain ds → segs (Join ds "/") = ds.
Proof.
  intros Hne Hds. unfold segs. rewrite Split_Join; [by apply filter_plain|done|].
  eapply Forall_impl; [exact Hds|]. by intros x (_ & _ & _ & ?).
Qed.

Lemma path_clean_plain ds : ds ≠ [] → Forall plain ds → path_clean (Join ds "/") = Join ds "/".
Proof.
  intros Hne Hds. unfold path_clean. rewrite segs_Join by done. destruct ds as [|d ds]; [done|].
  apply Forall_cons in Hds as Hd. destruct Hd as [Hd _].
  rewrite plain_head_prefix by done. by rewrite rel_step_plain.
Qed.

(** The segments of an upstream path for [module] and [version]. *)
Definition base (module version dir : string) : list string := ["modules"; module; version; dir].

Lemma base_plain m v dir : plain m → plain v → plain dir → Forall plain (base m v dir).
Proof.
  intros Hm Hv Hd. unfold base. do 4 (apply Forall_cons; split; [first [done|by apply plain_lit]|]). constructor.
Qed.

Lemma Join_base m v dir ds :
  ds ≠ [] → Join (base m v dir ++ ds) "/" = Join (base m v dir ++ [Join ds "/"]) "/".
Proof. intros Hds. rewrite !Join_app_nonempty by done. done. Qed.

Lemma path_join_ne m v dir z :
  plain m → plain v → plain dir → z ≠ "" →
  path_join (base m v dir ++ [z]) = path_clean (Join (base m v dir ++ [z]) "/").
Proof.
  intros (Hm & _) (Hv & _) (Hd & _) Hz. unfold path_join. rewrite filter_all; [done|].
  by repeat constructor.
Qed.

Lemma path_join_base m v dir ds :
  plain m → plain v → plain dir → Forall plain ds →
  path_join (base m v dir ++ [match ds with [] => "." | _ => Join ds "/" end]) =
    Join (base m v dir ++ ds) "/".
Proof.
  intros Hm Hv Hd Hds. pose proof (base_plain m v dir Hm Hv Hd) as Hb.
  destruct ds as [|d ds]; rewrite path_join_ne by first [done|
    apply Forall_cons in Hds as [(Hd0 & _) _]; destruct d; [done|by destruct ds]].
  - rewrite app_nil_r, Join_app_nonempty by done. unfold path_clean.
    assert (HasPrefix (Join (base m v dir) "/" +:+ "/" +:+ Join ["."] "/") "/" = false) as -> by done.
    rewrite segs_app. change (segs (Join ["."] "/")) with (@nil string).
    rewrite app_nil_r, segs_Join, rel_step_plain by done. done.
  - rewrite <-Join_base by done. apply path_clean_plain; [done|]. by apply Forall_app.
Qed.

(** An overlay request that is not refused asks the upstreams for a path under
    the version's overlay directory, whatever [.], [..] and empty segments it
    was written with; a patch request asks for the named file of the patches
    directory. *)
Theorem overlay_confined m v o p :
  plain m → plain v →
  (overlayPath m v o = Some p →
    ∃ ds, Forall plain ds ∧ p = Join (["modules"; m; v; "overlay"] ++ ds) "/") ∧
  (plain o → patchPath m v o = Some p → p = Join ["modules"; m; v; "patches"; o] "/").
Proof.
  intros Hm Hv. split.
  - unfold overlayPath. destruct (HasPrefix (path_clean o) "..") eqn:Hdd; [done|].
    destruct (HasPrefix (path_clean o) "/") eqn:Hsl; [done|]. simpl orb. cbv iota. intros [= <-].
    unfold path_clean in *. destruct (HasPrefix o "/") eqn:Hroot.
    { unfold clean_rooted in Hsl. exfalso. unfold HasPrefix in Hsl.
      apply bool_decide_eq_false in Hsl. apply Hsl. rewrite to_bytes_app. by eexists. }
    destruct (rel_step_shape (segs o) [] 0 (segs_ok o) ltac:(constructor)) as (n & ds & E & Hds).
    simpl in E. rewrite E in *. destruct n as [|n].
    + exists ds. split; [done|].
      destruct ds as [|d ds]; exact (path_join_base m v "overlay" _ Hm Hv ltac:(by apply plain_lit) Hds).
    + exfalso. unfold HasPrefix in Hdd. apply bool_decide_eq_false in Hdd. apply Hdd.
      simpl. destruct (replicate n ".." ++ ds); [by exists []|]. rewrite to_bytes_app. by eexists.
  - intros Ho. unfold patchPath. destruct (ContainsAny o _); [done|]. intros [= <-].
    exact (path_join_base m v "patches" [o] Hm Hv ltac:(by apply plain_lit) ltac:(by constructor)).
Qed.

(** ** A concrete federation

    Two upstreams, probed in parallel, the second answering first. *)
Definition demo_upstreams : list Upstream :=
  [mkUpstream "https://a.corp" ""; mkUpstream "https://b.corp" "Basic Zm9v"].
Definition demo_path : string := "modules/rules_go/0.50.1/source.json".
Definition demo_sched : list probe_ev := [EvLook 0 0; EvLook 1 0; EvFinish 1 5; EvFinish 0 6].

(** One upstream has no such version and the other is down. *)
Definition demo_mixed (i : nat) (_ _ : string) : httpOutcome :=
  if decide (i = 0) then HttpErr "connection refused" else HttpResp 404 [] None.

(** Both upstreams have it. *)
Definition demo_both (i : nat) (_ _ : string) : httpOutcome :=
  HttpResp 200 (to_bytes (if decide (i = 0) then "A" else "B")) None.

Lemma demo_complete http :
  http = demo_mixed ∨ http = demo_both →
  complete demo_upstreams true http demo_path demo_sched (newResponseCache 10).
Proof. intros [->| ->]; (split; [reflexivity|vm_compute; reflexivity]). Qed.

Lemma cascade_answer_witness :
  complete demo_upstreams true demo_mixed demo_path demo_sched (newResponseCache 10) ∧
  (cascadeGet demo_upstreams false true true demo_mixed (Err ErrNotFound) demo_path 0 demo_sched
     (λ n, Z.of_nat n) (newResponseCache 10) emptyLog).1 = Err ErrNotFound.
Proof.
  split; [apply demo_complete; by left|].
  destruct (cascade_answer demo_upstreams false true true demo_mixed (Err ErrNotFound) demo_path 0
    demo_sched (λ n, Z.of_nat n) (newResponseCache 10) emptyLog (demo_complete _ (or_introl eq_refl)))
    as [_ [(i & b & _ & Hout)|(_ & [[Hout _]|[Hout _]])]].
  - exfalso. vm_compute in Hout. discriminate Hout.
  - exact Hout.
  - exfalso. vm_compute in Hout. discriminate Hout.
Defined.

(** The promotion hook is called for each upstream that answers 200, the ones
    that did not win included. *)
Example loser_promotes :
  p_promoted (run_probes demo_upstreams true demo_both demo_path demo_sched (newResponseCache 10)) =
    [("rules_go", "0.50.1"); ("rules_go", "0.50.1")].
Proof. vm_compute. reflexivity. Qed.

(** The second upstream's body is served and the first one is logged as shadowed. *)
Example first_to_arrive :
  (cascadeGet demo_upstreams false true true demo_both (Err ErrNotFound) demo_path 0 demo_sched
     (λ n, Z.of_nat n) (newResponseCache 10) emptyLog).1 = Ok (to_bytes "B").
Proof. vm_compute. reflexivity. Qed.

Lemma collision_coalesced_witness :
  StronglySorted (λ a b, a.1 ≤ b.1)%Z
    [(0, mkCollision "m" "1" "local" CollisionKindLocal);
     (5, mkCollision "m" "1" "local" CollisionKindLocal)]%Z ∧
  spaced (cl_hooked (run_log true
    [(0, mkCollision "m" "1" "local" CollisionKindLocal);
     (5, mkCollision "m" "1" "local" CollisionKindLocal)]%Z emptyLog)).
Proof.
  assert (StronglySorted (λ a b, a.1 ≤ b.1)%Z
    [(0, mkCollision "m" "1" "local" CollisionKindLocal);
     (5, mkCollision "m" "1" "local" CollisionKindLocal)]%Z) as H.
  { repeat constructor. simpl. lia. }
  split; [exact H|]. exact (proj1 (proj2 (collision_coalesced _ H))).
Defined.

Lemma overlay_confined_witness :
  (plain "m" ∧ plain "1.0") ∧ ∃ ds, Forall plain ds ∧
    "modules/m/1.0/overlay/b/BUILD" = Join (["modules"; "m"; "1.0"; "overlay"] ++ ds) "/".
Proof.
  assert (plain "m") as Hm by by apply plain_lit. assert (plain "1.0") as Hv by by apply plain_lit.
  split; [done|]. apply (overlay_confined "m" "1.0" "a/../b//./BUILD" "modules/m/1.0/overlay/b/BUILD" Hm Hv).
  vm_compute. reflexivity.
Defined.
