(* ===== verification/Ingest.v ===== *)
(** * The recursive ingest walk

    [internal/ingest/recursive.go]: one coordinator and a pool of workers walk
    the dependency closure of a module.  The goroutines meet on two buffered
    channels, so the walk is a transition system: [step] is one send, receive or
    fetch by one goroutine.  What a fetch returns is the function [walkOne]. *)

From S2P Require Import Prelude Strings Report Archive.

Record moduleKey := mkKey { name : string; version : string }.

#[export] Instance moduleKey_eq_dec : EqDecision moduleKey.
Proof. solve_decision. Defined.

(** The map key of the visited set, [k.name + "@" + k.version]. *)
Definition key_string (k : moduleKey) : string := name k +:+ "@" +:+ version k.

(** [parseDeps], after [moduledeps.FromModuleBazel]. *)
Definition walkable (d : ModuleKey) : bool :=
  negb (mk_DevDependency d) && bool_decide (TrimSpace (mk_Name d) ≠ "") &&
  bool_decide (TrimSpace (mk_Version d) ≠ "").

Definition parseDeps (parsed : result string (list ModuleKey)) : result string (list moduleKey) :=
  (λ all : list ModuleKey,
    (λ d, mkKey (mk_Name d) (mk_Version d)) <$> filter (λ d, walkable d = true) all) <$> parsed.

Record discovery := mkDiscovery {
  d_Key : moduleKey;
  d_Result : result string (list moduleKey);
}.

Inductive RecursiveEvent : Type :=
| EvEnter (k : moduleKey)
| EvSkip (k : moduleKey)
| EvDone (k : moduleKey) (deps : nat)
| EvError (k : moduleKey) (err : string).

Record Result := mkResult {
  res_Visited : nat;
  res_Mirrored : nat;
  res_Errors : list (moduleKey * string);
}.

(** What one worker is doing. *)
Inductive worker : Type :=
| Idle
| Walking (k : moduleKey)
| Sending (d : discovery).

(** The coordinator's variables, the channels and the workers. *)
Record walk := mkWalk {
  visited : gset string;
  pending : list moduleKey;
  res : Result;
  inflight : nat;
  events : list RecursiveEvent;
  jobs : list moduleKey;
  discoveries : list discovery;
  workers : list worker;
}.

(** [enqueue] *)
Definition enqueue (s : walk) (k : moduleKey) : walk :=
  if decide (key_string k ∈ visited s) then
    mkWalk (visited s) (pending s) (res s) (inflight s) (events s ++ [EvSkip k]) (jobs s)
      (discoveries s) (workers s)
  else
    mkWalk ({[key_string k]} ∪ visited s) (pending s ++ [k])
      (mkResult (S (res_Visited (res s))) (res_Mirrored (res s)) (res_Errors (res s)))
      (S (inflight s)) (events s ++ [EvEnter k]) (jobs s) (discoveries s) (workers s).

(** [inflight--; handle(...)] *)
Definition handle (s : walk) (d : discovery) : walk :=
  match d_Result d with
  | Err e =>
      mkWalk (visited s) (pending s)
        (mkResult (res_Visited (res s)) (res_Mirrored (res s)) (res_Errors (res s) ++ [(d_Key d, e)]))
        (inflight s - 1) (events s ++ [EvError (d_Key d) e]) (jobs s) (discoveries s) (workers s)
  | Ok deps =>
      foldl enqueue
        (mkWalk (visited s) (pending s)
          (mkResult (res_Visited (res s)) (S (res_Mirrored (res s))) (res_Errors (res s)))
          (inflight s - 1) (events s ++ [EvDone (d_Key d) (length deps)]) (jobs s) (discoveries s)
          (workers s))
        deps
  end.

Section ingest.
Context (walkOne : moduleKey → result string (list moduleKey)).
(** [opts.Workers] after the default, and the seeds: the root and Bazel's own
    tools when asked for. *)
Context (nworkers : nat) (seeds : list moduleKey).

(** The capacity of both channels, [workers*2]. *)
Definition chan_cap : nat := nworkers * 2.

Definition start : walk :=
  foldl enqueue (mkWalk ∅ [] (mkResult 0 0 []) 0 [] [] [] (replicate nworkers Idle)) seeds.

Definition set_workers (s : walk) (jobs' : list moduleKey) (ds : list discovery) (ws : list worker) : walk :=
  mkWalk (visited s) (pending s) (res s) (inflight s) (events s) jobs' ds ws.

Inductive step (s : walk) : walk → Prop :=
| step_dispatch k rest :
    0 < inflight s → pending s = k :: rest → length (jobs s) < chan_cap →
    step s (mkWalk (visited s) rest (res s) (inflight s) (events s) (jobs s ++ [k]) (discoveries s)
              (workers s))
| step_absorb d rest :
    0 < inflight s → discoveries s = d :: rest →
    step s (handle (set_workers s (jobs s) rest (workers s)) d)
| step_take w k rest :
    workers s !! w = Some Idle → jobs s = k :: rest →
    step s (set_workers s rest (discoveries s) (<[w := Walking k]> (workers s)))
| step_walk w k :
    workers s !! w = Some (Walking k) →
    step s (set_workers s (jobs s) (discoveries s)
              (<[w := Sending (mkDiscovery k (walkOne k))]> (workers s)))
| step_send w d :
    workers s !! w = Some (Sending d) → length (discoveries s) < chan_cap →
    step s (set_workers s (jobs s) (discoveries s ++ [d]) (<[w := Idle]> (workers s))).

(** [n] steps from [s]. *)
Inductive steps : nat → walk → walk → Prop :=
| steps_refl s : steps 0 s s
| steps_snoc n s s' s'' : steps n s s' → step s' s'' → steps (S n) s s''.

(** The coordinator's loop is over. *)
Definition finished (s : walk) : Prop := inflight s = 0.

(** ** The closure being walked *)

(** Reached from the seeds through fetches that succeed. *)
Inductive in_closure : moduleKey → Prop :=
| closure_seed k : k ∈ seeds → in_closure k
| closure_dep k deps d : in_closure k → walkOne k = Ok deps → d ∈ deps → in_closure d.

(** ** Where the modules are *)

Definition busy (w : worker) : list moduleKey :=
  match w with Idle => [] | Walking k => [k] | Sending d => [d_Key d] end.

(** Entered and not yet handled. *)
Definition open_keys (s : walk) : list moduleKey :=
  pending s ++ jobs s ++ (workers s ≫= busy) ++ (d_Key <$> discoveries s).

(** Handled, in order. *)
Definition handled (s : walk) : list moduleKey :=
  omap (λ e, match e with EvDone k _ | EvError k _ => Some k | _ => None end) (events s).

Definition entered (s : walk) : list moduleKey :=
  omap (λ e, match e with EvEnter k => Some k | _ => None end) (events s).

Definition discovery_ok (d : discovery) : Prop := d_Result d = walkOne (d_Key d).
Definition worker_ok (w : worker) : Prop :=
  match w with Sending d => discovery_ok d | _ => True end.

Definition event_ok (e : RecursiveEvent) : Prop :=
  match e with
  | EvDone k n => ∃ deps, walkOne k = Ok deps ∧ n = length deps
  | EvError k err => walkOne k = Err err
  | _ => True
  end.

(** ** Invariant *)

Definition keys (s : walk) : list moduleKey := open_keys s ++ handled s.

(** [todo]: what is still to be entered in the middle of a [handle]. *)
Record walk_inv (todo : list moduleKey) (s : walk) : Prop := {
  wi_inflight : inflight s = length (open_keys s);
  wi_unique : NoDup (key_string <$> keys s);
  wi_visited x : x ∈ visited s ↔ x ∈ key_string <$> keys s;
  wi_entered : entered s ≡ₚ keys s;
  wi_closure k : k ∈ keys s ++ todo → in_closure k;
  wi_seeds k : k ∈ seeds → key_string k ∈ visited s ∨ k ∈ todo;
  wi_deps k deps d :
    k ∈ handled s → walkOne k = Ok deps → d ∈ deps → key_string d ∈ visited s ∨ d ∈ todo;
  wi_discoveries : Forall discovery_ok (discoveries s);
  wi_workers : Forall worker_ok (workers s);
  wi_events : Forall event_ok (events s);
  wi_pool : length (workers s) = nworkers;
  wi_count : res_Visited (res s) = length (entered s);
  wi_mirrored : res_Mirrored (res s) + length (res_Errors (res s)) = length (handled s);
  wi_errors : res_Errors (res s) =
    omap (λ e, match e with EvError k err => Some (k, err) | _ => None end) (events s);
}.

Lemma handled_app s s' l :
  events s' = events s ++ l →
  handled s' = handled s ++ omap (λ e, match e with EvDone k _ | EvError k _ => Some k | _ => None end) l.
Proof. unfold handled. intros ->. by rewrite omap_app. Qed.

Lemma entered_app s s' l :
  events s' = events s ++ l →
  entered s' = entered s ++ omap (λ e, match e with EvEnter k => Some k | _ => None end) l.
Proof. unfold entered. intros ->. by rewrite omap_app. Qed.

Lemma enqueue_inv todo s k : walk_inv (k :: todo) s → walk_inv todo (enqueue s k).
Proof.
  intros [H1 H2 H3 H4 H5 H6 H7 H8 H9 H10 H11 H12 H13 H14]. unfold enqueue. case_decide as Hk.
  - assert (handled (mkWalk (visited s) (pending s) (res s) (inflight s) (events s ++ [EvSkip k])
      (jobs s) (discoveries s) (workers s)) = handled s) as Hh
      by (unfold handled; simpl; by rewrite omap_app, app_nil_r).
    assert (entered (mkWalk (visited s) (pending s) (res s) (inflight s) (events s ++ [EvSkip k])
      (jobs s) (discoveries s) (workers s)) = entered s) as He
      by (unfold entered; simpl; by rewrite omap_app, app_nil_r).
    split; unfold keys in *; rewrite ?Hh, ?He; simpl; try done.
    + intros k' Hk'. apply H5. rewrite !elem_of_app in *. rewrite elem_of_cons. tauto.
    + intros k' Hk'. destruct (H6 k' Hk') as [?|[->|?]%elem_of_cons]; auto.
    + intros k' deps d ? ? ?. destruct (H7 k' deps d) as [?|[->|?]%elem_of_cons]; auto.
    + apply Forall_app. split; [done|]. by repeat constructor.
    + rewrite H14, omap_app. simpl. by rewrite app_nil_r.
  - set (s' := mkWalk _ _ _ _ _ _ _ _).
    assert (handled s' = handled s) as Hh by (unfold handled; simpl; by rewrite omap_app, app_nil_r).
    assert (entered s' = entered s ++ [k]) as He by by apply (entered_app s s' [EvEnter k]).
    assert (open_keys s' ≡ₚ k :: open_keys s) as Ho.
    { unfold open_keys. simpl. rewrite <-!app_assoc. simpl. by rewrite <-Permutation_middle. }
    assert (keys s' ≡ₚ k :: keys s) as Hkeys by (unfold keys; by rewrite Hh, Ho).
    split; try done.
    + simpl. by rewrite Ho, H1.
    + rewrite Hkeys. simpl. constructor; [by rewrite <-H3|done].
    + intros x. rewrite Hkeys. simpl. rewrite elem_of_union, elem_of_singleton, elem_of_cons, H3. done.
    + by rewrite He, Hkeys, H4, Permutation_app_comm.
    + intros k' Hk'. apply H5. rewrite Hkeys in Hk'. rewrite !elem_of_app, !elem_of_cons in *. tauto.
    + intros k' Hk'. simpl. destruct (H6 k' Hk') as [?|[->|?]%elem_of_cons]; set_solver.
    + intros k' deps d. rewrite Hh. simpl. intros ? ? ?.
      destruct (H7 k' deps d) as [?|[->|?]%elem_of_cons]; set_solver.
    + simpl. apply Forall_app. split; [done|]. by repeat constructor.
    + simpl. rewrite He, length_app. simpl. lia.
    + simpl. by rewrite Hh.
    + simpl. rewrite H14, omap_app. simpl. by rewrite app_nil_r.
Qed.

Lemma enqueue_all_inv todo s : walk_inv todo s → walk_inv [] (foldl enqueue s todo).
Proof.
  revert s. induction todo as [|k todo IH]; intros s H; [done|]. simpl. apply IH. by apply enqueue_inv.
Qed.

Lemma replicate_idle n : (replicate n Idle ≫= busy) = [].
Proof. induction n as [|n IH]; done. Qed.

Lemma start_pre_inv :
  walk_inv seeds (mkWalk ∅ [] (mkResult 0 0 []) 0 [] [] [] (replicate nworkers Idle)).
Proof.
  assert (open_keys (mkWalk ∅ [] (mkResult 0 0 []) 0 [] [] [] (replicate nworkers Idle)) = []) as Ho
    by (unfold open_keys; simpl; by rewrite replicate_idle).
  split; unfold keys; rewrite ?Ho; simpl; try done.
  - constructor.
  - intros x. by rewrite elem_of_empty, elem_of_nil.
  - intros k Hk. by apply closure_seed.
  - by right.
  - by intros k deps d ?%elem_of_nil.
  - by apply Forall_replicate.
  - apply length_replicate.
Qed.

Lemma start_inv : walk_inv [] start.
Proof. apply enqueue_all_inv, start_pre_inv. Qed.

(** A step that only moves modules between the queues and the workers. *)
Lemma inv_move s s' :
  visited s' = visited s → res s' = res s → inflight s' = inflight s → events s' = events s →
  open_keys s' ≡ₚ open_keys s → Forall discovery_ok (discoveries s') → Forall worker_ok (workers s') →
  length (workers s') = length (workers s) → walk_inv [] s → walk_inv [] s'.
Proof.
  intros Ev Er Ei Ee Ho Hd Hw Hl [H1 H2 H3 H4 H5 H6 H7 H8 H9 H10 H11 H12 H13 H14].
  assert (handled s' = handled s) as Hh by (unfold handled; by rewrite Ee).
  assert (entered s' = entered s) as He by (unfold entered; by rewrite Ee).
  assert (keys s' ≡ₚ keys s) as Hk by (unfold keys; by rewrite Hh, Ho).
  split; rewrite ?Ev, ?Er, ?Ei, ?Hh, ?He; try done.
  - by rewrite Ho.
  - by rewrite Hk.
  - intros x. by rewrite Hk.
  - by rewrite Hk.
  - intros k. rewrite Hk. apply H5.
  - by rewrite Ee.
  - by rewrite Hl.
  - by rewrite Ee.
Qed.

Lemma busy_insert (ws : list worker) w x y :
  ws !! w = Some x → (<[w := y]> ws ≫= busy) ++ busy x ≡ₚ (ws ≫= busy) ++ busy y.
Proof.
  intros Hw. apply list_elem_of_split_length in Hw as (l1 & l2 & -> & ->).
  rewrite insert_app_r_alt, Nat.sub_diag by lia. simpl. rewrite !bind_app. csimpl. solve_Permutation.
Qed.

(** Taking discovery [d] out and recording it as [ev] leaves the modules [ks] to
    be entered. *)
Lemma record_inv s d rest r ev ks :
  walk_inv [] s → discoveries s = d :: rest →
  res_Visited r = res_Visited (res s) → event_ok ev →
  omap (λ e, match e with EvDone k _ | EvError k _ => Some k | _ => None end) [ev] = [d_Key d] →
  omap (λ e, match e with EvEnter k => Some k | _ => None end) [ev] = [] →
  res_Mirrored r + length (res_Errors r) = S (res_Mirrored (res s) + length (res_Errors (res s))) →
  res_Errors r = res_Errors (res s) ++
    omap (λ e, match e with EvError k err => Some (k, err) | _ => None end) [ev] →
  (∀ deps, walkOne (d_Key d) = Ok deps → deps = ks) → (∀ k, k ∈ ks → in_closure k) →
  walk_inv ks (mkWalk (visited s) (pending s) r (inflight s - 1) (events s ++ [ev]) (jobs s) rest
                 (workers s)).
Proof.
  intros [H1 H2 H3 H4 H5 H6 H7 H8 H9 H10 H11 H12 H13 H14] Hd Hr Hev Hhev Heev Hm Herr Hks Hksc.
  assert (Forall discovery_ok rest) as Hrest.
  { rewrite Hd in H8. by apply Forall_cons in H8 as [_ ?]. }
  assert (open_keys s ≡ₚ d_Key d :: open_keys (set_workers s (jobs s) rest (workers s))) as Ho.
  { unfold open_keys. simpl. rewrite Hd. csimpl. solve_Permutation. }
  set (s' := mkWalk _ _ _ _ _ _ _ _).
  assert (handled s' = handled s ++ [d_Key d]) as Hh by (rewrite <-Hhev; by apply handled_app).
  assert (entered s' = entered s) as He.
  { rewrite (entered_app s s' [ev]), Heev by done. by rewrite app_nil_r. }
  assert (keys s' ≡ₚ keys s) as Hk.
  { unfold keys. rewrite Hh, Ho. rewrite (Permutation_app_comm (handled s)). simpl.
    by rewrite <-Permutation_middle. }
  split; rewrite ?He; try done.
  - simpl. rewrite H1, Ho. simpl. unfold open_keys. simpl. lia.
  - by rewrite Hk.
  - intros x. by rewrite Hk.
  - by rewrite Hk.
  - intros k [Hkk|Hkk]%elem_of_app; [|auto]. apply H5. rewrite app_nil_r. by rewrite <-Hk.
  - intros k Hs. left. by destruct (H6 k Hs) as [?|?%elem_of_nil].
  - intros k deps d'. rewrite Hh. intros [Hin|Hin]%elem_of_app Hw Hd'.
    + left. by destruct (H7 k deps d' Hin Hw Hd') as [?|?%elem_of_nil].
    + apply list_elem_of_singleton in Hin as ->. right. by rewrite <-(Hks deps Hw).
  - simpl. apply Forall_app. split; [done|]. by repeat constructor.
  - simpl. congruence.
  - rewrite Hh, length_app. simpl. rewrite Hm, H13. lia.
  - simpl. by rewrite Herr, H14, omap_app.
Qed.

(** Both branches of [handle] are [record_inv] followed by the new modules. *)
Lemma handle_cases s d rest :
  walk_inv [] s → discoveries s = d :: rest →
  ∃ r ev ks, let base := mkWalk (visited s) (pending s) r (inflight s - 1) (events s ++ [ev]) (jobs s)
                           rest (workers s) in
    walk_inv ks base ∧ handle (set_workers s (jobs s) rest (workers s)) d = foldl enqueue base ks.
Proof.
  intros Hinv Hd.
  assert (in_closure (d_Key d)) as Hc.
  { apply (wi_closure _ _ Hinv). rewrite app_nil_r. unfold keys, open_keys. rewrite Hd. csimpl. set_solver. }
  pose proof (wi_discoveries _ _ Hinv) as Hok. rewrite Hd in Hok. apply Forall_cons in Hok as [Hok _].
  unfold handle. unfold discovery_ok in Hok. destruct (d_Result d) as [deps|e]; symmetry in Hok.
  - eexists _, (EvDone (d_Key d) (length deps)), deps. split; [|done].
    apply (record_inv s d); try done; simpl; [eauto|by rewrite app_nil_r|congruence|].
    intros k Hk. by eapply closure_dep.
  - eexists _, (EvError (d_Key d) e), []. split; [|done].
    apply (record_inv s d); try done; simpl; [rewrite length_app; simpl; lia|congruence|].
    by intros k ?%elem_of_nil.
Qed.

Lemma handle_inv s d rest :
  walk_inv [] s → discoveries s = d :: rest → walk_inv [] (handle (set_workers s (jobs s) rest (workers s)) d).
Proof.
  intros Hinv Hd. destruct (handle_cases s d rest Hinv Hd) as (r & ev & ks & Hb & ->).
  by apply enqueue_all_inv.
Qed.

Lemma ingest_step_inv s s' : walk_inv [] s → step s s' → walk_inv [] s'.
Proof.
  intros Hinv Hs. pose proof (wi_discoveries _ _ Hinv) as Hd. pose proof (wi_workers _ _ Hinv) as Hw.
  destruct Hs as [k rest Hi Hp Hj|d rest Hi Hd'|w k rest Hidle Hj|w k Hwalk|w d Hsend Hlt].
  - apply (inv_move s); try done. unfold open_keys. simpl. rewrite Hp. solve_Permutation.
  - by apply handle_inv.
  - apply (inv_move s); try done; simpl; [|by apply Forall_insert|by rewrite length_insert].
    pose proof (busy_insert _ _ _ (Walking k) Hidle) as Hb. simpl in Hb. rewrite app_nil_r in Hb.
    unfold open_keys. simpl. rewrite Hb, Hj. solve_Permutation.
  - apply (inv_move s); try done; simpl; [|by apply Forall_insert|by rewrite length_insert].
    pose proof (busy_insert _ _ _ (Sending (mkDiscovery k (walkOne k))) Hwalk) as Hb. simpl in Hb.
    apply (inj (.++ [k])) in Hb. unfold open_keys. simpl. by rewrite Hb.
  - assert (discovery_ok d) as Hok by exact (Forall_lookup_1 _ _ _ _ Hw Hsend).
    apply (inv_move s); try done; simpl;
      [|apply Forall_app; by repeat constructor|by apply Forall_insert|by rewrite length_insert].
    pose proof (busy_insert _ _ _ Idle Hsend) as Hb. simpl in Hb. rewrite app_nil_r in Hb.
    unfold open_keys. simpl. rewrite <-Hb, fmap_app. simpl. solve_Permutation.
Qed.

Lemma steps_inv n s : steps n start s → walk_inv [] s.
Proof.
  remember start as s0 eqn:E. induction 1 as [s|n s s' s'' _ IH Hs]; subst; [apply start_inv|].
  eapply ingest_step_inv; [|done]. auto.
Qed.

(** ** Progress *)

Lemma idle_or_busy (ws : list worker) : (∀ w, w ∈ ws → w = Idle) ∨ ∃ w x, ws !! w = Some x ∧ x ≠ Idle.
Proof.
  induction ws as [|x ws IH]; [left; by intros w ?%elem_of_nil|].
  destruct x as [|k|d]; [|right; by exists 0, (Walking k)|right; by exists 0, (Sending d)].
  destruct IH as [H|(w & x & Hw & Hx)]; [left|right; by exists (S w), x].
  intros w [->|Hw]%elem_of_cons; auto.
Qed.

Lemma all_idle_busy (ws : list worker) : (∀ w, w ∈ ws → w = Idle) → (ws ≫= busy) = [].
Proof.
  induction ws as [|x ws IH]; intros H; [done|]. csimpl. rewrite (H x) by by left.
  apply IH. intros w Hw. apply H. by right.
Qed.

Lemma progress s : 0 < nworkers → walk_inv [] s → ¬ finished s → ∃ s', step s s'.
Proof.
  intros Hn Hinv Hf. unfold finished in Hf.
  destruct (discoveries s) as [|d rest] eqn:Hd; [|eexists; apply step_absorb; [lia|done]].
  destruct (idle_or_busy (workers s)) as [Hidle|(w & [|k|d] & Hw & Hne)]; [|done|..].
  2: { eexists. by eapply step_walk. }
  2: { eexists. eapply step_send; [done|]. rewrite Hd. unfold chan_cap. simpl. lia. }
  pose proof (wi_inflight _ _ Hinv) as Hi. unfold open_keys in Hi.
  rewrite all_idle_busy, Hd in Hi by done. simpl in Hi. rewrite app_nil_r in Hi.
  assert (∃ w, workers s !! w = Some Idle) as [w Hw].
  { pose proof (wi_pool _ _ Hinv) as Hp. destruct (workers s) as [|w ws]; [simpl in Hp; lia|].
    exists 0. simpl. f_equal. apply Hidle. by left. }
  destruct (jobs s) as [|k rest] eqn:Hj; [|eexists; by eapply step_take].
  destruct (pending s) as [|k rest] eqn:Hp; [simpl in Hi; lia|].
  eexists. eapply step_dispatch; [lia|done|]. rewrite Hj. unfold chan_cap. simpl. lia.
Qed.

(** ** Termination

    Each module passes through five stations; entering one more costs a key of
    the finite universe. *)
Definition weight (w : worker) : nat := match w with Idle => 0 | Walking _ => 3 | Sending _ => 2 end.

Definition pool_weight (ws : list worker) : nat := sum_list (weight <$> ws).

Definition stations (s : walk) : nat :=
  5 * length (pending s) + 4 * length (jobs s) + pool_weight (workers s) + length (discoveries s).

Lemma pool_weight_insert ws w x y :
  ws !! w = Some x → pool_weight (<[w := y]> ws) + weight x = pool_weight ws + weight y.
Proof.
  unfold pool_weight. revert w. induction ws as [|z ws IH]; intros [|w] Hw; simplify_eq/=; [lia|].
  specialize (IH _ Hw). lia.
Qed.

Section universe.
Context (U : gset string).
Hypothesis closure_in_U : ∀ k, in_closure k → key_string k ∈ U.

Definition budget (s : walk) : nat := 6 * (size U - size (visited s)) + stations s.

Lemma visited_in_U todo s : walk_inv todo s → visited s ⊆ U.
Proof.
  intros Hinv x. rewrite (wi_visited _ _ Hinv). intros (k & -> & Hk)%list_elem_of_fmap.
  apply closure_in_U, (wi_closure _ _ Hinv). apply elem_of_app. by left.
Qed.

Lemma enqueue_budget todo s k : walk_inv (k :: todo) s → budget (enqueue s k) ≤ budget s.
Proof.
  intros Hinv. pose proof (visited_in_U _ _ (enqueue_inv _ _ _ Hinv)) as Hsub.
  unfold enqueue in *. case_decide as Hk; [done|]. simpl in Hsub. apply subseteq_size in Hsub.
  rewrite size_union, size_singleton in Hsub by set_solver.
  unfold budget, stations. simpl. rewrite size_union, size_singleton, length_app by set_solver. simpl. lia.
Qed.

Lemma enqueue_all_budget todo s : walk_inv todo s → budget (foldl enqueue s todo) ≤ budget s.
Proof.
  revert s. induction todo as [|k todo IH]; intros s H; [done|]. simpl.
  pose proof (enqueue_budget _ _ _ H). specialize (IH _ (enqueue_inv _ _ _ H)). lia.
Qed.

Lemma step_budget s s' : walk_inv [] s → step s s' → budget s' < budget s.
Proof.
  intros Hinv Hs. destruct Hs as [k rest Hi Hp Hj|d rest Hi Hd|w k rest Hidle Hj|w k Hwalk|w d Hsend Hlt].
  - unfold budget, stations. simpl. rewrite Hp, length_app. simpl. lia.
  - destruct (handle_cases s d rest Hinv Hd) as (r & ev & ks & Hb & ->).
    eapply Nat.le_lt_trans; [by apply enqueue_all_budget|].
    unfold budget, stations. simpl. rewrite Hd. simpl. lia.
  - pose proof (pool_weight_insert _ _ _ (Walking k) Hidle) as Hw. simpl in Hw.
    unfold budget, stations. simpl. rewrite Hj. simpl. lia.
  - pose proof (pool_weight_insert _ _ _ (Sending (mkDiscovery k (walkOne k))) Hwalk) as Hw. simpl in Hw.
    unfold budget, stations. simpl. lia.
  - pose proof (pool_weight_insert _ _ _ Idle Hsend) as Hw. simpl in Hw.
    unfold budget, stations. simpl. rewrite length_app. simpl. lia.
Qed.

Lemma start_budget : budget start ≤ 6 * size U.
Proof.
  unfold start. etrans; [eapply enqueue_all_budget|].
  - pose proof start_pre_inv. done.
  - unfold budget, stations. simpl. unfold pool_weight.
    assert (sum_list (weight <$> replicate nworkers Idle) = 0) as ->; [|lia].
    induction nworkers as [|n IH]; [done|done].
Qed.

Lemma steps_budget n s : steps n start s → n + budget s ≤ 6 * size U.
Proof.
  intros Hs. remember start as s0 eqn:E. induction Hs as [s|n s s' s'' Hs' IH Hstep]; subst.
  - pose proof start_budget. lia.
  - specialize (IH eq_refl). apply steps_inv in Hs'. pose proof (step_budget _ _ Hs' Hstep). lia.
Qed.

(** C24: The walk ends and never blocks: when the closure has finitely many modules, no
    interleaving of the coordinator, the workers and the two bounded channels
    makes more than six steps per module, and as long as the coordinator's loop
    is not over some goroutine can move; so every maximal run ends the loop. *)
Theorem ingest_terminates :
  0 < nworkers →
  (∀ n s, steps n start s → n ≤ 6 * size U) ∧
  (∀ n s, steps n start s → finished s ∨ ∃ s', step s s') ∧
  ∃ n s, steps n start s ∧ finished s.
Proof.
  intros Hn. split_and!.
  - intros n s Hs. pose proof (steps_budget n s Hs). lia.
  - intros n s Hs. destruct (decide (inflight s = 0)); [by left|right].
    apply progress; [done|by eapply steps_inv|done].
  - assert (∀ m n s, steps n start s → 6 * size U - n ≤ m → ∃ n' s', steps n' start s' ∧ finished s') as H.
    { induction m as [|m IH]; intros n s Hs Hm.
      - destruct (decide (inflight s = 0)); [by exists n, s|].
        destruct (progress s Hn (steps_inv _ _ Hs)) as [s' Hs']; [done|].
        pose proof (steps_budget _ _ (steps_snoc _ _ _ _ Hs Hs')). lia.
      - destruct (decide (inflight s = 0)); [by exists n, s|].
        destruct (progress s Hn (steps_inv _ _ Hs)) as [s' Hs']; [done|].
        apply (IH (S n) s'); [by eapply steps_snoc|lia]. }
    apply (H (6 * size U) 0 start); [constructor|lia].
Qed.
End universe.

(** ** What the walk has done *)

(** Module names have no ["@"]. *)
Definition name_ok (k : moduleKey) : Prop := "@"%char ∉ to_bytes (name k).

Lemma key_string_inj k k' : name_ok k → name_ok k' → key_string k = key_string k' → k = k'.
Proof.
  intros Hk Hk' E. apply (f_equal to_bytes) in E. unfold key_string in E.
  rewrite !to_bytes_app in E. change (to_bytes "@") with ["@"%char] in E. simpl in E.
  assert (cut_at "@"%char (to_bytes (name k) ++ "@"%char :: to_bytes (version k)) =
    Some (to_bytes (name k), to_bytes (version k))) as H1 by by apply cut_at_iff.
  assert (cut_at "@"%char (to_bytes (name k') ++ "@"%char :: to_bytes (version k')) =
    Some (to_bytes (name k'), to_bytes (version k'))) as H2 by by apply cut_at_iff.
  rewrite E, H2 in H1. injection H1 as En Ev. apply to_bytes_inj in En, Ev. destruct k, k'; simpl in *. congruence.
Qed.

Lemma closure_handled s :
  (∀ k, in_closure k → name_ok k) → walk_inv [] s → finished s → ∀ k, in_closure k → k ∈ handled s.
Proof.
  intros Hok Hinv Hf. assert (keys s = handled s) as Hk.
  { unfold keys. pose proof (wi_inflight _ _ Hinv) as Hi. rewrite Hf in Hi. by destruct (open_keys s). }
  assert (∀ k, in_closure k → key_string k ∈ visited s → k ∈ handled s) as Hv.
  { intros k Hc. rewrite (wi_visited _ _ Hinv), Hk. intros (k' & E & Hk')%list_elem_of_fmap.
    apply key_string_inj in E as ->; [done|by apply Hok|]. apply Hok, (wi_closure _ _ Hinv).
    rewrite app_nil_r. by rewrite Hk. }
  intros k Hc. induction Hc as [k Hs|k deps d Hc IH Hw Hd].
  - apply Hv; [by apply closure_seed|]. by destruct (wi_seeds _ _ Hinv k Hs) as [?|?%elem_of_nil].
  - apply Hv; [by eapply closure_dep|].
    by destruct (wi_deps _ _ Hinv k deps d IH Hw Hd) as [?|?%elem_of_nil].
Qed.

Lemma NoDup_handled s : walk_inv [] s → NoDup (handled s).
Proof.
  intros Hinv. pose proof (wi_unique _ _ Hinv) as H. unfold keys in H. rewrite fmap_app in H.
  apply NoDup_app in H as (_ & _ & H). by apply NoDup_fmap_1 in H.
Qed.

(** C25: When the walk is over it has processed exactly the dependency closure of the
    seeds through the fetches that succeeded, every module once whatever the
    interleaving: each was entered once, is done with its number of
    dependencies or failed with its error, failures end only their own subtree,
    and the summary counts them. *)
Theorem ingest_complete n s :
  (∀ k, in_closure k → name_ok k) → steps n start s → finished s →
  NoDup (handled s) ∧ (∀ k, k ∈ handled s ↔ in_closure k) ∧ entered s ≡ₚ handled s ∧
  Forall event_ok (events s) ∧
  (∀ k e, (k, e) ∈ res_Errors (res s) ↔ in_closure k ∧ walkOne k = Err e) ∧
  res_Visited (res s) = length (handled s) ∧
  res_Mirrored (res s) = length (handled s) - length (res_Errors (res s)).
Proof.
  intros Hok Hs Hf. apply steps_inv in Hs as Hinv.
  assert (keys s = handled s) as Hk.
  { unfold keys. pose proof (wi_inflight _ _ Hinv) as Hi. rewrite Hf in Hi. by destruct (open_keys s). }
  assert (∀ k, k ∈ handled s ↔ in_closure k) as Hin.
  { intros k. split; [|by apply closure_handled].
    intros Hh. apply (wi_closure _ _ Hinv). rewrite app_nil_r. by rewrite Hk. }
  pose proof (wi_entered _ _ Hinv) as He. rewrite Hk in He.
  pose proof (wi_events _ _ Hinv) as Hev. rewrite Forall_forall in Hev.
  split_and!; try done; [by apply NoDup_handled|by apply Forall_forall| | |].
  - intros k e. rewrite (wi_errors _ _ Hinv), list_elem_of_omap. split.
    + intros (ev & Hevin & E). destruct ev; simplify_eq. split; [|exact (Hev _ Hevin)].
      apply Hin. unfold handled. apply list_elem_of_omap. by eexists.
    + intros [Hc Hw]. apply Hin in Hc. unfold handled in Hc.
      apply list_elem_of_omap in Hc as (ev & Hevin & E). exists ev. split; [done|].
      specialize (Hev _ Hevin). destruct ev; simplify_eq; simpl in Hev; [|congruence].
      destruct Hev as (deps2 & Hdeps & _). congruence.
  - by rewrite (wi_count _ _ Hinv), He.
  - pose proof (wi_mirrored _ _ Hinv). lia.
Qed.
End ingest.

(** ** A concrete walk *)

Definition demo_root : moduleKey := mkKey "a" "1".

(** [a@1] needs [b@2], which needs [a@1] and a module the registry lacks. *)
Definition demo_walk (k : moduleKey) : result string (list moduleKey) :=
  if decide (k = demo_root) then Ok [mkKey "b" "2"]
  else if decide (k = mkKey "b" "2") then Ok [demo_root; mkKey "c" "3"]
  else Err "HTTP 404".

Lemma demo_walk_closure k :
  in_closure demo_walk [demo_root] k → key_string k ∈ ({["a@1"; "b@2"; "c@3"]} : gset string).
Proof.
  assert (∀ k, in_closure demo_walk [demo_root] k → k ∈ [demo_root; mkKey "b" "2"; mkKey "c" "3"]) as H.
  { clear k. induction 1 as [k Hk|k deps d _ IH Hw Hd].
    - apply list_elem_of_singleton in Hk as ->. by left.
    - rewrite !elem_of_cons, elem_of_nil in IH. unfold demo_walk in Hw.
      destruct IH as [->|[->|[->|[]]]]; vm_compute in Hw; simplify_eq;
        rewrite !elem_of_cons, elem_of_nil in *; tauto. }
  intros Hk%H. rewrite !elem_of_cons, elem_of_nil in Hk.
  destruct Hk as [->|[->|[->|[]]]]; vm_compute; done.
Qed.

Lemma ingest_terminates_witness :
  (0 < 2 ∧ ∀ k, in_closure demo_walk [demo_root] k → key_string k ∈ ({["a@1"; "b@2"; "c@3"]} : gset string)) ∧
  ∃ n s, steps demo_walk 2 n (start 2 [demo_root]) s ∧ finished s.
Proof.
  split; [split; [lia|exact demo_walk_closure]|].
  exact (proj2 (proj2 (ingest_terminates demo_walk 2 [demo_root] {["a@1"; "b@2"; "c@3"]}
    demo_walk_closure ltac:(lia)))).
Defined.

(** A module without dependencies: in and out in five steps. *)
Definition demo_leaf (_ : moduleKey) : result string (list moduleKey) := Ok [].

Definition demo_end : walk :=
  mkWalk {["a@1"]} [] (mkResult 1 1 []) 0 [EvEnter demo_root; EvDone demo_root 0] [] [] [Idle].

Lemma demo_leaf_run : steps demo_leaf 1 5 (start 1 [demo_root]) demo_end.
Proof.
  set (v := {["a@1"]} : gset string). set (r := mkResult 1 0 []). set (ev := [EvEnter demo_root]).
  set (d := mkDiscovery demo_root (Ok [])).
  apply (steps_snoc _ _ 4 _ (mkWalk v [] r 1 ev [] [d] [Idle])).
  2: { by refine (step_absorb _ _ (mkWalk v [] r 1 ev [] [d] [Idle]) d [] _ _); simpl; [lia|]. }
  apply (steps_snoc _ _ 3 _ (mkWalk v [] r 1 ev [] [] [Sending d])).
  2: { refine (step_send _ _ (mkWalk v [] r 1 ev [] [] [Sending d]) 0 d eq_refl _). simpl. unfold chan_cap. lia. }
  apply (steps_snoc _ _ 2 _ (mkWalk v [] r 1 ev [] [] [Walking demo_root])).
  2: { exact (step_walk demo_leaf 1 (mkWalk v [] r 1 ev [] [] [Walking demo_root]) 0 demo_root eq_refl). }
  apply (steps_snoc _ _ 1 _ (mkWalk v [] r 1 ev [demo_root] [] [Idle])).
  2: { exact (step_take demo_leaf 1 (mkWalk v [] r 1 ev [demo_root] [] [Idle]) 0 demo_root [] eq_refl eq_refl). }
  apply (steps_snoc _ _ 0 _ (start 1 [demo_root])); [constructor|].
  refine (step_dispatch _ _ (start 1 [demo_root]) demo_root [] _ eq_refl _); vm_compute; lia.
Qed.

Lemma demo_leaf_closure k : in_closure demo_leaf [demo_root] k → k = demo_root.
Proof.
  induction 1 as [k Hk|k deps d _ _ Hw Hd]; [by apply list_elem_of_singleton in Hk|].
  injection Hw as <-. by apply elem_of_nil in Hd.
Qed.

Lemma demo_leaf_names k : in_closure demo_leaf [demo_root] k → name_ok k.
Proof. intros ->%demo_leaf_closure. vm_compute. intros H. apply list_elem_of_singleton in H. discriminate H. Qed.

Lemma ingest_complete_witness :
  (∀ k, in_closure demo_leaf [demo_root] k → name_ok k) ∧
  steps demo_leaf 1 5 (start 1 [demo_root]) demo_end ∧ finished demo_end ∧
  demo_root ∈ handled demo_end.
Proof.
  split_and!; [exact demo_leaf_names|exact demo_leaf_run|reflexivity|].
  destruct (ingest_complete demo_leaf 1 [demo_root] 5 demo_end demo_leaf_names demo_leaf_run eq_refl)
    as (_ & H & _).
  apply H. apply closure_seed. by left.
Defined.
