(* ===== verification/Digest.v ===== *)
(** * Digests and integrity strings

    Go's [crypto/sha256], [encoding/hex] and [encoding/base64] as far as the
    code uses them, [internal/fetch/sri.go], and the three functions that turn
    an integrity string into the name of a stored archive: [sriToHex] of
    [internal/verify/state.go], [integrityToHex] of
    [internal/server/mirrorindex.go] and of [internal/codenav/unpack.go]. *)

From Stdlib Require Import ZifyN ZifyNat.
From S2P Require Import Prelude Strings.

Abbreviation byte_val := N_of_ascii.
Abbreviation to_byte := ascii_of_N.

(** ** SHA-256 *)

Definition mask32 : N := 2 ^ 32 - 1.
Definition add32 (x y : N) : N := N.land (x + y) mask32.
Definition rotr (x n : N) : N := N.lor (N.shiftr x n) (N.land (N.shiftl x (32 - n)) mask32).

(** The constants of the standard: fractional bits of the square and cube roots of the
    first primes. *)
Definition is_prime (n : N) : bool :=
  forallb (λ d, negb (n `mod` (N.of_nat d + 2) =? 0)%N) (seq 0 (N.to_nat n - 2)).
Definition primes : list N := filter (λ n, is_prime n = true) (N.of_nat <$> seq 2 310).

(** The integer cube root, one bit at a time from bit [k] down. *)
Fixpoint cube_root (k : nat) (acc n : N) : N :=
  match k with
  | O => acc
  | S k =>
      let t := (acc + 2 ^ N.of_nat k)%N in
      cube_root k (if (t * t * t <=? n)%N then t else acc) n
  end.

Definition round_constants : list N :=
  Eval vm_compute in (λ p, N.land (cube_root 36 0 (p * 2 ^ 96)) mask32) <$> take 64 primes.

Record regs := mkRegs { ra : N; rb : N; rc : N; rd : N; re : N; rf : N; rg : N; rh : N }.

Definition initial_regs : regs :=
  Eval vm_compute in
  let h i := N.land (N.sqrt (nth i primes 0%N * 2 ^ 64)) mask32 in
  mkRegs (h 0) (h 1) (h 2) (h 3) (h 4) (h 5) (h 6) (h 7).

Definition compress (s : regs) (kw : N * N) : regs :=
  let S1 := N.lxor (N.lxor (rotr (re s) 6) (rotr (re s) 11)) (rotr (re s) 25) in
  let ch := N.lxor (N.land (re s) (rf s)) (N.land (N.lxor (re s) mask32) (rg s)) in
  let t1 := add32 (rh s) (add32 S1 (add32 ch (add32 kw.1 kw.2))) in
  let S0 := N.lxor (N.lxor (rotr (ra s) 2) (rotr (ra s) 13)) (rotr (ra s) 22) in
  let maj := N.lxor (N.lxor (N.land (ra s) (rb s)) (N.land (ra s) (rc s))) (N.land (rb s) (rc s)) in
  mkRegs (add32 t1 (add32 S0 maj)) (ra s) (rb s) (rc s) (add32 (rd s) t1) (re s) (rf s) (rg s).

(** [n] words of the message schedule from a window of the last sixteen. *)
Fixpoint schedule (n : nat) (window : list N) : list N :=
  match n with
  | O => []
  | S n =>
      let w i := nth i window 0%N in
      let s0 := N.lxor (N.lxor (rotr (w 1) 7) (rotr (w 1) 18)) (N.shiftr (w 1) 3) in
      let s1 := N.lxor (N.lxor (rotr (w 14) 17) (rotr (w 14) 19)) (N.shiftr (w 14) 10) in
      w 0 :: schedule n (tail window ++ [add32 (add32 s1 (w 9)) (add32 s0 (w 0))])
  end.

Fixpoint groups {A} (fuel n : nat) (l : list A) : list (list A) :=
  match fuel, l with
  | S fuel, _ :: _ => take n l :: groups fuel n (drop n l)
  | _, _ => []
  end.

Definition be_word (l : bytes) : N := foldl (λ acc c, N.lor (N.shiftl acc 8) (byte_val c)) 0%N l.
Definition be_bytes (n : nat) (x : N) : bytes :=
  (λ i, to_byte (N.land (N.shiftr x (8 * N.of_nat (n - 1 - i))) 255)) <$> seq 0 n.

Definition block (s : regs) (b : bytes) : regs :=
  let w := schedule 64 (be_word <$> groups 16 4 b) in
  let t := foldl compress s (zip round_constants w) in
  mkRegs (add32 (ra s) (ra t)) (add32 (rb s) (rb t)) (add32 (rc s) (rc t)) (add32 (rd s) (rd t))
    (add32 (re s) (re t)) (add32 (rf s) (rf t)) (add32 (rg s) (rg t)) (add32 (rh s) (rh t)).

Definition padded (data : bytes) : bytes :=
  data ++ [to_byte 128] ++ replicate (Z.to_nat ((55 - Z.of_nat (length data)) `mod` 64)) (to_byte 0) ++
  be_bytes 8 (8 * N.of_nat (length data)).

Definition digest_of (s : regs) : bytes :=
  flat_map (be_bytes 4) [ra s; rb s; rc s; rd s; re s; rf s; rg s; rh s].

(** [sha256.Sum256] *)
Definition sha256 (data : bytes) : bytes :=
  let m := padded data in digest_of (foldl block initial_regs (groups (length m) 64 m)).

(** ** encoding/hex *)

Definition hex_digits : bytes := to_bytes "0123456789abcdef".
Definition hex_digit (n : N) : ascii := nth (N.to_nat n) hex_digits "0"%char.

(** [hex.EncodeToString] *)
Definition hex_encode (l : bytes) : bytes :=
  flat_map (λ c, [hex_digit (N.shiftr (byte_val c) 4); hex_digit (N.land (byte_val c) 15)]) l.

(** [hexBlobRE]: the names of stored archives, 64 lowercase hexadecimal digits. *)
Definition is_hex_name (s : string) : bool :=
  bool_decide (length (to_bytes s) = 64) && forallb (λ c, bool_decide (c ∈ hex_digits)) (to_bytes s).

(** ** encoding/base64, the standard encoding *)

Definition alphabet : bytes :=
  to_bytes "ABCDEFGHIJKLMNOPQRSTUVWXYZabcdefghijklmnopqrstuvwxyz0123456789+/".
Definition pad : ascii := "="%char.

Definition b64_digit (n : N) : ascii := nth (N.to_nat (N.land n 63)) alphabet pad.
Definition b64_value (c : ascii) : option N := N.of_nat ∘ fst <$> list_find (c =.) alphabet.

(** [Encoding.Encode]: three bytes at a time. *)
Fixpoint encode64 (l : bytes) : bytes :=
  match l with
  | [] => []
  | [a] =>
      let v := N.shiftl (byte_val a) 16 in
      [b64_digit (N.shiftr v 18); b64_digit (N.shiftr v 12); pad; pad]
  | [a; b] =>
      let v := N.lor (N.shiftl (byte_val a) 16) (N.shiftl (byte_val b) 8) in
      [b64_digit (N.shiftr v 18); b64_digit (N.shiftr v 12); b64_digit (N.shiftr v 6); pad]
  | a :: b :: c :: l' =>
      let v := N.lor (N.lor (N.shiftl (byte_val a) 16) (N.shiftl (byte_val b) 8)) (byte_val c) in
      b64_digit (N.shiftr v 18) :: b64_digit (N.shiftr v 12) :: b64_digit (N.shiftr v 6) ::
      b64_digit v :: encode64 l'
  end.

(** The bytes of a quantum of four sextets. *)
Definition quantum (n : nat) (d0 d1 d2 d3 : N) : bytes :=
  let v := N.lor (N.lor (N.lor (N.shiftl d0 18) (N.shiftl d1 12)) (N.shiftl d2 6)) d3 in
  take n [to_byte (N.land (N.shiftr v 16) 255); to_byte (N.land (N.shiftr v 8) 255); to_byte (N.land v 255)].

(** [Encoding.decodeQuantum] after the line breaks it skips: padding ends the
    input, and the bits it leaves over are not looked at. *)
Fixpoint decode_quanta (l : bytes) : option bytes :=
  match l with
  | [] => Some []
  | c0 :: c1 :: c2 :: c3 :: rest =>
      d0 ← b64_value c0; d1 ← b64_value c1;
      match b64_value c2, b64_value c3 with
      | Some d2, Some d3 => rest' ← decode_quanta rest; Some (quantum 3 d0 d1 d2 d3 ++ rest')
      | Some d2, None => if decide (c3 = pad ∧ rest = []) then Some (quantum 2 d0 d1 d2 0) else None
      | None, _ => if decide (c2 = pad ∧ c3 = pad ∧ rest = []) then Some (quantum 1 d0 d1 0 0) else None
      end
  | _ => None
  end.

Definition line_break (c : ascii) : bool := bool_decide (c = chr 10 ∨ c = chr 13).

(** [StdEncoding.DecodeString] *)
Definition decode64 (l : bytes) : option bytes := decode_quanta (filter (λ c, line_break c = false) l).

(** ** internal/fetch/sri.go *)

(** [SRI] *)
Definition SRI (sum : bytes) : string := "sha256-" +:+ of_bytes (encode64 sum).

(** [splitSRI]: [strings.Cut] at the first dash. *)
Definition splitSRI (s : string) : option (string * string) :=
  prod_map of_bytes of_bytes <$> cut_at "-"%char (to_bytes s).

(** The wrapped reader delivers its data in chunks of any size; [vr_hashed] is
    what the running hash has been given. *)
Record VerifyingReader := mkReader {
  vr_stream : list bytes;
  vr_hashed : bytes;
  vr_expected : string;
}.

Definition NewVerifyingReader (stream : list bytes) (expected : string) : VerifyingReader :=
  mkReader stream [] expected.

(** [Read]: the next chunk and the reader after it; [None] at the end. *)
Definition Read (v : VerifyingReader) : option (bytes * VerifyingReader) :=
  match vr_stream v with
  | [] => None
  | p :: rest => Some (p, mkReader rest (vr_hashed v ++ p) (vr_expected v))
  end.

(** [io.Copy] through the reader: what the sink gets, and the reader at the end. *)
Fixpoint drain (fuel : nat) (v : VerifyingReader) : bytes * VerifyingReader :=
  match fuel with
  | O => ([], v)
  | S fuel =>
      match Read v with
      | None => ([], v)
      | Some (p, v') => let '(out, v'') := drain fuel v' in (p ++ out, v'')
      end
  end.

Definition Sum (v : VerifyingReader) : bytes := sha256 (vr_hashed v).

Inductive IntegrityError : Type :=
| MalformedIntegrity (expected : string)
| UnsupportedAlgorithm (algo : string)
| IntegrityMismatch (want got : string).

(** [VerifyingReader.Verify] *)
Definition Verify (v : VerifyingReader) : option IntegrityError :=
  if decide (vr_expected v = "") then None
  else match splitSRI (vr_expected v) with
       | None => Some (MalformedIntegrity (vr_expected v))
       | Some (algo, want) =>
           if decide (algo ≠ "sha256") then Some (UnsupportedAlgorithm algo)
           else let got := of_bytes (encode64 (Sum v)) in
                if decide (got ≠ want) then Some (IntegrityMismatch want got) else None
       end.

(** ** The name of a stored archive *)

(** [sriToHex] of verify. *)
Definition sriToHex (sri : string) : option string :=
  match strip_prefix (to_bytes "sha256-") (to_bytes sri) with
  | None | Some [] => None
  | Some b64 =>
      raw ← decode64 b64;
      if decide (length raw = 32) then Some (of_bytes (hex_encode raw)) else None
  end.

(** [integrityToHex] of the server. *)
Definition integrityToHex (integrity : string) : option string :=
  '(algo, b64) ← splitSRI integrity;
  if decide (algo ≠ "sha256") then None
  else raw ← decode64 (to_bytes b64);
       if decide (length raw ≠ 32) then None else Some (of_bytes (hex_encode raw)).

Inductive UnpackError : Type :=
| NotSha256
| IntegrityBase64
| IntegrityLength (n : nat).

(** [integrityToHex] of codenav. *)
Definition codenav_integrityToHex (integrity : string) : result UnpackError string :=
  if HasPrefix integrity "sha256-" then
    match decode64 (to_bytes (TrimPrefix integrity "sha256-")) with
    | None => Err IntegrityBase64
    | Some raw => if decide (length raw ≠ 32) then Err (IntegrityLength (length raw))
                  else Ok (of_bytes (hex_encode raw))
    end
  else Err NotSha256.

(** ** Bits and bytes *)

#[local] Ltac Zify.zify_post_hook ::= Z.div_mod_to_equations.

Lemma lor_shiftl a b k : (b < 2 ^ k → N.lor (N.shiftl a k) b = a * 2 ^ k + b)%N.
Proof.
  intros Hb. rewrite <-N.shiftl_mul_pow2.
  assert (N.land (N.shiftl a k) b = 0)%N as Hz.
  { apply N.bits_inj. intros i. rewrite N.land_spec, N.bits_0. destruct (decide (i < k)%N) as [Hi|Hi].
    - by rewrite N.shiftl_spec_low.
    - apply andb_false_intro2. destruct (decide (b = 0)%N) as [->|Hne]; [apply N.bits_0|].
      apply N.bits_above_log2. apply N.log2_lt_pow2 in Hb; lia. }
  by rewrite N.add_nocarry_lxor, N.lxor_lor.
Qed.

Lemma land_mask n k : N.land n (N.ones k) = (n `mod` 2 ^ k)%N.
Proof. apply N.land_ones. Qed.

Lemma land_63 n : N.land n 63 = (n `mod` 64)%N.
Proof. apply (N.land_ones n 6). Qed.
Lemma land_255 n : N.land n 255 = (n `mod` 256)%N.
Proof. apply (N.land_ones n 8). Qed.
Lemma land_15 n : N.land n 15 = (n `mod` 16)%N.
Proof. apply (N.land_ones n 4). Qed.

Lemma byte_bound c : (byte_val c < 256)%N.
Proof. apply N_ascii_bounded. Qed.

Lemma byte_val_to_byte n : (n < 256)%N → byte_val (to_byte n) = n.
Proof. apply N_ascii_embedding. Qed.

Lemma to_byte_val c : to_byte (byte_val c) = c.
Proof. apply ascii_N_embedding. Qed.

Lemma to_byte_eq n c : n = byte_val c → to_byte n = c.
Proof. intros ->. apply to_byte_val. Qed.

(** ** Base64 *)

Lemma in_sextets n : (n < 64)%N → n ∈ N.of_nat <$> seq 0 64.
Proof. intros. apply list_elem_of_fmap. exists (N.to_nat n). split; [lia|apply elem_of_seq; lia]. Qed.

Lemma b64_digits_ok :
  Forall (λ n, b64_value (b64_digit n) = Some n ∧ line_break (b64_digit n) = false) (N.of_nat <$> seq 0 64).
Proof. apply (bool_decide_unpack _). vm_compute. exact I. Qed.

Lemma b64_digit_mod n : b64_digit (n `mod` 64) = b64_digit n.
Proof. unfold b64_digit. by rewrite !land_63, N.Div0.mod_mod. Qed.

Lemma b64_value_digit n : b64_value (b64_digit n) = Some (n `mod` 64)%N.
Proof.
  rewrite <-b64_digit_mod. pose proof b64_digits_ok as H. rewrite Forall_forall in H.
  apply H, in_sextets. lia.
Qed.

Lemma b64_digit_no_break n : line_break (b64_digit n) = false.
Proof.
  rewrite <-b64_digit_mod. pose proof b64_digits_ok as H. rewrite Forall_forall in H.
  apply H, in_sextets. lia.
Qed.

Lemma b64_value_pad : b64_value pad = None.
Proof. reflexivity. Qed.

(** Induction three bytes at a time. *)
Lemma triple_ind {A} (P : list A → Prop) :
  P [] → (∀ a, P [a]) → (∀ a b, P [a; b]) → (∀ a b c l, P l → P (a :: b :: c :: l)) → ∀ l, P l.
Proof.
  intros H0 H1 H2 H3. fix IH 1. intros [|a [|b [|c l]]]; [done|apply H1|apply H2|].
  apply H3, IH.
Qed.

Lemma encode64_no_break l : Forall (λ c, line_break c = false) (encode64 l).
Proof.
  induction l as [|a|a b|a b c l IH] using triple_ind; simpl;
    repeat constructor; auto using b64_digit_no_break.
Qed.

(** The number whose sextets are written out. *)
Lemma word24 a b c : (b < 256 → c < 256 →
  N.lor (N.lor (N.shiftl a 16) (N.shiftl b 8)) c = a * 65536 + b * 256 + c)%N.
Proof.
  intros Hb Hc. rewrite (N.shiftl_mul_pow2 b). rewrite (lor_shiftl a) by (simpl; lia).
  replace (a * 2 ^ 16 + b * 2 ^ 8)%N with (N.shiftl (a * 256 + b) 8) by (rewrite N.shiftl_mul_pow2; lia).
  rewrite lor_shiftl by (simpl; lia). lia.
Qed.

Lemma sextets_word d0 d1 d2 d3 : (d1 < 64 → d2 < 64 → d3 < 64 →
  N.lor (N.lor (N.lor (N.shiftl d0 18) (N.shiftl d1 12)) (N.shiftl d2 6)) d3 =
  d0 * 262144 + d1 * 4096 + d2 * 64 + d3)%N.
Proof.
  intros H1 H2 H3. rewrite (N.shiftl_mul_pow2 d1), (N.shiftl_mul_pow2 d2).
  rewrite (lor_shiftl d0) by (simpl; lia).
  replace (d0 * 2 ^ 18 + d1 * 2 ^ 12)%N with (N.shiftl (d0 * 64 + d1) 12) by (rewrite N.shiftl_mul_pow2; lia).
  rewrite lor_shiftl by (simpl; lia).
  replace ((d0 * 64 + d1) * 2 ^ 12 + d2 * 2 ^ 6)%N with (N.shiftl (d0 * 4096 + d1 * 64 + d2) 6)
    by (rewrite N.shiftl_mul_pow2; lia).
  rewrite lor_shiftl by (simpl; lia). lia.
Qed.

(** The sextet [i] of a 24-bit word, from the right. *)
Definition sextet (i : nat) (v : N) : N := (N.shiftr v (6 * N.of_nat i) `mod` 64)%N.

Lemma sextet_bound i v : (sextet i v < 64)%N.
Proof. unfold sextet. lia. Qed.

Lemma sextets_join v :
  (v < 16777216 → sextet 3 v * 262144 + sextet 2 v * 4096 + sextet 1 v * 64 + sextet 0 v = v)%N.
Proof.
  intros Hv. unfold sextet. rewrite !N.shiftr_div_pow2.
  change (2 ^ (6 * N.of_nat 3))%N with (64 * 64 * 64)%N. change (2 ^ (6 * N.of_nat 2))%N with (64 * 64)%N.
  change (2 ^ (6 * N.of_nat 1))%N with 64%N. change (2 ^ (6 * N.of_nat 0))%N with 1%N.
  rewrite N.div_1_r, <-!N.Div0.div_div.
  pose proof (N.div_mod v 64). pose proof (N.div_mod (v / 64) 64). pose proof (N.div_mod (v / 64 / 64) 64).
  rewrite (N.mod_small (v / 64 / 64 / 64)); lia.
Qed.

Lemma quantum_bytes n v a b c :
  v = (byte_val a * 65536 + byte_val b * 256 + byte_val c)%N →
  quantum n (sextet 3 v) (sextet 2 v) (sextet 1 v) (sextet 0 v) = take n [a; b; c].
Proof.
  intros E. pose proof (byte_bound a). pose proof (byte_bound b). pose proof (byte_bound c).
  unfold quantum. rewrite sextets_word by apply sextet_bound. rewrite sextets_join by lia.
  rewrite E, !N.shiftr_div_pow2, !land_255.
  change (2 ^ 16)%N with 65536%N. change (2 ^ 8)%N with 256%N.
  f_equal. f_equal; [|f_equal; [|f_equal]]; apply to_byte_eq; lia.
Qed.

#[local] Opaque b64_value b64_digit quantum N.shiftl N.lor.

Lemma decode_quanta_encode64 l : decode_quanta (encode64 l) = Some l.
Proof.
  induction l as [|a|a b|a b c l IH] using triple_ind; [done|..]; cbn [encode64 decode_quanta];
    rewrite !b64_value_digit, ?b64_value_pad; cbn [mbind option_bind]; rewrite ?decide_True by done.
  - f_equal. set (v := N.shiftl (byte_val a) 16).
    assert (v = byte_val a * 65536 + byte_val (to_byte 0) * 256 + byte_val (to_byte 0))%N as E.
    { unfold v. rewrite byte_val_to_byte, N.shiftl_mul_pow2 by lia.
      change (2 ^ 16)%N with 65536%N. lia. }
    pose proof (quantum_bytes 1 v a _ _ E) as Hq.
    assert (sextet 1 v = 0 ∧ sextet 0 v = 0)%N as [H1 H0].
    { unfold sextet. rewrite !N.shiftr_div_pow2, E, byte_val_to_byte by lia.
      change (2 ^ (6 * N.of_nat 1))%N with 64%N. change (2 ^ (6 * N.of_nat 0))%N with 1%N. lia. }
    rewrite H1, H0 in Hq. exact Hq.
  - f_equal. set (v := N.lor _ _).
    assert (v = byte_val a * 65536 + byte_val b * 256 + byte_val (to_byte 0))%N as E.
    { unfold v. pose proof (byte_bound a). pose proof (byte_bound b).
      rewrite byte_val_to_byte, (N.shiftl_mul_pow2 (byte_val b)) by lia.
      rewrite lor_shiftl; change (2 ^ 16)%N with 65536%N; change (2 ^ 8)%N with 256%N; lia. }
    pose proof (quantum_bytes 2 v a b _ E) as Hq.
    assert (sextet 0 v = 0)%N as H0.
    { unfold sextet. rewrite !N.shiftr_div_pow2, E, byte_val_to_byte by lia.
      change (2 ^ (6 * N.of_nat 0))%N with 1%N. lia. }
    rewrite H0 in Hq. exact Hq.
  - rewrite IH. cbn [mbind option_bind]. set (v := N.lor _ _). pose proof (quantum_bytes 3 v a b c) as Hq.
    unfold sextet in Hq. rewrite (N.shiftr_0_r v : N.shiftr v (6 * N.of_nat 0) = v) in Hq.
    apply (f_equal Some). change (a :: b :: c :: l) with (take 3 [a; b; c] ++ l).
    rewrite <-Hq by (apply word24; apply byte_bound). reflexivity.
Qed.

#[local] Transparent b64_value b64_digit quantum N.shiftl N.lor.

Lemma decode64_encode64 l : decode64 (encode64 l) = Some l.
Proof.
  unfold decode64. rewrite filter_all by apply encode64_no_break. apply decode_quanta_encode64.
Qed.

Lemma encode64_inj l l' : encode64 l = encode64 l' → l = l'.
Proof. intros E. apply (f_equal decode64) in E. rewrite !decode64_encode64 in E. by simplify_eq. Qed.

(** ** Hexadecimal *)

Lemma hex_digits_ok :
  Forall (λ n, hex_digit n ∈ hex_digits ∧
    N.of_nat ∘ fst <$> list_find (hex_digit n =.) hex_digits = Some n) (N.of_nat <$> seq 0 16).
Proof. apply (bool_decide_unpack _). vm_compute. exact I. Qed.

Lemma in_nibbles n : (n < 16)%N → n ∈ N.of_nat <$> seq 0 16.
Proof. intros. apply list_elem_of_fmap. exists (N.to_nat n). split; [lia|apply elem_of_seq; lia]. Qed.

Lemma hex_digit_inj n m : (n < 16 → m < 16 → hex_digit n = hex_digit m → n = m)%N.
Proof.
  intros Hn Hm E. pose proof hex_digits_ok as H. rewrite Forall_forall in H.
  destruct (H n (in_nibbles n Hn)) as [_ En], (H m (in_nibbles m Hm)) as [_ Em].
  rewrite E in En. congruence.
Qed.

Lemma hex_digit_in n : (n < 16)%N → hex_digit n ∈ hex_digits.
Proof. intros Hn. pose proof hex_digits_ok as H. rewrite Forall_forall in H. by apply H, in_nibbles. Qed.

Lemma nibbles c : (N.shiftr (byte_val c) 4 < 16 ∧ N.land (byte_val c) 15 < 16)%N.
Proof.
  rewrite land_15, N.shiftr_div_pow2. change (2 ^ 4)%N with 16%N. pose proof (byte_bound c). lia.
Qed.

Lemma length_hex_encode l : length (hex_encode l) = 2 * length l.
Proof. unfold hex_encode. induction l as [|c l IH]; simpl; lia. Qed.

Lemma hex_encode_inj l l' : hex_encode l = hex_encode l' → l = l'.
Proof.
  revert l'. induction l as [|c l IH]; intros [|d l'] E; try done.
  cbn [hex_encode flat_map app] in E. injection E as E1 E2 E3.
  apply IH in E3 as ->. f_equal. destruct (nibbles c), (nibbles d).
  apply hex_digit_inj in E1, E2; try done.
  rewrite !land_15 in E2. rewrite !N.shiftr_div_pow2 in E1. change (2 ^ 4)%N with 16%N in E1.
  rewrite <-(to_byte_val c). apply to_byte_eq. lia.
Qed.

Lemma hex_encode_name l : length l = 32 → is_hex_name (of_bytes (hex_encode l)) = true.
Proof.
  intros Hl. unfold is_hex_name. rewrite to_of_bytes, length_hex_encode, Hl.
  rewrite bool_decide_true by done. simpl. clear Hl. induction l as [|c l IH]; [done|]. simpl.
  destruct (nibbles c). rewrite !bool_decide_true by by apply hex_digit_in. done.
Qed.

(** ** Lengths *)

Lemma length_sha256 data : length (sha256 data) = 32.
Proof. reflexivity. Qed.

#[global] Opaque sha256.

(** ** Integrity strings *)

Lemma splitSRI_iff s algo b64 :
  splitSRI s = Some (algo, b64) ↔ s = algo +:+ "-" +:+ b64 ∧ "-"%char ∉ to_bytes algo.
Proof.
  unfold splitSRI. rewrite fmap_Some. split.
  - intros ([a b] & Hc & E). simplify_eq/=. apply cut_at_iff in Hc as [Hs Ha].
    rewrite to_of_bytes. split; [|done]. apply to_bytes_inj.
    by rewrite !to_bytes_app, !to_of_bytes.
  - intros [-> Ha]. exists (to_bytes algo, to_bytes b64). simpl. rewrite !of_to_bytes. split; [|done].
    apply cut_at_iff. by rewrite !to_bytes_app.
Qed.

Lemma sha256_no_dash : "-"%char ∉ to_bytes "sha256".
Proof. apply (bool_decide_unpack _). reflexivity. Qed.

Lemma splitSRI_sha256 s b64 : splitSRI s = Some ("sha256", b64) ↔ s = "sha256-" +:+ b64.
Proof.
  rewrite splitSRI_iff. split; [by intros [-> _]|]. intros ->. split; [done|apply sha256_no_dash].
Qed.

Lemma strip_sha256 s l : strip_prefix (to_bytes "sha256-") (to_bytes s) = Some l ↔ s = "sha256-" +:+ of_bytes l.
Proof.
  rewrite strip_prefix_Some. split.
  - intros E. apply to_bytes_inj. by rewrite E, to_bytes_app, to_of_bytes.
  - intros ->. by rewrite to_bytes_app, to_of_bytes.
Qed.

Lemma sha256_prefix_inj a b : "sha256-" +:+ a = "sha256-" +:+ b → a = b.
Proof. intros E. by injection E. Qed.

(** What the three readers of an integrity string have in common: the base64
    part after [sha256-] decodes to 32 bytes. *)
Definition names_digest (s : string) (raw : bytes) : Prop :=
  ∃ b64, s = "sha256-" +:+ b64 ∧ decode64 (to_bytes b64) = Some raw ∧ length raw = 32.

Lemma sriToHex_iff s h : sriToHex s = Some h ↔ ∃ raw, names_digest s raw ∧ h = of_bytes (hex_encode raw).
Proof.
  unfold sriToHex, names_digest. destruct (strip_prefix _ _) as [l|] eqn:E.
  - apply strip_sha256 in E as ->. split.
    + destruct l as [|c l]; [by intros [=]|]. intros (raw & Hd & Hr)%bind_Some. case_decide; [|discriminate].
      injection Hr as <-. exists raw. split; [|done]. exists (of_bytes (c :: l)). by rewrite to_of_bytes.
    + intros (raw & (b64 & <-%sha256_prefix_inj & Hd & Hl) & ->). rewrite to_of_bytes in Hd.
      destruct l as [|c l]; [injection Hd as <-; discriminate|]. rewrite Hd. cbn [mbind option_bind]. by rewrite decide_True.
  - split; [done|]. intros (raw & (b64 & -> & _) & _). exfalso.
    assert (strip_prefix (to_bytes "sha256-") (to_bytes ("sha256-" +:+ b64)) = Some (to_bytes b64)) as H
      by (apply strip_sha256; by rewrite of_to_bytes). congruence.
Qed.

Lemma integrityToHex_iff s h :
  integrityToHex s = Some h ↔ ∃ raw, names_digest s raw ∧ h = of_bytes (hex_encode raw).
Proof.
  unfold integrityToHex, names_digest. split.
  - intros ([algo b64] & Hs & H)%bind_Some. case_decide as Ha; [done|].
    subst algo. apply splitSRI_sha256 in Hs as ->.
    apply bind_Some in H as (raw & Hd & H). case_decide as Hl; [done|].
    simplify_eq. exists raw. split; [|done]. by exists b64.
  - intros (raw & (b64 & Hs & Hd & Hl) & ->). apply splitSRI_sha256 in Hs as ->. simpl.
    rewrite Hd. cbn [mbind option_bind]. by rewrite decide_False by auto.
Qed.

Lemma codenav_iff s h :
  codenav_integrityToHex s = Ok h ↔ ∃ raw, names_digest s raw ∧ h = of_bytes (hex_encode raw).
Proof.
  unfold codenav_integrityToHex, HasPrefix, TrimPrefix. case_bool_decide as Hp.
  - destruct Hp as [k Hk]. apply strip_prefix_Some in Hk as Hs. rewrite Hs.
    apply strip_sha256 in Hs as ->. rewrite to_of_bytes. unfold names_digest. split.
    + destruct (decode64 k) as [raw|] eqn:Hd; [|done]. case_decide as Hl; [done|].
      intros [= <-]. exists raw. split; [|done]. exists (of_bytes k).
      by rewrite to_of_bytes.
    + intros (raw & (b64 & <-%sha256_prefix_inj & Hd & Hl) & ->). rewrite to_of_bytes in Hd.
      by rewrite Hd, decide_False by auto.
  - split; [done|]. intros (raw & (b64 & -> & _) & _). destruct Hp. exists (to_bytes b64).
    by rewrite to_bytes_app.
Qed.

Lemma names_digest_SRI sum : length sum = 32 → names_digest (SRI sum) sum.
Proof.
  intros. exists (of_bytes (encode64 sum)). split; [done|]. by rewrite to_of_bytes, decode64_encode64.
Qed.

Lemma sriToHex_SRI sum : length sum = 32 → sriToHex (SRI sum) = Some (of_bytes (hex_encode sum)).
Proof. intros. apply sriToHex_iff. exists sum. split; [by apply names_digest_SRI|done]. Qed.

Lemma sriToHex_name s h : sriToHex s = Some h → is_hex_name h = true.
Proof. intros (raw & (b64 & _ & _ & Hl) & ->)%sriToHex_iff. by apply hex_encode_name. Qed.

Lemma SRI_inj sum sum' : SRI sum = SRI sum' → sum = sum'.
Proof.
  unfold SRI. intros E%sha256_prefix_inj. apply (f_equal to_bytes) in E. rewrite !to_of_bytes in E.
  by apply encode64_inj.
Qed.

Lemma drain_spec fuel v :
  length (vr_stream v) < fuel →
  drain fuel v = (concat (vr_stream v), mkReader [] (vr_hashed v ++ concat (vr_stream v)) (vr_expected v)).
Proof.
  revert v. induction fuel as [|fuel IH]; intros [[|p rest] h e] Hf; simpl in *; [lia|lia| |].
  - by rewrite app_nil_r.
  - rewrite IH by (simpl; lia). simpl. by rewrite app_assoc.
Qed.

Lemma Verify_ok v : Verify v = None ↔ vr_expected v = "" ∨ vr_expected v = SRI (Sum v).
Proof.
  unfold Verify. case_decide as He; [by split; [left|]|].
  destruct (splitSRI (vr_expected v)) as [[algo want]|] eqn:Hs.
  - case_decide as Ha.
    + split; [done|]. intros [?|E]; [done|]. rewrite E in Hs.
      assert (splitSRI (SRI (Sum v)) = Some ("sha256", of_bytes (encode64 (Sum v)))) by by apply splitSRI_sha256.
      congruence.
    + subst algo. apply splitSRI_sha256 in Hs. rewrite Hs in *.
      case_decide as Hw; split; try done.
      * intros [?|E]; [done|]. unfold SRI in E. by apply sha256_prefix_inj in E.
      * intros _. right. by rewrite <-Hw.
  - split; [done|]. intros [?|E]; [done|]. rewrite E in Hs.
    assert (splitSRI (SRI (Sum v)) = Some ("sha256", of_bytes (encode64 (Sum v)))) by by apply splitSRI_sha256.
    congruence.
Qed.

(** An archive read through the verifying reader arrives unchanged however it is
    chunked, and is accepted exactly when no integrity was declared or the
    declared one is that of its digest; an accepted declared integrity is then
    read by the verifier, the mirror index and code navigation alike as the name
    the mirror stores the archive under. *)
Theorem verified_address stream expected fuel out v :
  length stream < fuel → drain fuel (NewVerifyingReader stream expected) = (out, v) →
  out = concat stream ∧ Sum v = sha256 out ∧
  (Verify v = None ↔ expected = "" ∨ expected = SRI (sha256 out)) ∧
  (Verify v = None → expected ≠ "" →
   let h := of_bytes (hex_encode (sha256 out)) in
   is_hex_name h = true ∧ sriToHex expected = Some h ∧ integrityToHex expected = Some h ∧
   codenav_integrityToHex expected = Ok h).
Proof.
  intros Hf. rewrite drain_spec by done. intros [= <- <-]. simpl.
  assert (Verify (mkReader [] (concat stream) expected) = None ↔
    expected = "" ∨ expected = SRI (sha256 (concat stream))) as Hv by apply Verify_ok.
  split_and!; [done..|]. intros Hn He. apply Hv in Hn as [?|Hn]; [done|].
  pose proof (length_sha256 (concat stream)) as Hl. rewrite Hn.
  split_and!; [by apply hex_encode_name|by apply sriToHex_SRI|..].
  - apply integrityToHex_iff. eexists. split; [by apply names_digest_SRI|done].
  - apply codenav_iff. eexists. split; [by apply names_digest_SRI|done].
Qed.

Definition demo_data : list bytes := [to_bytes "he"; []; to_bytes "llo"].
Definition demo_sri : string := Eval vm_compute in SRI (sha256 (to_bytes "hello")).

Lemma verified_address_witness :
  Verify (drain 4 (NewVerifyingReader demo_data demo_sri)).2 = None ∧
  sriToHex demo_sri = Some "2cf24dba5fb0a30e26e83b2ac5b9e29e1b161e5c1fa7425e73043362938b9824".
Proof.
  assert (Verify (drain 4 (NewVerifyingReader demo_data demo_sri)).2 = None) as Hv by (vm_compute; done).
  destruct (drain 4 (NewVerifyingReader demo_data demo_sri)) as [out v] eqn:E.
  assert (length demo_data < 4) as Hl by (simpl; lia).
  destruct (verified_address demo_data demo_sri 4 out v Hl E) as (-> & _ & _ & H).
  split; [done|]. destruct H as (_ & H & _); [done|done|]. rewrite H. vm_compute. reflexivity.
Defined.

(** The three readers of an integrity string, written apart, agree on every string:
    one accepts it exactly when the others do, and then they give the same
    name, 64 lowercase hexadecimal digits. *)
Theorem integrity_readers_agree s :
  integrityToHex s = sriToHex s ∧
  (∀ h, codenav_integrityToHex s = Ok h ↔ sriToHex s = Some h) ∧
  (∀ h, sriToHex s = Some h → is_hex_name h = true) ∧
  (∀ raw, names_digest s raw → sriToHex s = Some (of_bytes (hex_encode raw))).
Proof.
  split_and!.
  - apply option_eq. intros h. by rewrite integrityToHex_iff, sriToHex_iff.
  - intros h. by rewrite codenav_iff, sriToHex_iff.
  - apply sriToHex_name.
  - intros raw Hr. apply sriToHex_iff. by exists raw.
Qed.

(** The readers are lenient where the reader of the archive is not: with the
    unused bits of the last digit set, the string names the same archive but
    does not verify it. *)
Definition lenient_sri : string := "sha256-LPJNul+wow4m6DsqxbninhsWHlwfp0JecwQzYpOLmCR=".
Example lenient :
  sriToHex lenient_sri = sriToHex demo_sri ∧
  Verify (drain 4 (NewVerifyingReader demo_data lenient_sri)).2 ≠ None.
Proof. split; [vm_compute; reflexivity|vm_compute; discriminate]. Qed.
