(* ===== verification/FileSystem.v ===== *)
(** * Files under faults, crashes and power loss

    The calls of Go's [os] package that the mirror and the verifier make, as a
    state monad.  A disk maps the clean segments of an absolute path to the
    file's content and whether it has been synced.  Every call consults a fault
    plan: it succeeds, fails after part of its effect, or the process dies in
    the middle of it; a dead process's calls have no effect.  Directory entries
    are taken as durable in the order they are made. *)

From S2P Require Import Prelude Strings Archive.

Abbreviation path := (list string).

Record disk := mkDisk {
  files : gmap path (bytes * bool);
  dirs : gset path;
}.

Inductive fault : Type :=
| Fine
| Fails (n : nat) (msg : string)
| Crash (n : nat).

Record world := mkWorld {
  w_disk : disk;
  w_faults : list fault;
  w_alive : bool;
}.

Definition os (A : Type) : Type := world → A * world.

#[export] Instance os_ret : MRet os := λ A a w, (a, w).
#[export] Instance os_bind : MBind os := λ A B f m w, let '(a, w') := m w in f a w'.

(** [if err != nil { return err }] *)
Definition try_ {E A B} (m : os (result E A)) (f : A → os (result E B)) : os (result E B) :=
  r ← m; match r with Ok a => f a | Err e => mret (Err e) end.

(** One system call: its answer when it fails after [n] units of its work, and
    its effect on the disk, in part or in full. *)
Definition call {A} (err : nat → string → A) (part : nat → disk → disk) (full : disk → A * disk) : os A := λ w,
  if w_alive w then
    match w_faults w with
    | [] => let '(a, d) := full (w_disk w) in (a, mkWorld d [] true)
    | Fine :: fs => let '(a, d) := full (w_disk w) in (a, mkWorld d fs true)
    | Fails n msg :: fs => (err n msg, mkWorld (part n (w_disk w)) fs true)
    | Crash n :: fs => (err 0 "", mkWorld (part n (w_disk w)) fs false)
    end
  else (err 0 "", w).

(** A run-time panic ends the process. *)
Definition panic {E A} (e : E) : os (result E A) := λ w, (Err e, mkWorld (w_disk w) (w_faults w) false).

(** ** The calls *)

Definition set_files (f : gmap path (bytes * bool) → gmap path (bytes * bool)) (d : disk) : disk :=
  mkDisk (f (files d)) (dirs d).

Definition parents (p : path) : gset path := list_to_set ((λ k, take k p) <$> seq 1 (length p)).

(** [os.MkdirAll] *)
Definition mkdirAll (p : path) : os (result string unit) :=
  call (λ _ msg, Err msg) (λ n d, mkDisk (files d) (dirs d ∪ parents (take n p)))
    (λ d, (Ok tt, mkDisk (files d) (dirs d ∪ parents p))).

Definition append (p : path) (data : bytes) (d : disk) : disk :=
  set_files (alter (λ x, (x.1 ++ data, false)) p) d.

(** [File.Write]: the number of bytes written, and the error. *)
Definition write (p : path) (data : bytes) : os (nat * option string) :=
  call (λ n msg, (n `min` length data, Some msg)) (λ n, append p (take n data))
    (λ d, ((length data, None), append p data d)).

(** [File.Sync] *)
Definition sync (p : path) : os (result string unit) :=
  call (λ _ msg, Err msg) (λ _ d, d) (λ d, (Ok tt, set_files (alter (λ x, (x.1, true)) p) d)).

(** [File.Close] *)
Definition closeFile (p : path) : os (result string unit) :=
  call (λ _ msg, Err msg) (λ _ d, d) (λ d, (Ok tt, d)).

(** [os.Remove] *)
Definition remove (p : path) : os (result string unit) :=
  call (λ _ msg, Err msg) (λ _ d, d) (λ d, (Ok tt, set_files (delete p) d)).

(** [os.Rename] *)
Definition rename (a b : path) : os (result string unit) :=
  call (λ _ msg, Err msg) (λ _ d, d)
    (λ d, match files d !! a with
          | Some x => (Ok tt, set_files (λ m, <[b := x]> (delete a m)) d)
          | None => (Err "no such file", d)
          end).

(** [os.Stat], as the code asks it: no error. *)
Definition stat (p : path) : os bool :=
  call (λ _ _, false) (λ _ d, d) (λ d, (bool_decide (p ∈ dom (files d) ∨ p ∈ dirs d), d)).

Inductive ReadError : Type := NotExist | ReadFailed (msg : string).

(** [os.ReadFile] *)
Definition readFile (p : path) : os (result ReadError bytes) :=
  call (λ _ msg, Err (ReadFailed msg)) (λ _ d, d)
    (λ d, (match files d !! p with Some (c, _) => Ok c | None => Err NotExist end, d)).

(** [os.CreateTemp]: a new file, whose name ends in text the system chooses. *)
Section temp.
Context (rnd : disk → path → string → string).

Definition temp_name (d : disk) (dir : path) (pfx : string) : path := dir ++ [pfx +:+ rnd d dir pfx].

Definition createTemp (dir : path) (pfx : string) : os (result string path) :=
  call (λ _ msg, Err msg) (λ _ d, d)
    (λ d, (Ok (temp_name d dir pfx), set_files (<[temp_name d dir pfx := ([], false)]>) d)).
End temp.

(** Power loss: what has not been synced is cut anywhere. *)
Definition power_loss (cut : path → nat) (d : disk) : disk :=
  set_files (map_imap (λ p (x : bytes * bool), Some (if x.2 then x else (take (cut p) x.1, true)))) d.

(** ** Paths *)

(** The path of elements joined to a root, [filepath.Join(root, l...)], for an absolute
    clean root given by its segments. *)
Definition joined (root : path) (l : list string) : path := foldl resolve_step root (flat_map segs l).

(** [filepath.Dir] *)
Definition dir_of (p : path) : path := take (length p - 1) p.

(** ** Postconditions

    [spec P m Q]: from a disk satisfying [P], whatever the fault plan and
    whether or not the process survives, the answer and the disk satisfy [Q]. *)
Definition spec {A} (P : disk → Prop) (m : os A) (Q : A → disk → Prop) : Prop :=
  ∀ w, P (w_disk w) → Q (m w).1 (w_disk (m w).2).

Lemma spec_ret {A} (P : disk → Prop) (a : A) Q : (∀ d, P d → Q a d) → spec P (mret a) Q.
Proof. intros H w Hw. by apply H. Qed.

Lemma spec_bind {A B} P R (m : os A) (f : A → os B) Q :
  spec P m R → (∀ a, spec (R a) (f a) Q) → spec P (m ≫= f) Q.
Proof.
  intros Hm Hf w Hw. specialize (Hm w Hw). unfold mbind, os_bind.
  destruct (m w) as [a w']. by apply Hf.
Qed.

Lemma spec_try {E A B} P R (m : os (result E A)) (f : A → os (result E B)) Q :
  spec P m R → (∀ a, spec (R (Ok a)) (f a) Q) → (∀ e d, R (Err e) d → Q (Err e) d) →
  spec P (try_ m f) Q.
Proof.
  intros Hm Hf He. eapply spec_bind; [exact Hm|]. intros [a|e]; [apply Hf|]. apply spec_ret, He.
Qed.

Lemma spec_call {A} P (err : nat → string → A) part full Q :
  (∀ d, P d → Q (full d).1 (full d).2) → (∀ n msg d, P d → Q (err n msg) (part n d)) →
  (∀ n d, P d → Q (err 0 "") (part n d)) → (∀ d, P d → Q (err 0 "") d) →
  spec P (call err part full) Q.
Proof.
  intros H1 H2 H3 H4 w Hw. unfold call. destruct (w_alive w); [|by apply H4].
  destruct (w_faults w) as [|[|n msg|n] fs]; simpl.
  - specialize (H1 _ Hw). by destruct (full (w_disk w)).
  - specialize (H1 _ Hw). by destruct (full (w_disk w)).
  - by apply H2.
  - by apply H3.
Qed.

Lemma spec_weaken {A} (P P' : disk → Prop) (m : os A) (Q Q' : A → disk → Prop) :
  spec P m Q → (∀ d, P' d → P d) → (∀ a d, Q a d → Q' a d) → spec P' m Q'.
Proof. intros Hm HP HQ w Hw. by apply HQ, Hm, HP. Qed.

Lemma spec_pre {A} (P P' : disk → Prop) (m : os A) Q :
  spec P m Q → (∀ d, P' d → P d) → spec P' m Q.
Proof. intros Hm HP w Hw. by apply Hm, HP. Qed.

Lemma spec_forall {A X} P (m : os A) (Q : X → A → disk → Prop) :
  (∀ x, spec P m (Q x)) → spec P m (λ a d, ∀ x, Q x a d).
Proof. intros H w Hw x. by apply H. Qed.

Lemma spec_pure {A} (φ : Prop) P (m : os A) Q : (φ → spec P m Q) → spec (λ d, φ ∧ P d) m Q.
Proof. intros H w [Hφ Hw]. by apply H. Qed.

Lemma spec_exists {A X} (P : X → disk → Prop) (m : os A) Q :
  (∀ x, spec (P x) m Q) → spec (λ d, ∃ x, P x d) m Q.
Proof. intros H w [x Hw]. by apply (H x). Qed.

(** Reasoning about a call from a fixed disk. *)
Lemma spec_pin {A} (P : disk → Prop) (m : os A) Q :
  (∀ d0, P d0 → spec (λ d, d = d0) m Q) → spec P m Q.
Proof. intros H w Hw. by apply (H (w_disk w) Hw). Qed.

(** ** What each call leaves alone *)

(** Two disks with the same files except for those [hidden], no directory lost and
    none made among [barred]. *)
Section same.
Context (hidden barred : path → Prop).

Definition same_but (d d' : disk) : Prop :=
  (∀ p, ¬ hidden p → files d' !! p = files d !! p) ∧ dirs d ⊆ dirs d' ∧
  (∀ p, barred p → p ∈ dirs d' → p ∈ dirs d).

#[export] Instance same_but_refl : Reflexive same_but.
Proof. intros d. by split. Qed.

#[export] Instance same_but_trans : Transitive same_but.
Proof.
  intros a b c (Hab & Hab' & Hab'') (Hbc & Hbc' & Hbc''). split_and!; [|by etrans|by auto].
  intros p Hp. rewrite Hbc by done. by apply Hab.
Qed.

Lemma same_set_files f d :
  (∀ p, ¬ hidden p → f (files d) !! p = files d !! p) → same_but d (set_files f d).
Proof. intros H. by split. Qed.

Lemma same_append p data d : hidden p → same_but d (append p data d).
Proof.
  intros Hp. apply same_set_files. intros q Hq. rewrite lookup_alter_ne; [done|]. by intros ->.
Qed.

Lemma parents_take p q : q ∈ parents p → ∃ k, q = take k p.
Proof.
  unfold parents. rewrite elem_of_list_to_set. intros (k & -> & _)%list_elem_of_fmap. by exists k.
Qed.

(** No directory on the way to [p] is barred. *)
Definition passable (p : path) : Prop := ∀ k, ¬ barred (take k p).

Lemma same_mkdir d p n : passable p → same_but d (mkDisk (files d) (dirs d ∪ parents (take n p))).
Proof.
  intros Hp. split_and!; [done|apply union_subseteq_l|]. simpl.
  intros q Hq [?|[k ->]%parents_take]%elem_of_union; [done|]. rewrite take_take in Hq. by destruct (Hp _ Hq).
Qed.

(** The calls, from a disk that is [d0] but for hidden files. *)
Context (d0 : disk).
Abbreviation V := (same_but d0).

Lemma spec_mkdirAll p : passable p → spec V (mkdirAll p) (λ _, V).
Proof.
  intros Hp. apply spec_call; intros; [|by etrans; [|apply same_mkdir]..|done].
  etrans; [done|]. rewrite <-(take_ge p (length p)) at 1 by done. by apply same_mkdir.
Qed.

Lemma spec_closeFile P p : spec P (closeFile p) (λ _, P).
Proof. by apply spec_call. Qed.

Lemma spec_stat P p : spec P (stat p) (λ b d, P d ∧ (b = true → p ∈ dom (files d) ∨ p ∈ dirs d)).
Proof.
  apply spec_call; intros; simpl; try done. split; [done|]. by intros ?%bool_decide_eq_true.
Qed.

Lemma spec_readFile P p :
  spec P (readFile p) (λ r d, P d ∧ match r with
    | Ok b => ∃ s, files d !! p = Some (b, s)
    | Err NotExist => files d !! p = None
    | Err _ => True end).
Proof.
  apply spec_call; intros; simpl; try done. split; [done|].
  destruct (files d !! p) as [[c s]|]; [by exists s|done].
Qed.

Lemma spec_remove p : hidden p → spec V (remove p) (λ _, V).
Proof.
  intros Hp. apply spec_call; intros d; simpl; try done. intros Hd. etrans; [done|].
  apply same_set_files. intros q Hq. apply lookup_delete_ne. by intros ->.
Qed.

Lemma spec_write p c data :
  hidden p →
  spec (λ d, V d ∧ ∃ s, files d !! p = Some (c, s)) (write p data)
    (λ a d, V d ∧ (a.2 = None → a.1 = length data ∧ files d !! p = Some (c ++ data, false))).
Proof.
  intros Hp. apply spec_call; simpl.
  - intros d (Hd & s & Hs). split; [by etrans; [|apply same_append]|]. intros _. split; [done|].
    by erewrite lookup_alter_eq, Hs.
  - intros n msg d [Hd _]. split; [by etrans; [|apply same_append]|done].
  - intros n d [Hd _]. split; [by etrans; [|apply same_append]|done].
  - by intros d [Hd _].
Qed.

Lemma spec_sync p c :
  hidden p →
  spec (λ d, V d ∧ ∃ s, files d !! p = Some (c, s)) (sync p)
    (λ r d, V d ∧ (is_ok r = true → files d !! p = Some (c, true))).
Proof.
  intros Hp. apply spec_call; simpl; [|by intros ??? [??]|by intros ?? [??]|by intros ? [??]].
  intros d (Hd & s & Hs). split.
  - etrans; [done|]. apply same_set_files. intros q Hq. rewrite lookup_alter_ne; [done|]. by intros ->.
  - intros _. by rewrite lookup_alter_eq, Hs.
Qed.

Lemma spec_createTemp rnd dir pfx :
  (∀ d, hidden (temp_name rnd d dir pfx)) →
  spec V (createTemp rnd dir pfx)
    (λ r d, V d ∧ ∀ p, r = Ok p → hidden p ∧ files d !! p = Some ([], false)).
Proof.
  intros Hp. apply spec_call; simpl; try done. intros d Hd. split.
  - etrans; [done|]. apply same_set_files. intros q Hq. rewrite lookup_insert_ne; [done|].
    intros <-. by apply Hq.
  - intros p [= <-]. split; [done|]. apply lookup_insert_eq.
Qed.

(** The error paths of a writer: the hidden file is removed, closed before or not. *)
Lemma spec_cleanup {E A} tmp (e : E) Q :
  hidden tmp → (∀ e d, V d → Q (Err e) d) → spec V (remove tmp ≫= λ _, mret (Err e) : os (result E A)) Q.
Proof.
  intros Ht HQ. eapply spec_bind; [by apply spec_remove|]. intros ?. by apply spec_ret, HQ.
Qed.

Lemma spec_close_cleanup {E A} tmp (e : E) Q :
  hidden tmp → (∀ e d, V d → Q (Err e) d) →
  spec V (closeFile tmp ≫= λ _, remove tmp ≫= λ _, mret (Err e) : os (result E A)) Q.
Proof.
  intros Ht HQ. eapply spec_bind; [by apply spec_closeFile|]. intros ?. by apply spec_cleanup.
Qed.
End same.

(** Renaming a hidden file over a visible path, which changes only that path. *)
Lemma spec_rename hidden barred d0 a b x :
  hidden a → ¬ hidden b →
  spec (λ d, same_but hidden barred d0 d ∧ files d !! a = Some x) (rename a b)
    (λ r d, match r with
            | Ok _ => same_but (λ p, hidden p ∨ p = b) barred d0 d ∧ files d !! b = Some x
            | Err _ => same_but hidden barred d0 d
            end).
Proof.
  intros Ha Hb. apply spec_call; simpl; [|by intros ??? [??]|by intros ?? [??]|by intros ? [??]].
  intros d [(Hf & Hd & Hdb) Hx]. rewrite Hx. simpl. split; [|by rewrite lookup_insert_eq].
  split_and!; [|done..]. intros p Hp. simpl. rewrite lookup_insert_ne, lookup_delete_ne; [apply Hf|..]; naive_solver.
Qed.

(** ** Power loss *)

Lemma power_loss_lookup cut d p c : files d !! p = Some (c, true) → files (power_loss cut d) !! p = Some (c, true).
Proof. intros H. simpl. by rewrite map_lookup_imap, H. Qed.

Lemma power_loss_inv cut d p c s :
  files (power_loss cut d) !! p = Some (c, s) →
  s = true ∧ ∃ c' s', files d !! p = Some (c', s') ∧ (s' = true → c = c').
Proof.
  simpl. rewrite map_lookup_imap. intros ([c' s'] & H & E)%bind_Some. simpl in E.
  destruct s'; injection E as <- <-; (split; [done|]); by eexists _, _.
Qed.

(** ** Joined paths *)

Lemma segs_one x : plain x → segs x = [x].
Proof.
  intros (H1 & H2 & H3 & H4). unfold segs. rewrite Split_noslash by done.
  by rewrite filter_cons, decide_True by done.
Qed.

Lemma joined_snoc root l x : plain x → joined root (l ++ [x]) = joined root l ++ [x].
Proof.
  intros Hx. unfold joined. rewrite flat_map_app, foldl_app. cbn [flat_map]. rewrite app_nil_r.
  rewrite (segs_one x Hx).
  cbn [foldl]. unfold resolve_step at 1. by rewrite decide_False by (by destruct Hx as (_ & _ & ? & _)).
Qed.

Lemma joined_plain root l : Forall plain l → joined root l = root ++ l.
Proof.
  induction l as [|x l IH] using rev_ind; intros Hl; [by rewrite app_nil_r|].
  apply Forall_app in Hl as [Hl Hx]. rewrite Forall_singleton in Hx.
  rewrite joined_snoc by exact Hx. rewrite IH by exact Hl. symmetry. apply app_assoc.
Qed.

(** The segments are known names, or names assumed plain. *)
Ltac plains :=
  repeat first [apply Forall_nil_2 | apply Forall_cons_2; [first [assumption | by apply plain_lit]|]].

Lemma dir_of_snoc p x : dir_of (p ++ [x]) = p.
Proof. unfold dir_of. rewrite length_app. cbn [length]. rewrite Nat.add_sub. apply take_app_length. Qed.
