(* ===== verification/Mirror.v ===== *)
(** * The mirror writer

    [internal/mirror/mirror.go] on a disk with faults and crashes, and the
    mirroring step of a closure walk, [walkOneMirrored] of
    [internal/ingest/recursive.go].  The registry's answers, the JSON and the
    MODULE.bazel parsers and the names of temporary files are parameters.  The
    per-module mutex is held for the whole of a merge, so merges are atomic. *)

From S2P Require Import Prelude Strings Archive Digest FileSystem.

(** [fetch.SourceJSON] *)
Record SourceJSON := mkSourceJSON {
  src_Type : string;
  src_URL : string;
  src_Integrity : string;
  src_StripPrefix : string;
  src_ArchiveType : string;
  src_Patches : gmap string string;
  src_PatchStrip : Z;
}.

Section mirror.
Context (rnd : disk → path → string → string).
(** [w.Root], as the segments of an absolute path. *)
Context (root : path).

(** [atomicWrite]: the deferred cleanup removes the temporary file on every error. *)
Definition atomicWrite (target : path) (data : bytes) : os (result string unit) :=
  let dir := dir_of target in
  try_ (mkdirAll dir) (λ _,
  try_ (createTemp rnd dir ".tmp-") (λ tmp,
  let cleanup {A} (e : string) : os (result string A) := remove tmp ≫= λ _, mret (Err e) in
  '(_, werr) ← write tmp data;
  match werr with
  | Some e => closeFile tmp ≫= λ _, cleanup e
  | None =>
      serr ← sync tmp;
      match serr with
      | Err e => closeFile tmp ≫= λ _, cleanup e
      | Ok _ =>
          cerr ← closeFile tmp;
          match cerr with
          | Err e => cleanup e
          | Ok _ =>
              rerr ← rename tmp target;
              match rerr with Err e => cleanup e | Ok _ => mret (Ok tt) end
          end
      end
  end)).

(** [EnsureRegistryJSON] *)
Definition EnsureRegistryJSON : os (result string unit) :=
  let p := joined root ["bazel_registry.json"] in
  found ← stat p;
  match found with
  | true => mret (Ok tt)
  | false => atomicWrite p (to_bytes "{}" ++ [chr 10])
  end.

Definition version_file (name version file : string) : path := joined root ["modules"; name; version; file].

(** [WriteSource] *)
Definition WriteSource (name version : string) (b : bytes) : os (result string unit) :=
  let p := version_file name version "source.json" in
  try_ (mkdirAll (dir_of p)) (λ _, atomicWrite p b).

(** [WriteModuleBazel] *)
Definition WriteModuleBazel (name version : string) (b : bytes) : os (result string unit) :=
  let p := version_file name version "MODULE.bazel" in
  try_ (mkdirAll (dir_of p)) (λ _, atomicWrite p b).

(** ** Archives *)

Definition blobs_dir : path := joined root ["blobs"].

Record BlobSink := mkSink {
  sb_tmp : path;
  sb_hashed : bytes;
  sb_bytes : Z;
}.

(** [BlobWriter] *)
Definition BlobWriter : os (result string BlobSink) :=
  try_ (mkdirAll blobs_dir) (λ _,
  try_ (createTemp rnd blobs_dir ".tmp-blob-") (λ tmp, mret (Ok (mkSink tmp [] 0)))).

(** [BlobSink.Write] *)
Definition sink_Write (b : BlobSink) (p : bytes) : os (nat * option string * BlobSink) :=
  '(n, err) ← write (sb_tmp b) p;
  mret (n, err, if (0 <? n) then mkSink (sb_tmp b) (sb_hashed b ++ take n p) (sb_bytes b + Z.of_nat n) else b).

Definition address (data : bytes) : string := of_bytes (hex_encode (sha256 data)).

(** [BlobSink.Close] *)
Definition sink_Close (b : BlobSink) : os (result string (path * string * Z)) :=
  serr ← sync (sb_tmp b);
  match serr with
  | Err e => closeFile (sb_tmp b) ≫= λ _, remove (sb_tmp b) ≫= λ _, mret (Err e)
  | Ok _ =>
      cerr ← closeFile (sb_tmp b);
      match cerr with
      | Err e => remove (sb_tmp b) ≫= λ _, mret (Err e)
      | Ok _ =>
          let sum := sha256 (sb_hashed b) in
          let final := joined root ["blobs"; of_bytes (hex_encode sum)] in
          found ← stat final;
          match found with
          | true => remove (sb_tmp b) ≫= λ _, mret (Ok (final, SRI sum, sb_bytes b))
          | false =>
            rerr ← rename (sb_tmp b) final;
            match rerr with
            | Err e => remove (sb_tmp b) ≫= λ _, mret (Err e)
            | Ok _ => mret (Ok (final, SRI sum, sb_bytes b))
            end
          end
      end
  end.

(** [BlobSink.Abort] *)
Definition sink_Abort (b : BlobSink) : os unit :=
  closeFile (sb_tmp b) ≫= λ _, remove (sb_tmp b) ≫= λ _, mret tt.

(** [io.Copy(sink, body)] through the verifying reader: the body delivers its
    chunks and ends, or breaks off with an error. *)
Fixpoint copy_body (b : BlobSink) (v : VerifyingReader) (chunks : list bytes) (fail : option string)
  : os (option string * BlobSink * VerifyingReader) :=
  match chunks with
  | [] => mret (fail, b, v)
  | [] :: rest => copy_body b (mkReader rest (vr_hashed v) (vr_expected v)) rest fail
  | p :: rest =>
      let v' := mkReader rest (vr_hashed v ++ p) (vr_expected v) in
      '(n, err, b') ← sink_Write b p;
      match err with
      | Some e => mret (Some e, b', v')
      | None => if decide (n = length p) then copy_body b' v' rest fail
                else mret (Some "short write", b', v')
      end
  end.

(** ** metadata.json

    JSON texts are what [encoding/json] makes of them: [None] is a JSON null
    decoded into a map, which leaves the map nil. *)
Context (unmarshal_map : bytes → result string (option (gmap string bytes))).
Context (unmarshal_versions : bytes → result string (list string)).
Context (marshal_versions : list string → bytes) (marshal_map : gmap string bytes → bytes).

Definition upstreamMetadataLiftedFields : list string :=
  ["homepage"; "maintainers"; "repository"; "yanked_versions"].

(** The lift of the upstream's registry-level fields. *)
Definition lift (upstream m : gmap string bytes) : gmap string bytes :=
  foldl (λ m k, match upstream !! k with Some raw => <[k := raw]> m | None => m end) m
    upstreamMetadataLiftedFields.

(** The version appended, and the list sorted, when it is new. *)
Definition add_version (versions : list string) (version : string) : list string :=
  if decide (version ∈ versions) then versions
  else sort_slice String.ltb (versions ++ [version]).

Inductive MergeError : Type :=
| MergeIO (msg : string)
| ParseExisting (msg : string)
| ParseUpstream (msg : string)
| ParseVersions (msg : string)
| NilMapPanic.

(** What is merged into the decoded file: [None] is the nil map, which panics on
    the first assignment. *)
Definition merge_map (m : option (gmap string bytes)) (upstream : bytes) (version : string)
  : result MergeError (gmap string bytes) :=
  lifted ← match upstream with
           | [] => Ok m
           | _ => match unmarshal_map upstream with
                  | Err e => Err (ParseUpstream e)
                  | Ok None => Ok m
                  | Ok (Some u) =>
                      match m with
                      | Some m => Ok (Some (lift u m))
                      | None => if decide (Forall (λ k, u !! k = None) upstreamMetadataLiftedFields)
                                then Ok None else Err NilMapPanic
                      end
                  end
           end;
  versions ← match default ∅ lifted !! "versions" with
             | None => Ok []
             | Some raw => map_err ParseVersions (unmarshal_versions raw)
             end;
  match lifted with
  | Some m => Ok (<["versions" := marshal_versions (add_version versions version)]> m)
  | None => Err NilMapPanic
  end.

(** [MergeMetadataWithUpstream] *)
Definition MergeMetadataWithUpstream (name version : string) (upstream : bytes) : os (result MergeError unit) :=
  let p := joined root ["modules"; name; "metadata.json"] in
  merr ← mkdirAll (dir_of p);
  match merr with
  | Err e => mret (Err (MergeIO e))
  | Ok _ =>
      b ← readFile p;
      match match b with
            | Ok b => map_err ParseExisting (unmarshal_map b)
            | Err NotExist => Ok (Some ∅)
            | Err (ReadFailed e) => Err (MergeIO e)
            end with
      | Err e => mret (Err e)
      | Ok m =>
          match merge_map m upstream version with
          | Err NilMapPanic => panic NilMapPanic
          | Err e => mret (Err e)
          | Ok out =>
              r ← atomicWrite p (marshal_map out ++ [chr 10]);
              mret (map_err MergeIO r)
          end
      end
  end.

(** ** The mirroring step of a closure walk *)

Context (GetSourceJSONBytes GetModuleBazel : string → string → result string bytes).
Context (GetMetadataBytes : string → result string bytes).
(** The response to an archive request: its chunks, and how the body ends. *)
Context (get : string → result string (list bytes * option string)).
Context (ParseSourceJSON : bytes → result string SourceJSON).
Context (parseDeps : bytes → result string (list (string * string))).

(** [FetchArchive] *)
Definition FetchArchive (src : SourceJSON) : result string (list bytes * option string * VerifyingReader) :=
  if decide (src_URL src = "") then Err "source.json has no url"
  else match get (src_URL src) with
       | Err e => Err ("fetch " +:+ src_URL src +:+ ": " +:+ e)
       | Ok (chunks, fail) => Ok (chunks, fail, NewVerifyingReader chunks (src_Integrity src))
       end.

Definition abort_with {A} (sink : BlobSink) (e : string) : os (result string A) :=
  sink_Abort sink ≫= λ _, mret (Err e).

(** From the opened sink to the stored archive. *)
Definition store_archive (src : SourceJSON) (sink : BlobSink) : os (result string (path * string * Z)) :=
  match FetchArchive src with
  | Err e => abort_with sink e
  | Ok (chunks, fail, vr) =>
      '(err, sink, vr) ← copy_body sink vr chunks fail;
      match err with
      | Some e => abort_with sink ("stream tarball: " +:+ e)
      | None =>
          match Verify vr with
          | Some _ => abort_with sink "integrity"
          | None => sink_Close sink
          end
      end
  end.

(** [walkOneMirrored] *)
Definition walkOneMirrored (name version : string) : os (result string (list (string * string))) :=
  try_ EnsureRegistryJSON (λ _,
  try_ (mret (GetSourceJSONBytes name version)) (λ srcBytes,
  try_ (mret (ParseSourceJSON srcBytes)) (λ src,
  if decide (src_URL src = "") then mret (Err "source.json missing url")
  else
  try_ (mret (GetModuleBazel name version)) (λ modBytes,
  try_ BlobWriter (λ sink,
  try_ (store_archive src sink) (λ _,
  try_ (WriteSource name version srcBytes) (λ _,
  try_ (WriteModuleBazel name version modBytes) (λ _,
  let upstreamMeta := match GetMetadataBytes name with Ok b => b | Err _ => [] end in
  merged ← MergeMetadataWithUpstream name version upstreamMeta;
  match merged with
  | Err _ => mret (Err "metadata.json")
  | Ok _ => mret (parseDeps modBytes)
  end)))))))).
End mirror.

(** ** Files in the making *)

Definition is_temp (p : path) : Prop := ∃ d s, p = d ++ [".tmp-" +:+ s].

Lemma temp_name_temp rnd d dir pfx s : pfx = ".tmp-" +:+ s → is_temp (temp_name rnd d dir pfx).
Proof. intros ->. exists dir, (s +:+ rnd d dir (".tmp-" +:+ s)). unfold temp_name. by rewrite string_app_assoc. Qed.

Lemma is_temp_snoc d x : is_temp (d ++ [x]) → ∃ s, x = ".tmp-" +:+ s.
Proof. intros (d' & s & E). apply app_inj_tail in E as [_ ->]. by exists s. Qed.

Lemma dot_not_hex s : is_hex_name (".tmp-" +:+ s) = false.
Proof. unfold is_hex_name. by rewrite andb_false_r. Qed.

Section proofs.
Context (rnd : disk → path → string → string) (root : path) (barred : path → Prop).
Abbreviation visible := (same_but is_temp barred).
Abbreviation visible_but := (λ t, same_but (λ p, is_temp p ∨ p = t) barred).

Lemma visible_weaken t d d' : visible d d' → visible_but t d d'.
Proof. intros (H1 & H2 & H3). split_and!; [|done..]. intros p Hp. apply H1. naive_solver. Qed.

(** What happened to [target]: on success it holds the data, synced; on an error or a
    crash nothing that is served has changed. *)
Definition written (target : path) (data : bytes) (d0 : disk) (ok : bool) (d : disk) : Prop :=
  if ok then visible_but target d0 d ∧ files d !! target = Some (data, true) else visible d0 d.

Lemma spec_fail {A} d0 tmp (e : string) Q :
  is_temp tmp → (∀ e d, visible d0 d → Q (Err e) d) →
  spec (visible d0) (remove tmp ≫= λ _, mret (Err e) : os (result string A)) Q.
Proof. apply spec_cleanup. Qed.

Lemma spec_close_fail {A} d0 tmp (e : string) Q :
  is_temp tmp → (∀ e d, visible d0 d → Q (Err e) d) →
  spec (visible d0) (closeFile tmp ≫= λ _, remove tmp ≫= λ _, mret (Err e) : os (result string A)) Q.
Proof. apply spec_close_cleanup. Qed.

Lemma spec_atomicWrite d0 target data :
  ¬ is_temp target → passable barred (dir_of target) →
  spec (visible d0) (atomicWrite rnd target data) (λ r, written target data d0 (is_ok r)).
Proof.
  intros Ht Hd. unfold atomicWrite.
  eapply spec_try; [by apply spec_mkdirAll|intros ?; cbn beta|intros e d He; exact He].
  eapply spec_try; [by apply spec_createTemp; intros; eapply (temp_name_temp _ _ _ _ "")|cbn beta|by intros ?? [? _]].
  intros tmp. eapply spec_pre with (P := λ d, is_temp tmp ∧ visible d0 d ∧ ∃ s, files d !! tmp = Some ([], s));
    [|intros d [? H]; destruct (H tmp eq_refl); by split_and!; eauto].
  apply spec_pure. intros Htmp.
  eapply spec_bind; [by apply spec_write|]. intros [n [e|]]; simpl.
  { eapply spec_pre; [apply spec_close_fail; [done|intros ?? Hv; exact Hv]|by intros d [? _]]. }
  eapply spec_pre with (P := λ d, visible d0 d ∧ ∃ s, files d !! tmp = Some (data, s));
    [|intros d [? H]; destruct (H eq_refl) as [_ ?]; by eauto].
  eapply spec_bind; [by apply spec_sync|]. intros [?|e]; simpl;
    [|eapply spec_pre; [apply spec_close_fail; [done|intros ?? Hv; exact Hv]|by intros d [? _]]].
  eapply spec_bind; [apply spec_closeFile|]. intros [?|e]; simpl;
    [|eapply spec_pre; [apply spec_fail; [done|intros ?? Hv; exact Hv]|by intros d [? _]]].
  eapply spec_bind.
  { eapply spec_pre; [by apply (spec_rename is_temp barred d0 tmp target (data, true))|].
    intros d [? H]. split; [done|by apply H]. }
  intros [?|e]; [by apply spec_ret|]. apply spec_fail; [done|]. intros ?? Hv. exact Hv.
Qed.

(** ** The sink of an archive *)

Abbreviation blob := (λ h, root ++ ["blobs"; h]).

Definition sink_ok (b : BlobSink) (d : disk) : Prop :=
  is_temp (sb_tmp b) ∧ ∃ s, files d !! sb_tmp b = Some (sb_hashed b, s).

Lemma joined_blobs : blobs_dir root = root ++ ["blobs"].
Proof. apply joined_plain. plains. Qed.

Lemma spec_BlobWriter d0 :
  passable barred (root ++ ["blobs"]) →
  spec (visible d0) (BlobWriter rnd root)
    (λ r d, visible d0 d ∧ ∀ b, r = Ok b → sink_ok b d ∧ sb_hashed b = []).
Proof.
  intros Hp. unfold BlobWriter. rewrite joined_blobs.
  eapply spec_try; [by apply spec_mkdirAll|intros ?; cbn beta|by intros].
  eapply spec_try; [by apply spec_createTemp; intros; eapply (temp_name_temp _ _ _ _ "blob-")|cbn beta|by intros ?? [? _]].
  intros tmp. apply spec_ret. intros d [? H]. destruct (H tmp eq_refl). split; [done|].
  intros b [= <-]. split; [split; [done|by eexists]|done].
Qed.

Lemma spec_sink_Write d0 b p :
  is_temp (sb_tmp b) →
  spec (λ d, visible d0 d ∧ ∃ s, files d !! sb_tmp b = Some (sb_hashed b, s)) (sink_Write b p)
    (λ x d, visible d0 d ∧ sb_tmp x.2 = sb_tmp b ∧
      (x.1.2 = None → x.1.1 = length p ∧ sink_ok x.2 d ∧ sb_hashed x.2 = sb_hashed b ++ p)).
Proof.
  intros Ht. eapply spec_bind; [by apply spec_write|]. intros [n err]. apply spec_ret. simpl.
  intros d [Hd H]. split; [done|]. split; [by destruct (0 <? n)|]. intros E.
  destruct (H E) as [-> Hf]. split; [done|]. destruct (Nat.ltb_spec 0 (length p)) as [_|Hl]; simpl.
  - rewrite take_ge by done. split; [|done]. split; [done|]. by eexists.
  - destruct p; [|simpl in Hl; lia]. rewrite !app_nil_r in *. split; [|done]. split; [done|]. by eexists.
Qed.

Lemma spec_copy_body d0 chunks fail b v :
  is_temp (sb_tmp b) →
  spec (λ d, visible d0 d ∧ ∃ s, files d !! sb_tmp b = Some (sb_hashed b, s)) (copy_body b v chunks fail)
    (λ x d, visible d0 d ∧ is_temp (sb_tmp x.1.2) ∧
      (x.1.1 = None → fail = None ∧ sink_ok x.1.2 d ∧ sb_hashed x.1.2 = sb_hashed b ++ concat chunks ∧
       vr_hashed x.2 = vr_hashed v ++ concat chunks ∧ vr_expected x.2 = vr_expected v)).
Proof.
  revert b v. induction chunks as [|p rest IH]; intros b v Ht; simpl.
  { apply spec_ret. intros d [? ?]. simpl. rewrite !app_nil_r. by split_and!. }
  destruct p as [|c p]; [by apply (IH b (mkReader rest (vr_hashed v) (vr_expected v)))|].
  set (q := c :: p). eapply spec_bind; [by apply spec_sink_Write|]. intros [[n err] b']. cbn beta.
  apply (spec_pre (λ d, sb_tmp b' = sb_tmp b ∧ visible d0 d ∧
    (err = None → n = length q ∧ sink_ok b' d ∧ sb_hashed b' = sb_hashed b ++ q)));
    [|by intros d (? & ? & ?)].
  apply spec_pure. intros Etmp. destruct err as [e|].
  { apply spec_ret. intros d [? _]. simpl. rewrite Etmp. by split_and!. }
  apply (spec_pre (λ d, (n = length q ∧ sb_hashed b' = sb_hashed b ++ q) ∧ visible d0 d ∧
    ∃ s, files d !! sb_tmp b' = Some (sb_hashed b', s)));
    [|intros d [? H]; destruct (H eq_refl) as (? & [_ ?] & ?); by split_and!].
  apply spec_pure. intros [-> Eh]. rewrite decide_True by done.
  eapply spec_weaken; [apply IH; by rewrite Etmp|by intros|]. simpl.
  intros x d (? & ? & H). split_and!; [done..|]. rewrite Eh, <-!app_assoc in H. exact H.
Qed.

Lemma spec_Abort {A} d0 b (e : string) Q :
  is_temp (sb_tmp b) → (∀ d, visible d0 d → Q (Err e) d) →
  spec (visible d0) (abort_with (A := A) b e) Q.
Proof.
  intros Ht HQ. unfold abort_with, sink_Abort.
  apply (spec_bind _ (λ _, visible d0)); [|intros ?; by apply spec_ret].
  eapply spec_bind; [apply spec_closeFile|intros ?].
  eapply spec_bind; [by apply spec_remove|intros ?]. by apply spec_ret.
Qed.

Lemma hex_plain h : is_hex_name h = true → plain h.
Proof.
  unfold is_hex_name. intros [Hl%bool_decide_eq_true Hd]%andb_true_iff. rewrite forallb_forall in Hd.
  repeat split; try (intros ->; done).
  intros Hs. apply list_elem_of_In, Hd, bool_decide_eq_true in Hs. revert Hs.
  apply (bool_decide_unpack (¬ slash ∈ hex_digits)). reflexivity.
Qed.

Lemma address_name c : is_hex_name (address c) = true.
Proof. apply hex_encode_name, length_sha256. Qed.

Lemma joined_blob h : is_hex_name h = true → joined root ["blobs"; h] = blob h.
Proof. intros Hh%hex_plain. apply joined_plain. plains. Qed.

Lemma blob_not_temp h : is_hex_name h = true → ¬ is_temp (blob h).
Proof.
  intros Hh H. replace (blob h) with ((root ++ ["blobs"]) ++ [h]) in H by by rewrite <-app_assoc.
  apply is_temp_snoc in H as [s ->]. by rewrite dot_not_hex in Hh.
Qed.

Lemma spec_sink_Close d0 b :
  barred (blob (address (sb_hashed b))) → is_temp (sb_tmp b) →
  spec (λ d, visible d0 d ∧ ∃ s, files d !! sb_tmp b = Some (sb_hashed b, s)) (sink_Close root b)
    (λ r d, match r with
      | Err _ => visible d0 d
      | Ok (p, sri, _) =>
          let h := address (sb_hashed b) in
          p = blob h ∧ sri = SRI (sha256 (sb_hashed b)) ∧
          ((visible d0 d ∧ (blob h ∈ dom (files d0) ∨ blob h ∈ dirs d0)) ∨
           (visible_but (blob h) d0 d ∧ files d !! blob h = Some (sb_hashed b, true)))
      end).
Proof.
  intros Hb Ht. pose proof (address_name (sb_hashed b)) as Hn. unfold sink_Close.
  change (of_bytes (hex_encode (sha256 (sb_hashed b)))) with (address (sb_hashed b)).
  rewrite joined_blob by done. set (h := address (sb_hashed b)) in *.
  eapply spec_bind; [by apply spec_sync|]. intros [?|e]; simpl;
    [|eapply spec_pre; [apply spec_close_fail; [done|by intros]|by intros d [? _]]].
  eapply spec_bind; [apply spec_closeFile|]. intros [?|e]; simpl;
    [|eapply spec_pre; [apply spec_fail; [done|by intros]|by intros d [? _]]].
  apply (spec_bind _ (λ found d, (visible d0 d ∧ files d !! sb_tmp b = Some (sb_hashed b, true)) ∧
    (found = true → blob h ∈ dom (files d0) ∨ blob h ∈ dirs d0))).
  { eapply spec_weaken; [apply (spec_stat (λ d, visible d0 d ∧ files d !! sb_tmp b = Some (sb_hashed b, true)) (blob h))|..].
    - intros d [Hd Hs]. split; [done|by apply Hs].
    - intros found d [Hd Hf]. split; [done|]. intros [Hin|Hin]%Hf.
      + left. destruct Hd as [(Hd & _) _]. apply elem_of_dom. rewrite <-Hd by by apply blob_not_temp.
        by apply elem_of_dom.
      + right. destruct Hd as [(_ & _ & Hd) _]. by apply Hd. }
  intros [|].
  - eapply spec_pre with (P := λ d, (blob h ∈ dom (files d0) ∨ blob h ∈ dirs d0) ∧ visible d0 d);
      [|intros d [[Hd _] Hs]; split; [by apply Hs|done]].
    apply spec_pure. intros Hin. eapply spec_bind; [by apply spec_remove|intros ?].
    apply spec_ret. intros d Hd. split_and!; [done..|]. by left.
  - eapply spec_bind.
    { eapply spec_pre; [by apply (spec_rename is_temp barred d0 _ (blob h) (sb_hashed b, true)), blob_not_temp|].
      by intros d [? _]. }
    intros [?|e]; [|apply spec_fail; [done|by intros]].
    apply spec_ret. intros d Hd. split_and!; [done..|]. by right.
Qed.
End proofs.

(** ** What the mirror promises *)

Section walk_proofs.
Context (rnd : disk → path → string → string) (root : path).
Context (ParseSourceJSON : bytes → result string SourceJSON).
Abbreviation blob := (λ h, root ++ ["blobs"; h]).
Abbreviation source n v := (version_file root n v "source.json").

(** The places of stored archives, where no directory may be. *)
Definition blob_place (p : path) : Prop := ∃ h, is_hex_name h = true ∧ p = blob h.
Abbreviation visible := (same_but is_temp blob_place).
Abbreviation visible_but := (λ t, same_but (λ p, is_temp p ∨ p = t) blob_place).

(** Every file under the archives' names is, whole and synced, the archive with that
    digest, and every published source.json that declares an integrity declares
    that of an archive that is stored. *)
Definition stored (h : string) (d : disk) : Prop := ∃ c, address c = h ∧ files d !! blob h = Some (c, true).

Definition backed (b : bytes) (d : disk) : Prop :=
  ∀ src, ParseSourceJSON b = Ok src → src_Integrity src ≠ "" →
    ∃ h, sriToHex (src_Integrity src) = Some h ∧ stored h d.

Record mirror_inv (d : disk) : Prop := {
  mi_blobs h c s : is_hex_name h = true → files d !! blob h = Some (c, s) → s = true ∧ address c = h;
  mi_dirs p : blob_place p → p ∉ dirs d;
  mi_sources n v b s : plain n → plain v → files d !! source n v = Some (b, s) → s = true ∧ backed b d;
}.

Lemma source_path n v : plain n → plain v → source n v = (root ++ ["modules"; n; v]) ++ ["source.json"].
Proof. intros. unfold version_file. rewrite joined_plain by plains. by rewrite <-app_assoc. Qed.

Lemma not_temp_snoc d x : HasPrefix x "." = false → ¬ is_temp (d ++ [x]).
Proof.
  intros Hx [s ->]%is_temp_snoc. change (".tmp-" +:+ s) with ("." +:+ ("tmp-" +:+ s)) in Hx.
  by rewrite HasPrefix_app in Hx.
Qed.

Lemma blob_source h n v : plain n → plain v → blob h ≠ source n v.
Proof. intros Hn Hv E. rewrite source_path, <-app_assoc in E by done. by apply app_inv_head in E. Qed.

Lemma stored_change t h d d' :
  visible_but t d d' → is_hex_name h = true → t ≠ blob h → stored h d → stored h d'.
Proof.
  intros (Hf & _) Hh Ht (c & Hc & H). exists c. split; [done|]. rewrite Hf; [done|].
  intros [Hp|Hp]; [by eapply blob_not_temp|by apply Ht].
Qed.

Lemma backed_change b d d' : (∀ h, is_hex_name h = true → stored h d → stored h d') → backed b d → backed b d'.
Proof.
  intros Hst Hb src Hp Hi. destruct (Hb src Hp Hi) as (h & Hs & Hh). exists h. split; [done|].
  apply Hst; [by eapply sriToHex_name|done].
Qed.

(** Writing a file that is not an archive keeps the promise if a source.json written
    is backed by a stored archive. *)
Lemma inv_other t d d' :
  visible_but t d d' → (∀ h, is_hex_name h = true → t ≠ blob h) → mirror_inv d →
  (∀ n v b s, plain n → plain v → t = source n v → files d' !! t = Some (b, s) → s = true ∧ backed b d) →
  mirror_inv d'.
Proof.
  intros Hd Ht [Hb Hdirs Hs] Hts. pose proof Hd as (Hf & _ & Hdd).
  assert (∀ h, is_hex_name h = true → stored h d → stored h d') as Hst.
  { intros h Hh. exact (stored_change t h d d' Hd Hh (Ht h Hh)). }
  split.
  - intros h c s Hh. rewrite Hf; [by apply Hb|]. intros [?|E]; [by eapply blob_not_temp|by eapply Ht].
  - intros p Hp Hin. by eapply Hdirs, Hdd.
  - intros n v b s Hn Hv H. destruct (decide (t = source n v)) as [E|Hne].
    + rewrite <-E in H. destruct (Hts n v b s Hn Hv E H) as [? ?]. split; [done|]. by eapply backed_change.
    + rewrite Hf in H.
      * destruct (Hs n v b s Hn Hv H). split; [done|]. by eapply backed_change.
      * intros [Hp|Hp]; [|by apply Hne]. rewrite source_path in Hp by done. revert Hp. by apply not_temp_snoc.
Qed.

(** So does storing an archive under its digest. *)
Lemma inv_blob h c d d' :
  visible_but (blob h) d d' → address c = h → files d' !! blob h = Some (c, true) → mirror_inv d →
  mirror_inv d'.
Proof.
  intros Hd Hc Hblob [Hb Hdirs Hs]. pose proof Hd as (Hf & _ & Hdd).
  assert (is_hex_name h = true) as Hh by (rewrite <-Hc; apply address_name).
  assert (∀ h', is_hex_name h' = true → stored h' d → stored h' d') as Hst.
  { intros h' Hh' H. destruct (decide (h' = h)) as [->|Hne]; [by exists c|].
    refine (stored_change _ h' d d' Hd Hh' _ H). intros E%app_inv_head. congruence. }
  split.
  - intros h' c' s' Hh' H. destruct (decide (h' = h)) as [->|Hne].
    + rewrite Hblob in H. by simplify_eq.
    + eapply Hb; [done|]. rewrite <-Hf; [done|].
      intros [Ht|E%app_inv_head]; [by eapply blob_not_temp|congruence].
  - intros p Hp Hin. by eapply Hdirs, Hdd.
  - intros n v b s Hn Hv H. rewrite Hf in H.
    + destruct (Hs n v b s Hn Hv H). split; [done|]. by eapply backed_change.
    + intros [Hp|Hp]; [|by apply (blob_source h n v Hn Hv)].
      rewrite source_path in Hp by done. revert Hp. by apply not_temp_snoc.
Qed.

Lemma inv_visible d d' : visible d d' → mirror_inv d → mirror_inv d'.
Proof.
  intros Hd Hi. apply (inv_other (root ++ [".tmp-"]) d d'); [by apply visible_weaken| |done|].
  - intros h Hh E%app_inv_head. discriminate.
  - intros n v b s Hn Hv E. rewrite source_path, <-app_assoc in E by done. by apply app_inv_head in E.
Qed.

(** Power loss takes nothing that is served. *)
Lemma inv_power_loss cut d : mirror_inv d → mirror_inv (power_loss cut d).
Proof.
  intros [Hb Hdirs Hs].
  assert (∀ h, stored h d → stored h (power_loss cut d)) as Hst.
  { intros h (c & Hc & H). exists c. split; [done|]. by apply power_loss_lookup. }
  split; [|done|].
  - intros h c s Hh (-> & c' & s' & H & E)%power_loss_inv. split; [done|].
    destruct (Hb h c' s' Hh H) as [-> Hc]. by rewrite E.
  - intros n v b s Hn Hv (-> & c' & s' & H & E)%power_loss_inv. split; [done|].
    destruct (Hs n v c' s' Hn Hv H) as [-> Hc]. rewrite E by done. eapply backed_change; [|done]. auto.
Qed.

(** ** Writing beside the archives *)

Lemma passable_app l : (∀ k h, take k l ≠ ["blobs"; h]) → passable blob_place (root ++ l).
Proof.
  intros Hl k (h & _ & E). destruct (decide (k < length root)) as [Hk|Hk].
  - apply (f_equal length) in E. rewrite length_take, !length_app in E. simpl in E. lia.
  - rewrite take_app_ge in E by lia. apply app_inv_head in E. by eapply Hl.
Qed.

Lemma passable_modules l : passable blob_place (root ++ "modules" :: l).
Proof. apply passable_app. by intros [|k] h. Qed.

(** A file known to be there, whole and synced. *)
Definition has (F : list (path * bytes)) (d : disk) : Prop :=
  Forall (λ x, files d !! x.1 = Some (x.2, true)) F.

(** The state of a publication under way: the archive [h] is stored and the files
    [F] are written. *)
Definition underway (h : string) (F : list (path * bytes)) (d : disk) : Prop :=
  mirror_inv d ∧ stored h d ∧ has F d.

Definition settled (F : list (path * bytes)) : Prop := Forall (λ x, ¬ is_temp x.1) F.

Lemma underway_visible h F d d' :
  is_hex_name h = true → settled F → visible d d' → underway h F d → underway h F d'.
Proof.
  intros Hh HF Hd (Hi & (c & Hc & Hst) & Hhas). pose proof Hd as (Hf & _). split_and!.
  - by eapply inv_visible.
  - exists c. split; [done|]. rewrite Hf; [done|by apply blob_not_temp].
  - unfold has, settled in *. rewrite Forall_forall in *. intros x Hx. rewrite Hf by by apply HF.
    by apply Hhas.
Qed.

Lemma spec_underway_mkdir h F p :
  is_hex_name h = true → settled F → passable blob_place p →
  spec (underway h F) (mkdirAll p) (λ _, underway h F).
Proof.
  intros Hh HF Hp. apply spec_pin. intros d0 Hd0.
  eapply spec_weaken; [by apply (spec_mkdirAll is_temp blob_place d0)|by intros d ->|].
  intros ? d Hd. exact (underway_visible h F d0 d Hh HF Hd Hd0).
Qed.

(** A file is written beside the archives. *)
Lemma spec_publish h F t data :
  is_hex_name h = true → settled F → ¬ is_temp t → passable blob_place (dir_of t) →
  (∀ h, is_hex_name h = true → t ≠ blob h) → Forall (λ x, x.1 ≠ t) F →
  (∀ n v d, plain n → plain v → t = source n v → stored h d → backed data d) →
  spec (underway h F) (atomicWrite rnd t data)
    (λ r d, match r with Ok _ => underway h ((t, data) :: F) d | Err _ => mirror_inv d end).
Proof.
  intros Hh HF Ht Hp Hb HtF Hsrc. apply spec_pin. intros d0 (Hi & Hst & Hhas).
  eapply spec_weaken; [by apply (spec_atomicWrite rnd blob_place d0)|by intros d ->|].
  intros [?|e] d Hw; [|exact (inv_visible d0 d Hw Hi)]. destruct Hw as [Hd Hfile]. split_and!.
  - apply (inv_other t d0 d Hd Hb Hi). intros n v b s Hn Hv E H. rewrite Hfile in H. injection H as <- <-.
    split; [done|]. exact (Hsrc n v d0 Hn Hv E Hst).
  - exact (stored_change t h d0 d Hd Hh (Hb h Hh) Hst).
  - constructor; [done|]. unfold has, settled in *. rewrite Forall_forall in *. intros x Hx.
    destruct Hd as (Hf & _). rewrite Hf; [by apply Hhas|].
    intros [Hx'|Hx']; [by apply (HF x Hx)|by apply (HtF x Hx)].
Qed.

Lemma version_file_path n v f :
  plain n → plain v → plain f → version_file root n v f = (root ++ ["modules"; n; v]) ++ [f].
Proof. intros. unfold version_file. rewrite joined_plain by plains. by rewrite <-app_assoc. Qed.

(** A published file of a version: its directory, then the file. *)
Lemma spec_version_file h F n v file data :
  is_hex_name h = true → settled F → plain n → plain v → plain file → HasPrefix file "." = false →
  Forall (λ x, x.1 ≠ version_file root n v file) F →
  (file = "source.json" → ∀ d, stored h d → backed data d) →
  spec (underway h F)
    (try_ (mkdirAll (dir_of (version_file root n v file))) (λ _, atomicWrite rnd (version_file root n v file) data))
    (λ r d, match r with
            | Ok _ => underway h ((version_file root n v file, data) :: F) d
            | Err _ => mirror_inv d
            end).
Proof.
  intros Hh HF Hn Hv Hfile Hdot HtF Hsrc.
  pose proof (version_file_path n v file Hn Hv Hfile) as E.
  assert (passable blob_place (dir_of (version_file root n v file))) as Hp.
  { rewrite E, dir_of_snoc. apply passable_modules. }
  eapply spec_try; [by apply spec_underway_mkdir|intros ?; cbn beta|by intros e d (? & _)].
  apply spec_publish; try done.
  - rewrite E. by apply not_temp_snoc.
  - intros h' Hh' E'. rewrite E, <-app_assoc in E'. by apply app_inv_head in E'.
  - intros n' v' d Hn' Hv' E'. rewrite E, source_path in E' by done.
    apply app_inj_tail in E' as [_ ->]. by apply Hsrc.
Qed.

(** ** The walk's step *)

Context (unmarshal_map : bytes → result string (option (gmap string bytes))).
Context (unmarshal_versions : bytes → result string (list string)).
Context (marshal_versions : list string → bytes) (marshal_map : gmap string bytes → bytes).
Context (GetSourceJSONBytes GetModuleBazel : string → string → result string bytes).
Context (GetMetadataBytes : string → result string bytes).
Context (get : string → result string (list bytes * option string)).
Context (parseDeps : bytes → result string (list (string * string))).

Abbreviation merge := (MergeMetadataWithUpstream rnd root unmarshal_map unmarshal_versions marshal_versions marshal_map).
Abbreviation merged_map := (merge_map unmarshal_map unmarshal_versions marshal_versions).
Abbreviation metadata n := (joined root ["modules"; n; "metadata.json"]).

Lemma metadata_path n : plain n → metadata n = (root ++ ["modules"; n]) ++ ["metadata.json"].
Proof. intros. rewrite joined_plain by plains. by rewrite <-app_assoc. Qed.

Lemma spec_merge h F n v upstream :
  is_hex_name h = true → settled F → plain n → Forall (λ x, x.1 ≠ metadata n) F →
  spec (underway h F) (merge n v upstream)
    (λ r d, match r with
      | Ok _ => ∃ m out, merged_map m upstream v = Ok out ∧
          underway h ((metadata n, marshal_map out ++ [chr 10]) :: F) d
      | Err _ => mirror_inv d
      end).
Proof.
  intros Hh HF Hn HtF. unfold MergeMetadataWithUpstream.
  assert (passable blob_place (dir_of (metadata n))) as Hp.
  { rewrite metadata_path, dir_of_snoc by done. apply passable_modules. }
  eapply spec_bind; [by apply spec_underway_mkdir|]. intros [?|e]; [|by apply spec_ret; intros d (? & _)].
  eapply spec_bind; [apply spec_readFile|]. intros b. cbn beta.
  eapply spec_pre; [|by intros d [? _]].
  destruct (match b with Ok b => _ | Err _ => _ end) as [m|e]; [|by apply spec_ret; intros d (? & _)].
  destruct (merged_map m upstream v) as [out|e] eqn:Hm.
  - eapply spec_bind.
    { apply (spec_publish h F (metadata n) (marshal_map out ++ [chr 10])); try done.
      - rewrite metadata_path by done. by apply not_temp_snoc.
      - intros h' _ E. rewrite metadata_path, <-app_assoc in E by done. by apply app_inv_head in E.
      - intros n' v' d Hn' Hv' E. rewrite metadata_path, source_path in E by done.
        by apply app_inj_tail in E as [_ ?]. }
    intros [?|e]; apply spec_ret; intros d Hd; [by exists m, out|done].
  - assert (∀ e, spec (underway h F) (mret (Err e)) (λ (r : result MergeError unit) d, match r with
      | Ok _ => ∃ m out, merged_map m upstream v = Ok out ∧
          underway h ((metadata n, marshal_map out ++ [chr 10]) :: F) d
      | Err _ => mirror_inv d end)) as Hret by by intros e'; apply spec_ret; intros d (? & _).
    destruct e; apply Hret.
Qed.

Lemma spec_ensure :
  spec mirror_inv (EnsureRegistryJSON rnd root) (λ _, mirror_inv).
Proof.
  unfold EnsureRegistryJSON. set (p := joined root ["bazel_registry.json"]).
  assert (p = root ++ ["bazel_registry.json"]) as E by (apply joined_plain; plains).
  eapply spec_bind; [apply spec_stat|]. intros [|]; [by apply spec_ret; intros d [? _]|].
  apply (spec_pre mirror_inv); [|by intros d [? _]]. apply spec_pin. intros d0 Hi.
  eapply spec_weaken; [apply (spec_atomicWrite rnd blob_place d0)|by intros d ->|].
  - rewrite E. by apply not_temp_snoc.
  - rewrite E, dir_of_snoc. rewrite <-(app_nil_r root). apply passable_app. by intros [|k] h.
  - intros [?|e] d Hw; [|exact (inv_visible d0 d Hw Hi)]. destruct Hw as [Hd _].
    apply (inv_other p d0 d Hd); [|done|].
    + intros h _ E'. rewrite E in E'. by apply app_inv_head in E'.
    + intros n v b s Hn Hv E'. rewrite E, source_path, <-app_assoc in E' by done. by apply app_inv_head in E'.
Qed.

(** The archive as it was fetched and accepted. *)
Definition accepted (src : SourceJSON) (data : bytes) : Prop :=
  ∃ chunks, get (src_URL src) = Ok (chunks, None) ∧ data = concat chunks ∧
    (src_Integrity src = "" ∨ src_Integrity src = SRI (sha256 data)).

Lemma spec_store src sink d0 :
  mirror_inv d0 → sb_hashed sink = [] → is_temp (sb_tmp sink) →
  spec (λ d, visible d0 d ∧ ∃ s, files d !! sb_tmp sink = Some ([], s))
    (store_archive root get src sink)
    (λ r d, match r with
      | Ok _ => mirror_inv d ∧ ∃ data, accepted src data ∧ stored (address data) d
      | Err _ => visible d0 d
      end).
Proof.
  intros Hi He Ht. unfold store_archive, FetchArchive.
  case_decide; [by eapply spec_pre; [by apply spec_Abort|by intros d [? _]]|].
  destruct (get (src_URL src)) as [[chunks fail]|e] eqn:Hget;
    [|by eapply spec_pre; [by apply spec_Abort|by intros d [? _]]].
  eapply spec_bind; [rewrite <-He; by apply (spec_copy_body rnd root blob_place d0)|].
  intros [[err b] vr]. cbn beta. simpl. rewrite He, !app_nil_l.
  apply (spec_pre (λ d, is_temp (sb_tmp b) ∧ visible d0 d ∧ (err = None → fail = None ∧ sink_ok b d ∧
    sb_hashed b = concat chunks ∧ vr_hashed vr = concat chunks ∧ vr_expected vr = src_Integrity src)));
    [|by intros d (? & ? & ?)].
  apply spec_pure. intros Htb. destruct err as [e|]; [by eapply spec_pre; [by apply spec_Abort|by intros d [? _]]|].
  apply (spec_pre (λ d, (fail = None ∧ sb_hashed b = concat chunks ∧ vr_hashed vr = concat chunks ∧
    vr_expected vr = src_Integrity src) ∧ visible d0 d ∧ ∃ s, files d !! sb_tmp b = Some (sb_hashed b, s)));
    [|intros d [Hd Hc]; destruct (Hc eq_refl) as (? & [_ ?] & ? & ? & ?); by split_and!].
  apply spec_pure. intros (-> & Hb & Hv & Hx).
  destruct (Verify vr) as [?|] eqn:HV; [by eapply spec_pre; [by apply spec_Abort|by intros d [? _]]|].
  apply Verify_ok in HV. unfold Sum in HV. rewrite Hv, Hx in HV.
  assert (accepted src (sb_hashed b)) as Hacc by (exists chunks; by rewrite Hb).
  eapply spec_weaken; [apply (spec_sink_Close root blob_place d0)|..].
  - eexists. by split; [apply address_name|].
  - done.
  - by intros d ?.
  - intros [[[p sri] k]|e] d; [|done]. intros (_ & _ & Hd).
    set (c := sb_hashed b) in *. pose proof (address_name c) as Hn.
    destruct Hd as [[Hd Hin]|[Hd Hf]].
    + pose proof (inv_visible _ _ Hd Hi) as Hi'. split; [done|]. exists c. split; [done|].
      destruct Hin as [[[c' s] Hin]%elem_of_dom|Hin]; [|by edestruct (mi_dirs _ Hi); [by exists (address c)|]].
      destruct (mi_blobs _ Hi _ _ _ Hn Hin) as [-> Hc']. exists c'. split; [done|].
      destruct Hd as (Hd & _). rewrite Hd; [done|by apply blob_not_temp].
    + split; [by eapply inv_blob|]. exists c. split; [done|]. by exists c.
Qed.

Abbreviation walk1 := (walkOneMirrored rnd root unmarshal_map unmarshal_versions marshal_versions marshal_map
  GetSourceJSONBytes GetModuleBazel GetMetadataBytes get ParseSourceJSON parseDeps).

(** What a successful step leaves behind. *)
Definition published (n v : string) (deps : list (string * string)) (d : disk) : Prop :=
  ∃ srcBytes src modBytes data m out,
    GetSourceJSONBytes n v = Ok srcBytes ∧ ParseSourceJSON srcBytes = Ok src ∧
    GetModuleBazel n v = Ok modBytes ∧ parseDeps modBytes = Ok deps ∧
    accepted src data ∧ stored (address data) d ∧
    files d !! source n v = Some (srcBytes, true) ∧
    files d !! version_file root n v "MODULE.bazel" = Some (modBytes, true) ∧
    merged_map m (match GetMetadataBytes n with Ok b => b | Err _ => [] end) v = Ok out ∧
    files d !! metadata n = Some (marshal_map out ++ [chr 10], true).

Lemma spec_walk n v :
  plain n → plain v →
  spec mirror_inv (walk1 n v) (λ r d, mirror_inv d ∧ ∀ deps, r = Ok deps → published n v deps d).
Proof.
  intros Hn Hv. unfold walkOneMirrored.
  assert (∀ (A : Type) (P : disk → Prop) (e : string) (Q : list (string * string) → disk → Prop),
    (∀ d, P d → mirror_inv d) →
    spec P (mret (Err e) : os (result string (list (string * string))))
      (λ r d, mirror_inv d ∧ ∀ deps, r = Ok deps → Q deps d)) as Hfail.
  { intros A P e Q HP. apply spec_ret. intros d Hd. split; [by apply HP|done]. }
  eapply spec_try; [apply spec_ensure|intros ?; cbn beta|by intros].
  destruct (GetSourceJSONBytes n v) as [srcBytes|e] eqn:Hsrc; [|by apply (Hfail nat)].
  change (try_ (mret (Ok srcBytes)) ?f) with (f srcBytes). cbn beta.
  destruct (ParseSourceJSON srcBytes) as [src|e] eqn:Hparse; [|by apply (Hfail nat)].
  change (try_ (mret (Ok src)) ?f) with (f src). cbn beta.
  case_decide; [by apply (Hfail nat)|].
  destruct (GetModuleBazel n v) as [modBytes|e] eqn:Hmod; [|by apply (Hfail nat)].
  change (try_ (mret (Ok modBytes)) ?f) with (f modBytes). cbn beta.
  apply spec_pin. intros d0 Hi.
  apply (spec_pre (visible d0)); [|by intros d ->].
  eapply spec_try; [apply spec_BlobWriter|intros sink; cbn beta|].
  { apply passable_app. intros [|[|k]] h E; discriminate. }
  2: { intros e d [Hd _]. split; [exact (inv_visible d0 d Hd Hi)|done]. }
  apply (spec_pre (λ d, (sb_hashed sink = [] ∧ is_temp (sb_tmp sink)) ∧ visible d0 d ∧
    ∃ s, files d !! sb_tmp sink = Some ([], s))).
  2: { intros d [Hd Hs]. destruct (Hs sink eq_refl) as [[Ht Hf] He]. rewrite He in Hf. by split_and!. }
  apply spec_pure. intros [He Ht].
  eapply spec_try; [by apply (spec_store src sink d0)|intros ?; cbn beta|].
  2: { intros e d Hd. split; [exact (inv_visible d0 d Hd Hi)|done]. }
  apply (spec_pre (λ d, ∃ data, accepted src data ∧ underway (address data) [] d)).
  2: { intros d (Hi' & data & Ha & Hs). exists data. split; [done|]. by split_and!; [..|constructor]. }
  apply spec_exists. intros data. apply spec_pure. intros Hacc.
  pose proof (address_name data) as Hh.
  assert (∀ d, stored (address data) d → backed srcBytes d) as Hback.
  { intros d Hs src' E Hne. rewrite Hparse in E. injection E as <-.
    destruct Hacc as (_ & _ & _ & [?|E]); [done|]. exists (address data). split; [|done].
    rewrite E. apply sriToHex_SRI, length_sha256. }
  assert (plain "source.json" ∧ plain "MODULE.bazel") as [Hp1 Hp2] by (split; by apply plain_lit).
  pose proof (version_file_path n v "source.json" Hn Hv Hp1) as E1.
  pose proof (version_file_path n v "MODULE.bazel" Hn Hv Hp2) as E2.
  pose proof (metadata_path n Hn) as E3.
  eapply spec_try; [apply (spec_version_file (address data) [] n v "source.json" srcBytes); try done; by constructor
    |intros ?; cbn beta|by intros].
  eapply spec_try; [apply (spec_version_file (address data) _ n v "MODULE.bazel" modBytes); try done|intros ?; cbn beta|by intros].
  { repeat constructor. simpl. rewrite E1. by apply not_temp_snoc. }
  { repeat constructor. simpl. rewrite E1, E2. intros E. by apply app_inj_tail in E as [_ ?]. }
  eapply spec_bind; [apply (spec_merge (address data)); try done|intros [?|e]; cbn beta].
  { repeat constructor; simpl; [rewrite E2|rewrite E1]; by apply not_temp_snoc. }
  { repeat constructor; simpl; [rewrite E2|rewrite E1]; rewrite E3; intros E;
      apply app_inj_tail in E as [E _]; by apply app_inv_head in E. }
  2: { by apply (Hfail nat). }
  apply spec_ret. intros d (m & out & Hm & Hi' & Hst & Hhas). split; [done|]. intros deps Hdeps.
  unfold has in Hhas. rewrite !Forall_cons in Hhas. destruct Hhas as (H3 & H2 & H1 & _).
  exists srcBytes, src, modBytes, data, m, out. by split_and!.
Qed.

(** C1: Mirroring a version keeps the mirror sound whatever fails: after any plan of
    faults, if the process dies at any point, and if the machine then loses
    power, every stored archive is whole and has the digest in its name, and
    every source.json that declares an integrity finds its archive.  A step that
    succeeds has published exactly what the registry served, with the archive
    accepted under its declared integrity. *)
Theorem mirror_sound n v w cut :
  plain n → plain v → mirror_inv (w_disk w) →
  let r := (walk1 n v w).1 in
  let d := w_disk (walk1 n v w).2 in
  mirror_inv d ∧ mirror_inv (power_loss cut d) ∧ (∀ deps, r = Ok deps → published n v deps d).
Proof.
  intros Hn Hv Hw. destruct (spec_walk n v Hn Hv w Hw) as [Hi Hp].
  split_and!; [done|by apply inv_power_loss|done].
Qed.

(** ** Nothing unverified is served *)

Abbreviation registry_json := (joined root ["bazel_registry.json"]).
Abbreviation untouched := (visible_but registry_json).

Lemma spec_ensure_untouched d0 :
  spec (λ d, d = d0) (EnsureRegistryJSON rnd root) (λ _, untouched d0).
Proof.
  assert (registry_json = root ++ ["bazel_registry.json"]) as E by (apply joined_plain; plains).
  unfold EnsureRegistryJSON. eapply spec_bind; [apply spec_stat|].
  intros [|]; [by apply spec_ret; intros d [-> _]|].
  apply (spec_pre (λ d, d = d0)); [|by intros d [? _]].
  eapply spec_weaken; [apply (spec_atomicWrite rnd blob_place d0)|by intros d ->|].
  - rewrite E. by apply not_temp_snoc.
  - rewrite E, dir_of_snoc. rewrite <-(app_nil_r root). apply passable_app. by intros [|k] h.
  - intros [?|e] d Hw; [by destruct Hw|by apply visible_weaken].
Qed.

Lemma spec_walk_unverified n v d0 :
  mirror_inv d0 →
  (∀ b src data, GetSourceJSONBytes n v = Ok b → ParseSourceJSON b = Ok src → ¬ accepted src data) →
  spec (λ d, d = d0) (walk1 n v) (λ r d, is_ok r = false ∧ untouched d0 d).
Proof.
  intros Hi Hna. unfold walkOneMirrored.
  assert (∀ P (e : string), (∀ d, P d → untouched d0 d) →
    spec P (mret (Err e) : os (result string (list (string * string)))) (λ r d, is_ok r = false ∧ untouched d0 d)) as Hfail.
  { intros P e HP. apply spec_ret. intros d Hd. split; [done|by apply HP]. }
  eapply spec_try with (R := λ _ d, untouched d0 d ∧ mirror_inv d);
    [|intros ?; cbn beta|by intros e d [? _]].
  { intros w Hw. split; [by apply spec_ensure_untouched|]. apply spec_ensure. by rewrite Hw. }
  destruct (GetSourceJSONBytes n v) as [srcBytes|e] eqn:Hsrc; [|by apply Hfail; intros d [? _]].
  change (try_ (mret (Ok srcBytes)) ?f) with (f srcBytes). cbn beta.
  destruct (ParseSourceJSON srcBytes) as [src|e] eqn:Hparse; [|by apply Hfail; intros d [? _]].
  change (try_ (mret (Ok src)) ?f) with (f src). cbn beta.
  case_decide; [by apply Hfail; intros d [? _]|].
  destruct (GetModuleBazel n v) as [modBytes|e] eqn:Hmod; [|by apply Hfail; intros d [? _]].
  change (try_ (mret (Ok modBytes)) ?f) with (f modBytes). cbn beta.
  apply spec_pin. intros d1 [Hd1 Hi1].
  apply (spec_pre (visible d1)); [|by intros d ->].
  assert (∀ d, visible d1 d → untouched d0 d) as Huv.
  { intros d Hd. etrans; [exact Hd1|]. by apply visible_weaken. }
  eapply spec_try; [apply spec_BlobWriter|intros sink; cbn beta|].
  { apply passable_app. intros [|[|k]] h E; discriminate. }
  2: { intros e d [Hd _]. split; [done|by apply Huv]. }
  apply (spec_pre (λ d, (sb_hashed sink = [] ∧ is_temp (sb_tmp sink)) ∧ visible d1 d ∧
    ∃ s, files d !! sb_tmp sink = Some ([], s))).
  2: { intros d [Hd Hs]. destruct (Hs sink eq_refl) as [[Ht Hf] He]. rewrite He in Hf. by split_and!. }
  apply spec_pure. intros [He Ht].
  eapply spec_try; [by apply (spec_store src sink d1)|intros ?; cbn beta|].
  2: { intros e d Hd. split; [done|by apply Huv]. }
  intros w (_ & data & Hacc & _). by destruct (Hna srcBytes src data).
Qed.

(** C3: An archive that cannot be fetched, breaks off or does not match the declared
    integrity publishes nothing: the step fails and every file that is served,
    [bazel_registry.json] apart, is as it was. *)
Theorem unverified_unpublished n v w p :
  mirror_inv (w_disk w) →
  (∀ b src data, GetSourceJSONBytes n v = Ok b → ParseSourceJSON b = Ok src → ¬ accepted src data) →
  ¬ is_temp p → p ≠ registry_json →
  is_ok (walk1 n v w).1 = false ∧ files (w_disk (walk1 n v w).2) !! p = files (w_disk w) !! p.
Proof.
  intros Hi Hna Ht Hp. destruct (spec_walk_unverified n v (w_disk w) Hi Hna w eq_refl) as [Hr (Hf & _)].
  split; [done|]. apply Hf. naive_solver.
Qed.
End walk_proofs.

(** ** Single files *)

(** [atomicWrite] is atomic: whatever fails or dies, and even if power is lost
    afterwards, the target holds its old content or the new content whole, the
    new one whenever the call succeeds; no other served file changes. *)
Theorem atomicWrite_atomic rnd target data w cut :
  ¬ is_temp target →
  let r := (atomicWrite rnd target data w).1 in
  let d := w_disk (atomicWrite rnd target data w).2 in
  let old := files (w_disk w) !! target in
  files d !! target = (if is_ok r then Some (data, true) else old) ∧
  (∀ p, ¬ is_temp p → p ≠ target → files d !! p = files (w_disk w) !! p) ∧
  ((∀ c s, old = Some (c, s) → s = true) →
   files (power_loss cut d) !! target = if is_ok r then Some (data, true) else old).
Proof.
  intros Ht. pose proof (spec_atomicWrite rnd (λ _, False) (w_disk w) target data Ht) as H.
  specialize (H (λ k (f : False), f) w). cbn zeta.
  destruct (atomicWrite rnd target data w) as [r w']. cbn [fst snd] in *.
  specialize (H (reflexivity _)). unfold written in H. destruct (is_ok r).
  - destruct H as [(Hf & _) Hd]. split_and!; [done|naive_solver|]. intros _. by apply power_loss_lookup.
  - destruct H as (Hf & _). rewrite (Hf target) by done. split_and!; [done|naive_solver|].
    intros Hs. simpl. rewrite map_lookup_imap, Hf by done.
    destruct (files (w_disk w) !! target) as [[c s]|]; [|done]. by rewrite (Hs c s eq_refl).
Qed.

Lemma segs_Join_names l :
  l ≠ [] → Forall (λ x, x ≠ "" ∧ x ≠ "." ∧ slash ∉ to_bytes x) l → segs (Join l "/") = l.
Proof.
  intros Hne Hl. unfold segs. rewrite Split_Join; [|done|].
  - apply filter_all. eapply Forall_impl; [exact Hl|]. by intros x (? & ? & _).
  - eapply Forall_impl; [exact Hl|]. by intros x (_ & _ & ?).
Qed.

Lemma resolve_up k l : length l ≤ k → foldl resolve_step l (replicate k "..") = [].
Proof.
  revert l. induction k as [|k IH]; intros l Hl; simpl; [by destruct l; simpl in *; [|lia]|].
  apply IH. unfold resolve_step. rewrite decide_True by done. rewrite length_take. lia.
Qed.

(** Module names and versions are joined into paths as they come: for every
    directory there is a name and a version, neither blank, whose files the
    writer puts there, outside the mirror's root. *)
Theorem names_reach_anywhere root t f :
  Forall plain t → t ≠ [] → plain f →
  ∃ n v, TrimSpace n ≠ "" ∧ TrimSpace v ≠ "" ∧ version_file root n v f = t ++ [f].
Proof.
  intros Ht Hne Hf. pose proof (segs_one f Hf) as Ef.
  exists (Join (replicate (S (length root)) "..") "/"), ("." +:+ "/" +:+ Join t "/").
  assert (Forall (λ p, "."%char ∉ p) white_space) as Hdot by (apply (bool_decide_unpack _); reflexivity).
  split_and!; [|by apply (TrimSpace_keeps "."%char); [|left]|].
  { apply (TrimSpace_keeps "."%char); [done|]. destruct (length root); by left. }
  assert (segs (Join (replicate (S (length root)) "..") "/") = replicate (S (length root)) "..") as En.
  { apply segs_Join_names; [done|]. apply Forall_replicate. split_and!; [done|done|].
    apply (bool_decide_unpack _). reflexivity. }
  assert (segs ("." +:+ "/" +:+ Join t "/") = t) as Ev.
  { rewrite segs_app, segs_Join_names; [done|done|]. eapply Forall_impl; [exact Ht|]. by intros x (? & ? & ? & ?). }
  unfold version_file, joined. cbn [flat_map]. rewrite En, Ev, Ef.
  change (segs "modules") with ["modules"]. rewrite !app_nil_r, !foldl_app. cbn [foldl].
  unfold resolve_step at 1. rewrite decide_False.
  2: { by destruct Hf as (_ & _ & ? & _). }
  f_equal. rewrite (resolve_plain (foldl _ _ _)) by by apply plain_nodd.
  change (resolve_step root "modules") with (root ++ ["modules"]).
  rewrite resolve_up; [done|]. rewrite length_app. simpl. lia.
Qed.

(** ** metadata.json *)

Section metadata.
Context (unmarshal_map : bytes → result string (option (gmap string bytes))).
Context (unmarshal_versions : bytes → result string (list string)).
Context (marshal_versions : list string → bytes).
(** What [encoding/json] does to a raw value it writes out indented and reads back:
    the value stays.  Strings it can hold are valid UTF-8. *)
Context (reindent : bytes → bytes) (valid : string → Prop).
Context (Hversions : ∀ l, Forall valid l → unmarshal_versions (reindent (marshal_versions l)) = Ok l).
Context (Hvalid : ∀ raw l, unmarshal_versions raw = Ok l → Forall valid l).
Abbreviation merged_map := (merge_map unmarshal_map unmarshal_versions marshal_versions).

(** The versions a metadata.json lists. *)
Definition versions_in (m : gmap string bytes) : result string (list string) :=
  match m !! "versions" with None => Ok [] | Some raw => unmarshal_versions raw end.

(** What an upstream's metadata.json says. *)
Definition upstream_fields (upstream : bytes) : gmap string bytes :=
  match upstream with
  | [] => ∅
  | _ => match unmarshal_map upstream with Ok (Some u) => u | _ => ∅ end
  end.

(** The merges of a module's versions one after the other, each reading what the
    one before has written. *)
Fixpoint merges (m : gmap string bytes) (jobs : list (bytes * string)) : result MergeError (gmap string bytes) :=
  match jobs with
  | [] => Ok m
  | (u, v) :: js => match merged_map (Some m) u v with
                    | Ok out => merges (reindent <$> out) js
                    | Err e => Err e
                    end
  end.

Lemma lift_lookup u m k :
  lift u m !! k = if decide (k ∈ upstreamMetadataLiftedFields ∧ is_Some (u !! k)) then u !! k else m !! k.
Proof.
  unfold lift. generalize upstreamMetadataLiftedFields. intros ks. revert m.
  induction ks as [|k' ks IH]; intros m; cbn [foldl].
  - rewrite decide_False; [done|]. intros [?%elem_of_nil _]. done.
  - rewrite IH. destruct (u !! k) as [x|] eqn:Hk.
    + destruct (decide (k ∈ ks)) as [Hin|Hin].
      * rewrite !decide_True; [done|by split; [right|]|by split].
      * rewrite (decide_False (P := k ∈ ks ∧ _)) by by intros [? _].
        destruct (decide (k = k')) as [->|Hne].
        -- rewrite decide_True by by split; [left|]. by rewrite Hk, lookup_insert_eq.
        -- rewrite decide_False; [|by intros [[?|?]%elem_of_cons _]].
           destruct (u !! k') as [y|]; [by rewrite lookup_insert_ne|done].
    + rewrite !decide_False by by intros [_ [? ?]]. destruct (decide (k = k')) as [->|Hne]; [by rewrite Hk|].
      destruct (u !! k') as [y|]; [by rewrite lookup_insert_ne|done].
Qed.

Lemma lift_empty m : lift ∅ m = m.
Proof. apply map_eq. intros k. rewrite lift_lookup, lookup_empty, decide_False; [done|]. by intros [_ [? ?]]. Qed.

Lemma merge_map_ok m upstream v out :
  merged_map (Some m) upstream v = Ok out ↔
  (upstream = [] ∨ is_ok (unmarshal_map upstream) = true) ∧
  ∃ l, versions_in m = Ok l ∧
    out = <["versions" := marshal_versions (add_version l v)]> (lift (upstream_fields upstream) m).
Proof.
  unfold merge_map. set (lm := match upstream with [] => _ | _ => _ end).
  assert ((upstream = [] ∨ is_ok (unmarshal_map upstream) = true) ∧ lm = Ok (Some (lift (upstream_fields upstream) m)) ∨
    ¬ (upstream = [] ∨ is_ok (unmarshal_map upstream) = true) ∧ ∃ e, lm = Err e) as [[Hu ->]|[Hu [e ->]]].
  { unfold lm, upstream_fields. destruct upstream as [|c up]; [left; rewrite lift_empty; auto|].
    destruct (unmarshal_map (c :: up)) as [[u|]|e]; [left; auto|left; rewrite lift_empty; auto|right].
    split; [by intros [?|?]|by eexists]. }
  - cbn [mbind result_bind]. change (default ∅ (Some ?x)) with x. assert (lift (upstream_fields upstream) m !! "versions" = m !! "versions") as ->.
    { rewrite lift_lookup, decide_False; [done|]. intros [H _]. revert H.
      apply (bool_decide_unpack (¬ "versions" ∈ upstreamMetadataLiftedFields)). reflexivity. }
    unfold versions_in. destruct (m !! "versions") as [raw|]; [destruct (unmarshal_versions raw) as [l|e]|];
      cbn [mbind result_bind map_err]; naive_solver.
  - cbn [mbind result_bind]. naive_solver.
Qed.

Lemma versions_reload l m :
  Forall valid l → versions_in (reindent <$> <["versions" := marshal_versions l]> m) = Ok l.
Proof. intros Hl. unfold versions_in. rewrite lookup_fmap, lookup_insert_eq. simpl. by apply Hversions. Qed.

Abbreviation sorted := (StronglySorted (not_after String.ltb)).

Lemma add_version_elem l v x : x ∈ add_version l v ↔ x ∈ l ∨ x = v.
Proof.
  unfold add_version. case_decide; [naive_solver|].
  rewrite elem_of_sort_slice, elem_of_app, list_elem_of_singleton. done.
Qed.

Lemma add_version_sorted l v : sorted l → NoDup l → sorted (add_version l v) ∧ NoDup (add_version l v).
Proof.
  intros Hs Hn. unfold add_version. case_decide as Hv; [done|]. split; [by apply sort_slice_sorted; apply _|].
  apply NoDup_sort_slice, NoDup_app. split_and!; [done| |apply NoDup_singleton].
  intros x Hx ->%list_elem_of_singleton. done.
Qed.

(** Mirroring the versions of a module, in whatever order and with whatever the
    upstream says of it, loses none of them: the list ends up sorted, without
    duplicates, and with exactly the versions it had and those merged; each
    merge takes the upstream's word for the registry-level fields it gives and
    leaves every other field as it was. *)
Theorem merges_keep_versions m jobs out l0 :
  versions_in m = Ok l0 → sorted l0 → NoDup l0 → Forall valid jobs.*2 → merges m jobs = Ok out →
  (∃ l, versions_in out = Ok l ∧ sorted l ∧ NoDup l ∧ ∀ v, v ∈ l ↔ v ∈ l0 ∨ v ∈ jobs.*2) ∧
  ∀ u v js out1, jobs = (u, v) :: js → merged_map (Some m) u v = Ok out1 →
    ∀ k, k ≠ "versions" → out1 !! k =
      if decide (k ∈ upstreamMetadataLiftedFields ∧ is_Some (upstream_fields u !! k))
      then upstream_fields u !! k else m !! k.
Proof.
  intros Hl0 Hs Hn Hjobs Hout. split.
  - revert m l0 Hl0 Hs Hn Hout. induction jobs as [|[u v] js IH]; intros m l0 Hl0 Hs Hn Hout.
    { injection Hout as <-. exists l0. split_and!; try done. intros v. rewrite elem_of_nil. naive_solver. }
    cbn [merges] in Hout. destruct (merged_map (Some m) u v) as [out1|e] eqn:Hm; [|done].
    apply merge_map_ok in Hm as (_ & l & Hl & ->). rewrite Hl0 in Hl. injection Hl as <-.
    cbn in Hjobs. apply Forall_cons in Hjobs as [Hv Hjobs].
    assert (Forall valid l0) as Hl0v.
    { unfold versions_in in Hl0. destruct (m !! "versions"); [by eapply Hvalid|by injection Hl0 as <-]. }
    destruct (add_version_sorted l0 v Hs Hn) as [Hs' Hn'].
    destruct (IH Hjobs _ (add_version l0 v)
      (versions_reload (add_version l0 v) _ ltac:(rewrite Forall_forall; intros x [Hx| ->]%add_version_elem;
        [by apply (proj1 (Forall_forall _ _) Hl0v)|done])) Hs' Hn' Hout) as (l & H1 & H2 & H3 & H4).
    exists l. split_and!; try done. intros x. rewrite H4, add_version_elem, fmap_cons, elem_of_cons. simpl. naive_solver.
  - intros u v js out1 -> Hm k Hk. apply merge_map_ok in Hm as (_ & l & _ & ->).
    rewrite lookup_insert_ne by done. apply lift_lookup.
Qed.
End metadata.

(** ** A registry to try it on

    source.json is its integrity, one-byte versions are their JSON, and the archive
    arrives in three chunks. *)

Definition demo_rnd (_ : disk) (_ : path) (_ : string) : string := "1".
Definition demo_root_path : path := ["srv"; "mirror"].
Definition demo_parse (b : bytes) : result string SourceJSON :=
  Ok (mkSourceJSON "archive" "https://example.org/a.tar.gz" (of_bytes b) "" "" ∅ 0).
Definition demo_unmarshal_map (b : bytes) : result string (option (gmap string bytes)) :=
  Ok (Some {["versions" := take (length b - 1) b]}).
Definition demo_unmarshal_versions (raw : bytes) : result string (list string) :=
  Ok ((λ c, String c "") <$> raw).
Definition demo_marshal_versions (l : list string) : bytes := l ≫= to_bytes.
Definition demo_marshal_map (m : gmap string bytes) : bytes := default [] (m !! "versions").
Definition demo_walk1 (sri : string) (faults : list fault) : result string (list (string * string)) * world :=
  walkOneMirrored demo_rnd demo_root_path demo_unmarshal_map demo_unmarshal_versions demo_marshal_versions
    demo_marshal_map (λ _ _, Ok (to_bytes sri)) (λ _ _, Ok (to_bytes "module()")) (λ _, Err "404")
    (λ _, Ok (demo_data, None)) demo_parse (λ _, Ok [("b", "1")]) "a" "1" (mkWorld (mkDisk ∅ ∅) faults true).

Lemma empty_inv parse root : mirror_inv root parse (mkDisk ∅ ∅).
Proof. split; [by intros h c s _|by intros p _|by intros n v b s _ _]. Qed.

Lemma mirror_sound_witness :
  mirror_inv demo_root_path demo_parse (w_disk (demo_walk1 demo_sri []).2) ∧
  (demo_walk1 demo_sri []).1 = Ok [("b", "1")] ∧
  mirror_inv demo_root_path demo_parse (power_loss (λ _, 0) (w_disk (demo_walk1 demo_sri [Fine; Fine; Fine; Crash 0]).2)).
Proof.
  assert (plain "a" ∧ plain "1") as [Ha H1] by (split; by apply plain_lit).
  pose proof (λ faults, mirror_sound demo_rnd demo_root_path demo_parse demo_unmarshal_map demo_unmarshal_versions
    demo_marshal_versions demo_marshal_map (λ _ _, Ok (to_bytes demo_sri)) (λ _ _, Ok (to_bytes "module()"))
    (λ _, Err "404") (λ _, Ok (demo_data, None)) (λ _, Ok [("b", "1")]) "a" "1"
    (mkWorld (mkDisk ∅ ∅) faults true) (λ _, 0) Ha H1 (empty_inv demo_parse demo_root_path)) as H.
  unfold demo_walk1. split_and!.
  - exact (proj1 (H [])).
  - vm_compute. reflexivity.
  - exact (proj1 (proj2 (H [Fine; Fine; Fine; Crash 0]))).
Defined.

(** The same archive under another integrity. *)
Definition other_sri : string := Eval vm_compute in SRI (sha256 (to_bytes "other")).

Lemma unverified_unpublished_witness :
  is_ok (demo_walk1 other_sri []).1 = false ∧
  files (w_disk (demo_walk1 other_sri []).2) !! ["srv"; "mirror"; "modules"; "a"; "1"; "source.json"] =
  files (mkDisk ∅ ∅) !! ["srv"; "mirror"; "modules"; "a"; "1"; "source.json"].
Proof.
  unfold demo_walk1. apply (unverified_unpublished demo_rnd demo_root_path demo_parse demo_unmarshal_map demo_unmarshal_versions
    demo_marshal_versions demo_marshal_map (λ _ _, Ok (to_bytes other_sri)) (λ _ _, Ok (to_bytes "module()"))
    (λ _, Err "404") (λ _, Ok (demo_data, None)) (λ _, Ok [("b", "1")]) "a" "1"
    (mkWorld (mkDisk ∅ ∅) [] true) ["srv"; "mirror"; "modules"; "a"; "1"; "source.json"]).
  - apply empty_inv.
  - intros b src data [= <-] [= <-] (chunks & [= <-] & -> & [H|H]); revert H; vm_compute; discriminate.
  - apply (not_temp_snoc ["srv"; "mirror"; "modules"; "a"; "1"] "source.json"). reflexivity.
  - done.
Defined.

Lemma atomicWrite_atomic_witness :
  let w := mkWorld (mkDisk {[["d"; "t"] := (to_bytes "old", true)]} ∅) [Fine; Fine; Fails 1 "no space"] true in
  is_ok (atomicWrite demo_rnd ["d"; "t"] (to_bytes "new") w).1 = false ∧
  files (w_disk (atomicWrite demo_rnd ["d"; "t"] (to_bytes "new") w).2) !! ["d"; "t"] = Some (to_bytes "old", true).
Proof.
  intros w. assert (¬ is_temp ["d"; "t"]) as Ht by by apply (not_temp_snoc ["d"] "t").
  destruct (atomicWrite_atomic demo_rnd ["d"; "t"] (to_bytes "new") w (λ _, 0) Ht) as [H _].
  split; [vm_compute; reflexivity|]. rewrite H. vm_compute. reflexivity.
Defined.

Lemma names_reach_anywhere_witness :
  ∃ n v, TrimSpace n ≠ "" ∧ TrimSpace v ≠ "" ∧
    version_file ["srv"; "mirror"] n v "source.json" = ["etc"; "app"; "source.json"].
Proof.
  apply (names_reach_anywhere ["srv"; "mirror"] ["etc"; "app"] "source.json"); [|done|by apply plain_lit].
  plains.
Defined.

Lemma merges_keep_versions_witness :
  ∃ out, merges demo_unmarshal_map demo_unmarshal_versions demo_marshal_versions id ∅ [([], "2"); ([], "1"); ([], "2")] = Ok out ∧
    ∃ l, versions_in demo_unmarshal_versions out = Ok l ∧ StronglySorted (not_after String.ltb) l ∧ NoDup l ∧
      ∀ v, v ∈ l ↔ v ∈ (@nil string) ∨ v ∈ ["2"; "1"; "2"].
Proof.
  eexists. split; [reflexivity|].
  assert (∀ l, Forall (λ s, ∃ c, s = String c "") l →
    demo_unmarshal_versions (id (demo_marshal_versions l)) = Ok l) as Hv.
  { intros l Hl. unfold demo_unmarshal_versions, demo_marshal_versions, id. f_equal.
    induction Hl as [|s l [c ->] Hl IH]; [done|].
    rewrite bind_cons, fmap_app, IH. done. }
  assert (∀ raw l, demo_unmarshal_versions raw = Ok l → Forall (λ s, ∃ c, s = String c "") l) as Hr.
  { intros raw l [= <-]. apply Forall_fmap, Forall_true. intros c. by eexists. }
  eapply (merges_keep_versions demo_unmarshal_map demo_unmarshal_versions demo_marshal_versions id
    (λ s, ∃ c, s = String c "") Hv Hr ∅ [([], "2"); ([], "1"); ([], "2")] _ []).
  - done.
  - constructor.
  - constructor.
  - repeat constructor; by eexists.
  - reflexivity.
Defined.
