(* ===== verification/Verify.v ===== *)
(** * Verification of a mirror

    [internal/verify]: one walk over the mirror's tree and one dump of the index
    make a snapshot, and every check is a function of it.  Read errors are a
    parameter; the index, the parsers and the analysis of an archive are
    parameters too. *)

From stdpp Require Import pretty.
From S2P Require Import Prelude Report ModuleDiff Breaking Strings Archive Digest FileSystem Mirror.

(** ** Findings *)

Inductive Severity : Type := SevError | SevWarning | SevInfo.
#[export] Instance Severity_eq_dec : EqDecision Severity.
Proof. solve_decision. Defined.

Abbreviation Kind := string.
Definition KindBlobIntegrity : Kind := "blob_integrity".
Definition KindBlobMissing : Kind := "blob_missing".
Definition KindSourceJSONSchema : Kind := "source_json_schema".
Definition KindModuleBazelPresent : Kind := "module_bazel_present".
Definition KindIndexMirrorAgreement : Kind := "index_mirror_agreement".
Definition KindOrphanBlobs : Kind := "orphan_blobs".
Definition KindDeepReportMismatch : Kind := "deep_report_mismatch".
Definition KindScipMissing : Kind := "scip_missing".

Inductive detail : Type := DStr (s : string) | DInt (z : Z).

Record Finding := mkFinding {
  f_Kind : Kind;
  f_Severity : Severity;
  f_Module : string;
  f_Version : string;
  f_Path : string;
  f_Message : string;
  f_Fix : string;
  f_Details : list (string * detail);
}.

(** ** The snapshot *)

Abbreviation moduleKey := (string * string)%type.

Record moduleState := mkModuleState {
  ms_sourceJSONErr : string;
  ms_source : option SourceJSON;
  ms_moduleBazelErr : string;
  ms_moduleBazelRaw : bytes;
  ms_expectedBlobHex : string;
}.

Record blobState := mkBlobState { bl_hex : string; bl_path : path; bl_size : Z }.

Record state := mkState {
  st_root : path;
  st_store : bool;
  st_modules : gmap moduleKey moduleState;
  st_blobs : gmap string blobState;
  st_indexed : gset moduleKey;
  st_scipIndexed : gset moduleKey;
  st_referencedBlobs : gset string;
}.

Definition key_less (a b : moduleKey) : bool := lex_less fst String.ltb (λ a b, String.ltb a.2 b.2) a b.

Definition sortedModuleKeys {V} (m : gmap moduleKey V) : list moduleKey := sort_slice key_less (map_to_list m).*1.
Definition sortedBlobHexes {V} (m : gmap string V) : list string := sort_slice String.ltb (map_to_list m).*1.

Section verify.
(** Paths that cannot be read, and why. *)
Context (unreadable : path → option string).
Context (ParseSourceJSON : bytes → result string SourceJSON).
(** The quoted form of a string, the [fmt] verb q. *)
Context (quote : string → string).

(** The names of a directory's entries, and which are directories. *)
Definition is_plain (x : string) : bool :=
  bool_decide (x ≠ "" ∧ x ≠ "." ∧ x ≠ "..") && negb (bool_decide (slash ∈ to_bytes x)).

Definition child (p q : path) : option string :=
  match drop (length p) q with
  | [x] => if decide (take (length p) q = p) then (if is_plain x then Some x else None) else None
  | _ => None
  end.

(** [os.ReadDir]: sorted by name. *)
Definition readDir (d : disk) (p : path) : result ReadError (list (string * bool)) :=
  match unreadable p with
  | Some e => Err (ReadFailed e)
  | None =>
      if decide (p ∈ dirs d) then
        Ok (sort_slice (λ a b, String.ltb a.1 b.1)
          (omap (λ q, (λ x, (x, false)) <$> child p q) (map_to_list (files d)).*1 ++
           omap (λ q, (λ x, (x, true)) <$> child p q) (elements (dirs d))))
      else Err NotExist
  end.

(** [os.ReadFile] on the snapshot's disk, the error as its text. *)
Definition read (d : disk) (p : path) : result string bytes :=
  match unreadable p with
  | Some e => Err ("open " +:+ Join p "/" +:+ ": " +:+ e)
  | None => match files d !! p with
            | Some (c, _) => Ok c
            | None => Err ("open " +:+ Join p "/" +:+ ": no such file or directory")
            end
  end.

(** [loadModuleState] *)
Definition loadModuleState (d : disk) (dir : path) : moduleState :=
  let '(serr, src, hex) :=
    match read d (dir ++ ["source.json"]) with
    | Err e => (e, None, "")
    | Ok raw =>
        match ParseSourceJSON raw with
        | Err e => ("parse source.json: " +:+ e, None, "")
        | Ok src => ("", Some src, default "" (sriToHex (src_Integrity src)))
        end
    end in
  match read d (dir ++ ["MODULE.bazel"]) with
  | Err e => mkModuleState serr src e [] hex
  | Ok raw => mkModuleState serr src "" raw hex
  end.

Definition add_module (d : disk) (moduleDir : path) (name : string) (s : state) (vEnt : string * bool) : state :=
  if vEnt.2 then
    let ms := loadModuleState d (moduleDir ++ [vEnt.1]) in
    mkState (st_root s) (st_store s) (<[(name, vEnt.1) := ms]> (st_modules s)) (st_blobs s) (st_indexed s)
      (st_scipIndexed s)
      (if decide (ms_expectedBlobHex ms = "") then st_referencedBlobs s
       else {[ms_expectedBlobHex ms]} ∪ st_referencedBlobs s)
  else s.

Definition add_modules (d : disk) (modulesDir : path) (s : state) (nameEnt : string * bool) : state :=
  if nameEnt.2 then
    let moduleDir := modulesDir ++ [nameEnt.1] in
    match readDir d moduleDir with
    | Err _ => s
    | Ok versions => foldl (add_module d moduleDir nameEnt.1) s versions
    end
  else s.

(** [walkModules] *)
Definition walkModules (d : disk) (modulesDir : path) (s : state) : result ReadError state :=
  names ← readDir d modulesDir;
  Ok (foldl (add_modules d modulesDir) s names).

Definition add_blob (d : disk) (blobsDir : path) (s : state) (e : string * bool) : state :=
  if e.2 then s
  else if is_hex_name e.1 then
    let p := blobsDir ++ [e.1] in
    let size := match files d !! p with Some (c, _) => Z.of_nat (length c) | None => 0%Z end in
    mkState (st_root s) (st_store s) (st_modules s) (<[e.1 := mkBlobState e.1 p size]> (st_blobs s)) (st_indexed s)
      (st_scipIndexed s) (st_referencedBlobs s)
  else s.

(** [listBlobs] *)
Definition listBlobs (d : disk) (blobsDir : path) (s : state) : result ReadError state :=
  ents ← readDir d blobsDir;
  Ok (foldl (add_blob d blobsDir) s ents).

(** The rows of the index, when there is a database. *)
Record index := mkIndex {
  ListAllVersions : result string (list moduleKey);
  ListScipVersions : result string (list moduleKey);
}.

(** [loadIndex] *)
Definition loadIndex (ix : index) (s : state) : result string state :=
  rows ← ListAllVersions ix;
  scipRows ← map_err (λ e, "list scip versions: " +:+ e) (ListScipVersions ix);
  Ok (mkState (st_root s) (st_store s) (st_modules s) (st_blobs s) (list_to_set rows ∪ st_indexed s)
    (list_to_set scipRows ∪ st_scipIndexed s) (st_referencedBlobs s)).

(** A missing directory is an empty mirror. *)
Definition tolerate (what : string) (s : state) (r : result ReadError state) : result string state :=
  match r with
  | Ok s' => Ok s'
  | Err NotExist => Ok s
  | Err (ReadFailed e) => Err (what +:+ e)
  end.

(** [buildState] *)
Definition buildState (d : disk) (root : path) (ix : option index) : result string state :=
  let s := mkState root (bool_decide (is_Some ix)) ∅ ∅ ∅ ∅ ∅ in
  s ← tolerate "walk modules: " s (walkModules d (root ++ ["modules"]) s);
  s ← tolerate "list blobs: " s (listBlobs d (root ++ ["blobs"]) s);
  match ix with
  | None => Ok s
  | Some ix => map_err (λ e, "load index: " +:+ e) (loadIndex ix s)
  end.

(** ** The checks *)

Definition at_module (k : moduleKey) (kind : Kind) (sev : Severity) (path msg fix_ : string)
    (details : list (string * detail)) : Finding :=
  mkFinding kind sev k.1 k.2 path msg fix_ details.

(** [hashFile] *)
Definition hashFile (d : disk) (p : path) : result string string :=
  c ← read d p; Ok (of_bytes (hex_encode (sha256 c))).

(** One module's turn in [checkBlobIntegrity]. *)
Definition blob_integrity_of (d : disk) (s : state) (k : moduleKey) (m : moduleState) : list Finding :=
  match ms_source m with
  | None => []
  | Some src =>
      let h := ms_expectedBlobHex m in
      if decide (h = "") then []
      else match st_blobs s !! h with
      | None => [at_module k KindBlobMissing SevError ("blobs/" +:+ h)
          ("blob " +:+ h +:+ " referenced by source.json is not on disk")
          "re-ingest the module (bzlhub ingest ...) or restore the blob from backup"
          [("expected_sha256_hex", DStr h); ("source_url", DStr (src_URL src))]]
      | Some blob =>
          match hashFile d (bl_path blob) with
          | Err e => [at_module k KindBlobIntegrity SevError ("blobs/" +:+ h)
              ("could not read blob " +:+ h +:+ ": " +:+ e)
              "check filesystem health; re-ingest if the file is unrecoverable"
              [("expected_sha256_hex", DStr h); ("read_error", DStr e)]]
          | Ok actual =>
              if decide (actual = h) then []
              else [at_module k KindBlobIntegrity SevError ("blobs/" +:+ h)
                "blob hash mismatch (computed != source.json integrity)"
                "re-ingest with `bzlhub ingest --from <upstream> <m>@<v> --mirror-to <root>`, or restore from backup"
                [("expected_sha256_hex", DStr h); ("actual_sha256_hex", DStr actual)]]
          end
      end
  end.

Definition for_modules (s : state) (f : moduleKey → moduleState → list Finding) : list Finding :=
  sortedModuleKeys (st_modules s) ≫= λ k, from_option (f k) [] (st_modules s !! k).

(** [checkBlobIntegrity] *)
Definition checkBlobIntegrity (d : disk) (s : state) : list Finding := for_modules s (blob_integrity_of d s).

Definition source_schema_of (k : moduleKey) (m : moduleState) : list Finding :=
  let path := "modules/" +:+ k.1 +:+ "/" +:+ k.2 +:+ "/source.json" in
  let finding msg fix_ details := at_module k KindSourceJSONSchema SevError path msg fix_ details in
  if decide (ms_sourceJSONErr m ≠ "") then
    [finding ("source.json unreadable or unparseable: " +:+ ms_sourceJSONErr m)
       "re-ingest the module, or fix the file on disk" []]
  else match ms_source m with
  | None => []
  | Some src =>
      (if decide (src_Type src ≠ "" ∧ src_Type src ≠ "archive") then
        [finding ("unsupported source.json type " +:+ quote (src_Type src) +:+ " (bzlhub only handles archive)")
          "this module uses a non-archive source.json (git_repository, etc.); bzlhub can't mirror it currently"
          [("type", DStr (src_Type src))]]
       else []) ++
      (if decide (TrimSpace (src_URL src) = "") then
        [finding "source.json has no url" "re-ingest from upstream; url is required for archive-type sources" []]
       else []) ++
      (if decide (TrimSpace (src_Integrity src) = "") then
        [finding "source.json has no integrity"
          "re-ingest from upstream; SRI integrity is required to verify blob contents" []]
       else if negb (HasPrefix (src_Integrity src) "sha256-") then
        [finding ("integrity " +:+ quote (src_Integrity src) +:+ " is not in sha256-<base64> form")
          "bzlhub currently supports only sha256 SRI" [("integrity", DStr (src_Integrity src))]]
       else if decide (ms_expectedBlobHex m = "") then
        [finding ("integrity " +:+ quote (src_Integrity src) +:+ " malformed (base64 invalid or not 32 bytes)")
          "re-ingest from upstream to repair the integrity field" [("integrity", DStr (src_Integrity src))]]
       else [])
  end.

(** [checkSourceJSONSchema] *)
Definition checkSourceJSONSchema (s : state) : list Finding := for_modules s source_schema_of.

Context (ParseModuleContent : bytes → option string).

Definition module_bazel_of (k : moduleKey) (m : moduleState) : list Finding :=
  let path := "modules/" +:+ k.1 +:+ "/" +:+ k.2 +:+ "/MODULE.bazel" in
  if decide (ms_moduleBazelErr m ≠ "") then
    [at_module k KindModuleBazelPresent SevError path
      ("MODULE.bazel missing or unreadable: " +:+ ms_moduleBazelErr m)
      "re-ingest the module from upstream; MODULE.bazel is required for Bazel resolution" []]
  else match ParseModuleContent (ms_moduleBazelRaw m) with
  | Some e => [at_module k KindModuleBazelPresent SevError path ("MODULE.bazel does not parse: " +:+ e)
      "re-ingest the module from upstream; the on-disk file is corrupt" [("parse_error", DStr e)]]
  | None => []
  end.

(** [checkModuleBazelPresent] *)
Definition checkModuleBazelPresent (s : state) : list Finding := for_modules s module_bazel_of.

(** [checkIndexMirrorAgreement] *)
Definition checkIndexMirrorAgreement (s : state) : list Finding :=
  if negb (st_store s) then []
  else
    let ghosts := sort_slice key_less (filter (λ k, st_modules s !! k = None) (elements (st_indexed s))) in
    let orphans := sort_slice key_less (filter (λ k, k ∉ st_indexed s) (map_to_list (st_modules s)).*1) in
    ((λ k, at_module k KindIndexMirrorAgreement SevWarning "" "present in index but missing from mirror tree"
       "re-ingest the module, or delete the orphaned index row" [("side", DStr "index-only")]) <$> ghosts) ++
    ((λ k, at_module k KindIndexMirrorAgreement SevWarning ("modules/" +:+ k.1 +:+ "/" +:+ k.2)
       "present in mirror tree but missing from index"
       "run `bzlhub ingest <module-dir>` to register the on-disk version into the index"
       [("side", DStr "mirror-only")]) <$> orphans).

Definition orphan_finding (name msg fix_ key : string) (size : Z) : Finding :=
  mkFinding KindOrphanBlobs SevInfo "" "" ("blobs/" +:+ name) msg fix_ [("size_bytes", DInt size); (key, DStr name)].

(** [checkOrphanBlobs] *)
Definition checkOrphanBlobs (d : disk) (s : state) : list Finding :=
  let out := sortedBlobHexes (st_blobs s) ≫= λ h,
    if decide (h ∈ st_referencedBlobs s) then []
    else match st_blobs s !! h with
         | Some b => [orphan_finding h "blob not referenced by any source.json"
             "safe to delete; consider `bzlhub mirror prune` once that exists, or `rm` directly" "sha256_hex" (bl_size b)]
         | None => []
         end in
  let blobsDir := st_root s ++ ["blobs"] in
  match readDir d blobsDir with
  | Err _ => out
  | Ok ents => out ++ (ents ≫= λ e,
      if e.2 || is_hex_name e.1 || HasPrefix e.1 "." then []
      else [orphan_finding e.1 "non-canonical file in blobs/ (not a content-addressed sha256-hex name)"
        "rename or delete; bzlhub's mirror writer only produces lowercase-hex sha256 filenames" "filename"
        (match files d !! (blobsDir ++ [e.1]) with Some (c, _) => Z.of_nat (length c) | None => 0%Z end)])
  end.

(** [checkScipPresent] *)
Definition checkScipPresent (s : state) : list Finding :=
  if negb (st_store s) then []
  else (λ k, at_module k KindScipMissing SevWarning "" "module is indexed but has no SCIP blob"
         "re-ingest the module to backfill its SCIP index (scip-bazel runs as part of ingest)" []) <$>
       sort_slice key_less (filter (λ k, k ∉ st_scipIndexed s) (elements (st_indexed s))).

(** ** The deep check *)

(** A stored report, an extraction directory, the extraction and the analysis. *)
Context (GetReport : moduleKey → result string ModuleReport).
Context (MkdirTemp : moduleKey → option string).
Context (ExtractTo : bool → bytes → string → option string).
Context (Analyze : bool → bytes → string → result string ModuleReport).
Context (mentions_module_bazel : string → bool).

Definition starts_with (a b : ascii) (data : bytes) : bool :=
  match data with c1 :: c2 :: _ => bool_decide (c1 = a ∧ c2 = b) | _ => false end.

(** [analyzeBlob]: the format by its magic bytes. *)
Definition analyzeBlob (d : disk) (p : path) (stripPrefix : string) : result string ModuleReport :=
  data ← map_err (λ e, "open " +:+ e) (read d p);
  let gz := starts_with (chr 31) (chr 139) data in
  let zip := starts_with (chr 80) (chr 75) data in
  match (if gz then map_err (λ e, "extract tar.gz: " +:+ e) (from_option Err (Ok tt) (ExtractTo false data stripPrefix))
         else if zip then map_err (λ e, "extract zip: " +:+ e) (from_option Err (Ok tt) (ExtractTo true data stripPrefix))
         else Err ("unknown archive format (magic " +:+ of_bytes (hex_encode (take 4 data)) +:+ ")")) with
  | Err e => Err e
  | Ok _ =>
      match Analyze (negb gz) data stripPrefix with
      | Err e => Err ((if mentions_module_bazel e
                       then "assay analyze (no MODULE.bazel found — strip_prefix mismatch?): "
                       else "assay analyze: ") +:+ e)
      | Ok r => Ok r
      end
  end.

(** [isEmptyDiff] *)
Definition isEmptyDiff (d : Diff) : bool :=
  let n :=
    length (rd_Added (d_Rules d)) + length (rd_Removed (d_Rules d)) + length (rd_Changed (d_Rules d)) +
    (length (pd_Added (d_Providers d)) + length (pd_Removed (d_Providers d)) + length (pd_Changed (d_Providers d))) +
    (length (nd_Added (d_Macros d)) + length (nd_Removed (d_Macros d))) +
    (length (nd_Added (d_Aspects d)) + length (nd_Removed (d_Aspects d))) +
    (length (nd_Added (d_Toolchains d)) + length (nd_Removed (d_Toolchains d))) +
    (length (rd_Added (d_RepositoryRules d)) + length (rd_Removed (d_RepositoryRules d)) +
     length (rd_Changed (d_RepositoryRules d))) +
    (length (md_Added (d_ModuleExtensions d)) + length (md_Removed (d_ModuleExtensions d)) +
     length (md_Changed (d_ModuleExtensions d))) +
    (length (dd_Added (d_BazelDeps d)) + length (dd_Removed (d_BazelDeps d)) + length (dd_Changed (d_BazelDeps d))) +
    (if decide (is_Some (d_CompatibilityLevel d) ∨ is_Some (d_Hermeticity d)) then 1 else 0) in
  bool_decide (n = 0).

Definition deep_details (r : DiffReport) : list (string * detail) :=
  let d := dr_Diff r in
  let n {A} (l : list A) := DInt (Z.of_nat (length l)) in
  [("rules_added", n (rd_Added (d_Rules d))); ("rules_removed", n (rd_Removed (d_Rules d)));
   ("rules_changed", n (rd_Changed (d_Rules d))); ("providers_added", n (pd_Added (d_Providers d)));
   ("providers_removed", n (pd_Removed (d_Providers d))); ("providers_changed", n (pd_Changed (d_Providers d)));
   ("macros_added", n (nd_Added (d_Macros d))); ("macros_removed", n (nd_Removed (d_Macros d)));
   ("breaking", n (dr_Breaking r))].

Definition with_identity (analyzed stored : ModuleReport) : ModuleReport :=
  mkModuleReport (rep_Name stored) (if decide (rep_Version analyzed = "") then rep_Version stored else rep_Version analyzed)
    (rep_CompatibilityLevel analyzed) (rep_BazelCompatibility analyzed) (rep_BazelDeps analyzed)
    (rep_Rules analyzed) (rep_Providers analyzed) (rep_Macros analyzed) (rep_Aspects analyzed)
    (rep_Toolchains analyzed) (rep_ToolchainImpls analyzed) (rep_RepositoryRules analyzed)
    (rep_ModuleExtensions analyzed) (rep_Overrides analyzed) (rep_UsedExtensions analyzed)
    (rep_RegisteredToolchains analyzed) (rep_RegisteredExecutionPlatforms analyzed) (rep_Includes analyzed)
    (rep_Hermeticity analyzed) (rep_FileInventory analyzed) (rep_Assets analyzed).

Definition deep_of (d : disk) (s : state) (k : moduleKey) (m : moduleState) : list Finding :=
  let finding path msg fix_ details := at_module k KindDeepReportMismatch SevError path msg fix_ details in
  if decide (k ∉ st_indexed s ∨ ms_expectedBlobHex m = "") then []
  else match st_blobs s !! ms_expectedBlobHex m, GetReport k with
  | Some blob, Ok stored =>
      match MkdirTemp k with
      | Some e => [finding "" ("could not create extraction tempdir: " +:+ e) "" []]
      | None =>
          match analyzeBlob d (bl_path blob) (from_option src_StripPrefix "" (ms_source m)) with
          | Err e => [finding ("blobs/" +:+ ms_expectedBlobHex m) ("could not re-analyze blob: " +:+ e)
              "verify the blob is a valid archive; re-ingest if not" []]
          | Ok analyzed =>
              let r := Compute stored (with_identity analyzed stored) in
              if isEmptyDiff (dr_Diff r) then []
              else [finding (Join ["modules"; k.1; k.2] "/") "stored ModuleReport does not match freshly-assayed report"
                "re-ingest with `bzlhub ingest --from <upstream> <m>@<v>` to refresh the stored report" (deep_details r)]
          end
      end
  | _, _ => []
  end.

(** [checkDeep] *)
Definition checkDeep (d : disk) (s : state) : list Finding :=
  if negb (st_store s) then [] else for_modules s (deep_of d s).

(** ** The run *)

Definition allChecks : list Kind :=
  [KindBlobIntegrity; KindSourceJSONSchema; KindModuleBazelPresent; KindIndexMirrorAgreement; KindOrphanBlobs;
   KindScipMissing].

(** [runCheck] *)
Definition runCheck (d : disk) (s : state) (k : Kind) : list Finding :=
  if decide (k = KindBlobIntegrity) then checkBlobIntegrity d s
  else if decide (k = KindSourceJSONSchema) then checkSourceJSONSchema s
  else if decide (k = KindModuleBazelPresent) then checkModuleBazelPresent s
  else if decide (k = KindIndexMirrorAgreement) then checkIndexMirrorAgreement s
  else if decide (k = KindOrphanBlobs) then checkOrphanBlobs d s
  else if decide (k = KindScipMissing) then checkScipPresent s
  else [].

(** [enabledChecks] *)
Definition enabledChecks (req : list Kind) : gset Kind :=
  if decide (req = []) then list_to_set allChecks else list_to_set req.

Definition sevRank (s : Severity) : Z := match s with SevError => 0 | SevWarning => 1 | SevInfo => 2 end.

Definition finding_before (a b : Finding) : bool :=
  lex_less (λ f, sevRank (f_Severity f)) Z.ltb
    (lex_less f_Kind String.ltb (lex_less f_Module String.ltb (lex_less f_Version String.ltb
      (λ a b, String.ltb (f_Path a) (f_Path b))))) a b.

(** [sortFindings] *)
Definition sortFindings (fs : list Finding) : list Finding := sort_slice finding_before fs.

Record Report := mkReport {
  r_ModulesExamined : nat;
  r_BlobsExamined : nat;
  r_Findings : list Finding;
  r_Errors : nat;
  r_Warnings : nat;
  r_Info : nat;
}.

Record Options := mkOptions {
  o_MirrorRoot : option path;
  o_Deep : bool;
  o_Checks : list Kind;
}.

Definition count (sev : Severity) (fs : list Finding) : nat :=
  length (filter (λ f, f_Severity f = sev) fs).

(** [Verify] with the index it opened, if asked to; a root that is not given is [None]. *)
Definition runVerify (d : disk) (o : Options) (ix : option (result string index)) : result string Report :=
  root ← match o_MirrorRoot o with None => Err "verify: MirrorRoot is required" | Some root => Ok root end;
  ix ← match ix with
       | None => Ok None
       | Some (Err e) => Err ("verify: open db: " +:+ e)
       | Some (Ok ix) => Ok (Some ix)
       end;
  s ← map_err (λ e, "verify: build state: " +:+ e) (buildState d root ix);
  let enabled := enabledChecks (o_Checks o) in
  let findings := (allChecks ≫= λ k, if decide (k ∈ enabled) then runCheck d s k else []) ++
                  (if o_Deep o then checkDeep d s else []) in
  let fs := sortFindings findings in
  Ok (mkReport (size (st_modules s)) (size (st_blobs s)) fs (count SevError fs) (count SevWarning fs) (count SevInfo fs)).

(** ** The snapshot *)

Lemma is_plain_iff x : is_plain x = true ↔ plain x.
Proof.
  split; [apply plain_lit|]. intros (H1 & H2 & H3 & H4). unfold is_plain.
  by rewrite bool_decide_true, bool_decide_false by done.
Qed.

Lemma child_iff p q x : child p q = Some x ↔ q = p ++ [x] ∧ plain x.
Proof.
  unfold child. rewrite <-is_plain_iff. split.
  - destruct (drop (length p) q) as [|y [|]] eqn:Hd; try done. case_decide as Ht; [|done].
    destruct (is_plain y) eqn:Hy; [|done]. intros [= <-]. split; [|done]. by rewrite <-Ht, <-Hd, take_drop.
  - intros [-> Hx]. rewrite drop_app_length, take_app_length, decide_True by done. by rewrite Hx.
Qed.

Lemma readDir_elem d p ents (x : string) (b : bool) :
  readDir d p = Ok ents →
  (x, b) ∈ ents ↔ plain x ∧ if b then p ++ [x] ∈ dirs d else is_Some (files d !! (p ++ [x])).
Proof.
  unfold readDir. destruct (unreadable p); [done|]. case_decide; [|done]. intros [= <-].
  rewrite elem_of_sort_slice, elem_of_app, !list_elem_of_omap.
  assert (∀ q, q ∈ (map_to_list (files d)).*1 ↔ is_Some (files d !! q)) as Hf.
  { intros q. rewrite list_elem_of_fmap. split.
    - intros ([q' z] & -> & Hq%elem_of_map_to_list). by eexists.
    - intros [z Hz]. exists (q, z). split; [done|]. by apply elem_of_map_to_list. }
  split.
  - intros [(q & Hq & E)|(q & Hq & E)]; destruct (child p q) as [y|] eqn:Hc; simplify_eq/=;
      apply child_iff in Hc as [-> ?]; split; try done; [by apply Hf|by apply elem_of_elements].
  - intros [Hx Hb]. assert (child p (p ++ [x]) = Some x) as Hc by by apply child_iff.
    destruct b; [right|left]; exists (p ++ [x]); rewrite Hc; (split; [|done]);
      [by apply elem_of_elements|by apply Hf].
Qed.

(** What a snapshot under way holds of the modules' tree. *)
Definition module_dir (s : state) (k : moduleKey) : path := st_root s ++ ["modules"; k.1; k.2].

Record snapshot_ok (d : disk) (s : state) : Prop := {
  so_modules (k : moduleKey) m : st_modules s !! k = Some m →
    plain k.1 ∧ plain k.2 ∧ module_dir s k ∈ dirs d ∧ m = loadModuleState d (module_dir s k);
  so_referenced h : h ∈ st_referencedBlobs s ↔ h ≠ "" ∧ ∃ k m, st_modules s !! k = Some m ∧ ms_expectedBlobHex m = h;
  so_blobs h b : st_blobs s !! h = Some b →
    is_hex_name h = true ∧ bl_path b = st_root s ++ ["blobs"; h] ∧ is_Some (files d !! (st_root s ++ ["blobs"; h]));
}.

(** The parts of the snapshot that the walks of the tree do not touch. *)
Definition frame (s s' : state) : Prop :=
  st_root s' = st_root s ∧ st_store s' = st_store s ∧ st_indexed s' = st_indexed s ∧
  st_scipIndexed s' = st_scipIndexed s.

Lemma frame_trans s1 s2 s3 : frame s1 s2 → frame s2 s3 → frame s1 s3.
Proof. intros (? & ? & ? & ?) (? & ? & ? & ?). repeat split; by etrans. Qed.

Lemma snapshot_empty d root b : snapshot_ok d (mkState root b ∅ ∅ ∅ ∅ ∅).
Proof.
  split; simpl.
  - intros k m. by rewrite lookup_empty.
  - intros h. rewrite elem_of_empty. split; [done|]. intros (_ & k & m & Hk & _). by rewrite lookup_empty in Hk.
  - intros h b'. by rewrite lookup_empty.
Qed.

Lemma add_module_ok d name s v :
  snapshot_ok d s → plain name → plain v.1 → (v.2 = true → module_dir s (name, v.1) ∈ dirs d) →
  let s' := add_module d (st_root s ++ ["modules"; name]) name s v in
  snapshot_ok d s' ∧ frame s s' ∧ st_blobs s' = st_blobs s ∧
  ∀ k, is_Some (st_modules s' !! k) ↔ is_Some (st_modules s !! k) ∨ v.2 = true ∧ k = (name, v.1).
Proof.
  intros [Hm Hr Hb] Hn Hv Hdir. unfold add_module. destruct v as [v []]; simpl in *.
  2: { split_and!; [done|by repeat split|done|]. intros k. split; [by left|by intros [?|[? _]]]. }
  replace ((st_root s ++ ["modules"; name]) ++ [v]) with (module_dir s (name, v)) by by rewrite <-app_assoc.
  set (ms := loadModuleState d (module_dir s (name, v))).
  assert (∀ k m, st_modules s !! k = Some m → k = (name, v) → m = ms) as Hsame.
  { intros k m Hk ->. by apply Hm in Hk as (_ & _ & _ & ->). }
  split_and!; [|by repeat split|done|].
  - split; simpl; [|intros h|done].
    + intros k m. rewrite lookup_insert_Some. intros [[<- <-]|[_ Hk]]; [by split_and!; auto|by apply Hm].
    + assert (h ∈ (if decide (ms_expectedBlobHex ms = "") then st_referencedBlobs s
        else {[ms_expectedBlobHex ms]} ∪ st_referencedBlobs s) ↔
        h ∈ st_referencedBlobs s ∨ h ≠ "" ∧ ms_expectedBlobHex ms = h) as ->.
      { case_decide as E; rewrite ?elem_of_union, ?elem_of_singleton; split.
        - by left.
        - intros [?|[Hh Eh]]; [done|]. by rewrite E in Eh.
        - intros [->|?]; [right; by split|by left].
        - intros [?|[_ <-]]; [by right|by left]. }
      rewrite Hr. split.
      * intros [(Hh & k & m & Hk & E)|[Hh E]]; (split; [done|]).
        -- destruct (decide (k = (name, v))) as [Ek|Hne].
           ++ exists (name, v), ms. rewrite lookup_insert_eq. split; [done|]. by rewrite <-(Hsame k m Hk Ek).
           ++ exists k, m. by rewrite lookup_insert_ne.
        -- exists (name, v), ms. by rewrite lookup_insert_eq.
      * intros (Hh & k & m & Hk & E). apply lookup_insert_Some in Hk as [[<- <-]|[_ Hk]]; [by right|].
        left. split; [done|]. by exists k, m.
  - intros k. rewrite lookup_insert_is_Some. split.
    + intros [<-|[_ ?]]; [by right|by left].
    + intros [?|[_ ->]]; [|by left]. destruct (decide ((name, v) = k)) as [|Hne]; [by left|by right].
Qed.

Lemma add_modules_fold d name l s :
  snapshot_ok d s → plain name →
  (∀ v, v ∈ l → plain v.1 ∧ (v.2 = true → module_dir s (name, v.1) ∈ dirs d)) →
  let s' := foldl (add_module d (st_root s ++ ["modules"; name]) name) s l in
  snapshot_ok d s' ∧ frame s s' ∧ st_blobs s' = st_blobs s ∧
  ∀ k, is_Some (st_modules s' !! k) ↔ is_Some (st_modules s !! k) ∨ k.1 = name ∧ (k.2, true) ∈ l.
Proof.
  revert s. induction l as [|v l IH]; intros s Hs Hn Hl; simpl.
  { split_and!; [done|by repeat split|done|]. intros k. rewrite elem_of_nil. clear. tauto. }
  destruct (Hl v) as [Hv Hdir]; [by left|].
  destruct (add_module_ok d name s v Hs Hn Hv Hdir) as (H1 & H2 & H3 & H4).
  set (s1 := add_module d (st_root s ++ ["modules"; name]) name s v) in *.
  pose proof H2 as (Er & Es & Ei & Ec). rewrite <-Er.
  destruct (IH s1 H1 Hn) as (I1 & I2 & I3 & I4).
  { intros w Hw. destruct (Hl w) as [? Hw']; [by right|]. split; [done|]. unfold module_dir in *. by rewrite Er. }
  split_and!; [done| |by rewrite I3|].
  - by eapply frame_trans.
  - intros k. rewrite I4, H4, elem_of_cons. destruct v as [v b], k as [n w]; simpl. split.
    + intros [[?|[-> [= -> ->]]]|[? ?]]; [by left|right; split; [done|by left]|right; split; [done|by right]].
    + intros [?|[-> [[= -> <-]|?]]]; [by left; left|by left; right|by right].
Qed.

(** The versions the walk reaches: directories two levels below [modules], with
    readable directories above. *)
Definition listed (d : disk) (root : path) (k : moduleKey) : Prop :=
  plain k.1 ∧ plain k.2 ∧ unreadable (root ++ ["modules"]) = None ∧
  unreadable (root ++ ["modules"; k.1]) = None ∧ root ++ ["modules"] ∈ dirs d ∧
  root ++ ["modules"; k.1] ∈ dirs d ∧ root ++ ["modules"; k.1; k.2] ∈ dirs d.

Lemma readDir_ok d p ents : readDir d p = Ok ents → unreadable p = None ∧ p ∈ dirs d.
Proof. unfold readDir. destruct (unreadable p); [done|]. by case_decide. Qed.

Lemma walk_names_fold d l s :
  snapshot_ok d s →
  (∀ e, e ∈ l → plain e.1 ∧ (e.2 = true → st_root s ++ ["modules"; e.1] ∈ dirs d)) →
  let s' := foldl (add_modules d (st_root s ++ ["modules"])) s l in
  snapshot_ok d s' ∧ frame s s' ∧ st_blobs s' = st_blobs s ∧
  ∀ k, is_Some (st_modules s' !! k) ↔ is_Some (st_modules s !! k) ∨
    (k.1, true) ∈ l ∧ plain k.2 ∧ unreadable (st_root s ++ ["modules"; k.1]) = None ∧
    st_root s ++ ["modules"; k.1; k.2] ∈ dirs d.
Proof.
  revert s. induction l as [|e l IH]; intros s Hs Hl; simpl.
  { split_and!; [done|by repeat split|done|]. intros k. rewrite elem_of_nil. clear. tauto. }
  destruct (Hl e ltac:(by left)) as [Hn Hdir]. destruct e as [n b]; simpl in Hn, Hdir.
  assert (∃ s1, add_modules d (st_root s ++ ["modules"]) s (n, b) = s1 ∧ snapshot_ok d s1 ∧ frame s s1 ∧
    st_blobs s1 = st_blobs s ∧ ∀ k, is_Some (st_modules s1 !! k) ↔ is_Some (st_modules s !! k) ∨
      b = true ∧ k.1 = n ∧ plain k.2 ∧ unreadable (st_root s ++ ["modules"; n]) = None ∧
      st_root s ++ ["modules"; n; k.2] ∈ dirs d) as (s1 & -> & H1 & H2 & H3 & H4).
  { eexists. split; [reflexivity|]. unfold add_modules. destruct b; simpl.
    2: { split_and!; [done|by repeat split|done|]. intros k. split; [by left|by intros [?|[? _]]]. }
    replace ((st_root s ++ ["modules"]) ++ [n]) with (st_root s ++ ["modules"; n]) by by rewrite <-app_assoc.
    destruct (readDir d (st_root s ++ ["modules"; n])) as [versions|err] eqn:Hr.
    - assert (∀ (x : string) (c : bool), (x, c) ∈ versions ↔ plain x ∧ if c then st_root s ++ ["modules"; n; x] ∈ dirs d
        else is_Some (files d !! (st_root s ++ ["modules"; n; x]))) as Hents.
      { intros x c. rewrite (readDir_elem d _ versions x c Hr). by rewrite <-app_assoc. }
      destruct (add_modules_fold d n versions s Hs Hn) as (I1 & I2 & I3 & I4).
      { intros [v c] [Hv Hc]%Hents. split; [done|]. simpl. intros E. by rewrite E in Hc. }
      split_and!; [done..|]. intros k. rewrite I4, Hents.
      pose proof (readDir_ok _ _ _ Hr) as [Hu _]. clear -Hu. tauto.
    - split_and!; [done|by repeat split|done|]. intros k. unfold readDir in Hr.
      rewrite (decide_True _ _ (Hdir eq_refl)) in Hr.
      destruct (unreadable (st_root s ++ ["modules"; n])) as [u|]; [|done]. split; [by left|].
      intros [Hk|(_ & _ & _ & Hu & _)]; [exact Hk|discriminate Hu]. }
  pose proof H2 as (Er & Es & Ei & Ec). rewrite <-Er. destruct (IH s1 H1) as (I1 & I2 & I3 & I4).
  { intros w Hw. rewrite Er. apply Hl. by right. }
  split_and!; [done| |by rewrite I3|].
  - by eapply frame_trans.
  - intros k. rewrite I4, H4, Er, elem_of_cons. destruct k as [n' w]; simpl. split.
    + intros [[?|(-> & -> & ?)]|[? ?]]; [by left|right; split; [by left|done]|right; split; [by right|done]].
    + intros [?|[[[= -> <-]|?] HR]]; [by left; left|left; right; split; [done|]; split; [done|exact HR]|by right].
Qed.

Lemma walkModules_ok d s s' :
  snapshot_ok d s → walkModules d (st_root s ++ ["modules"]) s = Ok s' →
  snapshot_ok d s' ∧ frame s s' ∧ st_blobs s' = st_blobs s ∧
  ∀ k, is_Some (st_modules s' !! k) ↔ is_Some (st_modules s !! k) ∨ listed d (st_root s) k.
Proof.
  intros Hs H. unfold walkModules in H. apply bind_ok in H as (names & Hr & [= <-]).
  assert (∀ (x : string) (c : bool), (x, c) ∈ names ↔ plain x ∧ if c then st_root s ++ ["modules"; x] ∈ dirs d
    else is_Some (files d !! (st_root s ++ ["modules"; x]))) as Hents.
  { intros x c. rewrite (readDir_elem d _ names x c Hr). by rewrite <-app_assoc. }
  destruct (readDir_ok _ _ _ Hr) as [Hu Hd].
  destruct (walk_names_fold d names s Hs) as (I1 & I2 & I3 & I4).
  { intros [x c] Hx. simpl. apply Hents in Hx as [? Hx]. split; [done|]. intros E. by rewrite E in Hx. }
  split_and!; [done..|]. intros k. rewrite I4, Hents. unfold listed. clear -Hu Hd. tauto.
Qed.

Lemma add_blob_ok d s e :
  snapshot_ok d s → (e.2 = false → is_Some (files d !! (st_root s ++ ["blobs"; e.1]))) →
  let s' := add_blob d (st_root s ++ ["blobs"]) s e in
  snapshot_ok d s' ∧ frame s s' ∧ st_modules s' = st_modules s ∧ st_referencedBlobs s' = st_referencedBlobs s ∧
  ∀ h, is_Some (st_blobs s' !! h) ↔ is_Some (st_blobs s !! h) ∨ e = (h, false) ∧ is_hex_name h = true.
Proof.
  intros Hs He. unfold add_blob. destruct e as [x []]; simpl in *.
  { split_and!; [done|by repeat split|done|done|]. intros h. split; [by left|]. intros [Hb|[E _]]; [exact Hb|discriminate E]. }
  destruct (is_hex_name x) eqn:Hx.
  2: { split_and!; [done|by repeat split|done|done|]. intros h. split; [by left|].
       intros [?|[[= <-] ?]]; [done|congruence]. }
  replace ((st_root s ++ ["blobs"]) ++ [x]) with (st_root s ++ ["blobs"; x]) by by rewrite <-app_assoc.
  split_and!; [|by repeat split|done|done|].
  - destruct Hs as [Hm Hr Hb]. split; simpl; [done|done|]. intros h b.
    rewrite lookup_insert_Some. intros [[<- <-]|[_ Hk]]; [|by apply Hb]. simpl. split_and!; [done|done|by apply He].
  - intros h. simpl. rewrite lookup_insert_is_Some. split.
    + intros [<-|[_ ?]]; [by right|by left].
    + intros [?|[[= <-] _]]; [|by left]. destruct (decide (x = h)) as [|Hne]; [by left|by right].
Qed.

Lemma add_blobs_fold d l s :
  snapshot_ok d s → (∀ e, e ∈ l → e.2 = false → is_Some (files d !! (st_root s ++ ["blobs"; e.1]))) →
  let s' := foldl (add_blob d (st_root s ++ ["blobs"])) s l in
  snapshot_ok d s' ∧ frame s s' ∧ st_modules s' = st_modules s ∧ st_referencedBlobs s' = st_referencedBlobs s ∧
  ∀ h, is_Some (st_blobs s' !! h) ↔ is_Some (st_blobs s !! h) ∨ (h, false) ∈ l ∧ is_hex_name h = true.
Proof.
  revert s. induction l as [|e l IH]; intros s Hs Hl; simpl.
  { split_and!; [done|by repeat split|done|done|]. intros h. rewrite elem_of_nil. clear. tauto. }
  destruct (add_blob_ok d s e Hs (Hl e ltac:(by left))) as (H1 & H2 & H3 & H4 & H5).
  set (s1 := add_blob d (st_root s ++ ["blobs"]) s e) in *. pose proof H2 as (Er & Es & Ei & Ec). rewrite <-Er.
  destruct (IH s1 H1) as (I1 & I2 & I3 & I4 & I5).
  { intros w Hw. rewrite Er. apply Hl. by right. }
  split_and!; [done| |by rewrite I3|by rewrite I4|].
  - by eapply frame_trans.
  - intros h. rewrite I5, H5, elem_of_cons. split.
    + intros [[?|[-> ?]]|[? ?]]; [by left|right; split; [by left|done]|right; split; [by right|done]].
    + intros [?|[[<-|?] ?]]; [by left; left|by left; right|by right].
Qed.

(** The snapshot of a disk holds the versions the walk reaches and the archives
    listed, with what was read of them. *)
Lemma buildState_ok d root ix s :
  buildState d root ix = Ok s →
  snapshot_ok d s ∧ st_root s = root ∧ st_store s = bool_decide (is_Some ix) ∧
  (∀ k, is_Some (st_modules s !! k) ↔ listed d root k) ∧
  (∀ h, is_Some (st_blobs s !! h) ↔ is_hex_name h = true ∧ unreadable (root ++ ["blobs"]) = None ∧
    root ++ ["blobs"] ∈ dirs d ∧ is_Some (files d !! (root ++ ["blobs"; h]))).
Proof.
  intros H. unfold buildState in H. set (s0 := mkState root _ ∅ ∅ ∅ ∅ ∅) in H.
  apply bind_ok in H as (s1 & H1 & H). apply bind_ok in H as (s2 & H2 & H).
  assert (snapshot_ok d s1 ∧ frame s0 s1 ∧ st_blobs s1 = ∅ ∧
    ∀ k, is_Some (st_modules s1 !! k) ↔ listed d root k) as (A1 & A2 & A3 & A4).
  { destruct (walkModules d (root ++ ["modules"]) s0) as [s'|[|e]] eqn:Hw; [injection H1 as ->|injection H1 as <-|discriminate H1].
    - destruct (walkModules_ok d s0 s1 (snapshot_empty d root _) Hw) as (? & ? & ? & Hk).
      split_and!; [done..|]. intros k. rewrite Hk. simpl. rewrite lookup_empty. split; [|by right].
      by intros [[? ?]|?].
    - split_and!; [apply snapshot_empty|by repeat split|done|]. intros k. simpl. rewrite lookup_empty.
      split; [by intros [? ?]|]. unfold walkModules, readDir in Hw. intros (_ & _ & Hu & _ & Hin & _).
      rewrite Hu, decide_True in Hw by done. done. }
  pose proof A2 as (Er & Es & Ei & Ec). change (st_root s0) with root in Er.
  assert (snapshot_ok d s2 ∧ frame s1 s2 ∧ st_modules s2 = st_modules s1 ∧
    ∀ h, is_Some (st_blobs s2 !! h) ↔ is_hex_name h = true ∧ unreadable (root ++ ["blobs"]) = None ∧
      root ++ ["blobs"] ∈ dirs d ∧ is_Some (files d !! (root ++ ["blobs"; h]))) as (B1 & B2 & B3 & B4).
  { destruct (listBlobs d (root ++ ["blobs"]) s1) as [s'|[|e]] eqn:Hw; [injection H2 as ->|injection H2 as <-|discriminate H2].
    - unfold listBlobs in Hw. apply bind_ok in Hw as (ents & Hr & [= <-]).
      pose proof (readDir_ok _ _ _ Hr) as [Hu Hd].
      assert (∀ (x : string) (c : bool), (x, c) ∈ ents ↔ plain x ∧ if c then root ++ ["blobs"; x] ∈ dirs d
        else is_Some (files d !! (root ++ ["blobs"; x]))) as Hents.
      { intros x c. rewrite (readDir_elem d _ ents x c Hr). by rewrite <-app_assoc. }
      rewrite <-Er. destruct (add_blobs_fold d ents s1 A1) as (I1 & I2 & I3 & I4 & I5).
      { intros [x c] Hx E. simpl in E. rewrite Er. apply Hents in Hx as [_ Hx]. by rewrite E in Hx. }
      split_and!; [done..|]. intros h. rewrite I5, A3, lookup_empty, Hents, !Er. split.
      + intros [[? ?]|[[? ?] ?]]; [done|by split_and!].
      + intros (Hh & _ & _ & Hf). right. split_and!; [by apply hex_plain|done|done].
    - split_and!; [done|by repeat split|done|]. intros h. rewrite A3, lookup_empty. split; [by intros [? ?]|].
      unfold listBlobs, readDir in Hw. intros (_ & Hu & Hin & _).
      rewrite Hu, decide_True in Hw by done. done. }
  assert (snapshot_ok d s ∧ st_root s = st_root s2 ∧ st_store s = st_store s2 ∧
    st_modules s = st_modules s2 ∧ st_blobs s = st_blobs s2) as (C1 & C2 & C3 & C4 & C5).
  { destruct ix as [ix|]; [|by simplify_eq].
    destruct (loadIndex ix s2) as [s'|e] eqn:Hl; [|done]. injection H as <-.
    unfold loadIndex in Hl. apply bind_ok in Hl as (rows & _ & Hl). apply bind_ok in Hl as (srows & _ & [= <-]).
    destruct B1 as [X Y Z]. by split_and!; [split|..]. }
  destruct B2 as (Er2 & Es2 & _). rewrite C2, C3, C4, C5, B3, Er2, Es2, Er, Es. by split_and!.
Qed.

(** ** What the checks find *)

Lemma elem_of_sortedModuleKeys {V} (m : gmap moduleKey V) k : k ∈ sortedModuleKeys m ↔ is_Some (m !! k).
Proof.
  unfold sortedModuleKeys. rewrite elem_of_sort_slice, list_elem_of_fmap. split.
  - intros ([k' x] & -> & Hk%elem_of_map_to_list). by eexists.
  - intros [x Hx]. exists (k, x). split; [done|]. by apply elem_of_map_to_list.
Qed.

Lemma bind_all_nil {A B} (f : A → list B) l : (∀ x, x ∈ l → f x = []) → l ≫= f = [].
Proof.
  intros H. apply elem_of_nil_inv. intros y (x & Hy & Hx)%list_elem_of_bind. rewrite H in Hy by done.
  by apply elem_of_nil in Hy.
Qed.

Lemma elem_of_for_modules s g f :
  f ∈ for_modules s g ↔ ∃ k m, st_modules s !! k = Some m ∧ f ∈ g k m.
Proof.
  unfold for_modules. rewrite list_elem_of_bind. split.
  - intros (k & Hf & [m Hm]%elem_of_sortedModuleKeys). rewrite Hm in Hf. eauto.
  - intros (k & m & Hm & Hf). exists k. rewrite Hm. split; [done|]. apply elem_of_sortedModuleKeys. by eexists.
Qed.

Lemma read_err_ne d p e : read d p = Err e → e ≠ "".
Proof. unfold read. destruct (unreadable p); [by intros [= <-]|]. destruct (files d !! p) as [[c s]|]; by intros [= <-]. Qed.

Lemma hex_name_ne h : is_hex_name h = true → h ≠ "".
Proof. by intros Hh ->. Qed.

(** A source.json the mirror can serve from. *)
Definition well_formed (d : disk) (dir : path) (src : SourceJSON) (h : string) : Prop :=
  ∃ raw, read d (dir ++ ["source.json"]) = Ok raw ∧ ParseSourceJSON raw = Ok src ∧
    (src_Type src = "" ∨ src_Type src = "archive") ∧ TrimSpace (src_URL src) ≠ "" ∧
    sriToHex (src_Integrity src) = Some h.

Definition backed_by (d : disk) (root : path) (h : string) : Prop :=
  root ++ ["blobs"] ∈ dirs d ∧ ∃ c, read d (root ++ ["blobs"; h]) = Ok c ∧ address c = h.

Definition has_module_bazel (d : disk) (dir : path) : Prop :=
  ∃ raw, read d (dir ++ ["MODULE.bazel"]) = Ok raw ∧ ParseModuleContent raw = None.

Lemma load_fields d dir :
  let m := loadModuleState d dir in
  (match read d (dir ++ ["source.json"]) with
   | Err e => ms_sourceJSONErr m = e ∧ ms_source m = None ∧ ms_expectedBlobHex m = ""
   | Ok raw => match ParseSourceJSON raw with
       | Err e => ms_sourceJSONErr m = "parse source.json: " +:+ e ∧ ms_source m = None ∧ ms_expectedBlobHex m = ""
       | Ok src => ms_sourceJSONErr m = "" ∧ ms_source m = Some src ∧
           ms_expectedBlobHex m = default "" (sriToHex (src_Integrity src))
       end
   end) ∧
  match read d (dir ++ ["MODULE.bazel"]) with
  | Err e => ms_moduleBazelErr m = e
  | Ok raw => ms_moduleBazelErr m = "" ∧ ms_moduleBazelRaw m = raw
  end.
Proof.
  unfold loadModuleState. destruct (read d (dir ++ ["source.json"])) as [raw|e];
    [destruct (ParseSourceJSON raw) as [src|e]|]; destruct (read d (dir ++ ["MODULE.bazel"])); by repeat split.
Qed.

Lemma source_schema_nil d k dir :
  source_schema_of k (loadModuleState d dir) = [] ↔ ∃ src h, well_formed d dir src h.
Proof.
  destruct (load_fields d dir) as [H _]. unfold source_schema_of, well_formed.
  destruct (read d (dir ++ ["source.json"])) as [raw|e] eqn:Hr.
  2: { destruct H as (-> & _ & _). rewrite decide_True by by eapply read_err_ne.
       split; [done|]. by intros (? & ? & ? & [=] & _). }
  destruct (ParseSourceJSON raw) as [src|e] eqn:Hp.
  2: { destruct H as (-> & _ & _). rewrite decide_True by done.
       split; [done|]. intros (? & ? & ? & [= <-] & Hp' & _). by rewrite Hp in Hp'. }
  destruct H as (-> & -> & ->). rewrite decide_False by (intros Hne; by apply Hne). rewrite !app_nil. split.
  - intros (Ht & Hu & Hi). exists src.
    destruct (decide (src_Type src ≠ "" ∧ _)) as [Dt|Dt]; [discriminate Ht|].
    destruct (decide (TrimSpace (src_URL src) = "")) as [Du|Du]; [discriminate Hu|].
    destruct (decide (TrimSpace (src_Integrity src) = "")) as [Di|Di]; [discriminate Hi|].
    destruct (HasPrefix (src_Integrity src) "sha256-"); [|discriminate Hi]. simpl in Hi.
    destruct (decide (default "" (sriToHex (src_Integrity src)) = "")) as [Dh|Dh]; [discriminate Hi|].
    destruct (sriToHex (src_Integrity src)) as [h|] eqn:Hh; [|done]. exists h, raw. split_and!; try done.
    destruct (decide (src_Type src = "")); [by left|]. destruct (decide (src_Type src = "archive")); [by right|].
    by destruct Dt.
  - intros (src' & h & raw' & [= <-] & Hp' & Ht & Hu & Hh). rewrite Hp in Hp'. injection Hp' as <-.
    split_and!; [rewrite decide_False by (intros [? ?]; by destruct Ht); done|by rewrite decide_False|].
    rewrite Hh. apply sriToHex_name in Hh as Hn. apply sriToHex_iff in Hh as (dg & (b64 & -> & _) & _).
    rewrite decide_False, HasPrefix_app; [|by apply (TrimSpace_keeps "s"%char);
      [apply (bool_decide_unpack _); reflexivity|left]].
    simpl. rewrite decide_False; [done|]. by apply hex_name_ne.
Qed.

Lemma module_bazel_nil d k dir :
  module_bazel_of k (loadModuleState d dir) = [] ↔ has_module_bazel d dir.
Proof.
  destruct (load_fields d dir) as [_ H]. unfold module_bazel_of, has_module_bazel.
  destruct (read d (dir ++ ["MODULE.bazel"])) as [raw|e] eqn:Hr.
  - destruct H as [-> ->]. rewrite decide_False by (intros Hne; by apply Hne).
    destruct (ParseModuleContent raw) eqn:Hp; split; try done; [|by intros _; exists raw].
    intros (raw' & [= <-] & Hp'). congruence.
  - rewrite H, decide_True by by eapply read_err_ne. split; [done|]. by intros (? & ? & _).
Qed.

Lemma read_ok d p c : read d p = Ok c → unreadable p = None ∧ is_Some (files d !! p).
Proof. unfold read. destruct (unreadable p); [done|]. by destruct (files d !! p) as [[? ?]|]. Qed.

Lemma blob_integrity_nil d root ix s k dir src h :
  buildState d root ix = Ok s → well_formed d dir src h → unreadable (root ++ ["blobs"]) = None →
  blob_integrity_of d s k (loadModuleState d dir) = [] ↔ backed_by d root h.
Proof.
  intros Hs (raw & Hr & Hp & _ & _ & Hh) Hu. destruct (load_fields d dir) as [H _]. rewrite Hr, Hp in H.
  destruct H as (_ & Hsrc & Hhex). apply buildState_ok in Hs as (Hok & Hroot & _ & _ & Hbl).
  unfold blob_integrity_of. rewrite Hsrc, Hhex, Hh. simpl.
  apply sriToHex_name in Hh as Hn. rewrite decide_False by by apply hex_name_ne.
  unfold backed_by. destruct (st_blobs s !! h) as [b|] eqn:Hb.
  - destruct (so_blobs _ _ Hok h b Hb) as (_ & Hpath & _). rewrite Hroot in Hpath.
    assert (is_Some (st_blobs s !! h)) as (_ & _ & Hd & _)%Hbl by by eexists.
    unfold hashFile. rewrite Hpath. destruct (read d (root ++ ["blobs"; h])) as [c|e] eqn:Hrb; simpl.
    + change (of_bytes (hex_encode (sha256 c))) with (address c). case_decide as Ha.
      * split; [|done]. intros _. split; [done|]. by exists c.
      * split; [done|]. intros (_ & c' & [= <-] & ?). done.
    + split; [done|]. by intros (_ & ? & ? & _).
  - split; [done|]. intros (Hd & c & Hc & _). apply read_ok in Hc as [_ Hf].
    assert (is_Some (st_blobs s !! h)) as [? ?]; [|congruence]. by apply Hbl.
Qed.

(** ** The report *)

#[local] Instance sw_finding : StrictWeak finding_before.
Proof.
  pose proof (sw_key f_Path) as S1.
  pose proof (sw_lex f_Version String.ltb _ str_ltb_tricho) as S2.
  pose proof (sw_lex f_Module String.ltb _ str_ltb_tricho) as S3.
  pose proof (sw_lex f_Kind String.ltb _ str_ltb_tricho) as S4.
  assert (∀ a b, (a <? b)%Z = false → (b <? a)%Z = false → a = b) as HZ by (intros a b; rewrite !Z.ltb_ge; lia).
  exact (sw_lex (λ f, sevRank (f_Severity f)) Z.ltb _ HZ).
Qed.

Lemma count_zero sev fs : count sev fs = 0 ↔ ∀ f, f ∈ fs → f_Severity f ≠ sev.
Proof.
  unfold count. rewrite length_zero_iff_nil. split.
  - intros H f Hf E. assert (f ∈ filter (λ f, f_Severity f = sev) fs) as Hin by by apply list_elem_of_filter.
    rewrite H in Hin. by apply elem_of_nil in Hin.
  - intros H. apply filter_none, Forall_forall. exact H.
Qed.

Lemma count_total fs : count SevError fs + count SevWarning fs + count SevInfo fs = length fs.
Proof.
  unfold count. induction fs as [|f fs IH]; [done|]. rewrite !filter_cons.
  destruct (f_Severity f); repeat (rewrite decide_True by done || rewrite decide_False by done); simpl; lia.
Qed.

Lemma count_sort sev fs : count sev (sortFindings fs) = count sev fs.
Proof. unfold count, sortFindings. by rewrite (sort_slice_perm finding_before fs). Qed.

(** The findings of a run before they are sorted. *)
Definition found (d : disk) (s : state) (o : Options) : list Finding :=
  (allChecks ≫= λ k, if decide (k ∈ enabledChecks (o_Checks o)) then runCheck d s k else []) ++
  (if o_Deep o then checkDeep d s else []).

Lemma runVerify_ok d o ix r :
  runVerify d o ix = Ok r →
  ∃ root ix' s, o_MirrorRoot o = Some root ∧ buildState d root ix' = Ok s ∧
    r = mkReport (size (st_modules s)) (size (st_blobs s)) (sortFindings (found d s o))
      (count SevError (found d s o)) (count SevWarning (found d s o)) (count SevInfo (found d s o)).
Proof.
  unfold runVerify. intros H. apply bind_ok in H as (root & Hroot & H). apply bind_ok in H as (ix' & _ & H).
  apply bind_ok in H as (s & Hs & [= <-]). exists root, ix', s.
  split_and!; [by destruct (o_MirrorRoot o); simplify_eq| |].
  - by destruct (buildState d root ix'); simplify_eq/=.
  - by rewrite !count_sort.
Qed.

(** The report of a run holds what the enabled checks found, nothing lost or
    doubled, ordered by severity, kind, module, version and path, and its
    counters add up; but a run restricted to kinds that no check is run under,
    [blob_missing] and [deep_report_mismatch] among them, reports a healthy
    mirror whatever is on the disk. *)
Theorem report_exact d o ix r :
  runVerify d o ix = Ok r →
  (∃ root ix' s, o_MirrorRoot o = Some root ∧ buildState d root ix' = Ok s ∧ r_Findings r ≡ₚ found d s o) ∧
  StronglySorted (not_after finding_before) (r_Findings r) ∧
  r_Errors r + r_Warnings r + r_Info r = length (r_Findings r) ∧
  r_Errors r = count SevError (r_Findings r) ∧
  (o_Checks o ≠ [] → (∀ k, k ∈ o_Checks o → k ∉ allChecks) → o_Deep o = false → r_Findings r = []).
Proof.
  intros (root & ix' & s & Hroot & Hs & ->)%runVerify_ok. simpl. split_and!.
  - exists root, ix', s. split_and!; [done..|]. apply sort_slice_perm.
  - apply sort_slice_sorted. apply _.
  - rewrite count_total. unfold sortFindings. by rewrite length_sort_slice.
  - by rewrite count_sort.
  - intros Hne Hall Hdeep. apply sort_slice_nil. unfold found. rewrite Hdeep, app_nil_r.
    apply bind_all_nil. intros k Hk. rewrite decide_False; [done|].
    unfold enabledChecks. rewrite decide_False by done. rewrite elem_of_list_to_set. intros Hin. by apply (Hall k).
Qed.

Lemma buildState_readable d root ix s : buildState d root ix = Ok s → unreadable (root ++ ["blobs"]) = None.
Proof.
  intros H. unfold buildState in H. apply bind_ok in H as (s1 & _ & H). apply bind_ok in H as (s2 & H2 & _).
  unfold listBlobs, readDir in H2. by destruct (unreadable (root ++ ["blobs"])).
Qed.

Lemma for_modules_nil s g : for_modules s g = [] ↔ ∀ k m, st_modules s !! k = Some m → g k m = [].
Proof.
  split.
  - intros H k m Hm. apply elem_of_nil_inv. intros f Hf.
    assert (f ∈ for_modules s g) as Hin by (apply elem_of_for_modules; eauto). rewrite H in Hin.
    by apply elem_of_nil in Hin.
  - intros H. apply elem_of_nil_inv. intros f (k & m & Hm & Hf)%elem_of_for_modules. rewrite (H k m Hm) in Hf.
    by apply elem_of_nil in Hf.
Qed.

Lemma no_errors_nil (l : list Finding) :
  (∀ f, f ∈ l → f_Severity f = SevError) → (∀ f, f ∈ l → f_Severity f ≠ SevError) ↔ l = [].
Proof.
  intros He. split; [|by intros -> f ?%elem_of_nil].
  intros H. apply elem_of_nil_inv. intros f Hf. by apply (H f Hf), He.
Qed.

Lemma blob_integrity_errors d s k m f : f ∈ blob_integrity_of d s k m → f_Severity f = SevError.
Proof.
  unfold blob_integrity_of. destruct (ms_source m); [|by intros ?%elem_of_nil]. case_decide; [by intros ?%elem_of_nil|].
  destruct (st_blobs s !! _); [destruct (hashFile d _); [case_decide; [by intros ?%elem_of_nil|]|]|];
    by intros ->%list_elem_of_singleton.
Qed.

Lemma source_schema_errors k m f : f ∈ source_schema_of k m → f_Severity f = SevError.
Proof.
  unfold source_schema_of. case_decide; [by intros ->%list_elem_of_singleton|].
  destruct (ms_source m); [|by intros ?%elem_of_nil]. rewrite !elem_of_app.
  intros [Hf|[Hf|Hf]]; revert Hf; repeat (case_decide || destruct (negb _));
    first [by intros ?%elem_of_nil|by intros ->%list_elem_of_singleton].
Qed.

Lemma module_bazel_errors k m f : f ∈ module_bazel_of k m → f_Severity f = SevError.
Proof.
  unfold module_bazel_of. case_decide; [by intros ->%list_elem_of_singleton|].
  destruct (ParseModuleContent _); [by intros ->%list_elem_of_singleton|by intros ?%elem_of_nil].
Qed.

Lemma agreement_warnings s f : f ∈ checkIndexMirrorAgreement s → f_Severity f = SevWarning.
Proof.
  unfold checkIndexMirrorAgreement. destruct (negb _); [by intros ?%elem_of_nil|].
  rewrite elem_of_app, !list_elem_of_fmap. by intros [(k & -> & _)|(k & -> & _)].
Qed.

Lemma orphan_infos d s f : f ∈ checkOrphanBlobs d s → f_Severity f = SevInfo.
Proof.
  assert (∀ f, f ∈ (sortedBlobHexes (st_blobs s) ≫= λ h, if decide (h ∈ st_referencedBlobs s) then []
    else match st_blobs s !! h with
         | Some b => [orphan_finding h "blob not referenced by any source.json"
             "safe to delete; consider `bzlhub mirror prune` once that exists, or `rm` directly" "sha256_hex" (bl_size b)]
         | None => [] end) → f_Severity f = SevInfo) as Hout.
  { intros f' (h & Hf & _)%list_elem_of_bind. case_decide; [by apply elem_of_nil in Hf|].
    destruct (st_blobs s !! h); [by apply list_elem_of_singleton in Hf as ->|by apply elem_of_nil in Hf]. }
  unfold checkOrphanBlobs. destruct (readDir d _) as [ents|]; [|apply Hout].
  rewrite elem_of_app. intros [H|H]; [by apply Hout|]. apply list_elem_of_bind in H as (e & Hf & _).
  destruct (_ || _); [by apply elem_of_nil in Hf|by apply list_elem_of_singleton in Hf as ->].
Qed.

Lemma scip_warnings s f : f ∈ checkScipPresent s → f_Severity f = SevWarning.
Proof.
  unfold checkScipPresent. destruct (negb _); [by intros ?%elem_of_nil|].
  rewrite list_elem_of_fmap. by intros (k & -> & _).
Qed.

Lemma found_errors d s root :
  (∀ f, f ∈ found d s (mkOptions root false []) → f_Severity f ≠ SevError) ↔
  checkBlobIntegrity d s = [] ∧ checkSourceJSONSchema s = [] ∧ checkModuleBazelPresent s = [].
Proof.
  assert (found d s (mkOptions root false []) = checkBlobIntegrity d s ++ checkSourceJSONSchema s ++
    checkModuleBazelPresent s ++ checkIndexMirrorAgreement s ++ checkOrphanBlobs d s ++ checkScipPresent s) as ->.
  { unfold found. simpl. rewrite !app_nil_r.
    assert (∀ k, k ∈ allChecks → k ∈ enabledChecks []) as Hen.
    { intros k Hk. unfold enabledChecks. rewrite decide_True by done. by apply elem_of_list_to_set. }
    repeat (rewrite decide_True; [|apply Hen; apply (bool_decide_unpack _); reflexivity]). reflexivity. }
  rewrite <-!no_errors_nil.
  - split.
    + intros H. split_and!; intros f Hf; apply H; rewrite !elem_of_app; tauto.
    + intros (H1 & H2 & H3) f. rewrite !elem_of_app. intros [Hf|[Hf|[Hf|[Hf|[Hf|Hf]]]]]; [by auto..| | |].
      * by rewrite (agreement_warnings s f Hf).
      * by rewrite (orphan_infos d s f Hf).
      * by rewrite (scip_warnings s f Hf).
  - intros f (k & m & _ & Hf)%elem_of_for_modules. by eapply module_bazel_errors.
  - intros f (k & m & _ & Hf)%elem_of_for_modules. by eapply source_schema_errors.
  - intros f (k & m & _ & Hf)%elem_of_for_modules. by eapply blob_integrity_errors.
Qed.

(** What a module version needs to be served and built. *)
Definition healthy (d : disk) (root : path) (k : moduleKey) : Prop :=
  let dir := root ++ ["modules"; k.1; k.2] in
  (∃ src h, well_formed d dir src h ∧ backed_by d root h) ∧ has_module_bazel d dir.

(** C11: A full run reports no error exactly when every version in the tree can be served
    and built: its source.json parses, is an archive with a URL and a readable
    integrity, the archive it names is stored and has that digest, and its
    MODULE.bazel parses. *)
Theorem no_errors_iff_healthy d root ix r :
  runVerify d (mkOptions (Some root) false []) ix = Ok r →
  r_Errors r = 0 ↔ ∀ k, listed d root k → healthy d root k.
Proof.
  intros (root' & ix' & s & [= <-] & Hs & ->)%runVerify_ok. simpl.
  rewrite count_zero, found_errors. unfold checkBlobIntegrity, checkSourceJSONSchema, checkModuleBazelPresent.
  rewrite !for_modules_nil. pose proof (buildState_readable _ _ _ _ Hs) as Hu.
  pose proof (buildState_ok _ _ _ _ Hs) as (Hok & Hroot & _ & Hmods & _).
  assert (∀ k m, st_modules s !! k = Some m → m = loadModuleState d (root ++ ["modules"; k.1; k.2])) as Hload.
  { intros k m Hm. apply (so_modules _ _ Hok) in Hm as (_ & _ & _ & ->). unfold module_dir. by rewrite Hroot. }
  unfold healthy. split.
  - intros (Hb & Hsch & Hmb) k Hk. apply Hmods in Hk as [m Hm]. pose proof (Hload k m Hm) as E.
    specialize (Hb k m Hm). specialize (Hsch k m Hm). specialize (Hmb k m Hm). rewrite E in *. clear E Hm m.
    apply source_schema_nil in Hsch as (src & h & Hw). apply module_bazel_nil in Hmb.
    split; [|done]. exists src, h. split; [done|]. by eapply blob_integrity_nil.
  - intros H. split_and!; intros k m Hm; rewrite (Hload k m Hm);
      (assert (listed d root k) as Hk by (apply Hmods; by eexists)); destruct (H k Hk) as [(src & h & Hw & Hb) Hmb].
    + by eapply blob_integrity_nil.
    + apply source_schema_nil. by exists src, h.
    + by apply module_bazel_nil.
Qed.
End verify.

(** ** What the writer leaves, verified *)

(** The directory of every file exists. *)
Definition parents_exist (d : disk) : Prop := map_Forall (λ p _, dir_of p ∈ dirs d) (files d).

Lemma mirror_verifies root parse d ix s :
  mirror_inv root parse d → parents_exist d → buildState (λ _, None) parse d root ix = Ok s →
  checkBlobIntegrity (λ _, None) d s = [].
Proof.
  intros Hi Hp Hs. apply buildState_ok in Hs as (Hok & Hroot & _ & _ & Hbl).
  apply for_modules_nil. intros k m Hm. destruct (so_modules _ _ _ _ Hok k m Hm) as (Hn & Hv & _ & ->).
  unfold module_dir. rewrite Hroot. set (dir := root ++ ["modules"; k.1; k.2]).
  destruct (load_fields (λ _, None) parse d dir) as [H _]. unfold blob_integrity_of.
  unfold read in H at 1. destruct (files d !! (dir ++ ["source.json"])) as [[raw c]|] eqn:Hf.
  2: { by destruct H as (_ & -> & _). }
  destruct (parse raw) as [src|e] eqn:Hparse; [|by destruct H as (_ & -> & _)].
  destruct H as (_ & -> & ->). case_decide as Hne; [done|].
  destruct (sriToHex (src_Integrity src)) as [h|] eqn:Hh; [|done]. simpl in *.
  assert (files d !! version_file root k.1 k.2 "source.json" = Some (raw, c)) as Hf'.
  { rewrite version_file_path; [exact Hf|done|done|by apply plain_lit]. }
  destruct (mi_sources _ _ _ Hi _ _ _ _ Hn Hv Hf') as [_ Hback].
  destruct (Hback src Hparse) as (h' & E & data & Hadr & Hst).
  { intros E. by rewrite E in Hh. }
  rewrite Hh in E. injection E as <-. apply sriToHex_name in Hh as Hname.
  assert (root ++ ["blobs"] ∈ dirs d) as Hdir.
  { specialize (Hp _ _ Hst). simpl in Hp. replace (root ++ ["blobs"; h]) with ((root ++ ["blobs"]) ++ [h]) in Hp
      by by rewrite <-app_assoc. by rewrite dir_of_snoc in Hp. }
  assert (is_Some (st_blobs s !! h)) as [b Hb].
  { apply Hbl. split_and!; [done..|]. by eexists. }
  rewrite Hb. destruct (so_blobs _ _ _ _ Hok h b Hb) as (_ & Hpath & _). rewrite Hroot in Hpath.
  unfold hashFile, read. rewrite Hpath, Hst. simpl.
  change (of_bytes (hex_encode (sha256 data))) with (address data). by rewrite decide_True.
Qed.

(** C2: The writer and the verifier agree: start from a sound mirror, mirror any version,
    let any call fail, the process die anywhere and the power go; the verifier
    run on what is left finds no missing and no corrupt archive. *)
Theorem mirror_survives_verify rnd root parse um uv mv mm gs gm gmeta get pd n v w cut ix s :
  plain n → plain v → mirror_inv root parse (w_disk w) →
  let d := power_loss cut (w_disk (walkOneMirrored rnd root um uv mv mm gs gm gmeta get parse pd n v w).2) in
  parents_exist d → buildState (λ _, None) parse d root ix = Ok s →
  checkBlobIntegrity (λ _, None) d s = [].
Proof.
  intros Hn Hv Hi d Hp Hs. eapply mirror_verifies; [|exact Hp|exact Hs]. apply inv_power_loss.
  by destruct (spec_walk rnd root parse um uv mv mm gs gm gmeta get pd n v Hn Hv w Hi) as [? _].
Qed.

(** ** Examples *)

Definition demo_disk (faults : list fault) : disk :=
  power_loss (λ _, 0) (w_disk (demo_walk1 demo_sri faults).2).
Definition demo_verify (d : disk) (checks : list Kind) : result string Report :=
  runVerify (λ _, None) demo_parse id (λ _, None) (λ _, Err "") (λ _, None) (λ _ _ _, None) (λ _ _ _, Err "")
    (λ _, false) d (mkOptions (Some demo_root_path) false checks) None.

Lemma mirror_survives_verify_witness :
  ∃ s, buildState (λ _, None) demo_parse (demo_disk []) demo_root_path None = Ok s ∧
    size (st_modules s) = 1 ∧ checkBlobIntegrity (λ _, None) (demo_disk []) s = [].
Proof.
  assert (plain "a" ∧ plain "1") as [Ha H1] by (split; by apply plain_lit).
  assert (parents_exist (demo_disk [])) as Hp by (apply (bool_decide_unpack _); vm_compute; exact I).
  destruct (buildState (λ _, None) demo_parse (demo_disk []) demo_root_path None) as [s|e] eqn:Hs;
    [|exfalso; revert Hs; vm_compute; discriminate].
  exists s. split_and!; [done| |].
  - assert ((λ r, match r with Ok s => size (st_modules s) | Err _ => 0 end)
      (buildState (λ _, None) demo_parse (demo_disk []) demo_root_path None) = 1) as E by (vm_compute; reflexivity).
    by rewrite Hs in E.
  - pose proof (mirror_survives_verify demo_rnd demo_root_path demo_parse demo_unmarshal_map demo_unmarshal_versions
      demo_marshal_versions demo_marshal_map (λ _ _, Ok (to_bytes demo_sri)) (λ _ _, Ok (to_bytes "module()"))
      (λ _, Err "404") (λ _, Ok (demo_data, None)) (λ _, Ok [("b", "1")]) "a" "1"
      (mkWorld (mkDisk ∅ ∅) [] true) (λ _, 0) None s Ha H1 (empty_inv demo_parse demo_root_path)) as H.
    cbn zeta in H. unfold demo_disk, demo_walk1 in *.
    specialize (H Hp). clear Hp. apply H. assumption.
Defined.

Lemma no_errors_iff_healthy_witness :
  ∃ r, demo_verify (demo_disk []) [] = Ok r ∧
    (r_Errors r = 0 ↔ ∀ k, listed (λ _, None) (demo_disk []) demo_root_path k →
       healthy (λ _, None) demo_parse (λ _, None) (demo_disk []) demo_root_path k).
Proof.
  destruct (demo_verify (demo_disk []) []) as [r|e] eqn:Hr; [|exfalso; revert Hr; vm_compute; discriminate].
  exists r. split; [done|]. by eapply no_errors_iff_healthy.
Defined.

Lemma report_exact_witness :
  ∃ r, demo_verify (demo_disk [Fine]) [KindBlobMissing] = Ok r ∧ r_Findings r = [].
Proof.
  destruct (demo_verify (demo_disk [Fine]) [KindBlobMissing]) as [r|e] eqn:Hr;
    [|exfalso; revert Hr; vm_compute; discriminate].
  exists r. split; [done|].
  unfold demo_verify in Hr. apply report_exact in Hr as (_ & _ & _ & _ & H). apply H; [done| |done].
  intros k ->%list_elem_of_singleton. apply (bool_decide_unpack (¬ _)). reflexivity.
Defined.

(** An archive that went bad is not repaired by the re-ingest the finding advises:
    the sink finds a file under the digest and drops the good bytes. *)
Definition bad_name : string := Eval vm_compute in address (to_bytes "hello").
Definition bad_disk : disk :=
  let d := demo_disk [] in
  mkDisk (<[demo_root_path ++ ["blobs"; bad_name] := (to_bytes "rotten", true)]> (files d)) (dirs d).
Definition reingested : result string (list (string * string)) * world :=
  walkOneMirrored demo_rnd demo_root_path demo_unmarshal_map demo_unmarshal_versions demo_marshal_versions
    demo_marshal_map (λ _ _, Ok (to_bytes demo_sri)) (λ _ _, Ok (to_bytes "module()")) (λ _, Err "404")
    (λ _, Ok (demo_data, None)) demo_parse (λ _, Ok []) "a" "1" (mkWorld bad_disk [] true).

Example reingest_keeps_bad_archive :
  (match demo_verify bad_disk [] with Ok r => f_Kind <$> r_Findings r | Err _ => [] end) = [KindBlobIntegrity] ∧
  reingested.1 = Ok [] ∧
  (match demo_verify (w_disk reingested.2) [] with Ok r => f_Kind <$> r_Findings r | Err _ => [] end) = [KindBlobIntegrity].
Proof. split_and!; vm_compute; reflexivity. Qed.
