(* ===== verification/Drift.v ===== *)
(** * Drift against an upstream registry

    [internal/drift]: the version comparator, the verdict on one module, the
    report over a mirror and the verdict on one version; and the two passes of
    [internal/bzlhub] that store the verdicts, [BackfillDriftSummary] and
    [RefreshDriftSummary].  The upstream's answers, the JSON codecs and the
    failures of the database are parameters. *)

From S2P Require Import Prelude Strings Archive FileSystem Mirror Verify.
#[local] Open Scope Z_scope.

(** ** The version comparator *)

Record versionSeg := mkSeg { sg_n : Z; sg_s : string; sg_num : bool }.

Definition is_digit (c : ascii) : bool := let n := Z.of_N (N_of_ascii c) in (48 <=? n) && (n <=? 57).

Definition sign (c : comparison) : Z := match c with Lt => -1 | Eq => 0 | Gt => 1 end.

(** [versionSeg.cmp] *)
Definition seg_cmp (a b : versionSeg) : Z :=
  if sg_num a && sg_num b then
    if sg_n a <? sg_n b then -1 else if sg_n b <? sg_n a then 1 else 0
  else sign (String.compare (sg_s a) (sg_s b)).

(** The digits read before the first byte that is none, and whether there are any. *)
Fixpoint leading_digits (n : Z) (ok : bool) (l : bytes) : Z * bool :=
  match l with
  | [] => (n, ok)
  | c :: l' => if is_digit c then leading_digits (wrap64 (n * 10 + (Z.of_N (N_of_ascii c) - 48))) true l' else (n, ok)
  end.

Definition allDigits (s : string) : bool := forallb is_digit (to_bytes s) && negb (bool_decide (s = "")).

Definition versionSegOf (p : string) : versionSeg :=
  let (n, ok) := leading_digits 0 false (to_bytes p) in
  if ok && allDigits p then mkSeg n p true else mkSeg 0 p false.

(** [versionSegs] *)
Definition versionSegs (v : string) : list versionSeg :=
  if decide (v = "") then [] else versionSegOf <$> Split v "."%char.

Definition zeroSeg : versionSeg := mkSeg 0 "" false.

(** The loop of [compareVersions]: [n] positions are left; a side that has run
    out has the zero segment. *)
Fixpoint compare_segs (n : nat) (a b : list versionSeg) : Z :=
  match n with
  | O => 0
  | S n' =>
      let c := seg_cmp (default zeroSeg (head a)) (default zeroSeg (head b)) in
      if c =? 0 then compare_segs n' (tail a) (tail b) else c
  end.

(** [compareVersions] *)
Definition compareVersions (a b : string) : Z :=
  let sa := versionSegs a in let sb := versionSegs b in
  compare_segs (max (length sa) (length sb)) sa sb.

(** [pickLatest] *)
Definition pickLatest (versions : list string) : string :=
  match versions with
  | [] => ""
  | v :: rest => foldl (λ best v, if 0 <? compareVersions v best then v else best) v rest
  end.

(** ** The verdict on one module *)

Inductive Status : Type := InSync | Behind | YankedUpstream | LocalOnly | UpstreamError.
#[export] Instance Status_eq_dec : EqDecision Status.
Proof. solve_decision. Defined.

Record ModuleDrift := mkModuleDrift {
  md_Name : string;
  md_Status : Status;
  md_LocalVersions : list string;
  md_UpstreamVersions : list string;
  md_LocalLatest : string;
  md_UpstreamLatest : string;
  md_NewerUpstream : list string;
  md_MissingLocally : list string;
  md_YankedAtUpstream : list string;
  md_LocalOnlyVersions : list string;
  md_Error : string;
}.

(** [fetch.MetadataJSON] *)
Record MetadataJSON := mkMetadata {
  meta_Versions : list string;
  meta_YankedVersions : gmap string string;
  meta_Homepage : string;
}.

Inductive FetchError : Type := ErrNotFound | ErrFetch (msg : string).

Record localModule := mkLocal { lm_Name : string; lm_Versions : list string }.

(** [compareOne] *)
Definition compareOne (fetched : result FetchError MetadataJSON) (l : localModule) : ModuleDrift :=
  let vs := lm_Versions l in
  match fetched with
  | Err ErrNotFound => mkModuleDrift (lm_Name l) LocalOnly vs [] (pickLatest vs) "" [] [] [] vs ""
  | Err (ErrFetch e) => mkModuleDrift (lm_Name l) UpstreamError vs [] (pickLatest vs) "" [] [] [] [] e
  | Ok up =>
      let localSet := set_of vs in
      let upSet := set_of (meta_Versions up) in
      let missing := filter (λ v, v ∉ localSet) (meta_Versions up) in
      let only := filter (λ v, v ∉ upSet) vs in
      let yanked := filter (λ v, is_Some (meta_YankedVersions up !! v)) vs in
      let newer := filter (λ v, 0 < compareVersions v (pickLatest vs)) missing in
      let status :=
        match yanked, newer with
        | _ :: _, _ => YankedUpstream
        | [], _ :: _ => Behind
        | [], [] => InSync
        end in
      mkModuleDrift (lm_Name l) status vs (meta_Versions up) (pickLatest vs) (pickLatest (meta_Versions up))
        newer missing yanked only ""
  end.

(** ** The verdict on one version *)

Record VersionDrift := mkVersionDrift { vd_Status : Status; vd_Behind : Z; vd_LatestUpstream : string }.

(** [ComputeForVersion]; [None] is a module the upstream does not have. *)
Definition ComputeForVersion (localVersion : string) (upstream : option MetadataJSON) : VersionDrift :=
  match upstream with
  | None => mkVersionDrift LocalOnly 0 ""
  | Some up =>
      match meta_YankedVersions up !! localVersion with
      | Some _ => mkVersionDrift YankedUpstream 0 (pickLatest (meta_Versions up))
      | None =>
          let newer := Z.of_nat (length (filter (λ v, 0 < compareVersions v localVersion) (meta_Versions up))) in
          if 0 <? newer then mkVersionDrift Behind newer (pickLatest (meta_Versions up))
          else mkVersionDrift InSync 0 ""
      end
  end.

(** ** The report over a mirror *)

Record ReportSummary := mkSummary {
  sm_Total : Z; sm_InSync : Z; sm_Behind : Z; sm_YankedUpstream : Z; sm_LocalOnly : Z; sm_UpstreamError : Z;
}.

Definition count_status (s : ReportSummary) (m : ModuleDrift) : ReportSummary :=
  let 'mkSummary t i b y l e := s in
  match md_Status m with
  | InSync => mkSummary t (i + 1) b y l e
  | Behind => mkSummary t i (b + 1) y l e
  | YankedUpstream => mkSummary t i b (y + 1) l e
  | LocalOnly => mkSummary t i b y (l + 1) e
  | UpstreamError => mkSummary t i b y l (e + 1)
  end.

(** [summarize] *)
Definition summarize (modules : list ModuleDrift) : ReportSummary :=
  foldl count_status (mkSummary (Z.of_nat (length modules)) 0 0 0 0 0) modules.

(** [statusRank] *)
Definition statusRank (s : Status) : Z :=
  match s with YankedUpstream => 4 | Behind => 3 | LocalOnly => 2 | UpstreamError => 1 | InSync => 0 end.

(** The comparator of the report's rows. *)
Definition drift_before (a b : ModuleDrift) : bool :=
  lex_less (λ d, statusRank (md_Status d)) (λ r s, s <? r) (λ a b, String.ltb (md_Name a) (md_Name b)) a b.

Record DriftReport := mkDriftReport {
  dr_UpstreamURL : string; dr_MirrorRoot : path; dr_Modules : list ModuleDrift; dr_Summary : ReportSummary;
}.

Section report.
Context (unreadable : path → option string).
(** [json.Unmarshal] of a metadata.json's version list; [None] is an error. *)
Context (decode_versions : bytes → option (list string)).

(** One directory's turn in [readMirrorModules]. *)
Definition read_module (d : disk) (modulesDir : path) (name : string) : localModule :=
  let declared :=
    match read unreadable d (modulesDir ++ [name; "metadata.json"]) with
    | Ok b => default [] (decode_versions b)
    | Err _ => []
    end in
  let vs :=
    match declared with
    | [] => match readDir unreadable d (modulesDir ++ [name]) with
            | Ok es => (filter (λ e, e.2 = true) es).*1
            | Err _ => []
            end
    | _ => declared
    end in
  mkLocal name (sort_strings vs).

(** [readMirrorModules] *)
Definition readMirrorModules (d : disk) (root : path) : result ReadError (list localModule) :=
  entries ← readDir unreadable d (root ++ ["modules"]);
  Ok (sort_by_key lm_Name
    ((λ e, read_module d (root ++ ["modules"]) e.1) <$> filter (λ e, e.2 = true) entries)).

(** [filterModules] *)
Definition filterModules (l : list localModule) (name : string) : list localModule :=
  match filter (λ m, lm_Name m = name) l with m :: _ => [m] | [] => [] end.

(** The workers fill one slot each, in the order in which they finish. *)
Definition emptyDrift : ModuleDrift := mkModuleDrift "" InSync [] [] "" "" [] [] [] [] "".

Definition fill (fetched : string → result FetchError MetadataJSON) (modules : list localModule)
    (finished : list nat) : list ModuleDrift :=
  foldl (λ r i, match modules !! i with
                | Some m => <[i := compareOne (fetched (lm_Name m)) m]> r
                | None => r
                end) (replicate (length modules) emptyDrift) finished.

(** [Compute]; [finished] is the order in which the goroutines finish. *)
Definition ComputeDrift (d : disk) (root : path) (upstreamURL only : string)
    (fetched : string → result FetchError MetadataJSON) (finished : list nat) : result ReadError DriftReport :=
  modules ← readMirrorModules d root;
  let modules := if decide (only = "") then modules else filterModules modules only in
  let results := fill fetched modules finished in
  Ok (mkDriftReport upstreamURL root (sort_slice drift_before results) (summarize results)).
End report.

(** ** Storing the verdicts *)

Inductive MirrorError : Type := ErrModuleNotFound | ErrMirror (msg : string).

(** [api.DriftSummary] *)
Record DriftSummary := mkDriftSummary {
  ds_Status : string;
  ds_Behind : Z;
  ds_LatestUpstream : string;
  ds_ComputedAt : Z;
  ds_UpstreamSHA : string;
  ds_SyncedAt : Z;
}.

Definition status_text (s : Status) : string :=
  match s with
  | InSync => "in-sync" | Behind => "behind" | YankedUpstream => "yanked-upstream"
  | LocalOnly => "local-only" | UpstreamError => "upstream-error"
  end.

(** [driftSummaryFromVerdict] *)
Definition driftSummaryFromVerdict (v : VersionDrift) (now : Z) (upstreamSHA : string) (syncedAt : Z) : DriftSummary :=
  mkDriftSummary (status_text (vd_Status v)) (vd_Behind v) (vd_LatestUpstream v) now upstreamSHA syncedAt.

(** A row of the versions table: module, version and [drift_summary_json]. *)
Record driftRow := mkDriftRow { rw_Module : string; rw_Version : string; rw_DriftRaw : string }.

Section passes.
(** [mirror.MetadataAt(ctx, module, "HEAD")] at its [n]-th call, decoded: HEAD moves while a
    pass runs. *)
Context (MetadataAt : nat → string → result MirrorError MetadataJSON).
(** [json.Marshal] and [json.Unmarshal] of a summary, its status being all that is read. *)
Context (marshal : DriftSummary → string) (unmarshal_status : string → option string).
(** The failures of the UPDATE statement. *)
Context (exec_error : string → string → option string).
Context (now : Z) (upstreamSHA : string) (syncedAt : Z).

(** [isDriftUnknown] *)
Definition isDriftUnknown (raw : string) : bool :=
  if decide (raw = "" ∨ raw = "{}") then true
  else match unmarshal_status raw with
       | None => true
       | Some s => bool_decide (s = "" ∨ s = "unknown")
       end.

(** [SetDriftSummary] *)
Definition set_row (name version payload : string) (r : driftRow) : driftRow :=
  if decide (rw_Module r = name ∧ rw_Version r = version) then mkDriftRow (rw_Module r) (rw_Version r) payload else r.

Definition SetDriftSummary (name version payload : string) (t : list driftRow) : result string (list driftRow) :=
  if decide (name = "" ∨ version = "") then Err "SetDriftSummary: module + version required"
  else match exec_error name version with
       | Some e => Err e
       | None => Ok (set_row name version (if decide (payload = "") then "{}" else payload) <$> t)
       end.

(** The cache of one pass, and how often the mirror was asked. *)
Record upstreamCache := mkUpstreamCache {
  uc_hits : gmap string (result MirrorError MetadataJSON);
  uc_calls : nat;
}.

(** [upstreamCache.lookup] *)
Definition uc_lookup (c : upstreamCache) (module : string) : result MirrorError MetadataJSON * upstreamCache :=
  match uc_hits c !! module with
  | Some hit => (hit, c)
  | None =>
      let r := MetadataAt (uc_calls c) module in
      (r, mkUpstreamCache (<[module := r]> (uc_hits c)) (S (uc_calls c)))
  end.

Record pass_state := mkPass { ps_cache : upstreamCache; ps_table : list driftRow; ps_written : Z }.

(** One row's turn; [skip] says which rows the pass leaves alone. *)
Definition pass_row (skip : string → bool) (s : pass_state) (r : driftRow) : pass_state :=
  if skip (rw_DriftRaw r) then s
  else
    let (answer, cache) := uc_lookup (ps_cache s) (rw_Module r) in
    let judge up :=
      let summary := driftSummaryFromVerdict (ComputeForVersion (rw_Version r) up) now upstreamSHA syncedAt in
      match SetDriftSummary (rw_Module r) (rw_Version r) (marshal summary) (ps_table s) with
      | Err _ => mkPass cache (ps_table s) (ps_written s)
      | Ok t => mkPass cache t (ps_written s + 1)
      end in
    match answer with
    | Err (ErrMirror _) => mkPass cache (ps_table s) (ps_written s)
    | Err ErrModuleNotFound => judge None
    | Ok up => judge (Some up)
    end.

(** The rows are those of the table when the query started. *)
Definition run_pass (skip : string → bool) (table : list driftRow) : pass_state :=
  foldl (pass_row skip) (mkPass (mkUpstreamCache ∅ 0) table 0) table.

(** [BackfillDriftSummary], with a mirror *)
Definition BackfillDriftSummary (table : list driftRow) : pass_state :=
  run_pass (λ raw, negb (isDriftUnknown raw)) table.

(** [RefreshDriftSummary], with a mirror *)
Definition RefreshDriftSummary (table : list driftRow) : pass_state := run_pass (λ _, false) table.
End passes.

(** ** The order of numeric versions *)

(** The number a segment of digits writes, when it fits an [int]. *)
Definition numeral (s : string) : option Z :=
  match to_bytes s with
  | [] => None
  | l => match parse_digits 0 l with
         | Some n => if n <? 2 ^ 63 then Some n else None
         | None => None
         end
  end.

(** A numeric version as its list of numbers. *)
Definition numbers (v : string) : option (list Z) :=
  if decide (v = "") then Some [] else mapM numeral (Split v "."%char).

(** Lists of numbers in lexicographic order, a proper prefix being smaller. *)
Fixpoint lex_cmp (x y : list Z) : Z :=
  match x, y with
  | [], [] => 0
  | [], _ :: _ => -1
  | _ :: _, [] => 1
  | a :: x', b :: y' => if a <? b then -1 else if b <? a then 1 else lex_cmp x' y'
  end.

Lemma parse_digits_ge l acc v : 0 ≤ acc → parse_digits acc l = Some v → acc ≤ v.
Proof.
  revert acc. induction l as [|c l IH]; intros acc Ha; simpl; [intros [= <-]; lia|].
  destruct (_ && _) eqn:E; [|done]. apply andb_prop in E as [E%Z.leb_le _].
  intros H. apply IH in H; lia.
Qed.

Lemma leading_parse l n ok v :
  0 ≤ n → parse_digits n l = Some v → v < 2 ^ 63 →
  leading_digits n ok l = (v, ok || negb (bool_decide (l = []))) ∧ forallb is_digit l = true.
Proof.
  revert n ok. induction l as [|c l IH]; intros n ok Hn; simpl.
  { intros [= ->] _. by rewrite orb_false_r. }
  destruct (_ && _) eqn:E; [|done]. intros H Hv.
  assert (is_digit c = true) as ->.
  { unfold is_digit. apply andb_prop in E as [E1%Z.leb_le E2%Z.leb_le].
    apply andb_true_intro. split; apply Z.leb_le; lia. }
  apply andb_prop in E as [E1%Z.leb_le E2%Z.leb_le].
  pose proof (parse_digits_ge l (10 * n + (Z.of_N (N_of_ascii c) - 48)) v ltac:(lia) H) as Hge.
  rewrite wrap64_small by lia.
  replace (n * 10 + (Z.of_N (N_of_ascii c) - 48)) with (10 * n + (Z.of_N (N_of_ascii c) - 48)) by lia.
  destruct (IH (10 * n + (Z.of_N (N_of_ascii c) - 48)) true ltac:(lia) H Hv) as [-> ->].
  by rewrite orb_true_r.
Qed.

Lemma versionSegOf_numeral p n : numeral p = Some n → versionSegOf p = mkSeg n p true ∧ p ≠ "".
Proof.
  unfold numeral, versionSegOf. destruct (to_bytes p) as [|c l] eqn:E; [done|].
  destruct (parse_digits 0 (c :: l)) as [v|] eqn:Hp; [|done]. case_match eqn:Hv; [|done]. intros [= ->].
  apply Z.ltb_lt in Hv. destruct (leading_parse (c :: l) 0 false n ltac:(lia) Hp Hv) as [-> Hd].
  assert (p ≠ "") as Hne by (intros ->; done).
  unfold allDigits. rewrite E, Hd, bool_decide_false by done. by rewrite bool_decide_false by done.
Qed.

(** A list of segments that writes a list of numbers. *)
Definition writes (sg : versionSeg) (n : Z) : Prop := sg_num sg = true ∧ sg_n sg = n ∧ sg_s sg ≠ "".

Lemma versionSegs_numbers v x : numbers v = Some x → Forall2 writes (versionSegs v) x.
Proof.
  unfold numbers, versionSegs. case_decide; [intros [= <-]; constructor|].
  intros Hm%mapM_Some_1. apply Forall2_fmap_l. eapply Forall2_impl; [exact Hm|].
  intros p n Hp. change (writes (versionSegOf p) n). destruct (versionSegOf_numeral p n Hp) as [-> Hne]. by repeat split.
Qed.

Lemma compare_segs_lex a b x y n :
  Forall2 writes a x → Forall2 writes b y → (max (length a) (length b) ≤ n)%nat →
  compare_segs n a b = lex_cmp x y.
Proof.
  intros Ha. revert b y n. induction Ha as [|s i a x (Hs1 & Hs2 & Hs3) Ha IH]; intros b y n Hb Hn.
  - destruct Hb as [|t j b y (Ht1 & Ht2 & Ht3) Hb].
    + induction n as [|n IH]; [done|]. simpl. by apply IH; simpl; lia.
    + destruct n as [|n]; simpl in Hn; [lia|]. simpl. unfold seg_cmp. simpl.
      by destruct (sg_s t).
  - destruct n as [|n]; simpl in Hn; [lia|]. destruct Hb as [|t j b y (Ht1 & Ht2 & Ht3) Hb].
    + simpl. unfold seg_cmp. simpl. rewrite andb_false_r. by destruct (sg_s s).
    + simpl. unfold seg_cmp. rewrite Hs1, Ht1, Hs2, Ht2. simpl in Hn |- *.
      destruct (i <? j); [done|]. destruct (j <? i); [done|]. simpl. apply IH; [done|lia].
Qed.

Lemma compare_lex_cmp v w x y : numbers v = Some x → numbers w = Some y → compareVersions v w = lex_cmp x y.
Proof. intros Hv%versionSegs_numbers Hw%versionSegs_numbers. by apply compare_segs_lex. Qed.

Lemma lex_cmp_flip x y : lex_cmp y x = - lex_cmp x y.
Proof.
  revert y. induction x as [|a x IH]; intros [|b y]; simpl; try done.
  destruct (Z.ltb_spec a b), (Z.ltb_spec b a); try lia. apply IH.
Qed.

Lemma lex_cmp_refl x : lex_cmp x x = 0.
Proof. induction x as [|a x IH]; simpl; [done|]. by rewrite Z.ltb_irrefl. Qed.

Lemma lex_cmp_eq x y : lex_cmp x y = 0 ↔ x = y.
Proof.
  split; [|intros ->; apply lex_cmp_refl]. revert y. induction x as [|a x IH]; intros [|b y]; simpl; try done.
  destruct (Z.ltb_spec a b), (Z.ltb_spec b a); try lia. intros ->%IH. f_equal. lia.
Qed.

(** The order is total: no list is above one that is not above a third. *)
Lemma lex_cmp_trans x y z : lex_cmp x y ≤ 0 → lex_cmp y z ≤ 0 → lex_cmp x z ≤ 0.
Proof.
  revert y z. induction x as [|a x IH]; intros [|b y] [|c z]; simpl; try lia.
  destruct (Z.ltb_spec a b), (Z.ltb_spec b a), (Z.ltb_spec b c), (Z.ltb_spec c b), (Z.ltb_spec a c), (Z.ltb_spec c a);
    try lia. by apply IH.
Qed.

Definition numeric (v : string) : Prop := is_Some (numbers v).
#[export] Instance numeric_dec v : Decision (numeric v).
Proof. unfold numeric. apply _. Defined.

Lemma compare_trans u v w :
  numeric u → numeric v → numeric w →
  compareVersions u v ≤ 0 → compareVersions v w ≤ 0 → compareVersions u w ≤ 0.
Proof.
  intros [x Hx] [y Hy] [z Hz]. rewrite (compare_lex_cmp _ _ _ _ Hx Hy), (compare_lex_cmp _ _ _ _ Hy Hz),
    (compare_lex_cmp _ _ _ _ Hx Hz). apply lex_cmp_trans.
Qed.

Lemma compare_flip v w : numeric v → numeric w → compareVersions w v = - compareVersions v w.
Proof.
  intros [x Hx] [y Hy]. rewrite (compare_lex_cmp _ _ _ _ Hx Hy), (compare_lex_cmp _ _ _ _ Hy Hx). apply lex_cmp_flip.
Qed.

Lemma compare_refl v : numeric v → compareVersions v v = 0.
Proof. intros [x Hx]. rewrite (compare_lex_cmp _ _ _ _ Hx Hx). apply lex_cmp_refl. Qed.

Lemma pickLatest_in vs : vs ≠ [] → pickLatest vs ∈ vs.
Proof.
  destruct vs as [|v vs]; [done|]. intros _. simpl.
  assert (∀ l b, foldl (λ best v, if 0 <? compareVersions v best then v else best) b l ∈ b :: l) as H; [|apply H].
  induction l as [|w l IH]; intros b; simpl; [set_solver|].
  specialize (IH (if 0 <? compareVersions w b then w else b)). destruct (0 <? _); set_solver.
Qed.

(** Among numeric versions the latest is above or level with each. *)
Lemma pickLatest_max vs v : Forall numeric vs → v ∈ vs → compareVersions v (pickLatest vs) ≤ 0.
Proof.
  destruct vs as [|w vs]; [set_solver|]. simpl. revert w v.
  induction vs as [|u vs IH]; intros w v [Hw Hvs]%Forall_cons Hv; simpl.
  - apply list_elem_of_singleton in Hv as ->. by rewrite compare_refl.
  - apply Forall_cons in Hvs as [Hu Hvs].
    set (best := if 0 <? compareVersions u w then u else w).
    assert (numeric best) as Hb by (subst best; by destruct (0 <? _)).
    assert (compareVersions u best ≤ 0 ∧ compareVersions w best ≤ 0) as [Hub Hwb].
    { subst best. destruct (0 <? compareVersions u w) eqn:E.
      - rewrite (compare_flip u w), compare_refl by done. lia.
      - rewrite compare_refl by done. lia. }
    pose proof (IH best best ltac:(by constructor) ltac:(set_solver)) as Hbest.
    assert (Forall numeric (best :: vs)) as Hall by by constructor.
    assert (numeric (foldl (λ best v, if 0 <? compareVersions v best then v else best) best vs)) as Hres.
    { pose proof (pickLatest_in (best :: vs) ltac:(done)) as Hin. rewrite Forall_forall in Hall. by apply Hall. }
    apply elem_of_cons in Hv as [->|[->|Hv]%elem_of_cons].
    + by apply (compare_trans w best).
    + by apply (compare_trans u best).
    + apply (IH best v); [by constructor|set_solver].
Qed.

(** ** Verdicts *)

Lemma newer_iff vs v :
  vs ≠ [] → Forall numeric vs → numeric v →
  0 < compareVersions v (pickLatest vs) ↔ ∀ w, w ∈ vs → 0 < compareVersions v w.
Proof.
  intros Hne Hvs Hv. pose proof (pickLatest_in vs Hne) as Hin. split; [|by auto].
  intros H w Hw. pose proof (pickLatest_max vs w Hvs Hw) as Hmax. rewrite Forall_forall in Hvs.
  destruct (Z.lt_ge_cases 0 (compareVersions v w)) as [?|Hle]; [done|].
  pose proof (compare_trans v w (pickLatest vs) Hv (Hvs w Hw) (Hvs _ Hin) Hle Hmax). lia.
Qed.

Lemma filter_nonnil {A} (P : A → Prop) `{∀ x, Decision (P x)} l : filter P l ≠ [] ↔ ∃ x, x ∈ l ∧ P x.
Proof.
  split.
  - destruct (filter P l) as [|x k] eqn:E; [done|]. intros _.
    assert (x ∈ filter P l) as Hx by (rewrite E; by left). apply list_elem_of_filter in Hx as [??]. eauto.
  - intros (x & Hx & HP) E. assert (x ∈ filter P l) as Hf by by apply list_elem_of_filter.
    rewrite E in Hf. by apply elem_of_nil in Hf.
Qed.

(** The status of a module the upstream has, from the two lists it looks at. *)
Lemma compareOne_status up l :
  let d := compareOne (Ok up) l in
  let held_yanked := ∃ v, v ∈ lm_Versions l ∧ is_Some (meta_YankedVersions up !! v) in
  let newer := ∃ v, v ∈ meta_Versions up ∧ (v ∉ lm_Versions l) ∧ 0 < compareVersions v (pickLatest (lm_Versions l)) in
  (md_Status d = YankedUpstream ↔ held_yanked) ∧
  (md_Status d = Behind ↔ ¬ held_yanked ∧ newer) ∧
  (md_Status d = InSync ↔ ¬ held_yanked ∧ ¬ newer).
Proof.
  cbn zeta. cbn.
  set (ys := filter _ (lm_Versions l)). set (ns := filter _ (filter _ (meta_Versions up))).
  assert (ys ≠ [] ↔ ∃ v, v ∈ lm_Versions l ∧ is_Some (meta_YankedVersions up !! v)) as <- by apply filter_nonnil.
  assert (ns ≠ [] ↔ ∃ v, v ∈ meta_Versions up ∧ (v ∉ lm_Versions l) ∧ 0 < compareVersions v (pickLatest (lm_Versions l))) as <-.
  { unfold ns. rewrite filter_nonnil. setoid_rewrite list_elem_of_filter. setoid_rewrite elem_of_set_of. naive_solver. }
  destruct ys, ns; naive_solver.
Qed.

(** With numeric versions a held version is newer than nothing upstream-only. *)
Lemma newer_upstream up l :
  lm_Versions l ≠ [] → Forall numeric (lm_Versions l) → Forall numeric (meta_Versions up) →
  (∃ v, v ∈ meta_Versions up ∧ (v ∉ lm_Versions l) ∧ 0 < compareVersions v (pickLatest (lm_Versions l))) ↔
  ∃ v, v ∈ meta_Versions up ∧ ∀ w, w ∈ lm_Versions l → 0 < compareVersions v w.
Proof.
  intros Hne Hl Hu. rewrite Forall_forall in Hu. split.
  - intros (v & Hv & _ & H). exists v. split; [done|]. apply newer_iff; auto.
  - intros (v & Hv & H). exists v. split_and!; [done| |by apply newer_iff; auto].
    intros Hvl. specialize (H v Hvl). rewrite compare_refl in H; [lia|auto].
Qed.

(** A module is reported Yanked exactly when a version it holds was yanked
    upstream; otherwise Behind exactly when the upstream lists a version above
    every held one, and in sync exactly when it lists none, for versions made of
    numbers.  The verdict stored for the module's latest version is the same one,
    and its count is the number of listed versions above every held one. *)
Theorem drift_verdict (up : MetadataJSON) (l : localModule) :
  lm_Versions l ≠ [] → Forall numeric (lm_Versions l) → Forall numeric (meta_Versions up) →
  let d := compareOne (Ok up) l in
  let held_yanked := ∃ v, v ∈ lm_Versions l ∧ is_Some (meta_YankedVersions up !! v) in
  let above v := ∀ w, w ∈ lm_Versions l → 0 < compareVersions v w in
  (md_Status d = YankedUpstream ↔ held_yanked) ∧
  (md_Status d = Behind ↔ ¬ held_yanked ∧ ∃ v, v ∈ meta_Versions up ∧ above v) ∧
  (md_Status d = InSync ↔ ¬ held_yanked ∧ ∀ v, v ∈ meta_Versions up → ¬ above v) ∧
  (¬ held_yanked →
     let stored := ComputeForVersion (md_LocalLatest d) (Some up) in
     vd_Status stored = md_Status d ∧
     (md_Status d = Behind →
        vd_LatestUpstream stored = md_UpstreamLatest d ∧
        ∃ news, news `sublist_of` meta_Versions up ∧ vd_Behind stored = Z.of_nat (length news) ∧
          ∀ v, v ∈ news ↔ v ∈ meta_Versions up ∧ above v)).
Proof.
  intros Hne Hl Hu. cbn zeta. pose proof (compareOne_status up l) as (Hy & Hb & Hi). cbn zeta in Hy, Hb, Hi.
  pose proof (newer_upstream up l Hne Hl Hu) as Hn.
  split_and!; [exact Hy|rewrite Hb; clear -Hn; tauto|rewrite Hi, Hn; clear; naive_solver|].
  intros Hny. change (md_LocalLatest (compareOne (Ok up) l)) with (pickLatest (lm_Versions l)).
  set (latest := pickLatest (lm_Versions l)) in *.
  unfold ComputeForVersion. destruct (meta_YankedVersions up !! latest) eqn:E.
  { destruct Hny. exists latest. split; [by apply pickLatest_in|by rewrite E]. }
  set (news := filter (λ v, 0 < compareVersions v latest) (meta_Versions up)).
  assert (∀ v, v ∈ news ↔ v ∈ meta_Versions up ∧ ∀ w, w ∈ lm_Versions l → 0 < compareVersions v w) as Hnews.
  { intros v. unfold news. rewrite list_elem_of_filter. rewrite Forall_forall in Hu.
    split; intros [H1 H2]; (split; [try done|try done]); by apply newer_iff; auto. }
  destruct (0 <? Z.of_nat (length news)) eqn:Hlen.
  - assert (news ≠ []) as Hnn by (intros Hnil; by rewrite Hnil in Hlen).
    assert (md_Status (compareOne (Ok up) l) = Behind) as ->.
    { apply Hb. split; [done|]. apply Hn. destruct news as [|v k]; [done|]. exists v. apply Hnews. by left. }
    split; [done|]. intros _. split; [done|]. exists news. split_and!; [apply sublist_filter|done|exact Hnews].
  - assert (md_Status (compareOne (Ok up) l) = InSync) as ->; [|split; [done|by intros [=]]].
    apply Hi. split; [done|]. intros (v & Hv)%Hn. apply Hnews in Hv.
    apply Z.ltb_ge in Hlen. destruct news; [by apply elem_of_nil in Hv|]. rewrite length_cons in Hlen. lia.
Qed.

Definition demo_up : MetadataJSON := mkMetadata ["1.9.0"; "1.10.0"; "2.0"] {["1.2" := "bad"]} "".

Lemma drift_verdict_witness :
  md_Status (compareOne (Ok demo_up) (mkLocal "m" ["1.9.0"; "1.9.1"])) = Behind ∧
  (md_Status (compareOne (Ok demo_up) (mkLocal "m" ["1.9.0"; "1.9.1"])) = YankedUpstream ↔
   ∃ v, v ∈ ["1.9.0"; "1.9.1"] ∧ is_Some (meta_YankedVersions demo_up !! v)).
Proof.
  split; [by vm_compute|].
  refine (proj1 (drift_verdict demo_up (mkLocal "m" ["1.9.0"; "1.9.1"]) _ _ _)); [done| |];
    apply (bool_decide_unpack _); vm_compute; exact I.
Defined.

(** The comparator orders versions made of numbers as lists of numbers, and the
    latest of several is one above or level with every other.  A segment that is
    not a number is compared as text, so the comparator is no order: three
    versions can each be newer than the next, and the latest of them depends on
    how the registry lists them. *)
Theorem version_order :
  (∀ v w x y, numbers v = Some x → numbers w = Some y → compareVersions v w = lex_cmp x y) ∧
  (∀ vs, vs ≠ [] → Forall numeric vs →
     pickLatest vs ∈ vs ∧ ∀ v, v ∈ vs → compareVersions v (pickLatest vs) ≤ 0) ∧
  (∃ u v w, compareVersions u v = 1 ∧ compareVersions v w = 1 ∧ compareVersions w u = 1 ∧
     [u; v; w] ≡ₚ [w; u; v] ∧ pickLatest [u; v; w] ≠ pickLatest [w; u; v]).
Proof.
  split_and!.
  - intros v w x y. apply compare_lex_cmp.
  - intros vs Hne Hvs. split; [by apply pickLatest_in|]. intros v. by apply pickLatest_max.
  - exists "10", "9", "1a". split_and!; [by vm_compute..| |by vm_compute]. apply (Permutation_app_comm ["10"; "9"] ["1a"]).
Qed.

(** A release candidate is newer than its release. *)
Example candidate_is_newer :
  md_Status (compareOne (Ok (mkMetadata ["1.0.0-rc1"; "1.0.0"] ∅ "")) (mkLocal "m" ["1.0.0"])) = Behind.
Proof. by vm_compute. Qed.

(** ** The report *)

Lemma NoDup_omap_inj {A B} (f : A → option B) (l : list A) :
  (∀ x y z, f x = Some z → f y = Some z → x = y) → NoDup l → NoDup (omap f l).
Proof.
  intros Hf. induction 1 as [|x l Hx Hl IH]; [constructor|]. csimpl.
  destruct (f x) as [z|] eqn:E; [|done]. constructor; [|done].
  intros (y & Hy & Hz)%list_elem_of_omap. by rewrite (Hf _ _ _ E Hz) in Hx.
Qed.

(** Two paths of a directory's entries with the same name are the same path. *)
Lemma child_inj p q q' (b : bool) z :
  (λ x, (x, b)) <$> child p q = Some z → (λ x, (x, b)) <$> child p q' = Some z → q = q'.
Proof.
  destruct (child p q) as [y|] eqn:Ep, (child p q') as [y'|] eqn:Eq; intros; simplify_eq/=.
  apply child_iff in Ep as [-> _], Eq as [-> _]. done.
Qed.

Section report_proofs.
Context (unreadable : path → option string) (decode_versions : bytes → option (list string)).

Lemma fill_lookup fetched modules finished i :
  fill fetched modules finished !! i =
  match modules !! i with
  | Some m => Some (if decide (i ∈ finished) then compareOne (fetched (lm_Name m)) m else emptyDrift)
  | None => None
  end.
Proof.
  unfold fill. induction finished as [|j js IH] using rev_ind.
  - simpl. destruct (modules !! i) as [m|] eqn:E.
    + apply lookup_replicate_2. by eapply lookup_lt_Some.
    + apply lookup_replicate_None. by apply lookup_ge_None.
  - rewrite foldl_app. simpl. set (r := foldl _ _ _) in *.
    destruct (decide (j = i)) as [->|Hj].
    + destruct (modules !! i) as [m|] eqn:E; [|done].
      rewrite list_lookup_insert_eq; [by rewrite decide_True by set_solver|]. by eapply lookup_lt_Some.
    + assert ((match modules !! j with Some m => <[j:=compareOne (fetched (lm_Name m)) m]> r | None => r end) !! i = r !! i) as ->
        by (destruct (modules !! j); [by apply list_lookup_insert_ne|done]).
      rewrite IH. destruct (modules !! i); [|done]. do 2 f_equal. apply decide_ext. set_solver.
Qed.

(** Whatever the order in which the workers finish, each slot holds its module's row. *)
Lemma fill_all fetched modules finished :
  finished ≡ₚ seq 0 (length modules) →
  fill fetched modules finished = (λ m, compareOne (fetched (lm_Name m)) m) <$> modules.
Proof.
  intros Hf. apply list_eq. intros i. rewrite fill_lookup, list_lookup_fmap.
  destruct (modules !! i) as [m|] eqn:E; [|done]. simpl. rewrite decide_True; [done|].
  rewrite Hf, elem_of_seq. apply lookup_lt_Some in E. lia.
Qed.

Definition with_status (s : Status) (ms : list ModuleDrift) : Z :=
  Z.of_nat (length (filter (λ m, md_Status m = s) ms)).

Lemma summarize_counts ms :
  summarize ms = mkSummary (Z.of_nat (length ms)) (with_status InSync ms) (with_status Behind ms)
    (with_status YankedUpstream ms) (with_status LocalOnly ms) (with_status UpstreamError ms).
Proof.
  unfold summarize.
  assert (∀ ms t i b y l e, foldl count_status (mkSummary t i b y l e) ms =
    mkSummary t (i + with_status InSync ms) (b + with_status Behind ms) (y + with_status YankedUpstream ms)
      (l + with_status LocalOnly ms) (e + with_status UpstreamError ms)) as H; [|by rewrite H].
  clear. induction ms as [|m ms IH]; intros; simpl.
  - unfold with_status; simpl. f_equal; lia.
  - unfold with_status in *. rewrite !filter_cons.
    destruct (md_Status m); simpl; rewrite IH; f_equal; lia.
Qed.

Lemma with_status_total ms :
  with_status InSync ms + with_status Behind ms + with_status YankedUpstream ms + with_status LocalOnly ms +
  with_status UpstreamError ms = Z.of_nat (length ms).
Proof.
  unfold with_status. induction ms as [|m ms IH]; simpl; [done|]. rewrite !filter_cons.
  destruct (md_Status m); simpl; lia.
Qed.

Lemma compareOne_name f l : md_Name (compareOne f l) = lm_Name l.
Proof. unfold compareOne. by destruct f as [|[|]]. Qed.

#[local] Instance sw_drift_before : StrictWeak drift_before.
Proof.
  assert (StrictWeak (λ r s : Z, s <? r)) by apply (sw_flip Z.ltb).
  apply sw_lex; [apply _|apply _|]. intros a b. rewrite !Z.ltb_ge. lia.
Qed.

Lemma drift_before_tricho a b : drift_before a b = false → drift_before b a = false → md_Name a = md_Name b.
Proof.
  unfold drift_before, lex_less. repeat case_decide; try congruence.
  - by apply str_ltb_tricho.
  - rewrite !Z.ltb_ge. lia.
Qed.

(** The directories under modules/ are listed once each. *)
Lemma readMirrorModules_names d root modules :
  readMirrorModules unreadable decode_versions d root = Ok modules →
  NoDup (lm_Name <$> modules) ∧
  ∀ n, n ∈ lm_Name <$> modules ↔ plain n ∧ root ++ ["modules"; n] ∈ dirs d.
Proof.
  unfold readMirrorModules. intros (es & Hes & [= <-])%bind_ok.
  assert (lm_Name <$> sort_by_key lm_Name ((λ e, read_module unreadable decode_versions d (root ++ ["modules"]) e.1) <$>
    filter (λ e, e.2 = true) es) ≡ₚ (filter (λ e, e.2 = true) es).*1) as E.
  { rewrite (sort_by_key_perm lm_Name), <-list_fmap_compose. apply reflexive_eq. by apply list_fmap_ext. }
  setoid_rewrite E.
  assert (NoDup es) as Hnd.
  { revert Hes. unfold readDir. destruct (unreadable _); [done|]. case_decide; [|done]. intros [= <-].
    rewrite sort_slice_perm. apply NoDup_app. split_and!.
    - apply NoDup_omap_inj; [|apply NoDup_fst_map_to_list]. intros p q z. apply child_inj.
    - intros [x b]. rewrite !list_elem_of_omap. intros (p & _ & Hp) (q & _ & Hq).
      destruct (child _ p), (child _ q); simplify_eq/=.
    - apply NoDup_omap_inj; [|apply NoDup_elements]. intros p q z. apply child_inj. }
  split.
  - apply NoDup_fmap_2_strong; [|by apply NoDup_filter].
    intros [x b] [y c] [Hb _]%list_elem_of_filter [Hc _]%list_elem_of_filter. simpl in *. by intros ->; subst.
  - intros n. rewrite list_elem_of_fmap. split.
    + intros ([x b] & -> & [Hb He]%list_elem_of_filter). simpl in *. subst b.
      apply (readDir_elem unreadable d _ es x true Hes) in He as [Hp Hd]. by rewrite <-app_assoc in Hd.
    + intros [Hp Hd]. exists (n, true). split; [done|]. apply list_elem_of_filter. split; [done|].
      apply (readDir_elem unreadable d _ es n true Hes). split; [done|]. by rewrite <-app_assoc.
Qed.
End report_proofs.

Lemma with_status_perm s ms ms' : ms ≡ₚ ms' → with_status s ms = with_status s ms'.
Proof. unfold with_status. by intros ->. Qed.

(** The report has one row for each directory under modules/, the most divergent
    first and then by name, its counts are those of its rows and add up to their
    number, and it does not depend on the order in which the workers finish. *)
Theorem drift_report unreadable decode_versions d root url fetched modules :
  readMirrorModules unreadable decode_versions d root = Ok modules →
  ∃ r, (∀ finished, finished ≡ₚ seq 0 (length modules) →
          ComputeDrift unreadable decode_versions d root url "" fetched finished = Ok r) ∧
    NoDup (md_Name <$> dr_Modules r) ∧
    (∀ n, n ∈ md_Name <$> dr_Modules r ↔ plain n ∧ root ++ ["modules"; n] ∈ dirs d) ∧
    (∀ m, m ∈ dr_Modules r → ∃ l, l ∈ modules ∧ m = compareOne (fetched (lm_Name l)) l) ∧
    StronglySorted (not_after drift_before) (dr_Modules r) ∧
    (let ms := dr_Modules r in
     let s := dr_Summary r in
     s = mkSummary (Z.of_nat (length ms)) (with_status InSync ms) (with_status Behind ms)
       (with_status YankedUpstream ms) (with_status LocalOnly ms) (with_status UpstreamError ms) ∧
     sm_InSync s + sm_Behind s + sm_YankedUpstream s + sm_LocalOnly s + sm_UpstreamError s = sm_Total s).
Proof.
  intros Hm. destruct (readMirrorModules_names _ _ _ _ _ Hm) as [Hnd Hnames].
  set (rows := (λ m, compareOne (fetched (lm_Name m)) m) <$> modules).
  assert (md_Name <$> rows = lm_Name <$> modules) as Hrn.
  { unfold rows. rewrite <-list_fmap_compose. apply list_fmap_ext. intros ? l _. apply compareOne_name. }
  assert (sort_slice drift_before rows ≡ₚ rows) as Hp by apply sort_slice_perm.
  exists (mkDriftReport url root (sort_slice drift_before rows) (summarize rows)). simpl. split_and!.
  - intros f Hf. unfold ComputeDrift. rewrite Hm. simpl. by rewrite fill_all.
  - by rewrite Hp, Hrn.
  - intros n. by rewrite Hp, Hrn.
  - intros m. rewrite Hp. unfold rows. rewrite list_elem_of_fmap. naive_solver.
  - apply sort_slice_sorted, sw_drift_before.
  - rewrite summarize_counts, length_sort_slice. by rewrite !(with_status_perm _ _ _ Hp).
  - rewrite summarize_counts. simpl. apply with_status_total.
Qed.

Definition demo_tree : disk :=
  mkDisk {[["m"; "modules"; "b"; "metadata.json"] := (to_bytes "1.0", true);
           ["m"; "modules"; "README"] := ([], true)]}
    {[["m"]; ["m"; "modules"]; ["m"; "modules"; "a"]; ["m"; "modules"; "a"; "2.0"]; ["m"; "modules"; "b"]]}.
Definition demo_decode (b : bytes) : option (list string) := Some [of_bytes b].
Definition demo_fetched (n : string) : result FetchError MetadataJSON :=
  if decide (n = "a") then Err ErrNotFound else Ok (mkMetadata ["1.0"; "1.1"] ∅ "").

Lemma drift_report_witness :
  ∃ r, ComputeDrift (λ _, None) demo_decode demo_tree ["m"] "u" "" demo_fetched [1; 0]%nat = Ok r ∧
    md_Name <$> dr_Modules r = ["b"; "a"] ∧ StronglySorted (not_after drift_before) (dr_Modules r).
Proof.
  destruct (drift_report (λ _, None) demo_decode demo_tree ["m"] "u" demo_fetched
    [mkLocal "a" ["2.0"]; mkLocal "b" ["1.0"]]) as (r & Hr & _ & _ & _ & Hs & _).
  - vm_compute. reflexivity.
  - exists r. pose proof (Hr [1; 0]%nat (Permutation_swap 0%nat 1%nat [])) as H. split_and!; [exact H| |exact Hs].
    revert H. vm_compute. by intros [= <-].
Defined.

(** ** The stored verdicts *)

Section pass_proofs.
Context (MetadataAt : nat → string → result MirrorError MetadataJSON).
Context (marshal : DriftSummary → string).
Context (exec_error : string → string → option string).
Context (now : Z) (upstreamSHA : string) (syncedAt : Z).

Abbreviation turn := (pass_row MetadataAt marshal exec_error now upstreamSHA syncedAt).
Abbreviation the_pass := (run_pass MetadataAt marshal exec_error now upstreamSHA syncedAt).
Abbreviation answers := (gmap string (result MirrorError MetadataJSON)).

Definition row_key (r : driftRow) : string * string := (rw_Module r, rw_Version r).

(** The verdict on a row, from the answers of the pass. *)
Definition judged (a : answers) (r : driftRow) : option DriftSummary :=
  let stamp up := driftSummaryFromVerdict (ComputeForVersion (rw_Version r) up) now upstreamSHA syncedAt in
  match a !! rw_Module r with
  | Some (Ok up) => Some (stamp (Some up))
  | Some (Err ErrModuleNotFound) => Some (stamp None)
  | _ => None
  end.

Definition writable (r : driftRow) : Prop :=
  rw_Module r ≠ "" ∧ rw_Version r ≠ "" ∧ exec_error (rw_Module r) (rw_Version r) = None.
#[export] Instance writable_dec r : Decision (writable r).
Proof. unfold writable. apply _. Defined.

(** Whether a pass writes a row, and what the row is afterwards. *)
Definition rewritten (skip : string → bool) (a : answers) (r : driftRow) : bool :=
  negb (skip (rw_DriftRaw r)) && bool_decide (is_Some (judged a r) ∧ writable r).

Definition row_after (skip : string → bool) (a : answers) (r : driftRow) : driftRow :=
  match judged a r with
  | Some sm =>
      if rewritten skip a r then
        mkDriftRow (rw_Module r) (rw_Version r) (if decide (marshal sm = "") then "{}" else marshal sm)
      else r
  | None => r
  end.

(** A row's answer is known, or the pass leaves the row alone. *)
Definition answered (skip : string → bool) (a : answers) (r : driftRow) : Prop :=
  skip (rw_DriftRaw r) = true ∨ is_Some (a !! rw_Module r).

Lemma judged_mono a a' r : a ⊆ a' → is_Some (a !! rw_Module r) → judged a' r = judged a r.
Proof. intros Ha [x Hx]. unfold judged. by rewrite Hx, (lookup_weaken _ _ _ _ Hx Ha). Qed.

Lemma row_after_skip skip a r : skip (rw_DriftRaw r) = true → row_after skip a r = r.
Proof. intros H. unfold row_after, rewritten. rewrite H. by destruct (judged a r). Qed.

Lemma row_after_mono skip a a' r :
  a ⊆ a' → answered skip a r → row_after skip a' r = row_after skip a r ∧ rewritten skip a' r = rewritten skip a r.
Proof.
  intros Ha [H|H]; [by rewrite !row_after_skip; unfold rewritten; rewrite ?H|].
  unfold row_after, rewritten. by rewrite (judged_mono a a' r Ha H).
Qed.

Lemma row_after_key skip a r : row_key (row_after skip a r) = row_key r.
Proof. unfold row_after. by destruct (judged a r), (rewritten skip a r). Qed.

(** Writing one row of a table whose keys are distinct. *)
Lemma set_row_at pre r post p :
  NoDup (row_key <$> pre ++ r :: post) →
  set_row (rw_Module r) (rw_Version r) p <$> (pre ++ r :: post) =
  pre ++ mkDriftRow (rw_Module r) (rw_Version r) p :: post.
Proof.
  intros Hnd. rewrite fmap_app in Hnd. apply NoDup_app in Hnd as (_ & Hd & Hnd).
  apply NoDup_cons in Hnd as [Hr _].
  assert (∀ l : list driftRow, row_key r ∉ row_key <$> l → set_row (rw_Module r) (rw_Version r) p <$> l = l) as H.
  { clear. intros l Hl. induction l as [|x l IH]; [done|]. csimpl in *. apply not_elem_of_cons in Hl as [Hx Hl].
    rewrite IH by done. unfold set_row. rewrite decide_False; [done|]. intros [E1 E2]. apply Hx.
    unfold row_key. by rewrite E1, E2. }
  rewrite fmap_app, (H pre); [|intros Hp; apply (Hd _ Hp); by left].
  csimpl. rewrite (H post) by done. unfold set_row. by rewrite decide_True.
Qed.

(** The answers of a pass are the mirror's, one call for each module asked about. *)
Definition cache_ok (c : upstreamCache) : Prop :=
  uc_calls c = size (uc_hits c) ∧
  ∀ m x, uc_hits c !! m = Some x → ∃ n, (n < uc_calls c)%nat ∧ x = MetadataAt n m.

Lemma uc_lookup_ok c m :
  cache_ok c →
  let (x, c') := uc_lookup MetadataAt c m in
  cache_ok c' ∧ uc_hits c ⊆ uc_hits c' ∧ uc_hits c' !! m = Some x.
Proof.
  intros [Hn Hc]. unfold uc_lookup. destruct (uc_hits c !! m) as [x|] eqn:E; [done|]. simpl. split_and!.
  - split; simpl; [by rewrite map_size_insert_None, Hn|].
    intros m' x. rewrite lookup_insert_Some. intros [[-> <-]|[_ H]]; [exists (uc_calls c); split; [lia|done]|].
    destruct (Hc _ _ H) as (n & ? & ->). exists n. split; [lia|done].
  - by apply insert_subseteq.
  - by apply lookup_insert_eq.
Qed.

Definition pass_inv (skip : string → bool) (pre post : list driftRow) (s : pass_state) : Prop :=
  let a := uc_hits (ps_cache s) in
  cache_ok (ps_cache s) ∧ ps_table s = (row_after skip a <$> pre) ++ post ∧
  ps_written s = Z.of_nat (length (filter (λ r, rewritten skip a r = true) pre)) ∧
  Forall (answered skip a) pre.

Lemma pass_inv_mono skip pre post c c' w :
  pass_inv skip pre post (mkPass c ((row_after skip (uc_hits c) <$> pre) ++ post) w) →
  uc_hits c ⊆ uc_hits c' → cache_ok c' →
  pass_inv skip pre post (mkPass c' ((row_after skip (uc_hits c) <$> pre) ++ post) w).
Proof.
  intros (_ & _ & Hw & Hs) Ha Hc'. rewrite Forall_forall in Hs. split_and!; simpl in *; [done|..].
  - f_equal. apply list_fmap_ext. intros i r Hr%list_elem_of_lookup_2. symmetry. apply row_after_mono; auto.
  - rewrite Hw. do 2 f_equal. apply list_filter_iff'. intros r Hr.
    by destruct (row_after_mono skip _ _ r Ha (Hs r Hr)) as [_ ->].
  - apply Forall_forall. intros r Hr. destruct (Hs r Hr) as [?|[x Hx]]; [by left|right].
    exists x. by eapply lookup_weaken.
Qed.

(** What one write does. *)
Lemma SetDriftSummary_row pre r post p :
  NoDup (row_key <$> pre ++ r :: post) →
  match SetDriftSummary exec_error (rw_Module r) (rw_Version r) p (pre ++ r :: post) with
  | Ok t => writable r ∧ t = pre ++ mkDriftRow (rw_Module r) (rw_Version r) (if decide (p = "") then "{}" else p) :: post
  | Err _ => ¬ writable r
  end.
Proof.
  intros Hnd. unfold SetDriftSummary, writable. case_decide as He; [naive_solver|].
  destruct (exec_error _ _); [naive_solver|]. split; [naive_solver|]. by apply set_row_at.
Qed.

Lemma pass_inv_snoc skip pre r post c w r' b :
  cache_ok c → skip (rw_DriftRaw r) = true ∨ is_Some (uc_hits c !! rw_Module r) →
  pass_inv skip pre (r :: post) (mkPass c ((row_after skip (uc_hits c) <$> pre) ++ r :: post) w) →
  row_after skip (uc_hits c) r = r' → rewritten skip (uc_hits c) r = b →
  pass_inv skip (pre ++ [r]) post
    (mkPass c ((row_after skip (uc_hits c) <$> pre) ++ r' :: post) (if b then w + 1 else w)).
Proof.
  intros Hc Hr (_ & _ & Hw & Hs) Ha Hb. simpl in *. split_and!; simpl; [done|..].
  - by rewrite fmap_app, <-app_assoc, <-Ha.
  - rewrite filter_app, filter_cons, Hb, length_app. destruct b; simpl; lia.
  - apply Forall_app. split; [done|]. by constructor.
Qed.

Lemma pass_step skip pre r post s :
  NoDup (row_key <$> pre ++ r :: post) →
  pass_inv skip pre (r :: post) s → pass_inv skip (pre ++ [r]) post (turn skip s r).
Proof.
  destruct s as [c t w]. intros Hnd Hinv. pose proof Hinv as (Hc & Ht & _). simpl in Hc, Ht. subst t.
  unfold pass_row. cbn [ps_cache ps_table ps_written]. destruct (skip (rw_DriftRaw r)) eqn:Hskip.
  { apply (pass_inv_snoc skip pre r post c w r false); auto; [by apply row_after_skip|].
    unfold rewritten. by rewrite Hskip. }
  pose proof (uc_lookup_ok c (rw_Module r) Hc) as Hl.
  destruct (uc_lookup MetadataAt c (rw_Module r)) as [x c']. destruct Hl as (Hc' & Hsub & Hx).
  pose proof (pass_inv_mono skip pre (r :: post) c c' w Hinv Hsub Hc') as Hinv'.
  assert ((row_after skip (uc_hits c') <$> pre) = (row_after skip (uc_hits c) <$> pre)) as E.
  { apply list_fmap_ext. intros i y Hy%list_elem_of_lookup_2. apply row_after_mono; [done|].
    destruct Hinv as (_ & _ & _ & Hs). rewrite Forall_forall in Hs. by apply Hs. }
  rewrite <-E in Hinv' |- *.
  assert (∀ up, judged (uc_hits c') r = Some (driftSummaryFromVerdict (ComputeForVersion (rw_Version r) up) now upstreamSHA syncedAt) →
    pass_inv skip (pre ++ [r]) post
      (match SetDriftSummary exec_error (rw_Module r) (rw_Version r)
         (marshal (driftSummaryFromVerdict (ComputeForVersion (rw_Version r) up) now upstreamSHA syncedAt))
         ((row_after skip (uc_hits c') <$> pre) ++ r :: post) with
       | Ok t => mkPass c' t (w + 1)
       | Err _ => mkPass c' ((row_after skip (uc_hits c') <$> pre) ++ r :: post) w
       end)) as Hjudge.
  { intros up Hj. pose proof (SetDriftSummary_row (row_after skip (uc_hits c') <$> pre) r post
      (marshal (driftSummaryFromVerdict (ComputeForVersion (rw_Version r) up) now upstreamSHA syncedAt))) as Hset.
    destruct (SetDriftSummary _ _ _ _ _) as [t|e].
    - destruct Hset as [Hwr ->].
      { rewrite fmap_app, <-list_fmap_compose, (list_fmap_ext _ row_key) by (intros; apply row_after_key).
        by rewrite <-fmap_app. }
      assert (rewritten skip (uc_hits c') r = true) as Hrw.
      { unfold rewritten. rewrite Hskip, Hj, bool_decide_true by done. done. }
      apply (pass_inv_snoc skip pre r post c' w _ true); [done|by right; eauto|done| |done].
      unfold row_after. by rewrite Hj, Hrw.
    - assert (rewritten skip (uc_hits c') r = false) as Hrw.
      { unfold rewritten. rewrite bool_decide_false; [by rewrite andb_false_r|]. intros [_ H]. revert H. apply Hset.
        rewrite fmap_app, <-list_fmap_compose, (list_fmap_ext _ row_key) by (intros; apply row_after_key).
        by rewrite <-fmap_app. }
      apply (pass_inv_snoc skip pre r post c' w _ false); [done|by right; eauto|done| |done].
      unfold row_after. by rewrite Hj, Hrw. }
  destruct x as [up|[|e]].
  - apply (Hjudge (Some up)). unfold judged. by rewrite Hx.
  - apply (Hjudge None). unfold judged. by rewrite Hx.
  - assert (judged (uc_hits c') r = None) as Hj by (unfold judged; by rewrite Hx).
    apply (pass_inv_snoc skip pre r post c' w _ false); [done|by right; eauto|done| |].
    + unfold row_after. by rewrite Hj.
    + unfold rewritten. rewrite Hj, bool_decide_false; [by rewrite andb_false_r|]. by intros [[??] _].
Qed.

(** A pass that has come through [pre]. *)
Lemma run_prefix_inv skip pre post :
  NoDup (row_key <$> pre ++ post) → pass_inv skip pre post (foldl (turn skip) (mkPass (mkUpstreamCache ∅ 0) (pre ++ post) 0) pre).
Proof.
  intros Hnd. remember (pre ++ post) as table eqn:E. revert post E. induction pre as [|r pre IH] using rev_ind; intros post E.
  - split_and!; simpl; [|done..]. split; [done|]. simpl. intros m x Hx. by apply lookup_empty_Some in Hx.
  - rewrite foldl_app. simpl. rewrite <-app_assoc in E. simpl in E. apply pass_step; [by rewrite <-E|]. by apply IH.
Qed.

Lemma run_pass_inv skip table :
  NoDup (row_key <$> table) → pass_inv skip table [] (the_pass skip table).
Proof.
  intros Hnd. pose proof (run_prefix_inv skip table []) as H. rewrite app_nil_r in H. by apply H.
Qed.
End pass_proofs.

(** The codec as the store relies on it: a summary is never encoded as the empty
    object, and its status is read back. *)
Definition codec_ok (marshal : DriftSummary → string) (unmarshal_status : string → option string) : Prop :=
  ∀ d, marshal d ≠ "" ∧ marshal d ≠ "{}" ∧ unmarshal_status (marshal d) = Some (ds_Status d).

Definition keep_known (unmarshal_status : string → option string) (raw : string) : bool :=
  negb (isDriftUnknown unmarshal_status raw).

Lemma written_known marshal unmarshal_status exec_error now sha synced skip a r :
  codec_ok marshal unmarshal_status →
  rewritten exec_error now sha synced skip a r = true →
  ∃ sm, judged now sha synced a r = Some sm ∧
    row_after marshal exec_error now sha synced skip a r = mkDriftRow (rw_Module r) (rw_Version r) (marshal sm) ∧
    unmarshal_status (marshal sm) = Some (ds_Status sm) ∧ isDriftUnknown unmarshal_status (marshal sm) = false.
Proof.
  intros Hcodec Hrw. unfold row_after. rewrite Hrw. unfold rewritten in Hrw.
  apply andb_prop in Hrw as [_ [[sm Hj] _]%bool_decide_eq_true]. rewrite Hj. exists sm.
  destruct (Hcodec sm) as (H1 & H2 & H3). rewrite decide_False by done. split_and!; [done..|].
  unfold isDriftUnknown. rewrite decide_False by naive_solver. rewrite H3. apply bool_decide_eq_false.
  revert Hj. unfold judged. destruct (a !! _) as [[up|[|]]|]; [|intros [= <-]; by intros [|]|done|done].
  intros [= <-]. simpl. unfold ComputeForVersion. destruct (_ !! _); [by intros [|]|].
  destruct (0 <? _); by intros [|].
Qed.

(** A backfill judges exactly the rows whose stored verdict is unknown, asking the
    mirror once for each of their modules; a row whose module the mirror answered for
    gets the verdict on its version, a row it failed for keeps what it had, and the
    count is the number of rows written.  A written row is known from then on: no
    later backfill, whatever the mirror says by then, changes it; a refresh judges
    every row again. *)
Theorem backfill_exact MetadataAt marshal unmarshal_status exec_error now sha synced table :
  codec_ok marshal unmarshal_status → NoDup (row_key <$> table) →
  let s := BackfillDriftSummary MetadataAt marshal unmarshal_status exec_error now sha synced table in
  let a := uc_hits (ps_cache s) in
  let after := row_after marshal exec_error now sha synced (keep_known unmarshal_status) a in
  let written := rewritten exec_error now sha synced (keep_known unmarshal_status) a in
  ps_table s = after <$> table ∧
  ps_written s = Z.of_nat (length (filter (λ r, written r = true) table)) ∧
  uc_calls (ps_cache s) = size a ∧
  (∀ m x, a !! m = Some x → ∃ n, x = MetadataAt n m) ∧
  (∀ r, r ∈ table → isDriftUnknown unmarshal_status (rw_DriftRaw r) = true → is_Some (a !! rw_Module r)) ∧
  (∀ r, r ∈ table → isDriftUnknown unmarshal_status (rw_DriftRaw r) = false → after r = r) ∧
  (∀ r, written r = true → ∃ sm, judged now sha synced a r = Some sm ∧
     unmarshal_status (rw_DriftRaw (after r)) = Some (ds_Status sm) ∧
     isDriftUnknown unmarshal_status (rw_DriftRaw (after r)) = false) ∧
  (∀ MetadataAt' exec_error' now' sha' synced' r, r ∈ ps_table s →
     isDriftUnknown unmarshal_status (rw_DriftRaw r) = false →
     r ∈ ps_table (BackfillDriftSummary MetadataAt' marshal unmarshal_status exec_error' now' sha' synced' (ps_table s))) ∧
  (let s' := RefreshDriftSummary MetadataAt marshal exec_error now sha synced table in
   ps_table s' = row_after marshal exec_error now sha synced (λ _, false) (uc_hits (ps_cache s')) <$> table).
Proof.
  intros Hcodec Hnd. cbn zeta. unfold BackfillDriftSummary. fold (keep_known unmarshal_status).
  pose proof (run_pass_inv MetadataAt marshal exec_error now sha synced (keep_known unmarshal_status) table Hnd)
    as ([Hcalls Hans] & Ht & Hw & Hs).
  set (s := run_pass _ _ _ _ _ _ _ _) in *. rewrite app_nil_r in Ht. rewrite Forall_forall in Hs.
  split_and!; [exact Ht|exact Hw|exact Hcalls| | | | | |].
  - intros m x Hx. destruct (Hans m x Hx) as (n & _ & ?). eauto.
  - intros r Hr Hu. destruct (Hs r Hr) as [H|H]; [|done]. unfold keep_known in H. by rewrite Hu in H.
  - intros r _ Hu. apply row_after_skip. unfold keep_known. by rewrite Hu.
  - intros r Hr. destruct (written_known _ _ _ _ _ _ _ _ _ Hcodec Hr) as (sm & Hj & -> & Hst & Hk). eauto.
  - intros MA ee n sh sy r Hr Hu.
    assert (NoDup (row_key <$> ps_table s)) as Hnd'.
    { rewrite Ht, <-list_fmap_compose, (list_fmap_ext _ row_key) by (intros; apply row_after_key). done. }
    pose proof (run_pass_inv MA marshal ee n sh sy (keep_known unmarshal_status) (ps_table s) Hnd') as (_ & Ht' & _).
    rewrite app_nil_r in Ht'. rewrite Ht'. apply list_elem_of_fmap. exists r. split; [|done].
    symmetry. apply row_after_skip. unfold keep_known. by rewrite Hu.
  - pose proof (run_pass_inv MetadataAt marshal exec_error now sha synced (λ _, false) table Hnd) as (_ & Ht' & _).
    by rewrite app_nil_r in Ht'.
Qed.

Definition demo_at (n : nat) (m : string) : result MirrorError MetadataJSON :=
  if decide (m = "gone") then Err ErrModuleNotFound
  else if decide (m = "broken") then Err (ErrMirror "bad object")
  else Ok (mkMetadata (if decide (n = 0%nat) then ["1.0"; "1.1"] else []) ∅ "").
Definition demo_marshal (d : DriftSummary) : string := "s" +:+ ds_Status d.
Definition demo_unmarshal (s : string) : option string :=
  match s with String "s"%char k => Some k | _ => None end.
Definition demo_table : list driftRow :=
  [mkDriftRow "a" "1.0" "{}"; mkDriftRow "a" "1.1" "garbage"; mkDriftRow "broken" "1" "{}"; mkDriftRow "gone" "1" "sunknown";
   mkDriftRow "kept" "1" "sbehind"].

Lemma backfill_exact_witness :
  let s := BackfillDriftSummary demo_at demo_marshal demo_unmarshal (λ _ _, None) 0 "" 0 demo_table in
  rw_DriftRaw <$> ps_table s = ["sbehind"; "sin-sync"; "{}"; "slocal-only"; "sbehind"] ∧
  ps_written s = 3 ∧ uc_calls (ps_cache s) = 3%nat ∧ uc_calls (ps_cache s) = size (uc_hits (ps_cache s)).
Proof.
  cbn zeta. split_and!; [by vm_compute..|].
  apply (backfill_exact demo_at demo_marshal demo_unmarshal (λ _ _, None) 0 "" 0 demo_table).
  - intros d. split_and!; [done..|reflexivity].
  - apply (bool_decide_unpack _). vm_compute. exact I.
Defined.
