(* ===== verification/ScipClosure.v ===== *)
(** * The dependency closure of the source index

    [internal/scip/closure_walk.go] and [depsource.go]: the breadth-first walk
    that gives every repository name of a module a coordinate, and the chain of
    sources it asks.  The stored reports, the files of the mirror, the parser of
    MODULE.bazel and the cancellation of the context are parameters. *)

From S2P Require Import Prelude Report Strings.

Abbreviation coord := (string * string)%type.
Abbreviation Closure := (gmap string coord).

(** [repoKeyOf] *)
Definition repoKeyOf (d : ModuleKey) : string :=
  if decide (mk_RepoName d ≠ "") then mk_RepoName d else mk_Name d.

(** [versionIsNewer] *)
Definition versionIsNewer (candidate known : string) : bool := String.ltb known candidate.

(** [DirectClosure] *)
Definition DirectClosure (r : option ModuleReport) : Closure :=
  match r with
  | None => ∅
  | Some r => foldl (λ out d,
      if decide (mk_Name d = "" ∨ mk_Version d = "") then out
      else <[repoKeyOf d := (mk_Name d, mk_Version d)]> out) ∅ (rep_BazelDeps r)
  end.

(** ** Where the answers come from *)

Definition DepsFunc : Type := string → string → result string (list ModuleKey).

(** [bzlmod.Dependency], the fields the code reads. *)
Record Dependency := mkDependency {
  dep_Name : string;
  dep_Version : string;
  dep_RepoName : string;
  dep_DevDependency : bool;
}.

Section sources.
Context (GetReport : string → string → result string (option ModuleReport)).
Context (GetModuleBazel : string → string → result string bytes).
Context (ParseModuleContent : bytes → result string (list Dependency)).

(** [DepsFromStore] *)
Definition DepsFromStore : DepsFunc := λ name version,
  r ← GetReport name version;
  match r with
  | None => Err ("scip: store returned no report for " +:+ name +:+ "@" +:+ version)
  | Some r => Ok (rep_BazelDeps r)
  end.

(** [moduledeps.FromModuleBazel] *)
Definition FromModuleBazel (content : bytes) : result string (list ModuleKey) :=
  let convert d := mkModuleKey (dep_Name d) (dep_Version d) (dep_DevDependency d) (dep_RepoName d) in
  match ParseModuleContent content with
  | Err e => Err ("moduledeps: parse MODULE.bazel: " +:+ e)
  | Ok deps => Ok (convert <$> deps)
  end.

(** [DepsFromModuleBazel] *)
Definition DepsFromModuleBazel : DepsFunc := λ name version,
  content ← GetModuleBazel name version;
  FromModuleBazel content.
End sources.

Fixpoint first_answer (lastErr : string) (sources : list DepsFunc) (name version : string) :
    result string (list ModuleKey) :=
  match sources with
  | [] => Err ("scip: no source could resolve " +:+ name +:+ "@" +:+ version +:+ ": " +:+ lastErr)
  | src :: rest =>
      match src name version with
      | Ok deps => Ok deps
      | Err e => first_answer e rest name version
      end
  end.

(** [FirstOf] *)
Definition FirstOf (sources : list DepsFunc) : DepsFunc := λ name version,
  match sources with
  | [] => Err "scip: FirstOf has no sources and can answer nothing"
  | _ => first_answer "" sources name version
  end.

(** ** The walk *)

Record walk_state := mkWalk {
  wk_queue : list ModuleKey;
  wk_resolved : Closure;
  wk_bestVersion : gmap string string;
}.

(** [record]: whether the dependency is to be expanded, and the two maps. *)
Definition record_dep (resolved : Closure) (bestVersion : gmap string string) (d : ModuleKey) :
    bool * Closure * gmap string string :=
  if decide (mk_Name d = "" ∨ mk_Version d = "") then (false, resolved, bestVersion)
  else
    let promote :=
      (true, <[repoKeyOf d := (mk_Name d, mk_Version d)]> resolved, <[mk_Name d := mk_Version d]> bestVersion) in
    match bestVersion !! mk_Name d with
    | Some known => if negb (versionIsNewer (mk_Version d) known) then (false, resolved, bestVersion) else promote
    | None => promote
    end.

(** One dependency's turn in the loops that call [record]. *)
Definition visit (skip_dev : bool) (s : walk_state) (d : ModuleKey) : walk_state :=
  if skip_dev && mk_DevDependency d then s
  else
    let '(promoted, resolved, best) := record_dep (wk_resolved s) (wk_bestVersion s) d in
    mkWalk (if promoted then wk_queue s ++ [d] else wk_queue s) resolved best.

Section walk.
Context (deps : DepsFunc).
(** [ctx.Err()] at the [n]-th turn of the loop. *)
Context (cancelled : nat → option string).

Definition expand (s : walk_state) (current : ModuleKey) (rest : list ModuleKey) : walk_state :=
  let s' := mkWalk rest (wk_resolved s) (wk_bestVersion s) in
  match deps (mk_Name current) (mk_Version current) with
  | Err _ => s'
  | Ok found => foldl (visit true) s' found
  end.

(** The loop; [None] is a walk cut short by the fuel. *)
Fixpoint walk_loop (fuel n : nat) (s : walk_state) : option (result string walk_state) :=
  match wk_queue s with
  | [] => Some (Ok s)
  | current :: rest =>
      match fuel with
      | O => None
      | S fuel' =>
          match cancelled n with
          | Some e => Some (Err e)
          | None => walk_loop fuel' (S n) (expand s current rest)
          end
      end
  end.

Definition seeded (r : ModuleReport) : walk_state := foldl (visit false) (mkWalk [] ∅ ∅) (rep_BazelDeps r).

(** [TransitiveClosure] *)
Definition TransitiveClosure (fuel : nat) (root : option ModuleReport) : option (result string Closure) :=
  match root with
  | None => Some (Ok ∅)
  | Some r => match walk_loop fuel 0 (seeded r) with
              | Some (Ok s) => Some (Ok (wk_resolved s))
              | Some (Err e) => Some (Err e)
              | None => None
              end
  end.
End walk.

(** [scipClosure] of [generateAndStoreScip]: the direct dependencies when the walk
    was cancelled. *)
Definition closure_or_direct (walked : result string Closure) (r : ModuleReport) : Closure :=
  match walked with
  | Ok c => c
  | Err _ => DirectClosure (Some r)
  end.

(** ** What the walk keeps *)

Definition valid (d : ModuleKey) : Prop := mk_Name d ≠ "" ∧ mk_Version d ≠ "".
Definition coord_of (d : ModuleKey) : coord := (mk_Name d, mk_Version d).

(** A version at or above [v] has been found for the module [n]. *)
Definition covers (best : gmap string string) (n v : string) : Prop :=
  ∃ b, best !! n = Some b ∧ String.ltb b v = false.

Lemma ltb_ge_trans a b c : String.ltb b a = false → String.ltb c b = false → String.ltb c a = false.
Proof.
  intros H1 H2. destruct (String.ltb c a) eqn:E; [|done]. destruct (sw_neg_trans _ b _ E); congruence.
Qed.

(** The two outcomes of [record]. *)
Lemma record_dep_spec res best d :
  match record_dep res best d with
  | (true, res', best') => valid d ∧ ¬ covers best (mk_Name d) (mk_Version d) ∧
      res' = <[repoKeyOf d := coord_of d]> res ∧ best' = <[mk_Name d := mk_Version d]> best
  | (false, res', best') => res' = res ∧ best' = best ∧ (valid d → covers best (mk_Name d) (mk_Version d))
  end.
Proof.
  unfold record_dep, valid, covers, versionIsNewer. case_decide as Hv; [naive_solver|].
  destruct (best !! mk_Name d) as [known|] eqn:E.
  - destruct (String.ltb known (mk_Version d)) eqn:Hn; simpl; [|naive_solver].
    split_and!; [naive_solver..| |done|done]. intros (b & [= <-] & H). congruence.
  - split_and!; [naive_solver..|done|done].
Qed.

Lemma covers_mono best d n v :
  ¬ covers best (mk_Name d) (mk_Version d) → covers best n v → covers (<[mk_Name d := mk_Version d]> best) n v.
Proof.
  intros Hd (b & Hb & Hle). unfold covers. destruct (decide (mk_Name d = n)) as [<-|Hn].
  - exists (mk_Version d). rewrite lookup_insert_eq. split; [done|].
    apply (ltb_ge_trans _ b); [done|]. destruct (String.ltb (mk_Version d) b) eqn:E; [|done].
    destruct Hd. exists b. split; [done|]. by apply sw_asym.
  - exists b. by rewrite lookup_insert_ne.
Qed.

Section walk_proofs.
Context (deps : DepsFunc) (cancelled : nat → option string) (root : ModuleReport).

(** The dependencies a complete source of answers would lead to: the root's own,
    development ones included, and from each the others. *)
Inductive reachable : ModuleKey → Prop :=
| reach_root d : d ∈ rep_BazelDeps root → valid d → reachable d
| reach_dep p d ds : reachable p → deps (mk_Name p) (mk_Version p) = Ok ds → d ∈ ds →
    mk_DevDependency d = false → valid d → reachable d.

(** Two reachable declarations use one repository name exactly when they name one module. *)
Definition faithful : Prop :=
  ∀ d d', reachable d → reachable d' → (mk_Name d = mk_Name d' ↔ repoKeyOf d = repoKeyOf d').

(** [promoted]: the dependencies that were recorded, oldest first; [done_]: those
    among them that were expanded. *)
Record walk_inv (promoted done_ : list ModuleKey) (s : walk_state) : Prop := {
  wi_queue : promoted = done_ ++ wk_queue s;
  wi_once : NoDup (coord_of <$> promoted);
  wi_reach : ∀ d, d ∈ promoted → reachable d;
  wi_covers : ∀ d, d ∈ promoted → covers (wk_bestVersion s) (mk_Name d) (mk_Version d);
  wi_best : ∀ n v, wk_bestVersion s !! n = Some v → ∃ d, d ∈ promoted ∧ coord_of d = (n, v);
  wi_resolved : ∀ k c, wk_resolved s !! k = Some c → ∃ d, d ∈ promoted ∧ coord_of d = c ∧ repoKeyOf d = k;
  wi_alias : faithful → ∀ d, reachable d →
    wk_resolved s !! repoKeyOf d = pair (mk_Name d) <$> wk_bestVersion s !! mk_Name d;
}.

(** What one recorded dependency changes: nothing found before is lost. *)
Definition extends (s s' : walk_state) : Prop :=
  ∀ n v, covers (wk_bestVersion s) n v → covers (wk_bestVersion s') n v.

Lemma visit_inv skip promoted done_ s d :
  (skip && mk_DevDependency d = false → valid d → reachable d) →
  walk_inv promoted done_ s →
  let s' := visit skip s d in
  (∃ promoted', walk_inv promoted' done_ s') ∧ extends s s' ∧
  (skip && mk_DevDependency d = false → valid d → covers (wk_bestVersion s') (mk_Name d) (mk_Version d)).
Proof.
  intros Hr Hi. cbn zeta. unfold visit. destruct (skip && mk_DevDependency d) eqn:Hdev.
  { split_and!; [eauto|by intros ??|done]. }
  pose proof (record_dep_spec (wk_resolved s) (wk_bestVersion s) d) as H.
  destruct (record_dep _ _ d) as [[[] res] best].
  - destruct H as (Hv & Hn & -> & ->). destruct Hi as [Hq Hnd Hre Hc Hb Hres Hal].
    assert (coord_of d ∉ coord_of <$> promoted) as Hfresh.
    { intros (e & He & Hep)%list_elem_of_fmap. apply Hn. specialize (Hc e Hep). by injection He as -> ->. }
    split_and!; simpl.
    + exists (promoted ++ [d]). split; simpl.
      * by rewrite Hq, <-app_assoc.
      * rewrite fmap_app. apply NoDup_app. split_and!; [done| |apply NoDup_singleton].
        intros x Hx. simpl. rewrite list_elem_of_singleton. by intros ->.
      * intros e [?| ->%list_elem_of_singleton]%elem_of_app; auto.
      * intros e [He| ->%list_elem_of_singleton]%elem_of_app; [by apply covers_mono; auto|].
        exists (mk_Version d). rewrite lookup_insert_eq. split; [done|]. apply str_ltb_irrefl.
      * intros n v. rewrite lookup_insert_Some. intros [[<- <-]|[_ H]]; [exists d; set_solver|].
        destruct (Hb n v H) as (e & ? & ?). exists e. set_solver.
      * intros k c. rewrite lookup_insert_Some. intros [[<- <-]|[_ H]]; [exists d; set_solver|].
        destruct (Hres k c H) as (e & ? & ?). exists e. set_solver.
      * intros Hf e He. destruct (decide (mk_Name d = mk_Name e)) as [E|E].
        -- rewrite <-(proj1 (Hf d e (Hr eq_refl Hv) He) E), <-E, !lookup_insert_eq. done.
        -- rewrite !lookup_insert_ne; [by apply Hal|done|]. intros Hk. by apply E, (Hf d e (Hr eq_refl Hv) He).
    + intros n v. by apply covers_mono.
    + intros _ _. exists (mk_Version d). rewrite lookup_insert_eq. split; [done|]. apply str_ltb_irrefl.
  - destruct H as (-> & -> & Hcov). destruct s. split_and!; [eauto|by intros ??|auto].
Qed.

Lemma visits_inv skip promoted done_ s ds :
  (∀ d, d ∈ ds → skip && mk_DevDependency d = false → valid d → reachable d) →
  walk_inv promoted done_ s →
  let s' := foldl (visit skip) s ds in
  (∃ promoted', walk_inv promoted' done_ s') ∧ extends s s' ∧
  (∀ d, d ∈ ds → skip && mk_DevDependency d = false → valid d →
     covers (wk_bestVersion s') (mk_Name d) (mk_Version d)).
Proof.
  cbn zeta. revert promoted s. induction ds as [|d ds IH]; intros promoted s Hr Hi; simpl.
  { split_and!; [eauto|by intros ??|]. intros d Hd. by apply elem_of_nil in Hd. }
  destruct (visit_inv skip promoted done_ s d) as ((p1 & H1) & He1 & Hc1); [by apply Hr; left|done|].
  destruct (IH p1 (visit skip s d)) as ((p2 & H2) & He2 & Hc2); [intros ??; apply Hr; by right|done|].
  split_and!; [eauto|by intros ???; apply He2, He1|].
  intros e [->|He]%elem_of_cons; [|by apply Hc2]. intros Hd Hv. by apply He2, Hc1.
Qed.

Definition walk_ok (promoted done_ : list ModuleKey) (s : walk_state) : Prop :=
  walk_inv promoted done_ s ∧
  (∀ d, d ∈ rep_BazelDeps root → valid d → covers (wk_bestVersion s) (mk_Name d) (mk_Version d)) ∧
  (∀ p ds d, p ∈ done_ → deps (mk_Name p) (mk_Version p) = Ok ds → d ∈ ds → mk_DevDependency d = false → valid d →
     covers (wk_bestVersion s) (mk_Name d) (mk_Version d)).

Lemma seeded_ok : ∃ promoted, walk_ok promoted [] (seeded root).
Proof.
  assert (walk_inv [] [] (mkWalk [] ∅ ∅)) as H0.
  { split; simpl; [done|constructor| | | | |].
    - intros d Hd. by apply elem_of_nil in Hd.
    - intros d Hd. by apply elem_of_nil in Hd.
    - intros n v Hn. by apply lookup_empty_Some in Hn.
    - intros k c Hk. by apply lookup_empty_Some in Hk.
    - intros _ d _. by rewrite !lookup_empty. }
  destruct (visits_inv false [] [] _ (rep_BazelDeps root)
    ltac:(intros d Hd _ Hv; by apply reach_root) H0) as ((promoted & Hi) & _ & Hc).
  exists promoted. split_and!; [done|intros d Hd Hv; by apply Hc|]. intros p ds d Hp. by apply elem_of_nil in Hp.
Qed.

Lemma expand_ok promoted done_ s current rest :
  wk_queue s = current :: rest → walk_ok promoted done_ s →
  ∃ promoted', walk_ok promoted' (done_ ++ [current]) (expand deps s current rest).
Proof.
  intros Hq (Hi & Hroot & Hdone).
  assert (walk_inv promoted (done_ ++ [current]) (mkWalk rest (wk_resolved s) (wk_bestVersion s))) as Hi'.
  { destruct Hi as [Hp ??????]. split; simpl; try done. by rewrite Hp, Hq, <-app_assoc. }
  assert (reachable current) as Hcur.
  { apply (wi_reach _ _ _ Hi). rewrite (wi_queue _ _ _ Hi), Hq. set_solver. }
  unfold expand. destruct (deps (mk_Name current) (mk_Version current)) as [found|e] eqn:Hd.
  - destruct (visits_inv true promoted (done_ ++ [current]) _ found
      ltac:(intros d Hin Hdev Hv; by eapply reach_dep) Hi') as ((promoted' & H) & He & Hc).
    exists promoted'. split_and!; [done|intros d ??; apply He; by apply Hroot|].
    intros p ds d [Hp| ->%list_elem_of_singleton]%elem_of_app Hds Hin Hdev Hv.
    + apply He. by eapply Hdone.
    + rewrite Hds in Hd. injection Hd as ->. by apply Hc.
  - exists promoted. split_and!; [done|done|].
    intros p ds d [Hp| ->%list_elem_of_singleton]%elem_of_app Hds; [by eapply Hdone|congruence].
Qed.

(** Every coordinate is expanded once, so a walk ends within as many turns as there
    are reachable coordinates. *)
Lemma walk_ends (U : list coord) fuel n s promoted done_ :
  (∀ d, reachable d → coord_of d ∈ U) → length U ≤ fuel + length done_ → walk_ok promoted done_ s →
  match walk_loop deps cancelled fuel n s with
  | None => False
  | Some (Err e) => ∃ k, cancelled k = Some e
  | Some (Ok s') => ∃ promoted', walk_ok promoted' promoted' s'
  end.
Proof.
  intros HU. revert n s promoted done_. induction fuel as [|fuel IH]; intros n s promoted done_ Hlen Hok.
  - simpl. destruct (wk_queue s) as [|c rest] eqn:Hq.
    { exists promoted. destruct Hok as (Hi & ?). pose proof (wi_queue _ _ _ Hi) as Hp.
      rewrite Hq, app_nil_r in Hp. by subst. }
    destruct Hok as ([Hp Hnd Hre _ _ _ _] & _).
    assert (length (coord_of <$> promoted) ≤ length U) as Hle.
    { apply submseteq_length, NoDup_submseteq; [done|].
      intros x (d & -> & Hd)%list_elem_of_fmap. by apply HU, Hre. }
    rewrite length_fmap, Hp, length_app, Hq in Hle. simpl in Hle. lia.
  - simpl. destruct (wk_queue s) as [|c rest] eqn:Hq.
    { exists promoted. destruct Hok as (Hi & ?). pose proof (wi_queue _ _ _ Hi) as Hp.
      rewrite Hq, app_nil_r in Hp. by subst. }
    destruct (cancelled n) eqn:Hc; [eauto|].
    destruct (expand_ok promoted done_ s c rest Hq Hok) as (promoted' & Hok').
    apply (IH (S n) _ promoted' (done_ ++ [c])); [|done]. rewrite length_app. simpl. lia.
Qed.

Lemma walk_fuel fuel k n s r :
  walk_loop deps cancelled fuel n s = Some r → walk_loop deps cancelled (fuel + k) n s = Some r.
Proof.
  revert n s. induction fuel as [|fuel IH]; intros n s; simpl.
  - destruct (wk_queue s) eqn:E; [|done]. intros [= <-]. destruct k; simpl; by rewrite E.
  - destruct (wk_queue s); [done|]. destruct (cancelled n); [done|]. apply IH.
Qed.

Lemma walk_answers (U : list coord) fuel :
  (∀ d, reachable d → coord_of d ∈ U) → length U ≤ fuel → TransitiveClosure deps cancelled fuel (Some root) ≠ None.
Proof.
  intros HU Hf. destruct seeded_ok as (promoted & Hok). pose proof (walk_ends U fuel 0 _ promoted [] HU ltac:(simpl; lia) Hok) as H.
  unfold TransitiveClosure. by destruct (walk_loop _ _ _ _ _) as [[]|].
Qed.

(** What can be reached when only the coordinates [L] have an answer. *)
Lemma reachable_among (L : list coord) :
  (∀ n v ds, deps n v = Ok ds → (n, v) ∈ L) → ∀ d, reachable d →
  coord_of d ∈ (coord_of <$> rep_BazelDeps root) ++
    (L ≫= λ c, match deps c.1 c.2 with Ok ds => coord_of <$> ds | Err _ => [] end).
Proof.
  intros HL d [d' Hd _|p d' ds _ Hds Hd _ _]; apply elem_of_app.
  - left. apply list_elem_of_fmap. eauto.
  - right. apply list_elem_of_bind. exists (mk_Name p, mk_Version p). split; [|by eapply HL]. simpl. rewrite Hds.
    apply list_elem_of_fmap. eauto.
Qed.
End walk_proofs.

(** C31: Over finitely many reachable coordinates the walk ends, whatever cycles the
    declarations have, within as many turns as there are coordinates; it fails only
    when the context was cancelled.  The versions it settles on are reachable, none
    is below what the root declares or below what another settled version declares,
    and each repository name gets the coordinate of a declaration that uses it.
    When names and modules correspond, the closure is exactly the settled versions. *)
Theorem closure_fixpoint deps cancelled root (U : list coord) :
  (∀ d, reachable deps root d → coord_of d ∈ U) →
  ∃ out, (∀ fuel, length U ≤ fuel → TransitiveClosure deps cancelled fuel (Some root) = Some out) ∧
  match out with
  | Err e => ∃ k, cancelled k = Some e
  | Ok closure => ∃ best : gmap string string,
      (∀ n v, best !! n = Some v → ∃ d, reachable deps root d ∧ coord_of d = (n, v)) ∧
      (∀ d, d ∈ rep_BazelDeps root → valid d → covers best (mk_Name d) (mk_Version d)) ∧
      (∀ n v ds d, best !! n = Some v → deps n v = Ok ds → d ∈ ds → mk_DevDependency d = false → valid d →
         covers best (mk_Name d) (mk_Version d)) ∧
      (∀ k m v, closure !! k = Some (m, v) →
         (∃ d, reachable deps root d ∧ coord_of d = (m, v) ∧ repoKeyOf d = k) ∧ covers best m v) ∧
      (faithful deps root → ∀ d, reachable deps root d →
         closure !! repoKeyOf d = pair (mk_Name d) <$> best !! mk_Name d)
  end.
Proof.
  intros HU. destruct (seeded_ok deps root) as (promoted & Hok).
  pose proof (walk_ends deps cancelled root U (length U) 0 _ promoted [] HU ltac:(simpl; lia) Hok) as H.
  destruct (walk_loop deps cancelled (length U) 0 (seeded root)) as [r|] eqn:Hw; [|done].
  exists (match r with Ok s => Ok (wk_resolved s) | Err e => Err e end). split.
  { intros fuel Hf. unfold TransitiveClosure. replace fuel with (length U + (fuel - length U)) by lia.
    rewrite (walk_fuel deps cancelled _ _ _ _ _ Hw). by destruct r. }
  destruct r as [s|e]; [|done]. destruct H as (done_ & [Hq Hnd Hre Hc Hb Hres Hal] & Hroot & Hdone).
  exists (wk_bestVersion s). split_and!; [|done| | |done].
  - intros n v Hn. destruct (Hb n v Hn) as (d & Hd & E). eauto.
  - intros n v ds d Hn Hds. destruct (Hb n v Hn) as (p & Hp & E). injection E as <- <-. by eapply Hdone.
  - intros k m v Hk. destruct (Hres k (m, v) Hk) as (d & Hd & E & ?). split; [eauto|].
    injection E as <- <-. by apply Hc.
Qed.

Definition dep (n v : string) : ModuleKey := mkModuleKey n v false "".

(** Two modules that depend on each other, one at a version the root has overtaken. *)
Definition demo_deps : DepsFunc := λ n v,
  if decide (n = "a") then Ok [dep "b" "2"] else if decide (n = "b") then Ok [dep "a" "1"; dep "c" "1"] else Err "unknown".
Definition report_of (ds : list ModuleKey) : ModuleReport :=
  mkModuleReport "root" "1" 0 [] ds [] [] [] [] [] [] [] [] [] [] [] [] []
    (mkHermeticityProfile [] []) [] zeroAssets.

Lemma demo_reachable ds d :
  reachable demo_deps (report_of ds) d → ds = [dep "a" "2"] →
  coord_of d ∈ [("a", "2"); ("a", "1"); ("b", "2"); ("c", "1")].
Proof.
  intros H ->. induction H as [d Hd _|p d ds' _ IH Hds Hin _ _].
  - apply list_elem_of_singleton in Hd as ->. set_solver.
  - revert Hds. unfold demo_deps. repeat case_decide; intros [= <-]; set_solver.
Qed.

Lemma closure_fixpoint_witness :
  TransitiveClosure demo_deps (λ _, None) 4 (Some (report_of [dep "a" "2"])) =
    Some (Ok {["a" := ("a", "2"); "b" := ("b", "2"); "c" := ("c", "1")]}) ∧
  ∃ out, TransitiveClosure demo_deps (λ _, None) 4 (Some (report_of [dep "a" "2"])) = Some out.
Proof.
  split; [vm_compute; reflexivity|].
  destruct (closure_fixpoint demo_deps (λ _, None) (report_of [dep "a" "2"])
    [("a", "2"); ("a", "1"); ("b", "2"); ("c", "1")]) as (out & Hout & _).
  - intros d Hd. by apply (demo_reachable [dep "a" "2"]).
  - exists out. apply Hout. simpl. lia.
Defined.

(** A repository name is one module's own; the closure shares one map between all of
    them.  Here the root calls [a] by the name [x], its dependency [b] calls [c] by
    the same name, and the root's [x] is resolved to [c]: navigation goes to the
    wrong module, where the direct closure goes to the right one. *)
Definition alias_deps : DepsFunc := λ n v,
  if decide (n = "b") then Ok [mkModuleKey "c" "1" false "x"] else Ok [].
Definition alias_root : ModuleReport := report_of [mkModuleKey "a" "1" false "x"; dep "b" "1"].

Example alias_hijacked :
  DirectClosure (Some alias_root) !! "x" = Some ("a", "1") ∧
  TransitiveClosure alias_deps (λ _, None) 5 (Some alias_root) =
    Some (Ok {["x" := ("c", "1"); "b" := ("b", "1")]}).
Proof. split; vm_compute; reflexivity. Qed.

(** Where a second name for a module already found at that version appears, it is
    left out; an upgrade keeps the first name at the old version. *)
Example alias_dropped :
  TransitiveClosure (λ n v, if decide (n = "b") then Ok [dep "a" "1"] else Ok []) (λ _, None) 5 (Some alias_root) =
    Some (Ok {["x" := ("a", "1"); "b" := ("b", "1")]}) ∧
  TransitiveClosure (λ n v, if decide (n = "b") then Ok [dep "a" "2"] else Ok []) (λ _, None) 5 (Some alias_root) =
    Some (Ok {["x" := ("a", "1"); "a" := ("a", "2"); "b" := ("b", "1")]}).
Proof. split; vm_compute; reflexivity. Qed.

(** What an overtaken version declares counts only when it is seen first: the order
    of two declarations decides whether [c] is at 2 or at 1. *)
Definition order_deps : DepsFunc := λ n v,
  if decide (n = "x") then Ok [dep "a" "2"] else if decide (n = "y") then Ok [dep "a" "1"]
  else if decide ((n, v) = ("a", "1")) then Ok [dep "c" "2"] else if decide ((n, v) = ("a", "2")) then Ok [dep "c" "1"]
  else Ok [].

Example order_of_declarations :
  (∃ c, TransitiveClosure order_deps (λ _, None) 9 (Some (report_of [dep "x" "1"; dep "y" "1"])) = Some (Ok c) ∧
     c !! "c" = Some ("c", "1")) ∧
  (∃ c, TransitiveClosure order_deps (λ _, None) 9 (Some (report_of [dep "y" "1"; dep "x" "1"])) = Some (Ok c) ∧
     c !! "c" = Some ("c", "2")).
Proof. split; eexists; split; vm_compute; reflexivity. Qed.

(** ** The order of ingests *)

Lemma walk_ext deps deps' cancelled root fuel n s promoted done_ :
  (∀ d, reachable deps root d → deps' (mk_Name d) (mk_Version d) = deps (mk_Name d) (mk_Version d)) →
  walk_ok deps root promoted done_ s → walk_loop deps' cancelled fuel n s = walk_loop deps cancelled fuel n s.
Proof.
  intros He. revert n s promoted done_. induction fuel as [|fuel IH]; intros n s promoted done_ Hok; simpl; [done|].
  destruct (wk_queue s) as [|c rest] eqn:Hq; [done|]. destruct (cancelled n); [done|].
  assert (expand deps' s c rest = expand deps s c rest) as ->.
  { destruct Hok as (Hi & _). unfold expand. rewrite He; [done|]. apply (wi_reach _ _ _ _ _ Hi).
    rewrite (wi_queue _ _ _ _ _ Hi), Hq. set_solver. }
  destruct (expand_ok deps root promoted done_ s c rest Hq Hok) as (promoted' & Hok'). by eapply IH.
Qed.

(** Once the mirror holds the MODULE.bazel of every reachable coordinate, the closure
    does not depend on which modules were ingested before: with any set of stored
    reports that repeat those declarations it is the closure of the files alone. *)
Theorem ingest_order_irrelevant GetReport GetModuleBazel ParseModuleContent cancelled root fuel :
  let files := DepsFromModuleBazel GetModuleBazel ParseModuleContent in
  (∀ d, reachable files root d → ∃ ds, files (mk_Name d) (mk_Version d) = Ok ds ∧
     ∀ r, GetReport (mk_Name d) (mk_Version d) = Ok (Some r) → rep_BazelDeps r = ds) →
  TransitiveClosure (FirstOf [DepsFromStore GetReport; files]) cancelled fuel (Some root) =
  TransitiveClosure files cancelled fuel (Some root).
Proof.
  cbn zeta. intros H. unfold TransitiveClosure. destruct (seeded_ok (DepsFromModuleBazel GetModuleBazel ParseModuleContent) root)
    as (promoted & Hok).
  by rewrite (walk_ext _ (FirstOf [DepsFromStore GetReport; DepsFromModuleBazel GetModuleBazel ParseModuleContent])
    cancelled root fuel 0 _ promoted [] ltac:(
      intros d Hd; destruct (H d Hd) as (ds & Hf & Hs); cbn; unfold DepsFromStore;
      destruct (GetReport _ _) as [[r|]|] eqn:E; cbn; rewrite Hf; [by rewrite (Hs r eq_refl)|done|done]) Hok).
Qed.

Definition demo_parse (b : bytes) : result string (list Dependency) :=
  if decide (of_bytes b = "a") then Ok [mkDependency "b" "1" "" false] else Ok [].

Lemma ingest_order_irrelevant_witness :
  let files := DepsFromModuleBazel (λ n _, Ok (to_bytes n)) demo_parse in
  let stored n v := if decide (n = "a") then Ok (Some (report_of [dep "b" "1"])) else Err "not found" in
  TransitiveClosure (FirstOf [DepsFromStore stored; files]) (λ _, None) 4 (Some (report_of [dep "a" "1"])) =
  TransitiveClosure files (λ _, None) 4 (Some (report_of [dep "a" "1"])).
Proof.
  cbn zeta. apply (ingest_order_irrelevant (λ n v, if decide (n = "a") then Ok (Some (report_of [dep "b" "1"])) else Err "not found")
    (λ n _, Ok (to_bytes n)) demo_parse).
  intros d _. unfold DepsFromModuleBazel, FromModuleBazel, demo_parse. cbn [mbind result_bind].
  rewrite of_to_bytes. case_decide; eexists; (split; [reflexivity|]); intros r; [by intros [= <-]|done].
Defined.
