(* ===== verification/Forgewatch.v ===== *)
(** * The forge watcher

    [internal/forgewatch]: the state file, on the disk with faults and crashes of
    FileSystem.v, one poll of the watcher, and the runs of a daemon that polls,
    dies, loses power and is started again.  The commits come from one of the four forge
    clients of the vendored bigorna, which ask for one page of them.  What a forge's server
    answers, the callback, the clock and the JSON codec are parameters; the random jitter of
    the sleeps is left out. *)

From stdpp Require Import pretty.
From S2P Require Import Prelude Strings Archive FileSystem.
#[local] Open Scope Z_scope.

(** ** The state file *)

(** [State] *)
Record State := mkState { st_LastSHA : string; st_LastETag : string; st_LastPolledAt : Z }.
Definition zeroState : State := mkState "" "" 0.
#[export] Instance State_eq_dec : EqDecision State.
Proof. solve_decision. Defined.

Abbreviation fileShape := (gmap string State).

(** [fileKey] *)
Definition fileKey (owner name branch : string) : string := owner +:+ "/" +:+ name +:+ "/" +:+ branch.

Section store.
(** [json.Unmarshal] into the map: what the map holds afterwards ([None] is the nil map
    that the JSON null leaves), and the error. *)
Context (unmarshal : bytes → option fileShape * option string).
(** [json.MarshalIndent] *)
Context (marshal : fileShape → result string bytes).
Context (rnd : disk → path → string → string).
Context (file : path) (key : string).

(** [FileStore.Load] *)
Definition Load : os (result string State) :=
  r ← readFile file;
  mret (match r with
        | Err NotExist => Ok zeroState
        | Err (ReadFailed e) => Err ("filestore: read: " +:+ e)
        | Ok [] => Ok zeroState
        | Ok data =>
            match unmarshal data with
            | (_, Some e) => Err ("filestore: parse: " +:+ e)
            | (m, None) => Ok (default zeroState (default ∅ m !! key))
            end
        end).

(** [FileStore.Save]: assigning to a nil map panics; the deferred call removes the
    temporary file on every later error. *)
Definition Save (st : State) : os (result string unit) :=
  r ← readFile file;
  let m := match r with Ok (c :: l) => (unmarshal (c :: l)).1 | _ => Some ∅ end in
  match m with
  | None => panic "assignment to entry in nil map"
  | Some m =>
      match marshal (<[key := st]> m) with
      | Err e => mret (Err ("filestore: marshal: " +:+ e))
      | Ok out =>
          let out := out ++ [chr 10] in
          try_ (createTemp rnd (dir_of file) ".forgewatch-") (λ tmp,
          let cleanup (e : string) : os (result string unit) := remove tmp ≫= λ _, mret (Err e) in
          '(_, werr) ← write tmp out;
          match werr with
          | Some e => closeFile tmp ≫= λ _, cleanup ("filestore: write temp: " +:+ e)
          | None =>
              serr ← sync tmp;
              match serr with
              | Err e => closeFile tmp ≫= λ _, cleanup ("filestore: sync temp: " +:+ e)
              | Ok _ =>
                  cerr ← closeFile tmp;
                  match cerr with
                  | Err e => cleanup ("filestore: close temp: " +:+ e)
                  | Ok _ =>
                      rerr ← rename tmp file;
                      match rerr with
                      | Err e => cleanup ("filestore: rename: " +:+ e)
                      | Ok _ => mret (Ok tt)
                      end
                  end
              end
          end)
      end
  end.

(** ** The watcher *)

(** The durations of [Config]. *)
Record Config := mkConfig { cfg_Interval : Z; cfg_MaxInterval : Z }.

(** [New]'s defaults. *)
Definition normalize (c : Config) : Config :=
  let i := if cfg_Interval c =? 0 then 60 * 1000000000 else cfg_Interval c in
  let m := if cfg_MaxInterval c =? 0 then wrap64 (5 * i) else cfg_MaxInterval c in
  mkConfig i (if m <? i then i else m).

(** [applyBackoff] *)
Definition applyBackoff (cfg : Config) (interval : Z) : Z := Z.min (wrap64 (interval * 2)) (cfg_MaxInterval cfg).

(** What one poll leaves behind: the interval, the commits a successful callback was
    given, and the error. *)
Record polled := mkPolled { po_interval : Z; po_delivered : list string; po_err : option string }.

Section poll.
Context (cfg : Config).
(** [Forge.ListNewCommits]: commits newest first, the new ETag and notModified. *)
Context (ListNewCommits : string → string → result string (list string * string * bool)).
Context (OnCommit : list string → option string).
Context (now : Z).

Definition saved (interval : Z) (delivered : list string) (wrap : string) (r : result string unit) : polled :=
  mkPolled interval delivered (match r with Ok _ => None | Err e => Some (wrap +:+ e) end).

(** [pollOnce] *)
Definition pollOnce (interval : Z) : os polled :=
  r ← Load;
  match r with
  | Err e => mret (mkPolled interval [] (Some ("load state: " +:+ e)))
  | Ok state =>
      match ListNewCommits (st_LastSHA state) (st_LastETag state) with
      | Err e => mret (mkPolled interval [] (Some ("ListNewCommits: " +:+ e)))
      | Ok (commits, newETag, notModified) =>
          match (if notModified then [] else commits) with
          | [] =>
              s ← Save (mkState (st_LastSHA state) newETag now);
              mret (saved (applyBackoff cfg interval) [] (if notModified then "save state: " else "") s)
          | top :: _ =>
              match OnCommit commits with
              | Some _ =>
                  _ ← Save (mkState (st_LastSHA state) (st_LastETag state) now);
                  mret (mkPolled (applyBackoff cfg (cfg_Interval cfg)) [] None)
              | None =>
                  s ← Save (mkState top newETag now);
                  mret (saved (cfg_Interval cfg) commits
                    "save state after OnCommit succeeded (commits will replay): " s)
              end
          end
      end
  end.
End poll.
End store.

(** ** The state file under faults *)

Section file_proofs.
Context (unmarshal : bytes → option fileShape * option string) (marshal : fileShape → result string bytes).
Context (rnd : disk → path → string → string) (file : path) (key : string).

(** The files a save makes on its way. *)
Definition hidden (p : path) : Prop := ∃ s, p = dir_of file ++ [".forgewatch-" +:+ s].
Definition nowhere (p : path) : Prop := False.
Hypothesis file_visible : ¬ hidden file.

Abbreviation V := (same_but hidden nowhere).
Abbreviation but_file := (same_but (λ p, hidden p ∨ p = file) nowhere).

(** What the code reads out of the file before it writes it. *)
Definition parsed (d : disk) : option fileShape :=
  match files d !! file with
  | Some (c :: l, _) => (unmarshal (c :: l)).1
  | _ => Some ∅
  end.

Definition published (d0 : disk) (st : State) (r : result string unit) (d : disk) : Prop :=
  match r with
  | Err _ => V d0 d
  | Ok _ => but_file d0 d ∧ ∃ m out, marshal (<[key := st]> m) = Ok out ∧
      files d !! file = Some (out ++ [chr 10], true) ∧ (parsed d0 = Some m ∨ m = ∅)
  end.

Lemma spec_panic {A} P (e : string) (Q : result string A → disk → Prop) :
  (∀ d, P d → Q (Err e) d) → spec P (panic e) Q.
Proof. intros H w Hw. by apply H. Qed.

(** A save replaces the file in one step, synced, or leaves it and everything else
    that is not its own temporary file alone. *)
Lemma spec_Save d0 st : spec (V d0) (Save unmarshal marshal rnd file key st) (published d0 st).
Proof.
  unfold Save. eapply spec_bind; [apply spec_readFile|]. intros r.
  set (m := match r with Ok (c :: l) => (unmarshal (c :: l)).1 | _ => Some ∅ end).
  eapply spec_pre with (P := λ d, (∀ m', m = Some m' → parsed d0 = Some m' ∨ m' = ∅) ∧ V d0 d).
  2:{ intros d [Hd Hr]. split; [|done]. intros m' Hm. subst m.
      destruct r as [[|c l]|]; [by injection Hm as <-; right| |by injection Hm as <-; right].
      left. destruct Hr as [s Hs]. destruct Hd as (Hf & _). rewrite Hf in Hs by done.
      unfold parsed. by rewrite Hs. }
  apply spec_pure. intros Hm.
  destruct m as [m'|]; [|by apply spec_panic]. specialize (Hm m' eq_refl).
  destruct (marshal _) as [out|e] eqn:Hout; [|by apply spec_ret].
  eapply spec_try; [by apply spec_createTemp; intros; eexists|cbn beta|by intros ?? [? _]].
  intros tmp. eapply spec_pre with (P := λ d, hidden tmp ∧ V d0 d ∧ ∃ s, files d !! tmp = Some ([], s));
    [|intros d [? H]; destruct (H tmp eq_refl); by split_and!; eauto].
  apply spec_pure. intros Htmp.
  eapply spec_bind; [by apply spec_write|]. intros [n [e|]]; simpl.
  { eapply spec_pre; [apply spec_close_cleanup; [done|intros ?? Hv; exact Hv]|by intros d [? _]]. }
  eapply spec_pre with (P := λ d, V d0 d ∧ ∃ s, files d !! tmp = Some (out ++ [chr 10], s));
    [|intros d [? H]; destruct (H eq_refl) as [_ ?]; by eauto].
  eapply spec_bind; [by apply spec_sync|]. intros [?|e]; simpl;
    [|eapply spec_pre; [apply spec_close_cleanup; [done|intros ?? Hv; exact Hv]|by intros d [? _]]].
  eapply spec_bind; [apply spec_closeFile|]. intros [?|e]; simpl;
    [|eapply spec_pre; [apply spec_cleanup; [done|intros ?? Hv; exact Hv]|by intros d [? _]]].
  eapply spec_bind.
  { eapply spec_pre; [by apply (spec_rename hidden nowhere d0 tmp file (out ++ [chr 10], true))|].
    intros d [? H]. split; [done|by apply H]. }
  intros [?|e]; [|apply spec_cleanup; [done|intros ?? Hv; exact Hv]].
  apply spec_ret. intros d [Hd Hf]. split; [done|]. eauto.
Qed.

(** ** One poll under faults *)

Hypothesis codec : ∀ m out, marshal m = Ok out → unmarshal (out ++ [chr 10]) = (Some m, None).

(** What a load of the key would answer. *)
Definition key_state (d : disk) : option State :=
  match files d !! file with
  | Some (c :: l, _) =>
      match unmarshal (c :: l) with
      | (_, Some _) => None
      | (m, None) => Some (default zeroState (default ∅ m !! key))
      end
  | _ => Some zeroState
  end.

(** The file is synced and holds what some save wrote. *)
Definition intact (d : disk) : Prop :=
  ∀ c s, files d !! file = Some (c, s) → s = true ∧ ∃ m out, marshal m = Ok out ∧ c = out ++ [chr 10].

Lemma V_file d d' : V d d' → files d' !! file = files d !! file.
Proof. intros (Hf & _). by apply Hf. Qed.

Lemma V_key_state d d' : V d d' → key_state d' = key_state d ∧ (intact d → intact d').
Proof. intros Hd%V_file. unfold key_state, intact. by rewrite Hd. Qed.

Lemma published_key_state d0 st r d :
  published d0 st r d → intact d0 →
  intact d ∧ key_state d = match r with Ok _ => Some st | Err _ => key_state d0 end.
Proof.
  unfold published. destruct r as [?|e]; intros H Hd0.
  - destruct H as [_ (m & out & Hout & Hf & _)]. split; [intros c s; rewrite Hf; intros [= <- <-]; eauto|].
    unfold key_state. rewrite Hf. destruct (out ++ [chr 10]) as [|c l] eqn:E; [by destruct out|].
    rewrite <-E, (codec _ _ Hout). simpl. by rewrite lookup_insert_eq.
  - apply V_key_state in H as [? ?]. auto.
Qed.

(** Without faults a save succeeds. *)
Lemma Save_runs d m st out :
  parsed d = Some m → marshal (<[key := st]> m) = Ok out →
  ∃ d', Save unmarshal marshal rnd file key st (mkWorld d [] true) = (Ok tt, mkWorld d' [] true).
Proof.
  intros Hp Hm. cbv [Save try_ mbind os_bind readFile call w_alive w_faults w_disk].
  assert (∃ r, (match files d !! file with Some (c, _) => Ok c | None => Err NotExist end) = r ∧
    (match r with Ok (c :: l) => (unmarshal (c :: l)).1 | _ => Some ∅ end) = Some m) as (r & -> & ->).
  { eexists. split; [done|]. rewrite <-Hp. unfold parsed. by destruct (files d !! file) as [[[|c l] s]|]. }
  rewrite Hm. cbn. rewrite !lookup_alter_eq, lookup_insert_eq. cbn. by eexists.
Qed.

Lemma spec_Load d0 : spec (V d0) (Load unmarshal file key)
  (λ r d, V d0 d ∧ ∀ st, r = Ok st → key_state d0 = Some st).
Proof.
  unfold Load. eapply spec_bind; [apply spec_readFile|]. intros r. apply spec_ret. intros d [Hd Hr].
  split; [done|]. intros st. unfold key_state. rewrite <-(V_file _ _ Hd).
  destruct r as [[|c l]|[|e]]; [| | |done].
  - destruct Hr as [s ->]. by intros [= <-].
  - destruct Hr as [s ->]. destruct (unmarshal (c :: l)) as [m [e|]]; [done|]. by intros [= <-].
  - rewrite Hr. by intros [= <-].
Qed.

Section poll_proofs.
Context (cfg : Config) (ask : string → string → result string (list string * string * bool)).
Context (onc : list string → option string) (now : Z) (interval : Z).

(** After a poll the state file holds the same commit as before, or the newest of the
    commits that the forge gave for it and the callback took. *)
Definition poll_post (d0 : disk) (p : polled) (d : disk) : Prop :=
  intact d ∧
  (po_interval p = interval ∨ po_interval p = applyBackoff cfg interval ∨
   po_interval p = applyBackoff cfg (cfg_Interval cfg) ∨ po_interval p = cfg_Interval cfg) ∧
  ∃ st0 st, key_state d0 = Some st0 ∧ key_state d = Some st ∧
    (st_LastSHA st = st_LastSHA st0 ∨
     ∃ etag, ask (st_LastSHA st0) (st_LastETag st0) = Ok (po_delivered p, etag, false) ∧
       head (po_delivered p) = Some (st_LastSHA st)).

Lemma spec_save_then d0 st (f : result string unit → polled) Q :
  intact d0 →
  (∀ r d, intact d → (key_state d = Some st ∨ key_state d = key_state d0) → Q (f r) d) →
  spec (V d0) (r ← Save unmarshal marshal rnd file key st; mret (f r)) Q.
Proof.
  intros Hd0 HQ. eapply spec_bind; [apply spec_Save|]. intros r. apply spec_ret. intros d Hr.
  destruct (published_key_state _ _ _ _ Hr Hd0) as [Hd Hk]. apply HQ; [done|]. destruct r; auto.
Qed.

Lemma spec_poll d0 st0 :
  intact d0 → key_state d0 = Some st0 →
  spec (V d0) (pollOnce unmarshal marshal rnd file key cfg ask onc now interval) (poll_post d0).
Proof.
  intros Hd0 Hk0. unfold pollOnce. eapply spec_bind; [apply spec_Load|]. intros [st|e].
  2:{ apply spec_ret. intros d [Hd _]. destruct (V_key_state _ _ Hd) as [Hk Hdur].
      split_and!; [auto|by left|]. exists st0, st0. rewrite Hk. auto. }
  eapply spec_pre with (P := λ d, st = st0 ∧ V d0 d); [|intros d [Hd H]; specialize (H st eq_refl); split; [congruence|done]].
  apply spec_pure. intros ->.
  destruct (ask (st_LastSHA st0) (st_LastETag st0)) as [[[commits etag] nm]|e] eqn:Hask.
  2:{ apply spec_ret. intros d Hd. destruct (V_key_state _ _ Hd) as [Hk Hdur].
      split_and!; [auto|by left|]. exists st0, st0. rewrite Hk. auto. }
  assert (∀ st i dl (f : result string unit → polled),
    (∀ r, po_interval (f r) = i ∧ po_delivered (f r) = dl) →
    (i = applyBackoff cfg interval ∨ i = applyBackoff cfg (cfg_Interval cfg) ∨ i = cfg_Interval cfg) →
    (st_LastSHA st = st_LastSHA st0 ∨ (dl = commits ∧ nm = false ∧ head dl = Some (st_LastSHA st))) →
    spec (V d0) (r ← Save unmarshal marshal rnd file key st; mret (f r)) (poll_post d0)) as Hsave.
  { intros st i dl f Hf Hi Hst. apply spec_save_then; [done|]. intros r d Hd Hk.
    destruct (Hf r) as [Hfi Hfd]. split_and!; [done|naive_solver|].
    destruct Hk as [Hk|Hk].
    - exists st0, st. split_and!; [done..|]. destruct Hst as [?|(-> & -> & Hh)]; [by left|right].
      exists etag. rewrite Hfd. by split.
    - exists st0, st0. rewrite Hk. auto. }
  destruct (if nm then [] else commits) as [|top rest] eqn:E.
  - apply (Hsave _ (applyBackoff cfg interval) []); [done|auto|by left].
  - assert (commits = top :: rest) as -> by (by destruct nm).
    destruct (onc (top :: rest)).
    + apply (Hsave _ (applyBackoff cfg (cfg_Interval cfg)) []); [done|auto|by left].
    + apply (Hsave _ (cfg_Interval cfg) (top :: rest)); [done|auto|right; by destruct nm].
Qed.
End poll_proofs.
End file_proofs.

(** ** The forges *)

#[local] Open Scope nat_scope.

Inductive forge : Type := GitHub | GitLab | Forgejo | BitbucketDC.

(** What a server answers to the one request of a poll: that nothing changed, a page of
    commits, newest first, with its ETag, or a refusal. *)
Inductive answer : Type :=
| Unchanged
| Listed (page : list string) (etag : string)
| Refused (msg : string).

Definition page_size : nat := 100.

(** The clients' loop over a page: what comes before the commit they were asked about. *)
Fixpoint newer_than (since : string) (page : list string) : list string :=
  match page with
  | [] => []
  | c :: page' => if decide (c = since) then [] else c :: newer_than since page'
  end.

Section clients.
(** The server; Bitbucket's is asked for what follows a commit, GitHub's and GitLab's get
    the ETag. *)
Context (server : string → string → answer).
Abbreviation listing := (result string (list string * string * bool)).

Definition github_ListNewCommits (since etag : string) : listing :=
  match server since etag with
  | Unchanged => Ok ([], etag, true)
  | Refused e => Err e
  | Listed raw newETag => Ok (newer_than since raw, newETag, false)
  end.

(** An empty answer to a conditional request is a page that did not change. *)
Definition gitlab_ListNewCommits (since etag : string) : listing :=
  match server since etag with
  | Unchanged => Ok ([], etag, true)
  | Refused e => Err e
  | Listed raw newETag =>
      if decide (etag ≠ "" ∧ raw = []) then Ok ([], etag, true) else Ok (newer_than since raw, newETag, false)
  end.

Definition forgejo_ListNewCommits (since etag : string) : listing :=
  match server since etag with
  | Unchanged => Err "304"
  | Refused e => Err e
  | Listed raw _ =>
      let out := newer_than since raw in
      if decide (since ≠ "" ∧ out = []) then Ok ([], etag, true) else Ok (out, default "" (head out), false)
  end.

Definition bitbucketdc_ListNewCommits (since etag : string) : listing :=
  match server since etag with
  | Unchanged => Err "304"
  | Refused e => Err e
  | Listed raw _ => if decide (raw = []) then Ok ([], etag, true) else Ok (raw, etag, false)
  end.

Definition ListNewCommits (f : forge) : string → string → listing :=
  match f with
  | GitHub => github_ListNewCommits
  | GitLab => gitlab_ListNewCommits
  | Forgejo => forgejo_ListNewCommits
  | BitbucketDC => bitbucketdc_ListNewCommits
  end.
End clients.

(** A branch of which the server has some commits, oldest first: it lists the newest,
    Bitbucket of those after the commit it is asked about, which it must know. *)
Definition newest (l : list string) : list string := take page_size (reverse l).
Definition serves (f : forge) (branch : list string) (server : string → string → answer) : Prop :=
  ∀ since etag raw e, server since etag = Listed raw e →
    match f with
    | BitbucketDC => if decide (since = "") then raw = newest branch
                     else ∃ i, branch !! i = Some since ∧ raw = newest (drop (S i) branch)
    | _ => raw = newest branch
    end.

Lemma newer_than_prefix since page : ∃ k, k ≤ length page ∧ newer_than since page = take k page ∧
  ∀ n, n ≤ length page → (∀ j, j < n → page !! j ≠ Some since) → n ≤ k.
Proof.
  induction page as [|c page (k & Hk & E & Hn)]; simpl.
  { exists 0%nat. split_and!; [lia|done|]. intros n Hn _. lia. }
  case_decide as Hc.
  - exists 0%nat. split_and!; [lia|done|]. intros [|n] _ Hj; [lia|]. specialize (Hj 0%nat ltac:(lia)). simpl in Hj. congruence.
  - exists (S k). split_and!; [lia|simpl; by rewrite E|]. intros [|n] Hle Hj; [lia|].
    apply le_n_S, Hn; [lia|]. intros j Hlt. apply (Hj (S j)). lia.
Qed.

(** What a client reports: the newest commits, newest first, and all those after the one it
    was asked about as long as they fit on a page. *)
Definition reports (branch : list string) (since : string) (l : list string) : Prop :=
  ∃ from, from ≤ length branch ∧ l = reverse (drop from branch) ∧
    ∀ i, branch !! i = Some since → length branch ≤ S i + page_size → from ≤ S i.

Lemma take_newest k branch : k ≤ page_size → k ≤ length branch →
  take k (newest branch) = reverse (drop (length branch - k) branch).
Proof.
  intros Hk Hl. unfold newest. rewrite take_take, Nat.min_l by done.
  rewrite <-(take_drop (length branch - k) branch) at 1. rewrite reverse_app, take_app_le by (rewrite length_reverse, length_drop; lia).
  apply take_ge. rewrite length_reverse, length_drop. lia.
Qed.

Lemma reports_page branch since : NoDup branch → reports branch since (newer_than since (newest branch)).
Proof.
  intros Hnd. destruct (newer_than_prefix since (newest branch)) as (k & Hk & -> & Hn).
  unfold newest in Hk. rewrite length_take, length_reverse in Hk. exists (length branch - k). split_and!; [lia|apply take_newest; lia|].
  intros i Hi Hle. apply lookup_lt_Some in Hi as Hlt. cut (length branch - S i ≤ k); [lia|].
  apply Hn; [unfold newest; rewrite length_take, length_reverse; lia|].
  intros j Hj E. unfold newest in E. rewrite lookup_take_lt, reverse_lookup in E by lia.
  pose proof (NoDup_lookup _ _ _ _ Hnd Hi E). lia.
Qed.

Lemma reports_after branch since i : NoDup branch → branch !! i = Some since → reports branch since (newest (drop (S i) branch)).
Proof.
  intros Hnd Hi. apply lookup_lt_Some in Hi as Hlt. set (k := (length branch - S i) `min` page_size).
  exists (length branch - k). split_and!; [lia| |].
  - rewrite <-(take_ge (newest _) k), take_newest; rewrite ?length_drop; [|lia..|].
    + rewrite drop_drop. do 2 f_equal. lia.
    + unfold newest. rewrite length_take, length_reverse, length_drop. lia.
  - intros i' Hi' Hle. rewrite (NoDup_lookup _ _ _ _ Hnd Hi' Hi) in *. lia.
Qed.

Lemma ListNewCommits_reports f branch server since etag l e : NoDup branch → "" ∉ branch → serves f branch server →
  ListNewCommits server f since etag = Ok (l, e, false) → reports branch since l.
Proof.
  intros Hnd Hne Hs. specialize (Hs since etag).
  assert (∀ raw, raw = newest branch → reports branch since (newer_than since raw)) as Hpage by (intros ? ->; by apply reports_page).
  destruct f; simpl; unfold github_ListNewCommits, gitlab_ListNewCommits, forgejo_ListNewCommits, bitbucketdc_ListNewCommits;
    destruct (server since etag) as [|raw e0|msg]; try done; specialize (Hs raw e0 eq_refl); simpl in Hs.
  - intros [= <- _]. auto.
  - case_decide; [done|]. intros [= <- _]. auto.
  - case_decide; [done|]. intros [= <- _]. auto.
  - destruct (decide (raw = [])); [done|]. intros [= <- _]. case_decide as Hz.
    + subst. exists (length branch - page_size `min` length branch). split_and!; [lia| |].
      * rewrite <-take_newest by lia. symmetry. apply take_ge. unfold newest. rewrite length_take, length_reverse. lia.
      * intros i Hi%list_elem_of_lookup_2. done.
    + destruct Hs as (i & Hi & ->). by eapply reports_after.
Qed.

#[local] Close Scope nat_scope.

(** ** The daemon over its lives *)

Section runs.
Context (unmarshal : bytes → option fileShape * option string) (marshal : fileShape → result string bytes).
Context (rnd : disk → path → string → string) (file : path) (key : string) (cfg : Config) (f : forge).
(** The commits of the watched branch, oldest first: a line of commits that only grows. *)
Context (hist : list string).

(** How many commits a poll has to report, of a branch of [tip] commits. *)
Definition new_commits (tip : nat) (d : disk) : nat :=
  match key_state unmarshal file key d with
  | Some st => match list_find (st_LastSHA st =.) hist with Some (i, _) => (tip - S i)%nat | None => 0%nat end
  | None => 0%nat
  end.

(** A daemon: its disk, the adaptive interval, the commits that successful callbacks
    were given, how many commits the branch has, and the most that any poll found new. *)
Record daemon := mkDaemon {
  dm_disk : disk;
  dm_interval : Z;
  dm_processed : list string;
  dm_tip : nat;
  dm_behind : nat;
}.

Inductive daemon_step : daemon → daemon → Prop :=
| step_poll s faults server onc now tip p w :
    (dm_tip s ≤ tip ≤ length hist)%nat → serves f (take tip hist) server →
    pollOnce unmarshal marshal rnd file key cfg (ListNewCommits server f) onc now (dm_interval s) (mkWorld (dm_disk s) faults true) = (p, w) →
    daemon_step s (mkDaemon (w_disk w) (if w_alive w then po_interval p else cfg_Interval cfg)
      (dm_processed s ++ po_delivered p) tip (dm_behind s `max` new_commits tip (dm_disk s)))
| step_restart s cut :
    daemon_step s (mkDaemon (power_loss cut (dm_disk s)) (cfg_Interval cfg) (dm_processed s) (dm_tip s) (dm_behind s)).

(** The commit that the state names is one of the branch and was given to a callback that
    succeeded. *)
Definition caught_up_to (s : daemon) (sha : string) : Prop :=
  sha = "" ∨ sha ∈ dm_processed s ∧ ∃ i, (i < dm_tip s)%nat ∧ hist !! i = Some sha.

Record daemon_inv (s : daemon) : Prop := {
  di_intact : intact marshal file (dm_disk s);
  di_state : ∃ st, key_state unmarshal file key (dm_disk s) = Some st ∧ caught_up_to s (st_LastSHA st);
  di_interval : cfg_Interval cfg ≤ dm_interval s ≤ cfg_MaxInterval cfg;
  di_tip : (dm_tip s ≤ length hist)%nat;
}.

(** From a commit that the state once named to the one that it names, every commit was
    given to a callback that succeeded, if no poll found more than a page of new ones. *)
Definition unbroken_from (i1 : nat) (s : daemon) : Prop :=
  ∃ st i, key_state unmarshal file key (dm_disk s) = Some st ∧ hist !! i = Some (st_LastSHA st) ∧ (i1 ≤ i < dm_tip s)%nat ∧
    ((dm_behind s ≤ page_size)%nat → ∀ k c, (i1 ≤ k ≤ i)%nat → hist !! k = Some c → c ∈ dm_processed s).

Hypothesis file_visible : ¬ hidden file file.
Hypothesis codec : ∀ m out, marshal m = Ok out → unmarshal (out ++ [chr 10]) = (Some m, None).
Hypothesis cfg_ok : 0 < cfg_Interval cfg ≤ cfg_MaxInterval cfg ∧ cfg_MaxInterval cfg < 2 ^ 62.
Hypothesis hist_ok : NoDup hist ∧ "" ∉ hist.

Lemma applyBackoff_range i :
  cfg_Interval cfg ≤ i ≤ cfg_MaxInterval cfg → cfg_Interval cfg ≤ applyBackoff cfg i ≤ cfg_MaxInterval cfg.
Proof. intros. unfold applyBackoff. rewrite wrap64_small by lia. lia. Qed.

(** What a batch brings, asked for with a commit of the branch or with none. *)
Lemma batch_covers tip server since etag c cs e :
  (tip ≤ length hist)%nat → serves f (take tip hist) server → ListNewCommits server f since etag = Ok (c :: cs, e, false) →
  (0 < tip)%nat ∧ hist !! (tip - 1)%nat = Some c ∧
  ∀ i, hist !! i = Some since → (i < tip)%nat → (tip ≤ S i + page_size)%nat →
    ∀ k x, (i < k < tip)%nat → hist !! k = Some x → x ∈ c :: cs.
Proof.
  intros Ht Hs Hl. apply ListNewCommits_reports with (branch := take tip hist) in Hl as (from & Hf & E & Hfrom); [|..|done].
  2: { destruct hist_ok as [Hn _]. rewrite <-(take_drop tip hist) in Hn. by apply NoDup_app in Hn as [? _]. }
  2: { intros H. apply (proj2 hist_ok). rewrite <-(take_drop tip hist). apply elem_of_app. by left. }
  rewrite length_take, Nat.min_l in Hf, Hfrom by done.
  assert (from < tip)%nat as Hlt by (apply (f_equal length) in E; rewrite length_reverse, length_drop, length_take in E; simpl in E; lia).
  split_and!; [lia| |].
  - assert (head (reverse (drop from (take tip hist))) = Some c) as H by by rewrite <-E.
    rewrite head_reverse, last_lookup, lookup_drop, length_drop, length_take, lookup_take_lt in H by lia. rewrite <-H. f_equal. lia.
  - intros i Hi Hit Hp k x Hk Hx. specialize (Hfrom i). rewrite lookup_take_lt in Hfrom by done. specialize (Hfrom Hi Hp).
    rewrite E, elem_of_reverse. apply list_elem_of_lookup. exists (k - from)%nat. rewrite lookup_drop, lookup_take_lt by lia. rewrite <-Hx. f_equal. lia.
Qed.

(** A poll from a state file that holds [st0]. *)
Lemma poll_outcome s faults server onc now tip p w st0 :
  intact marshal file (dm_disk s) → key_state unmarshal file key (dm_disk s) = Some st0 →
  (dm_tip s ≤ tip ≤ length hist)%nat → serves f (take tip hist) server →
  pollOnce unmarshal marshal rnd file key cfg (ListNewCommits server f) onc now (dm_interval s) (mkWorld (dm_disk s) faults true) = (p, w) →
  intact marshal file (w_disk w) ∧
  (po_interval p = dm_interval s ∨ po_interval p = applyBackoff cfg (dm_interval s) ∨
   po_interval p = applyBackoff cfg (cfg_Interval cfg) ∨ po_interval p = cfg_Interval cfg) ∧
  ∃ st, key_state unmarshal file key (w_disk w) = Some st ∧
    (st_LastSHA st = st_LastSHA st0 ∨
     (0 < tip)%nat ∧ hist !! (tip - 1)%nat = Some (st_LastSHA st) ∧ st_LastSHA st ∈ po_delivered p ∧
     ∀ i, hist !! i = Some (st_LastSHA st0) → (i < tip)%nat → (tip ≤ S i + page_size)%nat →
       ∀ k x, (i < k < tip)%nat → hist !! k = Some x → x ∈ po_delivered p).
Proof.
  intros Hd Hst0 Ht Hs Hpoll.
  pose proof (spec_poll unmarshal marshal rnd file key file_visible codec cfg (ListNewCommits server f) onc now (dm_interval s)
    (dm_disk s) st0 Hd Hst0 (mkWorld (dm_disk s) faults true) (same_but_refl _ _ _)) as H.
  rewrite Hpoll in H. destruct H as (? & Hi & st0' & st & Hk0 & Hk & Hlast). simpl in *. rewrite Hst0 in Hk0. injection Hk0 as <-.
  split_and!; [done..|]. exists st. split; [done|]. destruct Hlast as [?|(etag & Hask & Hh)]; [by left|right].
  destruct (po_delivered p) as [|c cs]; [done|]. injection Hh as ->.
  destruct (batch_covers tip server _ _ _ _ _ (proj2 Ht) Hs Hask) as (? & ? & ?). split_and!; [done..|by left|done].
Qed.

Lemma restart_file s cut : intact marshal file (dm_disk s) → files (power_loss cut (dm_disk s)) !! file = files (dm_disk s) !! file.
Proof.
  intros Hdur. destruct (files (dm_disk s) !! file) as [[c b]|] eqn:E.
  - destruct (Hdur c b E) as [-> _]. by apply power_loss_lookup.
  - simpl. by rewrite map_lookup_imap, E.
Qed.

Lemma daemon_step_inv s s' : daemon_inv s → daemon_step s s' → daemon_inv s'.
Proof.
  intros [Hdur (st0 & Hst0 & Hcu) Hint Htip] Hstep. destruct Hstep as [s faults server onc now tip p w Ht Hs Hpoll|s cut].
  - destruct (poll_outcome _ _ _ _ _ _ _ _ _ Hdur Hst0 Ht Hs Hpoll) as (? & Hi & st & Hk & Hlast). split; simpl; [done| | |lia].
    + exists st. split; [done|]. destruct Hlast as [->|(Hpos & Htop & Hin & _)].
      * destruct Hcu as [?|[? (i & ? & ?)]]; [by left|right]. split; [apply elem_of_app; by left|]. exists i. simpl. split; [lia|done].
      * right. split; [apply elem_of_app; by right|]. exists (tip - 1)%nat. simpl. split; [lia|done].
    + destruct (w_alive w); [|lia]. pose proof (applyBackoff_range (dm_interval s) Hint).
      pose proof (applyBackoff_range (cfg_Interval cfg) ltac:(lia)). destruct Hi as [-> |[-> |[-> | ->]]]; lia.
  - pose proof (restart_file s cut Hdur) as Hf. split; simpl; [| |lia|done].
    + intros c b. rewrite Hf. apply Hdur.
    + exists st0. split; [|done]. rewrite <-Hst0. unfold key_state. by rewrite Hf.
Qed.

Lemma unbroken_step i1 s s' : daemon_inv s → unbroken_from i1 s → daemon_step s s' → unbroken_from i1 s'.
Proof.
  intros [Hdur _ _ Htip] (st0 & i & Hst0 & Hi & Hi1 & Hun) Hstep. destruct Hstep as [s faults server onc now tip p w Ht Hs Hpoll|s cut].
  - destruct (poll_outcome _ _ _ _ _ _ _ _ _ Hdur Hst0 Ht Hs Hpoll) as (_ & _ & st & Hk & Hlast).
    destruct Hlast as [E|(Hpos & Htop & _ & Hcov)].
    + exists st, i. rewrite E. simpl. split_and!; [done|done|lia|lia|]. intros Hb k c Hk' Hc. apply elem_of_app. left. apply (Hun ltac:(lia) k c Hk' Hc).
    + exists st, (tip - 1)%nat. simpl. split_and!; [done|done|lia|lia|]. intros Hb k c Hk' Hc.
      assert (new_commits tip (dm_disk s) = tip - S i)%nat as En.
      { unfold new_commits. rewrite Hst0. assert (list_find (st_LastSHA st0 =.) hist = Some (i, st_LastSHA st0)) as ->; [|done].
        apply list_find_Some. split_and!; [done|done|]. intros j y Hj Hlt <-. pose proof (NoDup_lookup _ _ _ _ (proj1 hist_ok) Hi Hj). lia. }
      apply elem_of_app. destruct (decide (k ≤ i)%nat); [left; apply (Hun ltac:(lia) k c); [lia|done]|right].
      apply (Hcov i Hi ltac:(lia) ltac:(lia) k); [lia|done].
  - pose proof (restart_file s cut Hdur) as Hf. exists st0, i. simpl. split_and!; [|done|lia|lia|done].
    rewrite <-Hst0. unfold key_state. by rewrite Hf.
Qed.

Lemma daemon_steps_inv s s' : daemon_inv s → rtc daemon_step s s' → daemon_inv s'.
Proof. intros Hs Hrun. induction Hrun as [|s s1 s' Hstep _ IH]; [done|]. by eapply IH, daemon_step_inv. Qed.

Lemma unbroken_steps i1 s s' : daemon_inv s → unbroken_from i1 s → rtc daemon_step s s' → unbroken_from i1 s'.
Proof.
  intros Hs Hu Hrun. induction Hrun as [|s s1 s' Hstep _ IH]; [done|].
  apply IH; [by eapply daemon_step_inv|by eapply unbroken_step].
Qed.

(** The state's own commit starts a run. *)
Lemma unbroken_refl s st i : daemon_inv s → key_state unmarshal file key (dm_disk s) = Some st → hist !! i = Some (st_LastSHA st) →
  unbroken_from i s.
Proof.
  intros [_ (st' & Hst & Hcu) _ _] Hst' Hi. rewrite Hst' in Hst. injection Hst as <-. exists st, i.
  destruct Hcu as [Hz|(Hin & i' & Hi' & E)]; [rewrite Hz in Hi; by apply list_elem_of_lookup_2, hist_ok in Hi|].
  rewrite (NoDup_lookup _ _ _ _ (proj1 hist_ok) E Hi) in Hi'. split_and!; [done..|lia|done|].
  intros _ k c Hk Hc. assert (k = i) as -> by lia. rewrite Hi in Hc. by injection Hc as <-.
Qed.

Lemma intact_parsed d : intact marshal file d → ∃ m, parsed unmarshal file d = Some m.
Proof.
  intros Hd. unfold parsed. destruct (files d !! file) as [[[|c l] s]|] eqn:E; [by eexists| |by eexists].
  destruct (Hd _ _ E) as (_ & m & out & Hm & ->). exists m. by rewrite (codec _ _ Hm).
Qed.

Lemma pollOnce_runs d st m ask onc now interval c cs etag out :
  intact marshal file d → key_state unmarshal file key d = Some st →
  ask (st_LastSHA st) (st_LastETag st) = Ok (c :: cs, etag, false) → onc (c :: cs) = None →
  parsed unmarshal file d = Some m → marshal (<[key := mkState c etag now]> m) = Ok out →
  ∃ d', pollOnce unmarshal marshal rnd file key cfg ask onc now interval (mkWorld d [] true) =
    (mkPolled (cfg_Interval cfg) (c :: cs) None, mkWorld d' [] true) ∧
    key_state unmarshal file key d' = Some (mkState c etag now).
Proof.
  intros Hd Hk Hask Honc Hp Hm.
  assert (Load unmarshal file key (mkWorld d [] true) = (Ok st, mkWorld d [] true)) as Hl.
  { cbv [Load mbind os_bind mret os_ret readFile call w_alive w_faults w_disk]. f_equal.
    revert Hk. unfold key_state. destruct (files d !! file) as [[[|x l] s]|]; [by intros [= ->]| |by intros [= ->]].
    destruct (unmarshal (x :: l)) as [m' [e|]]; [done|]. by intros [= ->]. }
  destruct (Save_runs unmarshal marshal rnd file key d m _ _ Hp Hm) as (d' & Hs). exists d'. split.
  { unfold pollOnce, mbind, os_bind. rewrite Hl, Hask, Honc, Hs. done. }
  pose proof (spec_Save unmarshal marshal rnd file key file_visible d (mkState c etag now) (mkWorld d [] true) (same_but_refl _ _ _)) as H.
  rewrite Hs in H. by apply (published_key_state unmarshal marshal file key file_visible codec) in H as [_ ?].
Qed.
End runs.

(** C4: Whatever fails, dies or loses power, on a branch that is one line of commits and only
    grows the watcher names in its state file a commit that a callback that succeeded was given, the file is always
    whole and the interval stays between its bounds.  It never moves past a commit as long
    as no poll finds more new commits than the one page of a hundred that the forge clients
    ask for: from any commit the state has named to the one it names now, each was given to
    a callback that succeeded.  And the watcher catches up: a poll without faults that
    reports commits which the callback takes leaves the state at the branch's tip. *)
Theorem watcher_at_least_once unmarshal marshal rnd file key cfg f hist s0 s1 s :
  ¬ hidden file file →
  (∀ m out, marshal m = Ok out → unmarshal (out ++ [chr 10]) = (Some m, None)) →
  0 < cfg_Interval cfg ≤ cfg_MaxInterval cfg ∧ cfg_MaxInterval cfg < 2 ^ 62 →
  NoDup hist ∧ "" ∉ hist →
  files (dm_disk s0) !! file = None → dm_interval s0 = cfg_Interval cfg → (dm_tip s0 ≤ length hist)%nat →
  rtc (daemon_step unmarshal marshal rnd file key cfg f hist) s0 s1 →
  rtc (daemon_step unmarshal marshal rnd file key cfg f hist) s1 s →
  (∃ st, key_state unmarshal file key (dm_disk s) = Some st ∧ caught_up_to hist s (st_LastSHA st)) ∧
  (∀ st1 i1, key_state unmarshal file key (dm_disk s1) = Some st1 → hist !! i1 = Some (st_LastSHA st1) →
     unbroken_from unmarshal file key hist i1 s) ∧
  intact marshal file (dm_disk s) ∧
  cfg_Interval cfg ≤ dm_interval s ≤ cfg_MaxInterval cfg ∧
  (∀ st tip server (onc : list string → option string) now c cs e, key_state unmarshal file key (dm_disk s) = Some st →
     (dm_tip s ≤ tip ≤ length hist)%nat → serves f (take tip hist) server →
     ListNewCommits server f (st_LastSHA st) (st_LastETag st) = Ok (c :: cs, e, false) → onc (c :: cs) = None →
     (∀ m, parsed unmarshal file (dm_disk s) = Some m → is_ok (marshal (<[key := mkState c e now]> m)) = true) →
     ∃ s' st', daemon_step unmarshal marshal rnd file key cfg f hist s s' ∧ dm_interval s' = cfg_Interval cfg ∧
       key_state unmarshal file key (dm_disk s') = Some st' ∧ hist !! (tip - 1)%nat = Some (st_LastSHA st')).
Proof.
  intros Hfile Hcodec Hcfg Hhist Hnone Hi0 Ht0 Hrun1 Hrun.
  assert (daemon_inv unmarshal marshal file key cfg hist s0) as H0.
  { split; [intros c b; by rewrite Hnone| |lia|done]. exists zeroState. unfold key_state. rewrite Hnone. by split; [|left]. }
  pose proof (daemon_steps_inv _ _ _ _ _ _ _ _ Hfile Hcodec Hcfg Hhist _ _ H0 Hrun1) as H1.
  pose proof (daemon_steps_inv _ _ _ _ _ _ _ _ Hfile Hcodec Hcfg Hhist _ _ H1 Hrun) as [Hint Hst Hbounds Htip].
  split_and!; [done| |done|lia|lia|].
  { intros st1 i1 Hst1 Hi1. eapply (unbroken_steps unmarshal marshal rnd file key cfg f hist Hfile Hcodec Hcfg Hhist _ s1); [done| |done].
    by eapply (unbroken_refl unmarshal marshal file key cfg hist Hhist). }
  intros st tip server onc now c cs e Hk Ht Hs Ha Honc Hm.
  destruct (intact_parsed unmarshal marshal file Hcodec _ Hint) as (m & Hp). specialize (Hm m Hp).
  destruct (marshal (<[key := mkState c e now]> m)) as [out|] eqn:Hout; [|done].
  destruct (pollOnce_runs unmarshal marshal rnd file key cfg Hfile Hcodec (dm_disk s) st m (ListNewCommits server f) onc now (dm_interval s) c cs e out)
    as (d' & Hpoll & Hk'); [done..|].
  destruct (batch_covers f hist Hhist tip server _ _ _ _ _ (proj2 Ht) Hs Ha) as (_ & Htop & _).
  eexists _, (mkState c e now). split_and!; [by apply (step_poll _ _ _ _ _ _ _ _ s [] server onc now tip _ _ Ht Hs Hpoll)|done|exact Hk'|exact Htop].
Qed.

(** A codec for files that hold one key and only its commit. *)
Definition demo_file : path := ["var"; "state.json"].
Definition only (sha : string) : fileShape := {["k" := mkState sha "" 0]}.
Definition demo_marshal (m : fileShape) : result string bytes :=
  let sha := from_option st_LastSHA "" (m !! "k") in
  if decide (m = only sha) then Ok (to_bytes sha) else Err "not representable".
Definition demo_unmarshal (b : bytes) : option fileShape * option string :=
  (Some (only (of_bytes (removelast b))), None).
Definition demo_rnd (_ : disk) (_ : path) (_ : string) : string := "1.tmp".
Definition demo_cfg : Config := normalize (mkConfig 0 0).
Definition demo_start : daemon := mkDaemon (mkDisk ∅ ∅) 60000000000 [] 0 0.
Definition demo_server (branch : list string) (since etag : string) : answer := Listed (newest branch) "".
Definition demo_poll (branch : list string) (faults : list fault) (d : disk) : polled * world :=
  pollOnce demo_unmarshal demo_marshal demo_rnd demo_file "k" demo_cfg (ListNewCommits (demo_server branch) GitHub) (λ _, None) 0 60000000000
    (mkWorld d faults true).
Definition after_poll (hist : list string) (tip : nat) (faults : list fault) (s : daemon) : daemon :=
  let '(p, w) := demo_poll (take tip hist) faults (dm_disk s) in
  mkDaemon (w_disk w) (if w_alive w then po_interval p else cfg_Interval demo_cfg) (dm_processed s ++ po_delivered p) tip
    (dm_behind s `max` new_commits demo_unmarshal demo_file "k" hist tip (dm_disk s)).

Lemma demo_codec m out : demo_marshal m = Ok out → demo_unmarshal (out ++ [chr 10]) = (Some m, None).
Proof.
  unfold demo_marshal, demo_unmarshal. case_decide as H; [|done]. intros [= <-].
  rewrite removelast_last, of_to_bytes. by rewrite H at 2.
Qed.

Lemma demo_step hist tip faults s : dm_interval s = 60000000000 → (dm_tip s ≤ tip ≤ length hist)%nat →
  daemon_step demo_unmarshal demo_marshal demo_rnd demo_file "k" demo_cfg GitHub hist s (after_poll hist tip faults s).
Proof.
  intros Hi Ht. unfold after_poll. destruct (demo_poll _ _ _) as [p w] eqn:E.
  apply (step_poll _ _ _ _ _ _ _ _ s faults (demo_server (take tip hist)) (λ _, None) 0 tip p w); [done|by intros ???? [= <- _]|by rewrite Hi].
Qed.

Definition demo_hist : list string := ["c1"; "c2"; "c3"].
(** Two commits are delivered; then the branch grows, and the poll is killed while it saves,
    after its callback succeeded. *)
Definition demo_s1 : daemon := after_poll demo_hist 2 [] demo_start.
Definition demo_s2 : daemon := after_poll demo_hist 3 [Fine; Fine; Fine; Crash 1] demo_s1.

Lemma watcher_at_least_once_witness :
  dm_processed demo_s2 = ["c2"; "c1"; "c3"] ∧ key_state demo_unmarshal demo_file "k" (dm_disk demo_s2) = Some (mkState "c2" "" 0) ∧
  unbroken_from demo_unmarshal demo_file "k" demo_hist 1 demo_s2 ∧ 60000000000 ≤ dm_interval demo_s2 ≤ 300000000000.
Proof.
  destruct (watcher_at_least_once demo_unmarshal demo_marshal demo_rnd demo_file "k" demo_cfg GitHub demo_hist demo_start demo_s1 demo_s2)
    as (_ & Hu & _ & Hi & _).
  - by intros (s & [=]).
  - exact demo_codec.
  - by vm_compute.
  - split; refine (bool_decide_unpack _ _); vm_compute; exact I.
  - done.
  - done.
  - simpl. lia.
  - apply rtc_once, demo_step; [done|]. simpl. lia.
  - apply rtc_once, demo_step; [by vm_compute|]. vm_compute. lia.
  - split; [by vm_compute|]. split; [by vm_compute|]. split; [|exact Hi]. apply (Hu (mkState "c2" "" 0)); by vm_compute.
Defined.

(** One page: of a hundred and five commits that come at once, the five oldest are never
    delivered, and the state moves past them. *)
Example page_skipped :
  let hist := (λ n, "c" +:+ pretty n) <$> seq 0 107 in
  let s := after_poll hist 107 [] (after_poll hist 2 [] demo_start) in
  key_state demo_unmarshal demo_file "k" (dm_disk s) = Some (mkState "c106" "" 0) ∧ dm_behind s = 105%nat ∧
  filter (λ c, c ∉ dm_processed s) hist = ["c2"; "c3"; "c4"; "c5"; "c6"].
Proof. vm_compute. done. Qed.

(** A callback that keeps failing never makes the watcher wait longer than twice the
    base interval: each poll goes back to the base before it doubles. *)
Example failing_callback_does_not_back_off :
  let '(p, w) := pollOnce demo_unmarshal demo_marshal demo_rnd demo_file "k" demo_cfg (ListNewCommits (demo_server ["c1"; "c2"]) GitHub) (λ _, Some "wedged") 0
    240000000000 (mkWorld (mkDisk ∅ ∅) [] true) in
  po_interval p = 120000000000 ∧ po_delivered p = [] ∧ w_alive w = true.
Proof. vm_compute. done. Qed.
