(* ===== verification/IdentityAuth.v ===== *)
(** * Who is asking

    [internal/auth/registry.go] and the two middlewares of [internal/server] that
    resolve a request's identity: the bearer token's digest in the identity file,
    then the headers of a trusted proxy.  The JSON of the identity file and the
    parsing of addresses are parameters; SHA-256 is computed. *)

From S2P Require Import Prelude Strings Policy Digest.

(** ** The identity file

    An entry with its [tokenEntryIdent] in place. *)

Record tokenEntry := mkTokenEntry {
  te_TokenSHA256 : string;
  te_User : string;
  te_Email : string;
  te_Groups : list string;
}.

Record identityFile := mkIdentityFile { idf_Version : Z; idf_Tokens : list tokenEntry }.

Abbreviation IdentityRegistry := (gmap string Identity).

Inductive LoadError : Type :=
| ErrIdentityFileMissing
| OpenFailed (e : string)
| ReadFailed (e : string)
| TooLarge
| ParseFailed (e : string)
| BadVersion (v : Z)
| BadLength (i : nat) (n : nat)
| BadHex (i : nat)
| NoIdentity (i : nat)
| DuplicateToken (i : nat) (prefix : string).

Definition maxIdentityFileBytes : Z := 10 * 1024 * 1024.

Definition is_hex_byte (c : ascii) : bool := bool_decide (c ∈ to_bytes "0123456789abcdefABCDEF").

(** The hash as the registry keys it. *)
Definition token_hash (t : tokenEntry) : string := ToLower (TrimSpace (te_TokenSHA256 t)).

Definition token_identity (t : tokenEntry) : Identity :=
  mkIdentity (TrimSpace (te_User t)) (TrimSpace (te_Email t)) (te_Groups t) SourceBearer.

(** The [i]-th entry's turn. *)
Definition add_token (i : nat) (reg : IdentityRegistry) (t : tokenEntry) : result LoadError IdentityRegistry :=
  let hash := token_hash t in
  let n := length (to_bytes hash) in
  if decide (n ≠ 64) then Err (BadLength i n)
  else if negb (forallb is_hex_byte (to_bytes hash)) then Err (BadHex i)
  else if decide (te_User t = "" ∧ te_Email t = "") then Err (NoIdentity i)
  else match reg !! hash with
       | Some _ => Err (DuplicateToken i (of_bytes (take 8 (to_bytes hash))))
       | None => Ok (<[hash := token_identity t]> reg)
       end.

Fixpoint add_tokens (i : nat) (reg : IdentityRegistry) (ts : list tokenEntry) : result LoadError IdentityRegistry :=
  match ts with
  | [] => Ok reg
  | t :: ts' => match add_token i reg t with Ok reg' => add_tokens (S i) reg' ts' | Err e => Err e end
  end.

(** What the system says of the path. *)
Inductive opened : Type := NotExists | CannotOpen (e : string) | CannotRead (e : string) | FileContent (b : bytes).

Section load.
Context (unmarshal : bytes → result string identityFile).

(** [LoadIdentityFile]: at most one byte past the cap is read. *)
Definition LoadIdentityFile (f : opened) : result LoadError IdentityRegistry :=
  match f with
  | NotExists => Err ErrIdentityFileMissing
  | CannotOpen e => Err (OpenFailed e)
  | CannotRead e => Err (ReadFailed e)
  | FileContent all =>
      let data := take (Z.to_nat (maxIdentityFileBytes + 1)) all in
      if (maxIdentityFileBytes <? Z.of_nat (length data))%Z then Err TooLarge
      else match unmarshal data with
      | Err e => Err (ParseFailed e)
      | Ok file => if decide (idf_Version file ≠ 1%Z) then Err (BadVersion (idf_Version file)) else add_tokens 0 ∅ (idf_Tokens file)
      end
  end.
End load.

(** The key a presented token has. *)
Definition digest_of (token : string) : string := of_bytes (hex_encode (sha256 (to_bytes token))).

(** [IdentityRegistry.Lookup]; the registry may be nil. *)
Definition Lookup (r : option IdentityRegistry) (token : string) : option Identity :=
  match r with
  | None => None
  | Some tokens => if decide (token = "") then None else tokens !! digest_of token
  end.

(** [IdentityRegistry.Replace] *)
Definition Replace (r other : option IdentityRegistry) : option IdentityRegistry :=
  match r, other with
  | Some _, Some t => Some t
  | _, _ => r
  end.

(** [IdentityRegistry.Size] *)
Definition Size (r : option IdentityRegistry) : nat := match r with Some t => size t | None => 0 end.

(** ** The middlewares *)

Record HttpRequest := mkHttpRequest {
  hr_RemoteAddr : string;
  hr_Authorization : string;
  hr_ForwardedUser : string;
  hr_ForwardedEmail : string;
  hr_ForwardedGroups : string;
}.

(** [extractBearerToken] *)
Definition extractBearerToken (header : string) : string :=
  let scheme := to_bytes "bearer" in
  let l := to_bytes header in
  if decide (length l ≤ length scheme) then ""
  else if decide (lower <$> take (length scheme) l ≠ scheme) then ""
  else match drop (length scheme) l with
       | c :: rest =>
           if decide (c = " "%char ∨ c = chr 9) then TrimLeft (of_bytes (c :: rest)) (" " +:+ String (chr 9) "") else ""
       | [] => ""
       end.

(** [bearerAuth]: what the request's context holds when the next handler runs. *)
Definition bearerAuth (reg : option IdentityRegistry) (r : HttpRequest) (ctx : option Identity) : option Identity :=
  if decide (Size reg = 0) then ctx
  else
    let token := extractBearerToken (hr_Authorization r) in
    if decide (token = "") then ctx
    else match Lookup reg token with Some ident => Some ident | None => ctx end.

(** [net.IPNet], its address and its mask reduced to the same length. *)
Record IPNet := mkIPNet { ipn_IP : list N; ipn_Mask : list N }.

(** [net.IP.To4]: four bytes, or four bytes mapped into sixteen. *)
Definition to4 (ip : list N) : option (list N) :=
  if decide (length ip = 4) then Some ip
  else if decide (length ip = 16 ∧ take 12 ip = [0; 0; 0; 0; 0; 0; 0; 0; 0; 0; 255; 255]%N) then Some (drop 12 ip)
  else None.

(** [net.IPNet.Contains] *)
Definition Contains (n : IPNet) (ip : list N) : bool :=
  let ip := default ip (to4 ip) in
  bool_decide (length ip = length (ipn_IP n)) &&
  bool_decide (zip_with N.land (ipn_IP n) (ipn_Mask n) = zip_with N.land ip (ipn_Mask n)).

Section headers.
(** [net.SplitHostPort] and [net.ParseIP]. *)
Context (SplitHostPort : string → option string) (ParseIP : string → option (list N)).

(** [sourceIPIsTrusted] *)
Definition sourceIPIsTrusted (r : HttpRequest) (cidrs : list IPNet) : bool :=
  match ParseIP (default (hr_RemoteAddr r) (SplitHostPort (hr_RemoteAddr r))) with
  | None => false
  | Some ip => existsb (λ c, Contains c ip) cidrs
  end.

Definition nonblank_parts (s : string) (c : ascii) : list string := filter (λ p, p ≠ "") (TrimSpace <$> Split s c).

(** [identityFromHeaders] *)
Definition identityFromHeaders (r : HttpRequest) : option Identity :=
  let user := TrimSpace (hr_ForwardedUser r) in
  let email := TrimSpace (hr_ForwardedEmail r) in
  if decide (user = "" ∧ email = "") then None
  else Some (mkIdentity user email
    (if decide (hr_ForwardedGroups r = "") then [] else nonblank_parts (hr_ForwardedGroups r) ","%char) SourceHeader).

(** [headerAuth] *)
Definition headerAuth (cidrs : list IPNet) (r : HttpRequest) (ctx : option Identity) : option Identity :=
  let (existing, ok) := FromContext ctx in
  if ok && IsAuthenticated existing then ctx
  else match cidrs with
       | [] => ctx
       | _ => if sourceIPIsTrusted r cidrs then
                match identityFromHeaders r with Some id => Some id | None => ctx end
              else ctx
       end.

(** [ParseTrustedProxyCIDRs] *)
Definition ParseTrustedProxyCIDRs (ParseCIDR : string → result string IPNet) (raw : string) : result string (list IPNet) :=
  foldl (λ out s, match out with
                  | Err e => Err e
                  | Ok l => match ParseCIDR s with Err e => Err e | Ok c => Ok (l ++ [c]) end
                  end) (Ok []) (nonblank_parts raw ","%char).

(** The chain of [NewWithOptions]: bearer first, then headers. *)
Definition resolve (reg : option IdentityRegistry) (cidrs : list IPNet) (r : HttpRequest) : Identity :=
  (FromContext (headerAuth cidrs r (bearerAuth reg r None))).1.
End headers.

(** ** The registry *)

Definition entry_ok (t : tokenEntry) : Prop :=
  length (to_bytes (token_hash t)) = 64 ∧ Forall (λ c, is_hex_byte c = true) (to_bytes (token_hash t)) ∧
  (te_User t ≠ "" ∨ te_Email t ≠ "").

Lemma add_token_ok i reg t reg' :
  add_token i reg t = Ok reg' ↔
  entry_ok t ∧ reg !! token_hash t = None ∧ reg' = <[token_hash t := token_identity t]> reg.
Proof.
  unfold add_token, entry_ok. destruct (decide _) as [Hn|Hn]; [naive_solver|].
  destruct (forallb is_hex_byte (to_bytes (token_hash t))) eqn:Hh; simpl.
  2:{ split; [done|]. intros ((_ & H & _) & _). apply forallb_Forall_true in H. congruence. }
  apply forallb_Forall_true in Hh.
  destruct (decide (te_User t = "" ∧ te_Email t = "")) as [Hi|Hi]; [naive_solver|].
  assert (te_User t ≠ "" ∨ te_Email t ≠ "") as Hi' by (destruct (decide (te_User t = "")); naive_solver).
  assert (length (to_bytes (token_hash t)) = 64) as Hn' by (destruct (decide (length (to_bytes (token_hash t)) = 64)); tauto).
  destruct (reg !! token_hash t); [naive_solver|]. split; [intros [= <-]; auto|by intros (_ & _ & ->)].
Qed.

(** The file's entries become the registry when each is well formed and no hash
    appears twice, and only then. *)
Lemma add_tokens_ok i reg ts reg' :
  add_tokens i reg ts = Ok reg' ↔
  Forall entry_ok ts ∧ NoDup (token_hash <$> ts) ∧ (∀ t, t ∈ ts → reg !! token_hash t = None) ∧
  reg' = foldl (λ m t, <[token_hash t := token_identity t]> m) reg ts.
Proof.
  revert i reg. induction ts as [|t ts IH]; intros i reg; simpl.
  { split; [intros [= <-]|by intros (_ & _ & _ & ->)].
    split_and!; [constructor|constructor| |done]. intros t Ht. by apply elem_of_nil in Ht. }
  rewrite Forall_cons, NoDup_cons. split.
  - destruct (add_token i reg t) as [reg1|] eqn:E; [|done]. apply add_token_ok in E as (Ht & Hn & ->).
    intros (Hts & Hnd & Hfresh & ->)%IH.
    assert (token_hash t ∉ token_hash <$> ts) as Hnew.
    { intros (u & Hu & Hin)%list_elem_of_fmap. specialize (Hfresh u Hin). by rewrite <-Hu, lookup_insert_eq in Hfresh. }
    split_and!; auto. intros u [->|Hu]%elem_of_cons; [done|].
    specialize (Hfresh u Hu). rewrite lookup_insert_ne in Hfresh; [done|].
    intros He. apply Hnew. rewrite He. by apply list_elem_of_fmap_2.
  - intros ([Ht Hts] & [Hnew Hnd] & Hfresh & ->).
    rewrite (proj2 (add_token_ok i reg t _)) by (split_and!; [done|apply Hfresh; by left|done]).
    apply IH. split_and!; [done..| |done]. intros u Hu. rewrite lookup_insert_ne; [apply Hfresh; by right|].
    intros He. apply Hnew. rewrite He. by apply list_elem_of_fmap_2.
Qed.

Lemma add_tokens_lookup ts reg h id :
  add_tokens 0 ∅ ts = Ok reg → reg !! h = Some id ↔ ∃ t, t ∈ ts ∧ token_hash t = h ∧ token_identity t = id.
Proof. intros (_ & Hnd & _ & ->)%add_tokens_ok. by apply (lookup_map_of_iff token_hash token_identity). Qed.

(** What a load that succeeds has read. *)
Lemma load_ok unmarshal f reg :
  LoadIdentityFile unmarshal f = Ok reg →
  ∃ data file, f = FileContent data ∧ (Z.of_nat (length data) ≤ maxIdentityFileBytes)%Z ∧ unmarshal data = Ok file ∧
    idf_Version file = 1%Z ∧ add_tokens 0 ∅ (idf_Tokens file) = Ok reg.
Proof.
  unfold LoadIdentityFile. destruct f as [| | |all]; try done.
  destruct (maxIdentityFileBytes <? _)%Z eqn:Hlen; [done|]. apply Z.ltb_ge in Hlen.
  assert (length all ≤ Z.to_nat (maxIdentityFileBytes + 1)) as Hle.
  { rewrite length_take in Hlen. unfold maxIdentityFileBytes in *. lia. }
  rewrite take_ge in Hlen |- * by done.
  destruct (unmarshal all) as [file|] eqn:E; [|done]. case_decide as Hv; [done|]. intros H.
  exists all, file. by split_and!.
Qed.

(** A file that exists loads exactly when it is within the cap, parses, has version 1
    and lists well-formed entries with distinct hashes; a presented token is then
    accepted exactly when its SHA-256 digest is the hash of an entry, in whatever case
    the entry spells it, and it stands for that entry's identity. *)
Theorem token_accepted unmarshal data token :
  (Z.of_nat (length data) ≤ maxIdentityFileBytes)%Z →
  match unmarshal data with
  | Ok file =>
      (is_ok (LoadIdentityFile unmarshal (FileContent data)) = true ↔
         idf_Version file = 1%Z ∧ Forall entry_ok (idf_Tokens file) ∧ NoDup (token_hash <$> idf_Tokens file)) ∧
      (∀ reg id, LoadIdentityFile unmarshal (FileContent data) = Ok reg →
         Lookup (Some reg) token = Some id ↔
         token ≠ "" ∧ ∃ t, t ∈ idf_Tokens file ∧ token_hash t = digest_of token ∧ token_identity t = id)
  | Err _ => is_ok (LoadIdentityFile unmarshal (FileContent data)) = false
  end.
Proof.
  intros Hlen.
  assert (LoadIdentityFile unmarshal (FileContent data) =
    match unmarshal data with
    | Err e => Err (ParseFailed e)
    | Ok file => if decide (idf_Version file ≠ 1%Z) then Err (BadVersion (idf_Version file)) else add_tokens 0 ∅ (idf_Tokens file)
    end) as ->.
  { unfold LoadIdentityFile. rewrite take_ge by (unfold maxIdentityFileBytes in *; lia).
    by rewrite (proj2 (Z.ltb_ge _ _) Hlen). }
  destruct (unmarshal data) as [file|]; [|done]. split.
  - case_decide as Hv; [naive_solver|].
    assert (idf_Version file = 1%Z) as Hv' by (destruct (decide (idf_Version file = 1%Z)); tauto).
    destruct (add_tokens 0 ∅ (idf_Tokens file)) as [reg|e] eqn:E; simpl.
    + apply add_tokens_ok in E. split; [intros _; naive_solver|done].
    + split; [done|]. intros (_ & Hts & Hnd).
      assert (add_tokens 0 ∅ (idf_Tokens file) = Ok (foldl (λ m t, <[token_hash t := token_identity t]> m) ∅ (idf_Tokens file)))
        as E'; [|congruence]. apply add_tokens_ok. by split_and!.
  - intros reg id H. case_decide; [done|]. unfold Lookup. case_decide as Ht; [naive_solver|].
    rewrite (add_tokens_lookup _ _ _ _ H). naive_solver.
Qed.

(** ** The request's identity *)

(** What the request proves: the identity of a registered token it presents, or what a
    trusted proxy says of it. *)
Definition bearer_proof (reg : option IdentityRegistry) (r : HttpRequest) : option Identity :=
  Lookup reg (extractBearerToken (hr_Authorization r)).

Definition header_proof (SplitHostPort : string → option string) (ParseIP : string → option (list N))
    (cidrs : list IPNet) (r : HttpRequest) : option Identity :=
  if sourceIPIsTrusted SplitHostPort ParseIP r cidrs then identityFromHeaders r else None.

Lemma bearerAuth_spec reg r ctx :
  bearerAuth reg r ctx = match bearer_proof reg r with Some id => Some id | None => ctx end.
Proof.
  unfold bearerAuth, bearer_proof, Lookup. destruct reg as [tokens|]; simpl; [|done].
  destruct (decide (size tokens = 0)) as [Hs|Hs].
  - apply map_size_empty_inv in Hs as ->. case_decide; [done|]. by rewrite lookup_empty.
  - by case_decide.
Qed.

Lemma registry_authenticated reg r id :
  (∀ h i, from_option (λ t : IdentityRegistry, t !! h) None reg = Some i → id_Source i = SourceBearer) →
  bearer_proof reg r = Some id → IsAuthenticated id = true.
Proof.
  intros Hreg. unfold bearer_proof, Lookup. destruct reg as [tokens|]; [|done]. case_decide; [done|].
  intros Hs%Hreg. unfold IsAuthenticated. by rewrite Hs.
Qed.

Lemma identityFromHeaders_authenticated r id : identityFromHeaders r = Some id → IsAuthenticated id = true.
Proof. unfold identityFromHeaders. case_decide; [done|]. by intros [= <-]. Qed.

Lemma resolve_spec SplitHostPort ParseIP reg cidrs r :
  (∀ h i, from_option (λ t : IdentityRegistry, t !! h) None reg = Some i → id_Source i = SourceBearer) →
  resolve SplitHostPort ParseIP reg cidrs r =
  match bearer_proof reg r with
  | Some id => id
  | None => default Anonymous (header_proof SplitHostPort ParseIP cidrs r)
  end.
Proof.
  intros Hreg. unfold resolve, headerAuth. rewrite bearerAuth_spec.
  destruct (bearer_proof reg r) as [id|] eqn:Hb.
  - simpl. by rewrite (registry_authenticated _ _ _ Hreg Hb).
  - unfold header_proof. simpl. destruct cidrs as [|c cidrs].
    + unfold sourceIPIsTrusted. by destruct (ParseIP _).
    + destruct (sourceIPIsTrusted _ _ r (c :: cidrs)); [|done]. by destruct (identityFromHeaders r).
Qed.

Lemma loaded_sources unmarshal f reg :
  LoadIdentityFile unmarshal f = Ok reg →
  ∀ h i, from_option (λ t : IdentityRegistry, t !! h) None (Some reg) = Some i → id_Source i = SourceBearer.
Proof.
  intros (data & file & _ & _ & _ & _ & H)%load_ok h i Hi.
  by apply (add_tokens_lookup _ _ _ _ H) in Hi as (t & _ & _ & <-).
Qed.

(** C8: No request opens a group's gate on its own word.  When the policy admits a
    request to an action gated by [group:g], either the request carries a bearer token
    whose SHA-256 digest is in the identity file, in an entry that lists [g], or it
    carries no registered token, comes from an address within a trusted range, and the
    proxy's headers name a user and list [g]. *)
Theorem group_access unmarshal f reg SplitHostPort ParseIP cidrs r pol action g :
  LoadIdentityFile unmarshal f = Ok reg →
  auth_Actions (pol_Auth pol) !! action = Some ("group:" +:+ g) → g ≠ "" →
  Allow (Some pol) (resolve SplitHostPort ParseIP (Some reg) cidrs r) action = true →
  (∃ data file t, f = FileContent data ∧ unmarshal data = Ok file ∧ t ∈ idf_Tokens file ∧ g ∈ te_Groups t ∧
     extractBearerToken (hr_Authorization r) ≠ "" ∧
     ToLower (TrimSpace (te_TokenSHA256 t)) = digest_of (extractBearerToken (hr_Authorization r))) ∨
  (bearer_proof (Some reg) r = None ∧
   (∃ ip c, ParseIP (default (hr_RemoteAddr r) (SplitHostPort (hr_RemoteAddr r))) = Some ip ∧ c ∈ cidrs ∧ Contains c ip = true) ∧
   (TrimSpace (hr_ForwardedUser r) ≠ "" ∨ TrimSpace (hr_ForwardedEmail r) ≠ "") ∧
   g ∈ nonblank_parts (hr_ForwardedGroups r) ","%char).
Proof.
  intros Hload Hgate Hg Hallow.
  assert (g ∈ id_Groups (resolve SplitHostPort ParseIP (Some reg) cidrs r)) as Hin.
  { apply Allow_iff' in Hallow as (p & gate & [= <-] & E & Hgr). rewrite Hgate in E. injection E as <-.
    apply gate_grants_inv in Hgr as [?|[[? _]|(g' & ? & E' & _ & ?)]]; [done..|]. by apply (inj _) in E' as ->. }
  clear Hallow. rewrite (resolve_spec _ _ _ _ _ (loaded_sources _ _ _ Hload)) in Hin.
  destruct (bearer_proof (Some reg) r) as [id|] eqn:Hb.
  - left. destruct (load_ok _ _ _ Hload) as (data & file & -> & _ & Hu & _ & Hadd).
    unfold bearer_proof, Lookup in Hb. destruct (decide (extractBearerToken (hr_Authorization r) = "")); [done|].
    apply (add_tokens_lookup _ _ _ _ Hadd) in Hb as (t & Ht & Hh & <-). exists data, file, t. by split_and!.
  - right. split; [done|]. unfold header_proof, sourceIPIsTrusted in Hin.
    destruct (ParseIP _) as [ip|] eqn:Hip; [|by apply elem_of_nil in Hin].
    destruct (existsb (λ c, Contains c ip) cidrs) eqn:He; [|by apply elem_of_nil in Hin].
    apply existsb_exists in He as (c & Hc%list_elem_of_In & Hcon).
    unfold identityFromHeaders in Hin. case_decide as Hn; [by apply elem_of_nil in Hin|]. simpl in Hin.
    split_and!; [by exists ip, c| |].
    + destruct (decide (TrimSpace (hr_ForwardedUser r) = "")); [right|left]; naive_solver.
    + case_decide; [by apply elem_of_nil in Hin|done].
Qed.

(** The identity is exactly what the request proves: that of a registered token if it
    presents one, else what a trusted proxy's headers say, else nobody; and it counts
    as authenticated only in the first two cases. *)
Theorem identity_resolution unmarshal f reg SplitHostPort ParseIP cidrs r :
  LoadIdentityFile unmarshal f = Ok reg →
  let id := resolve SplitHostPort ParseIP (Some reg) cidrs r in
  (∀ b, bearer_proof (Some reg) r = Some b → id = b ∧ id_Source id = SourceBearer) ∧
  (∀ h, bearer_proof (Some reg) r = None → header_proof SplitHostPort ParseIP cidrs r = Some h →
     id = h ∧ id_Source id = SourceHeader) ∧
  (bearer_proof (Some reg) r = None → header_proof SplitHostPort ParseIP cidrs r = None → id = Anonymous) ∧
  (IsAuthenticated id = true ↔
     is_Some (bearer_proof (Some reg) r) ∨ is_Some (header_proof SplitHostPort ParseIP cidrs r)).
Proof.
  intros Hload. cbn zeta. pose proof (loaded_sources _ _ _ Hload) as Hsrc.
  rewrite (resolve_spec _ _ _ _ _ Hsrc).
  assert (∀ h, header_proof SplitHostPort ParseIP cidrs r = Some h → IsAuthenticated h = true ∧ id_Source h = SourceHeader) as Hh.
  { intros h. unfold header_proof. destruct (sourceIPIsTrusted _ _ r cidrs); [|done].
    intros H. split; [by eapply identityFromHeaders_authenticated|]. revert H. unfold identityFromHeaders.
    case_decide; [done|]. by intros [= <-]. }
  destruct (bearer_proof (Some reg) r) as [b|] eqn:Hb.
  - pose proof (registry_authenticated _ _ _ Hsrc Hb) as Ha. split_and!; try done.
    + intros ? [= <-]. split; [done|]. unfold bearer_proof, Lookup in Hb.
      destruct (decide (extractBearerToken (hr_Authorization r) = "")); [done|]. by apply Hsrc in Hb.
    + split; [by left; eexists|done].
  - split_and!; try done.
    + intros h _ Hp. rewrite Hp. split; [done|]. by apply Hh.
    + by intros _ ->.
    + destruct (header_proof _ _ cidrs r) as [h|]; simpl.
      * split; [by right; eexists|]. intros _. by apply Hh.
      * split; [done|]. by intros [[? [=]]|[? [=]]].
Qed.

(** ** Examples *)

Definition demo_token : string := "secret".
Definition demo_entry : tokenEntry := mkTokenEntry (" " +:+ digest_of demo_token) "ci" "" ["submit"].
Definition demo_ids (b : bytes) : result string identityFile :=
  match b with [] => Err "unexpected end of JSON input" | _ => Ok (mkIdentityFile 1 [demo_entry]) end.
Definition demo_registry : IdentityRegistry := {[digest_of demo_token := mkIdentity "ci" "" ["submit"] SourceBearer]}.
Definition demo_net : IPNet := mkIPNet [10; 0; 0; 0]%N [255; 0; 0; 0]%N.
Definition demo_split (a : string) : option string := Some a.
Definition demo_ip (a : string) : option (list N) :=
  if decide (a = "proxy") then Some [10; 1; 2; 3]%N else if decide (a = "outside") then Some [11; 1; 2; 3]%N else None.

Lemma demo_load : LoadIdentityFile demo_ids (FileContent [chr 123]) = Ok demo_registry.
Proof. vm_compute. reflexivity. Qed.

Lemma token_accepted_witness :
  Lookup (Some demo_registry) demo_token = Some (mkIdentity "ci" "" ["submit"] SourceBearer) ∧
  demo_token ≠ "" ∧ ∃ t, t ∈ [demo_entry] ∧ token_hash t = digest_of demo_token ∧
    token_identity t = mkIdentity "ci" "" ["submit"] SourceBearer.
Proof.
  assert (Lookup (Some demo_registry) demo_token = Some (mkIdentity "ci" "" ["submit"] SourceBearer)) as H
    by (vm_compute; reflexivity).
  split; [exact H|].
  destruct (token_accepted demo_ids [chr 123] demo_token) as [_ Hl]; [vm_compute; discriminate|].
  by apply (Hl demo_registry (mkIdentity "ci" "" ["submit"] SourceBearer) demo_load).
Defined.

(** A forged header from outside is ignored; from the proxy it is believed; and a token
    wins over both. *)
Definition forged (from : string) (auth : string) : HttpRequest := mkHttpRequest from auth "eve" "" "submit, admin".

Lemma identity_resolution_witness :
  resolve demo_split demo_ip (Some demo_registry) [demo_net] (forged "outside" "") = Anonymous ∧
  id_User (resolve demo_split demo_ip (Some demo_registry) [demo_net] (forged "proxy" "")) = "eve" ∧
  resolve demo_split demo_ip (Some demo_registry) [demo_net] (forged "outside" "BEARER  secret") =
    mkIdentity "ci" "" ["submit"] SourceBearer.
Proof.
  destruct (identity_resolution demo_ids (FileContent [chr 123]) demo_registry demo_split demo_ip [demo_net]
    (forged "outside" "") demo_load) as (_ & _ & H1 & _).
  destruct (identity_resolution demo_ids (FileContent [chr 123]) demo_registry demo_split demo_ip [demo_net]
    (forged "outside" "BEARER  secret") demo_load) as (H3 & _).
  split_and!; [apply H1; vm_compute; reflexivity|vm_compute; reflexivity|apply H3; vm_compute; reflexivity].
Defined.

Definition demo_gates : Policy :=
  mkPolicy 1 "open" (mkAuth {["submit" := "group:submit"]} (mkAnonymousAbuse "" "" false) "" 0 "")
    (pol_Admission zeroPolicy) (pol_Naming zeroPolicy) (pol_Maintainers zeroPolicy)
    (pol_Audit zeroPolicy) (pol_MCP zeroPolicy) (pol_Git zeroPolicy) (pol_Content zeroPolicy)
    (pol_Seed zeroPolicy).

Lemma group_access_witness :
  let r := forged "outside" "Bearer secret" in
  Allow (Some demo_gates) (resolve demo_split demo_ip (Some demo_registry) [demo_net] r) "submit" = true ∧
  ((∃ data file t, FileContent [chr 123] = FileContent data ∧ demo_ids data = Ok file ∧ t ∈ idf_Tokens file ∧ "submit" ∈ te_Groups t ∧
     extractBearerToken (hr_Authorization r) ≠ "" ∧
     ToLower (TrimSpace (te_TokenSHA256 t)) = digest_of (extractBearerToken (hr_Authorization r))) ∨
   bearer_proof (Some demo_registry) r = None).
Proof.
  cbn zeta. assert (Allow (Some demo_gates)
    (resolve demo_split demo_ip (Some demo_registry) [demo_net] (forged "outside" "Bearer secret")) "submit" = true) as H
    by (vm_compute; reflexivity).
  split; [exact H|].
  destruct (group_access demo_ids (FileContent [chr 123]) demo_registry demo_split demo_ip [demo_net]
    (forged "outside" "Bearer secret") demo_gates "submit" "submit" demo_load) as [H'|H'].
  - vm_compute. reflexivity.
  - discriminate.
  - exact H.
  - by left.
  - right. exact (proj1 H').
Defined.

(** An entry whose names are blank loads, where the headers of a proxy would be
    refused: the token then stands for an authenticated identity without a name. *)
Example blank_identity :
  match add_token 0 ∅ (mkTokenEntry (digest_of demo_token) " " "" []) with
  | Ok reg => ∃ id, reg !! digest_of demo_token = Some id ∧ DisplayName id = "" ∧ IsAuthenticated id = true
  | Err _ => False
  end.
Proof. vm_compute. eexists. split_and!; reflexivity. Qed.
