(* ===== verification/Egress.v ===== *)
(** * What leaves the network

    [internal/egress] (mode, policy, transport, audit events) and the registry client of
    [internal/fetch] that runs on it.  The parsing and printing of URLs, JSON, the
    clock, the call stack and the network's answers are parameters; the redirect loop
    is that of [http.Client]. *)

From stdpp Require Import pretty.
From S2P Require Import Prelude Strings.

(** ** The mode *)

(** An [int] in the source; other values than the three are possible. *)
Definition Mode : Type := Z.
Definition ModeAllow : Mode := 0%Z.
Definition ModeDeny : Mode := 1%Z.
Definition ModeAudit : Mode := 2%Z.

(** [Mode.String] *)
Definition Mode_String (m : Mode) : string :=
  if (m =? ModeAllow)%Z then "allow"
  else if (m =? ModeDeny)%Z then "deny"
  else if (m =? ModeAudit)%Z then "audit"
  else "mode(" +:+ pretty (m : Z) +:+ ")".

Definition ParseMode (s : string) : result string Mode :=
  if decide (s = "allow") then Ok ModeAllow
  else if decide (s = "deny") then Ok ModeDeny
  else if decide (s = "audit") then Ok ModeAudit
  else Err ("unknown egress mode " +:+ dq +:+ s +:+ dq +:+ " (valid: allow, deny, audit)").

(** ** Errors of a request *)

Inductive FetchErr : Type :=
| ErrEgressForbidden (detail : string)
| ErrEgressDenied (u : string)
| BadURL (e : string)
| Transport (e : string)
| TooManyRedirects
| BadLocation (e : string)
| ErrNotFound
| HTTPStatus (code : Z)
| UnexpectedContentType (ct : string)
| BodyError (e : string)
| ErrResponseTooLarge
| BadJSON (e : string).

(** ** The line of the caller *)

(** [intStr]: the digits go from the end of a buffer of twenty bytes towards its start;
    [room] is the index of the last one written.  [None] is an index out of range. *)
Fixpoint int_digits (room : nat) (n : Z) (buf : bytes) : option (nat * bytes) :=
  if (0 <? n)%Z then
    match room with
    | O => None
    | S room' => int_digits room' (n / 10)%Z (chr (48 + Z.to_nat (n `mod` 10)) :: buf)
    end
  else Some (room, buf).

Definition intStr (n : Z) : option string :=
  if (n =? 0)%Z then Some "0"
  else
    let neg := (n <? 0)%Z in
    let n := if neg then wrap64 (- n) else n in
    match int_digits 20 n [] with
    | None => None
    | Some (room, buf) =>
        if neg then match room with O => None | S _ => Some (of_bytes ("-"%char :: buf)) end
        else Some (of_bytes buf)
    end.

(** What [runtime.CallersFrames] yields for a frame. *)
Record Frame := mkFrame { fr_Function : string; fr_File : string; fr_Line : Z }.

Definition isFrameSkipped (name : string) : bool :=
  HasPrefix name "net/http" || ContainsStr name "/bzlhub/internal/egress.".

Definition shortFile (path : string) : string :=
  match after_last "/bzlhub/" path with
  | Some rest => rest
  | None => match after_last "/" path with Some rest => rest | None => path end
  end.

(** [callerStack]; [None] is the panic of [intStr]. *)
Fixpoint callerStack (frames : list Frame) : option string :=
  match frames with
  | [] => Some ""
  | f :: rest =>
      if isFrameSkipped (fr_Function f) then callerStack rest
      else match intStr (fr_Line f) with
           | Some n => Some (shortFile (fr_File f) +:+ ":" +:+ n)
           | None => None
           end
  end.

(** [redactURL] *)
Definition redactURL (u : string) : string :=
  match cut_str (to_bytes "://") (to_bytes u) with
  | None => u
  | Some (scheme, rest) =>
      match cut_at "@"%char rest with
      | None => u
      | Some (_, after) => of_bytes (scheme ++ to_bytes "://" ++ after)
      end
  end.

(** ** Patterns of hosts *)

Definition normal (pattern : string) : string := ToLower (TrimSpace pattern).

(** ["*."] and a suffix: every host that ends in the suffix with its dot. *)
Definition wildcard (pattern host : string) : bool :=
  HasPrefix pattern "*." && HasSuffix host (of_bytes (drop 1 (to_bytes pattern))).

Definition match_host (pattern host : string) : bool :=
  bool_decide (pattern = host) || wildcard pattern host.

Record EgressPolicy := mkEgressPolicy { ep_Mode : Mode; ep_Allow : list string }.

Record AuditEvent := mkAuditEvent {
  ev_TS : Z;
  ev_Kind : string;
  ev_Verb : string;
  ev_Host : string;
  ev_URL : string;
  ev_Outcome : string;
  ev_Reason : string;
  ev_Stack : string;
  ev_BytesIn : Z;
  ev_Duration : Z;
}.

(** [NopSink], or a sink that keeps what it is given. *)
Inductive Sink : Type := NopSink | Recording.

(** The body a response carries: its bytes, and how it ends. *)
Record Body := mkBody { bd_data : bytes; bd_fail : option string }.

Record Response := mkResponse {
  rs_StatusCode : Z;
  rs_ContentType : string;
  rs_Location : string;
  rs_ContentLength : Z;
  rs_Body : Body;
}.

(** ** Bodies *)

Definition MaxJSONResponseBytes : Z := 16 * 1024 * 1024.

(** [readAllCapped]: the limited reader stops one byte past the cap, before it sees how
    the body ends. *)
Definition readAllCapped (r : Body) (maxBytes : Z) : result FetchErr bytes :=
  let limit := Z.to_nat (maxBytes + 1) in
  let body := take limit (bd_data r) in
  match (if decide (limit ≤ length (bd_data r)) then None else bd_fail r) with
  | Some e => Err (BodyError e)
  | None => if (maxBytes <? Z.of_nat (length body))%Z then Err ErrResponseTooLarge else Ok body
  end.

(** The media type [getJSON] looks at: what precedes the first semicolon. *)
Definition mediaType (ct : string) : string :=
  TrimSpace (ToLower (match cut_at ";"%char (to_bytes ct) with Some (a, _) => of_bytes a | None => ct end)).

Definition unwanted (ct : string) : bool :=
  let mt := mediaType ct in ContainsStr mt "html" || ContainsStr mt "xml".

Section egress.
Context {URL : Type}.
(** [url.URL]'s [String] and [Hostname], [url.Parse], the resolution of a [Location]
    and [URL.JoinPath]. *)
Context (URL_String URL_Hostname : URL → string) (url_Parse : string → result string URL).
Context (ResolveReference : URL → string → result string URL) (JoinPath : URL → list string → URL).
(** The network: its answer to a request after those it has seen. *)
Context (network : list URL → URL → result string Response).
(** The clock's readings, and the frames above the transport. *)
Context (Now : nat → Z) (frames : list Frame).

(** [Policy.Check]; the request and its URL may be nil. *)
Definition Check_url (p : EgressPolicy) (req : option (option URL)) : option FetchErr :=
  match req with
  | None | Some None => Some (ErrEgressForbidden "nil request or URL")
  | Some (Some u) =>
      let host := URL_Hostname u in
      if (ep_Mode p =? ModeDeny)%Z then
        Some (ErrEgressForbidden ("profile denies all egress (host=" +:+ host +:+ ")"))
      else if decide (ep_Allow p = []) then None
      else
        let host := ToLower host in
        if existsb (λ pattern, match_host (normal pattern) host) (ep_Allow p) then None
        else Some (ErrEgressForbidden ("host " +:+ host +:+ " not in allowlist"))
  end.

(** [hostAllowed] of [internal/fetch] *)
Definition hostAllowed (rawURL : string) (allowedHosts : list string) : bool :=
  if decide (allowedHosts = []) then true
  else match url_Parse rawURL with
       | Err _ => false
       | Ok u =>
           let host := ToLower (URL_Hostname u) in
           if decide (host = "") then false
           else existsb (λ pattern, let pat := normal pattern in
                                    if decide (pat = "") then false else match_host pat host) allowedHosts
       end.

Definition ParseAllowedHosts (csv : string) : list string :=
  if decide (TrimSpace csv = "") then [] else filter (λ p, p ≠ "") (TrimSpace <$> Split csv ","%char).

(** What the process has done: the requests the network saw, the events the sink was
    given, the readings of the clock. *)
Record wire := mkWire { w_sent : list URL; w_events : list AuditEvent; w_ticks : nat }.

Definition tick (s : wire) : Z * wire := (Now (w_ticks s), mkWire (w_sent s) (w_events s) (S (w_ticks s))).
Definition Emit (ev : AuditEvent) (s : wire) : wire := mkWire (w_sent s) (w_events s ++ [ev]) (w_ticks s).

(** [http.DefaultTransport] *)
Definition base_RoundTrip (u : URL) (s : wire) : result FetchErr Response * wire :=
  (map_err Transport (network (w_sent s) u), mkWire (w_sent s ++ [u]) (w_events s) (w_ticks s)).

(** [allowlistTransport.RoundTrip] *)
Definition allowlist_RoundTrip (allowedHosts : list string) (u : URL) (s : wire) : result FetchErr Response * wire :=
  if negb (hostAllowed (URL_String u) allowedHosts) then (Err (ErrEgressDenied (URL_String u)), s) else base_RoundTrip u s.

(** [err.Error()], as far as the audit log keeps it. *)
Definition err_text (e : FetchErr) : string :=
  match e with
  | ErrEgressForbidden d => "egress forbidden by policy: " +:+ d
  | ErrEgressDenied u => "GET " +:+ u +:+ ": egress: destination host not in allowlist"
  | Transport m | BadURL m | BadLocation m => m
  | _ => ""
  end.

Definition denialReason (e : FetchErr) : string :=
  match e with ErrEgressForbidden _ => "egress-policy-deny" | _ => err_text e end.

(** Every request of the registry client is a GET; [httpVerb] lowers its method. *)
Definition httpVerb (method : string) : string := "http-" +:+ ToLower method.

Definition emitDenial (sink : Sink) (u : URL) (e : FetchErr) (s : wire) : wire :=
  match sink with
  | NopSink => s
  | Recording =>
      let (ts, s) := tick s in
      Emit (mkAuditEvent ts "egress" (httpVerb "GET") (URL_Hostname u) (redactURL (URL_String u)) "denied"
        (denialReason e) (default "" (callerStack frames)) 0 0) s
  end.

Definition emitOutcome (sink : Sink) (u : URL) (r : result FetchErr Response) (dur : Z) (s : wire) : wire :=
  match sink with
  | NopSink => s
  | Recording =>
      let (ts, s) := tick s in
      let ev outcome reason bytesIn :=
        mkAuditEvent ts "egress" (httpVerb "GET") (URL_Hostname u) (redactURL (URL_String u)) outcome reason "" bytesIn dur in
      Emit (match r with
            | Err e => ev "error" (err_text e) 0%Z
            | Ok resp => ev "ok" "" (rs_ContentLength resp)
            end) s
  end.

(** [policyTransport.RoundTrip] around [inner]. *)
Definition policy_RoundTrip (p : EgressPolicy) (sink : Sink) (inner : URL → wire → result FetchErr Response * wire)
    (u : URL) (s : wire) : result FetchErr Response * wire :=
  match Check_url p (Some (Some u)) with
  | Some e => (Err e, emitDenial sink u e s)
  | None =>
      let (start, s) := tick s in
      let (r, s) := inner u s in
      let (stop, s) := tick s in
      (r, if (ep_Mode p =? ModeAudit)%Z then emitOutcome sink u r (stop - start) s else s)
  end.

(** ** The registry client *)

(** The process-wide policy, sink and allowlist a client is built from. *)
Record Client := mkClient { c_policy : EgressPolicy; c_sink : Sink; c_transport_hosts : list string; c_AllowedHosts : list string }.

(** [NewClient], after [ConfigureDefault] and [SetDefaultAllowedHosts]: the slices are
    copied, so later changes of the defaults do not reach the client. *)
Definition NewClient (p : EgressPolicy) (sink : Sink) (allowed : list string) : Client := mkClient p sink allowed allowed.

Definition client_RoundTrip (c : Client) : URL → wire → result FetchErr Response * wire :=
  policy_RoundTrip (c_policy c) (c_sink c) (allowlist_RoundTrip (c_transport_hosts c)).

Definition is_redirect (code : Z) : bool := bool_decide (code ∈ [301; 302; 303; 307; 308]%Z).

(** [http.Client.Do] on a GET: at most [n] requests, each through [rt]. *)
Fixpoint follow (rt : URL → wire → result FetchErr Response * wire) (n : nat) (u : URL) (s : wire) :
    result FetchErr Response * wire :=
  match n with
  | O => (Err TooManyRedirects, s)
  | S n' =>
      match rt u s with
      | (Err e, s) => (Err e, s)
      | (Ok resp, s) =>
          if is_redirect (rs_StatusCode resp) && negb (bool_decide (rs_Location resp = "")) then
            match ResolveReference u (rs_Location resp) with
            | Err e => (Err (BadLocation e), s)
            | Ok u' => follow rt n' u' s
            end
          else (Ok resp, s)
      end
  end.

Definition maxHops : nat := 10.

(** [Client.get] *)
Definition get (c : Client) (u : string) (s : wire) : result FetchErr Response * wire :=
  if negb (hostAllowed u (c_AllowedHosts c)) then (Err (ErrEgressDenied u), s)
  else match url_Parse u with
       | Err e => (Err (BadURL e), s)
       | Ok url =>
           match follow (client_RoundTrip c) maxHops url s with
           | (Err e, s) => (Err e, s)
           | (Ok resp, s) =>
               let code := rs_StatusCode resp in
               if (code <? 200)%Z || (300 <=? code)%Z then
                 (Err (if (code =? 404)%Z then ErrNotFound else HTTPStatus code), s)
               else (Ok resp, s)
           end
       end.

Definition getJSON (c : Client) (u : string) (s : wire) : result FetchErr bytes * wire :=
  match get c u s with
  | (Err e, s) => (Err e, s)
  | (Ok resp, s) =>
      if negb (bool_decide (rs_ContentType resp = "")) && unwanted (rs_ContentType resp) then
        (Err (UnexpectedContentType (rs_ContentType resp)), s)
      else (readAllCapped (rs_Body resp) MaxJSONResponseBytes, s)
  end.

Definition getRaw (c : Client) (u : string) (s : wire) : result FetchErr bytes * wire :=
  match get c u s with
  | (Err e, s) => (Err e, s)
  | (Ok resp, s) => (readAllCapped (rs_Body resp) MaxJSONResponseBytes, s)
  end.

Definition joinURL (registry : string) (segs : list string) : result string string :=
  match url_Parse (TrimRight registry "/") with
  | Err e => Err e
  | Ok base => Ok (URL_String (JoinPath base segs))
  end.

(** The five endpoints. *)
Definition endpoint {A} (fetch : string → wire → result FetchErr A * wire) (registry : string) (segs : list string)
    (s : wire) : result FetchErr A * wire :=
  match joinURL registry segs with
  | Err e => (Err (BadURL e), s)
  | Ok u => fetch u s
  end.

Definition parse_with {A} (unmarshal : bytes → result string A) (r : result FetchErr bytes * wire) : result FetchErr A * wire :=
  (match r.1 with Ok b => map_err BadJSON (unmarshal b) | Err e => Err e end, r.2).

Definition GetMetadata {A} (unmarshal : bytes → result string A) (c : Client) (registry module : string) (s : wire) :=
  parse_with unmarshal (endpoint (getJSON c) registry ["modules"; module; "metadata.json"] s).
Definition GetMetadataBytes (c : Client) (registry module : string) (s : wire) :=
  endpoint (getRaw c) registry ["modules"; module; "metadata.json"] s.
Definition GetSourceJSONBytes (c : Client) (registry module version : string) (s : wire) :=
  endpoint (getRaw c) registry ["modules"; module; version; "source.json"] s.
Definition GetSourceJSON {A} (unmarshal : bytes → result string A) (c : Client) (registry module version : string) (s : wire) :=
  parse_with unmarshal (GetSourceJSONBytes c registry module version s).
Definition GetModuleBazel (c : Client) (registry module version : string) (s : wire) :=
  endpoint (getRaw c) registry ["modules"; module; version; "MODULE.bazel"] s.

(** ** The operations of a client, in sequence *)

Inductive op : Type :=
| OpMetadata (module : string)
| OpMetadataBytes (module : string)
| OpSourceJSON (module version : string)
| OpModuleBazel (module version : string)
| OpArchive (url : string).

Definition run_op (c : Client) (registry : string) (s : wire) (o : op) : wire :=
  match o with
  | OpMetadata m => (GetMetadata (λ b, Ok b) c registry m s).2
  | OpMetadataBytes m => (GetMetadataBytes c registry m s).2
  | OpSourceJSON m v => (GetSourceJSONBytes c registry m v s).2
  | OpModuleBazel m v => (GetModuleBazel c registry m v s).2
  | OpArchive u => (get c u s).2
  end.

Definition run_ops (c : Client) (registry : string) (ops : list op) : wire :=
  foldl (run_op c registry) (mkWire [] [] 0) ops.

(** What a transport's round trip preserves, the operations preserve. *)
Lemma follow_preserves (P : wire → Prop) rt :
  (∀ u s, P s → P (rt u s).2) → ∀ n u s, P s → P (follow rt n u s).2.
Proof.
  intros Hrt n. induction n as [|n IH]; intros u s Hs; simpl; [done|].
  specialize (Hrt u s Hs). destruct (rt u s) as [[resp|e] s']; simpl in *; [|done].
  destruct (_ && _); [|done]. destruct (ResolveReference u (rs_Location resp)); [by apply IH|done].
Qed.

Lemma get_preserves (P : wire → Prop) c :
  (∀ u s, P s → P (client_RoundTrip c u s).2) → ∀ u s, P s → P (get c u s).2.
Proof.
  intros Hrt u s Hs. unfold get. destruct (negb _); [done|]. destruct (url_Parse u) as [url|]; [|done].
  pose proof (follow_preserves P _ Hrt maxHops url s Hs) as H.
  destruct (follow _ maxHops url s) as [[resp|e] s']; [|done]. by destruct (_ || _).
Qed.

Lemma endpoint_preserves {A} (P : wire → Prop) (fetch : string → wire → result FetchErr A * wire) registry segs s :
  (∀ u, P (fetch u s).2) → P s → P (endpoint fetch registry segs s).2.
Proof. intros Hf Hs. unfold endpoint. by destruct (joinURL registry segs). Qed.

Lemma getRaw_wire c u s : (getRaw c u s).2 = (get c u s).2.
Proof. unfold getRaw. by destruct (get c u s) as [[]]. Qed.
Lemma getJSON_wire c u s : (getJSON c u s).2 = (get c u s).2.
Proof. unfold getJSON. destruct (get c u s) as [[resp|] s']; [|done]. by destruct (_ && _). Qed.

Lemma run_op_preserves (P : wire → Prop) c registry s o :
  (∀ u s, P s → P (client_RoundTrip c u s).2) → P s → P (run_op c registry s o).
Proof.
  intros Hrt Hs. pose proof (λ u, get_preserves P c Hrt u s Hs) as Hget.
  destruct o; simpl; [| | | |apply Hget]; apply (endpoint_preserves P); try done; intros u;
    rewrite ?getRaw_wire, ?getJSON_wire; apply Hget.
Qed.

Lemma run_ops_preserves (P : wire → Prop) c registry ops :
  (∀ u s, P s → P (client_RoundTrip c u s).2) → P (mkWire [] [] 0) → P (run_ops c registry ops).
Proof.
  intros Hrt H0. unfold run_ops. generalize (mkWire [] [] 0), H0. clear H0. induction ops as [|o ops IH]; intros s Hs; [done|].
  simpl. by apply IH, run_op_preserves.
Qed.

(** ** Which hosts are let through *)

Definition host_matches (pattern host : string) : Prop :=
  pattern = host ∨ ∃ suffix front, pattern = "*." +:+ suffix ∧ host = front +:+ "." +:+ suffix.

Lemma match_host_iff pattern host : match_host pattern host = true ↔ host_matches pattern host.
Proof.
  unfold match_host, wildcard, host_matches. rewrite orb_true_iff, bool_decide_eq_true, andb_true_iff.
  unfold HasPrefix, HasSuffix. rewrite !bool_decide_eq_true. split; intros [H|H]; auto; right.
  - destruct H as [[k Hp] [f Hs]]. exists (of_bytes k), (of_bytes f).
    split; apply to_bytes_inj; rewrite !to_bytes_app, ?to_of_bytes.
    + by rewrite Hp.
    + rewrite Hs, to_of_bytes, Hp. done.
  - destruct H as (suffix & front & -> & ->). split; [exists (to_bytes suffix); by rewrite to_bytes_app|].
    exists (to_bytes front). rewrite to_of_bytes, !to_bytes_app. done.
Qed.

Definition policy_permits (p : EgressPolicy) (u : URL) : Prop :=
  ep_Mode p ≠ ModeDeny ∧
  (ep_Allow p = [] ∨ ∃ pattern, pattern ∈ ep_Allow p ∧ host_matches (normal pattern) (ToLower (URL_Hostname u))).

Definition hosts_permit (allowed : list string) (raw : string) : Prop :=
  allowed = [] ∨
  ∃ u pattern, url_Parse raw = Ok u ∧ URL_Hostname u ≠ "" ∧ pattern ∈ allowed ∧ normal pattern ≠ "" ∧
    host_matches (normal pattern) (ToLower (URL_Hostname u)).

Lemma Check_url_None p u : Check_url p (Some (Some u)) = None ↔ policy_permits p u.
Proof.
  clear - URL_Hostname. unfold Check_url, policy_permits. destruct (Z.eqb_spec (ep_Mode p) ModeDeny) as [Hm|Hm]; [naive_solver|].
  destruct (decide (ep_Allow p = [])) as [Ha|Ha]; [naive_solver|].
  destruct (existsb _ (ep_Allow p)) eqn:E.
  - split; [intros _; split; [done|right]|done]. apply existsb_exists in E as (pt & Hin%list_elem_of_In & H).
    exists pt. by rewrite <-match_host_iff.
  - split; [done|]. intros [_ [H|(pt & Hin & H)]]; [done|].
    assert (existsb (λ pattern, match_host (normal pattern) (ToLower (URL_Hostname u))) (ep_Allow p) = true); [|congruence].
    apply existsb_exists. exists pt. by rewrite <-list_elem_of_In, match_host_iff.
Qed.

Lemma ToLower_nil s : ToLower s = "" ↔ s = "".
Proof. unfold ToLower. rewrite <-!to_bytes_nil, to_of_bytes. by rewrite fmap_nil_iff. Qed.

Lemma hostAllowed_iff raw allowed : hostAllowed raw allowed = true ↔ hosts_permit allowed raw.
Proof.
  clear - url_Parse URL_Hostname. unfold hostAllowed, hosts_permit. destruct (decide (allowed = [])) as [Ha|Ha]; [naive_solver|].
  destruct (url_Parse raw) as [u|]; [|naive_solver].
  destruct (decide (ToLower (URL_Hostname u) = "")) as [Hh|Hh].
  { rewrite ToLower_nil in Hh. naive_solver. }
  rewrite existsb_exists. split.
  - intros (pt & Hin%list_elem_of_In & H). right. exists u, pt. cbv zeta in H. case_decide as Hp; [done|].
    split_and!; try done; [by rewrite <-ToLower_nil|by apply match_host_iff].
  - intros [H|(v & pt & [= <-] & _ & Hin & Hp & H)]; [done|]. exists pt. split; [by apply list_elem_of_In|].
    cbv zeta. rewrite decide_False by done. by apply match_host_iff.
Qed.

Lemma client_RoundTrip_sent c u s :
  w_sent (client_RoundTrip c u s).2 = w_sent s ∨
  (policy_permits (c_policy c) u ∧ hosts_permit (c_transport_hosts c) (URL_String u) ∧
   w_sent (client_RoundTrip c u s).2 = w_sent s ++ [u]).
Proof.
  unfold client_RoundTrip, policy_RoundTrip. destruct (Check_url _ _) as [e|] eqn:E.
  { left. unfold emitDenial. by destruct (c_sink c). }
  apply Check_url_None in E. unfold allowlist_RoundTrip, base_RoundTrip. simpl.
  destruct (hostAllowed _ _) eqn:H; simpl.
  - right. apply hostAllowed_iff in H. split_and!; [done..|].
    destruct (_ =? ModeAudit)%Z; [|done]. unfold emitOutcome. by destruct (c_sink c).
  - left. destruct (_ =? ModeAudit)%Z; [|done]. unfold emitOutcome. by destruct (c_sink c).
Qed.

Lemma sent_permitted c registry ops u : u ∈ w_sent (run_ops c registry ops) →
  policy_permits (c_policy c) u ∧ hosts_permit (c_transport_hosts c) (URL_String u).
Proof.
  revert u. apply (run_ops_preserves (λ s, ∀ u, u ∈ w_sent s →
    policy_permits (c_policy c) u ∧ hosts_permit (c_transport_hosts c) (URL_String u)));
    [|intros u Hu; by apply elem_of_nil in Hu].
  intros u s Hs v Hv. destruct (client_RoundTrip_sent c u s) as [E|(Hp & Hh & E)]; rewrite E in Hv; [by apply Hs|].
  apply elem_of_app in Hv as [Hv|Hv%list_elem_of_singleton]; [by apply Hs|]. by subst.
Qed.

Lemma denied_all c registry ops : ep_Mode (c_policy c) = ModeDeny → w_sent (run_ops c registry ops) = [].
Proof.
  intros Hd. destruct (w_sent _) as [|u l] eqn:E; [done|]. destruct (sent_permitted c registry ops u) as [[Hm _] _]; [rewrite E; by left|done].
Qed.

(** C6: No request leaves that the policy or the allowlist forbids: over any sequence of
    operations, with every redirect the registry answers with, each request the network
    sees is to a host that the policy's mode and patterns admit and that the client's
    allowlist admits; under the denying mode the network sees nothing. *)
Theorem egress_confined c registry ops :
  let sent := w_sent (run_ops c registry ops) in
  (∀ u, u ∈ sent → policy_permits (c_policy c) u ∧ hosts_permit (c_transport_hosts c) (URL_String u)) ∧
  (ep_Mode (c_policy c) = ModeDeny → sent = []).
Proof. split; [apply sent_permitted|apply denied_all]. Qed.

(** ** The audit log *)

Definition not_denied (ev : AuditEvent) : Prop := ev_Outcome ev ≠ "denied".
#[export] Instance not_denied_dec ev : Decision (not_denied ev) := decide (ev_Outcome ev ≠ "denied").

Definition logged_url (u : URL) : string := redactURL (URL_String u).

(** One round trip with a recording sink: a denial, or a request and, under the
    auditing mode, its event. *)
Lemma client_RoundTrip_events c u s :
  c_sink c = Recording →
  let s' := (client_RoundTrip c u s).2 in
  (w_sent s' = w_sent s ∧ ¬ policy_permits (c_policy c) u ∧
   ∃ ev, w_events s' = w_events s ++ [ev] ∧ ev_Outcome ev = "denied" ∧ ev_Reason ev = "egress-policy-deny" ∧
     ev_URL ev = logged_url u ∧ ev_Host ev = URL_Hostname u) ∨
  (policy_permits (c_policy c) u ∧
   (w_sent s' = w_sent s ++ [u] ∨ w_sent s' = w_sent s ∧ c_transport_hosts c ≠ []) ∧
   if (ep_Mode (c_policy c) =? ModeAudit)%Z then
     ∃ ev, w_events s' = w_events s ++ [ev] ∧ not_denied ev ∧ ev_URL ev = logged_url u ∧ ev_Host ev = URL_Hostname u
   else w_events s' = w_events s).
Proof.
  intros Hr. cbv zeta. unfold client_RoundTrip, policy_RoundTrip.
  destruct (Check_url (c_policy c) (Some (Some u))) as [e|] eqn:E; simpl.
  - left. split; [by unfold emitDenial; rewrite Hr|]. split; [rewrite <-Check_url_None; congruence|].
    unfold emitDenial. rewrite Hr. simpl. eexists. split_and!; try done. simpl.
    revert E. unfold Check_url. by repeat case_match; intros; simplify_eq.
  - right. split; [by apply Check_url_None|]. unfold allowlist_RoundTrip, base_RoundTrip.
    destruct (hostAllowed (URL_String u) (c_transport_hosts c)) eqn:Hh; simpl.
    + destruct (_ =? ModeAudit)%Z; unfold emitOutcome; rewrite ?Hr; simpl; split; auto.
      eexists. split_and!; [done| | |]; by destruct (network _ _).
    + assert (c_transport_hosts c ≠ []) by (intros Hn; by rewrite Hn in Hh).
      destruct (_ =? ModeAudit)%Z; unfold emitOutcome; rewrite ?Hr; simpl; split; auto.
      eexists. by split_and!.
Qed.

(** What the log of an audited client holds for a prefix of its work. *)
Definition log_ok (c : Client) (s : wire) : Prop :=
  (ep_Mode (c_policy c) = ModeAudit → sublist (logged_url <$> w_sent s) (ev_URL <$> filter not_denied (w_events s))) ∧
  (ep_Mode (c_policy c) = ModeAudit → c_transport_hosts c = [] →
     logged_url <$> w_sent s = ev_URL <$> filter not_denied (w_events s)) ∧
  (ep_Mode (c_policy c) ≠ ModeAudit → Forall (λ ev, ev_Outcome ev = "denied") (w_events s)) ∧
  (∀ ev, ev ∈ w_events s → ev_Outcome ev = "denied" → ev_Reason ev = "egress-policy-deny").

Lemma log_ok_step c u s : c_sink c = Recording → log_ok c s → log_ok c (client_RoundTrip c u s).2.
Proof.
  intros Hr (H1 & H2 & H3 & H4).
  destruct (client_RoundTrip_events c u s Hr) as [(Hs & _ & ev & He & Ho & Hre & _)|(_ & Hs & He)].
  - unfold log_ok. rewrite Hs, He, filter_app, fmap_app.
    assert (filter not_denied [ev] = []) as ->.
    { rewrite filter_cons_False; [done|]. unfold not_denied. tauto. }
    rewrite app_nil_r. split_and!; auto.
    + intros Hm. apply Forall_app. auto.
    + intros ev' [H|H%list_elem_of_singleton]%elem_of_app; [auto|by subst].
  - unfold log_ok. destruct (Z.eqb_spec (ep_Mode (c_policy c)) ModeAudit) as [Hm|Hm].
    + destruct He as (ev & He & Hn & Hu & _). rewrite He, filter_app, fmap_app.
      rewrite (filter_cons_True _ ev) by done. simpl. rewrite Hu.
      split_and!; [| |done|].
      * intros _. destruct Hs as [->|[-> _]]; [rewrite fmap_app; by apply sublist_app; [apply H1|]|].
        apply sublist_inserts_r. auto.
      * intros _ Ht. destruct Hs as [->|[_ Hne]]; [|done]. rewrite fmap_app. f_equal. auto.
      * intros ev' [H|H%list_elem_of_singleton]%elem_of_app; [auto|]. subst. intros Hd. by destruct Hn.
    + rewrite He. split_and!; auto; done.
Qed.

Lemma log_of_ops c registry ops : c_sink c = Recording → log_ok c (run_ops c registry ops).
Proof.
  intros Hs. apply (run_ops_preserves (log_ok c)); [intros u s; by apply log_ok_step|].
  split_and!; [by intros|done|by constructor|]. intros ev H. by apply elem_of_nil in H.
Qed.

(** The audit log of a client that has a sink.  Under the auditing mode the log names,
    in order, every request the network saw, and nothing else when the client has no
    allowlist of its own below the policy; under the other modes it holds denials
    only; and every denial carries the one reason code.  Without a sink there is no
    event. *)
Theorem audit_trail c registry ops :
  let s := run_ops c registry ops in
  match c_sink c with
  | Recording =>
      (ep_Mode (c_policy c) = ModeAudit → sublist (logged_url <$> w_sent s) (ev_URL <$> filter not_denied (w_events s))) ∧
      (ep_Mode (c_policy c) = ModeAudit → c_transport_hosts c = [] →
         logged_url <$> w_sent s = ev_URL <$> filter not_denied (w_events s)) ∧
      (ep_Mode (c_policy c) ≠ ModeAudit → Forall (λ ev, ev_Outcome ev = "denied") (w_events s)) ∧
      (∀ ev, ev ∈ w_events s → ev_Outcome ev = "denied" → ev_Reason ev = "egress-policy-deny")
  | NopSink => w_events s = []
  end.
Proof.
  cbv zeta. destruct (c_sink c) eqn:Hs.
  - apply (run_ops_preserves (λ s, w_events s = [])); [|done]. intros u s. unfold client_RoundTrip, policy_RoundTrip.
    rewrite Hs. destruct (Check_url _ _); simpl; [done|]. unfold allowlist_RoundTrip, base_RoundTrip.
    destruct (negb _); simpl; by destruct (_ =? ModeAudit)%Z.
  - by apply log_of_ops.
Qed.

(** ** The other clients of the process *)

(** A request through [DefaultHTTPClient]: those of the forges, of the webhooks, of the
    federation and of the metadata. *)
Definition DefaultHTTPClient_Do (p : EgressPolicy) (sink : Sink) (u : URL) (s : wire) : result FetchErr Response * wire :=
  follow (policy_RoundTrip p sink base_RoundTrip) maxHops u s.

Inductive outbound : Type :=
| ByRegistry (registry : string) (o : op)
| ByDefault (u : URL).

Definition run_out (p : EgressPolicy) (sink : Sink) (hosts : list string) (s : wire) (o : outbound) : wire :=
  match o with
  | ByRegistry registry o => run_op (NewClient p sink hosts) registry s o
  | ByDefault u => (DefaultHTTPClient_Do p sink u s).2
  end.
Definition run_outs (p : EgressPolicy) (sink : Sink) (hosts : list string) (outs : list outbound) : wire :=
  foldl (run_out p sink hosts) (mkWire [] [] 0) outs.

(** Such a client is one without a list of its own. *)
Lemma run_outs_preserves (P : wire → Prop) p sink hosts outs :
  (∀ c u s, c_policy c = p → c_sink c = sink → P s → P (client_RoundTrip c u s).2) → P (mkWire [] [] 0) → P (run_outs p sink hosts outs).
Proof.
  intros Hrt H0. unfold run_outs. generalize (mkWire [] [] 0), H0. clear H0. induction outs as [|[registry o|u] outs IH]; intros s Hs; [done|..]; simpl; apply IH.
  - apply run_op_preserves; [|done]. intros u s' Hs'. by apply Hrt.
  - refine (follow_preserves P (client_RoundTrip (mkClient p sink [] [])) _ maxHops u s Hs). intros u' s' Hs'. by apply Hrt.
Qed.

Lemma outs_permitted p sink hosts outs u : u ∈ w_sent (run_outs p sink hosts outs) → policy_permits p u.
Proof.
  revert u. apply (run_outs_preserves (λ s, ∀ u, u ∈ w_sent s → policy_permits p u)); [|intros u Hu; by apply elem_of_nil in Hu].
  intros c u s <- _ Hs v Hv. destruct (client_RoundTrip_sent c u s) as [E|(Hp & _ & E)]; rewrite E in Hv; [by apply Hs|].
  apply elem_of_app in Hv as [Hv|Hv%list_elem_of_singleton]; [by apply Hs|]. by subst.
Qed.

(** What the sink of the process is given: under the auditing mode an event for each
    request, in order, under the others denials only. *)
Definition audited (p : EgressPolicy) (s : wire) : Prop :=
  (ep_Mode p = ModeAudit → sublist (logged_url <$> w_sent s) (ev_URL <$> filter not_denied (w_events s))) ∧
  (ep_Mode p ≠ ModeAudit → Forall (λ ev, ev_Outcome ev = "denied") (w_events s)).

Lemma outs_audited p hosts outs : audited p (run_outs p Recording hosts outs).
Proof.
  apply (run_outs_preserves (audited p)); [|by split; [|constructor]].
  intros c u s <- Hr [H1 H2]. unfold audited.
  destruct (client_RoundTrip_events c u s Hr) as [(-> & _ & ev & -> & Ho & _)|(_ & Hs & He)].
  - rewrite filter_app, fmap_app. assert (filter not_denied [ev] = []) as -> by (rewrite filter_cons_False; [done|]; unfold not_denied; tauto).
    rewrite app_nil_r. split; [done|]. intros Hm. apply Forall_app. split; [by apply H2|by repeat constructor].
  - destruct (Z.eqb_spec (ep_Mode (c_policy c)) ModeAudit) as [Hm|Hm]; [|by rewrite He].
    destruct He as (ev & -> & Hn & Hu & _). split; [intros _|done]. rewrite filter_app, fmap_app, (filter_cons_True _ ev) by done. simpl. rewrite Hu.
    destruct Hs as [->|[-> _]]; [rewrite fmap_app; by apply sublist_app; [apply H1|]|by apply sublist_inserts_r, H1].
Qed.

(** ** The guards change nothing for what they admit *)

Definition open_client : Client := mkClient (mkEgressPolicy ModeAllow []) NopSink [] [].

Lemma open_RoundTrip u s :
  (client_RoundTrip open_client u s).1 = map_err Transport (network (w_sent s) u) ∧
  w_sent (client_RoundTrip open_client u s).2 = w_sent s ++ [u].
Proof. done. Qed.

Lemma guarded_RoundTrip c u s :
  policy_permits (c_policy c) u → hosts_permit (c_transport_hosts c) (URL_String u) →
  (client_RoundTrip c u s).1 = map_err Transport (network (w_sent s) u) ∧
  w_sent (client_RoundTrip c u s).2 = w_sent s ++ [u].
Proof.
  intros Hp%Check_url_None Hh%hostAllowed_iff. unfold client_RoundTrip, policy_RoundTrip. rewrite Hp.
  unfold allowlist_RoundTrip. simpl. rewrite Hh. simpl. split; [done|].
  destruct (_ =? ModeAudit)%Z; [|done]. unfold emitOutcome. by destruct (c_sink c).
Qed.

Lemma follow_sent c n u s : ∃ l, w_sent (follow (client_RoundTrip c) n u s).2 = w_sent s ++ l.
Proof.
  revert u s. induction n as [|n IH]; intros u s; simpl; [exists []; by rewrite app_nil_r|].
  assert (∃ l, w_sent (client_RoundTrip c u s).2 = w_sent s ++ l) as [l Hl].
  { destruct (client_RoundTrip_sent c u s) as [->|(_ & _ & ->)]; [exists []; by rewrite app_nil_r|by eexists]. }
  destruct (client_RoundTrip c u s) as [[resp|e] s'] eqn:E; simpl in *; [|by exists l].
  destruct (_ && _); [|by exists l]. destruct (ResolveReference u _) as [u'|]; [|by exists l].
  destruct (IH u' s') as [l' ->]. exists (l ++ l'). by rewrite Hl, app_assoc.
Qed.

Lemma follow_same c n u s s0 :
  w_sent s = w_sent s0 →
  (∀ v, v ∈ drop (length (w_sent s0)) (w_sent (follow (client_RoundTrip open_client) n u s0).2) →
     policy_permits (c_policy c) v ∧ hosts_permit (c_transport_hosts c) (URL_String v)) →
  (follow (client_RoundTrip c) n u s).1 = (follow (client_RoundTrip open_client) n u s0).1 ∧
  w_sent (follow (client_RoundTrip c) n u s).2 = w_sent (follow (client_RoundTrip open_client) n u s0).2.
Proof.
  revert u s s0. induction n as [|n IH]; intros u s s0 Hs Hok; [done|].
  assert (∃ l, w_sent (follow (client_RoundTrip open_client) (S n) u s0).2 = w_sent s0 ++ u :: l) as [l Hl].
  { cbn [follow]. destruct (open_RoundTrip u s0) as [E1 E2].
    destruct (client_RoundTrip open_client u s0) as [r0 s0']; simpl in E1, E2. subst r0.
    destruct (network (w_sent s0) u) as [resp|e]; simpl; [|by exists []].
    destruct (_ && _); [|by exists []]. destruct (ResolveReference u _) as [u'|]; [|by exists []].
    destruct (follow_sent open_client n u' s0') as [l ->]. exists l. by rewrite E2, <-app_assoc. }
  assert (policy_permits (c_policy c) u ∧ hosts_permit (c_transport_hosts c) (URL_String u)) as [Hp Hh].
  { apply Hok. rewrite Hl, drop_app_length. by left. }
  destruct (guarded_RoundTrip c u s Hp Hh) as [G1 G2]. destruct (open_RoundTrip u s0) as [E1 E2].
  clear l Hl. revert Hok. cbn [follow].
  destruct (client_RoundTrip c u s) as [r s'], (client_RoundTrip open_client u s0) as [r0 s0']. simpl in G1, G2, E1, E2.
  subst r r0. rewrite Hs in G2 |- *.
  destruct (network (w_sent s0) u) as [resp|e]; simpl; [|simpl; by rewrite G2, E2].
  destruct (_ && _); [|simpl; by rewrite G2, E2]. destruct (ResolveReference u _) as [u'|]; [|simpl; by rewrite G2, E2].
  intros Hok. apply IH; [by rewrite G2, E2|]. intros v Hv. apply Hok.
  destruct (follow_sent open_client n u' s0') as [l Hl]. rewrite Hl in Hv |- *.
  rewrite drop_app_length in Hv. rewrite E2, <-app_assoc, drop_app_length. by right.
Qed.

(** The guards are transparent for what they admit: when the client's allowlist admits
    the URL asked for and both guards admit every request that a client without guards
    would make, redirects included, the guarded client makes the same requests and
    returns the same response or error. *)
Theorem guards_transparent c u s :
  hosts_permit (c_AllowedHosts c) u →
  (∀ v, v ∈ drop (length (w_sent s)) (w_sent (get open_client u s).2) →
     policy_permits (c_policy c) v ∧ hosts_permit (c_transport_hosts c) (URL_String v)) →
  (get c u s).1 = (get open_client u s).1 ∧ w_sent (get c u s).2 = w_sent (get open_client u s).2.
Proof.
  intros Hu%hostAllowed_iff. unfold get. rewrite Hu.
  replace (hostAllowed u (c_AllowedHosts open_client)) with true by done. cbn [negb]. destruct (url_Parse u) as [url|]; [|done].
  generalize maxHops. intros n Hok. destruct (follow_same c n url s s eq_refl) as [H1 H2].
  { intros v Hv. apply Hok. revert Hv. destruct (follow _ n url s) as [[resp|e] s']; [|done]. by destruct (_ || _). }
  destruct (follow (client_RoundTrip c) n url s) as [r s1], (follow (client_RoundTrip open_client) n url s) as [r0 s2].
  simpl in H1, H2. subst r0. destruct r as [resp|e]; [|done]. by destruct (_ || _).
Qed.

(** ** What comes back *)

(** The network's last answer: [follow] returns a response only as the network gave it. *)
Lemma follow_response c n u s resp s' :
  follow (client_RoundTrip c) n u s = (Ok resp, s') →
  ∃ before v, w_sent s' = before ++ [v] ∧ network before v = Ok resp.
Proof.
  revert u s. induction n as [|n IH]; intros u s; simpl; [done|].
  destruct (client_RoundTrip c u s) as [[r|e] s1] eqn:E; [|done].
  destruct (_ && _); [by destruct (ResolveReference u _); [apply IH|]|]. intros [= <- <-].
  revert E. unfold client_RoundTrip, policy_RoundTrip. destruct (Check_url _ _); [done|]. simpl.
  unfold allowlist_RoundTrip. destruct (negb _); simpl; [done|].
  destruct (network (w_sent s) u) as [r'|] eqn:En; simpl; [|done]. intros [= -> <-].
  exists (w_sent s), u. split; [|done]. destruct (_ =? ModeAudit)%Z; [|done]. unfold emitOutcome. by destruct (c_sink c).
Qed.

Lemma get_answer c u s r s' :
  get c u s = (r, s') →
  match r with
  | Ok resp => ∃ before v, w_sent s' = before ++ [v] ∧ network before v = Ok resp ∧ (200 ≤ rs_StatusCode resp < 300)%Z
  | Err ErrNotFound => ∃ before v resp, w_sent s' = before ++ [v] ∧ network before v = Ok resp ∧ rs_StatusCode resp = 404%Z
  | Err _ => True
  end.
Proof.
  unfold get. destruct (negb _); [by intros [= <- <-]|]. destruct (url_Parse u) as [url|]; [|by intros [= <- <-]].
  destruct (follow _ maxHops url s) as [[resp|e] s1] eqn:E.
  - apply follow_response in E as (before & v & Hw & Hn).
    destruct ((rs_StatusCode resp <? 200)%Z || (300 <=? rs_StatusCode resp)%Z) eqn:Hc; intros [= <- <-].
    + destruct (Z.eqb_spec (rs_StatusCode resp) 404); [|done]. by exists before, v, resp.
    + apply orb_false_iff in Hc as [H1%Z.ltb_ge H2%Z.leb_gt]. exists before, v. by split_and!.
  - intros [= <- <-]. destruct e; try done. exfalso. revert E. generalize maxHops. intros n. revert url s.
    induction n as [|n IH]; intros url s; simpl; [done|].
    destruct (client_RoundTrip c url s) as [[r|e] s2] eqn:E.
    + destruct (_ && _); [|done]. destruct (ResolveReference url _); [apply IH|done].
    + intros [= -> _]. revert E. unfold client_RoundTrip, policy_RoundTrip.
      destruct (Check_url _ _) as [e'|] eqn:Ec; simpl.
      * intros [= -> _]. revert Ec. unfold Check_url. by repeat case_match.
      * unfold allowlist_RoundTrip. destruct (negb _); simpl; [done|]. by destruct (network _ _).
Qed.

Lemma readAllCapped_spec r maxBytes b :
  (0 ≤ maxBytes)%Z →
  readAllCapped r maxBytes = Ok b ↔ bd_data r = b ∧ bd_fail r = None ∧ (Z.of_nat (length b) ≤ maxBytes)%Z.
Proof.
  intros Hm. unfold readAllCapped. destruct (decide (Z.to_nat (maxBytes + 1) ≤ length (bd_data r))) as [Hl|Hl]; simpl.
  - rewrite length_take_le by done. destruct (Z.ltb_spec maxBytes (Z.of_nat (Z.to_nat (maxBytes + 1)))); [|lia].
    split; [done|]. intros (<- & _ & ?). lia.
  - rewrite take_ge by lia. destruct (bd_fail r); [naive_solver|].
    destruct (Z.ltb_spec maxBytes (Z.of_nat (length (bd_data r)))); [lia|]. naive_solver.
Qed.

(** What the client returns is what the registry said: bytes come back only when the
    network's last answer was a success whose whole body arrived, unbroken and within
    the cap, and they are that body; and the distinguished error for a missing module
    or version comes only from a 404. *)
Theorem bytes_faithful c u s :
  match getRaw c u s with
  | (Ok b, s') =>
      ∃ before v resp, w_sent s' = before ++ [v] ∧ network before v = Ok resp ∧ (200 ≤ rs_StatusCode resp < 300)%Z ∧
        bd_data (rs_Body resp) = b ∧ bd_fail (rs_Body resp) = None ∧ (Z.of_nat (length b) ≤ MaxJSONResponseBytes)%Z
  | (Err ErrNotFound, s') =>
      ∃ before v resp, w_sent s' = before ++ [v] ∧ network before v = Ok resp ∧ rs_StatusCode resp = 404%Z
  | _ => True
  end.
Proof.
  unfold getRaw. destruct (get c u s) as [r s'] eqn:E. apply get_answer in E.
  destruct r as [resp|e]; [|by destruct e]. destruct E as (before & v & Hw & Hn & Hc).
  destruct (readAllCapped (rs_Body resp) MaxJSONResponseBytes) as [b|e] eqn:Er.
  - apply readAllCapped_spec in Er as (? & ? & ?); [|done]. by exists before, v, resp.
  - destruct e; try done. exfalso. revert Er. unfold readAllCapped. by repeat case_match.
Qed.
End egress.

(** ** The line number of a caller *)

Lemma digit_char d : (0 ≤ d < 10)%Z → chr (48 + Z.to_nat d) = pretty_N_char (Z.to_N d).
Proof.
  intros Hd. assert (d = 0 ∨ d = 1 ∨ d = 2 ∨ d = 3 ∨ d = 4 ∨ d = 5 ∨ d = 6 ∨ d = 7 ∨ d = 8 ∨ d = 9)%Z as H by lia.
  destruct_or! H; subst; reflexivity.
Qed.

Lemma int_digits_spec k room n buf :
  k ≤ room → (0 ≤ n < 10 ^ Z.of_nat k)%Z →
  ∃ room', room - k ≤ room' ∧
    int_digits room n buf = Some (room', to_bytes (pretty_N_go (Z.to_N n) (of_bytes buf))).
Proof.
  revert room n buf. induction k as [|k IH]; intros room n buf Hk Hn.
  - assert (n = 0%Z) as -> by (simpl in Hn; lia). exists room. split; [lia|].
    destruct room; simpl; by rewrite pretty_N_go_0, to_of_bytes.
  - destruct (Z.eq_dec n 0%Z) as [->|Hz].
    { exists room. split; [lia|]. destruct room; simpl; by rewrite pretty_N_go_0, to_of_bytes. }
    destruct room as [|room]; [lia|]. cbn [int_digits]. destruct (Z.ltb_spec 0%Z n); [|lia].
    destruct (IH room (n / 10)%Z (chr (48 + Z.to_nat (n `mod` 10)) :: buf)) as (room' & Hr & ->); [lia| |].
    { split; [apply Z.div_pos; lia|]. apply Z.div_lt_upper_bound; [lia|].
      rewrite Nat2Z.inj_succ, Z.pow_succ_r in Hn by lia. lia. }
    exists room'. split; [lia|]. do 3 f_equal.
    rewrite (pretty_N_go_step (Z.to_N n)) by lia. rewrite digit_char by (apply Z.mod_pos_bound; lia).
    rewrite Z2N.inj_div, Z2N.inj_mod by lia. done.
Qed.

(** The audit log's own integer printer never leaves its buffer of twenty bytes and
    prints every 64-bit integer in decimal, except the least one, whose negation wraps:
    that one prints as a bare sign. *)
Theorem intStr_decimal n :
  (- 2 ^ 63 ≤ n < 2 ^ 63)%Z →
  intStr n = Some (if decide (n = - 2 ^ 63)%Z then "-" else pretty (n : Z)).
Proof.
  intros Hn. unfold intStr. destruct (Z.eqb_spec n 0%Z) as [->|Hz]; [done|].
  case_decide as Hm; [by subst|].
  destruct (Z.ltb_spec n 0%Z) as [Hneg|Hpos].
  - rewrite wrap64_small by lia.
    destruct (int_digits_spec 19 20 (- n)%Z []) as (room & Hr & ->); [lia|lia|]. destruct room as [|room]; [lia|].
    destruct n as [|p|p]; try lia. simpl. unfold pretty, pretty_Z. f_equal. rewrite of_to_bytes. done.
  - destruct (int_digits_spec 19 20 n []) as (room & Hr & ->); [lia|lia|].
    destruct n as [|p|p]; try lia. simpl. rewrite of_to_bytes. done.
Qed.

Lemma intStr_decimal_witness : intStr 284 = Some "284" ∧ intStr (- 2 ^ 63) = Some "-".
Proof.
  split; [apply (intStr_decimal 284); lia|apply (intStr_decimal (- 2 ^ 63)); lia].
Defined.

(** ** Credentials in the log *)

Lemma cut_str_scheme scheme rest :
  ":"%char ∉ scheme → cut_str (to_bytes "://") (scheme ++ to_bytes "://" ++ rest) = Some (scheme, rest).
Proof.
  intros Hs. destruct (cut_str _ _) as [[a b]|] eqn:E.
  - pose proof (cut_str_Some _ _ _ _ E) as Heq. pose proof (cut_str_first _ _ _ _ E _ _ eq_refl) as Hl.
    apply app_eq_inv in Heq as [(k & -> & Heq)|(k & -> & Heq)].
    + destruct k as [|c k]; [by rewrite app_nil_r; injection Heq as ->|].
      simpl in Heq. injection Heq as <- _. exfalso. apply Hs. apply elem_of_app. right. by left.
    + rewrite length_app in Hl. destruct k; [|simpl in Hl; lia]. rewrite app_nil_r. by injection Heq as ->.
  - exfalso. by apply (cut_str_None _ _ E scheme rest).
Qed.

(** Of a URL with user information, what is logged is the URL without it; a URL with no
    at sign is logged as it is. *)
Lemma redactURL_userinfo scheme info rest :
  ":"%char ∉ to_bytes scheme → "@"%char ∉ to_bytes info →
  redactURL (scheme +:+ "://" +:+ info +:+ "@" +:+ rest) = scheme +:+ "://" +:+ rest.
Proof.
  intros Hs Hi. unfold redactURL. rewrite !to_bytes_app, cut_str_scheme by done.
  rewrite (proj2 (cut_at_iff _ _ _ _)) by (split; [reflexivity|done]).
  apply to_bytes_inj. by rewrite to_of_bytes, !to_bytes_app.
Qed.

Lemma redactURL_plain u : "@"%char ∉ to_bytes u → redactURL u = u.
Proof.
  intros Hu. unfold redactURL. destruct (cut_str _ _) as [[a b]|] eqn:E; [|done].
  destruct (cut_at "@"%char b) as [[i r]|] eqn:E'; [|done].
  apply cut_str_Some in E. apply cut_at_iff in E' as [-> _].
  exfalso. apply Hu. rewrite E, !elem_of_app, elem_of_cons. auto.
Qed.

(** An at sign further on is taken for the end of user information: the log then names
    another host. *)
Example redact_names_another_host : redactURL "https://mirror.corp/npm/@evil.example/pkg" = "https://evil.example/pkg".
Proof. reflexivity. Qed.

(** ** The file of the log *)

Section jsonl.
Context (marshal : AuditEvent → result string bytes).
(** How much of its bytes each write puts into the file; what a write reports is dropped. *)
Context (room : nat → bytes → nat).

Record log_file := mkLog { lg_bytes : bytes; lg_writes : nat }.
Definition log_Write (l : log_file) (b : bytes) : log_file := mkLog (lg_bytes l ++ take (room (lg_writes l) b) b) (S (lg_writes l)).

(** [JSONLSink.Emit] *)
Definition jsonl_Emit (l : log_file) (ev : AuditEvent) : log_file :=
  match marshal ev with
  | Err _ => l
  | Ok b => log_Write (log_Write l b) [chr 10]
  end.
Definition logged (evs : list AuditEvent) : bytes := lg_bytes (foldl jsonl_Emit (mkLog [] 0) evs).
Definition log_line (ev : AuditEvent) : bytes := match marshal ev with Ok b => b ++ [chr 10] | Err _ => [] end.

(** As long as the writes are whole the file has a line for each event. *)
Lemma logged_lines evs : (∀ n b, length b ≤ room n b) → logged evs = evs ≫= log_line.
Proof.
  intros Hroom. unfold logged. assert (∀ l, lg_bytes (foldl jsonl_Emit l evs) = lg_bytes l ++ (evs ≫= log_line)) as H; [|by rewrite H].
  induction evs as [|ev evs IH]; intros l; simpl; [by rewrite app_nil_r|]. rewrite IH. unfold jsonl_Emit, log_line.
  destruct (marshal ev) as [b|e]; [|done]. unfold log_Write. cbn [lg_bytes lg_writes]. rewrite !take_ge by apply Hroom. by rewrite <-!app_assoc.
Qed.
End jsonl.

(** ** A concrete registry *)

Definition demo_host (u : string) : string :=
  match cut_str (to_bytes "://") (to_bytes u) with
  | Some (_, r) => match cut_at "/"%char r with Some (h, _) => of_bytes h | None => of_bytes r end
  | None => ""
  end.
Definition demo_url (s : string) : result string string := if ContainsStr s "://" then Ok s else Err "missing protocol scheme".
Definition demo_join (base : string) (segs : list string) : string := base +:+ "/" +:+ Join segs "/".

(** The registry redirects to a store of objects. *)
Definition demo_network (before : list string) (u : string) : result string Response :=
  if decide (demo_host u = "bcr.bazel.build") then Ok (mkResponse 302 "" "https://objects.example/x" 0 (mkBody [] None))
  else Ok (mkResponse 200 "text/plain" "" 3 (mkBody (to_bytes "abc") None)).

Definition demo_get (c : Client) (u : string) : result FetchErr Response * wire :=
  get id demo_host demo_url (λ _ l, Ok l) demo_network (λ _, 0%Z) [] c u (mkWire [] [] 0).
Definition demo_client (allow hosts : list string) : Client := NewClient (mkEgressPolicy ModeAudit allow) Recording hosts.

Lemma guards_transparent_witness :
  (demo_get (demo_client ["*.build"; "objects.example"] ["*.bazel.build"; "OBJECTS.example"]) "https://bcr.bazel.build/a").1 =
  (demo_get open_client "https://bcr.bazel.build/a").1.
Proof.
  apply (guards_transparent id demo_host demo_url (λ _ l, Ok l) demo_network (λ _, 0%Z) []).
  - right. exists "https://bcr.bazel.build/a", "*.bazel.build". split_and!; [done|done|by left|done|].
    right. exists "bazel.build", "bcr". done.
  - intros v Hv. vm_compute in Hv. apply elem_of_cons in Hv as [->|Hv%list_elem_of_singleton]; [|subst v].
    + split; [split; [done|]|]; right.
      * exists "*.build". split; [by left|]. right. exists "build", "bcr.bazel". done.
      * exists "https://bcr.bazel.build/a", "*.bazel.build". split_and!; [done|done|by left|done|].
        right. exists "bazel.build", "bcr". done.
    + split; [split; [done|]|]; right.
      * exists "objects.example". split; [by right; left|]. by left.
      * exists "https://objects.example/x", "OBJECTS.example". split_and!; [done|done|by right; left|done|by left].
Defined.

(** A redirect to a host that is not listed stops there, with its denial logged. *)
Example redirect_stopped :
  let r := demo_get (demo_client ["*.build"] []) "https://bcr.bazel.build/a" in
  w_sent r.2 = ["https://bcr.bazel.build/a"] ∧
  ev_Outcome <$> w_events r.2 = ["ok"; "denied"] ∧ ev_Host <$> w_events r.2 = ["bcr.bazel.build"; "objects.example"].
Proof. vm_compute. split_and!; reflexivity. Qed.

(** The two guards read a blank entry differently: in the policy it admits a request
    without a host, in the client's allowlist it is skipped. *)
Example blank_entry :
  Check_url demo_host (mkEgressPolicy ModeAllow [" "]) (Some (Some "file:///etc/hosts")) = None ∧
  hostAllowed demo_host demo_url "file:///etc/hosts" [" "] = false.
Proof. vm_compute. split; reflexivity. Qed.
