(* ===== verification/Index.v ===== *)
(** * The index store

    The module tables of [internal/store] (store.go, reports.go, versions.go, search.go,
    scip.go, maintainers.go, schema.sql): their rows, keys and cascades, and the
    operations as the statements they run.  The JSON codec and the clock's text are
    parameters; a statement the schema refuses rolls its transaction back. *)

From S2P Require Import Prelude Report.

(** A (module, version) pair, the key of most tables. *)
Abbreviation coord := (string * string)%type.

(** A row of [versions] without its key. *)
Record VersionCols := mkVersionCols {
  vc_compatibility_level : Z;
  vc_bazel_compatibility : string;
  vc_ingested_at : string;
  vc_hermeticity_json : string;
  vc_tarball_size : Z;
  vc_has_source_index : bool;
  vc_drift_summary_json : string;
  vc_report_json : string;
}.

(** A row of [rules] or [providers], whose key is the coordinate, the name and the file. *)
Record SymbolCols := mkSymbolCols { sc_line : Z; sc_doc : string; sc_private : bool }.
Abbreviation symbol_key := (coord * (string * string))%type.

(** A row of [fts_meta]. *)
Record FtsMeta := mkFtsMeta { fm_coord : coord; fm_kind : string; fm_name : string; fm_file : string }.

Record Index := mkIndex {
  ix_modules : gset string;
  ix_versions : gmap coord VersionCols;
  ix_rules : gmap symbol_key SymbolCols;
  ix_providers : gmap symbol_key SymbolCols;
  ix_classes : gset (coord * string);
  ix_fts_text : gmap Z string;
  ix_fts_meta : gmap Z FtsMeta;
  ix_scip : gmap coord string;
}.

Definition emptyIndex : Index := mkIndex ∅ ∅ ∅ ∅ ∅ ∅ ∅ ∅.

(** ** Statements *)

(** [INSERT OR IGNORE INTO modules] *)
Definition insert_module (name : string) (ix : Index) : Index :=
  mkIndex ({[name]} ∪ ix_modules ix) (ix_versions ix) (ix_rules ix) (ix_providers ix) (ix_classes ix)
    (ix_fts_text ix) (ix_fts_meta ix) (ix_scip ix).

Definition set_versions (vs : gmap coord VersionCols) (ix : Index) : Index :=
  mkIndex (ix_modules ix) vs (ix_rules ix) (ix_providers ix) (ix_classes ix)
    (ix_fts_text ix) (ix_fts_meta ix) (ix_scip ix).

(** [DELETE FROM versions]: the foreign keys cascade to the rows of that version. *)
Definition delete_version (k : coord) (ix : Index) : Index :=
  mkIndex (ix_modules ix) (delete k (ix_versions ix))
    (filter (λ kv, kv.1.1 ≠ k) (ix_rules ix)) (filter (λ kv, kv.1.1 ≠ k) (ix_providers ix))
    (filter (λ kc, kc.1 ≠ k) (ix_classes ix))
    (ix_fts_text ix) (ix_fts_meta ix) (delete k (ix_scip ix)).

(** The two deletions that clear the text index of a version: the texts whose row
    number is listed, then the rows that list them. *)
Definition clear_fts (k : coord) (ix : Index) : Index :=
  mkIndex (ix_modules ix) (ix_versions ix) (ix_rules ix) (ix_providers ix) (ix_classes ix)
    (filter (λ rt, (fm_coord <$> ix_fts_meta ix !! rt.1) ≠ Some k) (ix_fts_text ix))
    (filter (λ rm, fm_coord rm.2 ≠ k) (ix_fts_meta ix)) (ix_scip ix).

(** The row number of an insertion: one more than the largest in use. *)
Definition next_rowid {V} (t : gmap Z V) : Z := (foldr Z.max 0 (map_to_list t).*1 + 1)%Z.

(** [insertFTS] *)
Definition insertFTS (k : coord) (kind name file text : string) (ix : Index) : result string Index :=
  let rowid := next_rowid (ix_fts_text ix) in
  match ix_fts_meta ix !! rowid with
  | Some _ => Err "insert fts_meta: UNIQUE constraint failed: fts_meta.rowid"
  | None =>
      Ok (mkIndex (ix_modules ix) (ix_versions ix) (ix_rules ix) (ix_providers ix) (ix_classes ix)
            (<[rowid := text]> (ix_fts_text ix)) (<[rowid := mkFtsMeta k kind name file]> (ix_fts_meta ix)) (ix_scip ix))
  end.

Definition insert_rule (k : coord) (r : RuleSpec) (ix : Index) : result string Index :=
  let key := (k, (rule_Name r, prov_File (rule_Provenance r))) in
  match ix_rules ix !! key with
  | Some _ => Err ("insert rule " +:+ rule_Name r +:+ ": UNIQUE constraint failed")
  | None =>
      insertFTS k "rule" (rule_Name r) (prov_File (rule_Provenance r)) (rule_Name r +:+ " " +:+ rule_Doc r)
        (mkIndex (ix_modules ix) (ix_versions ix)
           (<[key := mkSymbolCols (prov_StartRow (rule_Provenance r)) (rule_Doc r) (rule_Private r)]> (ix_rules ix))
           (ix_providers ix) (ix_classes ix) (ix_fts_text ix) (ix_fts_meta ix) (ix_scip ix))
  end.

Definition insert_provider (k : coord) (p : ProviderSpec) (ix : Index) : result string Index :=
  let key := (k, (provider_Name p, prov_File (provider_Provenance p))) in
  match ix_providers ix !! key with
  | Some _ => Err ("insert provider " +:+ provider_Name p +:+ ": UNIQUE constraint failed")
  | None =>
      insertFTS k "provider" (provider_Name p) (prov_File (provider_Provenance p))
        (provider_Name p +:+ " " +:+ provider_Doc p)
        (mkIndex (ix_modules ix) (ix_versions ix) (ix_rules ix)
           (<[key := mkSymbolCols (prov_StartRow (provider_Provenance p)) (provider_Doc p) (provider_Private p)]> (ix_providers ix))
           (ix_classes ix) (ix_fts_text ix) (ix_fts_meta ix) (ix_scip ix))
  end.

Definition insert_macro (k : coord) (m : MacroSpec) : Index → result string Index :=
  insertFTS k "macro" (macro_Name m) (prov_File (macro_Provenance m)) (macro_Name m +:+ " " +:+ macro_Doc m).

(** [INSERT OR REPLACE INTO hermeticity_classes] *)
Definition insert_class (k : coord) (c : string) (ix : Index) : Index :=
  mkIndex (ix_modules ix) (ix_versions ix) (ix_rules ix) (ix_providers ix) ({[(k, c)]} ∪ ix_classes ix)
    (ix_fts_text ix) (ix_fts_meta ix) (ix_scip ix).

(** A loop of statements inside a transaction stops at the first that is refused. *)
Definition each {A} (f : A → Index → result string Index) (l : list A) (r : result string Index) : result string Index :=
  foldl (λ r x, match r with Ok ix => f x ix | Err e => Err e end) r l.

Section store.
(** [json.Marshal] of the compatibility list, the hermeticity profile and the report;
    [json.Unmarshal] of a report. *)
Context (json_compat : list string → string) (json_herm : HermeticityProfile → string).
Context (json_report : ModuleReport → string) (decode_report : string → result string ModuleReport).

(** The columns a new row gets, defaults included. *)
Definition fresh_cols (now : string) (r : ModuleReport) : VersionCols :=
  mkVersionCols (rep_CompatibilityLevel r) (json_compat (rep_BazelCompatibility r)) now
    (json_herm (rep_Hermeticity r)) 0 false "{}" (json_report r).

Definition coord_of (r : ModuleReport) : coord := (rep_Name r, rep_Version r).

(** [WriteReport], its transaction: [Err] is a rollback. *)
Definition WriteReport (now : string) (r : ModuleReport) (ix : Index) : result string Index :=
  let k := coord_of r in
  if decide (rep_Name r = "") then Err "report has empty Name"
  else
    let ix := delete_version k (insert_module (rep_Name r) ix) in
    let ix := clear_fts k (set_versions (<[k := fresh_cols now r]> (ix_versions ix)) ix) in
    let ixr := insertFTS k "module" (rep_Name r) "" (rep_Name r) ix in
    let ixr := each (insert_rule k) (rep_Rules r) ixr in
    let ixr := each (insert_provider k) (rep_Providers r) ixr in
    let ixr := each (insert_macro k) (rep_Macros r) ixr in
    each (λ c ix, Ok (insert_class k c ix)) (herm_Classes (rep_Hermeticity r)) ixr.

Definition GetReport (ix : Index) (name version : string) : result string ModuleReport :=
  match ix_versions ix !! (name, version) with
  | None => Err (name +:+ "@" +:+ version +:+ ": not found")
  | Some c => map_err (λ e, "decode report: " +:+ e) (decode_report (vc_report_json c))
  end.

(** [UpsertSeedVersion]: both insertions ignore a row that is there. *)
Definition UpsertSeedVersion (now name version : string) (ix : Index) : result string Index :=
  if decide (name = "" ∨ version = "") then Err "UpsertSeedVersion: module + version required"
  else
    let ix := insert_module name ix in
    match ix_versions ix !! (name, version) with
    | Some _ => Ok ix
    | None => Ok (set_versions (<[(name, version) := mkVersionCols 0 "{}" now "{}" 0 false "{}" "{}"]> (ix_versions ix)) ix)
    end.

(** The updates of one column; a row that is not there is left alone. *)
Definition update_cols (f : VersionCols → VersionCols) (name version : string) (ix : Index) : Index :=
  set_versions (alter f (name, version) (ix_versions ix)) ix.

Definition SetTarballSize (name version : string) (size : Z) (ix : Index) : result string Index :=
  if decide (name = "" ∨ version = "") then Err "SetTarballSize: module + version required"
  else Ok (update_cols (λ c, mkVersionCols (vc_compatibility_level c) (vc_bazel_compatibility c) (vc_ingested_at c)
             (vc_hermeticity_json c) size (vc_has_source_index c) (vc_drift_summary_json c) (vc_report_json c)) name version ix).

Definition SetHasSourceIndex (name version : string) (has : bool) (ix : Index) : result string Index :=
  if decide (name = "" ∨ version = "") then Err "SetHasSourceIndex: module + version required"
  else Ok (update_cols (λ c, mkVersionCols (vc_compatibility_level c) (vc_bazel_compatibility c) (vc_ingested_at c)
             (vc_hermeticity_json c) (vc_tarball_size c) has (vc_drift_summary_json c) (vc_report_json c)) name version ix).

Definition SetDriftColumn (name version payload : string) (ix : Index) : result string Index :=
  if decide (name = "" ∨ version = "") then Err "SetDriftSummary: module + version required"
  else Ok (update_cols (λ c, mkVersionCols (vc_compatibility_level c) (vc_bazel_compatibility c) (vc_ingested_at c)
             (vc_hermeticity_json c) (vc_tarball_size c) (vc_has_source_index c)
             (if decide (payload = "") then "{}" else payload) (vc_report_json c)) name version ix).

(** [GetDriftSummary]: a row that is not there reads as one without drift. *)
Definition GetDriftSummary (ix : Index) (name version : string) : string :=
  match ix_versions ix !! (name, version) with
  | Some c => if decide (vc_drift_summary_json c = "") then "{}" else vc_drift_summary_json c
  | None => "{}"
  end.

Definition GetHasSourceIndex (ix : Index) (name version : string) : bool :=
  match ix_versions ix !! (name, version) with Some c => vc_has_source_index c | None => false end.
Definition GetTarballSize (ix : Index) (name version : string) : Z :=
  match ix_versions ix !! (name, version) with Some c => vc_tarball_size c | None => 0 end.
Definition VersionExists (ix : Index) (name version : string) : bool := bool_decide (is_Some (ix_versions ix !! (name, version))).

(** [WriteScipBlob]: the foreign key wants the version's row. *)
Definition WriteScipBlob (name version blob : string) (ix : Index) : result string Index :=
  if decide (name = "" ∨ version = "") then Err "WriteScipBlob: module + version required"
  else match ix_versions ix !! (name, version) with
       | None => Err ("write scip blob " +:+ name +:+ "@" +:+ version +:+ ": FOREIGN KEY constraint failed")
       | Some _ =>
           Ok (mkIndex (ix_modules ix) (ix_versions ix) (ix_rules ix) (ix_providers ix) (ix_classes ix)
                 (ix_fts_text ix) (ix_fts_meta ix) (<[(name, version) := blob]> (ix_scip ix)))
       end.

Definition GetScipBlob (ix : Index) (name version : string) : result string string :=
  match ix_scip ix !! (name, version) with
  | Some b => Ok b
  | None => Err (name +:+ "@" +:+ version +:+ ": scip blob not found")
  end.

(** [ORDER BY module_name, version] *)
Definition coord_less (a b : coord) : bool := lex_less fst String.ltb (λ a b, String.ltb a.2 b.2) a b.

Definition ListScipVersions (ix : Index) : list coord := sort_slice coord_less (map_to_list (ix_scip ix)).*1.

(** [ListAllVersions], with the column the caller parses. *)
Definition row_less (a b : coord * VersionCols) : bool := coord_less a.1 b.1.
Definition ListAllVersions (ix : Index) : list (coord * VersionCols) := sort_slice row_less (map_to_list (ix_versions ix)).

(** [ListVersionsWithMeta]: [WHERE module_name = ? ORDER BY version DESC]. *)
Definition version_greater (a b : string * VersionCols) : bool := String.ltb b.1 a.1.
Definition ListVersionsWithMeta (ix : Index) (name : string) : list (string * VersionCols) :=
  sort_slice version_greater ((λ kc, (kc.1.2, kc.2)) <$> filter (λ kc, kc.1.1 = name) (map_to_list (ix_versions ix))).
Definition ListVersions (ix : Index) (name : string) : list string := (ListVersionsWithMeta ix name).*1.
End store.

(** ** Well-formedness *)

(** What the schema's keys promise, and that the two text tables number their rows alike. *)
Record index_wf (ix : Index) : Prop := {
  wf_modules : ∀ k, is_Some (ix_versions ix !! k) → k.1 ∈ ix_modules ix;
  wf_rules : ∀ sk, is_Some (ix_rules ix !! sk) → is_Some (ix_versions ix !! sk.1);
  wf_providers : ∀ sk, is_Some (ix_providers ix !! sk) → is_Some (ix_versions ix !! sk.1);
  wf_classes : ∀ k c, (k, c) ∈ ix_classes ix → is_Some (ix_versions ix !! k);
  wf_scip : ∀ k, is_Some (ix_scip ix !! k) → is_Some (ix_versions ix !! k);
  wf_rowids : dom (ix_fts_text ix) = dom (ix_fts_meta ix);
  wf_meta : ∀ rid m, ix_fts_meta ix !! rid = Some m → is_Some (ix_versions ix !! fm_coord m);
}.

(** The text index as its readers see it: the rows of the two tables joined. *)
Abbreviation entry := (string * string * string * string)%type.
Definition joined (texts : gmap Z string) (rm : Z * FtsMeta) : option (coord * entry) :=
  match texts !! rm.1 with
  | Some t => Some (fm_coord rm.2, (fm_kind rm.2, fm_name rm.2, fm_file rm.2, t))
  | None => None
  end.
Definition fts_view (ix : Index) : list (coord * entry) := omap (joined (ix_fts_text ix)) (map_to_list (ix_fts_meta ix)).

(** The keys and entries a report stands for. *)
Definition rule_key (r : RuleSpec) : string * string := (rule_Name r, prov_File (rule_Provenance r)).
Definition provider_key (p : ProviderSpec) : string * string := (provider_Name p, prov_File (provider_Provenance p)).
Definition rule_entry (r : RuleSpec) : entry :=
  ("rule", rule_Name r, prov_File (rule_Provenance r), rule_Name r +:+ " " +:+ rule_Doc r).
Definition provider_entry (p : ProviderSpec) : entry :=
  ("provider", provider_Name p, prov_File (provider_Provenance p), provider_Name p +:+ " " +:+ provider_Doc p).
Definition macro_entry (m : MacroSpec) : entry :=
  ("macro", macro_Name m, prov_File (macro_Provenance m), macro_Name m +:+ " " +:+ macro_Doc m).
Definition entries (r : ModuleReport) : list entry :=
  ("module", rep_Name r, "", rep_Name r) :: (rule_entry <$> rep_Rules r) ++
  (provider_entry <$> rep_Providers r) ++ (macro_entry <$> rep_Macros r).

(** A new row number is in no row. *)
Lemma next_rowid_fresh {V} (t : gmap Z V) : t !! next_rowid t = None.
Proof.
  assert (∀ z, z ∈ (map_to_list t).*1 → (z < next_rowid t)%Z) as H.
  { unfold next_rowid. induction (map_to_list t).*1 as [|x l IH]; intros z Hz; [by apply elem_of_nil in Hz|].
    apply elem_of_cons in Hz as [->|Hz]; simpl; [lia|]. specialize (IH z Hz). lia. }
  apply eq_None_not_Some. intros [v Hv]. specialize (H (next_rowid t)).
  assert (next_rowid t ∈ (map_to_list t).*1) as Hin.
  { apply list_elem_of_fmap. exists (next_rowid t, v). split; [done|]. by apply elem_of_map_to_list. }
  specialize (H Hin). lia.
Qed.

(** What one or several insertions under the coordinate [k] write: symbols and entries. *)
Record wrote (k : coord) (ix ix' : Index) (rs ps : list ((string * string) * SymbolCols)) (es : list entry) : Prop := {
  wr_modules : ix_modules ix' = ix_modules ix;
  wr_versions : ix_versions ix' = ix_versions ix;
  wr_scip : ix_scip ix' = ix_scip ix;
  wr_classes : ix_classes ix' = ix_classes ix;
  wr_rules : ix_rules ix' = foldl (λ m e, <[(k, e.1) := e.2]> m) (ix_rules ix) rs;
  wr_providers : ix_providers ix' = foldl (λ m e, <[(k, e.1) := e.2]> m) (ix_providers ix) ps;
  wr_rowids : dom (ix_fts_text ix') = dom (ix_fts_meta ix');
  wr_fts : fts_view ix' ≡ₚ (pair k <$> es) ++ fts_view ix;
}.

Lemma wrote_nil k ix : dom (ix_fts_text ix) = dom (ix_fts_meta ix) → wrote k ix ix [] [] [].
Proof. by split. Qed.

Lemma wrote_trans k ix1 ix2 ix3 rs1 ps1 es1 rs2 ps2 es2 :
  wrote k ix1 ix2 rs1 ps1 es1 → wrote k ix2 ix3 rs2 ps2 es2 →
  wrote k ix1 ix3 (rs1 ++ rs2) (ps1 ++ ps2) (es1 ++ es2).
Proof.
  intros [] []. split; try congruence.
  - rewrite foldl_app. congruence.
  - rewrite foldl_app. congruence.
  - rewrite wr_fts1, wr_fts0, fmap_app. solve_Permutation.
Qed.

Lemma insertFTS_wrote k kind name file text ix :
  dom (ix_fts_text ix) = dom (ix_fts_meta ix) →
  ∃ ix', insertFTS k kind name file text ix = Ok ix' ∧ wrote k ix ix' [] [] [(kind, name, file, text)].
Proof.
  intros Hd. pose proof (next_rowid_fresh (ix_fts_text ix)) as Hf. unfold insertFTS.
  set (rid := next_rowid (ix_fts_text ix)) in *.
  assert (ix_fts_meta ix !! rid = None) as Hm by (apply not_elem_of_dom; rewrite <-Hd; by apply not_elem_of_dom).
  rewrite Hm. eexists. split; [done|]. split; simpl; try done.
  - rewrite !dom_insert_L. by rewrite Hd.
  - unfold fts_view. cbn [ix_fts_text ix_fts_meta]. rewrite map_to_list_insert by done. csimpl. unfold joined at 1. csimpl.
    rewrite lookup_insert_eq. csimpl. constructor.
    assert (∀ l, (∀ x, x ∈ l → x.1 ≠ rid) →
      omap (joined (<[rid:=text]> (ix_fts_text ix))) l = omap (joined (ix_fts_text ix)) l) as ->; [|done|].
    { intros l Hl. induction l as [|x l IH]; [done|]. csimpl. rewrite IH by (intros y Hy; apply Hl; by right).
      unfold joined. rewrite lookup_insert_ne; [done|]. intros E. apply (Hl x); [by left|done]. }
    intros [rid' m] Hx E. apply elem_of_map_to_list in Hx. simpl in E. subst. congruence.
Qed.

(** Loops of insertions. *)
Lemma each_Err {A} (f : A → Index → result string Index) l e : each f l (Err e) = Err e.
Proof. by induction l. Qed.

Lemma each_cons {A} (f : A → Index → result string Index) x l ix : each f (x :: l) (Ok ix) = each f l (f x ix).
Proof. done. Qed.

Lemma insert_rule_wrote k r ix :
  dom (ix_fts_text ix) = dom (ix_fts_meta ix) → ix_rules ix !! (k, rule_key r) = None →
  ∃ ix', insert_rule k r ix = Ok ix' ∧
    wrote k ix ix' [(rule_key r, mkSymbolCols (prov_StartRow (rule_Provenance r)) (rule_Doc r) (rule_Private r))] [] [rule_entry r].
Proof.
  intros Hd Hr. unfold insert_rule. unfold rule_key in Hr. rewrite Hr.
  edestruct insertFTS_wrote as (ix' & H & []); [|by exists ix'; split; [exact H|split]]. done.
Qed.

Lemma insert_provider_wrote k p ix :
  dom (ix_fts_text ix) = dom (ix_fts_meta ix) → ix_providers ix !! (k, provider_key p) = None →
  ∃ ix', insert_provider k p ix = Ok ix' ∧
    wrote k ix ix' [] [(provider_key p, mkSymbolCols (prov_StartRow (provider_Provenance p)) (provider_Doc p) (provider_Private p))] [provider_entry p].
Proof.
  intros Hd Hr. unfold insert_provider. unfold provider_key in Hr. rewrite Hr.
  edestruct insertFTS_wrote as (ix' & H & []); [|by exists ix'; split; [exact H|split]]. done.
Qed.

Definition rule_row (r : RuleSpec) : (string * string) * SymbolCols :=
  (rule_key r, mkSymbolCols (prov_StartRow (rule_Provenance r)) (rule_Doc r) (rule_Private r)).
Definition provider_row (p : ProviderSpec) : (string * string) * SymbolCols :=
  (provider_key p, mkSymbolCols (prov_StartRow (provider_Provenance p)) (provider_Doc p) (provider_Private p)).

Lemma each_rules k rs ix :
  dom (ix_fts_text ix) = dom (ix_fts_meta ix) → NoDup (rule_key <$> rs) →
  (∀ r, r ∈ rs → ix_rules ix !! (k, rule_key r) = None) →
  ∃ ix', each (insert_rule k) rs (Ok ix) = Ok ix' ∧ wrote k ix ix' (rule_row <$> rs) [] (rule_entry <$> rs).
Proof.
  revert ix. induction rs as [|r rs IH]; intros ix Hd Hnd Hf; [exists ix; split; [done|by apply wrote_nil]|].
  apply NoDup_cons in Hnd as [Hr Hnd].
  destruct (insert_rule_wrote k r ix Hd) as (ix1 & H1 & W1); [apply Hf; by left|].
  destruct (IH ix1) as (ix2 & H2 & W2); [by destruct W1|done| |].
  - intros r' Hr'. rewrite (wr_rules _ _ _ _ _ _ W1). simpl. rewrite lookup_insert_ne; [apply Hf; by right|].
    intros [= E1 E2]. apply Hr. apply list_elem_of_fmap. exists r'. by unfold rule_key; rewrite E1, E2.
  - exists ix2. rewrite each_cons, H1. split; [done|]. by apply (wrote_trans _ _ _ _ _ _ _ _ _ _ W1 W2).
Qed.

Lemma each_providers k ps ix :
  dom (ix_fts_text ix) = dom (ix_fts_meta ix) → NoDup (provider_key <$> ps) →
  (∀ p, p ∈ ps → ix_providers ix !! (k, provider_key p) = None) →
  ∃ ix', each (insert_provider k) ps (Ok ix) = Ok ix' ∧ wrote k ix ix' [] (provider_row <$> ps) (provider_entry <$> ps).
Proof.
  revert ix. induction ps as [|p ps IH]; intros ix Hd Hnd Hf; [exists ix; split; [done|by apply wrote_nil]|].
  apply NoDup_cons in Hnd as [Hr Hnd].
  destruct (insert_provider_wrote k p ix Hd) as (ix1 & H1 & W1); [apply Hf; by left|].
  destruct (IH ix1) as (ix2 & H2 & W2); [by destruct W1|done| |].
  - intros r' Hr'. rewrite (wr_providers _ _ _ _ _ _ W1). simpl. rewrite lookup_insert_ne; [apply Hf; by right|].
    intros [= E1 E2]. apply Hr. apply list_elem_of_fmap. exists r'. by unfold provider_key; rewrite E1, E2.
  - exists ix2. rewrite each_cons, H1. split; [done|]. by apply (wrote_trans _ _ _ _ _ _ _ _ _ _ W1 W2).
Qed.

Lemma each_macros k ms ix :
  dom (ix_fts_text ix) = dom (ix_fts_meta ix) →
  ∃ ix', each (insert_macro k) ms (Ok ix) = Ok ix' ∧ wrote k ix ix' [] [] (macro_entry <$> ms).
Proof.
  revert ix. induction ms as [|m ms IH]; intros ix Hd; [exists ix; split; [done|by apply wrote_nil]|].
  destruct (insertFTS_wrote k "macro" (macro_Name m) (prov_File (macro_Provenance m)) (macro_Name m +:+ " " +:+ macro_Doc m) ix Hd)
    as (ix1 & H1 & W1).
  destruct (IH ix1) as (ix2 & H2 & W2); [by destruct W1|].
  exists ix2. rewrite each_cons. unfold insert_macro at 2. rewrite H1. split; [done|].
  by apply (wrote_trans _ _ _ _ _ _ _ _ _ _ W1 W2).
Qed.

Lemma each_classes k cs ix :
  each (λ c ix, Ok (insert_class k c ix)) cs (Ok ix) =
  Ok (mkIndex (ix_modules ix) (ix_versions ix) (ix_rules ix) (ix_providers ix)
        (foldl (λ s c, {[(k, c)]} ∪ s) (ix_classes ix) cs) (ix_fts_text ix) (ix_fts_meta ix) (ix_scip ix)).
Proof. revert ix. induction cs as [|c cs IH]; intros ix; [by destruct ix|]. rewrite each_cons, IH. done. Qed.

Lemma elem_of_classes (k : coord) (cs : list string) (s : gset (coord * string)) x :
  x ∈ foldl (λ s c, {[(k, c)]} ∪ s) s cs ↔ x ∈ s ∨ (x.1 = k ∧ x.2 ∈ cs).
Proof.
  revert s. induction cs as [|c cs IH]; intros s; simpl; [split; [by left|]; intros [?|[_ H]]; [done|by apply elem_of_nil in H]|].
  rewrite IH, elem_of_union, elem_of_singleton, elem_of_cons. destruct x as [k' c']. simpl. naive_solver.
Qed.

(** A loop that succeeds has inserted distinct keys that were free. *)
Lemma insertFTS_fields k kind name file text ix ix' :
  insertFTS k kind name file text ix = Ok ix' →
  ix_rules ix' = ix_rules ix ∧ ix_providers ix' = ix_providers ix.
Proof. unfold insertFTS. destruct (_ !! _); [done|]. by intros [= <-]. Qed.

Lemma each_rules_inv k rs ix ix' :
  each (insert_rule k) rs (Ok ix) = Ok ix' →
  NoDup (rule_key <$> rs) ∧ (∀ r, r ∈ rs → ix_rules ix !! (k, rule_key r) = None).
Proof.
  revert ix. induction rs as [|r rs IH]; intros ix; [split; [constructor|intros ? H'; by apply elem_of_nil in H']|].
  rewrite each_cons. destruct (insert_rule k r ix) as [ix1|e] eqn:E; [|by rewrite each_Err].
  intros (Hnd & Hf)%IH. unfold insert_rule in E. fold (rule_key r) in E.
  destruct (ix_rules ix !! (k, rule_key r)) eqn:Er; [done|]. apply insertFTS_fields in E as [E _]. simpl in E.
  rewrite E in Hf. split.
  - constructor; [|done]. intros (r' & Hk & Hin)%list_elem_of_fmap. specialize (Hf r' Hin).
    rewrite <-Hk in Hf. by rewrite lookup_insert_eq in Hf.
  - intros r' [->|Hin]%elem_of_cons; [done|]. specialize (Hf r' Hin). by apply lookup_insert_None in Hf as [? _].
Qed.

Lemma each_providers_inv k ps ix ix' :
  each (insert_provider k) ps (Ok ix) = Ok ix' → NoDup (provider_key <$> ps).
Proof.
  assert (each (insert_provider k) ps (Ok ix) = Ok ix' →
    NoDup (provider_key <$> ps) ∧ (∀ p, p ∈ ps → ix_providers ix !! (k, provider_key p) = None)) as H; [|by intros [? _]%H].
  revert ix. induction ps as [|p ps IH]; intros ix; [split; [constructor|intros ? H'; by apply elem_of_nil in H']|].
  rewrite each_cons. destruct (insert_provider k p ix) as [ix1|e] eqn:E; [|by rewrite each_Err].
  intros (Hnd & Hf)%IH. unfold insert_provider in E. fold (provider_key p) in E.
  destruct (ix_providers ix !! (k, provider_key p)) eqn:Er; [done|]. apply insertFTS_fields in E as [_ E]. simpl in E.
  rewrite E in Hf. split.
  - constructor; [|done]. intros (r' & Hk & Hin)%list_elem_of_fmap. specialize (Hf r' Hin).
    rewrite <-Hk in Hf. by rewrite lookup_insert_eq in Hf.
  - intros r' [->|Hin]%elem_of_cons; [done|]. specialize (Hf r' Hin). by apply lookup_insert_None in Hf as [? _].
Qed.

(** ** Writing a report *)

Lemma joined_kept ix k x :
  x ∈ map_to_list (ix_fts_meta ix) → fm_coord x.2 ≠ k →
  joined (ix_fts_text (clear_fts k ix)) x = joined (ix_fts_text ix) x.
Proof.
  intros Hx Hk. unfold joined, clear_fts. cbn [ix_fts_text].
  destruct (ix_fts_text ix !! x.1) as [t|] eqn:E.
  - assert (filter (λ rt, (fm_coord <$> ix_fts_meta ix !! rt.1) ≠ Some k) (ix_fts_text ix) !! x.1 = Some t) as ->; [|done].
    apply map_lookup_filter_Some. split; [done|]. simpl.
    destruct x as [rid m]. apply elem_of_map_to_list in Hx. simpl in *. rewrite Hx. simpl. congruence.
  - assert (filter (λ rt, (fm_coord <$> ix_fts_meta ix !! rt.1) ≠ Some k) (ix_fts_text ix) !! x.1 = None) as ->; [|done].
    apply map_lookup_filter_None. by left.
Qed.

Lemma map_to_list_filter {V} (P : Z * V → Prop) `{∀ x, Decision (P x)} (m : gmap Z V) :
  map_to_list (filter P m) ≡ₚ filter P (map_to_list m).
Proof. rewrite map_filter_alt. apply map_to_list_to_map. apply NoDup_fmap_filter, NoDup_fst_map_to_list. Qed.

(** The symbol rows of a report, by name and file. *)
Definition rows_of (l : list ((string * string) * SymbolCols)) : gmap (string * string) SymbolCols := list_to_map l.

Lemma lookup_rows (k : coord) (l : list ((string * string) * SymbolCols)) (m : gmap symbol_key SymbolCols) (k' : coord) (f : string * string) :
  NoDup l.*1 → (∀ f, m !! (k, f) = None) →
  foldl (λ m e, <[(k, e.1) := e.2]> m) m l !! (k', f) = if decide (k' = k) then rows_of l !! f else m !! (k', f).
Proof.
  unfold rows_of. induction l as [|[g v] l IH] using rev_ind; intros Hnd Hm; simpl.
  { case_decide; [subst; by rewrite Hm, lookup_empty|done]. }
  rewrite fmap_app in Hnd. apply NoDup_app in Hnd as (Hnd & Hd & _).
  assert (g ∉ l.*1) as Hg by (intros Hg; apply (Hd g Hg); by left).
  rewrite foldl_app. simpl. rewrite list_to_map_app. simpl.
  destruct (decide ((k', f) = (k, g))) as [[= -> ->]|Hne].
  - rewrite lookup_insert_eq, decide_True by done. rewrite lookup_union_r by by apply not_elem_of_list_to_map.
    by rewrite insert_empty, lookup_singleton_eq.
  - rewrite lookup_insert_ne by congruence. rewrite (IH Hnd Hm). case_decide; [|done]. subst.
    rewrite lookup_union, insert_empty, lookup_singleton_ne by congruence. by destruct (list_to_map l !! f).
Qed.

Lemma clear_fts_view k ix : fts_view (clear_fts k ix) ≡ₚ filter (λ e, e.1 ≠ k) (fts_view ix).
Proof.
  pose proof (joined_kept ix k) as Hj. unfold fts_view.
  change (ix_fts_meta (clear_fts k ix)) with (filter (λ rm : Z * FtsMeta, fm_coord rm.2 ≠ k) (ix_fts_meta ix)).
  revert Hj. generalize (ix_fts_text (clear_fts k ix)). intros texts Hj. rewrite map_to_list_filter.
  assert (∀ l : list (Z * FtsMeta), (∀ x, x ∈ l → x ∈ map_to_list (ix_fts_meta ix)) →
    omap (joined texts) (filter (λ rm, fm_coord rm.2 ≠ k) l) =
    filter (λ e, e.1 ≠ k) (omap (joined (ix_fts_text ix)) l)) as H; [|by rewrite H].
  intros l. induction l as [|x l IH]; intros Hl; [done|]. specialize (IH (λ y Hy, Hl y (list_elem_of_further y x l Hy))).
  rewrite filter_cons. destruct (decide (fm_coord x.2 ≠ k)) as [Hk|Hk]; csimpl.
  - rewrite Hj by (auto; apply Hl; by left). destruct (joined (ix_fts_text ix) x) as [e|] eqn:E; [|done].
    rewrite filter_cons_True, IH; [done|]. unfold joined in E. destruct (_ !! _); [|done]. by injection E as <-.
  - destruct (joined (ix_fts_text ix) x) as [e|] eqn:E; [|done]. rewrite filter_cons_False; [done|].
    unfold joined in E. destruct (_ !! _); [|done]. injection E as <-. simpl. done.
Qed.

Lemma clear_fts_rowids k ix :
  dom (ix_fts_text ix) = dom (ix_fts_meta ix) → dom (ix_fts_text (clear_fts k ix)) = dom (ix_fts_meta (clear_fts k ix)).
Proof.
  intros Hd. apply set_eq. intros rid. rewrite !elem_of_dom. unfold clear_fts. cbn [ix_fts_text ix_fts_meta].
  assert (is_Some (ix_fts_text ix !! rid) ↔ is_Some (ix_fts_meta ix !! rid)) as Hi by by rewrite <-!elem_of_dom, Hd.
  split; intros [x Hx]; apply map_lookup_filter_Some in Hx as [Hx Hk].
  - destruct (proj1 Hi) as [m Hm]; [by eexists|]. exists m. apply map_lookup_filter_Some. split; [done|].
    simpl in *. rewrite Hm in Hk. simpl in Hk. congruence.
  - destruct (proj2 Hi) as [t Ht]; [by eexists|]. exists t. apply map_lookup_filter_Some. split; [done|].
    simpl in *. rewrite Hx. simpl. congruence.
Qed.

Section written.
Context (json_compat : list string → string) (json_herm : HermeticityProfile → string).
Context (json_report : ModuleReport → string) (decode_report : string → result string ModuleReport).
Abbreviation WriteReport := (WriteReport json_compat json_herm json_report).
Abbreviation fresh_cols := (fresh_cols json_compat json_herm json_report).

(** The report names a module, and no rule or provider twice in a file. *)
Definition storable (r : ModuleReport) : Prop :=
  rep_Name r ≠ "" ∧ NoDup (rule_key <$> rep_Rules r) ∧ NoDup (provider_key <$> rep_Providers r).

(** The index a report leaves. *)
Record holds (now : string) (r : ModuleReport) (ix ix' : Index) : Prop := {
  ho_modules : ix_modules ix' = {[rep_Name r]} ∪ ix_modules ix;
  ho_versions : ix_versions ix' = <[coord_of r := fresh_cols now r]> (ix_versions ix);
  ho_rules : ∀ k f, ix_rules ix' !! (k, f) =
    if decide (k = coord_of r) then rows_of (rule_row <$> rep_Rules r) !! f else ix_rules ix !! (k, f);
  ho_providers : ∀ k f, ix_providers ix' !! (k, f) =
    if decide (k = coord_of r) then rows_of (provider_row <$> rep_Providers r) !! f else ix_providers ix !! (k, f);
  ho_classes : ∀ k c, (k, c) ∈ ix_classes ix' ↔
    (k = coord_of r ∧ c ∈ herm_Classes (rep_Hermeticity r)) ∨ (k ≠ coord_of r ∧ (k, c) ∈ ix_classes ix);
  ho_fts : fts_view ix' ≡ₚ (pair (coord_of r) <$> entries r) ++ filter (λ e, e.1 ≠ coord_of r) (fts_view ix);
  ho_rowids : dom (ix_fts_text ix') = dom (ix_fts_meta ix');
  ho_scip : ix_scip ix' = delete (coord_of r) (ix_scip ix);
}.

Lemma rule_rows_keys rs : (rule_row <$> rs).*1 = rule_key <$> rs.
Proof. by rewrite <-list_fmap_compose. Qed.
Lemma provider_rows_keys ps : (provider_row <$> ps).*1 = provider_key <$> ps.
Proof. by rewrite <-list_fmap_compose. Qed.

Lemma WriteReport_holds now r ix :
  dom (ix_fts_text ix) = dom (ix_fts_meta ix) → storable r →
  ∃ ix', WriteReport now r ix = Ok ix' ∧ holds now r ix ix'.
Proof.
  intros Hd (Hn & Hr & Hp). unfold Index.WriteReport. rewrite decide_False by done.
  set (base := clear_fts _ _).
  assert (dom (ix_fts_text base) = dom (ix_fts_meta base)) as Hdb by by apply clear_fts_rowids.
  assert (∀ f, ix_rules base !! (coord_of r, f) = None) as Hfr.
  { intros f. cbn. apply map_lookup_filter_None. right. intros x _. simpl. tauto. }
  assert (∀ f, ix_providers base !! (coord_of r, f) = None) as Hfp.
  { intros f. cbn. apply map_lookup_filter_None. right. intros x _. simpl. tauto. }
  destruct (insertFTS_wrote (coord_of r) "module" (rep_Name r) "" (rep_Name r) base Hdb) as (ix1 & E1 & W1). rewrite E1.
  destruct (each_rules (coord_of r) (rep_Rules r) ix1) as (ix2 & E2 & W2); [by destruct W1|done| |].
  { intros x _. rewrite (wr_rules _ _ _ _ _ _ W1). apply Hfr. }
  rewrite E2. pose proof (wrote_trans _ _ _ _ _ _ _ _ _ _ W1 W2) as W12. clear W1 W2.
  destruct (each_providers (coord_of r) (rep_Providers r) ix2) as (ix3 & E3 & W3); [by destruct W12|done| |].
  { intros x _. rewrite (wr_providers _ _ _ _ _ _ W12). apply Hfp. }
  rewrite E3. pose proof (wrote_trans _ _ _ _ _ _ _ _ _ _ W12 W3) as W13. clear W12 W3.
  destruct (each_macros (coord_of r) (rep_Macros r) ix3) as (ix4 & E4 & W4); [by destruct W13|].
  rewrite E4, each_classes. pose proof (wrote_trans _ _ _ _ _ _ _ _ _ _ W13 W4) as []. clear W13 W4.
  eexists. split; [done|]. split; cbn [ix_modules ix_versions ix_rules ix_providers ix_classes ix_fts_text ix_fts_meta ix_scip].
  - by rewrite wr_modules0.
  - rewrite wr_versions0. cbn. apply insert_delete_eq.
  - intros k f. rewrite wr_rules0, !app_nil_r. cbn [app].
    rewrite lookup_rows by (rewrite ?rule_rows_keys; done).
    case_decide as Hk; [done|]. cbn. rewrite map_lookup_filter. simpl.
    destruct (ix_rules ix !! (k, f)); simpl; [|done]. by rewrite option_guard_True.
  - intros k f. rewrite wr_providers0, !app_nil_r. cbn [app].
    rewrite lookup_rows by (rewrite ?provider_rows_keys; done).
    case_decide as Hk; [done|]. cbn. rewrite map_lookup_filter. simpl.
    destruct (ix_providers ix !! (k, f)); simpl; [|done]. by rewrite option_guard_True.
  - intros k c. rewrite elem_of_classes, wr_classes0. cbn. rewrite elem_of_filter. simpl. tauto.
  - unfold fts_view at 1. cbn [ix_fts_text ix_fts_meta]. fold (fts_view ix4). rewrite wr_fts0.
    unfold base at 1. rewrite clear_fts_view. unfold entries. rewrite <-!app_assoc. cbn [fmap list_fmap app]. done.
  - done.
  - rewrite wr_scip0. done.
Qed.

Lemma WriteReport_ok_storable now r ix ix' : WriteReport now r ix = Ok ix' → storable r.
Proof.
  unfold Index.WriteReport. case_decide as Hn; [done|]. set (base := clear_fts _ _).
  destruct (insertFTS _ _ _ _ _ base) as [ix1|e]; [|by rewrite !each_Err].
  destruct (each (insert_rule _) (rep_Rules r) (Ok ix1)) as [ix2|e] eqn:E2; [|by rewrite !each_Err].
  destruct (each (insert_provider _) (rep_Providers r) (Ok ix2)) as [ix3|e] eqn:E3; [|by rewrite !each_Err].
  intros _. split; [done|]. split; [by apply each_rules_inv in E2 as [? _]|by eapply each_providers_inv].
Qed.

Lemma rows_of_is_Some l f : is_Some (rows_of l !! f) → f ∈ l.*1.
Proof. intros [v Hv]. apply elem_of_list_to_map_2 in Hv. apply list_elem_of_fmap. by exists (f, v). Qed.

Lemma wf_meta_view ix : dom (ix_fts_text ix) = dom (ix_fts_meta ix) →
  (∀ rid m, ix_fts_meta ix !! rid = Some m → is_Some (ix_versions ix !! fm_coord m)) ↔
  (∀ e, e ∈ fts_view ix → is_Some (ix_versions ix !! e.1)).
Proof.
  intros Hd. unfold fts_view. split.
  - intros H e ([rid m] & Hin%elem_of_map_to_list & Hj)%list_elem_of_omap. unfold joined in Hj. simpl in Hj.
    destruct (ix_fts_text ix !! rid) as [t|]; [|done]. injection Hj as <-. by apply (H rid).
  - intros H rid m Hm.
    assert (is_Some (ix_fts_text ix !! rid)) as [t Ht] by (rewrite <-elem_of_dom, Hd; apply elem_of_dom; by eexists).
    apply (H (fm_coord m, (fm_kind m, fm_name m, fm_file m, t))). apply list_elem_of_omap.
    exists (rid, m). split; [by apply elem_of_map_to_list|]. unfold joined. simpl. by rewrite Ht.
Qed.

Lemma holds_wf now r ix ix' : index_wf ix → holds now r ix ix' → index_wf ix'.
Proof.
  intros [Hm Hr Hp Hc Hs Hd Hf] []. 
  assert (∀ k, is_Some (ix_versions ix !! k) → is_Some (ix_versions ix' !! k)) as Hv.
  { intros k Hk. rewrite ho_versions0. apply lookup_insert_is_Some'. by right. }
  assert (is_Some (ix_versions ix' !! coord_of r)) as Hk by (rewrite ho_versions0; apply lookup_insert_is_Some'; by left).
  split.
  - intros k. rewrite ho_versions0, ho_modules0. intros [<-|Hi]%lookup_insert_is_Some'; set_solver.
  - intros [k f]. rewrite ho_rules0. case_decide; [subst; done|]. intros Hi. by apply Hv, (Hr (k, f)).
  - intros [k f]. rewrite ho_providers0. case_decide; [subst; done|]. intros Hi. by apply Hv, (Hp (k, f)).
  - intros k c [[-> _]|[_ Hi]]%ho_classes0; [done|]. by eapply Hv, Hc.
  - intros k. rewrite ho_scip0. intros [_ Hi]%lookup_delete_is_Some. by apply Hv, Hs.
  - done.
  - apply wf_meta_view; [done|]. intros e. rewrite ho_fts0. intros [Hi|Hi]%elem_of_app.
    + apply list_elem_of_fmap in Hi as (x & -> & _). done.
    + apply list_elem_of_filter in Hi as [_ Hi]. apply Hv. by apply (proj1 (wf_meta_view ix Hd) Hf).
Qed.

(** ** The operations of the store *)

Inductive index_op : Type :=
| OpWrite (now : string) (r : ModuleReport)
| OpSeed (now name version : string)
| OpTarballSize (name version : string) (size : Z)
| OpHasSource (name version : string) (has : bool)
| OpDrift (name version payload : string)
| OpScip (name version blob : string).

(** An operation that is refused leaves the index as it was. *)
Definition run_index (ix : Index) (o : index_op) : Index :=
  match (match o with
         | OpWrite now r => WriteReport now r ix
         | OpSeed now n v => UpsertSeedVersion now n v ix
         | OpTarballSize n v z => SetTarballSize n v z ix
         | OpHasSource n v h => SetHasSourceIndex n v h ix
         | OpDrift n v d => SetDriftColumn n v d ix
         | OpScip n v b => WriteScipBlob n v b ix
         end) with
  | Ok ix' => ix'
  | Err _ => ix
  end.

Definition run_indexes (ops : list index_op) : Index := foldl run_index emptyIndex ops.

Lemma wf_versions_mono ix vs ms sc :
  index_wf ix → (∀ k, is_Some (ix_versions ix !! k) → is_Some (vs !! k)) →
  (∀ k, is_Some (vs !! k) → k.1 ∈ ms) → (∀ k, is_Some (sc !! k) → is_Some (vs !! k)) →
  index_wf (mkIndex ms vs (ix_rules ix) (ix_providers ix) (ix_classes ix) (ix_fts_text ix) (ix_fts_meta ix) sc).
Proof.
  intros [Hm Hr Hp Hc Hs Hd Hf] Hv Hms Hsc. split; simpl; eauto.
Qed.

Lemma update_cols_wf f n v ix : index_wf ix → index_wf (update_cols f n v ix).
Proof.
  intros H. assert (∀ k, is_Some (alter f (n, v) (ix_versions ix) !! k) ↔ is_Some (ix_versions ix !! k)) as Hi.
  { intros k. by rewrite lookup_alter_is_Some. }
  apply (wf_versions_mono ix); [done| | |]; intros k; rewrite ?Hi; destruct H; auto.
Qed.

Lemma run_index_wf ix o : index_wf ix → index_wf (run_index ix o).
Proof.
  intros H. destruct o as [now r|now n v|n v z|n v h|n v d|n v b]; unfold run_index.
  - destruct (WriteReport now r ix) as [ix'|] eqn:E; [|done].
    destruct (WriteReport_holds now r ix) as (ix2 & E2 & Hh); [by destruct H|by eapply WriteReport_ok_storable|].
    rewrite E in E2. injection E2 as ->. by eapply holds_wf.
  - unfold UpsertSeedVersion. case_decide; [done|]. cbn [insert_module ix_versions].
    destruct (ix_versions ix !! (n, v)) as [c|] eqn:E; simpl; pose proof H as [].
    + apply (wf_versions_mono ix); [done|auto| |auto]. intros k Hk. apply elem_of_union. right. auto.
    + apply (wf_versions_mono ix); [done| | |].
      * intros k Hk. apply lookup_insert_is_Some'. by right.
      * intros k [<-|Hk]%lookup_insert_is_Some'; set_solver.
      * intros k Hk. apply lookup_insert_is_Some'. right. auto.
  - unfold SetTarballSize. case_decide; [done|]. by apply update_cols_wf.
  - unfold SetHasSourceIndex. case_decide; [done|]. by apply update_cols_wf.
  - unfold SetDriftColumn. case_decide; [done|]. by apply update_cols_wf.
  - unfold WriteScipBlob. case_decide; [done|]. destruct (ix_versions ix !! (n, v)) as [c|] eqn:E; [|done].
    simpl. pose proof H as []. apply (wf_versions_mono ix); [done|auto|auto|].
    intros k [<-|Hk]%lookup_insert_is_Some'; [by eexists|auto].
Qed.

Lemma emptyIndex_wf : index_wf emptyIndex.
Proof.
  split; simpl; try (intros ? H; rewrite lookup_empty in H; by destruct H).
  - intros k c H. set_solver.
  - done.
  - intros rid m H. by rewrite lookup_empty in H.
Qed.

Lemma run_indexes_wf ops : index_wf (run_indexes ops).
Proof.
  unfold run_indexes. generalize emptyIndex, emptyIndex_wf. induction ops as [|o ops IH]; intros ix H; [done|].
  simpl. apply IH. by apply run_index_wf.
Qed.

(** C19: The store's tables stay consistent: after any operations, accepted or refused, every
    symbol, class, index blob and text row belongs to a version that is there, every
    version's module is there, and the two tables of the text index hold the same row
    numbers; an insertion is therefore never refused for its row number. *)
Theorem tables_consistent ops :
  let ix := run_indexes ops in
  index_wf ix ∧ ∀ k kind name file text, is_ok (insertFTS k kind name file text ix) = true.
Proof.
  cbn zeta. pose proof (run_indexes_wf ops) as H. split; [done|]. intros k kind name file text.
  destruct (insertFTS_wrote k kind name file text (run_indexes ops)) as (ix' & -> & _); [by destruct H|done].
Qed.

(** What a report's ingest leaves in the index, from any state the store reaches: it is
    accepted exactly when it names its module and no rule or provider twice in a file;
    then the tables hold for its coordinate exactly the report's rows (with size, flag,
    drift and navigation blob back at their defaults) and for every other coordinate
    what they held. *)
Theorem report_indexed ops now r :
  let ix := run_indexes ops in
  (is_ok (WriteReport now r ix) = true ↔ storable r) ∧
  (∀ ix', WriteReport now r ix = Ok ix' → holds now r ix ix').
Proof.
  cbn zeta. pose proof (run_indexes_wf ops) as Hwf.
  assert (storable r → ∃ ix', WriteReport now r (run_indexes ops) = Ok ix' ∧ holds now r (run_indexes ops) ix') as H.
  { intros Hs. apply WriteReport_holds; [by destruct Hwf|done]. }
  split.
  - split; [|by intros (ix' & -> & _)%H].
    destruct (WriteReport now r (run_indexes ops)) as [ix'|] eqn:E; [|done]. intros _. by eapply WriteReport_ok_storable.
  - intros ix' E. destruct (H (WriteReport_ok_storable _ _ _ _ E)) as (ix2 & E2 & Hh). congruence.
Qed.

(** ** The store as a map from coordinates to texts *)

(** The abstract store: a report written over whatever was there, a seed where there
    was nothing. *)
Definition spec_op (m : gmap coord string) (o : index_op) : gmap coord string :=
  match o with
  | OpWrite _ r => if bool_decide (rep_Name r ≠ "") && bool_decide (NoDup (rule_key <$> rep_Rules r)) &&
                      bool_decide (NoDup (provider_key <$> rep_Providers r))
                   then <[coord_of r := json_report r]> m else m
  | OpSeed _ n v => if decide (n = "" ∨ v = "") then m
                    else match m !! (n, v) with Some _ => m | None => <[(n, v) := "{}"]> m end
  | _ => m
  end.

Definition texts (ix : Index) : gmap coord string := vc_report_json <$> ix_versions ix.

Lemma update_cols_texts f n v ix :
  (∀ c, vc_report_json (f c) = vc_report_json c) → texts (update_cols f n v ix) = texts ix.
Proof.
  intros Hf. apply map_eq. intros k. unfold texts, update_cols, set_versions. simpl. rewrite !lookup_fmap.
  rewrite lookup_alter. case_decide; [subst|done]. destruct (ix_versions ix !! (n, v)); simpl; [|done]. by rewrite Hf.
Qed.

Lemma run_index_texts ix o : index_wf ix → texts (run_index ix o) = spec_op (texts ix) o.
Proof.
  intros H. destruct o as [now r|now n v|n v z|n v h|n v d|n v b]; unfold run_index; cbn [spec_op].
  - destruct (WriteReport now r ix) as [ix'|] eqn:E.
    + pose proof (WriteReport_ok_storable _ _ _ _ E) as Hs.
      destruct (WriteReport_holds now r ix) as (ix2 & E2 & []); [by destruct H|done|].
      rewrite E in E2. injection E2 as ->. destruct Hs as (? & ? & ?). rewrite !bool_decide_true by done. simpl.
      unfold texts. by rewrite ho_versions0, fmap_insert.
    + destruct (_ && _) eqn:Hb; [|done]. exfalso.
      apply andb_true_iff in Hb as [[H1%bool_decide_eq_true H2%bool_decide_eq_true]%andb_true_iff H3%bool_decide_eq_true].
      destruct (WriteReport_holds now r ix) as (ix2 & E2 & _); [by destruct H|by split_and!|]. congruence.
  - unfold UpsertSeedVersion. case_decide; [done|]. cbn [insert_module ix_versions]. unfold texts at 2. rewrite lookup_fmap.
    destruct (ix_versions ix !! (n, v)); [done|]. unfold texts. simpl. by rewrite fmap_insert.
  - unfold SetTarballSize. case_decide; [done|]. by apply update_cols_texts.
  - unfold SetHasSourceIndex. case_decide; [done|]. by apply update_cols_texts.
  - unfold SetDriftColumn. case_decide; [done|]. by apply update_cols_texts.
  - unfold WriteScipBlob. case_decide; [done|]. by destruct (ix_versions ix !! (n, v)).
Qed.

(** Whether an operation is a write of a coordinate that is accepted. *)
Definition rewrites (k : coord) (o : index_op) : Prop :=
  match o with OpWrite _ r => storable r ∧ coord_of r = k | _ => False end.

Lemma spec_op_kept k t ops : Forall (λ o, ¬ rewrites k o) ops → ∀ m, m !! k = Some t → foldl spec_op m ops !! k = Some t.
Proof.
  induction 1 as [|o ops Ho Hops IH]; intros m Hm; [done|]. simpl. apply IH.
  destruct o as [now r|now n v|n v z|n v h|n v d|n v b]; simpl; try done.
  - destruct (_ && _) eqn:Hb; [|done].
    apply andb_true_iff in Hb as [[H1%bool_decide_eq_true H2%bool_decide_eq_true]%andb_true_iff H3%bool_decide_eq_true].
    rewrite lookup_insert_ne; [done|]. intros E. by apply Ho.
  - case_decide; [done|]. destruct (m !! (n, v)) eqn:E; [done|]. rewrite lookup_insert_ne; [done|]. intros <-. congruence.
Qed.

Lemma spec_op_write m now r : storable r → spec_op m (OpWrite now r) = <[coord_of r := json_report r]> m.
Proof. intros (? & ? & ?). simpl. by rewrite !bool_decide_true. Qed.

(** What is read at a coordinate whose stored text is known. *)
Definition reads (t : option string) (k : coord) : result string ModuleReport :=
  match t with
  | None => Err (k.1 +:+ "@" +:+ k.2 +:+ ": not found")
  | Some t => map_err (λ e, "decode report: " +:+ e) (decode_report t)
  end.

(** C34: The store refines the map: after any operations the stored texts are those of the
    abstract store, and what is read back at a coordinate is the decoding of its text there,
    or that there is none.  So a report that was accepted reads back as its own encoding
    decodes, whatever other operations come after it, until another write of its coordinate
    is accepted; whether that is the report itself is a matter of the encoding. *)
Theorem store_refines ops :
  let ix := run_indexes ops in
  texts ix = foldl spec_op ∅ ops ∧
  (∀ n v, GetReport decode_report ix n v = reads (foldl spec_op ∅ ops !! (n, v)) (n, v)) ∧
  (∀ now r ops', storable r → Forall (λ o, ¬ rewrites (coord_of r) o) ops' →
     GetReport decode_report (run_indexes (ops ++ OpWrite now r :: ops')) (rep_Name r) (rep_Version r) =
       reads (Some (json_report r)) (coord_of r)).
Proof.
  cbn zeta. assert (∀ ops, texts (run_indexes ops) = foldl spec_op ∅ ops) as Ht.
  { clear ops. intros ops. unfold run_indexes. change (∅ : gmap coord string) with (texts emptyIndex). generalize emptyIndex, emptyIndex_wf.
    induction ops as [|o ops IH]; intros ix H; [done|]. simpl. rewrite IH by by apply run_index_wf.
    by rewrite run_index_texts. }
  assert (∀ ops n v, GetReport decode_report (run_indexes ops) n v = reads (foldl spec_op ∅ ops !! (n, v)) (n, v)) as Hg.
  { clear ops. intros ops n v. rewrite <-Ht. unfold texts. rewrite lookup_fmap. unfold GetReport.
    by destruct (ix_versions (run_indexes ops) !! (n, v)). }
  split_and!; [done|done|]. intros now r ops' Hs Hops. rewrite Hg. f_equal. rewrite foldl_app. cbn [foldl].
  apply spec_op_kept; [exact Hops|]. rewrite spec_op_write by done. apply lookup_insert_eq.
Qed.
End written.

(** A report, a seed of its coordinate that comes too late, and a report of another. *)
Lemma store_refines_witness :
  let json := λ r, rep_Name r +:+ "@" +:+ rep_Version r in
  let decode := λ t, if decide (t = "a@1") then Ok (emptyReport "a" "1") else Err "json" in
  GetReport decode (run_indexes (λ _, "") (λ _, "") json [OpWrite "now" (emptyReport "a" "1"); OpSeed "now" "a" "1"; OpWrite "now" (emptyReport "b" "1")]) "a" "1"
  = Ok (emptyReport "a" "1").
Proof.
  intros json decode. destruct (store_refines (λ _, "") (λ _, "") json decode []) as (_ & _ & H).
  etrans; [apply (H "now" (emptyReport "a" "1") [OpSeed "now" "a" "1"; OpWrite "now" (emptyReport "b" "1")])|reflexivity].
  - split; [done|]. split; constructor.
  - repeat constructor; simpl; [by intros []|by intros [_ [=]]].
Defined.
