(* ===== verification/Catalog.v ===== *)
(** * The catalogue

    [internal/bzlhub]'s views over the index: the listing of modules and the card of one
    (service_modules.go), the latest version (compat.go), the corpus counters and the
    usage counts (stats.go), and the reverse dependencies (service_closure.go). *)

From stdpp Require Import fin_sets.
From S2P Require Import Prelude Strings Report Index.

(** [api.IsStubVersion] *)
Definition IsStubVersion (v : string) : bool := bool_decide (v ∈ [""; "0"; "0.0.0"]).

(** [api.ModuleSummary]; the drift summary is kept as its decoded value. *)
Record ModuleSummary (D : Type) := mkModuleSummary {
  ms_Name : string;
  ms_LatestVersion : string;
  ms_VersionCount : Z;
  ms_LatestIngestedAt : string;
  ms_LatestDiffHref : string;
  ms_IsNew : bool;
  ms_HasSourceIndex : bool;
  ms_Drift : D;
  ms_UsageCount : Z;
  ms_Homepage : string;
  ms_MaintainerCount : Z;
  ms_RepoLabel : string;
}.
Arguments mkModuleSummary {D}.
Arguments ms_Name {D}. Arguments ms_LatestVersion {D}. Arguments ms_VersionCount {D}.
Arguments ms_LatestIngestedAt {D}. Arguments ms_LatestDiffHref {D}. Arguments ms_IsNew {D}.
Arguments ms_HasSourceIndex {D}. Arguments ms_Drift {D}. Arguments ms_UsageCount {D}.
Arguments ms_Homepage {D}. Arguments ms_MaintainerCount {D}. Arguments ms_RepoLabel {D}.

(** The fields of a metadata.json that the catalogue reads. *)
Record Metadata := mkMetadata { md_Homepage : string; md_Maintainers : Z; md_Repository : list string }.

(** ** The label of a repository *)

(** [strings.Count(s, "/")], for a separator of one byte. *)
Definition count_slash (l : bytes) : nat := length (filter (λ c, c = "/"%char) l).

(** One entry of the [repository] list: what follows a colon that is not its first
    byte, when it has a slash. *)
Definition repo_of (r : string) : option string :=
  match cut_at ":"%char (to_bytes r) with
  | Some (_ :: _, rest) => if decide (rest ≠ [] ∧ 1 ≤ count_slash rest) then Some (of_bytes rest) else None
  | _ => None
  end.

(** [strings.Trim(path, "/")] *)
Definition trim_slashes (p : string) : string := TrimRight (TrimLeft p "/") "/".

(** [deriveRepoLabel]; [parse_url] gives a URL's host name and path. *)
Definition deriveRepoLabel (parse_url : string → option (string * string)) (repos : list string) (homepage : string) : string :=
  match omap repo_of repos with
  | l :: _ => l
  | [] =>
      if decide (homepage = "") then ""
      else match parse_url homepage with
           | Some (host, path) =>
               if decide (ToLower host = "github.com") then
                 match Split (trim_slashes path) "/"%char with
                 | a :: b :: _ => a +:+ "/" +:+ b
                 | _ => ""
                 end
               else ""
           | None => ""
           end
  end.

(** ** The latest version *)

(** [Service.LatestVersion] *)
Definition LatestVersion (ix : Index) (name : string) : string :=
  match filter (λ v, IsStubVersion v = false) (ListVersions ix name) with
  | v :: _ => v
  | [] => ""
  end.

Section catalog.
Context {D : Type} (zero_drift : D) (decode_drift : string → option D).
(** The text of an ingestion time, empty when the column is no time; and whether such
    a text is within the last seven days. *)
Context (ingested_text : string → string) (recent : string → bool).
(** The mirror's metadata.json of a module, when there is a mirror. *)
Context (ReadMetadataJSON : string → option Metadata) (parse_url : string → option (string * string)).
Context (decode_report : string → result string ModuleReport).

(** [driftSummary] and [hasSourceIndex] *)
Definition driftSummary (ix : Index) (module version : string) : D :=
  default zero_drift (decode_drift (GetDriftSummary ix module version)).
Definition hasSourceIndex : Index → string → string → bool := GetHasSourceIndex.

(** ** Usage counts *)

(** The reports the walks load, in the order of [ListAllVersions]; one that fails to
    load is passed over. *)
Definition loaded (ix : Index) : list (coord * ModuleReport) :=
  omap (λ row, match GetReport decode_report ix row.1.1 row.1.2 with Ok r => Some (row.1, r) | Err _ => None end)
    (ListAllVersions ix).

(** [ComputeUsageCounts] and its split by version: a count per key, and the texts of the
    pairs of consumer and key already counted. *)
Definition usage_dep {K} `{Countable K} (key : ModuleKey → K) (seen_text : string → ModuleKey → string) (consumer : string)
    (s : gmap K Z * gset string) (d : ModuleKey) : gmap K Z * gset string :=
  if decide (seen_text consumer d ∈ s.2) then s
  else (<[key d := (default 0 (s.1 !! key d) + 1)%Z]> s.1, {[seen_text consumer d]} ∪ s.2).

Definition usage {K} `{Countable K} (key : ModuleKey → K) (seen_text : string → ModuleKey → string) (ix : Index) : gmap K Z :=
  (foldl (λ s row, foldl (usage_dep key seen_text row.1.1) s (rep_BazelDeps row.2)) (∅, ∅) (loaded ix)).1.

Definition name_text (consumer : string) (d : ModuleKey) : string := consumer +:+ "→" +:+ mk_Name d.
Definition version_text (consumer : string) (d : ModuleKey) : string := consumer +:+ "→" +:+ mk_Name d +:+ "@" +:+ mk_Version d.

Definition ComputeUsageCounts : Index → gmap string Z := usage mk_Name name_text.
Definition ComputeUsageCountsByVersion : Index → gmap (string * string) Z := usage (λ d, (mk_Name d, mk_Version d)) version_text.

(** ** The listing *)

(** [diffTrack]: the newest version that is no stub, and the one before. *)
Record diffTrack := mkDiffTrack { prevNonStub : string; latestNonStub : string }.

Definition track_row (t : gmap string diffTrack) (row : coord * VersionCols) : gmap string diffTrack :=
  let (module, version) := row.1 in
  if IsStubVersion version then t
  else
    let cur := default (mkDiffTrack "" "") (t !! module) in
    <[module := mkDiffTrack (latestNonStub cur) version]> t.

(** A summary before the second pass. *)
Definition new_summary (row : coord * VersionCols) : ModuleSummary D :=
  mkModuleSummary row.1.1 row.1.2 1 (ingested_text (vc_ingested_at row.2)) "" false false zero_drift 0 "" 0 "".

(** A further version of the module of [s]. *)
Definition bump_summary (s : ModuleSummary D) (row : coord * VersionCols) : ModuleSummary D :=
  mkModuleSummary (ms_Name s) row.1.2 (ms_VersionCount s + 1)
    (if decide (ingested_text (vc_ingested_at row.2) = "") then ms_LatestIngestedAt s else ingested_text (vc_ingested_at row.2))
    (ms_LatestDiffHref s) (ms_IsNew s) (ms_HasSourceIndex s) (ms_Drift s) (ms_UsageCount s)
    (ms_Homepage s) (ms_MaintainerCount s) (ms_RepoLabel s).

(** One row of the stream; the slice is kept with its last element first. *)
Definition list_row (out : list (ModuleSummary D)) (row : coord * VersionCols) : list (ModuleSummary D) :=
  match out with
  | s :: out' => if decide (ms_Name s = row.1.1) then bump_summary s row :: out' else new_summary row :: out
  | [] => [new_summary row]
  end.

Definition diff_href (name : string) (t : diffTrack) : string :=
  if decide (prevNonStub t ≠ "" ∧ latestNonStub t ≠ "") then
    "/modules/" +:+ name +:+ "/diff?from=" +:+ prevNonStub t +:+ "&to=" +:+ latestNonStub t
  else "".

Definition is_new (count : Z) (at_ : string) : bool := (count =? 1)%Z && bool_decide (at_ ≠ "") && recent at_.

(** The registry fields, from the mirror. *)
Definition registry_fields (name : string) : string * Z * string :=
  match ReadMetadataJSON name with
  | Some m => (md_Homepage m, md_Maintainers m, deriveRepoLabel parse_url (md_Repository m) (md_Homepage m))
  | None => ("", 0%Z, "")
  end.

Definition finish (ix : Index) (t : diffTrack) (usage : Z) (s : ModuleSummary D) : ModuleSummary D :=
  let '(homepage, maintainers, label) := registry_fields (ms_Name s) in
  mkModuleSummary (ms_Name s) (ms_LatestVersion s) (ms_VersionCount s) (ms_LatestIngestedAt s)
    (diff_href (ms_Name s) t) (is_new (ms_VersionCount s) (ms_LatestIngestedAt s))
    (hasSourceIndex ix (ms_Name s) (ms_LatestVersion s)) (driftSummary ix (ms_Name s) (ms_LatestVersion s))
    usage homepage maintainers label.

(** [ListModules] *)
Definition ListModules (ix : Index) : list (ModuleSummary D) :=
  let rows := ListAllVersions ix in
  let track := foldl track_row ∅ rows in
  let usage := ComputeUsageCounts ix in
  (λ s, finish ix (default (mkDiffTrack "" "") (track !! ms_Name s)) (default 0%Z (usage !! ms_Name s)) s)
    <$> reverse (foldl list_row [] rows).

(** ** The card of one module *)

Inductive GetError : Type := ErrModuleNotFound.

(** The two newest versions that are no stubs, from the newest. *)
Definition two_newest (rows : list (string * VersionCols)) : diffTrack :=
  match filter (λ v, IsStubVersion v = false) rows.*1 with
  | latest :: prev :: _ => mkDiffTrack prev latest
  | [latest] => mkDiffTrack "" latest
  | [] => mkDiffTrack "" ""
  end.

(** [GetModule] *)
Definition GetModule (ix : Index) (name : string) : result GetError (ModuleSummary D) :=
  if decide (name = "") then Err ErrModuleNotFound
  else match ListVersionsWithMeta ix name with
       | [] => Err ErrModuleNotFound
       | (latest, cols) :: rest =>
           let rows := (latest, cols) :: rest in
           Ok (finish ix (two_newest rows) 0
                 (mkModuleSummary name latest (Z.of_nat (length rows)) (ingested_text (vc_ingested_at cols)) "" false false
                    zero_drift 0 "" 0 ""))
       end.

(** ** Corpus counters and reverse dependencies *)

Definition countPublicSymbols (rep : ModuleReport) : nat :=
  length (filter (λ r, rule_Private r = false) (rep_Rules rep)) +
  length (filter (λ p, provider_Private p = false) (rep_Providers rep)) +
  length (filter (λ a, aspect_Private a = false) (rep_Aspects rep)) +
  length (filter (λ r, rr_Private r = false) (rep_RepositoryRules rep)) +
  length (filter (λ e, ext_Private e = false) (rep_ModuleExtensions rep)) +
  length (rep_Macros rep) + length (rep_Toolchains rep).

Record CorpusStats := mkCorpusStats { cs_Modules : nat; cs_Versions : nat; cs_DocumentedSymbols : nat }.

(** The latest version of each module, the stream's last row first. *)
Definition latest_row (out : list coord) (row : coord * VersionCols) : list coord :=
  match out with
  | l :: out' => if decide (l.1 = row.1.1) then row.1 :: out' else row.1 :: out
  | [] => [row.1]
  end.

Definition ComputeCorpusStats (ix : Index) : CorpusStats :=
  let rows := ListAllVersions ix in
  let latest := reverse (foldl latest_row [] rows) in
  mkCorpusStats (length latest) (length rows)
    (foldl (λ n l, match GetReport decode_report ix l.1 l.2 with Ok r => n + countPublicSymbols r | Err _ => n end) 0 latest).

(** [ReverseDeps]: the coordinates already listed are kept by their text. *)
Definition reverse_row (name version : string) (s : list coord * gset string) (row : coord * ModuleReport) :
    list coord * gset string :=
  let key := row.1.1 +:+ "@" +:+ row.1.2 in
  if existsb (λ d, bool_decide (mk_Name d = name ∧ mk_Version d = version)) (rep_BazelDeps row.2) then
    if decide (key ∈ s.2) then s else (s.1 ++ [row.1], {[key]} ∪ s.2)
  else s.

Definition ReverseDeps (ix : Index) (name version : string) : list coord :=
  (foldl (reverse_row name version) ([], ∅) (loaded ix)).1.
End catalog.

(** ** The order of the rows *)

#[export] Instance str_ltb_on_second : StrictWeak (λ a b : coord, String.ltb a.2 b.2).
Proof. apply (sw_on snd String.ltb). Qed.

#[export] Instance coord_less_sw : StrictWeak coord_less.
Proof. apply (sw_lex fst String.ltb (λ a b : coord, String.ltb a.2 b.2) str_ltb_tricho). Qed.

Lemma coord_less_tricho a b : coord_less a b = false → coord_less b a = false → a = b.
Proof.
  unfold coord_less, lex_less. destruct a as [a1 a2], b as [b1 b2]. simpl.
  destruct (decide (a1 = b1)) as [->|Hn]; [rewrite decide_True by done|rewrite decide_False by congruence];
    intros H1 H2; [by rewrite (str_ltb_tricho _ _ H1 H2)|by destruct Hn; apply str_ltb_tricho].
Qed.

#[export] Instance row_less_sw : StrictWeak row_less.
Proof. apply (sw_on fst coord_less). Qed.

#[export] Instance str_ltb_on_version : StrictWeak (λ a b : string * VersionCols, String.ltb a.1 b.1).
Proof. apply (sw_on fst String.ltb). Qed.
#[export] Instance version_greater_sw : StrictWeak version_greater.
Proof. apply (sw_flip (λ a b : string * VersionCols, String.ltb a.1 b.1)). Qed.

Lemma elem_of_all ix k c : (k, c) ∈ ListAllVersions ix ↔ ix_versions ix !! k = Some c.
Proof. unfold ListAllVersions. by rewrite elem_of_sort_slice, elem_of_map_to_list. Qed.

Lemma all_NoDup ix : NoDup (ListAllVersions ix).*1.
Proof. unfold ListAllVersions. rewrite sort_slice_perm. apply NoDup_fst_map_to_list. Qed.

Lemma all_sorted ix : StronglySorted (not_after row_less) (ListAllVersions ix).
Proof. apply (sort_slice_sorted row_less). Qed.

(** The rows of one module, in the listing's order and as its card reads them. *)
Definition group (n : string) (l : list (coord * VersionCols)) : list (coord * VersionCols) := filter (λ kc, kc.1.1 = n) l.
Definition strip (kc : coord * VersionCols) : string * VersionCols := (kc.1.2, kc.2).

Lemma group_meta ix n : ListVersionsWithMeta ix n = reverse (strip <$> group n (ListAllVersions ix)).
Proof.
  unfold ListVersionsWithMeta. apply (sort_slice_unique version_greater).
  - rewrite reverse_Permutation. unfold group, ListAllVersions. rewrite sort_slice_perm. done.
  - intros [v c] [v' c'] Hx Hy H1 H2. unfold version_greater in *. simpl in *.
    pose proof (str_ltb_tricho _ _ H2 H1) as ->. f_equal.
    apply list_elem_of_fmap in Hx as ([[a b] d] & [= -> ->] & Hx), Hy as ([[a' b'] d'] & [= -> ->] & Hy).
    apply list_elem_of_filter in Hx as [Ha Hx%elem_of_map_to_list], Hy as [Ha' Hy%elem_of_map_to_list].
    simpl in *. congruence.
  - pose proof (all_sorted ix) as Hs. pose proof (all_NoDup ix) as Hnd. revert Hs Hnd.
    generalize (ListAllVersions ix). intros l. unfold group.
    induction l as [|[[m v] c] l IH]; intros Hs Hnd; [constructor|]. inversion Hs as [|? ? Hs' Hall]; subst.
    apply NoDup_cons in Hnd as [_ Hnd]. specialize (IH Hs' Hnd). rewrite filter_cons. case_decide as Hm; [|done]. simpl in Hm.
    rewrite fmap_cons, reverse_cons. apply StronglySorted_app_2; [|done|repeat constructor].
    intros [v1 c1] [v2 c2] Hx Hy%list_elem_of_singleton. injection Hy as -> ->.
    apply elem_of_reverse, list_elem_of_fmap in Hx as ([[a b] d] & [= -> ->] & Hx).
    apply list_elem_of_filter in Hx as [Ha Hx]. simpl in *. subst.
    rewrite Forall_forall in Hall. specialize (Hall _ Hx). unfold not_after, version_greater, row_less, coord_less, lex_less in *.
    simpl in *. rewrite decide_True in Hall by done. done.
Qed.

(** ** The stream of rows, module by module *)

Section stream.
Context {D : Type} (zero_drift : D) (decode_drift : string → option D).
Context (ingested_text : string → string) (recent : string → bool).
Context (ReadMetadataJSON : string → option Metadata) (parse_url : string → option (string * string)).
Context (decode_report : string → result string ModuleReport).
Abbreviation list_row := (list_row zero_drift ingested_text).
Abbreviation new_summary := (new_summary zero_drift ingested_text).
Abbreviation bump_summary := (bump_summary ingested_text).
Abbreviation ListModules :=
  (ListModules zero_drift decode_drift ingested_text recent ReadMetadataJSON parse_url decode_report).
Abbreviation GetModule := (GetModule zero_drift decode_drift ingested_text recent ReadMetadataJSON parse_url).

Lemma bumps_name rs (s : ModuleSummary D) : ms_Name (foldl bump_summary s rs) = ms_Name s.
Proof. revert s. induction rs as [|r rs IH]; intros s; [done|]. simpl. by rewrite IH. Qed.

Lemma group_snoc n l row : group n (l ++ [row]) = if decide (row.1.1 = n) then group n l ++ [row] else group n l.
Proof.
  unfold group. rewrite filter_app, filter_cons. case_decide; simpl; [done|]. by rewrite app_nil_r.
Qed.

Definition str_after (a b : string) : Prop := String.ltb b a = true.

Record stream_ok (l : list (coord * VersionCols)) (out : list (ModuleSummary D)) : Prop := {
  so_sum : ∀ s, s ∈ out → ∃ r rs, group (ms_Name s) l = r :: rs ∧ s = foldl bump_summary (new_summary r) rs;
  so_all : ∀ row, row ∈ l → row.1.1 ∈ ms_Name <$> out;
  so_sorted : StronglySorted str_after (ms_Name <$> out);
}.

(** A new row of a sorted stream is of the last module, or of a module after all. *)
Lemma snoc_module l row out :
  stream_ok l out → StronglySorted (not_after row_less) (l ++ [row]) →
  ∀ n, n ∈ ms_Name <$> out → String.ltb row.1.1 n = false.
Proof.
  intros [Hsum _ _] Hs n (s & -> & Hin)%list_elem_of_fmap.
  destruct (Hsum s Hin) as (r & rs & Hg & _).
  assert (r ∈ group (ms_Name s) l) as [Hr Hrl]%list_elem_of_filter by (rewrite Hg; by left).
  apply StronglySorted_app in Hs as (Hs & _ & _). specialize (Hs r row Hrl (list_elem_of_here _ _)).
  unfold not_after, row_less, coord_less, lex_less in Hs. rewrite <-Hr.
  destruct (decide (row.1.1 = r.1.1)) as [E|E]; [rewrite E; apply str_ltb_irrefl|done].
Qed.

Lemma stream_snoc l row out :
  stream_ok l out → StronglySorted (not_after row_less) (l ++ [row]) → stream_ok (l ++ [row]) (list_row out row).
Proof.
  intros Hok Hs. pose proof (snoc_module l row out Hok Hs) as Hge. destruct Hok as [Hsum Hall Hsort].
  destruct out as [|s out]; [|simpl; destruct (decide (ms_Name s = row.1.1)) as [Em|Em]].
  - assert (l = []) as -> by (destruct l as [|r l]; [done|]; specialize (Hall r (list_elem_of_here _ _)); by apply elem_of_nil in Hall).
    split; simpl.
    + intros s ->%list_elem_of_singleton. exists row, []. simpl. unfold group. by rewrite filter_cons_True.
    + intros r ->%list_elem_of_singleton. by left.
    + repeat constructor.
  - apply StronglySorted_cons in Hsort as [Hlt Hsort]. split; csimpl.
    + intros s' [->|Hin]%elem_of_cons.
      * destruct (Hsum s) as (r & rs & Hg & ->); [by left|]. exists r, (rs ++ [row]).
        split; [|by rewrite foldl_app]. simpl in *. rewrite group_snoc. rewrite bumps_name in *.
        rewrite decide_True by done. by rewrite Hg.
      * destruct (Hsum s') as (r & rs & Hg & Hs'); [by right|]. exists r, rs. split; [|done].
        rewrite group_snoc, decide_False; [done|]. intros E. rewrite Forall_forall in Hlt.
        specialize (Hlt (ms_Name s') (list_elem_of_fmap_2 _ _ _ Hin)). unfold str_after in Hlt.
        rewrite <-E, <-Em in Hlt. by rewrite str_ltb_irrefl in Hlt.
    + intros r [Hr|Hr%list_elem_of_singleton]%elem_of_app; [by apply Hall|]. subst. rewrite <-Em. by left.
    + by apply StronglySorted_cons.
  - assert (∀ n, n ∈ ms_Name <$> s :: out → String.ltb n row.1.1 = true) as Hlt.
    { intros n Hn. destruct (String.ltb n row.1.1) eqn:E; [done|]. pose proof (str_ltb_tricho _ _ E (Hge n Hn)) as ->.
      apply StronglySorted_cons in Hsort as [Hl _]. rewrite fmap_cons in Hn. apply elem_of_cons in Hn as [Hn|Hn]; [congruence|].
      rewrite Forall_forall in Hl. specialize (Hl _ Hn). unfold str_after in Hl.
      rewrite Hge in Hl by by left. done. }
    assert (row.1.1 ∉ ms_Name <$> s :: out) as Hnew.
    { intros Hn. specialize (Hlt _ Hn). by rewrite str_ltb_irrefl in Hlt. }
    split; simpl.
    + intros s' [->|Hin]%elem_of_cons.
      * exists row, []. split; [|done]. simpl. rewrite group_snoc, decide_True by done.
        assert (group row.1.1 l = []) as ->; [|done]. apply elem_of_nil_inv. intros r [Hr Hrl]%list_elem_of_filter.
        apply Hnew. rewrite <-Hr. by apply Hall.
      * destruct (Hsum s' Hin) as (r & rs & Hg & Hs'). exists r, rs. split; [|done].
        rewrite group_snoc, decide_False; [done|]. intros E. apply Hnew. rewrite E. by apply list_elem_of_fmap_2.
    + intros r [Hr|Hr%list_elem_of_singleton]%elem_of_app; [right; by apply Hall|]. subst. by left.
    + apply StronglySorted_cons. split; [|done]. apply Forall_forall. exact Hlt.
Qed.

Lemma stream_spec l : StronglySorted (not_after row_less) l → stream_ok l (foldl list_row [] l).
Proof.
  induction l as [|row l IH] using rev_ind; intros Hs.
  - split; simpl; [intros s H; by apply elem_of_nil in H..|constructor].
  - rewrite foldl_app. simpl. apply stream_snoc; [|done]. apply IH. by apply StronglySorted_app in Hs as (_ & ? & _).
Qed.

(** The pair tracked for a module, from its versions that are no stubs. *)
Definition last_two (vs : list string) : diffTrack :=
  match reverse vs with
  | latest :: prev :: _ => mkDiffTrack prev latest
  | [latest] => mkDiffTrack "" latest
  | [] => mkDiffTrack "" ""
  end.

Definition real_versions (n : string) (l : list (coord * VersionCols)) : list string :=
  filter (λ v, IsStubVersion v = false) (strip <$> group n l).*1.

Lemma track_spec l n : default (mkDiffTrack "" "") (foldl track_row ∅ l !! n) = last_two (real_versions n l).
Proof.
  induction l as [|[[m v] c] l IH] using rev_ind; [simpl; by rewrite lookup_empty|].
  rewrite foldl_app. cbn [foldl]. unfold real_versions. rewrite group_snoc. cbn [fst].
  unfold track_row at 1. cbn [fst]. destruct (IsStubVersion v) eqn:Hv.
  - rewrite IH. unfold real_versions. case_decide; [|done].
    rewrite !fmap_app, filter_app. csimpl. by rewrite filter_cons_False, app_nil_r by congruence.
  - destruct (decide (m = n)) as [->|Hn].
    + rewrite lookup_insert_eq, !fmap_app, filter_app. csimpl. rewrite filter_cons_True by done. simpl.
      rewrite IH. unfold last_two at 2. rewrite reverse_app. simpl. unfold last_two, real_versions.
      destruct (reverse _) as [|a [|b r]]; done.
    + by rewrite lookup_insert_ne, IH.
Qed.

Lemma two_newest_spec ix n : two_newest (ListVersionsWithMeta ix n) = last_two (real_versions n (ListAllVersions ix)).
Proof.
  unfold two_newest, last_two, real_versions. rewrite group_meta, fmap_reverse. by rewrite filter_reverse.
Qed.

Lemma bumps_latest rs r :
  let s := foldl bump_summary (new_summary r) rs in
  ms_LatestVersion s = (default r (last rs)).1.2 ∧ ms_VersionCount s = Z.of_nat (S (length rs)) ∧
  (ingested_text (vc_ingested_at (default r (last rs)).2) ≠ "" ∨ ms_LatestIngestedAt s = "" →
     ms_LatestIngestedAt s = ingested_text (vc_ingested_at (default r (last rs)).2)).
Proof.
  induction rs as [|r' rs IH] using rev_ind; [simpl; auto|]. cbv zeta in *. destruct IH as (_ & Hc & _).
  rewrite foldl_app, last_snoc, length_app. simpl. rewrite Hc. split; [done|]. split; [lia|].
  case_decide as Ht; [|done]. rewrite Ht. naive_solver.
Qed.

Definition with_usage (n : Z) (s : ModuleSummary D) : ModuleSummary D :=
  mkModuleSummary (ms_Name s) (ms_LatestVersion s) (ms_VersionCount s) (ms_LatestIngestedAt s) (ms_LatestDiffHref s)
    (ms_IsNew s) (ms_HasSourceIndex s) (ms_Drift s) n (ms_Homepage s) (ms_MaintainerCount s) (ms_RepoLabel s).

Abbreviation finish := (finish zero_drift decode_drift recent ReadMetadataJSON parse_url).

Lemma finish_name ix t u s : ms_Name (finish ix t u s) = ms_Name s.
Proof. unfold Catalog.finish. by destruct (registry_fields _ _ _) as [[]]. Qed.

Lemma finish_fields ix t u s t' s' :
  ms_Name s = ms_Name s' → ms_LatestVersion s = ms_LatestVersion s' → ms_VersionCount s = ms_VersionCount s' →
  ms_LatestIngestedAt s = ms_LatestIngestedAt s' → t = t' →
  finish ix t 0 s = with_usage 0 (finish ix t' u s').
Proof.
  intros E1 E2 E3 E4 ->. unfold Catalog.finish. rewrite E1, E2, E3, E4. by destruct (registry_fields _ _ _) as [[]].
Qed.

Lemma reverse_cons_last {A} (r : A) rs : ∃ rest, reverse (r :: rs) = default r (last rs) :: rest ∧ length rest = length rs.
Proof.
  destruct rs as [|x rs _] using rev_ind; [by exists []|]. rewrite last_snoc, reverse_cons, reverse_app. simpl.
  exists (reverse rs ++ [r]). split; [done|]. rewrite !length_app, length_reverse. done.
Qed.

Lemma listing_names ix : ms_Name <$> ListModules ix = reverse (ms_Name <$> foldl list_row [] (ListAllVersions ix)).
Proof.
  unfold Catalog.ListModules. rewrite <-list_fmap_compose, <-fmap_reverse. apply list_fmap_ext. intros i s _. simpl. apply finish_name.
Qed.

Lemma StronglySorted_reverse {A} (R : A → A → Prop) l : StronglySorted R l → StronglySorted (λ a b, R b a) (reverse l).
Proof.
  induction 1 as [|x l Hl IH Hx]; [constructor|]. rewrite reverse_cons. apply StronglySorted_app_2; [|done|repeat constructor].
  intros a b Ha ->%list_elem_of_singleton. rewrite Forall_forall in Hx. apply Hx. by apply elem_of_reverse.
Qed.

(** C40: The listing has one row per indexed module, in the order of the names; and the card
    of a module, computed from its rows alone, is its row of the listing but for the
    usage count, which it leaves at zero, provided that the newest version's time of
    ingestion can be read (or none of its versions' can).  Both name as latest the
    version that is last in the order of the texts.  A module that is not indexed has
    no row and no card. *)
Theorem card_agrees ix name :
  StronglySorted (λ a b, String.ltb a b = true) (ms_Name <$> ListModules ix) ∧
  match GetModule ix name with
  | Err _ => name = "" ∨ name ∉ ms_Name <$> ListModules ix
  | Ok card =>
      ∃ s, s ∈ ListModules ix ∧ ms_Name s = name ∧
        is_Some (ix_versions ix !! (name, ms_LatestVersion s)) ∧
        (∀ v c, ix_versions ix !! (name, v) = Some c → String.ltb (ms_LatestVersion s) v = false) ∧
        (ms_LatestIngestedAt card ≠ "" ∨ ms_LatestIngestedAt s = "" → card = with_usage 0 s)
  end.
Proof.
  pose proof (stream_spec _ (all_sorted ix)) as [Hsum Hall Hsort]. split.
  { rewrite listing_names. by apply StronglySorted_reverse in Hsort. }
  unfold Catalog.GetModule. case_decide as Hn; [by left|].
  pose proof (two_newest_spec ix name) as Ht. rewrite <-track_spec in Ht.
  pose proof (sort_slice_sorted version_greater
    ((λ kc : coord * VersionCols, (kc.1.2, kc.2)) <$> filter (λ kc, kc.1.1 = name) (map_to_list (ix_versions ix)))) as Hmax.
  fold (ListVersionsWithMeta ix name) in Hmax. rewrite group_meta in Ht, Hmax |- *.
  destruct (group name (ListAllVersions ix)) as [|r rs] eqn:Hg.
  { simpl. right. rewrite listing_names, elem_of_reverse. intros (s & -> & Hs)%list_elem_of_fmap.
    destruct (Hsum s Hs) as (r & rs & Hg' & _). congruence. }
  destruct (reverse_cons_last r rs) as (rest & Hrev & Hlen). rewrite <-fmap_reverse, Hrev in Ht, Hmax |- *.
  set (lastrow := default r (last rs)) in *. simpl in Hmax |- *.
  assert (∀ row, row ∈ lastrow :: rest → row.1.1 = name ∧ ix_versions ix !! row.1 = Some row.2) as Hrows.
  { intros row Hrow. rewrite <-Hrev, elem_of_reverse, <-Hg in Hrow. apply list_elem_of_filter in Hrow as [? Hrow].
    split; [done|]. apply elem_of_all. by destruct row. }
  destruct (Hrows lastrow (list_elem_of_here _ _)) as [Hname Hlast].
  assert (name ∈ ms_Name <$> foldl list_row [] (ListAllVersions ix)) as (s0 & Hs0n & Hs0)%list_elem_of_fmap.
  { rewrite <-Hname. apply Hall. rewrite (surjective_pairing lastrow). by apply elem_of_all. }
  destruct (Hsum s0 Hs0) as (r' & rs' & Hg' & Es0). rewrite <-Hs0n, Hg in Hg'. injection Hg' as <- <-.
  destruct (bumps_latest rs r) as (Hv & Hc & Hi). rewrite <-Es0 in Hv, Hc, Hi.
  fold lastrow in Hv, Hi.
  eexists. split; [apply list_elem_of_fmap; exists s0; split; [done|by apply elem_of_reverse]|].
  assert (∀ t u, ms_LatestVersion (finish ix t u s0) = ms_LatestVersion s0 ∧
    ms_LatestIngestedAt (finish ix t u s0) = ms_LatestIngestedAt s0) as Hf.
  { intros t u. unfold Catalog.finish. by destruct (registry_fields _ _ _) as [[]]. }
  assert (∀ t u s, ms_LatestIngestedAt (finish ix t u s) = ms_LatestIngestedAt s) as Hf'.
  { intros t u s. unfold Catalog.finish. by destruct (registry_fields _ _ _) as [[]]. }
  rewrite finish_name, (proj1 (Hf _ _)), (proj2 (Hf _ _)), Hf', Hv. simpl. split_and!; [done| | |].
  - rewrite <-Hname, <-surjective_pairing. by eexists.
  - intros v c Hvc. assert ((name, v, c) ∈ lastrow :: rest) as [E|Hin]%elem_of_cons.
    { rewrite <-Hrev, elem_of_reverse, <-Hg. apply list_elem_of_filter. split; [done|]. by apply elem_of_all. }
    + rewrite <-E. simpl. apply str_ltb_irrefl.
    + apply StronglySorted_cons in Hmax as [Hfirst _]. rewrite Forall_forall in Hfirst.
      apply (Hfirst (v, c)). apply list_elem_of_fmap. by exists (name, v, c).
  - intros Hor. apply finish_fields; simpl; [done|by rewrite Hv| |by rewrite Hi|].
    + rewrite Hc, length_fmap, Hlen. done.
    + rewrite <-Hs0n. exact Ht.
Qed.
End stream.

(** ** The usage counts *)

Section usage.
Context {K : Type} `{Countable K} (key : ModuleKey → K) (seen_text : string → ModuleKey → string).
Context (decode_report : string → result string ModuleReport).

(** The declarations of the corpus, each with the module that makes it. *)
Definition declarations (ix : Index) : list (string * ModuleKey) :=
  loaded decode_report ix ≫= λ row, (λ d, (row.1.1, d)) <$> rep_BazelDeps row.2.

(** The modules that declare a dependency with the key [k]. *)
Definition consumers (k : K) (l : list (string * ModuleKey)) : gset string :=
  list_to_set (filter (λ cd, key cd.2 = k) l).*1.

Definition counted (n : nat) : option Z := if decide (n = 0) then None else Some (Z.of_nat n).

Lemma usage_flat ix :
  usage decode_report key seen_text ix = (foldl (λ s cd, usage_dep key seen_text cd.1 s cd.2) (∅, ∅) (declarations ix)).1.
Proof.
  unfold usage, declarations. f_equal. generalize (∅ : gmap K Z, ∅ : gset string).
  induction (loaded decode_report ix) as [|row l IH]; intros s; [done|]. simpl. rewrite foldl_app, IH. f_equal.
  clear. revert s. induction (rep_BazelDeps row.2) as [|d ds IH]; intros s; [done|]. simpl. apply IH.
Qed.

Lemma consumers_snoc k l cd :
  consumers k (l ++ [cd]) = if decide (key cd.2 = k) then consumers k l ∪ {[cd.1]} else consumers k l.
Proof.
  unfold consumers. rewrite filter_app, filter_cons. case_decide; simpl; [set_solver|]. by rewrite app_nil_r.
Qed.

Lemma elem_of_consumers k l c : c ∈ consumers k l ↔ ∃ d, (c, d) ∈ l ∧ key d = k.
Proof.
  unfold consumers. rewrite elem_of_list_to_set, list_elem_of_fmap. split.
  - intros ([c' d] & -> & [Hk Hin]%list_elem_of_filter). by exists d.
  - intros (d & Hin & Hk). exists (c, d). split; [done|]. by apply list_elem_of_filter.
Qed.

Definition separated (l : list (string * ModuleKey)) : Prop :=
  ∀ x y, x ∈ l → y ∈ l → seen_text x.1 x.2 = seen_text y.1 y.2 ↔ x.1 = y.1 ∧ key x.2 = key y.2.

Lemma usage_fold l : separated l →
  let s := foldl (λ s cd, usage_dep key seen_text cd.1 s cd.2) (∅, ∅) l in
  (∀ t, t ∈ s.2 ↔ ∃ cd, cd ∈ l ∧ t = seen_text cd.1 cd.2) ∧ ∀ k, s.1 !! k = counted (size (consumers k l)).
Proof.
  induction l as [|[c d] l IH] using rev_ind; intros Hs.
  { split; [set_solver|]. done. }
  destruct IH as [Ht Hk]; [intros x y Hx Hy; apply Hs; apply elem_of_app; auto|].
  rewrite foldl_app. set (s := foldl _ _ l) in *. cbn [foldl fst snd]. unfold usage_dep.
  assert (seen_text c d ∈ s.2 ↔ c ∈ consumers (key d) l) as Hseen.
  { rewrite Ht, elem_of_consumers. split.
    - intros ([c' d'] & Hin & E). apply (Hs (c, d) (c', d')) in E as [E1 E2]; [|set_solver..].
      simpl in *. subst. by exists d'.
    - intros (d' & Hin & E). exists (c, d'). split; [done|]. apply (Hs (c, d) (c, d')); [set_solver..|]. done. }
  case_decide as Hdec; cbn [fst snd]; (split; [intros t|intros k]).
  - rewrite Ht. split; [set_solver|]. intros ([c' d'] & Hin & ->). apply elem_of_app in Hin as [Hin|Hin].
    + by exists (c', d').
    + apply list_elem_of_singleton in Hin. injection Hin as -> ->. by apply Ht.
  - rewrite Hk, consumers_snoc. cbn [fst snd]. case_decide as E; [|done]. subst. do 2 f_equal.
    apply leibniz_equiv. apply Hseen in Hdec. set_solver.
  - rewrite elem_of_union, elem_of_singleton, Ht. set_solver.
  - rewrite consumers_snoc. cbn [fst snd]. case_decide as E.
    + subst. rewrite lookup_insert_eq, Hk. rewrite size_union by set_solver. rewrite size_singleton.
      unfold counted. destruct (decide (size _ + 1 = 0)); [lia|]. case_decide as E; simpl; f_equal; lia.
    + by rewrite lookup_insert_ne, Hk.
Qed.

Lemma usage_spec ix k : separated (declarations ix) →
  usage decode_report key seen_text ix !! k = counted (size (consumers k (declarations ix))).
Proof. intros Hs. rewrite usage_flat. by apply usage_fold. Qed.
End usage.

(** The arrow of the seen texts starts with the byte 226. *)
Definition arrow : ascii := chr 226.

Lemma name_text_inj c d c' d' : plain arrow c → plain arrow c' →
  name_text c d = name_text c' d' ↔ c = c' ∧ mk_Name d = mk_Name d'.
Proof.
  intros Hc Hc'. unfold name_text. split; [|by intros [-> ->]]. intros E%(f_equal to_bytes).
  rewrite !to_bytes_app in E. apply sep_inj in E as [E1%to_bytes_inj E2]; [|done..]. split; [done|].
  simpl in E2. injection E2 as E2. by apply to_bytes_inj.
Qed.

Lemma version_text_inj c d c' d' :
  plain arrow c → plain arrow c' → plain "@" (mk_Name d) → plain "@" (mk_Name d') →
  version_text c d = version_text c' d' ↔ c = c' ∧ (mk_Name d, mk_Version d) = (mk_Name d', mk_Version d').
Proof.
  intros Hc Hc' Hd Hd'. unfold version_text. split; [|by intros [-> [= -> ->]]]. intros E%(f_equal to_bytes).
  rewrite !to_bytes_app in E. apply sep_inj in E as [E1%to_bytes_inj E2]; [|done..]. split; [done|].
  apply (app_inv_head [chr 134; chr 146]) in E2. apply (sep_inj "@"%char) in E2 as [->%to_bytes_inj ->%to_bytes_inj]; done.
Qed.

(** The usage counts count modules: when no module's name holds the arrow of the seen
    texts, nor a dependency's name the at sign, a name's count is the number of distinct
    modules with some version that declares it, the count of a name at a version the
    number of those that declare it at that version, and what nothing declares has no
    count.  Several versions of one consumer, and a declaration made twice, count once. *)
Theorem usage_counts (decode_report : string → result string ModuleReport) (ix : Index)
    (Hp : ∀ c d, (c, d) ∈ declarations decode_report ix → plain arrow c ∧ plain "@" (mk_Name d)) :
  (∀ n, ComputeUsageCounts decode_report ix !! n =
     counted (size (consumers mk_Name n (declarations decode_report ix)))) ∧
  (∀ n v, ComputeUsageCountsByVersion decode_report ix !! (n, v) =
     counted (size (consumers (λ d, (mk_Name d, mk_Version d)) (n, v) (declarations decode_report ix)))).
Proof.
  split; intros; apply usage_spec; intros [c d] [c' d'] Hx%Hp Hy%Hp; [apply name_text_inj|apply version_text_inj]; tauto.
Qed.

(** ** Concrete corpora *)

(** A row ingested at [at_], whose report is the text [rep]. *)
Definition sample_row (at_ rep : string) : VersionCols := mkVersionCols 0 "[]" at_ "{}" 0 false "{}" rep.
Definition sample_index (rows : list (coord * VersionCols)) : Index := set_versions (list_to_map rows) emptyIndex.

(** Reports by their text: one that declares rules_go and skylib, one that declares
    rules_go alone, and one that cannot be read. *)
Definition dep (name version : string) : ModuleKey := mkModuleKey name version false "".
Definition sample_report (ds : list ModuleKey) : ModuleReport :=
  mkModuleReport "m" "1" 0 [] ds [] [] [] [] [] [] [] [] [] [] [] [] [] (mkHermeticityProfile [] []) [] zeroAssets.
Definition sample_decode (t : string) : result string ModuleReport :=
  if decide (t = "both") then Ok (sample_report [dep "rules_go" "0.50"; dep "skylib" "1.7"; dep "rules_go" "0.50"])
  else if decide (t = "go") then Ok (sample_report [dep "rules_go" "0.49"])
  else Err "bad".

Definition sample_corpus : Index :=
  sample_index [(("gazelle", "1"), sample_row "t" "both"); (("gazelle", "2"), sample_row "t" "go");
                (("app", "1"), sample_row "t" "go"); (("old", "1"), sample_row "t" "?")].

Lemma usage_counts_witness :
  (∀ c d, (c, d) ∈ declarations sample_decode sample_corpus → plain arrow c ∧ plain "@" (mk_Name d)) ∧
  ComputeUsageCounts sample_decode sample_corpus !! "rules_go" = Some 2%Z ∧
  ComputeUsageCounts sample_decode sample_corpus !! "skylib" =
    counted (size (consumers mk_Name "skylib" (declarations sample_decode sample_corpus))) ∧
  ComputeUsageCountsByVersion sample_decode sample_corpus !! ("rules_go", "0.49") = Some 2%Z.
Proof.
  assert (∀ c d, (c, d) ∈ declarations sample_decode sample_corpus → plain arrow c ∧ plain "@" (mk_Name d)) as Hp.
  { intros c d Hin.
    assert (Forall (λ cd, plain arrow cd.1 ∧ plain "@" (mk_Name cd.2)) (declarations sample_decode sample_corpus)) as Hall.
    { vm_compute. repeat constructor; intros Hx; inversion Hx; subst; clear Hx; repeat match goal with
        | H : _ ∈ _ |- _ => inversion H; subst; clear H end. }
    rewrite Forall_forall in Hall. apply (Hall _ Hin). }
  destruct (usage_counts sample_decode sample_corpus Hp) as [Hn Hv].
  split; [exact Hp|]. rewrite !Hn, Hv. split_and!; vm_compute; reflexivity.
Defined.

(** The latest version is the last text, not the highest version. *)
Example latest_is_lexical :
  LatestVersion (sample_index [(("m", "0.9.0"), sample_row "t" "{}"); (("m", "0.10.0"), sample_row "t" "{}")]) "m" = "0.9.0".
Proof. vm_compute. reflexivity. Qed.

(** When the newest version's time cannot be read, the card says nothing where the
    listing keeps an older version's time. *)
Example unread_time :
  let ix := sample_index [(("m", "1"), sample_row "t1" "{}"); (("m", "2"), sample_row "bad" "{}")] in
  let text := λ t, if decide (t = "bad") then "" else t in
  let rows := ListModules tt (λ _, Some tt) text (λ _, false) (λ _, None) (λ _, None) sample_decode ix in
  ms_LatestIngestedAt <$> rows = ["t1"] ∧
  match GetModule tt (λ _, Some tt) text (λ _, false) (λ _, None) (λ _, None) ix "m" with
  | Ok card => ms_LatestIngestedAt card = ""
  | Err _ => False
  end.
Proof. vm_compute. split; reflexivity. Qed.
