(* ===== verification/GraphClosure.v ===== *)
(** * The dependency graph of the index

    [Service.Closure] and [Service.IngestClosureMissing] (internal/bzlhub/
    service_closure.go): the breadth-first walk of the declared dependencies of the
    stored reports, ten steps deep, and the ingest of what it finds outside the index. *)

From S2P Require Import Prelude Strings Report Index.

Definition closureMaxDepth : nat := 10.

(** [nodeKey] *)
Definition nodeKey (name version : string) : string := name +:+ "@" +:+ version.

Record ClosureNode := mkClosureNode { cn_Name : string; cn_Version : string; cn_External : bool }.
Record ClosureEdge := mkClosureEdge { ce_From : string; ce_To : string }.
Record ClosureGraph := mkClosureGraph {
  cg_Root : string;
  cg_Nodes : list ClosureNode;
  cg_Edges : list ClosureEdge;
  cg_MaxDepthReached : bool;
}.

(** An entry of the queue: a coordinate and its depth. *)
Abbreviation queued := ((string * string) * nat)%type.

Record graph_walk := mkWalk { w_graph : ClosureGraph; w_visited : gset string; w_queue : list queued }.

Definition key_of (c : string * string) : string := nodeKey c.1 c.2.

(** [addNode] *)
Definition addNode (c : string * string) (external : bool) (w : graph_walk) : graph_walk :=
  if decide (key_of c ∈ w_visited w) then w
  else mkWalk (mkClosureGraph (cg_Root (w_graph w)) (cg_Nodes (w_graph w) ++ [mkClosureNode c.1 c.2 external])
                (cg_Edges (w_graph w)) (cg_MaxDepthReached (w_graph w)))
         ({[key_of c]} ∪ w_visited w) (w_queue w).

(** The first node with the key is marked external. *)
Fixpoint flip_external (key : string) (nodes : list ClosureNode) : list ClosureNode :=
  match nodes with
  | [] => []
  | n :: nodes => if decide (nodeKey (cn_Name n) (cn_Version n) = key)
                  then mkClosureNode (cn_Name n) (cn_Version n) true :: nodes
                  else n :: flip_external key nodes
  end.

(** One declared dependency of the entry [cur]. *)
Definition visit_dep (cur : queued) (w : graph_walk) (d : ModuleKey) : graph_walk :=
  if decide (mk_Version d = "" ∨ mk_Version d = "0") then w
  else
    let childKey := nodeKey (mk_Name d) (mk_Version d) in
    mkWalk (mkClosureGraph (cg_Root (w_graph w)) (cg_Nodes (w_graph w))
              (cg_Edges (w_graph w) ++ [mkClosureEdge (key_of cur.1) childKey]) (cg_MaxDepthReached (w_graph w)))
      (w_visited w)
      (if decide (childKey ∈ w_visited w) then w_queue w
       else w_queue w ++ [((mk_Name d, mk_Version d), S cur.2)]).

Section closure.
Context (decode_report : string → result string ModuleReport).

(** The store, as the walk reads it. *)
Definition report_at (ix : Index) (c : string * string) : option ModuleReport :=
  match GetReport decode_report ix c.1 c.2 with Ok r => Some r | Err _ => None end.

(** The body of the loop for the entry taken from the queue. *)
Definition visit_entry (ix : Index) (cur : queued) (w : graph_walk) : graph_walk :=
  let w := addNode cur.1 false w in
  if decide (closureMaxDepth ≤ cur.2) then
    mkWalk (mkClosureGraph (cg_Root (w_graph w)) (cg_Nodes (w_graph w)) (cg_Edges (w_graph w)) true)
      (w_visited w) (w_queue w)
  else match report_at ix cur.1 with
       | None => mkWalk (mkClosureGraph (cg_Root (w_graph w)) (flip_external (key_of cur.1) (cg_Nodes (w_graph w)))
                           (cg_Edges (w_graph w)) (cg_MaxDepthReached (w_graph w)))
                   (w_visited w) (w_queue w)
       | Some rep => foldl (visit_dep cur) w (rep_BazelDeps rep)
       end.

Fixpoint walk_queue (ix : Index) (fuel : nat) (w : graph_walk) : option ClosureGraph :=
  match fuel, w_queue w with
  | _, [] => Some (w_graph w)
  | O, _ :: _ => None
  | S fuel, cur :: queue => walk_queue ix fuel (visit_entry ix cur (mkWalk (w_graph w) (w_visited w) queue))
  end.

Definition initial (root : string * string) : graph_walk :=
  mkWalk (mkClosureGraph (key_of root) [] [] false) ∅ [(root, 0)].

(** [Closure] *)
Definition Closure (ix : Index) (fuel : nat) (root : string * string) : option ClosureGraph :=
  walk_queue ix fuel (initial root).

(** ** The ingest of what is missing *)

Record IngestClosureResult := mkIngestClosureResult {
  icr_Bumped : nat;
  icr_Failed : nat;
  icr_Errors : list (string * string * string);
}.

(** [IngestClosureMissing] over a graph: [Bump] is the ingest of one coordinate, on the
    service's state. *)
Definition bump_missing {S : Type} (Bump : string * string → S → option string * S)
    (acc : IngestClosureResult * S) (n : ClosureNode) : IngestClosureResult * S :=
  if cn_External n then
    match Bump (cn_Name n, cn_Version n) acc.2 with
    | (Some e, s) => (mkIngestClosureResult (icr_Bumped acc.1) (icr_Failed acc.1 + 1)
                        (icr_Errors acc.1 ++ [(cn_Name n, cn_Version n, e)]), s)
    | (None, s) => (mkIngestClosureResult (icr_Bumped acc.1 + 1) (icr_Failed acc.1) (icr_Errors acc.1), s)
    end
  else acc.

Definition IngestClosureMissing {S : Type} (Bump : string * string → S → option string * S)
    (g : ClosureGraph) (s : S) : IngestClosureResult * S :=
  foldl (bump_missing Bump) (mkIngestClosureResult 0 0 [], s) (cg_Nodes g).

(** ** What the walk computes *)

(** The dependencies the walk follows. *)
Definition kept (d : ModuleKey) : Prop := mk_Version d ≠ "" ∧ mk_Version d ≠ "0".
#[local] Instance kept_dec d : Decision (kept d) := ltac:(unfold kept; apply _).
Definition dep_coord (d : ModuleKey) : string * string := (mk_Name d, mk_Version d).
Definition kids (ds : list ModuleKey) : list (string * string) := dep_coord <$> filter kept ds.
Definition children (ix : Index) (c : string * string) : list (string * string) :=
  match report_at ix c with Some r => kids (rep_BazelDeps r) | None => [] end.

(** Reachability in a number of steps. *)
Inductive reach (ix : Index) (root : string * string) : nat → string * string → Prop :=
| reach_root : reach ix root 0 root
| reach_step k c c' : reach ix root k c → c' ∈ children ix c → reach ix root (S k) c'.

(** Nothing is written with the separator of the keys in a module's name. *)
Definition plain_names (ix : Index) : Prop := ∀ c c', c' ∈ children ix c → plain "@" c'.1.

Lemma key_of_inj c c' : plain "@" c.1 → plain "@" c'.1 → key_of c = key_of c' → c = c'.
Proof.
  destruct c, c'. unfold key_of, nodeKey. simpl. intros Hc Hc' E. by destruct (plain_sep_inj "@" _ _ _ _ Hc Hc' E) as [-> ->].
Qed.

(** The dependencies of one entry, all at once. *)
Lemma visit_deps cur ds w :
  foldl (visit_dep cur) w ds =
  mkWalk (mkClosureGraph (cg_Root (w_graph w)) (cg_Nodes (w_graph w))
            (cg_Edges (w_graph w) ++ ((λ c, mkClosureEdge (key_of cur.1) (key_of c)) <$> kids ds)) (cg_MaxDepthReached (w_graph w)))
    (w_visited w)
    (w_queue w ++ ((λ c, (c, S cur.2)) <$> filter (λ c, key_of c ∉ w_visited w) (kids ds))).
Proof.
  revert w. induction ds as [|d ds IH]; intros w; simpl.
  { rewrite !app_nil_r. by destruct w as [[]]. }
  rewrite IH. unfold visit_dep, kids. rewrite filter_cons. destruct (decide (_ ∨ _)) as [Hd|Hd].
  - destruct (decide (kept d)) as [[]|_]; [tauto|done].
  - destruct (decide (kept d)) as [_|[]]; [|unfold kept; tauto]. csimpl. rewrite filter_cons.
    unfold key_of at 3. cbn [dep_coord fst snd]. destruct (decide (_ ∈ _)) as [Hv|Hv].
    + rewrite decide_False by (unfold key_of; simpl; tauto). by rewrite <-app_assoc.
    + rewrite decide_True by (unfold key_of; simpl; tauto). csimpl. by rewrite <-!app_assoc.
Qed.

(** The children an entry queues, unless it is at the depth limit. *)
Definition queued_children (ix : Index) (cur : queued) : list (string * string) :=
  if decide (closureMaxDepth ≤ cur.2) then [] else children ix cur.1.

Definition unstored (ix : Index) (cur : queued) : Prop := cur.2 < closureMaxDepth ∧ report_at ix cur.1 = None.
#[local] Instance unstored_dec ix cur : Decision (unstored ix cur) := ltac:(unfold unstored; apply _).

Definition new_nodes (ix : Index) (cur : queued) (w : graph_walk) : list ClosureNode :=
  let nodes := cg_Nodes (w_graph (addNode cur.1 false w)) in
  if decide (unstored ix cur) then flip_external (key_of cur.1) nodes else nodes.

Lemma visit_eq ix cur w :
  visit_entry ix cur w =
  mkWalk (mkClosureGraph (cg_Root (w_graph w)) (new_nodes ix cur w)
            (cg_Edges (w_graph w) ++ ((λ c, mkClosureEdge (key_of cur.1) (key_of c)) <$> queued_children ix cur))
            (bool_decide (closureMaxDepth ≤ cur.2) || cg_MaxDepthReached (w_graph w)))
    ({[key_of cur.1]} ∪ w_visited w)
    (w_queue w ++ ((λ c, (c, S cur.2)) <$> filter (λ c, key_of c ∉ {[key_of cur.1]} ∪ w_visited w) (queued_children ix cur))).
Proof.
  assert (w_visited (addNode cur.1 false w) = {[key_of cur.1]} ∪ w_visited w) as Hv.
  { unfold addNode. case_decide; [|done]. apply leibniz_equiv. set_solver. }
  assert (w_queue (addNode cur.1 false w) = w_queue w) as Hq by (unfold addNode; by case_decide).
  assert (cg_Root (w_graph (addNode cur.1 false w)) = cg_Root (w_graph w) ∧
    cg_Edges (w_graph (addNode cur.1 false w)) = cg_Edges (w_graph w) ∧
    cg_MaxDepthReached (w_graph (addNode cur.1 false w)) = cg_MaxDepthReached (w_graph w)) as (Hr & He & Hm)
    by (unfold addNode; by case_decide).
  unfold visit_entry, new_nodes, queued_children. destruct (decide (closureMaxDepth ≤ cur.2)) as [Hd|Hd].
  - rewrite decide_False by (unfold unstored; lia). rewrite bool_decide_true by done. simpl.
    by rewrite !app_nil_r, Hv, Hq, Hr, He.
  - rewrite bool_decide_false by done. unfold children. destruct (report_at ix cur.1) as [rep|] eqn:E.
    + rewrite decide_False by (unfold unstored; naive_solver). rewrite visit_deps, Hv, Hq, Hr, He, Hm. done.
    + rewrite decide_True by (unfold unstored; split; [lia|done]). simpl. by rewrite !app_nil_r, Hv, Hq, Hr, He, Hm.
Qed.

Definition node_coord (n : ClosureNode) : string * string := (cn_Name n, cn_Version n).

Lemma flip_coords key nodes : node_coord <$> flip_external key nodes = node_coord <$> nodes.
Proof. induction nodes as [|n nodes IH]; [done|]. simpl. case_decide; csimpl; [done|]. by rewrite IH. Qed.

(** With distinct keys, the node with the key is marked and the others are kept. *)
Lemma flip_spec key nodes n :
  NoDup ((λ n, key_of (node_coord n)) <$> nodes) → n ∈ flip_external key nodes →
  (key_of (node_coord n) = key ∧ cn_External n = true) ∨ (key_of (node_coord n) ≠ key ∧ n ∈ nodes).
Proof.
  induction nodes as [|a nodes IH]; [by intros _ ?%elem_of_nil|]. rewrite fmap_cons. intros [Ha Hnd]%NoDup_cons. simpl.
  case_decide as Hk; intros [->|Hin]%elem_of_cons.
  - left. done.
  - right. split; [|by right]. intros E. apply Ha. apply list_elem_of_fmap. exists n. split; [|done]. by rewrite E, <-Hk.
  - right. split; [done|by left].
  - destruct (IH Hnd Hin) as [|[]]; [by left|right]. split; [done|by right].
Qed.
End closure.

(** ** The walk's invariant *)

Section walked.
Context (decode_report : string → result string ModuleReport) (ix : Index) (root : string * string).
Context (Hroot : plain "@" root.1) (Hplain : plain_names decode_report ix).
Abbreviation report_at := (report_at decode_report ix).
Abbreviation children := (children decode_report ix).
Abbreviation queued_children := (queued_children decode_report ix).
Abbreviation reach := (reach decode_report ix root).
Abbreviation visit_entry := (visit_entry decode_report ix).

Lemma expand_spec cur c : c ∈ queued_children cur ↔ cur.2 < closureMaxDepth ∧ c ∈ children cur.1.
Proof.
  clear. unfold GraphClosure.queued_children. case_decide; [|split; [split; [lia|done]|tauto]].
  split; [by intros ?%elem_of_nil|lia].
Qed.

(** The state of the walk, with the entries taken so far: both together are in the order
    of their depths, the queue within one step; every entry is reached in its depth;
    what an expanded entry declares has an entry at most one deeper. *)
Record walked (H : list queued) (w : graph_walk) : Prop := {
  wk_sorted : StronglySorted (λ a b : queued, a.2 ≤ b.2) (H ++ w_queue w);
  wk_gap : ∀ x y, x ∈ w_queue w → y ∈ w_queue w → y.2 ≤ S x.2;
  wk_sound : ∀ e, e ∈ H ++ w_queue w → reach e.2 e.1 ∧ plain "@" e.1.1 ∧ e.2 ≤ closureMaxDepth;
  wk_visited : ∀ t, t ∈ w_visited w ↔ ∃ e, e ∈ H ∧ t = key_of e.1;
  wk_closed : ∀ e c, e ∈ H → c ∈ queued_children e → ∃ k, (c, k) ∈ H ++ w_queue w ∧ k ≤ S e.2;
  wk_root : (root, 0) ∈ H ++ w_queue w;
  wk_distinct : NoDup (node_coord <$> cg_Nodes (w_graph w));
  wk_nodes : ∀ c, c ∈ node_coord <$> cg_Nodes (w_graph w) ↔ ∃ k, (c, k) ∈ H;
  wk_external : ∀ n, n ∈ cg_Nodes (w_graph w) →
    cn_External n = true ↔ ∃ k, (node_coord n, k) ∈ H ∧ unstored decode_report ix (node_coord n, k);
  wk_edges : ∀ e, e ∈ cg_Edges (w_graph w) ↔
    ∃ x c, x ∈ H ∧ c ∈ queued_children x ∧ e = mkClosureEdge (key_of x.1) (key_of c);
  wk_depth : cg_MaxDepthReached (w_graph w) = true ↔ ∃ e, e ∈ H ∧ closureMaxDepth ≤ e.2;
}.

Lemma walked_initial : walked [] (initial root).
Proof.
  split; simpl.
  - repeat constructor.
  - intros x y ->%list_elem_of_singleton ->%list_elem_of_singleton. simpl. lia.
  - intros e ->%list_elem_of_singleton. split_and!; [constructor|done|simpl; lia].
  - set_solver.
  - intros e c []%elem_of_nil.
  - by left.
  - constructor.
  - intros c. split; [intros []%elem_of_nil|intros (k & []%elem_of_nil)].
  - intros n []%elem_of_nil.
  - intros e. split; [intros []%elem_of_nil|intros (x & c & []%elem_of_nil & _)].
  - split; [done|intros (e & []%elem_of_nil & _)].
Qed.

Section step.
Context (H : list queued) (cur : queued) (w : graph_walk) (queue : list queued).
Context (Hw : walked H w) (Hq : w_queue w = cur :: queue).

Lemma step_visited c : plain "@" c.1 → key_of c ∈ {[key_of cur.1]} ∪ w_visited w ↔ ∃ k, (c, k) ∈ H ++ [cur].
Proof.
  intros Hc. destruct Hw as [_ _ Hsound Hvis _ _ _ _ _ _ _]. rewrite elem_of_union, elem_of_singleton, Hvis.
  assert (∀ e, e ∈ H ++ w_queue w → key_of c = key_of e.1 → c = e.1) as Hinj.
  { intros e He. apply key_of_inj; [done|]. by apply Hsound. }
  rewrite Hq in Hinj. split.
  - intros [E|(e & He & E)]; apply Hinj in E; try (apply elem_of_app; first [by left|right; by left]); subst; eexists; apply elem_of_app.
    + right. rewrite <-surjective_pairing. by left.
    + left. by rewrite <-surjective_pairing.
  - intros (k & [Hin|E%list_elem_of_singleton]%elem_of_app); [right; by exists (c, k)|left; by rewrite <-E].
Qed.

Lemma cur_sound : reach cur.2 cur.1 ∧ plain "@" cur.1.1 ∧ cur.2 ≤ closureMaxDepth.
Proof. destruct Hw as [_ _ Hsound _ _ _ _ _ _ _ _]. apply Hsound. rewrite Hq. apply elem_of_app. right. by left. Qed.

Lemma expand_plain c : c ∈ queued_children cur → plain "@" c.1.
Proof. intros [_ Hc]%expand_spec. by apply (Hplain cur.1). Qed.

Lemma H_keys_NoDup nodes : (∀ c, c ∈ node_coord <$> nodes → plain "@" c.1) →
  NoDup (node_coord <$> nodes) → NoDup ((λ n, key_of (node_coord n)) <$> nodes).
Proof.
  clear. intros Hp Hnd. rewrite (list_fmap_compose node_coord key_of). 
  induction (node_coord <$> nodes) as [|c l IH]; [constructor|]. apply NoDup_cons in Hnd as [Hc Hnd].
  rewrite fmap_cons. apply NoDup_cons. split; [|apply IH; [intros; apply Hp; by right|done]].
  intros (c' & E & Hin)%list_elem_of_fmap. apply key_of_inj in E; [by subst|apply Hp; by left|apply Hp; by right].
Qed.

(** The nodes once [cur] has been added. *)
Definition added : list ClosureNode := cg_Nodes (w_graph (addNode cur.1 false w)).

Lemma added_coords c : c ∈ node_coord <$> added ↔ ∃ k, (c, k) ∈ H ++ [cur].
Proof.
  pose proof (step_visited cur.1 (proj1 (proj2 cur_sound))) as Hc. pose proof (wk_nodes _ _ Hw) as Hn.
  pose proof (wk_visited _ _ Hw (key_of cur.1)) as Hv. unfold added, addNode. case_decide as Hd; simpl.
  - rewrite Hn. split; [intros [k Hk]; exists k; apply elem_of_app; by left|]. intros (k & [Hk|E%list_elem_of_singleton]%elem_of_app); [by exists k|].
    apply Hv in Hd as ([c' k'] & He & Ek). exists k'. apply key_of_inj in Ek; [|by apply cur_sound|].
    + simpl in Ek. by rewrite <-E in Ek; simpl in Ek; subst.
    + destruct (wk_sound _ _ Hw (c', k')) as (_ & ? & _); [by apply elem_of_app; left|done].
  - rewrite fmap_app, elem_of_app, Hn. simpl. rewrite list_elem_of_singleton. unfold node_coord. simpl.
    rewrite <-surjective_pairing. split.
    + intros [[k Hk]| ->]; [exists k; apply elem_of_app; by left|].
      exists cur.2. rewrite <-surjective_pairing. apply elem_of_app. right. by left.
    + intros (k & [Hk|<-%list_elem_of_singleton]%elem_of_app); [left; by exists k|by right].
Qed.

Lemma added_NoDup : NoDup (node_coord <$> added).
Proof.
  pose proof (wk_distinct _ _ Hw) as Hnd. unfold added, addNode. case_decide as Hd; [done|]. simpl.
  rewrite fmap_app. apply NoDup_app. split; [done|]. split; [|apply NoDup_singleton].
  intros c [k Hc]%(wk_nodes _ _ Hw) E%list_elem_of_singleton. unfold node_coord in E. simpl in E.
  rewrite <-surjective_pairing in E. apply Hd, (wk_visited _ _ Hw). exists (c, k). split; [done|]. by rewrite E.
Qed.

Lemma added_plain c : c ∈ node_coord <$> added → plain "@" c.1.
Proof.
  intros (k & [Hk|E%list_elem_of_singleton]%elem_of_app)%added_coords.
  - destruct (wk_sound _ _ Hw (c, k)) as (_ & ? & _); [by apply elem_of_app; left|done].
  - pose proof (proj1 (proj2 cur_sound)) as Hc. by rewrite <-E in Hc.
Qed.

Lemma added_external n : n ∈ added →
  cn_External n = true ↔ ∃ k, (node_coord n, k) ∈ H ∧ unstored decode_report ix (node_coord n, k).
Proof.
  pose proof (wk_external _ _ Hw) as He. pose proof (wk_visited _ _ Hw (key_of cur.1)) as Hv.
  unfold added, addNode. case_decide as Hd; [apply He|]. simpl.
  intros [Hn| ->%list_elem_of_singleton]%elem_of_app; [by apply He|]. simpl. split; [done|].
  intros (k & Hk & _). destruct Hd. apply Hv. exists (node_coord (mkClosureNode cur.1.1 cur.1.2 false), k).
  split; [done|]. unfold node_coord. simpl. by rewrite <-surjective_pairing.
Qed.

Definition next : graph_walk := visit_entry cur (mkWalk (w_graph w) (w_visited w) queue).

Lemma next_nodes :
  cg_Nodes (w_graph next) = if decide (unstored decode_report ix cur) then flip_external (key_of cur.1) added else added.
Proof.
  unfold next. rewrite visit_eq. simpl. unfold new_nodes, added, addNode. simpl.
  by destruct (decide (key_of cur.1 ∈ w_visited w)).
Qed.

Lemma next_queue :
  w_queue next = queue ++ ((λ c, (c, S cur.2)) <$> filter (λ c, key_of c ∉ {[key_of cur.1]} ∪ w_visited w) (queued_children cur)).
Proof. unfold next. by rewrite visit_eq. Qed.

Lemma next_entries e :
  e ∈ (H ++ [cur]) ++ w_queue next →
  e ∈ H ++ w_queue w ∨ (e.2 = S cur.2 ∧ e.1 ∈ queued_children cur).
Proof.
  rewrite next_queue, Hq. rewrite <-app_assoc. simpl. rewrite elem_of_app, elem_of_cons, elem_of_app, list_elem_of_fmap.
  intros [Hin|[->|[Hin|(c & -> & [_ Hin]%list_elem_of_filter)]]].
  - left. apply elem_of_app. by left.
  - left. apply elem_of_app. right. by left.
  - left. apply elem_of_app. right. by right.
  - right. done.
Qed.

Lemma kept_entries e : e ∈ H ++ w_queue w → e ∈ (H ++ [cur]) ++ w_queue next.
Proof.
  rewrite next_queue, Hq, <-app_assoc. simpl. rewrite !elem_of_app, !elem_of_cons, elem_of_app. tauto.
Qed.

Lemma step_sorted : StronglySorted (λ a b : queued, a.2 ≤ b.2) ((H ++ [cur]) ++ w_queue next).
Proof.
  pose proof (wk_sorted _ _ Hw) as Hs. pose proof (wk_gap _ _ Hw) as Hgap. rewrite Hq in Hs, Hgap.
  rewrite next_queue, <-app_assoc. simpl. rewrite app_comm_cons, app_assoc. apply StronglySorted_app_2; [|done|].
  - intros x y Hx (c & -> & _)%list_elem_of_fmap. simpl.
    apply elem_of_app in Hx as [Hx|Hx].
    + apply StronglySorted_app in Hs as (Hs & _ & _). specialize (Hs x cur Hx (list_elem_of_here _ _)). simpl in Hs. lia.
    + apply Hgap; [by left|done].
  - set (l := filter _ _). clear. induction l as [|c l IH]; csimpl; constructor; [done|].
    apply Forall_forall. intros x (c' & -> & _)%list_elem_of_fmap. done.
Qed.

Lemma step_gap x y : x ∈ w_queue next → y ∈ w_queue next → y.2 ≤ S x.2.
Proof.
  pose proof (wk_gap _ _ Hw) as Hgap. pose proof (wk_sorted _ _ Hw) as Hs. rewrite Hq in Hgap, Hs.
  apply StronglySorted_app in Hs as (_ & _ & Hs). apply StronglySorted_cons in Hs as [Hle _]. rewrite Forall_forall in Hle.
  rewrite next_queue. intros [Hx|(c & -> & _)%list_elem_of_fmap]%elem_of_app [Hy|(c' & -> & _)%list_elem_of_fmap]%elem_of_app; simpl.
  - apply Hgap; by right.
  - specialize (Hle x Hx). simpl in Hle. lia.
  - assert (y.2 ≤ S cur.2) by (apply Hgap; [by left|by right]). lia.
  - lia.
Qed.

Lemma step_closed e c : e ∈ H ++ [cur] → c ∈ queued_children e → ∃ k, (c, k) ∈ (H ++ [cur]) ++ w_queue next ∧ k ≤ S e.2.
Proof.
  intros [He| ->%list_elem_of_singleton]%elem_of_app Hc.
  { destruct (wk_closed _ _ Hw e c He Hc) as (k & Hk & Hle). exists k. split; [by apply kept_entries|done]. }
  destruct (decide (key_of c ∈ {[key_of cur.1]} ∪ w_visited w)) as [Hd|Hd].
  - apply step_visited in Hd as (k & Hk); [|by apply expand_plain]. exists k. split; [by apply elem_of_app; left|].
    pose proof (wk_sorted _ _ Hw) as Hs. rewrite Hq in Hs. apply StronglySorted_app in Hs as (Hs & _ & _).
    apply elem_of_app in Hk as [Hk|E%list_elem_of_singleton]; [|by rewrite <-E; simpl; lia].
    specialize (Hs (c, k) cur Hk (list_elem_of_here _ _)). simpl in Hs. lia.
  - exists (S cur.2). split; [|done]. rewrite next_queue. apply elem_of_app. right. apply elem_of_app. right.
    apply list_elem_of_fmap. exists c. split; [done|]. by apply list_elem_of_filter.
Qed.

Lemma step_external n : n ∈ cg_Nodes (w_graph next) →
  cn_External n = true ↔ ∃ k, (node_coord n, k) ∈ H ++ [cur] ∧ unstored decode_report ix (node_coord n, k).
Proof.
  rewrite next_nodes. intros Hn.
  assert (∀ n', n' ∈ added → node_coord n' ≠ cur.1 ∨ ¬ unstored decode_report ix cur →
    cn_External n' = true ↔ ∃ k, (node_coord n', k) ∈ H ++ [cur] ∧ unstored decode_report ix (node_coord n', k)) as Hother.
  { intros n' Hn' Hor. rewrite added_external by done. split; intros (k & Hk & Hu); exists k; (split; [|done]).
    - by apply elem_of_app; left.
    - apply elem_of_app in Hk as [Hk|E%list_elem_of_singleton]; [done|]. rewrite <-E in Hor. destruct Hor; done. }
  case_decide as Hu; [|by apply Hother; [|right]].
  pose proof Hn as Hin. apply flip_spec in Hn as [[Ek He]|[Ek Hn]].
  - rewrite He. split; [|done]. intros _. exists cur.2.
    assert (node_coord n = cur.1) as Ec; [|rewrite Ec; destruct cur; simpl in *; split; [apply elem_of_app; right; by left|done]].
    apply key_of_inj; [|by apply cur_sound|done]. apply added_plain.
    rewrite <-(flip_coords (key_of cur.1)). by apply list_elem_of_fmap_2.
  - apply Hother; [done|]. left. intros E. by rewrite E in Ek.
  - apply H_keys_NoDup; [apply added_plain|apply added_NoDup].
Qed.

Lemma walked_step : walked (H ++ [cur]) next.
Proof.
  assert (∀ c, c ∈ node_coord <$> cg_Nodes (w_graph next) ↔ c ∈ node_coord <$> added) as Hnodes.
  { intros c. rewrite next_nodes. case_decide; [by rewrite flip_coords|done]. }
  split.
  - apply step_sorted.
  - apply step_gap.
  - intros e [He|[Ee Hin]]%next_entries; [by apply (wk_sound _ _ Hw)|]. destruct cur_sound as (Hr & _ & _).
    destruct e as [c k]. simpl in *. subst. pose proof (expand_plain c Hin). apply expand_spec in Hin as [Hd Hin].
    split_and!; [by eapply reach_step|done|lia].
  - intros t. unfold next. rewrite visit_eq. simpl. rewrite elem_of_union, elem_of_singleton, (wk_visited _ _ Hw). split.
    + intros [->|(e & He & ->)]; eexists; (split; [apply elem_of_app|done]); [right; by left|by left].
    + intros (e & [He| ->%list_elem_of_singleton]%elem_of_app & ->); [right; by exists e|by left].
  - apply step_closed.
  - apply kept_entries, (wk_root _ _ Hw).
  - rewrite next_nodes. case_decide; [rewrite flip_coords|]; apply added_NoDup.
  - intros c. by rewrite Hnodes, added_coords.
  - apply step_external.
  - intros e. unfold next. rewrite visit_eq. simpl. rewrite elem_of_app, (wk_edges _ _ Hw), list_elem_of_fmap. split.
    + intros [(x & c & Hx & Hc & ->)|(c & -> & Hc)]; [exists x, c|exists cur, c]; (split; [apply elem_of_app|done]);
        [by left|right; by left].
    + intros (x & c & [Hx| ->%list_elem_of_singleton]%elem_of_app & Hc & ->); [left; by exists x, c|right; by exists c].
  - unfold next. rewrite visit_eq. simpl. rewrite orb_true_iff, bool_decide_eq_true, (wk_depth _ _ Hw). split.
    + intros [Hd|(e & He & Hd)]; eexists; (split; [apply elem_of_app|done]); [right; by left|by left].
    + intros (e & [He| ->%list_elem_of_singleton]%elem_of_app & Hd); [right; by exists e|by left].
Qed.
End step.

(** ** The walk ends *)

(** The most dependencies a stored report declares. *)
Definition max_deps : nat := foldr Nat.max 0 ((λ kv, length (children kv.1)) <$> map_to_list (ix_versions ix)).

Lemma children_bound c : length (children c) ≤ max_deps.
Proof.
  clear. unfold max_deps. destruct (ix_versions ix !! c) as [cols|] eqn:E.
  - apply elem_of_map_to_list in E. induction (map_to_list (ix_versions ix)) as [|kv l IH]; [by apply elem_of_nil in E|].
    csimpl. apply elem_of_cons in E as [<-|E]; [simpl; lia|]. specialize (IH E). lia.
  - unfold GraphClosure.children, GraphClosure.report_at, GetReport. rewrite <-surjective_pairing, E. simpl. lia.
Qed.

(** The entries taken on account of one that has [n] levels below it. *)
Fixpoint cost (n : nat) : nat := match n with O => 1 | S n => 1 + max_deps * cost n end.
Definition owed (queue : list queued) : nat := sum_list_with (λ e, cost (closureMaxDepth - e.2)) queue.

Lemma length_expand cur : length (queued_children cur) ≤ max_deps.
Proof. clear. unfold GraphClosure.queued_children. case_decide; simpl; [lia|apply children_bound]. Qed.

Lemma owed_children k (l : list (string * string)) :
  owed ((λ c, (c, k)) <$> l) = length l * cost (closureMaxDepth - k).
Proof. clear. induction l as [|c l IH]; [done|]. csimpl. unfold owed in *. simpl. lia. Qed.

Lemma owed_step cur w queue :
  S (owed (w_queue (visit_entry cur (mkWalk (w_graph w) (w_visited w) queue)))) ≤ owed (cur :: queue).
Proof.
  clear. rewrite visit_eq. simpl. unfold owed. rewrite sum_list_with_app. fold (owed queue).
  match goal with |- context [(λ c, (c, S cur.2)) <$> ?l] => fold (owed ((λ c, (c, S cur.2)) <$> l));
    rewrite owed_children; assert (length l ≤ length (queued_children cur)) as Hl by apply length_filter end.
  simpl. fold (owed queue). destruct (decide (closureMaxDepth ≤ cur.2)) as [Hd|Hd].
  - assert (queued_children cur = []) as E by (unfold GraphClosure.queued_children; by rewrite decide_True). rewrite E. simpl.
    destruct (closureMaxDepth - cur.2) eqn:?; simpl; lia.
  - replace (closureMaxDepth - cur.2) with (S (closureMaxDepth - S cur.2)) by lia. simpl.
    pose proof (length_expand cur). nia.
Qed.

Lemma graph_walk_ends fuel H w : walked H w → owed (w_queue w) ≤ fuel →
  ∃ H' w', walk_queue decode_report ix fuel w = Some (w_graph w') ∧ walked H' w' ∧ w_queue w' = [].
Proof.
  revert H w. induction fuel as [|fuel IH]; intros H w Hw Hf; destruct (w_queue w) as [|cur queue] eqn:Hq.
  - exists H, w. simpl. by rewrite Hq.
  - exfalso. unfold owed in Hf. simpl in Hf. destruct (closureMaxDepth - cur.2); simpl in Hf; lia.
  - exists H, w. simpl. by rewrite Hq.
  - simpl. rewrite Hq. apply (IH (H ++ [cur])); [by apply walked_step|].
    pose proof (owed_step cur w queue). lia.
Qed.

(** ** What the graph holds *)

Record graph_of (g : ClosureGraph) : Prop := {
  go_root : cg_Root g = key_of root;
  go_distinct : NoDup (node_coord <$> cg_Nodes g);
  go_nodes : ∀ c, c ∈ node_coord <$> cg_Nodes g ↔ ∃ k, k ≤ closureMaxDepth ∧ reach k c;
  go_external : ∀ n, n ∈ cg_Nodes g →
    cn_External n = true ↔ report_at (node_coord n) = None ∧ ∃ k, k < closureMaxDepth ∧ reach k (node_coord n);
  go_edges : ∀ e, e ∈ cg_Edges g ↔
    ∃ k c c', k < closureMaxDepth ∧ reach k c ∧ c' ∈ children c ∧ e = mkClosureEdge (key_of c) (key_of c');
  go_depth : cg_MaxDepthReached g = true → ∃ c, reach closureMaxDepth c;
  go_deep : ∀ c, reach closureMaxDepth c → (∀ k, k < closureMaxDepth → ¬ reach k c) → cg_MaxDepthReached g = true;
}.

(** Once the queue is empty, what is reached has been taken, at its depth or before. *)
Lemma walked_complete H w k c : walked H w → w_queue w = [] → reach k c → k ≤ closureMaxDepth → ∃ k', (c, k') ∈ H ∧ k' ≤ k.
Proof.
  intros Hw Hq Hr. pose proof (wk_root _ _ Hw) as H0. pose proof (wk_closed _ _ Hw) as Hc. rewrite Hq, app_nil_r in H0, Hc.
  induction Hr as [|k c c' Hr IH Hin]; intros Hk; [by exists 0|]. destruct IH as (k' & Hk' & Hle); [lia|].
  destruct (Hc (c, k') c' Hk') as (k'' & ? & ?); [apply expand_spec; simpl; split; [lia|done]|].
  exists k''. simpl in *. split; [done|lia].
Qed.

Lemma walked_graph H w : walked H w → w_queue w = [] → cg_Root (w_graph w) = key_of root → graph_of (w_graph w).
Proof.
  intros Hw Hq Hr. pose proof (λ k c, walked_complete H w k c Hw Hq) as Hcomp.
  pose proof (wk_sound _ _ Hw) as Hsound. rewrite Hq, app_nil_r in Hsound. split.
  - done.
  - apply (wk_distinct _ _ Hw).
  - intros c. rewrite (wk_nodes _ _ Hw). split.
    + intros [k Hk]. exists k. by destruct (Hsound _ Hk) as (? & _ & ?).
    + intros (k & Hk & Hreach). destruct (Hcomp k c Hreach Hk) as (k' & ? & _). by exists k'.
  - intros n Hn. rewrite (wk_external _ _ Hw) by done. unfold unstored. simpl. split.
    + intros (k & Hk & Hlt & Hnone). split; [done|]. exists k. by destruct (Hsound _ Hk) as (? & _ & _).
    + intros (Hnone & k & Hlt & Hreach). destruct (Hcomp k _ Hreach) as (k' & ? & ?); [lia|].
      exists k'. split_and!; [done|lia|done].
  - intros e. rewrite (wk_edges _ _ Hw). split.
    + intros ([c k] & c' & Hx & [Hlt Hc]%expand_spec & ->). exists k, c, c'. by destruct (Hsound _ Hx) as (? & _ & _).
    + intros (k & c & c' & Hlt & Hreach & Hc & ->). destruct (Hcomp k c Hreach) as (k' & ? & ?); [lia|].
      exists (c, k'), c'. split_and!; [done| |done]. apply expand_spec. simpl. split; [lia|done].
  - intros ([c k] & Hx & Hle)%(wk_depth _ _ Hw). destruct (Hsound _ Hx) as (? & _ & ?). simpl in *.
    exists c. by replace closureMaxDepth with k by lia.
  - intros c Hreach Hno. apply (wk_depth _ _ Hw). destruct (Hcomp _ c Hreach) as (k' & Hk' & Hle); [done|].
    exists (c, k'). split; [done|]. simpl. destruct (decide (closureMaxDepth ≤ k')) as [|Hlt]; [done|].
    destruct (Hno k'); [lia|]. by destruct (Hsound _ Hk') as (? & _ & _).
Qed.

Lemma walk_root fuel w g : walk_queue decode_report ix fuel w = Some g → cg_Root g = cg_Root (w_graph w).
Proof.
  clear. revert w. induction fuel as [|fuel IH]; intros w; simpl; destruct (w_queue w) as [|cur queue]; try congruence.
  intros E. rewrite (IH _ E). by rewrite visit_eq.
Qed.
End walked.

(** C38: The walk ends, cycles or not, and draws exactly the part of the dependency graph
    within ten steps of the root: one node for each coordinate reached, marked external
    exactly when the store has no report for it and it is reached in fewer than ten
    steps; an edge for each declared dependency of a coordinate reached in fewer than
    ten; and the depth flag when something is ten steps away and no nearer, and only
    when a path of ten steps exists.  Names must not hold the separator of the keys. *)
Theorem closure_exact (decode_report : string → result string ModuleReport) (ix : Index) (root : string * string)
    (Hroot : plain "@" root.1) (Hplain : plain_names decode_report ix) (fuel : nat)
    (Hfuel : cost decode_report ix closureMaxDepth ≤ fuel) :
  ∃ g, Closure decode_report ix fuel root = Some g ∧ graph_of decode_report ix root g.
Proof.
  destruct (graph_walk_ends decode_report ix root Hplain fuel [] (initial root)) as (H & w & E & Hw & Hq).
  - by apply walked_initial.
  - unfold owed. simpl. rewrite Nat.add_0_r. done.
  - exists (w_graph w). split; [done|]. apply (walked_graph _ _ _ H); [done..|]. apply walk_root in E. done.
Qed.

(** ** The ingest of the missing coordinates *)

(** [Bump] with a record of the coordinates it is called on. *)
Definition recorded {S : Type} (Bump : string * string → S → option string * S)
    (c : string * string) (s : S * list (string * string)) : option string * (S * list (string * string)) :=
  let r := Bump c s.1 in (r.1, (r.2, s.2 ++ [c])).

Definition missing_of (g : ClosureGraph) : list (string * string) := node_coord <$> filter (λ n, cn_External n = true) (cg_Nodes g).

Lemma bump_missing_spec {S : Type} (Bump : string * string → S → option string * S) nodes acc s log :
  let '(r, (s', log')) := foldl (bump_missing (recorded Bump)) (acc, (s, log)) nodes in
  log' = log ++ (node_coord <$> filter (λ n, cn_External n = true) nodes) ∧
  icr_Bumped r + icr_Failed r = icr_Bumped acc + icr_Failed acc + length (node_coord <$> filter (λ n, cn_External n = true) nodes) ∧
  ∃ errs, icr_Errors r = icr_Errors acc ++ errs ∧ icr_Failed r = icr_Failed acc + length errs ∧ errs.*1 `sublist_of` (node_coord <$> filter (λ n, cn_External n = true) nodes).
Proof.
  revert acc s log. induction nodes as [|n nodes IH]; intros acc s log; simpl.
  { rewrite app_nil_r. split; [done|]. split; [lia|]. exists []. rewrite app_nil_r. simpl. split_and!; [done|lia|constructor]. }
  unfold bump_missing at 2. rewrite filter_cons. cbv zeta. destruct (cn_External n) eqn:E.
  - rewrite decide_True, fmap_cons by done. cbn [length]. unfold recorded at 2. simpl. destruct (Bump _ s) as [[e|] s1]; simpl.
    + specialize (IH (mkIngestClosureResult (icr_Bumped acc) (icr_Failed acc + 1)
        (icr_Errors acc ++ [(cn_Name n, cn_Version n, e)])) s1 (log ++ [node_coord n])).
      destruct (foldl _ _ nodes) as [r [s' log']]. cbn [icr_Bumped icr_Failed icr_Errors] in IH. destruct IH as (-> & Hc & errs & He & Hf & Hs).
      split; [by rewrite <-app_assoc|]. split; [lia|]. exists ((node_coord n, e) :: errs). rewrite He, <-app_assoc.
      csimpl. split_and!; [done|lia|]. by constructor.
    + specialize (IH (mkIngestClosureResult (icr_Bumped acc + 1) (icr_Failed acc) (icr_Errors acc)) s1 (log ++ [node_coord n])).
      destruct (foldl _ _ nodes) as [r [s' log']]. cbn [icr_Bumped icr_Failed icr_Errors] in IH. destruct IH as (-> & Hc & errs & He & Hf & Hs).
      split; [by rewrite <-app_assoc|]. split; [lia|]. exists errs. split_and!; [done|lia|]. by constructor.
  - rewrite decide_False by congruence. apply IH.
Qed.

(** The ingest of a closure tries every missing coordinate of the graph, in its order
    and none twice, whatever the earlier ones returned; it counts each as bumped or
    failed, and lists the failures, in order. *)
Theorem missing_ingested {S : Type} (Bump : string * string → S → option string * S) (g : ClosureGraph) (s : S) :
  let '(r, (_, log)) := IngestClosureMissing (recorded Bump) g (s, []) in
  log = missing_of g ∧ (NoDup (node_coord <$> cg_Nodes g) → NoDup log) ∧
  icr_Bumped r + icr_Failed r = length (missing_of g) ∧
  icr_Failed r = length (icr_Errors r) ∧ (icr_Errors r).*1 `sublist_of` missing_of g.
Proof.
  unfold IngestClosureMissing.
  pose proof (bump_missing_spec Bump (cg_Nodes g) (mkIngestClosureResult 0 0 []) s []) as H.
  destruct (foldl _ _ _) as [r [s' log]]. destruct H as (-> & Hc & errs & He & Hf & Hs). simpl in *. rewrite He.
  split; [done|]. split; [apply NoDup_fmap_filter|]. by split_and!.
Qed.

(** ** Concrete graphs *)

Definition chain_row (rep : string) : VersionCols := mkVersionCols 0 "[]" "t" "{}" 0 false "{}" rep.
Definition dep_on (name : string) : ModuleKey := mkModuleKey name "1" false "".
Definition report_on (ds : list ModuleKey) : ModuleReport :=
  mkModuleReport "" "" 0 [] ds [] [] [] [] [] [] [] [] [] [] [] [] [] (mkHermeticityProfile [] []) [] zeroAssets.

(** A diamond whose foot points back at the head and at a module the store has not:
    a → b, c; b, c → d; d → a, x. *)
Definition diamond_decode (t : string) : result string ModuleReport :=
  if decide (t = "a") then Ok (report_on [dep_on "b"; dep_on "c"; mkModuleKey "skipped" "" false ""])
  else if decide (t = "b") then Ok (report_on [dep_on "d"])
  else if decide (t = "c") then Ok (report_on [dep_on "d"])
  else if decide (t = "d") then Ok (report_on [dep_on "a"; dep_on "x"])
  else Err "none".
Definition diamond : Index :=
  set_versions (list_to_map ((λ n, ((n, "1"), chain_row n)) <$> ["a"; "b"; "c"; "d"])) emptyIndex.

Lemma diamond_plain : plain_names diamond_decode diamond.
Proof.
  intros c c' Hc. unfold children, report_at, GetReport in Hc. rewrite <-surjective_pairing in Hc.
  destruct (ix_versions diamond !! c) as [cols|] eqn:E; [|by apply elem_of_nil in Hc].
  assert (c' ∈ [("b", "1"); ("c", "1"); ("d", "1"); ("a", "1"); ("x", "1")]) as Hin.
  { simpl in Hc. unfold diamond_decode in Hc. repeat case_decide; vm_compute in Hc |- *;
      repeat (apply elem_of_cons in Hc as [Hc|Hc]; [subst; set_solver|]); by apply elem_of_nil in Hc. }
  clear - Hin. repeat (apply elem_of_cons in Hin as [Hin|Hin];
    [subst; intros Hx%list_elem_of_singleton; discriminate|]). by apply elem_of_nil in Hin.
Qed.

Lemma closure_exact_witness :
  plain "@" "a" ∧ plain_names diamond_decode diamond ∧
  ∃ g, Closure diamond_decode diamond 5000 ("a", "1") = Some g ∧ graph_of diamond_decode diamond ("a", "1") g ∧
    missing_of g = [("x", "1")].
Proof.
  assert (plain "@" "a") as Ha by (intros Hx%list_elem_of_singleton; discriminate).
  pose proof diamond_plain as Hp.
  split; [exact Ha|]. split; [exact Hp|].
  destruct (closure_exact diamond_decode diamond ("a", "1") Ha Hp 5000) as (g & E & Hg).
  - apply Nat.leb_le. vm_compute. reflexivity.
  - exists g. split; [exact E|]. split; [exact Hg|]. vm_compute in E. injection E as <-. vm_compute. reflexivity.
Defined.

(** An entry queued twice before it is taken is expanded twice: d's two edges are each
    drawn twice, and the work doubles at every further diamond. *)
Example edges_repeated :
  option_map (λ g, (length (cg_Nodes g), length (cg_Edges g))) (Closure diamond_decode diamond 100 ("a", "1")) = Some (5, 8).
Proof. vm_compute. reflexivity. Qed.
