(* ===== verification/Compat.v ===== *)
(** * The compatibility analyser

    [internal/compat]: the analysis of a MODULE.bazel against the index (compat.go), its
    migration plan and the migration script (shell.go).  The index is behind the
    interface [ReportSource], which [Service] implements (internal/bzlhub/compat.go);
    the parser of MODULE.bazel files is a parameter. *)

From stdpp Require Import pretty.
From S2P Require Import Prelude Strings Report ModuleDiff Breaking Index Catalog.

(** ** The source of reports *)

(** [compat.ReportSource]; a report that is not indexed is [None]. *)
Class ReportSource (S : Type) := {
  src_LatestVersion : S → string → result string string;
  src_GetReport : S → string → string → result string (option ModuleReport);
}.

(** What its comment promises the analyser: placeholders are skipped. *)
Class ReportSourceLaws (S : Type) `{ReportSource S} : Prop := {
  latest_is_real s name v : src_LatestVersion s name = Ok v → v ≠ "" → IsStubVersion v = false;
}.

(** What the parser yields. *)
Record Dependency := mkDependency { bd_Name : string; bd_Version : string; bd_DevDependency : bool }.
Record ModuleInfo := mkModuleInfo { mi_Name : string; mi_Version : string; mi_Dependencies : list Dependency }.

Record SelfInfo := mkSelfInfo { si_Name : string; si_Version : string }.

Record DepEntry := mkDepEntry {
  de_Name : string;
  de_FromVersion : string;
  de_ToVersion : string;
  de_InCorpus : bool;
  de_SameVersion : bool;
  de_FromIndexed : bool;
  de_BreakingCount : Z;
  de_Report : option DiffReport;
  de_Findings : list BreakingFinding;
}.

Record Summary := mkSummary { sm_TotalDeps : Z; sm_BreakingDeps : Z; sm_MissingFromCorpus : Z; sm_AlreadyLatest : Z }.

Record Analysis := mkAnalysis {
  an_Self : SelfInfo;
  an_Deps : list DepEntry;
  an_Summary : Summary;
}.

(** [Result]: the analysis and its two renderings. *)
Record CompatResult := mkCompatResult { cr_Analysis : Analysis; cr_PlanMarkdown : string; cr_PlanShell : string }.

Inductive AnalyzeError : Type :=
| ErrParse (e : string)
| ErrEmptyInput.

(** The dependencies the analysis looks at. *)
Definition selected (IncludeDevDependencies : bool) (d : Dependency) : bool :=
  negb (bool_decide (bd_Name d = "")) && negb (bool_decide (bd_Version d = "")) &&
  (negb (bd_DevDependency d) || IncludeDevDependencies).

(** A diff under the coordinates the caller asked about. *)
Definition relabel (name from to : string) (r : DiffReport) : DiffReport :=
  let d := dr_Diff r in
  mkDiffReport (mkDiff name from to (d_CompatibilityLevel d) (d_Hermeticity d) (d_BazelDeps d) (d_Rules d) (d_Providers d)
                  (d_Macros d) (d_Aspects d) (d_Toolchains d) (d_RepositoryRules d) (d_ModuleExtensions d))
    (dr_FromSource r) (dr_ToSource r) (dr_Breaking r).

(** The report of a source, errors dropped. *)
Definition source_report {S} `{ReportSource S} (src : S) (name version : string) : option ModuleReport :=
  match src_GetReport src name version with Ok r => r | Err _ => None end.

(** The row of one dependency. *)
Definition analyze_dep {S} `{ReportSource S} (src : S) (d : Dependency) : DepEntry :=
  let name := bd_Name d in
  let from := bd_Version d in
  let missing_entry := mkDepEntry name from "" false false false 0 None [] in
  match src_LatestVersion src name with
  | Err _ => missing_entry
  | Ok latest =>
      if decide (latest = "") then missing_entry
      else if decide (latest = from) then mkDepEntry name from latest true true false 0 None []
      else
        let fromReport := source_report src name from in
        let toReport := source_report src name latest in
        match fromReport, toReport with
        | Some f, Some t =>
            let rep := relabel name from latest (Compute f t) in
            mkDepEntry name from latest true false true (Z.of_nat (length (dr_Breaking rep))) (Some rep) (dr_Breaking rep)
        | _, _ => mkDepEntry name from latest true false (bool_decide (is_Some fromReport)) 0 None []
        end
  end.

(** The comparator of the final stable sort. *)
Definition entry_less (x y : DepEntry) : bool :=
  if decide (de_BreakingCount x = de_BreakingCount y) then String.ltb (de_Name x) (de_Name y)
  else (de_BreakingCount y <? de_BreakingCount x)%Z.

Definition count_entry (s : Summary) (e : DepEntry) : Summary :=
  mkSummary (sm_TotalDeps s + 1)
    (if (0 <? de_BreakingCount e)%Z then sm_BreakingDeps s + 1 else sm_BreakingDeps s)
    (if negb (de_InCorpus e) then sm_MissingFromCorpus s + 1 else sm_MissingFromCorpus s)
    (if de_InCorpus e && de_SameVersion e then sm_AlreadyLatest s + 1 else sm_AlreadyLatest s).

Definition pluralS (n : Z) : string := if decide (n = 1%Z) then "" else "s".

(** ** The migration plan *)

Definition plan_label (f : BreakingFinding) : string :=
  if decide (bf_Symbol f = "") then kind_string (bf_Kind f)
  else if decide (bf_Detail f = "") then kind_string (bf_Kind f) +:+ " `" +:+ bf_Symbol f +:+ "`"
  else kind_string (bf_Kind f) +:+ " `" +:+ bf_Symbol f +:+ "` · `" +:+ bf_Detail f +:+ "`".

Definition plan_finding (f : BreakingFinding) : string :=
  "- **" +:+ plan_label f +:+ "** — " +:+ bf_Reason f +:+ nl +:+
  (if decide (bf_Hint f = "") then "" else "  - " +:+ bf_Hint f +:+ nl).

Definition concat_str (l : list string) : string := foldr String.append "" l.

Definition plan_dep (e : DepEntry) : string :=
  if decide (de_BreakingCount e = 0%Z) then ""
  else "## `" +:+ de_Name e +:+ "`: `" +:+ de_FromVersion e +:+ "` → `" +:+ de_ToVersion e +:+ "` (" +:+
       pretty (de_BreakingCount e) +:+ " breaking)" +:+ nl +:+ nl +:+
       concat_str (plan_finding <$> de_Findings e) +:+ nl.

Definition not_ingested (deps : list DepEntry) : list string :=
  (λ e, de_Name e +:+ "@" +:+ de_FromVersion e) <$> filter (λ e, de_InCorpus e = false) deps.

(** [renderPlan] *)
Definition renderPlan (r : Analysis) : string :=
  let s := an_Summary r in
  let self := an_Self r in
  let missing_names := not_ingested (an_Deps r) in
  "# Compatibility report" +:+ nl +:+ nl +:+
  (if decide (si_Name self = "") then ""
   else "Analyzed: `" +:+ si_Name self +:+ (if decide (si_Version self = "") then "" else "@" +:+ si_Version self) +:+
        "`" +:+ nl +:+ nl) +:+
  "- **" +:+ pretty (sm_TotalDeps s) +:+ "** dep" +:+ pluralS (sm_TotalDeps s) +:+ " analyzed" +:+ nl +:+
  (if (0 <? sm_BreakingDeps s)%Z then "- **" +:+ pretty (sm_BreakingDeps s) +:+ "** with breaking changes" +:+ nl else "") +:+
  (if (0 <? sm_MissingFromCorpus s)%Z
   then "- **" +:+ pretty (sm_MissingFromCorpus s) +:+ "** not yet ingested in bzlhub" +:+ nl else "") +:+
  (if (0 <? sm_AlreadyLatest s)%Z then "- **" +:+ pretty (sm_AlreadyLatest s) +:+ "** already on latest" +:+ nl else "") +:+
  nl +:+
  concat_str (plan_dep <$> an_Deps r) +:+
  (if decide (missing_names = []) then ""
   else "## Not in bzlhub index" +:+ nl +:+ nl +:+
        "These deps aren't ingested yet — analyzer can't compare against a known-good version." +:+ nl +:+ nl +:+
        concat_str ((λ x, "- `" +:+ x +:+ "`" +:+ nl) <$> missing_names) +:+ nl) +:+
  (if decide (Forall (λ e, de_BreakingCount e = 0%Z) (an_Deps r) ∧ missing_names = [])
   then "No breaking changes detected — every dep is on the latest indexed version or its bump is clean." +:+ nl else "").

(** ** The migration script *)

(** [escapeForDoubleQuote] *)
Definition escape_byte (c : ascii) : bytes :=
  if decide (c ∈ ["\"%char; "034"%char; "`"%char; "$"%char]) then ["\"%char; c] else [c].
Definition escapeForDoubleQuote (s : string) : string := of_bytes (to_bytes s ≫= escape_byte).

(** [renderFinding] *)
Definition renderFinding (f : BreakingFinding) : string :=
  let label := kind_string (bf_Kind f) in
  let id := if decide (bf_Detail f = "") then bf_Symbol f else bf_Symbol f +:+ "." +:+ bf_Detail f in
  "# " +:+ label +:+ ": " +:+ id +:+ nl +:+
  (if decide (bf_Codemod f = "") then
     "echo " +:+ dq +:+ "[manual] " +:+ label +:+ " — " +:+ escapeForDoubleQuote (bf_Hint f) +:+ dq +:+ nl
   else if HasPrefix (bf_Codemod f) "#" then
     bf_Codemod f +:+ nl +:+
     "echo " +:+ dq +:+ "[manual] " +:+ escapeForDoubleQuote (TrimPrefix (TrimPrefix (bf_Codemod f) "#") " ") +:+ dq +:+ nl
   else "run " +:+ bf_Codemod f +:+ nl).

(** The section of one dependency. *)
Definition render_section (e : DepEntry) : string :=
  if decide (de_Findings e = []) then ""
  else
    (if de_SameVersion e then "# --- " +:+ de_Name e +:+ " @ " +:+ de_FromVersion e +:+ " (unchanged) ---" +:+ nl
     else if decide (de_ToVersion e = "") then "# --- " +:+ de_Name e +:+ " @ " +:+ de_FromVersion e +:+ " ---" +:+ nl
     else "# --- " +:+ de_Name e +:+ ": " +:+ de_FromVersion e +:+ " → " +:+ de_ToVersion e +:+ " ---" +:+ nl) +:+
    concat_str (renderFinding <$> de_Findings e) +:+ nl.

Definition lines (l : list string) : string := concat_str ((λ x, x +:+ nl) <$> l).

(** The script up to the sections, and after them. *)
Definition preamble (self : SelfInfo) : string :=
  lines ["#!/usr/bin/env bash"; "#"; "# bzlhub-generated migration script."; "# Source: bzlhub compat-check analyzer"] +:+
  (if decide (si_Name self = "") then "" else "# Module: " +:+ si_Name self +:+ "@" +:+ si_Version self +:+ nl) +:+
  lines ["#"; "# SAFETY: This script is a SUGGESTION. Buildozer edits are";
         "# pattern-based and may match more sites than intended."; "# Review each command before running --apply.";
         "#"; "# Usage:"; "#   bash migrate.sh           # dry-run (default): print commands";
         "#   bash migrate.sh --apply   # actually mutate files"; "#";
         "# The BUILDOZER env var overrides the binary name when buildozer";
         "# isn't on $PATH (e.g. BUILDOZER=./tools/buildozer bash migrate.sh)."; ""; "set -eu"; "";
         "MODE=" +:+ dq +:+ "${1:-}" +:+ dq; "BUILDOZER=" +:+ dq +:+ "${BUILDOZER:-buildozer}" +:+ dq; "";
         "run() {"; "  if [[ " +:+ dq +:+ "$MODE" +:+ dq +:+ " == " +:+ dq +:+ "--apply" +:+ dq +:+ " ]]; then";
         "    echo " +:+ dq +:+ "+ $*" +:+ dq; "    " +:+ dq +:+ "$@" +:+ dq; "  else";
         "    echo " +:+ dq +:+ "would run: $*" +:+ dq; "  fi"; "}"; ""].

Definition trailer : string :=
  lines ["echo " +:+ dq +:+ dq; "if [[ " +:+ dq +:+ "$MODE" +:+ dq +:+ " == " +:+ dq +:+ "--apply" +:+ dq +:+ " ]]; then";
         "  echo " +:+ dq +:+ "Migration applied. Run 'bazel build //...' to verify." +:+ dq; "else";
         "  echo " +:+ dq +:+ "Dry-run complete. Re-run with --apply to mutate files." +:+ dq; "fi"].

Definition has_codemod (e : DepEntry) : bool := existsb (λ f, negb (bool_decide (bf_Codemod f = ""))) (de_Findings e).

(** [renderShell] *)
Definition renderShell (r : Analysis) : string :=
  if existsb has_codemod (an_Deps r)
  then preamble (an_Self r) +:+ concat_str (render_section <$> an_Deps r) +:+ trailer
  else "".

(** ** The analysis *)

Section analyze.
Context {S : Type} `{ReportSource S} (ParseModuleContent : string → result string ModuleInfo).

(** [Analyze] *)
Definition Analyze (src : S) (body : string) (IncludeDevDependencies : bool) : result AnalyzeError CompatResult :=
  match ParseModuleContent body with
  | Err e => Err (ErrParse e)
  | Ok info =>
      match filter (λ d, selected IncludeDevDependencies d = true) (mi_Dependencies info) with
      | [] => Err ErrEmptyInput
      | deps =>
          let entries := sort_slice entry_less (analyze_dep src <$> deps) in
          let r := mkAnalysis (mkSelfInfo (mi_Name info) (mi_Version info)) entries
                     (foldl count_entry (mkSummary 0 0 0 0) entries) in
          Ok (mkCompatResult r (renderPlan r) (renderShell r))
      end
  end.
End analyze.

(** ** The implementation of the source *)

(** [Service], as far as the analyser sees it: the index and the decoder of its reports. *)
Record Service := mkService { sv_index : Index; sv_decode : string → result string ModuleReport }.

#[export] Instance Service_source : ReportSource Service := {
  src_LatestVersion sv name := Ok (LatestVersion (sv_index sv) name);
  src_GetReport sv name version := match GetReport (sv_decode sv) (sv_index sv) name version with Ok r => Ok (Some r) | Err e => Err e end;
}.

#[export] Instance Service_source_laws : ReportSourceLaws Service.
Proof.
  split. intros sv name v [= <-]. unfold LatestVersion.
  destruct (filter _ (ListVersions _ _)) as [|w l] eqn:E; [done|]. intros _.
  assert (w ∈ filter (λ v, IsStubVersion v = false) (ListVersions (sv_index sv) name)) as Hw by (rewrite E; by left).
  by apply list_elem_of_filter in Hw as [? _].
Qed.

(** ** The rows *)

Section rows.
Context {S : Type} `{ReportSourceLaws S} (src : S).

(** What the row of a dependency says. *)
Record row_of (d : Dependency) (e : DepEntry) : Prop := {
  ro_name : de_Name e = bd_Name d ∧ de_FromVersion e = bd_Version d;
  ro_corpus : ∀ v, de_InCorpus e = true ∧ de_ToVersion e = v ↔ src_LatestVersion src (bd_Name d) = Ok v ∧ v ≠ "";
  ro_real : de_InCorpus e = true → IsStubVersion (de_ToVersion e) = false;
  ro_missing : de_InCorpus e = false → de_ToVersion e = "" ∧ de_SameVersion e = false;
  ro_same : de_SameVersion e = true ↔ de_InCorpus e = true ∧ de_ToVersion e = bd_Version d;
  ro_report : ∀ rep, de_Report e = Some rep ↔
    de_InCorpus e = true ∧ de_ToVersion e ≠ bd_Version d ∧
    ∃ f t, source_report src (bd_Name d) (bd_Version d) = Some f ∧ source_report src (bd_Name d) (de_ToVersion e) = Some t ∧
           rep = relabel (bd_Name d) (bd_Version d) (de_ToVersion e) (Compute f t);
  ro_findings : de_Findings e = default [] (dr_Breaking <$> de_Report e) ∧
    de_BreakingCount e = Z.of_nat (length (de_Findings e));
}.

Lemma analyze_dep_row d : row_of d (analyze_dep src d).
Proof.
  unfold analyze_dep. destruct (src_LatestVersion src (bd_Name d)) as [latest|err] eqn:El.
  2: { split; simpl; try done; intros; rewrite ?El; naive_solver. }
  case_decide as Hn; [split; simpl; try done; intros; rewrite ?El; naive_solver|].
  assert (IsStubVersion latest = false) as Hreal by by eapply latest_is_real.
  case_decide as Hs; [split; simpl; try done; intros; rewrite ?El; naive_solver|].
  destruct (source_report src (bd_Name d) (bd_Version d)) as [f|] eqn:Ef;
    [destruct (source_report src (bd_Name d) latest) as [t|] eqn:Et|];
    split; simpl; try done; intros; rewrite ?El; naive_solver.
Qed.
End rows.

(** ** The order of the rows and the summary *)

#[export] Instance more_first : StrictWeak (λ a b : Z, (b <? a)%Z).
Proof.
  split; [intros x y; lia|]. intros x y z Hx. destruct (Z.ltb_spec y x); [by left|right; lia].
Qed.

#[export] Instance by_entry_name : StrictWeak (λ x y, String.ltb (de_Name x) (de_Name y)).
Proof. apply (sw_on de_Name String.ltb). Qed.

#[export] Instance entry_less_sw : StrictWeak entry_less.
Proof.
  apply (sw_lex de_BreakingCount (λ a b : Z, (b <? a)%Z) (λ x y, String.ltb (de_Name x) (de_Name y))).
  intros x y. lia.
Qed.

Lemma entry_less_same x y :
  de_BreakingCount x = de_BreakingCount y → de_Name x = de_Name y → entry_less x y = false.
Proof. intros Hc Hn. unfold entry_less. rewrite decide_True by done. rewrite Hn. apply str_ltb_irrefl. Qed.

Definition count_rows (P : DepEntry → bool) (l : list DepEntry) : Z := Z.of_nat (length (filter (λ e, P e = true) l)).

Lemma count_cons P e l : count_rows P (e :: l) = ((if P e then 1 else 0) + count_rows P l)%Z.
Proof.
  unfold count_rows. rewrite filter_cons. destruct (P e) eqn:E; [rewrite decide_True by done|rewrite decide_False by congruence]; simpl; lia.
Qed.

Lemma count_entries l s :
  foldl count_entry s l =
  mkSummary (sm_TotalDeps s + Z.of_nat (length l)) (sm_BreakingDeps s + count_rows (λ e, 0 <? de_BreakingCount e)%Z l)
    (sm_MissingFromCorpus s + count_rows (λ e, negb (de_InCorpus e)) l)
    (sm_AlreadyLatest s + count_rows (λ e, de_InCorpus e && de_SameVersion e) l).
Proof.
  revert s. induction l as [|e l IH]; intros s; simpl.
  { destruct s. unfold count_rows. simpl. f_equal; lia. }
  rewrite IH. unfold count_entry. cbn [sm_TotalDeps sm_BreakingDeps sm_MissingFromCorpus sm_AlreadyLatest].
  rewrite !count_cons. f_equal; [lia|..]; destruct (_ : bool); lia.
Qed.

(** Worst first, then by name; rows that tie keep the order of the declarations. *)
Definition worst_first (declared sorted : list DepEntry) : Prop :=
  sorted ≡ₚ declared ∧
  StronglySorted (λ x y, (de_BreakingCount y < de_BreakingCount x)%Z ∨
    (de_BreakingCount x = de_BreakingCount y ∧ String.ltb (de_Name y) (de_Name x) = false)) sorted ∧
  (∀ n c, filter (λ e, de_Name e = n ∧ de_BreakingCount e = c) sorted =
          filter (λ e, de_Name e = n ∧ de_BreakingCount e = c) declared).

Lemma sort_worst_first l : worst_first l (sort_slice entry_less l).
Proof.
  split; [apply sort_slice_perm|]. split.
  - eapply StronglySorted_weaken; [|apply (sort_slice_sorted entry_less)]. intros x y _ _ Hxy.
    unfold not_after, entry_less in Hxy. case_decide as Hc; [by right|]. left. lia.
  - intros n c. apply sort_slice_filter. intros x y _ _ [] []. apply entry_less_same; congruence.
Qed.

(** The analysis.  A body that does not parse is refused with the parser's error and
    one that declares nothing to look at as empty; any other gets exactly one row per
    dependency looked at, whatever the index lacks, each row telling what the index
    knows of it (whether it is there, a recommended version that is never a
    placeholder, the diff when both reports are there and the versions differ, and the
    diff's findings, counted); the rows come worst first, then by name, ties as
    declared; and the summary counts the rows. *)
Theorem analysis_exact {S : Type} `{ReportSourceLaws S} (src : S)
    (ParseModuleContent : string → result string ModuleInfo) (body : string) (dev : bool) :
  match ParseModuleContent body with
  | Err e => Analyze ParseModuleContent src body dev = Err (ErrParse e)
  | Ok info =>
      let ds := filter (λ d, selected dev d = true) (mi_Dependencies info) in
      (ds = [] → Analyze ParseModuleContent src body dev = Err ErrEmptyInput) ∧
      (ds ≠ [] → ∃ r rows, Analyze ParseModuleContent src body dev = Ok r ∧
         Forall2 (row_of src) ds rows ∧ worst_first rows (an_Deps (cr_Analysis r)) ∧
         (let deps := an_Deps (cr_Analysis r) in let s := an_Summary (cr_Analysis r) in
          sm_TotalDeps s = Z.of_nat (length ds) ∧
          sm_BreakingDeps s = count_rows (λ e, negb (bool_decide (de_Findings e = []))) deps ∧
          sm_MissingFromCorpus s = count_rows (λ e, negb (de_InCorpus e)) deps ∧
          sm_AlreadyLatest s = count_rows de_SameVersion deps))
  end.
Proof.
  unfold Analyze. destruct (ParseModuleContent body) as [info|e]; [|done]. cbv zeta.
  destruct (filter _ (mi_Dependencies info)) as [|d ds]; [done|]. split; [done|]. intros _.
  set (all := d :: ds). eexists _, (analyze_dep src <$> all).
  assert (Forall2 (row_of src) all (analyze_dep src <$> all)) as Hrows.
  { apply Forall2_fmap_r, Forall_Forall2_diag, Forall_true. apply analyze_dep_row. }
  assert (∀ e, e ∈ sort_slice entry_less (analyze_dep src <$> all) → ∃ d, row_of src d e) as Hall.
  { intros e (d' & -> & _)%elem_of_sort_slice%list_elem_of_fmap. exists d'. apply analyze_dep_row. }
  split; [done|]. split; [done|]. split; [apply sort_worst_first|]. cbn [cr_Analysis an_Deps an_Summary].
  rewrite count_entries. cbn [sm_TotalDeps sm_BreakingDeps sm_MissingFromCorpus sm_AlreadyLatest]. split_and!.
  - rewrite length_sort_slice, length_fmap. lia.
  - rewrite Z.add_0_l. unfold count_rows. do 2 f_equal. apply list_filter_iff'. intros e (d' & Hr)%Hall.
    destruct (ro_findings _ _ _ Hr) as [_ ->]. destruct (de_Findings e); simpl; [done|]. rewrite Z.ltb_lt. split; [done|lia].
  - lia.
  - rewrite Z.add_0_l. unfold count_rows. do 2 f_equal. apply list_filter_iff'. intros e (d' & Hr)%Hall.
    pose proof (ro_same _ _ _ Hr). destruct (de_InCorpus e), (de_SameVersion e); simpl; naive_solver.
Qed.

(** ** The script, as the shell reads it *)

(** A reader of the shell's simple commands: words of letters, of single quotes, which
    take every byte, and of double quotes, in which a backslash quotes a backslash, a
    double quote, a backtick or a dollar, and an unquoted backtick or dollar would
    start an expansion; and comments, to the end of the line.  Whatever else the shell
    reads, this reader refuses. *)
Inductive sh_mode : Type := ShStart | ShGap | ShWord | ShSingle | ShDouble | ShEscape | ShComment.
Record shell := mkShell { sh_mode_of : sh_mode; sh_word : bytes; sh_words : list string; sh_commands : list (list string) }.

Definition newline : ascii := "010"%char.
Definition quote : ascii := "'"%char.
Definition sh_letter (c : ascii) : bool := (97 <=? nat_of_ascii c) && (nat_of_ascii c <=? 122).
Definition sh_special : list ascii := ["\"%char; "034"%char; "`"%char; "$"%char].

Definition sh_step (s : shell) (c : ascii) : option shell :=
  let go m := Some (mkShell m (sh_word s) (sh_words s) (sh_commands s)) in
  let push m := Some (mkShell m (sh_word s ++ [c]) (sh_words s) (sh_commands s)) in
  let end_word m := Some (mkShell m [] (sh_words s ++ [of_bytes (sh_word s)]) (sh_commands s)) in
  match sh_mode_of s with
  | ShStart => if decide (c = newline) then go ShStart
               else if decide (c = "#"%char) then go ShComment
               else if sh_letter c then push ShWord else None
  | ShComment => if decide (c = newline) then go ShStart else go ShComment
  | ShGap => if decide (c = newline) then Some (mkShell ShStart [] [] (sh_commands s ++ [sh_words s]))
             else if decide (c = " "%char) then go ShGap
             else if decide (c = quote) then go ShSingle
             else if decide (c = "034"%char) then go ShDouble
             else if sh_letter c then push ShWord else None
  | ShWord => if decide (c = newline) then
                Some (mkShell ShStart [] [] (sh_commands s ++ [sh_words s ++ [of_bytes (sh_word s)]]))
              else if decide (c = " "%char) then end_word ShGap
              else if decide (c = quote) then go ShSingle
              else if decide (c = "034"%char) then go ShDouble
              else if sh_letter c then push ShWord else None
  | ShSingle => if decide (c = quote) then go ShWord else push ShSingle
  | ShDouble => if decide (c = "034"%char) then go ShWord
                else if decide (c = "\"%char) then go ShEscape
                else if decide (c ∈ sh_special) then None else push ShDouble
  | ShEscape => if decide (c ∈ sh_special) then push ShDouble
                else Some (mkShell ShDouble (sh_word s ++ ["\"%char; c]) (sh_words s) (sh_commands s))
  end.

Fixpoint sh_run (l : bytes) (s : shell) : option shell :=
  match l with
  | [] => Some s
  | c :: l => match sh_step s c with Some s' => sh_run l s' | None => None end
  end.

(** Between two commands. *)
Definition sh_at (cmds : list (list string)) : shell := mkShell ShStart [] [] cmds.

(** The commands of a text that ends with its last line. *)
Definition sh_read (t : string) : option (list (list string)) :=
  match sh_run (to_bytes t) (sh_at []) with
  | Some (mkShell ShStart _ _ cmds) => Some cmds
  | _ => None
  end.

Lemma sh_run_app l k s : sh_run (l ++ k) s = match sh_run l s with Some s' => sh_run k s' | None => None end.
Proof. revert s. induction l as [|c l IH]; intros s; simpl; [done|]. by destruct (sh_step s c). Qed.

Lemma sh_comment l s : newline ∉ l → sh_mode_of s = ShComment → sh_run l s = Some s.
Proof.
  intros Hl Hm. induction l as [|c l IH]; [done|]. apply not_elem_of_cons in Hl as [Hc Hl]. simpl.
  unfold sh_step. rewrite Hm, decide_False by congruence.
  replace (mkShell _ _ _ _) with s by (destruct s; simpl in *; congruence). by apply IH.
Qed.

Lemma sh_single l w ws cmds : quote ∉ l →
  sh_run l (mkShell ShSingle w ws cmds) = Some (mkShell ShSingle (w ++ l) ws cmds).
Proof.
  revert w. induction l as [|c l IH]; intros w Hl; [by rewrite app_nil_r|].
  apply not_elem_of_cons in Hl as [Hc Hl]. simpl. unfold sh_step. cbn [sh_mode_of].
  rewrite decide_False by congruence. cbn [sh_word sh_words sh_commands]. rewrite IH by done. by rewrite <-app_assoc.
Qed.

(** What the escape writes, the double quotes read back. *)
Lemma sh_double_byte c w ws cmds :
  sh_run (escape_byte c) (mkShell ShDouble w ws cmds) = Some (mkShell ShDouble (w ++ [c]) ws cmds).
Proof.
  unfold escape_byte. case_decide as Hc.
  - repeat (apply elem_of_cons in Hc as [->|Hc]; [reflexivity|]). by apply elem_of_nil in Hc.
  - assert (c ≠ "034"%char ∧ c ≠ "\"%char) as [H1 H2].
    { split; intros ->; apply Hc; repeat (apply elem_of_cons; (by left) || right). }
    simpl. unfold sh_step. cbn [sh_mode_of sh_word sh_words sh_commands].
    by rewrite (decide_False _ _ H1), (decide_False _ _ H2), (decide_False _ _ Hc).
Qed.

Lemma sh_double l w ws cmds :
  sh_run (l ≫= escape_byte) (mkShell ShDouble w ws cmds) = Some (mkShell ShDouble (w ++ l) ws cmds).
Proof.
  revert w. induction l as [|c l IH]; intros w; [by rewrite app_nil_r|]. csimpl.
  rewrite sh_run_app, sh_double_byte, IH. by rewrite <-app_assoc.
Qed.

(** ** The lines of a section *)

Lemma plain_app c a b : plain c (a +:+ b) ↔ plain c a ∧ plain c b.
Proof. unfold plain. rewrite to_bytes_app, not_elem_of_app. done. Qed.

Ltac solve_plain :=
  repeat (rewrite plain_app; split); first [assumption|unfold plain; refine (bool_decide_unpack _ _); vm_compute; exact I].

Lemma escape_app a b : escapeForDoubleQuote (a +:+ b) = escapeForDoubleQuote a +:+ escapeForDoubleQuote b.
Proof.
  unfold escapeForDoubleQuote. apply to_bytes_inj. by rewrite !to_bytes_app, !to_of_bytes, bind_app.
Qed.

Lemma HasPrefix_hash c s : HasPrefix (String c s) "#" = bool_decide (c = "#"%char).
Proof.
  unfold HasPrefix. apply bool_decide_ext. split.
  - intros [k E]. by injection E as -> _.
  - intros ->. by exists (to_bytes s).
Qed.

Lemma sh_line_comment t cmds : plain newline t → sh_run (to_bytes ("#" +:+ t +:+ nl)) (sh_at cmds) = Some (sh_at cmds).
Proof.
  intros Ht. rewrite !to_bytes_app, sh_run_app.
  change (sh_run (to_bytes "#") (sh_at cmds)) with (Some (mkShell ShComment [] [] cmds)). cbv beta iota.
  by rewrite sh_run_app, sh_comment.
Qed.

(** An echo of a text, of which the part [pre] needs no escape. *)
Lemma sh_line_echo pre t cmds : escapeForDoubleQuote pre = pre →
  sh_run (to_bytes ("echo " +:+ dq +:+ pre +:+ escapeForDoubleQuote t +:+ dq +:+ nl)) (sh_at cmds) =
  Some (sh_at (cmds ++ [["echo"; pre +:+ t]])).
Proof.
  intros Hpre.
  replace ("echo " +:+ dq +:+ pre +:+ escapeForDoubleQuote t +:+ dq +:+ nl)
    with (("echo " +:+ dq) +:+ escapeForDoubleQuote (pre +:+ t) +:+ dq +:+ nl)
    by (by rewrite escape_app, Hpre, !string_app_assoc).
  rewrite to_bytes_app, sh_run_app.
  change (sh_run (to_bytes ("echo " +:+ dq)) (sh_at cmds)) with (Some (mkShell ShDouble [] ["echo"] cmds)). cbv beta iota.
  unfold escapeForDoubleQuote. rewrite to_bytes_app, to_of_bytes, sh_run_app, sh_double. simpl.
  unfold sh_at. by rewrite of_to_bytes.
Qed.

Lemma sh_line_run target d s cmds : plain quote target → plain quote d → plain quote s →
  sh_run (to_bytes ("run buildozer 'remove " +:+ d +:+ "' '" +:+ target +:+ s +:+ "'" +:+ nl)) (sh_at cmds) =
  Some (sh_at (cmds ++ [["run"; "buildozer"; "remove " +:+ d; target +:+ s]])).
Proof.
  intros Ht Hd Hs. rewrite !to_bytes_app, sh_run_app.
  change (sh_run (to_bytes "run buildozer 'remove ") (sh_at cmds))
    with (Some (mkShell ShSingle (to_bytes "remove ") ["run"; "buildozer"] cmds)). cbv beta iota.
  rewrite sh_run_app, sh_single by done. rewrite <-(to_bytes_app "remove " d), sh_run_app.
  change (sh_run (to_bytes "' '") (mkShell ShSingle (to_bytes ("remove " +:+ d)) ["run"; "buildozer"] cmds))
    with (Some (mkShell ShSingle [] (["run"; "buildozer"] ++ [of_bytes (to_bytes ("remove " +:+ d))]) cmds)). cbv beta iota.
  rewrite sh_run_app, sh_single by done. rewrite sh_run_app, sh_single by done. rewrite app_nil_l, <-(to_bytes_app target s), !of_to_bytes.
  simpl. unfold sh_at. by rewrite of_to_bytes.
Qed.

(** ** The commands of a finding *)

Definition manual_text (f : BreakingFinding) : string :=
  if decide (bf_Codemod f = "") then kind_string (bf_Kind f) +:+ " — " +:+ bf_Hint f
  else TrimPrefix (TrimPrefix (bf_Codemod f) "#") " ".

Definition finding_command (f : BreakingFinding) : list string :=
  match bf_Kind f with
  | BreakingRuleAttrRemoved => ["run"; "buildozer"; "remove " +:+ bf_Detail f; "//...:%" +:+ bf_Symbol f]
  | BreakingRepoRuleAttrRemoved => ["run"; "buildozer"; "remove " +:+ bf_Detail f; "//MODULE.bazel:%" +:+ bf_Symbol f]
  | _ => ["echo"; "[manual] " +:+ manual_text f]
  end.

(** Names that neither end a comment nor a single-quoted word. *)
Definition clean (f : BreakingFinding) : Prop :=
  plain newline (bf_Symbol f) ∧ plain newline (bf_Detail f) ∧ plain quote (bf_Symbol f) ∧ plain quote (bf_Detail f).

(** The codemod of an annotated finding: none, a comment, or a removal. *)
Lemma codemod_cases f : clean f →
  let g := annotate f in
  (bf_Codemod g = "" ∧ finding_command g = ["echo"; "[manual] " +:+ manual_text g]) ∨
  (HasPrefix (bf_Codemod g) "#" = true ∧ plain newline (bf_Codemod g) ∧
     finding_command g = ["echo"; "[manual] " +:+ manual_text g]) ∨
  (∃ target, bf_Codemod g = "buildozer 'remove " +:+ bf_Detail g +:+ "' '" +:+ target +:+ bf_Symbol g +:+ "'" ∧
     plain quote target ∧
     finding_command g = ["run"; "buildozer"; "remove " +:+ bf_Detail g; target +:+ bf_Symbol g]).
Proof.
  destruct f as [k s d r h cm]. intros (Hs & Hd & _ & _). cbn [bf_Symbol bf_Detail] in Hs, Hd.
  unfold annotate, finding_command, buildozerCodemod. cbv zeta. cbn [bf_Kind bf_Symbol bf_Detail bf_Codemod].
  destruct k;
    first [left; by split
          |right; left; split; [eapply eq_trans; [apply HasPrefix_hash|reflexivity]|split; [solve_plain|reflexivity]]
          |right; right].
  - exists "//...:%". split; [reflexivity|]. split; [|reflexivity]. unfold plain. refine (bool_decide_unpack _ _). vm_compute. exact I.
  - exists "//MODULE.bazel:%". split; [reflexivity|]. split; [|reflexivity]. unfold plain. refine (bool_decide_unpack _ _). vm_compute. exact I.
Qed.

Lemma HasPrefix_hash_app s : HasPrefix s "#" = true → ∃ t, s = "#" +:+ t.
Proof.
  unfold HasPrefix. intros [k Hk]%bool_decide_eq_true. exists (of_bytes k). apply to_bytes_inj.
  by rewrite Hk, to_bytes_app, to_of_bytes.
Qed.

Lemma finding_read f cmds : clean f →
  sh_run (to_bytes (renderFinding (annotate f))) (sh_at cmds) = Some (sh_at (cmds ++ [finding_command (annotate f)])).
Proof.
  intros Hf. pose proof (codemod_cases f Hf) as Hcases. cbv zeta in Hcases.
  destruct Hf as (Hs & Hd & Hsq & Hdq). set (g := annotate f) in *.
  assert (bf_Symbol g = bf_Symbol f ∧ bf_Detail g = bf_Detail f) as [Es Ed] by done.
  rewrite <-Es in Hs, Hsq. rewrite <-Ed in Hd, Hdq. unfold renderFinding. cbv zeta.
  set (id := if decide _ then _ else _). set (label := kind_string _). set (rest := if decide (bf_Codemod _ = "") then _ else _).
  assert (plain newline id) as Hid by (subst id; case_decide; solve_plain).
  assert (plain newline label ∧ escapeForDoubleQuote ("[manual] " +:+ label +:+ " — ") = "[manual] " +:+ label +:+ " — ") as [Hl Hle].
  { subst label. destruct (bf_Kind g); (split; [unfold plain; refine (bool_decide_unpack _ _); vm_compute; exact I|reflexivity]). }
  assert (sh_run (to_bytes rest) (sh_at cmds) = Some (sh_at (cmds ++ [finding_command g]))) as Hrest.
  { subst rest. destruct Hcases as [(Ec & ->)|[(Hp & Hpl & ->)|(target & Ec & Ht & ->)]].
    - rewrite decide_True by done. unfold manual_text. rewrite decide_True by done.
      pose proof (sh_line_echo _ (bf_Hint g) cmds Hle) as He. rewrite !string_app_assoc in He. exact He.
    - destruct (HasPrefix_hash_app _ Hp) as [t Et]. unfold manual_text. rewrite !decide_False by (by rewrite Et). rewrite Hp.
      rewrite Et in Hpl. apply plain_app in Hpl as [_ Hpl].
      set (text := TrimPrefix _ _). rewrite Et.
      replace (("#" +:+ t) +:+ nl +:+ "echo " +:+ dq +:+ "[manual] " +:+ escapeForDoubleQuote text +:+ dq +:+ nl)
        with (("#" +:+ t +:+ nl) +:+ "echo " +:+ dq +:+ "[manual] " +:+ escapeForDoubleQuote text +:+ dq +:+ nl)
        by (by rewrite !string_app_assoc).
      rewrite to_bytes_app, sh_run_app, sh_line_comment by done. by apply sh_line_echo.
    - rewrite decide_False by (by rewrite Ec).
      assert (HasPrefix (bf_Codemod g) "#" = false) as -> by (rewrite Ec; eapply eq_trans; [apply HasPrefix_hash|reflexivity]).
      rewrite Ec, !string_app_assoc. by apply (sh_line_run target). }
  replace ("# " +:+ label +:+ ": " +:+ id +:+ nl +:+ rest) with (("#" +:+ (" " +:+ label +:+ ": " +:+ id) +:+ nl) +:+ rest).
  - rewrite to_bytes_app, sh_run_app, sh_line_comment; [done|]. solve_plain.
  - rewrite !string_app_assoc. done.
Qed.

(** ** The sections of the script *)

Lemma annotate_idemp f : annotate (annotate f) = annotate f.
Proof. done. Qed.

Lemma concat_cons a l : concat_str (a :: l) = a +:+ concat_str l.
Proof. done. Qed.

Lemma section_findings fs cmds : Forall (λ f, annotate f = f ∧ clean f) fs →
  sh_run (to_bytes (concat_str (renderFinding <$> fs))) (sh_at cmds) = Some (sh_at (cmds ++ (finding_command <$> fs))).
Proof.
  intros Hfs. revert cmds. induction Hfs as [|f fs [Ha Hc] _ IH]; intros cmds; [by rewrite app_nil_r|].
  rewrite !fmap_cons, concat_cons, to_bytes_app, sh_run_app. pose proof (finding_read f cmds Hc) as Hr.
  rewrite Ha in Hr. by rewrite Hr, IH, <-app_assoc.
Qed.

(** A row whose texts can stand in a comment and whose findings are clean. *)
Record clean_row (e : DepEntry) : Prop := {
  cl_name : plain newline (de_Name e);
  cl_from : plain newline (de_FromVersion e);
  cl_to : plain newline (de_ToVersion e);
  cl_findings : Forall (λ f, annotate f = f ∧ clean f) (de_Findings e);
}.

Lemma section_read e cmds : clean_row e →
  sh_run (to_bytes (render_section e)) (sh_at cmds) = Some (sh_at (cmds ++ (finding_command <$> de_Findings e))).
Proof.
  intros [Hn Hf Ht Hfs]. unfold render_section. case_decide as E; [by rewrite E, app_nil_r|].
  set (header := if de_SameVersion e then _ else _).
  assert (∃ t, header = "#" +:+ t +:+ nl ∧ plain newline t) as (t & -> & Hpl).
  { subst header. destruct (de_SameVersion e); [|case_decide].
    - exists (" --- " +:+ de_Name e +:+ " @ " +:+ de_FromVersion e +:+ " (unchanged) ---").
      split; [by rewrite !string_app_assoc|solve_plain].
    - exists (" --- " +:+ de_Name e +:+ " @ " +:+ de_FromVersion e +:+ " ---").
      split; [by rewrite !string_app_assoc|solve_plain].
    - exists (" --- " +:+ de_Name e +:+ ": " +:+ de_FromVersion e +:+ " → " +:+ de_ToVersion e +:+ " ---").
      split; [by rewrite !string_app_assoc|solve_plain]. }
  rewrite to_bytes_app, sh_run_app, sh_line_comment by done.
  by rewrite to_bytes_app, sh_run_app, section_findings.
Qed.

Lemma sections_read es cmds : Forall clean_row es →
  sh_run (to_bytes (concat_str (render_section <$> es))) (sh_at cmds) =
  Some (sh_at (cmds ++ (finding_command <$> (es ≫= de_Findings)))).
Proof.
  intros Hes. revert cmds. induction Hes as [|e es He _ IH]; intros cmds; [by rewrite app_nil_r|].
  rewrite fmap_cons, concat_cons. by rewrite to_bytes_app, sh_run_app, section_read, IH, bind_cons, fmap_app, <-app_assoc.
Qed.

(** The findings of a row carry the hint and the codemod of their kind. *)
Lemma analyze_dep_annotated {S} `{ReportSource S} (src : S) d : Forall (λ f, annotate f = f) (de_Findings (analyze_dep src d)).
Proof.
  unfold analyze_dep. destruct (src_LatestVersion _ _); [|constructor].
  repeat case_decide; try constructor. destruct (source_report src _ _); [|constructor].
  destruct (source_report src _ _); [|constructor]. simpl. apply Forall_forall.
  by intros f (g & -> & _)%elem_of_sort_slice%list_elem_of_fmap.
Qed.

(** The names in an analysis hold no byte that ends a comment or a single-quoted word. *)
Definition clean_names (e : DepEntry) : Prop :=
  plain newline (de_Name e) ∧ plain newline (de_FromVersion e) ∧ plain newline (de_ToVersion e) ∧ Forall clean (de_Findings e).

(** C35: The migration script runs nothing of its own: when the names in the analysis hold no
    newline and no single quote, the shell reads the script's sections as exactly one
    command for each finding, in order: an echo of the finding's text, whatever bytes
    its hint holds, or the run wrapper on buildozer with the removal of that attribute
    as one word and its target as another.  The script is the fixed preamble, these
    sections and the fixed trailer, and is left out exactly when no finding has a
    codemod. *)
Theorem script_commands {S : Type} `{ReportSource S} (src : S)
    (ParseModuleContent : string → result string ModuleInfo) (body : string) (dev : bool) (r : CompatResult)
    (Hr : Analyze ParseModuleContent src body dev = Ok r) (Hclean : Forall clean_names (an_Deps (cr_Analysis r))) :
  let deps := an_Deps (cr_Analysis r) in
  let sections := concat_str (render_section <$> deps) in
  sh_read sections = Some (finding_command <$> (deps ≫= de_Findings)) ∧
  (Forall (λ f, bf_Codemod f = "") (deps ≫= de_Findings) → cr_PlanShell r = "") ∧
  (¬ Forall (λ f, bf_Codemod f = "") (deps ≫= de_Findings) →
     cr_PlanShell r = preamble (an_Self (cr_Analysis r)) +:+ sections +:+ trailer).
Proof.
  cbv zeta. unfold Analyze in Hr. destruct (ParseModuleContent body) as [info|e]; [|done].
  destruct (filter _ (mi_Dependencies info)) as [|d ds]; [done|]. cbv zeta in Hr.
  set (deps := sort_slice entry_less _) in Hr. injection Hr as <-. cbn [cr_Analysis an_Deps cr_PlanShell] in *. split_and!.
  - unfold sh_read. rewrite sections_read; [done|]. apply Forall_forall. intros e He.
    rewrite Forall_forall in Hclean. destruct (Hclean e He) as (Hn & Hf & Ht & Hfs). split; [done..|].
    apply elem_of_sort_slice, list_elem_of_fmap in He as (d' & -> & _). apply Forall_and.
    split; [apply analyze_dep_annotated|done].
  - intros Hno. unfold renderShell. cbn [an_Deps]. destruct (existsb has_codemod deps) eqn:E; [|done]. exfalso.
    apply existsb_exists in E as (e & He & (f & Hf & Hc)%existsb_exists). rewrite Forall_forall in Hno.
    rewrite (Hno f) in Hc; [done|]. apply list_elem_of_bind. exists e. split; by apply list_elem_of_In.
  - intros Hsome. unfold renderShell. cbn [an_Deps an_Self]. destruct (existsb has_codemod deps) eqn:E; [done|].
    destruct Hsome. apply Forall_forall. intros f (e & Hf & He)%list_elem_of_bind.
    destruct (decide (bf_Codemod f = "")) as [|Hn]; [done|]. assert (existsb has_codemod deps = true); [|congruence].
    apply existsb_exists. exists e. split; [by apply list_elem_of_In|]. apply existsb_exists. exists f.
    split; [by apply list_elem_of_In|]. by rewrite bool_decide_false.
Qed.

(** ** Concrete analyses *)

Definition with_attr (attr : string) : ModuleReport :=
  mkModuleReport "rules_x" "" 0 [] []
    [mkRuleSpec "x_library" "" (if decide (attr = "") then [] else [mkAttrSpec attr "string" "" "" false []]) "" false false false
       zeroProvenance]
    [] [] [] [] [] [] [] [] [] [] [] [] (mkHermeticityProfile [] []) [] zeroAssets.

(** The index holds two versions of rules_x: in the first, x_library takes [attr]. *)
Definition two_versions (attr : string) : Service :=
  mkService (sample_index [(("rules_x", "1"), sample_row "t" "old"); (("rules_x", "2"), sample_row "t" "new")])
    (λ t, if decide (t = "old") then Ok (with_attr attr) else if decide (t = "new") then Ok (with_attr "") else Err "?").

(** A body that declares rules_x at its first version, a module not indexed, and a
    development dependency. *)
Definition parse_sample (body : string) : result string ModuleInfo :=
  Ok (mkModuleInfo "app" "" [mkDependency "unknown" "3" false; mkDependency "rules_x" "1" false; mkDependency "dev" "1" true]).

Definition sample_analysis (attr : string) : CompatResult :=
  match Analyze parse_sample (two_versions attr) "" false with Ok r => r | Err _ => mkCompatResult (mkAnalysis (mkSelfInfo "" "") [] (mkSummary 0 0 0 0)) "" "" end.

Definition sample_sections (attr : string) : option (list (list string)) :=
  sh_read (concat_str (render_section <$> an_Deps (cr_Analysis (sample_analysis attr)))).

Lemma script_commands_witness :
  Analyze parse_sample (two_versions "cgo") "" false = Ok (sample_analysis "cgo") ∧
  Forall clean_names (an_Deps (cr_Analysis (sample_analysis "cgo"))) ∧
  sample_sections "cgo" = Some [["run"; "buildozer"; "remove cgo"; "//...:%x_library"]].
Proof.
  assert (Analyze parse_sample (two_versions "cgo") "" false = Ok (sample_analysis "cgo")) as Hr by (vm_compute; reflexivity).
  assert (Forall clean_names (an_Deps (cr_Analysis (sample_analysis "cgo")))) as Hc.
  { unfold clean_names, clean, plain. refine (bool_decide_unpack _ _). vm_compute. exact I. }
  split; [exact Hr|]. split; [exact Hc|].
  destruct (script_commands (two_versions "cgo") parse_sample "" false (sample_analysis "cgo") Hr Hc) as [Hs _].
  unfold sample_sections. rewrite Hs. vm_compute. reflexivity.
Defined.

Lemma analysis_exact_witness :
  let s := an_Summary (cr_Analysis (sample_analysis "cgo")) in
  Analyze parse_sample (two_versions "cgo") "" false = Ok (sample_analysis "cgo") ∧
  (sm_TotalDeps s, sm_MissingFromCorpus s) = (2%Z, 1%Z).
Proof.
  assert (Analyze parse_sample (two_versions "cgo") "" false = Ok (sample_analysis "cgo")) as Hr by (vm_compute; reflexivity).
  split; [exact Hr|]. pose proof (analysis_exact (two_versions "cgo") parse_sample "" false) as H. hnf in H.
  destruct H as [_ (r & rows & E & _ & _ & Ht & _ & Hm & _)]; [vm_compute; discriminate|].
  rewrite Hr in E. injection E as <-. rewrite Ht, Hm. vm_compute. reflexivity.
Defined.

(** The rows come worst first, the missing module after. *)
Example sample_rows :
  (λ e, (de_Name e, de_ToVersion e, de_BreakingCount e)) <$> an_Deps (cr_Analysis (sample_analysis "cgo")) =
  [("rules_x", "2", 1%Z); ("unknown", "", 0%Z)].
Proof. vm_compute. reflexivity. Qed.

(** An attribute's name is a string of the indexed module: with a newline in it, it ends
    the comment above its row, and the shell runs what follows. *)
Definition newline_name : string := "x" +:+ nl +:+ "reboot" +:+ nl +:+ "echo".
Example injected :
  option_map (take 1) (sh_read (renderFinding (annotate (raw BreakingRuleAttrNowMandatory "x_library" newline_name "")))) =
    Some [["reboot"]].
Proof. vm_compute. reflexivity. Qed.
