(* ===== verification/Resolve.v ===== *)
(** * Materialising a module's source

    [internal/resolve/resolve.go]: the archive named by a source.json is downloaded,
    checked and unpacked into a scratch directory, its bytes going to a tee on the way.
    The scratch directory is the list of what was written to it, as in the file
    Archive; what the decompressors make of a body is a parameter. *)

From S2P Require Import Prelude Strings Archive Digest FileSystem Mirror.

Inductive archiveKind : Type := archiveKindTarGz | archiveKindZip.

(** The part of a URL before its query and fragment: [strings.IndexAny(lower, "?#")]. *)
Definition before_query (l : bytes) : bytes :=
  (fix go l := match l with
               | [] => []
               | c :: l => if decide (c = "?"%char ∨ c = "#"%char) then [] else c :: go l
               end) l.

(** [detectArchiveKind] *)
Definition detectArchiveKind (declared url : string) : result string archiveKind :=
  let d := ToLower declared in
  if decide (d = "tar.gz" ∨ d = "tgz") then Ok archiveKindTarGz
  else if decide (d = "zip") then Ok archiveKindZip
  else if decide (d ≠ "") then Err ("archive_type " +:+ declared +:+ " not supported (need tar.gz, tgz, or zip)")
  else
    let lower := of_bytes (before_query (to_bytes (ToLower url))) in
    if HasSuffix lower ".zip" then Ok archiveKindZip else Ok archiveKindTarGz.

Record Options := mkOptions { op_Tee : option BlobSink; op_CaptureBytes : bool }.

(** [Materialized]; the directory is what has been written under it, and the tee is the
    writer after the bytes that went to it. *)
Record Materialized := mkMaterialized {
  mt_calls : list fs_call;
  mt_SourceBytes : option bytes;
  mt_ModuleBytes : option bytes;
  mt_Bytes : Z;
}.

Definition MaxExtractBytes : Z := 500 * 1024 * 1024.

(** Reads of the teed body: each chunk is hashed by the verifying reader, then written
    to the tee.  [None] is a clean stop; after a write that failed the reader above the
    tee is given its error and what was written of the chunk. *)
Fixpoint read_chunks (n : nat) (tee : option BlobSink) (v : VerifyingReader)
  : os (option (string * bytes) * option BlobSink * VerifyingReader) :=
  match n, vr_stream v with
  | O, _ | S _, [] => mret (None, tee, v)
  | S n, p :: rest =>
      let v' := mkReader rest (vr_hashed v ++ p) (vr_expected v) in
      match tee, p with
      | Some b, _ :: _ =>
          '(k, err, b') ← sink_Write b p;
          match err with
          | Some e => mret (Some (e, take k p), Some b', v')
          | None => read_chunks n (Some b') v'
          end
      | _, _ => read_chunks n tee v'
      end
  end.

(** How many chunks a reader limited to [limit] bytes takes. *)
Fixpoint reads_up_to (limit : Z) (chunks : list bytes) : nat :=
  match chunks with
  | [] => O
  | p :: rest => if (limit <=? 0)%Z then O else S (reads_up_to (limit - Z.of_nat (length p)) rest)
  end.

(** The chunks that are seen when a write fails: [v] has hashed them, the last in full. *)
Definition seen_chunks (chunks : list bytes) (v : VerifyingReader) (part : bytes) : list bytes :=
  take (length chunks - S (length (vr_stream v))) chunks ++ [part].

Section resolve.
(** The response to an archive request: its chunks, as the reads deliver them, and how
    the body ends. *)
Context (get : string → result string (list bytes * option string)).
(** The scratch directory: its path, and what its calls answer. *)
Context (MkdirTemp : result string string) (mkdir_err open_err write_err : string → option string).
(** What the gzip and tar readers make of a body: how many reads they make of it before
    they report the archive's end or an error, and the entries; and the zip reader. *)
Context (read_targz : list bytes * option string → nat * result string (list (result string entry))).
Context (open_entry : entry → option string) (read_zip : bytes → result string (list entry)).

(** The extraction, the tee beside it. *)
Definition extract (kind : archiveKind) (dir stripPrefix : string) (chunks : list bytes) (fail : option string)
    (tee : option BlobSink) (v : VerifyingReader) : os (outcome * option BlobSink * VerifyingReader) :=
  match kind with
  | archiveKindZip =>
      let n := reads_up_to (MaxExtractBytes + 1) chunks in
      '(terr, tee', v') ← read_chunks n tee v;
      let input := match terr with
                   | Some (e, part) => (concat (seen_chunks chunks v' part), Some e)
                   | None => (concat (take n chunks), if decide (n = length chunks) then fail else None)
                   end in
      mret (ExtractZip mkdir_err open_err dir stripPrefix MaxExtractBytes open_entry input read_zip, tee', v')
  | archiveKindTarGz =>
      let '(n, stream) := read_targz (chunks, fail) in
      '(terr, tee', v') ← read_chunks n tee v;
      let stream' := match terr with
                     | None => stream
                     | Some (e, part) => (read_targz (seen_chunks chunks v' part, Some e)).2
                     end in
      mret (ExtractTarGz mkdir_err open_err dir stripPrefix MaxExtractBytes stream', tee', v')
  end.

(** [os.Stat] after the extraction: the path is there when it or something under it has
    been made. *)
Definition exists_after (calls : list fs_call) (p : string) : bool :=
  existsb (λ c, bool_decide (call_path c = p) || HasPrefix (call_path c) (p +:+ "/")) calls.

(** The fallback for an archive without a MODULE.bazel. *)
Definition module_fallback (dir : string) (calls : list fs_call) (modBytes : option bytes)
    (modBytesFallback : option (result string bytes)) : result string (list fs_call * option bytes) :=
  let modPath := join_path dir "MODULE.bazel" in
  if exists_after calls modPath then Ok (calls, modBytes)
  else
    modBytes' ← match modBytes, modBytesFallback with
                | None, Some (Ok b) => Ok (Some b)
                | None, Some (Err e) => Err ("MODULE.bazel fallback fetch: " +:+ e)
                | _, _ => Ok modBytes
                end;
    match modBytes' with
    | None => Ok (calls, None)
    | Some b => match write_err modPath with
                | Some e => Err ("MODULE.bazel fallback write: " +:+ e)
                | None => Ok (calls ++ [WriteFile modPath 420 b], Some b)
                end
    end.

(** [FromSource]; with the answer comes the tee, which the caller closes or aborts. *)
Definition FromSource (src : SourceJSON) (srcBytes : bytes) (modBytes : option bytes)
    (modBytesFallback : option (result string bytes)) (opts : Options) : os (result string Materialized * option BlobSink) :=
  let fail e := mret (Err e, op_Tee opts) in
  if decide (src_Type src ≠ "" ∧ src_Type src ≠ "archive") then
    fail ("source.json type " +:+ src_Type src +:+ " not supported (need 'archive')")
  else if decide (src_URL src = "") then fail "source.json missing url"
  else match detectArchiveKind (src_ArchiveType src) (src_URL src), MkdirTemp with
       | Err e, _ => fail e
       | _, Err e => fail ("mkdir temp: " +:+ e)
       | Ok kind, Ok dir =>
           match FetchArchive get src with
           | Err e => fail e
           | Ok (chunks, bodyErr, vr) =>
               '(out, tee, vr) ← extract kind dir (src_StripPrefix src) chunks bodyErr (op_Tee opts) vr;
               match out with
               | (_, Some _) => mret (Err "extract", tee)
               | ((n, calls), None) =>
                   match Verify vr with
                   | Some _ => mret (Err "integrity", tee)
                   | None =>
                       match module_fallback dir calls modBytes modBytesFallback with
                       | Err e => mret (Err e, tee)
                       | Ok (calls, modBytes) =>
                           mret (Ok (if op_CaptureBytes opts then mkMaterialized calls (Some srcBytes) modBytes n
                                     else mkMaterialized calls None None n), tee)
                       end
                   end
               end
           end
       end.

(** [FromRegistryWithClient]: the registry's answers for the coordinate. *)
Context (ParseSourceJSON : bytes → result string SourceJSON).

Definition FromRegistryWithClient (sourceJSON moduleBazel : result string bytes) (opts : Options)
  : os (result string Materialized * option BlobSink) :=
  let fail e := mret (Err e, op_Tee opts) in
  match sourceJSON with
  | Err e => fail e
  | Ok srcBytes =>
      match ParseSourceJSON srcBytes with
      | Err e => fail ("parse source.json: " +:+ e)
      | Ok src =>
          match (if op_CaptureBytes opts then Some <$> moduleBazel else Ok None) with
          | Err e => fail e
          | Ok modBytes => FromSource src srcBytes modBytes (Some moduleBazel) opts
          end
      end
  end.
End resolve.

(** ** Runs that may die *)

(** A postcondition on the world, which tells whether the process is still there. *)
Definition wspec {A} (P : world → Prop) (m : os A) (Q : A → world → Prop) : Prop := ∀ w, P w → Q (m w).1 (m w).2.

Lemma wspec_ret {A} (P : world → Prop) (a : A) Q : (∀ w, P w → Q a w) → wspec P (mret a) Q.
Proof. intros H w Hw. by apply H. Qed.

Lemma wspec_bind {A B} P R (m : os A) (f : A → os B) Q : wspec P m R → (∀ a, wspec (R a) (f a) Q) → wspec P (m ≫= f) Q.
Proof. intros Hm Hf w Hw. specialize (Hm w Hw). unfold mbind, os_bind. destruct (m w) as [a w']. by apply Hf. Qed.

Lemma wspec_try {E A B} P R (m : os (result E A)) (f : A → os (result E B)) Q :
  wspec P m R → (∀ a, wspec (R (Ok a)) (f a) Q) → (∀ e w, R (Err e) w → Q (Err e) w) → wspec P (try_ m f) Q.
Proof. intros Hm Hf He. eapply wspec_bind; [exact Hm|]. intros [a|e]; [apply Hf|]. apply wspec_ret, He. Qed.

Lemma wspec_weaken {A} (P P' : world → Prop) (m : os A) (Q Q' : A → world → Prop) :
  wspec P m Q → (∀ w, P' w → P w) → (∀ a w, Q a w → Q' a w) → wspec P' m Q'.
Proof. intros Hm HP HQ w Hw. by apply HQ, Hm, HP. Qed.

Lemma wspec_spec {A} (P : disk → Prop) (m : os A) (Q : A → disk → Prop) :
  spec P m Q → wspec (λ w, P (w_disk w)) m (λ a w, Q a (w_disk w)).
Proof. intros Hm w Hw. by apply Hm. Qed.

(** What a process that has died does is nothing. *)
Definition frozen {A} (m : os A) : Prop := ∀ w, w_alive w = false → (m w).2 = w.

Lemma frozen_ret {A} (a : A) : frozen (mret a).
Proof. by intros w. Qed.
Lemma frozen_bind {A B} (m : os A) (f : A → os B) : frozen m → (∀ a, frozen (f a)) → frozen (m ≫= f).
Proof.
  intros Hm Hf w Hw. specialize (Hm w Hw). unfold mbind, os_bind. destruct (m w) as [a w']. simpl in Hm. subst. by apply Hf.
Qed.
Lemma frozen_try {E A B} (m : os (result E A)) (f : A → os (result E B)) : frozen m → (∀ a, frozen (f a)) → frozen (try_ m f).
Proof. intros Hm Hf. apply frozen_bind; [done|]. intros [a|e]; [apply Hf|apply frozen_ret]. Qed.
Lemma frozen_call {A} (err : nat → string → A) part full : frozen (call err part full).
Proof. intros w Hw. unfold call. by rewrite Hw. Qed.
Lemma frozen_panic {E A} (e : E) : frozen (panic (A:=A) e).
Proof. intros [d fs up] Hw. simpl in Hw. by subst. Qed.

(** For the rest of a run it is enough to look at the living. *)
Lemma wspec_living {A} (P : world → Prop) (m : os A) (Q : A → world → Prop) :
  frozen m → (∀ a w, w_alive w = false → P w → Q a w) → wspec (λ w, w_alive w = true ∧ P w) m Q → wspec P m Q.
Proof.
  intros Hm Hdead Hlive w Hw. destruct (w_alive w) eqn:E; [by apply Hlive|]. rewrite Hm by done. by apply Hdead.
Qed.

(** ** Errors of a read reach the extraction, or do not *)

(** The readers take for whole what they have seen before a read that failed. *)
Definition taken_whole (read_targz : list bytes * option string → nat * result string (list (result string entry))) (seen : list bytes) : Prop :=
  ∃ e entries, (read_targz (seen, Some e)).2 = Ok entries ∧ Forall (λ x, is_ok x = true) entries.

Lemma extract_loop_error step entries s : Exists (λ x, is_ok x = false) entries → (extract_loop step entries s).2 ≠ None.
Proof.
  intros H. revert s. induction H as [x l Hx|x l H IH]; intros s; simpl; [by destruct x|].
  destruct x as [e|e]; [|done]. destruct (step e s) as [s' [err|]]; [done|apply IH].
Qed.

Lemma targz_taken read_targz mkdir_err open_err dir sp seen e :
  (ExtractTarGz mkdir_err open_err dir sp MaxExtractBytes (read_targz (seen, Some e)).2).2 = None → taken_whole read_targz seen.
Proof.
  unfold ExtractTarGz, taken_whole. destruct (read_targz (seen, Some e)).2 as [entries|] eqn:E; [|done].
  unfold do_mkdir. destruct (mkdir_err dir); [done|]. intros H. exists e, entries. split; [done|].
  destruct (decide (Forall (λ x, is_ok x = true) entries)) as [|Hn]; [done|]. apply not_Forall_Exists in Hn; [|apply _].
  edestruct extract_loop_error; [|exact H]. eapply Exists_impl; [exact Hn|]. intros x Hx. simpl in Hx. by destruct (is_ok x).
Qed.

Lemma zip_error mkdir_err open_err dir sp open_entry data e read_zip :
  (ExtractZip mkdir_err open_err dir sp MaxExtractBytes open_entry (data, Some e) read_zip).2 ≠ None.
Proof.
  unfold ExtractZip, copy_limited. change (wrap64 (MaxExtractBytes + 1)) with (MaxExtractBytes + 1)%Z.
  change (0 <? MaxExtractBytes)%Z with true. cbn [fst snd]. destruct (Z.leb_spec (MaxExtractBytes + 1) (Z.of_nat (length data))) as [Hl|Hl]; [|done].
  rewrite length_take. destruct (Z.ltb_spec MaxExtractBytes (Z.of_nat (Z.to_nat (MaxExtractBytes + 1) `min` length data))) as [|Hm]; [done|].
  exfalso. unfold MaxExtractBytes in *. lia.
Qed.

(** ** What goes to the tee *)

Section proofs.
Context (rnd : disk → path → string → string) (root : path) (barred : path → Prop) (d0 : disk).
Abbreviation visible := (same_but is_temp barred).
(** The sink's temporary file holds what the sink has hashed. *)
Abbreviation holding := (λ b d, visible d0 d ∧ ∃ s, files d !! sb_tmp b = Some (sb_hashed b, s)).

(** A write to the sink takes some of the bytes, all of them unless it fails; the file and
    the sink agree, unless the process died in the middle of it. *)
Lemma wspec_sink_Write b p : is_temp (sb_tmp b) →
  wspec (λ w, holding b (w_disk w)) (sink_Write b p)
    (λ x w, sb_tmp x.2 = sb_tmp b ∧ visible d0 (w_disk w) ∧ sb_hashed x.2 = sb_hashed b ++ take x.1.1 p ∧
      (x.1.2 = None → x.1.1 = length p) ∧ (w_alive w = true ∨ x.1.2 = None → holding x.2 (w_disk w))).
Proof.
  intros Ht w Hw. pose proof (spec_sink_Write rnd root barred d0 b p Ht w Hw) as (Hv & Etmp & Hok).
  destruct (sink_Write b p w) as [[[k err] b'] w'] eqn:E. cbn [fst snd] in *. split; [done|]. split; [done|].
  destruct err as [e|].
  2: { destruct (Hok eq_refl) as (-> & [_ ?] & ?). rewrite take_ge by done. by split_and!. }
  destruct Hw as (_ & s & Hs). revert E. unfold sink_Write, write, call, mbind, os_bind, mret, os_ret.
  assert (∀ n, (if 0 <? n then mkSink (sb_tmp b) (sb_hashed b ++ take n p) (sb_bytes b + Z.of_nat n) else b) =
    mkSink (sb_tmp b) (sb_hashed b ++ take n p) (sb_bytes b + Z.of_nat n)) as Hn.
  { intros [|n]; simpl; [|done]. rewrite app_nil_r, Z.add_0_r. by destruct b. }
  destruct (w_alive w) eqn:Ea; [|intros [= <- <- <- <-]; simpl; rewrite Ea, app_nil_r; split_and!; [done|done|by intros [?|?]]].
  destruct (w_faults w) as [|[|n msg|n] fs]; try done; rewrite Hn; intros [= <- <- <- <-].
  - simpl. split_and!; [done|done|]. intros _. split; [done|].
    exists false. erewrite lookup_alter_eq, Hs. simpl. do 2 f_equal. f_equal. destruct (decide (n ≤ length p)); [by rewrite Nat.min_l|].
    rewrite Nat.min_r, !take_ge by lia. done.
  - simpl. rewrite app_nil_r. split_and!; [done|done|by intros [?|?]].
Qed.

(** After [n] reads, or up to a write that failed, the sink has what was seen and the
    verifying reader the rest of the last chunk as well. *)
Lemma wspec_read_chunks n b v :
  is_temp (sb_tmp b) →
  wspec (λ w, holding b (w_disk w)) (read_chunks n (Some b) v)
    (λ x w, visible d0 (w_disk w) ∧ ∃ b', x.1.2 = Some b' ∧ is_temp (sb_tmp b') ∧ vr_expected x.2 = vr_expected v ∧
      (w_alive w = true ∨ x.1.1 = None → holding b' (w_disk w)) ∧
      match x.1.1 with
      | None => let l := concat (take n (vr_stream v)) in sb_hashed b' = sb_hashed b ++ l ∧ vr_hashed x.2 = vr_hashed v ++ l
      | Some (_, part) => ∃ l q, vr_stream v = l ++ (part ++ q) :: vr_stream x.2 ∧
          sb_hashed b' = sb_hashed b ++ concat l ++ part ∧ vr_hashed x.2 = vr_hashed v ++ concat l ++ part ++ q
      end).
Proof.
  revert b v. induction n as [|n IH]; intros b v Ht; simpl.
  { apply wspec_ret. intros w [Hd Hs]. split; [done|]. exists b. simpl. rewrite !app_nil_r. by split_and!. }
  destruct (vr_stream v) as [|p rest] eqn:Hv.
  { apply wspec_ret. intros w [Hd Hs]. split; [done|]. exists b. simpl. rewrite !app_nil_r. by split_and!. }
  destruct p as [|c p].
  { eapply wspec_weaken; [by apply IH|done|]. simpl. intros [[[[e part]|] tee] v'] w (? & b' & ? & ? & ? & ? & H); simpl in *.
    - destruct H as (l & q & E & Hh & Hr). split; [done|]. exists b'. split_and!; [done..|]. rewrite app_nil_r in Hr. exists ([] :: l), q. rewrite E. by split_and!.
    - rewrite app_nil_r in H. destruct H. split; [done|]. exists b'. by split_and!. }
  set (q := c :: p). eapply wspec_bind; [by apply wspec_sink_Write|]. intros [[k err] b'].
  cbn [fst snd].
  destruct err as [e|].
  { apply wspec_ret. intros w (Etmp & Hd & Hh & _ & Hold). split; [done|]. exists b'. simpl. split_and!; [done|by rewrite Etmp|done|by intros [?|?]; [apply Hold; left|]|].
    exists [], (drop k q). simpl. rewrite take_drop. by split_and!. }
  intros w (Etmp & _ & Hh & Hk & Hold). specialize (Hk eq_refl). subst k. rewrite take_ge in Hh by done.
  pose proof (IH b' (mkReader rest (vr_hashed v ++ q) (vr_expected v)) ltac:(by rewrite Etmp) w (Hold (or_intror eq_refl))) as H. simpl in H.
  destruct (read_chunks n _ _ w) as [[[terr tee] v'] w']. simpl in *. destruct H as (? & b'' & ? & ? & ? & ? & H).
  split; [done|]. exists b''. split; [done|]. split; [done|]. split; [done|]. split; [done|]. destruct terr as [[e part]|].
  - destruct H as (l & r & E & Hs & Hr). exists (q :: l), r. simpl. rewrite E, Hs, Hr, Hh, <-!app_assoc. by split_and!.
  - destruct H as [Hs Hr]. by rewrite Hs, Hr, Hh, <-!app_assoc.
Qed.

Lemma seen_chunks_spec chunks l part q v : chunks = l ++ (part ++ q) :: vr_stream v → seen_chunks chunks v part = l ++ [part].
Proof.
  intros ->. unfold seen_chunks. rewrite length_app. simpl. by rewrite Nat.add_sub, take_app_length.
Qed.

Section source.
Context (get : string → result string (list bytes * option string)).
Context (MkdirTemp : result string string) (mkdir_err open_err write_err : string → option string).
Context (read_targz : list bytes * option string → nat * result string (list (result string entry))).
Context (open_entry : entry → option string) (read_zip : bytes → result string (list entry)).
Abbreviation extract := (extract mkdir_err open_err read_targz open_entry read_zip).
Abbreviation FromSource := (FromSource get MkdirTemp mkdir_err open_err write_err read_targz open_entry read_zip).

(** The bytes that were downloaded and unpacked, and match the declared integrity. *)
Definition unpacked (src : SourceJSON) (data : bytes) : Prop :=
  ∃ chunks bodyErr, get (src_URL src) = Ok (chunks, bodyErr) ∧ data `prefix_of` concat chunks ∧
    (src_Integrity src = "" ∨ src_Integrity src = SRI (sha256 data)).

(** What is left of an archive when a write to the sink fails and the readers have no need
    of what is missing: the check of the integrity has seen the rest of the chunk, which
    the sink has not. *)
Definition cut_short (src : SourceJSON) (data : bytes) : Prop :=
  ∃ l part q rest bodyErr, get (src_URL src) = Ok (l ++ (part ++ q) :: rest, bodyErr) ∧ data = concat l ++ part ∧
    src_Integrity src = SRI (sha256 (data ++ q)) ∧ taken_whole read_targz (l ++ [part]).

(** A download, from an empty sink. *)
Lemma wspec_tee n chunks b expected :
  is_temp (sb_tmp b) → sb_hashed b = [] →
  wspec (λ w, holding b (w_disk w)) (read_chunks n (Some b) (NewVerifyingReader chunks expected))
    (λ x w, visible d0 (w_disk w) ∧ ∃ b', x.1.2 = Some b' ∧ is_temp (sb_tmp b') ∧ vr_expected x.2 = expected ∧
      (w_alive w = true → holding b' (w_disk w)) ∧ sb_hashed b' `prefix_of` concat chunks ∧
      match x.1.1 with
      | None => vr_hashed x.2 = sb_hashed b'
      | Some (_, part) => ∃ l q rest, chunks = l ++ (part ++ q) :: rest ∧ seen_chunks chunks x.2 part = l ++ [part] ∧
          sb_hashed b' = concat l ++ part ∧ vr_hashed x.2 = sb_hashed b' ++ q
      end).
Proof.
  intros Ht He. eapply wspec_weaken; [by apply wspec_read_chunks|done|]. simpl. rewrite He.
  intros [[terr tee] v] w (? & b' & ? & ? & ? & Hold & H). simpl in *. split; [done|]. exists b'. split_and!; [done..|auto| |].
  - destruct terr as [[e part]|].
    + destruct H as (l & q & -> & -> & _). exists (q ++ concat (vr_stream v)). rewrite concat_app. simpl. by rewrite <-!app_assoc.
    + destruct H as [-> _]. rewrite <-(take_drop n chunks) at 2. rewrite concat_app. by eexists.
  - destruct terr as [[e part]|]; [|by destruct H as [-> ->]].
    destruct H as (l & q & E & Hs & Hv). exists l, q, (vr_stream v). split_and!; [done|by eapply seen_chunks_spec|done|].
    by rewrite Hv, Hs, <-app_assoc.
Qed.

Lemma wspec_extract kind dir sp chunks bodyErr b expected :
  is_temp (sb_tmp b) → sb_hashed b = [] →
  wspec (λ w, holding b (w_disk w)) (extract kind dir sp chunks bodyErr (Some b) (NewVerifyingReader chunks expected))
    (λ x w, visible d0 (w_disk w) ∧ ∃ b', x.1.2 = Some b' ∧ is_temp (sb_tmp b') ∧ (w_alive w = true → holding b' (w_disk w)) ∧
      vr_expected x.2 = expected ∧ sb_hashed b' `prefix_of` concat chunks ∧
      (x.1.1.2 = None → vr_hashed x.2 = sb_hashed b' ∨
         ∃ l part q rest, chunks = l ++ (part ++ q) :: rest ∧ sb_hashed b' = concat l ++ part ∧ vr_hashed x.2 = sb_hashed b' ++ q ∧
           taken_whole read_targz (l ++ [part]))).
Proof.
  intros Ht He. unfold Resolve.extract. destruct kind; [destruct (read_targz (chunks, bodyErr)) as [n stream]|];
    (eapply wspec_bind; [by apply wspec_tee|]); intros [[terr tee] v]; apply wspec_ret; intros w (? & b' & ? & ? & ? & ? & ? & H); simpl in *;
    (split; [done|]); exists b'; (split_and!; [done..|]); intros Hok; (destruct terr as [[e part]|]; [|by left]).
  - destruct H as (l & q & rest & E & Es & Hs & Hv). right. exists l, part, q, rest. split_and!; [done..|]. rewrite <-Es. by eapply targz_taken.
  - by edestruct zip_error.
Qed.

Lemma wspec_FromSource src srcBytes modBytes fallback b capture :
  is_temp (sb_tmp b) → sb_hashed b = [] →
  wspec (λ w, holding b (w_disk w)) (FromSource src srcBytes modBytes fallback (mkOptions (Some b) capture))
    (λ x w, visible d0 (w_disk w) ∧ ∃ b', x.2 = Some b' ∧ is_temp (sb_tmp b') ∧ (w_alive w = true → holding b' (w_disk w)) ∧
      ∀ mat, x.1 = Ok mat → (unpacked src (sb_hashed b') ∨ cut_short src (sb_hashed b')) ∧
         (capture = true → mt_SourceBytes mat = Some srcBytes ∧ (∀ x, modBytes = Some x → mt_ModuleBytes mat = Some x))).
Proof.
  intros Ht He. unfold Resolve.FromSource. cbn [op_Tee op_CaptureBytes].
  assert (∀ e, wspec (λ w, holding b (w_disk w)) (mret (Err e, Some b) : os (result string Materialized * option BlobSink))
    (λ x w, visible d0 (w_disk w) ∧ ∃ b', x.2 = Some b' ∧ is_temp (sb_tmp b') ∧ (w_alive w = true → holding b' (w_disk w)) ∧
      ∀ mat, x.1 = Ok mat → (unpacked src (sb_hashed b') ∨ cut_short src (sb_hashed b')) ∧
         (capture = true → mt_SourceBytes mat = Some srcBytes ∧ (∀ x, modBytes = Some x → mt_ModuleBytes mat = Some x)))) as Hfail.
  { intros e. apply wspec_ret. intros w [Hd Hs]. split; [done|]. exists b. by split_and!. }
  case_decide; [apply Hfail|]. case_decide; [apply Hfail|].
  destruct (detectArchiveKind _ _) as [kind|e]; [|apply Hfail]. destruct MkdirTemp as [dir|e]; [|apply Hfail].
  unfold FetchArchive. rewrite decide_False by done. destruct (get (src_URL src)) as [[chunks bodyErr]|e] eqn:Hget; [|apply Hfail].
  eapply wspec_bind; [by apply wspec_extract|]. intros [[out tee] vr]. cbn beta. cbn [fst snd].
  destruct out as [[n calls] [err|]].
  { apply wspec_ret. intros w (Hd & b' & Eb & Htb & Hold & _). split; [done|]. by exists b'. }
  destruct (Verify vr) as [ie|] eqn:HV.
  { apply wspec_ret. intros w (Hd & b' & Eb & Htb & Hold & _). split; [done|]. by exists b'. }
  destruct (module_fallback _ _ _ _ _) as [[calls' modBytes']|e] eqn:Hmod.
  2: { apply wspec_ret. intros w (Hd & b' & Eb & Htb & Hold & _). split; [done|]. by exists b'. }
  apply wspec_ret. intros w (Hd & b' & Eb & Htb & Hold & Hx & Hpre & Hh). simpl in *. split; [done|]. exists b'. split_and!; [done..|].
  intros mat Hmat. apply Verify_ok in HV. unfold Sum in HV. rewrite Hx in HV. split.
  - destruct (decide (src_Integrity src = "")) as [Hi|Hi]; [left; exists chunks, bodyErr; auto|]. destruct HV as [HV|HV]; [done|].
    destruct (Hh eq_refl) as [E|(l & part & q & rest & -> & Es & E & Htw)]; rewrite E in HV; [left; exists chunks, bodyErr; auto|right].
    by exists l, part, q, rest, bodyErr.
  - intros ->. injection Hmat as <-. simpl. split; [done|]. intros x ->. revert Hmod. unfold module_fallback.
    destruct (exists_after _ _); [by intros [= _ <-]|]. simpl. destruct (write_err _); [done|]. by intros [= _ <-].
Qed.
End source.
End proofs.

(** ** Concrete downloads *)

Definition short_get (_ : string) : result string (list bytes * option string) := Ok ([to_bytes "arch"; to_bytes "ive"], None).
Definition short_src (sri : string) : SourceJSON := mkSourceJSON "" "https://x/a.tgz" sri "" "" ∅ 0.

(** Readers that have the archive's end, and so stop, after [n] reads. *)
Definition stops_after (n : nat) (body : list bytes * option string) : nat * result string (list (result string entry)) :=
  match body.2 with Some e => (n, Err e) | None => (n, Ok []) end.

Definition download (n : nat) (sri : string) (w : world) : result string Materialized * option BlobSink * world :=
  FromSource short_get (Ok "/tmp/r") (λ _, None) (λ _, None) (λ _, None) (stops_after n) (λ _, None) (λ _, Err "zip")
    (short_src sri) [] None None (mkOptions (Some (mkSink [".tmp-b"] [] 0)) true) w.

Definition archive_sri : string := Eval vm_compute in SRI (sha256 (to_bytes "archive")).

(** The archive's own digest is only met by a download that was read to its end: the
    extraction does not read what follows the archive's last entry, and the check sees
    what the extraction has read.  Without a declared digest the tee keeps that part. *)
Example read_in_part :
  let w := mkWorld (mkDisk {[ [".tmp-b"] := ([], false) ]} ∅) [] true in
  (is_ok (download 2 archive_sri w).1.1, is_ok (download 1 archive_sri w).1.1) = (true, false) ∧
  (is_ok (download 1 "" w).1.1, sb_hashed <$> (download 1 "" w).1.2) = (true, Some (to_bytes "arch")).
Proof. vm_compute. split; reflexivity. Qed.

(** Readers that need the first five bytes, and leave what follows them: the write of the
    last chunk fails after its first byte, which is the last that they need, and the
    download is taken, with the integrity of the archive and not that of the tee. *)
Definition needs_five (body : list bytes * option string) : nat * result string (list (result string entry)) :=
  (2, if decide (5 ≤ length (concat body.1)) then Ok [] else Err "unexpected EOF").
Definition short_download (faults : list fault) : result string Materialized * option BlobSink * world :=
  FromSource short_get (Ok "/tmp/r") (λ _, None) (λ _, None) (λ _, None) needs_five (λ _, None) (λ _, Err "zip")
    (short_src archive_sri) [] None None (mkOptions (Some (mkSink [".tmp-b"] [] 0)) true)
    (mkWorld (mkDisk {[ [".tmp-b"] := ([], false) ]} ∅) faults true).
Example short_write_unnoticed :
  let '(r, tee, _) := short_download [Fine; Fails 1 "no space left on device"] in
  is_ok r = true ∧ sb_hashed <$> tee = Some (to_bytes "archi").
Proof. vm_compute. split; reflexivity. Qed.
