(* ===== verification/Bump.v ===== *)
(** * Ingesting one module

    [Service.Bump], [Service.IngestDir], [generateAndStoreScip] (internal/bzlhub/
    service_ingest.go), [ReindexScip] (service_reindex.go) and [FromDir]
    (internal/ingest/ingest.go): from a registry's answers to the
    mirror's files, the index's rows, the audit trail and the bus.  The static analyser,
    the interpreter that refines its report, the indexer and the decompressors are
    parameters; a walk for the dependency closure takes fuel, as in the file
    ScipClosure. *)

From Stdlib Require Import FunctionalExtensionality.
From S2P Require Import Prelude Strings Report Archive Digest FileSystem Mirror Resolve Index ScipClosure AuditTrail.

(** The events of the bus that these calls publish. *)
Inductive bus_event : Type :=
| ModuleIndexed (module version : string) (rules providers macros : nat) (hermeticity : list HermeticityClass)
| AuditRecorded (ev : AuditEvent).

Definition eventFromReport (r : ModuleReport) : bus_event :=
  ModuleIndexed (rep_Name r) (rep_Version r) (length (rep_Rules r)) (length (rep_Providers r)) (length (rep_Macros r))
    (herm_Classes (rep_Hermeticity r)).

(** What the service keeps beside the mirror. *)
Record svc := mkSvc { sv_index : Index; sv_audit : AuditDb; sv_bus : list bus_event }.

Definition emit (e : bus_event) (s : svc) : svc := mkSvc (sv_index s) (sv_audit s) (sv_bus s ++ [e]).
Definition set_index (ix : Index) (s : svc) : svc := mkSvc ix (sv_audit s) (sv_bus s).

(** [Service.audit], for the authenticated user [user]: a row that cannot be written is
    dropped, the bus has the event all the same. *)
Definition stamped (user : string) (ev : AuditEvent) : AuditEvent :=
  if decide (ev_UserID ev = "")
  then mkAuditEvent (ev_ID ev) (ev_Timestamp ev) (ev_Kind ev) (ev_Source ev) (ev_Module ev) (ev_Version ev)
         (ev_OK ev) (ev_DurationMs ev) (ev_Error ev) (ev_Payload ev) user
  else ev.
Definition audit (fault : option string) (now : Z) (user : string) (ev : AuditEvent) (s : svc) : svc :=
  emit (AuditRecorded (stamped user ev)) (mkSvc (sv_index s) (RecordAudit fault now (stamped user ev) (sv_audit s)).2 (sv_bus s)).

Record BumpOptions := mkBumpOptions { bo_Module : string; bo_Version : string; bo_Upstream : string; bo_Source : string }.

(** A report under the registry's coordinates. *)
Definition with_coords (name version : string) (r : ModuleReport) : ModuleReport :=
  mkModuleReport name version (rep_CompatibilityLevel r) (rep_BazelCompatibility r) (rep_BazelDeps r) (rep_Rules r)
    (rep_Providers r) (rep_Macros r) (rep_Aspects r) (rep_Toolchains r) (rep_ToolchainImpls r) (rep_RepositoryRules r)
    (rep_ModuleExtensions r) (rep_Overrides r) (rep_UsedExtensions r) (rep_RegisteredToolchains r)
    (rep_RegisteredExecutionPlatforms r) (rep_Includes r) (rep_Hermeticity r) (rep_FileInventory r) (rep_Assets r).

(** An update whose failure is only logged. *)
Definition best_effort (r : result string Index) (ix : Index) : Index := match r with Ok ix' => ix' | Err _ => ix end.

Section index.
Context (json_compat : list string → string) (json_herm : HermeticityProfile → string).
Context (json_report : ModuleReport → string) (decode_report : string → result string ModuleReport).
(** The text of the moment of a write. *)
Context (stamp : string).
Abbreviation WriteReport := (WriteReport json_compat json_herm json_report stamp).

(** A directory as it was written, and what is made of it: the analyser's report, the
    interpreter's refinement of it, and the indexer's output. *)
Context {Dir : Type} (Analyze : Dir → result string ModuleReport) (Hydrate : Dir → ModuleReport → ModuleReport).
Context (Generate : Dir → string → string → Closure → result string string).
Context (UnresolvedRepos : string → result string (list string)) (blob_has_files : string → bool).
Context (AttrsInterpret : bool).
(** The mirror's MODULE.bazel files, their parser, and the walk's cancellation. *)
Context (mirror_module : string → string → result string bytes) (ParseModuleContent : bytes → result string (list Dependency)).
Context (cancelled : nat → option string) (fuel : nat).

(** [ingest.FromDir]; the table of external URLs, which it fills as well, is not one of
    the [Index]'s, and a failure there is only logged. *)
Definition FromDir (d : Dir) (ix : Index) : result string ModuleReport * Index :=
  match Analyze d with
  | Err e => (Err e, ix)
  | Ok r => match WriteReport r ix with
            | Err e => (Err ("write report " +:+ rep_Name r +:+ "@" +:+ rep_Version r +:+ ": " +:+ e), ix)
            | Ok ix' => (Ok r, ix')
            end
  end.

(** [scipDepSources]: the store, then the mirror. *)
Definition stored_report (ix : Index) (name version : string) : result string (option ModuleReport) :=
  match GetReport decode_report ix name version with Ok r => Ok (Some r) | Err e => Err e end.
Definition scipDepSources (ix : Index) : DepsFunc :=
  FirstOf [DepsFromStore (stored_report ix); DepsFromModuleBazel mirror_module ParseModuleContent].

(** [generateAndStoreScip]; [None] is a walk cut short by the fuel. *)
Definition generateAndStoreScip (d : Dir) (r : ModuleReport) (ix : Index) : option (result string (list string) * Index) :=
  match TransitiveClosure (scipDepSources ix) cancelled fuel (Some r) with
  | None => None
  | Some walked =>
      match Generate d (rep_Name r) (rep_Version r) (closure_or_direct walked r) with
      | Err _ => Some (Ok [], ix)
      | Ok blob =>
          match UnresolvedRepos blob with
          | Err e => Some (Err ("inspect generated index: " +:+ e), ix)
          | Ok unresolved =>
              match WriteScipBlob (rep_Name r) (rep_Version r) blob ix with
              | Err _ => Some (Ok unresolved, ix)
              | Ok ix' => Some (Ok unresolved, best_effort (SetHasSourceIndex (rep_Name r) (rep_Version r) (blob_has_files blob) ix') ix')
              end
          end
      end
  end.

(** The refinement of a report, stored again. *)
Definition hydrate (d : Dir) (r : ModuleReport) (ix : Index) : ModuleReport * Index :=
  if AttrsInterpret then (Hydrate d r, best_effort (WriteReport (Hydrate d r) ix) ix) else (r, ix).

(** [Bump] from the unpacked directory to the index. *)
Definition index_dir (module version : string) (d : Dir) (tarballBytes : Z) (ix : Index) : option (result string ModuleReport * Index) :=
  match FromDir d ix with
  | (Err e, ix) => Some (Err ("assay+index: " +:+ e), ix)
  | (Ok r, ix) =>
      let r' := with_coords module version r in
      match (if decide (rep_Name r ≠ module ∨ rep_Version r ≠ version) then WriteReport r' ix else Ok ix) with
      | Err e => Some (Err ("re-store under canonical coords: " +:+ e), ix)
      | Ok ix =>
          let '(r, ix) := hydrate d r' ix in
          match generateAndStoreScip d r ix with
          | None => None
          | Some (Err e, ix) => Some (Err e, ix)
          | Some (Ok _, ix) =>
              Some (Ok r, if (0 <? tarballBytes)%Z then best_effort (SetTarballSize module version tarballBytes ix) ix else ix)
          end
      end
  end.

(** [IngestDir] *)
Definition IngestDir (d : Dir) (s : svc) : option (result string ModuleReport * svc) :=
  match FromDir d (sv_index s) with
  | (Err e, ix) => Some (Err e, set_index ix s)
  | (Ok r, ix) =>
      let '(r, ix) := hydrate d r ix in
      match generateAndStoreScip d r ix with
      | None => None
      | Some (Err e, ix) => Some (Err e, set_index ix s)
      | Some (Ok _, ix) => Some (Ok r, emit (eventFromReport r) (set_index ix s))
      end
  end.

(** ** Indexing again *)

Record ReindexResult := mkReindexResult {
  rx_Considered : nat;
  rx_Reindexed : nat;
  rx_Skipped : list (string * string * string);
  rx_Unresolved : list (string * string * list string);
}.

Context (MaterializeSource : string → string → result string Dir).

(** [reindexOne] *)
Definition reindexOne (dryRun : bool) (module version : string) (ix : Index) : option (result string (list string) * Index) :=
  match GetReport decode_report ix module version with
  | Err e => Some (Err ("no stored report: " +:+ e), ix)
  | Ok r =>
      match MaterializeSource module version with
      | Err e => Some (Err ("source not available from the mirror: " +:+ e), ix)
      | Ok d =>
          match TransitiveClosure (scipDepSources ix) cancelled fuel (Some r) with
          | None => None
          | Some (Err e) => Some (Err ("resolve dependency closure: " +:+ e), ix)
          | Some (Ok closure) =>
              match Generate d module version closure with
              | Err e => Some (Err ("generate index: " +:+ e), ix)
              | Ok blob =>
                  match UnresolvedRepos blob with
                  | Err e => Some (Err ("inspect generated index: " +:+ e), ix)
                  | Ok unresolved =>
                      if dryRun then Some (Ok unresolved, ix)
                      else match WriteScipBlob module version blob ix with
                           | Err e => Some (Err ("write index: " +:+ e), ix)
                           | Ok ix' => match SetHasSourceIndex module version (blob_has_files blob) ix' with
                                       | Err e => Some (Err ("update has_source_index: " +:+ e), ix')
                                       | Ok ix'' => Some (Ok unresolved, ix'')
                                       end
                           end
                  end
              end
          end
      end
  end.

(** One coordinate of a run. *)
Definition reindex_step (dryRun : bool) (acc : option (ReindexResult * Index)) (mv : string * string) :
    option (ReindexResult * Index) :=
  match acc with
  | None => None
  | Some (res, ix) =>
      match reindexOne dryRun mv.1 mv.2 ix with
      | None => None
      | Some (Err e, ix) =>
          Some (mkReindexResult (rx_Considered res) (rx_Reindexed res) (rx_Skipped res ++ [(mv.1, mv.2, e)]) (rx_Unresolved res), ix)
      | Some (Ok unresolved, ix) =>
          Some (mkReindexResult (rx_Considered res) (rx_Reindexed res + 1) (rx_Skipped res)
                  (match unresolved with [] => rx_Unresolved res | _ => rx_Unresolved res ++ [(mv.1, mv.2, unresolved)] end), ix)
      end
  end.

(** [ReindexScip], on a configured service and a context that stays live. *)
Definition ReindexScip (only : list (string * string)) (dryRun : bool) (ix : Index) : option (ReindexResult * Index) :=
  let targets := match only with [] => ListScipVersions ix | _ => only end in
  foldl (reindex_step dryRun) (Some (mkReindexResult (length targets) 0 [] [], ix)) targets.
End index.

Section bump.
Context (rnd : disk → path → string → string) (root : path).
(** The registry behind an upstream's URL; source.json is asked for twice. *)
Context (probe_SourceJSON reg_SourceJSON reg_ModuleBazel : string → string → string → result string bytes).
Context (reg_Metadata : string → string → result string bytes) (ParseSourceJSON : bytes → result string SourceJSON).
Context (get : string → result string (list bytes * option string)).
Context (MkdirTemp : result string string) (mkdir_err open_err write_err : string → option string).
Context (read_targz : list bytes * option string → nat * result string (list (result string Archive.entry))).
Context (open_entry : Archive.entry → option string) (read_zip : bytes → result string (list Archive.entry)).
Context (unmarshal_map : bytes → result string (option (gmap string bytes))).
Context (unmarshal_versions : bytes → result string (list string)).
Context (marshal_versions : list string → bytes) (marshal_map : gmap string bytes → bytes).
Abbreviation merge := (MergeMetadataWithUpstream rnd root unmarshal_map unmarshal_versions marshal_versions marshal_map).

(** [Bump] from the stored archive to the mirror's metadata; [Ok None] is a panic, which
    unwinds through [Bump]'s deferred function. *)
Definition publish_fetched (upstream module version : string) (mat : Materialized) (size : Z)
    : os (result string (option (list fs_call * Z))) :=
  try_ (WriteSource rnd root module version (default [] (mt_SourceBytes mat))) (λ _,
  try_ (match default [] (mt_ModuleBytes mat) with
        | [] => mret (Ok tt)
        | b => WriteModuleBazel rnd root module version b
        end) (λ _,
  merged ← merge module version (match reg_Metadata upstream module with Ok b => b | Err _ => [] end);
  match merged with
  | Err NilMapPanic => mret (Ok None)
  | Err _ => mret (Err "merge metadata.json")
  | Ok _ => mret (Ok (Some (mt_calls mat, size)))
  end)).

(** [Bump] from the downloaded archive on: the sink is closed, or aborted. *)
Definition mirror_fetched (upstream module version : string) (r : result string Materialized) (sink : BlobSink)
    : os (result string (option (list fs_call * Z))) :=
  match r with
  | Err e => abort_with sink ("resolve: " +:+ e)
  | Ok mat => try_ (sink_Close root sink) (λ closed, publish_fetched upstream module version mat closed.2)
  end.

(** [Bump] from the registry to the mirror: the unpacked directory and the archive's size. *)
Definition fetch_and_mirror (upstream module version : string) : os (result string (option (list fs_call * Z))) :=
  try_ (mkdirAll root) (λ _,
  try_ (EnsureRegistryJSON rnd root) (λ _,
  try_ (mret (probe_SourceJSON upstream module version ≫= ParseSourceJSON)) (λ _,
  try_ (BlobWriter rnd root) (λ sink,
  '(r, tee) ← FromRegistryWithClient get MkdirTemp mkdir_err open_err write_err read_targz open_entry read_zip ParseSourceJSON
    (reg_SourceJSON upstream module version) (reg_ModuleBazel upstream module version) (mkOptions (Some sink) true);
  mirror_fetched upstream module version r (default sink tee))))).

Context (json_compat : list string → string) (json_herm : HermeticityProfile → string).
Context (json_report : ModuleReport → string) (decode_report : string → result string ModuleReport) (stamp : string).
Context (Analyze : list fs_call → result string ModuleReport) (Hydrate : list fs_call → ModuleReport → ModuleReport).
Context (Generate : list fs_call → string → string → Closure → result string string).
Context (UnresolvedRepos : string → result string (list string)) (blob_has_files : string → bool) (AttrsInterpret : bool).
Context (mirror_module : string → string → result string bytes) (ParseModuleContent : bytes → result string (list Dependency)).
Context (cancelled : nat → option string) (fuel : nat).
Abbreviation index_dir := (index_dir json_compat json_herm json_report decode_report stamp Analyze Hydrate Generate UnresolvedRepos
  blob_has_files AttrsInterpret mirror_module ParseModuleContent cancelled fuel).

(** The audit row of a call: when, by whom, how long it took, its payload. *)
Context (DefaultUpstream : string) (now duration : Z) (user : string) (audit_fault : option string).
Context (payload_json : nat → nat → nat → option string → string) (bcrHeadSHA : string).

Definition isBCRUpstream (upstream : string) : bool := ContainsStr (ToLower upstream) "bcr.bazel.build".

(** How a call ends: with [Bump]'s two results, or in a panic. *)
Inductive bump_outcome : Type :=
| Returns (r : result string ModuleReport)
| Panics.

(** What the deferred function writes down: it tells failure by [retErr], which a panic
    leaves nil, as it does [rep]. *)
Definition bump_event (opts : BumpOptions) (out : bump_outcome) : AuditEvent :=
  let source := if decide (bo_Source opts = "") then "unknown" else bo_Source opts in
  match out with
  | Returns (Err e) =>
      mkAuditEvent 0 None "bump_failure" source (bo_Module opts) (bo_Version opts) false duration e "" ""
  | Returns (Ok rep) =>
      let sha := if isBCRUpstream (bo_Upstream opts) || (bool_decide (bo_Upstream opts = "") && isBCRUpstream DefaultUpstream)
                 then (if decide (bcrHeadSHA = "") then None else Some bcrHeadSHA) else None in
      mkAuditEvent 0 None "bump_success" source (bo_Module opts) (bo_Version opts) true duration ""
        (payload_json (length (rep_Rules rep)) (length (rep_Providers rep)) (length (rep_Macros rep)) sha) ""
  | Panics => mkAuditEvent 0 None "bump_success" source (bo_Module opts) (bo_Version opts) true duration "" "" ""
  end.

Definition record_bump (opts : BumpOptions) (out : bump_outcome) (s : svc) : svc :=
  audit audit_fault now user (bump_event opts out) s.

(** Whether the process is still there. *)
Definition alive : os bool := λ w, (w_alive w, w).

(** [Bump] on a mirror that was configured.  There is no answer when the process has died
    before the tree is indexed, or the fuel cuts a dependency walk short. *)
Definition Bump (opts : BumpOptions) (s : svc) : os (option (bump_outcome * svc)) :=
  let ends out s := mret (Some (out, record_bump opts out s)) in
  if decide (bo_Module opts = "" ∨ bo_Version opts = "") then ends (Returns (Err "bump: module and version are required")) s
  else
    let upstream := if decide (bo_Upstream opts = "") then DefaultUpstream else bo_Upstream opts in
    fetched ← fetch_and_mirror upstream (bo_Module opts) (bo_Version opts);
    up ← alive;
    match fetched with
    | Ok None => ends Panics s
    | Err e => if up then ends (Returns (Err e)) s else mret None
    | Ok (Some (d, tarballBytes)) =>
        if negb up then mret None else
        match index_dir (bo_Module opts) (bo_Version opts) d tarballBytes (sv_index s) with
        | None => mret None
        | Some (Err e, ix) => ends (Returns (Err e)) (set_index ix s)
        | Some (Ok r, ix) => ends (Returns (Ok r)) (emit (eventFromReport r) (set_index ix s))
        end
    end.
End bump.

(** ** What the index keeps *)

Section index_proofs.
Context (json_compat : list string → string) (json_herm : HermeticityProfile → string).
Context (json_report : ModuleReport → string) (decode_report : string → result string ModuleReport) (stamp : string).
Context {Dir : Type} (Analyze : Dir → result string ModuleReport) (Hydrate : Dir → ModuleReport → ModuleReport).
Context (Generate : Dir → string → string → Closure → result string string).
Context (UnresolvedRepos : string → result string (list string)) (blob_has_files : string → bool) (AttrsInterpret : bool).
Context (mirror_module : string → string → result string bytes) (ParseModuleContent : bytes → result string (list Dependency)).
Context (cancelled : nat → option string) (fuel : nat).
Abbreviation WriteReport := (WriteReport json_compat json_herm json_report stamp).
Abbreviation hydrate := (hydrate json_compat json_herm json_report stamp Hydrate AttrsInterpret).
Abbreviation sources := (scipDepSources decode_report mirror_module ParseModuleContent).
Abbreviation generateAndStoreScip := (generateAndStoreScip decode_report Generate UnresolvedRepos blob_has_files mirror_module
  ParseModuleContent cancelled fuel).
Abbreviation index_dir := (index_dir json_compat json_herm json_report decode_report stamp Analyze Hydrate Generate UnresolvedRepos
  blob_has_files AttrsInterpret mirror_module ParseModuleContent cancelled fuel).

(** The coordinate of a report in the index. *)
Abbreviation coords := Index.coord_of.

(** A step of an ingest keeps the tables consistent and the rows of all coordinates but
    those of [K] as they were. *)
Definition kept_but (K : list coord) (ix ix' : Index) : Prop :=
  (index_wf ix → index_wf ix') ∧ ∀ k, k ∉ K → ix_versions ix' !! k = ix_versions ix !! k.

Lemma kept_refl K ix : kept_but K ix ix.
Proof. done. Qed.
Lemma kept_trans K ix1 ix2 ix3 : kept_but K ix1 ix2 → kept_but K ix2 ix3 → kept_but K ix1 ix3.
Proof. intros [H1 E1] [H2 E2]. split; [by auto|]. intros k Hk. by rewrite E2, E1. Qed.
Lemma kept_weaken K K' ix ix' : (∀ k, k ∈ K → k ∈ K') → kept_but K ix ix' → kept_but K' ix ix'.
Proof. intros HK [H E]. split; [done|]. intros k Hk. apply E. auto. Qed.

Lemma write_kept r ix ix' : index_wf ix → WriteReport r ix = Ok ix' →
  kept_but [coords r] ix ix' ∧ ix_versions ix' !! coords r = Some (fresh_cols json_compat json_herm json_report stamp r).
Proof.
  intros Hwf E. pose proof (WriteReport_ok_storable _ _ _ _ _ _ _ E) as Hs.
  destruct (WriteReport_holds json_compat json_herm json_report decode_report stamp r ix) as (ix2 & E2 & Hh);
    [by destruct Hwf|done|]. rewrite E in E2. injection E2 as <-. pose proof Hh as [_ Hv _ _ _ _ _ _]. split; [split|].
  - intros _. by eapply holds_wf.
  - intros k Hk. rewrite Hv. apply lookup_insert_ne. intros <-. apply Hk. by left.
  - rewrite Hv. apply lookup_insert_eq.
Qed.

Lemma alter_kept f n v ix : kept_but [(n, v)] ix (update_cols f n v ix).
Proof.
  split; [by apply update_cols_wf|]. intros k Hk. simpl. apply lookup_alter_ne. intros <-. apply Hk. by left.
Qed.

(** The text and the size of a row. *)
Definition same_text (c c' : option VersionCols) : Prop :=
  (λ c, (vc_report_json c, vc_tarball_size c)) <$> c = (λ c, (vc_report_json c, vc_tarball_size c)) <$> c'.

Lemma scip_kept d r ix out ix' : index_wf ix → generateAndStoreScip d r ix = Some (out, ix') →
  kept_but [coords r] ix ix' ∧ same_text (ix_versions ix' !! coords r) (ix_versions ix !! coords r).
Proof.
  intros Hwf. unfold Bump.generateAndStoreScip. destruct (TransitiveClosure _ _ _ _) as [walked|]; [|done].
  destruct (Generate _ _ _ _) as [blob|]; [|by intros [= _ <-]].
  destruct (UnresolvedRepos blob) as [un|]; [|by intros [= _ <-]].
  destruct (WriteScipBlob _ _ _ _) as [ix1|] eqn:E1; [|by intros [= _ <-]]. intros [= _ <-].
  pose proof (run_index_wf json_compat json_herm json_report decode_report ix (OpScip (rep_Name r) (rep_Version r) blob) Hwf) as Hwf1.
  unfold run_index in Hwf1. rewrite E1 in Hwf1.
  assert (ix_versions ix1 = ix_versions ix) as Ev.
  { unfold WriteScipBlob in E1. case_decide; [done|]. destruct (ix_versions ix !! _); [|done]. by injection E1 as <-. }
  unfold SetHasSourceIndex, best_effort. case_decide as Hne.
  - split; [split; [done|]|]; [intros; by rewrite Ev|by rewrite Ev].
  - split; [split|].
    + intros _. by apply update_cols_wf.
    + intros k Hk. rewrite (proj2 (alter_kept _ _ _ _)) by done. by rewrite Ev.
    + simpl. unfold Index.coord_of. rewrite lookup_alter_eq, Ev. unfold same_text. by destruct (ix_versions ix !! _).
Qed.

(** A report written, refined or not: the row holds one of the two, and holds the
    refined one unless that cannot be stored. *)
Lemma hydrate_kept d r ix r' ix' : index_wf ix → coords (Hydrate d r) = coords r →
  ix_versions ix !! coords r = Some (fresh_cols json_compat json_herm json_report stamp r) →
  hydrate d r ix = (r', ix') →
  kept_but [coords r] ix ix' ∧ coords r' = coords r ∧
  ∃ r'', (r'' = r' ∨ ¬ storable r') ∧ ix_versions ix' !! coords r = Some (fresh_cols json_compat json_herm json_report stamp r'').
Proof.
  intros Hwf Hc Hrow. unfold Bump.hydrate. destruct AttrsInterpret; intros [= <- <-].
  2: { split; [done|]. split; [done|]. exists r. auto. }
  unfold best_effort. destruct (WriteReport (Hydrate d r) ix) as [ix1|e] eqn:E.
  - destruct (write_kept _ _ _ Hwf E) as [Hk Hr]. rewrite Hc in Hk, Hr. split; [done|]. split; [done|].
    exists (Hydrate d r). auto.
  - split; [done|]. split; [done|]. exists r. split; [|done]. right. intros Hs.
    destruct (WriteReport_holds json_compat json_herm json_report decode_report stamp (Hydrate d r) ix) as (ix2 & E2 & _);
      [by destruct Hwf|done|congruence].
Qed.

Context (Hhydrate : ∀ d r, coords (Hydrate d r) = coords r).

(** [index_dir] writes under the registry's coordinates and under those of the archive's
    own MODULE.bazel, and nowhere else. *)
Lemma index_dir_spec module version d n ix out ix' :
  module ≠ "" → version ≠ "" → index_wf ix → index_dir module version d n ix = Some (out, ix') →
  ∃ K, (∀ k, k ∈ K → k = (module, version) ∨ ∃ r0, Analyze d = Ok r0 ∧ k = coords r0) ∧ kept_but K ix ix' ∧
  ∀ r, out = Ok r → coords r = (module, version) ∧ ∃ r' row, (r' = r ∨ ¬ storable r) ∧
    ix_versions ix' !! (module, version) = Some row ∧ vc_report_json row = json_report r' ∧
    vc_tarball_size row = (if (0 <? n)%Z then n else 0%Z).
Proof.
  intros Hm Hv Hwf. unfold Bump.index_dir, FromDir. destruct (Analyze d) as [r0|e] eqn:Ea.
  2: { intros [= <- <-]. exists []. split; [by intros k ?%elem_of_nil|]. by split. }
  destruct (WriteReport r0 ix) as [ix1|e] eqn:E1.
  2: { intros [= <- <-]. exists []. split; [by intros k ?%elem_of_nil|]. by split. }
  destruct (write_kept _ _ _ Hwf E1) as [Hk1 Hr1]. pose proof (proj1 Hk1 Hwf) as Hwf1.
  set (K := [coords r0; (module, version)]). intros H. exists K.
  split; [intros k [->|[->|[]%elem_of_nil]%elem_of_cons]%elem_of_cons; eauto|].
  assert (∀ k, k ∈ [coords r0] → k ∈ K) as HK1 by (intros k ->%list_elem_of_singleton; by left).
  assert (∀ k, k ∈ [(module, version)] → k ∈ K) as HK2 by (intros k ->%list_elem_of_singleton; right; by left).
  pose proof (kept_weaken _ _ _ _ HK1 Hk1) as Hk1'.
  set (r1 := with_coords module version r0) in *. assert (coords r1 = (module, version)) as Hc1 by done.
  destruct (if decide _ then _ else _) as [ix2|e] eqn:E2; [|injection H as <- <-; by split].
  assert (kept_but K ix1 ix2 ∧ index_wf ix2 ∧
    ix_versions ix2 !! coords r1 = Some (fresh_cols json_compat json_herm json_report stamp r1)) as (Hk2 & Hwf2 & Hr2).
  { case_decide as Hd.
    - destruct (write_kept _ _ _ Hwf1 E2) as [Hk Hr]. split; [by eapply kept_weaken|]. split; [by apply Hk|done].
    - injection E2 as <-. split; [done|]. split; [done|].
      assert (rep_Name r0 = module ∧ rep_Version r0 = version) as [<- <-] by (split; apply dec_stable; tauto).
      assert (r1 = r0) as -> by (subst r1; by destruct r0). done. }
  destruct (hydrate d r1 ix2) as [r2 ix3] eqn:E3.
  destruct (hydrate_kept _ _ _ _ _ Hwf2 (Hhydrate d r1) Hr2 E3) as (Hk3 & Hc3 & r'' & Hor & Hr3).
  rewrite Hc1 in Hk3, Hc3, Hr3. pose proof (proj1 Hk3 Hwf2) as Hwf3.
  pose proof (kept_trans _ _ _ _ Hk1' (kept_trans _ _ _ _ Hk2 (kept_weaken _ _ _ _ HK2 Hk3))) as Hk13.
  destruct (generateAndStoreScip d r2 ix3) as [[[un|e] ix4]|] eqn:E4; [| |done];
    destruct (scip_kept _ _ _ _ _ Hwf3 E4) as [Hk4 Hr4]; rewrite Hc3 in Hk4, Hr4;
    pose proof (kept_trans _ _ _ _ Hk13 (kept_weaken _ _ _ _ HK2 Hk4)) as Hk14; injection H as <- <-; [|by split].
  rewrite Hr3 in Hr4. unfold same_text in Hr4. destruct (ix_versions ix4 !! (module, version)) as [row|] eqn:Erow; [|done].
  injection Hr4 as Hj Hsz. destruct (Z.ltb_spec 0 n).
  - unfold SetTarballSize. rewrite decide_False by naive_solver. cbn [best_effort]. split.
    + eapply kept_trans; [done|]. by eapply kept_weaken, alter_kept.
    + intros r [= <-]. split; [done|]. exists r''. eexists. split; [done|]. simpl. rewrite lookup_alter_eq, Erow. done.
  - split; [done|]. intros r [= <-]. split; [done|]. exists r'', row. rewrite Hsz. done.
Qed.

(** The sources answer for what the index has and for what the mirror has. *)
Lemma sources_among ix (L : list coord) n v ds :
  (∀ n v b, mirror_module n v = Ok b → (n, v) ∈ L) → sources ix n v = Ok ds → (n, v) ∈ (map_to_list (ix_versions ix)).*1 ++ L.
Proof.
  intros HL. unfold scipDepSources, FirstOf. cbn [first_answer]. destruct (DepsFromStore _ n v) as [ds'|] eqn:E1.
  { intros _. apply elem_of_app. left. unfold DepsFromStore, stored_report, Index.GetReport in E1.
    destruct (ix_versions ix !! (n, v)) as [c|] eqn:Ec; [|done]. apply list_elem_of_fmap. exists ((n, v), c).
    split; [done|]. by apply elem_of_map_to_list. }
  unfold DepsFromModuleBazel. destruct (mirror_module n v) as [b|] eqn:E2; [|done].
  intros _. apply elem_of_app. right. by eapply HL.
Qed.

(** Enough fuel gives an ingest its answer, when the mirror has files for finitely many
    coordinates. *)
Abbreviation index_dir_for k := (Bump.index_dir json_compat json_herm json_report decode_report stamp Analyze Hydrate Generate
  UnresolvedRepos blob_has_files AttrsInterpret mirror_module ParseModuleContent cancelled k).
Lemma index_dir_answers (L : list coord) module version d n ix :
  (∀ n v b, mirror_module n v = Ok b → (n, v) ∈ L) →
  ∃ bound, ∀ k, bound ≤ k → index_dir_for k module version d n ix ≠ None.
Proof.
  intros HL. unfold Bump.index_dir. destruct (FromDir _ _ _ _ _ _ _) as [[r0|] ix1]; [|by exists 0].
  destruct (if decide _ then _ else _) as [ix2|]; [|by exists 0]. destruct (hydrate _ _ _) as [r2 ix3].
  set (U := (coord_of <$> rep_BazelDeps r2) ++ (((map_to_list (ix_versions ix3)).*1 ++ L) ≫=
    λ c, match sources ix3 c.1 c.2 with Ok ds => coord_of <$> ds | Err _ => [] end)).
  exists (length U). intros k Hk.
  assert (TransitiveClosure (sources ix3) cancelled k (Some r2) ≠ None) as Hw.
  { apply (walk_answers _ _ _ U); [|done]. apply reachable_among. intros n' v' ds. by apply sources_among. }
  unfold Bump.generateAndStoreScip. destruct (TransitiveClosure _ _ _ _); [|done]. destruct (Generate _ _ _ _); [|done].
  destruct (UnresolvedRepos _); [|done]. by destruct (WriteScipBlob _ _ _ _).
Qed.
End index_proofs.

(** ** What the mirror keeps *)

Section bump_proofs.
Context (rnd : disk → path → string → string) (root : path).
Context (probe_SourceJSON reg_SourceJSON reg_ModuleBazel : string → string → string → result string bytes).
Context (reg_Metadata : string → string → result string bytes) (ParseSourceJSON : bytes → result string SourceJSON).
Context (get : string → result string (list bytes * option string)).
Context (MkdirTemp : result string string) (mkdir_err open_err write_err : string → option string).
Context (read_targz : list bytes * option string → nat * result string (list (result string Archive.entry))).
Context (open_entry : Archive.entry → option string) (read_zip : bytes → result string (list Archive.entry)).
Context (unmarshal_map : bytes → result string (option (gmap string bytes))).
Context (unmarshal_versions : bytes → result string (list string)).
Context (marshal_versions : list string → bytes) (marshal_map : gmap string bytes → bytes).
Abbreviation visible := (same_but is_temp (blob_place root)).
Abbreviation metadata n := (FileSystem.joined root ["modules"; n; "metadata.json"]).
Abbreviation fetch := (fetch_and_mirror rnd root probe_SourceJSON reg_SourceJSON reg_ModuleBazel reg_Metadata ParseSourceJSON get
  MkdirTemp mkdir_err open_err write_err read_targz open_entry read_zip unmarshal_map unmarshal_versions marshal_versions marshal_map).
Abbreviation finish := (mirror_fetched rnd root reg_Metadata unmarshal_map unmarshal_versions marshal_versions marshal_map).
Abbreviation publish := (publish_fetched rnd root reg_Metadata unmarshal_map unmarshal_versions marshal_versions marshal_map).

(** The mirror's invariant, and the invariant but for source.json files of one text. *)
Abbreviation inv := (mirror_inv root ParseSourceJSON).
Definition excusing (text b : bytes) : result string SourceJSON := if decide (b = text) then Err "excused" else ParseSourceJSON b.
Abbreviation inv_but text := (mirror_inv root (excusing text)).

(** The files that a fetch has left in the mirror, and what it knows of the archive: that
    it is the one downloaded and checked, or what is left of it. *)
Definition mirrored (upstream module version : string) (d : disk) : Prop :=
  ∃ srcBytes src modBytes data m out,
    reg_SourceJSON upstream module version = Ok srcBytes ∧ ParseSourceJSON srcBytes = Ok src ∧
    reg_ModuleBazel upstream module version = Ok modBytes ∧
    (unpacked get src data ∨ cut_short get read_targz src data) ∧ stored root (address data) d ∧
    files d !! version_file root module version "source.json" = Some (srcBytes, true) ∧
    (modBytes ≠ [] → files d !! version_file root module version "MODULE.bazel" = Some (modBytes, true)) ∧
    merge_map unmarshal_map unmarshal_versions marshal_versions m
      (match reg_Metadata upstream module with Ok b => b | Err _ => [] end) version = Ok out ∧
    files d !! metadata module = Some (marshal_map out ++ [chr 10], true).

(** The mirror is sound, or sound but for a source.json whose archive was cut short on its
    way to the disk. *)
Definition sound (upstream module version : string) (d : disk) : Prop :=
  inv d ∨ ∃ srcBytes src data, reg_SourceJSON upstream module version = Ok srcBytes ∧ ParseSourceJSON srcBytes = Ok src ∧
    cut_short get read_targz src data ∧ inv_but srcBytes d.

Lemma inv_excuse text d : inv d → inv_but text d.
Proof.
  intros [Hb Hd Hs]. split; [done..|]. intros n v b s Hn Hv H. destruct (Hs n v b s Hn Hv H) as [-> Hback]. split; [done|].
  intros src. unfold excusing. case_decide; [done|]. apply Hback.
Qed.

Lemma sound_power_loss upstream module version cut d : sound upstream module version d → sound upstream module version (power_loss cut d).
Proof.
  intros [Hi|(b & src & data & H1 & H2 & H3 & Hi)]; [left; by apply inv_power_loss|right].
  exists b, src, data. split_and!; [done..|]. by apply inv_power_loss.
Qed.

Lemma wspec_registry upstream module version b d0 :
  is_temp (sb_tmp b) → sb_hashed b = [] →
  wspec (λ w, visible d0 (w_disk w) ∧ ∃ s, files (w_disk w) !! sb_tmp b = Some (sb_hashed b, s))
    (FromRegistryWithClient get MkdirTemp mkdir_err open_err write_err read_targz open_entry read_zip ParseSourceJSON
      (reg_SourceJSON upstream module version) (reg_ModuleBazel upstream module version) (mkOptions (Some b) true))
    (λ x w, visible d0 (w_disk w) ∧ ∃ b', x.2 = Some b' ∧ is_temp (sb_tmp b') ∧
      (w_alive w = true → ∃ s, files (w_disk w) !! sb_tmp b' = Some (sb_hashed b', s)) ∧
      ∀ mat, x.1 = Ok mat → ∃ srcBytes src modBytes, reg_SourceJSON upstream module version = Ok srcBytes ∧
          ParseSourceJSON srcBytes = Ok src ∧ reg_ModuleBazel upstream module version = Ok modBytes ∧
          (unpacked get src (sb_hashed b') ∨ cut_short get read_targz src (sb_hashed b')) ∧
          mt_SourceBytes mat = Some srcBytes ∧ mt_ModuleBytes mat = Some modBytes).
Proof.
  intros Ht He. unfold FromRegistryWithClient. cbn [op_Tee op_CaptureBytes].
  destruct (reg_SourceJSON upstream module version) as [srcBytes|e];
    [|apply wspec_ret; intros w [Hd Hs]; split; [done|]; exists b; by split_and!].
  destruct (ParseSourceJSON srcBytes) as [src|e] eqn:Hp; [|apply wspec_ret; intros w [Hd Hs]; split; [done|]; exists b; by split_and!].
  destruct (reg_ModuleBazel upstream module version) as [modBytes|e];
    [|apply wspec_ret; intros w [Hd Hs]; split; [done|]; exists b; by split_and!]. cbn [fmap].
  eapply wspec_weaken; [by apply (wspec_FromSource rnd root (blob_place root) d0)|done|]. simpl.
  intros x w (Hd & b' & Eb & Htb & Hold & H). split; [done|]. exists b'. split_and!; [done|done|by intros ?; apply Hold|].
  intros mat Hmat. destruct (H mat Hmat) as (Hu & Hc). destruct (Hc eq_refl) as [H1 H2].
  exists srcBytes, src, modBytes. split_and!; [done..|]. by apply H2.
Qed.

(** The rest of a fetch keeps the invariant of any reader of source.json files for which
    the one that is written finds its archive. *)
Section rest.
Context (Parse : bytes → result string SourceJSON).
Abbreviation inv_of := (mirror_inv root Parse).

(** From the closed sink on. *)
Lemma spec_close b d0 :
  inv_of d0 → is_temp (sb_tmp b) →
  spec (λ d, visible d0 d ∧ ∃ s, files d !! sb_tmp b = Some (sb_hashed b, s)) (sink_Close root b)
    (λ r d, match r with
            | Ok _ => inv_of d ∧ stored root (address (sb_hashed b)) d
            | Err _ => visible d0 d
            end).
Proof.
  intros Hi Ht. eapply spec_weaken; [apply (spec_sink_Close root (blob_place root) d0)|by intros d ?|].
  - eexists. by split; [apply address_name|].
  - done.
  - intros [[[p sri] k]|e] d; [|done]. intros (_ & _ & Hd). set (c := sb_hashed b) in *. pose proof (address_name c) as Hn.
    destruct Hd as [[Hd Hin]|[Hd Hf]].
    + pose proof (inv_visible rnd _ _ _ _ Hd Hi) as Hi'. split; [done|].
      destruct Hin as [[[c' s] Hin]%elem_of_dom|Hin]; [|by edestruct (mi_dirs _ _ _ Hi); [by exists (address c)|]].
      destruct (mi_blobs _ _ _ Hi _ _ _ Hn Hin) as [-> Hc']. exists c'. split; [done|].
      destruct Hd as (Hd & _). rewrite Hd; [done|by apply blob_not_temp].
    + split; [by eapply inv_blob|]. by exists c.
Qed.

(** From the stored archive on. *)
Lemma spec_published upstream module version mat size srcBytes src modBytes data :
  Archive.plain module → Archive.plain version →
  reg_SourceJSON upstream module version = Ok srcBytes → ParseSourceJSON srcBytes = Ok src →
  reg_ModuleBazel upstream module version = Ok modBytes → (unpacked get src data ∨ cut_short get read_targz src data) →
  mt_SourceBytes mat = Some srcBytes → mt_ModuleBytes mat = Some modBytes →
  (∀ d, stored root (address data) d → backed root Parse srcBytes d) →
  spec (λ d, inv_of d ∧ stored root (address data) d) (publish upstream module version mat size)
    (λ r d, inv_of d ∧ ∀ x, r = Ok (Some x) → mirrored upstream module version d).
Proof.
  intros Hn Hv Hsrc Hparse Hmod Hu Es Em Hback. unfold publish_fetched. rewrite Es, Em. cbn [default].
  apply (spec_pre (underway root Parse (address data) [])); [|intros d [? ?]; by split_and!; [..|constructor]].
  pose proof (address_name data) as Hh.
  assert (Archive.plain "source.json" ∧ Archive.plain "MODULE.bazel") as [Hp1 Hp2] by (split; by apply plain_lit).
  pose proof (version_file_path root module version "source.json" Hn Hv Hp1) as E1.
  pose proof (version_file_path root module version "MODULE.bazel" Hn Hv Hp2) as E2.
  pose proof (metadata_path root module Hn) as E3.
  eapply spec_try; [apply (spec_version_file rnd root Parse (address data) [] module version "source.json" srcBytes);
    try done; by constructor|intros ?; cbn beta|by intros].
  set (F1 := [(version_file root module version "source.json", srcBytes)]).
  set (F2 := if decide (modBytes = []) then F1 else (version_file root module version "MODULE.bazel", modBytes) :: F1).
  assert (settled F1) as HF1 by (repeat constructor; simpl; rewrite E1; by apply not_temp_snoc).
  assert (settled F2) as HF2.
  { unfold F2. case_decide; [done|]. constructor; [|done]. simpl. rewrite E2. by apply not_temp_snoc. }
  assert (Forall (λ x, x.1 ≠ metadata module) F2) as HF2m.
  { assert (∀ f, (root ++ ["modules"; module; version]) ++ [f] ≠ metadata module) as Hne.
    { intros f E. rewrite E3 in E. apply app_inj_tail in E as [E _]. by apply app_inv_head in E. }
    unfold F2. case_decide; repeat constructor; simpl; rewrite ?E1, ?E2; apply Hne. }
  eapply spec_try with (R := λ r d, match r with Ok _ => underway root Parse (address data) F2 d | Err _ => inv_of d end).
  { unfold F2. destruct modBytes as [|c modBytes]; [by apply spec_ret|]. rewrite decide_False by done.
    apply (spec_version_file rnd root Parse (address data) F1 module version "MODULE.bazel" (c :: modBytes)); try done.
    repeat constructor. simpl. rewrite E1, E2. intros E. by apply app_inj_tail in E as [_ ?]. }
  2: { by intros. }
  intros ?. cbn beta.
  eapply spec_bind; [apply (spec_merge rnd root Parse unmarshal_map unmarshal_versions marshal_versions marshal_map
    (address data) F2 module version); done|]. intros [?|e]; cbn beta; [|destruct e; apply spec_ret; intros d Hd; by split].
  apply spec_ret. intros d (m & out & Hm & Hi' & Hst & Hhas). split; [done|]. intros x _.
  unfold has in Hhas. apply Forall_cons in Hhas as [H3 H12].
  exists srcBytes, src, modBytes, data, m, out. split_and!; try done.
  - unfold F2 in H12. case_decide; [by apply Forall_cons in H12 as [? _]|]. by apply Forall_cons in H12 as [_ [? _]%Forall_cons].
  - intros Hne. unfold F2 in H12. rewrite decide_False in H12 by done. by apply Forall_cons in H12 as [? _].
Qed.

(** From the download on. *)
Lemma spec_finish upstream module version mat b d0 srcBytes src modBytes :
  inv_of d0 → is_temp (sb_tmp b) → Archive.plain module → Archive.plain version →
  reg_SourceJSON upstream module version = Ok srcBytes → ParseSourceJSON srcBytes = Ok src →
  reg_ModuleBazel upstream module version = Ok modBytes →
  (unpacked get src (sb_hashed b) ∨ cut_short get read_targz src (sb_hashed b)) →
  mt_SourceBytes mat = Some srcBytes → mt_ModuleBytes mat = Some modBytes →
  (∀ d, stored root (address (sb_hashed b)) d → backed root Parse srcBytes d) →
  spec (λ d, visible d0 d ∧ ∃ s, files d !! sb_tmp b = Some (sb_hashed b, s)) (finish upstream module version (Ok mat) b)
    (λ r d, inv_of d ∧ ∀ x, r = Ok (Some x) → mirrored upstream module version d).
Proof.
  intros Hi Ht Hn Hv Hsrc Hparse Hmod Hu Hs Hm Hback. unfold mirror_fetched.
  eapply spec_try; [by apply (spec_close b d0)|intros closed; cbn beta|].
  2: { intros e d Hd. split; [exact (inv_visible rnd _ _ d0 d Hd Hi)|done]. }
  by eapply spec_published.
Qed.
End rest.

(** The archive's address is the one its source.json declares, unless it was cut short. *)
Lemma unpacked_backs src srcBytes data d :
  ParseSourceJSON srcBytes = Ok src → unpacked get src data → stored root (address data) d → backed root ParseSourceJSON srcBytes d.
Proof.
  intros Hparse (_ & _ & _ & _ & [?|E]) Hs src' E' Hne; rewrite Hparse in E'; injection E' as <-; [done|].
  exists (address data). split; [|done]. rewrite E. apply sriToHex_SRI, length_sha256.
Qed.

(** A process that has died does not go on. *)
Ltac freeze := repeat first
  [ apply frozen_ret | apply frozen_call | apply frozen_panic | apply frozen_try; [|intros ?] | apply frozen_bind; [|intros ?]
  | match goal with |- frozen (match ?x with _ => _ end) => destruct x end ].
Lemma frozen_atomicWrite t data : frozen (atomicWrite rnd t data).
Proof. unfold atomicWrite. freeze. Qed.
Lemma frozen_finish upstream module version r b : frozen (finish upstream module version r b).
Proof.
  unfold mirror_fetched, abort_with, sink_Abort, sink_Close, publish_fetched, WriteSource, WriteModuleBazel, MergeMetadataWithUpstream.
  destruct r; freeze; try apply frozen_atomicWrite.
Qed.

(** What a fetch comes to. *)
Abbreviation fetched upstream module version := (λ (r : result string (option (list fs_call * Z))) w,
  sound upstream module version (w_disk w) ∧
  ∀ x, r = Ok (Some x) → w_alive w = true → mirrored upstream module version (w_disk w)).

Lemma fetched_visible upstream module version d0 e w :
  inv d0 → visible d0 (w_disk w) → fetched upstream module version (Err e) w.
Proof. intros Hi Hd. split; [left; exact (inv_visible rnd _ _ d0 _ Hd Hi)|done]. Qed.

(** From the opened sink on. *)
Lemma wspec_sunk upstream module version b d0 :
  Archive.plain module → Archive.plain version → inv d0 → is_temp (sb_tmp b) → sb_hashed b = [] →
  wspec (λ w, visible d0 (w_disk w) ∧ ∃ s, files (w_disk w) !! sb_tmp b = Some (sb_hashed b, s))
    ('(r, tee) ← FromRegistryWithClient get MkdirTemp mkdir_err open_err write_err read_targz open_entry read_zip ParseSourceJSON
       (reg_SourceJSON upstream module version) (reg_ModuleBazel upstream module version) (mkOptions (Some b) true);
     finish upstream module version r (default b tee))
    (fetched upstream module version).
Proof.
  intros Hn Hv Hi Ht He. eapply wspec_bind; [by apply (wspec_registry upstream module version b d0)|].
  intros [r tee]. cbn [fst snd]. intros w (Hd & b' & -> & Htb & Hold & Hmat). cbn [default].
  change (fetched upstream module version (finish upstream module version r b' w).1 (finish upstream module version r b' w).2).
  destruct (w_alive w) eqn:Hup.
  2: { pose proof (frozen_finish upstream module version r b' w Hup) as E. split; [left; rewrite E; exact (inv_visible rnd _ _ d0 _ Hd Hi)|].
       intros x _. by rewrite E, Hup. }
  specialize (Hold eq_refl). destruct r as [mat|e].
  2: { assert (spec (visible d0) (finish upstream module version (Err e) b') (λ r d, visible d0 d ∧ is_ok r = false)) as HA
         by (apply (spec_Abort (blob_place root) d0); [done|by intros]).
       destruct (HA w Hd) as [Hv' E]. destruct (finish upstream module version (Err e) b' w) as [[x|e'] w']; [done|].
       by apply (fetched_visible _ _ _ d0). }
  destruct (Hmat mat eq_refl) as (srcBytes & src & modBytes & Hsrc & Hparse & Hmod & Hu & Hs & Hm).
  pose proof (λ P HP Hback, spec_finish P upstream module version mat b' d0 srcBytes src modBytes HP Htb Hn Hv Hsrc Hparse Hmod Hu Hs Hm
    Hback w (conj Hd Hold)) as Hfin. destruct Hu as [Hu|Hu].
  - destruct (Hfin ParseSourceJSON Hi) as [Hi' Hx]; [intros d; by apply (unpacked_backs src)|].
    split; [by left|]. intros x Ex _. by eapply Hx.
  - destruct (Hfin (excusing srcBytes) (inv_excuse _ _ Hi)) as [Hi' Hx].
    { intros d _ src' E. unfold excusing in E. by rewrite decide_True in E. }
    split; [right; by exists srcBytes, src, (sb_hashed b')|]. intros x Ex _. by eapply Hx.
Qed.

Lemma wspec_fetch upstream module version :
  Archive.plain module → Archive.plain version →
  wspec (λ w, inv (w_disk w)) (fetch upstream module version) (fetched upstream module version).
Proof.
  intros Hn Hv. unfold fetch_and_mirror.
  assert (∀ e w, inv (w_disk w) → fetched upstream module version (Err e) w) as Hfail by (intros e w Hw; split; [by left|done]).
  eapply (wspec_try _ (λ _ w, inv (w_disk w))); [|intros ?; cbn beta|exact Hfail].
  { apply (wspec_spec inv _ (λ _, inv)), spec_pin. intros d0 Hi. eapply spec_weaken; [apply (spec_mkdirAll is_temp (blob_place root) d0)|by intros d ->|].
    - eapply eq_ind; [apply (passable_app rnd root []); by intros [|k] h|by rewrite app_nil_r].
    - intros ? d Hd. exact (inv_visible rnd _ _ _ _ Hd Hi). }
  eapply (wspec_try _ (λ _ w, inv (w_disk w))); [apply (wspec_spec inv _ (λ _, inv)), spec_ensure|intros ?; cbn beta|exact Hfail].
  destruct (probe_SourceJSON upstream module version ≫= ParseSourceJSON) as [probe|e]; [|apply wspec_ret, Hfail].
  change (try_ (mret (Ok probe)) ?f) with (f probe). cbn beta. intros w0 Hi.
  eapply (wspec_try (λ w, visible (w_disk w0) (w_disk w))); [|intros sink; cbn beta| |done].
  { apply wspec_spec, (spec_BlobWriter rnd root (blob_place root)), (passable_app rnd). intros [|[|k]] h E; discriminate. }
  - intros w [Hd Hs]. destruct (Hs sink eq_refl) as [[Hf Ht] He]. by apply (wspec_sunk upstream module version sink (w_disk w0)).
  - intros e w [Hd _]. by eapply fetched_visible.
Qed.
End bump_proofs.

(** ** One call of [Bump] *)

Section bump_theorems.
Context (rnd : disk → path → string → string) (root : path).
Context (probe_SourceJSON reg_SourceJSON reg_ModuleBazel : string → string → string → result string bytes).
Context (reg_Metadata : string → string → result string bytes) (ParseSourceJSON : bytes → result string SourceJSON).
Context (get : string → result string (list bytes * option string)).
Context (MkdirTemp : result string string) (mkdir_err open_err write_err : string → option string).
Context (read_targz : list bytes * option string → nat * result string (list (result string Archive.entry))).
Context (open_entry : Archive.entry → option string) (read_zip : bytes → result string (list Archive.entry)).
Context (unmarshal_map : bytes → result string (option (gmap string bytes))).
Context (unmarshal_versions : bytes → result string (list string)).
Context (marshal_versions : list string → bytes) (marshal_map : gmap string bytes → bytes).
Context (json_compat : list string → string) (json_herm : HermeticityProfile → string).
Context (json_report : ModuleReport → string) (decode_report : string → result string ModuleReport) (stamp : string).
Context (Analyze : list fs_call → result string ModuleReport) (Hydrate : list fs_call → ModuleReport → ModuleReport).
Context (Generate : list fs_call → string → string → Closure → result string string).
Context (UnresolvedRepos : string → result string (list string)) (blob_has_files : string → bool) (AttrsInterpret : bool).
Context (mirror_module : string → string → result string bytes) (ParseModuleContent : bytes → result string (list Dependency)).
Context (cancelled : nat → option string).
Context (DefaultUpstream : string) (now duration : Z) (user : string) (audit_fault : option string).
Context (payload_json : nat → nat → nat → option string → string) (bcrHeadSHA : string).
Abbreviation inv := (mirror_inv root ParseSourceJSON).
Abbreviation holds_version := (mirrored root reg_SourceJSON reg_ModuleBazel reg_Metadata ParseSourceJSON get read_targz unmarshal_map
  unmarshal_versions marshal_versions marshal_map).
Abbreviation sound_for := (sound root reg_SourceJSON ParseSourceJSON get read_targz).
Abbreviation bump fuel := (Bump rnd root probe_SourceJSON reg_SourceJSON reg_ModuleBazel reg_Metadata ParseSourceJSON get
  MkdirTemp mkdir_err open_err write_err read_targz open_entry read_zip unmarshal_map unmarshal_versions marshal_versions
  marshal_map json_compat json_herm json_report decode_report stamp Analyze Hydrate Generate UnresolvedRepos blob_has_files
  AttrsInterpret mirror_module ParseModuleContent cancelled fuel DefaultUpstream now duration user audit_fault payload_json
  bcrHeadSHA).
Abbreviation index_dir fuel := (index_dir json_compat json_herm json_report decode_report stamp Analyze Hydrate Generate UnresolvedRepos
  blob_has_files AttrsInterpret mirror_module ParseModuleContent cancelled fuel).
Abbreviation record := (record_bump DefaultUpstream now duration user audit_fault payload_json bcrHeadSHA).

(** The upstream a call asks. *)
Definition upstream_of (opts : BumpOptions) : string := if decide (bo_Upstream opts = "") then DefaultUpstream else bo_Upstream opts.


(** The events a call publishes before its audit row. *)
Definition indexed_events (out : bump_outcome) : list bus_event :=
  match out with Returns (Ok r) => [eventFromReport r] | _ => [] end.

Lemma bump_cases fuel opts s w out s' : (bump fuel opts s w).1 = Some (out, s') →
  ∃ ix, s' = record opts out (mkSvc ix (sv_audit s) (sv_bus s ++ indexed_events out)) ∧
    (ix = sv_index s ∧ (∀ r, out ≠ Returns (Ok r)) ∨ ∃ d n r, bo_Module opts ≠ "" ∧ bo_Version opts ≠ "" ∧
      out = Returns r ∧ index_dir fuel (bo_Module opts) (bo_Version opts) d n (sv_index s) = Some (r, ix)).
Proof.
  assert (s = mkSvc (sv_index s) (sv_audit s) (sv_bus s ++ [])) as Es by (rewrite app_nil_r; by destruct s).
  unfold Bump. cbn zeta. case_decide as Hc.
  { intros [= <- <-]. exists (sv_index s). split; [by rewrite Es at 1|]. by left. }
  unfold alive, mbind, os_bind. destruct (fetch_and_mirror _ _ _ _ _ _ _ _ _ _ _ _ _ _ _ _ _ _ _ _ _ _ w) as [[[[d n]|]|e] w'];
    destruct (w_alive w'); simpl; try done; try (intros [= <- <-]; exists (sv_index s); split; [by rewrite Es at 1|by left]).
  destruct (index_dir fuel _ _ d n _) as [[[r|e] ix]|] eqn:E; [| |done]; intros [= <- <-]; exists ix; simpl;
    rewrite ?app_nil_r; (split; [done|]); right; exists d, n; eexists; (split; [tauto|]); (split; [tauto|]); by split.
Qed.

(** With enough fuel only the death of the process keeps a bump from an answer. *)
Lemma bump_answers (L : list coord) opts s w :
  (∀ n v b, mirror_module n v = Ok b → (n, v) ∈ L) →
  ∃ bound, ∀ fuel, bound ≤ fuel → (bump fuel opts s w).1 = None → w_alive (bump fuel opts s w).2 = false.
Proof.
  intros HL. unfold Bump. cbn zeta. case_decide; [by exists 0|]. unfold alive, mbind, os_bind.
  destruct (fetch_and_mirror _ _ _ _ _ _ _ _ _ _ _ _ _ _ _ _ _ _ _ _ _ _ w) as [[[[d n]|]|e] w']; destruct (w_alive w') eqn:Hup;
    try by exists 0. simpl.
  destruct (index_dir_answers json_compat json_herm json_report decode_report stamp Analyze Hydrate Generate UnresolvedRepos
    blob_has_files AttrsInterpret mirror_module ParseModuleContent cancelled L (bo_Module opts) (bo_Version opts) d n (sv_index s) HL)
    as [bound Hb]. exists bound. intros fuel Hf. specialize (Hb fuel Hf). by destruct (index_dir fuel _ _ d n _) as [[[]]|].
Qed.

End bump_theorems.

(** ** Indexing again *)

Section reindex_proofs.
Context (decode_report : string → result string ModuleReport).
Context {Dir : Type} (Generate : Dir → string → string → Closure → result string string).
Context (UnresolvedRepos : string → result string (list string)) (blob_has_files : string → bool).
Context (mirror_module : string → string → result string bytes) (ParseModuleContent : bytes → result string (list Dependency)).
Context (cancelled : nat → option string) (fuel : nat) (MaterializeSource : string → string → result string Dir).
Abbreviation GetReport := (GetReport decode_report).
Abbreviation reindexOne := (reindexOne decode_report Generate UnresolvedRepos blob_has_files mirror_module ParseModuleContent
  cancelled fuel MaterializeSource).
Abbreviation step := (reindex_step decode_report Generate UnresolvedRepos blob_has_files mirror_module ParseModuleContent
  cancelled fuel MaterializeSource).
Abbreviation ReindexScip := (ReindexScip decode_report Generate UnresolvedRepos blob_has_files mirror_module ParseModuleContent
  cancelled fuel MaterializeSource).

Definition same_reports (ix ix' : Index) : Prop := ∀ n v, GetReport ix' n v = GetReport ix n v.

(** A step of a run: reports stay, indexes are only added or replaced. *)
Definition reindexed_from (ix ix' : Index) : Prop :=
  (index_wf ix → index_wf ix') ∧ same_reports ix ix' ∧ ∀ k, is_Some (ix_scip ix !! k) → is_Some (ix_scip ix' !! k).

#[local] Instance reindexed_from_preorder : PreOrder reindexed_from.
Proof.
  split; [by intros ix|]. intros ix1 ix2 ix3 (H1 & R1 & S1) (H2 & R2 & S2). split_and!; [by auto| |by auto].
  intros n v. by rewrite R2, R1.
Qed.

Lemma write_scip_step n v blob ix ix' : WriteScipBlob n v blob ix = Ok ix' →
  reindexed_from ix ix' ∧ is_Some (ix_scip ix' !! (n, v)).
Proof.
  unfold WriteScipBlob. case_decide; [done|]. destruct (ix_versions ix !! (n, v)) eqn:E; [|done]. intros [= <-].
  split; [split_and!|].
  - intros Hwf. pose proof (run_index_wf (λ _, "") (λ _, "") (λ _, "") decode_report ix (OpScip n v blob) Hwf) as H'.
    unfold run_index, WriteScipBlob in H'. by rewrite decide_False, E in H'.
  - done.
  - intros k. simpl. intros [b Hb]. destruct (decide (k = (n, v))) as [->|]; [rewrite lookup_insert_eq; eauto|].
    rewrite lookup_insert_ne by done. eauto.
  - simpl. rewrite lookup_insert_eq. eauto.
Qed.

Lemma source_index_step n v b ix ix' : SetHasSourceIndex n v b ix = Ok ix' → reindexed_from ix ix'.
Proof.
  unfold SetHasSourceIndex. case_decide; [done|]. intros [= <-]. split_and!; [by apply update_cols_wf| |done].
  intros n' v'. unfold Index.GetReport. simpl. rewrite lookup_alter. case_decide as E; [|done]. rewrite <-E.
  by destruct (ix_versions ix !! (n, v)).
Qed.

Lemma reindexOne_step dry n v ix out ix' : reindexOne dry n v ix = Some (out, ix') →
  reindexed_from ix ix' ∧ (dry = true → ix' = ix) ∧ (dry = false → is_ok out = true → is_Some (ix_scip ix' !! (n, v))).
Proof.
  unfold Bump.reindexOne. destruct (GetReport ix n v) as [r|]; [|by intros [= <- <-]].
  destruct (MaterializeSource n v) as [d|]; [|by intros [= <- <-]].
  destruct (TransitiveClosure _ _ _ _) as [[c|]|]; [|by intros [= <- <-]|done].
  destruct (Generate d n v c) as [blob|]; [|by intros [= <- <-]].
  destruct (UnresolvedRepos blob) as [un|]; [|by intros [= <- <-]]. destruct dry; [by intros [= <- <-]|].
  destruct (WriteScipBlob n v blob ix) as [ix1|] eqn:E1; [|by intros [= <- <-]].
  destruct (write_scip_step _ _ _ _ _ E1) as [Hs Hb].
  destruct (SetHasSourceIndex _ _ _ _) as [ix2|] eqn:E2; [|by intros [= <- <-]].
  pose proof (source_index_step _ _ _ _ _ E2) as H2. intros [= <- <-]. split; [by etrans|]. split; [done|].
  intros _ _. by apply H2.
Qed.

(** Whether it writes or not, a step on the same reports says the same. *)
Lemma reindexOne_dry n v ix1 ix2 : same_reports ix1 ix2 → n ≠ "" → v ≠ "" →
  fst <$> reindexOne true n v ix1 = fst <$> reindexOne false n v ix2.
Proof.
  intros Hs Hn Hv. unfold Bump.reindexOne. rewrite Hs. destruct (GetReport ix1 n v) as [r|] eqn:Er; [|done].
  assert (stored_report decode_report ix2 = stored_report decode_report ix1) as E.
  { unfold stored_report. do 2 (apply functional_extensionality; intros ?). by rewrite Hs. }
  unfold scipDepSources. rewrite E. destruct (MaterializeSource n v) as [d|]; [|done].
  destruct (TransitiveClosure _ _ _ _) as [[c|]|]; [|done..]. destruct (Generate d n v c) as [blob|]; [|done].
  destruct (UnresolvedRepos blob) as [un|]; [|done]. unfold WriteScipBlob. rewrite decide_False by tauto.
  rewrite <-Hs in Er. unfold Index.GetReport in Er. destruct (ix_versions ix2 !! (n, v)); [|done].
  unfold SetHasSourceIndex. by rewrite decide_False by tauto.
Qed.

Lemma steps_none dry targets : foldl (step dry) None targets = None.
Proof. by induction targets. Qed.

Lemma steps_spec dry targets : ∀ res ix res' ix', foldl (step dry) (Some (res, ix)) targets = Some (res', ix') →
  reindexed_from ix ix' ∧ (dry = true → ix' = ix) ∧ rx_Considered res' = rx_Considered res ∧
  rx_Reindexed res' + length (rx_Skipped res') = rx_Reindexed res + length (rx_Skipped res) + length targets ∧
  (∀ x, x ∈ rx_Skipped res → x ∈ rx_Skipped res') ∧
  (dry = false → ∀ n v, (n, v) ∈ targets → (∃ e, (n, v, e) ∈ rx_Skipped res') ∨ is_Some (ix_scip ix' !! (n, v))).
Proof.
  induction targets as [|[n v] targets IH]; intros res ix res' ix'; cbn [foldl].
  { intros [= <- <-]. split_and!; [done|done|done|simpl; lia|done|]. by intros _ n v ?%elem_of_nil. }
  unfold step at 2. cbn [fst snd]. destruct (reindexOne dry n v ix) as [[out ix1]|] eqn:E1; [|by rewrite steps_none].
  destruct (reindexOne_step _ _ _ _ _ _ E1) as (Hf & Hd & Hb).
  set (acc := match out with Ok _ => _ | Err _ => _ end). intros E.
  assert (∃ res1, acc = Some (res1, ix1) ∧ rx_Considered res1 = rx_Considered res ∧
    rx_Reindexed res1 + length (rx_Skipped res1) = S (rx_Reindexed res + length (rx_Skipped res)) ∧
    (∀ x, x ∈ rx_Skipped res → x ∈ rx_Skipped res1) ∧ (is_ok out = true ∨ ∃ e, (n, v, e) ∈ rx_Skipped res1))
    as (res1 & Ea & Hc & Hn & Hs & Ho).
  { unfold acc. destruct out as [un|e]; eexists; (split; [done|]); simpl; (split; [done|]).
    - split; [lia|]. split; [done|]. by left.
    - rewrite length_app. simpl. split; [lia|]. split; [intros x Hx; apply elem_of_app; by left|].
      right. exists e. apply elem_of_app. right. by left. }
  rewrite Ea in E. destruct (IH _ _ _ _ E) as (Hf' & Hd' & Hc' & Hn' & Hs' & Hb').
  split_and!; [by etrans| |by rewrite Hc'|simpl; lia|by auto|].
  - intros ->. by rewrite (Hd' eq_refl), (Hd eq_refl).
  - intros -> n' v' [[= -> ->]|Hin]%elem_of_cons; [|by apply Hb'].
    destruct Ho as [Ho|[e Ho]]; [right|left; eauto]. apply Hf'. by apply Hb.
Qed.

Lemma steps_dry targets : ∀ res ix1 ix2, same_reports ix1 ix2 → Forall (λ mv, mv.1 ≠ "" ∧ mv.2 ≠ "") targets →
  fst <$> foldl (step true) (Some (res, ix1)) targets = fst <$> foldl (step false) (Some (res, ix2)) targets.
Proof.
  induction targets as [|[n v] targets IH]; intros res ix1 ix2 Hs Ht; [done|]. apply Forall_cons in Ht as [[Hn Hv] Ht].
  cbn [foldl]. unfold step at 2 4. cbn [fst snd] in *. pose proof (reindexOne_dry n v ix1 ix2 Hs Hn Hv) as E.
  destruct (reindexOne true n v ix1) as [[out ix1']|] eqn:E1; destruct (reindexOne false n v ix2) as [[out' ix2']|] eqn:E2;
    try done; [|by rewrite !steps_none]. injection E as <-.
  apply reindexOne_step in E1 as [_ [-> _]]; [|done]. apply reindexOne_step in E2 as [(_ & R & _) _].
  assert (same_reports ix1 ix2') as Hs' by (intros n' v'; by rewrite R, Hs). by destruct out; apply IH.
Qed.

(** A run over the stored indexes accounts for every coordinate, as regenerated or as
    skipped with a reason; it changes no report, and a coordinate that was not skipped has
    an index afterwards.  A dry run writes nothing and its numbers, skips and unresolved
    loads are those of the real run, whatever the real run has rewritten on the way. *)
Theorem reindex_accounts only ix res ix' :
  index_wf ix → ReindexScip only false ix = Some (res, ix') →
  let targets := match only with [] => ListScipVersions ix | _ => only end in
  rx_Considered res = length targets ∧ rx_Reindexed res + length (rx_Skipped res) = length targets ∧
  index_wf ix' ∧ (∀ n v, GetReport ix' n v = GetReport ix n v) ∧
  (∀ n v, (n, v) ∈ targets → (∃ e, (n, v, e) ∈ rx_Skipped res) ∨ is_Some (ix_scip ix' !! (n, v))) ∧
  (Forall (λ mv, mv.1 ≠ "" ∧ mv.2 ≠ "") targets → ReindexScip only true ix = Some (res, ix)).
Proof.
  intros Hwf. unfold Bump.ReindexScip. cbn zeta. set (targets := match only with [] => _ | _ => only end). intros E.
  pose proof (steps_spec false targets _ _ _ _ E) as ((Hw & Hr & _) & _ & Hc & Hn & _ & Hb). simpl in Hc, Hn.
  split_and!; [done|lia|by apply Hw|done|by apply Hb|].
  intros Ht. pose proof (steps_dry targets (mkReindexResult (length targets) 0 [] []) ix ix (λ n v, eq_refl) Ht) as Hd.
  rewrite E in Hd. destruct (foldl (step true) _ targets) as [[res1 ix1]|] eqn:E1; [|done]. injection Hd as ->.
  by destruct (steps_spec true targets _ _ _ _ E1) as (_ & -> & _).
Qed.
End reindex_proofs.

(** ** Concrete calls

    The upstream's archive calls itself b@2; its digest is the one declared. *)

Definition demo_json (r : ModuleReport) : string := rep_Name r +:+ "@" +:+ rep_Version r.
Definition demo_decode (t : string) : result string ModuleReport := if decide (t = "a@1") then Ok (emptyReport "a" "1") else Err "json".
Definition demo_Generate (_ : list fs_call) (n v : string) (_ : Closure) : result string string := Ok (n +:+ " index").
Definition demo_svc (ix : Index) : svc := mkSvc ix emptyAudit [].
Definition demo_opts : BumpOptions := mkBumpOptions "a" "1" "" "api".

(** An index that has b@2 already, with a report of another text. *)
Definition demo_index : Index :=
  default emptyIndex (match WriteReport (λ _, "") (λ _, "") (λ _, "b@2, served since May") "now" (emptyReport "b" "2") emptyIndex with
                      | Ok ix => Some ix | Err _ => None end).

Definition demo_reading (read_targz : list bytes * option string → nat * result string (list (result string Archive.entry)))
    (metadata : result string bytes) (unmarshal : bytes → result string (option (gmap string bytes)))
    (faults : list fault) (d : disk) : option (bump_outcome * svc) * world :=
  Bump demo_rnd demo_root_path (λ _ _ _, Ok (to_bytes demo_sri)) (λ _ _ _, Ok (to_bytes demo_sri)) (λ _ _ _, Ok (to_bytes "module()"))
    (λ _ _, metadata) Mirror.demo_parse (λ _, Ok (demo_data, None)) (Ok "/tmp/r") (λ _, None) (λ _, None) (λ _, None) read_targz
    (λ _, None) (λ _, Err "zip") unmarshal demo_unmarshal_versions demo_marshal_versions demo_marshal_map
    (λ _, "") (λ _, "") demo_json demo_decode "now" (λ _, Ok (emptyReport "b" "2")) (λ _ r, r) demo_Generate (λ _, Ok []) (λ _, true) true
    (λ _ _, Err "no file") (λ _, Ok []) (λ _, None) 5 "https://bcr.bazel.build" 7 12 "root" None (λ _ _ _ _, "{}") ""
    demo_opts (demo_svc demo_index) (mkWorld d faults true).
Definition demo_bump := demo_reading (stops_after 4).
Definition demo_sound (d : disk) : Prop :=
  sound demo_root_path (λ _ _ _, Ok (to_bytes demo_sri)) Mirror.demo_parse (λ _, Ok (demo_data, None)) (stops_after 4)
    "https://bcr.bazel.build" "a" "1" d.


(** The disk is full when the archive's last bytes come, which the readers do not need:
    the bump succeeds, its source.json is served, and the archive stored is another. *)
Definition needs_four (body : list bytes * option string) : nat * result string (list (result string Archive.entry)) :=
  (3, if decide (4 ≤ length (concat body.1)) then Ok [] else Err "unexpected EOF").
Example bump_cut_short :
  let '(out, w) := demo_reading needs_four (Err "404") demo_unmarshal_map (repeat Fine 11 ++ [Fails 2 "no space left on device"]) (mkDisk ∅ ∅) in
  match out with Some (Returns (Ok _), _) => True | _ => False end ∧
  files (w_disk w) !! ["srv"; "mirror"; "modules"; "a"; "1"; "source.json"] = Some (to_bytes demo_sri, true) ∧
  files (w_disk w) !! ["srv"; "mirror"; "blobs"; address (to_bytes "hello")] = None ∧
  files (w_disk w) !! ["srv"; "mirror"; "blobs"; address (to_bytes "hell")] = Some (to_bytes "hell", true).
Proof. vm_compute. split; [exact I|]. split; [reflexivity|]. split; reflexivity. Qed.

(** What was served for b@2 is gone: [FromDir] stores the report under the archive's own
    name before [Bump] stores it under the one that was asked for. *)
Example other_row_overwritten :
  vc_report_json <$> ix_versions demo_index !! ("b", "2") = Some "b@2, served since May" ∧
  match (demo_bump (Err "404") demo_unmarshal_map [] (mkDisk ∅ ∅)).1 with
  | Some (_, s) => vc_report_json <$> ix_versions (sv_index s) !! ("b", "2") = Some "b@2" ∧
                   vc_report_json <$> ix_versions (sv_index s) !! ("a", "1") = Some "a@1"
  | None => False
  end.
Proof. vm_compute. split; [reflexivity|]. split; reflexivity. Qed.

(** A metadata.json that says [null] in the mirror: the panic is recorded as a success. *)
Definition null_map (_ : bytes) : result string (option (gmap string bytes)) := Ok None.
Definition null_disk : disk := mkDisk {[ ["srv"; "mirror"; "modules"; "a"; "metadata.json"] := (to_bytes "null", true) ]} ∅.

Lemma demo_index_wf : index_wf demo_index.
Proof.
  unfold demo_index. destruct (WriteReport _ _ _ _ _ _) as [ix|] eqn:E; [|exact emptyIndex_wf].
  by destruct (write_kept _ _ _ demo_decode _ _ _ _ emptyIndex_wf E) as [[Hw _] _]; apply Hw, emptyIndex_wf.
Qed.


Definition demo_reindex (dry : bool) : option (ReindexResult * Index) :=
  ReindexScip demo_decode demo_Generate (λ _, Ok ["@c//:x.bzl"]) (λ _, true) (λ _ _, Err "no file") (λ _, Ok []) (λ _, None) 5
    (λ _ _, Ok []) [("a", "1"); ("b", "2")] dry
    (default emptyIndex (match WriteReport (λ _, "") (λ _, "") demo_json "now" (emptyReport "a" "1") demo_index with
                         | Ok ix => Some ix | Err _ => None end)).

Lemma reindex_accounts_witness :
  match demo_reindex false, demo_reindex true with
  | Some (res, ix), Some (res', _) => res' = res ∧ rx_Reindexed res = 1 ∧ rx_Skipped res = [("b", "2", "no stored report: decode report: json")] ∧
      is_Some (ix_scip ix !! ("a", "1"))
  | _, _ => False
  end.
Proof.
  set (ix0 := default emptyIndex (match WriteReport (λ _, "") (λ _, "") demo_json "now" (emptyReport "a" "1") demo_index with
                                  | Ok ix => Some ix | Err _ => None end)).
  assert (index_wf ix0) as Hwf.
  { unfold ix0. destruct (WriteReport _ _ _ _ _ _) as [ix|] eqn:E; [|exact emptyIndex_wf].
    apply (write_kept _ _ _ demo_decode _ _ _ _ demo_index_wf E), demo_index_wf. }
  destruct (demo_reindex false) as [[res ix]|] eqn:E; [|revert E; vm_compute; discriminate].
  unfold demo_reindex in E. fold ix0 in E. pose proof E as E'. apply reindex_accounts in E'; [|exact Hwf].
  destruct E' as (_ & _ & _ & _ & Hin & Hdry). unfold demo_reindex. fold ix0. rewrite Hdry by (repeat constructor; done).
  assert (rx_Skipped res = [("b", "2", "no stored report: decode report: json")]) as Hs.
  { revert E. clear. vm_compute. by intros [= <- _]. }
  split; [done|]. split; [revert E; clear; vm_compute; by intros [= <- _]|]. split; [exact Hs|].
  destruct (Hin "a" "1" ltac:(by left)) as [[e He]|He]; [|exact He]. rewrite Hs in He. by apply list_elem_of_singleton in He.
Defined.
