(* ===== verification/Health.v ===== *)
(** * The health of an installation

    [internal/bzlhub/health/health.go]: the state the status page shows, from what the
    cascade, the mirror and the drift index report.  Durations are nanoseconds in 64
    bits; the texts of the timestamps are in UTC, as the server writes them. *)

From stdpp Require Import pretty.
From S2P Require Import Prelude Timestamp.

(** ** The wire's types *)

Record Signal := mkSignal { sg_Kind : string; sg_Level : string; sg_Detail : string }.
Record ComputedStatus := mkComputed { cs_InstantState : string; cs_Signals : list Signal }.

Record UpstreamStatus := mkUpstreamStatus {
  us_URL : string;
  us_Reachable : bool;
  us_LastProbeLatencyMs : Z;
  us_LastProbeError : string;
}.

(** The fields of [api.SystemStatus] that are looked at. *)
Record SystemStatus := mkSystemStatus {
  st_Upstreams : list UpstreamStatus;
  st_LastIngestAt : string;
  st_LastSyncAt : string;
  st_ModulesBehind : Z;
  st_ModulesYankedUpstream : Z;
}.

(** ** Durations *)

Definition Second : Z := 1000000000.
Definition Minute : Z := 60 * Second.
Definition Hour : Z := 60 * Minute.

(** [time.Time.Sub] stops at the ends of the range. *)
Definition time_sub (t u : Z) : Z := (- 2 ^ 63) `max` ((t - u) `min` (2 ^ 63 - 1)).

(** A float64 that is not negative, as its mantissa and exponent: the one nearest to [n / d], ties to even. *)
Definition f64_round (n d : Z) : Z * Z :=
  if (n <=? 0)%Z then (0, 0)%Z
  else
    let scaled e := (if (0 <=? e)%Z then (n, d * 2 ^ e) else (n * 2 ^ (- e), d))%Z in
    let e0 := (Z.log2 n - Z.log2 d - 53)%Z in
    let e := (if 2 ^ 53 <=? (scaled e0).1 / (scaled e0).2 then e0 + 1 else e0)%Z in
    let '(a, b) := scaled e in
    let q := (a / b)%Z in
    let r := (2 * (a mod b))%Z in
    ((if (r <? b) || ((r =? b) && Z.even q) then q else q + 1)%Z, e).

(** The same number as a fraction. *)
Definition f64_frac (f : Z * Z) : Z * Z := if (0 <=? f.2)%Z then (f.1 * 2 ^ f.2, 1)%Z else (f.1, 2 ^ (- f.2))%Z.

(** [d.Seconds()], [d.Minutes()] and [d.Hours()]: the whole units plus the rest. *)
Definition in_units (unit d : Z) : Z * Z :=
  let '(a, b) := f64_frac (f64_round (d mod unit) unit) in
  f64_round (d / unit * b + a) b.

(** The conversion to int. *)
Definition truncated (f : Z * Z) : Z := let '(a, b) := f64_frac f in (a / b)%Z.

(** [HumanDuration]; a negative duration counts as seconds. *)
Definition HumanDuration (d : Z) : string :=
  if (d <? Minute)%Z then pretty (Z.sgn d * truncated (in_units Second (Z.abs d)))%Z +:+ "s"
  else if (d <? Hour)%Z then pretty (truncated (in_units Minute d)) +:+ "m"
  else if (d <? 24 * Hour)%Z then pretty (truncated (in_units Hour d)) +:+ "h"
  else let '(a, b) := f64_frac (in_units Hour d) in pretty (truncated (f64_round a (24 * b))) +:+ "d".

(** ** Thresholds *)

Definition SlowProbeMs : Z := 500.
Definition MirrorStaleAmber : Z := 7 * 24 * Hour.
Definition MirrorStaleRed : Z := 30 * 24 * Hour.
Definition SyncStaleAmber : Z := 1 * Hour.
Definition SyncStaleRed : Z := 6 * Hour.
Definition DriftAmber : Z := 5.
Definition DriftRed : Z := 20.

(** [ageSignal], the [fmtAge] of both callers being "last x %s ago" *)
Definition ageSignal (kind : string) (age amber red : Z) (what : string) : option Signal :=
  let ago := "last " +:+ what +:+ " " +:+ HumanDuration age +:+ " ago" in
  if (red <? age)%Z then Some (mkSignal kind "unhealthy" (ago +:+ " (> " +:+ HumanDuration red +:+ ")"))
  else if (amber <=? age)%Z then Some (mkSignal kind "degraded" (ago +:+ " (>= " +:+ HumanDuration amber +:+ ")"))
  else None.

Definition driftSignal (total : Z) : option Signal :=
  if (DriftRed <? total)%Z then
    Some (mkSignal "drift_count" "unhealthy" (pretty total +:+ " modules drifting (> " +:+ pretty DriftRed +:+ ")"))
  else if (DriftAmber <=? total)%Z then
    Some (mkSignal "drift_count" "degraded" (pretty total +:+ " modules drifting (>= " +:+ pretty DriftAmber +:+ ")"))
  else None.

(** One upstream's turn. *)
Definition upstream_signal (u : UpstreamStatus) : option Signal :=
  if negb (us_Reachable u) then
    Some (mkSignal "upstream_unreachable" "unhealthy"
      (if decide (us_LastProbeError u = "") then us_URL u +:+ " unreachable"
       else us_URL u +:+ " unreachable: " +:+ us_LastProbeError u))
  else if (SlowProbeMs <? us_LastProbeLatencyMs u)%Z then
    Some (mkSignal "upstream_slow" "degraded"
      (us_URL u +:+ " at " +:+ pretty (us_LastProbeLatencyMs u) +:+ "ms (> " +:+ pretty SlowProbeMs +:+ "ms)"))
  else None.

Definition rankString (s : string) : Z :=
  if decide (s = "unhealthy") then 2 else if decide (s = "degraded") then 1 else 0.

(** [levelFromSignals] *)
Definition levelFromSignals (sigs : list Signal) : string :=
  foldl (λ level sg, if (rankString level <? rankString (sg_Level sg))%Z then sg_Level sg else level) "healthy" sigs.

Definition computed (sigs : list Signal) : ComputedStatus := mkComputed (levelFromSignals sigs) sigs.

(** [parseRFC3339] *)
Definition parseRFC3339 (iso : string) : option Z := if decide (iso = "") then None else parse_time iso.

Definition ingest_signal (now : Z) (iso : string) : option Signal :=
  parseRFC3339 iso ≫= λ t, ageSignal "ingest_stale" (time_sub now t) MirrorStaleAmber MirrorStaleRed "ingest".
Definition sync_signal (now : Z) (t : option Z) : option Signal :=
  t ≫= λ t, ageSignal "sync_stale" (time_sub now t) SyncStaleAmber SyncStaleRed "sync".

(** [Derive] *)
Definition Derive (s : SystemStatus) (now : Z) : ComputedStatus :=
  computed (omap upstream_signal (st_Upstreams s) ++
    option_list (ingest_signal now (st_LastIngestAt s)) ++
    option_list (sync_signal now (parseRFC3339 (st_LastSyncAt s))) ++
    option_list (driftSignal (wrap64 (st_ModulesBehind s + st_ModulesYankedUpstream s)))).

(** [DeriveLocal]; [None] is the zero time. *)
Definition DeriveLocal (driftBehind driftYanked : Z) (lastSync : option Z) (now : Z) : ComputedStatus :=
  computed (option_list (sync_signal now lastSync) ++ option_list (driftSignal (wrap64 (driftBehind + driftYanked)))).

(** ** What the state says *)

Definition unhealthy (sg : Signal) : Prop := sg_Level sg = "unhealthy".
Definition signalled (sg : Signal) : Prop := sg_Level sg = "unhealthy" ∨ sg_Level sg = "degraded".

Lemma level_foldl sigs level :
  Forall signalled sigs → level = "healthy" ∨ level = "degraded" ∨ level = "unhealthy" →
  let r := foldl (λ level sg, if (rankString level <? rankString (sg_Level sg))%Z then sg_Level sg else level) level sigs in
  (r = "healthy" ∨ r = "degraded" ∨ r = "unhealthy") ∧
  (r = "unhealthy" ↔ level = "unhealthy" ∨ Exists unhealthy sigs) ∧ (r = "healthy" ↔ level = "healthy" ∧ sigs = []).
Proof.
  revert level. induction sigs as [|sg sigs IH]; intros level Hs Hl; cbn zeta; cbn [foldl].
  { split; [done|]. rewrite Exists_nil. tauto. }
  apply Forall_cons in Hs as [Hsg Hs]. set (level' := if (_ <? _)%Z then _ else _).
  assert ((level' = "healthy" ∨ level' = "degraded" ∨ level' = "unhealthy") ∧
    (level' = "unhealthy" ↔ level = "unhealthy" ∨ unhealthy sg) ∧ level' ≠ "healthy") as (H1 & H2 & H3).
  { unfold level', unhealthy. destruct Hsg as [->| ->], Hl as [->|[->| ->]]; vm_compute; naive_solver. }
  destruct (IH level' Hs H1) as (H4 & H5 & H6). split; [done|]. rewrite H5, H2, H6, Exists_cons. split; [tauto|naive_solver].
Qed.

Lemma level_spec sigs : Forall signalled sigs →
  (levelFromSignals sigs = "healthy" ∨ levelFromSignals sigs = "degraded" ∨ levelFromSignals sigs = "unhealthy") ∧
  (levelFromSignals sigs = "unhealthy" ↔ Exists unhealthy sigs) ∧ (levelFromSignals sigs = "healthy" ↔ sigs = []).
Proof.
  intros Hs. destruct (level_foldl sigs "healthy" Hs) as (H1 & H2 & H3); [by left|]. split; [done|].
  unfold levelFromSignals. rewrite H2, H3. naive_solver.
Qed.

(** A check with its two thresholds: past the second or not yet at the first. *)
Record check (s : option Signal) (bad fine : Prop) : Prop := {
  ck_signalled : ∀ sg, s = Some sg → signalled sg;
  ck_bad : (∃ sg, s = Some sg ∧ unhealthy sg) ↔ bad;
  ck_fine : s = None ↔ fine;
}.

Lemma thresholds (x amber red : Z) kind d1 d2 : (amber ≤ red)%Z →
  check (if (red <? x)%Z then Some (mkSignal kind "unhealthy" d1)
         else if (amber <=? x)%Z then Some (mkSignal kind "degraded" d2) else None) (red < x)%Z (x < amber)%Z.
Proof.
  intros Har. destruct (Z.ltb_spec red x); [|destruct (Z.leb_spec amber x)]; split; unfold signalled, unhealthy;
    try (intros sg [= <-]; by auto); (split; [intros; try lia; naive_solver|intros; try lia; try done; eauto]).
Qed.

Lemma check_option {A} (o : option A) (f : A → option Signal) (bad fine : A → Prop) :
  (∀ x, o = Some x → check (f x) (bad x) (fine x)) → check (o ≫= f) (∃ x, o = Some x ∧ bad x) (∀ x, o = Some x → fine x).
Proof.
  intros H. destruct o as [x|]; simpl.
  - destruct (H x eq_refl) as [H1 H2 H3]. split; [done|rewrite H2; naive_solver|rewrite H3; naive_solver].
  - split; naive_solver.
Qed.

Lemma check_upstream u :
  check (upstream_signal u) (us_Reachable u = false) (us_Reachable u = true ∧ (us_LastProbeLatencyMs u ≤ SlowProbeMs)%Z).
Proof.
  unfold upstream_signal. destruct (us_Reachable u); simpl; [destruct (Z.ltb_spec SlowProbeMs (us_LastProbeLatencyMs u))|];
    split; unfold signalled, unhealthy; try (intros sg [= <-]; by auto);
    (split; [intros; try lia; naive_solver (auto; try lia)|intros; try lia; naive_solver (auto; try lia)]).
Qed.

Definition age_past (now : Z) (o : option Z) (limit : Z) : Prop := ∃ t, o = Some t ∧ (limit < time_sub now t)%Z.
Definition age_below (now : Z) (o : option Z) (limit : Z) : Prop := ∀ t, o = Some t → (time_sub now t < limit)%Z.

Lemma check_ingest now iso :
  check (ingest_signal now iso) (age_past now (parseRFC3339 iso) MirrorStaleRed) (age_below now (parseRFC3339 iso) MirrorStaleAmber).
Proof. apply check_option. intros t _. by apply thresholds. Qed.
Lemma check_sync now o : check (sync_signal now o) (age_past now o SyncStaleRed) (age_below now o SyncStaleAmber).
Proof. apply check_option. intros t _. by apply thresholds. Qed.
Lemma check_drift n : check (driftSignal n) (DriftRed < n)%Z (n < DriftAmber)%Z.
Proof. by apply thresholds. Qed.

(** Signals appended one check after the other. *)
Record checks (sigs : list Signal) (bad fine : Prop) : Prop := {
  cks_signalled : Forall signalled sigs;
  cks_bad : Exists unhealthy sigs ↔ bad;
  cks_fine : sigs = [] ↔ fine;
}.

Lemma checks_option s bad fine : check s bad fine → checks (option_list s) bad fine.
Proof.
  intros [H1 H2 H3]. destruct s as [sg|]; simpl; split.
  - by constructor; [apply H1|].
  - rewrite <-H2, Exists_cons, Exists_nil. naive_solver.
  - by rewrite <-H3.
  - constructor.
  - rewrite <-H2, Exists_nil. naive_solver.
  - by rewrite <-H3.
Qed.

Lemma checks_app l1 l2 b1 b2 f1 f2 : checks l1 b1 f1 → checks l2 b2 f2 → checks (l1 ++ l2) (b1 ∨ b2) (f1 ∧ f2).
Proof.
  intros [S1 B1 F1] [S2 B2 F2]. split; [by apply Forall_app|by rewrite Exists_app, B1, B2|].
  rewrite <-F1, <-F2. by destruct l1, l2; naive_solver.
Qed.

Lemma checks_upstreams us : checks (omap upstream_signal us) (Exists (λ u, us_Reachable u = false) us)
  (Forall (λ u, us_Reachable u = true ∧ (us_LastProbeLatencyMs u ≤ SlowProbeMs)%Z) us).
Proof.
  induction us as [|u us IH]; [split; [constructor|by rewrite !Exists_nil|done]|].
  pose proof (checks_app _ _ _ _ _ _ (checks_option _ _ _ (check_upstream u)) IH) as H.
  assert (omap upstream_signal (u :: us) = option_list (upstream_signal u) ++ omap upstream_signal us) as ->
    by (simpl; by destruct (upstream_signal u)).
  destruct H as [H1 H2 H3]. split; [done|by rewrite H2, Exists_cons|by rewrite H3, Forall_cons].
Qed.

Lemma computed_spec sigs bad fine : checks sigs bad fine →
  let st := cs_InstantState (computed sigs) in
  (st = "unhealthy" ↔ bad) ∧ (st = "healthy" ↔ fine) ∧ (st = "degraded" ↔ ¬ bad ∧ ¬ fine).
Proof.
  intros [Hs Hb Hf]. cbn zeta. simpl. destruct (level_spec sigs Hs) as (H1 & H2 & H3). rewrite Hb in H2. rewrite Hf in H3.
  split; [done|]. split; [done|]. rewrite <-H2, <-H3. split; [intros ->; by split|]. intros [? ?]. by destruct H1 as [?|[?|?]].
Qed.

(** C37: The state is the worst of the signals: unhealthy exactly when an upstream is
    unreachable, the last ingest is more than thirty days or the last sync more than six
    hours ago, or more than twenty modules drift; healthy exactly when every upstream
    answers within half a second, no age has reached a week or an hour, and fewer than five
    modules drift, which is when there is no signal; and degraded between the two. *)
Theorem derive_worst s now :
  let c := Derive s now in
  let ingest := parseRFC3339 (st_LastIngestAt s) in
  let sync := parseRFC3339 (st_LastSyncAt s) in
  let drifting := wrap64 (st_ModulesBehind s + st_ModulesYankedUpstream s) in
  let bad := Exists (λ u, us_Reachable u = false) (st_Upstreams s) ∨ age_past now ingest MirrorStaleRed ∨
    age_past now sync SyncStaleRed ∨ (DriftRed < drifting)%Z in
  let fine := Forall (λ u, us_Reachable u = true ∧ (us_LastProbeLatencyMs u ≤ SlowProbeMs)%Z) (st_Upstreams s) ∧
    age_below now ingest MirrorStaleAmber ∧ age_below now sync SyncStaleAmber ∧ (drifting < DriftAmber)%Z in
  (cs_InstantState c = "unhealthy" ↔ bad) ∧ (cs_InstantState c = "healthy" ↔ fine) ∧
  (cs_InstantState c = "degraded" ↔ ¬ bad ∧ ¬ fine) ∧ (cs_Signals c = [] ↔ fine) ∧
  cs_Signals (DeriveLocal (st_ModulesBehind s) (st_ModulesYankedUpstream s) sync now) ⊆ cs_Signals c.
Proof.
  cbn zeta.
  pose proof (checks_app _ _ _ _ _ _ (checks_upstreams (st_Upstreams s))
    (checks_app _ _ _ _ _ _ (checks_option _ _ _ (check_ingest now (st_LastIngestAt s)))
      (checks_app _ _ _ _ _ _ (checks_option _ _ _ (check_sync now (parseRFC3339 (st_LastSyncAt s))))
        (checks_option _ _ _ (check_drift (wrap64 (st_ModulesBehind s + st_ModulesYankedUpstream s))))))) as Hc.
  destruct (computed_spec _ _ _ Hc) as (H1 & H2 & H3). split; [exact H1|]. split; [exact H2|]. split; [exact H3|].
  split; [by destruct Hc|]. unfold Derive, DeriveLocal. cbn [computed cs_Signals].
  intros sg Hsg. apply elem_of_app. right. apply elem_of_app. by right.
Qed.

(** The conversions are those of float64: one nanosecond before the two hundredth day is
    the two hundredth day, as the hours have no room for the fraction. *)
Example days_round_up :
  HumanDuration (24 * Hour - 1) = "23h" ∧ HumanDuration (200 * 24 * Hour - 1000000) = "199d" ∧
  HumanDuration (200 * 24 * Hour - 1) = "200d" ∧ HumanDuration (- 5500000000) = "-5s".
Proof. vm_compute. split_and!; reflexivity. Qed.
