(* ===== verification/Sync.v ===== *)
(** * Following the upstream registry

    [SyncRun], [SyncRunLoop], [SyncBootstrap], [SyncHistory] and [MirrorStatus]
    (internal/bzlhub/sync_run.go, sync_run_loop.go, sync_bootstrap.go, sync_history.go,
    sync_audit.go, status.go), with [RefreshDriftSummary] (drift_refresh.go) run on the rows
    the query delivers.  The git mirror is a parameter: what it holds of each module, and
    what a pull of it answers. *)

From stdpp Require Import fin_sets.
From S2P Require Import Prelude Timestamp AuditTrail Drift Health Index Bump.

(** ** Options, receipts and the audit payload *)

Record SyncReceipt := mkSyncReceipt {
  sr_FromSHA : string; sr_ToSHA : string; sr_Commits : Z; sr_Bytes : Z; sr_Duration : Z; sr_UpToDate : bool;
}.
Definition zeroReceipt : SyncReceipt := mkSyncReceipt "" "" 0 0 0 false.

Record SyncRunOptions := mkSyncRunOptions { so_Force : bool; so_SkipRefresh : bool }.

Record SyncRunReceipt := mkSyncRunReceipt {
  rr_FromSHA : string; rr_ToSHA : string; rr_Commits : Z; rr_Bytes : Z; rr_Duration : Z; rr_UpToDate : bool;
  rr_DriftRowsRewritten : Z;
}.
Definition zeroRunReceipt : SyncRunReceipt := mkSyncRunReceipt "" "" 0 0 0 false 0.

Inductive sync_error : Type := ErrCanceled | SyncFailed (msg : string).
#[export] Instance sync_error_eq_dec : EqDecision sync_error.
Proof. solve_decision. Defined.

Record syncAuditPayload := mkSyncAuditPayload {
  sp_Remote : string; sp_MirrorPath : string; sp_Branch : string; sp_Reinit : bool;
  sp_FromSHA : string; sp_ToSHA : string; sp_Commits : Z; sp_Bytes : Z; sp_UpToDate : bool;
  sp_DriftRowsRewritten : Z; sp_DriftRefreshError : string;
}.

Record SyncHistoryEntry := mkSyncHistoryEntry {
  se_Timestamp : option Z; se_Kind : string; se_OK : bool; se_DurationMs : Z; se_Error : string;
  se_FromSHA : string; se_ToSHA : string; se_Commits : Z; se_Bytes : Z; se_UpToDate : bool; se_Reinit : bool;
  se_Remote : string; se_MirrorPath : string; se_DriftRefreshError : string;
}.

Definition syncHistoryKinds : list string :=
  ["sync_bootstrap_success"; "sync_bootstrap_failure"; "sync_run_success"; "sync_run_uptodate"; "sync_run_failure"].

(** ** The service *)

Section sync.
(** The mirror: its modules' metadata at HEAD, the commit, and the time of its last sync. *)
Context {Mirror : Type} (content : Mirror → string → option MetadataJSON) (SnapshotSHA : Mirror → string) (LastSync : Mirror → Z).
Context (marshal : DriftSummary → string) (unmarshal_status : string → option string).
Context (marshal_payload : syncAuditPayload → string) (unmarshal_payload : string → option syncAuditPayload).
Context (user : string).

Record SyncState := mkSyncState {
  sy_mirror : Mirror;
  sy_drift : list driftRow;
  sy_audit : AuditDb;
  sy_bus : list AuditEvent;
}.

(** The world around one call: the clock and how long the call takes, the answer of the
    pull, which lookups, rows and statements fail, and whether the context is cancelled
    before the pull returns. *)
Record moment := mkMoment {
  mo_now : Z;
  mo_millis : Z;
  mo_cancelled : bool;
  mo_sync : bool → Mirror → SyncReceipt * option sync_error * Mirror;
  mo_lookup : string → option string;
  mo_iter : option (nat * string);
  mo_exec : string → string → option string;
  mo_audit : option string;
}.

(** ** [RefreshDriftSummary] *)

Definition MetadataAt (mo : moment) (m : Mirror) (_ : nat) (name : string) : result MirrorError MetadataJSON :=
  match mo_lookup mo name with
  | Some e => Err (ErrMirror e)
  | None => match content m name with Some md => Ok md | None => Err ErrModuleNotFound end
  end.

(** The rows the query delivers before it fails, if it does. *)
Definition delivered_rows (mo : moment) (table : list driftRow) : list driftRow :=
  match mo_iter mo with None => table | Some (n, _) => take n table end.

Definition refresh (mo : moment) (m : Mirror) (table : list driftRow) : Z * option string * list driftRow :=
  let s := foldl (pass_row (MetadataAt mo m) marshal (mo_exec mo) (mo_now mo) (SnapshotSHA m) (LastSync m) (λ _, false))
             (mkPass (mkUpstreamCache ∅ 0) table 0) (delivered_rows mo table) in
  (ps_written s, snd <$> mo_iter mo, ps_table s).

(** ** [SyncRun] *)

(** [emitSyncAudit] *)
Definition emitSyncAudit (mo : moment) (kind : string) (opErr : option string) (payload : syncAuditPayload) (st : SyncState) : SyncState :=
  let ev := stamped user (mkAuditEvent 0 None kind "cli" "" "" (negb (bool_decide (is_Some opErr))) (mo_millis mo)
              (default "" opErr) (marshal_payload payload) "") in
  mkSyncState (sy_mirror st) (sy_drift st) (RecordAudit (mo_audit mo) (mo_now mo) ev (sy_audit st)).2 (sy_bus st ++ [ev]).

Definition error_text (e : sync_error) : string := match e with ErrCanceled => "context canceled" | SyncFailed msg => msg end.

(** [recordSyncRunAudit] *)
Definition recordSyncRunAudit (mo : moment) (kind : string) (sr : SyncReceipt) (driftRows : Z) (opErr refreshErr : option string)
    (st : SyncState) : SyncState :=
  emitSyncAudit mo kind opErr
    (mkSyncAuditPayload "" "" "" false (sr_FromSHA sr) (sr_ToSHA sr) (sr_Commits sr) (sr_Bytes sr) (sr_UpToDate sr)
       driftRows (default "" refreshErr)) st.

Definition set_mirror (m : Mirror) (st : SyncState) : SyncState := mkSyncState m (sy_drift st) (sy_audit st) (sy_bus st).
Definition set_drift (t : list driftRow) (st : SyncState) : SyncState := mkSyncState (sy_mirror st) t (sy_audit st) (sy_bus st).

Definition run_receipt (sr : SyncReceipt) (written : Z) : SyncRunReceipt :=
  mkSyncRunReceipt (sr_FromSHA sr) (sr_ToSHA sr) (sr_Commits sr) (sr_Bytes sr) (sr_Duration sr) (sr_UpToDate sr) written.

(** [SyncRun], with a mirror *)
Definition SyncRun (opts : SyncRunOptions) (mo : moment) (st : SyncState) : SyncRunReceipt * option sync_error * SyncState :=
  let '(sr, err, m) := mo_sync mo (so_Force opts) (sy_mirror st) in
  let st := set_mirror m st in
  match err with
  | Some e =>
      if bool_decide (e = ErrCanceled) || mo_cancelled mo then (zeroRunReceipt, Some ErrCanceled, st)
      else (zeroRunReceipt, Some (SyncFailed ("bzlhub.SyncRun: " +:+ error_text e)),
            recordSyncRunAudit mo "sync_run_failure" sr 0 (Some (error_text e)) None st)
  | None =>
      if sr_UpToDate sr then (run_receipt sr 0, None, recordSyncRunAudit mo "sync_run_uptodate" sr 0 None None st)
      else
        let '(written, refreshErr, t) := if so_SkipRefresh opts then (0%Z, None, sy_drift st) else refresh mo m (sy_drift st) in
        (run_receipt sr written, None, recordSyncRunAudit mo "sync_run_success" sr written None refreshErr (set_drift t st))
  end.

(** ** The loop *)

(** [runOnce]: the call of the callback, if there is one. *)
Definition runOnce (opts : SyncRunOptions) (mo : moment) (st : SyncState) : list (SyncRunReceipt * option sync_error) * SyncState :=
  let '(rec, err, st) := SyncRun opts mo st in
  (if bool_decide (err = Some ErrCanceled) || mo_cancelled mo then [] else [(rec, err)], st).

Fixpoint run_moments (opts : SyncRunOptions) (mos : list moment) (st : SyncState)
    : list (SyncRunReceipt * option sync_error) * SyncState :=
  match mos with
  | [] => ([], st)
  | mo :: mos => let '(c, st) := runOnce opts mo st in let '(cs, st) := run_moments opts mos st in (c ++ cs, st)
  end.

(** [SyncRunLoop] until its context is done, which the caller is told: the run on entry and
    those of the ticks. *)
Definition SyncRunLoop (opts : SyncRunOptions) (interval : Z) (first : moment) (ticks : list moment) (st : SyncState)
    : string * list (SyncRunReceipt * option sync_error) * SyncState :=
  if (interval <=? 0)%Z then ("bzlhub.SyncRunLoop: interval must be > 0", [], st)
  else let '(cs, st) := run_moments opts (first :: ticks) st in ("context canceled", cs, st).

(** ** [SyncBootstrap] *)

Record SyncBootstrapOptions := mkSyncBootstrapOptions {
  bs_Remote : string; bs_MirrorPath : string; bs_Branch : string; bs_Reinit : bool;
}.

(** What the wipe and the clone answer. *)
Inductive clone_answer : Type := Cloned (sha : string) (bytes : Z) | ErrAlreadyCloned (sha : string) | CloneFailed (msg : string).

Inductive bootstrap_error : Type :=
| BadOptions (msg : string)
| ErrAlreadyBootstrapped (sha : string)
| BootstrapFailed (msg : string).

(** The receipt without its duration. *)
Definition SyncBootstrap (opts : SyncBootstrapOptions) (wipe : option string) (clone : clone_answer) (mo : moment) (st : SyncState)
    : string * Z * option bootstrap_error * SyncState :=
  let record kind sha opErr st :=
    emitSyncAudit mo kind opErr (mkSyncAuditPayload (bs_Remote opts) (bs_MirrorPath opts) (bs_Branch opts) (bs_Reinit opts)
                                   "" sha 0 0 false 0 "") st in
  if decide (bs_Remote opts = "") then ("", 0%Z, Some (BadOptions "bzlhub.SyncBootstrap: empty Remote"), st)
  else if decide (bs_MirrorPath opts = "") then ("", 0%Z, Some (BadOptions "bzlhub.SyncBootstrap: empty MirrorPath"), st)
  else match (if bs_Reinit opts then wipe else None) with
       | Some e => ("", 0%Z, Some (BootstrapFailed ("bzlhub.SyncBootstrap: reinit wipe " +:+ bs_MirrorPath opts +:+ ": " +:+ e)), st)
       | None =>
           match clone with
           | ErrAlreadyCloned sha => (sha, 0%Z, Some (ErrAlreadyBootstrapped sha), st)
           | CloneFailed e => ("", 0%Z, Some (BootstrapFailed ("bzlhub.SyncBootstrap: clone " +:+ bs_Remote opts +:+ ": " +:+ e)),
                               record "sync_bootstrap_failure" "" (Some e) st)
           | Cloned sha bytes => (sha, bytes, None, record "sync_bootstrap_success" sha None st)
           end
       end.

(** ** [SyncHistory] *)

Definition emptyPayload : syncAuditPayload := mkSyncAuditPayload "" "" "" false "" "" 0 0 false 0 "".

Definition history_entry (ev : AuditEvent) : SyncHistoryEntry :=
  let p := if decide (ev_Payload ev = "") then emptyPayload else default emptyPayload (unmarshal_payload (ev_Payload ev)) in
  mkSyncHistoryEntry (ev_Timestamp ev) (ev_Kind ev) (ev_OK ev) (ev_DurationMs ev) (ev_Error ev)
    (sp_FromSHA p) (sp_ToSHA p) (sp_Commits p) (sp_Bytes p) (sp_UpToDate p) (sp_Reinit p) (sp_Remote p) (sp_MirrorPath p)
    (sp_DriftRefreshError p).

Definition SyncHistory (fault : option string) (limit : Z) (since : option Z) (db : AuditDb) : result string (list SyncHistoryEntry) :=
  match ListAudit fault (mkAuditQuery syncHistoryKinds "" "" since limit) db with
  | Err e => Err e
  | Ok events => Ok (history_entry <$> events)
  end.

(** ** [MirrorStatus] *)

Record MirrorStatusReport := mkMirrorStatusReport {
  ms_IndexedModules : nat;
  ms_IndexedVersions : nat;
  ms_DriftByStatus : gmap string Z;
  ms_PendingCompute : nat;
  ms_MirrorHEAD : string;
  ms_LastSync : Z;
  ms_Computed : ComputedStatus;
}.

(** One row's turn; the count of a status is read back as zero when it is not there. *)
Definition status_row (acc : gmap string Z * nat) (r : driftRow) : gmap string Z * nat :=
  match unmarshal_status (rw_DriftRaw r) with
  | None => acc
  | Some s => if decide (s = "" ∨ s = "unknown") then (acc.1, S acc.2)
              else (<[s := (default 0 (acc.1 !! s) + 1)%Z]> acc.1, acc.2)
  end.

Definition status_counts (table : list driftRow) : gmap string Z * nat := foldl status_row (∅, O) table.

(** The zero [time.Time]: the first instant of year 1. *)
Definition zero_time : Z := - 62135596800 * 1000000000.

Definition MirrorStatus (now : Z) (st : SyncState) : MirrorStatusReport :=
  let '(by_status, pending) := status_counts (sy_drift st) in
  let count s := default 0%Z (by_status !! s) in
  mkMirrorStatusReport (size (list_to_set (rw_Module <$> sy_drift st) : gset string)) (length (sy_drift st)) by_status pending
    (SnapshotSHA (sy_mirror st)) (LastSync (sy_mirror st))
    (DeriveLocal (count "behind") (count "yanked-upstream") (if decide (LastSync (sy_mirror st) = zero_time) then None else Some (LastSync (sy_mirror st))) now).
End sync.

(** ** What a run leaves in the index *)

Section drift_proofs.
Context {Mirror : Type} (content : Mirror → string → option MetadataJSON) (SnapshotSHA : Mirror → string) (LastSync : Mirror → Z).
Context (marshal : DriftSummary → string) (unmarshal_status : string → option string).
Context (marshal_payload : syncAuditPayload → string) (user : string).
Context (Hcodec : codec_ok marshal unmarshal_status).
Abbreviation refresh := (refresh content SnapshotSHA LastSync marshal).
Abbreviation SyncRun := (SyncRun content SnapshotSHA LastSync marshal marshal_payload user).
Abbreviation run_moments := (run_moments content SnapshotSHA LastSync marshal marshal_payload user).

(** The verdict on a row, against what the mirror holds. *)
Definition verdict_of (m : Mirror) (r : driftRow) : VersionDrift := ComputeForVersion (rw_Version r) (content m (rw_Module r)).

(** A row whose stored summary is that verdict. *)
Definition current (m : Mirror) (r : driftRow) : Prop :=
  ∃ now sha synced, rw_DriftRaw r = marshal (driftSummaryFromVerdict (verdict_of m r) now sha synced).

Lemma current_content m m' r : (∀ n, content m' n = content m n) → current m r → current m' r.
Proof. intros H (now & sha & synced & E). exists now, sha, synced. rewrite E. unfold verdict_of. by rewrite H. Qed.

(** Why a refresh may leave a row as it was. *)
Definition passed_over (mo : moment (Mirror := Mirror)) (i : nat) (r : driftRow) : Prop :=
  is_Some (mo_lookup mo (rw_Module r)) ∨ ¬ writable (mo_exec mo) r ∨ ∃ n e, mo_iter mo = Some (n, e) ∧ n ≤ i.

Lemma row_refreshed mo m a (r : driftRow) i :
  a !! rw_Module r = Some (MetadataAt content mo m 0 (rw_Module r)) →
  let r' := row_after marshal (mo_exec mo) (mo_now mo) (SnapshotSHA m) (LastSync m) (λ _, false) a r in
  current m r' ∨ r' = r ∧ passed_over mo i r.
Proof.
  intros Ha. cbn zeta. unfold row_after, rewritten, judged. rewrite Ha. unfold MetadataAt.
  destruct (mo_lookup mo (rw_Module r)) as [e|] eqn:El; [right; split; [done|left; by eexists]|].
  assert (∀ up, up = content m (rw_Module r) →
    let sm := driftSummaryFromVerdict (ComputeForVersion (rw_Version r) up) (mo_now mo) (SnapshotSHA m) (LastSync m) in
    let r' := if negb false && bool_decide (is_Some (Some sm) ∧ writable (mo_exec mo) r)
              then mkDriftRow (rw_Module r) (rw_Version r) (if decide (marshal sm = "") then "{}" else marshal sm) else r in
    current m r' ∨ r' = r ∧ passed_over mo i r) as H.
  { intros up ->. cbn zeta. case_bool_decide as Hw; simpl.
    - left. destruct (Hcodec (driftSummaryFromVerdict (ComputeForVersion (rw_Version r) (content m (rw_Module r)))
        (mo_now mo) (SnapshotSHA m) (LastSync m))) as (Hne & _ & _). rewrite decide_False by done. by eexists _, _, _.
    - right. split; [done|]. right. left. intros Hwr. apply Hw. by split. }
  destruct (content m (rw_Module r)) as [md|]; by apply H.
Qed.

Lemma refresh_rows mo m table : NoDup (row_key <$> table) →
  let t := (refresh mo m table).2 in
  row_key <$> t = row_key <$> table ∧
  ∀ i r', t !! i = Some r' → current m r' ∨ table !! i = Some r' ∧ passed_over mo i r'.
Proof.
  intros Hnd. cbn zeta. unfold Sync.refresh. cbn [snd].
  assert (∃ post, table = delivered_rows mo table ++ post ∧
    (post = [] ∨ ∃ n e, mo_iter mo = Some (n, e) ∧ n ≤ length (delivered_rows mo table))) as (post & Et & Hpost).
  { unfold delivered_rows. destruct (mo_iter mo) as [[n e]|]; [|exists []; rewrite app_nil_r; auto].
    exists (drop n table). rewrite take_drop. split; [done|]. destruct (decide (n ≤ length table)) as [Hn|Hn].
    - right. exists n, e. rewrite length_take. split; [done|lia].
    - left. apply drop_ge. lia. }
  set (pre := delivered_rows mo table) in *. clearbody pre. rewrite Et in Hnd. rewrite Et.
  pose proof (run_prefix_inv (MetadataAt content mo m) marshal (mo_exec mo) (mo_now mo) (SnapshotSHA m) (LastSync m)
    (λ _, false) pre post Hnd) as (Hcache & Hts & _ & Hans).
  set (s := foldl _ _ pre) in *. rewrite Hts. split.
  { rewrite !fmap_app. f_equal. rewrite <-list_fmap_compose. apply list_fmap_ext. intros; apply row_after_key. }
  intros i r' [Hi|[Hlen Hi]]%lookup_app_Some.
  - rewrite list_lookup_fmap in Hi. destruct (pre !! i) as [r|] eqn:Er; [|done]. simpl in Hi. injection Hi as <-.
    rewrite Forall_forall in Hans. destruct (Hans r (list_elem_of_lookup_2 _ _ _ Er)) as [?|[x Hx]]; [done|].
    destruct (proj2 Hcache _ _ Hx) as (n & _ & ->).
    destruct (row_refreshed mo m (uc_hits (ps_cache s)) r i Hx) as [?|[E ?]]; [by left|right]. rewrite E.
    split; [by apply lookup_app_l_Some|done].
  - right. rewrite length_fmap in Hlen, Hi. split; [by rewrite lookup_app_r|].
    right. right. destruct Hpost as [->|(n & e & E & Hn)]; [done|]. exists n, e. split; [done|lia].
Qed.

(** The mirror's own promise: a pull that finds nothing new leaves its content. *)
Definition pulls_ok (mo : moment (Mirror := Mirror)) : Prop :=
  ∀ force m, let '(sr, err, m') := mo_sync mo force m in
  err = None → sr_UpToDate sr = true → ∀ n, content m' n = content m n.

(** A call around which nothing fails half-way: a pull with an error left HEAD where it
    was, and the refresh reads and writes what it asks for. *)
Record calm (mo : moment (Mirror := Mirror)) : Prop := {
  calm_pull : ∀ force m, let '(_, err, m') := mo_sync mo force m in is_Some err → ∀ n, content m' n = content m n;
  calm_lookup : ∀ n, mo_lookup mo n = None;
  calm_iter : mo_iter mo = None;
  calm_exec : ∀ n v, mo_exec mo n v = None;
}.

(** One run: a row is current afterwards, or as it was, and then the run had nothing new,
    failed, was told to skip the refresh, or passed the row over. *)
Lemma SyncRun_rows opts mo st : NoDup (row_key <$> sy_drift st) → pulls_ok mo →
  let '(rec, err, st') := SyncRun opts mo st in
  row_key <$> sy_drift st' = row_key <$> sy_drift st ∧
  ∀ i r, sy_drift st' !! i = Some r →
    current (sy_mirror st') r ∨
    sy_drift st !! i = Some r ∧ ((∀ n, content (sy_mirror st') n = content (sy_mirror st) n) ∨ is_Some err ∨
      so_SkipRefresh opts = true ∨ passed_over mo i r).
Proof.
  intros Hnd Hpull. unfold Sync.SyncRun. specialize (Hpull (so_Force opts) (sy_mirror st)).
  destruct (mo_sync mo (so_Force opts) (sy_mirror st)) as [[sr err] m]. destruct err as [e|].
  { destruct (_ || _); (split; [done|]); intros i r Hr; right; (split; [exact Hr|]); right; left; by eexists. }
  destruct (sr_UpToDate sr) eqn:Hup.
  { split; [done|]. intros i r Hr. right. split; [exact Hr|]. left. intros n. by apply Hpull. }
  destruct (so_SkipRefresh opts).
  { split; [done|]. intros i r Hr. right. split; [exact Hr|]. auto. }
  pose proof (refresh_rows mo m (sy_drift st) Hnd) as Hrows. cbn [sy_drift set_mirror].
  destruct (refresh mo m (sy_drift st)) as [[written refreshErr] t]. cbn zeta in Hrows. destruct Hrows as [Hk Hr].
  split; [exact Hk|]. intros i r Hi. destruct (Hr i r Hi) as [?|[? ?]]; [by left|right]. auto.
Qed.

Lemma SyncRun_current opts mo st : NoDup (row_key <$> sy_drift st) → pulls_ok mo → calm mo → so_SkipRefresh opts = false →
  Forall (λ r, rw_Module r ≠ "" ∧ rw_Version r ≠ "") (sy_drift st) → Forall (current (sy_mirror st)) (sy_drift st) →
  let st' := (SyncRun opts mo st).2 in
  row_key <$> sy_drift st' = row_key <$> sy_drift st ∧ Forall (current (sy_mirror st')) (sy_drift st').
Proof.
  intros Hnd Hpull Hcalm Hskip Hne Hcur. cbn zeta. pose proof (SyncRun_rows opts mo st Hnd Hpull) as H.
  pose proof (calm_pull _ Hcalm (so_Force opts) (sy_mirror st)) as Herr.
  assert (∀ rec e st', SyncRun opts mo st = (rec, Some e, st') → ∀ n, content (sy_mirror st') n = content (sy_mirror st) n) as Hsame.
  { intros rec e st'. unfold Sync.SyncRun. destruct (mo_sync mo (so_Force opts) (sy_mirror st)) as [[sr err] m].
    destruct err as [e'|].
    - destruct (_ || _); intros [= _ _ <-]; simpl; apply Herr; by eexists.
    - destruct (sr_UpToDate sr); [done|]. destruct (if so_SkipRefresh opts then _ else _) as [[??]?]. done. }
  destruct (SyncRun opts mo st) as [[rec err] st']. destruct H as [Hk Hr]. split; [done|]. cbn [snd].
  apply Forall_forall. intros r [i Hi]%list_elem_of_lookup_1. destruct (Hr i r Hi) as [?|[Hold Hwhy]]; [done|].
  pose proof (proj1 (Forall_lookup _ _) Hcur i r Hold) as Hc. destruct Hwhy as [Hs|[[e ->]|[Hs|Hp]]].
  - by eapply current_content.
  - eapply current_content; [|exact Hc]. by eapply Hsame.
  - congruence.
  - exfalso. destruct Hp as [[e He]|[Hw|(n & e & He & _)]].
    + by rewrite (calm_lookup _ Hcalm) in He.
    + apply Hw. destruct (proj1 (Forall_lookup _ _) Hne i r Hold). split_and!; [done..|]. by apply Hcalm.
    + by rewrite (calm_iter _ Hcalm) in He.
Qed.

(** The rows with a verdict, counted. *)
Definition with_verdict (m : Mirror) (s : Status) (t : list driftRow) : Z :=
  Z.of_nat (length (filter (λ r, vd_Status (verdict_of m r) = s) t)).

Lemma status_text_inj s s' : status_text s = status_text s' → s = s'.
Proof. by destruct s, s'. Qed.
Lemma status_text_known s : ¬ (status_text s = "" ∨ status_text s = "unknown").
Proof. by destruct s; intros [|]. Qed.

Lemma status_counts_current m t : Forall (current m) t →
  (status_counts unmarshal_status t).2 = O ∧
  ∀ s, default 0%Z ((status_counts unmarshal_status t).1 !! status_text s) = with_verdict m s t.
Proof.
  intros Hc. unfold status_counts, with_verdict. induction t as [|r t IH] using rev_ind.
  { split; [done|]. intros s. cbn [foldl fst]. by rewrite lookup_empty. }
  apply Forall_app in Hc as [Hc [Hr _]%Forall_cons]. destruct (IH Hc) as [H1 H2]. rewrite foldl_app.
  set (acc := foldl _ _ t) in *. cbn [foldl]. unfold status_row. destruct Hr as (now & sha & synced & E).
  destruct (Hcodec (driftSummaryFromVerdict (verdict_of m r) now sha synced)) as (_ & _ & Hs). rewrite E, Hs. cbn [ds_Status driftSummaryFromVerdict].
  rewrite decide_False by apply status_text_known. cbn [fst snd]. split; [done|]. intros s.
  rewrite filter_app, length_app, Nat2Z.inj_add, <-H2, filter_cons. destruct (decide (vd_Status (verdict_of m r) = s)) as [<-|Hne].
  - rewrite lookup_insert_eq. simpl. lia.
  - rewrite lookup_insert_ne; [simpl; lia|]. by intros ?%status_text_inj.
Qed.

(** A loop of runs with refreshes keeps the index true to the mirror: while no lookup, row
    or write of a refresh fails and a failed pull leaves HEAD where it was, every row
    holds, after any pulls, successful, failing or cancelled, the verdict on its version
    against what the mirror holds now, and the status then counts the rows by that verdict,
    with nothing pending. *)
Theorem loop_keeps_current opts mos st now :
  so_SkipRefresh opts = false → Forall pulls_ok mos → Forall calm mos →
  NoDup (row_key <$> sy_drift st) → Forall (λ r, rw_Module r ≠ "" ∧ rw_Version r ≠ "") (sy_drift st) →
  Forall (current (sy_mirror st)) (sy_drift st) →
  let st' := (run_moments opts mos st).2 in
  let m := sy_mirror st' in
  let rep := MirrorStatus SnapshotSHA LastSync unmarshal_status now st' in
  row_key <$> sy_drift st' = row_key <$> sy_drift st ∧ Forall (current m) (sy_drift st') ∧
  ms_PendingCompute rep = O ∧ (∀ s, default 0%Z (ms_DriftByStatus rep !! status_text s) = with_verdict m s (sy_drift st')) ∧
  ms_Computed rep = DeriveLocal (with_verdict m Behind (sy_drift st')) (with_verdict m YankedUpstream (sy_drift st'))
    (if decide (LastSync m = zero_time) then None else Some (LastSync m)) now.
Proof.
  intros Hskip Hpull Hcalm Hnd Hne Hcur. cbn zeta.
  assert (row_key <$> sy_drift (run_moments opts mos st).2 = row_key <$> sy_drift st ∧
    Forall (current (sy_mirror (run_moments opts mos st).2)) (sy_drift (run_moments opts mos st).2)) as [Hk Hc].
  { revert st Hnd Hne Hcur. induction mos as [|mo mos IH]; intros st Hnd Hne Hcur; [done|].
    apply Forall_cons in Hpull as [Hp1 Hp2]. apply Forall_cons in Hcalm as [Hc1 Hc2]. cbn [Sync.run_moments]. unfold runOnce.
    pose proof (SyncRun_current opts mo st Hnd Hp1 Hc1 Hskip Hne Hcur) as [Hk Hc].
    destruct (SyncRun opts mo st) as [[rec err] st1]. cbn [snd] in *.
    destruct (IH Hp2 Hc2 st1) as [Hk' Hc']; [by rewrite Hk| |done|].
    - clear -Hk Hne. assert (Forall (λ k : string * string, k.1 ≠ "" ∧ k.2 ≠ "") (row_key <$> sy_drift st1)) as H
        by (rewrite Hk; by apply Forall_fmap).
      by apply Forall_fmap in H.
    - destruct (run_moments opts mos st1) as [cs st2]. cbn [snd] in *. split; [by rewrite Hk'|done]. }
  split; [done|]. split; [done|]. set (st' := (run_moments opts mos st).2) in *.
  destruct (status_counts_current _ _ Hc) as [H1 H2]. unfold MirrorStatus.
  destruct (status_counts unmarshal_status (sy_drift st')) as [by_status pending]. cbn [fst snd] in *.
  split; [done|]. split; [done|]. cbn [ms_Computed].
  pose proof (H2 Behind) as E1. pose proof (H2 YankedUpstream) as E2. cbn [status_text] in E1, E2. by rewrite E1, E2.
Qed.
End drift_proofs.

(** ** The history *)

(** An event recorded at an instant none of the earlier ones is past heads the listing. *)
Lemma latest_listed kinds now ev db :
  audit_ok db → time_ok now → ev_Timestamp ev = None → (∀ id r, au_rows db !! id = Some r → (event_time r ≤ now)%Z) →
  ev_Kind ev ∈ kinds →
  ListAudit None (mkAuditQuery kinds "" "" None 1) (RecordAudit None now ev db).2 =
  Ok [scanAuditRow (au_last_id db + 1, auditRow now ev)%Z].
Proof.
  intros (Hid & Hids & Hrows) Hnow Hts Hold Hk. simpl. set (id := (au_last_id db + 1)%Z). set (row := auditRow now ev).
  set (q := mkAuditQuery kinds "" "" None 1). set (rows := <[id := row]> (au_rows db)).
  pose proof (length_page later (audit_matches q) (audit_limit 1) (map_to_list rows)) as Hlen.
  pose proof (λ x, page_rest later (audit_matches q) (audit_limit 1) x (id, row) (map_to_list rows)) as Hrest.
  pose proof (λ x, page_sound later (audit_matches q) (audit_limit 1) x (map_to_list rows)) as Hsound.
  set (sel := page later _ _ _) in *. clearbody sel. change (audit_limit 1) with 1 in Hlen.
  assert ((id, row) ∈ map_to_list rows) as Hin by (apply elem_of_map_to_list, lookup_insert_eq).
  assert (audit_matches q (id, row) = true) as Hm.
  { unfold audit_matches. simpl. rewrite (bool_decide_true (_ ∈ _)) by done. by rewrite orb_true_r. }
  assert (0 < length (filter (λ x, audit_matches q x = true) (map_to_list rows))) as Hpos.
  { destruct (filter _ _) eqn:E; [|simpl; lia]. exfalso. eapply not_elem_of_nil. rewrite <-E. apply list_elem_of_filter. by split. }
  rewrite Nat.min_l in Hlen by lia. destruct sel as [|x [|]] eqn:Es; try done. f_equal. simpl. f_equal. f_equal.
  destruct (Hsound x) as [Hx _]; [by left|].
  destruct x as [i r]. apply elem_of_map_to_list in Hx. unfold rows in Hx. destruct (decide (i = id)) as [->|Hne].
  { rewrite lookup_insert_eq in Hx. by injection Hx as <-. }
  exfalso. assert (not_after later (i, r) (id, row)) as Hna.
  { apply Hrest; [by left|done|done|]. intros [[= ? _]|?%elem_of_nil]%elem_of_cons; congruence. }
  rewrite lookup_insert_ne in Hx by done.
  destruct (Hids _ _ Hx) as [_ Hi]. destruct (Hrows _ _ Hx) as (t & Ht & Et). pose proof (Hold _ _ Hx) as Hle.
  unfold event_time in Hle. rewrite Et, parse_fmt_time in Hle by done. simpl in Hle.
  unfold not_after, later, lex_less in Hna. cbn [fst snd] in Hna. unfold row, auditRow in Hna. cbn [au_ts] in Hna.
  rewrite Hts, Et in Hna. cbn [default] in Hna. case_decide as E.
  - apply Z.ltb_ge in Hna. unfold id in Hna. lia.
  - rewrite fmt_time_ltb in Hna by done. apply Z.ltb_ge in Hna. apply E. do 2 f_equal. lia.
Qed.

Section history_proofs.
Context {Mirror : Type} (content : Mirror → string → option MetadataJSON) (SnapshotSHA : Mirror → string) (LastSync : Mirror → Z).
Context (marshal : DriftSummary → string) (user : string).
Context (marshal_payload : syncAuditPayload → string) (unmarshal_payload : string → option syncAuditPayload).
Context (Hpayload : ∀ p, marshal_payload p ≠ "" ∧ marshal_payload p ≠ "null" ∧ unmarshal_payload (marshal_payload p) = Some p).
Abbreviation SyncRun := (SyncRun content SnapshotSHA LastSync marshal marshal_payload user).
Abbreviation SyncHistory := (SyncHistory unmarshal_payload).
Abbreviation emitSyncAudit := (emitSyncAudit marshal_payload user).

(** The trail before a call: well-formed, and not ahead of the clock. *)
Record ready (mo : moment (Mirror := Mirror)) (db : AuditDb) : Prop := {
  rd_ok : audit_ok db;
  rd_now : time_ok (mo_now mo);
  rd_past : ∀ id r, au_rows db !! id = Some r → (event_time r ≤ mo_now mo)%Z;
  rd_writable : mo_audit mo = None;
}.

Lemma latest_entry mo kind opErr p st : ready mo (sy_audit st) → kind ∈ syncHistoryKinds →
  SyncHistory None 1 None (sy_audit (emitSyncAudit mo kind opErr p st)) =
  Ok [mkSyncHistoryEntry (Some (mo_now mo)) kind (negb (bool_decide (is_Some opErr))) (Z.max 0 (mo_millis mo)) (default "" opErr)
        (sp_FromSHA p) (sp_ToSHA p) (sp_Commits p) (sp_Bytes p) (sp_UpToDate p) (sp_Reinit p) (sp_Remote p) (sp_MirrorPath p)
        (sp_DriftRefreshError p)].
Proof.
  intros [Hok Hnow Hpast Hw] Hk. unfold Sync.SyncHistory, Sync.emitSyncAudit. cbn [sy_audit]. rewrite Hw.
  set (ev := stamped _ _). assert (ev_Kind ev = kind ∧ ev_Timestamp ev = None) as [Ek Et] by (unfold ev, stamped; by case_decide).
  rewrite latest_listed; [|done|done|done|done|by rewrite Ek]. rewrite fmap_cons, fmap_nil. f_equal. f_equal.
  destruct (Hpayload p) as (H1 & H2 & H3).
  assert (ev_Payload ev = marshal_payload p ∧ ev_OK ev = negb (bool_decide (is_Some opErr)) ∧ ev_DurationMs ev = mo_millis mo ∧
    ev_Error ev = default "" opErr) as (Ep & Eo & Ed & Ee) by (unfold ev, stamped; by case_decide).
  unfold history_entry, scanAuditRow, auditRow. cbn. rewrite Ek, Et, Ep, Eo, Ed, Ee. cbn [default].
  rewrite (decide_False (P := marshal_payload p = "" ∨ marshal_payload p = "null")) by tauto. cbn [default].
  rewrite (decide_False (P := marshal_payload p = "")) by done. cbn [from_option Datatypes.id]. rewrite H3. cbn [from_option Datatypes.id].
  assert (∀ s, default "" (null_if_empty s) = s) as Hn by (intros s; unfold null_if_empty; by case_decide).
  f_equal.
  - by rewrite parse_fmt_time.
  - by destruct (negb _).
  - case_decide; simpl; lia.
  - apply Hn.
Qed.

(** The refresh's own error, as the history tells it. *)
Definition refresh_told (opts : SyncRunOptions) (mo : moment (Mirror := Mirror)) (sr : SyncReceipt) : string :=
  if sr_UpToDate sr || so_SkipRefresh opts then "" else default "" (snd <$> mo_iter mo).

(** What the history tells of a run: a run that is not cancelled heads the history, as a
    failure with the pull's error, as nothing new, or as a success, with the commits and
    the counts of the receipt that the caller got read back from the audit row's payload;
    a cancelled one leaves the trail as it was. *)
Theorem history_latest opts mo st :
  ready mo (sy_audit st) →
  let '(sr, pull, _) := mo_sync mo (so_Force opts) (sy_mirror st) in
  let '(rec, err, st') := SyncRun opts mo st in
  match err with
  | Some ErrCanceled => sy_audit st' = sy_audit st ∧ (pull = Some ErrCanceled ∨ is_Some pull ∧ mo_cancelled mo = true)
  | Some (SyncFailed msg) => ∃ e, pull = Some (SyncFailed e) ∧ msg = "bzlhub.SyncRun: " +:+ e ∧
      SyncHistory None 1 None (sy_audit st') =
      Ok [mkSyncHistoryEntry (Some (mo_now mo)) "sync_run_failure" false (Z.max 0 (mo_millis mo)) e (sr_FromSHA sr) (sr_ToSHA sr)
            (sr_Commits sr) (sr_Bytes sr) (sr_UpToDate sr) false "" "" ""]
  | None => pull = None ∧
      SyncHistory None 1 None (sy_audit st') =
      Ok [mkSyncHistoryEntry (Some (mo_now mo)) (if rr_UpToDate rec then "sync_run_uptodate" else "sync_run_success") true
            (Z.max 0 (mo_millis mo)) "" (rr_FromSHA rec) (rr_ToSHA rec) (rr_Commits rec) (rr_Bytes rec) (rr_UpToDate rec)
            false "" "" (refresh_told opts mo sr)]
  end.
Proof.
  intros Hready. unfold Sync.SyncRun, refresh_told.
  destruct (mo_sync mo (so_Force opts) (sy_mirror st)) as [[sr err] m]. destruct err as [e|].
  - case_bool_decide as He; simpl; [split; [done|]; left; by subst|]. destruct (mo_cancelled mo) eqn:Hc.
    { split; [done|]. right. split; [by eexists|done]. }
    destruct e as [|msg]; [done|]. exists msg. split; [done|]. split; [done|]. unfold recordSyncRunAudit.
    rewrite latest_entry; [done|exact Hready|by repeat (left || right)].
  - destruct (sr_UpToDate sr) eqn:Hup.
    { split; [done|]. unfold recordSyncRunAudit. rewrite latest_entry; [|exact Hready|do 3 right; by left]. cbn. by rewrite Hup. }
    destruct (if so_SkipRefresh opts then _ else _) as [[written rerr] t] eqn:Er.
    assert (default "" rerr = if so_SkipRefresh opts then "" else default "" (snd <$> mo_iter mo)) as Et
      by (destruct (so_SkipRefresh opts); by injection Er as <- <- <-).
    split; [done|]. unfold recordSyncRunAudit. rewrite latest_entry; [|exact Hready|do 2 right; by left].
    cbn. rewrite Hup. by rewrite Et.
Qed.
End history_proofs.

(** ** A mirror to try it on

    Version 2 of module a appears with the first pull. *)

Definition demo_content (generation : Z) (name : string) : option MetadataJSON :=
  if decide (name = "a") then Some (mkMetadata (if (0 <? generation)%Z then ["1"; "2"] else ["1"]) ∅ "") else None.
Definition demo_pull (_ : bool) (m : Z) : SyncReceipt * option sync_error * Z :=
  if (0 <? m)%Z then (mkSyncReceipt "c1" "c1" 0 0 1 true, None, m) else (mkSyncReceipt "c0" "c1" 1 10 1 false, None, 1%Z).
Definition demo_moment (now : Z) (lookup : string → option string) : moment :=
  mkMoment now 3 false demo_pull lookup None (λ _ _, None) None.
Definition refused (_ : bool) (m : Z) : SyncReceipt * option sync_error * Z := (zeroReceipt, Some (SyncFailed "diverged"), m).

Fixpoint pos_text (p : positive) : string :=
  match p with xH => "." | xO p => String "0" (pos_text p) | xI p => String "1" (pos_text p) end.
Fixpoint text_pos (s : string) : option positive :=
  match s with
  | "." => Some xH
  | String "0" s => xO <$> text_pos s
  | String "1" s => xI <$> text_pos s
  | _ => None
  end.
Lemma text_pos_text p : text_pos (pos_text p) = Some p.
Proof.
  induction p as [p IH|p IH|]; [| |done].
  - change (text_pos (pos_text p~1)) with (xI <$> text_pos (pos_text p)). by rewrite IH.
  - change (text_pos (pos_text p~0)) with (xO <$> text_pos (pos_text p)). by rewrite IH.
Qed.

Definition demo_payload (p : syncAuditPayload) : string :=
  pos_text (encode (sp_Remote p, sp_MirrorPath p, sp_Branch p, sp_Reinit p, sp_FromSHA p, sp_ToSHA p,
    (sp_Commits p, sp_Bytes p, sp_UpToDate p, sp_DriftRowsRewritten p, sp_DriftRefreshError p))).
Definition demo_read_payload (s : string) : option syncAuditPayload :=
  match text_pos s ≫= decode with
  | Some (a, b, c, d, e, f, (g, h, i, j, k)) => Some (mkSyncAuditPayload a b c d e f g h i j k)
  | None => None
  end.

Lemma demo_payload_ok p : demo_payload p ≠ "" ∧ demo_payload p ≠ "null" ∧ demo_read_payload (demo_payload p) = Some p.
Proof.
  unfold demo_payload, demo_read_payload. rewrite text_pos_text. simpl. rewrite decode_encode.
  split; [by destruct (encode _)|]. split; [by destruct (encode _)|]. by destruct p.
Qed.

Lemma demo_codec_ok : codec_ok demo_marshal demo_unmarshal.
Proof. by intros d. Qed.

Definition demo_state : SyncState :=
  mkSyncState 0%Z [mkDriftRow "a" "1" "sin-sync"] emptyAudit [].

Definition demo_loop (mos : list moment) : list (SyncRunReceipt * option sync_error) * SyncState :=
  run_moments demo_content (λ _, "head") (λ _, 4%Z) demo_marshal demo_payload "op" (mkSyncRunOptions false false) mos demo_state.

Lemma loop_keeps_current_witness :
  let mos := [demo_moment 5 (λ _, None); mkMoment 6 1 false refused (λ _, None) None (λ _ _, None) None; demo_moment 7 (λ _, None)] in
  rw_DriftRaw <$> sy_drift (demo_loop mos).2 = ["sbehind"] ∧ length (demo_loop mos).1 = 3 ∧
  default 0%Z (ms_DriftByStatus (MirrorStatus (λ _, "head") (λ _, 4%Z) demo_unmarshal 9 (demo_loop mos).2) !! "behind") = 1%Z.
Proof.
  intros mos. split; [vm_compute; reflexivity|]. split; [vm_compute; reflexivity|].
  assert (Forall (pulls_ok demo_content) mos ∧ Forall (calm demo_content) mos) as [Hp Hc].
  { assert (∀ now, pulls_ok demo_content (demo_moment now (λ _, None)) ∧ calm demo_content (demo_moment now (λ _, None))) as H.
    { intros now. split; [intros force m; simpl; unfold demo_pull; by destruct (0 <? m)%Z|].
      split; try done. intros force m. simpl. unfold demo_pull. destruct (0 <? m)%Z; by intros [? ?]. }
    split; repeat constructor; try apply H; try done. }
  pose proof (loop_keeps_current demo_content (λ _, "head") (λ _, 4%Z) demo_marshal demo_unmarshal demo_payload "op" demo_codec_ok
    (mkSyncRunOptions false false) mos demo_state 9 eq_refl Hp Hc) as H.
  destruct H as (_ & _ & _ & Hs & _); [repeat constructor; set_solver|by repeat constructor| |].
  - constructor; [|constructor]. by exists 1%Z, "head", 4%Z.
  - unfold demo_loop. change "behind" with (status_text Behind). rewrite Hs. vm_compute. reflexivity.
Defined.

Lemma demo_ready : ready (demo_moment 5 (λ _, Some "busy")) emptyAudit.
Proof.
  split; [exact emptyAudit_ok| |intros id r; simpl; by rewrite lookup_empty|done]. apply (time_ok_small 5). lia.
Qed.

Lemma history_latest_witness :
  let st := (SyncRun demo_content (λ _, "head") (λ _, 4%Z) demo_marshal demo_payload "op" (mkSyncRunOptions false false)
               (demo_moment 5 (λ _, Some "busy")) demo_state).2 in
  SyncHistory demo_read_payload None 1 None (sy_audit st) =
  Ok [mkSyncHistoryEntry (Some 5%Z) "sync_run_success" true 3 "" "c0" "c1" 1 10 false false "" "" ""].
Proof.
  intros st. pose proof (history_latest demo_content (λ _, "head") (λ _, 4%Z) demo_marshal "op" demo_payload demo_read_payload
    demo_payload_ok (mkSyncRunOptions false false) (demo_moment 5 (λ _, Some "busy")) demo_state demo_ready) as H.
  exact (proj2 H).
Defined.

(** A lookup that fails while the refresh runs: the run is a success with no error to tell,
    the row keeps its verdict, and as the next pulls find nothing new no run judges it
    again. *)
Example stale_until_next_commit :
  let mos := [demo_moment 5 (λ _, Some "busy"); demo_moment 6 (λ _, None); demo_moment 7 (λ _, None)] in
  rw_DriftRaw <$> sy_drift (demo_loop mos).2 = ["sin-sync"] ∧
  status_text (vd_Status (ComputeForVersion "1" (demo_content 1 "a"))) = "behind" ∧
  (λ c, (rr_DriftRowsRewritten c.1, bool_decide (c.2 = None))) <$> (demo_loop mos).1 = [(0%Z, true); (0%Z, true); (0%Z, true)].
Proof. vm_compute. split; [reflexivity|]. split; reflexivity. Qed.
