(* ===== verification/Publish.v ===== *)
(** * Publishing

    The three publishers of [internal/publish]: into a directory (filesystem.go), into a
    git working tree that is committed and pushed (git_direct.go), and onto a branch with a
    pull request (git_pr.go), with the messages of gitops.go.  git is a program of its own:
    the class [GitCommands] has the commands that are run, as functions of the repository and the
    disk, and [GitLaws] what their documentation says of them.  The forge is a parameter.
    A request holds its files as they are encoded; Admit.v, which builds the requests, has
    them before that. *)

From stdpp Require Import pretty.
From S2P Require Import Prelude Strings Timestamp Archive Digest FileSystem Mirror.

(** ** Requests and receipts *)

Record Identity := mkIdentity { id_Name : string; id_Email : string }.
#[export] Instance Identity_eq_dec : EqDecision Identity.
Proof. solve_decision. Defined.

(** [Identity.IsZero] and [Identity.String] *)
Definition IsZero (i : Identity) : bool := bool_decide (id_Name i = "" ∧ id_Email i = "").
Definition Identity_String (i : Identity) : string := if IsZero i then "" else id_Name i +:+ " <" +:+ id_Email i +:+ ">".

Record BlobRef := mkBlobRef { br_Integrity : string; br_Bytes : Z }.

Record PublishRequest := mkRequest {
  pq_Module : string;
  pq_Version : string;
  pq_SourceJSON : bytes;
  pq_ModuleBazel : bytes;
  pq_UpstreamMetadata : bytes;
  pq_Blob : BlobRef;
  pq_Requester : Identity;
  pq_SourceURL : string;
}.

Record Receipt := mkReceipt {
  rc_Strategy : string;
  rc_DiskPath : path;
  rc_Commit : string;
  rc_PRURL : string;
  rc_PRNumber : Z;
  rc_Diff : string;
}.

(** [ValidateRequest] *)
Definition ValidateRequest (req : PublishRequest) : option string :=
  let missing what := Some ("publish: missing required field: " +:+ what) in
  if decide (pq_Module req = "") then missing "module"
  else if decide (pq_Version req = "") then missing "version"
  else if decide (pq_SourceJSON req = []) then missing "source.json"
  else if decide (br_Integrity (pq_Blob req) = "") then missing "blob.integrity"
  else None.

(** The checks of the two git publishers. *)
Definition validate_requester (req : PublishRequest) : option string :=
  match ValidateRequest req with
  | Some e => Some e
  | None => if IsZero (pq_Requester req) then Some "publish: missing required field: requester" else None
  end.

(** ** git *)

(** A commit is what its hash is of. *)
Inductive commit : Type := Commit (parents : list commit) (tree : gmap path bytes) (author committer : Identity) (message : string).

Definition c_parents (c : commit) : list commit := let 'Commit ps _ _ _ _ := c in ps.
Definition c_tree (c : commit) : gmap path bytes := let 'Commit _ t _ _ _ := c in t.
Definition c_author (c : commit) : Identity := let 'Commit _ _ a _ _ := c in a.
Definition c_committer (c : commit) : Identity := let 'Commit _ _ _ k _ := c in k.
Definition c_message (c : commit) : string := let 'Commit _ _ _ _ m := c in m.

Inductive ancestor : commit → commit → Prop :=
| anc_refl c : ancestor c c
| anc_step a p c : p ∈ c_parents c → ancestor a p → ancestor a c.

(** The repository of a work tree: the branch that is checked out, the local branches, the
    index, the remote's branches as they were last fetched, and the pushes the remote has
    accepted, each with the tip it replaced. *)
Record repo := mkRepo {
  rp_branch : string;
  rp_heads : gmap string commit;
  rp_index : gmap path bytes;
  rp_tracking : gmap string commit;
  rp_pushed : list (string * option commit * commit);
}.

(** A command: its answer, and what it makes of the repository and the disk. *)
Definition git (A : Type) : Type := repo → disk → result string A * repo * disk.

(** The commands, on one remote; files are added by the names that are given in a
    directory, and an author is given as text.  Beside them stands what git makes of its
    arguments: the hash of a commit, the paths that it ignores on a disk, those that a
    name with wildcards matches, and the texts it keeps of messages and of people. *)
Class GitCommands := {
  git_fetch : string → git unit;
  git_reset : string → git unit;
  git_add : path → list string → git unit;
  git_commit : Identity → string → string → git unit;
  git_rev_parse : git string;
  git_push : string → git unit;
  git_delete_branch : string → git unit;
  git_checkout_new : string → git unit;
  git_sha : commit → string;
  git_ignored : disk → path → bool;
  git_matches : string → path → bool;
  git_cleanup : string → string;
  git_ident : Identity → Identity;
  git_author : string → Identity;
}.

(** Programs that run commands and make file system calls; a dead process runs nothing. *)
Definition gm (A : Type) : Type := repo → os (A * repo).
#[export] Instance gm_ret : MRet gm := λ A a r, mret (a, r).
#[export] Instance gm_bind : MBind gm := λ A B f m r, m r ≫= λ x, f x.1 x.2.

Definition lift_os {A} (m : os A) : gm A := λ r, m ≫= λ a, mret (a, r).
Definition run_git {A} (g : git A) : gm (result string A) := λ r w,
  if w_alive w then let '(a, r', d) := g r (w_disk w) in ((a, r'), mkWorld d (w_faults w) true)
  else ((Err "", r), w).

(** [if err != nil { return ..., fmt.Errorf(what ...) }] *)
Definition try_as {A B} (what : string) (m : gm (result string A)) (f : A → gm (result string B)) : gm (result string B) :=
  r ← m; match r with Ok a => f a | Err e => mret (Err (what +:+ e)) end.

(** [os.Stat], asked whether there is a directory. *)
Definition stat_dir (p : path) : os (result string bool) :=
  call (λ _ msg, Err msg) (λ _ d, d) (λ d, (Ok (bool_decide (p ∈ dirs d)), d)).

Section publish.
Context (rnd : disk → path → string → string) (root : path).
Context (unmarshal_map : bytes → result string (option (gmap string bytes))).
Context (unmarshal_versions : bytes → result string (list string)).
Context (marshal_versions : list string → bytes) (marshal_map : gmap string bytes → bytes).
Abbreviation merge := (MergeMetadataWithUpstream rnd root unmarshal_map unmarshal_versions marshal_versions marshal_map).

(** ** Into a directory *)

Definition merge_error (e : MergeError) : string :=
  match e with
  | MergeIO m | ParseExisting m | ParseUpstream m | ParseVersions m => m
  | NilMapPanic => "assignment to entry in nil map"
  end.

(** [FilesystemPublisher.Publish] *)
Definition fs_Publish (req : PublishRequest) : os (result string Receipt) :=
  match ValidateRequest req with
  | Some e => mret (Err e)
  | None =>
      try_ (WriteSource rnd root (pq_Module req) (pq_Version req) (pq_SourceJSON req)) (λ _,
      try_ (match pq_ModuleBazel req with
            | [] => mret (Ok tt)
            | b => WriteModuleBazel rnd root (pq_Module req) (pq_Version req) b
            end) (λ _,
      merged ← merge (pq_Module req) (pq_Version req) (pq_UpstreamMetadata req);
      match merged with
      | Err e => mret (Err (merge_error e))
      | Ok _ => mret (Ok (mkReceipt "filesystem" (joined root ["modules"; pq_Module req; pq_Version req]) "" "" 0
                            ("filesystem mirror: " +:+ pq_Module req +:+ "@" +:+ pq_Version req)))
      end))
  end.

(** ** Commits *)

Context `{GitCommands} (bot : Identity) (remote : string).
(** [version.Version] and the moment, in the layout of RFC 3339. *)
Context (bzlhub_version now : string).

Definition nl : string := String "010" "".

(** [buildCommitMessage] *)
Definition buildCommitMessage (req : PublishRequest) : string :=
  "feat(" +:+ pq_Module req +:+ "): add version " +:+ pq_Version req +:+ nl +:+ nl +:+
  (if decide (pq_SourceURL req = "") then "" else "Source: " +:+ pq_SourceURL req +:+ nl) +:+
  (if decide (br_Integrity (pq_Blob req) = "") then "" else "Integrity: " +:+ br_Integrity (pq_Blob req) +:+ nl) +:+
  (if (0 <? br_Bytes (pq_Blob req))%Z then "Size: " +:+ pretty (br_Bytes (pq_Blob req)) +:+ " bytes" +:+ nl else "") +:+
  nl +:+
  "Requested-by: " +:+ Identity_String (pq_Requester req) +:+ nl +:+
  "Published-via: bzlhub " +:+ bzlhub_version +:+ nl +:+
  "Resolved-at: " +:+ now +:+ nl.

(** [shortSHA] *)
Definition shortSHA (sha : string) : string := if 12 <? length (to_bytes sha) then of_bytes (take 12 (to_bytes sha)) else sha.

(** [commitWith]; the message's temporary file, outside the tree, may not be had. *)
Context (tempfile_error : option string).
Definition commitWith (req : PublishRequest) : gm (result string string) :=
  match tempfile_error with
  | Some e => mret (Err e)
  | None =>
      try_as "" (run_git (git_commit bot (Identity_String (pq_Requester req)) (buildCommitMessage req))) (λ _,
      try_as "" (run_git git_rev_parse) (λ sha, mret (Ok (TrimSpace sha))))
  end.

(** [stage]; [filepath.Join] cleans the second path, which is done where it is resolved. *)
Definition staged (module : string) : list string := ["bazel_registry.json"; "modules/" +:+ module; ".gitignore"].

(** ** Straight to the branch *)

Definition isNonFastForward (s : string) : bool :=
  ContainsStr s "non-fast-forward" || ContainsStr s "Updates were rejected" ||
  (ContainsStr s "rejected" && ContainsStr s "fetch first").

(** [syncToRemoteTip] and [syncToBase] *)
Definition syncTo (branch : string) : gm (result string unit) :=
  try_as "" (run_git (git_fetch branch)) (λ _, run_git (git_reset branch)).

Inductive attempt : Type :=
| Pushed (rc : Receipt)
| PushFailed (e : string)
| Failed (e : string).

(** The body of the loop. *)
Definition direct_attempt (branch : string) (req : PublishRequest) : gm attempt :=
  let fail e := mret (Failed e) in
  synced ← syncTo branch;
  match synced with Err e => fail ("sync to remote tip: " +:+ e) | Ok _ =>
  written ← lift_os (fs_Publish req);
  match written with Err e => fail e | Ok _ =>
  added ← run_git (git_add root (staged (pq_Module req)));
  match added with Err e => fail ("git add: " +:+ e) | Ok _ =>
  committed ← commitWith req;
  match committed with Err e => fail ("git commit: " +:+ e) | Ok sha =>
  pushed ← run_git (git_push branch);
  match pushed with
  | Err e => mret (PushFailed e)
  | Ok _ => mret (Pushed (mkReceipt "git-direct" (joined root ["modules"; pq_Module req; pq_Version req]) sha "" 0
              ("git-direct: " +:+ pq_Module req +:+ "@" +:+ pq_Version req +:+ " → " +:+ remote +:+ "/" +:+ branch +:+
               " @ " +:+ shortSHA sha)))
  end end end end end.

(** [GitDirectPublisher.Publish] *)
Definition direct_Publish (branch : string) (req : PublishRequest) : gm (result string Receipt) :=
  match validate_requester req with
  | Some e => mret (Err e)
  | None =>
      first ← direct_attempt branch req;
      match first with
      | Pushed rc => mret (Ok rc)
      | Failed e => mret (Err e)
      | PushFailed e =>
          if negb (isNonFastForward e) then mret (Err ("git push: " +:+ e))
          else
            second ← direct_attempt branch req;
            match second with
            | Pushed rc => mret (Ok rc)
            | Failed e => mret (Err e)
            | PushFailed e => mret (Err ("git push: " +:+ e))
            end
      end
  end.

(** ** Onto a branch of its own *)

(** [BranchName] *)
Definition slug (s : string) : string :=
  let replace c s := of_bytes ((λ x, if decide (x = c) then "-"%char else x) <$> to_bytes s) in replace " "%char (replace ":"%char s).
Definition BranchName (action module version : string) : string :=
  "bzlhub/" +:+ action +:+ "-" +:+ slug module +:+ "-" +:+ slug version.

(** [buildPRBody] *)
Definition buildPRBody (req : PublishRequest) (headSHA : string) : string :=
  "## Add `" +:+ pq_Module req +:+ "@" +:+ pq_Version req +:+ "`" +:+ nl +:+ nl +:+
  "Prepared by **bzlhub** at the request of **" +:+ Identity_String (pq_Requester req) +:+ "**." +:+ nl +:+ nl +:+
  (if decide (pq_SourceURL req = "") then "" else "- **Source:** " +:+ pq_SourceURL req +:+ nl) +:+
  (if decide (br_Integrity (pq_Blob req) = "") then "" else "- **Integrity:** `" +:+ br_Integrity (pq_Blob req) +:+ "`" +:+ nl) +:+
  (if (0 <? br_Bytes (pq_Blob req))%Z then "- **Size:** " +:+ pretty (br_Bytes (pq_Blob req)) +:+ " bytes" +:+ nl else "") +:+
  "- **Commit:** `" +:+ shortSHA headSHA +:+ "`" +:+ nl.

Record OpenPROpts := mkOpenPROpts {
  po_Title : string; po_Body : string; po_HeadBranch : string; po_BaseBranch : string; po_Labels : list string;
}.

Context (OpenPR : OpenPROpts → result string (string * Z)) (labels : list string) (repo_name : string).

(** [createBranch]: the answer of the deletion is not looked at. *)
Definition createBranch (branch : string) : gm (result string unit) :=
  _ ← run_git (git_delete_branch branch); run_git (git_checkout_new branch).

(** [GitPRPublisher.Publish] once its branch is checked out. *)
Definition pr_on_branch (baseBranch branch : string) (req : PublishRequest) : gm (result string Receipt) :=
  try_as "" (lift_os (fs_Publish req)) (λ _,
  try_as "git add: " (run_git (git_add root (staged (pq_Module req)))) (λ _,
  try_as "git commit: " (commitWith req) (λ sha,
  try_as "git push: " (run_git (git_push branch)) (λ _,
  match OpenPR (mkOpenPROpts ("Add " +:+ pq_Module req +:+ "@" +:+ pq_Version req) (buildPRBody req sha) branch baseBranch labels) with
  | Err e => mret (Err ("open pr: " +:+ e))
  | Ok (url, number) =>
      mret (Ok (mkReceipt "git-pr" (joined root ["modules"; pq_Module req; pq_Version req]) sha url number
                  ("git-pr: " +:+ pq_Module req +:+ "@" +:+ pq_Version req +:+ " → " +:+ repo_name +:+ "#" +:+
                   pretty number +:+ " (" +:+ shortSHA sha +:+ ")")))
  end)))).

(** [GitPRPublisher.Publish] *)
Definition pr_Publish (baseBranch : string) (req : PublishRequest) : gm (result string Receipt) :=
  match validate_requester req with
  | Some e => mret (Err e)
  | None =>
      let branch := BranchName "add" (pq_Module req) (pq_Version req) in
      try_as "sync to base: " (syncTo baseBranch) (λ _,
      try_as "" (lift_os (stat_dir (joined root ["modules"; pq_Module req; pq_Version req]))) (λ exists_,
      if (exists_ : bool) then
        mret (Err ("publish: " +:+ pq_Module req +:+ "@" +:+ pq_Version req +:+ " already exists on " +:+ baseBranch +:+
                   " (variant immutability)"))
      else try_as ("create branch " +:+ branch +:+ ": ") (createBranch branch) (λ _, pr_on_branch baseBranch branch req)))
  end.

(** ** The ignored blobs *)

(** [gitignoreHasEntry] *)
Definition gitignoreHasEntry (content : bytes) (entry : string) : bool :=
  existsb (λ line, let t := TrimSpace line in negb (HasPrefix t "#") && negb (bool_decide (t = "")) && bool_decide (t = entry))
    (Split (of_bytes content) (chr 10)).

(** [ensureGitignoreBlobs] *)
Definition ensureGitignoreBlobs : os (result string unit) :=
  let p := joined root [".gitignore"] in
  r ← readFile p;
  match r with
  | Err (ReadFailed e) => mret (Err e)
  | _ =>
      let b := match r with Ok b => b | Err _ => [] end in
      if gitignoreHasEntry b "blobs/" then mret (Ok tt)
      else
        let b := match last b with Some c => if decide (c = chr 10) then b else b ++ [chr 10] | None => b end in
        let b := b ++ to_bytes ("# bzlhub: serving cache, not part of the BCR shape" +:+ nl +:+ "blobs/" +:+ nl) in
        call (λ _ msg, Err msg) (λ n, set_files <[p := (take n b, false)]>) (λ d, (Ok tt, set_files <[p := (b, false)]> d))
  end.

(** ** Construction *)

(** [NewFilesystem] *)
Definition NewFilesystem : os (result string unit) := try_ (mkdirAll root) (λ _, EnsureRegistryJSON rnd root).

(** What the constructors of the two git publishers share; the answer is the branch and the
    remote. *)
Definition new_git (branch remote_name : string) : os (result string (string * string)) :=
  found ← stat_dir (joined root [".git"]);
  match found with
  | Ok true =>
      try_ NewFilesystem (λ _,
      ensured ← ensureGitignoreBlobs;
      match ensured with
      | Err e => mret (Err ("ensure .gitignore: " +:+ e))
      | Ok _ => mret (Ok (if decide (branch = "") then "main" else branch, if decide (remote_name = "") then "origin" else remote_name))
      end)
  | _ => mret (Err "publish: not a git working tree")
  end.

(** [NewGitDirect] *)
Definition NewGitDirect (workTree branch remote_name : string) : os (result string (string * string)) :=
  if decide (workTree = "") then mret (Err "publish: GitDirect requires WorkTree")
  else if IsZero bot then mret (Err "publish: GitDirect requires BotIdentity")
  else new_git branch remote_name.

(** [NewGitPR]; [forge] is whether there is one. *)
Definition NewGitPR (workTree owner name : string) (forge : bool) (branch remote_name : string) : os (result string (string * string)) :=
  if decide (workTree = "") then mret (Err "publish: GitPR requires WorkTree")
  else if IsZero bot then mret (Err "publish: GitPR requires BotIdentity")
  else if decide (owner = "" ∨ name = "") then mret (Err "publish: GitPR requires Repo")
  else if negb forge then mret (Err "publish: GitPR requires Forge")
  else new_git branch remote_name.
End publish.

(** ** What the commands' documentation says *)

(** The paths beneath a path. *)
Definition under (s p : path) : Prop := s `prefix_of` p.
#[export] Instance under_dec s p : Decision (under s p).
Proof. unfold under. apply _. Defined.

(** The content of a file. *)
Definition content (d : disk) (p : path) : option bytes := fst <$> files d !! p.

(** The paths that [git add] takes for a name in a directory: those beneath it, and those
    that it matches as a pattern; a name without wildcards only matches itself. *)
Definition selected `{GitCommands} (wt : path) (specs : list string) (p : path) : Prop :=
  Exists (λ s, under (joined wt [s]) p ∨ git_matches s p = true) specs.
#[export] Instance selected_dec `{GitCommands} wt specs p : Decision (selected wt specs p).
Proof. unfold selected. apply _. Defined.
Definition literal (s : string) : Prop := Forall (λ c, c ∉ to_bytes "*?[\") (to_bytes s).

(** A person whose name and address git has nothing to strip from: no angle brackets and
    no line ends, and no punctuation or blanks around. *)
Definition crud (c : ascii) : Prop := nat_of_ascii c ≤ 32 ∨ c ∈ to_bytes ".,:;<>'\" ∨ c = "034"%char.
Definition clean_text (s : string) : Prop :=
  let l := to_bytes s in
  Forall (λ c, (c ∉ to_bytes "<>") ∧ 32 ≤ nat_of_ascii c) l ∧ (∀ c, head l = Some c ∨ last l = Some c → ¬ crud c).
Definition clean_identity (i : Identity) : Prop := id_Name i ≠ "" ∧ clean_text (id_Name i) ∧ clean_text (id_Email i).

(** The remote takes a push when its tip is in what is pushed. *)
Definition accepted (b : string) (r r' : repo) : Prop :=
  ∃ old c, rp_heads r !! b = Some c ∧ (∀ o, old = Some o → ancestor o c) ∧ rp_pushed r' = rp_pushed r ++ [(b, old, c)].

(** A hard reset: what the commit holds is there, what was in the index and is not in the
    commit is gone, and untracked files stay unless they are in the way. *)
Record checked_out (t : commit) (r : repo) (d d' : disk) : Prop := {
  ch_tree : ∀ p c, c_tree t !! p = Some c → content d' p = Some c;
  ch_rest : ∀ p, c_tree t !! p = None → content d' p = None ∨ ((p ∉ dom (rp_index r)) ∧ content d' p = content d p);
  ch_dirs : ∀ p q, p ∈ dom (c_tree t) → q ∈ parents (dir_of p) → q ∈ dirs d';
}.

Definition same_repo_but_index (r r' : repo) : Prop :=
  rp_branch r' = rp_branch r ∧ rp_heads r' = rp_heads r ∧ rp_tracking r' = rp_tracking r ∧ rp_pushed r' = rp_pushed r.

Class GitLaws `{GitCommands} : Prop := {
  gl_fetch b r d : let '(x, r', d') := git_fetch b r d in
    d' = d ∧ rp_pushed r' = rp_pushed r ∧ rp_branch r' = rp_branch r ∧ rp_heads r' = rp_heads r ∧ rp_index r' = rp_index r ∧
    (is_ok x = true → is_Some (rp_tracking r' !! b));
  gl_reset b r d : let '(x, r', d') := git_reset b r d in
    rp_pushed r' = rp_pushed r ∧
    (is_ok x = true → ∃ t, rp_tracking r !! b = Some t ∧ checked_out t r d d' ∧
       r' = mkRepo (rp_branch r) (<[rp_branch r := t]> (rp_heads r)) (c_tree t) (rp_tracking r) (rp_pushed r));
  gl_add wt specs r d : let '(x, r', d') := git_add wt specs r d in
    d' = d ∧ same_repo_but_index r r' ∧
    (is_ok x = true → ∀ p, rp_index r' !! p =
       if decide (selected wt specs p ∧ (git_ignored d p = false ∨ p ∈ dom (rp_index r))) then content d p
       else rp_index r !! p);
  gl_matches s p : literal s → git_matches s p = false;
  gl_commit k a m r d : let '(x, r', d') := git_commit k a m r d in
    d' = d ∧ rp_pushed r' = rp_pushed r ∧
    (is_ok x = true → ∃ h, rp_heads r !! rp_branch r = Some h ∧
       r' = mkRepo (rp_branch r) (<[rp_branch r := Commit [h] (rp_index r) (git_author a) (git_ident k) (git_cleanup m)]> (rp_heads r))
              (rp_index r) (rp_tracking r) (rp_pushed r));
  gl_ident i : clean_identity i → git_ident i = i;
  gl_author i : clean_identity i → git_author (Identity_String i) = i;
  gl_rev_parse r d : let '(x, r', d') := git_rev_parse r d in
    d' = d ∧ r' = r ∧ (∀ s, x = Ok s → ∃ c, rp_heads r !! rp_branch r = Some c ∧ TrimSpace s = git_sha c);
  gl_push b r d : let '(x, r', d') := git_push b r d in
    d' = d ∧ rp_branch r' = rp_branch r ∧ rp_heads r' = rp_heads r ∧ rp_index r' = rp_index r ∧
    match x with
    | Ok _ => accepted b r r'
    | Err e => rp_pushed r' = rp_pushed r ∨ (isNonFastForward e = false ∧ accepted b r r')
    end;
  gl_delete b r d : let '(x, r', d') := git_delete_branch b r d in
    d' = d ∧ (b = rp_branch r → is_ok x = false) ∧
    r' = (if is_ok x then mkRepo (rp_branch r) (delete b (rp_heads r)) (rp_index r) (rp_tracking r) (rp_pushed r) else r);
  gl_checkout b r d : let '(x, r', d') := git_checkout_new b r d in
    d' = d ∧ if is_ok x then rp_heads r !! b = None ∧ ∃ h, rp_heads r !! rp_branch r = Some h ∧
                r' = mkRepo b (<[b := h]> (rp_heads r)) (rp_index r) (rp_tracking r) (rp_pushed r)
             else r' = r;
}.

(** ** Postconditions *)

(** [gspec P m Q]: from a repository and a disk satisfying [P], whatever fails, the answer,
    the repository and the disk satisfy [Q]. *)
Definition gspec {A} (P : repo → disk → Prop) (m : gm A) (Q : A → repo → disk → Prop) : Prop :=
  ∀ r, spec (P r) (m r) (λ x, Q x.1 x.2).

Lemma gspec_ret {A} P (a : A) Q : (∀ r d, P r d → Q a r d) → gspec P (mret a) Q.
Proof. intros H r. apply spec_ret. intros d. apply H. Qed.

Lemma gspec_bind {A B} P R (m : gm A) (f : A → gm B) Q : gspec P m R → (∀ a, gspec (R a) (f a) Q) → gspec P (m ≫= f) Q.
Proof. intros Hm Hf r. eapply spec_bind; [apply Hm|]. intros [a r']. apply Hf. Qed.

Lemma gspec_weaken {A} (P P' : repo → disk → Prop) (m : gm A) (Q Q' : A → repo → disk → Prop) :
  gspec P m Q → (∀ r d, P' r d → P r d) → (∀ a r d, Q a r d → Q' a r d) → gspec P' m Q'.
Proof. intros Hm HP HQ r. eapply spec_weaken; [apply Hm|apply HP|]. intros [a r']. apply HQ. Qed.

Lemma gspec_pure {A} (φ : Prop) P (m : gm A) Q : (φ → gspec P m Q) → gspec (λ r d, φ ∧ P r d) m Q.
Proof. intros H r w [Hφ Hw]. by apply H. Qed.

Lemma gspec_exists {A X} (P : X → repo → disk → Prop) (m : gm A) Q :
  (∀ x, gspec (P x) m Q) → gspec (λ r d, ∃ x, P x r d) m Q.
Proof. intros H r w [x Hw]. by apply (H x). Qed.

Lemma gspec_lift {A} P (m : os A) Q : (∀ r, spec (P r) m (λ a, Q a r)) → gspec P (lift_os m) Q.
Proof. intros H r. eapply spec_bind; [apply H|]. intros a. by apply spec_ret. Qed.

Lemma gspec_run {A} P (g : git A) Q :
  (∀ r d, P r d → let '(x, r', d') := g r d in Q x r' d') → (∀ r d, P r d → Q (Err "") r d) → gspec P (run_git g) Q.
Proof.
  intros Hg Hd r w Hw. unfold run_git. destruct (w_alive w); [|by apply Hd].
  specialize (Hg r (w_disk w) Hw). by destruct (g r (w_disk w)) as [[x r'] d'].
Qed.

Lemma gspec_try {A B} what P R (m : gm (result string A)) (f : A → gm (result string B)) Q :
  gspec P m R → (∀ a, gspec (R (Ok a)) (f a) Q) → (∀ e r d, R (Err e) r d → Q (Err (what +:+ e)) r d) →
  gspec P (try_as what m f) Q.
Proof. intros Hm Hf He. eapply gspec_bind; [exact Hm|]. intros [a|e]; [apply Hf|]. by apply gspec_ret, He. Qed.

(** ** What a publisher writes *)

Section writes.
Context (rnd : disk → path → string → string) (root : path).
Context (unmarshal_map : bytes → result string (option (gmap string bytes))).
Context (unmarshal_versions : bytes → result string (list string)).
Context (marshal_versions : list string → bytes) (marshal_map : gmap string bytes → bytes).
Abbreviation merge := (MergeMetadataWithUpstream rnd root unmarshal_map unmarshal_versions marshal_versions marshal_map).
Abbreviation merged_map := (merge_map unmarshal_map unmarshal_versions marshal_versions).
Abbreviation fs_Publish := (fs_Publish rnd root unmarshal_map unmarshal_versions marshal_versions marshal_map).
Abbreviation free := (λ _ : path, False).

(** What an atomic write keeps. *)
Definition stable (target : path) (P : disk → Prop) : Prop :=
  ∀ d d', P d → same_but (λ p, is_temp p ∨ p = target) free d d' → P d'.

Lemma spec_write_file target data P : ¬ is_temp target → stable target P →
  spec P (atomicWrite rnd target data) (λ r d, P d ∧ (is_ok r = true → files d !! target = Some (data, true))).
Proof.
  intros Ht HP. apply spec_pin. intros d0 H0.
  eapply spec_weaken; [apply (spec_atomicWrite rnd free d0 target data Ht); by intros k []|by intros d ->|].
  intros r d Hw. unfold written in Hw. destruct (is_ok r).
  - destruct Hw as [Hs Hf]. split; [by eapply HP|done].
  - split; [|done]. eapply HP; [done|]. by apply visible_weaken.
Qed.

Lemma spec_mkdir target p P : stable target P → spec P (mkdirAll p) (λ _, P).
Proof.
  intros HP. apply spec_pin. intros d0 H0.
  eapply spec_weaken; [apply (spec_mkdirAll is_temp free d0); by intros k []|by intros d ->|].
  intros ? d Hd. eapply HP; [done|]. by apply visible_weaken.
Qed.

Lemma spec_write_dir target data P : ¬ is_temp target → stable target P →
  spec P (try_ (mkdirAll (dir_of target)) (λ _, atomicWrite rnd target data))
    (λ r d, P d ∧ (is_ok r = true → files d !! target = Some (data, true))).
Proof.
  intros Ht HP. eapply spec_try; [by eapply spec_mkdir|intros ?; by apply spec_write_file|]. intros e d Hd. by split.
Qed.

Abbreviation source n v := (version_file root n v "source.json").
Abbreviation module_bazel n v := (version_file root n v "MODULE.bazel").
Abbreviation metadata n := (joined root ["modules"; n; "metadata.json"]).

Lemma spec_WriteSource n v data P : ¬ is_temp (source n v) → stable (source n v) P →
  spec P (WriteSource rnd root n v data) (λ r d, P d ∧ (is_ok r = true → files d !! source n v = Some (data, true))).
Proof. intros Ht HP. exact (spec_write_dir (source n v) data P Ht HP). Qed.
Lemma spec_WriteModuleBazel n v data P : ¬ is_temp (module_bazel n v) → stable (module_bazel n v) P →
  spec P (WriteModuleBazel rnd root n v data) (λ r d, P d ∧ (is_ok r = true → files d !! module_bazel n v = Some (data, true))).
Proof. intros Ht HP. exact (spec_write_dir (module_bazel n v) data P Ht HP). Qed.

Lemma spec_merge_file n v upstream P old : ¬ is_temp (metadata n) → stable (metadata n) P →
  spec (λ d, P d ∧ content d (metadata n) = old) (merge n v upstream)
    (λ r d, P d ∧ (is_ok r = true → ∃ m out, merged_map m upstream v = Ok out ∧
       files d !! metadata n = Some (marshal_map out ++ [chr 10], true) ∧
       match old with Some b => unmarshal_map b = Ok m | None => m = Some ∅ end)).
Proof.
  intros Ht HP. unfold MergeMetadataWithUpstream.
  assert (∀ e, spec P (mret (Err e) : os (result MergeError unit)) (λ r d, P d ∧ (is_ok r = true → ∃ m out,
    merged_map m upstream v = Ok out ∧ files d !! metadata n = Some (marshal_map out ++ [chr 10], true) ∧
    match old with Some b => unmarshal_map b = Ok m | None => m = Some ∅ end))) as Hfail
    by by intros e; apply spec_ret; intros d Hd.
  eapply spec_bind with (R := λ _ d, P d ∧ content d (metadata n) = old).
  { apply spec_pin. intros d0 [H0 Hold]. eapply spec_weaken; [apply (spec_mkdirAll is_temp free d0); by intros k []|by intros d ->|].
    intros ? d Hd. split; [eapply HP; [done|]; by apply visible_weaken|]. unfold content. by rewrite (proj1 Hd). }
  intros [?|e]; [|by eapply spec_pre; [apply Hfail|by intros d [? _]]].
  eapply spec_bind; [apply spec_readFile|]. intros b. cbn beta.
  set (decoded := match b with Ok b => _ | Err _ => _ end).
  apply (spec_pre (λ d, (∀ m, decoded = Ok m → match old with Some b => unmarshal_map b = Ok m | None => m = Some ∅ end) ∧ P d)).
  2: { intros d [[HPd Hold] Hb]. split; [|done]. intros m Hm. unfold decoded in Hm. unfold content in Hold. destruct b as [b|[|e]].
       - destruct Hb as [s Hs]. rewrite Hs in Hold. simpl in Hold. subst old. destruct (unmarshal_map b); [by injection Hm as <-|done].
       - rewrite Hb in Hold. simpl in Hold. subst old. by injection Hm as <-.
       - done. }
  apply spec_pure. intros Hdec. destruct decoded as [m|e]; [|apply Hfail].
  destruct (merged_map m upstream v) as [out|e] eqn:Hm; [|by destruct e; try apply Hfail].
  eapply spec_bind; [by apply spec_write_file|]. intros [?|e]; apply spec_ret; intros d [HPd Hf]; (split; [done|]); [|done].
  intros _. exists m, out. split; [done|]. split; [by apply Hf|]. by apply Hdec.
Qed.

Definition written_paths (req : PublishRequest) : list path :=
  [source (pq_Module req) (pq_Version req); module_bazel (pq_Module req) (pq_Version req); metadata (pq_Module req)].

(** The files of a version that was written over [d0]. *)
Record version_written (req : PublishRequest) (d0 d : disk) : Prop := {
  vw_source : content d (source (pq_Module req) (pq_Version req)) = Some (pq_SourceJSON req);
  vw_module : pq_ModuleBazel req ≠ [] → content d (module_bazel (pq_Module req) (pq_Version req)) = Some (pq_ModuleBazel req);
  vw_metadata : ∃ m out, merged_map m (pq_UpstreamMetadata req) (pq_Version req) = Ok out ∧
    content d (metadata (pq_Module req)) = Some (marshal_map out ++ [chr 10]) ∧
    match content d0 (metadata (pq_Module req)) with Some b => unmarshal_map b = Ok m | None => m = Some ∅ end;
}.

Definition only_written (req : PublishRequest) (d0 d : disk) : Prop :=
  ∀ p, ¬ is_temp p → p ∉ written_paths req → files d !! p = files d0 !! p.

Lemma only_written_stable req d0 target : target ∈ written_paths req → stable target (only_written req d0).
Proof.
  intros Ht d d' H (Hs & _) p Hp Hn. rewrite Hs; [by apply H|]. intros [?| ->]; [done|]. by apply Hn.
Qed.

Lemma content_stable target q x : ¬ is_temp q → q ≠ target → stable target (λ d, content d q = x).
Proof. intros Hq Hne d d' H (Hs & _). unfold content. rewrite Hs; [done|]. by intros [?|?]. Qed.

Lemma stable_and target P Q : stable target P → stable target Q → stable target (λ d, P d ∧ Q d).
Proof. intros HP HQ d d' [H1 H2] Hs. split; [by eapply HP|by eapply HQ]. Qed.

Lemma content_of d p c s : files d !! p = Some (c, s) → content d p = Some c.
Proof. intros E. unfold content. by rewrite E. Qed.

Context (req : PublishRequest) (Hm : Archive.plain (pq_Module req)) (Hv : Archive.plain (pq_Version req)).

Lemma written_apart :
  Forall (λ p, ¬ is_temp p) (written_paths req) ∧ NoDup (written_paths req) ∧
  Forall (λ p, under (root ++ ["modules"; pq_Module req]) p) (written_paths req).
Proof.
  assert (Archive.plain "source.json" ∧ Archive.plain "MODULE.bazel") as [H1 H2] by (split; by apply plain_lit).
  unfold written_paths. rewrite !version_file_path, metadata_path by done. split_and!.
  - repeat constructor; by apply not_temp_snoc.
  - assert (∀ l a, (root ++ ["modules"; pq_Module req; pq_Version req]) ++ [a] ≠ (root ++ ["modules"; pq_Module req]) ++ [l]) as Hne.
    { intros l a E. apply (f_equal length) in E. rewrite !length_app in E. simpl in E. lia. }
    apply NoDup_cons. split; [|apply NoDup_cons; split; [|apply NoDup_singleton]].
    + intros [E|[E|[]%elem_of_nil]%elem_of_cons]%elem_of_cons; [by apply app_inj_tail in E as [_ ?]|by eapply Hne].
    + intros [E|[]%elem_of_nil]%elem_of_cons. by eapply Hne.
  - unfold under. rewrite <-!app_assoc.
    repeat constructor; (eexists; rewrite <-app_assoc; reflexivity).
Qed.

Lemma spec_fs_Publish d0 :
  spec (λ d, d = d0) (fs_Publish req)
    (λ r d, only_written req d0 d ∧ (is_ok r = true → version_written req d0 d)).
Proof.
  unfold Publish.fs_Publish. destruct (ValidateRequest req); [by apply spec_ret; intros d ->; split|].
  destruct written_apart as (Ht & Hnd & _). unfold written_paths in Ht, Hnd.
  apply Forall_cons in Ht as [Ht1 [Ht2 [Ht3 _]%Forall_cons]%Forall_cons].
  apply NoDup_cons in Hnd as [Hn1 [Hn2 _]%NoDup_cons].
  set (n := pq_Module req) in *. set (v := pq_Version req) in *.
  assert (∀ t, t ∈ written_paths req → stable t (only_written req d0)) as Hst by (intros; by apply only_written_stable).
  assert (∀ t x, ¬ is_temp t → t ≠ metadata n → stable t (λ d, content d (metadata n) = x)) as Hmeta
    by (intros; by apply content_stable).
  set (P1 := λ d, only_written req d0 d ∧ content d (metadata n) = content d0 (metadata n)).
  eapply spec_try with (R := λ r d, P1 d ∧ (is_ok r = true → files d !! source n v = Some (pq_SourceJSON req, true))).
  { eapply spec_pre; [apply (spec_WriteSource n v (pq_SourceJSON req) P1 Ht1)|by intros d ->].
    apply stable_and; [apply Hst; by left|apply Hmeta; [exact Ht1|]; intros E; apply Hn1; rewrite E; right; by left]. }
  2: { intros e d [[? _] _]. by split. }
  intros ?. cbn beta. set (P2 := λ d, P1 d ∧ content d (source n v) = Some (pq_SourceJSON req)).
  set (P3 := λ d, P2 d ∧ (pq_ModuleBazel req ≠ [] → content d (module_bazel n v) = Some (pq_ModuleBazel req))).
  eapply spec_try with (R := λ r d, P2 d ∧ (is_ok r = true → P3 d)).
  { apply (spec_pre P2); [|intros d [? Hf]; split; [done|]; by eapply content_of, Hf].
    destruct (pq_ModuleBazel req) as [|c l] eqn:E; [by apply spec_ret; intros d Hd; split; [|intros _; split]|].
    eapply spec_weaken; [apply (spec_WriteModuleBazel n v (c :: l) P2 Ht2)|done|].
    - apply stable_and; [apply stable_and; [apply Hst; right; by left|apply Hmeta; [exact Ht2|]; intros E'; apply Hn2; rewrite E'; by left]|].
      apply content_stable; [exact Ht1|]. intros E'. apply Hn1. rewrite E'. by left.
    - intros r d [H2 Hf]. split; [done|]. intros Hr. split; [done|]. intros _. by eapply content_of, Hf. }
  2: { intros e d [[[? _] _] _]. by split. }
  intros ?. cbn beta.
  eapply spec_bind.
  { eapply spec_pre; [apply (spec_merge_file n v (pq_UpstreamMetadata req)
      (λ d, only_written req d0 d ∧ content d (source n v) = Some (pq_SourceJSON req) ∧
         (pq_ModuleBazel req ≠ [] → content d (module_bazel n v) = Some (pq_ModuleBazel req))) (content d0 (metadata n)) Ht3)|].
    - apply stable_and; [apply Hst; do 2 right; by left|].
      apply stable_and; [apply content_stable; [exact Ht1|]; intros E; apply Hn1; rewrite E; right; by left|].
      intros d d' H Hs Hne. eapply content_stable; [exact Ht2| |by apply H|exact Hs]. intros E. apply Hn2. rewrite E. by left.
    - intros d [_ H]. destruct (H eq_refl) as [[[? ?] ?] ?]. by split_and!. }
  intros [?|e]; apply spec_ret; intros d [(Hd & Hs & Hb) Hf]; (split; [done|]); [|done]. intros _.
  destruct (Hf eq_refl) as (m & out & Hmm & Hout & Hold). split; [done|done|]. exists m, out.
  split; [done|]. split; [by eapply content_of|done].
Qed.
End writes.

(** ** From the remote's tip to a commit *)

Section git_proofs.
Context (rnd : disk → path → string → string) (root : path).
Context (unmarshal_map : bytes → result string (option (gmap string bytes))).
Context (unmarshal_versions : bytes → result string (list string)).
Context (marshal_versions : list string → bytes) (marshal_map : gmap string bytes → bytes).
Context `{GitLaws} (bot : Identity) (remote bzlhub_version now : string) (tempfile_error : option string).
Abbreviation merged_map := (merge_map unmarshal_map unmarshal_versions marshal_versions).
Abbreviation fs_Publish := (fs_Publish rnd root unmarshal_map unmarshal_versions marshal_versions marshal_map).
Abbreviation commitWith := (commitWith bot bzlhub_version now tempfile_error).
Abbreviation direct_attempt := (direct_attempt rnd root unmarshal_map unmarshal_versions marshal_versions marshal_map bot remote
  bzlhub_version now tempfile_error).
Abbreviation direct_Publish := (direct_Publish rnd root unmarshal_map unmarshal_versions marshal_versions marshal_map bot remote
  bzlhub_version now tempfile_error).
Abbreviation source n v := (version_file root n v "source.json").
Abbreviation module_bazel n v := (version_file root n v "MODULE.bazel").
Abbreviation metadata n := (joined root ["modules"; n; "metadata.json"]).

(** A commit that a fetch has found at the tip of a branch. *)
Definition fetched_tip (t : commit) : Prop :=
  ∃ b r d r' d', git_fetch b r d = (Ok tt, r', d') ∧ rp_tracking r' !! b = Some t.

Definition ignore_file (p : path) : Prop := last p = Some ".gitignore".

(** Nothing of the module is ignored by git where the ignore files are those of a fetched
    tip, and others that were there at first. *)
Definition unignored (module : string) (d0 : disk) : Prop :=
  ∀ t d, fetched_tip t →
    (∀ q c, ignore_file q → content d q = Some c → c_tree t !! q = Some c ∨ content d0 q = Some c) →
    ∀ p, under (root ++ ["modules"; module]) p → git_ignored d p = false.

(** No file beneath the module's directory is untracked. *)
Definition clean (module : string) (r : repo) (d : disk) : Prop :=
  ∀ p, under (root ++ ["modules"; module]) p → is_Some (content d p) → p ∈ dom (rp_index r).

(** What a tree made from another's holds: the request's files, and elsewhere what that
    one holds; [exact] is whether the module's directory was clean. *)
Record tree_ok (req : PublishRequest) (exact : Prop) (base tree : gmap path bytes) : Prop := {
  tr_source : tree !! source (pq_Module req) (pq_Version req) = Some (pq_SourceJSON req);
  tr_module : pq_ModuleBazel req ≠ [] → tree !! module_bazel (pq_Module req) (pq_Version req) = Some (pq_ModuleBazel req);
  tr_metadata : ∃ m out, merged_map m (pq_UpstreamMetadata req) (pq_Version req) = Ok out ∧
    tree !! metadata (pq_Module req) = Some (marshal_map out ++ [chr 10]) ∧
    match base !! metadata (pq_Module req) with Some b => unmarshal_map b = Ok m | None => exact → m = Some ∅ end;
  tr_outside : literal (pq_Module req) → ∀ p, ¬ Exists (λ s, under (joined root [s]) p) (staged (pq_Module req)) →
    tree !! p = base !! p;
  tr_inside : exact → ∀ p, under (root ++ ["modules"; pq_Module req]) p → ¬ is_temp p → p ∉ written_paths root req →
    tree !! p = base !! p;
}.

(** The commit a request makes on top of another. *)
Record commit_of (req : PublishRequest) (exact : Prop) (base c : commit) : Prop := {
  co_parent : c_parents c = [base];
  co_author : c_author c = git_author (Identity_String (pq_Requester req)) ∧
    (clean_identity (pq_Requester req) → c_author c = pq_Requester req);
  co_committer : c_committer c = git_ident bot ∧ (clean_identity bot → c_committer c = bot);
  co_message : c_message c = git_cleanup (buildCommitMessage bzlhub_version now req);
  co_tree : tree_ok req exact (c_tree base) (c_tree c);
}.

Context (req : PublishRequest) (Hm : Archive.plain (pq_Module req)) (Hv : Archive.plain (pq_Version req)).
(** The disk at first, the branch that is checked out, the pushes so far, and whether the
    module's directory was clean at first. *)
Context (D : disk) (Hign : unignored (pq_Module req) D) (B : string) (L : list (string * option commit * commit)) (K : Prop).
Abbreviation mdir := (root ++ ["modules"; pq_Module req]).

(** The work tree at a commit. *)
Record at_commit (base : commit) (d : disk) : Prop := {
  at_tracked : ∀ p c, c_tree base !! p = Some c → content d p = Some c;
  at_untracked : K → ∀ p, under mdir p → c_tree base !! p = None → content d p = None;
  at_dirs : ∀ p q, p ∈ dom (c_tree base) → q ∈ parents (dir_of p) → q ∈ dirs d;
  at_rules : ∀ q c, ignore_file q → content d q = Some c → c_tree base !! q = Some c ∨ content D q = Some c;
  at_tip : fetched_tip base;
}.

(** The ignore files that are untracked were there at first. *)
Definition rules_from (r : repo) (d : disk) : Prop :=
  ∀ q c, ignore_file q → content d q = Some c → q ∈ dom (rp_index r) ∨ content D q = Some c.
Definition tidy (r : repo) (d : disk) : Prop := clean (pq_Module req) r d ∧ rules_from r d.

Lemma tidy_index r r' d : rp_index r' = rp_index r → tidy r d → tidy r' d.
Proof. intros E [Hc Hr]. split; [intros p|intros q c]; rewrite E; auto. Qed.

Lemma ignore_file_apart q : ignore_file q → ¬ is_temp q ∧ q ∉ written_paths root req.
Proof.
  assert (Archive.plain "source.json" ∧ Archive.plain "MODULE.bazel") as [H1 H2] by (split; by apply plain_lit).
  unfold ignore_file, written_paths. rewrite !version_file_path, metadata_path by done. intros Hq. split.
  - intros (p & s & ->). rewrite last_snoc in Hq. injection Hq as E. discriminate.
  - intros Hin. repeat (apply elem_of_cons in Hin as [->|Hin]; [by rewrite last_snoc in Hq|]). by apply elem_of_nil in Hin.
Qed.

Definition on (base : commit) (r : repo) : Prop :=
  rp_branch r = B ∧ rp_heads r !! B = Some base ∧ rp_index r = c_tree base ∧ rp_pushed r = L.

Definition before (r : repo) (d : disk) : Prop :=
  rp_branch r = B ∧ rp_pushed r = L ∧ (K → clean (pq_Module req) r d) ∧ rules_from r d.

Lemma spec_syncTo branch :
  gspec before (syncTo branch) (λ x r d, rp_pushed r = L ∧ (is_ok x = true → ∃ base, on base r ∧ at_commit base d)).
Proof.
  unfold syncTo. eapply gspec_try with (R := λ x r d, before r d ∧ (is_ok x = true → ∀ t, rp_tracking r !! branch = Some t → fetched_tip t)).
  - apply gspec_run; [|by intros]. intros r d (Hb & Hp & Hk & Hr). pose proof (gl_fetch branch r d) as Hl.
    destruct (git_fetch branch r d) as [[x r'] d'] eqn:Ef. destruct Hl as (-> & E1 & E2 & _ & E4 & _). split; [split_and!; [congruence..| |]|].
    + intros HK p Hu Hs. rewrite E4. by apply Hk.
    + intros q c. rewrite E4. apply Hr.
    + intros Hx t Ht. destruct x as [[]|]; [|done]. by exists branch, r, d, r', d.
  - intros ?. apply gspec_run; [|intros r d ((Hb & Hp & _) & _); by split]. intros r d ((Hb & Hp & Hk & Hr) & Htip).
    pose proof (gl_reset branch r d) as Hl. destruct (git_reset branch r d) as [[x r'] d']. destruct Hl as [E Hok].
    split; [congruence|]. intros Hx. destruct (Hok Hx) as (t & Ht & [C1 C2 C3] & ->). exists t. split.
    + unfold on. simpl. rewrite Hb, lookup_insert_eq. by split_and!.
    + split; [done| |done| |by apply Htip].
      * intros HK p Hu Hn. destruct (C2 p Hn) as [?|[Hd ->]]; [done|].
        destruct (content d p) eqn:E'; [|done]. exfalso. apply Hd, Hk; [done|done|by rewrite E'].
      * intros q c Hq Hc. destruct (c_tree t !! q) as [c'|] eqn:Et; [left; rewrite (C1 _ _ Et) in Hc; congruence|right].
        destruct (C2 q Et) as [E'|[Hd E']]; [congruence|]. rewrite E' in Hc. destruct (Hr q c Hq Hc); [done|done].
  - intros e r d ((? & ? & ?) & _). by split.
Qed.

(** The request's files over the commit's. *)
Definition written_over (base : commit) (r : repo) (d : disk) : Prop :=
  on base r ∧ ∃ d0, at_commit base d0 ∧ only_written root req d0 d ∧
    version_written root unmarshal_map unmarshal_versions marshal_versions marshal_map req d0 d.

Lemma spec_fs base :
  gspec (λ r d, on base r ∧ at_commit base d) (lift_os (fs_Publish req))
    (λ x r d, rp_pushed r = L ∧ (is_ok x = true → written_over base r d)).
Proof.
  apply gspec_lift. intros r. apply spec_pin. intros d0 [Hon Hat].
  eapply spec_weaken; [by apply (spec_fs_Publish rnd root unmarshal_map unmarshal_versions marshal_versions marshal_map req Hm Hv d0)|by intros d ->|].
  intros x d [Ho Hw]. split; [by apply Hon|]. intros Hx. split; [done|]. exists d0. by split_and!; [..|apply Hw].
Qed.

Lemma staged_spec p : Exists (λ s, under (joined root [s]) p) (staged (pq_Module req)) ↔
  under (root ++ ["bazel_registry.json"]) p ∨ under mdir p ∨ under (root ++ [".gitignore"]) p.
Proof.
  assert (joined root ["modules/" +:+ pq_Module req] = joined root ["modules"; pq_Module req]) as E.
  { unfold joined. cbn [flat_map]. change ("modules/" +:+ pq_Module req) with ("modules" +:+ "/" +:+ pq_Module req). by rewrite segs_app, <-app_assoc. }
  unfold staged. rewrite !Exists_cons, Exists_nil, E. rewrite !joined_plain by plains. tauto.
Qed.

Lemma staged_selected p : under mdir p → selected root (staged (pq_Module req)) p.
Proof. intros Hu. eapply Exists_impl; [apply staged_spec; by right; left|]. by left. Qed.

Lemma staged_literal p : literal (pq_Module req) → selected root (staged (pq_Module req)) p →
  Exists (λ s, under (joined root [s]) p) (staged (pq_Module req)).
Proof.
  intros Hlit Hs. assert (Forall literal (staged (pq_Module req))) as Hall.
  { unfold literal in *. apply Forall_cons; split; [refine (bool_decide_unpack _ _); vm_compute; exact I|].
    apply Forall_cons; split; [|apply Forall_singleton; refine (bool_decide_unpack _ _); vm_compute; exact I].
    rewrite to_bytes_app. apply Forall_app. split; [refine (bool_decide_unpack _ _); vm_compute; exact I|done]. }
  unfold selected in Hs. rewrite Exists_exists in *. destruct Hs as (s & Hin & [?|E]); [eauto|].
  rewrite Forall_forall in Hall. by rewrite (gl_matches s p (Hall s Hin)) in E.
Qed.

(** The index after the files are added. *)
Definition indexed (base : commit) (r : repo) (d : disk) : Prop :=
  rp_branch r = B ∧ rp_heads r !! B = Some base ∧ rp_pushed r = L ∧ tidy r d ∧ tree_ok req K (c_tree base) (rp_index r).

(** The ignore files are those of the tip. *)
Lemma written_rules base d1 d : at_commit base d1 → only_written root req d1 d →
  ∀ q c, ignore_file q → content d q = Some c → c_tree base !! q = Some c ∨ content D q = Some c.
Proof.
  intros Hat Ho q c Hq Hc. destruct (ignore_file_apart q Hq) as [Ht Hw]. apply (at_rules _ _ Hat q c Hq).
  rewrite <-Hc. unfold content. by rewrite (Ho q Ht Hw).
Qed.

Lemma spec_add base :
  gspec (written_over base) (run_git (git_add root (staged (pq_Module req))))
    (λ x r d, rp_pushed r = L ∧ (is_ok x = true → indexed base r d)).
Proof.
  apply gspec_run; [|intros r d ((_ & _ & _ & ?) & _); by split]. intros r d ((Hb & Hh & Hi & Hp) & d0 & Hat & Ho & [W1 W2 W3]).
  pose proof (written_rules base d0 d Hat Ho) as Hrules.
  pose proof (gl_add root (staged (pq_Module req)) r d) as Hl. destruct (git_add _ _ r d) as [[x r'] d'].
  destruct Hl as (-> & (E1 & E2 & _ & E4) & Hok). split; [congruence|]. intros Hx. specialize (Hok Hx).
  assert (∀ p, under mdir p → rp_index r' !! p = content d p) as Hin.
  { intros p Hu. rewrite Hok, decide_True; [done|]. split; [by apply staged_selected|]. left. by apply (Hign base d (at_tip _ _ Hat)). }
  destruct (written_apart rnd root unmarshal_map unmarshal_versions marshal_versions req Hm Hv) as (_ & _ & Hunder). rewrite Forall_forall in Hunder.
  assert (under mdir (source (pq_Module req) (pq_Version req)) ∧ under mdir (module_bazel (pq_Module req) (pq_Version req)) ∧
    under mdir (metadata (pq_Module req))) as (U1 & U2 & U3)
    by (split_and!; apply Hunder; [by left|right; by left|do 2 right; by left]).
  split; [by rewrite E1|]. split; [by rewrite E2|]. split; [by rewrite E4|]. split; [split|split].
  - intros p Hu [c Hc]. apply elem_of_dom. rewrite Hin, Hc by done. by eexists.
  - intros q c Hq Hc. destruct (Hrules q c Hq Hc) as [Ht|?]; [left|by right]. apply elem_of_dom. rewrite Hok.
    case_decide; [by rewrite Hc; eexists|]. by rewrite Hi, Ht; eexists.
  - by rewrite Hin.
  - intros Hne. rewrite Hin by done. by apply W2.
  - destruct W3 as (m & out & Hmm & Hout & Hold). exists m, out. split; [done|]. split; [by rewrite Hin|].
    destruct (c_tree base !! metadata (pq_Module req)) as [b|] eqn:Eb.
    + by rewrite (at_tracked _ _ Hat _ _ Eb) in Hold.
    + intros HK. by rewrite (at_untracked _ _ Hat HK _ U3 Eb) in Hold.
  - intros Hlit p Hn. rewrite Hok, decide_False; [by rewrite Hi|]. intros [Hs _]. by apply Hn, staged_literal.
  - intros HK p Hu Ht Hw. rewrite Hin by done. unfold content. rewrite (Ho p Ht Hw). fold (content d0 p).
    destruct (c_tree base !! p) as [c|] eqn:Ec; [by apply (at_tracked _ _ Hat)|by apply (at_untracked _ _ Hat)].
Qed.

(** The commit. *)
Definition committed (base c : commit) (r : repo) (d : disk) : Prop :=
  rp_branch r = B ∧ rp_heads r !! B = Some c ∧ rp_pushed r = L ∧ tidy r d ∧ commit_of req K base c.

Lemma spec_commit base :
  gspec (indexed base) (commitWith req)
    (λ x r d, rp_pushed r = L ∧ (∀ sha, x = Ok sha → ∃ c, sha = git_sha c ∧ committed base c r d)).
Proof.
  unfold Publish.commitWith. destruct tempfile_error as [e|].
  { apply gspec_ret. intros r d (_ & _ & ? & _). by split. }
  eapply gspec_try with (R := λ x r d, rp_pushed r = L ∧ (is_ok x = true → ∃ c, committed base c r d)).
  - apply gspec_run; [|intros r d (_ & _ & ? & _); by split]. intros r d (Hb & Hh & Hp & Hc & Ht).
    pose proof (gl_commit bot (Identity_String (pq_Requester req)) (buildCommitMessage bzlhub_version now req) r d) as Hl.
    destruct (git_commit _ _ _ r d) as [[x r'] d']. destruct Hl as (-> & E & Hok). split; [congruence|]. intros Hx.
    destruct (Hok Hx) as (h & Hh' & ->). rewrite Hb, Hh in Hh'. injection Hh' as <-. eexists. unfold committed. simpl.
    rewrite Hb, lookup_insert_eq. split_and!; [done|done|done|exact Hc|].
    split; simpl; [done|split; [done|apply gl_author]|split; [done|apply gl_ident]|done|done].
  - intros ?. apply (gspec_weaken (λ r d, ∃ c, committed base c r d) _ _
      (λ x r d, rp_pushed r = L ∧ (∀ sha, x = Ok sha → ∃ c, sha = git_sha c ∧ committed base c r d)));
      [|intros r d [_ Hx]; by apply Hx|done].
    apply gspec_exists. intros c. eapply gspec_try with (R := λ x r d, committed base c r d ∧ (∀ s, x = Ok s → TrimSpace s = git_sha c)).
    + apply gspec_run; [|intros r d Hc; by split]. intros r d Hc. pose proof (gl_rev_parse r d) as Hl.
      destruct (git_rev_parse r d) as [[x r'] d']. destruct Hl as (-> & -> & Hs). split; [done|]. intros s Es.
      destruct (Hs s Es) as (c' & Hc' & ->). destruct Hc as (Hb & Hh & _). rewrite Hb, Hh in Hc'. by injection Hc' as <-.
    + intros s. apply gspec_ret. intros r d [Hc Hs]. split; [by apply Hc|]. intros sha [= <-]. exists c. split; [by apply Hs|done].
    + intros e r d [Hc _]. split; [by apply Hc|done].
  - intros e r d [? _]. by split.
Qed.

(** A push of a commit of the request, on [branch], which left the remote's history as it
    was below it. *)
Definition pushed_commit (branch : string) (exact : Prop) (base c : commit) (r : repo) : Prop :=
  commit_of req exact base c ∧ ∃ old, (∀ o, old = Some o → ancestor o c) ∧ rp_pushed r = L ++ [(branch, old, c)].

Lemma spec_push base c :
  gspec (committed base c) (run_git (git_push B))
    (λ x r d, rp_branch r = B ∧ tidy r d ∧
      match x with
      | Ok _ => pushed_commit B K base c r
      | Err e => rp_pushed r = L ∨ (isNonFastForward e = false ∧ pushed_commit B K base c r)
      end).
Proof.
  apply gspec_run; [|intros r d (? & _ & ? & ? & _); auto]. intros r d (Hb & Hh & Hp & Hc & Hco).
  pose proof (gl_push B r d) as Hl. destruct (git_push B r d) as [[x r'] d']. destruct Hl as (-> & E1 & _ & E3 & Hx).
  split; [congruence|]. split; [by apply (tidy_index r)|].
  assert (accepted B r r' → pushed_commit B K base c r') as Hacc.
  { intros (old & c' & Hc' & Hold & Ep). rewrite Hh in Hc'. injection Hc' as <-. split; [done|]. exists old.
    split; [done|]. by rewrite Ep, Hp. }
  destruct x as [?|e]; [by apply Hacc|]. destruct Hx as [E|[? ?]]; [left; by rewrite E|right]. auto.
Qed.

(** One turn of the direct publisher. *)
Definition attempted (a : attempt) (r : repo) (d : disk) : Prop :=
  match a with
  | Pushed rc => tidy r d ∧ ∃ base c, pushed_commit B K base c r ∧ rc_Commit rc = git_sha c
  | PushFailed e => rp_branch r = B ∧ tidy r d ∧
      (rp_pushed r = L ∨ (isNonFastForward e = false ∧ ∃ base c, pushed_commit B K base c r))
  | Failed _ => rp_pushed r = L
  end.

Lemma spec_attempt : gspec before (direct_attempt B req) attempted.
Proof.
  unfold Publish.direct_attempt.
  assert (∀ (P : repo → disk → Prop) e, (∀ r d, P r d → rp_pushed r = L) → gspec P (mret (Failed e)) attempted) as Hfail
    by (intros P e HP; apply gspec_ret; intros r d HPr; by eapply HP).
  eapply gspec_bind; [apply spec_syncTo|]. intros [?|e]; cbn beta; [|by apply Hfail; intros r d [? _]].
  apply (gspec_weaken (λ r d, ∃ base, on base r ∧ at_commit base d) _ _ attempted); [|intros r d [_ Hx]; by apply Hx|done].
  apply gspec_exists. intros base.
  eapply gspec_bind; [apply spec_fs|]. intros [?|e]; cbn beta; [|by apply Hfail; intros r d [? _]].
  eapply gspec_bind; [eapply gspec_weaken; [apply (spec_add base)|intros r d [_ Hx]; by apply Hx|intros x r d Hx; exact Hx]|].
  intros [?|e]; cbn beta; [|by apply Hfail; intros r d [? _]].
  eapply gspec_bind; [eapply gspec_weaken; [apply (spec_commit base)|intros r d [_ Hx]; by apply Hx|intros x r d Hx; exact Hx]|].
  intros [sha|e]; cbn beta; [|by apply Hfail; intros r d [? _]].
  apply (gspec_weaken (λ r d, ∃ c, sha = git_sha c ∧ committed base c r d) _ _ attempted); [|intros r d [_ Hx]; by apply Hx|done].
  apply gspec_exists. intros c. apply gspec_pure. intros ->.
  eapply gspec_bind; [apply (spec_push base c)|]. intros [?|e]; cbn beta; apply gspec_ret; intros r d (Hb & Hc & Hp).
  - split; [done|]. by exists base, c.
  - split; [done|]. split; [done|]. destruct Hp as [?|[? ?]]; [by left|right]. split; [done|]. by exists base, c.
Qed.

(** With another branch checked out: the commit goes there, and the push finds the
    local branch as it was. *)
Section other.
Context (branch : string) (Hne : B ≠ branch) (h0 : option commit).
Definition keeps (r : repo) : Prop := rp_branch r = B ∧ rp_heads r !! branch = h0 ∧ rp_pushed r = L.
Definition stale_pushed (r : repo) : Prop :=
  ∃ old h, h0 = Some h ∧ (∀ o, old = Some o → ancestor o h) ∧ rp_pushed r = L ++ [(branch, old, h)].

(** A command that succeeds leaves the branch, and one that fails the remote. *)
Abbreviation kept := (λ (ok : bool) r, rp_pushed r = L ∧ (ok = true → keeps r)).
Lemma spec_kept {A} (g : git A) :
  (∀ r d, let '(x, r', _) := g r d in rp_pushed r' = rp_pushed r ∧
     (is_ok x = true → rp_branch r' = rp_branch r ∧ (rp_branch r = B → rp_heads r' !! branch = rp_heads r !! branch))) →
  gspec (λ r _, keeps r) (run_git g) (λ x r _, kept (is_ok x) r).
Proof.
  intros Hg. apply gspec_run; [|by intros r d (? & ? & ?)]. intros r d (Hb & Hh & Hp). specialize (Hg r d).
  destruct (g r d) as [[x r'] d']. destruct Hg as [E Hx]. split; [congruence|]. intros Hok. destruct (Hx Hok) as [E1 E2].
  split_and!; [congruence|rewrite <-Hh; by apply E2|congruence].
Qed.

Lemma spec_synced_other : gspec (λ r _, keeps r) (syncTo branch) (λ x r _, kept (is_ok x) r).
Proof.
  unfold syncTo. eapply gspec_try.
  - apply spec_kept. intros r d. pose proof (gl_fetch branch r d) as Hl. destruct (git_fetch branch r d) as [[x r'] d'].
    destruct Hl as (_ & E1 & E2 & E3 & _). split; [done|]. intros _. by rewrite E3.
  - intros ?. eapply gspec_weaken; [apply spec_kept|intros r d [_ Hx]; by apply Hx|by intros].
    intros r d. pose proof (gl_reset branch r d) as Hl. destruct (git_reset branch r d) as [[x r'] d'].
    destruct Hl as [E Hok]. split; [done|]. intros Hx. destruct (Hok Hx) as (t & _ & _ & ->). split; [done|]. simpl. intros ->.
    by rewrite lookup_insert_ne.
  - intros e r d [? _]. by split.
Qed.

Lemma spec_committed_other : gspec (λ r _, keeps r) (commitWith req) (λ x r _, kept (is_ok x) r).
Proof.
  unfold Publish.commitWith. destruct tempfile_error; [by apply gspec_ret; intros r d (_ & _ & ?)|].
  eapply gspec_try.
  - apply spec_kept. intros r d. pose proof (gl_commit bot (Identity_String (pq_Requester req)) (buildCommitMessage bzlhub_version now req) r d) as Hl.
    destruct (git_commit _ _ _ r d) as [[x r'] d']. destruct Hl as (_ & E & Hok). split; [done|]. intros Hx.
    destruct (Hok Hx) as (h & _ & ->). split; [done|]. simpl. intros ->. by rewrite lookup_insert_ne.
  - intros ?. eapply gspec_try with (R := λ (x : result string string) r d, kept (is_ok x) r).
    + eapply gspec_weaken; [apply spec_kept|intros r d [_ Hx]; by apply Hx|by intros]. intros r d.
      pose proof (gl_rev_parse r d) as Hl. destruct (git_rev_parse r d) as [[x r'] d']. by destruct Hl as (_ & -> & _).
    + intros sha. by apply gspec_ret.
    + intros e r d [? _]. by split.
  - intros e r d [? _]. by split.
Qed.

Definition attempted_other (a : attempt) (r : repo) (_ : disk) : Prop :=
  match a with
  | Pushed _ => stale_pushed r
  | PushFailed e => keeps r ∨ (isNonFastForward e = false ∧ stale_pushed r)
  | Failed _ => rp_pushed r = L
  end.

Lemma spec_attempt_other : gspec (λ r _, keeps r) (direct_attempt branch req) attempted_other.
Proof.
  unfold Publish.direct_attempt.
  assert (∀ {A} (R : result string A → repo → disk → Prop) (m : gm (result string A)) (f : A → gm attempt) what,
    gspec (λ r _, keeps r) m (λ x r _, kept (is_ok x) r) → (∀ a, gspec (λ r _, keeps r) (f a) attempted_other) →
    gspec (λ r _, keeps r) (m ≫= λ x, match x with Err e => mret (Failed (what e)) | Ok a => f a end) attempted_other) as Hstep.
  { intros A R m f what Hm' Hf. eapply gspec_bind; [exact Hm'|]. intros [a|e]; cbn beta.
    - eapply gspec_weaken; [apply Hf|intros r d [_ Hx]; by apply Hx|done].
    - by apply gspec_ret; intros r d [? _]. }
  apply (Hstep _ (λ _ _ _, True) _ _ (λ e, "sync to remote tip: " +:+ e)); [apply spec_synced_other|intros ?].
  apply (Hstep _ (λ _ _ _, True) _ _ (λ e, e)); [|intros ?].
  { apply gspec_lift. intros r w Hr. by destruct (fs_Publish req w) as [x w']; split; [apply Hr|]. }
  apply (Hstep _ (λ _ _ _, True) _ _ (λ e, "git add: " +:+ e)); [|intros ?].
  { apply spec_kept. intros r d. pose proof (gl_add root (staged (pq_Module req)) r d) as Hl. destruct (git_add _ _ r d) as [[x r'] d'].
    destruct Hl as (_ & (E1 & E2 & _ & E4) & _). split; [done|]. intros _. by rewrite E2. }
  apply (Hstep _ (λ _ _ _, True) _ _ (λ e, "git commit: " +:+ e)); [apply spec_committed_other|intros sha].
  eapply gspec_bind with (R := λ x r _, match x with Ok _ => stale_pushed r | Err e => keeps r ∨ (isNonFastForward e = false ∧ stale_pushed r) end).
  - apply gspec_run; [|intros r d ?; by left]. intros r d (Hb & Hh & Hp). pose proof (gl_push branch r d) as Hl.
    destruct (git_push branch r d) as [[x r'] d']. destruct Hl as (_ & E1 & E2 & _ & Hx).
    assert (accepted branch r r' → stale_pushed r') as Hacc.
    { intros (old & c & Hc & Hold & Ep). exists old, c. split; [congruence|]. split; [done|]. by rewrite Ep, Hp. }
    destruct x as [?|e]; [by apply Hacc|]. destruct Hx as [E|[? ?]]; [left|right; auto]. split_and!; [congruence..].
  - intros [?|e]; by apply gspec_ret.
Qed.
End other.
End git_proofs.

(** ** The two publishers *)

Section published.
Context (rnd : disk → path → string → string) (root : path).
Context (unmarshal_map : bytes → result string (option (gmap string bytes))).
Context (unmarshal_versions : bytes → result string (list string)).
Context (marshal_versions : list string → bytes) (marshal_map : gmap string bytes → bytes).
Context `{GitLaws} (bot : Identity) (remote bzlhub_version now : string) (tempfile_error : option string).
Abbreviation direct_Publish := (direct_Publish rnd root unmarshal_map unmarshal_versions marshal_versions marshal_map bot remote
  bzlhub_version now tempfile_error).
Abbreviation direct_attempt := (direct_attempt rnd root unmarshal_map unmarshal_versions marshal_versions marshal_map bot remote
  bzlhub_version now tempfile_error).
Abbreviation clean := (clean root).
Abbreviation pushed_commit := (pushed_commit root unmarshal_map unmarshal_versions marshal_versions marshal_map bot bzlhub_version now).

(** The publisher's loop: two attempts, the second after a push that was rejected. *)
Lemma direct_twice branch req (start : repo → disk → Prop) (pushed_ok : Receipt → repo → disk → Prop) (pushed_by failed : repo → Prop) :
  (∀ r d, start r d → failed r) →
  gspec start (direct_attempt branch req) (λ a r d,
    match a with
    | Pushed rc => pushed_by r ∧ pushed_ok rc r d
    | PushFailed e => start r d ∨ (isNonFastForward e = false ∧ pushed_by r)
    | Failed _ => failed r
    end) →
  gspec start (direct_Publish branch req) (λ out r d, (failed r ∨ pushed_by r) ∧ (∀ rc, out = Ok rc → pushed_ok rc r d)).
Proof.
  intros Hs Ha. unfold Publish.direct_Publish. destruct (validate_requester req); [apply gspec_ret; intros r d Hr; split; [left; eauto|done]|].
  eapply gspec_bind; [exact Ha|]. intros [rc|e|e]; cbn beta.
  - apply gspec_ret. intros r d [Hp Hok]. split; [by right|]. by intros rc' [= <-].
  - destruct (isNonFastForward e) eqn:He; cbn [negb].
    + eapply gspec_bind; [eapply gspec_weaken; [exact Ha|intros r d [Hr|[? _]]; [exact Hr|congruence]|intros a r d Hr; exact Hr]|].
      intros [rc|e'|e']; cbn beta; apply gspec_ret; intros r d Hr.
      * destruct Hr as [Hp Hok]. split; [by right|]. by intros rc' [= <-].
      * split; [|done]. destruct Hr as [Hr|[_ Hr]]; [left; eauto|by right].
      * split; [by left|done].
    + apply gspec_ret. intros r d [Hr|[_ Hr]]; (split; [|done]); [left; eauto|by right].
  - apply gspec_ret. intros r d Hr. split; [by left|done].
Qed.


(** *** With a pull request *)

Context (OpenPR : OpenPROpts → result string (string * Z)) (labels : list string) (repo_name : string).
Abbreviation pr_Publish := (pr_Publish rnd root unmarshal_map unmarshal_versions marshal_versions marshal_map bot
  bzlhub_version now tempfile_error OpenPR labels repo_name).
Abbreviation branch_of req := (BranchName "add" (pq_Module req) (pq_Version req)).

(** The directory of a version, and a tree that has nothing in it. *)
Abbreviation version_dir req := (root ++ ["modules"; pq_Module req; pq_Version req]).
Definition absent (req : PublishRequest) (base : commit) : Prop :=
  ∀ p x l, p = version_dir req ++ x :: l → c_tree base !! p = None.

Lemma spec_createBranch B L D K req base branch :
  gspec (λ r d, on B L base r ∧ at_commit root req D K base d) (createBranch branch)
    (λ x r d, rp_pushed r = L ∧ (is_ok x = true → on branch L base r ∧ at_commit root req D K base d)).
Proof.
  unfold createBranch. eapply gspec_bind with (R := λ _ r d, on B L base r ∧ at_commit root req D K base d).
  - apply gspec_run; [|by intros]. intros r d [Hon Hat]. pose proof (gl_delete branch r d) as Hl.
    destruct (git_delete_branch branch r d) as [[x r'] d']. destruct Hl as (-> & Hne & ->). split; [|done].
    destruct (is_ok x) eqn:Hx; [|done]. destruct Hon as (Hb & Hh & Hi & Hp). unfold on. simpl.
    rewrite lookup_delete_ne; [done|]. intros ->. by rewrite Hb in Hne; specialize (Hne eq_refl).
  - intros ?. apply gspec_run; [|intros r d [(_ & _ & _ & ?) _]; by split]. intros r d [(Hb & Hh & Hi & Hp) Hat].
    pose proof (gl_checkout branch r d) as Hl. destruct (git_checkout_new branch r d) as [[x r'] d'].
    destruct Hl as [-> Hl]. destruct (is_ok x); [|by subst].
    destruct Hl as (_ & h & Hh' & ->). rewrite Hb, Hh in Hh'. injection Hh' as <-. split; [done|]. intros _.
    split; [|done]. unfold on. simpl. by rewrite lookup_insert_eq.
Qed.

Lemma spec_absent D K req base d : Archive.plain (pq_Module req) → Archive.plain (pq_Version req) →
  at_commit root req D K base d → joined root ["modules"; pq_Module req; pq_Version req] ∉ dirs d → absent req base.
Proof.
  intros Hm Hv Hat Hn p x l ->. destruct (c_tree base !! (version_dir req ++ x :: l)) as [c|] eqn:E; [|done]. exfalso. apply Hn.
  rewrite joined_plain by plains. eapply (at_dirs _ _ _ _ _ _ Hat); [by apply elem_of_dom; eexists|].
  assert (length (version_dir req ++ x :: l) = length (version_dir req) + S (length l)) as El by by rewrite length_app.
  assert (0 < length (version_dir req)) as Hpos by (rewrite length_app; simpl; lia).
  unfold parents. apply elem_of_list_to_set, list_elem_of_fmap. exists (length (version_dir req)). unfold dir_of. rewrite El. split.
  - rewrite take_take, Nat.min_l by lia. by rewrite take_app_length.
  - apply elem_of_seq. rewrite length_take, El. lia.
Qed.

Abbreviation pr_on_branch := (pr_on_branch rnd root unmarshal_map unmarshal_versions marshal_versions marshal_map bot
  bzlhub_version now tempfile_error OpenPR labels repo_name).

(** What a call has come to, from its commit on. *)
Definition requested (req : PublishRequest) (baseBranch : string) (L : list (string * option commit * commit)) (K : Prop)
    (ok : commit → Prop) (out : result string Receipt) (r : repo) (d : disk) : Prop :=
  let pushed base c := pushed_commit req L (branch_of req) K base c r ∧ ok base in
  (rp_pushed r = L ∨ ∃ base c, pushed base c) ∧
  (∀ rc, out = Ok rc → clean (pq_Module req) r d ∧ ∃ base c, pushed base c ∧ rc_Commit rc = git_sha c ∧
     OpenPR (mkOpenPROpts ("Add " +:+ pq_Module req +:+ "@" +:+ pq_Version req) (buildPRBody req (git_sha c)) (branch_of req) baseBranch labels)
     = Ok (rc_PRURL rc, rc_PRNumber rc)).

Lemma requested_fail req baseBranch L K ok e r d : rp_pushed r = L → requested req baseBranch L K ok (Err e) r d.
Proof. intros E. split; [by left|done]. Qed.

Lemma spec_pr_on_branch req baseBranch L D K (ok : commit → Prop) base :
  Archive.plain (pq_Module req) → Archive.plain (pq_Version req) → unignored root (pq_Module req) D → ok base →
  gspec (λ r d, on (branch_of req) L base r ∧ at_commit root req D K base d) (pr_on_branch baseBranch (branch_of req) req)
    (requested req baseBranch L K ok).
Proof.
  intros Hm Hv Hign Hok. set (b := branch_of req). unfold Publish.pr_on_branch.
  assert (∀ e r d, rp_pushed r = L → requested req baseBranch L K ok (Err e) r d) as Hfail by (intros; by apply requested_fail).
  eapply gspec_try; [by apply (spec_fs rnd root unmarshal_map unmarshal_versions marshal_versions marshal_map req Hm Hv D b L K base)
    | |intros e r0 d0 [? _]; by apply Hfail]. intros ?.
  eapply gspec_try; [eapply gspec_weaken; [by apply (spec_add rnd root unmarshal_map unmarshal_versions marshal_versions marshal_map
    remote req Hm Hv D Hign b L K base)|intros r0 d0 [_ Hx]; by apply Hx|intros x r0 d0 Hx; exact Hx]| |intros e r0 d0 [? _]; by apply Hfail].
  intros ?.
  eapply gspec_try; [eapply gspec_weaken; [by apply (spec_commit root unmarshal_map unmarshal_versions marshal_versions marshal_map bot
    bzlhub_version now tempfile_error req D b L K base)|intros r0 d0 [_ Hx]; by apply Hx|intros x r0 d0 Hx; exact Hx]| |intros e r0 d0 [? _]; by apply Hfail].
  intros sha.
  apply (gspec_weaken (λ r d, ∃ c, sha = git_sha c ∧ committed root unmarshal_map unmarshal_versions marshal_versions marshal_map bot
    bzlhub_version now req D b L K base c r d) _ _ (requested req baseBranch L K ok)); [|intros r0 d0 [_ Hx]; by apply Hx|done].
  apply gspec_exists. intros c. apply gspec_pure. intros ->.
  eapply gspec_try; [apply (spec_push root unmarshal_map unmarshal_versions marshal_versions marshal_map bot bzlhub_version now req D b L K base c)| |].
  - intros ?. destruct (OpenPR _) as [[url number]|e] eqn:Hpr; apply gspec_ret; intros r0 d0 (_ & Hc & Hp);
      (split; [right; exists base, c; by split|]); [|done]. intros rc [= <-]. split; [apply Hc|]. by exists base, c.
  - intros e r0 d0 (_ & _ & [?|[_ ?]]); [by apply Hfail|]. split; [right; exists base, c; by split|done].
Qed.


(** C36: The branch of a version cannot be made while it is checked out: after a call that came
    as far as its branch and then failed, or succeeded, every further call for the same
    version is refused, before anything is written, until a call for another one leaves
    the branch. *)
Theorem retry_refused baseBranch req r w :
  rp_branch r = branch_of req →
  let '((out, r'), w') := pr_Publish baseBranch req r w in is_ok out = false ∧ rp_pushed r' = rp_pushed r.
Proof.
  intros Hb. set (L := rp_pushed r). set (Post := λ (out : result string Receipt) (r' : repo) (_ : disk), is_ok out = false ∧ rp_pushed r' = L).
  assert (∀ what e (r : repo) (d : disk), rp_pushed r = L → Post (Err (what +:+ e)) r d) as Hfail by (intros; by split).
  assert (gspec (before root req (w_disk w) (branch_of req) L False) (pr_Publish baseBranch req) Post) as Hspec.
  { unfold Publish.pr_Publish. destruct (validate_requester req); [by apply gspec_ret; intros r0 d0 (_ & ? & _)|].
    cbn zeta. eapply gspec_try; [by apply spec_syncTo| |intros e r0 d0 [? _]; by apply Hfail]. intros ?.
    set (P := λ (r : repo) (_ : disk), rp_branch r = branch_of req ∧ is_Some (rp_heads r !! branch_of req) ∧ rp_pushed r = L).
    apply (gspec_weaken P _ _ Post); [| |done].
    2: { intros r0 d0 [? Hx]. destruct (Hx eq_refl) as (base & (? & Hh & _ & _) & _). split_and!; [done|by eexists|done]. }
    eapply gspec_try with (R := λ _, P); [by apply gspec_lift; intros r0; by apply spec_call| |by intros e r0 d0 (_ & _ & ?); apply Hfail].
    intros [|]; [by apply gspec_ret; intros r0 d0 (_ & _ & ?)|].
    eapply gspec_try with (R := λ x r d, is_ok x = false ∧ rp_pushed r = L); [| |by intros e r0 d0 [_ ?]; apply Hfail].
    2: { intros ?. intros r0 w0 [? _]. done. }
    unfold createBranch. eapply gspec_bind with (R := λ _, P).
    - apply gspec_run; [|by intros]. intros r0 d0 (Hb0 & Hh0 & Hp0). pose proof (gl_delete (branch_of req) r0 d0) as Hl.
      destruct (git_delete_branch _ r0 d0) as [[x r'] d']. destruct Hl as (_ & Hx & ->). by rewrite Hx.
    - intros ?. apply gspec_run; [|by intros r0 d0 (_ & _ & ?)]. intros r0 d0 (Hb0 & [h Hh0] & Hp0).
      pose proof (gl_checkout (branch_of req) r0 d0) as Hl. destruct (git_checkout_new _ r0 d0) as [[x r'] d'].
      destruct Hl as [_ Hl]. destruct (is_ok x); [|by subst]. destruct Hl as [Hl _]. congruence. }
  specialize (Hspec r w). unfold before in Hspec. destruct (pr_Publish baseBranch req r w) as [[out r'] w']. apply Hspec. split_and!; [done..|]. by right.
Qed.
End published.

(** ** A remote to try it on

    A remote of two branches at first, on one of which another's commit lands between the
    first fetch and the first push. *)

#[export] Instance commit_eq_dec : EqDecision commit.
Proof.
  unfold EqDecision, RelDecision. fix go 1. intros [ps1 t1 a1 k1 m1] [ps2 t2 a2 k2 m2].
  assert (Decision (ps1 = ps2)) as [Hp|Hp].
  { revert ps2. induction ps1 as [|x l1 IH]; intros [|y l2]; [by left|by right|by right|].
    destruct (go x y); [|right; congruence]. destruct (IH l2); [left|right]; congruence. }
  - destruct (decide ((t1, (a1, k1), m1) = (t2, (a2, k2), m2))); [left|right]; congruence.
  - right. congruence.
Defined.

(** Whether a commit is among another's first parents. *)
Fixpoint descends (c o : commit) : bool :=
  bool_decide (c = o) || match c with Commit (p :: _) _ _ _ _ => descends p o | _ => false end.

Lemma descends_ancestor c o : descends c o = true → ancestor o c.
Proof.
  revert c. fix IH 1. intros c Hd. destruct c as [[|p ps] t a k m]; [|pose proof (IH p) as Hp; clear IH]; cbn [descends] in Hd.
  - rewrite orb_false_r in Hd. apply bool_decide_eq_true in Hd as E. rewrite <-E. constructor.
  - apply orb_true_iff in Hd as [E%bool_decide_eq_true|Hd]; [rewrite <-E; constructor|]. eapply anc_step; [by left|]. by apply Hp.
Qed.

Section remote.
Context (initial raced : gmap string commit).

(** The tip of a branch of the remote. *)
Definition remote_tip (b : string) (r : repo) : option commit :=
  match last (filter (λ x, x.1.1 = b) (rp_pushed r)) with
  | Some x => Some x.2
  | None => raced !! b
  end.

Definition set_index (i : gmap path bytes) (r : repo) : repo :=
  mkRepo (rp_branch r) (rp_heads r) i (rp_tracking r) (rp_pushed r).
Definition set_head (c : commit) (r : repo) : repo :=
  mkRepo (rp_branch r) (<[rp_branch r := c]> (rp_heads r)) (rp_index r) (rp_tracking r) (rp_pushed r).

(** A branch's first fetch comes before the other's commit. *)
Definition demo_fetch (b : string) : git unit := λ r d,
  match (match rp_tracking r !! b with None => initial !! b | Some _ => remote_tip b r end) with
  | None => (Err "couldn't find remote ref", r, d)
  | Some t => (Ok tt, mkRepo (rp_branch r) (rp_heads r) (rp_index r) (<[b := t]> (rp_tracking r)) (rp_pushed r), d)
  end.

Definition demo_reset (b : string) : git unit := λ r d,
  match rp_tracking r !! b with
  | None => (Err "unknown revision", r, d)
  | Some t =>
      (Ok tt, mkRepo (rp_branch r) (<[rp_branch r := t]> (rp_heads r)) (c_tree t) (rp_tracking r) (rp_pushed r),
       mkDisk (((λ c, (c, true)) <$> c_tree t) ∪ filter (λ x, x.1 ∉ dom (rp_index r)) (files d))
              (dirs d ∪ ⋃ ((λ p, parents (dir_of p)) <$> elements (dom (c_tree t)))))
  end.

Definition demo_ignored (_ : disk) (p : path) : bool := bool_decide (under (demo_root_path ++ ["blobs"]) p).

(** No wildcards. *)
Definition demo_matches (_ : string) (_ : path) : bool := false.
Definition demo_add (wt : path) (specs : list string) : git unit := λ r d,
  let hit p s := under (joined wt [s]) p ∨ demo_matches s p = true in
  let taken p := Exists (hit p) specs ∧ (demo_ignored d p = false ∨ p ∈ dom (rp_index r)) in
  if decide (Forall (λ s, Exists (λ p, hit p s) (elements (dom (files d) ∪ dom (rp_index r)))) specs) then
    (Ok tt, set_index (filter (λ x, taken x.1) (fst <$> files d) ∪ filter (λ x, ¬ taken x.1) (rp_index r)) r, d)
  else (Err "pathspec did not match any files", r, d).

(** The name before the bracket, the address in it. *)
Fixpoint until (c : ascii) (l : bytes) : bytes * bytes :=
  match l with
  | [] => ([], [])
  | x :: l => if decide (x = c) then ([], l) else let '(a, b) := until c l in (x :: a, b)
  end.
Definition demo_author (s : string) : Identity :=
  let '(name, rest) := until "<"%char (to_bytes s) in
  mkIdentity (of_bytes (take (length name - 1) name)) (of_bytes (until ">"%char rest).1).

Definition demo_commit (k : Identity) (a : string) (m : string) : git unit := λ r d,
  match rp_heads r !! rp_branch r with
  | None => (Err "no commit yet", r, d)
  | Some h => if decide (c_tree h = rp_index r) then (Err "nothing to commit", r, d)
              else (Ok tt, set_head (Commit [h] (rp_index r) (demo_author a) k (TrimSpace m)) r, d)
  end.

Definition demo_rev_parse : git string := λ r d,
  match rp_heads r !! rp_branch r with None => (Err "unknown revision", r, d) | Some c => (Ok (c_message c +:+ nl), r, d) end.

Definition demo_push (b : string) : git unit := λ r d,
  match rp_heads r !! b with
  | None => (Err "src refspec does not match any", r, d)
  | Some c =>
      let tip := remote_tip b r in
      if match tip with Some o => descends c o | None => true end then
        (Ok tt, mkRepo (rp_branch r) (rp_heads r) (rp_index r) (rp_tracking r) (rp_pushed r ++ [(b, tip, c)]), d)
      else (Err "Updates were rejected", r, d)
  end.

Definition demo_delete (b : string) : git unit := λ r d,
  if decide (b = rp_branch r) then (Err "cannot delete branch", r, d)
  else match rp_heads r !! b with
       | None => (Err "branch not found", r, d)
       | Some _ => (Ok tt, mkRepo (rp_branch r) (delete b (rp_heads r)) (rp_index r) (rp_tracking r) (rp_pushed r), d)
       end.

Definition demo_checkout (b : string) : git unit := λ r d,
  match rp_heads r !! b, rp_heads r !! rp_branch r with
  | None, Some h => (Ok tt, mkRepo b (<[b := h]> (rp_heads r)) (rp_index r) (rp_tracking r) (rp_pushed r), d)
  | _, _ => (Err "a branch already exists", r, d)
  end.

Definition demo_git : GitCommands := {|
  git_fetch := demo_fetch; git_reset := demo_reset; git_add := demo_add; git_commit := demo_commit;
  git_rev_parse := demo_rev_parse; git_push := demo_push; git_delete_branch := demo_delete;
  git_checkout_new := demo_checkout; git_sha := λ c, TrimSpace (c_message c +:+ nl); git_ignored := demo_ignored;
  git_matches := demo_matches; git_cleanup := TrimSpace; git_ident := id; git_author := demo_author;
|}.

Lemma demo_reset_checked_out t r d :
  checked_out t r d (mkDisk (((λ c, (c, true)) <$> c_tree t) ∪ filter (λ x, x.1 ∉ dom (rp_index r)) (files d))
    (dirs d ∪ ⋃ ((λ p, parents (dir_of p)) <$> elements (dom (c_tree t))))).
Proof.
  split; unfold content; simpl.
  - intros p c E. by rewrite (lookup_union_Some_l _ _ p (c, true)) by by rewrite lookup_fmap, E.
  - intros p E. rewrite lookup_union_r by by rewrite lookup_fmap, E.
    destruct (decide (p ∈ dom (rp_index r))) as [Hd|Hd].
    + left. destruct (filter _ _ !! p) eqn:Ef; [|done]. by apply map_lookup_filter_Some in Ef as [_ []].
    + right. split; [done|]. f_equal. destruct (files d !! p) as [x|] eqn:Ep.
      * by apply map_lookup_filter_Some.
      * apply map_lookup_filter_None. by left.
  - intros p q Hp Hq. apply elem_of_union. right. apply elem_of_union_list. exists (parents (dir_of p)). split; [|done].
    apply list_elem_of_fmap. exists p. split; [done|]. by apply elem_of_elements.
Qed.

Lemma until_found c l r : c ∉ l → until c (l ++ c :: r) = (l, r).
Proof.
  induction l as [|x l IH]; simpl; intros Hc; [by rewrite decide_True|]. apply not_elem_of_cons in Hc as [Hx Hl].
  rewrite decide_False by done. by rewrite IH.
Qed.

Lemma demo_author_clean i : clean_identity i → demo_author (Identity_String i) = i.
Proof.
  intros (Hne & [Hn _] & [He _]). unfold Identity_String, IsZero. rewrite bool_decide_eq_false_2 by tauto.
  unfold demo_author. rewrite !to_bytes_app.
  change (to_bytes " <") with [" "%char; "<"%char]. change (to_bytes ">") with [">"%char].
  replace (to_bytes (id_Name i) ++ [" "%char; "<"%char] ++ to_bytes (id_Email i) ++ [">"%char])
    with ((to_bytes (id_Name i) ++ [" "%char]) ++ "<"%char :: to_bytes (id_Email i) ++ ">"%char :: []) by by rewrite <-app_assoc.
  assert (∀ c s, c ∈ to_bytes "<>" → Forall (λ c, (c ∉ to_bytes "<>") ∧ 32 ≤ nat_of_ascii c) (to_bytes s) → c ∉ to_bytes s) as Hout.
  { intros c s Hc Hs Hin. rewrite Forall_forall in Hs. by apply (Hs c Hin). }
  rewrite until_found, until_found by first
    [apply not_elem_of_app; split; [apply Hout; [left|done]|by intros [=]%list_elem_of_singleton] | apply Hout; [right; left|done]].
  rewrite length_app. simpl. rewrite Nat.add_sub, take_app_length, !of_to_bytes. by destruct i.
Qed.

Lemma demo_laws : @GitLaws demo_git.
Proof.
  split.
  - intros b r d. cbn -[remote_tip]. unfold demo_fetch.
    destruct (match rp_tracking r !! b with None => _ | Some _ => _ end) as [t|]; [|by split_and!].
    split_and!; try done. intros _. simpl. rewrite lookup_insert_eq. by eexists.
  - intros b r d. cbn. unfold demo_reset. destruct (rp_tracking r !! b) as [t|]; [|by split].
    split; [done|]. intros _. exists t. split; [done|]. split; [apply demo_reset_checked_out|done].
  - intros wt specs r d. cbn -[demo_ignored demo_matches selected]. unfold demo_add.
    set (sel := λ p, selected (H := demo_git) wt specs p ∧ (demo_ignored d p = false ∨ p ∈ dom (rp_index r))).
    case_decide; [|by split_and!]. split_and!; try done. intros _ p. simpl. fold (sel p). case_decide as Hs.
    + unfold content. destruct (files d !! p) as [x|] eqn:Ep; simpl.
      * apply lookup_union_Some_l, map_lookup_filter_Some. by rewrite lookup_fmap, Ep.
      * apply lookup_union_None. split; apply map_lookup_filter_None; [left; by rewrite lookup_fmap, Ep|]. right. intros x _ Hn. by apply Hn.
    + rewrite lookup_union_r by (apply map_lookup_filter_None; right; intros x _ Hn; by apply Hs).
      destruct (rp_index r !! p) eqn:Ep; [by apply map_lookup_filter_Some|apply map_lookup_filter_None; by left].
  - done.
  - intros k a m r d. cbn -[demo_author]. unfold demo_commit. destruct (rp_heads r !! rp_branch r) as [h|]; [|by split_and!].
    case_decide; [by split_and!|]. split_and!; try done. intros _. by exists h.
  - done.
  - apply demo_author_clean.
  - intros r d. cbn. unfold demo_rev_parse. destruct (rp_heads r !! rp_branch r) as [c|]; split_and!; try done.
    intros s [= <-]. by exists c.
  - intros b r d. cbn -[remote_tip]. unfold demo_push. destruct (rp_heads r !! b) as [c|] eqn:Hb; [|by split_and!; [..|left]].
    destruct (match remote_tip b r with Some _ => _ | None => _ end) eqn:Ht; [|by split_and!; [..|left]].
    split_and!; try done. exists (remote_tip b r), c. split_and!; try done. intros o Ho. rewrite Ho in Ht. by apply descends_ancestor.
  - intros b r d. cbn. unfold demo_delete. case_decide; [by split_and!|]. destruct (rp_heads r !! b); by split_and!.
  - intros b r d. cbn. unfold demo_checkout. destruct (rp_heads r !! b); [by split|].
    destruct (rp_heads r !! rp_branch r) as [h|] eqn:Eh; [|by split]. split; [done|]. split; [done|]. by exists h.
Qed.
End remote.

Definition demo_bot : Identity := mkIdentity "bzlhub-bot" "bot@example.org".
Definition demo_user : Identity := mkIdentity "Ada" "ada@example.org".
Definition demo_tree : gmap path bytes :=
  {[joined demo_root_path ["bazel_registry.json"] := to_bytes "{}"; joined demo_root_path [".gitignore"] := to_bytes "blobs/"]}.
Definition demo_initial : commit := Commit [] demo_tree demo_user demo_user "initial".
Definition demo_other : commit :=
  Commit [demo_initial] (<[joined demo_root_path ["modules"; "b"; "1"; "source.json"] := to_bytes "b"]> demo_tree) demo_user demo_user "other".
Definition demo_remote : GitCommands := demo_git {["main" := demo_initial]} {["main" := demo_other]}.
Definition demo_clone : repo := mkRepo "main" {["main" := demo_initial]} demo_tree ∅ [].
Definition demo_world (extra : gmap path (bytes * bool)) (faults : list fault) : world :=
  mkWorld (mkDisk (((λ c, (c, true)) <$> demo_tree) ∪ extra) (foldr (λ p s, parents (dir_of p) ∪ s) (parents demo_root_path) (map_to_list extra).*1)) faults true.
Definition demo_request (v : string) : PublishRequest :=
  mkRequest "a" v (to_bytes "source") (to_bytes "module()") [] (mkBlobRef "sha256-x" 5) demo_user "https://example.org/a.tar.gz".
Definition demo_direct (v : string) : gm (result string Receipt) :=
  direct_Publish demo_rnd demo_root_path demo_unmarshal_map demo_unmarshal_versions demo_marshal_versions demo_marshal_map
    (H := demo_remote) demo_bot "origin" "1.0" "now" None "main" (demo_request v).
Definition demo_pr (forge : OpenPROpts → result string (string * Z)) (v : string) : gm (result string Receipt) :=
  pr_Publish demo_rnd demo_root_path demo_unmarshal_map demo_unmarshal_versions demo_marshal_versions demo_marshal_map
    (H := demo_remote) demo_bot "1.0" "now" None forge [] "bzl/registry" "main" (demo_request v).
(** A plan under which the n-th call to the file system fails. *)
Definition fails_at (n : nat) : list fault := repeat Fine n ++ [Fails 0 "no space"].

(** A direct publish that fails after its first file leaves it behind, and the next one of
    the module commits and pushes it: the version is in the registry, without a
    MODULE.bazel. *)
Example leftover_pushed :
  let '((_, r), w) := demo_direct "1" demo_clone (demo_world ∅ (fails_at 7)) in
  let '((out, r'), _) := demo_direct "2" r (mkWorld (w_disk w) [] true) in
  is_ok out = true ∧ rp_pushed r = [] ∧
  match rp_pushed r' with
  | [(_, _, c)] => c_tree c !! version_file demo_root_path "a" "1" "source.json" = Some (to_bytes "source") ∧
                   c_tree c !! version_file demo_root_path "a" "1" "MODULE.bazel" = None
  | _ => False
  end.
Proof. vm_compute. repeat split; reflexivity. Qed.

(** After a call that failed on its way, the version is said to be in the registry. *)
Example leftover_refused :
  let forge := λ _, Ok ("https://example.org/1", 1%Z) in
  let '((_, r), w) := demo_pr forge "1" demo_clone (demo_world ∅ (fails_at 8)) in
  let '((out, r'), _) := demo_pr forge "1" r (mkWorld (w_disk w) [] true) in
  out = Err "publish: a@1 already exists on main (variant immutability)" ∧ rp_pushed r' = [].
Proof. vm_compute. repeat split; reflexivity. Qed.

Lemma demo_unignored d0 : @unignored demo_root_path demo_remote "a" d0.
Proof.
  intros t d _ _ p [l ->]. cbn. unfold demo_ignored. apply bool_decide_eq_false. intros [k E].
  apply (f_equal (λ p, nth 2 p "")) in E. done.
Qed.

(** A clone with another branch checked out, and a remote that no one else has moved: the
    publish succeeds, and what is pushed is the tip the remote has. *)
Example other_branch_unpushed :
  let quiet := demo_git {["main" := demo_initial]} {["main" := demo_initial]} in
  let clone := mkRepo "work" {["main" := demo_initial; "work" := demo_initial]} demo_tree ∅ [] in
  let '((out, r), _) := direct_Publish demo_rnd demo_root_path demo_unmarshal_map demo_unmarshal_versions demo_marshal_versions demo_marshal_map
    (H := quiet) demo_bot "origin" "1.0" "now" None "main" (demo_request "1") clone (demo_world ∅ []) in
  is_ok out = true ∧ rp_pushed r = [("main", Some demo_initial, demo_initial)] ∧ rp_heads r !! "main" = Some demo_initial.
Proof. vm_compute. repeat split; reflexivity. Qed.

Lemma demo_plain v : v ∈ ["1"; "2"] → Archive.plain (pq_Module (demo_request v)) ∧ Archive.plain (pq_Version (demo_request v)).
Proof. intros [->|[->|[]%elem_of_nil]%elem_of_cons]%elem_of_cons; split; by apply plain_lit. Qed.



Lemma retry_refused_witness :
  let '((out, r), w) := demo_pr (λ _, Err "busy") "1" demo_clone (demo_world ∅ []) in
  out = Err "open pr: busy" ∧
  let '((out', r'), _) := demo_pr (λ _, Ok ("https://example.org/1", 1%Z)) "1" r w in is_ok out' = false ∧ rp_pushed r' = rp_pushed r.
Proof.
  assert ((demo_pr (λ _, Err "busy") "1" demo_clone (demo_world ∅ [])).1.1 = Err "open pr: busy" ∧
          rp_branch (demo_pr (λ _, Err "busy") "1" demo_clone (demo_world ∅ [])).1.2 = "bzlhub/add-a-1") as [Ho Hb]
    by (vm_compute; by split).
  destruct (demo_pr (λ _, Err "busy") "1" demo_clone (demo_world ∅ [])) as [[out r] w]. split; [exact Ho|].
  apply (@retry_refused demo_rnd demo_root_path demo_unmarshal_map demo_unmarshal_versions demo_marshal_versions demo_marshal_map
    demo_remote (demo_laws _ _) demo_bot "1.0" "now" None (λ _, Ok ("https://example.org/1", 1%Z)) [] "bzl/registry" "main" (demo_request "1")).
  exact Hb.
Defined.
