(* ===== verification/Codenav.v ===== *)
(** * Sources for code navigation

    [internal/codenav]: the unpacking of a mirrored archive into the cache directory
    (unpack.go), on the disk with faults and crashes of FileSystem.v, and the resolver's
    bounded cache of unpacked sources (codenav.go), whose callers are interleaved.  The
    parser of source.json, the decompressors, the source index and the order in which a
    directory is removed are parameters. *)

From S2P Require Import Prelude Strings Archive Digest FileSystem Mirror Resolve.

(** ** The kind of an archive *)

Inductive archiveKind : Type := archiveUnknown | archiveTarGz | archiveZip.

(** [detectArchiveKind] *)
Definition detectArchiveKind (declared url : string) : archiveKind :=
  let d := ToLower declared in
  if decide (d = "tar.gz" ∨ d = "tgz") then archiveTarGz
  else if decide (d = "zip") then archiveZip
  else if decide (d ≠ "") then archiveUnknown
  else
    let lower := of_bytes (before_query (to_bytes (ToLower url))) in
    if HasSuffix lower ".zip" then archiveZip
    else if HasSuffix lower ".tar.gz" || HasSuffix lower ".tgz" then archiveTarGz
    else archiveTarGz.

(** [sourceDescriptor] *)
Record sourceDescriptor := mkDescriptor {
  sd_Integrity : string;
  sd_StripPrefix : string;
  sd_ArchiveType : string;
  sd_URL : string;
}.

(** ** More calls of [os] *)

(** The paths beneath a path. *)
Definition beneath (s p : path) : Prop := s `prefix_of` p.
#[export] Instance beneath_dec s p : Decision (beneath s p).
Proof. unfold beneath. apply _. Defined.

(** A rooted path as text. *)
Definition rooted (p : path) : string := "/" +:+ Join p "/".

(** [os.OpenFile] with O_CREATE and O_TRUNC. *)
Definition openTrunc (p : path) : os (result string unit) :=
  call (λ _ msg, Err msg) (λ _ d, d)
    (λ d, if decide (p ∈ dirs d) then (Err "is a directory", d) else (Ok tt, set_files <[p := ([], false)]> d)).

(** [os.WriteFile]: open, write, close. *)
Definition writeFile (p : path) (data : bytes) : os (result string unit) :=
  try_ (openTrunc p) (λ _,
  '(_, err) ← write p data;
  match err with Some e => mret (Err e) | None => closeFile p end).

(** A call of an extraction; the error of the deferred [Close] is not looked at. *)
Definition run_call (c : fs_call) : os (result string unit) :=
  match c with
  | MkdirAll p => mkdirAll (segs p)
  | WriteFile p _ data =>
      try_ (openTrunc (segs p)) (λ _,
      '(_, err) ← write (segs p) data;
      _ ← closeFile (segs p);
      mret (match err with Some e => Err e | None => Ok tt end))
  end.

Fixpoint run_calls (cs : list fs_call) : os (result string unit) :=
  match cs with [] => mret (Ok tt) | c :: cs => try_ (run_call c) (λ _, run_calls cs) end.

(** Reads of an open file: all of it, or what comes before an error. *)
Definition readAll (p : path) : os (bytes * option string) :=
  content ← (λ w, (default [] (fst <$> files (w_disk w) !! p), w)) : os bytes;
  cut ← call (λ n msg, Some (n, msg)) (λ _ d, d) (λ d, (None, d));
  mret (match cut with None => (content, None) | Some (n, msg) => (take n content, Some msg) end).

(** ** Unpacking *)

Definition completeSentinel : string := ".bzlhub-unpack-complete".
Definition legacyCompleteSentinel : string := ".canopy-unpack-complete".

Section unpack.
Context (parse : bytes → result string sourceDescriptor).
(** What the gzip and tar readers make of a stream, and the zip reader. *)
Context (read_targz : bytes * option string → result string (list (result string entry))).
Context (open_entry : entry → option string) (read_zip : bytes → result string (list entry)).
(** The order in which a directory's files are removed. *)
Context (removal : disk → path → list path).

(** [os.RemoveAll] *)
Definition removeAll (p : path) : os (result string unit) :=
  call (λ _ msg, Err msg) (λ n d, set_files (filter (λ x, ¬ (beneath p x.1 ∧ x.1 ∈ take n (removal d p)))) d)
    (λ d, (Ok tt, mkDisk (filter (λ x, ¬ beneath p x.1) (files d)) (filter (λ q, ¬ beneath p q) (dirs d)))).

(** [extractComplete] *)
Definition extractComplete (destDir : path) : os bool :=
  (fix go names := match names with
                   | [] => mret false
                   | name :: names => found ← stat (joined destDir [name]); if (found : bool) then mret true else go names
                   end) [completeSentinel; legacyCompleteSentinel].

(** [readSourceDescriptor] *)
Definition readSourceDescriptor (p : path) : os (result string sourceDescriptor) :=
  b ← readFile p;
  mret (match b with
        | Err NotExist => Err "codenav: read source.json: no such file"
        | Err (ReadFailed e) => Err ("codenav: read source.json: " +:+ e)
        | Ok b => map_err (λ e, "codenav: parse source.json: " +:+ e) (parse b)
        end).

(** What an extractor does with a stream: its calls, in order, and how it ends. *)
Definition extraction (src : sourceDescriptor) (destDir : path) (stream : bytes * option string) : list fs_call * option string :=
  let text := const "extract" in
  match detectArchiveKind (sd_ArchiveType src) (sd_URL src) with
  | archiveZip =>
      let o := ExtractZip (λ _, None) (λ _, None) (rooted destDir) (sd_StripPrefix src) MaxExtractBytes open_entry stream read_zip in
      (o.1.2, text <$> o.2)
  | archiveTarGz =>
      let o := ExtractTarGz (λ _, None) (λ _, None) (rooted destDir) (sd_StripPrefix src) MaxExtractBytes (read_targz stream) in
      (o.1.2, text <$> o.2)
  | archiveUnknown => ([], Some ("codenav: unsupported archive_type " +:+ sd_ArchiveType src))
  end.

(** [extractByKind]: the first call that fails ends it. *)
Definition extractByKind (src : sourceDescriptor) (destDir : path) (stream : bytes * option string) : os (result string unit) :=
  let '(calls, err) := extraction src destDir stream in
  try_ (run_calls calls) (λ _, mret (match err with Some e => Err e | None => Ok tt end)).

(** [unpackSource] after the check for an earlier one. *)
Definition unpack_fresh (blobsDir sourceJSONPath destDir : path) : os (result string unit) :=
  try_ (readSourceDescriptor sourceJSONPath) (λ src,
  if decide (sd_Integrity src = "") then mret (Err "codenav: source.json missing integrity")
  else
    match codenav_integrityToHex (sd_Integrity src) with
    | Err _ => mret (Err "codenav: decode integrity")
    | Ok hexName =>
        opened ← call (λ _ msg, Some msg) (λ _ d, d)
                   (λ d, (if decide (joined blobsDir [hexName] ∈ dom (files d)) then None else Some "no such file", d));
        match opened with
        | Some e => mret (Err ("codenav: open blob " +:+ hexName +:+ ": " +:+ e))
        | None =>
            try_ (mkdirAll destDir) (λ _,
            stream ← readAll (joined blobsDir [hexName]);
            extracted ← extractByKind src destDir stream;
            match extracted with
            | Err e => mret (Err ("codenav: extract: " +:+ e))
            | Ok _ => writeFile (joined destDir [completeSentinel]) []
            end)
        end
    end).

(** [unpackSource] *)
Definition unpackSource (blobsDir sourceJSONPath destDir : path) : os (result string unit) :=
  complete ← extractComplete destDir;
  if (complete : bool) then mret (Ok tt)
  else
    there ← stat destDir;
    if (there : bool) then try_ (removeAll destDir) (λ _, unpack_fresh blobsDir sourceJSONPath destDir)
    else unpack_fresh blobsDir sourceJSONPath destDir.

Definition source_json (mirrorDir : path) (module version : string) : path := joined mirrorDir ["modules"; module; version; "source.json"].
Definition dest_dir (cacheDir : path) (module version : string) : path := joined cacheDir [module; version].

(** [MaterializeSource] *)
Definition MaterializeSource (mirrorDir cacheDir : path) (module version : string) : os (result string path) :=
  try_ (unpackSource (joined mirrorDir ["blobs"]) (source_json mirrorDir module version) (dest_dir cacheDir module version))
    (λ _, mret (Ok (dest_dir cacheDir module version))).
End unpack.

(** ** What an unpacked source is *)

(** The files a list of calls leaves where there were none. *)
Definition tree_of (calls : list fs_call) : gmap path bytes :=
  foldl (λ t c, match c with WriteFile p _ data => <[segs p := data]> t | MkdirAll _ => t end) ∅ calls.

(** The content of a file. *)
Definition content (d : disk) (p : path) : option bytes := fst <$> files d !! p.

(** A path that is there. *)
Definition there (d : disk) (p : path) : Prop := p ∈ dom (files d) ∨ p ∈ dirs d.
#[export] Instance there_dec d p : Decision (there d p).
Proof. unfold there. apply _. Defined.

Definition sentinels : list string := [completeSentinel; legacyCompleteSentinel].

(** What [extractComplete] looks for. *)
Definition trusted (destDir : path) (d : disk) : Prop := Exists (λ name, there d (destDir ++ [name])) sentinels.

Lemma plain_sentinels : Forall plain sentinels.
Proof. unfold sentinels. plains. Qed.

(** ** Paths *)

Lemma beneath_refl s : beneath s s.
Proof. done. Qed.

Lemma beneath_app s l : beneath s (s ++ l).
Proof. by exists l. Qed.

Lemma not_beneath_snoc s x : ¬ beneath (s ++ [x]) s.
Proof. intros [l E]. apply (f_equal length) in E. rewrite !length_app in E. simpl in E. lia. Qed.

Lemma beneath_trans a b c : beneath a b → beneath b c → beneath a c.
Proof. unfold beneath. apply transitivity. Qed.

Lemma beneath_parents s p q : q ∈ parents p → beneath s q → beneath s p.
Proof. intros [k ->]%parents_take H. eapply beneath_trans; [done|]. exists (drop k p). by rewrite take_drop. Qed.

Lemma parents_self p : p ≠ [] → p ∈ parents p.
Proof.
  intros Hp. unfold parents. apply elem_of_list_to_set, list_elem_of_fmap. exists (length p). split; [by rewrite firstn_all|].
  apply elem_of_seq. destruct p; [done|simpl; lia].
Qed.

Lemma parents_prefix s p : s ≠ [] → beneath s p → s ∈ parents p.
Proof.
  intros Hs [l ->]. unfold parents. apply elem_of_list_to_set, list_elem_of_fmap. exists (length s). rewrite take_app_length.
  split; [done|]. apply elem_of_seq. rewrite length_app. destruct s; [done|simpl; lia].
Qed.

Lemma segs_under ds ns : ds ≠ [] → Forall plain ds → Forall plain ns → segs (under (rooted ds) ns) = ds ++ ns.
Proof. intros H1 H2 H3. unfold rooted. rewrite <-Join_app_seg by done. apply segs_rooted. by apply Forall_app. Qed.

Lemma rooted_ok ds : ds ≠ [] → Forall plain ds → dest_ok (rooted ds).
Proof. intros. by exists ds. Qed.

Lemma segs_dir ds : ds ≠ [] → Forall plain ds → segs (dir_path (rooted ds)) = take (length ds - 1) ds.
Proof.
  intros H1 H2. unfold dir_path, rooted. rewrite (segs_rooted ds) by done. rewrite resolve_plain; [|by apply plain_nodd].
  rewrite app_nil_l. assert (Forall plain (take (length ds - 1) ds)) as Hp by by apply Forall_take.
  destruct (take (length ds - 1) ds) as [|x l]; [reflexivity|]. by rewrite segs_rooted.
Qed.

(** ** An unpack, call by call *)

Section calls.
Context (dest : path) (Hne : dest ≠ []).

(** The marker of a source's directory. *)
Definition marked (p : path) : Prop := Exists (λ name, beneath (dest ++ [name]) p) sentinels.

(** Calls that stay beneath the directory, or make its parents, and leave the markers alone. *)
Definition tame (c : fs_call) : Prop :=
  ¬ marked (segs (call_path c)) ∧
  (beneath dest (segs (call_path c)) ∨ ∃ p, c = MkdirAll p ∧ beneath (segs p) dest).

(** Nothing outside the directory differs from [d0], but for the directories it is in. *)
Definition elsewhere (p : path) : Prop := ¬ beneath dest p ∧ ¬ beneath p dest.
Definition outside (d0 d : disk) : Prop :=
  (∀ p, ¬ beneath dest p → files d !! p = files d0 !! p) ∧ (∀ p, elsewhere p → p ∈ dirs d ↔ p ∈ dirs d0).

Lemma outside_refl d : outside d d.
Proof. by split. Qed.

(** The directories on the way to a path beneath the directory, or to the directory. *)
Lemma way_not_elsewhere p q : beneath dest p ∨ beneath p dest → q ∈ parents p → ¬ elsewhere q.
Proof.
  intros Hp [k ->]%parents_take [H1 H2]. assert (beneath (take k p) p) as Hk by (exists (drop k p); by rewrite take_drop).
  destruct Hp as [Hp|Hp]; [|apply H2; by eapply beneath_trans].
  destruct (prefix_weak_total _ _ _ Hp Hk) as [?|?]; [by apply H1|by apply H2].
Qed.

Lemma outside_dirs d0 d p :
  beneath dest p ∨ beneath p dest → outside d0 d → outside d0 (mkDisk (files d) (dirs d ∪ parents p)).
Proof.
  intros Hp [H1 H2]. split; [done|]. intros q Hq. simpl. rewrite elem_of_union, <-(H2 q Hq). split; [|by left].
  intros [?|?]; [done|]. by destruct (way_not_elsewhere p q).
Qed.

Lemma way_take p n : beneath dest p ∨ beneath p dest → beneath dest (take n p) ∨ beneath (take n p) dest.
Proof.
  assert (beneath (take n p) p) as Hk by (exists (drop n p); by rewrite take_drop).
  intros [Hp|Hp]; [|right; by eapply beneath_trans]. exact (prefix_weak_total _ _ _ Hp Hk).
Qed.

(** No marker is there. *)
Definition unmarked (d : disk) : Prop := ∀ p, marked p → ¬ there d p.

Lemma trusted_marked d : trusted dest d → ∃ p, marked p ∧ there d p.
Proof.
  unfold trusted, marked. rewrite Exists_exists. intros (name & Hn & Ht). exists (dest ++ [name]). split; [|done].
  apply Exists_exists. exists name. split; [done|]. apply beneath_refl.
Qed.

Lemma unmarked_untrusted d : unmarked d → ¬ trusted dest d.
Proof. intros Hu (p & Hm & Ht)%trusted_marked. by eapply Hu. Qed.

Lemma marked_beneath p : marked p → beneath dest p.
Proof. unfold marked. rewrite Exists_exists. intros (n & _ & H). eapply beneath_trans; [|done]. apply beneath_app. Qed.

Lemma marked_parents p q : q ∈ parents p → marked q → marked p.
Proof.
  unfold marked. rewrite !Exists_exists. intros Hq (n & Hn & Hb). exists n. split; [done|]. by eapply beneath_parents.
Qed.

(** What a call may do: files beneath the directory, and directories on the way to a path. *)
Lemma outside_set d0 d f :
  outside d0 d → (∀ p, ¬ beneath dest p → f (files d) !! p = files d !! p) → outside d0 (set_files f d).
Proof. intros [H1 H2] Hf. split; [|done]. intros p Hp. simpl. rewrite Hf by done. by apply H1. Qed.

Lemma unmarked_dirs d p : ¬ marked p → unmarked d → unmarked (mkDisk (files d) (dirs d ∪ parents p)).
Proof.
  intros Hp Hu q Hq [H|[H|H]%elem_of_union].
  - apply (Hu q Hq). by left.
  - apply (Hu q Hq). by right.
  - apply Hp. by eapply marked_parents.
Qed.

Lemma marked_take p n : marked (take n p) → marked p.
Proof.
  unfold marked. rewrite !Exists_exists. intros (x & Hx & Hb). exists x. split; [done|]. eapply beneath_trans; [done|].
  exists (drop n p). by rewrite take_drop.
Qed.

(** The state of an unpack: [t] is what is beneath the directory. *)
Record unpacking (d0 : disk) (t : gmap path bytes) (d : disk) : Prop := {
  up_outside : outside d0 d;
  up_unmarked : unmarked d;
  up_dest : dest ∈ dirs d;
  up_tree : ∀ p, beneath dest p → content d p = t !! p;
}.

(** What is left when it stops. *)
Record stopped (d0 d : disk) : Prop := {
  st_outside : outside d0 d;
  st_unmarked : unmarked d;
  st_dest : dest ∈ dirs d ∨ ∀ p, beneath dest p → ¬ there d p;
}.

Lemma unpacking_stopped d0 t d : unpacking d0 t d → stopped d0 d.
Proof. intros [H1 H2 H3 _]. split; [done|done|by left]. Qed.

(** The tree after a call. *)
Definition after (t : gmap path bytes) (c : fs_call) : gmap path bytes :=
  match c with WriteFile p _ data => <[segs p := data]> t | MkdirAll _ => t end.

Lemma unpacking_set d0 t t' d f :
  unpacking d0 t d → (∀ p, ¬ beneath dest p → f (files d) !! p = files d !! p) →
  (∀ p, marked p → f (files d) !! p = files d !! p) →
  (∀ p, beneath dest p → fst <$> f (files d) !! p = t' !! p) → unpacking d0 t' (set_files f d).
Proof.
  intros [H1 H2 H3 H4] Ho Hm Ht. split; [by apply outside_set| |done|done].
  intros p Hp [H|H]; apply (H2 p Hp); [left|by right]. simpl in H. rewrite elem_of_dom, Hm, <-elem_of_dom in H by done. done.
Qed.

Lemma unpacking_write d0 t d p c s :
  beneath dest p → ¬ marked p → unpacking d0 t d → unpacking d0 (<[p := c]> t) (set_files <[p := (c, s)]> d).
Proof.
  intros Hb Hm Hd. eapply unpacking_set; [done|..]; intros q Hq.
  - by rewrite lookup_insert_ne by by intros <-.
  - by rewrite lookup_insert_ne by by intros <-.
  - destruct (decide (p = q)) as [<-|Hn]; [by rewrite !lookup_insert_eq|]. rewrite !lookup_insert_ne by done.
    by apply Hd.
Qed.

Lemma spec_openTrunc d0 t p : beneath dest p → ¬ marked p →
  spec (unpacking d0 t) (openTrunc p) (λ r d, stopped d0 d ∧ (is_ok r = true → unpacking d0 (<[p := []]> t) d)).
Proof.
  intros Hb Hm. apply spec_call; simpl; intros; try (split; [by eapply unpacking_stopped|done]).
  case_decide; simpl; [split; [by eapply unpacking_stopped|done]|].
  assert (unpacking d0 (<[p := []]> t) (set_files <[p := ([], false)]> d)) as Hu by by apply unpacking_write.
  split; [by eapply unpacking_stopped|done].
Qed.

Lemma unpacking_append d0 t d p data :
  beneath dest p → ¬ marked p → unpacking d0 (<[p := []]> t) d → unpacking d0 (<[p := data]> t) (append p data d).
Proof.
  intros Hb Hm Hd. eapply unpacking_set; [done|..]; intros q Hq.
  - by rewrite lookup_alter_ne by by intros <-.
  - by rewrite lookup_alter_ne by by intros <-.
  - pose proof (up_tree _ _ _ Hd q Hq) as Ht. unfold content in Ht. destruct (decide (p = q)) as [<-|Hn].
    + rewrite lookup_insert_eq in Ht. rewrite lookup_alter_eq, lookup_insert_eq. by destruct (files d !! p) as [[c s]|]; simplify_eq/=.
    + rewrite lookup_alter_ne, lookup_insert_ne by done. by rewrite lookup_insert_ne in Ht.
Qed.

Lemma spec_writeAll d0 t p data : beneath dest p → ¬ marked p →
  spec (unpacking d0 (<[p := []]> t)) (write p data)
    (λ a d, stopped d0 d ∧ (a.2 = None → unpacking d0 (<[p := data]> t) d)).
Proof.
  intros Hb Hm. assert (∀ n d, unpacking d0 (<[p := []]> t) d → stopped d0 (append p (take n data) d)) as Hpart
    by (intros n d Hd; eapply unpacking_stopped, unpacking_append; by eauto).
  apply spec_call; simpl.
  - intros d Hd. assert (unpacking d0 (<[p := data]> t) (append p data d)) by by apply unpacking_append.
    split; [by eapply unpacking_stopped|done].
  - intros n msg d Hd. split; [by apply Hpart|done].
  - intros n d Hd. split; [by apply Hpart|]. done.
  - intros d Hd. split; [by eapply unpacking_stopped|done].
Qed.
Lemma unpacking_mkdir d0 t d p n : ¬ marked p → beneath dest p ∨ beneath p dest →
  unpacking d0 t d → unpacking d0 t (mkDisk (files d) (dirs d ∪ parents (take n p))).
Proof.
  intros Hm Hw [H1 H2 H3 H4]. split; [by apply outside_dirs; [apply way_take|]| |by apply elem_of_union_l|done].
  apply unmarked_dirs; [|done]. by intros ?%marked_take.
Qed.

Lemma spec_mkdir_tame d0 t p : ¬ marked p → beneath dest p ∨ beneath p dest →
  spec (unpacking d0 t) (mkdirAll p) (λ _ d, unpacking d0 t d).
Proof.
  intros Hm Hw. apply spec_call; simpl; intros; [|by apply unpacking_mkdir..|done].
  rewrite <-(take_ge p (length p)) at 1 by done. by apply unpacking_mkdir.
Qed.

Lemma spec_run_call d0 t c : tame c →
  spec (unpacking d0 t) (run_call c) (λ r d, stopped d0 d ∧ (is_ok r = true → unpacking d0 (after t c) d)).
Proof.
  intros [Hm Hb]. destruct c as [p|p mode data]; cbn [run_call call_path after] in *.
  - assert (beneath dest (segs p) ∨ beneath (segs p) dest) as Hw by (destruct Hb as [?|(? & [= <-] & ?)]; auto).
    eapply spec_weaken; [by apply (spec_mkdir_tame d0 t)|done|]. intros r d Hd. split; [exact (unpacking_stopped _ _ _ Hd)|by intros _].
  - destruct Hb as [Hb|(? & [=] & _)].
    eapply spec_try; [by apply spec_openTrunc| |intros e d [H _]; by split].
    intros []. eapply spec_bind.
    { eapply spec_pre; [by apply (spec_writeAll d0 t)|]. intros d [_ H]. by apply H. }
    intros [n err]. eapply spec_bind; [by apply spec_closeFile|]. intros ?. apply spec_ret. cbn [snd].
    intros d [Hs Hu]. split; [done|]. by destruct err; [|intros _; apply Hu].
Qed.

Lemma spec_run_calls d0 cs : Forall tame cs → ∀ t,
  spec (unpacking d0 t) (run_calls cs) (λ r d, stopped d0 d ∧ (is_ok r = true → unpacking d0 (foldl after t cs) d)).
Proof.
  induction 1 as [|c cs Hc Hcs IH]; intros t; cbn [run_calls foldl].
  - apply spec_ret. intros d Hd. split; [by eapply unpacking_stopped|done].
  - eapply spec_try; [by apply spec_run_call| |intros e d [H _]; by split].
    intros []. eapply spec_pre; [apply IH|]. intros d [_ H]. by apply H.
Qed.

(** Removal of the directory. *)
Lemma trusted_mono d d' : (∀ p, there d' p → there d p) → trusted dest d' → trusted dest d.
Proof. intros H Ht. eapply Exists_impl; [exact Ht|]. intros name. apply H. Qed.

Lemma spec_removeAll removal d0 :
  spec (λ d, outside d0 d ∧ ¬ trusted dest d ∧ dest ∈ dirs d) (removeAll removal dest)
    (λ r d, outside d0 d ∧ ¬ trusted dest d ∧ (dest ∈ dirs d ∨ ∀ p, beneath dest p → ¬ there d p) ∧
       (is_ok r = true → ∀ p, beneath dest p → ¬ there d p)).
Proof.
  assert (∀ (P : path * (bytes * bool) → Prop) `{∀ x, Decision (P x)} d, outside d0 d → (∀ x, ¬ beneath dest x.1 → P x) →
    outside d0 (set_files (filter P) d)) as Hout.
  { intros P HP d Ho HPx. apply outside_set; [done|]. intros p Hp. destruct (files d !! p) as [x|] eqn:E.
    - apply map_lookup_filter_Some. split; [done|]. by apply HPx.
    - apply map_lookup_filter_None. by left. }
  assert (∀ (P : path * (bytes * bool) → Prop) `{∀ x, Decision (P x)} d, ¬ trusted dest d → ¬ trusted dest (set_files (filter P) d)) as Hun.
  { intros P HP d Hu Ht. apply Hu. eapply trusted_mono; [|exact Ht]. intros p [H|H]; [left|by right].
    simpl in H. apply elem_of_dom in H as [x [H _]%map_lookup_filter_Some]. by apply elem_of_dom. }
  apply spec_call; simpl.
  - intros d (Ho & Hu & Hd). set (d' := mkDisk _ _). assert (∀ p, beneath dest p → ¬ there d' p) as Hn.
    { intros p Hp [H|H]; simpl in H; [apply elem_of_dom in H as [x [_ Hx]%map_lookup_filter_Some]; by apply Hx|].
      by apply elem_of_filter in H as [? _]. }
    split; [split; [exact (proj1 (Hout _ _ d Ho (λ x Hx, Hx)))|]|split_and!; [|by right|done]].
    { intros p [Hp Hp']. simpl. rewrite elem_of_filter, (proj2 Ho p) by by split. tauto. }
    intros (p & Hp & Ht)%trusted_marked. eapply Hn; [|exact Ht]. by apply marked_beneath.
  - intros n msg d (Ho & Hu & Hd). split_and!; [|by apply Hun|by left|done]. apply Hout; [done|]. by intros x Hx [? _].
  - intros n d (Ho & Hu & Hd). split_and!; [|by apply Hun|by left|done]. apply Hout; [done|]. by intros x Hx [? _].
  - intros d (Ho & Hu & Hd). split_and!; [done|done|by left|done].
Qed.

(** The directory is made. *)
Lemma spec_make_dest d0 : 
  spec (λ d, outside d0 d ∧ ∀ p, beneath dest p → ¬ there d p) (mkdirAll dest)
    (λ r d, stopped d0 d ∧ (is_ok r = true → unpacking d0 ∅ d)).
Proof.
  assert (∀ n d, outside d0 d → (∀ p, beneath dest p → ¬ there d p) →
    let d' := mkDisk (files d) (dirs d ∪ parents (take n dest)) in stopped d0 d' ∧ (dest ∈ dirs d' → unpacking d0 ∅ d')) as Hmk.
  { intros n d Ho Hn d'. assert (unmarked d') as Hu.
    { apply unmarked_dirs; [|intros p Hp; by apply Hn, marked_beneath]. intros Hm%marked_take. unfold marked in Hm.
      apply Exists_exists in Hm as (x & _ & Hx). by apply not_beneath_snoc in Hx. }
    assert (outside d0 d') as Ho' by (apply outside_dirs; [apply way_take; left; apply beneath_refl|done]).
    assert (dest ∈ dirs d' → unpacking d0 ∅ d') as Hd.
    { intros Hd. split; [done|done|done|]. intros p Hp. rewrite lookup_empty. unfold content. cbn [files d'].
      destruct (files d !! p) eqn:E; [|done]. exfalso. apply (Hn p Hp). left. apply elem_of_dom. by eexists. }
    split; [|done]. split; [done|done|]. destruct (decide (dest ∈ dirs d')) as [?|Hnd]; [by left|]. right.
    intros p Hp [H|[H|H]%elem_of_union]; [by apply (Hn p Hp); left|by apply (Hn p Hp); right|].
    apply Hnd, elem_of_union_r. apply (beneath_parents dest) in H; [|done].
    destruct H as [l E]. assert (take n dest = dest) as ->.
    { apply take_ge. destruct (decide (length dest ≤ n)) as [?|?]; [done|]. apply (f_equal length) in E.
      rewrite length_app, length_take in E. lia. }
    by apply parents_self. }
  apply spec_call; simpl.
  - intros d [Ho Hn]. destruct (Hmk (length dest) d Ho Hn) as [Hs Hd]. rewrite firstn_all in Hs, Hd. split; [done|].
    intros _. apply Hd. apply elem_of_union_r. by apply parents_self.
  - intros n msg d [Ho Hn]. split; [|done]. by apply Hmk.
  - intros n d [Ho Hn]. split; [|done]. by apply Hmk.
  - intros d [Ho Hn]. split; [|done]. split; [done|intros p Hp; by apply Hn, marked_beneath|by right].
Qed.
End calls.

(** ** Unpacking, faults and all *)

Section unpack_proofs.
Context (parse : bytes → result string sourceDescriptor).
Context (read_targz : bytes * option string → result string (list (result string entry))).
Context (open_entry : entry → option string) (read_zip : bytes → result string (list entry)).
Context (removal : disk → path → list path).
Abbreviation extraction := (extraction read_targz open_entry read_zip).
Abbreviation unpack_fresh := (unpack_fresh parse read_targz open_entry read_zip).
Abbreviation unpackSource := (unpackSource parse read_targz open_entry read_zip removal).

(** What the reads of a blob gave: all of it, or what comes before an error. *)
Definition stream_of (data : bytes) (stream : bytes * option string) : Prop :=
  stream = (data, None) ∨ ∃ n msg, stream = (take n data, Some msg).

(** Beneath the directory there is the extraction of the archive that source.json names, and
    the marker. *)
Definition unpacked (d0 : disk) (blobsDir sj dest : path) (d : disk) : Prop :=
  ∃ b src hex data stream, content d0 sj = Some b ∧ parse b = Ok src ∧
    codenav_integrityToHex (sd_Integrity src) = Ok hex ∧ content d0 (blobsDir ++ [hex]) = Some data ∧ stream_of data stream ∧
    (extraction src dest stream).2 = None ∧
    ∀ p, beneath dest p → p ≠ dest ++ [completeSentinel] → content d p = tree_of (extraction src dest stream).1 !! p.

(** The archive that source.json names, read to its end or to an error, has no entry by a
    marker's name. *)
Definition no_marker_entries (d0 : disk) (blobsDir sj dest : path) : Prop :=
  ∀ b src hex data stream, content d0 sj = Some b → parse b = Ok src → codenav_integrityToHex (sd_Integrity src) = Ok hex →
    content d0 (blobsDir ++ [hex]) = Some data → stream_of data stream →
    Forall (λ c, ¬ marked dest (segs (call_path c))) (extraction src dest stream).1.

Context (blobsDir sj dest : path) (Hne : dest ≠ []) (Hplain : Forall plain dest).
Context (Hsj : ¬ beneath dest sj) (Hblobs : ∀ h, ¬ beneath dest (blobsDir ++ [h])).

Lemma max_extract_fits : (MaxExtractBytes < 2 ^ 63 - 1)%Z.
Proof. reflexivity. Qed.

Lemma extraction_tame src stream : Forall (λ c, ¬ marked dest (segs (call_path c))) (extraction src dest stream).1 →
  Forall (tame dest) (extraction src dest stream).1.
Proof.
  intros Hmark. assert (confined (rooted dest) (extraction src dest stream).1) as Hc.
  { unfold Codenav.extraction. destruct (detectArchiveKind _ _); [by constructor| |].
    - exact (proj1 (ExtractTarGz_good _ _ _ _ _ (rooted_ok dest Hne Hplain) max_extract_fits _)).
    - exact (proj1 (ExtractZip_good _ _ _ _ _ (rooted_ok dest Hne Hplain) max_extract_fits _ _ _)). }
  unfold confined in Hc. rewrite Forall_forall in Hc, Hmark |- *. intros c Hin. specialize (Hmark c Hin).
  split; [done|]. destruct (Hc c Hin) as [(ns & Hns & E)| ->].
  - left. rewrite E, segs_under by done. apply beneath_app.
  - right. eexists. split; [done|]. rewrite segs_dir by done. eexists. symmetry. apply take_drop.
Qed.

(** A call is over: nothing else has changed, and what is marked is unpacked. *)
Record kept (d0 d : disk) : Prop := {
  kp_outside : outside dest d0 d;
  kp_dest : dest ∈ dirs d ∨ ∀ p, beneath dest p → ¬ there d p;
  kp_unpacked : trusted dest d → unpacked d0 blobsDir sj dest d;
}.

Lemma stopped_kept d0 d : stopped dest d0 d → kept d0 d.
Proof. intros [H1 H2 H3]. split; [done|done|]. by intros ?%unmarked_untrusted. Qed.

(** The last step, from an extraction that is done. *)
Lemma spec_mark d0 src stream b hex data :
  content d0 sj = Some b → parse b = Ok src → codenav_integrityToHex (sd_Integrity src) = Ok hex →
  content d0 (blobsDir ++ [hex]) = Some data → stream_of data stream → (extraction src dest stream).2 = None →
  spec (unpacking dest d0 (tree_of (extraction src dest stream).1)) (writeFile (joined dest [completeSentinel]) [])
    (λ r d, kept d0 d ∧ (is_ok r = true → trusted dest d)).
Proof.
  intros Hb Hp Hh Hd Hs He. rewrite joined_plain by plains. set (t := tree_of _). set (m := dest ++ [completeSentinel]).
  set (done := λ d, outside dest d0 d ∧ dest ∈ dirs d ∧ m ∈ dom (files d) ∧ ∀ p, beneath dest p → p ≠ m → content d p = t !! p).
  assert (∀ d, done d → trusted dest d) as Htr by (intros d (_ & _ & Hm & _); left; by left).
  assert (∀ d, done d → kept d0 d) as Hk.
  { intros d Hdn. pose proof Hdn as (Ho & Hde & Hm & Ht). split; [exact Ho|by left|]. intros _. by exists b, src, hex, data, stream. }
  assert (∀ d f, outside dest d0 d → dest ∈ dirs d → (∀ p, beneath dest p → p ≠ m → content d p = t !! p) →
    (∀ p, p ≠ m → f (files d) !! p = files d !! p) → m ∈ dom (f (files d)) → done (set_files f d)) as Hset.
  { intros d f Ho Hde Ht Hf Hm. split_and!; [|exact Hde|exact Hm|].
    - apply outside_set; [exact Ho|]. intros p Hnb. apply Hf. intros ->. apply Hnb, beneath_app.
    - intros p Hpb Hpm. unfold content. simpl. rewrite Hf by exact Hpm. by apply Ht. }
  assert (∀ d data', done d → done (append m data' d)) as Happ.
  { intros d data' (Ho & Hde & Hm & Ht). apply Hset; [exact Ho|exact Hde|exact Ht| |].
    - intros p Hpm. by rewrite lookup_alter_ne by by intros <-.
    - by rewrite dom_alter_L. }
  unfold writeFile. eapply spec_try with (R := λ (r : result string unit) d, if is_ok r then done d else stopped dest d0 d).
  - apply spec_call; simpl; [|by intros; eapply unpacking_stopped..].
    intros d Hu. case_decide; simpl; [by eapply unpacking_stopped|]. destruct Hu as [Ho _ Hde Ht].
    apply Hset; [exact Ho|exact Hde|by intros p ? _; apply Ht| |].
    + intros p Hpm. by rewrite lookup_insert_ne by by intros <-.
    + rewrite dom_insert_L. set_solver.
  - intros []. eapply spec_bind with (R := λ _, done).
    + by apply spec_call; simpl; intros; try apply Happ.
    + intros [n err]. destruct err as [e|]; [by apply spec_ret; intros d ?; split; [apply Hk|]|].
      eapply spec_weaken; [by apply (spec_closeFile done)|by intros|]. intros r d ?. split; [by apply Hk|intros _; by apply Htr].
  - intros e d ?. split; [by apply stopped_kept|by intros].
Qed.

(** Nothing is beneath the directory. *)
Definition cleared (d0 d : disk) : Prop := outside dest d0 d ∧ ∀ p, beneath dest p → ¬ there d p.

Lemma cleared_kept d0 d : cleared d0 d → kept d0 d.
Proof.
  intros [Ho Hn]. split; [done|by right|]. intros (p & Hp & Ht)%trusted_marked. exfalso. by eapply Hn; [apply marked_beneath|].
Qed.

Lemma spec_unpack_fresh d0 : no_marker_entries d0 blobsDir sj dest →
  spec (cleared d0) (unpack_fresh blobsDir sj dest) (λ r d, kept d0 d ∧ (is_ok r = true → trusted dest d)).
Proof.
  intros Hmark. assert (∀ e d, cleared d0 d → kept d0 d ∧ (is_ok (Err e : result string unit) = true → trusted dest d)) as Hfail
    by (intros; split; [by apply cleared_kept|done]).
  unfold Codenav.unpack_fresh.
  eapply spec_try with (R := λ r d, (∀ src, r = Ok src → ∃ b, content d0 sj = Some b ∧ parse b = Ok src) ∧ cleared d0 d).
  { unfold readSourceDescriptor. eapply spec_bind; [apply (spec_readFile (cleared d0))|]. intros b. apply spec_ret.
    intros d [Hc Hb]. split; [|done]. intros src. destruct b as [b|[|]]; [|done|done].
    destruct Hb as [s Hs]. destruct (parse b) as [x|] eqn:E; [|done]. intros [= <-]. exists b. split; [|done].
    unfold content. by rewrite <-(proj1 (proj1 Hc) sj Hsj), Hs. }
  2: { intros e d [_ ?]. by apply Hfail. }
  intros src. apply spec_pure. intros Hsrc. destruct (Hsrc src eq_refl) as (b & Hb & Hp). clear Hsrc.
  case_decide; [by apply spec_ret, Hfail|].
  destruct (codenav_integrityToHex (sd_Integrity src)) as [hex|] eqn:Hhex; [|by apply spec_ret, Hfail].
  assert (joined blobsDir [hex] = blobsDir ++ [hex]) as Hj.
  { apply joined_plain. apply Forall_singleton. apply hex_plain. apply codenav_iff in Hhex as (raw & (b64 & _ & _ & Hl) & ->).
    by apply hex_encode_name. }
  rewrite Hj.
  eapply spec_bind with (R := λ r d, (r = None → ∃ data, content d0 (blobsDir ++ [hex]) = Some data) ∧ cleared d0 d).
  { apply spec_call; simpl; intros; try (by split). split; [|done]. case_decide as Hin; [|done]. intros _.
    apply elem_of_dom in Hin as [[data s] Hs]. exists data. unfold content. by rewrite <-(proj1 (proj1 H0) _ (Hblobs hex)), Hs. }
  intros [e|]; [by apply spec_ret; intros d [_ ?]; apply Hfail|].
  apply spec_pure. intros Hd. destruct (Hd eq_refl) as [data Hdata]. clear Hd.
  eapply spec_try; [by apply spec_make_dest| |intros e d [? _]; split; [by apply stopped_kept|done]].
  intros []. eapply spec_bind with (R := λ stream d, stream_of data stream ∧ unpacking dest d0 ∅ d).
  { eapply spec_pre with (P := unpacking dest d0 ∅); [|intros d [_ H1]; by apply H1].
    unfold readAll. eapply spec_bind with (R := λ c d, c = data ∧ unpacking dest d0 ∅ d).
    { intros w Hw. simpl. split; [|done]. unfold content in Hdata. by rewrite (proj1 (up_outside _ _ _ _ Hw) _ (Hblobs hex)), Hdata. }
    intros c. apply spec_pure. intros ->.
    eapply spec_bind with (R := λ _, unpacking dest d0 ∅); [by apply spec_call|].
    intros cut. apply spec_ret. intros d Hu. split; [|done]. destruct cut as [[n msg]|]; [right; by exists n, msg|by left]. }
  intros stream. apply spec_pure. intros Hst. pose proof (extraction_tame src stream (Hmark b src hex data stream Hb Hp Hhex Hdata Hst)) as Htame.
  unfold extractByKind. destruct (extraction src dest stream) as [calls err] eqn:He.
  eapply spec_bind with (R := λ r d, stopped dest d0 d ∧ (is_ok r = true → err = None ∧ unpacking dest d0 (tree_of calls) d)).
  { eapply spec_try; [by apply (spec_run_calls dest Hne d0 calls Htame ∅)| |by intros e d [? _]].
    intros []. apply spec_ret. intros d [H1 H2]. split; [done|]. destruct err; [done|]. intros _. split; [done|]. by apply H2. }
  intros [[]|e]; [|apply spec_ret; intros d [? _]; split; [by apply stopped_kept|done]].
  apply (spec_pre (λ d, err = None ∧ unpacking dest d0 (tree_of calls) d)); [|intros d [_ H1]; by apply H1].
  apply spec_pure. intros ->.
  pose proof (spec_mark d0 src stream b hex data Hb Hp Hhex Hdata Hst) as Hmk. rewrite He in Hmk. by apply Hmk.
Qed.

(** The questions an unpack begins with are answered: no [os.Stat] of its fails, though the
    process may die in one. *)
Definition stats_answer (fs : list fault) : Prop :=
  Forall (λ f, match f with Fails _ _ => False | _ => True end) (take 3 fs).

Lemma stat_truth p w :
  match head (w_faults w) with Some (Fails _ _) => False | _ => True end →
  let '(b, w') := stat p w in
  w_disk w' = w_disk w ∧ (b = true → there (w_disk w) p) ∧
  (w_alive w' = true → w_faults w' = tail (w_faults w) ∧ b = bool_decide (there (w_disk w) p)) ∧
  (w_alive w = false → w_alive w' = false).
Proof.
  intros Hf. unfold stat, call. destruct (w_alive w) eqn:Ha; [|split_and!; [done|done|congruence|done]].
  destruct w as [d [|[|n msg|n] fs] al]; simpl in *; try done; split_and!; try done; by intros ?%bool_decide_eq_true.
Qed.

Lemma unpackSource_kept base w : no_marker_entries base blobsDir sj dest →
  kept base (w_disk w) → stats_answer (w_faults w) →
  let '(r, w') := unpackSource blobsDir sj dest w in kept base (w_disk w') ∧ (is_ok r = true → trusted dest (w_disk w')).
Proof.
  intros Hmark Hk Hs. unfold Codenav.unpackSource, extractComplete. unfold mbind, os_bind.
  rewrite !joined_plain by plains.
  assert (∀ fs, stats_answer fs → match head fs with Some (Fails _ _) => False | _ => True end ∧
    match head (tail fs) with Some (Fails _ _) => False | _ => True end ∧
    match head (tail (tail fs)) with Some (Fails _ _) => False | _ => True end) as Hst.
  { unfold stats_answer. intros [|f1 [|f2 [|f3 fs]]] H; simpl in *; repeat apply Forall_cons in H as [? H]; by split_and!. }
  apply Hst in Hs as (Hs1 & Hs2 & Hs3).
  pose proof (stat_truth (dest ++ [completeSentinel]) w Hs1) as H1. destruct (stat _ w) as [b1 w1]. destruct H1 as (E1 & T1 & A1 & D1).
  destruct b1; [split; [by rewrite E1|]; intros _; rewrite E1; left; by apply T1|].
  pose proof (stat_truth (dest ++ [legacyCompleteSentinel]) w1) as H2.
  assert (match head (w_faults w1) with Some (Fails _ _) => False | _ => True end ∨ w_alive w1 = false) as [Hs2'|Hdead].
  { destruct (w_alive w1); [left; by rewrite (proj1 (A1 eq_refl))|by right]. }
  2: { unfold stat, call. rewrite Hdead. cbn [mret os_ret]. rewrite Hdead. unfold Codenav.unpack_fresh, try_, readSourceDescriptor, readFile, mbind, os_bind, call, mret, os_ret.
       rewrite Hdead. cbn. rewrite E1. by split. }
  specialize (H2 Hs2'). destruct (stat _ w1) as [b2 w2]. destruct H2 as (E2 & T2 & A2 & D2). rewrite E1 in E2, T2, A2.
  destruct b2; [split; [by rewrite E2|]; intros _; rewrite E2; right; left; by apply T2|].
  unfold mret, os_ret.
  pose proof (stat_truth dest w2) as H3.
  assert (match head (w_faults w2) with Some (Fails _ _) => False | _ => True end ∨ w_alive w2 = false) as [Hs3'|Hdead].
  { destruct (w_alive w2) eqn:Ha; [left|by right]. rewrite (proj1 (A2 eq_refl)).
    destruct (w_alive w1); [by rewrite (proj1 (A1 eq_refl))|by specialize (D2 eq_refl)]. }
  2: { unfold stat, call. rewrite Hdead. unfold Codenav.unpack_fresh, try_, readSourceDescriptor, readFile, mbind, os_bind, call, mret, os_ret.
       rewrite Hdead. cbn. rewrite E2. by split. }
  specialize (H3 Hs3'). destruct (stat dest w2) as [b3 w3]. destruct H3 as (E3 & T3 & A3 & D3). rewrite E2 in E3, T3, A3.
  destruct (w_alive w3) eqn:Ha3.
  2: { destruct b3; unfold removeAll, Codenav.unpack_fresh, try_, readSourceDescriptor, readFile, mbind, os_bind, call, mret, os_ret;
       rewrite Ha3; cbn; rewrite E3; by split. }
  destruct (A3 eq_refl) as [_ Hb3]. assert (w_alive w2 = true) as Ha2 by (destruct (w_alive w2); [done|by specialize (D3 eq_refl)]).
  assert (w_alive w1 = true) as Ha1 by (destruct (w_alive w1); [done|by rewrite D2 in Ha2]).
  assert (¬ trusted dest (w_disk w)) as Hun.
  { destruct (A1 Ha1) as [_ X1%eq_sym%bool_decide_eq_false], (A2 Ha2) as [_ X2%eq_sym%bool_decide_eq_false].
    by intros [?|[?|[]%Exists_nil]%Exists_cons]%Exists_cons. }
  destruct Hk as [Ho Hd Hu]. destruct b3; symmetry in Hb3.
  - apply bool_decide_eq_true in Hb3. assert (dest ∈ dirs (w_disk w)) as Hdd.
    { destruct Hd as [?|Hn]; [done|]. exfalso. exact (Hn dest (beneath_refl dest) Hb3). }
    assert (spec (λ d, outside dest base d ∧ ¬ trusted dest d ∧ dest ∈ dirs d)
      (try_ (removeAll removal dest) (λ _, unpack_fresh blobsDir sj dest)) (λ r d, kept base d ∧ (is_ok r = true → trusted dest d))) as Hspec.
    { eapply spec_try; [apply spec_removeAll| |].
      - intros []. eapply spec_pre; [by apply spec_unpack_fresh|]. intros d (Ho' & _ & _ & Hn). split; [done|by apply Hn].
      - intros e d (Ho' & Hu' & Hd' & _). split; [|done]. split; [done|done|by intros ?]. }
    specialize (Hspec w3). rewrite E3 in Hspec. destruct (try_ _ _ w3) as [r w']. by apply Hspec.
  - apply bool_decide_eq_false in Hb3. pose proof (spec_unpack_fresh base Hmark w3) as Hspec. rewrite E3 in Hspec.
    destruct (unpack_fresh _ _ _ w3) as [r w']. apply Hspec. split; [done|]. destruct Hd as [Hd|Hn]; [|done].
    exfalso. apply Hb3. by right.
Qed.
End unpack_proofs.

(** ** The cache directory over time *)

Section cache.
Context (parse : bytes → result string sourceDescriptor).
Context (read_targz : bytes * option string → result string (list (result string entry))).
Context (open_entry : entry → option string) (read_zip : bytes → result string (list entry)).
Context (removal : disk → path → list path) (mirrorDir cacheDir : path).
Abbreviation materialize_source := (MaterializeSource parse read_targz open_entry read_zip removal mirrorDir cacheDir).
Abbreviation dest := (dest_dir cacheDir).
Abbreviation blobs := (joined mirrorDir ["blobs"]).
Abbreviation sj := (source_json mirrorDir).
Abbreviation is_unpacked d0 m v := (unpacked parse read_targz open_entry read_zip d0 blobs (sj m v) (dest m v)).

(** A process that asks for a source, under a plan of faults that may end it. *)
Definition materialize (d : disk) (run : (string * string) * list fault) : disk :=
  w_disk (materialize_source run.1.1 run.1.2 (mkWorld d run.2 true)).2.

Definition plain_run (run : (string * string) * list fault) : Prop := plain run.1.1 ∧ plain run.1.2 ∧ stats_answer run.2.

Context (Hcache : Forall plain cacheDir) (Hapart : ∀ p, beneath mirrorDir p → ¬ beneath cacheDir p).
(** No archive of the mirror has an entry by a marker's name. *)
Definition markers_free (d0 : disk) : Prop :=
  ∀ m v, plain m → plain v → no_marker_entries parse read_targz open_entry read_zip d0 blobs (sj m v) (dest m v).

Lemma dest_plain m v : plain m → plain v → dest m v = cacheDir ++ [m; v].
Proof. intros. unfold dest_dir. by rewrite joined_plain by plains. Qed.

Lemma dest_apart m v m' v' p : plain m → plain v → plain m' → plain v' → (m, v) ≠ (m', v') →
  beneath (dest m v) p → elsewhere (dest m' v') p.
Proof.
  intros Hm Hv Hm' Hv' Hne. rewrite !dest_plain by done. intros [l ->].
  assert (∀ k l, (cacheDir ++ [m; v]) ++ k = (cacheDir ++ [m'; v']) ++ l → False) as Hc.
  { intros k k' E. rewrite <-!app_assoc in E. apply app_inv_head in E. simpl in E. by simplify_eq. }
  split.
  - intros [k E]. by eapply Hc.
  - intros [k E]. rewrite <-!app_assoc in E. apply app_inv_head in E. simpl in E. by simplify_eq.
Qed.

Lemma beneath_cache m v p : plain m → plain v → beneath (dest m v) p → beneath cacheDir p.
Proof. intros. rewrite dest_plain in * by done. eapply beneath_trans; [apply beneath_app|done]. Qed.

Lemma mirror_paths m v h : plain m → plain v → beneath mirrorDir (sj m v) ∧ beneath mirrorDir (blobs ++ [h]).
Proof.
  intros. unfold source_json. rewrite !joined_plain by plains. split; [apply beneath_app|].
  rewrite <-app_assoc. apply beneath_app.
Qed.

(** The mirror is as in [d0], and each source's directory is there when anything in it is;
    if it is marked, it is unpacked. *)
Record sources_ok (d0 d : disk) : Prop := {
  so_rest : ∀ p, ¬ beneath cacheDir p → files d !! p = files d0 !! p;
  so_dest : ∀ m v, plain m → plain v → dest m v ∈ dirs d ∨ ∀ p, beneath (dest m v) p → ¬ there d p;
  so_unpacked : ∀ m v, plain m → plain v → trusted (dest m v) d → is_unpacked d0 m v d;
}.

Lemma unpacked_base d0 d d' m v : (∀ p, ¬ beneath cacheDir p → files d !! p = files d0 !! p) → plain m → plain v →
  is_unpacked d m v d' ↔ is_unpacked d0 m v d'.
Proof.
  intros Hr Hm Hv.
  assert (content d (sj m v) = content d0 (sj m v)) as E1 by
    (unfold content; rewrite Hr; [done|]; apply Hapart; by apply (mirror_paths m v "")).
  assert (∀ h, content d (blobs ++ [h]) = content d0 (blobs ++ [h])) as E2 by
    (intros h; unfold content; rewrite Hr; [done|]; apply Hapart; by apply (mirror_paths m v)).
  unfold unpacked. rewrite E1. by setoid_rewrite E2.
Qed.

Lemma markers_base d0 d m v : (∀ p, ¬ beneath cacheDir p → files d !! p = files d0 !! p) → plain m → plain v → markers_free d0 →
  no_marker_entries parse read_targz open_entry read_zip d blobs (sj m v) (dest m v).
Proof.
  intros Hr Hm Hv Hf b src hex data stream. unfold content. rewrite !Hr; [by apply Hf|..]; apply Hapart; by apply (mirror_paths m v).
Qed.

Lemma materialize_ok d0 m v w : markers_free d0 → plain m → plain v → stats_answer (w_faults w) → sources_ok d0 (w_disk w) →
  let '(r, w') := materialize_source m v w in
  sources_ok d0 (w_disk w') ∧ ∀ p, r = Ok p → p = dest m v ∧ trusted p (w_disk w').
Proof.
  intros Hmark Hm Hv Hs [Hr Hd Hu]. set (d := w_disk w) in *. unfold MaterializeSource.
  assert (dest m v ≠ [] ∧ Forall plain (dest m v)) as [Hne Hpl].
  { rewrite dest_plain by done. split; [by destruct cacheDir|]. apply Forall_app. split; [done|]. plains. }
  assert (∀ p, beneath mirrorDir p → ¬ beneath (dest m v) p) as Hap by (intros p Hp Hb; eapply Hapart; [done|by apply (beneath_cache m v)]).
  pose proof (unpackSource_kept parse read_targz open_entry read_zip removal blobs (sj m v) (dest m v) Hne Hpl
    ltac:(apply Hap; by apply (mirror_paths m v "")) ltac:(intros h; apply Hap; by apply (mirror_paths m v)) d w (markers_base d0 d m v Hr Hm Hv Hmark)) as Hk.
  fold d in Hk. destruct (unpackSource _ _ _ _ _ _ _ _ w) as [r w'] eqn:E.
  unfold try_, mbind, os_bind. rewrite E.
  destruct Hk as [[Ho Hd' Hu'] Hok]; [split; [apply outside_refl|by apply Hd|]|done|].
  { intros Ht. apply (unpacked_base d0); [done..|]. by apply Hu. }
  assert (∀ m' v' p, plain m' → plain v' → (m', v') ≠ (m, v) → beneath (dest m' v') p →
    files (w_disk w') !! p = files d !! p ∧ (p ∈ dirs (w_disk w') ↔ p ∈ dirs d)) as Hsame.
  { intros m' v' p Hm' Hv' Hn Hb. pose proof (dest_apart m' v' m v p Hm' Hv' Hm Hv Hn Hb) as He.
    split; [by apply Ho, He|by apply Ho]. }
  assert (∀ m' v' p, plain m' → plain v' → (m', v') ≠ (m, v) → beneath (dest m' v') p → there (w_disk w') p ↔ there d p) as Hthere.
  { intros m' v' p Hm' Hv' Hn Hb. destruct (Hsame m' v' p Hm' Hv' Hn Hb) as [E1 E2]. unfold there. by rewrite E2, !elem_of_dom, E1. }
  assert (sources_ok d0 (w_disk w')) as Hso.
  { split.
    - intros p Hp. rewrite (proj1 Ho); [by apply Hr|]. intros Hb. apply Hp. by apply (beneath_cache m v).
    - intros m' v' Hm' Hv'. destruct (decide ((m', v') = (m, v))) as [[= -> ->]|Hn]; [done|].
      destruct (Hd m' v' Hm' Hv') as [Hin|Hno]; [left|right].
      + apply (Hsame m' v' _ Hm' Hv' Hn); [apply beneath_refl|done].
      + intros p Hb. rewrite (Hthere m' v') by done. by apply Hno.
    - intros m' v' Hm' Hv' Ht. destruct (decide ((m', v') = (m, v))) as [[= -> ->]|Hn].
      + apply (unpacked_base d0 d); [done..|]. by apply Hu'.
      + assert (trusted (dest m' v') d) as Ht'.
        { eapply Exists_impl; [exact Ht|]. intros name. apply (Hthere m' v'); try done. apply beneath_app. }
        destruct (Hu m' v' Hm' Hv' Ht') as (b & src & hex & data & stream & H1 & H2 & H3 & H4 & H5 & H6 & H7).
        exists b, src, hex, data, stream. split_and!; try done. intros p Hb Hp. rewrite <-H7 by done.
        unfold content. by rewrite (proj1 (Hsame m' v' p Hm' Hv' Hn Hb)). }
  destruct r as [[]|e]; (split; [exact Hso|]); [|by intros]. intros p [= <-]. split; [done|]. by apply Hok.
Qed.

Lemma materialize_runs d0 runs : markers_free d0 → Forall plain_run runs → ∀ d, sources_ok d0 d → sources_ok d0 (foldl materialize d runs).
Proof.
  intros Hmark. induction 1 as [|[[m v] fs] runs (Hm & Hv & Hs) Hruns IH]; intros d Hd; [done|]. cbn [foldl]. apply IH. unfold materialize.
  pose proof (materialize_ok d0 m v (mkWorld d fs true) Hmark Hm Hv Hs Hd) as H. cbn [fst snd] in *.
  destruct (materialize_source m v _) as [r w']. apply H.
Qed.

(** C16: Over a cache directory that was empty at first, after any calls one after the other,
    each of which may die at any step, and fail at any but those that ask whether the
    source is there, a source whose directory is marked as complete is the archive that its
    source.json names, file by file; a call that answers has marked it; and no file outside
    the cache directory changes.  It takes that no archive of the mirror has an entry by
    a marker's name, that no [os.Stat] of these calls fails, that the machine keeps its
    power, and that calls for one source do not overlap: the Examples below break it by
    each of these. *)
Theorem sources_exact d0 runs m v fs :
  (∀ p, beneath cacheDir p → p ≠ cacheDir → ¬ there d0 p) → markers_free d0 → Forall plain_run (runs ++ [((m, v), fs)]) →
  let '(r, w') := materialize_source m v (mkWorld (foldl materialize d0 runs) fs true) in
  (∀ m' v', plain m' → plain v' → trusted (dest m' v') (w_disk w') → is_unpacked d0 m' v' (w_disk w')) ∧
  (∀ p, r = Ok p → p = dest m v ∧ trusted p (w_disk w')) ∧
  (∀ p, ¬ beneath cacheDir p → files (w_disk w') !! p = files d0 !! p).
Proof.
  intros Hempty Hmark [Hruns [(Hm & Hv & Hs) _]%Forall_cons]%Forall_app. cbn [fst snd] in *.
  assert (∀ m v p, plain m → plain v → beneath (dest m v) p → ¬ there d0 p) as Hno.
  { intros m' v' p Hm' Hv' Hb. apply Hempty; [by apply (beneath_cache m' v')|]. rewrite dest_plain in Hb by done.
    intros ->. destruct Hb as [l E]. apply (f_equal length) in E. rewrite !length_app in E. simpl in E. lia. }
  assert (sources_ok d0 d0) as H0.
  { split; [done|intros m' v' Hm' Hv'; right; intros p; by apply Hno|]. intros m' v' Hm' Hv' (p & Hp & Ht)%trusted_marked.
    exfalso. eapply Hno; [exact Hm'|exact Hv'|by apply marked_beneath|exact Ht]. }
  pose proof (materialize_ok d0 m v (mkWorld (foldl materialize d0 runs) fs true) Hmark Hm Hv Hs (materialize_runs d0 runs Hmark Hruns d0 H0)) as H.
  destruct (materialize_source m v _) as [r w']. destruct H as [[Hr _ Hu] Hok]. by split_and!.
Qed.
End cache.

(** [detectArchiveKind] answers as the ingest's own, of Resolve.v. *)
Definition kind_of (r : result string Resolve.archiveKind) : archiveKind :=
  match r with Ok archiveKindTarGz => archiveTarGz | Ok archiveKindZip => archiveZip | Err _ => archiveUnknown end.

(** The two packages agree on the kind of every archive; what the one takes for unknown
    the other refuses. *)
Theorem kinds_agree declared url : detectArchiveKind declared url = kind_of (Resolve.detectArchiveKind declared url).
Proof.
  unfold detectArchiveKind, Resolve.detectArchiveKind. repeat case_decide; try done.
  destruct (HasSuffix _ ".zip"); [done|]. by destruct (_ || _).
Qed.

(** ** The resolver

    The lists and maps of the resolver hold pointers to entries; here an entry is a place in
    a heap.  Callers interleave: each critical section under the mutex, each beginning and
    end of a build, is a step. *)

Definition defaultMaxCachedSources : Z := 32.

Section resolver.
(** What a build may answer. *)
Context {B : Type} (builds : string → B → Prop) (maxEntries : Z).

(** [sync.Once], and the fields it guards. *)
Inductive once : Type :=
| Fresh
| Running
| Done (b : B).

Record slot := mkSlot { sl_key : string; sl_once : once }.

Record Resolver := mkResolver {
  rv_heap : list slot;
  rv_entries : gmap string nat;
  rv_order : list nat;
}.

Definition NewResolver : Resolver := mkResolver [] ∅ [].

Definition limit : Z := if (maxEntries <=? 0)%Z then defaultMaxCachedSources else maxEntries.

(** [evictIfFull]; a turn of the loop drops an entry, so the list's length is fuel enough. *)
Fixpoint evict_loop (n : nat) (s : Resolver) : Resolver :=
  match n with
  | O => s
  | S n =>
      if (limit <? Z.of_nat (length (rv_order s)))%Z then
        match last (rv_order s) with
        | None => s
        | Some id =>
            evict_loop n (mkResolver (rv_heap s)
              (match rv_heap s !! id with Some sl => delete (sl_key sl) (rv_entries s) | None => rv_entries s end)
              (take (length (rv_order s) - 1) (rv_order s)))
        end
      else s
  end.
Definition evictIfFull (s : Resolver) : Resolver := evict_loop (length (rv_order s)) s.

(** [entryFor] *)
Definition entryFor (key : string) (s : Resolver) : nat * Resolver :=
  match rv_entries s !! key with
  | Some id => (id, mkResolver (rv_heap s) (rv_entries s) (id :: filter (λ x, x ≠ id) (rv_order s)))
  | None =>
      let id := length (rv_heap s) in
      (id, evictIfFull (mkResolver (rv_heap s ++ [mkSlot key Fresh]) (<[key := id]> (rv_entries s)) (id :: rv_order s)))
  end.

Definition set_once (id : nat) (o : once) (s : Resolver) : Resolver :=
  mkResolver (alter (λ sl, mkSlot (sl_key sl) o) id (rv_heap s)) (rv_entries s) (rv_order s).

(** A caller of [Resolve]. *)
Inductive caller : Type :=
| Waiting (id : nat)
| Building (id : nat)
| Answered (id : nat) (b : B)
| Refused.

Record system := mkSystem {
  sy_resolver : Resolver;
  sy_callers : gmap nat caller;
  sy_built : list nat;
}.

Definition source_key (module version : string) : string := module +:+ "@" +:+ version.

Definition enter (t : nat) (module version : string) (s : system) : system :=
  if decide (module = "" ∨ version = "") then mkSystem (sy_resolver s) (<[t := Refused]> (sy_callers s)) (sy_built s)
  else let '(id, rv) := entryFor (source_key module version) (sy_resolver s) in
       mkSystem rv (<[t := Waiting id]> (sy_callers s)) (sy_built s).

(** One step of [Resolve] by one caller. *)
Inductive step : system → system → Prop :=
| step_enter t module version s : sy_callers s !! t = None → step s (enter t module version s)
| step_begin t id key s :
    sy_callers s !! t = Some (Waiting id) → rv_heap (sy_resolver s) !! id = Some (mkSlot key Fresh) →
    step s (mkSystem (set_once id Running (sy_resolver s)) (<[t := Building id]> (sy_callers s)) (sy_built s ++ [id]))
| step_end t id key b s :
    sy_callers s !! t = Some (Building id) → rv_heap (sy_resolver s) !! id = Some (mkSlot key Running) → builds key b →
    step s (mkSystem (set_once id (Done b) (sy_resolver s)) (<[t := Answered id b]> (sy_callers s)) (sy_built s))
| step_answer t id key b s :
    sy_callers s !! t = Some (Waiting id) → rv_heap (sy_resolver s) !! id = Some (mkSlot key (Done b)) →
    step s (mkSystem (sy_resolver s) (<[t := Answered id b]> (sy_callers s)) (sy_built s)).

Definition initial : system := mkSystem NewResolver ∅ [].
Definition reachable (s : system) : Prop := rtc step initial s.

(** ** Its invariant *)

Record cache_wf (s : Resolver) : Prop := {
  cw_nodup : NoDup (rv_order s);
  cw_order : ∀ id, id ∈ rv_order s → ∃ sl, rv_heap s !! id = Some sl ∧ rv_entries s !! sl_key sl = Some id;
  cw_entries : ∀ key id, rv_entries s !! key = Some id → id ∈ rv_order s ∧ ∃ o, rv_heap s !! id = Some (mkSlot key o);
}.

Lemma limit_pos : (0 < limit)%Z.
Proof. unfold limit, defaultMaxCachedSources. destruct (Z.leb_spec maxEntries 0); lia. Qed.

Lemma evict_loop_heap n s : rv_heap (evict_loop n s) = rv_heap s.
Proof. revert s. induction n as [|n IH]; intros s; simpl; [done|]. destruct (_ <? _)%Z; [|done]. destruct (last _); [by rewrite IH|done]. Qed.

(** Dropping the last entry. *)
Lemma drop_last_wf s l id : cache_wf s → rv_order s = l ++ [id] →
  cache_wf (mkResolver (rv_heap s) (match rv_heap s !! id with Some sl => delete (sl_key sl) (rv_entries s) | None => rv_entries s end) l).
Proof.
  intros [H1 H2 H3] E. destruct (H2 id) as (sl & Hsl & He); [rewrite E; set_solver|]. rewrite Hsl.
  rewrite E in H1. apply NoDup_app in H1 as (Hl & Hid & _).
  assert (id ∉ l) as Hnl by (intros ?; eapply Hid; [done|]; by left). split; simpl; [done| |].
  - intros i Hi. destruct (H2 i) as (sl' & Hsl' & He'); [rewrite E; set_solver|]. exists sl'. split; [done|].
    rewrite lookup_delete_ne; [done|]. intros Hk. rewrite Hk in He. congruence.
  - intros key i [Hne Hi]%lookup_delete_Some. destruct (H3 key i Hi) as [Hin Ho]. split; [|done].
    rewrite E in Hin. apply elem_of_app in Hin as [?|Hin]; [done|]. apply list_elem_of_singleton in Hin as ->.
    destruct Ho as [o Ho]. rewrite Hsl in Ho. injection Ho as ->. done.
Qed.

Lemma evict_loop_wf n s : cache_wf s → length (rv_order s) ≤ n →
  cache_wf (evict_loop n s) ∧ (Z.of_nat (length (rv_order (evict_loop n s))) ≤ limit)%Z ∧
  (∀ x l, rv_order s = x :: l → ∃ l', rv_order (evict_loop n s) = x :: l') ∧
  (∀ x, x ∈ rv_order (evict_loop n s) → x ∈ rv_order s).
Proof.
  pose proof limit_pos as Hpos. revert s. induction n as [|n IH]; intros s Hs Hn; simpl.
  { destruct (rv_order s); [|simpl in Hn; lia]. split_and!; [done|simpl; lia|done|done]. }
  destruct (Z.ltb_spec limit (Z.of_nat (length (rv_order s)))) as [Hlt|Hge]; [|split_and!; [done|done|eauto|done]].
  destruct (rv_order s) as [|id l _] eqn:E using rev_ind; [simpl in Hlt; lia|].
  rewrite last_snoc, length_app. simpl. rewrite Nat.add_sub, take_app_length.
  pose proof (drop_last_wf s l id Hs E) as Hw. set (s' := mkResolver _ _ l) in *.
  destruct (IH s' Hw) as (H1 & H2 & H3 & H4); [rewrite length_app in Hn; simpl in *; lia|].
  split_and!; [done|done| |].
  - intros x k Ex. destruct l as [|y l]; [simpl in Hlt; lia|]. injection Ex as -> _. by eapply H3.
  - intros x Hx. apply elem_of_app. left. by apply H4 in Hx.
Qed.

Lemma entryFor_spec key s : cache_wf s → (Z.of_nat (length (rv_order s)) ≤ limit)%Z →
  let '(id, s') := entryFor key s in
  cache_wf s' ∧ (Z.of_nat (length (rv_order s')) ≤ limit)%Z ∧ rv_entries s' !! key = Some id ∧
  (rv_heap s' = rv_heap s ∧ rv_entries s !! key = Some id ∨
   rv_heap s' = rv_heap s ++ [mkSlot key Fresh] ∧ id = length (rv_heap s) ∧ rv_entries s !! key = None) ∧
  ∀ x, x ∈ rv_order s' → x = id ∨ x ∈ rv_order s.
Proof.
  intros Hs Hlen. pose proof Hs as [H1 H2 H3]. unfold entryFor. destruct (rv_entries s !! key) as [id|] eqn:E.
  - destruct (H3 key id E) as [Hin [o Ho]].
    assert (∀ x, x ∈ id :: filter (λ x, x ≠ id) (rv_order s) ↔ x ∈ rv_order s) as Hel.
    { intros x. rewrite elem_of_cons, list_elem_of_filter. destruct (decide (x = id)) as [->|]; naive_solver. }
    assert (NoDup (id :: filter (λ x, x ≠ id) (rv_order s))) as Hnd.
    { apply NoDup_cons. split; [by intros [? _]%list_elem_of_filter|by apply NoDup_filter]. }
    split_and!; simpl; [|etrans; [|exact Hlen]|done|by left|by intros x Hx; right; apply Hel].
    + split; simpl; [done|intros i Hi; by apply H2, Hel|]. intros k i Hk. rewrite Hel. by apply H3.
    + assert (length (id :: filter (λ x, x ≠ id) (rv_order s)) ≤ length (rv_order s)) as Hle; [|simpl in Hle; lia].
      apply submseteq_length, NoDup_submseteq; [done|]. intros x. by apply Hel.
  - set (id := length (rv_heap s)). set (s1 := mkResolver _ _ (id :: rv_order s)).
    assert (∀ i, is_Some (rv_heap s !! i) → i ≠ id) as Hfresh by (intros i Hi%lookup_lt_is_Some ->; unfold id in Hi; lia).
    assert (cache_wf s1) as Hs1.
    { split; simpl.
      - apply NoDup_cons. split; [|done]. intros (sl & Hsl & _)%H2. by eapply Hfresh; [eexists|].
      - intros i [->|Hi]%elem_of_cons.
        + exists (mkSlot key Fresh). rewrite lookup_app_r by lia. unfold id. rewrite Nat.sub_diag. split; [done|]. by rewrite lookup_insert_eq.
        + destruct (H2 i Hi) as (sl & Hsl & He). exists sl. split; [by apply lookup_app_l_Some|]. rewrite lookup_insert_ne; [done|]. congruence.
      - intros k i Hk. destruct (decide (k = key)) as [->|Hne].
        + rewrite lookup_insert_eq in Hk. injection Hk as <-. split; [by left|]. exists Fresh. rewrite lookup_app_r by lia. unfold id. by rewrite Nat.sub_diag.
        + rewrite lookup_insert_ne in Hk by done. destruct (H3 k i Hk) as [Hin [o Ho]]. split; [by right|]. exists o. by apply lookup_app_l_Some. }
    destruct (evict_loop_wf (length (rv_order s1)) s1 Hs1 ltac:(done)) as (Hw & Hl & Hkeep & Hin). fold (evictIfFull s1) in *.
    destruct (Hkeep id (rv_order s) eq_refl) as [l' El'].
    split_and!; [done|done| | |].
    + destruct (cw_order _ Hw id) as (sl & Hsl & He); [rewrite El'; by left|]. unfold evictIfFull in Hsl. rewrite evict_loop_heap in Hsl.
      simpl in Hsl. rewrite lookup_app_r in Hsl by lia. unfold id in Hsl. rewrite Nat.sub_diag in Hsl. by injection Hsl as <-.
    + right. unfold evictIfFull. by rewrite evict_loop_heap.
    + intros x Hx%Hin. by apply elem_of_cons in Hx.
Qed.

Record system_ok (s : system) : Prop := {
  ok_cache : cache_wf (sy_resolver s);
  ok_limit : (Z.of_nat (length (rv_order (sy_resolver s))) ≤ limit)%Z;
  ok_built : NoDup (sy_built s);
  ok_fresh : ∀ id key, rv_heap (sy_resolver s) !! id = Some (mkSlot key Fresh) → id ∉ sy_built s;
  ok_begun : ∀ id, id ∈ sy_built s → id < length (rv_heap (sy_resolver s));
  ok_running : ∀ id key, rv_heap (sy_resolver s) !! id = Some (mkSlot key Running) → ∃ t, sy_callers s !! t = Some (Building id);
  ok_waiting : ∀ t id, sy_callers s !! t = Some (Waiting id) → is_Some (rv_heap (sy_resolver s) !! id);
  ok_building : ∀ t id, sy_callers s !! t = Some (Building id) → ∃ key, rv_heap (sy_resolver s) !! id = Some (mkSlot key Running);
  ok_answered : ∀ t id b, sy_callers s !! t = Some (Answered id b) → ∃ key, rv_heap (sy_resolver s) !! id = Some (mkSlot key (Done b)) ∧ builds key b;
  ok_done : ∀ id key b, rv_heap (sy_resolver s) !! id = Some (mkSlot key (Done b)) → builds key b;
  ok_one : ∀ t t' id, sy_callers s !! t = Some (Building id) → sy_callers s !! t' = Some (Building id) → t = t';
}.

Lemma initial_ok : system_ok initial.
Proof.
  split; simpl; try (intros; simplify_map_eq; done).
  - split; simpl; [constructor|by intros ? []%elem_of_nil|by intros ???%lookup_empty_Some].
  - pose proof limit_pos. lia.
  - constructor.
  - intros id []%elem_of_nil.
Qed.

(** Setting an entry's state. *)
Lemma set_once_heap id o s i : rv_heap (set_once id o s) !! i =
  if decide (i = id) then (λ sl, mkSlot (sl_key sl) o) <$> rv_heap s !! i else rv_heap s !! i.
Proof. simpl. case_decide as E; [subst; by rewrite list_lookup_alter_eq|by rewrite list_lookup_alter_ne]. Qed.

Lemma set_once_wf id o s : cache_wf s → cache_wf (set_once id o s).
Proof.
  intros [H1 H2 H3]. split; [done| |].
  - intros i Hi. destruct (H2 i Hi) as (sl & Hsl & He). rewrite set_once_heap, Hsl. case_decide; [|by exists sl].
    exists (mkSlot (sl_key sl) o). by split.
  - intros key i Hk. destruct (H3 key i Hk) as [Hin [o' Ho]]. split; [done|]. rewrite set_once_heap, Ho. case_decide; by eexists.
Qed.

Lemma enter_ok t module version s : sy_callers s !! t = None → system_ok s → system_ok (enter t module version s).
Proof.
  intros Ht Hs. pose proof Hs as [H1 H2 H3 H4 H5 H6 H7 H8 H9 H10 H11]. unfold enter. case_decide as Hempty.
  - split; simpl; try done.
    + intros id key Hh. destruct (H6 id key Hh) as [t' Ht']. exists t'. rewrite lookup_insert_ne; [done|]. congruence.
    + intros t' id [[_ [=]]|[_ ?]]%lookup_insert_Some. eauto.
    + intros t' id [[_ [=]]|[_ ?]]%lookup_insert_Some. eauto.
    + intros t' id b [[_ [=]]|[_ ?]]%lookup_insert_Some. eauto.
    + intros t1 t2 id [[_ [=]]|[_ ?]]%lookup_insert_Some [[_ [=]]|[_ ?]]%lookup_insert_Some. eauto.
  - pose proof (entryFor_spec (source_key module version) (sy_resolver s) H1 H2) as He.
    destruct (entryFor _ _) as [id rv]. destruct He as (E1 & E2 & E3 & E4 & _).
    assert (∀ i sl, rv_heap (sy_resolver s) !! i = Some sl → rv_heap rv !! i = Some sl) as Hold.
    { intros i sl Hi. destruct E4 as [[-> _]|[-> _]]; [done|]. by apply lookup_app_l_Some. }
    assert (∀ i key o, rv_heap rv !! i = Some (mkSlot key o) → o ≠ Fresh → rv_heap (sy_resolver s) !! i = Some (mkSlot key o)) as Hnew.
    { intros i key o Hi Ho. destruct E4 as [[E _]|[E _]]; rewrite E in Hi; [done|].
      apply lookup_app_Some in Hi as [?|[_ Hi]]; [done|]. destruct (i - _); simplify_eq/=. }
    split; simpl; try done.
    + intros i key Hi Hin. destruct E4 as [[E _]|[E _]]; rewrite E in Hi; [by eapply H4|].
      apply lookup_app_Some in Hi as [?|[Hge Hi]]; [by eapply H4|]. apply H5 in Hin. lia.
    + intros i Hi%H5. destruct E4 as [[-> _]|[-> _]]; [done|]. rewrite length_app. lia.
    + intros i key Hi%Hnew; [|done]. destruct (H6 i key Hi) as [t' Ht']. exists t'. rewrite lookup_insert_ne; [done|]. congruence.
    + intros t' i [[_ [= <-]]|[_ Hw]]%lookup_insert_Some; [by destruct (cw_entries _ E1 _ _ E3) as [_ [o ->]]|].
      apply H7 in Hw as [sl Hsl]. exists sl. by apply Hold.
    + intros t' i [[_ [=]]|[_ Hw]]%lookup_insert_Some. apply H8 in Hw as [key Hk]. exists key. by apply Hold.
    + intros t' i b [[_ [=]]|[_ Hw]]%lookup_insert_Some. apply H9 in Hw as (key & Hk & Hb). exists key. split; [by apply Hold|done].
    + intros i key b Hi%Hnew; [|done]. by eapply H10.
    + intros t1 t2 i [[_ [=]]|[_ ?]]%lookup_insert_Some [[_ [=]]|[_ ?]]%lookup_insert_Some. eauto.
Qed.

Lemma begin_ok t id key s : sy_callers s !! t = Some (Waiting id) → rv_heap (sy_resolver s) !! id = Some (mkSlot key Fresh) →
  system_ok s →
  system_ok (mkSystem (set_once id Running (sy_resolver s)) (<[t := Building id]> (sy_callers s)) (sy_built s ++ [id])).
Proof.
  intros Ht Hid [H1 H2 H3 H4 H5 H6 H7 H8 H9 H10 H11].
  assert (∀ t, sy_callers s !! t ≠ Some (Building id)) as Hnb by (intros t' [k Hk]%H8; congruence).
  split; cbn [sy_resolver sy_callers sy_built]; [by apply set_once_wf|done| | | | | | | | |].
  - apply NoDup_app. split_and!; [done| |apply NoDup_singleton]. intros x Hx ->%list_elem_of_singleton. by eapply H4.
  - intros i k. rewrite set_once_heap. case_decide as E; [by subst; rewrite Hid|]. intros Hi [?|Hx]%elem_of_app; [by eapply H4|].
    by apply list_elem_of_singleton in Hx.
  - intros i [Hi| ->%list_elem_of_singleton]%elem_of_app; simpl; rewrite length_alter; [by apply H5|]. by apply lookup_lt_Some in Hid.
  - intros i k. rewrite set_once_heap. case_decide as E; [subst; exists t; by rewrite lookup_insert_eq|].
    intros Hi. destruct (H6 i k Hi) as [t' Ht']. exists t'. rewrite lookup_insert_ne; [done|]. congruence.
  - intros t' i [[_ [=]]|[_ Hw]]%lookup_insert_Some. rewrite set_once_heap. case_decide; [rewrite fmap_is_Some|]; eauto.
  - intros t' i. rewrite set_once_heap. intros [[_ [= <-]]|[_ Hw]]%lookup_insert_Some.
    + rewrite decide_True, Hid by done. by exists key.
    + rewrite decide_False; [by eapply H8|]. intros ->. by eapply Hnb.
  - intros t' i b [[_ [=]]|[_ Hw]]%lookup_insert_Some. rewrite set_once_heap. apply H9 in Hw as (k & Hk & Hb). exists k.
    rewrite decide_False; [done|]. congruence.
  - intros i k b. rewrite set_once_heap. case_decide; [by subst; rewrite Hid|]. apply H10.
  - intros t1 t2 i. intros [[<- [= <-]]|[Hn1 Hw1]]%lookup_insert_Some [[<- E2]|[Hn2 Hw2]]%lookup_insert_Some.
    + done.
    + by destruct (Hnb t2).
    + injection E2 as <-. by destruct (Hnb t1).
    + by eapply H11.
Qed.

Lemma end_ok t id key b s : sy_callers s !! t = Some (Building id) → rv_heap (sy_resolver s) !! id = Some (mkSlot key Running) →
  builds key b → system_ok s →
  system_ok (mkSystem (set_once id (Done b) (sy_resolver s)) (<[t := Answered id b]> (sy_callers s)) (sy_built s)).
Proof.
  intros Ht Hid Hb [H1 H2 H3 H4 H5 H6 H7 H8 H9 H10 H11].
  split; cbn [sy_resolver sy_callers sy_built]; [by apply set_once_wf|done|done| | | | | | | |].
  - intros i k. rewrite set_once_heap. case_decide; [by subst; rewrite Hid|]. apply H4.
  - intros i Hi. simpl. rewrite length_alter. by apply H5.
  - intros i k. rewrite set_once_heap. case_decide; [by subst; rewrite Hid|]. intros Hi.
    destruct (H6 i k Hi) as [t' Ht']. exists t'. rewrite lookup_insert_ne; [done|]. intros ->. rewrite Ht in Ht'. by injection Ht' as <-.
  - intros t' i [[_ [=]]|[_ Hw]]%lookup_insert_Some. rewrite set_once_heap. case_decide; [rewrite fmap_is_Some|]; eauto.
  - intros t' i [[_ [=]]|[Hn Hw]]%lookup_insert_Some. rewrite set_once_heap, decide_False; [by eapply H8|].
    intros ->. apply Hn. by eapply H11.
  - intros t' i b' [[_ [= <- <-]]|[_ Hw]]%lookup_insert_Some; rewrite set_once_heap.
    + rewrite decide_True, Hid by done. by exists key.
    + apply H9 in Hw as (k & Hk & Hb'). exists k. rewrite decide_False; [done|]. congruence.
  - intros i k b'. rewrite set_once_heap. case_decide; [subst; rewrite Hid; by intros [= <- <-]|]. apply H10.
  - intros t1 t2 i [[_ [=]]|[_ Hw1]]%lookup_insert_Some [[_ [=]]|[_ Hw2]]%lookup_insert_Some. by eapply H11.
Qed.

Lemma answer_ok t id key b s : sy_callers s !! t = Some (Waiting id) → rv_heap (sy_resolver s) !! id = Some (mkSlot key (Done b)) →
  system_ok s → system_ok (mkSystem (sy_resolver s) (<[t := Answered id b]> (sy_callers s)) (sy_built s)).
Proof.
  intros Ht Hid [H1 H2 H3 H4 H5 H6 H7 H8 H9 H10 H11]. split; cbn [sy_resolver sy_callers sy_built]; try done.
  - intros i k Hi. destruct (H6 i k Hi) as [t' Ht']. exists t'. rewrite lookup_insert_ne; [done|]. congruence.
  - intros t' i [[_ [=]]|[_ Hw]]%lookup_insert_Some. eauto.
  - intros t' i [[_ [=]]|[_ Hw]]%lookup_insert_Some. eauto.
  - intros t' i b' [[_ [= <- <-]]|[_ Hw]]%lookup_insert_Some; [|eauto]. exists key. split; [done|]. by eapply H10.
  - intros t1 t2 i [[_ [=]]|[_ Hw1]]%lookup_insert_Some [[_ [=]]|[_ Hw2]]%lookup_insert_Some. by eapply H11.
Qed.

Lemma reachable_ok s : reachable s → system_ok s.
Proof.
  revert s. apply rtc_ind_r; [apply initial_ok|]. intros s s' _ Hs IH.
  destruct Hs; [by apply enter_ok|by eapply begin_ok|by eapply end_ok|by eapply answer_ok].
Qed.

(** A call that has not been answered. *)
Definition pending (c : caller) : bool := match c with Waiting _ | Building _ => true | _ => false end.

(** C32: However callers interleave: the resolver holds at most [limit] sources, each
    reachable by its key alone; an entry is built once, by one caller at a time, and all who
    ask it get what that build gave, an error too; two entries were built for one key only
    if one of them has been dropped; and while a call is pending some caller can go on. *)
Theorem resolver_builds_once s : reachable s → (∀ key, ∃ b, builds key b) →
  (Z.of_nat (length (rv_order (sy_resolver s))) ≤ limit)%Z ∧
  NoDup (sy_built s) ∧
  (∀ t t' id b b', sy_callers s !! t = Some (Answered id b) → sy_callers s !! t' = Some (Answered id b') → b = b') ∧
  (∀ t t' id, sy_callers s !! t = Some (Building id) → sy_callers s !! t' = Some (Building id) → t = t') ∧
  (∀ id id' o o' key, rv_heap (sy_resolver s) !! id = Some (mkSlot key o) → rv_heap (sy_resolver s) !! id' = Some (mkSlot key o') →
     id ∈ rv_order (sy_resolver s) → id' ∈ rv_order (sy_resolver s) → id = id') ∧
  ((∃ t c, sy_callers s !! t = Some c ∧ pending c = true) →
     ∃ t c s', sy_callers s !! t = Some c ∧ pending c = true ∧ step s s' ∧ sy_callers s' !! t ≠ Some c).
Proof.
  intros Hr Hb. pose proof (reachable_ok s Hr) as [H1 H2 H3 H4 H5 H6 H7 H8 H9 H10 H11]. split_and!; [done|done| |done| |].
  - intros t t' id b b' (k & Hk & _)%H9 (k' & Hk' & _)%H9. congruence.
  - intros id id' o o' key Hh Hh' Hi Hi'. destruct (cw_order _ H1 id Hi) as (sl & Hsl & He), (cw_order _ H1 id' Hi') as (sl' & Hsl' & He').
    simplify_eq. simpl in *. congruence.
  - assert (∀ t id, sy_callers s !! t = Some (Building id) → ∃ s', step s s' ∧ sy_callers s' !! t ≠ Some (Building id)) as Hend.
    { intros t id Ht. destruct (H8 t id Ht) as [key Hk]. destruct (Hb key) as [b Hkb]. eexists. split; [by eapply step_end|].
      simpl. by rewrite lookup_insert_eq. }
    intros (t & [id|id|id b|] & Ht & Hp); try done.
    + destruct (H7 t id Ht) as [[key [| |b]] Hsl].
      * exists t, (Waiting id). eexists. split_and!; [done|done|by eapply step_begin|]. simpl. by rewrite lookup_insert_eq.
      * destruct (H6 id key Hsl) as [t' Ht']. destruct (Hend t' id Ht') as [s' Hs']. exists t', (Building id), s'. by split_and!; try apply Hs'.
      * exists t, (Waiting id). eexists. split_and!; [done|done|by eapply step_answer|]. simpl. by rewrite lookup_insert_eq.
    + destruct (Hend t id Ht) as [s' Hs']. exists t, (Building id), s'. by split_and!; try apply Hs'.
Qed.
End resolver.
Arguments Fresh {B}.
Arguments Running {B}.
Arguments Done {B} b.
Arguments Waiting {B} id.
Arguments Building {B} id.
Arguments Answered {B} id b.
Arguments Refused {B}.

(** ** A mirror to try it on

    source.json is the integrity of the archive, and every archive holds a MODULE.bazel. *)

Definition demo_descriptor (b : bytes) : result string sourceDescriptor := Ok (mkDescriptor (of_bytes b) "" "tar.gz" "").
Definition demo_entry : entry := mkEntry "MODULE.bazel" TypeReg 420 (to_bytes "module()") None.
Definition demo_targz (stream : bytes * option string) : result string (list (result string entry)) :=
  match stream.2 with None => Ok [Ok demo_entry] | Some e => Ok [Err e] end.
Definition demo_mirror : path := ["srv"; "mirror"].
Definition demo_cache : path := ["srv"; "cache"].
Definition demo_disk : disk :=
  mkDisk {[joined demo_mirror ["modules"; "a"; "1"; "source.json"] := (to_bytes (SRI (sha256 (to_bytes "data"))), true);
           joined demo_mirror ["blobs"; of_bytes (hex_encode (sha256 (to_bytes "data")))] := (to_bytes "data", true)]}
         (list_to_set [["srv"]; ["srv"; "mirror"]; ["srv"; "cache"]]).
Definition demo_materialize (targz : bytes * option string → result string (list (result string entry))) (d : disk) (fs : list fault) :=
  MaterializeSource demo_descriptor targz (λ _, None) (λ _, Err "zip") (λ d _, elements (dom (files d))) demo_mirror demo_cache "a" "1" (mkWorld d fs true).
Abbreviation demo_run targz d fs := (let '(r, w) := demo_materialize targz d fs in (r, w_disk w)).
Definition demo_module : path := joined demo_cache ["a"; "1"; "MODULE.bazel"].

(** An archive with an entry by the marker's name, and broken after it: the first call fails,
    and from then on what came before the break is taken for the source. *)
Example broken_archive_trusted :
  let targz := λ _, Ok [Ok (mkEntry ".bzlhub-unpack-complete" TypeReg 420 [] None); Err "unexpected EOF"] in
  let '(r, d) := demo_run targz demo_disk [] in
  let '(r', d') := demo_run targz d [] in
  r = Err "codenav: extract: extract" ∧ r' = Ok ["srv"; "cache"; "a"; "1"] ∧ content d' demo_module = None.
Proof. vm_compute. by repeat split. Qed.

(** The marker is a name in a directory, and the files are not synced before it is made: after
    a power loss they may be empty, and are served. *)
Example power_loss_trusted :
  let '(r, d) := demo_run demo_targz demo_disk [] in
  let '(r', d') := demo_run demo_targz (power_loss (λ _, 0) d) [] in
  r = Ok ["srv"; "cache"; "a"; "1"] ∧ r' = Ok ["srv"; "cache"; "a"; "1"] ∧ content d' demo_module = Some [].
Proof. vm_compute. by repeat split. Qed.

(** A question whose answer fails is taken for a missing marker, and the source removed; if
    the process dies in that, the marker may outlive the files. *)
Example failed_stat_trusted :
  let '(r, d) := demo_run demo_targz demo_disk [] in
  let '(_, d') := demo_run demo_targz d [Fails 0 "input/output error"; Fine; Fine; Crash 2] in
  let '(r', d'') := demo_run demo_targz d' [] in
  r' = Ok ["srv"; "cache"; "a"; "1"] ∧ content d'' demo_module = None.
Proof. vm_compute. by repeat split. Qed.

(** Two coordinates with one key. *)
Example keys_collide : source_key "a@b" "c" = source_key "a" "b@c".
Proof. reflexivity. Qed.

Lemma demo_extraction : markers_free demo_descriptor demo_targz (λ _, None) (λ _, Err "zip") demo_mirror demo_cache demo_disk.
Proof.
  intros m v Hm Hv b src hex data stream _ [= <-] _ _ _. unfold dest_dir. rewrite joined_plain by plains. set (dest := demo_cache ++ [m; v]).
  assert (Forall plain dest) as Hp by (unfold dest, demo_cache; simpl; plains).
  assert (dest ≠ []) as Hne by by destruct m.
  assert (∀ l, marked dest (dest ++ l) → head l ∈ Some <$> sentinels) as Hmk.
  { intros l (name & Hn & [k E])%Exists_exists. rewrite <-app_assoc in E. apply app_inv_head in E. subst l.
    apply list_elem_of_fmap. by exists name. }
  assert (∀ l, head l ∉ Some <$> sentinels → ¬ marked dest (dest ++ l)) as Hnot by (intros l Hn Hl; by apply Hn, Hmk).
  assert (¬ marked dest (segs (rooted dest))) as Hd.
  { unfold rooted. rewrite segs_rooted by done. rewrite <-(app_nil_r dest) at 2. apply Hnot. set_solver. }
  unfold extraction, ExtractTarGz, demo_targz, do_mkdir. cbn [detectArchiveKind]. simpl.
  destruct (stream.2) as [e|]; simpl; [by repeat constructor|].
  unfold tar_entry. simpl. rewrite check_path_spec by by apply rooted_ok.
  rewrite (bool_decide_eq_false_2 (".." ∈ Split "MODULE.bazel" slash)) by (vm_compute; set_solver). simpl.
  unfold do_mkdir. rewrite dir_path_under by (by apply rooted_ok || plains). simpl.
  unfold extract_file, write_file. simpl.
  repeat constructor; simpl; [done| |].
  - unfold under. by rewrite decide_True.
  - rewrite segs_under by (done || plains). apply Hnot. vm_compute. set_solver.
Qed.

Lemma demo_cache_empty p : beneath demo_cache p → p ≠ demo_cache → ¬ there demo_disk p.
Proof.
  assert (Forall (λ p, ¬ (beneath demo_cache p ∧ p ≠ demo_cache)) (elements (dom (files demo_disk)) ++ elements (dirs demo_disk))) as H
    by (refine (bool_decide_unpack _ _); vm_compute; exact I).
  rewrite Forall_forall in H. intros Hb Hne Ht. apply (H p); [|done]. apply elem_of_app.
  destruct Ht as [?|?]; [left|right]; by apply elem_of_elements.
Qed.

Lemma demo_apart p : beneath demo_mirror p → ¬ beneath demo_cache p.
Proof. intros [l ->] [k E]. discriminate E. Qed.

(** A process dies while it writes the source; the next one unpacks it. *)
Lemma sources_exact_witness :
  let d := materialize demo_descriptor demo_targz (λ _, None) (λ _, Err "zip") (λ d _, elements (dom (files d))) demo_mirror demo_cache
             demo_disk (("a", "1"), repeat Fine 10 ++ [Crash 3]) in
  content d demo_module = Some (to_bytes "mod") ∧
  let '(r, w') := demo_materialize demo_targz d [] in
  r = Ok ["srv"; "cache"; "a"; "1"] ∧
  unpacked demo_descriptor demo_targz (λ _, None) (λ _, Err "zip") demo_disk (joined demo_mirror ["blobs"])
    (source_json demo_mirror "a" "1") (dest_dir demo_cache "a" "1") (w_disk w').
Proof.
  intros d. split; [vm_compute; reflexivity|].
  assert (plain "a" ∧ plain "1") as [Ha H1] by (split; by apply plain_lit).
  assert (stats_answer (repeat Fine 10 ++ [Crash 3])) as Hs by by repeat constructor.
  assert (Forall plain demo_cache) as Hc by (unfold demo_cache; plains).
  pose proof (sources_exact demo_descriptor demo_targz (λ _, None) (λ _, Err "zip") (λ d _, elements (dom (files d))) demo_mirror demo_cache
    Hc demo_apart demo_disk [(("a", "1"), repeat Fine 10 ++ [Crash 3])] "a" "1" [] demo_cache_empty demo_extraction) as H.
  assert ((demo_materialize demo_targz d []).1 = Ok ["srv"; "cache"; "a"; "1"]) as Hok by (vm_compute; reflexivity).
  unfold demo_materialize in *. cbn [foldl] in H. fold d in H.
  destruct (MaterializeSource _ _ _ _ _ _ _ _ _ _) as [r w'].
  destruct H as (Hu & Hr & _); [apply Forall_cons; split; [by split_and!|]; apply Forall_singleton; split_and!; [done|done|constructor]|].
  split; [exact Hok|]. cbn [fst] in Hok. subst r. destruct (Hr _ eq_refl) as [E Ht]. rewrite E in Ht. by apply Hu.
Defined.

(** Three callers and room for one source: the first source is dropped while it is built, and
    is built a second time beside the first, in the same directory. *)
Definition demo_begin {B} (t id : nat) (s : system (B := B)) : system (B := B) :=
  mkSystem (set_once id Running (sy_resolver s)) (<[t := Building id]> (sy_callers s)) (sy_built s ++ [id]).
Definition demo_busy : system (B := bool) :=
  demo_begin 2 2 (enter 1 2 "a" "1" (enter 1 1 "b" "1" (demo_begin 0 0 (enter 1 0 "a" "1" initial)))).

Lemma demo_busy_reachable : reachable (λ _ _, True) 1 demo_busy.
Proof.
  assert (∀ t m v (s : system (B := bool)), sy_callers s !! t = None → reachable (λ _ _, True) 1 s → reachable (λ _ _, True) 1 (enter 1 t m v s)) as Hin
    by (intros t m v s Ht Hr; eapply rtc_r; [exact Hr|by apply step_enter]).
  assert (∀ t id key (s : system (B := bool)), sy_callers s !! t = Some (Waiting id) → rv_heap (sy_resolver s) !! id = Some (mkSlot key Fresh) →
    reachable (λ _ _, True) 1 s → reachable (λ _ _, True) 1 (demo_begin t id s)) as Hbegin
    by (intros t id key s Ht Hh Hr; eapply rtc_r; [exact Hr|by eapply step_begin]).
  unfold demo_busy. apply (Hbegin 2 2 "a@1"); [reflexivity|reflexivity|]. do 2 (apply Hin; [reflexivity|]).
  apply (Hbegin 0 0 "a@1"); [reflexivity|reflexivity|]. apply Hin; [reflexivity|]. apply rtc_refl.
Qed.

Example built_twice_at_once :
  sy_callers demo_busy !! 0 = Some (Building 0) ∧ sy_callers demo_busy !! 2 = Some (Building 2) ∧
  sl_key <$> rv_heap (sy_resolver demo_busy) !! 0 = Some "a@1" ∧ sl_key <$> rv_heap (sy_resolver demo_busy) !! 2 = Some "a@1".
Proof. vm_compute. by repeat split. Qed.

Lemma resolver_builds_once_witness :
  length (rv_order (sy_resolver demo_busy)) = 1 ∧ NoDup (sy_built demo_busy) ∧
  ∃ t c s', sy_callers demo_busy !! t = Some c ∧ pending c = true ∧ step (λ _ _, True) 1 demo_busy s' ∧ sy_callers s' !! t ≠ Some c.
Proof.
  destruct (resolver_builds_once (λ _ _, True) 1 demo_busy demo_busy_reachable (λ _, ex_intro _ true I)) as (_ & Hn & _ & _ & _ & Hp).
  split; [vm_compute; reflexivity|]. split; [exact Hn|]. apply Hp. exists 0, (Building 0). split; [vm_compute; reflexivity|done].
Defined.
