(* ===== verification/Search.v ===== *)
(** * Search

    The search over the whole index and its three back-ends: the walks for a symbol and for an
    attribute (internal/bzlhub/search.go), and the full-text query with its filter on the
    hermeticity classes (internal/store/search.go).  The full-text engine, which chooses and
    ranks the rows and cuts the excerpt, is a parameter. *)

From S2P Require Import Prelude Strings Report Archive Index Catalog.

(** ** Queries and hits *)

Record Query := mkQuery {
  q_Text : string;
  q_Hermeticity : list HermeticityClass;
  q_Attr : string;
  q_Kind : string;
  q_Limit : Z;
}.

Record Hit := mkHit {
  h_Module : string;
  h_Version : string;
  h_Snippet : string;
  h_MatchKind : string;
  h_MatchName : string;
  h_File : string;
  h_Hermeticity : list HermeticityClass;
  h_Attr : string;
  h_HasSourceIndex : bool;
}.

Record SearchResults := mkResults { sr_Hits : list Hit; sr_Total : nat }.

(** [if limit <= 0 { limit = 50 }] *)
Definition limit_of (q : Query) : nat := Z.to_nat (if (q_Limit q <=? 0)%Z then 50 else q_Limit q).

(** The hit of a walk: its text, classes and flag are left empty. *)
Definition walk_hit (k : coord) (kind name file attr : string) : Hit := mkHit k.1 k.2 "" kind name file [] attr false.

Section search.
Context (decode_report : string → result string ModuleReport).
Abbreviation GetReport := (GetReport decode_report).
Abbreviation loaded := (loaded decode_report).

(** ** By the name of a symbol *)

(** The hits of one report: the branches of the switch. *)
Definition kind_hits (kind target : string) (k : coord) (rep : ModuleReport) : list Hit :=
  if decide (kind = "rule") then
    (λ r, walk_hit k "rule" (rule_Name r) (prov_File (rule_Provenance r)) "") <$> filter (λ r, rule_Name r = target) (rep_Rules rep)
  else if decide (kind = "provider") then
    (λ p, walk_hit k "provider" (provider_Name p) (prov_File (provider_Provenance p)) "")
      <$> filter (λ p, provider_Name p = target) (rep_Providers rep)
  else if decide (kind = "macro") then
    (λ m, walk_hit k "macro" (macro_Name m) (prov_File (macro_Provenance m)) "") <$> filter (λ m, macro_Name m = target) (rep_Macros rep)
  else if decide (kind = "repo_rule") then
    (λ r, walk_hit k "repository_rule" (rr_Name r) (prov_File (rr_Provenance r)) "")
      <$> filter (λ r, rr_Name r = target) (rep_RepositoryRules rep)
  else if decide (kind = "module_extension") then
    (λ e, walk_hit k "module" (ext_Name e) (prov_File (ext_Provenance e)) "") <$> filter (λ e, ext_Name e = target) (rep_ModuleExtensions rep)
  else [].

(** [push] *)
Definition push (limit : nat) (hits : list Hit) (h : Hit) : list Hit := if decide (limit ≤ length hits) then hits else hits ++ [h].

(** [searchByKind] *)
Fixpoint kind_rows (ix : Index) (limit : nat) (kind target : string) (rows : list coord) (hits : list Hit) : list Hit :=
  match rows with
  | [] => hits
  | k :: rows =>
      if decide (limit ≤ length hits) then hits
      else kind_rows ix limit kind target rows
             match GetReport ix k.1 k.2 with
             | Err _ => hits
             | Ok rep => foldl (push limit) hits (kind_hits kind target k rep)
             end
  end.
Definition searchByKind (ix : Index) (q : Query) : SearchResults :=
  let hits := kind_rows ix (limit_of q) (q_Kind q) (q_Text q) (ListAllVersions ix).*1 [] in mkResults hits (length hits).

(** ** By the name of an attribute *)

(** The loop over the attributes of one rule. *)
Fixpoint attr_loop (limit : nat) (k : coord) (kind name file target : string) (attrs : list AttrSpec) (hits : list Hit) : list Hit :=
  match attrs with
  | [] => hits
  | a :: attrs =>
      if decide (attr_Name a ≠ target) then attr_loop limit k kind name file target attrs hits
      else
        let hits := hits ++ [walk_hit k kind name file (attr_Name a)] in
        if decide (limit ≤ length hits) then hits else attr_loop limit k kind name file target attrs hits
  end.

(** The loop over the rules asks after each whether it is enough, the one over the
    repository rules before each. *)
Fixpoint rules_loop (limit : nat) (k : coord) (target : string) (rules : list RuleSpec) (hits : list Hit) : list Hit :=
  match rules with
  | [] => hits
  | ru :: rules =>
      let hits := attr_loop limit k "rule" (rule_Name ru) (prov_File (rule_Provenance ru)) target (rule_Attrs ru) hits in
      if decide (limit ≤ length hits) then hits else rules_loop limit k target rules hits
  end.
Fixpoint repo_rules_loop (limit : nat) (k : coord) (target : string) (rules : list RepoRuleSpec) (hits : list Hit) : list Hit :=
  match rules with
  | [] => hits
  | rr :: rules =>
      if decide (limit ≤ length hits) then hits
      else repo_rules_loop limit k target rules
             (attr_loop limit k "repository_rule" (rr_Name rr) (prov_File (rr_Provenance rr)) target (rr_Attrs rr) hits)
  end.

(** [searchByAttr] *)
Fixpoint attr_rows (ix : Index) (limit : nat) (target : string) (rows : list coord) (hits : list Hit) : list Hit :=
  match rows with
  | [] => hits
  | k :: rows =>
      if decide (limit ≤ length hits) then hits
      else attr_rows ix limit target rows
             match GetReport ix k.1 k.2 with
             | Err _ => hits
             | Ok rep => repo_rules_loop limit k target (rep_RepositoryRules rep) (rules_loop limit k target (rep_Rules rep) hits)
             end
  end.
Definition searchByAttr (ix : Index) (q : Query) : SearchResults :=
  let hits := attr_rows ix (limit_of q) (q_Attr q) (ListAllVersions ix).*1 [] in mkResults hits (length hits).

(** ** By the text *)

(** What the full-text engine answers: the rows that match, in the order of their rank; and
    the excerpt of a row. *)
Context (fts_match : string → gmap Z string → result string (list Z)) (snippet : string → string → string).

(** [classesFor] *)
Definition classesFor (ix : Index) (k : coord) : list HermeticityClass := (elements (filter (λ kc, kc.1 = k) (ix_classes ix))).*2.

(** The row of the join, past the filter. *)
Definition fts_row (ix : Index) (q : Query) (text : string) (rowid : Z) : option Hit :=
  m ← ix_fts_meta ix !! rowid;
  if decide (q_Hermeticity q ≠ [] ∧ ¬ Exists (λ c, (fm_coord m, c) ∈ ix_classes ix) (q_Hermeticity q)) then None
  else Some (mkHit (fm_coord m).1 (fm_coord m).2 (snippet text (default "" (ix_fts_text ix !! rowid))) (fm_kind m) (fm_name m) (fm_file m)
               (classesFor ix (fm_coord m)) "" (default false (vc_has_source_index <$> ix_versions ix !! fm_coord m))).

(** [Store.Search] *)
Definition store_Search (ix : Index) (q : Query) : result string SearchResults :=
  let text := TrimSpace (q_Text q) in
  if decide (text = "") then Ok (mkResults [] 0)
  else
    match fts_match text (ix_fts_text ix) with
    | Err e => Err ("search query: " +:+ e)
    | Ok rowids => let hits := take (limit_of q) (omap (fts_row ix q text) rowids) in Ok (mkResults hits (length hits))
    end.

(** [Service.Search] *)
Definition Search (ix : Index) (q : Query) : result string SearchResults :=
  if decide (q_Attr q ≠ "") then Ok (searchByAttr ix q)
  else if decide (q_Kind q ≠ "" ∧ q_Text q ≠ "") then Ok (searchByKind ix q)
  else store_Search ix q.

(** ** What the walks find *)

(** The hits of an attribute in one report. *)
Definition attr_hits (target : string) (k : coord) (rep : ModuleReport) : list Hit :=
  let named kind name file attrs := (λ a, walk_hit k kind name file (attr_Name a)) <$> filter (λ a, attr_Name a = target) attrs in
  (rep_Rules rep ≫= λ r, named "rule" (rule_Name r) (prov_File (rule_Provenance r)) (rule_Attrs r)) ++
  (rep_RepositoryRules rep ≫= λ r, named "repository_rule" (rr_Name r) (prov_File (rr_Provenance r)) (rr_Attrs r)).

(** Filling up to a limit. *)
Definition fill_hits (limit : nat) (hits found : list Hit) : list Hit := take limit (hits ++ found).

Lemma fill_hits_full limit hits found : length hits ≤ limit → limit ≤ length hits → fill_hits limit hits found = hits.
Proof. intros. unfold fill_hits. rewrite take_app_ge by lia. replace (limit - length hits) with 0 by lia. by rewrite take_0, app_nil_r. Qed.

Lemma fill_hits_nil limit hits : length hits ≤ limit → fill_hits limit hits [] = hits.
Proof. intros. unfold fill_hits. rewrite app_nil_r. by apply take_ge. Qed.

Lemma fill_hits_app limit hits a b : fill_hits limit hits (a ++ b) = fill_hits limit (fill_hits limit hits a) b.
Proof. unfold fill_hits. rewrite app_assoc. set (l := hits ++ a). destruct (decide (length l ≤ limit)) as [?|?].
  - by rewrite (take_ge l).
  - rewrite (take_app_le l) by lia. rewrite take_app_le by (rewrite length_take; lia). by rewrite take_take, Nat.min_id.
Qed.

Lemma fill_hits_length limit hits found : length (fill_hits limit hits found) ≤ limit.
Proof. unfold fill_hits. rewrite length_take. lia. Qed.

Lemma push_fill limit hits found : length hits ≤ limit → foldl (push limit) hits found = fill_hits limit hits found.
Proof.
  revert hits. induction found as [|h found IH]; intros hits Hl; cbn [foldl]; [symmetry; by apply fill_hits_nil|].
  change (h :: found) with ([h] ++ found). rewrite fill_hits_app. unfold push. case_decide as Hd.
  - rewrite (fill_hits_full limit hits [h]) by lia. by apply IH.
  - assert (fill_hits limit hits [h] = hits ++ [h]) as -> by (unfold fill_hits; apply take_ge; rewrite length_app; simpl; lia).
    apply IH. rewrite length_app. simpl. lia.
Qed.

Lemma attr_loop_fill limit k kind name file target attrs hits : length hits < limit →
  attr_loop limit k kind name file target attrs hits =
    fill_hits limit hits ((λ a, walk_hit k kind name file (attr_Name a)) <$> filter (λ a, attr_Name a = target) attrs).
Proof.
  revert hits. induction attrs as [|a attrs IH]; intros hits Hl; cbn [attr_loop]; [symmetry; apply fill_hits_nil; lia|].
  rewrite filter_cons. destruct (decide (attr_Name a ≠ target)) as [Hn|Hn].
  - rewrite (decide_False _ _ Hn). by apply IH.
  - apply dec_stable in Hn as Ha. rewrite (decide_True _ _ Ha). cbn [fmap list_fmap].
    set (h := walk_hit _ _ _ _ _). set (rest := _ <$> _). change (h :: rest) with ([h] ++ rest). rewrite fill_hits_app.
    assert (fill_hits limit hits [h] = hits ++ [h]) as -> by (unfold fill_hits; apply take_ge; rewrite length_app; simpl; lia).
    case_decide as Hd; [|by apply IH; lia]. symmetry. apply fill_hits_full; [|done]. rewrite length_app. simpl. lia.
Qed.

Lemma rules_loop_fill limit k target rules hits : length hits < limit →
  rules_loop limit k target rules hits =
    fill_hits limit hits (rules ≫= λ r, (λ a, walk_hit k "rule" (rule_Name r) (prov_File (rule_Provenance r)) (attr_Name a))
                                     <$> filter (λ a, attr_Name a = target) (rule_Attrs r)).
Proof.
  revert hits. induction rules as [|r rules IH]; intros hits Hl; [symmetry; apply (fill_hits_nil limit hits); lia|].
  cbn [rules_loop]. rewrite bind_cons, fill_hits_app, attr_loop_fill by done. case_decide as Hd; [|by apply IH; lia].
  symmetry. by apply fill_hits_full; [apply fill_hits_length|].
Qed.

Lemma repo_rules_loop_fill limit k target rules hits : length hits ≤ limit →
  repo_rules_loop limit k target rules hits =
    fill_hits limit hits (rules ≫= λ r, (λ a, walk_hit k "repository_rule" (rr_Name r) (prov_File (rr_Provenance r)) (attr_Name a))
                                     <$> filter (λ a, attr_Name a = target) (rr_Attrs r)).
Proof.
  revert hits. induction rules as [|r rules IH]; intros hits Hl; [symmetry; by apply fill_hits_nil|].
  cbn [repo_rules_loop]. case_decide as Hd; [symmetry; by apply fill_hits_full|].
  rewrite bind_cons, fill_hits_app, attr_loop_fill by lia. apply IH, fill_hits_length.
Qed.

(** The reports of a list of coordinates. *)
Definition reports_of (ix : Index) (rows : list coord) : list (coord * ModuleReport) :=
  omap (λ k, match GetReport ix k.1 k.2 with Ok r => Some (k, r) | Err _ => None end) rows.

Lemma loaded_reports ix : loaded ix = reports_of ix (ListAllVersions ix).*1.
Proof.
  unfold Catalog.loaded, reports_of. induction (ListAllVersions ix) as [|row rows IH]; [done|].
  rewrite fmap_cons. cbn [omap list_omap]. by rewrite IH.
Qed.

Lemma kind_rows_fill ix limit kind target rows hits : length hits ≤ limit →
  kind_rows ix limit kind target rows hits = fill_hits limit hits (reports_of ix rows ≫= λ kr, kind_hits kind target kr.1 kr.2).
Proof.
  revert hits. induction rows as [|k rows IH]; intros hits Hl; cbn [kind_rows]; [symmetry; by apply fill_hits_nil|].
  case_decide as Hd; [symmetry; by apply fill_hits_full|]. unfold reports_of. cbn [omap list_omap]. fold (reports_of ix rows).
  destruct (GetReport ix k.1 k.2) as [rep|e]; [|by apply IH].
  rewrite bind_cons, fill_hits_app, push_fill by done. apply IH, fill_hits_length.
Qed.

Lemma attr_rows_fill ix limit target rows hits : length hits ≤ limit →
  attr_rows ix limit target rows hits = fill_hits limit hits (reports_of ix rows ≫= λ kr, attr_hits target kr.1 kr.2).
Proof.
  revert hits. induction rows as [|k rows IH]; intros hits Hl; cbn [attr_rows]; [symmetry; by apply fill_hits_nil|].
  case_decide as Hd; [symmetry; by apply fill_hits_full|]. unfold reports_of. cbn [omap list_omap]. fold (reports_of ix rows).
  destruct (GetReport ix k.1 k.2) as [rep|e]; [|by apply IH].
  rewrite bind_cons, fill_hits_app. unfold attr_hits at 1. rewrite fill_hits_app, rules_loop_fill by lia.
  rewrite repo_rules_loop_fill by apply fill_hits_length. apply IH, fill_hits_length.
Qed.

Lemma limit_of_pos q : 0 < limit_of q.
Proof. unfold limit_of. destruct (Z.leb_spec (q_Limit q) 0); lia. Qed.

(** A search by attribute or by symbol gives the first hits, up to the limit, of a
    walk over every report that loads, in the order of the versions, and a search by text
    those of the engine's answer whose version has one of the classes asked for; the total
    counts the hits given, and there are never more than the limit. *)
Theorem search_exact ix q :
  let walked f := take (limit_of q) (loaded ix ≫= λ kr, f kr.1 kr.2) in
  match Search ix q with
  | Err e => q_Attr q = "" ∧ ∃ e', fts_match (TrimSpace (q_Text q)) (ix_fts_text ix) = Err e' ∧ e = "search query: " +:+ e'
  | Ok res =>
      sr_Total res = length (sr_Hits res) ∧ length (sr_Hits res) ≤ limit_of q ∧
      (q_Attr q ≠ "" → sr_Hits res = walked (attr_hits (q_Attr q))) ∧
      (q_Attr q = "" → q_Kind q ≠ "" → q_Text q ≠ "" → sr_Hits res = walked (kind_hits (q_Kind q) (q_Text q))) ∧
      (q_Attr q = "" → (q_Kind q = "" ∨ q_Text q = "") →
         Forall (λ h, (∃ rowid m, ix_fts_meta ix !! rowid = Some m ∧ fm_coord m = (h_Module h, h_Version h) ∧
                         fm_kind m = h_MatchKind h ∧ fm_name m = h_MatchName h) ∧
                      (q_Hermeticity q ≠ [] → Exists (λ c, c ∈ h_Hermeticity h) (q_Hermeticity q))) (sr_Hits res))
  end.
Proof.
  assert (∀ f : coord → ModuleReport → list Hit, take (limit_of q) (loaded ix ≫= λ kr, f kr.1 kr.2) =
    fill_hits (limit_of q) [] (reports_of ix (ListAllVersions ix).*1 ≫= λ kr, f kr.1 kr.2)) as Hw
    by (intros f; by rewrite loaded_reports).
  unfold Search. cbn zeta. destruct (decide (q_Attr q ≠ "")) as [Ha|Ha].
  { unfold searchByAttr. cbn [sr_Hits sr_Total]. rewrite attr_rows_fill by (simpl; lia). rewrite Hw.
    split_and!; [done|apply fill_hits_length|done|by intros|by intros]. }
  apply dec_stable in Ha. destruct (decide (q_Kind q ≠ "" ∧ q_Text q ≠ "")) as [[Hk Ht]|Hk].
  { unfold searchByKind. cbn [sr_Hits sr_Total]. rewrite kind_rows_fill by (simpl; lia). rewrite Hw.
    split_and!; [done|apply fill_hits_length|done|done|]. by intros _ [?|?]. }
  unfold store_Search. case_decide as Htext.
  { cbn [sr_Hits sr_Total]. split_and!; [done|simpl; lia|done|by intros; destruct Hk|by intros; constructor]. }
  destruct (fts_match _ _) as [rowids|e]; [|split; [done|by exists e]]. cbn [sr_Hits sr_Total].
  split_and!; [done|rewrite length_take; lia|done|by intros; destruct Hk|]. intros _ _. apply Forall_take, Forall_forall.
  intros h (rowid & _ & Hr)%list_elem_of_omap. unfold fts_row in Hr. apply bind_Some in Hr as (m & Hm & Hr).
  case_decide as Hc; [done|]. injection Hr as <-. cbn. split; [exists rowid, m; split_and!; [done|by destruct (fm_coord m)|done|done]|].
  intros Hne. assert (Exists (λ c, (fm_coord m, c) ∈ ix_classes ix) (q_Hermeticity q)) as Hex by (apply dec_stable; intros ?; by apply Hc).
  eapply Exists_impl; [exact Hex|]. intros c Hin. unfold classesFor. apply list_elem_of_fmap. exists (fm_coord m, c). split; [done|].
  by apply elem_of_elements, elem_of_filter.
Qed.
End search.
