(* ===== verification/References.v ===== *)
(** * References across modules

    The questions that the stored source indexes answer: a symbol's definition and its
    references in one index and in all of them (internal/scip/lookup.go), the loads an index
    leaves unresolved (internal/scip/unresolved.go), the consumers of a symbol with the links
    to their call sites (internal/bzlhub/consumers.go), and the repair of the flags that say
    which versions have an index (internal/bzlhub/service_admin.go).  The library that reads an
    index, and the grammar of its symbols, are parameters. *)

From stdpp Require Import pretty.
From S2P Require Import Prelude Strings Report Archive Index Catalog.

(** ** Links *)

Definition upper_hex : bytes := to_bytes "0123456789ABCDEF".
Definition hex_of (n : N) : ascii := nth (N.to_nat n) upper_hex "0"%char.

(** [shouldEscape] of net/url, for a segment of a path. *)
Definition alphanumeric (c : ascii) : bool :=
  let n := N_of_ascii c in
  ((48 <=? n)%N && (n <=? 57)%N) || ((65 <=? n)%N && (n <=? 90)%N) || ((97 <=? n)%N && (n <=? 122)%N).
Definition shouldEscape (c : ascii) : bool := negb (alphanumeric c || bool_decide (c ∈ to_bytes "-_.~$&+:=@")).

(** [url.PathEscape] *)
Definition PathEscape (s : string) : string :=
  of_bytes (flat_map (λ c, if shouldEscape c then ["%"%char; hex_of (N_of_ascii c / 16)%N; hex_of (N_of_ascii c mod 16)%N] else [c])
              (to_bytes s)).

(** [encodePathSegments] *)
Definition encodePathSegments (file : string) : string :=
  if decide (file = "") then "" else Join (PathEscape <$> Split file slash) "/".

(** [codeNavHref] *)
Definition codeNavHref (module version file : string) (line : Z) : string :=
  "/modules/" +:+ PathEscape module +:+ "/" +:+ PathEscape version +:+ "/code-nav/file/" +:+
  encodePathSegments (TrimPrefix file "/") +:+ (if (0 <? line)%Z then "?line=" +:+ pretty line else "").

(** ** One index *)

Record Location := mkLocation { lo_File : string; lo_StartLine : Z; lo_StartChar : Z; lo_EndLine : Z; lo_EndChar : Z }.

Record SymbolLookupResult := mkLookup {
  sl_Module : string; sl_Version : string; sl_Symbol : string; sl_Found : bool;
  sl_Location : option Location; sl_Documentation : list string;
}.

Record SymbolReferencesResult := mkReferences {
  rf_Module : string; rf_Version : string; rf_Symbol : string; rf_Count : nat; rf_References : list Location;
}.

Record XRefsGroup := mkGroup { xg_Module : string; xg_Version : string; xg_References : list Location }.
Record XRefsResult := mkXRefs { xr_Symbol : string; xr_Count : nat; xr_Skipped : nat; xr_Groups : list XRefsGroup }.

Record CallSite := mkCallSite { cs_File : string; cs_Line : Z; cs_Column : Z; cs_Href : string }.
Record ConsumerEntry := mkConsumer { ce_Module : string; ce_Version : string; ce_ModuleHref : string; ce_CallSites : list CallSite }.
Record ConsumersResult := mkConsumers {
  cr_Symbol : string; cr_Module : string; cr_Version : string; cr_Name : string; cr_Kind : string; cr_File : string;
  cr_TotalCallSites : nat; cr_ConsumerCount : nat; cr_Skipped : nat; cr_Consumers : list ConsumerEntry;
}.

Section references.
Context {I : Type} (OpenBytes : string → result string I).
Context (Definition_of : I → string → result string (option Location)) (Hover : I → string → result string (list string)).
Context (References : I → string → bool → result string (list Location)).
Context (IsLocal : string → bool).

Definition errLocalSymbolRequiresFile : string := "scip lookup: local symbol requires file context".

(** [LookupSymbol] *)
Definition LookupSymbol (ix : Index) (module version symbol : string) : result string SymbolLookupResult :=
  if decide (module = "" ∨ version = "" ∨ symbol = "") then Err "LookupSymbol: module, version, and symbol are all required"
  else if IsLocal symbol then Err errLocalSymbolRequiresFile
  else
    blob ← GetScipBlob ix module version;
    idx ← map_err (λ e, "understory.OpenBytes: " +:+ e) (OpenBytes blob);
    found ← map_err (λ e, "understory.Definition: " +:+ e) (Definition_of idx symbol);
    match found with
    | None => Ok (mkLookup module version symbol false None [])
    | Some loc => Ok (mkLookup module version symbol true (Some loc) (match Hover idx symbol with Ok docs => docs | Err _ => [] end))
    end.

(** [LookupReferences] *)
Definition LookupReferences (ix : Index) (module version symbol : string) (includeDefinition : bool) : result string SymbolReferencesResult :=
  if decide (module = "" ∨ version = "" ∨ symbol = "") then Err "LookupReferences: module, version, and symbol are all required"
  else if IsLocal symbol then Err errLocalSymbolRequiresFile
  else
    blob ← GetScipBlob ix module version;
    idx ← map_err (λ e, "understory.OpenBytes: " +:+ e) (OpenBytes blob);
    refs ← map_err (λ e, "understory.References: " +:+ e) (References idx symbol includeDefinition);
    Ok (mkReferences module version symbol (length refs) refs).

(** ** All of them *)

(** What one index has to say. *)
Definition references_in (ix : Index) (symbol : string) (includeDefinition : bool) (k : coord) : result string (list Location) :=
  blob ← GetScipBlob ix k.1 k.2; idx ← OpenBytes blob; References idx symbol includeDefinition.

(** One turn of the loop. *)
Definition xref_turn (ix : Index) (symbol : string) (includeDefinition : bool) (out : XRefsResult) (k : coord) : XRefsResult :=
  match references_in ix symbol includeDefinition k with
  | Err _ => mkXRefs (xr_Symbol out) (xr_Count out) (S (xr_Skipped out)) (xr_Groups out)
  | Ok [] => out
  | Ok refs => mkXRefs (xr_Symbol out) (xr_Count out + length refs) (xr_Skipped out) (xr_Groups out ++ [mkGroup k.1 k.2 refs])
  end.

Definition group_less (a b : XRefsGroup) : bool := coord_less (xg_Module a, xg_Version a) (xg_Module b, xg_Version b).

(** [LookupXRefs] *)
Definition LookupXRefs (ix : Index) (symbol : string) (includeDefinition : bool) : result string XRefsResult :=
  if decide (symbol = "") then Err "LookupXRefs: symbol is required"
  else if IsLocal symbol then Err errLocalSymbolRequiresFile
  else
    let out := foldl (xref_turn ix symbol includeDefinition) (mkXRefs symbol 0 0 []) (ListScipVersions ix) in
    Ok (mkXRefs (xr_Symbol out) (xr_Count out) (xr_Skipped out) (sort_slice group_less (xr_Groups out))).

(** ** Consumers *)

(** [resolveSymbolProvenance]: the first that matches. *)
Definition resolveSymbolProvenance (rep : ModuleReport) (name : string) : string * string :=
  let first {A} (l : list A) (nm : A → string) (pv : A → Provenance) (kind : string) (rest : string * string) :=
    match list_find (λ x, nm x = name) l with Some (_, x) => (prov_File (pv x), kind) | None => rest end in
  first (rep_Rules rep) rule_Name rule_Provenance "rule"
    (first (rep_Providers rep) provider_Name provider_Provenance "provider"
      (first (rep_Macros rep) macro_Name macro_Provenance "macro"
        (first (rep_RepositoryRules rep) rr_Name rr_Provenance "repo_rule"
          (first (rep_ModuleExtensions rep) ext_Name ext_Provenance "module_extension" ("", ""))))).

Context (decode_report : string → result string ModuleReport).
(** [symbol.Global]: the symbol of a name in a file of a version. *)
Context (Global : string → string → string → string → result string string).
(** The [%q] of an error's text. *)
Context (quoted : string → string).

Definition call_site (g : XRefsGroup) (ref : Location) : CallSite :=
  mkCallSite (lo_File ref) (lo_StartLine ref) (lo_StartChar ref) (codeNavHref (xg_Module g) (xg_Version g) (lo_File ref) (lo_StartLine ref)).
Definition consumer_of (g : XRefsGroup) : ConsumerEntry :=
  mkConsumer (xg_Module g) (xg_Version g) ("/modules/" +:+ PathEscape (xg_Module g) +:+ "/" +:+ PathEscape (xg_Version g))
    (call_site g <$> xg_References g).

(** One turn of the loop over the groups. *)
Definition consumer_turn (module version : string) (includeSelf : bool) (s : list ConsumerEntry * nat) (g : XRefsGroup) : list ConsumerEntry * nat :=
  if negb includeSelf && bool_decide (xg_Module g = module ∧ xg_Version g = version) then s
  else (s.1 ++ [consumer_of g], s.2 + length (ce_CallSites (consumer_of g))).

Definition consumer_less (a b : ConsumerEntry) : bool := coord_less (ce_Module a, ce_Version a) (ce_Module b, ce_Version b).

(** [LookupConsumers] *)
Definition LookupConsumers (ix : Index) (module version name : string) (includeSelf : bool) : result string ConsumersResult :=
  rep ← GetReport decode_report ix module version;
  let '(file, kind) := resolveSymbolProvenance rep name in
  if decide (file = "") then Err (module +:+ "@" +:+ version +:+ ": " +:+ quoted name +:+ " not found in any rule/provider/macro/repo_rule/module_extension")
  else
    sym ← map_err (λ e, module +:+ "@" +:+ version +:+ ": cannot encode a SCIP symbol for " +:+ quoted name +:+ ": " +:+ e) (Global module version file name);
    xrefs ← map_err (λ e, "lookup xrefs: " +:+ e) (LookupXRefs ix sym false);
    let '(consumers, total) := foldl (consumer_turn module version includeSelf) ([], 0) (xr_Groups xrefs) in
    Ok (mkConsumers sym module version name kind file total (length (sort_slice consumer_less consumers)) (xr_Skipped xrefs)
          (sort_slice consumer_less consumers)).

(** ** Flags *)

(** [BackfillSourceIndexFlags]: [has_files] is whether an index has a document; the reads and
    writes may fail at any row. *)
Context (has_files : string → bool) (read_fails write_fails : coord → bool).
Definition backfill_row (s : Index * nat) (k : coord) : Index * nat :=
  if read_fails k then s
  else if GetHasSourceIndex s.1 k.1 k.2 then s
  else
    match GetScipBlob s.1 k.1 k.2 with
    | Err _ => s
    | Ok blob =>
        if negb (has_files blob) || write_fails k then s
        else match SetHasSourceIndex k.1 k.2 true s.1 with Ok ix => (ix, S s.2) | Err _ => s end
    end.
Definition BackfillSourceIndexFlags (ix : Index) : Index * nat := foldl backfill_row (ix, 0) (ListAllVersions ix).*1.
End references.

(** ** Unresolved loads *)

Record document := mkDocument { do_occurrences : list string; do_symbols : list string }.

(** The symbols an index mentions, in the order they are looked at. *)
Record scip_index := mkScipIndex { si_documents : list document; si_external : list string }.

Section unresolved.
Context (UnmarshalIndex : string → result string scip_index) (is_local : string → bool).
(** The package of a symbol: its manager and its name. *)
Context (parse_symbol : string → result string (string * string)) (UnresolvedManager : string).

(** [note] *)
Definition note (seen : gset string) (symbol : string) : gset string :=
  if decide (symbol = "") then seen
  else if is_local symbol then seen
  else
    match parse_symbol symbol with
    | Err _ => seen
    | Ok (manager, raw) => if decide (manager ≠ UnresolvedManager) then seen else if decide (raw ≠ "") then {[raw]} ∪ seen else seen
    end.

(** [UnresolvedRepos] *)
Definition UnresolvedRepos (blob : string) : result string (list string) :=
  match UnmarshalIndex blob with
  | Err e => Err ("scip: read index to find unresolved refs: " +:+ e)
  | Ok idx =>
      let seen := foldl (λ seen d, foldl note (foldl note seen (do_occurrences d)) (do_symbols d)) ∅ (si_documents idx) in
      Ok (sort_slice String.ltb (elements (foldl note seen (si_external idx))))
  end.
End unresolved.

(** ** Reading a link back *)

Definition hex_value (c : ascii) : option N := N.of_nat ∘ fst <$> list_find (c =.) upper_hex.

(** [url.PathUnescape], of what [PathEscape] makes. *)
Fixpoint unescape (l : bytes) : option bytes :=
  match l with
  | [] => Some []
  | "%"%char :: a :: b :: l =>
      match hex_value a, hex_value b, unescape l with
      | Some x, Some y, Some r => Some (ascii_of_N (16 * x + y) :: r)
      | _, _, _ => None
      end
  | "%"%char :: _ => None
  | c :: l => match unescape l with Some r => Some (c :: r) | None => None end
  end.
Definition PathUnescape (s : string) : option string := of_bytes <$> unescape (to_bytes s).

(** A URL before and after its first question mark. *)
Fixpoint cut_query (l : bytes) : bytes * bytes :=
  match l with
  | [] => ([], [])
  | c :: l => if decide (c = "?"%char) then ([], l) else let '(p, q) := cut_query l in (c :: p, q)
  end.

(** The module, the version, the file and the query of a link into the sources. *)
Definition parse_href (s : string) : option (string * string * string * string) :=
  let '(p, q) := cut_query (to_bytes s) in
  match Split (of_bytes p) slash with
  | "" :: "modules" :: m :: v :: "code-nav" :: "file" :: segments =>
      m ← PathUnescape m; v ← PathUnescape v; segments ← mapM PathUnescape segments; Some (m, v, Join segments "/", of_bytes q)
  | _ => None
  end.

Definition percent_byte (c : ascii) : bytes :=
  if shouldEscape c then ["%"%char; hex_of (N_of_ascii c / 16)%N; hex_of (N_of_ascii c mod 16)%N] else [c].

Lemma PathEscape_bytes s : to_bytes (PathEscape s) = flat_map percent_byte (to_bytes s).
Proof. unfold PathEscape. by rewrite to_of_bytes. Qed.

Lemma percent_byte_ok c : (∀ l, unescape (percent_byte c ++ l) = match unescape l with Some r => Some (c :: r) | None => None end) ∧ ("/"%char ∉ percent_byte c) ∧ ("?"%char ∉ percent_byte c).
Proof.
  assert (("/"%char ∉ percent_byte c) ∧ ("?"%char ∉ percent_byte c)) as H.
  { destruct c as [b0 b1 b2 b3 b4 b5 b6 b7]. destruct b0, b1, b2, b3, b4, b5, b6, b7; refine (bool_decide_unpack _ _); vm_compute; exact I. }
  split; [|exact H]. clear H. intros l. destruct c as [b0 b1 b2 b3 b4 b5 b6 b7]. by destruct b0, b1, b2, b3, b4, b5, b6, b7.
Qed.

Lemma unescape_escape l : unescape (flat_map percent_byte l) = Some l.
Proof. induction l as [|c l IH]; [done|]. simpl. by rewrite (proj1 (percent_byte_ok c)), IH. Qed.

Lemma PathUnescape_PathEscape s : PathUnescape (PathEscape s) = Some s.
Proof. unfold PathUnescape. rewrite PathEscape_bytes, unescape_escape. simpl. by rewrite of_to_bytes. Qed.

Lemma escape_free c s : c ∈ ["/"%char; "?"%char] → c ∉ to_bytes (PathEscape s).
Proof.
  intros Hc. rewrite PathEscape_bytes. intros (x & _ & Hx)%list_elem_of_In%in_flat_map.
  apply list_elem_of_In in Hx. destruct (percent_byte_ok x) as (_ & H1 & H2).
  by apply elem_of_cons in Hc as [->|[->|[]%elem_of_nil]%elem_of_cons].
Qed.

Lemma Split_nonempty s c : Split s c ≠ [].
Proof. rewrite Split_splitl. unfold splitl. by destruct (split_bytes c (to_bytes s)). Qed.

Lemma Split_cons_slash s : ∃ x l, Split s slash = x :: l.
Proof. destruct (Split s slash) as [|x l] eqn:E; [by destruct (Split_nonempty s slash)|eauto]. Qed.

(** Joining what was split. *)
Lemma Join_Split s : Join (Split s slash) "/" = s.
Proof.
  apply to_bytes_inj. induction s as [|c s IH]; [done|].
  assert (∀ x l, Split s slash = x :: l → Split (String c s) slash = if decide (slash = c) then "" :: x :: l else String c x :: l) as Hc.
  { intros x l. rewrite !Split_splitl. unfold splitl. simpl. destruct (split_bytes slash (to_bytes s)) as [h t].
    intros [= <- <-]. by case_decide. }
  destruct (Split_cons_slash s) as (x & l & E). rewrite (Hc x l E). rewrite E in IH. case_decide as Hs.
  - subst c. change (Join ("" :: x :: l) "/") with ("" +:+ "/" +:+ Join (x :: l) "/"). rewrite !to_bytes_app, IH. done.
  - destruct l as [|y l]; [simpl in *; by rewrite IH|].
    change (Join (String c x :: y :: l) "/") with (String c (x +:+ "/" +:+ Join (y :: l) "/")).
    change (Join (x :: y :: l) "/") with (x +:+ "/" +:+ Join (y :: l) "/") in IH.
    change (c :: to_bytes (x +:+ "/" +:+ Join (y :: l) "/") = c :: to_bytes s). by rewrite IH.
Qed.

Lemma Join_free c l sep : c ∉ to_bytes sep → Forall (λ x, c ∉ to_bytes x) l → c ∉ to_bytes (Join l sep).
Proof.
  intros Hs. induction 1 as [|x l Hx Hl IH]; [apply not_elem_of_nil|]. destruct l as [|y l]; [done|].
  change (Join (x :: y :: l) sep) with (x +:+ sep +:+ Join (y :: l) sep). rewrite !to_bytes_app, !not_elem_of_app. done.
Qed.

Lemma encode_Split file : Split (encodePathSegments file) slash = PathEscape <$> Split file slash.
Proof.
  unfold encodePathSegments. case_decide as E; [by subst|]. apply Split_Join.
  - intros H%fmap_nil_inv. by apply Split_nonempty in H.
  - apply Forall_fmap, Forall_true. intros x. apply escape_free. by left.
Qed.

Lemma encode_free file : "?"%char ∉ to_bytes (encodePathSegments file).
Proof.
  unfold encodePathSegments. case_decide; [apply not_elem_of_nil|]. apply Join_free.
  - simpl. by intros ?%list_elem_of_singleton.
  - apply Forall_fmap, Forall_true. intros x. apply escape_free. right. by left.
Qed.

Lemma cut_query_app p q : "?"%char ∉ p → cut_query (p ++ "?"%char :: q) = (p, q).
Proof.
  induction p as [|c p IH]; intros Hp; simpl; [done|]. apply not_elem_of_cons in Hp as [Hc Hp].
  rewrite decide_False by done. by rewrite IH.
Qed.
Lemma cut_query_none p : "?"%char ∉ p → cut_query p = (p, []).
Proof.
  induction p as [|c p IH]; intros Hp; simpl; [done|]. apply not_elem_of_cons in Hp as [Hc Hp].
  rewrite decide_False by done. by rewrite IH.
Qed.

Lemma mapM_unescape l : mapM PathUnescape (PathEscape <$> l) = Some l.
Proof. induction l as [|x l IH]; [done|]. rewrite fmap_cons. simpl. rewrite PathUnescape_PathEscape. simpl. by rewrite IH. Qed.

(** A link names its coordinate, its file and its line. *)
Lemma href_roundtrip m v file line :
  parse_href (codeNavHref m v file line) = Some (m, v, TrimPrefix file "/", if (0 <? line)%Z then "line=" +:+ pretty line else "").
Proof.
  set (f := TrimPrefix file "/").
  set (p := "/modules/" +:+ PathEscape m +:+ "/" +:+ PathEscape v +:+ "/code-nav/file/" +:+ encodePathSegments f).
  assert ("?"%char ∉ to_bytes p) as Hp.
  { unfold p. rewrite !to_bytes_app, !not_elem_of_app. split_and!; try apply encode_free; try (apply escape_free; right; by left);
      refine (bool_decide_unpack _ _); vm_compute; exact I. }
  assert (codeNavHref m v file line = p +:+ (if (0 <? line)%Z then "?line=" +:+ pretty line else "")) as ->
    by (unfold codeNavHref, p; by rewrite <-!string_app_assoc).
  assert (cut_query (to_bytes (p +:+ (if (0 <? line)%Z then "?line=" +:+ pretty line else ""))) =
    (to_bytes p, to_bytes (if (0 <? line)%Z then "line=" +:+ pretty line else ""))) as Hcut.
  { rewrite to_bytes_app. destruct (0 <? line)%Z; [by apply cut_query_app|]. change (to_bytes "") with (@nil ascii). rewrite app_nil_r. by apply cut_query_none. }
  unfold parse_href. rewrite Hcut, !of_to_bytes.
  assert (Split p slash = "" :: "modules" :: PathEscape m :: PathEscape v :: "code-nav" :: "file" :: (PathEscape <$> Split f slash)) as ->.
  { unfold p. change ("/modules/" +:+ PathEscape m +:+ "/" +:+ PathEscape v +:+ "/code-nav/file/" +:+ encodePathSegments f)
      with ("" +:+ "/" +:+ "modules" +:+ "/" +:+ PathEscape m +:+ "/" +:+ PathEscape v +:+ "/" +:+ "code-nav" +:+ "/" +:+ "file" +:+ "/" +:+ encodePathSegments f).
    rewrite !Split_app_slash, encode_Split, !(Split_noslash (PathEscape _)) by (apply escape_free; by left). done. }
  rewrite !PathUnescape_PathEscape. cbn [mbind option_bind]. rewrite mapM_unescape. cbn [mbind option_bind]. by rewrite Join_Split.
Qed.

(** ** What the walks find *)

Section found.
Context {I : Type} (OpenBytes : string → result string I) (References : I → string → bool → result string (list Location)).
Context (IsLocal : string → bool).
Abbreviation references_in := (references_in OpenBytes References).
Abbreviation xref_turn := (xref_turn OpenBytes References).
Abbreviation LookupXRefs := (LookupXRefs OpenBytes References IsLocal).

Lemma sorted_scip ix : StronglySorted (not_after coord_less) (ListScipVersions ix).
Proof. apply sort_slice_sorted. apply _. Qed.

(** The group of a coordinate that refers to the symbol; whether its index cannot be read. *)
Definition group_of (ix : Index) (symbol : string) (incl : bool) (k : coord) : option XRefsGroup :=
  match references_in ix symbol incl k with Ok (r :: rs) => Some (mkGroup k.1 k.2 (r :: rs)) | _ => None end.
Definition unreadable (ix : Index) (symbol : string) (incl : bool) (k : coord) : bool := negb (is_ok (references_in ix symbol incl k)).

Definition total_references (gs : list XRefsGroup) : nat := sum_list_with (λ g, length (xg_References g)) gs.

Lemma total_references_app a b : total_references (a ++ b) = total_references a + total_references b.
Proof. apply sum_list_with_app. Qed.

Lemma xref_turns ix symbol incl ks out :
  foldl (xref_turn ix symbol incl) out ks =
    mkXRefs (xr_Symbol out) (xr_Count out + total_references (omap (group_of ix symbol incl) ks))
      (xr_Skipped out + length (filter (λ k, unreadable ix symbol incl k = true) ks)) (xr_Groups out ++ omap (group_of ix symbol incl) ks).
Proof.
  revert out. induction ks as [|k ks IH]; intros [s c n gs]; cbn [foldl].
  - simpl. by rewrite app_nil_r, !Nat.add_0_r.
  - rewrite IH. unfold References.xref_turn, group_of, unreadable. cbn [omap list_omap]. rewrite filter_cons.
    destruct (references_in ix symbol incl k) as [[|r rs]|e]; simpl.
    + done.
    + unfold total_references. simpl. f_equal; [lia|]. by rewrite <-app_assoc.
    + f_equal. lia.
Qed.

Lemma group_less_sorted ix symbol incl ks :
  StronglySorted (λ a b, coord_less b a = false) ks → StronglySorted (not_after group_less) (omap (group_of ix symbol incl) ks).
Proof.
  induction 1 as [|k ks Hks IH Hk]; cbn [omap list_omap]; [constructor|].
  unfold group_of at 1. destruct (references_in ix symbol incl k) as [[|r rs]|e]; [done| |done].
  constructor; [done|]. apply Forall_forall. intros g (k' & Hk' & Hg)%list_elem_of_omap.
  rewrite Forall_forall in Hk. specialize (Hk k' Hk'). unfold group_of in Hg. destruct (references_in ix symbol incl k') as [[|]|]; simplify_eq.
  unfold not_after, group_less. simpl. by rewrite <-!surjective_pairing.
Qed.

(** Every index that can be read and has a reference is a group, in the order of the
    coordinates; the others that cannot be read are counted. *)
Lemma xrefs_exact ix symbol incl res : LookupXRefs ix symbol incl = Ok res →
  let groups := omap (group_of ix symbol incl) (ListScipVersions ix) in
  symbol ≠ "" ∧ IsLocal symbol = false ∧
  res = mkXRefs symbol (total_references groups) (length (filter (λ k, unreadable ix symbol incl k = true) (ListScipVersions ix))) groups.
Proof.
  unfold References.LookupXRefs. case_decide as Hs; [done|]. destruct (IsLocal symbol) eqn:Hl; [done|]. intros [= <-].
  split; [done|]. split; [done|]. rewrite xref_turns. simpl. f_equal. apply sort_slice_id, group_less_sorted, sorted_scip.
Qed.

Context (decode_report : string → result string ModuleReport) (Global : string → string → string → string → result string string).
Context (quoted : string → string).
Abbreviation LookupConsumers := (LookupConsumers OpenBytes References IsLocal decode_report Global quoted).

(** The groups a consumer view shows. *)
Definition shown (module version : string) (includeSelf : bool) (g : XRefsGroup) : Prop :=
  includeSelf = true ∨ (xg_Module g, xg_Version g) ≠ (module, version).
#[export] Instance shown_dec module version includeSelf g : Decision (shown module version includeSelf g).
Proof. unfold shown. apply _. Defined.

Lemma consumer_turns module version includeSelf gs s :
  foldl (consumer_turn module version includeSelf) s gs =
    (s.1 ++ (consumer_of <$> filter (shown module version includeSelf) gs), s.2 + total_references (filter (shown module version includeSelf) gs)).
Proof.
  revert s. induction gs as [|g gs IH]; intros [cs n]; cbn [foldl]; [simpl; by rewrite app_nil_r, Nat.add_0_r|].
  rewrite IH. unfold consumer_turn. rewrite filter_cons.
  destruct (decide (shown module version includeSelf g)) as [Hs|Hs].
  - assert (negb includeSelf && bool_decide (xg_Module g = module ∧ xg_Version g = version) = false) as ->.
    { destruct Hs as [-> |Hne]; [done|]. destruct includeSelf; [done|]. apply bool_decide_eq_false. intros [<- <-]. by apply Hne. }
    rewrite fmap_cons. cbn [fst snd]. rewrite <-app_assoc. f_equal. unfold total_references. simpl. rewrite length_fmap. lia.
  - assert (negb includeSelf && bool_decide (xg_Module g = module ∧ xg_Version g = version) = true) as ->; [|done].
    unfold shown in Hs. destruct includeSelf; [by destruct Hs; left|]. apply bool_decide_eq_true.
    destruct (decide (xg_Module g = module ∧ xg_Version g = version)) as [?|Hn]; [done|]. destruct Hs. right. intros [= ? ?]. by apply Hn.
Qed.

(** The consumers of a name are those of the first symbol of that name in the report,
    if its file is known: every version, but for the defining one where it is left out,
    whose index can be read and refers to the symbol, in the order of the coordinates, with
    every reference; the totals count them; and the link of a call site leads back to its
    module, version, file and line. *)
Theorem consumers_exact ix module version name includeSelf res :
  LookupConsumers ix module version name includeSelf = Ok res →
  let groups := filter (shown module version includeSelf) (omap (group_of ix (cr_Symbol res) false) (ListScipVersions ix)) in
  (∃ rep, GetReport decode_report ix module version = Ok rep ∧ resolveSymbolProvenance rep name = (cr_File res, cr_Kind res)) ∧
  cr_File res ≠ "" ∧ Global module version (cr_File res) name = Ok (cr_Symbol res) ∧
  cr_Consumers res = consumer_of <$> groups ∧ cr_ConsumerCount res = length groups ∧ cr_TotalCallSites res = total_references groups ∧
  cr_Skipped res = length (filter (λ k, unreadable ix (cr_Symbol res) false k = true) (ListScipVersions ix)) ∧
  Forall (λ e, Forall (λ c, parse_href (cs_Href c) =
      Some (ce_Module e, ce_Version e, TrimPrefix (cs_File c) "/", if (0 <? cs_Line c)%Z then "line=" +:+ pretty (cs_Line c) else ""))
    (ce_CallSites e)) (cr_Consumers res).
Proof.
  unfold References.LookupConsumers. destruct (GetReport _ _ _ _) as [rep|] eqn:Hr; [|done]. cbn [mbind result_bind].
  destruct (resolveSymbolProvenance rep name) as [file kind] eqn:Hp. case_decide as Hf; [done|].
  destruct (Global module version file name) as [sym|] eqn:Hg; [|done]. cbn [map_err mbind result_bind].
  destruct (LookupXRefs ix sym false) as [x|] eqn:Hx; [|done]. cbn [map_err mbind result_bind].
  apply xrefs_exact in Hx as (_ & _ & ->). cbn [xr_Groups xr_Skipped]. rewrite consumer_turns. cbn [fst snd app].
  set (groups := filter _ _).
  assert (sort_slice consumer_less (consumer_of <$> groups) = consumer_of <$> groups) as ->.
  { apply sort_slice_id. eapply (StronglySorted_fmap _ (not_after group_less)); [done|].
    apply StronglySorted_filter, group_less_sorted, sorted_scip. }
  intros [= <-]. cbn [cr_File cr_Kind cr_Symbol cr_Consumers cr_ConsumerCount cr_TotalCallSites cr_Skipped]. fold groups.
  split_and!; [by exists rep|done|done|done|by rewrite length_fmap|done|done|].
  apply Forall_fmap, Forall_true. intros g. simpl. apply Forall_fmap, Forall_true. intros ref. simpl. apply href_roundtrip.
Qed.
End found.

(** ** The flags *)

Section flags.
Context (has_files : string → bool) (read_fails write_fails : coord → bool).
Abbreviation backfill_row := (backfill_row has_files read_fails write_fails).
Abbreviation BackfillSourceIndexFlags := (BackfillSourceIndexFlags has_files read_fails write_fails).

Definition flag_set (ix : Index) (k : coord) : bool := GetHasSourceIndex ix k.1 k.2.

(** A row whose flag is to be set. *)
Definition stale (ix : Index) (k : coord) : bool :=
  negb (read_fails k || write_fails k || flag_set ix k) && bool_decide (k.1 ≠ "" ∧ k.2 ≠ "" ∧ is_Some (ix_versions ix !! k)) &&
  match ix_scip ix !! k with Some blob => has_files blob | None => false end.

Definition with_flag (c : VersionCols) : VersionCols :=
  mkVersionCols (vc_compatibility_level c) (vc_bazel_compatibility c) (vc_ingested_at c) (vc_hermeticity_json c)
    (vc_tarball_size c) true (vc_drift_summary_json c) (vc_report_json c).

Lemma backfill_row_spec ix n k : is_Some (ix_versions ix !! k) →
  backfill_row (ix, n) k = if stale ix k then (set_versions (alter with_flag k (ix_versions ix)) ix, S n) else (ix, n).
Proof.
  intros Hk. unfold References.backfill_row, stale, flag_set, GetScipBlob. cbn [fst snd]. rewrite <-(surjective_pairing k).
  destruct (read_fails k); [done|]. destruct (GetHasSourceIndex ix k.1 k.2) eqn:Eg; [by rewrite orb_true_r|].
  destruct (ix_scip ix !! k) as [blob|]; [|by rewrite andb_false_r].
  destruct (has_files blob); [|by rewrite andb_false_r]. destruct (write_fails k); [done|].
  unfold SetHasSourceIndex. case_decide as Hd.
  - rewrite bool_decide_eq_false_2; [done|]. intros (? & ? & _). by destruct Hd.
  - rewrite bool_decide_eq_true_2 by (split_and!; [naive_solver..|done]). simpl. unfold update_cols. by rewrite <-surjective_pairing.
Qed.

(** The table after the flags of some rows are set. *)
Definition flags_set (ks : list coord) (ix : Index) : Index :=
  set_versions (map_imap (λ k c, Some (if decide (k ∈ ks) then with_flag c else c)) (ix_versions ix)) ix.

Lemma lookup_flags_set ks ix k :
  ix_versions (flags_set ks ix) !! k = (λ c, if decide (k ∈ ks) then with_flag c else c) <$> ix_versions ix !! k.
Proof. simpl. rewrite map_lookup_imap. by destruct (ix_versions ix !! k). Qed.

Lemma flag_set_after ks ix k : flag_set (flags_set ks ix) k = bool_decide (k ∈ ks ∧ is_Some (ix_versions ix !! k)) || flag_set ix k.
Proof.
  unfold flag_set, GetHasSourceIndex. rewrite <-surjective_pairing, lookup_flags_set.
  destruct (ix_versions ix !! k) as [c|] eqn:E; simpl.
  - destruct (decide (k ∈ ks)) as [Hk|Hk]; [by rewrite bool_decide_eq_true_2 by by split|].
    rewrite bool_decide_eq_false_2; [done|]. by intros [? _].
  - rewrite bool_decide_eq_false_2; [done|]. by intros [_ []].
Qed.

Lemma stale_after ks ix k : k ∉ ks → stale (flags_set ks ix) k = stale ix k.
Proof.
  intros Hk. unfold stale. rewrite flag_set_after, lookup_flags_set, bool_decide_eq_false_2 by by intros [? _].
  by rewrite (bool_decide_ext (k.1 ≠ "" ∧ k.2 ≠ "" ∧ is_Some _) (k.1 ≠ "" ∧ k.2 ≠ "" ∧ is_Some (ix_versions ix !! k)))
    by by rewrite fmap_is_Some.
Qed.

Lemma flags_set_snoc ks ix k : k ∉ ks →
  set_versions (alter with_flag k (ix_versions (flags_set ks ix))) (flags_set ks ix) = flags_set (ks ++ [k]) ix.
Proof.
  intros Hk. unfold flags_set, set_versions. cbn. f_equal. apply map_eq. intros j. rewrite map_lookup_imap.
  destruct (decide (j = k)) as [->|Hn].
  - rewrite lookup_alter_eq, map_lookup_imap. destruct (ix_versions ix !! k); [|done]. simpl.
    rewrite (decide_False _ _ Hk). by rewrite decide_True by (apply elem_of_app; right; by left).
  - rewrite lookup_alter_ne, map_lookup_imap by done. destruct (ix_versions ix !! j); [|done]. simpl. f_equal.
    apply decide_ext. rewrite elem_of_app, list_elem_of_singleton. naive_solver.
Qed.

Lemma flags_set_nil ix : flags_set [] ix = ix.
Proof.
  unfold flags_set, set_versions. destruct ix as [m v r p c t f s]. cbn. f_equal. apply map_eq. intros j. rewrite map_lookup_imap.
  by destruct (v !! j).
Qed.

Lemma backfill_rows ix ks done n : NoDup (done ++ ks) → Forall (λ k, is_Some (ix_versions ix !! k)) ks →
  foldl backfill_row (flags_set done ix, n) ks =
    (flags_set (done ++ filter (λ k, stale ix k = true) ks) ix, n + length (filter (λ k, stale ix k = true) ks)).
Proof.
  revert done n. induction ks as [|k ks IH]; intros done n Hnd Hk; cbn [foldl]; [by rewrite app_nil_r, Nat.add_0_r|].
  apply Forall_cons in Hk as [Hk Hks].
  assert ((k ∉ done) ∧ NoDup ((done ++ [k]) ++ ks) ∧ NoDup (done ++ ks)) as (Hkd & Hnd1 & Hnd2).
  { rewrite <-app_assoc. split_and!; [|done|].
    - apply NoDup_app in Hnd as (_ & H & _). intros Hin. apply (H k Hin). by left.
    - apply NoDup_app in Hnd as (? & H & [_ ?]%NoDup_cons). apply NoDup_app. split_and!; [done| |done]. intros x Hx Hxk. apply (H x Hx). by right. }
  rewrite backfill_row_spec by (rewrite lookup_flags_set, fmap_is_Some; done). rewrite stale_after by done. rewrite filter_cons.
  destruct (stale ix k) eqn:E.
  - rewrite flags_set_snoc by done. rewrite IH by done. rewrite decide_True by done. simpl. rewrite <-app_assoc. f_equal. lia.
  - rewrite decide_False by done. by apply IH.
Qed.

Lemma all_versions_rows ix : NoDup (ListAllVersions ix).*1 ∧ Forall (λ k, is_Some (ix_versions ix !! k)) (ListAllVersions ix).*1.
Proof.
  split.
  - unfold ListAllVersions. rewrite sort_slice_perm. apply NoDup_fst_map_to_list.
  - apply Forall_fmap, Forall_forall. intros [k c] H. apply elem_of_all in H. simpl. by eexists.
Qed.

(** The repair sets exactly the flags that are missing: of the rows whose index has a
    document, that can be read and written, and whose name and version are not empty; it
    counts them, changes nothing else, and a second run finds nothing to do. *)
Theorem flags_backfilled ix :
  let missing := filter (λ k, stale ix k = true) (ListAllVersions ix).*1 in
  BackfillSourceIndexFlags ix = (flags_set missing ix, length missing) ∧
  BackfillSourceIndexFlags (flags_set missing ix) = (flags_set missing ix, 0) ∧
  (∀ k, flag_set (flags_set missing ix) k = flag_set ix k || stale ix k).
Proof.
  intros missing. assert (∀ ix, BackfillSourceIndexFlags ix =
    (flags_set (filter (λ k, stale ix k = true) (ListAllVersions ix).*1) ix, length (filter (λ k, stale ix k = true) (ListAllVersions ix).*1))) as Hrun.
  { intros jx. unfold References.BackfillSourceIndexFlags. rewrite <-(flags_set_nil jx) at 1. by apply backfill_rows; apply all_versions_rows. }
  assert (∀ k, k ∈ missing ↔ stale ix k = true) as Hmiss.
  { intros k. unfold missing. rewrite list_elem_of_filter. split; [by intros [? _]|]. intros Hs. split; [done|].
    unfold stale in Hs. rewrite !andb_true_iff, bool_decide_eq_true in Hs. destruct Hs as [[_ (_ & _ & [c Hc])] _].
    apply list_elem_of_fmap. exists (k, c). split; [done|]. by apply elem_of_all. }
  assert (∀ k, flag_set (flags_set missing ix) k = flag_set ix k || stale ix k) as Hflag.
  { intros k. rewrite flag_set_after, orb_comm. f_equal. destruct (stale ix k) eqn:E.
    - apply bool_decide_eq_true. split; [by apply Hmiss|]. unfold stale in E. rewrite !andb_true_iff, bool_decide_eq_true in E. apply E.
    - apply bool_decide_eq_false. intros [H%Hmiss _]. congruence. }
  split; [apply Hrun|]. split; [|done]. rewrite Hrun.
  assert (filter (λ k, stale (flags_set missing ix) k = true) (ListAllVersions (flags_set missing ix)).*1 = []) as ->.
  { apply elem_of_nil_inv. intros k [Hs _]%list_elem_of_filter.
    destruct (decide (k ∈ missing)) as [Hin|Hni].
    - unfold stale in Hs. rewrite flag_set_after, bool_decide_eq_true_2 in Hs; [by rewrite orb_true_r in Hs|]. split; [done|].
      apply Hmiss in Hin. unfold stale in Hin. rewrite !andb_true_iff, bool_decide_eq_true in Hin. apply Hin.
    - apply Hni, Hmiss. rewrite <-(stale_after missing) by done. exact Hs. }
  by rewrite flags_set_nil.
Qed.
End flags.

(** ** Unresolved loads *)

Section unresolved_found.
Context (UnmarshalIndex : string → result string scip_index) (is_local : string → bool).
Context (parse_symbol : string → result string (string * string)) (UnresolvedManager : string).
Abbreviation note := (note is_local parse_symbol UnresolvedManager).

(** The symbols of an index. *)
Definition mentioned (idx : scip_index) : list string :=
  (si_documents idx ≫= λ d, do_occurrences d ++ do_symbols d) ++ si_external idx.

(** A symbol that names a load nothing resolves. *)
Definition unresolved (symbol raw : string) : Prop :=
  symbol ≠ "" ∧ is_local symbol = false ∧ raw ≠ "" ∧ parse_symbol symbol = Ok (UnresolvedManager, raw).

Lemma notes_elem symbols seen raw : raw ∈ foldl note seen symbols ↔ raw ∈ seen ∨ ∃ symbol, symbol ∈ symbols ∧ unresolved symbol raw.
Proof.
  revert seen. induction symbols as [|x symbols IH]; intros seen; cbn [foldl].
  { split; [by left|]. intros [?|(? & []%elem_of_nil & _)]; done. }
  rewrite IH. assert (raw ∈ note seen x ↔ raw ∈ seen ∨ unresolved x raw) as ->.
  { unfold References.note, unresolved. case_decide; [naive_solver|]. destruct (is_local x); [naive_solver|].
    destruct (parse_symbol x) as [[manager r]|]; [|naive_solver]. destruct (decide (manager ≠ UnresolvedManager)) as [?|Hm%dec_stable]; [naive_solver|].
    case_decide; [rewrite elem_of_union, elem_of_singleton|]; naive_solver. }
  split.
  - intros [[?|?]|(s & ? & ?)]; [by left|right; exists x; split; [by left|done]|right; exists s; split; [by right|done]].
  - intros [?|(s & [->|?]%elem_of_cons & ?)]; [by left; left|by left; right|right; by exists s].
Qed.

Lemma documents_notes ds seen :
  foldl (λ seen d, foldl note (foldl note seen (do_occurrences d)) (do_symbols d)) seen ds = foldl note seen (ds ≫= λ d, do_occurrences d ++ do_symbols d).
Proof. revert seen. induction ds as [|d ds IH]; intros seen; [done|]. rewrite bind_cons, !foldl_app. cbn [foldl]. by rewrite IH. Qed.

(** The report of the unresolved loads lists each once, in order, and has exactly the
    targets of the symbols, wherever the index mentions them, that nothing could place;
    bytes that are no index are an error, not an empty report. *)
Theorem unresolved_exact blob :
  match UnresolvedRepos UnmarshalIndex is_local parse_symbol UnresolvedManager blob with
  | Ok l => ∃ idx, UnmarshalIndex blob = Ok idx ∧ NoDup l ∧ StronglySorted (not_after String.ltb) l ∧
      ∀ raw, raw ∈ l ↔ ∃ symbol, symbol ∈ mentioned idx ∧ unresolved symbol raw
  | Err _ => ∃ e, UnmarshalIndex blob = Err e
  end.
Proof.
  unfold UnresolvedRepos. destruct (UnmarshalIndex blob) as [idx|e]; [|by exists e]. exists idx. split; [done|].
  rewrite documents_notes, <-foldl_app. fold (mentioned idx).
  split_and!; [by apply NoDup_sort_slice, NoDup_elements|apply sort_slice_sorted; apply _|].
  intros raw. rewrite elem_of_sort_slice, elem_of_elements, notes_elem. split; [by intros [[]%not_elem_of_empty|?]|by right].
Qed.
End unresolved_found.

(** ** A symbol and its consumers

    A library of one rule, used in two places, and an index that cannot be read. *)

Definition demo_rule (file : string) : RuleSpec := mkRuleSpec "cc_thing" "" [] "" false false false (mkProvenance file 0 0 0 0).
Definition demo_report (file : string) : ModuleReport :=
  mkModuleReport "lib" "1" 0 [] [] [demo_rule file] [] [] [] [] [] [] [] [] [] [] [] [] (mkHermeticityProfile [] []) [] zeroAssets.
Definition demo_decode (rep : string) : result string ModuleReport := if decide (rep = "bare") then Ok (demo_report "") else Ok (demo_report rep).

(** An index is the text of its references' files; "torn" is not one. *)
Definition demo_open (blob : string) : result string string := if decide (blob = "torn") then Err "bad magic" else Ok blob.
Definition demo_refs (idx symbol : string) (_ : bool) : result string (list Location) :=
  if decide (idx = "" ∨ symbol <> "s lib 1 defs.bzl/cc_thing#") then Ok [] else Ok [mkLocation idx 7 2 7 10].
Definition demo_local (s : string) : bool := HasPrefix s "local ".
Definition demo_global (m v file name : string) : result string string := Ok ("s " +:+ m +:+ " " +:+ v +:+ " " +:+ file +:+ "/" +:+ name +:+ "#").
Definition demo_row (rep : string) : VersionCols := mkVersionCols 0 "[]" "t" "{}" 0 true "{}" rep.
Definition demo_index (rep : string) : Index :=
  mkIndex {["lib"]} {[("lib", "1") := demo_row rep]} ∅ ∅ ∅ ∅ ∅
    (list_to_map [(("app", "2"), "a b/x+y.bzl"); (("lib", "1"), "defs.bzl"); (("old", "0"), "torn"); (("tool", "3"), "")]).
Definition demo_consumers (rep : string) (self : bool) : result string ConsumersResult :=
  LookupConsumers demo_open demo_refs demo_local demo_decode demo_global id (demo_index rep) "lib" "1" "cc_thing" self.

Example consumers_run : demo_consumers "defs.bzl" false =
  Ok (mkConsumers "s lib 1 defs.bzl/cc_thing#" "lib" "1" "cc_thing" "rule" "defs.bzl" 1 1 1
        [mkConsumer "app" "2" "/modules/app/2" [mkCallSite "a b/x+y.bzl" 7 2 "/modules/app/2/code-nav/file/a%20b/x+y.bzl?line=7"]]).
Proof. vm_compute. reflexivity. Qed.

(** With the defining version, its own use is one more. *)
Example consumers_self : (λ r, (ce_Module <$> cr_Consumers r, cr_TotalCallSites r)) <$> demo_consumers "defs.bzl" true = Ok (["app"; "lib"], 2).
Proof. vm_compute. reflexivity. Qed.

(** A rule whose file the report does not know is reported as no rule at all. *)
Example fileless_not_found : demo_consumers "bare" false = Err "lib@1: cc_thing not found in any rule/provider/macro/repo_rule/module_extension".
Proof. vm_compute. reflexivity. Qed.

(** A plus stays in a link of the server; the browser's encodeURIComponent writes %2B. *)
Example plus_stays : PathEscape "x+y (1).bzl" = "x+y%20%281%29.bzl".
Proof. vm_compute. reflexivity. Qed.

Example consumers_exact_witness :
  (∃ res, demo_consumers "defs.bzl" false = Ok res) ∧
  ∃ res, demo_consumers "defs.bzl" false = Ok res ∧ cr_File res ≠ "" ∧ cr_Skipped res = 1.
Proof.
  destruct (demo_consumers "defs.bzl" false) as [res|e] eqn:E; [|by vm_compute in E]. split; [by exists res|].
  exists res. split; [done|].
  destruct (consumers_exact demo_open demo_refs demo_local demo_decode demo_global id (demo_index "defs.bzl") "lib" "1" "cc_thing" false res E)
    as (_ & Hf & _ & _ & _ & _ & Hs & _).
  split; [exact Hf|]. vm_compute in E. injection E as <-. reflexivity.
Defined.
