(* ===== verification/Surface.v ===== *)
(** * The external surface

    What a module would fetch besides its dependencies: the tables of external references,
    interpretation errors, uses of module extensions and sources of module extensions
    (internal/store/external.go, use_extension_usages.go, module_extension_sources.go), the
    ingest that fills them (internal/external), and the surface of one version and of a
    whole dependency closure (internal/bzlhub/service_external.go).  The analyser, the
    parser of MODULE.bazel files, the interpreter of an extension and the JSON codec are
    parameters. *)

From stdpp Require Import pretty.
From S2P Require Import Prelude Strings Cascade Archive Report Index GraphClosure.

(** ** Rows *)

(** [api.DefaultPlatform] *)
Definition DefaultPlatform : string := "any".

Record ExternalRef := mkExternalRef {
  xr_URL : string; xr_Host : string; xr_Class : string; xr_Mutability : string;
  xr_SHA256 : string; xr_Integrity : string; xr_APIName : string; xr_RuleName : string;
  xr_Platform : string; xr_Tainted : bool; xr_File : string;
}.
#[export] Instance ExternalRef_eq_dec : EqDecision ExternalRef.
Proof. solve_decision. Defined.

Record ExternalForkError := mkForkError { fe_Platform : string; fe_Message : string }.

(** A use of an extension; its consumer is the key of its row. *)
Record UseExtensionUsage := mkUsage {
  ue_ExtensionFile : string; ue_ExtensionName : string; ue_TagIndex : nat; ue_TagName : string;
  ue_TagAttrsJSON : string; ue_DevDependency : bool; ue_Isolate : bool;
}.

Record ModuleExtensionSource := mkSource { ms_File : string; ms_Content : string }.

(** [defaultPlatform] *)
Definition defaultPlatform (s : string) : string := if decide (s = "") then DefaultPlatform else s.

(** The row of a reference, and the part of the primary key that is its own. *)
Definition ref_row (r : ExternalRef) : ExternalRef :=
  mkExternalRef (xr_URL r) (xr_Host r) (xr_Class r) (xr_Mutability r) (xr_SHA256 r) (xr_Integrity r) (xr_APIName r) (xr_RuleName r)
    (defaultPlatform (xr_Platform r)) (xr_Tainted r) (xr_File r).
Abbreviation ref_id := (string * string * string * string)%type.
Definition row_id (r : ExternalRef) : ref_id := (xr_URL r, xr_Platform r, xr_File r, xr_RuleName r).
Definition usage_id (u : UseExtensionUsage) : (string * string) * nat := ((ue_ExtensionFile u, ue_ExtensionName u), ue_TagIndex u).

Record Tables := mkTables {
  xt_refs : gmap (coord * ref_id) ExternalRef;
  xt_errors : gset (coord * (string * string));
  xt_usages : gmap (coord * ((string * string) * nat)) UseExtensionUsage;
  xt_sources : gmap (coord * string) string;
}.
Definition emptyTables : Tables := mkTables ∅ ∅ ∅ ∅.

(** A loop of statements of a transaction stops at the first that is refused. *)
Fixpoint statements {A S} (f : A → S → result string S) (l : list A) (s : S) : result string S :=
  match l with [] => Ok s | x :: l => s ← f x s; statements f l s end.

Section store.
Context (quoted : string → string).

(** The foreign key of every table. *)
Definition indexed (ix : Index) (k : coord) : bool := bool_decide (is_Some (ix_versions ix !! k)).

Definition insert_ref (ix : Index) (k : coord) (r : ExternalRef) (t : Tables) : result string Tables :=
  if indexed ix k
  then Ok (mkTables (<[(k, row_id (ref_row r)) := ref_row r]> (xt_refs t)) (xt_errors t) (xt_usages t) (xt_sources t))
  else Err ("insert ref " +:+ quoted (xr_URL r) +:+ ": FOREIGN KEY constraint failed").
Definition insert_fork_error (ix : Index) (k : coord) (e : ExternalForkError) (t : Tables) : result string Tables :=
  if indexed ix k
  then Ok (mkTables (xt_refs t) ({[(k, (defaultPlatform (fe_Platform e), fe_Message e))]} ∪ xt_errors t) (xt_usages t) (xt_sources t))
  else Err "insert fork error: FOREIGN KEY constraint failed".

(** [WriteExternalRefs], its transaction. *)
Definition WriteExternalRefs (ix : Index) (k : coord) (refs : list ExternalRef) (forkErrors : list ExternalForkError) (t : Tables)
    : result string Tables :=
  let t := mkTables (filter (λ kv, kv.1.1 ≠ k) (xt_refs t)) (filter (λ x, x.1 ≠ k) (xt_errors t)) (xt_usages t) (xt_sources t) in
  t ← statements (insert_ref ix k) refs t; statements (insert_fork_error ix k) forkErrors t.

(** [ORDER BY class, url, platform, file] *)
Definition ref_less : ExternalRef → ExternalRef → bool :=
  lex_less xr_Class String.ltb (lex_less xr_URL String.ltb (lex_less xr_Platform String.ltb (λ a b, String.ltb (xr_File a) (xr_File b)))).

(** [GetExternalRefs] *)
Definition GetExternalRefs (t : Tables) (k : coord) : list ExternalRef :=
  sort_slice ref_less (map_to_list (filter (λ kv, kv.1.1 = k) (xt_refs t))).*2.

(** [GetExternalForkErrors] *)
Definition error_less (a b : ExternalForkError) : bool :=
  lex_less fe_Platform String.ltb (λ a b, String.ltb (fe_Message a) (fe_Message b)) a b.
Definition GetExternalForkErrors (t : Tables) (k : coord) : list ExternalForkError :=
  sort_slice error_less ((λ x, mkForkError x.2.1 x.2.2) <$> elements (filter (λ x, x.1 = k) (xt_errors t))).

(** [WriteUseExtensionUsages] *)
Definition insert_usage (ix : Index) (k : coord) (u : UseExtensionUsage) (t : Tables) : result string Tables :=
  match xt_usages t !! (k, usage_id u) with
  | Some _ => Err ("insert usage " +:+ ue_ExtensionFile u +:+ "." +:+ ue_ExtensionName u +:+ "[" +:+ pretty (ue_TagIndex u) +:+ "]: UNIQUE constraint failed")
  | None =>
      if indexed ix k
      then Ok (mkTables (xt_refs t) (xt_errors t) (<[(k, usage_id u) := u]> (xt_usages t)) (xt_sources t))
      else Err ("insert usage " +:+ ue_ExtensionFile u +:+ "." +:+ ue_ExtensionName u +:+ "[" +:+ pretty (ue_TagIndex u) +:+ "]: FOREIGN KEY constraint failed")
  end.
Definition WriteUseExtensionUsages (ix : Index) (k : coord) (usages : list UseExtensionUsage) (t : Tables) : result string Tables :=
  statements (insert_usage ix k) usages
    (mkTables (xt_refs t) (xt_errors t) (filter (λ kv, kv.1.1 ≠ k) (xt_usages t)) (xt_sources t)).

(** [GetUseExtensionUsagesForExtension]: [ORDER BY consumer_module, consumer_version,
    tag_index]. *)
Definition usage_less (a b : coord * UseExtensionUsage) : bool :=
  lex_less (λ x : coord * UseExtensionUsage, x.1.1) String.ltb
    (lex_less (λ x : coord * UseExtensionUsage, x.1.2) String.ltb (λ a b, ue_TagIndex a.2 <? ue_TagIndex b.2)) a b.
Definition GetUseExtensionUsagesForExtension (t : Tables) (file name : string) : list (coord * UseExtensionUsage) :=
  sort_slice usage_less ((λ kv, (kv.1.1, kv.2)) <$> map_to_list (filter (λ kv, kv.1.2.1 = (file, name)) (xt_usages t))).

(** [WriteModuleExtensionSources] *)
Definition insert_source (ix : Index) (k : coord) (s : ModuleExtensionSource) (t : Tables) : result string Tables :=
  match xt_sources t !! (k, ms_File s) with
  | Some _ => Err ("insert source " +:+ ms_File s +:+ ": UNIQUE constraint failed")
  | None =>
      if indexed ix k
      then Ok (mkTables (xt_refs t) (xt_errors t) (xt_usages t) (<[(k, ms_File s) := ms_Content s]> (xt_sources t)))
      else Err ("insert source " +:+ ms_File s +:+ ": FOREIGN KEY constraint failed")
  end.
Definition WriteModuleExtensionSources (ix : Index) (k : coord) (sources : list ModuleExtensionSource) (t : Tables) : result string Tables :=
  statements (insert_source ix k) sources
    (mkTables (xt_refs t) (xt_errors t) (xt_usages t) (filter (λ kv, kv.1.1 ≠ k) (xt_sources t))).

(** [GetModuleExtensionSources] *)
Definition GetModuleExtensionSources (t : Tables) (k : coord) : list ModuleExtensionSource :=
  sort_by_key ms_File ((λ kv, mkSource kv.1.2 kv.2) <$> map_to_list (filter (λ kv, kv.1.1 = k) (xt_sources t))).

(** The cascade of [DELETE FROM versions], which [WriteReport] begins with. *)
Definition cascade_tables (k : coord) (t : Tables) : Tables :=
  mkTables (filter (λ kv, kv.1.1 ≠ k) (xt_refs t)) (filter (λ x, x.1 ≠ k) (xt_errors t))
    (filter (λ kv, kv.1.1 ≠ k) (xt_usages t)) (filter (λ kv, kv.1.1 ≠ k) (xt_sources t)).
End store.

(** ** The ingest *)

(** A call site of [use_extension] and the tags of its proxy. *)
Record UseExtensionTag {A : Type} := mkTag { tg_Name : string; tg_Attrs : A }.
Arguments UseExtensionTag : clear implicits.
Arguments mkTag {A}.
Record UseExtensionSite {A : Type} := mkSite {
  us_ExtensionFile : string; us_ExtensionName : string; us_Tags : list (UseExtensionTag A); us_DevDependency : bool; us_Isolate : bool;
}.
Arguments UseExtensionSite : clear implicits.
Arguments mkSite {A}.

(** A statement of a parsed MODULE.bazel. *)
Inductive statement (A : Type) : Type :=
| StUseExtension (site : UseExtensionSite A)
| StOther.
Arguments StUseExtension {A}.
Arguments StOther {A}.

(** What [os.ReadFile] answers. *)
Inductive file_read : Type := Content (b : string) | NotExist | ReadFailed (e : string).

Record AnalyzeResult := mkAnalyzed { an_Refs : list ExternalRef; an_ForkErrors : list ExternalForkError }.

(** [filepath.IsLocal] *)
Definition IsLocal (path : string) : bool :=
  if decide (path = "") then false
  else if HasPrefix path "/" then false
  else
    let path := if decide ("." ∈ Split path slash ∨ ".." ∈ Split path slash) then path_clean path else path in
    negb (bool_decide (path = "..") || HasPrefix path "../").

Section ingest.
Context {A : Type} (quoted : string → string).
Context (Analyze : string → gset string → result string AnalyzeResult) (ReadFile : string → file_read).
Context (ParseContent : string → result string (option (list (statement A)))) (marshal_attrs : A → result string string).

(** [relevantFiles] *)
Definition relevantFiles (rep : ModuleReport) : gset string :=
  filter (λ f, f ≠ "") (set_of ((prov_File ∘ rr_Provenance <$> rep_RepositoryRules rep) ++ (prov_File ∘ ext_Provenance <$> rep_ModuleExtensions rep))).

(** [ScanUseExtensions] *)
Definition ScanUseExtensions (moduleBazel : string) : result string (list (UseExtensionSite A)) :=
  match ParseContent moduleBazel with
  | Err e => Err ("parse MODULE.bazel: " +:+ e)
  | Ok None => Ok []
  | Ok (Some stmts) => Ok (omap (λ st, match st with StUseExtension site => Some site | StOther => None end) stmts)
  end.

(** The text of a tag's attributes. *)
Definition attrs_json (a : A) : string := match marshal_attrs a with Ok s => s | Err _ => "{}" end.

(** The rows of a site: one for each tag. *)
Definition site_usages (site : UseExtensionSite A) : list UseExtensionUsage :=
  imap (λ idx tag, mkUsage (us_ExtensionFile site) (us_ExtensionName site) idx (tg_Name tag)
                     (attrs_json (tg_Attrs tag)) (us_DevDependency site) (us_Isolate site))
    (us_Tags site).

(** [scanMODULEBazelUsages] *)
Definition scanMODULEBazelUsages (moduleDir : string) : result string (list UseExtensionUsage) :=
  match ReadFile (join_path moduleDir "MODULE.bazel") with
  | NotExist => Ok []
  | ReadFailed e => Err ("read MODULE.bazel: " +:+ e)
  | Content data => sites ← ScanUseExtensions data; Ok (sites ≫= site_usages)
  end.

(** [readExtensionSources]: the loop over the declared extensions. *)
Fixpoint read_sources (moduleDir : string) (seen : gset string) (files : list string) : list ModuleExtensionSource :=
  match files with
  | [] => []
  | file :: files =>
      if decide (file = "" ∨ file ∈ seen) then read_sources moduleDir seen files
      else
        let rest := read_sources moduleDir ({[file]} ∪ seen) files in
        if negb (IsLocal file) then rest
        else match ReadFile (join_path moduleDir file) with Content data => mkSource file data :: rest | _ => rest end
  end.
Definition readExtensionSources (moduleDir : string) (rep : ModuleReport) : list ModuleExtensionSource :=
  read_sources moduleDir ∅ (prov_File ∘ ext_Provenance <$> rep_ModuleExtensions rep).

(** [IngestModule]: three transactions. *)
Definition store_sources (ix : Index) (moduleDir : string) (rep : ModuleReport) (t : Tables) : option string * Tables :=
  if decide (rep_ModuleExtensions rep = []) then (None, t)
  else match WriteModuleExtensionSources ix (coord_of rep) (readExtensionSources moduleDir rep) t with
       | Err e => (Some ("write module_extension sources: " +:+ e), t)
       | Ok t => (None, t)
       end.
Definition IngestModule (ix : Index) (moduleDir : string) (rep : ModuleReport) (t : Tables) : option string * Tables :=
  match Analyze moduleDir (relevantFiles rep) with
  | Err e => (Some ("analyze: " +:+ e), t)
  | Ok res =>
      match WriteExternalRefs quoted ix (coord_of rep) (an_Refs res) (an_ForkErrors res) t with
      | Err e => (Some e, t)
      | Ok t =>
          match scanMODULEBazelUsages moduleDir with
          | Err _ => store_sources ix moduleDir rep t
          | Ok usages =>
              match WriteUseExtensionUsages ix (coord_of rep) usages t with
              | Err e => (Some ("write use_extension usages: " +:+ e), t)
              | Ok t => store_sources ix moduleDir rep t
              end
          end
      end
  end.
End ingest.

(** ** The surface of a version *)

(** [confidenceFor] *)
Definition confidenceFor (tainted : bool) (platform : string) : string :=
  if tainted then "tainted"
  else if decide (platform ≠ "" ∧ platform ≠ DefaultPlatform) then "platform-specific"
  else "resolved".

(** The wire form of a reference: the row, how sure it is, and the node of the closure that
    brought it. *)
Record SurfaceRef := mkSurfaceRef { sr_Ref : ExternalRef; sr_Confidence : string; sr_SourceModule : string }.

(** [extensionApparentLabel], over [path.Split]. *)
Definition extensionApparentLabel (module provenanceFile : string) : string :=
  if decide (module = "" ∨ provenanceFile = "") then ""
  else
    let parts := Split provenanceFile slash in
    "@" +:+ module +:+ "//" +:+ Join (take (length parts - 1) parts) "/" +:+ ":" +:+ default "" (last parts).

(** [map[string]int] of the classes. *)
Abbreviation class_counts := (gmap string nat).
Definition count_class (m : class_counts) (class : string) : class_counts :=
  if decide (class = "") then m else <[class := S (default 0 (m !! class))]> m.

Section surface.
Context {A V : Type}.
Context (decode_report : string → result string ModuleReport) (unmarshal_attrs : string → A) (nil_attrs : A) (anyMapToStarlark : A → V).

Record ExtensionConsumerCall := mkCall {
  cc_ConsumerModule : string; cc_ConsumerVersion : string; cc_TagName : string; cc_TagAttrs : A; cc_DevDependency : bool; cc_Isolate : bool;
}.
Record ExtensionCorpusUsage := mkCorpusUsage { cu_ExtensionFile : string; cu_ExtensionName : string; cu_Consumers : list ExtensionConsumerCall }.
Record ModuleSpec := mkModuleSpec { mp_Name : string; mp_Version : string; mp_IsRoot : bool; mp_Tags : gmap string (list V) }.

(** [assayext.DriveExtensionFromSource]: its references. *)
Context (DriveExtensionFromSource : string → string → string → list ModuleSpec → result string (list ExternalRef)).
(** The reads of the tables may fail. *)
Context (read_fails : coord → option string).

Record ExternalSurfaceResponse := mkSurface {
  su_Module : string; su_Version : string; su_Refs : list SurfaceRef; su_ForkErrors : list ExternalForkError;
  su_ClassCounts : class_counts; su_CorpusUsages : list ExtensionCorpusUsage;
}.

(** What is read of a tag's attributes: nothing of no text. *)
Definition read_attrs (json : string) : A := if decide (json = "") then nil_attrs else unmarshal_attrs json.
Definition consumer_call (ku : coord * UseExtensionUsage) : ExtensionConsumerCall :=
  mkCall ku.1.1 ku.1.2 (ue_TagName ku.2) (read_attrs (ue_TagAttrsJSON ku.2)) (ue_DevDependency ku.2) (ue_Isolate ku.2).

(** [corpusUsagesForExtensions] *)
Definition corpus_usage (t : Tables) (rep : ModuleReport) (ext : ModuleExtSpec) : option ExtensionCorpusUsage :=
  let label := extensionApparentLabel (rep_Name rep) (prov_File (ext_Provenance ext)) in
  if decide (label = "") then None
  else match GetUseExtensionUsagesForExtension t label (ext_Name ext) with
       | [] => None
       | usages => Some (mkCorpusUsage label (ext_Name ext) (consumer_call <$> usages))
       end.
Definition corpusUsagesForExtensions (t : Tables) (rep : ModuleReport) : list ExtensionCorpusUsage :=
  omap (corpus_usage t rep) (rep_ModuleExtensions rep).

(** [buildModuleSpecsFromConsumers]: the specs under their keys, in the order of first
    sight. *)
Definition consumer_key (c : ExtensionConsumerCall) : string := cc_ConsumerModule c +:+ "@" +:+ cc_ConsumerVersion c.
Definition add_tag (c : ExtensionConsumerCall) (s : ModuleSpec) : ModuleSpec :=
  mkModuleSpec (mp_Name s) (mp_Version s) (mp_IsRoot s)
    (<[cc_TagName c := default [] (mp_Tags s !! cc_TagName c) ++ [anyMapToStarlark (cc_TagAttrs c)]]> (mp_Tags s)).
Fixpoint spec_turn (c : ExtensionConsumerCall) (specs : list (string * ModuleSpec)) : list (string * ModuleSpec) :=
  match specs with
  | [] => [(consumer_key c, add_tag c (mkModuleSpec (cc_ConsumerModule c) (cc_ConsumerVersion c) false ∅))]
  | (key, s) :: specs => if decide (key = consumer_key c) then (key, add_tag c s) :: specs else (key, s) :: spec_turn c specs
  end.
Definition buildModuleSpecsFromConsumers (consumers : list ExtensionConsumerCall) : list ModuleSpec :=
  (foldl (λ specs c, spec_turn c specs) [] consumers).*2.

(** [driveCorpusURLs] *)
Definition driven_ref (name : string) (r : ExternalRef) : SurfaceRef :=
  mkSurfaceRef (mkExternalRef (xr_URL r) (xr_Host r) (xr_Class r) (xr_Mutability r) (xr_SHA256 r) (xr_Integrity r) ("corpus:" +:+ name)
                  (xr_RuleName r) (xr_Platform r) (xr_Tainted r) (xr_File r)) (confidenceFor (xr_Tainted r) (xr_Platform r)) "".
Definition extension_file (rep : ModuleReport) (name : string) : string :=
  match list_find (λ e, ext_Name e = name) (rep_ModuleExtensions rep) with Some (_, e) => prov_File (ext_Provenance e) | None => "" end.
Definition drive_usage (rep : ModuleReport) (srcByFile : gmap string string) (cu : ExtensionCorpusUsage) : list SurfaceRef :=
  let extFile := extension_file rep (cu_ExtensionName cu) in
  if decide (extFile = "") then []
  else
    match srcByFile !! extFile with
    | None => []
    | Some source =>
        match buildModuleSpecsFromConsumers (cu_Consumers cu) with
        | [] => []
        | specs => match DriveExtensionFromSource source extFile (cu_ExtensionName cu) specs with
                   | Err _ => []
                   | Ok refs => driven_ref (cu_ExtensionName cu) <$> refs
                   end
        end
    end.
Definition driveCorpusURLs (t : Tables) (rep : ModuleReport) (usages : list ExtensionCorpusUsage) : list SurfaceRef :=
  usages ≫= drive_usage rep (map_of ms_File ms_Content (GetModuleExtensionSources t (coord_of rep))).

(** [ExternalSurface] *)
Definition stored_ref (r : ExternalRef) : SurfaceRef := mkSurfaceRef r (confidenceFor (xr_Tainted r) (xr_Platform r)) "".
Definition ExternalSurface (ix : Index) (t : Tables) (k : coord) : result string ExternalSurfaceResponse :=
  match read_fails k with
  | Some e => Err ("query: " +:+ e)
  | None =>
      let refs := stored_ref <$> GetExternalRefs t k in
      let counts := foldl count_class ∅ (xr_Class ∘ sr_Ref <$> refs) in
      let errs := GetExternalForkErrors t k in
      match GetReport decode_report ix k.1 k.2 with
      | Err _ => Ok (mkSurface k.1 k.2 refs errs counts [])
      | Ok rep =>
          let usages := corpusUsagesForExtensions t rep in
          let driven := match usages with [] => [] | _ => driveCorpusURLs t rep usages end in
          Ok (mkSurface k.1 k.2 (refs ++ driven) errs (foldl count_class counts (xr_Class ∘ sr_Ref <$> driven)) usages)
      end
  end.

(** ** The surface of a closure *)

Record ClosureSurfaceModule := mkSurfaceModule { sm_Module : string; sm_Version : string; sm_RefCount : nat; sm_ClassCounts : class_counts; sm_External : bool }.
Record ClosureSurfaceResponse := mkClosureSurface {
  sc_Root : string; sc_Modules : list ClosureSurfaceModule; sc_Refs : list SurfaceRef; sc_ForkErrors : list ExternalForkError;
  sc_ClassCounts : class_counts; sc_MaxDepthReached : bool; sc_MissingModules : list string;
}.

(** [refKey] *)
Definition refKey (r : SurfaceRef) : string * string * string := (xr_URL (sr_Ref r), xr_Platform (sr_Ref r), xr_File (sr_Ref r)).

(** One reference of a node. *)
Definition ref_turn (nodeID : string) (s : gset (string * string * string) * ClosureSurfaceResponse) (r : SurfaceRef)
    : gset (string * string * string) * ClosureSurfaceResponse :=
  if decide (refKey r ∈ s.1) then s
  else
    let resp := s.2 in
    ({[refKey r]} ∪ s.1,
     mkClosureSurface (sc_Root resp) (sc_Modules resp) (sc_Refs resp ++ [mkSurfaceRef (sr_Ref r) (sr_Confidence r) nodeID]) (sc_ForkErrors resp)
       (count_class (sc_ClassCounts resp) (xr_Class (sr_Ref r))) (sc_MaxDepthReached resp) (sc_MissingModules resp)).

(** One node of the closure. *)
Definition node_turn (ix : Index) (t : Tables) (s : gset (string * string * string) * ClosureSurfaceResponse) (n : ClosureNode)
    : gset (string * string * string) * ClosureSurfaceResponse :=
  let resp := s.2 in
  let with_module m missing :=
    mkClosureSurface (sc_Root resp) (sc_Modules resp ++ [m]) (sc_Refs resp) (sc_ForkErrors resp) (sc_ClassCounts resp)
      (sc_MaxDepthReached resp) (sc_MissingModules resp ++ missing) in
  if cn_External n then (s.1, with_module (mkSurfaceModule (cn_Name n) (cn_Version n) 0 ∅ true) [cn_Name n +:+ "@" +:+ cn_Version n])
  else
    match ExternalSurface ix t (cn_Name n, cn_Version n) with
    | Err _ => (s.1, with_module (mkSurfaceModule (cn_Name n) (cn_Version n) 0 ∅ false) [])
    | Ok sub =>
        let s' := foldl (ref_turn (cn_Name n +:+ "@" +:+ cn_Version n))
                    (s.1, with_module (mkSurfaceModule (cn_Name n) (cn_Version n) (length (su_Refs sub)) (su_ClassCounts sub) false) [])
                    (su_Refs sub) in
        (s'.1, mkClosureSurface (sc_Root s'.2) (sc_Modules s'.2) (sc_Refs s'.2) (sc_ForkErrors s'.2 ++ su_ForkErrors sub) (sc_ClassCounts s'.2)
                 (sc_MaxDepthReached s'.2) (sc_MissingModules s'.2))
    end.

(** [AirgapSurface] *)
Definition surface_of_graph (ix : Index) (t : Tables) (g : ClosureGraph) : ClosureSurfaceResponse :=
  (foldl (node_turn ix t) (∅, mkClosureSurface (cg_Root g) [] [] [] ∅ (cg_MaxDepthReached g) []) (cg_Nodes g)).2.
Definition AirgapSurface (ix : Index) (t : Tables) (fuel : nat) (root : coord) : option ClosureSurfaceResponse :=
  surface_of_graph ix t <$> Closure decode_report ix fuel root.
End surface.
Arguments ExtensionConsumerCall : clear implicits.
Arguments ExtensionCorpusUsage : clear implicits.
Arguments ModuleSpec : clear implicits.
Arguments ExternalSurfaceResponse : clear implicits.

(** ** What the transactions leave *)

(** Where [statements] stops. *)
Lemma statements_app {A S} (f : A → S → result string S) l k s : statements f (l ++ k) s = (s ← statements f l s; statements f k s).
Proof. revert s. induction l as [|x l IH]; intros s; [done|]. simpl. destruct (f x s); [apply IH|done]. Qed.

Section stored.
Context (quoted : string → string) (ix : Index) (k : coord).

Lemma insert_refs_spec rs t :
  match statements (insert_ref quoted ix k) rs t with
  | Ok t' =>
      (∀ k' id, xt_refs t' !! (k', id) =
         if decide (k' = k) then from_option Some (xt_refs t !! (k', id)) (last (filter (λ r, row_id r = id) (ref_row <$> rs))) else xt_refs t !! (k', id)) ∧
      xt_errors t' = xt_errors t ∧ xt_usages t' = xt_usages t ∧ xt_sources t' = xt_sources t
  | Err _ => indexed ix k = false ∧ rs ≠ []
  end.
Proof.
  induction rs as [|r rs IH] using rev_ind; simpl.
  { split_and!; [|done..]. intros k' id. by case_decide. }
  rewrite statements_app. destruct (statements _ rs t) as [t1|e]; simpl; [|split; [apply IH|by destruct rs]].
  destruct IH as (IH & He & Hu & Hs). unfold insert_ref. destruct (indexed ix k) eqn:E; simpl; [|split; [done|by destruct rs]].
  split_and!; [|done..]. intros k' id. rewrite fmap_app, filter_app. simpl. rewrite filter_cons, filter_nil.
  destruct (decide (k' = k)) as [->|Hk].
  - destruct (decide (row_id (ref_row r) = id)) as [<-|Hid].
    + by rewrite lookup_insert_eq, last_snoc.
    + rewrite lookup_insert_ne by congruence. rewrite IH, decide_True, app_nil_r by done. done.
  - rewrite lookup_insert_ne by congruence. by rewrite IH, decide_False.
Qed.

Lemma insert_errors_spec es t :
  match statements (insert_fork_error ix k) es t with
  | Ok t' =>
      (∀ x, x ∈ xt_errors t' ↔ x ∈ xt_errors t ∨ ∃ e, e ∈ es ∧ x = (k, (defaultPlatform (fe_Platform e), fe_Message e))) ∧
      xt_refs t' = xt_refs t ∧ xt_usages t' = xt_usages t ∧ xt_sources t' = xt_sources t
  | Err _ => indexed ix k = false ∧ es ≠ []
  end.
Proof.
  induction es as [|e es IH] using rev_ind; simpl.
  { split_and!; [|done..]. intros x. split; [by left|]. by intros [?|(? & ?%not_elem_of_nil & _)]. }
  rewrite statements_app. destruct (statements _ es t) as [t1|e']; simpl; [|split; [apply IH|by destruct es]].
  destruct IH as (IH & He & Hu & Hs). unfold insert_fork_error. destruct (indexed ix k) eqn:E; simpl; [|split; [done|by destruct es]].
  split_and!; [|done..]. intros x. rewrite elem_of_union, elem_of_singleton, IH. setoid_rewrite elem_of_app. setoid_rewrite list_elem_of_singleton.
  naive_solver.
Qed.

Lemma last_filter_iff {B} (P : B → Prop) `{∀ x, Decision (P x)} (l : list B) x :
  last (filter P l) = Some x ↔ ∃ l1 l2, l = l1 ++ x :: l2 ∧ P x ∧ Forall (λ y, ¬ P y) l2.
Proof.
  induction l as [|y l IH] using rev_ind; simpl.
  { split; [done|]. by intros (l1 & l2 & ?%(f_equal length) & _); rewrite length_app in *; simpl in *; lia. }
  rewrite filter_app, filter_cons, filter_nil. destruct (decide (P y)) as [Hy|Hy].
  - rewrite last_snoc. split.
    + intros [= ->]. exists l, []. by split_and!.
    + intros (l1 & l2 & E & Hx & Hl). destruct l2 as [|z l2 _] using rev_ind; [by apply app_inj_tail in E as [_ ->]|].
      apply Forall_app in Hl as [_ [Hz _]%Forall_cons]. rewrite app_comm_cons, app_assoc in E. apply app_inj_tail in E as [_ ->]. by destruct (Hz Hy).
  - rewrite app_nil_r, IH. split.
    + intros (l1 & l2 & -> & Hx & Hl). exists l1, (l2 ++ [y]). rewrite <-app_assoc. split_and!; [done|done|]. apply Forall_app. split; [done|]. by repeat constructor.
    + intros (l1 & l2 & E & Hx & Hl). destruct l2 as [|z l2 _] using rev_ind; [by apply app_inj_tail in E as [_ ->]|].
      rewrite app_comm_cons, app_assoc in E. apply app_inj_tail in E as [-> ->]. apply Forall_app in Hl as [Hl _]. by exists l1, l2.
Qed.

(** The rows of a version in the table of references. *)
Lemma elem_of_refs t k' r : r ∈ GetExternalRefs t k' ↔ ∃ id, xt_refs t !! (k', id) = Some r.
Proof.
  unfold GetExternalRefs. rewrite elem_of_sort_slice, list_elem_of_fmap. split.
  - intros ([[k1 id] r'] & -> & H%elem_of_map_to_list). apply map_lookup_filter_Some in H as [H Hk]. simpl in *. subst. by exists id.
  - intros (id & H). exists ((k', id), r). split; [done|]. apply elem_of_map_to_list, map_lookup_filter_Some. done.
Qed.

#[export] Instance ref_less_weak : StrictWeak ref_less.
Proof.
  unfold ref_less. repeat (apply sw_lex; [| |apply str_ltb_tricho]; [apply _|]). apply (sw_on xr_File). apply _.
Qed.

(** The references written for a version are read back in order, for each key the last
    one given, with an empty platform as "any"; its errors too; the rows of the other
    versions, the uses and the sources stay; the transaction fails only for a version that
    is not indexed and something to write. *)
Lemma refs_written refs errs t :
  match WriteExternalRefs quoted ix k refs errs t with
  | Ok t' =>
      (∀ r, r ∈ GetExternalRefs t' k ↔
         ∃ l1 l2, ref_row <$> refs = l1 ++ r :: l2 ∧ Forall (λ r', row_id r' ≠ row_id r) l2) ∧
      NoDup (GetExternalRefs t' k) ∧ StronglySorted (not_after ref_less) (GetExternalRefs t' k) ∧
      (∀ k', k' ≠ k → GetExternalRefs t' k' = GetExternalRefs t k' ∧ GetExternalForkErrors t' k' = GetExternalForkErrors t k') ∧
      (∀ e, e ∈ GetExternalForkErrors t' k ↔ ∃ e', e' ∈ errs ∧ e = mkForkError (defaultPlatform (fe_Platform e')) (fe_Message e')) ∧
      xt_usages t' = xt_usages t ∧ xt_sources t' = xt_sources t
  | Err _ => indexed ix k = false ∧ (refs ≠ [] ∨ errs ≠ [])
  end.
Proof.
  unfold WriteExternalRefs. set (t0 := mkTables _ _ _ _).
  pose proof (insert_refs_spec refs t0) as H1. destruct (statements _ refs t0) as [t1|e]; [|by destruct H1; split; [|left]]. simpl.
  destruct H1 as (H1 & He1 & Hu1 & Hs1).
  pose proof (insert_errors_spec errs t1) as H2. destruct (statements _ errs t1) as [t2|e]; [|by destruct H2; split; [|right]].
  destruct H2 as (H2 & Hr2 & Hu2 & Hs2). rewrite He1 in H2.
  assert (∀ id r, xt_refs t2 !! (k, id) = Some r ↔ last (filter (λ r, row_id r = id) (ref_row <$> refs)) = Some r) as Hk.
  { intros id r. rewrite Hr2, H1, decide_True by done. destruct (last _) as [r'|]; [done|]. simpl.
    rewrite map_lookup_filter_None_2; [done|]. right. intros ? _ Hn. by apply Hn. }
  split_and!.
  - intros r. rewrite elem_of_refs. setoid_rewrite Hk. setoid_rewrite last_filter_iff. split.
    + intros (id & l1 & l2 & E & <- & Hl). by exists l1, l2.
    + intros (l1 & l2 & E & Hl). by exists (row_id r), l1, l2.
  - unfold GetExternalRefs. apply NoDup_sort_slice. apply NoDup_fmap_2_strong; [|apply NoDup_map_to_list].
    intros [[ka ida] ra] [[kb idb] rb] Ha Hb. simpl. intros ->. apply elem_of_map_to_list, map_lookup_filter_Some in Ha as [Ha Eka].
    apply elem_of_map_to_list, map_lookup_filter_Some in Hb as [Hb Ekb]. simpl in *. subst. f_equal. f_equal.
    apply Hk, last_filter_iff in Ha as (_ & _ & _ & <- & _). by apply Hk, last_filter_iff in Hb as (_ & _ & _ & <- & _).
  - apply sort_slice_sorted. apply _.
  - intros k' Hn. split.
    + unfold GetExternalRefs. f_equal. f_equal. f_equal. apply map_eq. intros [k1 id]. rewrite !map_lookup_filter. simpl.
      destruct (decide (k1 = k')) as [->|Hne].
      * rewrite Hr2, H1, decide_False by done. simpl. rewrite map_lookup_filter. simpl.
        destruct (xt_refs t !! (k', id)); [|done]. simpl. rewrite option_guard_True by done. done.
      * destruct (xt_refs t2 !! (k1, id)), (xt_refs t !! (k1, id)); simpl; rewrite ?option_guard_False by done; done.
    + unfold GetExternalForkErrors. f_equal. f_equal. f_equal. apply set_eq. intros x. rewrite !elem_of_filter, H2. simpl. rewrite elem_of_filter.
      split; [intros (<- & [[_ ?]|(e & _ & ->)]); done|]. intros [<- ?]. split; [done|]. by left.
  - intros e. unfold GetExternalForkErrors. rewrite elem_of_sort_slice, list_elem_of_fmap. setoid_rewrite elem_of_elements. setoid_rewrite elem_of_filter.
    setoid_rewrite H2. split.
    + intros (x & -> & <- & [[Hx _]%elem_of_filter|(e' & ? & ->)]); [done|]. by exists e'.
    + intros (e' & ? & ->). exists (k, (defaultPlatform (fe_Platform e'), fe_Message e')). split; [done|]. split; [done|]. right. by exists e'.
  - by rewrite Hu2, Hu1.
  - by rewrite Hs2, Hs1.
Qed.
End stored.

(** ** Uses *)

Section uses.
Context {A : Type} (marshal_attrs : A → result string string) (ix : Index) (k : coord).
Abbreviation site_usages := (site_usages marshal_attrs).

Definition site_ext (s : UseExtensionSite A) : string * string := (us_ExtensionFile s, us_ExtensionName s).
Definition tagged (s : UseExtensionSite A) : Prop := us_Tags s ≠ [].
#[export] Instance tagged_dec s : Decision (tagged s) := ltac:(unfold tagged; destruct (us_Tags s); [right; naive_solver|by left]).

Lemma insert_usages_spec us t : (∀ id, xt_usages t !! (k, id) = None) →
  match statements (insert_usage ix k) us t with
  | Ok t' =>
      NoDup (usage_id <$> us) ∧ (us = [] ∨ indexed ix k = true) ∧
      (∀ id u, xt_usages t' !! (k, id) = Some u ↔ u ∈ us ∧ usage_id u = id) ∧
      (∀ k' id, k' ≠ k → xt_usages t' !! (k', id) = xt_usages t !! (k', id)) ∧
      xt_refs t' = xt_refs t ∧ xt_errors t' = xt_errors t ∧ xt_sources t' = xt_sources t
  | Err _ => us ≠ [] ∧ (indexed ix k = false ∨ ¬ NoDup (usage_id <$> us))
  end.
Proof.
  intros H0. induction us as [|u us IH] using rev_ind; simpl.
  { split_and!; try done; [constructor|by left|]. intros id u. rewrite H0. split; [done|]. by intros [?%not_elem_of_nil _]. }
  rewrite statements_app, fmap_app. destruct (statements _ us t) as [t1|e]; simpl.
  2: { destruct IH as [_ IH]. split; [by destruct us|]. destruct IH as [?|Hnd]; [by left|right]. intros [? _]%NoDup_app. done. }
  destruct IH as (Hnd & Hi & Hk & Ho & Hr & He & Hs). unfold insert_usage. destruct (xt_usages t1 !! (k, usage_id u)) as [u'|] eqn:E; simpl.
  { split; [by destruct us|]. right. apply Hk in E as [Hin Hid]. intros (_ & Hd & _)%NoDup_app. apply (Hd (usage_id u)); [|by left].
    rewrite <-Hid. by apply list_elem_of_fmap_2. }
  destruct (indexed ix k) eqn:Ei; simpl; [|split; [by destruct us|by left]].
  split_and!; try done.
  - apply NoDup_app. split_and!; [done| |apply NoDup_singleton]. intros id (u' & -> & Hin)%list_elem_of_fmap Eu%list_elem_of_singleton.
    assert (xt_usages t1 !! (k, usage_id u') = Some u') as Hx by by apply Hk. congruence.
  - by right.
  - intros id u0. rewrite elem_of_app, list_elem_of_singleton. destruct (decide (id = usage_id u)) as [->|Hn].
    + rewrite lookup_insert_eq. split; [intros [= ->]; split; [by right|done]|]. intros [[Hin| ->] Hid]; [|done].
      assert (xt_usages t1 !! (k, usage_id u0) = Some u0) as Hx by by apply Hk. congruence.
    + rewrite lookup_insert_ne, Hk by congruence. naive_solver.
  - intros k' id Hn. rewrite lookup_insert_ne by congruence. by apply Ho.
Qed.

Lemma filter_fmap_compose {B C} (f : B → C) (P : C → Prop) `{∀ x, Decision (P x)} (l : list B) : filter P (f <$> l) = f <$> filter (P ∘ f) l.
Proof. induction l as [|x l IH]; [done|]. rewrite fmap_cons, !filter_cons, IH. unfold compose. by case_decide. Qed.

Lemma imap_index {B C} (f : nat → C) (l : list B) : imap (λ i _, f i) l = f <$> seq 0 (length l).
Proof. revert f. induction l as [|x l IH]; intros f; [done|]. cbn. f_equal. rewrite <-fmap_S_seq, <-list_fmap_compose. apply (IH (f ∘ S)). Qed.

Lemma site_usage_ids s : usage_id <$> site_usages s = (λ i, (site_ext s, i)) <$> seq 0 (length (us_Tags s)).
Proof. unfold Surface.site_usages. rewrite fmap_imap. apply (imap_index (λ i, (site_ext s, i))). Qed.

Lemma elem_of_usage_ids sites e i :
  (e, i) ∈ usage_id <$> (sites ≫= site_usages) ↔ ∃ s, s ∈ sites ∧ site_ext s = e ∧ i < length (us_Tags s).
Proof.
  induction sites as [|s sites IH]; [split; [by intros ?%not_elem_of_nil|by intros (? & ?%not_elem_of_nil & _)]|].
  rewrite bind_cons, fmap_app, elem_of_app, IH, site_usage_ids, list_elem_of_fmap. setoid_rewrite elem_of_seq. setoid_rewrite elem_of_cons. split.
  - intros [(j & [= -> ->] & ?)|(s' & ? & ? & ?)]; [exists s; split_and!; [by left|done|lia]|exists s'; naive_solver].
  - intros (s' & [->|?] & <- & ?); [left; exists i; split; [done|lia]|right; by exists s'].
Qed.

(** The rows of some sites have distinct keys exactly when no two sites with a tag use the
    same extension. *)
Lemma usage_ids_NoDup sites : NoDup (usage_id <$> (sites ≫= site_usages)) ↔ NoDup (site_ext <$> filter tagged sites).
Proof.
  induction sites as [|s sites IH]; [split; constructor|].
  rewrite bind_cons, fmap_app, NoDup_app, IH, filter_cons.
  assert (NoDup (usage_id <$> site_usages s)) as Hs.
  { rewrite site_usage_ids. apply NoDup_fmap; [intros ?? [= ?]; done|apply NoDup_seq]. }
  assert ((∀ x, x ∈ usage_id <$> site_usages s → x ∉ usage_id <$> (sites ≫= site_usages)) ↔
    (tagged s → site_ext s ∉ site_ext <$> filter tagged sites)) as ->.
  { split.
    - intros Hd Ht (s' & Es & [Ht' Hin]%list_elem_of_filter)%list_elem_of_fmap.
      apply (Hd (site_ext s, 0)).
      + rewrite site_usage_ids. apply list_elem_of_fmap. exists 0. split; [done|]. apply elem_of_seq. unfold tagged in Ht. destruct (us_Tags s); [done|]. simpl. lia.
      + apply elem_of_usage_ids. exists s'. split_and!; [done|done|]. unfold tagged in Ht'. destruct (us_Tags s'); [done|]. simpl. lia.
    - intros Hd [e i] Hx (s' & Hin & Es & Hi)%elem_of_usage_ids. rewrite site_usage_ids in Hx.
      apply list_elem_of_fmap in Hx as (j & [= -> ->] & Hj%elem_of_seq). apply Hd.
      + unfold tagged. intros E. rewrite E in Hj. simpl in Hj. lia.
      + rewrite <-Es. apply list_elem_of_fmap_2, list_elem_of_filter. split; [|done]. unfold tagged. intros E. rewrite E in Hi. simpl in Hi. lia. }
  case_decide as Ht.
  - rewrite fmap_cons, NoDup_cons. naive_solver.
  - naive_solver.
Qed.

Lemma elem_of_uses t file name k' u :
  (k', u) ∈ GetUseExtensionUsagesForExtension t file name ↔ ∃ i, xt_usages t !! (k', ((file, name), i)) = Some u.
Proof.
  unfold GetUseExtensionUsagesForExtension. rewrite elem_of_sort_slice, list_elem_of_fmap. split.
  - intros ([[k1 [fn i]] u'] & [= -> ->] & H%elem_of_map_to_list). apply map_lookup_filter_Some in H as [H Hf]. simpl in *. subst. by exists i.
  - intros (i & H). exists ((k', ((file, name), i)), u). split; [done|]. apply elem_of_map_to_list, map_lookup_filter_Some. done.
Qed.

#[export] Instance usage_less_weak : StrictWeak usage_less.
Proof.
  unfold usage_less. repeat (apply sw_lex; [apply _| |apply str_ltb_tricho]).
  split; intros *; rewrite ?Nat.ltb_lt, ?Nat.ltb_ge; lia.
Qed.

Lemma site_usages_sorted s : StronglySorted (not_after usage_less) (pair k <$> site_usages s).
Proof.
  eapply (StronglySorted_fmap _ (λ a b, ue_TagIndex a < ue_TagIndex b)).
  { intros a b Hab. unfold not_after, usage_less, lex_less. rewrite !decide_True by done. simpl. apply Nat.ltb_ge. lia. }
  assert (StronglySorted (λ a b, a.2 < b.2) (usage_id <$> site_usages s)) as H.
  { rewrite site_usage_ids. apply (StronglySorted_fmap _ lt); [done|]. generalize 0 as n. induction (length _) as [|m IH]; intros n; [constructor|].
    simpl. constructor; [apply IH|]. apply Forall_seq. lia. }
  induction (site_usages s) as [|u us IH]; [constructor|]. inversion_clear H as [|? ? Hl Hx]. constructor; [by apply IH|].
  rewrite Forall_fmap in Hx. exact Hx.
Qed.

(** The uses of extensions of a MODULE.bazel are stored exactly when its version is
    indexed, if there is a tag at all, and no two call sites with a tag use the same
    extension; then each such site's tags are read back, one for one and in order, among the
    uses of its extension, with nothing else of this consumer, and the rest of the tables
    stays. *)
Lemma uses_stored sites t :
  match WriteUseExtensionUsages ix k (sites ≫= site_usages) t with
  | Ok t' =>
      NoDup (site_ext <$> filter tagged sites) ∧ (filter tagged sites = [] ∨ indexed ix k = true) ∧
      (∀ s, s ∈ sites → tagged s →
         filter (λ cu, cu.1 = k) (GetUseExtensionUsagesForExtension t' (us_ExtensionFile s) (us_ExtensionName s)) = pair k <$> site_usages s) ∧
      (∀ file name, (file, name) ∉ site_ext <$> filter tagged sites →
         filter (λ cu, cu.1 = k) (GetUseExtensionUsagesForExtension t' file name) = []) ∧
      (∀ file name cu, cu.1 ≠ k → cu ∈ GetUseExtensionUsagesForExtension t' file name ↔ cu ∈ GetUseExtensionUsagesForExtension t file name) ∧
      xt_refs t' = xt_refs t ∧ xt_errors t' = xt_errors t ∧ xt_sources t' = xt_sources t
  | Err _ => filter tagged sites ≠ [] ∧ (indexed ix k = false ∨ ¬ NoDup (site_ext <$> filter tagged sites))
  end.
Proof.
  unfold WriteUseExtensionUsages. set (t0 := mkTables _ _ _ _).
  assert (∀ id, xt_usages t0 !! (k, id) = None) as H0.
  { intros id. apply map_lookup_filter_None_2. right. intros ? _ Hn. by apply Hn. }
  assert ((sites ≫= site_usages) = [] ↔ filter tagged sites = []) as Hnil.
  { induction sites as [|s sites IH]; [done|]. rewrite bind_cons, filter_cons. unfold Surface.site_usages at 1, tagged at 2.
    case_decide as Ht; unfold tagged in Ht; destruct (us_Tags s); try done. by destruct Ht. }
  pose proof (insert_usages_spec (sites ≫= site_usages) t0 H0) as H.
  destruct (statements _ _ t0) as [t'|e]; [|by rewrite usage_ids_NoDup, Hnil in H]. destruct H as (Hnd & Hi & Hk & Ho & Hr & He & Hs).
  rewrite usage_ids_NoDup in Hnd. rewrite Hnil in Hi.
  assert (∀ file name u, (k, u) ∈ GetUseExtensionUsagesForExtension t' file name ↔
    ∃ s, s ∈ sites ∧ tagged s ∧ site_ext s = (file, name) ∧ u ∈ site_usages s) as Hmine.
  { intros file name u. rewrite elem_of_uses. setoid_rewrite Hk. split.
    - intros (i & (s & Hu & Hin)%list_elem_of_bind & Hid). exists s.
      assert (usage_id u ∈ usage_id <$> site_usages s) as Hx by by apply list_elem_of_fmap_2. rewrite site_usage_ids, Hid in Hx.
      apply list_elem_of_fmap in Hx as (j & [= -> ->] & Hj%elem_of_seq). split_and!; [done| |done|done].
      unfold tagged. intros E. rewrite E in Hj. simpl in Hj. lia.
    - intros (s & Hin & _ & Es & Hu).
      assert (usage_id u ∈ usage_id <$> site_usages s) as Hx by by apply list_elem_of_fmap_2. rewrite site_usage_ids, Es in Hx.
      apply list_elem_of_fmap in Hx as (j & Hid & _). exists j. split; [|done]. apply list_elem_of_bind. by exists s. }
  assert (∀ file name, NoDup (filter (λ cu, cu.1 = k) (GetUseExtensionUsagesForExtension t' file name))) as Hnodup.
  { intros file name. unfold GetUseExtensionUsagesForExtension. rewrite sort_slice_perm, filter_fmap_compose.
    apply NoDup_fmap_2_strong; [|apply NoDup_filter, NoDup_map_to_list].
    intros [[ka ia] ua] [[kb ib] ub] [Eka Ha%elem_of_map_to_list]%list_elem_of_filter [Ekb Hb%elem_of_map_to_list]%list_elem_of_filter.
    apply map_lookup_filter_Some in Ha as [Ha _]. apply map_lookup_filter_Some in Hb as [Hb _]. unfold compose in *. simpl in *. subst.
    apply Hk in Ha as [_ <-]. apply Hk in Hb as [_ <-]. by intros [= ->]. }
  split_and!; try done.
  - intros s Hin Ht.
    assert (∀ u, (k, u) ∈ GetUseExtensionUsagesForExtension t' (us_ExtensionFile s) (us_ExtensionName s) ↔ u ∈ site_usages s) as Hs'.
    { intros u. rewrite Hmine. split; [|by exists s]. intros (s' & Hin' & Ht' & Es & Hu).
      assert (s' = s) as <-; [|done]. apply (NoDup_fmap_eq site_ext (filter tagged sites)); [done|by apply list_elem_of_filter..|done]. }
    assert (NoDup (usage_id <$> site_usages s)) as Hids.
    { rewrite site_usage_ids. apply NoDup_fmap; [intros ?? [= ?]; done|apply NoDup_seq]. }
    assert (filter (λ cu, cu.1 = k) (GetUseExtensionUsagesForExtension t' (us_ExtensionFile s) (us_ExtensionName s)) ≡ₚ pair k <$> site_usages s) as Hp.
    { apply NoDup_Permutation; [done|apply NoDup_fmap; [intros ?? [= ?]; done|by eapply NoDup_fmap_1]|].
      intros [k' u]. rewrite list_elem_of_filter, list_elem_of_fmap. simpl. split.
      - intros [-> Hu%Hs']. by exists u.
      - intros (u' & [= -> ->] & Hu%Hs'). done. }
    eapply (StronglySorted_unique_strong (not_after usage_less)); [|apply StronglySorted_filter, sort_slice_sorted; apply _|apply site_usages_sorted|done].
    intros x y Hx Hy. rewrite Hp in Hx. apply list_elem_of_fmap in Hx as (u1 & -> & Hu1). apply list_elem_of_fmap in Hy as (u2 & -> & Hu2).
    unfold not_after, usage_less, lex_less. rewrite !decide_True by done. simpl. rewrite !Nat.ltb_ge. intros H1 H2. f_equal.
    apply (NoDup_fmap_eq usage_id (site_usages s)); [done..|].
    assert (∀ u, u ∈ site_usages s → usage_id u = (site_ext s, ue_TagIndex u)) as Hid.
    { intros u Hu. assert (usage_id u ∈ usage_id <$> site_usages s) as Hx by by apply list_elem_of_fmap_2. rewrite site_usage_ids in Hx.
      apply list_elem_of_fmap in Hx as (j & Hid & _). rewrite Hid. unfold usage_id in Hid. by injection Hid as _ _ ->. }
    rewrite !Hid by done. f_equal. lia.
  - intros file name Hn. apply elem_of_nil_inv. intros [k' u] [Ek Hu]%list_elem_of_filter. simpl in Ek. subst k'.
    apply Hmine in Hu as (s & Hin & Ht & Es & _). apply Hn. rewrite <-Es. by apply list_elem_of_fmap_2, list_elem_of_filter.
  - intros file name [k' u] Hne. rewrite !elem_of_uses. simpl in Hne. setoid_rewrite Ho; [|done..]. simpl.
    setoid_rewrite map_lookup_filter_Some. simpl. naive_solver.
Qed.
End uses.

(** ** Sources *)

Lemma rel_step_dots l segs : ∃ l', foldl rel_step (".." :: l) segs = ".." :: l'.
Proof.
  revert l. induction segs as [|x segs IH]; intros l; [by exists l|]. cbn [foldl].
  assert (∃ l', rel_step (".." :: l) x = ".." :: l') as [l' ->]; [|apply IH]. unfold rel_step. case_decide; [|by eexists].
  destruct l as [|y l _] using rev_ind; [by eexists|]. rewrite app_comm_cons, last_snoc. case_decide; [by eexists|].
  rewrite length_app. change (length [y]) with 1. rewrite Nat.add_sub, take_app_length. by eexists.
Qed.

(** A path that cleans to plain segments resolves, under any directory, to them. *)
Lemma resolve_clean D l ds segs : Forall (λ x, x ≠ "" ∧ x ≠ "." ∧ slash ∉ to_bytes x) segs → Forall plain l → Forall plain ds →
  foldl rel_step l segs = ds → foldl resolve_step (D ++ l) segs = D ++ ds.
Proof.
  intros Hok. revert l. induction Hok as [|x segs (Hx1 & Hx2 & Hx3) Hok IH]; intros l Hl Hds E; cbn [foldl] in *; [by rewrite E|].
  unfold resolve_step at 2. unfold rel_step at 2 in E. destruct (decide (x = "..")) as [->|Hx].
  - destruct l as [|y l _] using rev_ind.
    + exfalso. simpl in E. destruct (rel_step_dots [] segs) as [l' E']. rewrite E' in E. subst. apply Forall_cons in Hds as [(_ & _ & Hd & _) _]. done.
    + rewrite last_snoc in E. apply Forall_app in Hl as [Hl [Hy _]%Forall_cons]. rewrite decide_False in E by apply Hy.
      rewrite app_assoc, length_app. change (length [y]) with 1. rewrite Nat.add_sub, take_app_length. apply IH; [done..|].
      rewrite length_app in E. simpl in E. by rewrite Nat.add_sub, take_app_length in E.
  - rewrite <-app_assoc. apply (IH (l ++ [x])); [|done|done]. apply Forall_app. split; [done|]. by repeat constructor.
Qed.

(** A local path stays under its directory. *)
Lemma IsLocal_under dir file : dest_ok dir → IsLocal file = true → ∃ ns, Forall plain ns ∧ join_path dir file = under dir ns.
Proof.
  intros Hdir. unfold IsLocal. case_decide as Hne; [done|]. destruct (HasPrefix file "/") eqn:Hs; [done|]. cbn zeta.
  destruct (decide ("." ∈ Split file slash ∨ ".." ∈ Split file slash)) as [Hd|Hd]; intros Hl.
  - destruct (rel_step_shape (segs file) [] 0 (segs_ok file) ltac:(constructor)) as (n & ds & E & Hds). simpl in E.
    destruct n as [|n].
    + exists ds. split; [done|]. destruct Hdir as (D & HD & Hpl & ->). unfold join_path, clean_rooted. rewrite segs_app, segs_rooted, foldl_app by done.
      rewrite (resolve_plain [] D) by by apply plain_nodd. simpl.
      assert (foldl resolve_step (D ++ []) (segs file) = D ++ ds) as Hr by (apply resolve_clean; [apply segs_ok|constructor|done|done]).
      rewrite app_nil_r in Hr. rewrite Hr. by apply Join_app_seg.
    + exfalso. unfold path_clean in Hl. rewrite Hs, E in Hl. apply negb_true_iff, orb_false_iff in Hl as [H1 H2]. apply bool_decide_eq_false in H1.
      simpl in H1, H2. destruct (replicate n ".." ++ ds) as [|y l]; [done|].
      change (HasPrefix ("../" +:+ Join (y :: l) "/") "../" = false) in H2. by rewrite HasPrefix_app in H2.
  - exists (segs file). assert (".." ∉ Split file slash) as Hn by naive_solver. split; [by apply segs_plain|by apply join_path_under].
Qed.

Section sources.
Context (R1 R2 : string → file_read) (moduleDir : string).

Lemma read_sources_spec R seen files :
  let l := read_sources R moduleDir seen files in
  NoDup (ms_File <$> l) ∧ (∀ s, s ∈ l ↔ (ms_File s ∈ files) ∧ (ms_File s ∉ seen) ∧ IsLocal (ms_File s) = true ∧
    R (join_path moduleDir (ms_File s)) = Content (ms_Content s)).
Proof.
  revert seen. induction files as [|file files IH]; intros seen; cbn zeta; cbn [read_sources].
  { split; [constructor|]. intros s. split; [by intros ?%not_elem_of_nil|by intros [?%not_elem_of_nil _]]. }
  case_decide as Hf.
  { destruct (IH seen) as [Hnd Hin]. split; [done|]. intros s. rewrite Hin, elem_of_cons. split; [naive_solver|].
    intros ([E|?] & Hs & Hl & Hr); [|done]. rewrite E in Hs, Hl. destruct Hf as [->|?]; [done|done]. }
  apply Decidable.not_or in Hf as [Hne Hseen]. destruct (IH ({[file]} ∪ seen)) as [Hnd Hin].
  assert (∀ s, s ∈ read_sources R moduleDir ({[file]} ∪ seen) files → ms_File s ≠ file) as Hother.
  { intros s (_ & Hs & _)%Hin. set_solver. }
  destruct (IsLocal file) eqn:Hl; cbn [negb].
  - destruct (R (join_path moduleDir file)) as [data| |e] eqn:Hr.
    + split.
      * rewrite fmap_cons, NoDup_cons. split; [|done]. intros (s & E & Hs)%list_elem_of_fmap. by apply (Hother s).
      * intros s. rewrite !elem_of_cons, Hin. split.
        -- intros [->|(? & ? & ? & ?)]; [split_and!; [by left|done..]|split_and!; [by right|set_solver|done..]].
        -- intros ([E|?] & Hs & Hls & Hrs); [left; destruct s as [f c]; simpl in *; subst; congruence|].
           destruct (decide (ms_File s = file)) as [E|Hn]; [left; destruct s as [f c]; simpl in *; subst; congruence|]. right. set_solver.
    + split; [done|]. intros s. rewrite elem_of_cons, Hin. split; [intros (? & ? & ? & ?); split_and!; [by right|set_solver|done..]|].
      intros (Hf & Hs & Hls & Hrs). assert (ms_File s ≠ file) by congruence. set_solver.
    + split; [done|]. intros s. rewrite elem_of_cons, Hin. split; [intros (? & ? & ? & ?); split_and!; [by right|set_solver|done..]|].
      intros (Hf & Hs & Hls & Hrs). assert (ms_File s ≠ file) by congruence. set_solver.
  - split; [done|]. intros s. rewrite elem_of_cons, Hin. split; [intros (? & ? & ? & ?); split_and!; [by right|set_solver|done..]|].
    intros (Hf & Hs & Hls & Hrs). assert (ms_File s ≠ file) by congruence. set_solver.
Qed.

Lemma read_sources_agree seen files :
  (∀ file, IsLocal file = true → R1 (join_path moduleDir file) = R2 (join_path moduleDir file)) →
  read_sources R1 moduleDir seen files = read_sources R2 moduleDir seen files.
Proof.
  intros HR. revert seen. induction files as [|file files IH]; intros seen; cbn [read_sources]; [done|]. case_decide; [done|].
  destruct (IsLocal file) eqn:Hl; cbn [negb]; [|done]. rewrite (HR file Hl), !IH. done.
Qed.

(** The sources kept of a module are those of the files its extensions are declared in,
    each once, that are local and can be read; and nothing outside the module's directory
    has a say in them: whatever the report names, two machines that agree under the
    directory keep the same. *)
Theorem sources_confined (Hdir : dest_ok moduleDir) (Hagree : ∀ ns, Forall plain ns → R1 (under moduleDir ns) = R2 (under moduleDir ns)) rep :
  readExtensionSources R1 moduleDir rep = readExtensionSources R2 moduleDir rep ∧
  NoDup (ms_File <$> readExtensionSources R1 moduleDir rep) ∧
  ∀ s, s ∈ readExtensionSources R1 moduleDir rep ↔
    (∃ e, e ∈ rep_ModuleExtensions rep ∧ prov_File (ext_Provenance e) = ms_File s) ∧ IsLocal (ms_File s) = true ∧
    R1 (join_path moduleDir (ms_File s)) = Content (ms_Content s).
Proof.
  split.
  - apply read_sources_agree. intros file Hl. destruct (IsLocal_under moduleDir file Hdir Hl) as (ns & Hns & ->). by apply Hagree.
  - unfold readExtensionSources. destruct (read_sources_spec R1 ∅ (prov_File ∘ ext_Provenance <$> rep_ModuleExtensions rep)) as [Hnd Hin].
    split; [done|]. intros s. rewrite Hin, list_elem_of_fmap. unfold compose. split.
    + intros ((e & -> & He) & _ & ? & ?). split_and!; [by exists e|done|done].
    + intros ((e & E & He) & ? & ?). split_and!; [by exists e|apply not_elem_of_empty|done|done].
Qed.
End sources.

(** ** The specs of the consumers *)

Section specs.
Context {A V : Type} (anyMapToStarlark : A → V).
Abbreviation spec_turn := (spec_turn anyMapToStarlark).

(** The calls of a consumer with a tag. *)
Definition tag_calls (key tag : string) (cs : list (ExtensionConsumerCall A)) : list V :=
  anyMapToStarlark ∘ cc_TagAttrs <$> filter (λ c, consumer_key c = key ∧ cc_TagName c = tag) cs.

(** A spec holds the calls of its consumer, tag by tag. *)
Definition spec_of (cs : list (ExtensionConsumerCall A)) (key : string) (s : ModuleSpec V) : Prop :=
  mp_IsRoot s = false ∧ (∃ c, c ∈ cs ∧ consumer_key c = key ∧ mp_Name s = cc_ConsumerModule c ∧ mp_Version s = cc_ConsumerVersion c) ∧
  ∀ tag, default [] (mp_Tags s !! tag) = tag_calls key tag cs.

Lemma tag_calls_snoc key tag cs c :
  tag_calls key tag (cs ++ [c]) = tag_calls key tag cs ++ (if decide (consumer_key c = key ∧ cc_TagName c = tag) then [anyMapToStarlark (cc_TagAttrs c)] else []).
Proof. unfold tag_calls. rewrite filter_app, fmap_app, filter_cons, filter_nil. by case_decide. Qed.

Lemma spec_of_other cs c key s : key ≠ consumer_key c → spec_of cs key s → spec_of (cs ++ [c]) key s.
Proof.
  intros Hn (Hr & (c0 & Hin & ?) & Ht). split; [done|]. split; [exists c0; split; [apply elem_of_app; by left|done]|].
  intros tag. rewrite tag_calls_snoc, decide_False, app_nil_r by (intros [? _]; congruence). apply Ht.
Qed.

Lemma add_tag_spec cs c s : mp_IsRoot s = false → (∀ tag, default [] (mp_Tags s !! tag) = tag_calls (consumer_key c) tag cs) →
  (∃ c0, c0 ∈ cs ++ [c] ∧ consumer_key c0 = consumer_key c ∧ mp_Name s = cc_ConsumerModule c0 ∧ mp_Version s = cc_ConsumerVersion c0) →
  spec_of (cs ++ [c]) (consumer_key c) (add_tag anyMapToStarlark c s).
Proof.
  intros Hr Ht Hc. split; [done|]. split; [exact Hc|]. intros tag. simpl. rewrite tag_calls_snoc.
  destruct (decide (cc_TagName c = tag)) as [<-|Hn].
  - rewrite lookup_insert_eq, decide_True by done. simpl. by rewrite Ht.
  - rewrite lookup_insert_ne, decide_False, app_nil_r by naive_solver. apply Ht.
Qed.

Lemma spec_turn_spec cs c S : NoDup S.*1 → (∀ ks, ks ∈ S → spec_of cs ks.1 ks.2) → (∀ key, key ∈ S.*1 ↔ key ∈ consumer_key <$> cs) →
  let S' := spec_turn c S in
  S'.*1 = (if decide (consumer_key c ∈ S.*1) then S.*1 else S.*1 ++ [consumer_key c]) ∧ ∀ ks, ks ∈ S' → spec_of (cs ++ [c]) ks.1 ks.2.
Proof.
  intros Hnd Hs Hk. cbn zeta.
  assert (consumer_key c ∈ S.*1 ∨ ∀ tag, tag_calls (consumer_key c) tag cs = []) as Hnew.
  { destruct (decide (consumer_key c ∈ S.*1)) as [?|Hn]; [by left|right]. intros tag. unfold tag_calls. rewrite filter_none; [done|].
    apply Forall_forall. intros c0 Hc0 [E _]. apply Hn, Hk. rewrite <-E. by apply list_elem_of_fmap_2. }
  clear Hk. induction S as [|[key s] S IH]; cbn [Surface.spec_turn].
  - split; [done|]. intros ks ->%list_elem_of_singleton. cbn [fst snd]. apply add_tag_spec; [done| |].
    + intros tag. simpl. rewrite lookup_empty. destruct Hnew as [?%not_elem_of_nil|Hn]; [done|]. by rewrite Hn.
    + exists c. split; [apply elem_of_app; right; by left|done].
  - apply NoDup_cons in Hnd as [Hkey Hnd]. destruct (decide (key = consumer_key c)) as [->|Hn].
    + split; [by rewrite decide_True by by left|]. intros ks [->|Hin]%elem_of_cons.
      * destruct (Hs (consumer_key c, s)) as (Hr & (c0 & Hin & Hc0) & Ht); [by left|]. cbn [fst snd] in *. apply add_tag_spec; [done..|].
        exists c0. split; [apply elem_of_app; by left|done].
      * apply spec_of_other; [|apply Hs; by right]. intros E. apply Hkey. simpl. rewrite <-E. by apply list_elem_of_fmap_2.
    + destruct IH as [IHk IHs]; [done|intros ks Hin; apply Hs; by right| |].
      { destruct Hnew as [[E|?]%elem_of_cons|?]; [by destruct Hn|by left|by right]. }
      split.
      * rewrite fmap_cons, IHk. cbn [fst]. change ((key, s) :: S).*1 with (key :: S.*1). 
        destruct (decide (consumer_key c ∈ S.*1)) as [Hin|Hni]; [by rewrite decide_True by by right|].
        rewrite decide_False; [done|]. by intros [?|?]%elem_of_cons.
      * intros ks [->|Hin]%elem_of_cons; [apply spec_of_other; [done|apply (Hs (key, s)); by left]|by apply IHs].
Qed.

(** The specs: one for each consumer. *)
Lemma specs_spec cs :
  let S := foldl (λ specs c, spec_turn c specs) [] cs in
  NoDup S.*1 ∧ (∀ key, key ∈ S.*1 ↔ key ∈ consumer_key <$> cs) ∧ ∀ ks, ks ∈ S → spec_of cs ks.1 ks.2.
Proof.
  induction cs as [|c cs IH] using rev_ind; cbn zeta.
  { split; [constructor|]. split; [done|]. by intros ? ?%not_elem_of_nil. }
  rewrite foldl_app. cbn [foldl]. destruct IH as (Hnd & Hk & Hs). set (S := foldl _ [] cs) in *.
  destruct (spec_turn_spec cs c S Hnd Hs Hk) as [E Hs']. split_and!; [|intros key|done]; rewrite E, ?fmap_app; case_decide as Hin.
  - done.
  - apply NoDup_app. split_and!; [done|intros x Hx ->%list_elem_of_singleton; done|apply NoDup_singleton].
  - rewrite Hk, elem_of_app. rewrite Hk in Hin. change (consumer_key <$> [c]) with [consumer_key c]. rewrite list_elem_of_singleton. naive_solver.
  - by rewrite !elem_of_app, Hk.
Qed.
End specs.

(** ** From a MODULE.bazel to the interpreter *)

Lemma statements_keep {A S B} (f : A → S → result string S) (P : S → B) l s s' :
  (∀ x s s', f x s = Ok s' → P s' = P s) → statements f l s = Ok s' → P s' = P s.
Proof.
  intros Hf. revert s. induction l as [|x l IH]; intros s E; simpl in E; [by injection E as ->|].
  destruct (f x s) as [s1|e] eqn:Ef; [|done]. simpl in E. rewrite (IH s1 E). by eapply Hf.
Qed.

Lemma filter_imap {A B C} (g : nat → A → B) (f : B → C) (f' : A → C) (P : B → Prop) (P' : A → Prop)
    `{∀ x, Decision (P x), ∀ x, Decision (P' x)} (l : list A) :
  (∀ i x, f (g i x) = f' x) → (∀ i x, P (g i x) ↔ P' x) → f <$> filter P (imap g l) = f' <$> filter P' l.
Proof.
  revert g. induction l as [|x l IH]; intros g Hf HP; [done|]. cbn [imap]. rewrite !filter_cons.
  destruct (decide (P' x)) as [Hx|Hx].
  - rewrite decide_True by by apply HP. rewrite !fmap_cons, Hf, IH; [done| |]; intros; [apply Hf|apply HP].
  - rewrite decide_False by by rewrite HP. apply IH; intros; [apply Hf|apply HP].
Qed.

Section corpus.
Context {A V : Type} (quoted : string → string).
Context (Analyze : string → gset string → result string AnalyzeResult) (ReadFile : string → file_read).
Context (ParseContent : string → result string (option (list (statement A)))) (marshal_attrs : A → result string string).
Context (unmarshal_attrs : string → A) (nil_attrs : A) (anyMapToStarlark : A → V).
Abbreviation IngestModule := (IngestModule quoted Analyze ReadFile ParseContent marshal_attrs).
Abbreviation site_usages := (site_usages marshal_attrs).
Abbreviation consumer_call := (consumer_call unmarshal_attrs nil_attrs).
Abbreviation corpusUsagesForExtensions := (corpusUsagesForExtensions unmarshal_attrs nil_attrs).
Abbreviation buildModuleSpecsFromConsumers := (buildModuleSpecsFromConsumers anyMapToStarlark).

(** What the interpreter is given for the attributes of a tag. *)
Definition handed (a : A) : V := anyMapToStarlark (read_attrs unmarshal_attrs nil_attrs (attrs_json marshal_attrs a)).

Lemma store_sources_usages ix dir rep t t' : store_sources ReadFile ix dir rep t = (None, t') → xt_usages t' = xt_usages t.
Proof.
  unfold store_sources. case_decide; [by intros [= ->]|]. unfold WriteModuleExtensionSources.
  destruct (statements _ _ _) as [t1|e] eqn:E; [|done]. intros [= ->].
  apply (statements_keep _ xt_usages) in E; [done|]. intros x s s'. unfold insert_source.
  destruct (xt_sources s !! _); [done|]. destruct (indexed ix (coord_of rep)); [|done]. by intros [= <-].
Qed.

(** What an ingest that succeeds has stored of the uses. *)
Lemma ingest_uses ix dir rep t t' data sites :
  IngestModule ix dir rep t = (None, t') → ReadFile (join_path dir "MODULE.bazel") = Content data →
  ScanUseExtensions ParseContent data = Ok sites →
  ∃ t1 t2, WriteUseExtensionUsages ix (coord_of rep) (sites ≫= site_usages) t1 = Ok t2 ∧ xt_usages t' = xt_usages t2.
Proof.
  unfold Surface.IngestModule, scanMODULEBazelUsages. intros H Hr Hs. rewrite Hr, Hs in H. cbn [mbind result_bind] in H.
  destruct (Analyze _ _) as [res|]; [|done]. destruct (WriteExternalRefs _ _ _ _ _ _) as [t1|]; [|done].
  destruct (WriteUseExtensionUsages _ _ _ _) as [t2|e] eqn:E; [|done]. exists t1, t2. split; [done|]. by eapply store_sources_usages.
Qed.

Lemma uses_eq t t' file name : xt_usages t' = xt_usages t → GetUseExtensionUsagesForExtension t' file name = GetUseExtensionUsagesForExtension t file name.
Proof. unfold GetUseExtensionUsagesForExtension. by intros ->. Qed.

Lemma consumer_key_inj k (c : ExtensionConsumerCall A) : Strings.plain "@" k.1 → Strings.plain "@" (cc_ConsumerModule c) →
  consumer_key c = k.1 +:+ "@" +:+ k.2 → (cc_ConsumerModule c, cc_ConsumerVersion c) = k.
Proof. intros Hk Hc E. apply plain_sep_inj in E as [-> ->]; [by destruct k|done..]. Qed.

(** A module whose ingest succeeds hands what its MODULE.bazel says of an extension to
    the interpreter of that extension: the surface of the extension's module lists the
    consumer's tags of the extension, one for one and in their order, and nothing else as
    that consumer's; and the interpreter is given a spec of the consumer, not as root, with
    exactly these tags under their names, their attributes as the codec brings them back.
    Names must not hold the separator of the keys. *)
Theorem corpus_exact ix dir rep t t' data sites p e s
    (Hingest : IngestModule ix dir rep t = (None, t')) (Hread : ReadFile (join_path dir "MODULE.bazel") = Content data)
    (Hscan : ScanUseExtensions ParseContent data = Ok sites) (Hsite : s ∈ sites) (Htagged : tagged s)
    (Hext : e ∈ rep_ModuleExtensions p) (Hlabel : extensionApparentLabel (rep_Name p) (prov_File (ext_Provenance e)) = us_ExtensionFile s)
    (Hname : ext_Name e = us_ExtensionName s) (Hne : us_ExtensionFile s ≠ "")
    (Hplain : ∀ kid, is_Some (xt_usages t' !! kid) → Strings.plain "@" kid.1.1) :
  ∃ cu, cu ∈ corpusUsagesForExtensions t' p ∧ cu_ExtensionFile cu = us_ExtensionFile s ∧ cu_ExtensionName cu = us_ExtensionName s ∧
    filter (λ c, (cc_ConsumerModule c, cc_ConsumerVersion c) = coord_of rep) (cu_Consumers cu) =
      (λ u, consumer_call (coord_of rep, u)) <$> site_usages s ∧
    ∃ spec, spec ∈ buildModuleSpecsFromConsumers (cu_Consumers cu) ∧ (mp_Name spec, mp_Version spec) = coord_of rep ∧ mp_IsRoot spec = false ∧
      ∀ tag, default [] (mp_Tags spec !! tag) = (λ tg, handed (tg_Attrs tg)) <$> filter (λ tg, tg_Name tg = tag) (us_Tags s).
Proof.
  destruct (ingest_uses _ _ _ _ _ _ _ Hingest Hread Hscan) as (t1 & t2 & Hw & Hu).
  pose proof (uses_stored marshal_attrs ix (coord_of rep) sites t1) as H. rewrite Hw in H. destruct H as (_ & _ & Hmine & _).
  specialize (Hmine s Hsite Htagged). rewrite <-(uses_eq _ _ _ _ Hu) in Hmine.
  set (L := GetUseExtensionUsagesForExtension t' (us_ExtensionFile s) (us_ExtensionName s)) in *. set (k := coord_of rep) in *.
  assert (∀ x, x ∈ L → Strings.plain "@" x.1.1) as HL.
  { intros [k' u] (i & Hx)%elem_of_uses. apply (Hplain _ (mk_is_Some _ _ Hx)). }
  destruct (us_Tags s) as [|tg0 tgs] eqn:Etags; [by destruct Htagged|].
  assert (∃ u, u ∈ site_usages s ∧ (k, u) ∈ L) as (u0 & Hu0 & Hin0).
  { assert (∃ u, u ∈ site_usages s) as [u Hu0]; [unfold Surface.site_usages; rewrite Etags; eexists; by left|].
    exists u. split; [done|]. apply (list_elem_of_filter (λ cu : coord * _, cu.1 = k)). rewrite Hmine. by apply list_elem_of_fmap_2. }
  exists (mkCorpusUsage (us_ExtensionFile s) (us_ExtensionName s) (consumer_call <$> L)). cbn [cu_ExtensionFile cu_ExtensionName cu_Consumers].
  assert (filter (λ c, (cc_ConsumerModule c, cc_ConsumerVersion c) = k) (consumer_call <$> L) = (λ u, consumer_call (k, u)) <$> site_usages s) as Hf.
  { rewrite filter_fmap_compose, (list_filter_iff' _ (λ cu : coord * _, cu.1 = k)); [by rewrite Hmine, <-list_fmap_compose|].
    intros [[m v] u] _. unfold compose. simpl. done. }
  split_and!; [|done..|].
  { apply list_elem_of_omap. exists e. split; [done|]. unfold corpus_usage. rewrite Hlabel, Hname, decide_False by done. fold L.
    by destruct L; [apply elem_of_nil in Hin0|]. }
  destruct (specs_spec anyMapToStarlark (consumer_call <$> L)) as (_ & Hkeys & Hspec).
  assert (k.1 +:+ "@" +:+ k.2 ∈ (foldl (λ specs c, spec_turn anyMapToStarlark c specs) [] (consumer_call <$> L)).*1) as ([key spec] & Ekey & Hin)%list_elem_of_fmap.
  { apply Hkeys. apply list_elem_of_fmap. exists (consumer_call (k, u0)). split; [done|]. by apply list_elem_of_fmap_2. }
  simpl in Ekey. subst key. exists spec. split; [apply list_elem_of_fmap; by exists (k.1 +:+ "@" +:+ k.2, spec)|].
  destruct (Hspec _ Hin) as (Hroot & (c & Hc & Ec & En & Ev) & Ht). cbn [fst snd] in *.
  pose proof (HL _ Hin0) as Hk. cbn [fst] in Hk.
  assert (∀ c, c ∈ consumer_call <$> L → Strings.plain "@" (cc_ConsumerModule c)) as HcL.
  { intros c' (x & -> & Hx)%list_elem_of_fmap. by apply HL. }
  split; [rewrite En, Ev; apply consumer_key_inj; [done|by apply HcL|done]|]. split; [done|]. intros tag. rewrite Ht. unfold tag_calls.
  rewrite <-Etags.
  rewrite (list_filter_iff' _ (λ c, cc_TagName c = tag ∧ (cc_ConsumerModule c, cc_ConsumerVersion c) = k)).
  2: { intros c' Hc'. split; intros [H1 H2].
    - split; [done|]. by apply consumer_key_inj; [|apply HcL|].
    - split; [|done]. exact (f_equal (λ x : coord, x.1 +:+ "@" +:+ x.2) H2). }
  rewrite <-list_filter_filter, Hf.
  rewrite filter_fmap_compose, <-list_fmap_compose. apply filter_imap; done.
Qed.
End corpus.

Section refused.
Context {A : Type} (quoted : string → string).
Context (Analyze : string → gset string → result string AnalyzeResult) (ReadFile : string → file_read).
Context (ParseContent : string → result string (option (list (statement A)))) (marshal_attrs : A → result string string).

(** A MODULE.bazel that uses one extension at two call sites with tags, as one for
    development beside another is written, fails the ingest of its surface, whatever the
    rest: none of its uses is stored, and none of its sources. *)
Theorem double_use_refused ix dir rep t data sites
    (Hread : ReadFile (join_path dir "MODULE.bazel") = Content data) (Hscan : ScanUseExtensions ParseContent data = Ok sites)
    (Hdouble : ¬ NoDup (site_ext <$> filter tagged sites)) :
  let r := IngestModule quoted Analyze ReadFile ParseContent marshal_attrs ix dir rep t in
  is_Some r.1 ∧ xt_usages r.2 = xt_usages t ∧ xt_sources r.2 = xt_sources t.
Proof.
  cbn zeta. unfold IngestModule. destruct (Analyze _ _) as [res|e]; [|split_and!; [by eexists|done..]].
  destruct (WriteExternalRefs _ _ _ _ _ _) as [t1|e] eqn:E1; [|split_and!; [by eexists|done..]].
  assert (xt_usages t1 = xt_usages t ∧ xt_sources t1 = xt_sources t) as [Hu Hs].
  { pose proof (refs_written quoted ix (coord_of rep) (an_Refs res) (an_ForkErrors res) t) as H. rewrite E1 in H. by destruct H as (_ & _ & _ & _ & _ & ? & ?). }
  unfold scanMODULEBazelUsages. rewrite Hread, Hscan. cbn [mbind result_bind].
  pose proof (uses_stored marshal_attrs ix (coord_of rep) sites t1) as H.
  destruct (WriteUseExtensionUsages _ _ _ _) as [t2|e]; [by destruct H as [? _]|]. cbn [fst snd]. split_and!; [by eexists|done..].
Qed.
End refused.

(** ** The surface of a closure *)

(** The first of each key. *)
Fixpoint firsts (seen : gset (string * string * string)) (l : list SurfaceRef) : list SurfaceRef :=
  match l with
  | [] => []
  | x :: l => if decide (refKey x ∈ seen) then firsts seen l else x :: firsts ({[refKey x]} ∪ seen) l
  end.

Lemma elem_of_firsts seen l x :
  x ∈ firsts seen l ↔ ∃ l1 l2, l = l1 ++ x :: l2 ∧ (refKey x ∉ seen) ∧ (refKey x ∉ refKey <$> l1).
Proof.
  revert seen. induction l as [|y l IH]; intros seen; cbn [firsts].
  { split; [by intros ?%not_elem_of_nil|]. by intros ([] & l2 & ? & _). }
  case_decide as Hy.
  - rewrite IH. split.
    + intros (l1 & l2 & -> & Hs & Hl). exists (y :: l1), l2. split_and!; [done|done|]. rewrite fmap_cons, not_elem_of_cons. split; [congruence|done].
    + intros ([|z l1] & l2 & E & Hs & Hl); simpl in E; injection E as -> ->; [done|]. apply not_elem_of_cons in Hl as [_ Hl]. by exists l1, l2.
  - rewrite elem_of_cons, IH. split.
    + intros [->|(l1 & l2 & -> & Hs & Hl)]; [exists [], l; split_and!; [done|done|apply not_elem_of_nil]|].
      apply not_elem_of_union in Hs as [Hxy%not_elem_of_singleton Hs].
      exists (y :: l1), l2. split_and!; [done|done|]. rewrite fmap_cons, not_elem_of_cons. done.
    + intros ([|z l1] & l2 & E & Hs & Hl); simpl in E; injection E as -> ->; [by left|right]. apply not_elem_of_cons in Hl as [Hn Hl].
      exists l1, l2. split_and!; [done| |done]. by apply not_elem_of_union; split; [apply not_elem_of_singleton|].
Qed.

Lemma firsts_NoDup seen l : NoDup (refKey <$> firsts seen l) ∧ ∀ x, x ∈ firsts seen l → refKey x ∉ seen.
Proof.
  revert seen. induction l as [|y l IH]; intros seen; cbn [firsts]; [split; [constructor|by intros ? ?%not_elem_of_nil]|].
  case_decide as Hy; [apply IH|]. destruct (IH ({[refKey y]} ∪ seen)) as [Hnd Hs]. split.
  - rewrite fmap_cons, NoDup_cons. split; [|done]. intros (x & E & Hx)%list_elem_of_fmap. apply Hs in Hx. apply Hx, elem_of_union_l. by rewrite E; apply elem_of_singleton.
  - intros x [->|Hx]%elem_of_cons; [done|]. apply Hs in Hx. intros ?. by apply Hx, elem_of_union_r.
Qed.

Lemma firsts_covers l x : x ∈ l → refKey x ∈ refKey <$> firsts ∅ l.
Proof.
  intros (l1 & l2 & ->)%list_elem_of_split.
  assert (∃ y l1' l2', l1 ++ x :: l2 = l1' ++ y :: l2' ∧ refKey y = refKey x ∧ refKey x ∉ refKey <$> l1') as (y & l1' & l2' & -> & E & Hl).
  { induction l1 as [|z l1 IH]; [exists x, [], l2; split_and!; [done|done|apply not_elem_of_nil]|].
    destruct (decide (refKey z = refKey x)) as [E|Hn]; [exists z, [], (l1 ++ x :: l2); split_and!; [done|done|apply not_elem_of_nil]|].
    destruct IH as (y & l1' & l2' & El & E & Hl). cbn [app]. rewrite El. exists y, (z :: l1'), l2'. split_and!; [done|done|].
    rewrite fmap_cons, not_elem_of_cons. done. }
  apply list_elem_of_fmap. exists y. split; [done|]. apply elem_of_firsts. exists l1', l2'. rewrite E. split_and!; [done|apply not_elem_of_empty|done].
Qed.

Lemma firsts_app seen a b : firsts seen (a ++ b) = firsts seen a ++ firsts (list_to_set (refKey <$> a) ∪ seen) b.
Proof.
  revert seen. induction a as [|x a IH]; intros seen; cbn [app firsts].
  - f_equal. by rewrite fmap_nil, list_to_set_nil, union_empty_l_L.
  - rewrite fmap_cons, list_to_set_cons. case_decide as Hx.
    + rewrite IH. f_equal. f_equal. apply set_eq. intros z. rewrite !elem_of_union, elem_of_singleton. naive_solver.
    + rewrite IH, <-app_comm_cons. f_equal. f_equal. f_equal. by rewrite !(assoc_L (∪)), (comm_L (∪) {[refKey x]}).
Qed.

(** The count of each class that has a name. *)
Lemma count_classes m l c : c ≠ "" →
  default 0 (foldl count_class m l !! c) = default 0 (m !! c) + length (filter (λ x, x = c) l).
Proof.
  intros Hc. revert m. induction l as [|x l IH]; intros m; cbn [foldl]; [simpl; lia|].
  rewrite IH. unfold count_class. rewrite filter_cons. destruct (decide (x = "")) as [->|Hx].
  - by rewrite decide_False.
  - destruct (decide (x = c)) as [->|Hn].
    + rewrite lookup_insert_eq. simpl. lia.
    + by rewrite lookup_insert_ne.
Qed.
Lemma count_nameless m l : m !! "" = None → foldl count_class m l !! "" = None.
Proof.
  revert m. induction l as [|x l IH]; intros m Hm; cbn [foldl]; [done|]. apply IH. unfold count_class.
  case_decide; [done|]. by rewrite lookup_insert_ne.
Qed.

Section airgap.
Context {A V : Type}.
Context (decode_report : string → result string ModuleReport) (unmarshal_attrs : string → A) (nil_attrs : A) (anyMapToStarlark : A → V).
Context (DriveExtensionFromSource : string → string → string → list (ModuleSpec V) → result string (list ExternalRef)).
Context (read_fails : coord → option string) (ix : Index) (t : Tables).
Abbreviation ExternalSurface := (ExternalSurface decode_report unmarshal_attrs nil_attrs anyMapToStarlark DriveExtensionFromSource read_fails ix t).
Abbreviation node_turn := (node_turn decode_report unmarshal_attrs nil_attrs anyMapToStarlark DriveExtensionFromSource read_fails ix t).
Abbreviation surface_of_graph := (surface_of_graph decode_report unmarshal_attrs nil_attrs anyMapToStarlark DriveExtensionFromSource read_fails ix t).
Abbreviation AirgapSurface := (AirgapSurface decode_report unmarshal_attrs nil_attrs anyMapToStarlark DriveExtensionFromSource read_fails ix t).

(** What a node brings: its surface, its references with its name on them, its row. *)
Definition node_id (n : ClosureNode) : string := cn_Name n +:+ "@" +:+ cn_Version n.
Definition node_surface (n : ClosureNode) : option (ExternalSurfaceResponse A) :=
  if cn_External n then None else match ExternalSurface (cn_Name n, cn_Version n) with Ok sub => Some sub | Err _ => None end.
Definition signed (id : string) (r : SurfaceRef) : SurfaceRef := mkSurfaceRef (sr_Ref r) (sr_Confidence r) id.
Definition brought (n : ClosureNode) : list SurfaceRef :=
  match node_surface n with Some sub => signed (node_id n) <$> su_Refs sub | None => [] end.
Definition node_row (n : ClosureNode) : ClosureSurfaceModule :=
  match node_surface n with
  | Some sub => mkSurfaceModule (cn_Name n) (cn_Version n) (length (su_Refs sub)) (su_ClassCounts sub) false
  | None => mkSurfaceModule (cn_Name n) (cn_Version n) 0 ∅ (cn_External n)
  end.
Definition node_errors (n : ClosureNode) : list ExternalForkError := match node_surface n with Some sub => su_ForkErrors sub | None => [] end.
Definition class_of (r : SurfaceRef) : string := xr_Class (sr_Ref r).

Lemma ref_turns id l seen resp :
  foldl (ref_turn id) (seen, resp) l =
    (list_to_set (refKey <$> l) ∪ seen,
     mkClosureSurface (sc_Root resp) (sc_Modules resp) (sc_Refs resp ++ firsts seen (signed id <$> l)) (sc_ForkErrors resp)
       (foldl count_class (sc_ClassCounts resp) (class_of <$> firsts seen (signed id <$> l))) (sc_MaxDepthReached resp) (sc_MissingModules resp)).
Proof.
  revert seen resp. induction l as [|r l IH]; intros seen resp; cbn [foldl].
  - cbn [fmap list_fmap firsts foldl]. rewrite list_to_set_nil, union_empty_l_L, app_nil_r. by destruct resp.
  - rewrite !fmap_cons, list_to_set_cons. cbn [firsts]. change (refKey (signed id r)) with (refKey r). unfold ref_turn at 2. cbn [fst snd]. case_decide as Hr.
    + rewrite IH. f_equal. apply set_eq. intros z. rewrite !elem_of_union, elem_of_singleton. naive_solver.
    + rewrite IH. cbn [sc_Root sc_Modules sc_Refs sc_ForkErrors sc_ClassCounts sc_MaxDepthReached sc_MissingModules]. f_equal.
      * by rewrite !(assoc_L (∪)), (comm_L (∪) {[refKey r]}).
      * rewrite <-app_assoc, fmap_cons. done.
Qed.

Lemma node_turns nodes seen resp :
  foldl node_turn (seen, resp) nodes =
    (list_to_set (refKey <$> (nodes ≫= brought)) ∪ seen,
     mkClosureSurface (sc_Root resp) (sc_Modules resp ++ (node_row <$> nodes)) (sc_Refs resp ++ firsts seen (nodes ≫= brought))
       (sc_ForkErrors resp ++ (nodes ≫= node_errors)) (foldl count_class (sc_ClassCounts resp) (class_of <$> firsts seen (nodes ≫= brought)))
       (sc_MaxDepthReached resp) (sc_MissingModules resp ++ (node_id <$> filter (λ n, cn_External n = true) nodes))).
Proof.
  revert seen resp. induction nodes as [|n nodes IH]; intros seen resp; cbn [foldl].
  { cbn [mbind list_bind fmap list_fmap firsts foldl filter list_filter]. rewrite list_to_set_nil, union_empty_l_L, !app_nil_r. by destruct resp. }
  rewrite !bind_cons, !fmap_cons, filter_cons, fmap_app, list_to_set_app_L, firsts_app, fmap_app, foldl_app.
  assert (node_turn (seen, resp) n = (list_to_set (refKey <$> brought n) ∪ seen,
     mkClosureSurface (sc_Root resp) (sc_Modules resp ++ [node_row n]) (sc_Refs resp ++ firsts seen (brought n)) (sc_ForkErrors resp ++ node_errors n)
       (foldl count_class (sc_ClassCounts resp) (class_of <$> firsts seen (brought n))) (sc_MaxDepthReached resp)
       (sc_MissingModules resp ++ (if cn_External n then [node_id n] else [])))) as ->.
  { unfold Surface.node_turn, brought, node_row, node_errors, node_surface. cbn zeta. destruct (cn_External n) eqn:E.
    - cbn [fst snd fmap list_fmap firsts foldl]. by rewrite list_to_set_nil, union_empty_l_L, !app_nil_r.
    - destruct (ExternalSurface _) as [sub|e].
      + cbn [fst snd]. rewrite ref_turns. cbn [fst snd sc_Root sc_Modules sc_Refs sc_ForkErrors sc_ClassCounts sc_MaxDepthReached sc_MissingModules].
        rewrite !app_nil_r, <-list_fmap_compose. done.
      + cbn [fst snd fmap list_fmap firsts foldl]. by rewrite list_to_set_nil, union_empty_l_L, !app_nil_r. }
  rewrite IH. cbn [sc_Root sc_Modules sc_Refs sc_ForkErrors sc_ClassCounts sc_MaxDepthReached sc_MissingModules]. rewrite <-!app_assoc.
  f_equal; [by rewrite (assoc_L (∪)), (comm_L (∪) (list_to_set (refKey <$> (nodes ≫= brought))))|]. f_equal.
  destruct (cn_External n); [by rewrite decide_True|by rewrite decide_False].
Qed.

(** C18: The surface of a closure comes back, and covers it: a row for each node of the
    dependency graph, in its order, with what the node's own surface counts; as missing
    exactly the nodes outside the index; every reference of every version within ten
    steps, once for each address, platform and file, under the name of the first node that
    brings it; and for each class the number of the references listed.  Names must not hold
    the separator of the keys. *)
Theorem airgap_exact (root : coord) (Hroot : Strings.plain "@" root.1) (Hplain : plain_names decode_report ix) (fuel : nat)
    (Hfuel : cost decode_report ix closureMaxDepth ≤ fuel) :
  ∃ g r, Closure decode_report ix fuel root = Some g ∧ AirgapSurface fuel root = Some r ∧
    sc_Root r = key_of root ∧ sc_Modules r = node_row <$> cg_Nodes g ∧
    sc_MissingModules r = node_id <$> filter (λ n, cn_External n = true) (cg_Nodes g) ∧
    NoDup (refKey <$> sc_Refs r) ∧
    (∀ x, x ∈ sc_Refs r ↔ ∃ l1 l2, (cg_Nodes g ≫= brought) = l1 ++ x :: l2 ∧ refKey x ∉ refKey <$> l1) ∧
    (∀ k c rep sub x, reach decode_report ix root k c → k ≤ closureMaxDepth → report_at decode_report ix c = Some rep →
       ExternalSurface c = Ok sub → x ∈ su_Refs sub → refKey x ∈ refKey <$> sc_Refs r) ∧
    (∀ class, class ≠ "" → default 0 (sc_ClassCounts r !! class) = length (filter (λ x, class_of x = class) (sc_Refs r))) ∧
    sc_ClassCounts r !! "" = None.
Proof.
  destruct (graph_walk_ends decode_report ix root Hplain fuel [] (initial root)) as (H & w & E & Hw & Hq).
  { by apply walked_initial. }
  { unfold owed. simpl. rewrite Nat.add_0_r. done. }
  set (g := w_graph w) in *. assert (graph_of decode_report ix root g) as Hg.
  { apply (walked_graph _ _ _ H); [done..|]. apply walk_root in E. done. }
  exists g, (surface_of_graph g). split; [exact E|]. split; [unfold Surface.AirgapSurface, Closure; by rewrite E|].
  unfold Surface.surface_of_graph. rewrite node_turns. cbn [snd sc_Root sc_Modules sc_Refs sc_ForkErrors sc_ClassCounts sc_MaxDepthReached sc_MissingModules app].
  split_and!; [apply (go_root _ _ _ _ Hg)|done|done|apply firsts_NoDup| | | |by apply count_nameless].
  - intros x. rewrite elem_of_firsts. split; [intros (l1 & l2 & ? & _ & ?); by exists l1, l2|].
    intros (l1 & l2 & ? & ?). exists l1, l2. split_and!; [done|apply not_elem_of_empty|done].
  - intros k c rep sub x Hr Hk Hrep Hsub Hx.
    assert (c ∈ node_coord <$> cg_Nodes g) as (n & -> & Hn)%list_elem_of_fmap by (apply (go_nodes _ _ _ _ Hg); by exists k).
    change (refKey x) with (refKey (signed (node_id n) x)). apply firsts_covers, list_elem_of_bind. exists n. split; [|done].
    unfold brought, node_surface. destruct (cn_External n) eqn:Ex.
    { apply (go_external _ _ _ _ Hg n Hn) in Ex as [Ex _]. congruence. }
    unfold node_coord in Hsub. rewrite Hsub. by apply list_elem_of_fmap_2.
  - intros class Hc. rewrite count_classes by done. simpl. rewrite filter_fmap_compose, length_fmap. done.
Qed.
End airgap.

(** ** An extension, its consumer and a closure *)

Definition demo_prov (file : string) : Provenance := mkProvenance file 0 0 0 0.
Definition demo_report (name : string) (exts : list ModuleExtSpec) : ModuleReport :=
  mkModuleReport name "1" 0 [] [] [] [] [] [] [] [] [] exts [] [] [] [] [] (mkHermeticityProfile [] []) [] zeroAssets.
Definition demo_sdk : ModuleReport := demo_report "go" [mkModuleExtSpec "sdk" "" [] false (demo_prov "ext/defs.bzl")].
Definition demo_app : ModuleReport := demo_report "app" [].
Definition demo_versions : Index :=
  set_versions (list_to_map ((λ n, ((n, "1"), chain_row n)) <$> ["app"; "go"])) emptyIndex.
Definition demo_site (dev : bool) (tags : list (string * string)) : UseExtensionSite string :=
  mkSite "@go//ext:defs.bzl" "sdk" ((λ t, mkTag t.1 t.2) <$> tags) dev false.
Definition demo_once : list (UseExtensionSite string) :=
  [demo_site false [("download", "1.21"); ("host", ""); ("download", "1.22")]].
Definition demo_twice : list (UseExtensionSite string) := [demo_site false [("download", "1.21")]; demo_site true [("download", "1.22")]].
Definition demo_files (p : string) : file_read :=
  if decide (p = "/src/MODULE.bazel") then Content "module" else if decide (p = "/src/ext/defs.bzl") then Content "def impl(ctx)" else NotExist.
Definition demo_parse (sites : list (UseExtensionSite string)) (_ : string) : result string (option (list (statement string))) :=
  Ok (Some (StOther :: (StUseExtension <$> sites))).
Definition demo_analyze (_ : string) (_ : gset string) : result string AnalyzeResult := Ok (mkAnalyzed [] []).
Definition demo_ingest (sites : list (UseExtensionSite string)) : option string * Tables :=
  IngestModule id demo_analyze demo_files (demo_parse sites) Ok demo_versions "/src" demo_app emptyTables.

Lemma corpus_exact_witness :
  ∃ cu spec, cu ∈ corpusUsagesForExtensions id "" (demo_ingest demo_once).2 demo_sdk ∧
    spec ∈ buildModuleSpecsFromConsumers id (cu_Consumers cu) ∧ (mp_Name spec, mp_Version spec) = ("app", "1") ∧
    default [] (mp_Tags spec !! "download") = ["1.21"; "1.22"].
Proof.
  assert (∀ kid, is_Some (xt_usages (demo_ingest demo_once).2 !! kid) → Strings.plain "@" kid.1.1) as Hp.
  { assert (map_Forall (λ kid (_ : UseExtensionUsage), "@"%char ∉ to_bytes kid.1.1) (xt_usages (demo_ingest demo_once).2)) as H
      by (refine (bool_decide_unpack _ _); vm_compute; exact I).
    intros kid [u Hu]. apply (H kid u Hu). }
  destruct (corpus_exact id demo_analyze demo_files (demo_parse demo_once) Ok id "" id demo_versions "/src" demo_app emptyTables
    (demo_ingest demo_once).2 "module" demo_once demo_sdk (mkModuleExtSpec "sdk" "" [] false (demo_prov "ext/defs.bzl"))
    (demo_site false [("download", "1.21"); ("host", ""); ("download", "1.22")]))
    as (cu & Hcu & _ & _ & _ & spec & Hspec & Hn & _ & Ht).
  - vm_compute. reflexivity.
  - vm_compute. reflexivity.
  - vm_compute. reflexivity.
  - by left.
  - discriminate.
  - by left.
  - vm_compute. reflexivity.
  - reflexivity.
  - discriminate.
  - exact Hp.
  - exists cu, spec. split; [exact Hcu|]. split; [exact Hspec|]. split; [exact Hn|]. rewrite (Ht "download"). vm_compute. reflexivity.
Defined.

(** A second call site, for development, is how such files are written. *)
Lemma double_use_refused_witness :
  is_Some (demo_ingest demo_twice).1 ∧ xt_usages (demo_ingest demo_twice).2 = ∅.
Proof.
  destruct (double_use_refused id demo_analyze demo_files (demo_parse demo_twice) Ok demo_versions "/src" demo_app emptyTables "module" demo_twice)
    as (He & Hu & _).
  - vm_compute. reflexivity.
  - vm_compute. reflexivity.
  - refine (bool_decide_unpack _ _). vm_compute. exact I.
  - split; [exact He|exact Hu].
Defined.

Lemma src_ok : dest_ok "/src".
Proof. exists ["src"]. split_and!; [done| |done]. constructor; [by apply plain_lit|constructor]. Qed.

(** The files of another machine, with one outside the module. *)
Definition demo_elsewhere (p : string) : file_read := if HasPrefix p "/src" then demo_files p else Content "secret".

Lemma under_src ns : HasPrefix (under "/src" ns) "/src" = true.
Proof. unfold under. case_decide; [done|]. by apply (HasPrefix_app "/src"). Qed.

Lemma sources_confined_witness :
  let rep := demo_report "go" (mkModuleExtSpec "sdk" "" [] false ∘ demo_prov <$> ["../etc/passwd"; "ext/defs.bzl"; "./ext/../ext/defs.bzl"; "ext/defs.bzl"]) in
  readExtensionSources demo_files "/src" rep = readExtensionSources demo_elsewhere "/src" rep ∧
  readExtensionSources demo_files "/src" rep = [mkSource "ext/defs.bzl" "def impl(ctx)"; mkSource "./ext/../ext/defs.bzl" "def impl(ctx)"].
Proof.
  intros rep. split; [|vm_compute; reflexivity].
  apply (sources_confined demo_files demo_elsewhere "/src" src_ok).
  intros ns Hns. unfold demo_elsewhere. by rewrite under_src.
Defined.

(** The diamond's head and foot fetch the same archive; its foot something else too. *)
Definition demo_ref (url class : string) : ExternalRef := mkExternalRef url "h" class "" "" "" "" "r" "any" false "f.bzl".
Definition demo_tables : Tables :=
  mkTables (list_to_map ((λ kr, ((kr.1, row_id kr.2), kr.2)) <$>
      [(("a", "1"), demo_ref "https://h/a" "archive"); (("d", "1"), demo_ref "https://h/a" "archive"); (("d", "1"), demo_ref "https://h/d" "file")])) ∅ ∅ ∅.
Definition demo_drive (_ _ _ : string) (_ : list (ModuleSpec string)) : result string (list ExternalRef) := Ok [].
Definition demo_airgap : option ClosureSurfaceResponse :=
  AirgapSurface diamond_decode id "" id demo_drive (λ _, None) diamond demo_tables 5000 ("a", "1").

Lemma airgap_exact_witness :
  ∃ r, demo_airgap = Some r ∧ NoDup (refKey <$> sc_Refs r) ∧ sc_MissingModules r = ["x@1"] ∧
    (λ x, (xr_URL (sr_Ref x), sr_SourceModule x)) <$> sc_Refs r = [("https://h/a", "a@1"); ("https://h/d", "d@1")].
Proof.
  destruct (airgap_exact diamond_decode id "" id demo_drive (λ _, None) diamond demo_tables ("a", "1")
    ltac:(intros Hx%list_elem_of_singleton; discriminate) diamond_plain 5000) as (g & r & _ & E & _ & _ & _ & Hnd & _).
  - apply Nat.leb_le. vm_compute. reflexivity.
  - exists r. split; [exact E|]. split; [exact Hnd|]. vm_compute in E. injection E as <-. split; vm_compute; reflexivity.
Defined.

(** Two extensions of one name in two files: the second's uses drive the first. *)
Example same_name_first_file :
  extension_file (demo_report "go" (mkModuleExtSpec "sdk" "" [] false ∘ demo_prov <$> ["old.bzl"; "new.bzl"])) "sdk" = "old.bzl".
Proof. vm_compute. reflexivity. Qed.

Example labels : extensionApparentLabel "rules_go" "go/extensions.bzl" = "@rules_go//go:extensions.bzl" ∧
  extensionApparentLabel "m" "defs.bzl" = "@m//:defs.bzl".
Proof. by vm_compute. Qed.
