(* ===== verification/Watch.v ===== *)
(** * Following a registry's branch

    The handler of the registry watcher (cmd/bzlhub/watch/handler.go) and the ingest of a
    version of the working tree (FromMirroredVersion of internal/ingest/ingest.go).  The
    watcher itself, which calls the handler for the commits it has not seen, is Forgewatch.
    Git is a parameter: what a commit holds, what it prints, and which of its commands
    fail.  What the network, the disk, the analyser and the database do is part of each
    moment at which a version is ingested, so that a failure may pass.  The working tree
    holds the files of its commit, and none of the paths that are read is untracked. *)

From S2P Require Import Prelude Strings Report Archive Digest FileSystem Mirror Resolve Index Surface Airgap Bump.

(** What the ingest of one version meets: files it cannot read, the network, the scratch
    directory, [assay.Analyze] of a directory as it was written, what
    [external.IngestModule] uses of it, and the database. *)
Record moment := mkMoment {
  mo_unread : string → bool;
  mo_get : string → result string (list bytes * option string);
  mo_temp : result string string;
  mo_mkdir_err : string → option string;
  mo_open_err : string → option string;
  mo_write_err : string → option string;
  mo_assay : list fs_call → result string ModuleReport;
  mo_surface : list fs_call → gset string → result string AnalyzeResult;
  mo_ReadFile : list fs_call → string → file_read;
  mo_db_err : option string;
}.

(** One call of the handler: the commit the remote branch is at, what [git] does, the
    moments of the ingests, and how many of them there are if the process is killed. *)
Record sync_call := mkSync {
  sy_tip : string;
  sy_old : bool;              (** the first [rev-parse] answers *)
  sy_fetch : option string;   (** the error of [fetch], if any *)
  sy_reset : option string;
  sy_new : option string;     (** of the second [rev-parse] *)
  sy_list : option string;    (** of [ls-tree] or [diff] *)
  sy_at : coord → moment;
  sy_killed : option nat;
  sy_now : string;
}.

(** The indexer's tables. *)
Record indexed_store := mkStore { is_index : Index; is_tables : Tables }.

(** A path of the working tree. *)
Definition mirror_file (module version name : string) : string := "modules/" +:+ module +:+ "/" +:+ version +:+ "/" +:+ name.

Section handler.
Context (json_compat : list string → string) (json_herm : HermeticityProfile → string).
Context (json_report : ModuleReport → string).
Abbreviation WriteReport := (WriteReport json_compat json_herm json_report).

(** What a commit holds at a path of the working tree, and what [git ls-tree] and
    [git diff] print. *)
Context (file_at : string → string → option bytes) (ls_tree : string → string) (diff : string → string → string).

Context (ParseSourceJSON : bytes → result string SourceJSON).
Context (read_targz : list bytes * option string → nat * result string (list (result string Archive.entry))).
Context (open_entry : Archive.entry → option string) (read_zip : bytes → result string (list Archive.entry)).
Context {A : Type} (quoted : string → string).
Context (ParseContent : string → result string (option (list (statement A)))) (marshal_attrs : A → result string string).

(** [FromSource] without a tee: it neither reads nor writes the mirror. *)
Definition materialized (w : moment) (src : SourceJSON) (srcBytes : bytes) (modBytes : option bytes) : result string Materialized :=
  (FromSource (mo_get w) (mo_temp w) (mo_mkdir_err w) (mo_open_err w) (mo_write_err w) read_targz open_entry read_zip
    src srcBytes modBytes None (mkOptions None false) (mkWorld (mkDisk ∅ ∅) [] true)).1.1.

(** The path of the scratch directory, and [Analyze] of what is in it. *)
Definition scratch (w : moment) : string := match mo_temp w with Ok d => d | Err _ => "" end.
Definition Analyze (w : moment) (dir : list fs_call) : result string ModuleReport :=
  match mo_assay w dir with
  | Err e => Err ("analyze " +:+ scratch w +:+ ": " +:+ e)
  | Ok r =>
      if decide (rep_Name r = "") then Err ("analyze " +:+ scratch w +:+ ": module has no name (missing module(...) call?)")
      else Ok (if decide (rep_Version r = "") then with_coords (rep_Name r) "HEAD" r else r)
  end.

(** [external.IngestModule]: its error is only logged. *)
Definition ingest_surface (w : moment) (ix : Index) (dir : list fs_call) (r : ModuleReport) (t : Tables) : Tables :=
  (IngestModule quoted (λ _, mo_surface w dir) (mo_ReadFile w dir) ParseContent marshal_attrs ix (scratch w) r t).2.

(** [os.ReadFile] in the working tree. *)
Definition tree_file (w : moment) (head p : string) : option bytes := if mo_unread w p then None else file_at head p.

(** [FromMirroredVersion], of the tree of a commit: what it reads, and what it writes. *)
Definition analyzed (w : moment) (head : string) (k : coord) : result string (list fs_call * ModuleReport) :=
  let srcPath := mirror_file k.1 k.2 "source.json" in
  match tree_file w head srcPath with
  | None => Err ("read " +:+ srcPath)
  | Some srcBytes =>
      src ← map_err (λ e, "parse " +:+ srcPath +:+ ": " +:+ e) (ParseSourceJSON srcBytes);
      m ← map_err (λ e, "resolve " +:+ k.1 +:+ "@" +:+ k.2 +:+ ": " +:+ e)
            (materialized w src srcBytes (tree_file w head (mirror_file k.1 k.2 "MODULE.bazel")));
      r ← Analyze w (mt_calls m); Ok (mt_calls m, with_coords k.1 k.2 r)
  end.
Definition FromMirroredVersion (now : string) (w : moment) (head : string) (k : coord) (s : indexed_store)
    : result string ModuleReport * indexed_store :=
  match analyzed w head k with
  | Err e => (Err e, s)
  | Ok (dir, r) =>
      match (match mo_db_err w with Some e => Err e | None => WriteReport now r (is_index s) end) with
      | Err e => (Err ("write report " +:+ k.1 +:+ "@" +:+ k.2 +:+ ": " +:+ e), s)
      | Ok ix => (Ok r, mkStore ix (ingest_surface w ix dir r (cascade_tables k (is_tables s))))
      end
  end.

(** [changedModuleVersions]: the coordinate of a line, the lines of the listing, and each
    coordinate once. *)
Definition line_coord (p : string) : option coord :=
  match Split (TrimSpace p) slash with
  | "modules" :: m :: v :: _ => Some (m, v)
  | _ => None
  end.
Definition listing (oldHead newHead : string) : string := if decide (oldHead = "" ∨ oldHead = newHead) then ls_tree newHead else diff oldHead newHead.
Definition note_version (out : list coord) (mv : coord) : list coord := if decide (mv ∈ out) then out else out ++ [mv].
Definition changed_in (out : string) : list coord := foldl note_version [] (omap line_coord (Split (TrimSpace out) newline)).
Definition changedModuleVersions (c : sync_call) (oldHead newHead : string) : result string (list coord) :=
  match sy_list c with
  | Some e => Err ((if decide (oldHead = "" ∨ oldHead = newHead) then "ls-tree: " else "diff: ") +:+ e)
  | None => Ok (changed_in (listing oldHead newHead))
  end.

(** The ingest of the changed versions: those that fail are named in the log. *)
Definition reingest_turn (c : sync_call) (s : indexed_store * list coord) (mv : coord) : indexed_store * list coord :=
  match FromMirroredVersion (sy_now c) (sy_at c mv) (sy_tip c) mv s.1 with (Ok _, s') => (s', s.2) | (Err _, s') => (s', s.2 ++ [mv]) end.
Definition reingest (c : sync_call) (changed : list coord) (s : indexed_store) : indexed_store * list coord :=
  foldl (reingest_turn c) (s, []) (match sy_killed c with Some n => take n changed | None => changed end).

(** [handle]: the error, the commit of the working tree and the store after it.  A commit is
    named as git prints it, without the space around it; [None] is a working tree without
    one, and [indexing] says that there is a store. *)
Definition old_head (c : sync_call) (head : option string) : string := if sy_old c then default "" head else "".
Definition handle (indexing : bool) (c : sync_call) (head : option string) (s : indexed_store) : option string * (option string * indexed_store) :=
  match sy_fetch c with
  | Some e => (Some ("git fetch: " +:+ e), (head, s))
  | None =>
      match sy_reset c with
      | Some e => (Some ("git reset --hard: " +:+ e), (head, s))
      | None =>
          match sy_new c with
          | Some e => (Some ("read new HEAD: " +:+ e), (Some (sy_tip c), s))
          | None =>
              match changedModuleVersions c (old_head c head) (sy_tip c) with
              | Err _ => (None, (Some (sy_tip c), s))
              | Ok changed => (None, (Some (sy_tip c), if indexing then (reingest c changed s).1 else s))
              end
          end
      end
  end.

(** The working tree has moved. *)
Definition moved (c : sync_call) : bool := bool_decide (sy_fetch c = None ∧ sy_reset c = None).
(** The versions that a call which moves the tree is about, and those of them that it
    leaves behind: their ingest fails, or the call ends before it. *)
Definition taken_up (c : sync_call) (head : option string) : list coord := changed_in (listing (old_head c head) (sy_tip c)).
Definition left_behind (c : sync_call) (head : option string) (s : indexed_store) : list coord :=
  let changed := taken_up c head in
  if decide (sy_new c = None ∧ sy_list c = None) then
    (reingest c changed s).2 ++ (match sy_killed c with Some n => drop n changed | None => [] end)
  else changed.

(** Calls one after the other, and the versions that are owed after them: whose last
    take-up left them behind. *)
Record followed := mkFollowed { fo_head : option string; fo_store : indexed_store; fo_owed : gset coord }.
Definition follow (st : followed) (c : sync_call) : followed :=
  let '(head, s) := (handle true c (fo_head st) (fo_store st)).2 in
  mkFollowed head s
    (if moved c then
       (fo_owed st ∖ list_to_set (taken_up c (fo_head st))) ∪ list_to_set (left_behind c (fo_head st) (fo_store st))
     else fo_owed st).
Definition handles (cs : list sync_call) (st : followed) : followed := foldl follow st cs.
End handler.

(** ** Lines and the space around them *)

(** The white space that holds a line's end is the line's end. *)
Definition breaks (ps : list bytes) : Prop := Forall (λ w, w ≠ [] ∧ (w = [newline] ∨ newline ∉ w)) ps.

Lemma white_space_breaks : breaks white_space.
Proof. refine (bool_decide_unpack _ _). vm_compute. exact I. Qed.
Lemma white_space_rev_breaks : breaks ((λ p, rev p) <$> white_space).
Proof. refine (bool_decide_unpack _ _). vm_compute. exact I. Qed.

Definition ended (pre : bytes) : Prop := pre = [] ∨ ∃ q, pre = q ++ [newline].

Lemma ended_strip w pre rest l : w ≠ [] → (w = [newline] ∨ newline ∉ w) → ended pre → pre ≠ [] → pre ++ rest = w ++ l →
  ∃ pre', ended pre' ∧ l = pre' ++ rest.
Proof.
  intros Hw Hb [->|[q ->]] Hne E; [done|]. assert (∃ k, q ++ [newline] = w ++ k) as [k Ek].
  { apply app_eq_app in E as (k & [[-> _]|[-> _]]); [by exists k|]. destruct Hb as [Hb|Hb].
    - exists []. rewrite app_nil_r. destruct k as [|c k]; [by rewrite app_nil_r|].
      apply (f_equal length) in Hb. rewrite !length_app in Hb. simpl in Hb. lia.
    - destruct Hb. rewrite !elem_of_app. left. right. by left. }
  exists k. rewrite Ek, <-app_assoc in E. apply app_inv_head in E. split; [|done].
  destruct k as [|c k _] using rev_ind; [by left|]. rewrite app_assoc in Ek. apply app_inj_tail in Ek as [_ <-]. right. by exists k.
Qed.

Lemma trim_left_line ps fuel pre rest : breaks ps → ended pre → strip_any ps rest = None →
  ∃ pre', ended pre' ∧ trim_left fuel ps (pre ++ rest) = pre' ++ rest.
Proof.
  intros Hps He Hr. revert pre He. induction fuel as [|fuel IH]; intros pre He; [by exists pre|]. cbn [trim_left].
  destruct (strip_any ps (pre ++ rest)) as [l|] eqn:E; [|by exists pre].
  destruct (decide (pre = [])) as [->|Hne]; [simpl in E; congruence|].
  apply strip_any_Some in E as (w & Hw & E). pose proof Hps as Hps'. unfold breaks in Hps'. rewrite Forall_forall in Hps'. destruct (Hps' w Hw) as [Hn Hb].
  destruct (ended_strip w pre rest l Hn Hb He Hne E) as (pre' & He' & ->). by apply IH.
Qed.

(** A line is bare when no white space begins or ends it. *)
Definition bare (p : bytes) : Prop :=
  (∀ k, strip_any white_space (p ++ k) = None) ∧ (∀ k, strip_any ((λ w, rev w) <$> white_space) (rev p ++ k) = None).

Lemma TrimSpace_line (p : bytes) (s : string) pre post : bare p → to_bytes s = pre ++ p ++ post → ended pre → ended (rev post) →
  ∃ pre' post', ended pre' ∧ ended (rev post') ∧ to_bytes (TrimSpace s) = pre' ++ p ++ post'.
Proof.
  intros [Hl Hr] E Hpre Hpost. unfold TrimSpace, trim_left_space. rewrite to_of_bytes, E.
  destruct (trim_left_line white_space (length (pre ++ p ++ post)) pre (p ++ post) white_space_breaks Hpre (Hl post)) as (pre' & Hpre' & ->).
  unfold trim_right_space. rewrite !rev_app_distr, <-app_assoc.
  destruct (trim_left_line _ (length (pre' ++ p ++ post)) (rev post) (rev p ++ rev pre') white_space_rev_breaks Hpost (Hr _)) as (post' & Hpost' & ->).
  exists pre', (rev post'). rewrite rev_involutive. split_and!; [done..|]. by rewrite !rev_app_distr, !rev_involutive, <-app_assoc.
Qed.

Lemma ended_nil : ended []. Proof. by left. Qed.

Lemma TrimSpace_bare s : bare (to_bytes s) → TrimSpace s = s.
Proof.
  intros Hb. rewrite <-(of_to_bytes s) at 2. rewrite <-(of_to_bytes (TrimSpace s)). f_equal. destruct Hb as [Hl Hr].
  unfold TrimSpace, trim_left_space. rewrite to_of_bytes. specialize (Hl []). specialize (Hr []). rewrite app_nil_r in Hl, Hr.
  rewrite trim_left_fix by done. unfold trim_right_space. rewrite trim_left_fix by done. apply rev_involutive.
Qed.

Lemma elem_of_splitl x l : x ∈ splitl newline l ↔ (newline ∉ x) ∧ ∃ pre post, l = pre ++ x ++ post ∧ ended pre ∧ ended (rev post).
Proof.
  split.
  - intros Hx. split; [by eapply splitl_elem|]. revert Hx. remember (length l) as n eqn:En. revert l En. induction (lt_wf n) as [n _ IH]. intros l En Hx. destruct (decide (newline ∈ l)) as [(a & b & -> & Ha)%list_elem_of_split_l|Hn].
    2: { rewrite splitl_noc in Hx by done. apply list_elem_of_singleton in Hx as ->. exists [], []. rewrite app_nil_r. split_and!; [done|by left..]. }
    rewrite splitl_app, splitl_noc in Hx by done. apply elem_of_app in Hx as [->%list_elem_of_singleton|Hx].
    + exists [], (newline :: b). split_and!; [done|by left|]. right. by exists (rev b).
    + assert (length b < n) as Hlt by (rewrite En, length_app; simpl; lia).
      destruct (IH (length b) Hlt b eq_refl Hx) as (pre & post & E & Hpre & Hpost).
      exists (a ++ newline :: pre), post. rewrite E, <-app_assoc. split_and!; [done| |done]. right. destruct Hpre as [->|[q ->]].
      * by exists a.
      * exists (a ++ newline :: q). by rewrite <-app_assoc.
  - intros (Hx & pre & post & -> & Hpre & Hpost).
    assert (x ∈ splitl newline (x ++ post)) as H.
    { destruct Hpost as [Hp|[q Hp]]; apply (f_equal (@rev ascii)) in Hp; rewrite rev_involutive in Hp; rewrite Hp.
      - simpl. rewrite app_nil_r, splitl_noc by done. by left.
      - rewrite rev_app_distr. simpl. rewrite splitl_app, splitl_noc by done. by left. }
    destruct Hpre as [->|[q ->]]; [done|]. rewrite <-app_assoc. simpl. rewrite splitl_app. apply elem_of_app. by right.
Qed.

(** Trimming a text leaves its bare lines. *)
Lemma TrimSpace_lines p s : bare (to_bytes p) → p ∈ Split s newline → p ∈ Split (TrimSpace s) newline.
Proof.
  rewrite !Split_splitl. intros Hb (x & -> & Hx)%list_elem_of_fmap. rewrite to_of_bytes in Hb. apply list_elem_of_fmap. exists x. split; [done|].
  apply elem_of_splitl in Hx as (Hn & pre & post & E & Hpre & Hpost).
  destruct (TrimSpace_line x s pre post Hb E Hpre Hpost) as (pre' & post' & ? & ? & ->). apply elem_of_splitl. split; [done|]. by exists pre', post'.
Qed.

(** ** The versions of a listing *)

Lemma elem_of_noted l acc k : k ∈ foldl note_version acc l ↔ k ∈ acc ∨ k ∈ l.
Proof.
  revert acc. induction l as [|y l IH]; intros acc; cbn [foldl]; [split; [by left|by intros [?|?%elem_of_nil]]|].
  rewrite IH, elem_of_cons. unfold note_version. case_decide; [naive_solver|]. rewrite elem_of_app, list_elem_of_singleton. tauto.
Qed.

Lemma NoDup_noted l acc : NoDup acc → NoDup (foldl note_version acc l).
Proof.
  revert acc. induction l as [|y l IH]; intros acc Hacc; [done|]. cbn [foldl]. apply IH. unfold note_version. case_decide; [done|].
  apply NoDup_app. split_and!; [done| |apply NoDup_singleton]. set_solver.
Qed.

Lemma elem_of_changed_in out k : k ∈ changed_in out ↔ ∃ p, (p ∈ Split (TrimSpace out) newline) ∧ line_coord p = Some k.
Proof. unfold changed_in. rewrite elem_of_noted, list_elem_of_omap. split; [by intros [?%elem_of_nil|?]|by right]. Qed.

(** The files that are read of a version. *)
Definition version_input (name : string) : Prop := name = "source.json" ∨ name = "MODULE.bazel".

Lemma mirror_file_bare m v name : version_input name → bare (to_bytes (mirror_file m v name)).
Proof.
  intros Hn. unfold mirror_file. rewrite !to_bytes_app. split; intros k; [reflexivity|].
  rewrite !rev_app_distr, <-!app_assoc. destruct Hn as [->| ->]; reflexivity.
Qed.

(** A path that git prints as it is, and a coordinate that names such a directory. *)
Definition printed (p : string) : Prop :=
  Forall (λ c, (32 ≤ N_of_ascii c < 127)%N ∧ (c ∉ to_bytes (dq +:+ "\"))) (to_bytes p).
Definition nameable (k : coord) : Prop := ((slash ∉ to_bytes k.1) ∧ (slash ∉ to_bytes k.2)) ∧ printed k.1 ∧ printed k.2.

Lemma printed_app s t : printed (s +:+ t) ↔ printed s ∧ printed t.
Proof. unfold printed. by rewrite (to_bytes_app s t), Forall_app. Qed.

Lemma mirror_file_printed k name : nameable k → version_input name → printed (mirror_file k.1 k.2 name).
Proof.
  assert (∀ s, bool_decide (printed s) = true → printed s) as Hlit by (intros s; apply bool_decide_eq_true_1).
  intros (_ & Hm & Hv) [->| ->]; unfold mirror_file; rewrite !printed_app; split_and!; done || by apply Hlit.
Qed.

Lemma mirror_file_listed out k name : nameable k → version_input name →
  mirror_file k.1 k.2 name ∈ Split out newline → k ∈ changed_in out.
Proof.
  intros [[Hm Hv] _] Hn Hin. apply elem_of_changed_in. exists (mirror_file k.1 k.2 name).
  split; [by apply TrimSpace_lines, Hin; apply mirror_file_bare|].
  unfold line_coord. rewrite TrimSpace_bare by by apply mirror_file_bare. unfold mirror_file.
  change ("modules/" +:+ k.1 +:+ "/" +:+ k.2 +:+ "/" +:+ name) with ("modules" +:+ "/" +:+ k.1 +:+ "/" +:+ k.2 +:+ "/" +:+ name).
  rewrite !Split_app_slash, (Split_noslash k.1), (Split_noslash k.2) by done. by destruct k.
Qed.

(** ** What the calls bring *)

(** A program that neither reads nor writes the disk. *)
Definition alone {X} (m : os X) : Prop := ∃ x, ∀ w, m w = (x, w).
Lemma alone_ret {X} (x : X) : alone (mret x).
Proof. by exists x. Qed.
Lemma alone_bind {X Y} (m : os X) (f : X → os Y) : alone m → (∀ x, alone (f x)) → alone (m ≫= f).
Proof. intros [x Hx] Hf. destruct (Hf x) as [y Hy]. exists y. intros w. unfold mbind, os_bind. by rewrite Hx. Qed.

Lemma alone_read_chunks n v : alone (read_chunks n None v).
Proof. revert v. induction n as [|n IH]; intros v; [apply alone_ret|]. cbn [read_chunks]. destruct (vr_stream v) as [|p rest]; [apply alone_ret|apply IH]. Qed.

Section synced.
Context (json_compat : list string → string) (json_herm : HermeticityProfile → string).
Context (json_report : ModuleReport → string).
Context (file_at : string → string → option bytes) (ls_tree : string → string) (diff : string → string → string).
Context (ParseSourceJSON : bytes → result string SourceJSON).
Context (read_targz : list bytes * option string → nat * result string (list (result string Archive.entry))).
Context (open_entry : Archive.entry → option string) (read_zip : bytes → result string (list Archive.entry)).
Context {A : Type} (quoted : string → string).
Context (ParseContent : string → result string (option (list (statement A)))) (marshal_attrs : A → result string string).
Abbreviation materialized := (materialized read_targz open_entry read_zip).
Abbreviation analyzed := (analyzed file_at ParseSourceJSON read_targz open_entry read_zip).
Abbreviation FromMirroredVersion := (FromMirroredVersion json_compat json_herm json_report file_at ParseSourceJSON
  read_targz open_entry read_zip quoted ParseContent marshal_attrs).
Abbreviation reingest_turn := (reingest_turn json_compat json_herm json_report file_at ParseSourceJSON
  read_targz open_entry read_zip quoted ParseContent marshal_attrs).
Abbreviation reingest := (reingest json_compat json_herm json_report file_at ParseSourceJSON
  read_targz open_entry read_zip quoted ParseContent marshal_attrs).
Abbreviation handle := (handle json_compat json_herm json_report file_at ls_tree diff ParseSourceJSON
  read_targz open_entry read_zip quoted ParseContent marshal_attrs true).
Abbreviation left_behind := (left_behind json_compat json_herm json_report file_at ls_tree diff ParseSourceJSON
  read_targz open_entry read_zip quoted ParseContent marshal_attrs).
Abbreviation taken_up := (taken_up ls_tree diff).
Abbreviation follow := (follow json_compat json_herm json_report file_at ls_tree diff ParseSourceJSON
  read_targz open_entry read_zip quoted ParseContent marshal_attrs).
Abbreviation handles := (handles json_compat json_herm json_report file_at ls_tree diff ParseSourceJSON
  read_targz open_entry read_zip quoted ParseContent marshal_attrs).

(** Without a tee the download leaves the mirror alone and does not depend on it. *)
Lemma FromSource_alone w src srcBytes modBytes fallback capture :
  alone (FromSource (mo_get w) (mo_temp w) (mo_mkdir_err w) (mo_open_err w) (mo_write_err w) read_targz open_entry read_zip
    src srcBytes modBytes fallback (mkOptions None capture)).
Proof.
  unfold Resolve.FromSource. cbn [op_Tee op_CaptureBytes].
  repeat case_decide; try apply alone_ret. destruct (detectArchiveKind _ _) as [kind|e], (mo_temp w) as [dir|e']; try apply alone_ret.
  destruct (FetchArchive (mo_get w) src) as [[[chunks bodyErr] vr]|e]; [|apply alone_ret]. apply alone_bind.
  - unfold extract. destruct kind; [destruct (read_targz _) as [n stream]|];
      (apply alone_bind; [apply alone_read_chunks|intros [[terr tee'] v']; apply alone_ret]).
  - intros [[[[n calls] [err|]] tee] v]; [apply alone_ret|]. destruct (Verify v); [apply alone_ret|].
    destruct (module_fallback _ _ _ _ _) as [[calls' mod']|e]; apply alone_ret.
Qed.

Lemma materialized_spec w src srcBytes modBytes wd :
  ∃ tee, FromSource (mo_get w) (mo_temp w) (mo_mkdir_err w) (mo_open_err w) (mo_write_err w) read_targz open_entry read_zip
    src srcBytes modBytes None (mkOptions None false) wd = ((materialized w src srcBytes modBytes, tee), wd).
Proof.
  unfold Watch.materialized. destruct (FromSource_alone w src srcBytes modBytes None false) as [[x tee] Hx]. exists tee. by rewrite !Hx.
Qed.

(** The version's two files are in the commit. *)
Definition in_commit (sha : string) (k : coord) : Prop :=
  ∀ name, version_input name → is_Some (file_at sha (mirror_file k.1 k.2 name)).

(** The row of a version holds the report that one of the calls made of its files, which
    are those of the commit. *)
Definition row_of (cs : list sync_call) (s : indexed_store) (sha : string) (k : coord) : Prop :=
  ∃ c dir r, c ∈ cs ∧ analyzed (sy_at c k) sha k = Ok (dir, r) ∧
    vc_report_json <$> ix_versions (is_index s) !! k = Some (json_report r).

Definition synced (cs : list sync_call) (s : indexed_store) (owed : gset coord) (sha : string) : Prop :=
  ∀ k, nameable k → in_commit sha k → k ∉ owed → row_of cs s sha k.

Lemma synced_mono cs cs' s owed sha : cs ⊆ cs' → synced cs s owed sha → synced cs' s owed sha.
Proof. intros Hc Hs k Hk Hin Ho. destruct (Hs k Hk Hin Ho) as (c & dir & r & ? & ?). exists c, dir, r. split; [by apply Hc|done]. Qed.

Lemma analyzed_agree w a b k : (∀ name, version_input name → file_at a (mirror_file k.1 k.2 name) = file_at b (mirror_file k.1 k.2 name)) →
  analyzed w a k = analyzed w b k.
Proof. intros H. unfold Watch.analyzed, tree_file. by rewrite (H "source.json"), (H "MODULE.bazel") by (by left) || (by right). Qed.

Lemma analyzed_coord w head k dir r : analyzed w head k = Ok (dir, r) → coord_of r = k.
Proof.
  unfold Watch.analyzed. destruct (tree_file _ _ _ _) as [b|]; [|done]. destruct (ParseSourceJSON b) as [src|e]; [|done]. cbn [map_err mbind result_bind].
  destruct (materialized _ _ _ _) as [m|e]; [|done]. cbn [map_err mbind result_bind]. destruct (Analyze _ _) as [r0|e]; [|done].
  cbn [mbind result_bind]. intros [= _ <-]. by destruct k.
Qed.

(** The ingest of one version: it fails and nothing changes, or its row is the report. *)
Definition can_ingest (w : moment) (sha : string) (k : coord) : Prop :=
  ∃ dir r, analyzed w sha k = Ok (dir, r) ∧ mo_db_err w = None ∧ storable r.

Lemma ingest_outcome now w head k s : index_wf (is_index s) →
  let '(res, s') := FromMirroredVersion now w head k s in
  index_wf (is_index s') ∧ (∀ j, j ≠ k → ix_versions (is_index s') !! j = ix_versions (is_index s) !! j) ∧
  match res with
  | Err _ => ¬ can_ingest w head k ∧ s' = s
  | Ok r => ∃ dir, analyzed w head k = Ok (dir, r) ∧ vc_report_json <$> ix_versions (is_index s') !! k = Some (json_report r)
  end.
Proof.
  intros Hwf. unfold Watch.FromMirroredVersion, can_ingest.
  destruct (analyzed w head k) as [[dir r]|e] eqn:Ea; [|split_and!; [done|done|by intros (? & ? & ? & _)|done]].
  pose proof (analyzed_coord _ _ _ _ _ Ea) as Hk.
  destruct (mo_db_err w) as [e|]; [split_and!; [done|done|by intros (? & ? & _ & ? & _)|done]|].
  destruct (WriteReport json_compat json_herm json_report now r (is_index s)) as [ix|e] eqn:Ew.
  - destruct (WriteReport_holds json_compat json_herm json_report (λ _, Err "") now r (is_index s)) as (ix2 & E2 & Hh);
      [by destruct Hwf|by eapply WriteReport_ok_storable|].
    rewrite Ew in E2. injection E2 as <-. pose proof Hh as [_ Hv _ _ _ _ _ _]. rewrite Hk in Hv. cbn [is_index]. split_and!.
    + by eapply (holds_wf _ _ _ (λ _, Err "")).
    + intros j Hj. rewrite Hv. by apply lookup_insert_ne.
    + exists dir. split; [done|]. by rewrite Hv, lookup_insert_eq.
  - split_and!; [done|done| |done]. intros (dir' & r' & [= <- <-] & _ & Hs).
    destruct (WriteReport_holds json_compat json_herm json_report (λ _, Err "") now r (is_index s)) as (ix2 & E2 & _); [by destruct Hwf|done|congruence].
Qed.

Lemma ingest_batch c l s : index_wf (is_index s) →
  let '(s', failed) := foldl (reingest_turn c) (s, []) l in
  index_wf (is_index s') ∧ (∀ j, j ∉ l → ix_versions (is_index s') !! j = ix_versions (is_index s) !! j) ∧ failed ⊆ l ∧
  (∀ k, k ∈ l → k ∉ failed → row_of [c] s' (sy_tip c) k) ∧ (∀ k, k ∈ failed → ¬ can_ingest (sy_at c k) (sy_tip c) k).
Proof.
  intros Hwf. induction l as [|k l IH] using rev_ind; [split_and!; [done..|by intros k ?%elem_of_nil|by intros k ?%elem_of_nil]|].
  rewrite foldl_app. cbn [foldl]. destruct (foldl (reingest_turn c) (s, []) l) as [s1 failed]. destruct IH as (Hwf1 & Hout & Hsub & Hin & Hf).
  unfold Watch.reingest_turn. cbn [fst snd]. pose proof (ingest_outcome (sy_now c) (sy_at c k) (sy_tip c) k s1 Hwf1) as H.
  destruct (FromMirroredVersion (sy_now c) (sy_at c k) (sy_tip c) k s1) as [[r|e] s2]; destruct H as (Hwf2 & Hout2 & H).
  - destruct H as (dir & Ha & Hrow). split_and!; [done| |set_solver| |done].
    + intros j [Hj Hjk]%not_elem_of_app. rewrite Hout2; [by apply Hout|]. intros ->. apply Hjk. by left.
    + intros j Hj Hjf. destruct (decide (j = k)) as [->|Hjk]; [exists c, dir, r; split; [by left|done]|].
      apply elem_of_app in Hj as [Hj|Hj%list_elem_of_singleton]; [|done]. destruct (Hin j Hj Hjf) as (c' & d & r' & ? & ? & ?).
      exists c', d, r'. split_and!; [done..|]. by rewrite Hout2.
  - destruct H as [Hno ->]. split_and!; [done| |set_solver| |].
    + intros j [Hj _]%not_elem_of_app. by apply Hout.
    + intros j Hj [Hjf Hjk]%not_elem_of_app. apply Hin; [|done]. apply elem_of_app in Hj as [?|?]; [done|by destruct Hjk].
    + intros j [Hj|Hj%list_elem_of_singleton]%elem_of_app; [by apply Hf|by subst].
Qed.

(** ** Laws of git *)

(** [ls-tree] prints every file of a commit, and [diff] every one that is new or not the
    same (of one that is gone it may print the name it was moved to instead), each on a line
    of its own, under [modules/] and of a name that needs no quotes. *)
Context (Hls : ∀ a p, HasPrefix p "modules/" = true → printed p → is_Some (file_at a p) → p ∈ Split (ls_tree a) newline).
Context (Hdiff : ∀ a b p, HasPrefix p "modules/" = true → printed p → is_Some (file_at b p) → file_at a p ≠ file_at b p →
  p ∈ Split (diff a b) newline).

Lemma listed_or_same old new k : nameable k → in_commit new k →
  k ∈ changed_in (listing ls_tree diff old new) ∨
  (old ≠ "" ∧ old ≠ new ∧ in_commit old k ∧ ∀ w, analyzed w old k = analyzed w new k).
Proof.
  intros Hk Hin. assert (∀ name, HasPrefix (mirror_file k.1 k.2 name) "modules/" = true) as Hp.
  { intros name. apply bool_decide_eq_true. unfold mirror_file. rewrite to_bytes_app. by eexists. }
  unfold listing. case_decide as Ho.
  - left. apply (mirror_file_listed _ _ "source.json"); [done|by left|]. apply Hls; [done|apply mirror_file_printed; [done|by left]|].
    apply Hin. by left.
  - apply Decidable.not_or in Ho as [Ho Hn]. destruct (decide (k ∈ changed_in (diff old new))) as [Hc|Hc]; [by left|]. right.
    assert (∀ name, version_input name → file_at old (mirror_file k.1 k.2 name) = file_at new (mirror_file k.1 k.2 name)) as Heq.
    { intros name Hv. destruct (decide (file_at old (mirror_file k.1 k.2 name) = file_at new (mirror_file k.1 k.2 name))) as [E|E]; [done|].
      destruct Hc. apply (mirror_file_listed _ _ name); [done..|]. apply Hdiff; [done|by apply mirror_file_printed|by apply Hin|done]. }
    split_and!; [done..| |].
    + intros name Hv. rewrite Heq by done. by apply Hin.
    + intros w. by apply analyzed_agree.
Qed.

(** A call that moves the tree. *)
Lemma follow_moved cs st c : index_wf (is_index (fo_store st)) → moved c = true →
  (old_head c (fo_head st) ≠ "" → old_head c (fo_head st) ≠ sy_tip c → synced cs (fo_store st) (fo_owed st) (old_head c (fo_head st))) →
  let st' := follow st c in fo_head st' = Some (sy_tip c) ∧ index_wf (is_index (fo_store st')) ∧
  synced (cs ++ [c]) (fo_store st') (fo_owed st') (sy_tip c).
Proof.
  intros Hwf [Hf Hr]%bool_decide_eq_true_1 Hold. unfold Watch.follow, moved. rewrite bool_decide_true by done. unfold Watch.handle, changedModuleVersions. rewrite Hf, Hr.
  set (changed := taken_up c (fo_head st)). unfold Watch.left_behind. fold changed.
  assert (∀ s' gone, (∀ j, j ∉ changed → ix_versions (is_index s') !! j = ix_versions (is_index (fo_store st)) !! j) →
    (∀ k, k ∈ changed → k ∉ gone → row_of [c] s' (sy_tip c) k) →
    synced (cs ++ [c]) s' ((fo_owed st ∖ list_to_set changed) ∪ list_to_set gone) (sy_tip c)) as Hsync.
  { intros s' gone Hout Hin k Hk Hcom Ho. apply not_elem_of_union in Ho as [Ho Hg]. rewrite not_elem_of_list_to_set in Hg.
    destruct (decide (k ∈ changed)) as [Hc|Hc].
    { destruct (Hin k Hc Hg) as (c' & d & r & Hc' & ?). exists c', d, r. split; [set_solver|done]. }
    destruct (listed_or_same (old_head c (fo_head st)) (sy_tip c) k Hk Hcom) as [?|(Hne & Hnt & Hcom' & Ha)]; [done|].
    destruct (Hold Hne Hnt k Hk Hcom') as (c' & d & r & Hc' & Ha' & Hrow); [set_solver|].
    exists c', d, r. rewrite <-Ha, Hout by done. split; [set_solver|done]. }
  destruct (sy_new c) as [e|] eqn:En.
  { cbn. rewrite decide_False by by intros []. split_and!; [done..|]. by apply Hsync. }
  destruct (sy_list c) as [e|] eqn:El.
  { cbn. rewrite decide_False by by intros []. split_and!; [done..|]. by apply Hsync. }
  cbn [snd fst fo_head fo_store fo_owed]. rewrite decide_True by done. fold (taken_up c (fo_head st)). fold changed. unfold Watch.reingest.
  set (l := match sy_killed c with Some n => take n changed | None => changed end).
  pose proof (ingest_batch c l (fo_store st) Hwf) as H. destruct (foldl _ _ l) as [s' failed]. destruct H as (Hwf' & Hout & _ & Hin & _). cbn [fst snd].
  assert (∀ k, k ∈ changed ↔ k ∈ l ∨ k ∈ match sy_killed c with Some n => drop n changed | None => [] end) as Hl.
  { intros k. unfold l. destruct (sy_killed c) as [n|]; [by rewrite <-elem_of_app, take_drop|]. split; [by left|by intros [?|?%elem_of_nil]]. }
  split_and!; [done..|]. apply Hsync.
  - intros j Hj. apply Hout. intros ?. apply Hj, Hl. by left.
  - intros k [Hk|Hk]%Hl [Hf' Hd]%not_elem_of_app; [by apply Hin|done].
Qed.

(** The calls that fail before the working tree moves leave everything as it was. *)
Lemma follow_early st c : moved c = false → follow st c = st.
Proof.
  intros Hm. unfold Watch.follow. rewrite Hm. apply bool_decide_eq_false in Hm. unfold Watch.handle.
  destruct (sy_fetch c); [by destruct st|]. destruct (sy_reset c); [by destruct st|]. by destruct Hm.
Qed.

(** What a call leaves behind it could not ingest, unless it ended before. *)
Lemma left_behind_why c st k : index_wf (is_index (fo_store st)) → sy_new c = None → sy_list c = None → sy_killed c = None →
  k ∈ left_behind c (fo_head st) (fo_store st) → ¬ can_ingest (sy_at c k) (sy_tip c) k.
Proof.
  intros Hwf Hn Hl Hk. unfold Watch.left_behind, Watch.reingest. rewrite decide_True by done. rewrite Hk, app_nil_r.
  pose proof (ingest_batch c (taken_up c (fo_head st)) (fo_store st) Hwf) as H. destruct (foldl _ _ _) as [s' failed]. by apply H.
Qed.

(** C5: The index follows the branch, but for what it owes.  Over any sequence of calls of the
    handler, whatever fails in each, the process's death included, it has for every version
    whose two files are in the commit of the working tree the report that one of the calls
    made of these files, unless the last call that took the version up left it behind: its
    ingest failed, or the call ended before it; it is owed until a listing names it again.  A call that fails before the tree moves changes
    nothing.  One that lists and runs to its end leaves behind only what it could not
    ingest, and if it finds the tree already at the tip, or without a commit, it takes up
    every version there is and owes no other, whatever the index was. *)
Theorem watch_synced seen cs st (Hwf : index_wf (is_index (fo_store st)))
    (Hstart : ∀ sha, fo_head st = Some sha → synced seen (fo_store st) (fo_owed st) sha) :
  let st' := handles cs st in
  index_wf (is_index (fo_store st')) ∧ (∀ sha, fo_head st' = Some sha → synced (seen ++ cs) (fo_store st') (fo_owed st') sha) ∧
  (∀ c, moved c = false → follow st' c = st') ∧
  (∀ c, moved c = true → sy_new c = None → sy_list c = None → sy_killed c = None → let st'' := follow st' c in
     fo_head st'' = Some (sy_tip c) ∧
     (∀ k, k ∈ fo_owed st'' → k ∈ fo_owed st' ∨ ¬ can_ingest (sy_at c k) (sy_tip c) k) ∧
     (∀ k, k ∈ taken_up c (fo_head st') → can_ingest (sy_at c k) (sy_tip c) k → k ∉ fo_owed st'')) ∧
  (∀ c st1 k, index_wf (is_index (fo_store st1)) → moved c = true → sy_new c = None → sy_list c = None → sy_killed c = None →
     old_head c (fo_head st1) = "" ∨ old_head c (fo_head st1) = sy_tip c →
     nameable k → in_commit (sy_tip c) k → can_ingest (sy_at c k) (sy_tip c) k → row_of [c] (fo_store (follow st1 c)) (sy_tip c) k).
Proof.
  cbn zeta. assert (index_wf (is_index (fo_store (handles cs st))) ∧
    ∀ sha, fo_head (handles cs st) = Some sha → synced (seen ++ cs) (fo_store (handles cs st)) (fo_owed (handles cs st)) sha) as [Hwf' Hs'].
  { unfold Watch.handles. induction cs as [|c cs IH] using rev_ind; [by rewrite app_nil_r|].
    rewrite foldl_app, app_assoc. cbn [foldl]. destruct IH as [Hwf1 Hs1]. destruct (moved c) eqn:Hm.
    - destruct (follow_moved (seen ++ cs) _ c Hwf1 Hm) as (Hh & ? & Hs).
      { unfold old_head. destruct (sy_old c); [|done]. destruct (fo_head (foldl _ _ _)) as [sha|]; [|done]. intros _ _. by apply Hs1. }
      split; [done|]. rewrite Hh. by intros sha [= <-].
    - rewrite follow_early by done. split; [done|]. intros sha Hsha. eapply synced_mono; [|by apply Hs1]. set_solver. }
  split_and!; [done|done|by apply follow_early| |].
  - intros c Hm Hn Hl Hk. pose proof (λ k, left_behind_why c (handles cs st) k Hwf' Hn Hl Hk) as Hwhy.
    assert (fo_head (follow (handles cs st) c) = Some (sy_tip c)) as Hh.
    { pose proof Hm as [Hf Hr]%bool_decide_eq_true_1. unfold Watch.follow, Watch.handle, changedModuleVersions. by rewrite Hf, Hr, Hn, Hl. }
    assert (fo_owed (follow (handles cs st) c) = (fo_owed (handles cs st) ∖ list_to_set (taken_up c (fo_head (handles cs st))))
      ∪ list_to_set (left_behind c (fo_head (handles cs st)) (fo_store (handles cs st)))) as ->.
    { unfold Watch.follow. destruct (handle _ _ _) as [e [h s]]. cbn [snd fo_owed]. by rewrite Hm. }
    split_and!; [done| |].
    + intros k [[? _]%elem_of_difference|Hb%elem_of_list_to_set]%elem_of_union; [by left|right]. by apply Hwhy.
    + intros k Ht Hc [[_ Hno]%elem_of_difference|Hb%elem_of_list_to_set]%elem_of_union; [by apply Hno, elem_of_list_to_set|by apply (Hwhy k)].
  - intros c st1 k Hwf1 Hm Hn Hl Hk Ho Hnm Hin Hcan.
    pose proof (left_behind_why c st1 k Hwf1 Hn Hl Hk) as Hwhy.
    destruct (follow_moved [] st1 c Hwf1 Hm) as (_ & _ & Hs); [by intros ??; destruct Ho|]. apply (Hs k Hnm Hin).
    assert (k ∈ taken_up c (fo_head st1)) as Ht.
    { destruct (listed_or_same (old_head c (fo_head st1)) (sy_tip c) k Hnm Hin) as [?|(? & ? & _)]; [done|by destruct Ho]. }
    unfold Watch.follow. destruct (handle _ _ _) as [e [h s]]. cbn [snd fo_owed]. rewrite Hm.
    intros [[_ Hno]%elem_of_difference|Hb%elem_of_list_to_set]%elem_of_union; [by apply Hno, elem_of_list_to_set|by apply Hwhy].
Qed.
End synced.

(** ** A branch of three commits *)

Definition demo_tree (sha : string) : list string :=
  let files m := [mirror_file m "1" "MODULE.bazel"; mirror_file m "1" "source.json"] in
  if decide (sha = "c1") then files "a" else if decide (sha = "c2") then files "a" ++ files "b"
  else if decide (sha = "c3") then files "a" ++ files "b" ++ files "c" else [].
Definition demo_at (sha p : string) : option bytes := if decide (p ∈ demo_tree sha) then Some [] else None.
Definition demo_diff (a b : string) : string := text_of (filter (λ p, demo_at a p ≠ demo_at b p) (demo_tree a ++ demo_tree b)).
Definition demo_text (r : ModuleReport) : string := rep_Name r +:+ "/" +:+ rep_Version r.
(** An archive that can be had, and one that cannot for the moment. *)
Definition demo_moment (get : string → result string (list bytes * option string)) : moment :=
  mkMoment (λ _, false) get (Ok "/tmp/r") (λ _, None) (λ _, None) (λ _, None) (λ _, Ok (emptyReport "x" "0")) (λ _, demo_analyze "")
    (λ _, demo_files) None.
Definition calm (_ : coord) : moment := demo_moment short_get.
Definition no_b (k : coord) : moment := demo_moment (if decide (k = ("b", "1")) then λ _, Err "timeout" else short_get).
Definition demo_handle : sync_call → option string → indexed_store → option string * (option string * indexed_store) :=
  handle (λ _, "") (λ _, "") demo_text demo_at (λ sha, text_of (demo_tree sha)) demo_diff (λ _, Ok (short_src ""))
    (stops_after 2) (λ _, None) (λ _, Err "zip") id (demo_parse []) (λ a : string, Ok a) true.
Definition demo_handles : list sync_call → followed → followed :=
  handles (λ _, "") (λ _, "") demo_text demo_at (λ sha, text_of (demo_tree sha)) demo_diff (λ _, Ok (short_src ""))
    (stops_after 2) (λ _, None) (λ _, Err "zip") id (demo_parse []) (λ a : string, Ok a).
Definition during (at_ : coord → moment) (tip : string) : sync_call := mkSync tip true None None None None at_ None "now".
Definition fine : string → sync_call := during calm.
Definition no_store : indexed_store := mkStore emptyIndex emptyTables.
Definition nothing : followed := mkFollowed None no_store ∅.
(** The modules it has, those it owes, and the tip of the working tree. *)
Definition has (st : followed) : list string * list string * option string :=
  (filter (λ m, is_Some (ix_versions (is_index (fo_store st)) !! (m, "1"))) ["a"; "b"; "c"],
   filter (λ m, (m, "1") ∈ fo_owed st) ["a"; "b"; "c"], fo_head st).

Example batches : has (demo_handles [fine "c1"; fine "c3"] nothing) = (["a"; "b"; "c"], [], Some "c3").
Proof. vm_compute. reflexivity. Qed.

(** A download that fails once: the version is owed, whatever the next batches bring, until
    the whole tree is taken. *)
Example not_retried : has (demo_handles [fine "c1"; during no_b "c2"; fine "c3"] nothing) = (["a"; "c"], ["b"], Some "c3").
Proof. vm_compute. reflexivity. Qed.
Example retaken : has (demo_handles [fine "c1"; during no_b "c2"; fine "c3"; fine "c3"] nothing) = (["a"; "b"; "c"], [], Some "c3").
Proof. vm_compute. reflexivity. Qed.

(** A call that ends between the reset and the ingest, and returns its error, so that its
    commits are delivered again: at the same tip the whole tree is read.  If the branch has
    moved on meanwhile, what the first batch brought is not part of the difference, and is
    not ingested, until a call happens to find the tree at the tip. *)
Definition cut_short (tip : string) : sync_call := mkSync tip true None None None (Some "signal: killed") calm None "now".
Example batch_replayed : has (demo_handles [fine "c1"; cut_short "c2"; fine "c2"] nothing) = (["a"; "b"], [], Some "c2").
Proof. vm_compute. reflexivity. Qed.
Example batch_lost : has (demo_handles [fine "c1"; cut_short "c2"; fine "c3"] nothing) = (["a"; "c"], ["b"], Some "c3").
Proof. vm_compute. reflexivity. Qed.

(** A listing that fails is not an error of the call: the batch counts as delivered. *)
Example listing_swallowed :
  let c := mkSync "c2" true None None None (Some "exit status 128") calm None "now" in
  (demo_handle c (Some "c1") no_store).1 = None ∧
  has (demo_handles [c] (mkFollowed (Some "c1") no_store ∅)) = ([], ["b"], Some "c2").
Proof. vm_compute. split; reflexivity. Qed.

(** The file beside a module's versions is taken for a version. *)
Example metadata_listed : changed_in (text_of ["modules/a/metadata.json"; "modules/a/1/source.json"]) = [("a", "metadata.json"); ("a", "1")].
Proof. vm_compute. reflexivity. Qed.

Lemma demo_tree_lines sha : Forall one_line (demo_tree sha).
Proof. unfold demo_tree. repeat case_decide; refine (bool_decide_unpack _ _); vm_compute; exact I. Qed.

Lemma listed_line p l : Forall one_line l → p ∈ l → p ∈ Split (text_of l) newline.
Proof.
  intros Hl Hp. rewrite Split_text_of. apply elem_of_app. left. apply list_elem_of_bind. exists p. split; [|done].
  rewrite Forall_forall in Hl. rewrite (Split_one_line p (Hl p Hp)). by left.
Qed.

Lemma demo_ls a p : HasPrefix p "modules/" = true → printed p → is_Some (demo_at a p) → p ∈ Split (text_of (demo_tree a)) newline.
Proof. intros _ _ [b Hb]. apply listed_line; [apply demo_tree_lines|]. unfold demo_at in Hb. by case_decide. Qed.

Lemma demo_differs a b p : HasPrefix p "modules/" = true → printed p → is_Some (demo_at b p) → demo_at a p ≠ demo_at b p →
  p ∈ Split (demo_diff a b) newline.
Proof.
  intros _ _ _ Hn. apply listed_line.
  - apply Forall_forall. intros x [_ Hx]%list_elem_of_filter. pose proof (demo_tree_lines a) as Ha. pose proof (demo_tree_lines b) as Hb.
    rewrite Forall_forall in Ha, Hb. apply elem_of_app in Hx as [Hx|Hx]; auto.
  - apply list_elem_of_filter. split; [done|]. apply elem_of_app. unfold demo_at in Hn. repeat case_decide; first [by left|by right|by destruct Hn].
Qed.

Lemma watch_synced_witness :
  let cs := [fine "c1"; mkSync "c2" true (Some "timeout") None None None calm None "now"; during no_b "c3"] in
  row_of demo_text demo_at (λ _, Ok (short_src "")) (stops_after 2) (λ _, None) (λ _, Err "zip") cs (fo_store (demo_handles cs nothing)) "c3" ("c", "1").
Proof.
  cbn zeta.
  destruct (watch_synced (λ _, "") (λ _, "") demo_text demo_at (λ sha, text_of (demo_tree sha)) demo_diff (λ _, Ok (short_src ""))
    (stops_after 2) (λ _, None) (λ _, Err "zip") id (demo_parse []) (λ a : string, Ok a) demo_ls demo_differs []
    [fine "c1"; mkSync "c2" true (Some "timeout") None None None calm None "now"; during no_b "c3"] nothing emptyIndex_wf) as (_ & Hs & _).
  - done.
  - refine (Hs "c3" _ ("c", "1") _ _ _); [vm_compute; reflexivity|refine (bool_decide_unpack _ _); vm_compute; exact I| |].
    + intros name [->| ->]; vm_compute; by eexists.
    + refine (bool_decide_unpack _ _). vm_compute. exact I.
Defined.
