(* ===== verification/Startup.v ===== *)
(** * Starting and reloading

    What a process makes of its environment: the deployment profile and the egress posture
    (internal/config, configureProcessEgress of cmd/bzlhub/main.go), secrets
    (internal/secrets), the feature flags and their gates (internal/featureflags), the
    order in which [serve] takes these before it listens (cmd/bzlhub/serve.go), and the
    reload of its two files on a signal (internal/runtime/reload.go).  The environment and
    what the files hold are arguments; the readers of the identity file and of the policy
    are those of IdentityAuth and PolicyLoad, the enforcement of the posture is Egress. *)

From S2P Require Import Prelude Strings Cascade Archive Policy PolicyLoad Digest IdentityAuth Egress.

(** ** Profiles *)

Inductive Profile : Type := ProfileDefault | ProfileMirrorOnly | ProfileSyncRunner.
#[export] Instance Profile_eq_dec : EqDecision Profile.
Proof. solve_decision. Defined.

Definition Profile_String (p : Profile) : string :=
  match p with ProfileDefault => "default" | ProfileMirrorOnly => "mirror-only" | ProfileSyncRunner => "sync-runner" end.
Definition AllProfiles : list Profile := [ProfileDefault; ProfileMirrorOnly; ProfileSyncRunner].
Definition ParseProfile (s : string) : option Profile := snd <$> list_find (λ p, Profile_String p = s) AllProfiles.

Definition profileEgressMode (p : Profile) : string :=
  match p with ProfileMirrorOnly => "deny" | ProfileSyncRunner => "audit" | ProfileDefault => "allow" end.

Record Config := mkDeployment { cfg_Profile : Profile; cfg_Allow : list string; cfg_Mode : string }.

(** Why a process does not start. *)
Inductive StartError : Type :=
| UnknownProfile (raw : string)
| ForbiddenAllow (n : nat)
| RequiresAllow
| BadMode (e : string)
| AuditFileRequired (p : Profile)
| AuditFileFailed (e : string).

(** [Config.Validate] *)
Definition Validate (c : Config) : option StartError :=
  if decide (cfg_Profile c = ProfileMirrorOnly ∧ cfg_Allow c ≠ []) then Some (ForbiddenAllow (length (cfg_Allow c)))
  else if decide (cfg_Profile c = ProfileSyncRunner ∧ cfg_Allow c = []) then Some RequiresAllow
  else None.

(** [parseCSV] *)
Definition parseCSV (raw : string) : list string := filter (λ p, p ≠ "") (TrimSpace <$> Split raw ","%char).

Section environment.
Context (getenv : string → string).

(** [LoadEnvironment] *)
Definition LoadEnvironment : result StartError Config :=
  let raw := TrimSpace (getenv "BZLHUB_PROFILE") in
  profile ← (if decide (raw = "") then Ok ProfileDefault
             else match ParseProfile raw with Some p => Ok p | None => Err (UnknownProfile raw) end);
  let cfg := mkDeployment profile (parseCSV (getenv "BZLHUB_ALLOWED_HOSTS")) (profileEgressMode profile) in
  match Validate cfg with Some e => Err e | None => Ok cfg end.

(** [configureProcessEgress]: what becomes of the audit file is an argument; the answer is
    what [ConfigureDefault] and [SetDefaultAllowedHosts] are given. *)
Definition configureProcessEgress (open_audit : string → option string) : result StartError (EgressPolicy * Sink * list string) :=
  cfg ← LoadEnvironment;
  mode ← map_err BadMode (ParseMode (cfg_Mode cfg));
  let raw := getenv "BZLHUB_EGRESS_AUDIT_FILE" in
  sink ← (if decide (raw ≠ "") then
            match open_audit (path_clean raw) with Some e => Err (AuditFileFailed e) | None => Ok Recording end
          else if (mode =? ModeDeny)%Z || (mode =? ModeAudit)%Z then Err (AuditFileRequired (cfg_Profile cfg))
          else Ok NopSink);
  Ok (mkEgressPolicy mode (cfg_Allow cfg), sink, cfg_Allow cfg).

(** [secrets.Read]; an unreadable file is an empty secret. *)
Definition Read (ReadFile : string → result string string) (envName : string) : string :=
  let path := getenv (envName +:+ "_FILE") in
  if decide (path ≠ "") then match ReadFile path with Ok b => TrimSpace b | Err _ => "" end
  else TrimSpace (getenv envName).

(** ** Feature flags *)

Record Flags := mkFlags {
  fl_IngestWriteEnabled : bool;
  fl_RequireFrontProxy : bool;
  fl_RegistryURL : string;
  fl_IngestAllowCustomUpstream : bool;
  fl_IngestRateLimitPerMin : Z;
  fl_IngestRateBypassIPs : list string;
  fl_IngestMaxConcurrent : Z;
  fl_AttrsInterpret : bool;
  fl_DemoMode : bool;
  fl_DemoBanner : string;
  fl_MCPHTTPEnabled : bool;
  fl_MCPWriteToolsEnabled : bool;
}.

Inductive FlagError : Type :=
| NotBool (name raw : string)
| NotInt (name raw : string)
| Negative (name : string) (n : Z).

(** [strconv.ParseBool] *)
Definition ParseBool (s : string) : option bool :=
  if decide (s ∈ ["1"; "t"; "T"; "TRUE"; "true"; "True"]) then Some true
  else if decide (s ∈ ["0"; "f"; "F"; "FALSE"; "false"; "False"]) then Some false
  else None.

(** [envBool], [envInt], [envCSV]: the value, and the errors added to those so far. *)
Definition envBool (name : string) (def : bool) : bool * list FlagError :=
  let raw := TrimSpace (getenv name) in
  if decide (raw = "") then (def, [])
  else match ParseBool raw with Some v => (v, []) | None => (def, [NotBool name raw]) end.
Definition envInt (name : string) (def : Z) : Z * list FlagError :=
  let raw := TrimSpace (getenv name) in
  if decide (raw = "") then (def, [])
  else match ParseInt raw with Some v => (v, []) | None => (def, [NotInt name raw]) end.
Definition envCSV (name : string) : list string :=
  let raw := TrimSpace (getenv name) in
  if decide (raw = "") then [] else parseCSV raw.

Definition negative (name : string) (n : Z) : list FlagError := if (n <? 0)%Z then [Negative name n] else [].

(** [Parse]; the errors are joined. *)
Definition Parse : result (list FlagError) Flags :=
  let '(write, e1) := envBool "BZLHUB_INGEST_WRITE_ENABLED" false in
  let url := TrimSpace (getenv "BZLHUB_REGISTRY_URL") in
  let url := if decide (url = "") then "https://bcr.bazel.build" else url in
  let '(custom, e2) := envBool "BZLHUB_INGEST_ALLOW_CUSTOM_UPSTREAM" false in
  let '(rate, e3) := envInt "BZLHUB_INGEST_RATE_LIMIT_PER_MIN" 5 in
  let '(conc, e4) := envInt "BZLHUB_INGEST_MAX_CONCURRENT" 1 in
  let bypass := envCSV "BZLHUB_INGEST_RATE_BYPASS_IPS" in
  let '(attrs, e5) := envBool "BZLHUB_ATTRS_INTERPRET" false in
  let '(demo, e6) := envBool "BZLHUB_DEMO_MODE" false in
  let banner := TrimSpace (getenv "BZLHUB_DEMO_BANNER") in
  let '(mcp, e7) := envBool "BZLHUB_MCP_HTTP_ENABLED" false in
  let '(mcpw, e8) := envBool "BZLHUB_MCP_WRITE_TOOLS_ENABLED" false in
  let '(front, e9) := envBool "BZLHUB_REQUIRE_FRONT_PROXY" true in
  let errs := e1 ++ e2 ++ e3 ++ e4 ++ e5 ++ e6 ++ e7 ++ e8 ++ e9 ++
              negative "BZLHUB_INGEST_RATE_LIMIT_PER_MIN" rate ++ negative "BZLHUB_INGEST_MAX_CONCURRENT" conc in
  match errs with
  | [] => Ok (mkFlags write front url custom rate bypass conc attrs demo banner mcp mcpw)
  | _ => Err errs
  end.

(** [IsRateBypassIP] and [Public]: what the site may see. *)
Definition IsRateBypassIP (f : Flags) (remoteAddr : string) : bool := bool_decide (remoteAddr ∈ fl_IngestRateBypassIPs f).
Record PublicSnapshot := mkSnapshot { ps_IngestWriteEnabled : bool; ps_DemoMode : bool; ps_DemoBanner : string }.
Definition Public (f : Flags) : PublicSnapshot := mkSnapshot (fl_IngestWriteEnabled f) (fl_DemoMode f) (fl_DemoBanner f).

(** ** The boot of [serve] *)

Inductive BootError : Type :=
| BadFlags (es : list FlagError)
| BadCIDR (e : string)
| DirectExposure
| BadIdentityFile (e : IdentityAuth.LoadError)
| BadPolicyFile (e : PolicyLoad.LoadError)
| MCPNeedsHTTP
| MCPNeedsIdentity
| MCPNeedsPolicy.

(** [CheckSafeStartup] *)
Definition CheckSafeStartup (f : Flags) (hasTrustedProxy : bool) : option BootError :=
  if negb (fl_RequireFrontProxy f) then None
  else if negb (fl_IngestWriteEnabled f) then None
  else if hasTrustedProxy then None
  else Some DirectExposure.

(** [CheckMCPWriteStartup] *)
Definition CheckMCPWriteStartup (f : Flags) (hasIdentitySource hasPolicy : bool) : option BootError :=
  if negb (fl_MCPWriteToolsEnabled f) then None
  else if negb (fl_MCPHTTPEnabled f) then Some MCPNeedsHTTP
  else if negb hasIdentitySource then Some MCPNeedsIdentity
  else if negb hasPolicy then Some MCPNeedsPolicy
  else None.

Context (ParseCIDR : string → result string IPNet).
Context (unmarshal_ids : bytes → result string identityFile).
Context (read_profile : string → result string string) (yaml_head : string → result string (Z * string)).
Context (yaml_policy : string → result string Policy) (yaml_map : string → result string (list (string * yaml))).
Context (marshal_policy : Policy → result string string) (marshal_map : list (string * yaml) → result string string).
Definition load_ids (f : opened) : result IdentityAuth.LoadError IdentityRegistry := LoadIdentityFile unmarshal_ids f.
Definition load_policy (f : file_content) : result PolicyLoad.LoadError Policy :=
  fst <$> LoadFile read_profile yaml_head yaml_policy yaml_map marshal_policy marshal_map f.

Record Booted := mkBooted { bt_flags : Flags; bt_cidrs : list IPNet; bt_registry : option IdentityRegistry; bt_policy : option Policy }.

Definition identityPath : string := TrimSpace (getenv "BZLHUB_IDENTITY_FILE").
Definition policyPath : string := TrimSpace (getenv "BZLHUB_POLICY_FILE").

Definition guard_ (o : option BootError) : result BootError unit := match o with Some e => Err e | None => Ok tt end.

Definition boot (ids : opened) (pol : file_content) : result BootError Booted :=
  flags ← map_err BadFlags Parse;
  cidrs ← map_err BadCIDR (ParseTrustedProxyCIDRs ParseCIDR (getenv "BZLHUB_TRUSTED_PROXY_CIDR"));
  _ ← guard_ (CheckSafeStartup flags (negb (bool_decide (cidrs = []))));
  registry ← (if decide (identityPath = "") then Ok None else Some <$> map_err BadIdentityFile (load_ids ids));
  policy ← (if decide (policyPath = "") then Ok None else Some <$> map_err BadPolicyFile (load_policy pol));
  _ ← guard_ (CheckMCPWriteStartup flags (bool_decide (is_Some registry) || negb (bool_decide (cidrs = []))) (bool_decide (is_Some policy)));
  Ok (mkBooted flags cidrs registry policy).

(** ** The reload on a signal *)

Inductive reloader : Type := RIdentity | RPolicy.

(** The reloaders that [serve] registers. *)
Definition registered (b : Booted) : list reloader :=
  (match bt_registry b with Some _ => [RIdentity] | None => [] end) ++ (if decide (policyPath = "") then [] else [RPolicy]).

(** A running server: its two files as they are now, what it holds of them, the buffered
    signal, the buffered trigger, and the reloaders still to be called in this round. *)
Record Live := mkLive {
  lv_ids : opened; lv_pol : file_content; lv_registry : option IdentityRegistry; lv_policy : option Policy;
  lv_hup : bool; lv_out : bool; lv_queue : list reloader;
}.
Definition started (b : Booted) (ids : opened) (pol : file_content) : Live :=
  mkLive ids pol (bt_registry b) (bt_policy b) false false [].

(** The files change, signals come, and the two goroutines take their steps; each buffer
    holds one, and what comes on top of it is dropped. *)
Inductive live_event : Type :=
| EditIds (f : opened)
| EditPolicy (f : file_content)
| Hup
| Forward   (** [SIGHUPTrigger] passes a signal on *)
| Take      (** [Run] takes a trigger *)
| Call.     (** [runOnce] calls the next reloader *)

Definition reload_one (r : reloader) (l : Live) : Live :=
  match r with
  | RIdentity => match load_ids (lv_ids l) with
                 | Err _ => l
                 | Ok reg => mkLive (lv_ids l) (lv_pol l) (Replace (lv_registry l) (Some reg)) (lv_policy l) (lv_hup l) (lv_out l) (lv_queue l)
                 end
  | RPolicy => match load_policy (lv_pol l) with
               | Err _ => l
               | Ok p => mkLive (lv_ids l) (lv_pol l) (lv_registry l) (Some p) (lv_hup l) (lv_out l) (lv_queue l)
               end
  end.

Definition live_step (b : Booted) (l : Live) (e : live_event) : Live :=
  match e with
  | EditIds f => mkLive f (lv_pol l) (lv_registry l) (lv_policy l) (lv_hup l) (lv_out l) (lv_queue l)
  | EditPolicy f => mkLive (lv_ids l) f (lv_registry l) (lv_policy l) (lv_hup l) (lv_out l) (lv_queue l)
  | Hup => mkLive (lv_ids l) (lv_pol l) (lv_registry l) (lv_policy l) true (lv_out l) (lv_queue l)
  | Forward => if lv_hup l then mkLive (lv_ids l) (lv_pol l) (lv_registry l) (lv_policy l) false true (lv_queue l) else l
  | Take =>
      match lv_queue l with
      | [] => if lv_out l then mkLive (lv_ids l) (lv_pol l) (lv_registry l) (lv_policy l) (lv_hup l) false (registered b) else l
      | _ => l
      end
  | Call =>
      match lv_queue l with
      | [] => l
      | r :: q => reload_one r (mkLive (lv_ids l) (lv_pol l) (lv_registry l) (lv_policy l) (lv_hup l) (lv_out l) q)
      end
  end.
Definition live_run (b : Booted) : list live_event → Live → Live := λ evs l, foldl (live_step b) l evs.

(** Nothing is left to do; and how much is. *)
Definition quiescent (l : Live) : Prop := lv_hup l = false ∧ lv_out l = false ∧ lv_queue l = [].
Definition work (b : Booted) (l : Live) : nat :=
  length (lv_queue l) + (if lv_out l then 1 + length (registered b) else 0) + (if lv_hup l then 2 + length (registered b) else 0).

Definition is_edit (e : live_event) : bool := match e with EditIds _ | EditPolicy _ => true | _ => false end.
Definition inner (e : live_event) : bool := match e with Forward | Take | Call => true | _ => false end.

(** ** What a booted server holds *)

Definition ids_seen (ids : opened) (evs : list live_event) : list opened := ids :: omap (λ e, match e with EditIds f => Some f | _ => None end) evs.
Definition pol_seen (pol : file_content) (evs : list live_event) : list file_content :=
  pol :: omap (λ e, match e with EditPolicy f => Some f | _ => None end) evs.

Lemma boot_spec ids pol b : boot ids pol = Ok b →
  Parse = Ok (bt_flags b) ∧ ParseTrustedProxyCIDRs ParseCIDR (getenv "BZLHUB_TRUSTED_PROXY_CIDR") = Ok (bt_cidrs b) ∧
  CheckSafeStartup (bt_flags b) (negb (bool_decide (bt_cidrs b = []))) = None ∧
  (if decide (identityPath = "") then bt_registry b = None else ∃ r, load_ids ids = Ok r ∧ bt_registry b = Some r) ∧
  (if decide (policyPath = "") then bt_policy b = None else ∃ p, load_policy pol = Ok p ∧ bt_policy b = Some p) ∧
  CheckMCPWriteStartup (bt_flags b) (bool_decide (is_Some (bt_registry b)) || negb (bool_decide (bt_cidrs b = []))) (bool_decide (is_Some (bt_policy b))) = None.
Proof.
  unfold boot. destruct Parse as [f|e]; [|done]. destruct (ParseTrustedProxyCIDRs _ _) as [c|e]; [|done]. cbn [map_err mbind result_bind].
  destruct (CheckSafeStartup _ _) as [e|] eqn:E1; [done|]. cbn [guard_ mbind result_bind].
  set (reg := if decide (identityPath = "") then _ else _). destruct reg as [r|e] eqn:Er; [|done]. cbn [mbind result_bind].
  set (pl := if decide (policyPath = "") then _ else _). destruct pl as [p|e] eqn:Ep; [|done]. cbn [mbind result_bind].
  destruct (CheckMCPWriteStartup _ _ _) as [e|] eqn:E2; [done|]. cbn [guard_ mbind result_bind]. intros [= <-]. cbn [bt_flags bt_cidrs bt_registry bt_policy].
  subst reg pl. split_and!; [done..| | |done].
  - destruct (decide (identityPath = "")); [congruence|]. destruct (load_ids ids) as [r0|]; [|done]. exists r0. cbn in Er. split; congruence.
  - destruct (decide (policyPath = "")); [congruence|]. destruct (load_policy pol) as [p0|]; [|done]. exists p0. cbn in Ep. split; congruence.
Qed.

(** What a run keeps: the files are ones that were there, and what is held was loaded from
    one of them. *)
Record holds_loaded (b : Booted) (ids : list opened) (pol : list file_content) (l : Live) : Prop := {
  hl_ids : lv_ids l ∈ ids;
  hl_pol : lv_pol l ∈ pol;
  hl_registry : if decide (identityPath = "") then lv_registry l = None else ∃ f r, f ∈ ids ∧ load_ids f = Ok r ∧ lv_registry l = Some r;
  hl_policy : if decide (policyPath = "") then lv_policy l = None else ∃ f p, f ∈ pol ∧ load_policy f = Ok p ∧ lv_policy l = Some p;
  hl_queue : ∀ r, r ∈ lv_queue l → r ∈ registered b;
}.

Lemma registered_ids b ids pol : boot ids pol = Ok b → RIdentity ∈ registered b ↔ identityPath ≠ "".
Proof.
  intros (_ & _ & _ & Hr & _)%boot_spec. unfold registered. rewrite elem_of_app. destruct (decide (identityPath = "")) as [E|E].
  - rewrite Hr. split; [|done]. intros [[]%elem_of_nil|H]. case_decide; [by apply elem_of_nil in H|by apply list_elem_of_singleton in H].
  - destruct Hr as (r & _ & ->). split; [done|]. intros _. left. by left.
Qed.
Lemma registered_policy b ids pol : boot ids pol = Ok b → RPolicy ∈ registered b ↔ policyPath ≠ "".
Proof.
  intros (_ & _ & _ & _ & _ & _)%boot_spec. unfold registered. rewrite elem_of_app. destruct (decide (policyPath = "")) as [E|E].
  - split; [|done]. intros [H|[]%elem_of_nil]. destruct (bt_registry b); [by apply list_elem_of_singleton in H|by apply elem_of_nil in H].
  - split; [done|]. intros _. right. by left.
Qed.

Lemma holds_weaken b ids ids' pol pol' l : (∀ f, f ∈ ids → f ∈ ids') → (∀ f, f ∈ pol → f ∈ pol') → holds_loaded b ids pol l → holds_loaded b ids' pol' l.
Proof.
  intros Hi Hp [H1 H2 H3 H4 H5]. split; [by apply Hi|by apply Hp| | |done].
  - destruct (decide (identityPath = "")); [done|]. destruct H3 as (f & r & ? & ? & ?). exists f, r. auto.
  - destruct (decide (policyPath = "")); [done|]. destruct H4 as (f & p & ? & ? & ?). exists f, p. auto.
Qed.

Lemma holds_reload b ids pol l r : holds_loaded b ids pol l →
  (RIdentity = r → identityPath ≠ "") → (RPolicy = r → policyPath ≠ "") → holds_loaded b ids pol (reload_one r l).
Proof.
  intros [H1 H2 H3 H4 H5] Hri Hrp. destruct r; unfold reload_one.
  - specialize (Hri eq_refl). destruct (load_ids (lv_ids l)) as [reg|e] eqn:E; [|done]. split; cbn; [done..| | |done].
    + rewrite decide_False in H3 |- * by done. destruct H3 as (f & r & _ & _ & ->). exists (lv_ids l), reg. done.
    + done.
  - specialize (Hrp eq_refl). destruct (load_policy (lv_pol l)) as [p|e] eqn:E; [|done]. split; cbn; [done..| |done].
    rewrite decide_False in H4 |- * by done. exists (lv_pol l), p. done.
Qed.

Lemma live_run_holds b ids pol evs : boot ids pol = Ok b → holds_loaded b (ids_seen ids evs) (pol_seen pol evs) (live_run b evs (started b ids pol)).
Proof.
  intros Hb. induction evs as [|e evs IH] using rev_ind.
  { pose proof (boot_spec _ _ _ Hb) as (_ & _ & _ & Hr & Hp & _). split; cbn; [by left..| | |by intros r ?%elem_of_nil].
    - destruct (decide (identityPath = "")); [done|]. destruct Hr as (r & ? & ?). exists ids, r. split; [by left|done].
    - destruct (decide (policyPath = "")); [done|]. destruct Hp as (p & ? & ?). exists pol, p. split; [by left|done]. }
  unfold live_run in *. rewrite foldl_app. cbn [foldl]. set (l := foldl (live_step b) (started b ids pol) evs) in *.
  assert (holds_loaded b (ids_seen ids (evs ++ [e])) (pol_seen pol (evs ++ [e])) l) as IH'.
  { eapply holds_weaken; [| |exact IH]; intros f; unfold ids_seen, pol_seen; rewrite omap_app, !elem_of_cons, elem_of_app; tauto. }
  pose proof IH' as [H1 H2 H3 H4 H5]. destruct e; cbn [live_step].
  - split; cbn; try done. unfold ids_seen. rewrite omap_app, elem_of_cons, elem_of_app. right. right. by left.
  - split; cbn; try done. unfold pol_seen. rewrite omap_app, elem_of_cons, elem_of_app. right. right. by left.
  - by split.
  - destruct (lv_hup l); [by split|done].
  - destruct (lv_queue l); [|done]. destruct (lv_out l); [by split|done].
  - destruct (lv_queue l) as [|r q] eqn:Eq; [done|]. apply holds_reload.
    + split; cbn; try done. intros r' Hr'. apply H5. by right.
    + intros <-. apply (registered_ids _ _ _ Hb). apply H5. by left.
    + intros <-. apply (registered_policy _ _ _ Hb). apply H5. by left.
Qed.

(** What a round makes of the files as they are: what does not load changes nothing. *)
Definition reloaded_ids (f : opened) (reg : option IdentityRegistry) : option IdentityRegistry :=
  match load_ids f with Ok r => Replace reg (Some r) | Err _ => reg end.
Definition reloaded_policy (f : file_content) (p : option Policy) : option Policy :=
  if decide (policyPath = "") then p else match load_policy f with Ok p' => Some p' | Err _ => p end.

Record signalled (b : Booted) (l0 l : Live) : Prop := {
  sg_ids : lv_ids l = lv_ids l0;
  sg_pol : lv_pol l = lv_pol l0;
  sg_queue : ∀ r, r ∈ lv_queue l → r ∈ registered b;
  sg_registry : lv_registry l = lv_registry l0 ∨ lv_registry l = reloaded_ids (lv_ids l0) (lv_registry l0);
  sg_policy : lv_policy l = lv_policy l0 ∨ lv_policy l = reloaded_policy (lv_pol l0) (lv_policy l0);
  sg_registry_due : RIdentity ∈ registered b →
    lv_hup l = true ∨ lv_out l = true ∨ RIdentity ∈ lv_queue l ∨ lv_registry l = reloaded_ids (lv_ids l0) (lv_registry l0);
  sg_policy_due : RPolicy ∈ registered b →
    lv_hup l = true ∨ lv_out l = true ∨ RPolicy ∈ lv_queue l ∨ lv_policy l = reloaded_policy (lv_pol l0) (lv_policy l0);
}.

Lemma reloaded_ids_idemp f reg : reloaded_ids f (reloaded_ids f reg) = reloaded_ids f reg.
Proof. unfold reloaded_ids. destruct (load_ids f); [|done]. by destruct reg. Qed.
Lemma reloaded_policy_idemp f p : reloaded_policy f (reloaded_policy f p) = reloaded_policy f p.
Proof. unfold reloaded_policy. case_decide; [done|]. by destruct (load_policy f). Qed.

Lemma reload_one_ids l : reload_one RIdentity l =
  mkLive (lv_ids l) (lv_pol l) (reloaded_ids (lv_ids l) (lv_registry l)) (lv_policy l) (lv_hup l) (lv_out l) (lv_queue l).
Proof. unfold reload_one, reloaded_ids. destruct (load_ids _); [done|]. by destruct l. Qed.
Lemma reload_one_policy l : policyPath ≠ "" → reload_one RPolicy l =
  mkLive (lv_ids l) (lv_pol l) (lv_registry l) (reloaded_policy (lv_pol l) (lv_policy l)) (lv_hup l) (lv_out l) (lv_queue l).
Proof. intros H. unfold reload_one, reloaded_policy. rewrite decide_False by done. destruct (load_policy _); [done|]. by destruct l. Qed.

Lemma signalled_step b l0 l e ids pol : boot ids pol = Ok b → is_edit e = false → signalled b l0 l → signalled b l0 (live_step b l e).
Proof.
  intros Hb He Hs. pose proof Hs as [H1 H2 H3 H4 H5 H6 H7]. destruct e; try done; cbn [live_step].
  - split; cbn; auto.
  - destruct (lv_hup l); [|exact Hs]. split; cbn; auto.
  - destruct (lv_queue l) as [|r q] eqn:Eq; [|exact Hs]. destruct (lv_out l); [|exact Hs]. split; cbn; auto.
  - destruct (lv_queue l) as [|[|] q] eqn:Eq; [exact Hs| |].
    + rewrite reload_one_ids. assert (reloaded_ids (lv_ids l0) (lv_registry l) = reloaded_ids (lv_ids l0) (lv_registry l0)) as E.
      { destruct H4 as [->| ->]; [done|apply reloaded_ids_idemp]. }
      split; cbn; rewrite ?H1, ?H2, ?E; auto; [intros r Hr; apply H3; by right|].
      intros Hr. destruct (H7 Hr) as [?|[?|[[?|?]%elem_of_cons|?]]]; auto. discriminate.
    + assert (policyPath ≠ "") as Hp by (apply (registered_policy _ _ _ Hb), H3; by left). rewrite reload_one_policy by done.
      assert (reloaded_policy (lv_pol l0) (lv_policy l) = reloaded_policy (lv_pol l0) (lv_policy l0)) as E.
      { destruct H5 as [->| ->]; [done|apply reloaded_policy_idemp]. }
      split; cbn; rewrite ?H1, ?H2, ?E; auto; [intros r Hr; apply H3; by right|].
      intros Hr. destruct (H6 Hr) as [?|[?|[[?|?]%elem_of_cons|?]]]; auto. discriminate.
Qed.

Lemma live_progress b l : registered b ≠ [] → ¬ quiescent l → ∃ e, inner e = true ∧ work b (live_step b l e) < work b l.
Proof.
  intros Hreg Hq. unfold work. destruct (lv_queue l) as [|r q] eqn:Eq.
  - destruct (lv_out l) eqn:Eo.
    + exists Take. split; [done|]. cbn [live_step]. rewrite Eq, Eo. cbn. lia.
    + destruct (lv_hup l) eqn:Eh; [|by destruct Hq]. exists Forward. split; [done|]. cbn [live_step]. rewrite Eh. cbn. rewrite Eq. simpl. lia.
  - exists Call. split; [done|]. cbn [live_step]. rewrite Eq.
    assert (∀ l', lv_queue (reload_one r l') = lv_queue l' ∧ lv_out (reload_one r l') = lv_out l' ∧ lv_hup (reload_one r l') = lv_hup l') as H.
    { intros l'. unfold reload_one. destruct r; [by destruct (load_ids _)|by destruct (load_policy _)]. }
    destruct (H (mkLive (lv_ids l) (lv_pol l) (lv_registry l) (lv_policy l) (lv_hup l) (lv_out l) q)) as (-> & -> & ->). cbn. lia.
Qed.

(** C9: A server that starts, and however its two files are edited and it is signalled: if
    clients may have modules ingested, there is a trusted proxy or the operator has waived
    it; if they may write over MCP, it is over HTTP, with a source of identities and a
    policy.  It holds a registry of identities and a policy exactly when it was given their
    files, and each is what one of the contents of its file was loaded as, never one that
    does not load.  A signal is not lost: when nothing is left to do after it, with the
    files as they were then, both have been read anew, a file that does not load leaving
    what was held; and whatever is left to do, some step of the two goroutines brings it
    nearer to its end. *)
Theorem live_guarded ids pol b evs (Hboot : boot ids pol = Ok b) :
  let l := live_run b evs (started b ids pol) in
  (fl_IngestWriteEnabled (bt_flags b) = true → bt_cidrs b ≠ [] ∨ fl_RequireFrontProxy (bt_flags b) = false) ∧
  (fl_MCPWriteToolsEnabled (bt_flags b) = true →
     fl_MCPHTTPEnabled (bt_flags b) = true ∧ (is_Some (lv_registry l) ∨ bt_cidrs b ≠ []) ∧ is_Some (lv_policy l)) ∧
  (if decide (identityPath = "") then lv_registry l = None else ∃ f r, f ∈ ids_seen ids evs ∧ load_ids f = Ok r ∧ lv_registry l = Some r) ∧
  (if decide (policyPath = "") then lv_policy l = None else ∃ f p, f ∈ pol_seen pol evs ∧ load_policy f = Ok p ∧ lv_policy l = Some p) ∧
  (∀ evs', Forall (λ e, is_edit e = false) evs' → let l' := live_run b evs' (live_step b l Hup) in quiescent l' →
     lv_registry l' = reloaded_ids (lv_ids l) (lv_registry l) ∧ lv_policy l' = reloaded_policy (lv_pol l) (lv_policy l)) ∧
  (∀ l1, registered b ≠ [] → ¬ quiescent l1 → ∃ e, inner e = true ∧ work b (live_step b l1 e) < work b l1).
Proof.
  cbn zeta. pose proof (live_run_holds b ids pol evs Hboot) as Hl. set (l := live_run b evs (started b ids pol)) in *. pose proof Hl as [H1 H2 H3 H4 H5].
  pose proof (boot_spec _ _ _ Hboot) as (_ & _ & Hsafe & Hr & Hp & Hmcp). split_and!; [| |done|done| |by intros; apply live_progress].
  - unfold CheckSafeStartup in Hsafe. intros Hw. rewrite Hw in Hsafe. destruct (fl_RequireFrontProxy (bt_flags b)); [|by right]. left.
    intros E. rewrite E in Hsafe. done.
  - unfold CheckMCPWriteStartup in Hmcp. intros Hw. rewrite Hw in Hmcp. cbn [negb] in Hmcp.
    destruct (fl_MCPHTTPEnabled (bt_flags b)); [|done]. cbn [negb] in Hmcp. destruct (_ || _) eqn:Ei; [|done]. cbn [negb] in Hmcp.
    case_bool_decide as Hpol; [|done]. split; [done|]. split.
    + apply orb_true_iff in Ei as [Ei%bool_decide_eq_true|Ei%negb_true_iff%bool_decide_eq_false]; [left|by right].
      destruct (decide (identityPath = "")) as [E|E]; [rewrite Hr in Ei; by destruct Ei|]. destruct H3 as (f & r & _ & _ & ->). by eexists.
    + destruct (decide (policyPath = "")) as [E|E]; [rewrite Hp in Hpol; by destruct Hpol|]. destruct H4 as (f & p & _ & _ & ->). by eexists.
  - intros evs' Hevs Hq. assert (signalled b l (live_run b evs' (live_step b l Hup))) as [E1 E2 E3 E4 E5 E6 E7].
    { clear Hq. unfold live_run. induction evs' as [|e evs' IH] using rev_ind; [split; cbn; auto|].
      apply Forall_app in Hevs as [Hevs [He _]%Forall_cons]. rewrite foldl_app. cbn [foldl]. eapply signalled_step; [done..|]. by apply IH. }
    destruct Hq as (Hh & Ho & Hqu). rewrite Hh, Ho, Hqu in *. split.
    + destruct (decide (identityPath = "")) as [E|E].
      * unfold reloaded_ids in *. rewrite H3 in *. destruct E4 as [->| ->]; by destruct (load_ids _).
      * destruct E6 as [?|[?|[?%elem_of_nil|?]]]; try done. by apply (registered_ids _ _ _ Hboot).
    + destruct (decide (policyPath = "")) as [E|E].
      * unfold reloaded_policy in *. rewrite decide_True in * by done. by destruct E5.
      * destruct E7 as [?|[?|[?%elem_of_nil|?]]]; try done. by apply (registered_policy _ _ _ Hboot).
Qed.

(** ** Flags are never guessed *)

Definition reads_bool (name : string) (def v : bool) : Prop :=
  if decide (TrimSpace (getenv name) = "") then v = def else ParseBool (TrimSpace (getenv name)) = Some v.
Definition reads_int (name : string) (def v : Z) : Prop :=
  (if decide (TrimSpace (getenv name) = "") then v = def else ParseInt (TrimSpace (getenv name)) = Some v) ∧ (0 ≤ v)%Z.
Definition flag_error (e : FlagError) : Prop :=
  match e with
  | NotBool name raw => raw = TrimSpace (getenv name) ∧ raw ≠ "" ∧ ParseBool raw = None
  | NotInt name raw => raw = TrimSpace (getenv name) ∧ raw ≠ "" ∧ ParseInt raw = None
  | Negative name n => ParseInt (TrimSpace (getenv name)) = Some n ∧ (n < 0)%Z
  end.

Lemma envBool_spec name def v es : envBool name def = (v, es) → Forall flag_error es ∧ (es = [] → reads_bool name def v).
Proof.
  unfold envBool, reads_bool. case_decide as Hn; [by intros [= <- <-]|].
  destruct (ParseBool _) as [b|] eqn:E; intros [= <- <-]; [done|]. split; [by repeat constructor|done].
Qed.
Lemma envInt_spec name def v es : (0 ≤ def)%Z → envInt name def = (v, es) →
  Forall flag_error es ∧ Forall flag_error (negative name v) ∧ (es = [] → negative name v = [] → reads_int name def v).
Proof.
  intros Hd. unfold envInt, reads_int, negative. case_decide as Hn; [|destruct (ParseInt _) as [n|] eqn:E]; intros [= <- <-].
  - destruct (Z.ltb_spec def 0); [lia|]. by split_and!.
  - destruct (Z.ltb_spec n 0); split_and!; try done. by repeat constructor.
  - destruct (Z.ltb_spec def 0); [lia|]. split_and!; [by repeat constructor|done..].
Qed.

(** The flags are read from the environment or not at all: each is its default when its
    variable is blank and otherwise what the variable says, and the numbers are not
    negative; every variable that says nothing readable, and every negative number, is
    reported, and nothing else is. *)
Theorem flags_not_guessed :
  match Parse with
  | Ok f =>
      reads_bool "BZLHUB_INGEST_WRITE_ENABLED" false (fl_IngestWriteEnabled f) ∧
      reads_bool "BZLHUB_INGEST_ALLOW_CUSTOM_UPSTREAM" false (fl_IngestAllowCustomUpstream f) ∧
      reads_bool "BZLHUB_ATTRS_INTERPRET" false (fl_AttrsInterpret f) ∧ reads_bool "BZLHUB_DEMO_MODE" false (fl_DemoMode f) ∧
      reads_bool "BZLHUB_MCP_HTTP_ENABLED" false (fl_MCPHTTPEnabled f) ∧
      reads_bool "BZLHUB_MCP_WRITE_TOOLS_ENABLED" false (fl_MCPWriteToolsEnabled f) ∧
      reads_bool "BZLHUB_REQUIRE_FRONT_PROXY" true (fl_RequireFrontProxy f) ∧
      reads_int "BZLHUB_INGEST_RATE_LIMIT_PER_MIN" 5 (fl_IngestRateLimitPerMin f) ∧
      reads_int "BZLHUB_INGEST_MAX_CONCURRENT" 1 (fl_IngestMaxConcurrent f)
  | Err es => es ≠ [] ∧ Forall flag_error es
  end.
Proof.
  unfold Parse.
  destruct (envBool "BZLHUB_INGEST_WRITE_ENABLED" false) as [v1 e1] eqn:E1. apply envBool_spec in E1 as [H1 K1].
  destruct (envBool "BZLHUB_INGEST_ALLOW_CUSTOM_UPSTREAM" false) as [v2 e2] eqn:E2. apply envBool_spec in E2 as [H2 K2].
  destruct (envInt "BZLHUB_INGEST_RATE_LIMIT_PER_MIN" 5) as [v3 e3] eqn:E3. apply envInt_spec in E3 as (H3 & N3 & K3); [|done].
  destruct (envInt "BZLHUB_INGEST_MAX_CONCURRENT" 1) as [v4 e4] eqn:E4. apply envInt_spec in E4 as (H4 & N4 & K4); [|done].
  destruct (envBool "BZLHUB_ATTRS_INTERPRET" false) as [v5 e5] eqn:E5. apply envBool_spec in E5 as [H5 K5].
  destruct (envBool "BZLHUB_DEMO_MODE" false) as [v6 e6] eqn:E6. apply envBool_spec in E6 as [H6 K6].
  destruct (envBool "BZLHUB_MCP_HTTP_ENABLED" false) as [v7 e7] eqn:E7. apply envBool_spec in E7 as [H7 K7].
  destruct (envBool "BZLHUB_MCP_WRITE_TOOLS_ENABLED" false) as [v8 e8] eqn:E8. apply envBool_spec in E8 as [H8 K8].
  destruct (envBool "BZLHUB_REQUIRE_FRONT_PROXY" true) as [v9 e9] eqn:E9. apply envBool_spec in E9 as [H9 K9].
  set (errs := e1 ++ _). assert (Forall flag_error errs) as Herrs by (unfold errs; rewrite !Forall_app; split_and!; done).
  destruct errs as [|e es] eqn:E; [|done]. unfold errs in E. repeat apply app_nil in E as [? E].
  cbn [fl_IngestWriteEnabled fl_RequireFrontProxy fl_IngestAllowCustomUpstream fl_IngestRateLimitPerMin fl_IngestMaxConcurrent fl_AttrsInterpret
       fl_DemoMode fl_MCPHTTPEnabled fl_MCPWriteToolsEnabled]. auto 20.
Qed.
End environment.

(** ** The egress posture *)

Lemma ParseProfile_spec s p : ParseProfile s = Some p → Profile_String p = s.
Proof. unfold ParseProfile. intros ([i q] & H & ->)%fmap_Some. by apply list_find_Some in H as (_ & ? & _). Qed.

(** The text of a profile names it, and nothing else does. *)
Lemma ParseProfile_String p : ParseProfile (Profile_String p) = Some p.
Proof. by destruct p. Qed.

Section posture.
Context {URL : Type} (URL_String URL_Hostname : URL → string) (url_Parse : string → result string URL).
Context (ResolveReference : URL → string → result string URL) (JoinPath : URL → list string → URL).
Context (network : list URL → URL → result string Response) (Now : nat → Z) (frames : list Frame).
Context (getenv : string → string).
Abbreviation run_outs := (run_outs URL_String URL_Hostname url_Parse ResolveReference JoinPath network Now frames).

(** What the profile says, and the hosts of the environment's list that admit a URL. *)
Definition profile_of (profile : Profile) : Prop :=
  TrimSpace (getenv "BZLHUB_PROFILE") = Profile_String profile ∨ (TrimSpace (getenv "BZLHUB_PROFILE") = "" ∧ profile = ProfileDefault).
Definition listed_host (hosts : list string) (u : URL) : Prop :=
  ∃ pattern, pattern ∈ hosts ∧ host_matches (normal pattern) (ToLower (URL_Hostname u)).

Lemma configure_spec open_audit p sink hosts : configureProcessEgress getenv open_audit = Ok (p, sink, hosts) →
  hosts = parseCSV (getenv "BZLHUB_ALLOWED_HOSTS") ∧ ep_Allow p = hosts ∧
  ∃ profile, profile_of profile ∧
    match profile with
    | ProfileDefault => ep_Mode p = ModeAllow
    | ProfileMirrorOnly => ep_Mode p = ModeDeny ∧ hosts = [] ∧ sink = Recording
    | ProfileSyncRunner => ep_Mode p = ModeAudit ∧ hosts ≠ [] ∧ sink = Recording
    end.
Proof.
  unfold configureProcessEgress, LoadEnvironment. set (raw := TrimSpace (getenv "BZLHUB_PROFILE")). set (allow := parseCSV _).
  assert (∀ pr, (if decide (raw = "") then Ok ProfileDefault else match ParseProfile raw with Some p => Ok p | None => Err (UnknownProfile raw) end) = Ok pr →
    profile_of pr) as Hpr.
  { intros pr. unfold profile_of. fold raw. case_decide as Er; [intros [= <-]; by right|].
    destruct (ParseProfile raw) as [q|] eqn:Eq; [|done]. intros [= <-]. left. symmetry. by apply ParseProfile_spec. }
  destruct (if decide (raw = "") then _ else _) as [pr|e]; [|done]. specialize (Hpr pr eq_refl). cbn [mbind result_bind]. unfold Validate.
  cbn [cfg_Profile cfg_Allow cfg_Mode].
  destruct (decide (pr = ProfileMirrorOnly ∧ allow ≠ [])) as [|H1]; [done|]. destruct (decide (pr = ProfileSyncRunner ∧ allow = [])) as [|H2]; [done|].
  cbn [mbind result_bind cfg_Mode cfg_Allow cfg_Profile].
  assert (∃ mode, ParseMode (profileEgressMode pr) = Ok mode ∧
    mode = match pr with ProfileDefault => ModeAllow | ProfileMirrorOnly => ModeDeny | ProfileSyncRunner => ModeAudit end) as (mode & -> & Hmode)
    by (destruct pr; by eexists).
  cbn [mbind result_bind map_err]. set (sk := if decide (getenv "BZLHUB_EGRESS_AUDIT_FILE" ≠ "") then _ else _).
  assert (∀ k, sk = Ok k → pr ≠ ProfileDefault → k = Recording) as Hsk.
  { intros k. unfold sk. destruct (decide _); [destruct (open_audit _); [done|by intros [= <-]]|]. rewrite Hmode. by destruct pr. }
  destruct sk as [k|e]; [|done]. cbn [mbind result_bind]. intros [= <- <- <-]. split; [done|]. split; [done|]. exists pr. split; [exact Hpr|]. cbn [ep_Mode].
  destruct pr; [done| |]; (split; [done|]); (split; [|by apply Hsk]).
  - destruct (decide (allow = [])); [done|]. by destruct H1.
  - intros E. by destruct H2.
Qed.

(** C7: The profile of the environment is the posture of the HTTP clients that are built on
    it, the registry client and those of [DefaultHTTPClient].  When the process starts, the
    profile is the one that is named, or the default when none is.  Over any sequence of
    their requests, redirects included, those of a mirror-only process send nothing, and the
    sink is given denials only; those of a sync-runner, which has a list of hosts, ask
    no other host, and the sink is given an event for every request, in order; those of the
    default profile ask the hosts of its list, if it has one.  The sink's file has a line
    for every event it is given that can be written as JSON, as long as its writes succeed:
    their errors are dropped. *)
Theorem posture_enforced open_audit p sink hosts outs (Hconf : configureProcessEgress getenv open_audit = Ok (p, sink, hosts)) :
  let s := run_outs p sink hosts outs in
  hosts = parseCSV (getenv "BZLHUB_ALLOWED_HOSTS") ∧
  (∃ profile, profile_of profile ∧
    match profile with
    | ProfileDefault => ∀ u, u ∈ w_sent s → hosts = [] ∨ listed_host hosts u
    | ProfileMirrorOnly => hosts = [] ∧ sink = Recording ∧ w_sent s = [] ∧ Forall (λ ev, ev_Outcome ev = "denied") (w_events s)
    | ProfileSyncRunner => hosts ≠ [] ∧ sink = Recording ∧ (∀ u, u ∈ w_sent s → listed_host hosts u) ∧
        sublist (logged_url URL_String <$> w_sent s) (ev_URL <$> filter not_denied (w_events s))
    end) ∧
  ∀ marshal room, (∀ n b, length b ≤ room n b) → logged marshal room (w_events s) = w_events s ≫= log_line marshal.
Proof.
  cbn zeta. destruct (configure_spec _ _ _ _ Hconf) as (Hh & Ha & profile & Hp & H). split; [done|]. split; [|intros; by apply logged_lines].
  exists profile. split; [done|].
  assert (∀ u, u ∈ w_sent (run_outs p sink hosts outs) → ep_Mode p ≠ ModeDeny ∧ (hosts = [] ∨ listed_host hosts u)) as Hsent.
  { intros u [Hm Hu]%outs_permitted. by rewrite Ha in Hu. }
  destruct profile; [intros u Hu; by apply Hsent| |].
  - destruct H as (Hm & Hn & Hs). split_and!; [done|done| |].
    + destruct (w_sent _) as [|u l] eqn:E; [done|]. destruct (Hsent u) as [Hno _]; [by left|done].
    + rewrite Hs. apply outs_audited. by rewrite Hm.
  - destruct H as (Hm & Hn & Hs). split_and!; [done|done|intros u Hu; by destruct (Hsent u Hu) as [_ [?|?]]|]. rewrite Hs. by apply outs_audited.
Qed.
End posture.

(** ** A concrete environment *)

Definition env_of (vars : list (string * string)) (name : string) : string :=
  default "" (snd <$> (snd <$> list_find (λ kv, kv.1 = name) vars)).
Definition demo_env : string → string :=
  env_of [("BZLHUB_PROFILE", " sync-runner "); ("BZLHUB_ALLOWED_HOSTS", "bcr.bazel.build, ,objects.example"); ("BZLHUB_EGRESS_AUDIT_FILE", "/var/log/egress");
          ("BZLHUB_INGEST_WRITE_ENABLED", "true"); ("BZLHUB_REQUIRE_FRONT_PROXY", "F");
          ("BZLHUB_MCP_HTTP_ENABLED", "1"); ("BZLHUB_MCP_WRITE_TOOLS_ENABLED", "1"); ("BZLHUB_IDENTITY_FILE", "ids"); ("BZLHUB_POLICY_FILE", "policy")].

Lemma posture_enforced_witness :
  let p := mkEgressPolicy ModeAudit ["bcr.bazel.build"; "objects.example"] in
  let s := run_outs id demo_host Egress.demo_url (λ _ l, Ok l) demo_join demo_network (λ _, 0%Z) [] p Recording ["bcr.bazel.build"; "objects.example"]
    [ByRegistry "https://bcr.bazel.build" (OpMetadata "a"); ByDefault "https://api.example/b"] in
  configureProcessEgress demo_env (λ _, None) = Ok (p, Recording, ["bcr.bazel.build"; "objects.example"]) ∧
  w_sent s = ["https://bcr.bazel.build/modules/a/metadata.json"; "https://objects.example/x"] ∧
  ∀ u, u ∈ w_sent s → listed_host demo_host ["bcr.bazel.build"; "objects.example"] u.
Proof.
  cbn zeta. set (p := mkEgressPolicy _ _).
  assert (configureProcessEgress demo_env (λ _, None) = Ok (p, Recording, ["bcr.bazel.build"; "objects.example"])) as Hc by (vm_compute; reflexivity).
  split; [exact Hc|]. split; [vm_compute; reflexivity|].
  destruct (posture_enforced id demo_host Egress.demo_url (λ _ l, Ok l) demo_join demo_network (λ _, 0%Z) [] demo_env (λ _, None) _ _ _
    [ByRegistry "https://bcr.bazel.build" (OpMetadata "a"); ByDefault "https://api.example/b"] Hc) as (_ & (profile & Hp & H) & _).
  destruct profile; [| |exact (proj1 (proj2 (proj2 H)))].
  - destruct Hp as [Hp|[Hp _]]; vm_compute in Hp; discriminate Hp.
  - destruct H as [H _]. discriminate H.
Defined.

(** A write that fails leaves the log without its event, and the request goes on. *)
Example write_lost :
  logged (λ ev, Ok (to_bytes (ev_URL ev))) (λ n b, if decide (n = 0) then 0 else length b)
    (mkAuditEvent 0 "" "" "" "https://a/1" "ok" "" "" 0 0 :: [mkAuditEvent 0 "" "" "" "https://a/2" "ok" "" "" 0 0]) =
  [chr 10] ++ to_bytes "https://a/2" ++ [chr 10].
Proof. vm_compute. reflexivity. Qed.

(** Without its log a sync-runner does not start, nor without hosts; nor does a mirror
    with them. *)
Example no_start :
  configureProcessEgress (env_of [("BZLHUB_PROFILE", "mirror-only")]) (λ _, None) = Err (AuditFileRequired ProfileMirrorOnly) ∧
  configureProcessEgress (env_of [("BZLHUB_PROFILE", "sync-runner")]) (λ _, None) = Err RequiresAllow ∧
  configureProcessEgress (env_of [("BZLHUB_PROFILE", "mirror-only"); ("BZLHUB_ALLOWED_HOSTS", "a")]) (λ _, None) = Err (ForbiddenAllow 1) ∧
  configureProcessEgress (env_of [("BZLHUB_PROFILE", "Mirror-Only")]) (λ _, None) = Err (UnknownProfile "Mirror-Only").
Proof. vm_compute. split_and!; reflexivity. Qed.

(** A policy that is always the same, and one that does not load. *)
Definition demo_boot (ids : opened) (pol : file_content) : result BootError Booted :=
  boot demo_env (λ _, Err "CIDR") demo_ids (λ _, Ok "") (λ b, if decide (b = "bad") then Err "yaml" else Ok (1%Z, "")) (λ _, Ok demo_gates)
    (λ _, Ok []) (λ _, Ok "") (λ _, Ok "") ids pol.
Definition good_ids : opened := FileContent [chr 123].
Definition demo_live (evs : list live_event) (b : Booted) : Live :=
  live_run demo_env demo_ids (λ _, Ok "") (λ b, if decide (b = "bad") then Err "yaml" else Ok (1%Z, "")) (λ _, Ok demo_gates)
    (λ _, Ok []) (λ _, Ok "") (λ _, Ok "") b evs (started b good_ids (FileBody "p")).

Lemma live_guarded_witness :
  ∃ b, demo_boot good_ids (FileBody "p") = Ok b ∧ is_Some (lv_policy (demo_live [EditPolicy (FileBody "bad"); Hup; Forward; Hup; Take; Call; Call] b)).
Proof.
  destruct (demo_boot good_ids (FileBody "p")) as [b|e] eqn:Hb; [|vm_compute in Hb; discriminate Hb]. exists b. split; [reflexivity|].
  pose proof Hb as Hb'. unfold demo_boot in Hb'.
  destruct (live_guarded demo_env (λ _, Err "CIDR") demo_ids (λ _, Ok "") (λ b, if decide (b = "bad") then Err "yaml" else Ok (1%Z, "")) (λ _, Ok demo_gates)
    (λ _, Ok []) (λ _, Ok "") (λ _, Ok "") good_ids (FileBody "p") b [EditPolicy (FileBody "bad"); Hup; Forward; Hup; Take; Call; Call] Hb') as (_ & H & _).
  apply H. vm_compute in Hb. injection Hb as <-. reflexivity.
Defined.

(** The gate that asks for a policy with a rule for MCP writes asks for a policy. *)
Example policy_without_rule :
  match demo_boot good_ids (FileBody "p") with
  | Ok b => fl_MCPWriteToolsEnabled (bt_flags b) = true ∧ auth_Actions (pol_Auth (default zeroPolicy (bt_policy b))) !! "use_mcp_write" = None
  | Err _ => False
  end.
Proof. vm_compute. split; reflexivity. Qed.
