(* ===== verification/HeadTags.v ===== *)
(** * Head tags and the page that carries them

    [internal/server/headtags]: the title, description, links and cards of a URL of the
    site ([Compose], [moduleTags]), the block of HTML that states them ([Render]), and
    its insertion at the sentinel of index.html ([Inject]); [originFromRequest] of
    [internal/server/server.go] and the handler of [internal/embed] that applies them to
    every page of the application.

    [html.EscapeString], [encoding/json]'s strings, UTF-8 and the expansion of a
    replacement by [regexp] are definitions; the letters and digits outside ASCII are a
    parameter.  The block is read back by the states of the HTML tokenizer that it
    reaches. *)

From stdpp Require Import pretty.
From S2P Require Import Prelude Strings Report Archive Index Catalog References Cascade.

(** ** Bytes *)

Definition between (lo hi : N) (c : ascii) : bool := (lo <=? N_of_ascii c)%N && (N_of_ascii c <=? hi)%N.
Definition continuation : ascii → bool := between 128 191.

(** [utf8.DecodeRune]: how many bytes the first rune has; [None] where the encoding is
    invalid. *)
Definition rune (l : bytes) : option nat :=
  match l with
  | [] => None
  | c :: l =>
      let n := N_of_ascii c in
      if between 0 127 c then Some 1
      else if between 194 223 c then match l with d :: _ => if continuation d then Some 2 else None | _ => None end
      else if between 224 239 c then
        match l with
        | d :: e :: _ =>
            if between (if (n =? 224)%N then 160 else 128) (if (n =? 237)%N then 159 else 191) d && continuation e
            then Some 3 else None
        | _ => None
        end
      else if between 240 244 c then
        match l with
        | d :: e :: f :: _ =>
            if between (if (n =? 240)%N then 144 else 128) (if (n =? 244)%N then 143 else 191) d && continuation e && continuation f
            then Some 4 else None
        | _ => None
        end
      else None
  end.

(** A text rewritten rune by rune: [bad] where the encoding is invalid, [byte] of an ASCII
    byte, [special] of a rune of three bytes that does not stay; [k] bytes of a rune remain
    to be copied. *)
Fixpoint map_runes (bad : bytes) (byte : ascii → bytes) (special : bytes → option bytes) (k : nat) (l : bytes) : bytes :=
  match l with
  | [] => []
  | c :: l' =>
      match k with
      | S k => c :: map_runes bad byte special k l'
      | O =>
          match rune l with
          | None => bad ++ map_runes bad byte special 0 l'
          | Some 1 => byte c ++ map_runes bad byte special 0 l'
          | Some k =>
              match l' with
              | d :: e :: l'' =>
                  match special [c; d; e] with
                  | Some r => if decide (k = 3) then r ++ map_runes bad byte special 0 l'' else c :: map_runes bad byte special (pred k) l'
                  | None => c :: map_runes bad byte special (pred k) l'
                  end
              | _ => c :: map_runes bad byte special (pred k) l'
              end
          end
      end
  end.

(** [html.EscapeString] *)
Definition html_byte (c : ascii) : bytes :=
  if decide (c = "&"%char) then to_bytes "&amp;"
  else if decide (c = "'"%char) then to_bytes "&#39;"
  else if decide (c = "<"%char) then to_bytes "&lt;"
  else if decide (c = ">"%char) then to_bytes "&gt;"
  else if decide (c = "034"%char) then to_bytes "&#34;"
  else [c].
Definition EscapeString (s : string) : string := of_bytes (flat_map html_byte (to_bytes s)).

(** ** JSON *)

Definition low_hex (n : N) : ascii := nth (N.to_nat n) (to_bytes "0123456789abcdef") "0"%char.
Definition u_escape (c : ascii) : bytes :=
  to_bytes "\u00" ++ [low_hex (N_of_ascii c / 16); low_hex (N_of_ascii c mod 16)].

(** One ASCII byte of a string that [json.Marshal] writes. *)
Definition json_byte (c : ascii) : bytes :=
  let n := N_of_ascii c in
  if decide (c = "034"%char) then to_bytes "\" ++ ["034"%char]
  else if decide (c = "\"%char) then to_bytes "\\"
  else if (n =? 8)%N then to_bytes "\b" else if (n =? 12)%N then to_bytes "\f"
  else if (n =? 10)%N then to_bytes "\n" else if (n =? 13)%N then to_bytes "\r" else if (n =? 9)%N then to_bytes "\t"
  else if (n <? 32)%N || bool_decide (c ∈ to_bytes "<>&") then u_escape c
  else [c].

(** The two separators of lines that JSON strings do not hold as they are. *)
Definition json_special (r : bytes) : option bytes :=
  if decide (r = chr <$> [226; 128; 168]) then Some (to_bytes "\u2028")
  else if decide (r = chr <$> [226; 128; 169]) then Some (to_bytes "\u2029") else None.

(** [appendString] of encoding/json, with HTML escaping. *)
Definition json_text (l : bytes) : bytes := map_runes (to_bytes "\ufffd") json_byte json_special 0 l.
Definition json_string (s : string) : string := dq +:+ of_bytes (json_text (to_bytes s)) +:+ dq.
Definition json_field (kv : string * string) : string := json_string kv.1 +:+ ":" +:+ kv.2.

(** [buildModuleVersionJSONLD]: a marshalled map has its keys in order. *)
Definition buildModuleVersionJSONLD {D} (name version canonical description : string) (sum : option (ModuleSummary D)) : string :=
  let language n := "{" +:+ json_field ("@type", json_string "ComputerLanguage") +:+ "," +:+ json_field ("name", json_string n) +:+ "}" in
  let repo := match sum with Some s => ms_RepoLabel s | None => "" end in
  let published := match sum with Some s => ms_LatestIngestedAt s | None => "" end in
  "{" +:+ Join (json_field <$>
    [("@context", json_string "https://schema.org"); ("@type", json_string "SoftwareSourceCode")] ++
    (if decide (repo = "") then [] else [("codeRepository", json_string ("https://github.com/" +:+ repo))]) ++
    (if decide (published = "") then [] else [("datePublished", json_string published)]) ++
    [("description", json_string description); ("name", json_string name);
     ("programmingLanguage", "[" +:+ language "Bazel" +:+ "," +:+ language "Starlark" +:+ "]");
     ("url", json_string canonical); ("version", json_string version)]) "," +:+ "}".

(** ** The tags of a URL *)

Record Tags := mkTags {
  tg_Title : string; tg_Description : string; tg_Canonical : string; tg_OGType : string;
  tg_OGURL : string; tg_SiteName : string; tg_OGImage : string; tg_JSONLD : string }.

(** [ogImageURL] *)
Definition ogImageURL (origin module version : string) : string :=
  if decide (module = "") then origin +:+ "/og/default.png"
  else origin +:+ "/og/" +:+ PathEscape module +:+ (if decide (version = "") then "" else "/" +:+ PathEscape version) +:+ ".png".

(** [strings.SplitN(s, "/", 3)] *)
Definition SplitN3 (s : string) : list string :=
  match cut_at slash (to_bytes s) with
  | Some (a, b) => of_bytes a :: SplitN2 (of_bytes b) slash
  | None => [s]
  end.

Section compose.
Context {D : Type}.

(** [moduleTags]; the reader may be absent, and its lookup may fail. *)
Definition moduleTags (name version origin : string) (c : option (string → result GetError (ModuleSummary D))) : Tags :=
  let title := name +:+ (if decide (version = "") then "" else "@" +:+ version) +:+ " · bzlhub" in
  let canonical := origin +:+ "/modules/" +:+ name +:+ (if decide (version = "") then "" else "/" +:+ version) in
  let image := ogImageURL origin name version in
  match c with
  | Some get =>
      match get name with
      | Ok sum =>
          if decide (version = "") then
            mkTags title (name +:+ " — Bazel module with " +:+ pretty (ms_VersionCount sum) +:+ " versions indexed by bzlhub. Latest: " +:+ ms_LatestVersion sum +:+ ".")
              canonical "website" "" "bzlhub" image ""
          else
            let description := name +:+ " at version " +:+ version +:+ " — Bazel module rules, providers, hermeticity, and dependency graph indexed by bzlhub." in
            mkTags title description canonical "website" "" "bzlhub" image (buildModuleVersionJSONLD name version canonical description (Some sum))
      | Err _ =>
          mkTags title (name +:+ (if decide (version = "") then "" else "@" +:+ version) +:+ " — Bazel module on bzlhub.")
            canonical "website" "" "bzlhub" image ""
      end
  | None =>
      mkTags title (name +:+ (if decide (version = "") then "" else "@" +:+ version) +:+ " — Bazel module on bzlhub.")
        canonical "website" "" "bzlhub" image ""
  end.

(** The tags of a page of its own: its title, its description, its path. *)
Definition page_tags (origin title description path : string) : Tags :=
  mkTags title description (origin +:+ path) "website" "" "bzlhub" (ogImageURL origin "" "") "".

Definition site_title : string := "bzlhub — Bazel module registry with introspection".
Definition site_description : string :=
  "bzlhub mirrors the Bazel Central Registry with structured introspection, hermeticity intelligence, and an MCP surface for coding agents.".

(** The paths below /modules/. *)
Definition module_page (path origin : string) (c : option (string → result GetError (ModuleSummary D))) : Tags :=
  match SplitN3 (TrimPrefix path "/modules/") with
  | [p0] => if decide (p0 = "") then page_tags origin "Modules · bzlhub" "Browse every Bazel module indexed by bzlhub." "/modules"
            else moduleTags p0 "" origin c
  | p0 :: p1 :: _ =>
      if decide (p0 ≠ "" ∧ p1 ≠ "") then moduleTags p0 p1 origin c
      else page_tags origin "Modules · bzlhub" "Browse every Bazel module indexed by bzlhub." "/modules"
  | [] => page_tags origin "Modules · bzlhub" "Browse every Bazel module indexed by bzlhub." "/modules"
  end.

(** [Compose] *)
Definition Compose (path origin : string) (c : option (string → result GetError (ModuleSummary D))) : Tags :=
  let t :=
    if decide (path = "/" ∨ path = "") then page_tags origin site_title site_description "/"
    else if decide (path = "/modules" ∨ path = "/modules/") then
      page_tags origin "Modules · bzlhub" "Browse every Bazel module indexed by bzlhub — with hermeticity, drift, and dependency intelligence." "/modules"
    else if HasPrefix path "/modules/" then module_page path origin c
    else if decide (path = "/drift") then
      page_tags origin "Drift · bzlhub" "Modules in this bzlhub instance that have fallen behind their upstream BCR versions." "/drift"
    else if decide (path = "/history") then
      page_tags origin "History · bzlhub" "Ingest + drift activity feed for this bzlhub instance." "/history"
    else if decide (path = "/compat-check") then
      page_tags origin "Compatibility check · bzlhub" "Validate Bazel module version compatibility against bzlhub's structured surface." "/compat-check"
    else if decide (path = "/about") then
      page_tags origin "About · bzlhub" "bzlhub mirrors the Bazel Central Registry and adds an indexing layer: search, hermeticity classification per module, drift detection against upstream, source-code navigation across modules, and a Model Context Protocol endpoint for coding agents to query." "/about"
    else if decide (path = "/status") then
      page_tags origin "Status · bzlhub" "Live status for the bzlhub.com instance — mirror freshness, federation reachability, drift, addons." "/status"
    else if bool_decide (path = "/mcp") || HasPrefix path "/mcp?" then
      page_tags origin "MCP · bzlhub" "Wire any MCP-capable coding agent (Claude Code, Cursor, Codex) to bzlhub's module index via the Streamable HTTP transport at /mcp." "/mcp"
    else page_tags origin site_title site_description path in
  if decide (tg_OGURL t = "") then
    mkTags (tg_Title t) (tg_Description t) (tg_Canonical t) (tg_OGType t) (tg_Canonical t) (tg_SiteName t) (tg_OGImage t) (tg_JSONLD t)
  else t.
End compose.

(** ** The block *)

Definition meta (kind key value : string) : string :=
  "    <meta " +:+ kind +:+ "=" +:+ dq +:+ key +:+ dq +:+ " content=" +:+ dq +:+ value +:+ dq +:+ " />" +:+ nl.
Definition unless_empty (s line : string) : string := if decide (s = "") then "" else line.

(** [strings.ReplaceAll(s, "c", r)], for one byte. *)
Definition ReplaceByte (s : string) (c : ascii) (r : string) : string :=
  of_bytes (flat_map (λ d, if decide (d = c) then to_bytes r else [d]) (to_bytes s)).

(** [Tags.Render]; the last replacement is of a byte by itself. *)
Definition Render (t : Tags) : string :=
  unless_empty (tg_Title t) ("    <title>" +:+ EscapeString (tg_Title t) +:+ "</title>" +:+ nl) +:+
  unless_empty (tg_Description t) (meta "name" "description" (EscapeString (tg_Description t))) +:+
  unless_empty (tg_Canonical t)
    ("    <link rel=" +:+ dq +:+ "canonical" +:+ dq +:+ " href=" +:+ dq +:+ EscapeString (tg_Canonical t) +:+ dq +:+ " />" +:+ nl) +:+
  unless_empty (tg_Title t) (meta "property" "og:title" (EscapeString (tg_Title t))) +:+
  unless_empty (tg_Description t) (meta "property" "og:description" (EscapeString (tg_Description t))) +:+
  unless_empty (tg_OGType t) (meta "property" "og:type" (EscapeString (tg_OGType t))) +:+
  unless_empty (tg_OGURL t) (meta "property" "og:url" (EscapeString (tg_OGURL t))) +:+
  unless_empty (tg_SiteName t) (meta "property" "og:site_name" (EscapeString (tg_SiteName t))) +:+
  unless_empty (tg_OGImage t)
    (meta "property" "og:image" (EscapeString (tg_OGImage t)) +:+
     meta "property" "og:image:width" "1200" +:+ meta "property" "og:image:height" "630") +:+
  unless_empty (tg_Title t)
    (meta "name" "twitter:card" (if decide (tg_OGImage t = "") then "summary" else "summary_large_image") +:+
     meta "name" "twitter:title" (EscapeString (tg_Title t))) +:+
  unless_empty (tg_Description t) (meta "name" "twitter:description" (EscapeString (tg_Description t))) +:+
  unless_empty (tg_OGImage t) (meta "name" "twitter:image" (EscapeString (tg_OGImage t))) +:+
  unless_empty (tg_JSONLD t)
    ("    <script type=" +:+ dq +:+ "application/ld+json" +:+ dq +:+ ">" +:+ ReplaceByte (tg_JSONLD t) "<"%char "<" +:+ "</script>" +:+ nl).

(** ** The page *)

Definition re_space (c : ascii) : bool := bool_decide (c ∈ [chr 9; chr 10; chr 12; chr 13; chr 32]).
Fixpoint spaces (l : bytes) : bytes * bytes :=
  match l with
  | c :: l' => if re_space c then let '(s, r) := spaces l' in (c :: s, r) else ([], l)
  | [] => ([], [])
  end.

(** [sentinelRE] at the head of the page: the match and what follows it.  The white
    space that the expression repeats can not start what comes after it. *)
Definition sentinel_here (l : bytes) : option (bytes * bytes) :=
  l1 ← strip_prefix (to_bytes "<!--") l;
  let '(s1, l2) := spaces l1 in
  l3 ← strip_prefix (to_bytes "HEADTAGS-SENTINEL") l2;
  let '(s2, l4) := spaces l3 in
  l5 ← strip_prefix (to_bytes "-->") l4;
  Some (to_bytes "<!--" ++ s1 ++ to_bytes "HEADTAGS-SENTINEL" ++ s2 ++ to_bytes "-->", l5).

(** The first match: what precedes it, the match and what follows it. *)
Fixpoint find_sentinel (l : bytes) : option (bytes * bytes * bytes) :=
  match sentinel_here l with
  | Some (m, r) => Some ([], m, r)
  | None => match l with
            | [] => None
            | c :: l' => match find_sentinel l' with Some (a, m, r) => Some (c :: a, m, r) | None => None end
            end
  end.

Section expansion.
(** [unicode.IsLetter] or [unicode.IsDigit], of a rune outside ASCII. *)
Context (wide_name : bytes → bool).

(** The size of the first rune when it may be part of a name, zero otherwise. *)
Definition name_rune (l : bytes) : nat :=
  match rune l with
  | Some 1 => match l with c :: _ => if alphanumeric c || bool_decide (c = "_"%char) then 1 else 0 | [] => 0 end
  | Some k => if wide_name (take k l) then k else 0
  | None => 0
  end.
Fixpoint take_name (k : nat) (l : bytes) : bytes * bytes :=
  match l with
  | [] => ([], [])
  | c :: l' =>
      match k with
      | S k => let '(n, r) := take_name k l' in (c :: n, r)
      | O => match name_rune l with
             | O => ([], l)
             | S k => let '(n, r) := take_name k l' in (c :: n, r)
             end
      end
  end.

(** [extract_name] of package regexp: the name after a dollar sign, in braces or not. *)
Definition extract_name (l : bytes) : option (bytes * bytes) :=
  let brace := bool_decide (head l = Some "{"%char) in
  let '(name, rest) := take_name 0 (if brace then tail l else l) in
  if decide (name = []) then None
  else if brace then
    match rest with
    | c :: r => if decide (c = "}"%char) then Some (name, r) else None
    | [] => None
    end
  else Some (name, rest).

(** The number a name stands for; a leading zero disallows it. *)
Fixpoint number (acc : N) (l : bytes) : option N :=
  match l with
  | [] => Some acc
  | c :: l => if between 48 57 c && (acc <? 100000000)%N then number (acc * 10 + (N_of_ascii c - 48)) l else None
  end.
Definition group_number (name : bytes) : option N :=
  match name with "0"%char :: _ :: _ => None | _ => number 0 name end.

(** What a name is replaced by: the expression has no group but the whole match. *)
Definition submatch (m name : bytes) : bytes := if decide (group_number name = Some 0%N) then m else [].

(** [Regexp.expand] *)
Fixpoint expand_go (fuel : nat) (m l : bytes) : bytes :=
  match fuel with
  | O => l
  | S fuel =>
      match cut_at "$"%char l with
      | None => l
      | Some (before, after) =>
          before ++
          (if decide (head after = Some "$"%char) then "$"%char :: expand_go fuel m (tail after)
           else match extract_name after with
                | None => "$"%char :: expand_go fuel m after
                | Some (name, rest) => submatch m name ++ expand_go fuel m rest
                end)
      end
  end.
Definition expand_repl (m l : bytes) : bytes := expand_go (S (length l)) m l.

(** [Regexp.ReplaceAll] *)
Fixpoint replace_all (fuel : nat) (repl l : bytes) : bytes :=
  match fuel with
  | O => l
  | S fuel => match find_sentinel l with
              | Some (a, m, r) => a ++ expand_repl m repl ++ replace_all fuel repl r
              | None => l
              end
  end.

(** [Inject] *)
Definition Inject (htmlBytes : bytes) (t : Tags) : bytes :=
  let rendered := Render t in
  if decide (rendered = "") then htmlBytes
  else match find_sentinel htmlBytes with
       | None => htmlBytes
       | Some _ => replace_all (S (length htmlBytes)) (to_bytes (TrimRight rendered nl)) htmlBytes
       end.

(** ** The handler of the application's pages *)

(** What a request has: whether it came over TLS, its two forwarding headers, its host
    and its path. *)
Record PageRequest := mkPageRequest { pr_TLS : bool; pr_ForwardedProto : string; pr_ForwardedHost : string; pr_Host : string; pr_Path : string }.

(** [originFromRequest] *)
Definition originFromRequest (r : PageRequest) : string :=
  (if decide (pr_ForwardedProto r = "") then (if pr_TLS r then "https" else "http") else pr_ForwardedProto r) +:+ "://" +:+
  (if decide (pr_ForwardedHost r = "") then pr_Host r else pr_ForwardedHost r).

(** The transformation that [New] gives to the handler. *)
Definition spa_transform {D} (c : option (string → result GetError (ModuleSummary D))) (r : PageRequest) (htmlBody : bytes) : bytes :=
  Inject htmlBody (Compose (pr_Path r) (originFromRequest r) c).

Inductive PageAnswer := Asset | Page (body : bytes) | NotBuilt | PageNotFound.

(** [HandlerWithTransform]; [stat] finds an asset by its cleaned path, [index] is the
    content of index.html at start and [index_now] when it is read. *)
Definition HandlerWithTransform (stat : string → bool) (index index_now : option bytes)
    (transform : option (PageRequest → bytes → bytes)) (r : PageRequest) : PageAnswer :=
  match index with
  | None => NotBuilt
  | Some _ =>
      if stat (TrimPrefix (path_clean (pr_Path r)) "/") then Asset
      else match index_now with
           | None => PageNotFound
           | Some idx => Page (match transform with Some f => f r idx | None => idx end)
           end
  end.
End expansion.

(** ** Reading the block back *)

(** An element that the reader has seen: its name, its attributes, the text in it. *)
Record element := mkElement { el_name : bytes; el_attrs : list (bytes * bytes); el_text : bytes }.

(** The states of the tokenizer; a title or a script is read up to its end tag, its text
    as it is. *)
Inductive mode :=
| Data
| TagOpen
| TagName (n : bytes)
| BeforeAttr (n : bytes) (a : list (bytes * bytes))
| AttrName (n : bytes) (a : list (bytes * bytes)) (k : bytes)
| AfterEq (n : bytes) (a : list (bytes * bytes)) (k : bytes)
| AttrValue (n : bytes) (a : list (bytes * bytes)) (k v : bytes)
| SelfClosing (n : bytes) (a : list (bytes * bytes))
| Raw (n : bytes) (a : list (bytes * bytes)) (t : bytes)
| RawLess (n : bytes) (a : list (bytes * bytes)) (t : bytes)
| RawEnd (n : bytes) (a : list (bytes * bytes)) (t e : bytes)
| Stuck.

(** What opens after a start tag. *)
Definition open_tag (n : bytes) (a : list (bytes * bytes)) : list element * mode :=
  if decide (n = to_bytes "title" ∨ n = to_bytes "script") then ([], Raw n a []) else ([mkElement n a []], Data).

Definition step (s : mode) (c : ascii) : list element * mode :=
  match s with
  | Data => ([], if decide (c = "<"%char) then TagOpen else Data)
  | TagOpen => ([], if alphanumeric c then TagName [c] else Stuck)
  | TagName n =>
      if decide (c = " "%char) then ([], BeforeAttr n [])
      else if decide (c = ">"%char) then open_tag n []
      else ([], TagName (n ++ [c]))
  | BeforeAttr n a =>
      if decide (c = " "%char) then ([], s)
      else if decide (c = "/"%char) then ([], SelfClosing n a)
      else if decide (c = ">"%char) then open_tag n a
      else ([], AttrName n a [c])
  | AttrName n a k =>
      if decide (c = "="%char) then ([], AfterEq n a k)
      else ([], if bool_decide (c ∈ to_bytes " />") then Stuck else AttrName n a (k ++ [c]))
  | AfterEq n a k => ([], if decide (c = "034"%char) then AttrValue n a k [] else Stuck)
  | AttrValue n a k v => ([], if decide (c = "034"%char) then BeforeAttr n (a ++ [(k, v)]) else AttrValue n a k (v ++ [c]))
  | SelfClosing n a => if decide (c = ">"%char) then ([mkElement n a []], Data) else ([], Stuck)
  | Raw n a t => ([], if decide (c = "<"%char) then RawLess n a t else Raw n a (t ++ [c]))
  | RawLess n a t =>
      ([], if decide (c = "/"%char) then RawEnd n a t []
           else if decide (c = "<"%char) then RawLess n a (t ++ ["<"%char]) else Raw n a (t ++ ["<"%char; c]))
  | RawEnd n a t e =>
      if decide (c = ">"%char) then (if decide (e = n) then ([mkElement n a t], Data) else ([], Stuck))
      else ([], RawEnd n a t (e ++ [c]))
  | Stuck => ([], Stuck)
  end.

Fixpoint read (s : mode) (l : bytes) : list element * mode :=
  match l with
  | [] => ([], s)
  | c :: l => let '(out, s') := step s c in let '(rest, s'') := read s' l in (out ++ rest, s'')
  end.

(** The character references of a text or of a value. *)
Definition references : list (bytes * ascii) :=
  [(to_bytes "&amp;", "&"%char); (to_bytes "&#39;", "'"%char); (to_bytes "&lt;", "<"%char);
   (to_bytes "&gt;", ">"%char); (to_bytes "&#34;", "034"%char)].
Fixpoint decode (fuel : nat) (l : bytes) : bytes :=
  match fuel with
  | O => l
  | S fuel =>
      match l with
      | [] => []
      | c :: l' =>
          match list_find (λ r, is_Some (strip_prefix r.1 l)) references with
          | Some (_, (p, d)) => d :: decode fuel (drop (length p) l)
          | None => c :: decode fuel l'
          end
      end
  end.
Definition decoded (l : bytes) : string := of_bytes (decode (length l) l).

(** What the block of [t] states, when a text is written by [f] and a script by [g]. *)
Definition el_meta (kind key : string) (value : bytes) : element :=
  mkElement (to_bytes "meta") [(to_bytes kind, to_bytes key); (to_bytes "content", value)] [].
Definition unless_none {A} (s : string) (l : list A) : list A := if decide (s = "") then [] else l.
Definition elements (f g : string → bytes) (t : Tags) : list element :=
  unless_none (tg_Title t) [mkElement (to_bytes "title") [] (f (tg_Title t))] ++
  unless_none (tg_Description t) [el_meta "name" "description" (f (tg_Description t))] ++
  unless_none (tg_Canonical t)
    [mkElement (to_bytes "link") [(to_bytes "rel", to_bytes "canonical"); (to_bytes "href", f (tg_Canonical t))] []] ++
  unless_none (tg_Title t) [el_meta "property" "og:title" (f (tg_Title t))] ++
  unless_none (tg_Description t) [el_meta "property" "og:description" (f (tg_Description t))] ++
  unless_none (tg_OGType t) [el_meta "property" "og:type" (f (tg_OGType t))] ++
  unless_none (tg_OGURL t) [el_meta "property" "og:url" (f (tg_OGURL t))] ++
  unless_none (tg_SiteName t) [el_meta "property" "og:site_name" (f (tg_SiteName t))] ++
  unless_none (tg_OGImage t)
    [el_meta "property" "og:image" (f (tg_OGImage t)); el_meta "property" "og:image:width" (to_bytes "1200");
     el_meta "property" "og:image:height" (to_bytes "630")] ++
  unless_none (tg_Title t)
    [el_meta "name" "twitter:card" (to_bytes (if decide (tg_OGImage t = "") then "summary" else "summary_large_image"));
     el_meta "name" "twitter:title" (f (tg_Title t))] ++
  unless_none (tg_Description t) [el_meta "name" "twitter:description" (f (tg_Description t))] ++
  unless_none (tg_OGImage t) [el_meta "name" "twitter:image" (f (tg_OGImage t))] ++
  unless_none (tg_JSONLD t)
    [mkElement (to_bytes "script") [(to_bytes "type", to_bytes "application/ld+json")] (g (tg_JSONLD t))].

(** A text of the block as the page holds it. *)
Definition on_page (wide_name : bytes → bool) (m : bytes) (s : string) : bytes := expand_repl wide_name m (to_bytes (EscapeString s)).

(** ** Lemmas *)

#[local] Arguments between : simpl never.
#[local] Arguments continuation : simpl never.
#[local] Arguments N_of_ascii : simpl never.
#[local] Arguments alphanumeric : simpl never.

(** A membership, or its negation, of closed terms. *)
Ltac closed_free := refine (bool_decide_unpack _ _); vm_compute; exact I.

Section lemmas.
Context (wide_name : bytes → bool).
Abbreviation expand_repl := (expand_repl wide_name).
Abbreviation expand_go := (expand_go wide_name).

Lemma rune_app v d b : v ≠ [] → between 0 127 d = true → rune (v ++ d :: b) = rune v.
Proof.
  intros Hv Hd. assert (∀ lo hi, (128 ≤ lo)%N → between lo hi d = false) as Hw.
  { unfold between in *. intros lo hi Hlo. apply andb_true_iff in Hd as [_ Hd%N.leb_le]. apply andb_false_iff. left. apply N.leb_gt. lia. }
  assert (continuation d = false) as Hc by by apply Hw.
  destruct v as [|c1 v]; [done|]. destruct v as [|c2 [|c3 [|c4 v]]], b as [|d2 [|d3 b]]; simpl.
  all: repeat (case_match; simpl; try done).
  all: repeat match goal with H : _ && _ = true |- _ => apply andb_true_iff in H as [H ?] end.
  all: try congruence.
  all: match goal with H : _ = true |- _ => rewrite Hw in H; [done|repeat case_match; lia] end.
Qed.

Lemma rune_size l k : rune l = Some k → 1 ≤ k ≤ length l ∧ (2 ≤ k → Forall (λ c, between 128 255 c = true) (take k l)).
Proof.
  assert (∀ lo hi c, (128 ≤ lo)%N → (hi ≤ 255)%N → between lo hi c = true → between 128 255 c = true) as Hw.
  { unfold between. intros lo hi c ?? [?%N.leb_le ?%N.leb_le]%andb_true_iff. apply andb_true_iff. split; apply N.leb_le; lia. }
  unfold rune, continuation. intros H. repeat (case_match; try done); injection H as <-.
  all: repeat match goal with H : _ && _ = true |- _ => apply andb_true_iff in H as [H ?] end.
  all: simpl; split; [lia|]; intros; try lia.
  all: rewrite ?take_0; repeat (apply Forall_cons_2; [eapply Hw; [| |eassumption]; repeat case_match; lia|]); apply Forall_nil_2.
Qed.

Lemma name_rune_app v d b : v ≠ [] → between 0 127 d = true → name_rune wide_name (v ++ d :: b) = name_rune wide_name v.
Proof.
  intros Hv Hd. unfold name_rune. rewrite rune_app by done. destruct (rune v) as [k|] eqn:E; [|done].
  destruct (rune_size v k E) as [Hk _]. rewrite take_app_le by lia. by destruct v.
Qed.

Lemma name_rune_size v : name_rune wide_name v ≤ length v.
Proof. unfold name_rune. destruct (rune v) as [k|] eqn:E; [apply rune_size in E as [??]|lia]. repeat case_match; simpl in *; lia. Qed.

(** A delimiter: not part of a name, not a dollar sign, not a brace. *)
Definition delimiter (d : ascii) : bool :=
  between 0 127 d && negb (alphanumeric d) && bool_decide (d ∉ to_bytes "_${}").

Lemma take_name_app v d b : delimiter d = true → ∀ k, k ≤ length v →
  take_name wide_name k (v ++ d :: b) = ((take_name wide_name k v).1, (take_name wide_name k v).2 ++ d :: b).
Proof.
  intros Hd. unfold delimiter in Hd. apply andb_true_iff in Hd as [[Ha Hn%negb_true_iff]%andb_true_iff Hs%bool_decide_eq_true].
  assert (name_rune wide_name (d :: b) = 0) as Hz.
  { unfold name_rune. simpl. rewrite Ha, Hn, bool_decide_false; [done|]. intros ->. apply Hs. by vm_compute; repeat constructor. }
  induction v as [|c v IH]; intros k Hk.
  - simpl in Hk. replace k with 0 by lia. change (take_name wide_name 0 (d :: b) = ([], d :: b)). simpl. by rewrite Hz.
  - simpl. destruct k as [|k].
    + change (c :: v ++ d :: b) with ((c :: v) ++ d :: b). rewrite name_rune_app by done.
      pose proof (name_rune_size (c :: v)). destruct (name_rune wide_name (c :: v)) as [|k]; [done|].
      rewrite IH by (simpl in *; lia). by destruct (take_name wide_name k v).
    + rewrite IH by (simpl in *; lia). by destruct (take_name wide_name k v).
Qed.

Lemma extract_app v d b : delimiter d = true →
  extract_name wide_name (v ++ d :: b) = match extract_name wide_name v with Some (n, r) => Some (n, r ++ d :: b) | None => None end.
Proof.
  intros Hd. pose proof (λ v, take_name_app v d b Hd 0 ltac:(lia)) as Ht.
  assert (d ≠ "{"%char ∧ d ≠ "}"%char) as [H1 H2].
  { split; intros ->; by vm_compute in Hd. }
  assert (head (v ++ d :: b) = Some "{"%char ↔ head v = Some "{"%char) as Hb.
  { destruct v as [|c v]; simpl; [|done]. split; [intros [= ->]; done|done]. }
  unfold extract_name. rewrite (bool_decide_ext _ _ Hb). case_bool_decide as Hv.
  - destruct v as [|c v]; [done|]. simpl tail. change (tail ((c :: v) ++ d :: b)) with (v ++ d :: b). rewrite Ht.
    destruct (take_name wide_name 0 v) as [n [|e r]]; simpl; case_decide; try done; case_decide; done.
  - rewrite Ht. destruct (take_name wide_name 0 v) as [n r]. simpl. by case_decide.
Qed.

Lemma take_name_parts v : ∀ k, v = (take_name wide_name k v).1 ++ (take_name wide_name k v).2.
Proof.
  induction v as [|c v IH]; intros k; [done|]. simpl.
  destruct k as [|k]; [destruct (name_rune wide_name (c :: v)) as [|k]; [done|]|]; specialize (IH k); destruct (take_name wide_name k v); simpl in *; congruence.
Qed.

Lemma extract_parts v n r : extract_name wide_name v = Some (n, r) → ∃ p, v = p ++ r ∧ p ≠ [].
Proof.
  unfold extract_name. intros H. case_bool_decide as Hb.
  - destruct v as [|c v]; [done|]. simpl in H. pose proof (take_name_parts v 0) as E.
    destruct (take_name wide_name 0 v) as [name rest]. simpl in E. repeat (case_match; try done). simplify_eq.
    exists (c :: n ++ ["}"%char]). simpl. split; [|done]. by rewrite <- app_assoc.
  - pose proof (take_name_parts v 0) as E. destruct (take_name wide_name 0 v) as [name rest]. simpl in E.
    case_decide; [done|]. simplify_eq. by exists n.
Qed.

(** ** Expansion *)

Lemma cut_dollar l a b : cut_at "$"%char l = Some (a, b) → l = a ++ "$"%char :: b ∧ length b < length l.
Proof. intros [-> _]%cut_at_iff. split; [done|]. rewrite length_app. simpl. lia. Qed.

Lemma expand_fuel n n' m l : length l < n → length l < n' → expand_go n m l = expand_go n' m l.
Proof.
  revert n' l. induction n as [|n IH]; intros [|n'] l H H'; try lia. simpl.
  destruct (cut_at _ l) as [[before after]|] eqn:E; [|done]. apply cut_dollar in E as [_ Hl]. f_equal.
  case_decide; [f_equal; apply IH; destruct after; simpl in *; lia|].
  destruct (extract_name wide_name after) as [[name rest]|] eqn:E; [|f_equal; apply IH; lia].
  apply extract_parts in E as (p & -> & _). rewrite length_app in Hl. f_equal. apply IH; lia.
Qed.

(** The expansion, without its fuel. *)
Lemma expand_eq m l : expand_repl m l =
  match cut_at "$"%char l with
  | None => l
  | Some (before, after) =>
      before ++
      (if decide (head after = Some "$"%char) then "$"%char :: expand_repl m (tail after)
       else match extract_name wide_name after with
            | None => "$"%char :: expand_repl m after
            | Some (name, rest) => submatch m name ++ expand_repl m rest
            end)
  end.
Proof.
  unfold expand_repl at 1. simpl. destruct (cut_at _ l) as [[before after]|] eqn:E; [|done]. apply cut_dollar in E as [_ Hl].
  f_equal. case_decide; [f_equal; apply expand_fuel; destruct after; simpl in *; lia|].
  destruct (extract_name wide_name after) as [[name rest]|] eqn:E; [|f_equal; apply expand_fuel; lia].
  apply extract_parts in E as (p & -> & _). rewrite length_app in Hl. f_equal. apply expand_fuel; lia.
Qed.

Lemma cut_at_none c l : cut_at c l = None → c ∉ l.
Proof.
  induction l as [|d l IH]; simpl; [intros _; apply not_elem_of_nil|]. case_decide; [done|].
  destruct (cut_at c l) as [[a b]|]; [done|]. intros _. rewrite not_elem_of_cons. auto.
Qed.

Lemma cut_at_app c p l : c ∉ p → cut_at c (p ++ l) = match cut_at c l with Some (a, b) => Some (p ++ a, b) | None => None end.
Proof.
  induction p as [|d p IH]; simpl; [by destruct (cut_at c l) as [[]|]|].
  rewrite not_elem_of_cons. intros [Hd Hp]. rewrite decide_False, IH by done. by destruct (cut_at c l) as [[]|].
Qed.

Lemma expand_repl_plain p l m : "$"%char ∉ p → expand_repl m (p ++ l) = p ++ expand_repl m l.
Proof.
  intros Hp. rewrite (expand_eq m l), expand_eq, cut_at_app by done.
  destruct (cut_at _ l) as [[a b]|]; [|done]. by rewrite <- app_assoc.
Qed.

Lemma expand_none l m : "$"%char ∉ l → expand_repl m l = l.
Proof. intros H. rewrite <- (app_nil_r l) at 1. rewrite expand_repl_plain by done. by rewrite app_nil_r. Qed.

(** A delimiter ends what a dollar sign before it may take. *)
Lemma expand_app m d b : delimiter d = true → ∀ v, expand_repl m (v ++ d :: b) = expand_repl m v ++ d :: expand_repl m b.
Proof.
  intros Hd v. assert (d ≠ "$"%char) as Hd' by (intros ->; by vm_compute in Hd).
  induction v as [v IH] using (induction_ltof1 _ (@length ascii)). unfold ltof in IH.
  rewrite (expand_eq m v). destruct (cut_at _ v) as [[before after]|] eqn:E.
  - pose proof E as [-> Hb]%cut_at_iff. pose proof (cut_dollar _ _ _ E) as [_ Hl].
    rewrite <- !app_assoc, expand_repl_plain by done. simpl. rewrite expand_eq. simpl. f_equal.
    assert (head (after ++ d :: b) = Some "$"%char ↔ head after = Some "$"%char) as Hh.
    { destruct after; simpl; [|done]. split; [intros [= ->]; done|done]. }
    rewrite (decide_ext _ _ _ _ Hh). case_decide as Hc.
    + destruct after as [|c after]; [done|]. simpl. f_equal. apply (IH after). simpl in Hl. lia.
    + rewrite extract_app by done. destruct (extract_name wide_name after) as [[n r]|] eqn:Ex.
      * apply extract_parts in Ex as (p & -> & _). rewrite length_app in Hl. rewrite IH by lia. by rewrite <- app_assoc.
      * rewrite IH by lia. done.
  - apply cut_at_none in E. rewrite expand_repl_plain by done. f_equal.
    apply (expand_repl_plain [d]). rewrite list_elem_of_singleton. congruence.
Qed.

(** What is true of every byte of a text and of the match is true of the expansion. *)
Lemma expand_closed (P : bytes → Prop) m : P [] → (∀ a b, P a → P b → P (a ++ b)) → P m →
  ∀ l, (∀ c, c ∈ l → P [c]) → P (expand_repl m l).
Proof.
  intros H0 Happ Hm. assert (∀ l, (∀ c, c ∈ l → P [c]) → P l) as Hl.
  { induction l as [|c l IH]; intros H; [done|]. apply (Happ [c] l); [|apply IH]; set_solver. }
  intros l. induction l as [l IH] using (induction_ltof1 _ (@length ascii)). unfold ltof in IH. intros H.
  rewrite expand_eq. destruct (cut_at _ l) as [[before after]|] eqn:E; [|by apply Hl].
  pose proof (cut_dollar _ _ _ E) as [-> Hlen].
  assert (P ["$"%char]) as Hd by (apply H; set_solver).
  apply Happ; [apply Hl; set_solver|]. case_decide.
  - destruct after as [|c after]; [done|]. apply (Happ [_]); [done|]. apply IH; [simpl in *; lia|set_solver].
  - destruct (extract_name wide_name after) as [[n r]|] eqn:Ex.
    + apply extract_parts in Ex as (p & -> & _). rewrite length_app in Hlen.
      apply Happ; [unfold submatch; by case_decide|]. apply IH; [lia|set_solver].
    + apply (Happ [_]); [done|]. apply IH; [lia|set_solver].
Qed.

(** ** Reading *)

Lemma read_block_app s a b : read s (a ++ b) = ((read s a).1 ++ (read (read s a).2 b).1, (read (read s a).2 b).2).
Proof.
  revert s. induction a as [|c a IH]; intros s; simpl; [by destruct (read s b)|].
  destruct (step s c) as [o s']. rewrite IH. destruct (read s' a) as [o' s'']. simpl. by rewrite <- app_assoc.
Qed.

(** The value of an attribute ends at its quote. *)
Lemma read_value n a k v w : "034"%char ∉ w → read (AttrValue n a k v) w = ([], AttrValue n a k (v ++ w)).
Proof.
  revert v. induction w as [|c w IH]; intros v Hw; simpl; [by rewrite app_nil_r|].
  rewrite not_elem_of_cons in Hw. destruct Hw as [Hc Hw]. rewrite decide_False by done. by rewrite IH, <- app_assoc.
Qed.

(** A text that a reader takes as it is. *)
Definition stays_raw (w : bytes) : Prop := ∀ n a t, read (Raw n a t) w = ([], Raw n a (t ++ w)).

Lemma stays_raw_nil : stays_raw [].
Proof. intros n a t. simpl. by rewrite app_nil_r. Qed.

Lemma stays_raw_app v w : stays_raw v → stays_raw w → stays_raw (v ++ w).
Proof. intros Hv Hw n a t. rewrite read_block_app, Hv. simpl. rewrite Hw. simpl. by rewrite app_assoc. Qed.

Lemma stays_raw_byte c : c ≠ "<"%char → stays_raw [c].
Proof. intros Hc n a t. simpl. by rewrite decide_False. Qed.

Lemma stays_raw_plain w : "<"%char ∉ w → stays_raw w.
Proof.
  induction w as [|c w IH]; intros H; [apply stays_raw_nil|]. rewrite not_elem_of_cons in H. destruct H as [Hc H].
  apply (stays_raw_app [c]); [by apply stays_raw_byte, not_eq_sym|]. by apply IH.
Qed.

(** ** The match of the sentinel *)

Lemma spaces_parts l s r : spaces l = (s, r) → l = s ++ r ∧ Forall (λ c, re_space c = true) s.
Proof.
  revert s r. induction l as [|c l IH]; simpl; intros s r H; [by simplify_eq|].
  destruct (re_space c) eqn:E; [|by simplify_eq]. destruct (spaces l) as [s' r']. simplify_eq.
  destruct (IH _ _ eq_refl) as [-> HF]. auto.
Qed.

Lemma sentinel_parts l m r : sentinel_here l = Some (m, r) →
  l = m ++ r ∧ ∃ s1 s2, Forall (λ c, re_space c = true) (s1 ++ s2) ∧
    m = to_bytes "<!--" ++ s1 ++ to_bytes "HEADTAGS-SENTINEL" ++ s2 ++ to_bytes "-->".
Proof.
  unfold sentinel_here. intros (l1 & E1 & H)%bind_Some. destruct (spaces l1) as [s1 l2] eqn:S1.
  apply bind_Some in H as (l3 & E2 & H). destruct (spaces l3) as [s2 l4] eqn:S2.
  apply bind_Some in H as (l5 & E3 & H).
  apply strip_prefix_Some in E1, E2, E3. apply spaces_parts in S1 as [S1 F1], S2 as [S2 F2]. simplify_eq.
  split; [by rewrite <- !app_assoc|]. exists s1, s2. split; [|done]. by apply Forall_app.
Qed.

Lemma find_sentinel_parts l a m r : find_sentinel l = Some (a, m, r) → l = a ++ m ++ r ∧ ∃ l', sentinel_here l' = Some (m, r).
Proof.
  revert a. induction l as [|c l IH]; intros a; simpl.
  - done.
  - destruct (sentinel_here (c :: l)) as [[]|] eqn:E.
    + intros. simplify_eq. split; [by apply sentinel_parts in E as [-> _]|eauto].
    + destruct (find_sentinel l) as [[[a' m'] r']|]; [|done]. intros. simplify_eq. destruct (IH _ eq_refl) as [-> ?]. done.
Qed.

(** The match has no quote, and a title or a script may hold it. *)
Lemma sentinel_safe l m r : sentinel_here l = Some (m, r) → ("034"%char ∉ m) ∧ stays_raw m.
Proof.
  intros (_ & s1 & s2 & [F1 F2]%Forall_app & ->)%sentinel_parts.
  assert (∀ s, Forall (λ c, re_space c = true) s → ("034"%char ∉ s) ∧ ("<"%char ∉ s)) as Hs.
  { intros s F. rewrite Forall_forall in F. split; intros H; apply F in H; by vm_compute in H. }
  split.
  - rewrite !not_elem_of_app. destruct (Hs s1 F1) as [? _], (Hs s2 F2) as [? _].
    split_and!; try done; closed_free.
  - rewrite !app_assoc, <- (app_assoc _ s1), <- app_assoc, <- app_assoc, <- app_assoc.
    apply stays_raw_app; [intros n a t; simpl; by rewrite <- !app_assoc|]. apply stays_raw_plain. rewrite !not_elem_of_app.
    destruct (Hs s1 F1) as [_ ?], (Hs s2 F2) as [_ ?].
    split_and!; try done; closed_free.
Qed.

(** ** Escaping *)

Lemma html_byte_ok c :
  ("034"%char ∉ html_byte c) ∧ ("<"%char ∉ html_byte c) ∧ (c ≠ "$"%char → "$"%char ∉ html_byte c).
Proof.
  unfold html_byte. repeat case_decide; subst;
    try (closed_free).
  rewrite !list_elem_of_singleton. naive_solver.
Qed.

Lemma EscapeString_bytes s : to_bytes (EscapeString s) = flat_map html_byte (to_bytes s).
Proof. unfold EscapeString. by rewrite to_of_bytes. Qed.

Lemma escaped_free s : ("034"%char ∉ to_bytes (EscapeString s)) ∧ ("<"%char ∉ to_bytes (EscapeString s)).
Proof.
  rewrite EscapeString_bytes.
  split; intros (x & _ & H)%list_elem_of_In%in_flat_map; apply list_elem_of_In in H; by apply (html_byte_ok x) in H.
Qed.

Lemma escaped_dollar s : "$"%char ∉ to_bytes s → "$"%char ∉ to_bytes (EscapeString s).
Proof.
  rewrite EscapeString_bytes. intros Hs (x & Hx%list_elem_of_In & H)%list_elem_of_In%in_flat_map.
  apply list_elem_of_In in H. apply (html_byte_ok x) in H; [done|]. intros ->. done.
Qed.

Lemma decode_byte c n l : decode (S n) (html_byte c ++ l) = c :: decode n l.
Proof. destruct c as [[] [] [] [] [] [] [] []]; reflexivity. Qed.

Lemma html_byte_length c : 1 ≤ length (html_byte c).
Proof. unfold html_byte. repeat case_decide; simpl; lia. Qed.

Lemma decode_escape l : ∀ n, length l ≤ n → decode n (flat_map html_byte l) = l.
Proof.
  induction l as [|c l IH]; intros n Hn; [by destruct n|]. destruct n as [|n]; simpl in Hn; [lia|].
  simpl flat_map. rewrite decode_byte. f_equal. apply IH. lia.
Qed.

Lemma decoded_escape s : decoded (to_bytes (EscapeString s)) = s.
Proof.
  unfold decoded. rewrite EscapeString_bytes, decode_escape; [apply of_to_bytes|].
  induction (to_bytes s) as [|c l IH]; simpl; [lia|]. rewrite length_app. pose proof (html_byte_length c). lia.
Qed.

(** ** JSON has no angle bracket *)

#[local] Arguments rune : simpl never.

Definition angle_free (l : bytes) : Prop := "<"%char ∉ l.

Lemma angle_free_app a b : angle_free a → angle_free b → angle_free (a ++ b).
Proof. unfold angle_free. rewrite not_elem_of_app. done. Qed.

Lemma json_byte_free c : angle_free (json_byte c).
Proof. unfold angle_free. destruct c as [[] [] [] [] [] [] [] []]; closed_free. Qed.

Lemma high_free c : between 128 255 c = true → "<"%char ≠ c.
Proof. intros H <-. by vm_compute in H. Qed.

Lemma map_runes_free bad byte special l : angle_free bad → (∀ c, angle_free (byte c)) →
  (∀ r r', special r = Some r' → angle_free r') →
  ∀ k, Forall (λ c, between 128 255 c = true) (take k l) → angle_free (map_runes bad byte special k l).
Proof.
  intros Hbad Hbyte Hspecial.
  induction l as [l IH] using (induction_ltof1 _ (@length ascii)). unfold ltof in IH. intros k Hk.
  destruct l as [|c l]; [apply not_elem_of_nil|]. simpl.
  assert (∀ k', between 128 255 c = true → Forall (λ c, between 128 255 c = true) (take k' l) → angle_free (c :: map_runes bad byte special k' l)) as Hcopy.
  { intros k' Hc Hl. apply (angle_free_app [c]); [|apply IH; simpl; [lia|done]].
    unfold angle_free. rewrite list_elem_of_singleton. by apply high_free. }
  destruct k as [|k]; [|simpl in Hk; apply Forall_cons in Hk as [??]; by apply Hcopy].
  destruct (rune (c :: l)) as [[|[|k]]|] eqn:E.
  - by apply rune_size in E as [? _]; lia.
  - apply angle_free_app; [apply Hbyte|]. apply IH; [simpl; lia|constructor].
  - apply rune_size in E as [_ Hr]. specialize (Hr ltac:(lia)). simpl in Hr. apply Forall_cons in Hr as [Hc Hl].
    assert (angle_free (c :: map_runes bad byte special (S k) l)) as Hgo by by apply Hcopy.
    destruct l as [|d [|e l]]; [done..|]. destruct (special [c; d; e]) as [r|] eqn:Es; [|done]. case_decide; [|done].
    apply angle_free_app; [by eapply Hspecial|apply IH; [simpl; lia|constructor]].
  - apply angle_free_app; [done|]. apply IH; [simpl; lia|constructor].
Qed.

Lemma json_text_free l : angle_free (json_text l).
Proof.
  apply map_runes_free; [unfold angle_free; closed_free|apply json_byte_free| |constructor].
  unfold json_special. intros r r' H. repeat case_decide; simplify_eq; unfold angle_free; closed_free.
Qed.

Definition free (s : string) : Prop := angle_free (to_bytes s).

Lemma free_app s t : free s → free t → free (s +:+ t).
Proof. unfold free. rewrite to_bytes_app. apply angle_free_app. Qed.

Lemma free_join l sep : free sep → Forall free l → free (Join l sep).
Proof.
  intros Hs. induction l as [|s [|t l] IH]; intros H; [apply not_elem_of_nil|by inversion H|].
  apply Forall_cons in H as [? H]. change (free (s +:+ sep +:+ Join (t :: l) sep)). repeat apply free_app; auto.
Qed.

Lemma json_string_free s : free (json_string s).
Proof.
  unfold json_string. repeat apply free_app; [unfold free, angle_free; closed_free| |unfold free, angle_free; closed_free].
  unfold free. rewrite to_of_bytes. apply json_text_free.
Qed.

Lemma json_field_free k v : free v → free (json_field (k, v)).
Proof. intros H. apply free_app; [apply json_string_free|]. apply (free_app ":"); [unfold free, angle_free; closed_free|done]. Qed.

Lemma json_fields_free (l : list (string * string)) : Forall (λ kv, free kv.2) l → Forall free (json_field <$> l).
Proof. intros H. apply Forall_fmap. eapply Forall_impl; [exact H|]. intros [k v] Hv. by apply json_field_free. Qed.

Lemma JSONLD_free {D} name version canonical description (sum : option (ModuleSummary D)) :
  free (buildModuleVersionJSONLD name version canonical description sum).
Proof.
  unfold buildModuleVersionJSONLD. apply (free_app "{"); [unfold free, angle_free; closed_free|].
  apply free_app; [|unfold free, angle_free; closed_free].
  apply free_join; [unfold free, angle_free; closed_free|]. apply json_fields_free. rewrite !Forall_app.
  split; [|split; [|split]]; repeat case_decide;
    repeat first [apply Forall_nil_2|apply Forall_cons_2; [first [apply json_string_free|unfold free, angle_free; closed_free]|]].
Qed.
(** ** A line of the block *)

Section block.
Context (m : bytes) (Hq : "034"%char ∉ m) (Hraw : stays_raw m).

(** The expansion of [b], before anything, reads as [es]. *)
Definition renders (b : string) (es : list element) : Prop :=
  ∀ k, ∃ b', expand_repl m (to_bytes b ++ k) = b' ++ expand_repl m k ∧ read Data b' = (es, Data).

Lemma renders_app b c es fs : renders b es → renders c fs → renders (b +:+ c) (es ++ fs).
Proof.
  intros Hb Hc k. destruct (Hb (to_bytes c ++ k)) as (b' & Eb & Rb), (Hc k) as (c' & Ec & Rc).
  exists (b' ++ c'). rewrite to_bytes_app, <- app_assoc, Eb, Ec, app_assoc. split; [done|].
  rewrite read_block_app, Rb. cbn [fst snd]. by rewrite Rc.
Qed.

Lemma renders_unless s b es : renders b es → renders (unless_empty s b) (unless_none s es).
Proof. intros H. unfold unless_empty, unless_none. case_decide; [|done]. intros k. by exists []. Qed.

(** A value between what precedes it on its line and what follows it. *)
Lemma renders_line pre post v d r w es :
  "$"%char ∉ to_bytes pre → to_bytes post = d :: r → "$"%char ∉ r → delimiter d = true →
  expand_repl m (to_bytes v) = w → read Data (to_bytes pre ++ w ++ to_bytes post) = (es, Data) →
  renders (pre +:+ v +:+ post) es.
Proof.
  intros Hp Ep Hr Hd Hw Hes k. exists (to_bytes pre ++ w ++ to_bytes post). split; [|done].
  rewrite !to_bytes_app, <- !app_assoc, expand_repl_plain, Ep by done. simpl. rewrite expand_app, expand_repl_plain, Hw by done. done.
Qed.

Lemma renders_constant b es : "$"%char ∉ to_bytes b → read Data (to_bytes b) = (es, Data) → renders b es.
Proof. intros Hb Hes k. exists (to_bytes b). by rewrite expand_repl_plain. Qed.

Lemma on_page_attr s : "034"%char ∉ on_page wide_name m s.
Proof.
  apply (expand_closed (λ l, "034"%char ∉ l)); [apply not_elem_of_nil|intros; by rewrite not_elem_of_app|done|].
  intros c Hc. rewrite list_elem_of_singleton. intros <-. by apply escaped_free in Hc.
Qed.

Lemma expand_raw l : "<"%char ∉ l → stays_raw (expand_repl m l).
Proof.
  intros Hl. apply expand_closed; [apply stays_raw_nil|apply stays_raw_app|done|].
  intros c Hc. apply stays_raw_byte. intros ->. done.
Qed.

(** A line whose tag holds one value. *)
Lemma renders_attr pre n a k s : "$"%char ∉ to_bytes pre → read Data (to_bytes pre) = ([], AttrValue n a k []) →
  renders (pre +:+ EscapeString s +:+ dq +:+ " />" +:+ nl) [mkElement n (a ++ [(k, on_page wide_name m s)]) []].
Proof.
  intros Hp Hpre. eapply (renders_line pre _ _ "034"%char (to_bytes (" />" +:+ nl))); try done.
  - closed_free.
  - rewrite read_block_app, Hpre. cbn [fst snd]. rewrite read_block_app. fold (on_page wide_name m s). rewrite read_value by apply on_page_attr.
    reflexivity.
Qed.

Definition meta_pre (kind key : string) : string :=
  "    <meta " +:+ kind +:+ "=" +:+ dq +:+ key +:+ dq +:+ " content=" +:+ dq.

Lemma renders_meta kind key s :
  "$"%char ∉ to_bytes (meta_pre kind key) →
  read Data (to_bytes (meta_pre kind key)) = ([], AttrValue (to_bytes "meta") [(to_bytes kind, to_bytes key)] (to_bytes "content") []) →
  renders (meta kind key (EscapeString s)) [el_meta kind key (on_page wide_name m s)].
Proof.
  intros Hp Hr. replace (meta kind key (EscapeString s)) with (meta_pre kind key +:+ EscapeString s +:+ dq +:+ " />" +:+ nl)
    by (unfold meta, meta_pre; by rewrite !string_app_assoc).
  exact (renders_attr (meta_pre kind key) (to_bytes "meta") [(to_bytes kind, to_bytes key)] (to_bytes "content") s Hp Hr).
Qed.

(** An element that holds a text up to its end tag. *)
Lemma renders_raw pre n a v e : "$"%char ∉ to_bytes pre → read Data (to_bytes pre) = ([], Raw n a []) →
  "$"%char ∉ to_bytes e → (∀ t, read (RawLess n a t) (to_bytes e) = ([mkElement n a t], Data)) →
  stays_raw (expand_repl m (to_bytes v)) → renders (pre +:+ v +:+ "<" +:+ e) [mkElement n a (expand_repl m (to_bytes v))].
Proof.
  intros Hp Hpre He Hend Hst. eapply (renders_line pre _ v "<"%char (to_bytes e)); try done.
  rewrite read_block_app, Hpre. cbn [fst snd]. rewrite read_block_app, Hst. cbn [fst snd app].
  change (to_bytes ("<" +:+ e)) with ("<"%char :: to_bytes e). simpl. by rewrite Hend.
Qed.

Lemma ReplaceByte_id s c : ReplaceByte s c (String c "") = s.
Proof.
  unfold ReplaceByte. transitivity (of_bytes (to_bytes s)); [|apply of_to_bytes]. f_equal.
  induction (to_bytes s) as [|d l IH]; [done|]. cbn [flat_map]. rewrite IH. case_decide; by subst.
Qed.

(** The block, expanded before anything, reads as the elements it states. *)
Lemma renders_block t : free (tg_JSONLD t) → renders (Render t) (elements (on_page wide_name m) (λ s, expand_repl m (to_bytes s)) t).
Proof.
  intros Hj. unfold Render, elements. repeat apply renders_app; apply renders_unless; repeat apply renders_app.
  all: try match goal with |- renders (meta _ _ (EscapeString _)) _ => apply renders_meta; [closed_free|reflexivity] end.
  - apply (renders_raw "    <title>" (to_bytes "title") [] (EscapeString (tg_Title t)) ("/title>" +:+ nl));
      [closed_free|reflexivity|closed_free|reflexivity|]. apply expand_raw, escaped_free.
  - apply (renders_attr ("    <link rel=" +:+ dq +:+ "canonical" +:+ dq +:+ " href=" +:+ dq) (to_bytes "link") [(to_bytes "rel", to_bytes "canonical")] (to_bytes "href"));
      [closed_free|reflexivity].
  - apply (renders_app _ _ [_] [_; _]); [apply renders_meta; [closed_free|reflexivity]|].
    apply (renders_app _ _ [_] [_]); apply renders_constant; first [closed_free|reflexivity].
  - apply (renders_app _ _ [_] [_]); [|apply renders_meta; [closed_free|reflexivity]].
    apply renders_constant; case_decide; first [closed_free|reflexivity].
  - rewrite ReplaceByte_id.
    apply (renders_raw ("    <script type=" +:+ dq +:+ "application/ld+json" +:+ dq +:+ ">") (to_bytes "script") _ (tg_JSONLD t) ("/script>" +:+ nl));
      [closed_free|reflexivity|closed_free|reflexivity|]. by apply expand_raw.
Qed.
End block.
End lemmas.

(** ** Properties *)

Lemma Compose_cases {D} path origin (c : option (string → result GetError (ModuleSummary D))) :
  tg_OGType (Compose path origin c) = "website" ∧ free (tg_JSONLD (Compose path origin c)).
Proof.
  assert (∀ title description p, let t := page_tags origin title description p in tg_OGType t = "website" ∧ free (tg_JSONLD t)) as Hp.
  { intros. split; [done|apply not_elem_of_nil]. }
  assert (∀ n v, tg_OGType (moduleTags n v origin c) = "website" ∧ free (tg_JSONLD (moduleTags n v origin c))) as Hm.
  { intros n v. unfold moduleTags. repeat case_match; split; try done; first [apply JSONLD_free|apply not_elem_of_nil]. }
  unfold Compose, module_page. match goal with |- context [decide (tg_OGURL ?t = "")] => set (u := t) end.
  assert (tg_OGType u = "website" ∧ free (tg_JSONLD u)) as [Ht Hf]; [|case_decide; done].
  subst u. repeat case_match; first [apply Hp|apply Hm].
Qed.

(** A newline at the end of a block changes nothing that is read. *)
Lemma read_newline s nls : Forall (λ c, c = chr 10) nls → (read s nls).2 = Data → read s nls = ([], Data) ∧ s = Data.
Proof.
  intros HF. revert s. induction HF as [|c nls -> HF IH]; intros s; simpl; [by intros ->|].
  assert ((step s (chr 10)).1 = [] ∧ ((step s (chr 10)).2 = Data → s = Data)) as [H1 H2].
  { by destruct s. }
  destruct (step s (chr 10)) as [o s'] eqn:E. simpl in H1, H2. subst o.
  destruct (read s' nls) as [o s''] eqn:E'. simpl. intros ->. destruct (IH s') as [Hr ->]; [by rewrite E'|].
  rewrite E' in Hr. simplify_eq. split; [done|]. by apply H2.
Qed.

Lemma drop_while_parts f l : ∃ p, l = p ++ drop_while f l ∧ Forall (λ c, f c = true) p.
Proof.
  induction l as [|c l (p & E & F)]; [by exists []|]. simpl. destruct (f c) eqn:Ef; [|by exists []].
  exists (c :: p). simpl. rewrite <- E. auto.
Qed.

Lemma TrimRight_parts s cutset : ∃ p, to_bytes s = to_bytes (TrimRight s cutset) ++ p ∧ Forall (λ c, c ∈ to_bytes cutset) p.
Proof.
  destruct (drop_while_parts (in_cutset cutset) (rev (to_bytes s))) as (p & E & F). exists (rev p).
  unfold TrimRight. rewrite to_of_bytes, <- rev_app_distr, <- E, rev_involutive. split; [done|].
  apply Forall_rev. eapply Forall_impl; [exact F|]. intros c. apply bool_decide_eq_true.
Qed.

Lemma injected_block wide m t : ("034"%char ∉ m) → stays_raw m → free (tg_JSONLD t) →
  read Data (expand_repl wide m (to_bytes (TrimRight (Render t) nl))) = (elements (on_page wide m) (λ s, expand_repl wide m (to_bytes s)) t, Data).
Proof.
  intros Hq Hr Hf. destruct (renders_block wide m Hq Hr t Hf []) as (b & Eb & Rb).
  destruct (TrimRight_parts (Render t) nl) as (p & Ep & Fp). set (x := to_bytes (TrimRight (Render t) nl)) in *.
  assert (Forall (λ c, c = chr 10) p) as Fn.
  { eapply Forall_impl; [exact Fp|]. intros c Hc. by apply list_elem_of_singleton in Hc. }
  assert ("$"%char ∉ p) as Hp.
  { intros Hp. rewrite Forall_forall in Fn. by apply Fn in Hp. }
  rewrite app_nil_r, Ep in Eb. change (expand_repl wide m []) with (@nil ascii) in Eb. rewrite app_nil_r in Eb.
  assert (b = expand_repl wide m x ++ p) as ->.
  { rewrite <- Eb. destruct p as [|c p]; [by rewrite !app_nil_r|]. apply Forall_cons in Fn as [-> _].
    rewrite expand_app by done. f_equal. f_equal. apply expand_none. rewrite not_elem_of_cons in Hp. tauto. }
  rewrite read_block_app in Rb. destruct (read Data (expand_repl wide m x)) as [o s] eqn:Ex. simpl in Rb.
  destruct (read_newline s p Fn) as [Hn ->]; [by injection Rb|]. rewrite Hn in Rb. simpl in Rb. by rewrite app_nil_r in Rb.
Qed.

(** What a page's answer holds in the place of the sentinel. *)
Lemma Inject_at wide page t a m b : tg_OGType t ≠ "" → find_sentinel page = Some (a, m, b) → find_sentinel b = None →
  Inject wide page t = a ++ expand_repl wide m (to_bytes (TrimRight (Render t) nl)) ++ b.
Proof.
  intros Ht Hs Hb. unfold Inject. rewrite decide_False, Hs.
  - simpl. rewrite Hs. f_equal. f_equal. pose proof (find_sentinel_parts page a m b Hs) as [-> [l' Hl]].
    apply sentinel_parts in Hl as (_ & s1 & s2 & _ & ->). rewrite !length_app. simpl.
    rewrite Nat.add_succ_r. simpl. by rewrite Hb.
  - intros E. apply (f_equal to_bytes) in E. unfold Render in E. rewrite !to_bytes_app in E.
    repeat apply app_eq_nil in E as [? E]. unfold unless_empty in *. rewrite decide_False in * by done. done.
Qed.

(** C21: Whatever the path of a request, its headers and the index hold, the page that
    answers it is index.html with the sentinel replaced by a block that reads as exactly
    the elements its tags state: no title, version, host or path opens or closes an
    element or an attribute.  A text without a dollar sign is read back as it was given. *)
Theorem page_block {D} wide (c : option (string → result GetError (ModuleSummary D))) r page a m b :
  find_sentinel page = Some (a, m, b) → find_sentinel b = None →
  ∃ block, spa_transform wide c r page = a ++ block ++ b ∧
    read Data block = (elements (on_page wide m) (λ s, expand_repl wide m (to_bytes s)) (Compose (pr_Path r) (originFromRequest r) c), Data) ∧
    ∀ s, "$"%char ∉ to_bytes s → decoded (on_page wide m s) = s.
Proof.
  intros Hs Hb. pose proof (find_sentinel_parts page a m b Hs) as [_ [l Hl]]. destruct (sentinel_safe l m b Hl) as [Hq Hr].
  destruct (Compose_cases (pr_Path r) (originFromRequest r) c) as [Ht Hf].
  eexists. split; [apply Inject_at; [by rewrite Ht|done|done]|]. split; [by apply injected_block|].
  intros s Hd. unfold on_page. rewrite expand_none by by apply escaped_dollar. apply decoded_escape.
Qed.

Definition request_of (path : string) : PageRequest := mkPageRequest true "" "" "hub" path.
Definition shell : bytes := to_bytes "<head><!-- HEADTAGS-SENTINEL --></head>".
Definition shell_match : bytes := to_bytes "<!-- HEADTAGS-SENTINEL -->".

Lemma page_block_witness : ∃ block,
  spa_transform (D := unit) (λ _, false) None (request_of "/modules/a%3C") shell = to_bytes "<head>" ++ block ++ to_bytes "</head>" ∧
  read Data block = (elements (on_page (λ _, false) shell_match) (λ s, expand_repl (λ _, false) shell_match (to_bytes s))
    (Compose (pr_Path (request_of "/modules/a%3C")) (originFromRequest (request_of "/modules/a%3C")) (None : option (string → result GetError (ModuleSummary unit)))), Data) ∧
  ∀ s, "$"%char ∉ to_bytes s → decoded (on_page (λ _, false) shell_match s) = s.
Proof.
  apply (page_block (D := unit) (λ _, false) None (request_of "/modules/a%3C") shell); vm_compute; reflexivity.
Defined.

(** A page without the sentinel is left alone. *)
Lemma Inject_without wide page t : find_sentinel page = None → Inject wide page t = page.
Proof. intros H. unfold Inject. rewrite H. by case_decide. Qed.

(** The title of a page, as its reader shows it. *)
Definition shown_title (block : bytes) : option string :=
  match (read Data block).1 with e :: _ => Some (decoded (el_text e)) | [] => None end.

(** A dollar sign of the path is expanded by the replacement. *)
Example title_of_dollar :
  let page path := spa_transform (D := unit) (λ _, false) None (request_of path) shell_match in
  shown_title (page "/modules/a$b") = Some "a · bzlhub" ∧
  shown_title (page "/modules/a$0") = Some "a<!-- HEADTAGS-SENTINEL --> · bzlhub" ∧
  shown_title (page "/modules/a'b<c") = Some "a'b<c · bzlhub".
Proof. vm_compute. auto. Qed.
