(* ===== verification/Pages.v ===== *)
(** * The pages' data: preview cards, the versions table, the sitemap

    [internal/server/og_handlers.go]: the preview cards under /og/ and their cache below the
    mirror, with the handlers of requests running at once, system call by system call, their
    failures and restarts of the process; [internal/server/version_entries.go]: the rows of a module's page;
    [internal/server/sitemap]: the XML list of the site's pages.

    The image of a card, floating-point percentages and months, and the texts of instants
    are parameters. *)

From stdpp Require Import pretty.
From S2P Require Import Prelude Strings Report Archive Index Catalog References Cascade HeadTags.

(** ** Preview cards *)

(** [moduleNamePattern] and [versionPattern]: one byte at least, all of them allowed. *)
Definition moduleNamePattern (s : string) : bool :=
  bool_decide (s ≠ "") && forallb (λ c, alphanumeric c || bool_decide (c = "_"%char)) (to_bytes s).
Definition versionPattern (s : string) : bool :=
  bool_decide (s ≠ "") && forallb (λ c, alphanumeric c || bool_decide (c ∈ to_bytes "._-")) (to_bytes s).

Definition validCacheKey (module version : string) : bool :=
  if negb (moduleNamePattern module) then false
  else if bool_decide (version ≠ "") && negb (versionPattern version) then false
  else if ContainsStr module ".." || ContainsStr version ".." then false
  else true.

(** [ogCachePath] *)
Definition ogCachePath (MirrorRoot module version : string) : string :=
  if decide (MirrorRoot = "") then ""
  else if negb (validCacheKey module version) then ""
  else path_join [MirrorRoot; "og"; module; version +:+ ".png"].

(** [ogimg.Spec] *)
Record Spec := mkSpec {
  sp_ModuleName : string; sp_ModuleVersion : string; sp_Hermeticity : string;
  sp_RuleCount : Z; sp_DepCount : Z; sp_Versions : Z; sp_Host : string }.

(** What a request under /og/ asks for. *)
Inductive Card := CGeneric | CModule (module : string) | CVersion (module version : string).

(** The three shapes of [apiOGImage]. *)
Definition card_of (path : string) : Card :=
  let rest := TrimSuffix (TrimPrefix path "/og/") ".png" in
  if decide (rest = "" ∨ rest = "default") then CGeneric
  else match Split rest slash with
       | [m] => CModule m
       | [m; v] => CVersion m v
       | _ => CGeneric
       end.

(** [hostFromRequest] *)
Definition hostFromRequest (r : PageRequest) : string :=
  if decide (pr_ForwardedHost r = "") then pr_Host r else pr_ForwardedHost r.

(** An answer: its Cache-Control header and its body. *)
Record CardAnswer := mkCardAnswer { ca_CacheControl : string; ca_Body : bytes }.

Section cards.
Context {D : Type}.
(** [ogimg.RenderBytes] and [ogimg.Generic]; the index. *)
Context (RenderBytes : Spec → option bytes) (Generic : bytes).
Context (GetModule : string → result GetError (ModuleSummary D)) (GetModuleVersion : string → string → option ModuleReport).

(** [serveOGModule], up to its cache. *)
Definition module_spec (host module : string) : Spec :=
  match GetModule module with
  | Ok sum => mkSpec module (ms_LatestVersion sum) "" 0 0 (ms_VersionCount sum) host
  | Err _ => mkSpec module "" "" 0 0 0 host
  end.

(** [serveOGVersion], up to its cache. *)
Definition version_spec (host module version : string) : Spec :=
  match GetModuleVersion module version with
  | Some rep =>
      mkSpec module version (default "" (head (herm_Classes (rep_Hermeticity rep))))
        (Z.of_nat (length (rep_Rules rep))) (Z.of_nat (length (rep_BazelDeps rep))) 0 host
  | None => mkSpec module version "" 0 0 0 host
  end.
End cards.

(** *** Serving a card

    The handlers run at once, one per request, and share the files of the cache: a name is
    a link to a file, and a file that has been opened stays what it is when its name
    goes to another.  What a handler does between two system calls is a step. *)

Record cache := mkCache { names : gmap string nat; nodes : list bytes }.
Definition node (d : cache) (i : nat) : bytes := default [] (nodes d !! i).
Definition set_node (i : nat) (c : bytes) (d : cache) : cache := mkCache (names d) (<[i := c]> (nodes d)).

(** A write at an offset; what it leaves open reads as zeros. *)
Definition pwrite (c : bytes) (off : nat) (chunk : bytes) : bytes :=
  take off c ++ repeat "000"%char (off - length c) ++ chunk ++ drop (off + length chunk) c.

(** Where the handler of a request is. *)
Inductive phase :=
| Opening
| Stating (i : nat)
| Copying (i : nat) (got : bytes)
| Rendering
| Making (body : bytes)
| Writing (i : nat) (body : bytes) (off : nat)
| Renaming (body : bytes)
| Answered (a : CardAnswer)
| Gone.

(** How its next system call ends; a read or a write takes some bytes. *)
Inductive move := Goes (n : nat) | Breaks.

Section serving.
Context {D : Type} (RenderBytes : Spec → option bytes) (Generic : bytes) (root : string).

(** A request for a card, with the index as it stands when it is asked. *)
Record CardRequest := mkCardRequest {
  cr_request : PageRequest;
  cr_module : string → result GetError (ModuleSummary D);
  cr_report : string → string → option ModuleReport }.

(** What a request is about: the module and the version its file is kept under. *)
Definition asked (q : CardRequest) : option (string * string) :=
  match card_of (pr_Path (cr_request q)) with
  | CGeneric => None
  | CModule m => Some (m, "module")
  | CVersion m v => Some (m, v)
  end.
Definition asked_spec (q : CardRequest) : Spec :=
  match card_of (pr_Path (cr_request q)) with
  | CGeneric => mkSpec "" "" "" 0 0 0 ""
  | CModule m => module_spec (cr_module q) (hostFromRequest (cr_request q)) m
  | CVersion m v => version_spec (cr_report q) (hostFromRequest (cr_request q)) m v
  end.
Definition path_of (k : string * string) : string := ogCachePath root k.1 k.2.
Definition cachePath (q : CardRequest) : string := match asked q with Some k => path_of k | None => "" end.

Definition served (body : bytes) : phase := Answered (mkCardAnswer "public, max-age=86400" body).

(** [apiOGImage], up to [serveOGCached]: [serveOGGeneric] answers at once. *)
Definition apiOGImage (q : CardRequest) : phase := match asked q with None => served Generic | Some _ => Opening end.

(** [serveOGCached]; [os.WriteFile] is an open that makes or empties the file, writes, and
    a close. *)
Definition serveOGCached (q : CardRequest) (ph : phase) (mv : move) (d : cache) : phase * cache :=
  let p := cachePath q in
  let tmp := p +:+ ".tmp" in
  match ph, mv with
  | Opening, Goes _ => (match (if decide (p = "") then None else names d !! p) with Some i => Stating i | None => Rendering end, d)
  | Stating i, Goes _ => (match node d i with [] => Rendering | _ => Copying i [] end, d)
  | Opening, Breaks | Stating _, Breaks => (Rendering, d)
  | Copying i got, Goes n =>
      (match take (S n) (drop (length got) (node d i)) with [] => served got | chunk => Copying i (got ++ chunk) end, d)
  | Copying i got, Breaks => (served got, d)
  | Rendering, _ =>
      (match RenderBytes (asked_spec q) with
       | None => Answered (mkCardAnswer "no-store" Generic)
       | Some body => if decide (p = "") then served body else Making body
       end, d)
  | Making body, Goes _ =>
      match names d !! tmp with
      | Some i => (Writing i body 0, set_node i [] d)
      | None => (Writing (length (nodes d)) body 0, mkCache (<[tmp := length (nodes d)]> (names d)) (nodes d ++ [[]]))
      end
  | Writing i body off, Goes n =>
      match take (S n) (drop off body) with
      | [] => (Renaming body, d)
      | chunk => (Writing i body (off + length chunk), set_node i (pwrite (node d i) off chunk) d)
      end
  | Renaming body, Goes _ =>
      (served body, match names d !! tmp with Some i => mkCache (<[p := i]> (delete tmp (names d))) (nodes d) | None => d end)
  | Making body, Breaks | Writing _ body _, Breaks | Renaming body, Breaks => (served body, d)
  | Answered _, _ | Gone, _ => (ph, d)
  end.

(** The server: its cache, and every request there has been. *)
Record server := mkServer { og_cache : cache; og_requests : list (CardRequest * phase) }.

(** A request comes, a handler goes on, the process ends and another starts. *)
Inductive event := Arrives (q : CardRequest) | Acts (t : nat) (mv : move) | Restarts.

Definition dropped (ph : phase) : phase := match ph with Answered a => Answered a | _ => Gone end.
Definition happens (s : server) (e : event) : server :=
  match e with
  | Arrives q => mkServer (og_cache s) (og_requests s ++ [(q, apiOGImage q)])
  | Acts t mv => match og_requests s !! t with
                 | Some (q, ph) => let '(ph', d) := serveOGCached q ph mv (og_cache s) in mkServer d (<[t := (q, ph')]> (og_requests s))
                 | None => s
                 end
  | Restarts => mkServer (og_cache s) ((λ x, (x.1, dropped x.2)) <$> og_requests s)
  end.

(** The servers that events of a kind lead to. *)
Inductive reached (may : server → event → Prop) : server → Prop :=
| reached_start : reached may (mkServer (mkCache ∅ []) [])
| reached_event s e : reached may s → may s e → reached may (happens s e).
End serving.
Arguments CardRequest D : clear implicits.

(** ** The versions table *)

Record versionEntry := mkVersionEntry {
  ve_Version : string; ve_Href : string; ve_CodeNavHref : string; ve_DiffHref : string; ve_DiffFromVersion : string;
  ve_IsStub : bool; ve_IngestedAt : string; ve_CadenceLabel : string; ve_CompatLevel : Z; ve_TarballSize : Z;
  ve_YankedReason : string; ve_PinCount : Z; ve_PinPct : Z }.

Definition moduleVersionURL (m v : string) : string := "/modules/" +:+ m +:+ "/" +:+ v.
Definition codeNavRootURL (m v : string) : string := "/modules/" +:+ m +:+ "/" +:+ v +:+ "/code-nav/".
Definition diffURL (m from to : string) : string := "/modules/" +:+ m +:+ "/diff?from=" +:+ from +:+ "&to=" +:+ to.

Definition hour : Z := 3600 * 1000000000.
Definition day : Z := 24 * hour.

(** [Time.Sub] saturates. *)
Definition time_gap (a b : Z) : Z := Z.max (- 2 ^ 63) (Z.min (2 ^ 63 - 1) (a - b)).

Section entries.
(** The label of a gap of thirty days or more, and a share in percent: both are
    computed in floating point.  An ingestion time and its RFC 3339 text. *)
Context (months_label : Z → string) (percent : Z → Z → Z).
Context (ingested : string → option Z) (rfc3339 : Z → string).

(** [cadenceLabel] *)
Definition cadenceLabel (d : Z) : string :=
  if (d <? 0)%Z then ""
  else if (d <? hour)%Z then "+<1h"
  else if (d <? day)%Z then "+" +:+ pretty (d / hour)%Z +:+ "h"
  else if (d / day <? 30)%Z then "+" +:+ pretty (d / day)%Z +:+ "d"
  else months_label d.

(** The next older version that is no stub. *)
Definition diff_from (older : list string) : string :=
  match filter (λ v, IsStubVersion v = false) older with v :: _ => v | [] => "" end.

(** One row; [older] are the versions below it. *)
Definition table_row (module : string) (yanked : gmap string string) (pins : gmap string Z) (pinTotal : Z)
    (row : string * VersionCols) (older : list (string * VersionCols)) : versionEntry :=
  let v := row.1 in
  let stub := IsStubVersion v in
  let from := if stub then "" else diff_from older.*1 in
  let pin := default 0%Z (pins !! v) in
  mkVersionEntry v (moduleVersionURL module v) (codeNavRootURL module v)
    (if decide (from = "") then "" else diffURL module from v) from stub
    (match ingested (vc_ingested_at row.2) with Some t => rfc3339 t | None => "" end)
    (match ingested (vc_ingested_at row.2), older with
     | Some t, (_, prev) :: _ => match ingested (vc_ingested_at prev) with Some t' => cadenceLabel (time_gap t t') | None => "" end
     | _, _ => ""
     end)
    (vc_compatibility_level row.2) (vc_tarball_size row.2) (default "" (yanked !! v))
    (if (0 <? pin)%Z then pin else 0) (if (0 <? pin)%Z && (0 <? pinTotal)%Z then percent pin pinTotal else 0)%Z.

Fixpoint entries_of (module : string) (yanked : gmap string string) (pins : gmap string Z) (pinTotal : Z)
    (rows : list (string * VersionCols)) : list versionEntry :=
  match rows with
  | [] => []
  | row :: older => table_row module yanked pins pinTotal row older :: entries_of module yanked pins pinTotal older
  end.

(** [apiListVersions], with the service behind it: its index and the yanked versions
    that the mirror's metadata.json of the module declares. *)
Definition module_pins (decode_report : string → result string ModuleReport) (ix : Index) (module : string) : gmap string Z :=
  map_fold (λ (k : string * string) n (pins : gmap string Z), if decide (k.1 = module) then <[k.2 := n]> pins else pins) ∅
    (ComputeUsageCountsByVersion decode_report ix).
Definition apiListVersions (decode_report : string → result string ModuleReport) (yanked : gmap string string) (ix : Index) (module : string) : list versionEntry :=
  let pins := module_pins decode_report ix module in
  entries_of module yanked pins (map_fold (λ _ n total, (n + total)%Z) 0%Z pins) (ListVersionsWithMeta ix module).
End entries.

(** ** The sitemap *)

Definition isStubVersion (v : string) : bool := bool_decide (v ∈ [""; "0"; "0.0.0"; "HEAD"]).

(** U+FFFD *)
Definition replacement : bytes := [chr 239; chr 191; chr 189].

(** [xml.EscapeText]: a rune that XML does not allow, or that is none, is U+FFFD. *)
Definition xml_byte (c : ascii) : bytes :=
  let n := N_of_ascii c in
  if decide (c = "034"%char) then to_bytes "&#34;" else if decide (c = "'"%char) then to_bytes "&#39;"
  else if decide (c = "&"%char) then to_bytes "&amp;" else if decide (c = "<"%char) then to_bytes "&lt;"
  else if decide (c = ">"%char) then to_bytes "&gt;" else if (n =? 9)%N then to_bytes "&#x9;"
  else if (n =? 10)%N then to_bytes "&#xA;" else if (n =? 13)%N then to_bytes "&#xD;"
  else if (n <? 32)%N then replacement else [c].
Definition xml_special (r : bytes) : option bytes :=
  if decide (r = chr <$> [239; 191; 190] ∨ r = chr <$> [239; 191; 191]) then Some replacement else None.
Definition xml_text (l : bytes) : bytes := map_runes replacement xml_byte xml_special 0 l.
Definition EscapeText (s : string) : string := of_bytes (xml_text (to_bytes s)).

Record urlEntry := mkUrlEntry { ue_Loc : string; ue_LastMod : string; ue_ChangeFreq : string; ue_Priority : string }.

(** [writeURL]: what the encoder writes; an empty field is left out, but not the location. *)
Definition writeURL (e : urlEntry) : string :=
  "<url><loc>" +:+ EscapeText (ue_Loc e) +:+ "</loc>" +:+
  unless_empty (ue_LastMod e) ("<lastmod>" +:+ EscapeText (ue_LastMod e) +:+ "</lastmod>") +:+
  unless_empty (ue_ChangeFreq e) ("<changefreq>" +:+ EscapeText (ue_ChangeFreq e) +:+ "</changefreq>") +:+
  unless_empty (ue_Priority e) ("<priority>" +:+ EscapeText (ue_Priority e) +:+ "</priority>") +:+ "</url>".

Definition staticPages : list (string * string * string) :=
  [("/", "1.0", "weekly"); ("/modules", "0.8", "monthly"); ("/drift", "0.8", "monthly");
   ("/history", "0.8", "monthly"); ("/compat-check", "0.8", "monthly")].

(** The catalogue of a sitemap: its modules with their last ingestion, and the versions
    of one; either lookup may fail. *)
Record ModuleCatalog := mkModuleCatalog { mc_Modules : option (list (string * string)); mc_Versions : string → option (list string) }.

Section sitemap.
(** The date of a text of RFC 3339; today's. *)
Context (date_of : string → option string) (now origin : string).

Definition last_mod (ingested : string) : string :=
  if decide (ingested = "") then now else default ingested (date_of ingested).

Definition module_urls (c : ModuleCatalog) (m : string * string) : list urlEntry :=
  mkUrlEntry (origin +:+ "/modules/" +:+ m.1) (last_mod m.2) "weekly" "0.7" ::
  match mc_Versions c m.1 with
  | None => []
  | Some vs => (λ v, mkUrlEntry (origin +:+ "/modules/" +:+ m.1 +:+ "/" +:+ v) (last_mod m.2) "monthly" "0.6")
                 <$> filter (λ v, isStubVersion v = false) vs
  end.

Definition urls (c : option ModuleCatalog) : list urlEntry :=
  ((λ p, mkUrlEntry (origin +:+ p.1.1) now p.2 p.1.2) <$> staticPages) ++
  match c with
  | Some c => match mc_Modules c with Some mods => concat (module_urls c <$> mods) | None => [] end
  | None => []
  end.

(** [Stream], to a writer that takes everything. *)
Definition Stream (c : option ModuleCatalog) : string :=
  "<?xml version=" +:+ dq +:+ "1.0" +:+ dq +:+ " encoding=" +:+ dq +:+ "UTF-8" +:+ dq +:+ "?>" +:+ nl +:+
  "<urlset xmlns=" +:+ dq +:+ "http://www.sitemaps.org/schemas/sitemap/0.9" +:+ dq +:+ ">" +:+
  Join (writeURL <$> urls c) "" +:+ "</urlset>" +:+ nl.
End sitemap.

(** ** Reading the sitemap *)

Inductive xml_mode := XText | XTag (n : bytes) | XLoc (t : bytes).
Definition xml_step (s : xml_mode) (c : ascii) : list bytes * xml_mode :=
  match s with
  | XText => ([], if decide (c = "<"%char) then XTag [] else XText)
  | XTag n => ([], if decide (c = ">"%char) then (if decide (n = to_bytes "loc") then XLoc [] else XText) else XTag (n ++ [c]))
  | XLoc t => if decide (c = "<"%char) then ([t], XTag []) else ([], XLoc (t ++ [c]))
  end.
Fixpoint locations (s : xml_mode) (l : bytes) : list bytes * xml_mode :=
  match l with
  | [] => ([], s)
  | c :: l => let '(out, s') := xml_step s c in let '(rest, s'') := locations s' l in (out ++ rest, s'')
  end.

(** ** Lemmas: the sitemap *)

Lemma EscapeText_free s : "<"%char ∉ to_bytes (EscapeText s).
Proof.
  unfold EscapeText. rewrite to_of_bytes. apply map_runes_free; [unfold angle_free; closed_free| | |constructor].
  - intros c. unfold angle_free. destruct c as [[] [] [] [] [] [] [] []]; closed_free.
  - unfold xml_special. intros r r' H. case_decide; simplify_eq. unfold angle_free; closed_free.
Qed.

Lemma locations_app s a b : locations s (a ++ b) =
  ((locations s a).1 ++ (locations (locations s a).2 b).1, (locations (locations s a).2 b).2).
Proof.
  revert s. induction a as [|c a IH]; intros s; simpl; [by destruct (locations s b)|].
  destruct (xml_step s c) as [o s']. rewrite IH. destruct (locations s' a) as [o' s'']. simpl. by rewrite <- app_assoc.
Qed.

Lemma locations_text w : "<"%char ∉ w → locations XText w = ([], XText).
Proof.
  induction w as [|c w IH]; intros H; [done|]. apply not_elem_of_cons in H as [Hc H]. simpl.
  rewrite decide_False by done. by rewrite IH.
Qed.

Lemma locations_loc w t : "<"%char ∉ w → locations (XLoc t) w = ([], XLoc (t ++ w)).
Proof.
  revert t. induction w as [|c w IH]; intros t H; simpl; [by rewrite app_nil_r|].
  apply not_elem_of_cons in H as [Hc H]. rewrite decide_False by done. rewrite IH by done. by rewrite <- app_assoc.
Qed.

(** [b], read between elements, shows the locations [es]. *)
Definition shows (b : string) (es : list bytes) : Prop := locations XText (to_bytes b) = (es, XText).

Lemma shows_app b c es fs : shows b es → shows c fs → shows (b +:+ c) (es ++ fs).
Proof. unfold shows. intros Hb Hc. rewrite to_bytes_app, locations_app, Hb. cbn [fst snd]. by rewrite Hc. Qed.

Lemma shows_optional s t pre post : shows pre [] → shows post [] → shows (unless_empty s (pre +:+ EscapeText t +:+ post)) [].
Proof.
  intros Hp He. unfold unless_empty. case_decide; [done|]. apply (shows_app _ _ [] []); [done|]. apply (shows_app _ _ [] []); [|done].
  apply locations_text, EscapeText_free.
Qed.

Lemma shows_loc t : shows ("<url><loc>" +:+ EscapeText t +:+ "</loc>") [to_bytes (EscapeText t)].
Proof.
  unfold shows. rewrite !to_bytes_app, locations_app. change (locations XText (to_bytes "<url><loc>")) with (@nil bytes, XLoc []). cbn [fst snd app].
  rewrite locations_app, locations_loc by apply EscapeText_free. reflexivity.
Qed.

Lemma shows_url e : shows (writeURL e) [to_bytes (EscapeText (ue_Loc e))].
Proof.
  unfold writeURL. replace ("<url><loc>" +:+ EscapeText (ue_Loc e) +:+ "</loc>" +:+ _) with
    (("<url><loc>" +:+ EscapeText (ue_Loc e) +:+ "</loc>") +:+
      unless_empty (ue_LastMod e) ("<lastmod>" +:+ EscapeText (ue_LastMod e) +:+ "</lastmod>") +:+
      unless_empty (ue_ChangeFreq e) ("<changefreq>" +:+ EscapeText (ue_ChangeFreq e) +:+ "</changefreq>") +:+
      unless_empty (ue_Priority e) ("<priority>" +:+ EscapeText (ue_Priority e) +:+ "</priority>") +:+ "</url>")
    by by rewrite !string_app_assoc.
  apply (shows_app _ _ [_] []); [apply shows_loc|].
  repeat (apply (shows_app _ _ [] []); [by apply shows_optional|]). done.
Qed.

Lemma shows_urls es : shows (Join (writeURL <$> es) "") ((λ e, to_bytes (EscapeText (ue_Loc e))) <$> es).
Proof.
  induction es as [|e [|e' es] IH]; [done|apply shows_url|].
  change (shows (writeURL e +:+ "" +:+ Join (writeURL <$> e' :: es) "") ([to_bytes (EscapeText (ue_Loc e))] ++ ((λ e, to_bytes (EscapeText (ue_Loc e))) <$> e' :: es))).
  apply shows_app; [apply shows_url|done].
Qed.

(** ** The pages a sitemap lists *)

Definition listed_pages (origin : string) (c : ModuleCatalog) : list string :=
  match mc_Modules c with
  | None => []
  | Some mods => concat ((λ m, (origin +:+ "/modules/" +:+ m.1) ::
      match mc_Versions c m.1 with
      | None => []
      | Some vs => (λ v, origin +:+ "/modules/" +:+ m.1 +:+ "/" +:+ v) <$> filter (λ v, isStubVersion v = false) vs
      end) <$> mods)
  end.

(** Whatever the names in the catalogue, a sitemap is read as exactly the list of the
    site's own pages, then every module with its versions that are no stubs, each
    location escaped; a lookup that fails leaves out what it would have found, nothing else. *)
Theorem sitemap_locations date_of now origin c :
  (locations XText (to_bytes (Stream date_of now origin c))).1 =
    (λ s, to_bytes (EscapeText s)) <$>
      (((λ p, origin +:+ p) <$> ["/"; "/modules"; "/drift"; "/history"; "/compat-check"]) ++
       match c with Some c => listed_pages origin c | None => [] end).
Proof.
  assert (ue_Loc <$> urls date_of now origin c = ((λ p, origin +:+ p) <$> ["/"; "/modules"; "/drift"; "/history"; "/compat-check"]) ++
       match c with Some c => listed_pages origin c | None => [] end) as <-.
  { unfold urls, listed_pages. rewrite fmap_app. f_equal. destruct c as [c|]; [|done]. destruct (mc_Modules c) as [mods|]; [|done].
    induction mods as [|m mods IH]; [done|]. rewrite !fmap_cons. simpl. rewrite fmap_app, IH. f_equal. f_equal.
    destruct (mc_Versions c m.1); [|done]. by rewrite <- list_fmap_compose. }
  unfold Stream. set (body := Join (writeURL <$> urls date_of now origin c) "").
  pose proof (shows_urls (urls date_of now origin c)) as Hb. fold body in Hb.
  assert (shows (("<?xml version=" +:+ dq +:+ "1.0" +:+ dq +:+ " encoding=" +:+ dq +:+ "UTF-8" +:+ dq +:+ "?>" +:+ nl +:+
    "<urlset xmlns=" +:+ dq +:+ "http://www.sitemaps.org/schemas/sitemap/0.9" +:+ dq +:+ ">") +:+ body +:+ "</urlset>" +:+ nl)
    ([] ++ ((λ e, to_bytes (EscapeText (ue_Loc e))) <$> urls date_of now origin c) ++ [])) as H.
  { apply shows_app; [reflexivity|]. by apply shows_app. }
  rewrite app_nil_r in H. unfold shows in H. rewrite <- list_fmap_compose.
  match goal with |- (locations _ ?b).1 = _ => change b with (to_bytes (("<?xml version=" +:+ dq +:+ "1.0" +:+ dq +:+ " encoding=" +:+ dq +:+ "UTF-8" +:+ dq +:+ "?>" +:+ nl +:+
    "<urlset xmlns=" +:+ dq +:+ "http://www.sitemaps.org/schemas/sitemap/0.9" +:+ dq +:+ ">") +:+ body +:+ "</urlset>" +:+ nl)) end.
  by rewrite H.
Qed.

(** ** Lemmas: the cache of the cards *)

Lemma HasPrefix_slash_app s t : s ≠ "" → HasPrefix (s +:+ t) "/" = HasPrefix s "/".
Proof.
  intros Hs. destruct s as [|c s]; [done|]. unfold HasPrefix. change (to_bytes "/") with [slash].
  assert (∀ l : bytes, bool_decide ([slash] `prefix_of` c :: l) = bool_decide (c = slash)) as H.
  { intros l. apply bool_decide_ext. split; [by intros [k [= ->]]|intros ->; by exists l]. }
  change (to_bytes (String c s +:+ t)) with (c :: to_bytes (s +:+ t)). change (to_bytes (String c s)) with (c :: to_bytes s). by rewrite !H.
Qed.

Lemma Join_under base ds : ds ≠ [] → Join (base ++ ds) "/" = (match base with [] => "" | _ => Join base "/" +:+ "/" end) +:+ Join ds "/".
Proof. intros Hds. destruct base as [|b base]; [done|]. rewrite Join_app_nonempty by done. by rewrite string_app_assoc. Qed.

(** Below one root, a cache path is a prefix, the module, a slash and the file. *)
Lemma cache_path_under root : root ≠ "" → ∃ pre, ∀ m f, plain m → plain f →
  path_join [root; "og"; m; f] = pre +:+ Join ["og"; m; f] "/".
Proof.
  intros Hr.
  set (pre := if HasPrefix root "/"
              then "/" +:+ (match foldl resolve_step [] (segs root) with [] => "" | base => Join base "/" +:+ "/" end)
              else match foldl rel_step [] (segs root) with [] => "" | base => Join base "/" +:+ "/" end).
  exists pre. intros m f Hm Hf.
  assert (Forall plain ["og"; m; f]) as Hp by (repeat apply Forall_cons_2; try apply Forall_nil_2; done || by apply plain_lit).
  unfold path_join. rewrite filter_all by (repeat apply Forall_cons_2; try apply Forall_nil_2; first [done|apply Hm|apply Hf]).
  change (Join [root; "og"; m; f] "/") with (root +:+ "/" +:+ Join ["og"; m; f] "/").
  unfold path_clean. rewrite HasPrefix_slash_app by done. unfold pre, clean_rooted.
  rewrite segs_app, segs_Join by done. rewrite !foldl_app. case_match.
  - rewrite resolve_plain; [|by apply plain_nodd]. rewrite Join_under by done. by destruct (foldl resolve_step [] (segs root)).
  - rewrite rel_step_plain by done. transitivity (Join (foldl rel_step [] (segs root) ++ ["og"; m; f]) "/").
    + by destruct (foldl rel_step [] (segs root)).
    + rewrite Join_under by done. by destruct (foldl rel_step [] (segs root)).
Qed.

Lemma pattern_free (allowed : ascii → bool) c s : forallb allowed (to_bytes s) = true → allowed c = false → c ∉ to_bytes s.
Proof. intros H Hc Hin. rewrite forallb_forall in H. apply list_elem_of_In, H in Hin. congruence. Qed.

Lemma valid_key m v : validCacheKey m v = true → plain m ∧ plain (v +:+ ".png").
Proof.
  unfold validCacheKey. intros H. destruct (moduleNamePattern m) eqn:Hm; [|done]. simpl in H.
  unfold moduleNamePattern in Hm. apply andb_true_iff in Hm as [Hm1%bool_decide_eq_true Hm2].
  assert ((slash ∉ to_bytes m) ∧ ("."%char ∉ to_bytes m)) as [Hms Hmd] by (split; by eapply pattern_free).
  assert (slash ∉ to_bytes v) as Hvs.
  { destruct (decide (v = "")) as [->|Hv]; [apply not_elem_of_nil|]. rewrite bool_decide_true in H by done.
    destruct (versionPattern v) eqn:Hp; [|done]. unfold versionPattern in Hp. apply andb_true_iff in Hp as [_ Hp]. by eapply pattern_free. }
  split.
  - unfold plain. split_and!; [done|intros ->|intros ->|done]; apply Hmd; by left.
  - unfold plain. split_and!.
    + by destruct v.
    + intros E. apply (f_equal (length ∘ to_bytes)) in E. cbn [compose] in E. rewrite to_bytes_app, length_app in E. simpl in E. lia.
    + intros E. apply (f_equal (length ∘ to_bytes)) in E. cbn [compose] in E. rewrite to_bytes_app, length_app in E. simpl in E. lia.
    + rewrite to_bytes_app, not_elem_of_app. split; [done|closed_free].
Qed.

Lemma cache_path_valid root m v : ogCachePath root m v ≠ "" →
  root ≠ "" ∧ validCacheKey m v = true ∧ ogCachePath root m v = path_join [root; "og"; m; v +:+ ".png"].
Proof. unfold ogCachePath. case_decide; [done|]. by destruct (validCacheKey m v). Qed.

Lemma bytes_app_inj_r (a b c : string) : a +:+ b = a +:+ c → b = c.
Proof. intros E. apply to_bytes_inj. apply (f_equal to_bytes) in E. rewrite !to_bytes_app in E. by apply app_inv_head in E. Qed.

(** A cached file belongs to one module and one version; the module's own card counts as
    its version named module. *)
Lemma cache_path_inj root m v m' v' : ogCachePath root m v ≠ "" → ogCachePath root m v = ogCachePath root m' v' → m = m' ∧ v = v'.
Proof.
  intros H E. pose proof H as H'. rewrite E in H'.
  apply cache_path_valid in H as (Hr & [Hm Hf]%valid_key & Ep), H' as (_ & [Hm' Hf']%valid_key & Ep').
  rewrite Ep, Ep' in E. destruct (cache_path_under root Hr) as [pre Hpre]. rewrite !Hpre in E by done.
  apply bytes_app_inj_r in E. apply (f_equal (λ s, Split s slash)) in E.
  assert (∀ x y, plain x → plain y → Split (Join ["og"; x; y] "/") slash = ["og"; x; y]) as Hsp.
  { intros x y (_ & _ & _ & Hx) (_ & _ & _ & Hy). apply Split_Join; [done|].
    repeat apply Forall_cons_2; try apply Forall_nil_2; first [done|closed_free]. }
  rewrite !Hsp in E by done. injection E as -> Ev. split; [done|].
  apply (f_equal to_bytes) in Ev. rewrite !to_bytes_app in Ev. apply app_inv_tail in Ev. by apply to_bytes_inj.
Qed.

(** A temporary file is no file of the cache. *)
Lemma temporary_apart root m v p : ogCachePath root m v ≠ "" → p +:+ ".tmp" ≠ ogCachePath root m v.
Proof.
  intros (Hr & [Hm Hf]%valid_key & ->)%cache_path_valid E. destruct (cache_path_under root Hr) as [pre Hpre]. rewrite Hpre in E by done.
  change (Join ["og"; m; v +:+ ".png"] "/") with ("og" +:+ "/" +:+ m +:+ "/" +:+ v +:+ ".png") in E.
  apply (f_equal (last ∘ to_bytes)) in E. cbn [compose] in E. rewrite !to_bytes_app in E.
  change (to_bytes ".tmp") with (to_bytes ".tm" ++ ["p"%char]) in E. change (to_bytes ".png") with (to_bytes ".pn" ++ ["g"%char]) in E.
  by rewrite !app_assoc, !last_snoc in E.
Qed.

(** ** A server's cards *)

Section history.
Context {D : Type} (RenderBytes : Spec → option bytes) (Generic : bytes) (root : string).
Abbreviation request := (CardRequest D).
Abbreviation path_of := (path_of root).
Abbreviation cachePath := (cachePath root).
Abbreviation serveOGCached := (serveOGCached RenderBytes Generic root).
Abbreviation happens := (happens RenderBytes Generic root).
Abbreviation reached := (reached RenderBytes Generic root).
Abbreviation tmp_of k := (path_of k +:+ ".tmp").

(** The image of a request for a card, among those of [l]. *)
Definition imaged (l : list request) (k : string * string) (body : bytes) : Prop :=
  ∃ q, q ∈ l ∧ asked q = Some k ∧ RenderBytes (asked_spec q) = Some body.

(** Every byte is, at its place, one of such an image, or a zero. *)
Definition pieces (l : list request) (k : string * string) (c : bytes) : Prop :=
  ∀ n b, c !! n = Some b → b = "000"%char ∨ ∃ body, imaged l k body ∧ body !! n = Some b.

Lemma pieces_nil l k : pieces l k [].
Proof. by intros [|n] b [=]. Qed.
Lemma pieces_image l k body : imaged l k body → pieces l k body.
Proof. intros H n b Hb. right. by exists body. Qed.
Lemma pieces_mono l l' k c : (∀ q, q ∈ l → q ∈ l') → pieces l k c → pieces l' k c.
Proof. intros Hl H n b Hb. destruct (H n b Hb) as [?|(body & (q & ? & ? & ?) & ?)]; [by left|right]. exists body. split; [exists q; auto|done]. Qed.
Lemma imaged_mono l l' k c : (∀ q, q ∈ l → q ∈ l') → imaged l k c → imaged l' k c.
Proof. intros Hl (q & ? & ? & ?). exists q. auto. Qed.

Lemma pwrite_lookup c off chunk n b : pwrite c off chunk !! n = Some b →
  c !! n = Some b ∨ b = "000"%char ∨ (off ≤ n ∧ chunk !! (n - off) = Some b).
Proof.
  unfold pwrite. intros [H|[H1 H]]%lookup_app_Some; [left; by apply lookup_take_Some in H as [? _]|].
  rewrite length_take in *. apply lookup_app_Some in H as [H|[H2 H]].
  { right; left. apply list_elem_of_lookup_2, list_elem_of_In, repeat_spec in H. done. }
  rewrite repeat_length in *. apply lookup_app_Some in H as [H|[H3 H]].
  - right; right. split; [lia|]. replace (n - off) with (n - off `min` length c - (off - length c)) by lia. done.
  - left. rewrite lookup_drop in H. replace (off + length chunk + _) with n in H by lia. done.
Qed.

Lemma pwrite_next body n off : off + length (take (S n) (drop off body)) ≤ length body →
  pwrite (take off body) off (take (S n) (drop off body)) = take (off + length (take (S n) (drop off body))) body.
Proof.
  intros H. assert (length (take off body) = off) as Hl by (rewrite length_take; lia). unfold pwrite.
  set (X := drop off body) in *. rewrite Hl, Nat.sub_diag, (drop_ge (take off body)) by (rewrite Hl; lia).
  cbn [repeat app]. rewrite app_nil_r, take_take, Nat.min_id, <-take_take_drop. f_equal. fold X. rewrite length_take.
  destruct (decide (S n ≤ length X)); [by rewrite Nat.min_l|]. by rewrite Nat.min_r, !take_ge by lia.
Qed.

(** *** What the files and the handlers hold *)

(** [own]: the card each file of the cache was made for. *)
Definition holds (own : list (string * string)) (q : request) (i : nat) : Prop := ∃ k, asked q = Some k ∧ own !! i = Some k.

Definition phase_ok (own : list (string * string)) (l : list request) (q : request) (ph : phase) : Prop :=
  match ph with
  | Opening | Rendering => is_Some (asked q)
  | Stating i => holds own q i
  | Copying i got => holds own q i ∧ ∀ k, asked q = Some k → pieces l k got
  | Making body | Renaming body => is_Some (asked q) ∧ cachePath q ≠ "" ∧ RenderBytes (asked_spec q) = Some body
  | Writing i body _ => holds own q i ∧ cachePath q ≠ "" ∧ RenderBytes (asked_spec q) = Some body
  | Answered a => ca_Body a = Generic ∨ ∃ k, asked q = Some k ∧ pieces l k (ca_Body a)
  | Gone => True
  end.

Record disk_ok (own : list (string * string)) (l : list request) (d : cache) : Prop := {
  do_len : length own = length (nodes d);
  do_names nm i : names d !! nm = Some i → ∃ k, own !! i = Some k ∧ path_of k ≠ "" ∧ (nm = path_of k ∨ nm = tmp_of k);
  do_bytes i c k : nodes d !! i = Some c → own !! i = Some k → pieces l k c;
}.

Lemma holds_mono own own' q i : own `prefix_of` own' → holds own q i → holds own' q i.
Proof. intros Hp (k & ? & ?). exists k. split; [done|]. by eapply prefix_lookup_Some. Qed.

Lemma phase_ok_mono own own' l l' q ph : own `prefix_of` own' → (∀ q, q ∈ l → q ∈ l') → phase_ok own l q ph → phase_ok own' l' q ph.
Proof.
  intros Hp Hl. pose proof (holds_mono own own' q) as Hh. pose proof (λ k c, pieces_mono l l' k c Hl) as Hm.
  destruct ph; simpl; try done; [by eauto|intros [? ?]; split; eauto|intros (? & ? & ?); split; eauto|intros [?|(k & ? & ?)]; eauto].
Qed.

Lemma tmp_inj a b : a +:+ ".tmp" = b +:+ ".tmp" → a = b.
Proof. intros E. apply (f_equal to_bytes) in E. rewrite !to_bytes_app in E. apply app_inv_tail in E. by apply to_bytes_inj. Qed.

Lemma path_inj k k' : path_of k ≠ "" → path_of k = path_of k' → k = k'.
Proof. destruct k, k'. intros H E. destruct (cache_path_inj _ _ _ _ _ H E) as [? ?]. simpl in *. congruence. Qed.

(** A file under a card's name, or under its temporary one, was made for the card. *)
Lemma link_key own l d k nm i : disk_ok own l d → path_of k ≠ "" → nm = path_of k ∨ nm = tmp_of k → names d !! nm = Some i → own !! i = Some k.
Proof.
  intros Hd Hk Hnm H. destruct (do_names _ _ _ Hd nm i H) as (k' & Ho & Hk' & Hnm'). rewrite Ho. f_equal.
  destruct Hnm as [->| ->], Hnm' as [E|E].
  - symmetry. by apply path_inj.
  - destruct (temporary_apart root k.1 k.2 (path_of k')); [done|by symmetry].
  - destruct (temporary_apart root k'.1 k'.2 (path_of k)); done.
  - apply tmp_inj in E. symmetry. by apply path_inj.
Qed.

Lemma node_pieces own l d i k : disk_ok own l d → own !! i = Some k → pieces l k (node d i).
Proof.
  intros Hd Ho. unfold node. destruct (nodes d !! i) as [c|] eqn:E; [by eapply do_bytes|apply pieces_nil].
Qed.

Lemma pieces_take l k got c m : pieces l k got → pieces l k c → pieces l k (got ++ take m (drop (length got) c)).
Proof.
  intros Hg Hc n b [H|[Hn H]]%lookup_app_Some; [by apply Hg|]. apply lookup_take_Some in H as [H _]. rewrite lookup_drop in H.
  apply Hc. by replace n with (length got + (n - length got)) by lia.
Qed.

Lemma pieces_pwrite l k c body off m : pieces l k c → imaged l k body → pieces l k (pwrite c off (take m (drop off body))).
Proof.
  intros Hc Hi n b [H|[H|[Hn H]]]%pwrite_lookup; [by apply Hc|by left|]. right. exists body. split; [done|].
  apply lookup_take_Some in H as [H _]. rewrite lookup_drop in H. by replace n with (off + (n - off)) by lia.
Qed.

Lemma disk_ok_set own l d i c k : disk_ok own l d → own !! i = Some k → pieces l k c → disk_ok own l (set_node i c d).
Proof.
  intros [H1 H2 H3] Ho Hc. split; simpl; [by rewrite length_insert|done|]. intros j c' k' Hj Hk'.
  apply list_lookup_insert_Some in Hj as [(<- & <- & _)|(Hne & Hj)]; [|by eapply H3]. by assert (k' = k) as -> by congruence.
Qed.

Lemma disk_ok_make own l d k : disk_ok own l d → path_of k ≠ "" → names d !! tmp_of k = None →
  disk_ok (own ++ [k]) l (mkCache (<[tmp_of k := length (nodes d)]> (names d)) (nodes d ++ [[]])).
Proof.
  intros [H1 H2 H3] Hk Hn. split; simpl; [by rewrite !length_app, H1| |].
  - intros nm i [[<- <-]|[Hne H]]%lookup_insert_Some.
    + exists k. split; [by rewrite <-H1, lookup_app_r, Nat.sub_diag|]. split; [done|by right].
    + destruct (H2 nm i H) as (k' & ? & ?). exists k'. split; [by apply lookup_app_l_Some|done].
  - intros i c k' [H|[_ H]]%lookup_app_Some Hk'.
    + apply (H3 i c k' H). apply lookup_app_Some in Hk' as [?|[Hge _]]; [done|]. apply lookup_lt_Some in H. lia.
    + apply list_lookup_singleton_Some in H as [_ <-]. apply pieces_nil.
Qed.

Lemma disk_ok_rename own l d k i : disk_ok own l d → path_of k ≠ "" → names d !! tmp_of k = Some i →
  disk_ok own l (mkCache (<[path_of k := i]> (delete (tmp_of k) (names d))) (nodes d)).
Proof.
  intros Hd Hk Hi. pose proof (link_key _ _ _ k _ i Hd Hk (or_intror eq_refl) Hi) as Ho. destruct Hd as [H1 H2 H3]. split; [done| |done].
  simpl. intros nm j [[<- <-]|[Hne H]]%lookup_insert_Some; [exists k; auto|]. apply lookup_delete_Some in H as [_ H]. by apply H2.
Qed.

(** A step of a handler. *)
Lemma serve_ok own l d q ph mv : disk_ok own l d → q ∈ l → phase_ok own l q ph →
  let '(ph', d') := serveOGCached q ph mv d in ∃ own', own `prefix_of` own' ∧ disk_ok own' l d' ∧ phase_ok own' l q ph'.
Proof.
  intros Hd Hq Hph.
  assert (∀ ph', phase_ok own l q ph' → ∃ own', own `prefix_of` own' ∧ disk_ok own' l d ∧ phase_ok own' l q ph') as Hsame by (intros; by exists own).
  assert (∀ k body, asked q = Some k → RenderBytes (asked_spec q) = Some body → imaged l k body) as Himg by (intros; by exists q).
  assert (∀ body, is_Some (asked q) → RenderBytes (asked_spec q) = Some body → phase_ok own l q (served body)) as Hserved.
  { intros body [k Hk] Hr. right. exists k. split; [done|]. by apply pieces_image, Himg. }
  assert (∀ k, asked q = Some k → cachePath q = path_of k) as Hpath by (intros k Hk; unfold Pages.cachePath; by rewrite Hk).
  destruct ph as [|i|i got| |body|i body off|body|a|]; [| | | | | | |by apply Hsame..].
  - destruct mv as [n|]; cbn [Pages.serveOGCached]; [|by apply Hsame]. destruct Hph as [k Hk]. rewrite (Hpath k Hk).
    case_decide as Hp; [apply Hsame; by exists k|]. destruct (names d !! path_of k) as [i|] eqn:E; apply Hsame; [|by exists k].
    exists k. split; [done|]. by eapply link_key; [..|left|].
  - destruct mv as [n|]; cbn [Pages.serveOGCached]; destruct Hph as (k & Hk & Ho); [|apply Hsame; by exists k].
    destruct (node d i); apply Hsame; [by exists k|]. split; [by exists k|]. intros k' _. apply pieces_nil.
  - destruct Hph as [(k & Hk & Ho) Hg]. destruct mv as [n|]; cbn [Pages.serveOGCached]; [|apply Hsame; right; eauto].
    destruct (take (S n) _) as [|c chunk] eqn:E; apply Hsame; [right; eauto|]. split; [by exists k|]. intros k' Hk'.
    rewrite <-E. apply pieces_take; [by apply Hg|]. eapply node_pieces; [done|]. congruence.
  - cbn [Pages.serveOGCached]. destruct (RenderBytes (asked_spec q)) as [body|] eqn:Er; [|apply Hsame; by left].
    case_decide; apply Hsame; [by apply Hserved|by split_and!].
  - destruct Hph as ([k Hk] & Hp & Hr). destruct mv as [n|]; cbn [Pages.serveOGCached]; [|apply Hsame; eauto]. rewrite (Hpath k Hk) in *.
    destruct (names d !! tmp_of k) as [i|] eqn:E.
    + pose proof (link_key _ _ _ k _ i Hd Hp (or_intror eq_refl) E) as Ho. exists own. split; [done|]. split.
      * eapply disk_ok_set; [done|done|apply pieces_nil].
      * split; [by exists k|]. by rewrite (Hpath k Hk).
    + exists (own ++ [k]). split; [by apply prefix_app_r|]. split; [by apply disk_ok_make|]. split; [|by rewrite (Hpath k Hk)].
      exists k. split; [done|]. by rewrite <-(do_len _ _ _ Hd), lookup_app_r, Nat.sub_diag.
  - destruct Hph as ((k & Hk & Ho) & Hp & Hr). destruct mv as [n|]; cbn [Pages.serveOGCached]; [|apply Hsame; eauto].
    destruct (take (S n) _) as [|c chunk] eqn:E; [apply Hsame; split_and!; eauto|]. exists own. split; [done|]. split.
    + eapply disk_ok_set; [done|done|]. rewrite <-E. apply pieces_pwrite; [by eapply node_pieces|by apply Himg].
    + split_and!; [by exists k|done|done].
  - destruct Hph as ([k Hk] & Hp & Hr). destruct mv as [n|]; cbn [Pages.serveOGCached]; [|apply Hsame; eauto]. rewrite (Hpath k Hk) in *.
    destruct (names d !! tmp_of k) as [i|] eqn:E; [|apply Hsame; eauto]. exists own. split; [done|]. split; [by apply disk_ok_rename|eauto].
Qed.

(** What holds of the server, whatever happens. *)
Definition server_ok (own : list (string * string)) (s : server) : Prop :=
  disk_ok own (og_requests s).*1 (og_cache s) ∧
  ∀ t q ph, og_requests s !! t = Some (q, ph) → phase_ok own (og_requests s).*1 q ph.

Lemma begins_ok own l q : phase_ok own l q (apiOGImage Generic q).
Proof. unfold apiOGImage. destruct (asked q) as [k|] eqn:E; [by exists k|by left]. Qed.

Lemma requests_same (rs : list (request * phase)) t q ph ph' : rs !! t = Some (q, ph) → (<[t := (q, ph')]> rs).*1 = rs.*1.
Proof. intros H. rewrite list_fmap_insert. simpl. apply list_insert_id. by rewrite list_lookup_fmap, H. Qed.

Lemma server_step own s e : server_ok own s → ∃ own', own `prefix_of` own' ∧ server_ok own' (happens s e).
Proof.
  intros [Hd Hph]. destruct e as [q|t mv|]; simpl.
  - assert (∀ x, x ∈ (og_requests s).*1 → x ∈ (og_requests s ++ [(q, apiOGImage Generic q)]).*1) as Hmono
      by (intros x Hx; rewrite fmap_app; apply elem_of_app; by left).
    exists own. split; [done|]. split; simpl.
    + destruct Hd as [H1 H2 H3]. split; [done|done|]. intros i c k Hi Hk. eapply pieces_mono; [exact Hmono|by eapply H3].
    + intros t q' ph [H|[_ H]]%lookup_app_Some; [eapply phase_ok_mono; [done|exact Hmono|by eapply Hph]|].
      apply list_lookup_singleton_Some in H as [_ [= <- <-]]. apply begins_ok.
  - destruct (og_requests s !! t) as [[q ph]|] eqn:Et; [|by exists own].
    pose proof (serve_ok own (og_requests s).*1 (og_cache s) q ph mv Hd ltac:(apply list_elem_of_fmap; exists (q, ph); split; [done|by eapply list_elem_of_lookup_2]) (Hph t q ph Et)) as H.
    destruct (serveOGCached q ph mv (og_cache s)) as [ph' d']. destruct H as (own' & Hp & Hd' & Hph'). exists own'. split; [done|].
    unfold server_ok. simpl. rewrite (requests_same _ _ _ ph) by done. split; [done|]. intros t' q' ph'' H.
    apply list_lookup_insert_Some in H as [(<- & [= <- <-] & _)|(Hne & H)]; [done|]. eapply phase_ok_mono; [done|done|by eapply Hph].
  - exists own. split; [done|].
    assert (((λ x, (x.1, dropped x.2)) <$> og_requests s).*1 = (og_requests s).*1) as E
      by (rewrite <-list_fmap_compose; by apply list_fmap_ext).
    unfold server_ok. simpl. rewrite E. split; [done|]. intros t q ph H. rewrite list_lookup_fmap in H.
    destruct (og_requests s !! t) as [[q' ph']|] eqn:Et; [|done]. injection H as <- <-. pose proof (Hph t q' ph' Et). by destruct ph'.
Qed.

Lemma reached_ok may s : reached may s → ∃ own, server_ok own s.
Proof.
  induction 1 as [|s e Hs [own IH] He]; [|destruct (server_step own s e IH) as (own' & _ & ?); eauto].
  exists []. split; [|by intros t q ph]. split; [done|by intros nm i|by intros i c k].
Qed.

(** *** Requests for one card that do not overlap *)

Definition idle (ph : phase) : Prop := match ph with Answered _ | Gone => True | _ => False end.

(** No request comes for a card while another for it is being served, and no read of a
    file that has been opened fails. *)
Definition calm (s : server (D := D)) (e : event (D := D)) : Prop :=
  match e with
  | Arrives q => ∀ t q' ph, og_requests s !! t = Some (q', ph) → asked q' = asked q → idle ph
  | Acts t Breaks => ∀ q i got, og_requests s !! t ≠ Some (q, Copying i got)
  | _ => True
  end.

Definition calm_phase (l : list request) (d : cache) (q : request) (ph : phase) : Prop :=
  match ph with
  | Stating i => cachePath q ≠ "" ∧ names d !! cachePath q = Some i
  | Copying i got => cachePath q ≠ "" ∧ names d !! cachePath q = Some i ∧ got `prefix_of` node d i
  | Writing i body off => cachePath q ≠ "" ∧ names d !! (cachePath q +:+ ".tmp") = Some i ∧ node d i = take off body ∧ off ≤ length body
  | Renaming body => cachePath q ≠ "" ∧ ∃ i, names d !! (cachePath q +:+ ".tmp") = Some i ∧ node d i = body
  | Answered a => ca_Body a = Generic ∨ ∃ k, asked q = Some k ∧ imaged l k (ca_Body a)
  | _ => True
  end.

Definition calm_disk (l : list request) (d : cache) : Prop :=
  ∀ k i, path_of k ≠ "" → names d !! path_of k = Some i → imaged l k (node d i) ∧ names d !! tmp_of k ≠ Some i.

(** A step for one card leaves the files of the others. *)
Definition same_card (own : list (string * string)) (k : string * string) (d d' : cache) : Prop :=
  names d' !! path_of k = names d !! path_of k ∧ names d' !! tmp_of k = names d !! tmp_of k ∧ ∀ i, own !! i = Some k → node d' i = node d i.

Lemma node_set i c d j : i < length (nodes d) → node (set_node i c d) j = if decide (j = i) then c else node d j.
Proof.
  intros Hi. unfold node, set_node. simpl. case_decide as E; [subst; by rewrite list_lookup_insert_eq|]. by rewrite list_lookup_insert_ne.
Qed.

Lemma own_lt own l d i k : disk_ok own l d → own !! i = Some k → i < length (nodes d).
Proof. intros Hd Ho. rewrite <-(do_len _ _ _ Hd). by eapply lookup_lt_Some. Qed.

Lemma serve_frame own l d q ph mv k : disk_ok own l d → phase_ok own l q ph → path_of k ≠ "" → asked q ≠ Some k →
  same_card own k d (serveOGCached q ph mv d).2.
Proof.
  intros Hd Hph Hk Hne.
  assert (∀ k' i c, k' ≠ k → own !! i = Some k' → same_card own k d (set_node i c d)) as Hset.
  { intros k' i c Hkk Ho. split_and!; [done|done|]. intros j Hj. rewrite node_set by by eapply own_lt. case_decide; [|done]. congruence. }
  assert (∀ k', k' ≠ k → path_of k' ≠ "" → path_of k' ≠ path_of k ∧ path_of k' ≠ tmp_of k ∧ tmp_of k' ≠ path_of k ∧ tmp_of k' ≠ tmp_of k) as Hnames.
  { intros k' Hkk Hk'. split_and!.
    - intros E. by apply Hkk, path_inj.
    - intros E. by destruct (temporary_apart root k'.1 k'.2 (path_of k) Hk').
    - by apply temporary_apart.
    - intros E%tmp_inj. by apply Hkk, path_inj. }
  destruct ph as [|i|i got| |body|i body off|body|a|]; destruct mv as [n|]; simpl; try done; repeat case_match; try done.
  - destruct Hph as ([k' Hk'] & Hp & _). unfold Pages.cachePath in *. rewrite Hk' in *. eapply Hset; [|match goal with E : names d !! _ = Some _ |- _ => exact (link_key _ _ _ _ _ _ Hd Hp (or_intror eq_refl) E) end]. congruence.
  - destruct Hph as ([k' Hk'] & Hp & _). unfold Pages.cachePath in *. rewrite Hk' in *. destruct (Hnames k') as (_ & _ & H3 & H4); [congruence|done|].
    split_and!; simpl; [by rewrite lookup_insert_ne|by rewrite lookup_insert_ne|]. intros j Hj. unfold node. simpl.
    rewrite lookup_app_l by by eapply own_lt. done.
  - destruct Hph as ((k' & Hk' & Ho) & _). eapply Hset; [|done]. congruence.
  - destruct Hph as ([k' Hk'] & Hp & _). unfold Pages.cachePath in *. rewrite Hk' in *. destruct (Hnames k') as (H1 & H2 & H3 & H4); [congruence|done|].
    split_and!; simpl; [by rewrite lookup_insert_ne, lookup_delete_ne|by rewrite lookup_insert_ne, lookup_delete_ne|done].
Qed.

Lemma calm_disk_step own l d d' k : disk_ok own l d → calm_disk l d → (∀ k', k' ≠ k → path_of k' ≠ "" → same_card own k' d d') →
  (∀ i, path_of k ≠ "" → names d' !! path_of k = Some i → imaged l k (node d' i) ∧ names d' !! tmp_of k ≠ Some i) → calm_disk l d'.
Proof.
  intros Hd Hc Hother Hk k' i Hp Hi. destruct (decide (k' = k)) as [->|Hne]; [by apply Hk|].
  destruct (Hother k' Hne Hp) as (E1 & E2 & E3). rewrite E1 in Hi. rewrite E2, E3; [by apply Hc|]. by eapply link_key; [..|left|].
Qed.

(** A step of the only handler of a card: what it renames is whole. *)
Lemma calm_making own l d q k body : disk_ok own l d → calm_disk l d → asked q = Some k → cachePath q = path_of k → path_of k ≠ "" →
  let '(ph', d') := serveOGCached q (Making body) (Goes 0) d in
  calm_phase l d' q ph' ∧ ∀ i, path_of k ≠ "" → names d' !! path_of k = Some i → imaged l k (node d' i) ∧ names d' !! tmp_of k ≠ Some i.
Proof.
  intros Hd Hc Hk Hpath Hp. simpl. rewrite Hpath. destruct (names d !! tmp_of k) as [i|] eqn:E.
  - pose proof (own_lt _ _ _ _ _ Hd (link_key _ _ _ _ _ _ Hd Hp (or_intror eq_refl) E)) as Hlt. split.
    + simpl. rewrite Hpath. split_and!; [done|done| |lia]. by rewrite node_set, decide_True.
    + intros j _ Hj. destruct (Hc k j Hp Hj) as [Hi Hn]. rewrite node_set, decide_False by congruence. by split.
  - split.
    + simpl. rewrite Hpath. split_and!; [done|by rewrite lookup_insert_eq| |lia]. unfold node. simpl. by rewrite lookup_app_r, Nat.sub_diag.
    + simpl. intros j _ Hj. rewrite lookup_insert_ne in Hj by by apply temporary_apart. destruct (Hc k j Hp Hj) as [Hi Hn].
      pose proof (own_lt _ _ _ _ _ Hd (link_key _ _ _ _ _ _ Hd Hp (or_introl eq_refl) Hj)) as Hlt. split.
      * unfold node. simpl. by rewrite lookup_app_l.
      * rewrite lookup_insert_eq. intros [= E']. lia.
Qed.

Lemma calm_writing own l d q k i body off n : disk_ok own l d → calm_disk l d → cachePath q = path_of k → path_of k ≠ "" →
  names d !! tmp_of k = Some i → node d i = take off body → off ≤ length body →
  let '(ph', d') := serveOGCached q (Writing i body off) (Goes n) d in
  calm_phase l d' q ph' ∧ ∀ j, path_of k ≠ "" → names d' !! path_of k = Some j → imaged l k (node d' j) ∧ names d' !! tmp_of k ≠ Some j.
Proof.
  intros Hd Hc Hpath Hp Hi Hn Ho. cbn [Pages.serveOGCached]. rewrite Hn. destruct (take (S n) (drop off body)) as [|c chunk] eqn:E.
  - split; [|by apply Hc]. simpl. rewrite Hpath. split; [done|]. exists i. split; [done|]. rewrite Hn. apply take_ge.
    apply (f_equal length) in E. rewrite length_take, length_drop in E. cbn [length] in E. lia.
  - assert (off + length (c :: chunk) ≤ length body) as Hle by (rewrite <-E, length_take, length_drop; lia).
    pose proof (own_lt _ _ _ _ _ Hd (link_key _ _ _ _ _ _ Hd Hp (or_intror eq_refl) Hi)) as Hlt. split.
    + simpl. rewrite Hpath. split_and!; [done|done| |simpl in Hle; lia]. rewrite node_set, decide_True by done.
      rewrite <-E in Hle |- *. change (S (length chunk)) with (length (c :: chunk)). rewrite <-E. by apply pwrite_next.
    + simpl. intros j _ Hj. destruct (Hc k j Hp Hj) as [? Hne]. rewrite node_set, decide_False by congruence. by split.
Qed.

Lemma serve_calm own l d q ph mv k : disk_ok own l d → calm_disk l d → q ∈ l → phase_ok own l q ph → calm_phase l d q ph → asked q = Some k →
  (mv = Breaks → ∀ i got, ph ≠ Copying i got) →
  let '(ph', d') := serveOGCached q ph mv d in calm_phase l d' q ph' ∧ calm_disk l d'.
Proof.
  intros Hd Hc Hq Hok Hph Hk Hmv. pose proof (serve_frame own l d q ph mv) as Hframe.
  assert (cachePath q = path_of k) as Hpath by (unfold Pages.cachePath; by rewrite Hk).
  assert (∀ body, RenderBytes (asked_spec q) = Some body → imaged l k body) as Himg by (intros; by exists q).
  assert (∀ d' ph', serveOGCached q ph mv d = (ph', d') → (∀ i, path_of k ≠ "" → names d' !! path_of k = Some i →
    imaged l k (node d' i) ∧ names d' !! tmp_of k ≠ Some i) → calm_disk l d') as Hdisk.
  { intros d' ph' E Hkk. eapply calm_disk_step; [done|done| |exact Hkk]. intros k' Hne Hp. pose proof (Hframe k' Hd Hok Hp) as H.
    rewrite E in H. apply H. congruence. }
  destruct ph as [|i|i got| |body|i body off|body|a|]; [| | | | | | |by destruct mv..].
  - destruct mv; cbn [Pages.serveOGCached]; [|done]. split; [|done]. rewrite Hpath. case_decide as Hp; [done|].
    destruct (names d !! path_of k) as [i|] eqn:E; [|done]. simpl. by rewrite Hpath.
  - destruct mv; cbn [Pages.serveOGCached]; [|done]. split; [|done]. destruct Hph as [Hp Hi]. destruct (node d i) eqn:E; [done|].
    simpl. split_and!; [done|done|apply prefix_nil].
  - destruct mv as [n|]; [|by destruct (Hmv eq_refl i got)]. cbn [Pages.serveOGCached]. split; [|done]. destruct Hph as (Hp & Hi & [r Hr]).
    rewrite Hr, drop_app_length. destruct r as [|c r]; simpl.
    + right. exists k. split; [done|]. rewrite app_nil_r in Hr. rewrite <-Hr. rewrite Hpath in *. by apply Hc.
    + split_and!; [done|done|]. rewrite Hr. apply prefix_app. exists (drop n r). simpl. by rewrite take_drop.
  - cbn [Pages.serveOGCached]. split; [|done]. destruct (RenderBytes (asked_spec q)) as [body|] eqn:Er; [|by left].
    case_decide; [|done]. right. exists k. split; [done|]. by apply Himg.
  - destruct Hok as (_ & Hp & Hr). destruct mv as [n|]; cbn [Pages.serveOGCached]; [|split; [right; exists k; auto|done]].
    rewrite Hpath in Hp. pose proof (calm_making own l d q k body Hd Hc Hk Hpath Hp) as H.
    change (serveOGCached q (Making body) (Goes n) d) with (serveOGCached q (Making body) (Goes 0) d) in Hdisk. cbn [Pages.serveOGCached] in H, Hdisk.
    destruct (match names d !! (cachePath q +:+ ".tmp") with Some _ => _ | None => _ end) as [ph' d'] eqn:E.
    destruct H as [H1 H2]. split; [done|]. by eapply Hdisk.
  - destruct Hok as (_ & _ & Hr). destruct Hph as (Hp & Hi & Hn & Ho). destruct mv as [n|]; cbn [Pages.serveOGCached]; [|split; [right; exists k; auto|done]].
    rewrite Hpath in *. pose proof (calm_writing own l d q k i body off n Hd Hc Hpath Hp Hi Hn Ho) as H. cbn [Pages.serveOGCached] in H, Hdisk.
    destruct (match take (S n) (drop off body) with [] => _ | _ => _ end) as [ph' d'] eqn:E.
    destruct H as [H1 H2]. split; [done|]. by eapply Hdisk.
  - destruct Hok as (_ & _ & Hr). destruct Hph as (Hp & i & Hi & Hn). destruct mv as [n|]; cbn [Pages.serveOGCached]; [|split; [right; exists k; auto|done]].
    rewrite Hi. split; [right; exists k; auto|]. eapply Hdisk; [cbn [Pages.serveOGCached]; by rewrite Hi|]. rewrite Hpath in *. simpl. intros j _.
    rewrite lookup_insert_eq. intros [= <-]. unfold node in *. simpl. split; [rewrite Hn; by apply Himg|].
    rewrite lookup_insert_ne, lookup_delete_eq; [done|]. intros E. by destruct (temporary_apart root k.1 k.2 (path_of k) Hp).
Qed.

Lemma calm_phase_frame own l l' d d' q ph k : disk_ok own l d → (∀ x, x ∈ l → x ∈ l') → asked q = Some k → phase_ok own l q ph →
  (path_of k ≠ "" → same_card own k d d') → calm_phase l d q ph → calm_phase l' d' q ph.
Proof.
  intros Hd Hl Hk Hok Hs Hph. assert (cachePath q = path_of k) as Hpath by (unfold Pages.cachePath; by rewrite Hk).
  destruct ph as [|i|i got| |body|i body off|body|a|]; simpl in *; try done; rewrite ?Hpath in *.
  - destruct Hph as [Hp Hi]. destruct (Hs Hp) as (E1 & _). by rewrite E1.
  - destruct Hph as (Hp & Hi & Hg). destruct (Hs Hp) as (E1 & _ & E3). destruct Hok as [(k' & Hk' & Ho) _].
    rewrite E1, E3; [by split_and!|congruence].
  - destruct Hph as (Hp & Hi & Hn & Ho). destruct (Hs Hp) as (_ & E2 & E3). destruct Hok as ((k' & Hk' & Hown) & _).
    rewrite E2, E3; [by split_and!|congruence].
  - destruct Hph as (Hp & i & Hi & Hn). destruct (Hs Hp) as (_ & E2 & E3). split; [done|]. exists i. rewrite E2, E3; [done|].
    by eapply link_key; [..|right|].
  - destruct Hph as [?|(k' & ? & ?)]; [by left|right]. exists k'. split; [done|]. by eapply imaged_mono.
Qed.

Record calm_ok (s : server (D := D)) : Prop := {
  cm_disk : calm_disk (og_requests s).*1 (og_cache s);
  cm_phase t q ph : og_requests s !! t = Some (q, ph) → calm_phase (og_requests s).*1 (og_cache s) q ph;
  cm_one t t' q q' ph ph' : og_requests s !! t = Some (q, ph) → og_requests s !! t' = Some (q', ph') →
    ¬ idle ph → ¬ idle ph' → asked q = asked q' → t = t';
}.

Lemma busy_asked own l q ph : phase_ok own l q ph → ¬ idle ph → is_Some (asked q).
Proof. destruct ph; simpl; try done; [by intros (k & -> & _)|by intros [(k & -> & _) _]|by intros [? _]|by intros [(k & -> & _) _]|by intros [? _]|by intros _ []..]. Qed.

(** A request comes. *)
Lemma calm_arrives own s q : server_ok own s → calm_ok s → calm s (Arrives q) → calm_ok (happens s (Arrives q)).
Proof.
  intros [Hd Hph] [Hc Hcp Hone] Hq. assert (∀ x, x ∈ (og_requests s).*1 → x ∈ (og_requests s ++ [(q, apiOGImage Generic q)]).*1) as Hmono
    by (intros x Hx; rewrite fmap_app; apply elem_of_app; by left).
  split; simpl.
  - intros k i Hp Hi. destruct (Hc k i Hp Hi) as [? ?]. split; [by eapply imaged_mono|done].
  - intros t q' ph [H|[_ H]]%lookup_app_Some.
    + pose proof (Hph t q' ph H) as Hok. pose proof (Hcp t q' ph H) as Hold. destruct (asked q') as [k|] eqn:Hk.
      * by eapply calm_phase_frame.
      * assert (cachePath q' = "") as E by (unfold Pages.cachePath; by rewrite Hk).
        destruct ph; simpl in *; try done; try (by destruct Hold); destruct Hold as [?|(k' & ? & ?)]; [by left|congruence].
    + apply list_lookup_singleton_Some in H as [_ [= <- <-]]. unfold apiOGImage. destruct (asked q); [done|by left].
  - intros t t' q1 q2 ph1 ph2 [H1|[Ht1 H1]]%lookup_app_Some [H2|[Ht2 H2]]%lookup_app_Some Hb1 Hb2 E.
    + by eapply Hone.
    + apply list_lookup_singleton_Some in H2 as [_ [= <- <-]]. by destruct Hb1; eapply Hq.
    + apply list_lookup_singleton_Some in H1 as [_ [= <- <-]]. destruct Hb2. by eapply Hq.
    + apply lookup_lt_Some in H1, H2. simpl in *. lia.
Qed.

(** A handler goes on. *)
Lemma calm_acts own s t mv : server_ok own s → calm_ok s → calm s (Acts t mv) → calm_ok (happens s (Acts t mv)).
Proof.
  intros [Hd Hph] [Hc Hcp Hone] Hmv. simpl. destruct (og_requests s !! t) as [[q ph]|] eqn:Et; [|by split].
  pose proof (Hph t q ph Et) as Hok. pose proof (Hcp t q ph Et) as Hcph.
  assert (q ∈ (og_requests s).*1) as Hq by (apply list_elem_of_fmap; exists (q, ph); split; [done|by eapply list_elem_of_lookup_2]).
  assert (idle ph ∨ ¬ idle ph) as [Hidle|Hbusy] by (destruct ph; simpl; tauto).
  { assert (serveOGCached q ph mv (og_cache s) = (ph, og_cache s)) as -> by by destruct ph.
    assert (<[t := (q, ph)]> (og_requests s) = og_requests s) as -> by by apply list_insert_id. by split. }
  destruct (busy_asked _ _ _ _ Hok Hbusy) as [k Hk].
  assert (mv = Breaks → ∀ i got, ph ≠ Copying i got) as Hread by (intros -> i got ->; exact (Hmv q i got Et)).
  pose proof (serve_calm own _ _ q ph mv k Hd Hc Hq Hok Hcph Hk Hread) as H.
  pose proof (serve_frame own (og_requests s).*1 (og_cache s) q ph mv) as Hframe.
  destruct (serveOGCached q ph mv (og_cache s)) as [ph' d']. destruct H as [Hcph' Hc'].
  split; simpl; rewrite ?(requests_same _ _ _ ph) by done; [done| |].
  - intros t' q' ph'' H. apply list_lookup_insert_Some in H as [(<- & [= <- <-] & _)|(Hne & H)]; [done|].
    destruct (decide (asked q' = asked q)) as [E|E].
    + assert (idle ph'' ∨ ¬ idle ph'') as [Hi|Hb] by (destruct ph''; simpl; tauto); [|by destruct Hne; symmetry; eapply Hone].
      pose proof (Hcp t' q' ph'' H). by destruct ph''.
    + destruct (asked q') as [k'|] eqn:Hk'.
      * eapply calm_phase_frame; [done|done|done|by eapply Hph| |by eapply Hcp]. intros Hp. apply (Hframe k' Hd Hok Hp). congruence.
      * pose proof (Hcp t' q' ph'' H). assert (cachePath q' = "") as E' by (unfold Pages.cachePath; by rewrite Hk').
        destruct ph''; simpl in *; try done; by destruct H0.
  - intros t1 t2 q1 q2 ph1 ph2 H1 H2 Hb1 Hb2 E.
    apply list_lookup_insert_Some in H1 as [(<- & [= <- <-] & _)|(Hne1 & H1)]; apply list_lookup_insert_Some in H2 as [(<- & [= <- <-] & _)|(Hne2 & H2)].
    + done.
    + by eapply Hone.
    + by eapply Hone.
    + by eapply Hone.
Qed.

Lemma reached_calm s : reached calm s → ∃ own, server_ok own s ∧ calm_ok s.
Proof.
  induction 1 as [|s e Hs (own & Hok & Hcalm) He].
  { exists []. split; [split; [split; [done|by intros nm i|by intros i c k]|by intros t q ph]|]. split; [by intros k i|by intros t q ph|by intros t t' q q' ph ph']. }
  destruct (server_step own s e Hok) as (own' & _ & Hok'). exists own'. split; [done|]. destruct e as [q|t mv|].
  - by eapply calm_arrives.
  - by eapply calm_acts.
  - destruct Hcalm as [Hc Hcp Hone].
    assert (((λ x, (x.1, dropped x.2)) <$> og_requests s).*1 = (og_requests s).*1) as E by (rewrite <-list_fmap_compose; by apply list_fmap_ext).
    split; simpl; rewrite ?E; [done| |].
    + intros t q ph H. rewrite list_lookup_fmap in H. destruct (og_requests s !! t) as [[q' ph']|] eqn:Et; [|done].
      injection H as <- <-. pose proof (Hcp t q' ph' Et). by destruct ph'.
    + intros t t' q q' ph ph' H _ Hb. rewrite list_lookup_fmap in H. destruct (og_requests s !! t) as [[q1 ph1]|]; [|done].
      injection H as <- <-. by destruct Hb, ph1.
Qed.

(** C22: Whatever requests come at once, with any index at each, whatever of their calls fails,
    and if the process ends among them, a card that is served is the generic one or has,
    byte for byte, what images of its own module and version have in that place, and
    zeros: never another's.  It can be part of an image, or of two, as handlers of one
    card share its temporary file.  When requests for one card do not overlap, and no read
    of an open file fails, it is the generic card or a whole image of its module and version,
    its own or an earlier request's. *)
Theorem card_answer s t q a : og_requests s !! t = Some (q, Answered a) →
  (reached (λ _ _, True) s → ca_Body a = Generic ∨ ∃ k, asked q = Some k ∧ pieces (og_requests s).*1 k (ca_Body a)) ∧
  (reached calm s → ca_Body a = Generic ∨ ∃ k, asked q = Some k ∧ imaged (og_requests s).*1 k (ca_Body a)).
Proof.
  intros Ht. split.
  - intros [own [_ Hok]]%reached_ok. exact (Hok t q _ Ht).
  - intros (own & _ & [_ Hok _])%reached_calm. exact (Hok t q _ Ht).
Qed.
End history.

(** ** The address of a card *)

Lemma unescape_escape_app l k : unescape (flat_map percent_byte l ++ k) = match unescape k with Some r => Some (l ++ r) | None => None end.
Proof.
  induction l as [|c l IH]; simpl; [by destruct (unescape k)|].
  rewrite <- app_assoc, (proj1 (percent_byte_ok c)), IH. by destruct (unescape k).
Qed.

Lemma TrimSuffix_app s p : TrimSuffix (s +:+ p) p = s.
Proof.
  unfold TrimSuffix. rewrite to_bytes_app, rev_app_distr.
  rewrite (proj2 (strip_prefix_Some (rev (to_bytes p)) _ (rev (to_bytes s)))) by done.
  by rewrite rev_involutive, of_to_bytes.
Qed.

Lemma TrimPrefix_app s p : TrimPrefix (p +:+ s) p = s.
Proof.
  unfold TrimPrefix. rewrite to_bytes_app. rewrite (proj2 (strip_prefix_Some (to_bytes p) _ (to_bytes s))) by done.
  by rewrite of_to_bytes.
Qed.

(** The address that a page gives for its preview leads back to that page's card: a
    request for it, decoded, is for the module and the version of the page, whatever
    their names, when they have no slash. *)
Theorem card_address origin m v : m ≠ "" → slash ∉ to_bytes m → slash ∉ to_bytes v → (v = "" → m ≠ "default") →
  ∃ p path, ogImageURL origin m v = origin +:+ p ∧ PathUnescape p = Some path ∧
    card_of path = if decide (v = "") then CModule m else CVersion m v.
Proof.
  intros Hm Hms Hvs Hd. unfold ogImageURL. rewrite decide_False by done.
  exists ("/og/" +:+ PathEscape m +:+ (if decide (v = "") then "" else "/" +:+ PathEscape v) +:+ ".png").
  exists ("/og/" +:+ (m +:+ (if decide (v = "") then "" else "/" +:+ v)) +:+ ".png").
  split; [done|]. split.
  - unfold PathUnescape. rewrite !to_bytes_app, !PathEscape_bytes.
    assert (∀ k, unescape (to_bytes "/og/" ++ k) = match unescape k with Some r => Some (to_bytes "/og/" ++ r) | None => None end) as Hog.
    { intros k. simpl. by destruct (unescape k). }
    assert (unescape (to_bytes (if decide (v = "") then "" else "/" +:+ PathEscape v) ++ to_bytes ".png") =
      Some (to_bytes (if decide (v = "") then "" else "/" +:+ v) ++ to_bytes ".png")) as Htail.
    { case_decide; [done|]. rewrite !to_bytes_app, PathEscape_bytes, <- app_assoc. change (to_bytes "/") with ["/"%char]. simpl.
      by rewrite unescape_escape_app. }
    rewrite Hog, unescape_escape_app, Htail. cbn [fmap option_fmap option_map]. f_equal.
    apply to_bytes_inj. by rewrite to_of_bytes, !to_bytes_app, <- !app_assoc.
  - unfold card_of. rewrite TrimPrefix_app, TrimSuffix_app. destruct (decide (v = "")) as [->|Hv].
    + assert (m +:+ "" = m) as -> by (apply to_bytes_inj; by rewrite to_bytes_app, app_nil_r).
      rewrite decide_False by naive_solver. by rewrite Split_noslash.
    + rewrite decide_False, Split_app_slash, !Split_noslash; [done..|].
      intros [E|E]; apply (f_equal to_bytes) in E; rewrite !to_bytes_app in E; [by apply app_eq_nil in E as [_ E]|].
      assert (slash ∈ to_bytes "default") as Hin by (rewrite <- E; set_solver). revert Hin. closed_free.
Qed.

Lemma card_address_witness : ∃ p path, ogImageURL "https://hub" "a b" "1.0" = "https://hub" +:+ p ∧ PathUnescape p = Some path ∧
  card_of path = if decide ("1.0" = "") then CModule "a b" else CVersion "a b" "1.0".
Proof. apply card_address; [done|closed_free|closed_free|done]. Defined.

(** *** Concrete servers *)

Definition demo_image (s : Spec) : option bytes := Some (to_bytes (sp_ModuleName s +:+ "@" +:+ sp_ModuleVersion s +:+ " " +:+ sp_Host s)).
Definition demo_card (host path : string) : CardRequest unit :=
  mkCardRequest (mkPageRequest true "" host "hub" path) (λ _, Err ErrModuleNotFound) (λ _ _, None).
Definition demo_server (es : list (event (D := unit))) : server (D := unit) :=
  foldl (happens demo_image [] "/data") (mkServer (mkCache ∅ []) []) es.
Definition goes (t n : nat) : list (event (D := unit)) := repeat (Acts t (Goes 1000)) n.
Definition body_of (t : nat) (s : server (D := unit)) : option string :=
  match og_requests s !! t with Some (_, Answered a) => Some (of_bytes (ca_Body a)) | _ => None end.

(** The card of a module and that of its version named module share a file, and a card
    keeps the host of the request that made it. *)
Example card_shared :
  let after q := body_of 1 (demo_server ([Arrives q] ++ goes 0 9 ++ [Arrives (demo_card "" "/og/m.png")] ++ goes 1 9)) in
  after (demo_card "" "/og/m/module.png") = Some "m@module hub" ∧ after (demo_card "evil" "/og/m.png") = Some "m@ evil" ∧
  after (demo_card "" "/og/n.png") = Some "m@ hub".
Proof. vm_compute. auto. Qed.

(** One handler has written its image, another empties the file and has written three
    bytes, the first gives the file its name: the third request gets the three bytes. *)
Definition torn_events : list (event (D := unit)) :=
  let q := demo_card "" "/og/m.png" in
  [Arrives q] ++ goes 0 5 ++ [Arrives q] ++ goes 1 3 ++ goes 0 1 ++ [Acts 1 (Goes 2); Arrives q] ++ goes 2 4.
Example partial_image : body_of 2 (demo_server torn_events) = Some "m@ ".
Proof. vm_compute. reflexivity. Qed.

(** One handler has written two bytes, another empties the file and goes no further, the
    first writes the rest and gives the file its name: the card begins with zeros, for
    good. *)
Example zeros_kept :
  let q := demo_card "" "/og/m.png" in
  let s := demo_server ([Arrives q] ++ goes 0 3 ++ [Acts 0 (Goes 1); Arrives q] ++ goes 1 3 ++ [Acts 1 Breaks] ++ goes 0 3 ++ [Arrives q] ++ goes 2 4) in
  body_of 2 s = Some (of_bytes ["000"%char; "000"%char] +:+ " hub").
Proof. vm_compute. reflexivity. Qed.

Lemma reached_any (es : list (event (D := unit))) s : reached demo_image [] "/data" (λ _ _, True) s → reached demo_image [] "/data" (λ _ _, True) (foldl (happens demo_image [] "/data") s es).
Proof. revert s. induction es as [|e es IH]; intros s Hs; [done|]. simpl. apply IH. by apply reached_event. Qed.

Lemma card_answer_witness :
  ∃ k, asked (demo_card "" "/og/m.png") = Some k ∧ pieces demo_image (og_requests (demo_server torn_events)).*1 k (to_bytes "m@ ").
Proof.
  destruct (og_requests (demo_server torn_events) !! 2) as [[q ph]|] eqn:E; [|by vm_compute in E].
  pose proof E as E'. vm_compute in E'. injection E' as <- <-.
  destruct (card_answer demo_image [] "/data" _ _ _ _ E) as [H _].
  destruct H as [H|H]; [apply reached_any, reached_start|discriminate H|exact H].
Defined.

(** ** The versions table and the card of the module *)

Section table.
Context (months_label : Z → string) (percent : Z → Z → Z) (ingested : string → option Z) (rfc3339 : Z → string).
Abbreviation entries_of := (entries_of months_label percent ingested rfc3339).

Lemma entries_versions module yanked pins total rows : ve_Version <$> entries_of module yanked pins total rows = rows.*1.
Proof. induction rows as [|row rows IH]; [done|]. cbn [Pages.entries_of]. rewrite !fmap_cons. by rewrite IH. Qed.

Lemma entries_lookup module yanked pins total rows i e : entries_of module yanked pins total rows !! i = Some e →
  ∃ row, rows !! i = Some row ∧ e = table_row months_label percent ingested rfc3339 module yanked pins total row (drop (S i) rows).
Proof.
  revert i. induction rows as [|row rows IH]; intros i; [done|]. destruct i as [|i]; simpl; [intros [= <-]; eauto|apply IH].
Qed.

(** The comparison of the newest version that is no stub. *)
Definition first_diff (es : list versionEntry) : string :=
  match filter (λ e, ve_IsStub e = false) es with e :: _ => ve_DiffHref e | [] => "" end.

Lemma first_diff_spec module yanked pins total rows :
  first_diff (entries_of module yanked pins total rows) = diff_href module (two_newest rows).
Proof.
  unfold first_diff, two_newest. induction rows as [|[v cols] rows IH]; [done|]. cbn [Pages.entries_of]. rewrite fmap_cons, !filter_cons. cbn [fst].
  change (ve_IsStub (table_row months_label percent ingested rfc3339 module yanked pins total (v, cols) rows)) with (IsStubVersion v).
  destruct (IsStubVersion v) eqn:Hv; [by rewrite !decide_False|]. rewrite !decide_True by done.
  unfold table_row, diff_from, diff_href. cbn [fst ve_DiffHref]. rewrite Hv.
  destruct (filter _ rows.*1) as [|w l] eqn:E; cbn [prevNonStub latestNonStub].
  - rewrite decide_True, decide_False by (done || by intros [? _]). done.
  - assert (IsStubVersion w = false) as Hw.
    { assert (w ∈ filter (λ v, IsStubVersion v = false) rows.*1) as H by (rewrite E; by left). by apply list_elem_of_filter in H as [H _]. }
    assert (∀ u, IsStubVersion u = false → u ≠ "") as Hne by (intros u Hu ->; done).
    rewrite decide_False, decide_True by auto. done.
Qed.
End table.

(** A module's page and its card tell the same story: the rows are the versions of
    the index, newest first; each row compares with the next older version that is no
    stub, and a stub with none; the newest comparison is the one on the card, whose
    latest version and count are those of the rows. *)
Theorem versions_table {D} months_label percent ingested rfc3339 decode_report yanked ix module
    (zero_drift : D) decode_drift ingested_text recent ReadMetadataJSON parse_url :
  let es := apiListVersions months_label percent ingested rfc3339 decode_report yanked ix module in
  (ve_Version <$> es = ListVersions ix module) ∧
  (∀ i e, es !! i = Some e →
     ve_DiffFromVersion e = (if IsStubVersion (ve_Version e) then "" else diff_from (drop (S i) (ListVersions ix module))) ∧
     ve_DiffHref e = (if decide (ve_DiffFromVersion e = "") then "" else diffURL module (ve_DiffFromVersion e) (ve_Version e))) ∧
  match GetModule zero_drift decode_drift ingested_text recent ReadMetadataJSON parse_url ix module with
  | Ok card => ms_LatestDiffHref card = first_diff es ∧ ms_VersionCount card = Z.of_nat (length es) ∧
               head (ve_Version <$> es) = Some (ms_LatestVersion card)
  | Err _ => module = "" ∨ es = []
  end.
Proof.
  intros es. assert (ve_Version <$> es = ListVersions ix module) as Hv by apply entries_versions. split; [done|]. split.
  - intros i e (row & Hrow & ->)%entries_lookup. unfold ListVersions, table_row. cbn [ve_DiffFromVersion ve_DiffHref ve_Version]. by rewrite fmap_drop.
  - unfold GetModule. case_decide as Hm; [by left|].
    assert (first_diff es = diff_href module (two_newest (ListVersionsWithMeta ix module))) as Hd by apply first_diff_spec.
    assert (length es = length (ListVersionsWithMeta ix module)) as Hl.
    { rewrite <- (length_fmap ve_Version es), Hv. unfold ListVersions. by rewrite length_fmap. }
    rewrite Hd, Hl, Hv. unfold ListVersions. destruct (ListVersionsWithMeta ix module) as [|[latest cols] rest] eqn:E.
    + right. by apply length_zero_iff_nil.
    + unfold finish. destruct (registry_fields _ _ _) as [[homepage maintainers] label]. cbn [ms_LatestDiffHref ms_VersionCount ms_LatestVersion ms_Name]. done.
Qed.
