(* ===== verification/Ledger.v ===== *)
(** * Who served what, and who may maintain it

    [internal/store/module_sources.go]: the ledger of the sources that served a version or
    were shadowed, which the federation's hook writes ([cmd/bzlhub/serve.go]), and the
    collisions reported from it; [internal/store/maintainers.go] and
    [internal/server/maintainer_handlers.go]: the grants of maintainers and their HTTP
    surface.

    A SQL statement is one function on a table; [fault] is the error the database reports
    for it, if any.  Where SQL leaves the order of rows open, the order is that of a map. *)

From stdpp Require Import fin_maps.
From S2P Require Import Prelude Strings Timestamp Policy AuditTrail RequestHandlers ResponseCache Cascade Evaluator.

(** ** The ledger of sources *)

Abbreviation source_key := (string * string * string)%type.
Record SourceRow := mkSourceRow { sr_kind : string; sr_seen_at : string }.
Abbreviation Sources := (gmap source_key SourceRow).

Definition source_kinds : list string := [CollisionKindLocal; CollisionKindUpstream; CollisionKindShadowed].

(** [LogModuleSource]: [INSERT OR IGNORE] passes over a row whose key is there, and over
    one that fails the check of its kind. *)
Definition LogModuleSource (fault : option string) (now : Z) (module version sourceURL kind : string) (t : Sources)
    : result string unit * Sources :=
  if decide (module = "" ∨ version = "" ∨ sourceURL = "") then (Err "LogModuleSource: module/version/sourceURL required", t)
  else match fault with
       | Some e => (Err ("insert module_source: " +:+ e), t)
       | None =>
           (Ok tt, match t !! (module, version, sourceURL) with
                   | Some _ => t
                   | None => if decide (kind ∈ source_kinds) then <[(module, version, sourceURL) := mkSourceRow kind (fmt_time now)]> t else t
                   end)
       end.

(** The hook of the server: a failure is logged only. *)
Definition collision_hook (fault : option string) (now : Z) (x : collision) (t : Sources) : Sources :=
  (LogModuleSource fault now (col_module x) (col_version x) (col_source x) (col_kind x) t).2.

Definition is_shadowed (kv : source_key * SourceRow) : Prop := sr_kind kv.2 = CollisionKindShadowed.
#[export] Instance is_shadowed_dec kv : Decision (is_shadowed kv).
Proof. unfold is_shadowed. apply _. Defined.

(** [GetCollisionsCount]: [COUNT(DISTINCT module_name || '@' || version)]. *)
Definition GetCollisionsCount (t : Sources) : nat :=
  size (set_of ((λ kv, kv.1.1.1 +:+ "@" +:+ kv.1.1.2) <$> filter is_shadowed (map_to_list t))).

Record ModuleCollision := mkModuleCollision {
  mc_Module : string; mc_Version : string; mc_ServedFrom : string; mc_Shadowed : list string; mc_LastSeen : string }.

(** [sortStrings]: the inner loop, from [j] down, and the outer one. *)
Fixpoint sink (j : nat) (s : list string) : list string :=
  match j with
  | O => s
  | S i =>
      match s !! i, s !! j with
      | Some a, Some b => if String.ltb b a then sink i (<[i := b]> (<[j := a]> s)) else s
      | _, _ => s
      end
  end.
Definition sortStrings (s : list string) : list string := foldl (λ s i, sink i s) s (seq 1 (length s - 1)).

(** The greatest of some texts. *)
Definition text_max (l : list string) : string := foldl (λ a b, if String.ltb a b then b else a) "" l.

(** The rows of one pair, and the pairs that have a shadowed row, with the latest of those. *)
Definition source_rows (t : Sources) (mv : string * string) : list (source_key * SourceRow) :=
  filter (λ kv, kv.1.1 = mv) (map_to_list t).
Definition latest (t : Sources) (mv : string * string) : string :=
  text_max ((λ kv, sr_seen_at kv.2) <$> filter is_shadowed (source_rows t mv)).
Definition pairs (t : Sources) : list (string * string) :=
  elements (list_to_set (C := gset (string * string)) ((λ kv, kv.1.1) <$> filter is_shadowed (map_to_list t))).

Definition later_pair (a b : (string * string) * string) : bool := String.ltb b.2 a.2.
Definition collision_groups (limit : Z) (t : Sources) : list ((string * string) * string) :=
  take (Z.to_nat limit) (sort_slice later_pair ((λ mv, (mv, latest t mv)) <$> pairs t)).

(** One row of the assembly. *)
Definition assemble_row (s : string * list string) (kv : source_key * SourceRow) : string * list string :=
  let '(served, shadowed) := s in
  let url := kv.1.2 in
  if decide (sr_kind kv.2 = CollisionKindShadowed) then (served, shadowed ++ [url])
  else if decide (sr_kind kv.2 = CollisionKindLocal ∨ sr_kind kv.2 = CollisionKindUpstream) then
    (if bool_decide (served = "") || String.ltb url served then (url, shadowed) else s)
  else s.
Definition assemble (t : Sources) (g : (string * string) * string) : ModuleCollision :=
  let '(served, shadowed) := foldl assemble_row ("", []) (source_rows t g.1) in
  mkModuleCollision g.1.1 g.1.2 served (sortStrings shadowed) g.2.

(** [GetCollisionsSample] *)
Definition GetCollisionsSample (limit : Z) (t : Sources) : list ModuleCollision :=
  assemble t <$> collision_groups (if (limit <=? 0)%Z then 10 else limit) t.

(** ** Maintainers *)

Record Maintainer := mkMaintainer { mt_Module : string; mt_UserEmail : string; mt_GrantedAt : option Z; mt_GrantedBy : string }.
Abbreviation Grants := (gmap (string * string) (string * string)).

Definition AddMaintainer (fault : option string) (now : Z) (module userEmail grantedBy : string) (t : Grants) : result string unit * Grants :=
  if decide (module = "") then (Err "store: AddMaintainer: module required", t)
  else if decide (userEmail = "") then (Err "store: AddMaintainer: user_email required", t)
  else if decide (grantedBy = "") then (Err "store: AddMaintainer: granted_by required", t)
  else match fault with
       | Some e => (Err ("store: insert maintainer: " +:+ e), t)
       | None => (Ok tt, match t !! (module, userEmail) with Some _ => t | None => <[(module, userEmail) := (fmt_time now, grantedBy)]> t end)
       end.

Definition RemoveMaintainer (fault : option string) (module userEmail : string) (t : Grants) : result string unit * Grants :=
  if decide (module = "") then (Err "store: RemoveMaintainer: module required", t)
  else if decide (userEmail = "") then (Err "store: RemoveMaintainer: user_email required", t)
  else match fault with
       | Some e => (Err ("store: delete maintainer: " +:+ e), t)
       | None => (Ok tt, delete (module, userEmail) t)
       end.

Definition IsMaintainer (fault : option string) (module userEmail : string) (t : Grants) : result string bool :=
  if decide (module = "" ∨ userEmail = "") then Ok false
  else match fault with
       | Some e => Err ("store: probe maintainer: " +:+ e)
       | None => Ok (bool_decide (is_Some (t !! (module, userEmail))))
       end.

(** [ORDER BY granted_at ASC] *)
Definition earlier_grant (a b : (string * string) * (string * string)) : bool := String.ltb a.2.1 b.2.1.
Definition ListMaintainers (fault : option string) (module : string) (t : Grants) : result string (list Maintainer) :=
  match fault with
  | Some e => Err ("store: list maintainers: " +:+ e)
  | None => Ok ((λ kv, mkMaintainer kv.1.1 kv.1.2 (parse_time kv.2.1) kv.2.2)
                  <$> sort_slice earlier_grant (filter (λ kv, kv.1.1 = module) (map_to_list t)))
  end.

(** ** The handlers *)

Abbreviation maintainer_world := (Grants * AuditDb)%type.

Inductive manswer : Type :=
| MWrite (w : write)
| MGranted (module email : string)
| MList (l : list Maintainer).

Section handlers.
Context (pol : Policy) (email_payload : string → string).

(** [recordMaintainerAudit]: a failure is logged only. *)
Definition recordMaintainerAudit (fault : option string) (now : Z) (id : Identity) (kind module email : string) (a : AuditDb) : AuditDb :=
  (RecordAudit fault now (mkAuditEvent 0 None kind "rest" module "" true 0 "" (email_payload email) (DisplayName id)) a).2.

(** POST /api/v1/modules/{module}/maintainers; [f] and [fa] are the faults of the grant
    and of its audit row. *)
Definition apiGrantMaintainer (f fa : option string) (now : Z) (ctx : option Identity) (module : string) (b : body_stream string)
    (s : maintainer_world) : manswer * maintainer_world :=
  let id := (FromContext ctx).1 in
  if negb (Allow (Some pol) id "grant_maintainer") then (MWrite (denyByPolicy "grant_maintainer"), s)
  else
    let module := TrimSpace module in
    if decide (module = "") then (MWrite (HttpError 400 "bad request: module path required"), s)
    else
      match decodeJSONBody b with
      | Err w => (MWrite w, s)
      | Ok body =>
          let email := TrimSpace body in
          if decide (email = "") then (MWrite (HttpError 400 "bad request: email required"), s)
          else
            let grantedBy := if decide (DisplayName id = "") then "anonymous" else DisplayName id in
            match AddMaintainer f now module email grantedBy s.1 with
            | (Err _, t) => (MWrite internal_error, (t, s.2))
            | (Ok _, t) => (MGranted module email, (t, recordMaintainerAudit fa now id "maintainer_granted" module email s.2))
            end
      end.

(** DELETE /api/v1/modules/{module}/maintainers/{email} *)
Definition apiRevokeMaintainer (f fa : option string) (now : Z) (ctx : option Identity) (module email : string)
    (s : maintainer_world) : manswer * maintainer_world :=
  let id := (FromContext ctx).1 in
  if negb (Allow (Some pol) id "grant_maintainer") then (MWrite (denyByPolicy "grant_maintainer"), s)
  else
    let module := TrimSpace module in
    let email := TrimSpace email in
    if decide (module = "" ∨ email = "") then (MWrite (HttpError 400 "bad request: module + email required"), s)
    else
      match RemoveMaintainer f module email s.1 with
      | (Err _, t) => (MWrite internal_error, (t, s.2))
      | (Ok _, t) => (MGranted module email, (t, recordMaintainerAudit fa now id "maintainer_revoked" module email s.2))
      end.

(** GET /api/v1/modules/{module}/maintainers *)
Definition apiListMaintainers (f : option string) (ctx : option Identity) (module : string) (s : maintainer_world) : manswer :=
  let id := (FromContext ctx).1 in
  if negb (Allow (Some pol) id "view_maintainers") then MWrite (denyByPolicy "view_maintainers")
  else
    let module := TrimSpace module in
    if decide (module = "") then MWrite (HttpError 400 "bad request: module path required")
    else match ListMaintainers f module s.1 with
         | Err _ => MWrite internal_error
         | Ok rows => MList rows
         end.
End handlers.

(** ** Lemmas: the sort *)

Abbreviation ordered := (StronglySorted (not_after String.ltb)).

(** One element sinks into its place among those before it. *)
Lemma sink_insert p x r : ordered p → ∃ q, sink (length p) (p ++ x :: r) = q ++ r ∧ ordered q ∧ q ≡ₚ x :: p.
Proof.
  revert r. induction p as [|a p IH] using rev_ind; intros r Hp.
  - exists [x]. split; [done|]. split; [repeat constructor|done].
  - rewrite length_app, Nat.add_1_r. cbn [sink].
    assert (((p ++ [a]) ++ x :: r) !! length p = Some a) as -> by (rewrite <- app_assoc; by apply list_lookup_middle).
    assert (((p ++ [a]) ++ x :: r) !! S (length p) = Some x) as ->.
    { apply list_lookup_middle. rewrite length_app. simpl. lia. }
    destruct (String.ltb x a) eqn:E.
    + assert (<[length p := x]> (<[S (length p) := a]> ((p ++ [a]) ++ x :: r)) = p ++ x :: a :: r) as ->.
      { rewrite <- app_assoc. cbn [app]. rewrite insert_app_r_alt by lia. replace (S (length p) - length p) with 1 by lia.
        rewrite insert_app_r_alt by lia. by rewrite Nat.sub_diag. }
      apply StronglySorted_app in Hp as (Hpa & Hp & _). destruct (IH (a :: r) Hp) as (q & -> & Hq & Hperm).
      exists (q ++ [a]). split; [by rewrite <- app_assoc|]. split; [|by rewrite Hperm].
      apply StronglySorted_app_2; [|done|repeat constructor]. intros y z Hy ->%list_elem_of_singleton.
      rewrite Hperm in Hy. apply elem_of_cons in Hy as [->|Hy]; [by apply sw_asym|]. apply Hpa; [done|by left].
    + exists ((p ++ [a]) ++ [x]). split; [by rewrite <- !app_assoc|]. split; [|by rewrite Permutation_app_comm].
      apply StronglySorted_app_2; [|done|repeat constructor]. intros y z Hy ->%list_elem_of_singleton.
      apply elem_of_app in Hy as [Hy| ->%list_elem_of_singleton]; [|done].
      apply StronglySorted_app in Hp as (Hpa & _ & _). eapply (not_after_trans String.ltb _ a); [|exact E]. apply Hpa; [done|by left].
Qed.

Lemma sortStrings_ok s : sortStrings s = sort_strings s.
Proof.
  symmetry. unfold sort_strings. destruct s as [|x s]; [done|]. unfold sortStrings. cbn [length]. rewrite Nat.sub_1_r. cbn [Nat.pred].
  assert (∀ n, n ≤ length s → ∃ q, foldl (λ s i, sink i s) (x :: s) (seq 1 n) = q ++ drop n s ∧ ordered q ∧ q ≡ₚ x :: take n s) as H.
  { induction n as [|n IH]; intros Hn; [exists [x]; split; [done|]; split; [repeat constructor|done]|].
    destruct IH as (q & E & Hq & Hperm); [lia|]. rewrite seq_S, foldl_app, E. cbn [foldl].
    destruct (lookup_lt_is_Some_2 s n ltac:(lia)) as [y Hy]. rewrite (drop_S s y n Hy).
    assert (1 + n = length q) as -> by (rewrite Hperm; simpl; rewrite length_take; lia).
    destruct (sink_insert q y (drop (S n) s) Hq) as (q' & E' & Hq' & Hperm'). exists q'. split; [done|]. split; [done|].
    rewrite Hperm', Hperm, (take_S_r s n y Hy), Permutation_swap. apply perm_skip, Permutation_cons_append. }
  destruct (H (length s) ltac:(lia)) as (q & E & Hq & Hperm). rewrite E, drop_all, app_nil_r. rewrite take_ge in Hperm by lia.
  apply (sort_slice_unique String.ltb); [by symmetry| |done]. intros u v _ _ H1 H2. by apply str_ltb_tricho.
Qed.

(** ** The ledger after any calls *)

Abbreviation hook_call := (option string * Z * collision)%type.
Definition logged (calls : list hook_call) : Sources := foldl (λ t c, collision_hook c.1.1 c.1.2 c.2 t) ∅ calls.

Definition call_key (c : hook_call) : source_key := (col_module c.2, col_version c.2, col_source c.2).
Definition accepted (c : hook_call) : Prop :=
  c.1.1 = None ∧ col_module c.2 ≠ "" ∧ col_version c.2 ≠ "" ∧ col_source c.2 ≠ "" ∧ col_kind c.2 ∈ source_kinds.
#[export] Instance accepted_dec c : Decision (accepted c).
Proof. unfold accepted. apply _. Defined.

(** The first call that was written for a source of a version. *)
Definition first_of (calls : list hook_call) (k : source_key) : option SourceRow :=
  (λ c : hook_call, mkSourceRow (col_kind c.2) (fmt_time c.1.2)) <$> head (filter (λ c, accepted c ∧ call_key c = k) calls).
Definition first_kind (calls : list hook_call) (k : source_key) : option string := sr_kind <$> first_of calls k.

Lemma first_of_snoc calls c k : first_of (calls ++ [c]) k =
  match first_of calls k with
  | Some r => Some r
  | None => if decide (accepted c ∧ call_key c = k) then Some (mkSourceRow (col_kind c.2) (fmt_time c.1.2)) else None
  end.
Proof.
  unfold first_of. rewrite filter_app, filter_cons, filter_nil. destruct (filter _ calls) as [|d l]; [|done]. simpl. by case_decide.
Qed.

Lemma logged_rows calls k : logged calls !! k = first_of calls k.
Proof.
  induction calls as [|c calls IH] using rev_ind; [apply lookup_empty|].
  unfold logged. rewrite foldl_app. fold (logged calls). cbn [foldl]. rewrite first_of_snoc, <- IH.
  unfold collision_hook, LogModuleSource.
  case_decide as He; cbn [snd]; [rewrite decide_False by (unfold accepted; tauto); by destruct (logged calls !! k)|].
  destruct c as [[[e|] now] x]; cbn [fst snd] in *.
  { rewrite decide_False by (by intros [[? _] _]). by destruct (logged calls !! k). }
  destruct (logged calls !! (col_module x, col_version x, col_source x)) as [r|] eqn:Er; cbn [snd].
  - destruct (logged calls !! k) eqn:Ek; [done|]. rewrite decide_False; [done|]. intros [_ <-]. unfold call_key in Ek. cbn in Ek. congruence.
  - case_decide as Hk.
    + destruct (decide (call_key (None, now, x) = k)) as [<-|Hn].
      * unfold call_key in *. cbn [fst snd] in *. rewrite lookup_insert_eq, Er. rewrite decide_True; [done|]. unfold accepted. cbn [fst snd]. tauto.
      * rewrite lookup_insert_ne by done. rewrite decide_False by tauto. by destruct (logged calls !! k).
    + rewrite decide_False by (unfold accepted; cbn; tauto). by destruct (logged calls !! k).
Qed.

(** *** The greatest text *)

Lemma text_max_ge l x : x ∈ l → String.ltb (text_max l) x = false.
Proof.
  unfold text_max. assert (∀ l a, (∀ y, y ∈ a :: l → String.ltb (foldl (λ a b, if String.ltb a b then b else a) a l) y = false)) as H.
  { clear. induction l as [|b l IH]; intros a y Hy; [apply list_elem_of_singleton in Hy as ->; apply str_ltb_irrefl|]. cbn [foldl].
    destruct (String.ltb a b) eqn:E.
    - apply elem_of_cons in Hy as [->|Hy]; [|by apply IH].
      eapply (not_after_trans String.ltb a b); [by apply sw_asym|]. apply IH. by left.
    - apply elem_of_cons in Hy as [->|[->|Hy]%elem_of_cons]; [apply IH; by left| |apply IH; by right].
      eapply (not_after_trans String.ltb b a); [exact E|]. apply IH. by left. }
  intros Hx. apply H. by right.
Qed.

Lemma text_max_in l : l ≠ [] → text_max l ∈ l.
Proof.
  intros Hl. assert (∀ l a, foldl (λ a b, if String.ltb a b then b else a) a l ∈ a :: l) as H.
  { clear. induction l as [|b l IH]; intros a; [by left|]. cbn [foldl]. specialize (IH (if String.ltb a b then b else a)).
    apply elem_of_cons in IH as [->|IH]; [|by right; right]. case_match; [right; by left|by left]. }
  specialize (H l ""). fold (text_max l) in H. apply elem_of_cons in H as [H|H]; [|done].
  destruct l as [|x l]; [done|]. pose proof (text_max_ge (x :: l) x ltac:(by left)) as Hx. rewrite H in Hx.
  rewrite H, (str_ltb_tricho x ""); [by left|by destruct x|done].
Qed.

(** *** One entry *)

Definition serving (kind : string) : Prop := kind = CollisionKindLocal ∨ kind = CollisionKindUpstream.

Lemma assemble_rows rows : Forall (λ kv, kv.1.2 ≠ "") rows →
  let '(served, shadowed) := foldl assemble_row ("", []) rows in
  shadowed = (λ kv, kv.1.2) <$> filter is_shadowed rows ∧
  ((served = "" ∧ Forall (λ kv, ¬ serving (sr_kind kv.2)) rows) ∨
   (∃ kv, kv ∈ rows ∧ serving (sr_kind kv.2) ∧ kv.1.2 = served ∧
      ∀ kv', kv' ∈ rows → serving (sr_kind kv'.2) → String.ltb kv'.1.2 served = false)).
Proof.
  induction rows as [|kv rows IH] using rev_ind; intros HF; [split; [done|]; left; split; [done|constructor]|].
  apply Forall_app in HF as [HF _]. specialize (IH HF). rewrite foldl_app, filter_app, filter_cons, filter_nil. cbn [foldl].
  destruct (foldl assemble_row _ rows) as [served shadowed]. destruct IH as [-> IH]. unfold assemble_row, is_shadowed.
  destruct (decide (sr_kind kv.2 = CollisionKindShadowed)) as [Hs|Hs].
  - rewrite fmap_app. split; [done|]. assert (¬ serving (sr_kind kv.2)) as Hn by (unfold serving; rewrite Hs; by intros [?|?]).
    destruct IH as [[-> H]|(kv0 & Hin & Hk & Hu & Hmin)]; [left; split; [done|]; apply Forall_app; split; [done|by constructor]|].
    right. exists kv0. split_and!; [set_solver|done..|]. intros kv' [?| ->%list_elem_of_singleton]%elem_of_app ?; [by apply Hmin|done].
  - rewrite app_nil_r. fold (serving (sr_kind kv.2)). destruct (decide (serving (sr_kind kv.2))) as [Hv|Hv].
    + destruct (bool_decide (served = "") || String.ltb kv.1.2 served) eqn:E; (split; [done|]); right.
      * exists kv. split_and!; [set_solver|done..|]. intros kv' [Hin'| ->%list_elem_of_singleton]%elem_of_app Hk'; [|apply str_ltb_irrefl].
        destruct IH as [[-> H]|(kv0 & Hin & Hk & <- & Hmin)]; [rewrite Forall_forall in H; by apply H in Hin'|].
        apply orb_true_iff in E as [E%bool_decide_eq_true|E]; [rewrite Forall_forall in HF; by apply HF in Hin|].
        eapply (not_after_trans String.ltb _ kv0.1.2); [by apply sw_asym|by apply Hmin].
      * apply orb_false_iff in E as [E1%bool_decide_eq_false E2]. destruct IH as [[-> H]|(kv0 & Hin & Hk & Hu & Hmin)]; [done|].
        exists kv0. split_and!; [set_solver|done..|]. intros kv' [?| ->%list_elem_of_singleton]%elem_of_app ?; [by apply Hmin|done].
    + split; [done|]. destruct IH as [[-> H]|(kv0 & Hin & Hk & Hu & Hmin)]; [left; split; [done|]; apply Forall_app; split; [done|by constructor]|].
      right. exists kv0. split_and!; [set_solver|done..|]. intros kv' [?| ->%list_elem_of_singleton]%elem_of_app ?; [by apply Hmin|done].
Qed.

Lemma elem_of_rows t mv kv : kv ∈ source_rows t mv ↔ t !! kv.1 = Some kv.2 ∧ kv.1.1 = mv.
Proof. unfold source_rows. rewrite list_elem_of_filter. destruct kv as [k r]. rewrite elem_of_map_to_list. simpl. tauto. Qed.

Lemma rows_NoDup t mv : NoDup ((λ kv, kv.1.2) <$> source_rows t mv).
Proof.
  pose proof (NoDup_fst_map_to_list t) as H. unfold source_rows. apply (NoDup_fmap_filter fst (λ kv, kv.1.1 = mv)) in H.
  assert ((filter (λ kv, kv.1.1 = mv) (map_to_list t)).*1 =
    (λ u, (mv, u)) <$> ((λ kv, kv.1.2) <$> filter (λ kv, kv.1.1 = mv) (map_to_list t))) as E.
  { rewrite <- list_fmap_compose. apply list_fmap_ext. intros i kv Hi%list_elem_of_lookup_2. apply list_elem_of_filter in Hi as [<- _].
    by destruct kv as [[??]?]. }
  rewrite E in H. by apply NoDup_fmap_1 in H.
Qed.

(** *** The pairs *)

Lemma elem_of_pairs t mv : mv ∈ pairs t ↔ ∃ u r, t !! (mv, u) = Some r ∧ sr_kind r = CollisionKindShadowed.
Proof.
  unfold pairs. rewrite elem_of_elements, elem_of_list_to_set, list_elem_of_fmap. split.
  - intros ([[mv' u] r] & -> & [Hs H%elem_of_map_to_list]%list_elem_of_filter). by exists u, r.
  - intros (u & r & H & Hs). exists ((mv, u), r). split; [done|]. apply list_elem_of_filter. split; [done|]. by apply elem_of_map_to_list.
Qed.

Definition earlier_pair (a b : (string * string) * string) : bool := String.ltb a.2 b.2.
#[export] Instance earlier_pair_sw : StrictWeak earlier_pair.
Proof. apply (sw_on snd String.ltb). Qed.
#[export] Instance later_pair_sw : StrictWeak later_pair.
Proof. apply (sw_flip earlier_pair). Qed.

Lemma elem_of_sorted_pairs t g : g ∈ sort_slice later_pair ((λ mv, (mv, latest t mv)) <$> pairs t) ↔ g.1 ∈ pairs t ∧ g.2 = latest t g.1.
Proof.
  rewrite elem_of_sort_slice, list_elem_of_fmap. destruct g as [mv ts]. simpl. split; [by intros (? & [= -> ->] & ?)|].
  intros [? ->]. by exists mv.
Qed.

Lemma groups_spec limit t g : g ∈ collision_groups limit t → g.1 ∈ pairs t ∧ g.2 = latest t g.1.
Proof. unfold collision_groups. intros H%subseteq_take. by apply elem_of_sorted_pairs. Qed.

Lemma groups_NoDup limit t : NoDup (collision_groups limit t).*1.
Proof.
  unfold collision_groups. apply NoDup_fmap_take. rewrite sort_slice_perm, <- list_fmap_compose.
  rewrite (list_fmap_ext _ id) by done. rewrite list_fmap_id. unfold pairs. apply NoDup_elements.
Qed.

(** A pair that is left out is no newer than any that is in, and then the sample is full. *)
Lemma groups_rest limit t mv : mv ∈ pairs t → mv ∈ (collision_groups limit t).*1 ∨
  (length (collision_groups limit t) = Z.to_nat limit ∧ ∀ g, g ∈ collision_groups limit t → String.ltb g.2 (latest t mv) = false).
Proof.
  intros Hmv. destruct (decide (mv ∈ (collision_groups limit t).*1)) as [|Hn]; [by left|right].
  assert ((mv, latest t mv) ∈ sort_slice later_pair ((λ mv, (mv, latest t mv)) <$> pairs t)) as Hin by (by apply elem_of_sorted_pairs).
  assert ((mv, latest t mv) ∉ collision_groups limit t) as Hout by (intros H; apply Hn, list_elem_of_fmap; by exists (mv, latest t mv)).
  split.
  - unfold collision_groups in *. rewrite length_take. destruct (decide (length (sort_slice later_pair ((λ mv, (mv, latest t mv)) <$> pairs t)) ≤ Z.to_nat limit)); [|lia].
    rewrite take_ge in Hout by done. done.
  - intros g Hg. unfold collision_groups in *.
    destruct (StronglySorted_take (not_after later_pair) (Z.to_nat limit) _ (sort_slice_sorted later_pair ((λ mv, (mv, latest t mv)) <$> pairs t))) as [_ H].
    exact (H g (mv, latest t mv) Hg Hin Hout).
Qed.

(** What an entry says of its sources, in terms of the calls. *)
Definition entry_exact (calls : list hook_call) (e : ModuleCollision) : Prop :=
  let kind u := first_kind calls (mc_Module e, mc_Version e, u) in
  (∀ u, u ∈ mc_Shadowed e ↔ kind u = Some CollisionKindShadowed) ∧ ordered (mc_Shadowed e) ∧ NoDup (mc_Shadowed e) ∧
  (mc_ServedFrom e = "" ∧ (∀ u k, kind u = Some k → ¬ serving k) ∨
   ∃ k, kind (mc_ServedFrom e) = Some k ∧ serving k ∧
     ∀ u k', kind u = Some k' → serving k' → String.ltb u (mc_ServedFrom e) = false) ∧
  ∃ u r, first_of calls (mc_Module e, mc_Version e, u) = Some r ∧ sr_kind r = CollisionKindShadowed ∧ sr_seen_at r = mc_LastSeen e.

Lemma first_kind_rows calls mv u k : first_kind calls (mv, u) = Some k ↔ ∃ kv, kv ∈ source_rows (logged calls) mv ∧ kv.1.2 = u ∧ sr_kind kv.2 = k.
Proof.
  unfold first_kind. rewrite <- logged_rows. split.
  - destruct (logged calls !! (mv, u)) as [r|] eqn:E; [|done]. intros [= <-]. exists ((mv, u), r). by rewrite elem_of_rows.
  - intros ([[mv' u'] r] & [H Hmv]%elem_of_rows & <- & <-). simpl in *. subst. by rewrite H.
Qed.

Lemma rows_urls calls mv : Forall (λ kv, kv.1.2 ≠ "") (source_rows (logged calls) mv).
Proof.
  apply Forall_forall. intros [[mv' u] r] [H _]%elem_of_rows. cbn [fst snd] in *. rewrite logged_rows in H. unfold first_of in H.
  destruct (filter _ calls) as [|c l] eqn:E; [done|].
  assert (c ∈ filter (λ c, accepted c ∧ call_key c = (mv', u)) calls) as [[Ha Hk] _]%list_elem_of_filter by (rewrite E; by left).
  unfold call_key in Hk. injection Hk as _ <-. apply Ha.
Qed.

Lemma assemble_exact calls g : g.1 ∈ pairs (logged calls) → g.2 = latest (logged calls) g.1 → entry_exact calls (assemble (logged calls) g).
Proof.
  destruct g as [[m v] ts]. cbn [fst snd]. intros Hp ->. unfold assemble. cbn [fst snd].
  pose proof (assemble_rows _ (rows_urls calls (m, v))) as Ha.
  destruct (foldl assemble_row _ _) as [served shadowed]. destruct Ha as [-> Hserved]. unfold entry_exact. cbn [mc_Module mc_Version mc_Shadowed mc_ServedFrom mc_LastSeen].
  rewrite sortStrings_ok. split_and!.
  - intros u. rewrite elem_of_sort_strings, first_kind_rows, list_elem_of_fmap. split.
    + intros (kv & -> & [Hs Hin]%list_elem_of_filter). by exists kv.
    + intros (kv & Hin & <- & Hs). exists kv. by rewrite list_elem_of_filter.
  - apply (sort_slice_sorted String.ltb).
  - unfold sort_strings. rewrite sort_slice_perm. apply NoDup_fmap_filter, rows_NoDup.
  - destruct Hserved as [[-> H]|(kv & Hin & Hk & <- & Hmin)]; [left|right].
    + split; [done|]. intros u k (kv & Hin & _ & <-)%first_kind_rows. rewrite Forall_forall in H. by apply H.
    + exists (sr_kind kv.2). rewrite first_kind_rows. split; [by exists kv|]. split; [done|].
      intros u k' (kv' & Hin' & <- & <-)%first_kind_rows Hk'. by apply Hmin.
  - unfold latest. assert (text_max ((λ kv, sr_seen_at kv.2) <$> filter is_shadowed (source_rows (logged calls) (m, v))) ∈
      (λ kv, sr_seen_at kv.2) <$> filter is_shadowed (source_rows (logged calls) (m, v))) as Hin.
    { apply text_max_in. intros E%fmap_nil_inv. apply elem_of_pairs in Hp as (u & r & Hr & Hs).
      assert (((m, v, u), r) ∈ filter is_shadowed (source_rows (logged calls) (m, v))) as H; [|rewrite E in H; by apply not_elem_of_nil in H].
      apply list_elem_of_filter. split; [done|]. by apply elem_of_rows. }
    apply list_elem_of_fmap in Hin as ([[mv u] r] & E & [Hs [Hr Hmv]%elem_of_rows]%list_elem_of_filter). cbn [fst snd] in *. subst mv.
    exists u, r. by rewrite <- logged_rows.
Qed.

Lemma assemble_head t g : (mc_Module (assemble t g), mc_Version (assemble t g)) = g.1 ∧ mc_LastSeen (assemble t g) = g.2.
Proof. unfold assemble. destruct (foldl _ _ _) as [served shadowed]. by destruct g as [[??]?]. Qed.

(** Whatever the federation has logged, in whatever order, a collision report is
    exact: each entry is a version with the sources first seen as shadowed, sorted, the
    least of those first seen as serving it, and a time of the former; a version with a
    shadowed source is reported, unless the report is full of others as new. *)
Theorem collisions_exact calls limit :
  let t := logged calls in
  let sample := GetCollisionsSample limit t in
  let n := Z.to_nat (if (limit <=? 0)%Z then 10 else limit) in
  (∀ e, e ∈ sample → entry_exact calls e) ∧
  NoDup ((λ e, (mc_Module e, mc_Version e)) <$> sample) ∧ length sample ≤ n ∧
  ∀ m v u r, first_of calls (m, v, u) = Some r → sr_kind r = CollisionKindShadowed →
    (∃ e, e ∈ sample ∧ (mc_Module e, mc_Version e) = (m, v) ∧ String.ltb (mc_LastSeen e) (sr_seen_at r) = false) ∨
    (length sample = n ∧ ∀ e, e ∈ sample → String.ltb (mc_LastSeen e) (sr_seen_at r) = false).
Proof.
  intros t sample n. unfold sample, GetCollisionsSample. set (limit' := if (limit <=? 0)%Z then 10%Z else limit) in *. split_and!.
  - intros e (g & -> & [Hp Hl]%groups_spec)%list_elem_of_fmap. by apply assemble_exact.
  - rewrite <- list_fmap_compose. rewrite (list_fmap_ext _ fst); [apply groups_NoDup|]. intros i g _. apply assemble_head.
  - rewrite length_fmap. unfold collision_groups. rewrite length_take. fold n. unfold n, limit'. lia.
  - intros m v u r Hr Hs. rewrite <- logged_rows in Hr. fold t in Hr.
    assert (String.ltb (latest t (m, v)) (sr_seen_at r) = false) as Hlat.
    { apply text_max_ge, list_elem_of_fmap. exists ((m, v, u), r). rewrite list_elem_of_filter, elem_of_rows. done. }
    assert ((m, v) ∈ pairs t) as Hp by (apply elem_of_pairs; by exists u, r).
    destruct (groups_rest limit' t (m, v) Hp) as [(g & Eg & Hg)%list_elem_of_fmap|[Hlen Hrest]]; [left|right].
    + exists (assemble t g). destruct (assemble_head t g) as [-> ->]. pose proof (groups_spec _ _ _ Hg) as [_ ->]. rewrite <- Eg.
      split; [|done]. apply list_elem_of_fmap. eauto.
    + rewrite length_fmap. split; [unfold n, limit' in *; done|]. intros e (g & -> & Hg)%list_elem_of_fmap.
      destruct (assemble_head t g) as [_ ->]. eapply (not_after_trans String.ltb _ (latest t (m, v))); [exact Hlat|by apply Hrest].
Qed.

(** A source that served first and is shadowed later stays a source that serves. *)
Example shadow_not_seen :
  let log kind url := (None, 0%Z, mkCollision "m" "1" url kind) : hook_call in
  GetCollisionsCount (logged [log CollisionKindUpstream "b"; log CollisionKindUpstream "a"; log CollisionKindShadowed "b"]) = 0 ∧
  GetCollisionsCount (logged [log CollisionKindUpstream "a"; log CollisionKindShadowed "b"]) = 1.
Proof. vm_compute. auto. Qed.

(** The time of an entry is that of the first shadowing, not of the newest. *)
Example last_seen_is_first :
  let log now := (None, now, mkCollision "m" "1" "b" CollisionKindShadowed) : hook_call in
  mc_LastSeen <$> GetCollisionsSample 10 (logged [log 0%Z; log 3600000000000%Z]) = [fmt_time 0].
Proof. vm_compute. done. Qed.

(** ** The grants after any requests *)

Section grants.
Context (pol : Policy) (email_payload : string → string).

Inductive maintainer_request :=
| RGrant (f fa : option string) (now : Z) (ctx : option Identity) (module : string) (b : body_stream string)
| RRevoke (f fa : option string) (now : Z) (ctx : option Identity) (module email : string).

Definition handle (s : maintainer_world) (r : maintainer_request) : maintainer_world :=
  match r with
  | RGrant f fa now ctx module b => (apiGrantMaintainer pol email_payload f fa now ctx module b s).2
  | RRevoke f fa now ctx module email => (apiRevokeMaintainer pol email_payload f fa now ctx module email s).2
  end.
Definition handled (l : list maintainer_request) : maintainer_world := foldl handle (∅, emptyAudit) l.

(** What a request does when it gets through: a grant with its row, or a revocation. *)
Definition effect (r : maintainer_request) : option ((string * string) * option (string * string)) :=
  match r with
  | RGrant None _ now ctx module b =>
      let id := (FromContext ctx).1 in
      match decodeJSONBody b with
      | Ok email =>
          if Allow (Some pol) id "grant_maintainer" && bool_decide (TrimSpace module ≠ "" ∧ TrimSpace email ≠ "") then
            Some ((TrimSpace module, TrimSpace email), Some (fmt_time now, if decide (DisplayName id = "") then "anonymous" else DisplayName id))
          else None
      | Err _ => None
      end
  | RRevoke None _ now ctx module email =>
      if Allow (Some pol) (FromContext ctx).1 "grant_maintainer" && bool_decide (TrimSpace module ≠ "" ∧ TrimSpace email ≠ "") then
        Some ((TrimSpace module, TrimSpace email), None)
      else None
  | _ => None
  end.

Definition apply_effect (t : Grants) (e : option ((string * string) * option (string * string))) : Grants :=
  match e with
  | Some (k, Some row) => match t !! k with Some _ => t | None => <[k := row]> t end
  | Some (k, None) => delete k t
  | None => t
  end.

Lemma handle_effect s r : (handle s r).1 = apply_effect s.1 (effect r).
Proof.
  destruct r as [f fa now ctx module b|f fa now ctx module email]; unfold handle, apiGrantMaintainer, apiRevokeMaintainer, effect.
  - destruct (Allow _ _ _); simpl; [|by repeat case_match].
    destruct (decide (TrimSpace module = "")) as [Hm|Hm].
    { destruct f; [done|]. destruct (decodeJSONBody b); [|done]. rewrite bool_decide_eq_false_2 by tauto. done. }
    destruct (decodeJSONBody b) as [email|w]; [|by destruct f].
    destruct (decide (TrimSpace email = "")) as [He|He]; [destruct f; [done|]; rewrite bool_decide_eq_false_2 by tauto; done|].
    unfold AddMaintainer. rewrite !decide_False by (first [done|case_decide; done]).
    destruct f as [e|]; [done|]. rewrite bool_decide_eq_true_2 by done. simpl. by destruct (s.1 !! _).
  - destruct (Allow _ _ _); simpl; [|by destruct f].
    destruct (decide (TrimSpace module = "" ∨ TrimSpace email = "")) as [Hm|Hm].
    { destruct f; [done|]. rewrite bool_decide_eq_false_2 by tauto. done. }
    unfold RemoveMaintainer. rewrite !decide_False by tauto. destruct f as [e|]; [done|]. rewrite bool_decide_eq_true_2 by tauto. done.
Qed.

Abbreviation grants l := ((handled l).1).

Lemma handled_snoc l r : grants (l ++ [r]) = apply_effect (grants l) (effect r).
Proof. unfold handled. rewrite foldl_app. apply handle_effect. Qed.

Lemma lookup_effect t e k : apply_effect t e !! k =
  match e with
  | Some (k', Some row) => if decide (k' = k) then Some (default row (t !! k)) else t !! k
  | Some (k', None) => if decide (k' = k) then None else t !! k
  | None => t !! k
  end.
Proof.
  destruct e as [[k' [row|]]|]; simpl; [| |done].
  - destruct (t !! k') eqn:E; case_decide as Hk; subst; rewrite ?E; [done|done|by rewrite lookup_insert_eq|by rewrite lookup_insert_ne].
  - case_decide as Hk; subst; [by rewrite lookup_delete_eq|by rewrite lookup_delete_ne].
Qed.

(** No grant since the last revocation, or since the start. *)
Definition ungranted (l : list maintainer_request) (k : string * string) : Prop :=
  ∃ p q, l = p ++ q ∧ (p = [] ∨ ∃ p' r, p = p' ++ [r] ∧ effect r = Some (k, None)) ∧
    Forall (λ r, ∀ row, effect r ≠ Some (k, Some row)) q.

Lemma ungranted_iff l k : grants l !! k = None ↔ ungranted l k.
Proof.
  split.
  - induction l as [|r l IH] using rev_ind; [intros _; by exists [], []; split; [|split; [left|constructor]]|].
    rewrite handled_snoc, lookup_effect. intros H. destruct (decide (effect r = Some (k, None))) as [E|E].
    { exists (l ++ [r]), []. rewrite app_nil_r. split; [done|]. split; [right; by exists l, r|constructor]. }
    assert (grants l !! k = None ∧ ∀ row, effect r ≠ Some (k, Some row)) as [Hl Hr].
    { destruct (effect r) as [[k' [row|]]|]; [| |done].
      - destruct (decide (k' = k)); [done|]. split; [done|congruence].
      - split; [|congruence]. case_decide; congruence. }
    destruct (IH Hl) as (p & q & -> & Hp & Hq). exists p, (q ++ [r]). rewrite app_assoc. split; [done|]. split; [done|].
    apply Forall_app. split; [done|by constructor].
  - intros (p & q & -> & Hp & Hq). induction q as [|r q IH] using rev_ind.
    + rewrite app_nil_r. destruct Hp as [->|(p' & r & -> & E)]; [apply lookup_empty|]. rewrite handled_snoc, lookup_effect, E. by rewrite decide_True.
    + apply Forall_app in Hq as [Hq Hr]. apply Forall_cons in Hr as [Hr _]. rewrite app_assoc, handled_snoc, lookup_effect, (IH Hq).
      destruct (effect r) as [[k' [row|]]|]; [|by case_decide|done]. rewrite decide_False; [done|]. intros ->. by apply (Hr row).
Qed.

(** C23: Through any sequence of calls with any failures, a maintainer's grant stands
    exactly when a call that the policy allows made it and no later one that it allows
    revoked it; and the row is that of the first such grant since the last revocation. *)
Theorem grants_exact l k row : grants l !! k = Some row ↔
  ∃ pre r post, l = pre ++ r :: post ∧ ungranted pre k ∧ effect r = Some (k, Some row) ∧
    Forall (λ q, effect q ≠ Some (k, None)) post.
Proof.
  split.
  - induction l as [|r l IH] using rev_ind; [by intros [=]|]. rewrite handled_snoc, lookup_effect. intros H.
    destruct (grants l !! k) as [row'|] eqn:E.
    + assert (row' = row ∧ effect r ≠ Some (k, None)) as [-> Hr].
      { destruct (effect r) as [[k' [row''|]]|]; repeat (case_decide; simplify_eq/=); split; congruence. }
      destruct (IH eq_refl) as (pre & r' & post & -> & Hpre & Hr' & Hpost). exists pre, r', (post ++ [r]).
      rewrite <- app_assoc. split_and!; [done..|]. apply Forall_app. split; [done|by constructor].
    + exists l, r, []. split_and!; [done|by apply ungranted_iff| |constructor].
      destruct (effect r) as [[k' [row'|]]|]; repeat case_decide; simplify_eq/=; done.
  - intros (pre & r & post & -> & Hpre%ungranted_iff & Hr & Hpost). induction post as [|q post IH] using rev_ind.
    + rewrite handled_snoc, lookup_effect, Hr, decide_True by done. by rewrite Hpre.
    + apply Forall_app in Hpost as [Hpost Hq]. apply Forall_cons in Hq as [Hq _].
      rewrite app_comm_cons, app_assoc, handled_snoc, lookup_effect, (IH Hpost).
      destruct (effect q) as [[k' [row'|]]|]; [by case_decide| |done]. rewrite decide_False; [done|]. intros ->. done.
Qed.
End grants.

(** The evaluator in front of the grants keeps its verdict over a revocation: the handler
    does not invalidate it. *)
Example revoked_still_allowed :
  let id := mkIdentity "a" "a@x" [] SourceHeader in
  let cfg := NewEvaluator Evaluator.demo_policy true 0 0 in
  let table : Grants := {[("m", "a@x") := ("t", "root")]} in
  let first := AllowFor cfg id "maintain_module" "m" 0 (IsMaintainer None "m" "a@x" table) 0 emptyCache in
  let table' := (RemoveMaintainer None "m" "a@x" table).2 in
  first.1 = true ∧
  (AllowFor cfg id "maintain_module" "m" 1 (IsMaintainer None "m" "a@x" table') 1 first.2).1 = true ∧
  (AllowFor cfg id "maintain_module" "m" 1 (IsMaintainer None "m" "a@x" table') 1 (InvalidateMaintainer "a@x" "m" first.2)).1 = false.
Proof. vm_compute. auto. Qed.
